(* ===== verification/_CoqProject ===== *)
-Q . S2P
Prelude.v
Text.v
Health.v
Peer.v
Approval.v
Fence.v
Scheduler.v
DurableStore.v
Controller.v
Conformance.v
Conforming.v
Budget.v
Codec.v
Wire.v
WireCanonical.v
Digest.v
AuditChain.v
Clock.v
AuditStore.v
Values.v
Journal.v
Identity.v
SandboxValues.v
Address.v
Url.v
SandboxSpec.v
Provider.v
Events.v
Egress.v
EgressRequest.v
EgressProvider.v
EgressBroker.v
Table.v
RowMap.v
CancelLedger.v
CancelDispatch.v
CancelHost.v
Spool.v
Control.v
ApprovalLedger.v
ApprovalConfig.v
ApprovalRequests.v
ApprovalLane.v
Seccomp.v
AppendTable.v
RunSubmissions.v
RunIndex.v
Progress.v
Backend.v
AttemptHost.v
ExecutionLane.v
