(* ===== verification/Prelude.v ===== *)
(** * Automonique: a verification of its core

    Automonique is a daemon that runs agent work for an operator: it schedules
    work under a durable fence, asks for approval, keeps an audit chain, speaks
    a framed canonical-JSON protocol to its clients, contains each run in a
    sandbox and paces its calls to chat services.  This library models the
    deciding parts of the Rust sources under [src/rust/crates] as executable
    definitions and proves what makes them correct.

    ** The program's parts and where they are modelled

    - [Prelude] (this file): [Result] as a monad, machine widths, list lemmas,
      the tactics and hint databases.  [Text]: strings as scalar values with
      their UTF-8 bytes, decimal printing, splitting.
    - [Health], [Peer], [Approval] (crate automonique-policy): the health
      summary of the doctor; admission of socket peers by kernel credentials and
      the checks on runtime files and relative paths; composition of approval
      requirements and the gate.
    - [Fence], [Scheduler] (automonique-core, scheduler_conformance.rs): fences,
      the [SchedulerCore] trait as a class, and the in-memory reference
      scheduler.  [DurableStore] (automonique-store, durable_scheduler.rs): the
      same scheduler as transactions on three tables, with authority fencing
      across owners.  [Controller] (automonique-core, lib.rs): the controller
      tick over any durable adapter (a class), with the adapter of the unit
      tests.  [Conformance], [Conforming]: the conformance suite as a program in
      a state-and-error monad over any scheduler, and the run of it against the
      reference and against the store's adapter.
    - [Budget] (automonique-transport-runtime, budget.rs): the token buckets,
      pauses and retention that pace Telegram and Slack calls.
    - [Codec], [Wire], [WireCanonical] (automonique-protocol, codec.rs and
      wire.rs): frames, bounded fields, version negotiation and envelopes;
      the JSON writer and parser down to bytes; their round trips.
    - [Digest] (digest.rs): SHA-256, its streaming buffer and the spelling of
      digests.  [AuditChain] (audit.rs): audit records, their canonical bytes,
      hashes and the chain verifier, over [Wire] and [Digest].  [Clock]
      (automonique-core, conversation.rs): the RFC 3339 clock.  [AuditStore]
      (automonique-store, audit_chain.rs; automonique-daemon, lib.rs;
      automonique-cli, audit.rs): the audit table's transactions, the two
      daemon functions that write to it and the command that verifies it.
    - [Values] (primitives.rs): bounded values, instants and revisions.
      [Url]: ports, DNS names, authorities and public URLs, with the exact
      grammar the constructor accepts ([url_exact]).
      [Journal] (journal.rs): the event journal, the idempotent action ledger
      and consumer cursors.  [Events] (event.rs): recorded events, run
      timelines, subscriptions and provider approvals.  [Provider]
      (provider.rs): capabilities and mode selection.  [Identity]
      (identity.rs): actors, role grants, policy decisions and credentials.
    - [Address]: the address parsers of the standard library.  [Egress],
      [EgressRequest], [EgressProvider], [EgressBroker] (automonique-egress-broker,
      allowlist.rs, request.rs, identity.rs, substitute.rs and lib.rs): the
      destination policy, the CONNECT parser and the reading of a head from a
      socket, the credential substitution, and the two connection handlers as
      lists of effects over what the world answers.
    - [Table]: tables with an integer primary key, as SQLite keeps them.
      [RowMap]: a table whose rows are written by a codec read as a finite map
      from its keys, the shape the ledgers below share.
      [CancelLedger] (automonique-store, cancel_ledger.rs): the durable ledger of
      cancellation requests.  [CancelDispatch] (automonique-runner, dispatch.rs
      and the traits of control.rs; automonique-daemon, cancel_custody.rs): the
      custody over that ledger, the dispatcher and the seats that connect a
      control server to it.  [CancelHost]: several such processes over one
      ledger, as interleaved steps.  [ApprovalLedger] (automonique-store,
      approval_ledger.rs): the write-once ledger of approval decisions.
      [ApprovalRequests] (approval_requests.rs, approval_watch.rs): the table of
      proposals, its fenced transitions and the bells that wake who waits.
      [ApprovalConfig] (automonique-daemon, approval_policy.rs): the approval
      configuration file and the lifetime of a proposal.  [ApprovalLane]
      (automonique-daemon, lib.rs and execute.rs; automonique-protocol,
      execute_api.rs): the lane over both tables: minting keys, binding a launch
      to its context, the gate at launch, the one deciding function, the expiry
      sweep, the repair at opening and the wait for a provider's permission,
      interleaved with everybody else's transactions.
    - [Spool] (automonique-runner, spool.rs): the hash-chained event file of a
      run and its recovery.  [Control] (control.rs; automonique-protocol,
      provenance.rs): the control endpoint, from peer to answer.
    - [AppendTable]: a table that only grows by validated rows, shared by the two
      ledgers of runs.  [RunSubmissions] (automonique-store, run_submissions.rs):
      the custody of submitted run documents.  [RunIndex] (run_index.rs): the
      read model of the runs, its fenced advances and its pages.
    - [Progress] (automonique-protocol, progress_api.rs): progress texts, frames,
      subscriptions and stream messages down to bytes, over [Wire] and [Events].
      [Backend] (automonique-runner, backend.rs): one supervised attempt, from
      the preparation to the terminal event, over its [Spool].
      [AttemptHost] (automonique-daemon, attempt_host.rs): the dispatcher over
      the durable custody, with the sink a worker registers.  [ExecutionLane]
      (execute.rs; [start_run] and [cancel_run] of lib.rs): the serve thread that
      starts and cancels runs and the workers that run and report them, as
      interleaved steps over the tables, the gate, the host and the spools.
    - [Seccomp] (automonique-runner, seccomp.rs): the socket policy of a run, the
      deny clauses it compiles to and the two seccomp programs installed, over
      a class for seccompiler and the kernel.
    - [SandboxValues], [SandboxSpec] (sandbox.rs): what a sandbox spec is made
      of, how specs are compared, admitted on a host, reused and adopted.

    The parts meet as in the sources: the durable store refines the reference
    scheduler; the controller is proved against the adapter interface; the audit
    writers and the verifier share [AuditChain]; frames carry the messages of
    [Wire]; sandbox specs name the actors of [Identity]; event subscriptions are
    compared with the cursors of [Journal]; the dispatcher is proved over the
    custody class and then run over the ledger's custody by several processes;
    the control endpoint reads a [Spool] and cancels through a seat; a
    supervised attempt appends to a [Spool] the frames of [Progress], which carry
    the members [Events] admits; the execution lane reads a row of [RunIndex]
    and a document of [RunSubmissions], asks the gate of [ApprovalLane],
    registers with [AttemptHost], runs [Backend.execute] and reports to
    [RunIndex] again; the
    approval lane composes the gate of [Approval] with the ledger, the requests,
    the configuration and the audit chain; the
    broker's handlers call the
    policy, the parsers and the substitution of the other Egress files.

    ** How the code corresponds

    A [Result] is [result E A]; the question mark is the bind.  An operation on
    [&mut self] takes the state and answers the result with the state it leaves,
    also when it fails.  Integers are [Z]; a wrap, a saturation or a checked
    operation is written where the code has one.  A string is the list of its
    Unicode scalar values, and its length is the length of its UTF-8 bytes.
    Tables are lists of rows in insertion or row-id order; a transaction that fails leaves
    the database as it was.  Traits are classes, with instances for the
    implementations.  Constructors and fields keep the source's names, with an
    underscore or a prefix where a name is taken.

    ** What the theorems show

    Scheduling: parallelism stays bounded and a scope runs one item at a time,
    work is admitted in order, started once and never lost, also across owners;
    the store refines the reference scheduler (an epoch its columns cannot hold is
    refused as a field instead of as stale); a stale owner is fenced out; the
    controller hands its executor exactly the claims the adapter answers as new;
    both schedulers pass the suite.
    Audit: the verifier accepts exactly the chains the writer produces, any
    change to a record breaks the chain unless the two chains themselves hold a
    collision of SHA-256, at the point where they part, and the verification verb
    answers exactly by the rows it reads.
    Approvals: the tables refine maps; an answered proposal is backed by the
    ledger in every reachable state of the lane, crashes between the two writes
    included; the answers of the deciding function are true while others run
    around each of its steps; a launch that needs an approval passes only under
    a standing grant of its very context; the repair completes exactly the
    half-written decisions of the first 256 rows; a waiter does not sleep
    through an answer; a configured lifetime is a minute to a week with its
    rungs inside.  Runs: a submitted document is permanent under its
    key; a row of the index only moves forward, one accepted report at a
    revision, and its pages are exact; frames and stream messages decode to
    themselves and to nothing else; whatever an attempt meets, its log is its
    start, frames of its own run and one end, a report says what that log says,
    progress never changes how an attempt ends, and the end is recorded unless
    the budget has no room for its line.  In every state of the execution lane a
    run has one worker, at most eight run, and an attempt is registered exactly
    while its worker holds it; a refused start leaves nothing but what the gate wrote and an opened spool; a row that tells an
    end tells that of an attempt whose log says it; a cancellation sets the token
    of a worker that is still registered, or none.  Socket filter: the deny clauses are the complement of the
    policy, and the two installed programs allow exactly the socket calls it
    permits, on both ABIs.  Budgets: drafts are rate bounded and durable messages
    are not starved.  Protocol: frames and messages round trip, the parser
    accepts exactly canonical text and always answers.  Sandbox: the comparison
    of specs is exactly the inclusion of what they permit, reuse never widens
    authority, narrowing is intersection, adoption requires equality in every
    field.  Egress: a connection reaches the network only for a request whose
    exact host and port are allowed and at addresses in scope; nothing is
    resolved or dialled for a request without the session's sentinel; what is
    forwarded parses back to the broker's own credential and host and the
    workload's other headers; the accepted CONNECT heads are exactly the
    documented ones, however their bytes arrive; slots stay bounded.  Identity: a request is allowed exactly by a grant in force of the
    same tenant.  Journal and events: revisions are dense, identifiers increase,
    idempotency keys and approvals are permanent, a run ends once.  The small
    policies: approval composition is a join, peers and paths are admitted
    exactly as documented, health fails closed, the clock is the calendar's.

    Where the code departs from what its comments promise, the theorem states
    what the code does and the manifest lists the finding.

    ** Fuel and bounds

    The JSON parser recurses on a fuel of the input's length plus one, and
    [WireCanonical] proves that this always answers.  Decimal printing recurses
    on the binary logarithm.  The page walk of the audit reader takes one more
    step than there are rows; [AuditStore] proves it returns.  Reading a head or a
    body takes one step per byte at most, so the bound plus two and the framed
    length plus one are enough; [EgressRequest] and [EgressProvider] prove they
    answer.  The walk over approval pages takes one of a list of reads at each
    step; as many reads as there are decisions are enough.  All other loops are structural.  Hypotheses on integers say that a value has the width of
    its Rust type; hypotheses such as [spec_ok] say that a value came from its
    constructor.

    ** Not modelled

    Operating-system and network code (sockets, processes, async tasks, HTTP,
    SQLite's own failures, file permissions), the text of Display and Debug
    output, and generated code.  In a supervised attempt the process, the
    containment, the reader thread and the clock are inputs of each turn; the
    publisher is the list of what it was given.  In the execution
    lane the checks of the host that prepares an attempt are inputs of a start,
    and the session mode is left out.  Left out of the remaining core:
    the run document of automonique-runner, and the larger protocol
    records (automation, batch, models), which decode field by field
    over [Wire]. *)

From Stdlib Require Export ZArith Lia.
From stdpp Require Export base tactics option numbers list sorting gmap strings.

#[global] Open Scope Z_scope.

(** * Fallible code

    [Result<T, E>] of the sources.  The error type is the parameter, so that
    [result E] is a monad and the [?] operator is stdpp's [x ← e; k]. *)

Inductive result (E A : Type) : Type :=
| Ok (a : A)
| Err (e : E).
Arguments Ok {E A} a.
Arguments Err {E A} e.

#[export] Instance result_ret {E} : MRet (result E) := fun _ a => Ok a.
#[export] Instance result_bind {E} : MBind (result E) := fun A B f m =>
  match m with Ok a => f a | Err e => Err e end.
#[export] Instance result_fmap {E} : FMap (result E) := fun A B f m =>
  match m with Ok a => Ok (f a) | Err e => Err e end.

(** [Result::map_err]. *)
Definition map_err {E F A} (f : E -> F) (m : result E A) : result F A :=
  match m with Ok a => Ok a | Err e => Err (f e) end.

(** [Option::ok_or]. *)
Definition ok_or {E A} (o : option A) (e : E) : result E A :=
  match o with Some a => Ok a | None => Err e end.

(** [Result::ok]. *)
Definition ok {E A} (m : result E A) : option A :=
  match m with Ok a => Some a | Err _ => None end.

Definition is_ok {E A} (m : result E A) : bool :=
  match m with Ok _ => true | Err _ => false end.

#[export] Instance result_eq_dec {E A} `{EqDecision E, EqDecision A} :
  EqDecision (result E A).
Proof. solve_decision. Defined.

Lemma bind_Ok {E A B} (m : result E A) (f : A -> result E B) b :
  m ≫= f = Ok b <-> exists a, m = Ok a /\ f a = Ok b.
Proof. destruct m; cbn; naive_solver. Qed.

Lemma bind_Err {E A B} (m : result E A) (f : A -> result E B) e :
  m ≫= f = Err e <-> m = Err e \/ exists a, m = Ok a /\ f a = Err e.
Proof. destruct m; cbn; naive_solver. Qed.

Lemma ok_or_Ok {E A} (o : option A) (e : E) a : ok_or o e = Ok a <-> o = Some a.
Proof. destruct o; naive_solver. Qed.

(** * Machine integers

    A w-bit integer is a [Z]; each operation of the sources that can leave the
    width is written with the wrap, the saturation or the check it performs. *)

Definition u8_max : Z := 255.
Definition u16_max : Z := 65535.
Definition u32_max : Z := 4294967295.
Definition u64_max : Z := 18446744073709551615.
Definition i64_max : Z := 9223372036854775807.
Definition i64_min : Z := -9223372036854775808.

Definition in_u32 (z : Z) : Prop := 0 <= z <= u32_max.
Definition in_u64 (z : Z) : Prop := 0 <= z <= u64_max.
Definition in_i64 (z : Z) : Prop := i64_min <= z <= i64_max.

Definition wrap_u32 (z : Z) : Z := z mod (u32_max + 1).
Definition wrap_u64 (z : Z) : Z := z mod (u64_max + 1).

Definition sat_u64 (z : Z) : Z := Z.max 0 (Z.min u64_max z).
Definition sat_i64 (z : Z) : Z := Z.max i64_min (Z.min i64_max z).
Definition sat_u32 (z : Z) : Z := Z.max 0 (Z.min u32_max z).

(** [checked_add] and friends of [i64]: [None] outside the width. *)
Definition check_i64 (z : Z) : option Z :=
  if (i64_min <=? z) && (z <=? i64_max) then Some z else None.
Definition check_u64 (z : Z) : option Z :=
  if (0 <=? z) && (z <=? u64_max) then Some z else None.
Definition check_u32 (z : Z) : option Z :=
  if (0 <=? z) && (z <=? u32_max) then Some z else None.

(** [Vec::len], [&[T]::len] as an integer. *)
Definition len {A} (l : list A) : Z := Z.of_nat (length l).

Lemma len_nonneg {A} (l : list A) : 0 <= len l.
Proof. unfold len. lia. Qed.

Lemma len_app {A} (l k : list A) : len (l ++ k) = len l + len k.
Proof. unfold len. rewrite length_app. lia. Qed.

Lemma len_cons {A} (x : A) l : len (x :: l) = 1 + len l.
Proof. unfold len. simpl. lia. Qed.

Lemma len_nil {A} : len (@nil A) = 0.
Proof. reflexivity. Qed.

(** * Automation

    [widths] unfolds the width constants in an arithmetic goal; [bool_prop]
    turns the boolean guards the definitions use into propositions. *)

Create HintDb widths discriminated.
#[export] Hint Unfold u8_max u16_max u32_max u64_max i64_max i64_min in_u32
  in_u64 in_i64 wrap_u32 wrap_u64 sat_u64 sat_i64 sat_u32 : widths.

Ltac widths := autounfold with widths in *.

Create Rewrite HintDb boolp.
#[export] Hint Rewrite andb_true_iff andb_false_iff orb_true_iff orb_false_iff
  negb_true_iff negb_false_iff Z.eqb_eq Z.eqb_neq Z.ltb_lt Z.ltb_ge Z.leb_le
  Z.leb_gt Z.gtb_lt bool_decide_eq_true bool_decide_eq_false : boolp.

Ltac bool_prop := autorewrite with boolp in *.

Ltac mlia := widths; bool_prop; lia.

(** Case analysis on the innermost [if] or [match] of a hypothesis. *)
Ltac inv_result H :=
  repeat first
    [ progress simplify_eq
    | apply bind_Ok in H as (? & ? & H)
    | case_match ].

Create Rewrite HintDb len.
#[export] Hint Rewrite @len_app @len_cons @len_nil : len.

Lemma check_i64_Some z a : check_i64 z = Some a <-> a = z /\ in_i64 z.
Proof.
  unfold check_i64. case_match; split; intros; destruct_and?; simplify_eq;
    first [done | mlia | exfalso; mlia].
Qed.

Lemma check_u64_Some z a : check_u64 z = Some a <-> a = z /\ in_u64 z.
Proof.
  unfold check_u64. case_match; split; intros; destruct_and?; simplify_eq;
    first [done | mlia | exfalso; mlia].
Qed.

(** * Lists *)

(** [Iterator::rfind]: the last element that satisfies the test. *)
Definition rfind {A} (p : A -> bool) (l : list A) : option A :=
  List.find p (rev l).

Lemma find_app {A} (p : A -> bool) (l k : list A) :
  List.find p (l ++ k) =
  match List.find p l with Some x => Some x | None => List.find p k end.
Proof. induction l as [|x l IH]; simpl; [done|]. by destruct (p x). Qed.

Lemma find_None_iff {A} (p : A -> bool) (l : list A) :
  List.find p l = None <-> Forall (fun x => p x = false) l.
Proof.
  induction l as [|x l IH]; simpl; [done|].
  rewrite Forall_cons, <- IH. destruct (p x); naive_solver.
Qed.

Lemma cons_inv {A} (x y : A) l k : x :: l = y :: k -> x = y /\ l = k.
Proof. by intros [= -> ->]. Qed.

Lemma Forall_forallb {A} (p : A -> bool) (l : list A) :
  forallb p l = true -> Forall (fun x => p x = true) l.
Proof. intros H. apply Forall_forall. intros x Hx. apply list_elem_of_In in Hx. by eapply forallb_forall in H. Qed.

Lemma rfind_snoc {A} (p : A -> bool) (l : list A) x :
  rfind p (l ++ [x]) = if p x then Some x else rfind p l.
Proof. unfold rfind. rewrite rev_app_distr. simpl. by destruct (p x). Qed.

Lemma increasing_snoc l (x : Z) :
  StronglySorted Z.lt (l ++ [x]) <-> StronglySorted Z.lt l /\ Forall (fun y => y < x) l.
Proof.
  rewrite StronglySorted_app, Forall_forall. setoid_rewrite list_elem_of_singleton.
  split; [naive_solver|]. intros [? ?]. split_and!; [naive_solver|done|repeat constructor].
Qed.

(** In an increasing list, what lies above the last element lies above all. *)
Lemma increasing_last l (x : Z) :
  StronglySorted Z.lt l ->
  Forall (fun y => y < x) l <-> (forall y, last l = Some y -> y < x).
Proof.
  induction l as [|z l IH] using rev_ind; [done|]. intros [Hs Hz]%increasing_snoc.
  rewrite last_snoc, Forall_app, Forall_singleton. split; [naive_solver|].
  intros H. pose proof (H z eq_refl). split; [|done]. eapply Forall_impl; [exact Hz|]. simpl. lia.
Qed.

(** Lexicographic comparison of byte strings ([Ord] of [[u8]]). *)
Fixpoint bytes_leb (a b : list Z) : bool :=
  match a, b with
  | [], _ => true
  | _ :: _, [] => false
  | x :: a, y :: b => (x <? y) || ((x =? y) && bytes_leb a b)
  end.

Lemma bytes_leb_refl a : bytes_leb a a = true.
Proof. induction a; simpl; [done|]. bool_prop. right. auto with lia. Qed.

Lemma bytes_leb_total a b : bytes_leb a b = true \/ bytes_leb b a = true.
Proof.
  revert b; induction a as [|x a IH]; intros [|y b]; simpl; auto.
  bool_prop. destruct (IH b), (Z.lt_trichotomy x y) as [?|[?|?]]; auto 6 with lia.
Qed.

Lemma bytes_leb_trans a b c :
  bytes_leb a b = true -> bytes_leb b c = true -> bytes_leb a c = true.
Proof.
  revert b c; induction a as [|x a IH]; intros [|y b] [|z c]; simpl; auto;
    try done.
  bool_prop. intros [?|[-> ?]] [?|[-> ?]]; try (left; lia).
  right; split; [done|]. eauto.
Qed.

Lemma bytes_leb_antisym a b :
  bytes_leb a b = true -> bytes_leb b a = true -> a = b.
Proof.
  revert b; induction a as [|x a IH]; intros [|y b]; simpl; try done.
  bool_prop. intros [?|[-> ?]] [?|[? ?]]; try lia. f_equal. auto.
Qed.
