(* ===== verification/Text.v ===== *)
(** Strings of the sources.

    A [String] or [&str] is the list of its Unicode scalar values, each a [Z];
    [utf8] gives the bytes a Rust string holds and [from_utf8] is
    [core::str::from_utf8], with the byte ranges of its validation table.  The
    file also has the decimal rendering and parsing of integers
    ([to_string], [str::parse]), the ASCII classes, [char::is_control] and
    [str::split], and the round trips the components rely on. *)

From S2P Require Import Prelude.

(** ASCII literals of the sources. *)
Definition str (s : string) : list Z :=
  (fun a => Z.of_N (Ascii.N_of_ascii a)) <$> String.list_ascii_of_string s.

(** * UTF-8 *)

Definition is_scalar (c : Z) : bool :=
  (0 <=? c) && (c <=? 0x10FFFF) && negb ((0xD800 <=? c) && (c <=? 0xDFFF)).

Definition is_byte (b : Z) : bool := (0 <=? b) && (b <=? 255).

(** [char::encode_utf8]. *)
Definition encode_char (c : Z) : list Z :=
  if c <? 0x80 then [c]
  else if c <? 0x800 then [0xC0 + c / 64; 0x80 + c mod 64]
  else if c <? 0x10000 then
    [0xE0 + c / 4096; 0x80 + (c / 64) mod 64; 0x80 + c mod 64]
  else
    [0xF0 + c / 262144; 0x80 + (c / 4096) mod 64; 0x80 + (c / 64) mod 64;
     0x80 + c mod 64].

(** [str::as_bytes]. *)
Definition utf8 (t : list Z) : list Z := mjoin (encode_char <$> t).

(** [str::len]: the length in bytes. *)
Definition str_len (t : list Z) : Z := len (utf8 t).

Definition in_range (lo hi b : Z) : bool := (lo <=? b) && (b <=? hi).
Definition is_cont (b : Z) : bool := in_range 0x80 0xBF b.

(** Second byte of a three-byte sequence: no overlong form, no surrogate. *)
Definition second3 (b0 b1 : Z) : bool :=
  if b0 =? 0xE0 then in_range 0xA0 0xBF b1
  else if b0 =? 0xED then in_range 0x80 0x9F b1
  else is_cont b1.

(** Second byte of a four-byte sequence: no overlong form, at most U+10FFFF. *)
Definition second4 (b0 b1 : Z) : bool :=
  if b0 =? 0xF0 then in_range 0x90 0xBF b1
  else if b0 =? 0xF4 then in_range 0x80 0x8F b1
  else is_cont b1.

(** [core::str::from_utf8]. *)
Fixpoint from_utf8 (bs : list Z) : option (list Z) :=
  match bs with
  | [] => Some []
  | b0 :: r0 =>
      if in_range 0 0x7F b0 then cons b0 <$> from_utf8 r0
      else match r0 with
      | [] => None
      | b1 :: r1 =>
        if in_range 0xC2 0xDF b0 then
          if is_cont b1 then
            cons ((b0 - 0xC0) * 64 + (b1 - 0x80)) <$> from_utf8 r1
          else None
        else match r1 with
        | [] => None
        | b2 :: r2 =>
          if in_range 0xE0 0xEF b0 then
            if second3 b0 b1 && is_cont b2 then
              cons ((b0 - 0xE0) * 4096 + (b1 - 0x80) * 64 + (b2 - 0x80))
                <$> from_utf8 r2
            else None
          else match r2 with
          | [] => None
          | b3 :: r3 =>
            if in_range 0xF0 0xF4 b0 then
              if second4 b0 b1 && is_cont b2 && is_cont b3 then
                cons ((b0 - 0xF0) * 262144 + (b1 - 0x80) * 4096
                      + (b2 - 0x80) * 64 + (b3 - 0x80)) <$> from_utf8 r3
              else None
            else None
          end
        end
      end
  end.

(** * ASCII classes and [char::is_control] *)

Definition is_ascii_digit (b : Z) : bool := in_range 48 57 b.
Definition is_ascii_lowercase (b : Z) : bool := in_range 97 122 b.
Definition is_ascii_uppercase (b : Z) : bool := in_range 65 90 b.
Definition is_ascii_alphanumeric (b : Z) : bool :=
  is_ascii_digit b || is_ascii_lowercase b || is_ascii_uppercase b.

(** General category Cc: C0, DEL and C1. *)
Definition is_control (c : Z) : bool := in_range 0 0x1F c || in_range 0x7F 0x9F c.

(** * Integers as text *)

Fixpoint dec_digits (fuel : nat) (n : Z) (acc : list Z) : list Z :=
  match fuel with
  | O => acc
  | S fuel =>
      let acc := (48 + n mod 10) :: acc in
      if n <? 10 then acc else dec_digits fuel (n / 10) acc
  end.

(** [to_string] of an unsigned integer.  A number has at most one decimal
    digit per binary one, so the fuel is never exhausted. *)
Definition dec_nat (n : Z) : list Z := dec_digits (S (Z.to_nat (Z.log2 n))) n [].

(** [to_string] of a signed integer. *)
Definition dec (n : Z) : list Z := if n <? 0 then 45 :: dec_nat (- n) else dec_nat n.

(** The value [str::parse] accumulates over ASCII digits. *)
Definition dec_value (ds : list Z) : Z :=
  fold_left (fun acc d => acc * 10 + (d - 48)) ds 0.

(** * Splitting *)

(** [str::split(char)]: always at least one piece. *)
Fixpoint split_on (sep : Z) (t : list Z) : list (list Z) :=
  match t with
  | [] => [[]]
  | c :: t =>
      if c =? sep then [] :: split_on sep t
      else match split_on sep t with
           | [] => [[c]]
           | p :: ps => (c :: p) :: ps
           end
  end.

(** [str::strip_prefix]. *)
Fixpoint strip_prefix (p t : list Z) : option (list Z) :=
  match p, t with
  | [], _ => Some t
  | x :: p, y :: t => if x =? y then strip_prefix p t else None
  | _ :: _, [] => None
  end.

(** [str::contains(char)] and [[u8]::contains]. *)
Definition contains (x : Z) (t : list Z) : bool := existsb (Z.eqb x) t.

(** * Lemmas *)

Create Rewrite HintDb text.

Lemma utf8_cons c t : utf8 (c :: t) = encode_char c ++ utf8 t.
Proof. reflexivity. Qed.

Lemma utf8_app t u : utf8 (t ++ u) = utf8 t ++ utf8 u.
Proof. unfold utf8. by rewrite fmap_app, join_app. Qed.

Lemma str_len_nonneg t : 0 <= str_len t.
Proof. apply len_nonneg. Qed.

Lemma encode_char_cases c :
  is_scalar c = true ->
  (c <= 0x7F /\ encode_char c = [c]) \/
  (0x80 <= c <= 0x7FF /\ encode_char c = [0xC0 + c / 64; 0x80 + c mod 64]) \/
  (0x800 <= c <= 0xFFFF /\
    encode_char c = [0xE0 + c / 4096; 0x80 + (c / 64) mod 64; 0x80 + c mod 64]) \/
  (0x10000 <= c /\ encode_char c =
    [0xF0 + c / 262144; 0x80 + (c / 4096) mod 64; 0x80 + (c / 64) mod 64;
     0x80 + c mod 64]).
Proof.
  unfold is_scalar, encode_char. intros Hc. bool_prop.
  destruct (Z.ltb_spec c 0x80), (Z.ltb_spec c 0x800), (Z.ltb_spec c 0x10000);
    auto 6 with lia.
Qed.

Ltac range_tac :=
  unfold second3, second4, is_cont, in_range in *; bool_prop;
  repeat (case_match; bool_prop).

(** Decides the guard of the leading [if] of the goal by arithmetic. *)
Ltac guard_tac :=
  match goal with
  | |- context [if ?b then _ else _] =>
      first [ replace b with true by (symmetry; range_tac; lia)
            | replace b with false by (symmetry; range_tac; lia) ]
  end; cbv beta iota.

(** The base-64 digits the encoder takes from a scalar. *)
Lemma base64_digits c :
  0 <= c ->
  exists a b d e, 0 <= a /\ 0 <= b < 64 /\ 0 <= d < 64 /\ 0 <= e < 64 /\
    c = a * 262144 + b * 4096 + d * 64 + e /\
    c / 64 = a * 4096 + b * 64 + d /\ c / 4096 = a * 64 + b /\ c / 262144 = a /\
    c mod 64 = e /\ (c / 64) mod 64 = d /\ (c / 4096) mod 64 = b.
Proof.
  intros Hc. exists (c / 262144), ((c / 4096) mod 64), ((c / 64) mod 64), (c mod 64).
  replace (c / 4096) with (c / 64 / 64) by (by rewrite Z.div_div by lia).
  replace (c / 262144) with (c / 64 / 64 / 64) by (by rewrite !Z.div_div by lia).
  pose proof (Z.div_mod c 64 ltac:(lia)).
  pose proof (Z.div_mod (c / 64) 64 ltac:(lia)).
  pose proof (Z.div_mod (c / 64 / 64) 64 ltac:(lia)).
  pose proof (Z.mod_pos_bound c 64 ltac:(lia)).
  pose proof (Z.mod_pos_bound (c / 64) 64 ltac:(lia)).
  pose proof (Z.mod_pos_bound (c / 64 / 64) 64 ltac:(lia)).
  assert (0 <= c / 64 / 64 / 64) by (repeat apply Z.div_pos; lia).
  repeat split; lia.
Qed.

(** One encoded scalar in front of any bytes decodes to it. *)
Lemma from_utf8_encode_char c bs :
  is_scalar c = true -> from_utf8 (encode_char c ++ bs) = cons c <$> from_utf8 bs.
Proof.
  intros Hc. pose proof (encode_char_cases c Hc) as Hcase.
  unfold is_scalar in Hc. bool_prop. destruct Hc as [[H0 H1] Hs].
  destruct (base64_digits c H0) as
    (a & b & d & e & ? & ? & ? & ? & Hdec & Hq1 & Hq2 & Hq3 & He & Hd & Hb).
  rewrite Hq1, Hq2, Hq3, He in Hcase. rewrite Hq1 in Hd. rewrite Hq2 in Hb.
  rewrite ?Hd, ?Hb in Hcase.
  destruct Hcase as [[? ->]|[[? ->]|[[? ->]|[? ->]]]]; cbn [from_utf8 app]; repeat guard_tac;
    (match goal with |- cons ?v <$> _ = _ => replace v with c by lia end); done.
Qed.

Lemma utf8_from_utf8 t : Forall (fun c => is_scalar c = true) t -> from_utf8 (utf8 t) = Some t.
Proof.
  induction 1 as [|c t Hc Ht IH]; [done|].
  by rewrite utf8_cons, from_utf8_encode_char, IH.
Qed.

(** Each multi-byte form [from_utf8] accepts is the encoding of the scalar it
    yields: no overlong form, surrogate or out-of-range value is accepted. *)
Lemma encode_char_2 b0 b1 :
  in_range 0xC2 0xDF b0 = true -> is_cont b1 = true ->
  let c := (b0 - 0xC0) * 64 + (b1 - 0x80) in
  is_scalar c = true /\ encode_char c = [b0; b1].
Proof.
  intros H0 H1 c. range_tac. subst c.
  destruct (base64_digits ((b0 - 0xC0) * 64 + (b1 - 0x80)) ltac:(lia)) as
    (a & b & d & e & ? & ? & ? & ? & Hdec & Hq1 & Hq2 & Hq3 & He & Hd & Hb).
  split; [unfold is_scalar; bool_prop; lia|].
  unfold encode_char. repeat guard_tac. rewrite Hq1, He. repeat f_equal; lia.
Qed.

Lemma encode_char_3 b0 b1 b2 :
  in_range 0xE0 0xEF b0 = true -> second3 b0 b1 = true -> is_cont b2 = true ->
  let c := (b0 - 0xE0) * 4096 + (b1 - 0x80) * 64 + (b2 - 0x80) in
  is_scalar c = true /\ encode_char c = [b0; b1; b2].
Proof.
  intros H0 H1 H2 c. subst c. unfold second3 in H1.
  destruct (Z.eqb_spec b0 0xE0) as [HA|HA], (Z.eqb_spec b0 0xED) as [HB|HB]; try lia; range_tac;
  (destruct (base64_digits ((b0 - 0xE0) * 4096 + (b1 - 0x80) * 64 + (b2 - 0x80))
     ltac:(lia)) as
    (a & b & d & e & ? & ? & ? & ? & Hdec & Hq1 & Hq2 & Hq3 & He & Hd & Hb);
   split; [unfold is_scalar; bool_prop; lia|];
   unfold encode_char; repeat guard_tac; rewrite Hd, Hq2, He; repeat f_equal; lia).
Qed.

Lemma encode_char_4 b0 b1 b2 b3 :
  in_range 0xF0 0xF4 b0 = true -> second4 b0 b1 = true ->
  is_cont b2 = true -> is_cont b3 = true ->
  let c := (b0 - 0xF0) * 262144 + (b1 - 0x80) * 4096 + (b2 - 0x80) * 64 + (b3 - 0x80) in
  is_scalar c = true /\ encode_char c = [b0; b1; b2; b3].
Proof.
  intros H0 H1 H2 H3 c. subst c. unfold second4 in H1.
  destruct (Z.eqb_spec b0 0xF0) as [HA|HA], (Z.eqb_spec b0 0xF4) as [HB|HB]; try lia; range_tac;
  (destruct (base64_digits ((b0 - 0xF0) * 262144 + (b1 - 0x80) * 4096
      + (b2 - 0x80) * 64 + (b3 - 0x80)) ltac:(lia)) as
    (a & b & d & e & ? & ? & ? & ? & Hdec & Hq1 & Hq2 & Hq3 & He & Hd & Hb);
   split; [unfold is_scalar; bool_prop; lia|];
   unfold encode_char; repeat guard_tac; rewrite Hb, Hd, Hq3, He; repeat f_equal; lia).
Qed.

Lemma cons_fmap_Some (c : Z) (o : option (list Z)) t :
  cons c <$> o = Some t <-> exists u, o = Some u /\ t = c :: u.
Proof. destruct o; simpl; naive_solver. Qed.

(** [from_utf8] accepts exactly the encodings, and returns what they encode. *)
Lemma from_utf8_Some bs t :
  from_utf8 bs = Some t -> Forall (fun c => is_scalar c = true) t /\ utf8 t = bs.
Proof.
  revert t. induction bs as [bs IH] using (induction_ltof1 _ length).
  unfold ltof in IH. intros t Ht. destruct bs as [|b0 r0]; [by simplify_eq/=|].
  assert (Hstep : forall c u r, encode_char c ++ r = b0 :: r0 ->
    is_scalar c = true -> from_utf8 r = Some u -> t = c :: u ->
    Forall (fun c => is_scalar c = true) t /\ utf8 t = b0 :: r0).
  { intros c u r Hr Hc Hu ->. rewrite <- Hr in IH |- *.
    destruct (IH r) with (t := u) as [? Hu8]; [|done|].
    - rewrite length_app. unfold encode_char. repeat case_match; simpl; lia.
    - split; [by constructor|]. by rewrite utf8_cons, Hu8. }
  cbn [from_utf8] in Ht. clear IH.
  repeat (case_match; try done); apply cons_fmap_Some in Ht as (u & Hu & ->);
    bool_prop; destruct_and?.
  - eapply (Hstep b0 u r0); try done.
    + unfold encode_char. guard_tac. done.
    + unfold is_scalar. range_tac. lia.
  - subst. destruct (encode_char_2 b0 z) as [? E]; [done..|].
    eapply Hstep; try done. by rewrite E.
  - subst. destruct (encode_char_3 b0 z z0) as [? E]; [done..|].
    eapply Hstep; try done. by rewrite E.
  - subst. destruct (encode_char_4 b0 z z0 z1) as [? E]; [done..|].
    eapply Hstep; try done. by rewrite E.
Qed.

Lemma from_utf8_inj bs bs' t : from_utf8 bs = Some t -> from_utf8 bs' = Some t -> bs = bs'.
Proof. intros [_ <-]%from_utf8_Some [_ <-]%from_utf8_Some. done. Qed.

Lemma encode_char_bytes c :
  is_scalar c = true -> Forall (fun b => is_byte b = true) (encode_char c).
Proof.
  intros Hc. unfold is_scalar in Hc. bool_prop. destruct Hc as [[H0 H1] Hs].
  destruct (base64_digits c H0) as
    (a & b & d & e & ? & ? & ? & ? & Hdec & Hq1 & Hq2 & Hq3 & He & Hd & Hb).
  unfold encode_char. rewrite Hd, Hb, Hq1, Hq2, Hq3, He. unfold is_byte.
  repeat case_match; repeat constructor; bool_prop; lia.
Qed.

(** ASCII text is its own encoding. *)
Lemma utf8_ascii t : Forall (fun c => in_range 0 0x7F c = true) t -> utf8 t = t.
Proof.
  induction 1 as [|c t Hc Ht IH]; [done|].
  rewrite utf8_cons, IH. unfold encode_char. by guard_tac.
Qed.

(** A string whose bytes are ASCII is its bytes. *)
Lemma ascii_bytes t : Forall (fun b => b < 128) (utf8 t) -> utf8 t = t.
Proof.
  induction t as [|c t IH]; [done|]. rewrite utf8_cons. intros [Hc Ht]%Forall_app.
  rewrite (IH Ht). revert Hc. unfold encode_char.
  destruct (Z.ltb_spec c 0x80); [done|].
  pose proof (Z.div_pos c 64 ltac:(lia) ltac:(lia)). pose proof (Z.div_pos c 4096 ltac:(lia) ltac:(lia)).
  pose proof (Z.div_pos c 262144 ltac:(lia) ltac:(lia)).
  repeat case_match; intros Hc; apply Forall_cons in Hc as [Hc _]; lia.
Qed.

Lemma class_bytes (p : Z -> bool) t :
  (forall b, p b = true -> b < 128) -> forallb p (utf8 t) = true -> utf8 t = t.
Proof.
  intros Hp Hf%Forall_forallb. apply ascii_bytes. eapply Forall_impl; [exact Hf|exact Hp].
Qed.

Lemma encode_char_nonnil c : encode_char c <> [].
Proof. unfold encode_char. by repeat case_match. Qed.

Lemma str_len_0 t : str_len t = 0 <-> t = [].
Proof.
  unfold str_len, len. split; [|by intros ->].
  destruct t as [|c t]; [done|]. rewrite utf8_cons, length_app.
  pose proof (encode_char_nonnil c). destruct (encode_char c); simpl; [done|lia].
Qed.

Lemma length_str_len t : len t <= str_len t.
Proof.
  unfold str_len, len. induction t as [|c t IH]; [done|].
  rewrite utf8_cons, length_app. pose proof (encode_char_nonnil c).
  destruct (encode_char c); simpl in *; [done|lia].
Qed.

(** ** Decimals *)

Lemma dec_value_app ds ds' :
  dec_value (ds ++ ds') = fold_left (fun acc d => acc * 10 + (d - 48)) ds' (dec_value ds).
Proof. unfold dec_value. by rewrite fold_left_app. Qed.

(** The digits written for [n] in front of [acc], and their number. *)
Lemma dec_digits_spec fuel n acc :
  0 <= n -> n < 2 ^ Z.of_nat fuel ->
  exists ds, dec_digits fuel n acc = ds ++ acc /\
    (fuel <> O -> ds <> []) /\
    Forall (fun d => is_ascii_digit d = true) ds /\ dec_value ds = n /\
    (0 < n -> exists d ds', ds = d :: ds' /\ d <> 48) /\
    (fuel <> O -> n = 0 -> ds = [48]).
Proof.
  revert n acc; induction fuel as [|fuel IH]; intros n acc Hn Hlt.
  { assert (n = 0) as -> by (simpl in Hlt; lia). exists []. repeat split; done || lia. }
  rewrite Nat2Z.inj_succ, Z.pow_succ_r in Hlt by lia. cbn [dec_digits].
  pose proof (Z.mod_pos_bound n 10 ltac:(lia)).
  destruct (Z.ltb_spec n 10) as [Hs|Hs].
  - exists [48 + n]. rewrite Z.mod_small by lia.
    repeat split; try done.
    + repeat constructor. unfold is_ascii_digit. range_tac. lia.
    + unfold dec_value. simpl. lia.
    + intros. eexists _, _. split; [done|lia].
    + intros _ ->. done.
  - pose proof (Z.div_mod n 10 ltac:(lia)).
    pose proof (Z.div_pos n 10 ltac:(lia) ltac:(lia)).
    destruct (IH (n / 10) ((48 + n mod 10) :: acc)) as (ds & Hds & Hne & Hf & Hv & Hp & Hz);
      [lia..|].
    assert (0 < n / 10) as Hp1 by (apply Z.div_str_pos; lia).
    destruct (Hp Hp1) as (d & ds' & -> & Hd).
    exists ((d :: ds') ++ [48 + n mod 10]). repeat split; try done.
    + by rewrite Hds, <- app_assoc.
    + apply Forall_app; split; [done|]. repeat constructor.
      unfold is_ascii_digit. range_tac. lia.
    + rewrite dec_value_app, Hv. simpl. lia.
    + intros. by eexists d, _.
    + lia.
Qed.

(** The text of a natural number: digits, no leading zero, and its value. *)
Lemma dec_nat_spec n :
  0 <= n ->
  Forall (fun d => is_ascii_digit d = true) (dec_nat n) /\ dec_value (dec_nat n) = n /\
  dec_nat n <> [] /\ (0 < n -> exists d ds, dec_nat n = d :: ds /\ d <> 48) /\
  (n = 0 -> dec_nat n = [48]).
Proof.
  intros Hn. unfold dec_nat.
  destruct (dec_digits_spec (S (Z.to_nat (Z.log2 n))) n []) as
    (ds & -> & Hne & Hf & Hv & Hp & Hz); [done| |].
  - destruct (Z.eq_dec n 0) as [->|]; [done|].
    rewrite Nat2Z.inj_succ, Z2Nat.id by apply Z.log2_nonneg.
    apply Z.log2_spec. lia.
  - rewrite app_nil_r. repeat split; auto.
Qed.

Lemma dec_nat_inj n m : 0 <= n -> 0 <= m -> dec_nat n = dec_nat m -> n = m.
Proof.
  intros Hn Hm E. destruct (dec_nat_spec n Hn) as (_ & <- & _).
  destruct (dec_nat_spec m Hm) as (_ & <- & _). by rewrite E.
Qed.

(** ** Splitting and prefixes *)

Lemma split_on_nonnil sep t : split_on sep t <> [].
Proof. destruct t as [|c t]; simpl; [done|]. repeat case_match; done. Qed.

Lemma split_on_no_sep sep t :
  Forall (fun p => contains sep p = false) (split_on sep t).
Proof.
  induction t as [|c t IH]; simpl; [by repeat constructor|].
  destruct (Z.eqb_spec c sep) as [->|Hne]; [by constructor|].
  destruct (split_on sep t) as [|p ps]; inversion IH; subst; repeat constructor; auto;
    unfold contains; simpl; bool_prop; auto with lia.
Qed.

Lemma strip_prefix_Some p t r : strip_prefix p t = Some r <-> t = p ++ r.
Proof.
  revert t; induction p as [|x p IH]; intros t; simpl; [naive_solver|].
  destruct t as [|y t]; [naive_solver|].
  destruct (Z.eqb_spec x y) as [->|]; rewrite ?IH; naive_solver.
Qed.

Lemma contains_iff x l : contains x l = true <-> x ∈ l.
Proof.
  unfold contains. rewrite existsb_exists. setoid_rewrite <- list_elem_of_In.
  setoid_rewrite Z.eqb_eq. naive_solver.
Qed.

Lemma contains_false x l : contains x l = false <-> x ∉ l.
Proof. by rewrite <- contains_iff, not_true_iff_false. Qed.

Lemma split_on_none sep t : sep ∉ t -> split_on sep t = [t].
Proof.
  induction t as [|c t IH]; intros Hn; simpl; [done|].
  apply not_elem_of_cons in Hn as [Hc Ht]. rewrite (proj2 (Z.eqb_neq c sep)) by done.
  by rewrite IH.
Qed.

Lemma split_on_app sep a b : sep ∉ a -> split_on sep (a ++ sep :: b) = a :: split_on sep b.
Proof.
  induction a as [|c a IH]; intros Hn; simpl; [by rewrite Z.eqb_refl|].
  apply not_elem_of_cons in Hn as [Hc Ha]. rewrite (proj2 (Z.eqb_neq c sep)) by done.
  by rewrite IH.
Qed.

(** ** Reading decimals back *)

Lemma dec_value_snoc ds d : dec_value (ds ++ [d]) = dec_value ds * 10 + (d - 48).
Proof. by rewrite dec_value_app. Qed.

Lemma digit_range d : is_ascii_digit d = true <-> 48 <= d <= 57.
Proof. unfold is_ascii_digit, in_range. bool_prop. lia. Qed.

Lemma dec_value_pos ds :
  Forall (fun d => is_ascii_digit d = true) ds -> 0 <= dec_value ds /\
  (ds <> [] -> head ds <> Some 48 -> 0 < dec_value ds).
Proof.
  induction ds as [|d ds IH] using rev_ind; [done|].
  intros [Hds Hd]%Forall_app. rewrite Forall_singleton in Hd. apply digit_range in Hd.
  rewrite dec_value_snoc.
  destruct (IH Hds) as [H0 H1]. split; [lia|]. intros _ Hh.
  destruct ds as [|e ds]; [|specialize (H1 ltac:(done) Hh); lia].
  change (dec_value []) with 0. cbn in Hh. assert (d <> 48) by congruence. lia.
Qed.

(** Digits without a leading zero are determined by their value. *)
Lemma dec_value_inj ds es :
  Forall (fun d => is_ascii_digit d = true) ds -> Forall (fun d => is_ascii_digit d = true) es ->
  head ds <> Some 48 -> head es <> Some 48 -> dec_value ds = dec_value es -> ds = es.
Proof.
  revert es; induction ds as [|d ds IH] using rev_ind; intros es Hd He Hhd Hhe E.
  - destruct es as [|e es]; [done|]. destruct (dec_value_pos (e :: es) He) as [_ H].
    specialize (H ltac:(done) Hhe). change (dec_value []) with 0 in E. lia.
  - destruct es as [|e es _] using rev_ind.
    + destruct (dec_value_pos _ Hd) as [_ H]. change (dec_value []) with 0 in E.
      specialize (H ltac:(by destruct ds) Hhd). lia.
    + apply Forall_app in Hd as [Hd Hd1]. apply Forall_app in He as [He He1].
      rewrite Forall_singleton in Hd1, He1. apply digit_range in Hd1, He1.
      rewrite !dec_value_snoc in E. assert (d = e) as -> by lia.
      f_equal. apply IH; [done|done| | |lia].
      * by destruct ds.
      * by destruct es.
Qed.

(** * The length of a number *)

Lemma dec_chars n : 0 <= n -> Forall (fun c => 48 <= c <= 57) (dec n).
Proof.
  intros Hn. unfold dec. rewrite (proj2 (Z.ltb_ge n 0)) by done.
  destruct (dec_nat_spec n Hn) as (Hd & _). eapply Forall_impl; [exact Hd|]. cbn. intros c. apply digit_range.
Qed.

Lemma str_len_ascii t : Forall (fun c => in_range 0 0x7F c = true) t -> str_len t = len t.
Proof. intros H. unfold str_len. by rewrite utf8_ascii. Qed.

Lemma range_ascii lo hi (t : list Z) :
  0 <= lo -> hi <= 127 -> Forall (fun c => lo <= c <= hi) t -> Forall (fun c => in_range 0 0x7F c = true) t.
Proof.
  intros ? ? H. eapply Forall_impl; [exact H|]. unfold in_range. cbn. intros. bool_prop. lia.
Qed.

Lemma dec_value_large ds :
  Forall (fun d => is_ascii_digit d = true) ds -> ds <> [] -> head ds <> Some 48 ->
  10 ^ (len ds - 1) <= dec_value ds.
Proof.
  induction ds as [|d ds IH] using rev_ind; [done|]. intros [Hds Hd]%Forall_app _ Hh.
  rewrite Forall_singleton in Hd. apply digit_range in Hd. rewrite dec_value_snoc, len_app.
  change (len [d]) with 1. destruct ds as [|c ds].
  - cbn in Hh. assert (d <> 48) by congruence. change (dec_value []) with 0. rewrite (@len_nil Z).
    change (10 ^ (0 + 1 - 1)) with 1. lia.
  - specialize (IH Hds ltac:(done) Hh). rewrite len_cons in *. pose proof (len_nonneg ds).
    replace (1 + len ds + 1 - 1) with (Z.succ (1 + len ds - 1)) by lia. rewrite Z.pow_succ_r by lia. lia.
Qed.

Lemma dec_length n : in_u64 n -> str_len (dec n) <= 20.
Proof.
  intros Hn. assert (0 <= n) by mlia.
  rewrite str_len_ascii by (eapply (range_ascii 48 57); [lia|lia|by apply dec_chars]).
  unfold dec. rewrite (proj2 (Z.ltb_ge n 0)) by done.
  destruct (dec_nat_spec n ltac:(done)) as (Hd & Hv & Hne & Hpos & Hz).
  destruct (Z.eq_dec n 0) as [->|Hn0]; [by rewrite Hz|].
  destruct (Hpos ltac:(lia)) as (d & ds & E & Hd48).
  pose proof (dec_value_large (dec_nat n) Hd Hne ltac:(rewrite E; cbn; congruence)) as Hl. rewrite Hv in Hl.
  destruct (Z.le_gt_cases (len (dec_nat n)) 20); [done|].
  assert (10 ^ 20 <= 10 ^ (len (dec_nat n) - 1)) by (apply Z.pow_le_mono_r; lia). mlia.
Qed.
