(* ===== verification/Health.v ===== *)
(** Product health rules: [automonique-policy/src/lib.rs].

    A rule of some importance is evaluated against one observation, and a
    collection of evaluations is summarised into counts and a worst health
    state by one pass over a mutable summary. *)

From S2P Require Import Prelude.

Inductive Importance := Required | Advisory | Informational_.

Inductive Observation :=
| Satisfied
| Violated (reason : list Z)
| Unavailable (reason : list Z)
| Unsupported (reason : list Z).

Inductive Disposition := Pass | Degraded | Fail_ | Informational.

Record Rule := mkRule { rule_id : list Z; importance : Importance }.

Record Evaluation := mkEvaluation {
  ev_rule : Rule;
  observation : Observation;
  disposition : Disposition;
}.

Definition evaluate_rule (r : Rule) (o : Observation) : Evaluation :=
  let d :=
    match importance r, o with
    | _, Satisfied => Pass
    | Required, _ => Fail_
    | Advisory, _ => Degraded
    | Informational_, _ => Informational
    end in
  {| ev_rule := r; observation := o; disposition := d |}.

(** [Evaluation::reason]. *)
Definition reason (e : Evaluation) : option (list Z) :=
  match observation e with
  | Satisfied => None
  | Violated r | Unavailable r | Unsupported r => Some r
  end.

Inductive Health := Unknown | Healthy | HDegraded | Unhealthy.

#[export] Instance Health_eq_dec : EqDecision Health.
Proof. solve_decision. Defined.
#[export] Instance Observation_eq_dec : EqDecision Observation.
Proof. solve_decision. Defined.
#[export] Instance Disposition_eq_dec : EqDecision Disposition.
Proof. solve_decision. Defined.

Record Summary := mkSummary {
  health : Health;
  total : Z;
  passed : Z;
  degraded : Z;
  failed : Z;
  informational : Z;
  unavailable : Z;
  unsupported : Z;
}.

Definition initial_summary (es : list Evaluation) : Summary :=
  {| health := match es with [] => Unknown | _ => Healthy end;
     total := len es; passed := 0; degraded := 0; failed := 0;
     informational := 0; unavailable := 0; unsupported := 0 |}.

(** The first [match] of the loop body: counts and the worst state so far. *)
Definition count_disposition (s : Summary) (d : Disposition) : Summary :=
  match d with
  | Pass => mkSummary (health s) (total s) (passed s + 1) (degraded s) (failed s)
              (informational s) (unavailable s) (unsupported s)
  | Degraded =>
      mkSummary (if decide (health s = Healthy) then HDegraded else health s)
        (total s) (passed s) (degraded s + 1) (failed s)
        (informational s) (unavailable s) (unsupported s)
  | Fail_ => mkSummary Unhealthy (total s) (passed s) (degraded s) (failed s + 1)
              (informational s) (unavailable s) (unsupported s)
  | Informational =>
      mkSummary (health s) (total s) (passed s) (degraded s) (failed s)
        (informational s + 1) (unavailable s) (unsupported s)
  end.

(** The second [match]: evidence that could not be had. *)
Definition count_observation (s : Summary) (o : Observation) : Summary :=
  match o with
  | Unavailable _ =>
      mkSummary (health s) (total s) (passed s) (degraded s) (failed s)
        (informational s) (unavailable s + 1) (unsupported s)
  | Unsupported _ =>
      mkSummary (health s) (total s) (passed s) (degraded s) (failed s)
        (informational s) (unavailable s) (unsupported s + 1)
  | Satisfied | Violated _ => s
  end.

Definition summarize (es : list Evaluation) : Summary :=
  fold_left
    (fun s e => count_observation (count_disposition s (disposition e)) (observation e))
    es (initial_summary es).

(** * Lemmas *)

Definition has_disposition (d : Disposition) (e : Evaluation) : bool :=
  bool_decide (disposition e = d).

Definition count (p : Evaluation -> bool) (es : list Evaluation) : Z :=
  len (List.filter p es).

(** What the loop has computed after any prefix, from any starting summary. *)
Lemma summarize_loop es s :
  let s' := fold_left
    (fun s e => count_observation (count_disposition s (disposition e)) (observation e))
    es s in
  total s' = total s /\
  passed s' = passed s + count (has_disposition Pass) es /\
  degraded s' = degraded s + count (has_disposition Degraded) es /\
  failed s' = failed s + count (has_disposition Fail_) es /\
  informational s' = informational s + count (has_disposition Informational) es /\
  health s' =
    (if existsb (has_disposition Fail_) es then Unhealthy
     else if existsb (has_disposition Degraded) es
          then match health s with Healthy => HDegraded | h => h end
          else health s).
Proof.
  revert s; induction es as [|e es IH]; intros s; cbn zeta; simpl.
  { unfold count, len; simpl. repeat split; lia || done. }
  destruct (IH (count_observation (count_disposition s (disposition e)) (observation e)))
    as (-> & -> & -> & -> & -> & ->).
  unfold count, len, has_disposition. simpl.
  destruct (disposition e) eqn:Hd, (observation e); simpl; rewrite ?length_cons;
    repeat split; try lia;
    repeat case_match; simpl in *; simplify_eq; done.
Qed.

Lemma summarize_health es :
  health (summarize es) =
    (match es with
     | [] => Unknown
     | _ => if existsb (has_disposition Fail_) es then Unhealthy
            else if existsb (has_disposition Degraded) es then HDegraded
            else Healthy
     end).
Proof.
  unfold summarize. destruct (summarize_loop es (initial_summary es))
    as (_ & _ & _ & _ & _ & ->). by destruct es.
Qed.

Lemma summarize_counts es :
  let s := summarize es in
  total s = passed s + degraded s + failed s + informational s /\
  passed s = count (has_disposition Pass) es /\
  failed s = count (has_disposition Fail_) es.
Proof.
  unfold summarize. destruct (summarize_loop es (initial_summary es))
    as (-> & -> & -> & -> & -> & _). simpl.
  repeat split. unfold count, len, has_disposition.
  induction es as [|e es IH]; simpl; [done|]. destruct (disposition e); simpl; lia.
Qed.

Lemma disposition_Fail r o :
  has_disposition Fail_ (evaluate_rule r o) = true <->
  importance r = Required /\ o <> Satisfied.
Proof.
  unfold has_disposition, evaluate_rule. rewrite bool_decide_eq_true. simpl.
  destruct (importance r), o; naive_solver.
Qed.

Lemma disposition_Degraded r o :
  has_disposition Degraded (evaluate_rule r o) = true <->
  importance r = Advisory /\ o <> Satisfied.
Proof.
  unfold has_disposition, evaluate_rule. rewrite bool_decide_eq_true. simpl.
  destruct (importance r), o; naive_solver.
Qed.

Lemma existsb_evaluations p (ros : list (Rule * Observation)) :
  existsb p (uncurry evaluate_rule <$> ros) = true <->
  exists r o, (r, o) ∈ ros /\ p (evaluate_rule r o) = true.
Proof.
  rewrite existsb_exists. split.
  - intros (e & Hin & Hp). apply list_elem_of_In, list_elem_of_fmap in Hin
      as ([r o] & -> & Hin). eauto.
  - intros (r & o & Hin & Hp). exists (evaluate_rule r o). split; [|done].
    apply list_elem_of_In, list_elem_of_fmap. by exists (r, o).
Qed.

Lemma exists_Fail ros :
  existsb (has_disposition Fail_) (uncurry evaluate_rule <$> ros) = true <->
  exists r o, (r, o) ∈ ros /\ importance r = Required /\ o <> Satisfied.
Proof. rewrite existsb_evaluations. by setoid_rewrite disposition_Fail. Qed.

Lemma exists_Degraded ros :
  existsb (has_disposition Degraded) (uncurry evaluate_rule <$> ros) = true <->
  exists r o, (r, o) ∈ ros /\ importance r = Advisory /\ o <> Satisfied.
Proof. rewrite existsb_evaluations. by setoid_rewrite disposition_Degraded. Qed.

Lemma no_Fail_Degraded ros :
  existsb (has_disposition Fail_) (uncurry evaluate_rule <$> ros) = false /\
  existsb (has_disposition Degraded) (uncurry evaluate_rule <$> ros) = false <->
  forall r o, (r, o) ∈ ros -> importance r <> Informational_ -> o = Satisfied.
Proof.
  rewrite <- !not_true_iff_false, exists_Fail, exists_Degraded. split.
  - intros [HF HD] r o Hin Hi. destruct (decide (o = Satisfied)); [done|].
    destruct (importance r) eqn:E; [destruct HF|destruct HD|done]; eauto.
  - intros Hall. split; intros (r & o & Hin & Hi & Ho); apply Ho;
      apply (Hall r o Hin); by rewrite Hi.
Qed.

(** * Properties *)

(** The aggregate fails closed and does not depend on the order of the
    rules.  Over the evaluations of any rules and observations, the product is
    Unhealthy exactly when some Required rule was not Satisfied (a violation,
    missing evidence and an unsupported probe alike), Healthy exactly when there
    is at least one rule and every Required and Advisory one was Satisfied, and
    Unknown exactly when there is nothing to judge; and every evaluation is in
    exactly one of the four counts. *)
Theorem health_fails_closed (ros : list (Rule * Observation)) :
  let s := summarize (uncurry evaluate_rule <$> ros) in
  (health s = Unhealthy <->
     exists r o, (r, o) ∈ ros /\ importance r = Required /\ o <> Satisfied) /\
  (health s = Healthy <->
     ros <> [] /\
     forall r o, (r, o) ∈ ros -> importance r <> Informational_ -> o = Satisfied) /\
  (health s = Unknown <-> ros = []) /\
  total s = len ros /\
  total s = passed s + degraded s + failed s + informational s.
Proof.
  cbn zeta. pose proof (summarize_counts (uncurry evaluate_rule <$> ros)) as (Ht & _).
  assert (total (summarize (uncurry evaluate_rule <$> ros)) = len ros) as Hlen.
  { unfold summarize. destruct (summarize_loop (uncurry evaluate_rule <$> ros)
      (initial_summary (uncurry evaluate_rule <$> ros))) as (-> & _).
    simpl. unfold len. by rewrite length_fmap. }
  split; [|split; [|split; [|done]]]; rewrite summarize_health;
    (destruct ros as [|ro ros]; [set_solver|]);
    change (uncurry evaluate_rule <$> ro :: ros) with
      (uncurry evaluate_rule ro :: (uncurry evaluate_rule <$> ros)); cbv beta iota;
    change (uncurry evaluate_rule ro :: (uncurry evaluate_rule <$> ros)) with
      (uncurry evaluate_rule <$> ro :: ros).
  - rewrite <- exists_Fail. by repeat case_match.
  - rewrite <- no_Fail_Degraded. repeat case_match; naive_solver.
  - repeat case_match; naive_solver.
Qed.
