(* ===== verification/Peer.v ===== *)
(** Peer admission and runtime-layout rules: [automonique-policy/src/peer.rs].

    Everything is a total function over observations: kernel credentials of a
    connected peer against an explicit policy, the metadata of a runtime entry
    against its exact requirement, and the spelling of a runtime-relative path. *)

From S2P Require Import Prelude Text.

Definition MODE_PRIVATE_DIRECTORY : Z := 448.
Definition MODE_PRIVATE_FILE : Z := 384.
Definition MODE_IMMUTABLE_SPEC : Z := 256.

Inductive PeerRefusal :=
| CredentialsUnavailable
| UidNotAdmitted (uid : Z)
| RootNotAdmitted
| GidNotAdmitted (gid : Z)
| ModeMorePermissive (required observed : Z)
| ModeMismatch (required observed : Z)
| UnexpectedOwner (expected observed : Z)
| SymlinkComponent
| WritableParent
| EmbeddedNul
| AbsolutePath
| PathEscape
| NonCanonicalPath.

Record PeerCredential := mkCredential { uid : Z; gid : Z; pid : Z }.

(** Proof that a policy admitted a peer; only [evaluate] makes one. *)
Record Admission := mkAdmission { admitted_uid : Z }.

Inductive PeerPolicyError := NoAdmittedUsers.

Record PeerPolicy := mkPolicy {
  admitted_uids : list Z;
  admitted_gids : option (list Z);
}.

(** [Vec::dedup]: drops an element equal to the one kept before it. *)
Fixpoint dedup (l : list Z) : list Z :=
  match l with
  | [] => []
  | x :: l => x :: match dedup l with
                   | y :: l' => if x =? y then l' else y :: l'
                   | [] => []
                   end
  end.

(** [sort_unstable] on [u32]: equal elements are indistinguishable, so the
    result is the ascending rearrangement. *)
Fixpoint insert_sorted (x : Z) (l : list Z) : list Z :=
  match l with
  | [] => [x]
  | y :: l => if x <=? y then x :: y :: l else y :: insert_sorted x l
  end.
Definition sort_unstable (l : list Z) : list Z := foldr insert_sorted [] l.

Definition policy_new (uids : list Z) : result PeerPolicyError PeerPolicy :=
  match uids with
  | [] => Err NoAdmittedUsers
  | _ => Ok {| admitted_uids := dedup (sort_unstable uids); admitted_gids := None |}
  end.

Definition requiring_gids (p : PeerPolicy) (gids : list Z) : PeerPolicy :=
  match gids with
  | [] => {| admitted_uids := admitted_uids p; admitted_gids := None |}
  | _ => {| admitted_uids := admitted_uids p;
            admitted_gids := Some (dedup (sort_unstable gids)) |}
  end.

Definition admits_root (p : PeerPolicy) : bool := contains 0 (admitted_uids p).

Definition evaluate (p : PeerPolicy) (credential : option PeerCredential)
  : result PeerRefusal Admission :=
  match credential with
  | None => Err CredentialsUnavailable
  | Some c =>
      if negb (contains (uid c) (admitted_uids p)) then
        Err (if uid c =? 0 then RootNotAdmitted else UidNotAdmitted (uid c))
      else match admitted_gids p with
           | Some gids =>
               if negb (contains (gid c) gids) then Err (GidNotAdmitted (gid c))
               else Ok {| admitted_uid := uid c |}
           | None => Ok {| admitted_uid := uid c |}
           end
  end.

Record EntryMetadata := mkEntry {
  mode : Z;
  owner_uid : Z;
  is_symlink : bool;
  parent_group_or_world_writable : bool;
}.

(** [!required_mode] on [u32]. *)
Definition not_u32 (z : Z) : Z := Z.lxor z u32_max.

Definition check_entry (m : EntryMetadata) (required_mode expected_owner : Z)
  : result PeerRefusal unit :=
  if is_symlink m then Err SymlinkComponent
  else if negb (owner_uid m =? expected_owner) then
    Err (UnexpectedOwner expected_owner (owner_uid m))
  else if parent_group_or_world_writable m then Err WritableParent
  else if negb (mode m =? required_mode) then
    Err (if negb (Z.land (mode m) (not_u32 required_mode) =? 0)
         then ModeMorePermissive required_mode (mode m)
         else ModeMismatch required_mode (mode m))
  else Ok tt.

(** The loop of [check_relative_path], with the running [depth]. *)
Fixpoint check_components (depth : Z) (cs : list (list Z)) : result PeerRefusal unit :=
  match cs with
  | [] => Ok tt
  | c :: cs =>
      if bool_decide (c = []) || bool_decide (c = str ".") then Err NonCanonicalPath
      else if bool_decide (c = str "..") then
        if depth - 1 <? 0 then Err PathEscape else check_components (depth - 1) cs
      else check_components (depth + 1) cs
  end.

Definition SLASH : Z := 47.

Definition check_relative_path (path : list Z) : result PeerRefusal unit :=
  if contains 0 path then Err EmbeddedNul
  else if match path with c :: _ => c =? SLASH | [] => false end then Err AbsolutePath
  else if bool_decide (path = []) then Err NonCanonicalPath
  else check_components 0 (split_on SLASH path).

(** * Specifications *)

(** What the kernel does with the components below a root: [".."] leaves the
    innermost directory, and has nowhere to go at the root. *)
Fixpoint resolve (dirs : list (list Z)) (cs : list (list Z)) : option (list (list Z)) :=
  match cs with
  | [] => Some dirs
  | c :: cs =>
      if bool_decide (c = str "..") then
        match dirs with [] => None | _ :: dirs => resolve dirs cs end
      else resolve (c :: dirs) cs
  end.

(** * Lemmas *)

Lemma elem_of_insert_sorted x y l : x ∈ insert_sorted y l <-> x = y \/ x ∈ l.
Proof.
  induction l as [|z l IH]; simpl; [set_solver|].
  case_match; rewrite ?elem_of_cons, ?IH; naive_solver.
Qed.

Lemma elem_of_sort_unstable x l : x ∈ sort_unstable l <-> x ∈ l.
Proof.
  induction l as [|y l IH]; simpl; [done|].
  by rewrite elem_of_insert_sorted, elem_of_cons, IH.
Qed.

Lemma elem_of_dedup x l : x ∈ dedup l <-> x ∈ l.
Proof.
  induction l as [|y l IH]; simpl; [done|]. rewrite !elem_of_cons, <- IH.
  destruct (dedup l) as [|z l']; [done|].
  destruct (Z.eqb_spec y z); set_solver.
Qed.

Lemma contains_admitted x l : contains x (dedup (sort_unstable l)) = true <-> x ∈ l.
Proof. by rewrite contains_iff, elem_of_dedup, elem_of_sort_unstable. Qed.

(** The depth counter is the number of directories entered below the root. *)
Lemma check_components_resolve cs dirs :
  check_components (len dirs) cs = Ok tt <->
  Forall (fun c => c <> [] /\ c <> str ".") cs /\ is_Some (resolve dirs cs).
Proof.
  revert dirs; induction cs as [|c cs IH]; intros dirs; simpl.
  { split; [intros _; split; [constructor|by eexists]|done]. }
  rewrite Forall_cons.
  destruct (decide (c = [])) as [->|Hne]; [simpl; naive_solver|].
  destruct (decide (c = str ".")) as [->|Hdot]; [simpl; naive_solver|].
  rewrite !bool_decide_eq_false_2 by done. simpl.
  destruct (decide (c = str "..")) as [->|Hdd].
  - rewrite bool_decide_eq_true_2 by done. destruct dirs as [|d dirs].
    { simpl. split; [done|]. intros [_ [? ?]]. done. }
    rewrite len_cons. pose proof (len_nonneg dirs).
    destruct (Z.ltb_spec (1 + len dirs - 1) 0); [lia|].
    replace (1 + len dirs - 1) with (len dirs) by lia. rewrite IH. naive_solver.
  - rewrite bool_decide_eq_false_2 by done.
    replace (len dirs + 1) with (len (c :: dirs)) by (rewrite len_cons; lia).
    rewrite IH. naive_solver.
Qed.

(** A bit of [mode & !required] is a permission the requirement lacks. *)
Lemma testbit_u32 z i : in_u32 z -> Z.testbit z i = true -> i < 32.
Proof.
  intros Hz Hi. destruct (Z.lt_ge_cases i 32); [done|].
  destruct (Z.eq_dec z 0) as [->|]; [by rewrite Z.testbit_0_l in Hi|].
  rewrite Z.bits_above_log2 in Hi; [done| |].
  - mlia.
  - apply Z.log2_lt_pow2; [mlia|]. apply Z.lt_le_trans with (2 ^ 32); [mlia|].
    apply Z.pow_le_mono_r; lia.
Qed.

Lemma testbit_u32_max i : 0 <= i < 32 -> Z.testbit u32_max i = true.
Proof. intros Hi. change u32_max with (Z.ones 32). by apply Z.ones_spec_low. Qed.

Lemma land_not_u32 a b :
  in_u32 a ->
  Z.land a (not_u32 b) <> 0 <->
  exists i, 0 <= i /\ Z.testbit a i = true /\ Z.testbit b i = false.
Proof.
  intros Ha. split.
  - intros Hne. assert (Hbit : exists i, 0 <= i /\ Z.testbit (Z.land a (not_u32 b)) i = true).
    { exists (Z.log2 (Z.land a (not_u32 b))). split; [apply Z.log2_nonneg|].
      apply Z.bit_log2. apply Z.le_neq. split; [|done].
      apply Z.land_nonneg. left. mlia. }
    destruct Hbit as (i & Hi & Hb). exists i.
    rewrite Z.land_spec in Hb. apply andb_true_iff in Hb as [Hai Hni].
    pose proof (testbit_u32 a i Ha Hai). unfold not_u32 in Hni.
    rewrite Z.lxor_spec, testbit_u32_max in Hni by lia. by destruct (Z.testbit b i).
  - intros (i & Hi & Hai & Hbi) E.
    assert (Hb : Z.testbit (Z.land a (not_u32 b)) i = false)
      by (rewrite E; apply Z.testbit_0_l).
    pose proof (testbit_u32 a i Ha Hai). unfold not_u32 in Hb.
    by rewrite Z.land_spec, Z.lxor_spec, Hai, Hbi, testbit_u32_max in Hb by lia.
Qed.

(** * Properties *)

(** Peer admission is exactly membership.  A policy built from a list of
    user IDs and a group requirement admits a credential if and only if the
    kernel supplied one, its user ID is in the list the operator wrote, and,
    when groups were required, its group ID is in theirs; sorting and
    deduplicating change nothing, root has no special standing (it is admitted
    only when 0 is listed), and a missing credential is always a refusal. *)
Theorem peer_admission_exact uids gids p c a :
  policy_new uids = Ok p ->
  evaluate (requiring_gids p gids) c = Ok a <->
  exists k, c = Some k /\ a = mkAdmission (uid k) /\ uid k ∈ uids /\
            (gids = [] \/ gid k ∈ gids).
Proof.
  intros Hp. unfold policy_new in Hp. destruct uids as [|u us]; simplify_eq.
  destruct c as [k|]; simpl; [|naive_solver].
  assert (forall p', admitted_uids (requiring_gids p' gids) = admitted_uids p') as Hu
    by (by destruct gids).
  unfold evaluate. rewrite Hu. cbn [admitted_uids].
  pose proof (contains_admitted (uid k) (u :: us)) as HU.
  destruct (contains (uid k) _); simpl.
  - destruct gids as [|g gs]; simpl; [naive_solver|].
    pose proof (contains_admitted (gid k) (g :: gs)) as HG. simpl in HG.
    destruct (contains (gid k) _); simpl; naive_solver.
  - naive_solver.
Qed.

Lemma peer_admission_exact_witness :
  exists p, policy_new [1000; 0; 1000] = Ok p /\
    (evaluate (requiring_gids p [50]) (Some (mkCredential 1000 50 7)) = Ok (mkAdmission 1000) <->
     exists k, Some (mkCredential 1000 50 7) = Some k /\
       mkAdmission 1000 = mkAdmission (uid k) /\ uid k ∈ [1000; 0; 1000] /\
       ([50] = [] \/ gid k ∈ [50])).
Proof.
  eexists. split; [reflexivity|].
  apply (peer_admission_exact [1000; 0; 1000]). reflexivity.
Defined.

(** An accepted path stays below the runtime root.  A path is accepted
    exactly when it has no NUL, is not absolute, every component is a real name
    or [".."] (no empty or ["."] component) and walking its components from the
    root never steps above it. *)
Theorem relative_path_stays_below path :
  check_relative_path path = Ok tt <->
  ~ (0 ∈ path) /\ head path <> Some SLASH /\ path <> [] /\
  Forall (fun c => c <> [] /\ c <> str ".") (split_on SLASH path) /\
  is_Some (resolve [] (split_on SLASH path)).
Proof.
  unfold check_relative_path.
  pose proof (contains_iff 0 path) as HN. destruct (contains 0 path); [naive_solver|].
  destruct path as [|c path]; [simpl; naive_solver|].
  cbn [head]. destruct (Z.eqb_spec c SLASH) as [->|]; [naive_solver|].
  rewrite bool_decide_eq_false_2 by done.
  change 0 with (len (@nil (list Z))) at 1. rewrite check_components_resolve. naive_solver.
Qed.

(** A runtime entry is accepted exactly when it is not a symbolic link, is
    owned by the expected user, has no writable parent and has the required
    mode; and a refused mode is reported as more permissive exactly when some
    permission bit is set that the requirement does not grant. *)
Theorem check_entry_exact m required owner :
  in_u32 (mode m) ->
  (check_entry m required owner = Ok tt <->
     is_symlink m = false /\ owner_uid m = owner /\
     parent_group_or_world_writable m = false /\ mode m = required) /\
  (check_entry m required owner = Err (ModeMorePermissive required (mode m)) <->
     is_symlink m = false /\ owner_uid m = owner /\
     parent_group_or_world_writable m = false /\
     exists i, 0 <= i /\ Z.testbit (mode m) i = true /\ Z.testbit required i = false).
Proof.
  intros Hm. rewrite <- land_not_u32 by done. unfold check_entry.
  destruct (is_symlink m); [naive_solver|].
  destruct (Z.eqb_spec (owner_uid m) owner); [|naive_solver].
  destruct (parent_group_or_world_writable m); [naive_solver|].
  destruct (Z.eqb_spec (mode m) required) as [E|]; simpl; [rewrite E in *|].
  - split; [naive_solver|]. split; [done|]. intros (_ & _ & _ & Hland). exfalso.
    apply Hland, Z.bits_inj'. intros i Hi. unfold not_u32.
    rewrite Z.land_spec, Z.lxor_spec, Z.testbit_0_l.
    destruct (Z.testbit required i) eqn:Eb; [|done].
    pose proof (testbit_u32 required i Hm Eb).
    by rewrite testbit_u32_max by lia.
  - destruct (Z.eqb_spec (Z.land (mode m) (not_u32 required)) 0); simpl; naive_solver.
Qed.

Lemma check_entry_exact_witness :
  check_entry (mkEntry 493 7 false false) MODE_PRIVATE_DIRECTORY 7 =
    Err (ModeMorePermissive MODE_PRIVATE_DIRECTORY 493).
Proof.
  apply (check_entry_exact (mkEntry 493 7 false false)).
  - split; vm_compute; discriminate.
  - repeat split. exists 0. repeat split; reflexivity || lia.
Defined.
