(* ===== verification/Approval.v ===== *)
(** Tighten-only approval policy: [automonique-policy/src/approval.rs].

    Three sources each ask for some ceremony; the composition is the maximum of
    a three-value order, and the gate consults recorded evidence only when the
    composition asks for a decision. *)

From S2P Require Import Prelude Text Peer.

Inductive ApprovalRequirement := Allowed | ApprovalRequired | Forbidden.

#[export] Instance ApprovalRequirement_eq_dec : EqDecision ApprovalRequirement.
Proof. solve_decision. Defined.

Definition ALL_REQUIREMENTS : list ApprovalRequirement :=
  [Allowed; ApprovalRequired; Forbidden].

Definition requirement_as_str (r : ApprovalRequirement) : list Z :=
  match r with
  | Allowed => str "allowed"
  | ApprovalRequired => str "approval_required"
  | Forbidden => str "forbidden"
  end.

Definition from_spelling (value : list Z) : option ApprovalRequirement :=
  List.find (fun r => bool_decide (requirement_as_str r = value)) ALL_REQUIREMENTS.

Definition rank (r : ApprovalRequirement) : Z :=
  match r with Allowed => 0 | ApprovalRequired => 1 | Forbidden => 2 end.

Definition tighten (r other : ApprovalRequirement) : ApprovalRequirement :=
  if rank other >? rank r then other else r.

Definition for_measured_host (sandbox_enforceable : bool) : ApprovalRequirement :=
  if sandbox_enforceable then Allowed else Forbidden.

Record ApprovalSources := mkSources {
  config : ApprovalRequirement;
  host : ApprovalRequirement;
  per_call : ApprovalRequirement;
}.

Definition compose (s : ApprovalSources) : ApprovalRequirement :=
  tighten (tighten (config s) (host s)) (per_call s).

Record OperatorSurfaces := mkSurfaces {
  telegram_poller : bool;
  slack_approvals : bool;
  admitted_peer : bool;
}.

Definition surfaces_none : OperatorSurfaces := mkSurfaces false false false.
Definition with_telegram_poller (s : OperatorSurfaces) : OperatorSurfaces :=
  mkSurfaces true (slack_approvals s) (admitted_peer s).
Definition with_slack_approvals (s : OperatorSurfaces) : OperatorSurfaces :=
  mkSurfaces (telegram_poller s) true (admitted_peer s).
Definition with_admitted_peer (s : OperatorSurfaces) (_ : Admission) : OperatorSurfaces :=
  mkSurfaces (telegram_poller s) (slack_approvals s) true.
Definition any_reachable (s : OperatorSurfaces) : bool :=
  telegram_poller s || slack_approvals s || admitted_peer s.

Inductive ApprovalEvidence := Undecided | Granted | Denied.

Inductive ApprovalPolicyRefusal :=
| RefusedForbidden | ApprovalDenied | ApprovalUnreachable.

Inductive ApprovalGate := Proceed | Propose | Refuse (r : ApprovalPolicyRefusal).

Definition proceeds (g : ApprovalGate) : bool :=
  match g with Proceed => true | _ => false end.

Definition decide_gate (sources : ApprovalSources) (surfaces : OperatorSurfaces)
  (evidence : ApprovalEvidence) : ApprovalGate :=
  match compose sources with
  | Forbidden => Refuse RefusedForbidden
  | Allowed => Proceed
  | ApprovalRequired =>
      match evidence with
      | Granted => Proceed
      | Denied => Refuse ApprovalDenied
      | Undecided =>
          if any_reachable surfaces then Propose else Refuse ApprovalUnreachable
      end
  end.

(** * Lemmas *)

Lemma rank_tighten a b : rank (tighten a b) = Z.max (rank a) (rank b).
Proof. by destruct a, b. Qed.

Lemma rank_inj a b : rank a = rank b -> a = b.
Proof. by destruct a, b. Qed.

Lemma rank_compose s :
  rank (compose s) = Z.max (Z.max (rank (config s)) (rank (host s))) (rank (per_call s)).
Proof. unfold compose. by rewrite !rank_tighten. Qed.

(** The order the sources are compared in: [s] is at least as strict as [t]. *)
Definition stricter (s t : ApprovalSources) : Prop :=
  rank (config t) <= rank (config s) /\ rank (host t) <= rank (host s) /\
  rank (per_call t) <= rank (per_call s).

(** Sources of any number, folded in any order. *)
Definition fold_sources (l : list ApprovalRequirement) : ApprovalRequirement :=
  foldr (flip tighten) Allowed l.

Lemma rank_nonneg r : 0 <= rank r.
Proof. by destruct r. Qed.

Lemma rank_fold_sources l :
  rank (fold_sources l) = foldr (fun r m => Z.max m (rank r)) 0 l.
Proof. induction l as [|r l IH]; simpl; [done|]. by rewrite rank_tighten, IH. Qed.

#[export] Instance fold_sources_proper : Proper ((≡ₚ) ==> (=)) fold_sources.
Proof.
  induction 1 as [|x l k _ IH|x y l|]; simpl; [done|by rewrite IH| |congruence].
  apply rank_inj. rewrite !rank_tighten. lia.
Qed.

(** * Properties *)

(** Composition is the join of the order, whatever order the sources are
    folded in: the composed requirement is the strictest source, it equals the
    fold of the sources in any permutation, it is never looser than a source,
    and it is itself one of them. *)
Theorem compose_is_join s l :
  l ≡ₚ [config s; host s; per_call s] ->
  fold_sources l = compose s /\
  (forall r, r ∈ l -> rank r <= rank (compose s)) /\
  compose s ∈ l.
Proof.
  intros Hl. pose proof (rank_nonneg (config s)).
  split; [|split].
  - rewrite Hl. apply rank_inj. rewrite rank_compose. simpl.
    rewrite !rank_tighten. simpl. lia.
  - intros r. rewrite Hl, rank_compose. set_unfold. intros [->|[->|[->|[]]]]; lia.
  - rewrite Hl. unfold compose. set_unfold.
    destruct (config s), (host s), (per_call s); simpl; tauto.
Qed.

Lemma compose_is_join_witness :
  fold_sources [Forbidden; Allowed; ApprovalRequired] =
    compose (mkSources Allowed ApprovalRequired Forbidden).
Proof.
  apply (compose_is_join (mkSources Allowed ApprovalRequired Forbidden)
           [Forbidden; Allowed; ApprovalRequired]).
  apply (Permutation_cons_append [Allowed; ApprovalRequired] Forbidden).
Defined.

(** An action starts only on standing permission or an explicit grant, and
    tightening cannot unlock anything.  The gate proceeds exactly when no
    source asks for ceremony, or when a decision is required and one was
    granted; a forbidden action is refused whatever the evidence; an undecided
    one is proposed only when some operator surface is live and otherwise
    refused at once; and making any source stricter never turns a refusal or a
    proposal into a start. *)
Theorem gate_sound s t surfaces evidence :
  (decide_gate s surfaces evidence = Proceed <->
     compose s = Allowed \/ (compose s = ApprovalRequired /\ evidence = Granted)) /\
  (compose s = Forbidden ->
     decide_gate s surfaces evidence = Refuse RefusedForbidden) /\
  (decide_gate s surfaces evidence = Propose <->
     compose s = ApprovalRequired /\ evidence = Undecided /\
     any_reachable surfaces = true) /\
  (stricter s t -> proceeds (decide_gate s surfaces evidence) = true ->
     proceeds (decide_gate t surfaces evidence) = true).
Proof.
  unfold decide_gate. split_and!.
  - repeat case_match; naive_solver.
  - by intros ->.
  - repeat case_match; naive_solver.
  - intros (Hc & Hh & Hp) Hs.
    assert (rank (compose t) <= rank (compose s)) by (rewrite !rank_compose; lia).
    destruct (compose s), (compose t), evidence; simpl in *; done || lia.
Qed.

Lemma gate_sound_witness :
  proceeds (decide_gate (mkSources Allowed Allowed Allowed) surfaces_none Granted) = true.
Proof.
  apply (gate_sound (mkSources ApprovalRequired Allowed Allowed) (mkSources Allowed Allowed Allowed)).
  - repeat split; vm_compute; discriminate.
  - reflexivity.
Defined.
