(* ===== verification/Fence.v ===== *)
(** Bounded scheduler coordinates: the identifiers and the fence of
    [automonique-core/src/lib.rs].

    A fence names the generation, the lease holder and a non-zero epoch; every
    identifier is non-empty, at most 160 UTF-8 bytes and free of control
    characters. *)

From S2P Require Import Prelude Text.

Definition MAX_ID_BYTES : Z := 160.

Inductive CoordinateError := InvalidField (field : string) | ZeroEpoch.

#[export] Instance CoordinateError_eq_dec : EqDecision CoordinateError.
Proof. solve_decision. Defined.

Definition validate_id (value : list Z) (field : string) : result CoordinateError unit :=
  if bool_decide (value = []) || (MAX_ID_BYTES <? str_len value)
     || existsb is_control value
  then Err (InvalidField field) else Ok tt.

Record SchedulerFence := mkFence {
  generation_id : list Z;
  holder_id : list Z;
  epoch : Z;
}.

#[export] Instance SchedulerFence_eq_dec : EqDecision SchedulerFence.
Proof. solve_decision. Defined.

Definition fence_new (generation holder : list Z) (e : Z)
  : result CoordinateError SchedulerFence :=
  _ ← validate_id generation "generation_id";
  _ ← validate_id holder "holder_id";
  if e =? 0 then Err ZeroEpoch else Ok (mkFence generation holder e).

(** [WorkId::new] and [ScopeId::new] of [scheduler_conformance.rs]: the newtype
    is its validated text. *)
Definition work_id_new (value : list Z) : result CoordinateError (list Z) :=
  _ ← validate_id value "work_id"; Ok value.
Definition scope_id_new (value : list Z) : result CoordinateError (list Z) :=
  _ ← validate_id value "scope_id"; Ok value.

(** A fence and an identifier as the constructors make them. *)
Definition valid_id (value : list Z) : Prop :=
  value <> [] /\ str_len value <= MAX_ID_BYTES /\ existsb is_control value = false.

Definition valid_fence (f : SchedulerFence) : Prop :=
  valid_id (generation_id f) /\ valid_id (holder_id f) /\ 1 <= epoch f <= u64_max.

Lemma validate_id_Ok value field : validate_id value field = Ok tt <-> valid_id value.
Proof.
  unfold validate_id, valid_id. case_match; bool_prop; split; intros; try done.
  - exfalso. destruct_and?. destruct_or?; [done|lia|congruence].
  - destruct_and?. by repeat split.
Qed.

Lemma work_id_new_Ok value v : work_id_new value = Ok v <-> v = value /\ valid_id value.
Proof.
  unfold work_id_new. rewrite <- (validate_id_Ok value "work_id").
  destruct (validate_id value "work_id") as [[]|]; cbn; naive_solver.
Qed.

(** Constructed fences are exactly the valid ones. *)
Lemma fence_new_Ok g h e f :
  in_u64 e -> fence_new g h e = Ok f <-> f = mkFence g h e /\ valid_fence f.
Proof.
  intros He. unfold fence_new, valid_fence.
  pose proof (validate_id_Ok g "generation_id") as HG.
  pose proof (validate_id_Ok h "holder_id") as HH.
  destruct (validate_id g "generation_id") as [[]|]; [|naive_solver].
  destruct (validate_id h "holder_id") as [[]|]; [|naive_solver].
  cbn. destruct (Z.eqb_spec e 0) as [->|]; split; try done.
  - intros (-> & _ & _ & ?). cbn in *. lia.
  - intros [= <-]. split; [done|]. split; [by apply HG|]. split; [by apply HH|].
    cbn. mlia.
  - by intros [-> _].
Qed.
