(* ===== verification/Scheduler.v ===== *)
(** The scheduler core and its reference model:
    [automonique-core/src/scheduler_conformance.rs].

    [SchedulerCore] is the trait, as a type class of operations over an
    explicit state; [ReferenceScheduler] is the in-memory scheduler, with one
    definition per method, and the instance of the trait.  The theorems are
    about every sequence of calls from a fresh scheduler: bounded parallelism,
    one item per scope, admission in submission order, no work lost, no work
    started twice. *)

From S2P Require Import Prelude Text Fence.

Definition MAX_PARALLELISM_LIMIT : Z := 1024.
Definition MIN_PARALLELISM_LIMIT : Z := 2.

Record QueuedWork := mkWork { work_id : list Z; scope : list Z }.

Inductive WorkState := Queued | Running | StopRequested | Completed | Cancelled.

#[export] Instance WorkState_eq_dec : EqDecision WorkState.
Proof. solve_decision. Defined.
#[export] Instance QueuedWork_eq_dec : EqDecision QueuedWork.
Proof. solve_decision. Defined.

Definition work_state_as_str (s : WorkState) : list Z :=
  match s with
  | Queued => str "queued"
  | Running => str "running"
  | StopRequested => str "stop_requested"
  | Completed => str "completed"
  | Cancelled => str "cancelled"
  end.

Definition is_terminal (s : WorkState) : bool :=
  match s with Completed | Cancelled => true | _ => false end.

Definition holds_a_slot (s : WorkState) : bool :=
  match s with Running | StopRequested => true | _ => false end.

Inductive CancelDisposition := NeverStarted | CancelStopRequested.

Inductive SchedulerRefusal :=
| StaleFence | UnknownWork | DuplicateWork | AlreadyTerminal | NotRunning.

#[export] Instance CancelDisposition_eq_dec : EqDecision CancelDisposition.
Proof. solve_decision. Defined.
#[export] Instance SchedulerRefusal_eq_dec : EqDecision SchedulerRefusal.
Proof. solve_decision. Defined.

(** The trait.  A [&mut self] method takes the state and returns it beside the
    result; a [&self] method only reads it.  A method of an implementation may
    panic, which is [None]; the two accessors of the limit and the fence do not. *)
Class SchedulerCore (S : Type) := {
  parallelism_limit : S -> Z;
  fence_of : S -> SchedulerFence;
  submit : QueuedWork -> S -> option (result SchedulerRefusal unit * S);
  tick : SchedulerFence -> S -> option (result SchedulerRefusal (list (list Z)) * S);
  complete : list Z -> S -> option (result SchedulerRefusal WorkState * S);
  pause : list Z -> S -> option S;
  resume : list Z -> S -> option S;
  cancel : list Z -> S -> option (result SchedulerRefusal CancelDisposition * S);
  running : S -> option (list (list Z));
  state_of : list Z -> S -> option (option WorkState);
}.

Record ReferenceScheduler := mkReference {
  limit : Z;
  fence : SchedulerFence;
  order : list QueuedWork;
  states : gmap (list Z) WorkState;
  paused : gset (list Z);
}.

Definition reference_new (l : Z) (f : SchedulerFence) : ReferenceScheduler :=
  mkReference l f [] ∅ ∅.

Definition set_states (s : ReferenceScheduler) (m : gmap (list Z) WorkState)
  : ReferenceScheduler := mkReference (limit s) (fence s) (order s) m (paused s).

(** Whether one work identity holds a parallelism slot. *)
Definition slot (m : gmap (list Z) WorkState) (id : list Z) : bool :=
  match m !! id with Some st => holds_a_slot st | None => false end.

Definition occupied (s : ReferenceScheduler) : Z :=
  Z.of_nat (size (filter (fun kv => holds_a_slot kv.2 = true) (states s))).

Definition scope_is_busy (s : ReferenceScheduler) (sc : list Z) : bool :=
  existsb (fun q => bool_decide (scope q = sc) && slot (states s) (work_id q)) (order s).

(** [ReferenceScheduler::scope]. *)
Definition scope_of (s : ReferenceScheduler) (id : list Z) : option (list Z) :=
  scope <$> List.find (fun q => bool_decide (work_id q = id)) (order s).

Definition reference_submit (w : QueuedWork) (s : ReferenceScheduler)
  : result SchedulerRefusal unit * ReferenceScheduler :=
  match states s !! work_id w with
  | Some _ => (Err DuplicateWork, s)
  | None =>
      (Ok tt, mkReference (limit s) (fence s) (order s ++ [w])
                (<[work_id w := Queued]> (states s)) (paused s))
  end.

(** The guard of the [continue] in the loop of [tick]. *)
Definition skips (s : ReferenceScheduler) (q : QueuedWork) : bool :=
  negb (bool_decide (states s !! work_id q = Some Queued))
  || bool_decide (scope q ∈ paused s)
  || scope_is_busy s (scope q).

Definition start (q : QueuedWork) (s : ReferenceScheduler) : ReferenceScheduler :=
  set_states s (<[work_id q := Running]> (states s)).

(** One pass in submission order, re-reading slots and scopes after every
    start.  The loop never changes [order], so the indices it visits are the
    elements of the list it started from. *)
Fixpoint tick_loop (rest : list QueuedWork) (s : ReferenceScheduler)
  (started : list (list Z)) : ReferenceScheduler * list (list Z) :=
  match rest with
  | [] => (s, started)
  | q :: rest =>
      if limit s <=? occupied s then (s, started)
      else if skips s q then tick_loop rest s started
      else tick_loop rest (start q s) (started ++ [work_id q])
  end.

Definition reference_tick (f : SchedulerFence) (s : ReferenceScheduler)
  : result SchedulerRefusal (list (list Z)) * ReferenceScheduler :=
  if negb (bool_decide (f = fence s)) then (Err StaleFence, s)
  else let '(s', started) := tick_loop (order s) s [] in (Ok started, s').

Definition reference_complete (id : list Z) (s : ReferenceScheduler)
  : result SchedulerRefusal WorkState * ReferenceScheduler :=
  match states s !! id with
  | None => (Err UnknownWork, s)
  | Some Running => (Ok Completed, set_states s (<[id := Completed]> (states s)))
  | Some StopRequested => (Ok Cancelled, set_states s (<[id := Cancelled]> (states s)))
  | Some _ => (Err NotRunning, s)
  end.

Definition reference_pause (sc : list Z) (s : ReferenceScheduler) : ReferenceScheduler :=
  mkReference (limit s) (fence s) (order s) (states s) ({[sc]} ∪ paused s).

Definition reference_resume (sc : list Z) (s : ReferenceScheduler) : ReferenceScheduler :=
  mkReference (limit s) (fence s) (order s) (states s) (paused s ∖ {[sc]}).

Definition reference_cancel (id : list Z) (s : ReferenceScheduler)
  : result SchedulerRefusal CancelDisposition * ReferenceScheduler :=
  match states s !! id with
  | None => (Err UnknownWork, s)
  | Some Queued => (Ok NeverStarted, set_states s (<[id := Cancelled]> (states s)))
  | Some Running | Some StopRequested =>
      (Ok CancelStopRequested, set_states s (<[id := StopRequested]> (states s)))
  | Some Completed | Some Cancelled => (Err AlreadyTerminal, s)
  end.

Definition reference_running (s : ReferenceScheduler) : list (list Z) :=
  List.filter (slot (states s)) (work_id <$> order s).

Definition reference_state (id : list Z) (s : ReferenceScheduler) : option WorkState :=
  states s !! id.

(** The reference scheduler never panics. *)
#[export] Instance ReferenceScheduler_core : SchedulerCore ReferenceScheduler := {
  parallelism_limit := limit;
  fence_of := fence;
  submit w s := Some (reference_submit w s);
  tick f s := Some (reference_tick f s);
  complete id s := Some (reference_complete id s);
  pause sc s := Some (reference_pause sc s);
  resume sc s := Some (reference_resume sc s);
  cancel id s := Some (reference_cancel id s);
  running s := Some (reference_running s);
  state_of id s := Some (reference_state id s);
}.

(** * Sequences of calls *)

Inductive Call :=
| CSubmit (w : QueuedWork)
| CTick (f : SchedulerFence)
| CComplete (id : list Z)
| CPause (sc : list Z)
| CResume (sc : list Z)
| CCancel (id : list Z).

(** The new state of the reference scheduler and what the call started. *)
Definition call (c : Call) (s : ReferenceScheduler) : list (list Z) * ReferenceScheduler :=
  match c with
  | CSubmit w => ([], (reference_submit w s).2)
  | CTick f =>
      (match (reference_tick f s).1 with Ok started => started | Err _ => [] end,
       (reference_tick f s).2)
  | CComplete id => ([], (reference_complete id s).2)
  | CPause sc => ([], reference_pause sc s)
  | CResume sc => ([], reference_resume sc s)
  | CCancel id => ([], (reference_cancel id s).2)
  end.

(** Everything a sequence of calls started, in order, and where it ended. *)
Fixpoint run (cs : list Call) (s : ReferenceScheduler) : list (list Z) * ReferenceScheduler :=
  match cs with
  | [] => ([], s)
  | c :: cs =>
      let '(now, s) := call c s in
      let '(later, s) := run cs s in (now ++ later, s)
  end.

(** * The invariant *)

(** The identities in [order] are distinct and are the ones with a state. *)
Definition indexed (s : ReferenceScheduler) : Prop :=
  NoDup (work_id <$> order s) /\
  forall id, is_Some (states s !! id) <-> id ∈ (work_id <$> order s).

(** No scope has two slot holders. *)
Definition exclusive (s : ReferenceScheduler) : Prop :=
  forall q q', q ∈ order s -> q' ∈ order s -> scope q = scope q' ->
    slot (states s) (work_id q) = true -> slot (states s) (work_id q') = true ->
    q = q'.

Record inv (s : ReferenceScheduler) : Prop := mkInv {
  inv_indexed : indexed s;
  inv_exclusive : exclusive s;
  inv_bounded : occupied s <= limit s;
}.

(** The only ways a state may change. *)
Inductive moves : WorkState -> WorkState -> Prop :=
| moves_start : moves Queued Running
| moves_withdraw : moves Queued Cancelled
| moves_stop : moves Running StopRequested
| moves_finish : moves Running Completed
| moves_stopped : moves StopRequested Cancelled.

(** * Lemmas *)

Definition slots (m : gmap (list Z) WorkState) : Z :=
  Z.of_nat (size (filter (fun kv => holds_a_slot kv.2 = true) m)).

Definition one (b : bool) : Z := if b then 1 else 0.

Lemma slot_insert m id st id' :
  slot (<[id := st]> m) id' = if decide (id = id') then holds_a_slot st else slot m id'.
Proof. unfold slot. rewrite lookup_insert. by case_decide. Qed.

(** Changing one state moves the slot count by exactly that item's slot. *)
Lemma slots_insert m id st :
  slots (<[id := st]> m) = slots m - one (slot m id) + one (holds_a_slot st).
Proof.
  set (P := fun kv : list Z * WorkState => holds_a_slot kv.2 = true).
  unfold slots. fold P.
  assert (Hold : forall m', m' = filter P m -> m' !! id =
    if slot m id then m !! id else None).
  { intros m' ->. unfold slot. rewrite map_lookup_filter.
    destruct (m !! id) as [st'|]; simpl; [|done].
    unfold P. simpl. destruct (holds_a_slot st'); by simpl. }
  specialize (Hold _ eq_refl).
  destruct (holds_a_slot st) eqn:Hst.
  - rewrite map_filter_insert_True by done.
    destruct (slot m id) eqn:Hs; unfold slot in Hs.
    + destruct (m !! id) as [st'|]; [|done].
      rewrite map_size_insert_Some by (by rewrite Hold). simpl. lia.
    + rewrite map_size_insert_None by done. simpl. lia.
  - rewrite map_filter_insert_False by (unfold P; simpl; congruence).
    rewrite map_filter_delete.
    destruct (slot m id) eqn:Hs; unfold slot in Hs.
    + destruct (m !! id) as [st'|]; [|done].
      rewrite map_size_delete_Some by (rewrite Hold; by eexists).
      assert (size (filter P m) <> 0)%nat.
      { intros Hz%map_size_empty_inv. rewrite Hz in Hold. done. }
      simpl. lia.
    + rewrite delete_id by done. simpl. lia.
Qed.

Lemma occupied_slots s : occupied s = slots (states s).
Proof. reflexivity. Qed.

Lemma scope_is_busy_true s sc :
  scope_is_busy s sc = true <->
  exists q, q ∈ order s /\ scope q = sc /\ slot (states s) (work_id q) = true.
Proof.
  unfold scope_is_busy. rewrite existsb_exists. setoid_rewrite <- list_elem_of_In.
  setoid_rewrite andb_true_iff. setoid_rewrite bool_decide_eq_true. done.
Qed.

Lemma skips_false s q :
  skips s q = false <->
  states s !! work_id q = Some Queued /\ (scope q ∉ paused s) /\
  scope_is_busy s (scope q) = false.
Proof. unfold skips. bool_prop. naive_solver. Qed.

Lemma work_id_inj (s : ReferenceScheduler) q q' :
  indexed s -> q ∈ order s -> q' ∈ order s -> work_id q = work_id q' -> q = q'.
Proof.
  intros [Hnd _] Hq Hq' E.
  apply list_elem_of_lookup in Hq as [i Hi]. apply list_elem_of_lookup in Hq' as [j Hj].
  assert (i = j) as ->.
  { eapply NoDup_lookup; [exact Hnd| |]; rewrite list_lookup_fmap;
      [rewrite Hi|rewrite Hj]; simpl; [done|by rewrite E]. }
  congruence.
Qed.

(** ** Replacing the state of one known item *)

Lemma set_states_indexed s id st :
  indexed s -> is_Some (states s !! id) -> indexed (set_states s (<[id := st]> (states s))).
Proof.
  intros [Hnd Hdom] Hid. split; [done|]. intros id'. simpl. rewrite lookup_insert.
  case_decide; subst; [|apply Hdom]. rewrite <- Hdom. split; [done|by eexists].
Qed.

(** A state change that takes no slot keeps the invariant. *)
Lemma set_states_inv s id st :
  inv s -> is_Some (states s !! id) ->
  (holds_a_slot st = true -> slot (states s) id = true) ->
  inv (set_states s (<[id := st]> (states s))).
Proof.
  intros [Hi He Hb] Hid Hst. split.
  - by apply set_states_indexed.
  - assert (Hle : forall x, slot (<[id := st]> (states s)) x = true ->
              slot (states s) x = true).
    { intros x. rewrite slot_insert. case_decide; [by subst|done]. }
    intros q q' Hq Hq' Hs H1 H2. by apply He; auto.
  - rewrite occupied_slots in *. simpl in *. rewrite slots_insert.
    destruct (holds_a_slot st), (slot (states s) id); simpl; try lia.
Qed.

(** ** The loop of [tick] *)

Lemma start_inv s q :
  inv s -> q ∈ order s -> skips s q = false -> occupied s < limit s -> inv (start q s).
Proof.
  intros [Hi He Hb] Hq (Hst & _ & Hbusy)%skips_false Hlt.
  assert (Hns : slot (states s) (work_id q) = false) by (unfold slot; by rewrite Hst).
  assert (Hother : forall q', q' ∈ order s -> scope q' = scope q ->
            slot (states s) (work_id q') = false).
  { intros q' Hq' Hsc. apply not_true_iff_false. intros Hsl.
    apply not_true_iff_false in Hbusy. apply Hbusy, scope_is_busy_true. eauto. }
  split.
  - apply set_states_indexed; [done|by eexists].
  - intros q1 q2 H1 H2 Hsc. simpl in *. rewrite !slot_insert.
    destruct (decide (work_id q = work_id q1)), (decide (work_id q = work_id q2));
      intros Hs1 Hs2.
    + apply (work_id_inj s); [done..|congruence].
    + assert (q1 = q) as -> by (apply (work_id_inj s); done || congruence).
      rewrite Hother in Hs2; done.
    + assert (q2 = q) as -> by (apply (work_id_inj s); done || congruence).
      rewrite Hother in Hs1; done.
    + by apply He.
  - rewrite occupied_slots in *. simpl. rewrite slots_insert, Hns. simpl. lia.
Qed.

(** What one [tick] did, between the states [s] and [s']. *)
Record ticked (s s' : ReferenceScheduler) (started : list (list Z)) : Prop := mkTicked {
  tk_same : limit s' = limit s /\ fence s' = fence s /\ order s' = order s /\
            paused s' = paused s;
  tk_nodup : NoDup started;
  tk_started : forall id, id ∈ started -> states s !! id = Some Queued /\
                 states s' !! id = Some Running;
  tk_other : forall id, id ∉ started -> states s' !! id = states s !! id;
  tk_unpaused : forall q, q ∈ order s -> work_id q ∈ started -> scope q ∉ paused s;
  tk_occupied : occupied s' = occupied s + len started;
}.

Lemma start_ticked_one s q :
  skips s q = false -> limit (start q s) = limit s /\ paused (start q s) = paused s /\
  order (start q s) = order s /\ occupied (start q s) = occupied s + 1.
Proof.
  intros (Hst & _)%skips_false. repeat split.
  rewrite !occupied_slots. simpl. rewrite slots_insert. unfold slot. rewrite Hst. simpl. lia.
Qed.

Lemma tick_loop_ticked rest s0 s started :
  inv s -> ticked s0 s started -> (forall q, q ∈ rest -> q ∈ order s) ->
  let '(s', started') := tick_loop rest s started in
  inv s' /\ ticked s0 s' started'.
Proof.
  revert s started; induction rest as [|q rest IH]; intros s started Hinv Ht Hsub; simpl; [done|].
  destruct (Z.leb_spec (limit s) (occupied s)); [done|].
  destruct (skips s q) eqn:Hsk; [apply IH; set_solver|].
  pose proof Hsk as Hskip. apply skips_false in Hsk as (Hq & Hp & Hb).
  apply IH.
  - apply start_inv; set_solver.
  - destruct Ht as [(Hl & Hf & Ho & Hpa) Hnd Hst Hot Hun Hoc].
    destruct (start_ticked_one s q Hskip) as (_ & _ & _ & Hoc1).
    assert (work_id q ∉ started).
    { intros Hin. apply Hst in Hin as [_ Hr]. congruence. }
    split; simpl.
    + done.
    + apply NoDup_app. repeat split; [done| |apply NoDup_singleton]. set_solver.
    + intros id. rewrite elem_of_app, list_elem_of_singleton, lookup_insert.
      intros [Hin| ->].
      * case_decide; [subst; done|]. by apply Hst.
      * rewrite <- Hot by done. by case_decide.
    + intros id. rewrite elem_of_app, list_elem_of_singleton. intros Hn.
      rewrite lookup_insert_ne by naive_solver. apply Hot. naive_solver.
    + intros q' Hq'. rewrite elem_of_app, list_elem_of_singleton. intros [Hin|E]; [by apply Hun|].
      rewrite <- Ho in Hq'. assert (q' = q) as ->.
      { apply (work_id_inj s); [apply Hinv|done| |done]. apply Hsub. set_solver. }
      by rewrite <- Hpa.
    + rewrite Hoc1, Hoc, len_app. unfold len. simpl. lia.
  - intros q' Hq'. simpl. apply Hsub. set_solver.
Qed.

Lemma ticked_refl s : ticked s s [].
Proof.
  split; try done.
  - constructor.
  - set_solver.
  - set_solver.
  - unfold len. simpl. lia.
Qed.

Lemma reference_tick_Ok f s started s' :
  inv s -> reference_tick f s = (Ok started, s') ->
  f = fence s /\ inv s' /\ ticked s s' started /\ tick_loop (order s) s [] = (s', started).
Proof.
  intros Hinv. unfold reference_tick. case_bool_decide as Hf; simpl; [|done].
  destruct (tick_loop (order s) s []) as [s1 st1] eqn:E. intros [= -> ->].
  pose proof (tick_loop_ticked (order s) s s [] Hinv (ticked_refl s)) as H.
  rewrite E in H. destruct H; [done|]. done.
Qed.

Lemma reference_tick_Err f s e s' :
  reference_tick f s = (Err e, s') -> e = StaleFence /\ s' = s /\ f <> fence s.
Proof.
  unfold reference_tick. case_bool_decide; simpl; [|naive_solver].
  by destruct (tick_loop (order s) s []).
Qed.

Lemma tick_loop_started_prefix rest s started s' started' :
  tick_loop rest s started = (s', started') -> exists more, started' = started ++ more.
Proof.
  revert s started; induction rest as [|q rest IH]; intros s started; simpl.
  { intros [= _ <-]. exists []. by rewrite app_nil_r. }
  case_match; [intros [= _ <-]; exists []; by rewrite app_nil_r|].
  case_match; [apply IH|]. intros (more & ->)%IH. rewrite <- app_assoc. eauto.
Qed.

(** ** Every call keeps the invariant *)

Lemma submit_inv w s : inv s -> inv (reference_submit w s).2.
Proof.
  intros [[Hnd Hdom] He Hb]. unfold reference_submit.
  destruct (states s !! work_id w) eqn:Hw; [done|].
  assert (Hnew : work_id w ∉ work_id <$> order s).
  { rewrite <- Hdom, Hw. by intros [? ?]. }
  simpl. split.
  - split; simpl.
    + rewrite fmap_app. apply NoDup_app. repeat split; [done| |apply NoDup_singleton].
      intros x Hx Hx'. apply list_elem_of_singleton in Hx' as ->. done.
    + intros id. rewrite lookup_insert, fmap_app, elem_of_app, <- Hdom. simpl.
      rewrite list_elem_of_singleton. case_decide; subst; split; eauto; naive_solver.
  - intros q q' Hq Hq'. simpl in *. rewrite !slot_insert.
    rewrite elem_of_app, list_elem_of_singleton in Hq, Hq'.
    intros Hs H1 H2. repeat case_decide; try done.
    destruct Hq as [Hq| ->], Hq' as [Hq'| ->]; try done. by apply He.
  - rewrite occupied_slots in *. simpl. rewrite slots_insert. unfold slot. rewrite Hw. simpl. lia.
Qed.

Lemma complete_inv id s : inv s -> inv (reference_complete id s).2.
Proof.
  intros Hinv. unfold reference_complete.
  destruct (states s !! id) as [[]|] eqn:E; simpl; try done;
    (apply set_states_inv; [done|by eexists|done]).
Qed.

Lemma cancel_inv id s : inv s -> inv (reference_cancel id s).2.
Proof.
  intros Hinv. unfold reference_cancel.
  destruct (states s !! id) as [[]|] eqn:E; simpl; try done;
    (apply set_states_inv; [done|by eexists|]; unfold slot; by rewrite E).
Qed.

Lemma tick_inv f s : inv s -> inv (reference_tick f s).2.
Proof.
  intros Hinv. destruct (reference_tick f s) as [[started|e] s'] eqn:E; simpl.
  - by apply (reference_tick_Ok f s started s').
  - by apply reference_tick_Err in E as (_ & -> & _).
Qed.

Lemma call_inv c s : inv s -> inv (call c s).2.
Proof.
  intros Hinv. destruct c; simpl.
  - by apply submit_inv.
  - by apply tick_inv.
  - by apply complete_inv.
  - by destruct Hinv.
  - by destruct Hinv.
  - by apply cancel_inv.
Qed.

Lemma run_snd_cons c cs (s : ReferenceScheduler) :
  run (c :: cs) s = ((call c s).1 ++ (run cs (call c s).2).1, (run cs (call c s).2).2).
Proof. cbn [run]. destruct (call c s) as [? s1]. cbn. by destruct (run cs s1). Qed.

Lemma run_inv cs s : inv s -> inv (run cs s).2.
Proof.
  revert s; induction cs as [|c cs IH]; intros s Hs; [done|].
  rewrite run_snd_cons. simpl. by apply IH, call_inv.
Qed.

Lemma new_inv l f : 0 <= l -> inv (reference_new l f).
Proof.
  intros Hl. split.
  - split; simpl; [constructor|]. intros id. rewrite lookup_empty.
    split; [by intros [? ?]|set_solver].
  - intros q q' Hq. simpl in Hq. set_solver.
  - done.
Qed.

#[export] Hint Resolve submit_inv complete_inv cancel_inv tick_inv call_inv run_inv
  new_inv : core.

(** ** The running set *)

Lemma elem_of_filter_b {A} (p : A -> bool) (l : list A) x :
  x ∈ List.filter p l <-> x ∈ l /\ p x = true.
Proof. rewrite !list_elem_of_In. apply filter_In. Qed.

Lemma NoDup_filter_b {A} (p : A -> bool) (l : list A) : NoDup l -> NoDup (List.filter p l).
Proof. rewrite !NoDup_ListNoDup. apply List.NoDup_filter. Qed.

Lemma slot_is_Some m id : slot m id = true -> is_Some (m !! id).
Proof. unfold slot. destruct (m !! id); [by eexists|done]. Qed.

(** The slot count is the length of the list [running] reports. *)
Lemma occupied_running s : indexed s -> occupied s = len (reference_running s).
Proof.
  intros [Hnd Hdom]. unfold occupied, len. f_equal.
  rewrite <- size_dom.
  assert (dom (filter (fun kv : list Z * WorkState => holds_a_slot kv.2 = true) (states s))
          = list_to_set (reference_running s)) as ->.
  { apply set_eq. intros id. rewrite elem_of_dom, elem_of_list_to_set.
    unfold reference_running. rewrite elem_of_filter_b, <- Hdom.
    unfold slot. split.
    - intros (st & [Hm Hst]%map_lookup_filter_Some). rewrite Hm. by split; [eexists|].
    - intros [[st Hst] Hs]. rewrite Hst in Hs. exists st.
      by apply map_lookup_filter_Some. }
  apply size_list_to_set. by apply NoDup_filter_b.
Qed.

(** Scopes of the running items, in submission order. *)
Definition running_scopes (s : ReferenceScheduler) : list (list Z) :=
  scope <$> List.filter (fun q => slot (states s) (work_id q)) (order s).

Lemma running_scopes_NoDup s : indexed s -> exclusive s -> NoDup (running_scopes s).
Proof.
  intros Hi He. unfold running_scopes.
  assert (Hsub : forall q, q ∈ List.filter (fun q => slot (states s) (work_id q)) (order s) ->
            q ∈ order s /\ slot (states s) (work_id q) = true)
    by (intros q Hq; by apply elem_of_filter_b in Hq).
  assert (Hnd : NoDup (List.filter (fun q => slot (states s) (work_id q)) (order s))).
  { apply NoDup_filter_b. eapply NoDup_fmap_1, Hi. }
  induction Hnd as [|q l Hq Hnd IH]; simpl; constructor.
  - intros (q' & E & Hin)%list_elem_of_fmap.
    destruct (Hsub q) as [? ?]; [set_solver|]. destruct (Hsub q') as [? ?]; [set_solver|].
    by rewrite (He q q') in Hq.
  - apply IH. set_solver.
Qed.

(** ** Admission order *)

(** An item that is passed over stays blocked for the rest of the pass: slots
    are only taken and scopes only get busier. *)
Definition blocked (s : ReferenceScheduler) (q : QueuedWork) : Prop :=
  states s !! work_id q <> Some Queued \/ scope q ∈ paused s \/
  scope_is_busy s (scope q) = true.

Lemma skips_blocked s q : skips s q = true <-> blocked s q.
Proof.
  unfold skips, blocked. rewrite !orb_true_iff, negb_true_iff, bool_decide_eq_false,
    bool_decide_eq_true. tauto.
Qed.

Lemma start_busy_mono s q sc :
  scope_is_busy s sc = true -> scope_is_busy (start q s) sc = true.
Proof.
  rewrite !scope_is_busy_true. intros (q' & Hq' & Hsc & Hs). exists q'.
  split_and!; [done..|]. simpl. rewrite slot_insert. by case_decide.
Qed.

Lemma start_blocks s q : q ∈ order s -> blocked (start q s) q.
Proof.
  intros Hq. right; right. apply scope_is_busy_true. exists q. split_and!; [done..|].
  simpl. rewrite slot_insert. by case_decide.
Qed.

Lemma start_blocked_mono s q q' : blocked s q' -> blocked (start q s) q'.
Proof.
  intros [H|[H|H]]; [left|right; left|right; right]; simpl; [|done|by apply start_busy_mono].
  rewrite lookup_insert. by case_decide.
Qed.

(** After a pass that was not stopped by the slot limit, everything it visited
    is blocked. *)
Lemma tick_loop_blocks rest s started s' started' :
  (forall q, q ∈ rest -> q ∈ order s) ->
  tick_loop rest s started = (s', started') ->
  (forall q, blocked s q -> blocked s' q) /\ limit s' = limit s /\
  (limit s <= occupied s' \/ forall q, q ∈ rest -> blocked s' q).
Proof.
  revert s started; induction rest as [|q rest IH]; intros s started Hsub; simpl.
  { intros [= -> ->]. split_and!; [done..|]. right. set_solver. }
  destruct (Z.leb_spec (limit s) (occupied s)).
  { intros [= -> ->]. auto. }
  destruct (skips s q) eqn:Hsk.
  - apply skips_blocked in Hsk. intros (Hm & Hl & Hb)%IH; [|set_solver].
    split_and!; [done..|]. destruct Hb as [?|Hb]; [by left|right].
    intros q' [->|?]%elem_of_cons; auto.
  - intros (Hm & Hl & Hb)%IH; [|intros; simpl; set_solver]. simpl in Hl, Hb.
    split_and!; [|done|].
    + intros q' Hq'. by apply Hm, start_blocked_mono.
    + destruct Hb as [?|Hb]; [by left|right].
      intros q' [->|?]%elem_of_cons; [|by auto]. apply Hm, start_blocks. set_solver.
Qed.

(** An item the pass starts was not blocked where the pass began. *)
Lemma tick_loop_started_open rest s started s' started' q :
  (forall q, q ∈ rest -> q ∈ order s) -> indexed s -> q ∈ order s ->
  tick_loop rest s started = (s', started') ->
  work_id q ∈ started' -> work_id q ∈ started \/ ~ blocked s q.
Proof.
  revert s started; induction rest as [|q' rest IH]; intros s started Hsub Hi Hq; simpl.
  { intros [= -> ->]. auto. }
  case_match; [intros [= -> ->]; auto|].
  destruct (skips s q') eqn:Hsk.
  - intros Ht Hin. eapply IH; eauto. intros x Hx. apply Hsub. by right.
  - intros Ht Hin.
    assert (states s !! work_id q' = Some Queued) by (apply skips_false in Hsk; tauto).
    assert (indexed (start q' s)) as Hi' by (apply set_states_indexed; [done|by eexists]).
    destruct (IH (start q' s) (started ++ [work_id q'])) as [Hs|Hb]; [|done|done|done|done| |].
    + intros x Hx. apply Hsub. by right.
    + rewrite elem_of_app, list_elem_of_singleton in Hs. destruct Hs as [?|E]; [by left|right].
      assert (q = q') as -> by (apply (work_id_inj s); [done|done|apply Hsub; by left|done]).
      rewrite <- skips_blocked, Hsk. done.
    + right. intros Hb'. by apply Hb, start_blocked_mono.
Qed.

Lemma tick_loop_full rest s started :
  limit s <= occupied s -> tick_loop rest s started = (s, started).
Proof. destruct rest; simpl; [done|]. destruct (Z.leb_spec (limit s) (occupied s)); [done|lia]. Qed.

Lemma tick_loop_app r1 r2 s started :
  tick_loop (r1 ++ r2) s started =
  let '(s1, started1) := tick_loop r1 s started in tick_loop r2 s1 started1.
Proof.
  revert s started; induction r1 as [|q r1 IH]; intros s started; simpl; [done|].
  destruct (Z.leb_spec (limit s) (occupied s)); [by rewrite tick_loop_full|].
  destruct (skips s q); apply IH.
Qed.

Lemma tick_loop_started_in rest s started s' started' id :
  tick_loop rest s started = (s', started') -> id ∈ started' ->
  id ∈ started \/ id ∈ work_id <$> rest.
Proof.
  revert s started; induction rest as [|q rest IH]; intros s started; simpl.
  { intros [= -> ->]. auto. }
  case_match; [intros [= -> ->]; auto|].
  case_match; intros Ht Hin; destruct (IH _ _ Ht Hin); set_solver.
Qed.

(** Within a scope, the pass never starts an item in front of an earlier one
    that is queued. *)
Lemma tick_fifo f s started s' before q1 mid q2 after :
  inv s -> reference_tick f s = (Ok started, s') ->
  order s = before ++ q1 :: mid ++ q2 :: after ->
  scope q1 = scope q2 -> states s !! work_id q1 = Some Queued ->
  work_id q2 ∉ started.
Proof.
  intros Hi Ht Ho Hsc Hq1 Hin.
  apply reference_tick_Ok in Ht as (-> & _ & _ & Ht); [|done].
  assert (Hnd : NoDup (work_id <$> order s)) by apply Hi.
  set (r1 := before ++ q1 :: mid) in *.
  replace (before ++ q1 :: mid ++ q2 :: after) with (r1 ++ q2 :: after) in Ho
    by (unfold r1; by rewrite <- app_assoc).
  assert (Hsub1 : forall q, q ∈ r1 -> q ∈ order s)
    by (intros q Hq; rewrite Ho; apply elem_of_app; by left).
  assert (Hq1r : q1 ∈ r1) by (unfold r1; apply elem_of_app; right; by left).
  assert (Hq2o : q2 ∈ order s) by (rewrite Ho; apply elem_of_app; right; by left).
  rewrite Ho, tick_loop_app in Ht. destruct (tick_loop r1 s []) as [s1 started1] eqn:E1.
  pose proof (tick_loop_ticked r1 s s [] Hi (ticked_refl s) Hsub1) as Hmid.
  rewrite E1 in Hmid. destruct Hmid as [Hi1 [(_ & _ & Ho1 & Hp1) _ Hst Hot _ _]].
  assert (Hnot : work_id q2 ∉ started1).
  { intros Hin1. destruct (tick_loop_started_in _ _ _ _ _ _ E1 Hin1) as [Hn|Hr].
    { by apply not_elem_of_nil in Hn. }
    rewrite Ho, fmap_app in Hnd. apply NoDup_app in Hnd as (_ & Hnd & _).
    apply (Hnd _ Hr). by left. }
  destruct (tick_loop_blocks r1 s [] s1 started1) as (_ & Hl & [Hfull|Hb]); [done..| |].
  { rewrite tick_loop_full in Ht by lia. by simplify_eq. }
  assert (blocked s1 q2) as Hb2.
  { destruct (Hb q1) as [Hb1|[Hb1|Hb1]]; [done| | |].
    - right; right. apply scope_is_busy_true. exists q1. rewrite Ho1.
      split_and!; [by apply Hsub1|done|].
      destruct (decide (work_id q1 ∈ started1)) as [Hin1|Hn1].
      + unfold slot. by rewrite (proj2 (Hst _ Hin1)).
      + by rewrite Hot in Hb1.
    - right; left. congruence.
    - right; right. congruence. }
  destruct (tick_loop_started_open (q2 :: after) s1 started1 s' started q2); try done.
  - intros q Hq. rewrite Ho1, Ho. apply elem_of_app. by right.
  - apply Hi1.
  - by rewrite Ho1.
Qed.

(** ** State changes *)

(** Every known item keeps a state, and it changes only along [moves]. *)
Definition advances (s s' : ReferenceScheduler) : Prop :=
  forall id st, states s !! id = Some st ->
    exists st', states s' !! id = Some st' /\ rtc moves st st'.

Lemma advances_refl s : advances s s.
Proof. intros id st H. exists st. by split. Qed.

Lemma advances_trans s1 s2 s3 : advances s1 s2 -> advances s2 s3 -> advances s1 s3.
Proof.
  intros H1 H2 id st (st1 & E1 & M1)%H1. destruct (H2 _ _ E1) as (st2 & E2 & M2).
  exists st2. split; [done|]. by etrans.
Qed.

Lemma insert_advances s id st st' :
  states s !! id = Some st -> rtc moves st st' ->
  advances s (set_states s (<[id := st']> (states s))).
Proof.
  intros E M id' st1 E1. simpl. rewrite lookup_insert. case_decide; subst.
  - exists st'. simplify_eq. done.
  - exists st1. by split.
Qed.

Lemma call_advances c s : inv s -> advances s (call c s).2.
Proof.
  intros Hi. destruct c as [w|g|id|sc|sc|id]; simpl;
    try (intros id st Hst; by exists st).
  - unfold reference_submit. destruct (states s !! work_id w) eqn:E; [apply advances_refl|].
    intros id st Hst. exists st. simpl. rewrite lookup_insert_ne by congruence. by split.
  - destruct (reference_tick g s) as [[started|e] s'] eqn:E; simpl.
    + apply reference_tick_Ok in E as (_ & _ & [_ _ Hst Hot _ _] & _); [|done].
      intros id st Hst0. destruct (decide (id ∈ started)) as [Hin|Hn].
      * destruct (Hst _ Hin) as [E1 E2]. simplify_eq. exists Running.
        split; [done|]. apply rtc_once. constructor.
      * exists st. by rewrite Hot.
    + apply reference_tick_Err in E as (_ & -> & _). apply advances_refl.
  - unfold reference_complete. destruct (states s !! id) as [[]|] eqn:E; simpl;
      try apply advances_refl; (eapply insert_advances; [done|]; apply rtc_once; constructor).
  - unfold reference_cancel. destruct (states s !! id) as [[]|] eqn:E; simpl;
      try apply advances_refl; (eapply insert_advances; [done|]);
      try (apply rtc_once; constructor); done.
Qed.

Lemma run_advances cs s : inv s -> advances s (run cs s).2.
Proof.
  revert s; induction cs as [|c cs IH]; intros s Hi; [apply advances_refl|].
  rewrite run_snd_cons. simpl. eapply advances_trans; [by apply call_advances|]. auto.
Qed.

Lemma rtc_moves_not_Queued st st' : rtc moves st st' -> st' = Queued -> st = Queued.
Proof. induction 1 as [|a b c M _ IH]; [done|]. intros E. specialize (IH E). subst. inversion M. Qed.

Lemma rtc_moves_terminal st st' : is_terminal st = true -> rtc moves st st' -> st' = st.
Proof. intros Ht. destruct 1 as [|a b c M _]; [done|]. by destruct M. Qed.

(** Fresh: not yet admitted, or admitted and never started. *)
Definition fresh (s : ReferenceScheduler) (id : list Z) : Prop :=
  states s !! id = None \/ states s !! id = Some Queued.

Lemma advances_fresh s s' id : advances s s' -> fresh s' id -> fresh s id.
Proof.
  intros Ha Hf. unfold fresh in *. destruct (states s !! id) as [st|] eqn:E; [right|by left].
  destruct (Ha _ _ E) as (st' & E' & M). rewrite E' in Hf. destruct Hf as [?|[= ->]]; [done|].
  f_equal. by eapply rtc_moves_not_Queued.
Qed.

Lemma call_started c s id :
  inv s -> id ∈ (call c s).1 ->
  states s !! id = Some Queued /\ states (call c s).2 !! id = Some Running.
Proof.
  intros Hi. destruct c as [w|g|id'|sc|sc|id']; simpl; try (by intros ?%not_elem_of_nil).
  destruct (reference_tick g s) as [[started|e] s'] eqn:E; simpl; [|by intros ?%not_elem_of_nil].
  apply reference_tick_Ok in E as (_ & _ & Ht & _); [|done]. apply Ht.
Qed.

Lemma call_started_NoDup c s : inv s -> NoDup (call c s).1.
Proof.
  intros Hi. destruct c as [w|g|id'|sc|sc|id']; simpl; try apply NoDup_nil_2.
  destruct (reference_tick g s) as [[started|e] s'] eqn:E; simpl; [|apply NoDup_nil_2].
  apply reference_tick_Ok in E as (_ & _ & Ht & _); [|done]. apply Ht.
Qed.

(** Whatever a sequence of calls starts is fresh where the sequence begins, and
    nothing is started twice. *)
Lemma run_started cs s :
  inv s -> NoDup (run cs s).1 /\ forall id, id ∈ (run cs s).1 -> fresh s id.
Proof.
  revert s; induction cs as [|c cs IH]; intros s Hi; [by split; [apply NoDup_nil_2|intros ? ?%not_elem_of_nil]|].
  rewrite run_snd_cons. simpl. destruct (IH (call c s).2) as [Hnd Hf]; [auto|].
  split.
  - apply NoDup_app. split_and!; [by apply call_started_NoDup| |done].
    intros id Hnow Hlater. destruct (call_started c s id Hi Hnow) as [_ E].
    destruct (Hf _ Hlater); congruence.
  - intros id [Hnow|Hlater]%elem_of_app.
    + right. by destruct (call_started c s id Hi Hnow).
    + eapply advances_fresh; [by apply call_advances|]. auto.
Qed.

(** The identities with a state are the ones submitted. *)
Lemma run_submitted cs s id :
  inv s -> is_Some (states (run cs s).2 !! id) ->
  is_Some (states s !! id) \/ exists w, CSubmit w ∈ cs /\ work_id w = id.
Proof.
  revert s; induction cs as [|c cs IH]; intros s Hi; [auto|].
  rewrite run_snd_cons. simpl. intros [H1|(w & Hw & E)]%IH; [|right; exists w; set_solver|auto].
  destruct (states s !! id) as [st|] eqn:E; [left; by eexists|right].
  destruct c as [w|g|id'|sc|sc|id']; simpl in H1.
  - exists w. split; [by left|]. unfold reference_submit in H1.
    destruct (states s !! work_id w); simpl in H1; [by rewrite E in H1; destruct H1|].
    rewrite lookup_insert in H1. case_decide; [done|]. rewrite E in H1. by destruct H1.
  - destruct (reference_tick g s) as [[started|e] s'] eqn:Et; simpl in H1.
    + apply reference_tick_Ok in Et as (_ & _ & [_ _ Hst Hot _ _] & _); [|done].
      destruct (decide (id ∈ started)) as [Hin|Hn].
      * destruct (Hst _ Hin); congruence.
      * rewrite Hot, E in H1 by done. by destruct H1.
    + apply reference_tick_Err in Et as (_ & -> & _). rewrite E in H1. by destruct H1.
  - unfold reference_complete in H1. destruct (states s !! id') as [[]|] eqn:E';
      simpl in H1; rewrite ?lookup_insert, ?E in H1; try case_decide; simplify_eq; by destruct H1.
  - rewrite E in H1. by destruct H1.
  - rewrite E in H1. by destruct H1.
  - unfold reference_cancel in H1. destruct (states s !! id') as [[]|] eqn:E';
      simpl in H1; rewrite ?lookup_insert, ?E in H1; try case_decide; simplify_eq; by destruct H1.
Qed.

Lemma run_static cs (s : ReferenceScheduler) :
  inv s -> limit (run cs s).2 = limit s /\ fence (run cs s).2 = fence s.
Proof.
  revert s; induction cs as [|c cs IH]; intros s Hi; [done|].
  rewrite run_snd_cons. simpl. destruct (IH (call c s).2) as [-> ->]; [auto|].
  destruct c as [w|g|id|sc|sc|id]; simpl; try done.
  - unfold reference_submit. by destruct (states s !! work_id w).
  - destruct (reference_tick g s) as [[started|e] s'] eqn:E; simpl.
    + apply reference_tick_Ok in E as (_ & _ & Ht & _); [|done]. by destruct (tk_same _ _ _ Ht) as (? & ? & _).
    + by apply reference_tick_Err in E as (_ & -> & _).
  - unfold reference_complete. by destruct (states s !! id) as [[]|].
  - unfold reference_cancel. by destruct (states s !! id) as [[]|].
Qed.

Lemma run_app cs cs' (s : ReferenceScheduler) : (run (cs ++ cs') s).2 = (run cs' (run cs s).2).2.
Proof.
  revert s; induction cs as [|c cs IH]; intros s; [done|].
  rewrite <- app_comm_cons, !run_snd_cons. simpl. apply IH.
Qed.

(** * Properties *)

(** C1: bounded parallelism and per-scope serialization.  After any sequence of
    submissions, ticks (under any fence), completions, pauses, resumptions and
    cancellations of a fresh scheduler with [l] slots, at most [l] items hold a
    slot, no two of them belong to one scope, and the limit and the fence are
    the ones the scheduler was built with. *)
Theorem scheduler_bounded_and_serialized cs l f :
  0 <= l ->
  let s := (run cs (reference_new l f)).2 in
  len (reference_running s) <= l /\ NoDup (running_scopes s) /\
  limit s = l /\ fence s = f.
Proof.
  intros Hl s. assert (inv s) as [Hi He Hb] by (unfold s; auto).
  destruct (run_static cs (reference_new l f)) as [HL HF]; [auto|].
  fold s in HL, HF. split_and!; [|by apply running_scopes_NoDup|done..].
  rewrite <- occupied_running by done.
  by rewrite HL in Hb.
Qed.

Definition demo_fence : SchedulerFence := mkFence (str "generation-1") (str "holder-1") 1.

(** Three items in two scopes, one slot-freeing completion, one stale tick. *)
Definition demo_calls : list Call :=
  [CSubmit (mkWork (str "a") (str "x")); CSubmit (mkWork (str "b") (str "x"));
   CSubmit (mkWork (str "c") (str "y")); CTick demo_fence;
   CTick (mkFence (str "generation-0") (str "holder-1") 1);
   CCancel (str "a"); CComplete (str "a"); CTick demo_fence].

Lemma scheduler_bounded_and_serialized_witness :
  (run demo_calls (reference_new 2 demo_fence)).1 = [str "a"; str "c"; str "b"] /\
  len (reference_running (run demo_calls (reference_new 2 demo_fence)).2) <= 2.
Proof.
  split; [vm_compute; reflexivity|].
  apply (scheduler_bounded_and_serialized demo_calls 2 demo_fence). lia.
Defined.

(** C2: exactly-once starting.  Over any sequence of calls no work identity is
    started twice, and everything started had been submitted. *)
Theorem no_work_starts_twice cs l f :
  0 <= l ->
  let started := (run cs (reference_new l f)).1 in
  NoDup started /\
  forall id, id ∈ started -> exists w, CSubmit w ∈ cs /\ work_id w = id.
Proof.
  intros Hl started. destruct (run_started cs (reference_new l f)) as [Hnd Hf]; [auto|].
  split; [done|]. intros id Hin. pose proof (Hf id Hin) as Hfr.
  assert (Hend : is_Some (states (run cs (reference_new l f)).2 !! id)).
  { clear Hnd Hf Hfr. unfold started in Hin.
    assert (inv (reference_new l f)) as Hi by auto. revert Hi Hin.
    generalize (reference_new l f) as s. clear started Hl l f.
    induction cs as [|c cs IH]; intros s Hi Hin; [by apply not_elem_of_nil in Hin|].
    rewrite run_snd_cons in *. simpl in *. apply elem_of_app in Hin as [Hnow|Hlater].
    - destruct (call_started c s id Hi Hnow) as [_ E].
      destruct (run_advances cs (call c s).2 ltac:(auto) id Running E) as (st & -> & _).
      by eexists.
    - by apply IH; auto. }
  apply run_submitted in Hend as [[st Hst]|Hw]; [|done|auto].
  simpl in Hst. by rewrite lookup_empty in Hst.
Qed.

Lemma no_work_starts_twice_witness : NoDup (run demo_calls (reference_new 2 demo_fence)).1.
Proof. apply (no_work_starts_twice demo_calls 2 demo_fence). lia. Defined.

(** A tick admits in submission order, fills its slots, and needs the
    authority.  In any reachable state a tick under another fence is refused
    and changes nothing; a tick under the held fence starts only queued items
    of unpaused scopes and leaves every other item alone, it never starts an
    item while an earlier one of its scope is queued, and when it ends either
    every slot is taken or whatever is still queued waits for its own scope. *)
Theorem tick_admits_in_order cs l f g :
  0 <= l ->
  let s := (run cs (reference_new l f)).2 in
  (g <> f -> reference_tick g s = (Err StaleFence, s)) /\
  (exists started s', reference_tick f s = (Ok started, s') /\
    (forall id, id ∈ started -> reference_state id s = Some Queued /\ reference_state id s' = Some Running) /\
    (forall id, ~ (id ∈ started) -> reference_state id s' = reference_state id s) /\
    (forall q, q ∈ order s -> work_id q ∈ started -> ~ (scope q ∈ paused s)) /\
    (forall before q1 mid q2 after,
       order s = before ++ q1 :: mid ++ q2 :: after -> scope q1 = scope q2 ->
       reference_state (work_id q1) s = Some Queued -> ~ (work_id q2 ∈ started)) /\
    (len (reference_running s') = l \/
     forall q, q ∈ order s -> reference_state (work_id q) s' = Some Queued ->
       scope q ∈ paused s \/ scope_is_busy s' (scope q) = true)).
Proof.
  intros Hl s. assert (inv s) as Hi by (unfold s; auto).
  destruct (run_static cs (reference_new l f)) as [HL HF]; [auto|]. fold s in HL, HF. simpl in HL, HF.
  simpl. split.
  { intros Hg. unfold reference_tick. rewrite bool_decide_eq_false_2 by congruence. done. }
  destruct (reference_tick f s) as [[started|e] s'] eqn:Et.
  2: { by apply reference_tick_Err in Et as (_ & _ & ?). }
  exists started, s'. split; [done|]. pose proof Et as Et'.
  apply reference_tick_Ok in Et' as (_ & Hi' & Ht & Hloop); [|done].
  destruct Ht as [(Hl' & _ & Ho & Hp) _ Hst Hot Hun _]. split_and!; try done.
  - intros before q1 mid q2 after E Hsc Hq1. exact (tick_fifo f s started s' before q1 mid q2 after Hi Et E Hsc Hq1).
  - destruct (tick_loop_blocks (order s) s [] s' started) as (_ & Hlim & Hb); [done..|].
    rewrite <- occupied_running by apply Hi'. destruct Hb as [Hb|Hb].
    + left. pose proof (inv_bounded _ Hi'). lia.
    + right. intros q Hq Hqd. destruct (Hb q Hq) as [?|[?|?]]; [done|left; congruence|by right].
Qed.

Lemma tick_admits_in_order_witness :
  reference_tick (mkFence (str "generation-0") (str "holder-1") 1)
    (run demo_calls (reference_new 2 demo_fence)).2 =
  (Err StaleFence, (run demo_calls (reference_new 2 demo_fence)).2).
Proof.
  apply (tick_admits_in_order demo_calls 2 demo_fence); [lia|]. vm_compute. congruence.
Defined.

(** No work is lost and terminal states are final.  Once an identity is
    admitted it has a state after every further sequence of calls, that state
    is reached along the five legal moves only, and an identity that was
    completed or cancelled keeps that state and is never started again. *)
Theorem no_work_is_lost cs cs' l f id st :
  0 <= l ->
  reference_state id (run cs (reference_new l f)).2 = Some st ->
  exists st', reference_state id (run (cs ++ cs') (reference_new l f)).2 = Some st' /\
    rtc moves st st' /\
    (is_terminal st = true ->
       st' = st /\ ~ (id ∈ (run cs' (run cs (reference_new l f)).2).1)).
Proof.
  intros Hl Hst. rewrite run_app.
  assert (inv (run cs (reference_new l f)).2) as Hi by auto.
  destruct (run_advances cs' _ Hi id st Hst) as (st' & E & M).
  exists st'. split_and!; [done..|]. intros Hterm.
  split; [by rewrite (rtc_moves_terminal st st')|].
  intros Hin. destruct (run_started cs' _ Hi) as [_ Hf].
  simpl in Hst. unfold reference_state in Hst.
  destruct (Hf _ Hin) as [?|?]; [congruence|]. by simplify_eq.
Qed.

Lemma no_work_is_lost_witness :
  exists st', reference_state (str "a") (run (demo_calls ++ demo_calls) (reference_new 2 demo_fence)).2
    = Some st' /\ st' = Cancelled.
Proof.
  destruct (no_work_is_lost demo_calls demo_calls 2 demo_fence (str "a") Cancelled)
    as (st' & E & _ & Ht).
  - lia.
  - vm_compute. reflexivity.
  - exists st'. split; [exact E|]. apply Ht. reflexivity.
Defined.
