(* ===== verification/DurableStore.v ===== *)
(** The durable scheduler: [automonique-store/src/durable_scheduler.rs].

    The three tables are a record; the rows of [scheduler_work] are kept in
    [sequence] order, which is insertion order since [sequence] is the row id,
    it is never supplied and no statement deletes a row.  Each SQL statement
    is the list or map operation it denotes, and a transaction commits the
    database its body ends with, or, when the body returns an error and the
    transaction is dropped, leaves the database as it was.  A failing SQLite
    call, the path checks and the schema bootstrap of [open] are not modelled.

    The main result is a refinement: through [abs] every operation of a handle
    that holds the authority is the operation of the reference scheduler. *)

From S2P Require Import Prelude Text Fence Scheduler.

Inductive DurableSchedulerError :=
| InsecurePath (reason : list Z)
| SchemaVersion (found supported : Z)
| DInvalidField (field : string)
| DStaleFence
| DDuplicateWork
| DUnknownWork
| DAlreadyTerminal
| DNotRunning
| Corrupt (field : string)
| Io
| Sqlite.

(** [DurableSchedulerError::refusal]. *)
Definition refusal (e : DurableSchedulerError) : option SchedulerRefusal :=
  match e with
  | DStaleFence => Some StaleFence
  | DDuplicateWork => Some DuplicateWork
  | DUnknownWork => Some UnknownWork
  | DAlreadyTerminal => Some AlreadyTerminal
  | DNotRunning => Some NotRunning
  | _ => None
  end.

(** * Tables *)

Record Authority := mkAuthority {
  au_generation : list Z;
  au_holder : list Z;
  au_epoch : Z;
  au_limit : Z;
}.

Record WorkRow := mkRow {
  row_work_id : list Z;
  row_scope_id : list Z;
  row_state : list Z;
}.

Record Database := mkDb {
  authority : option Authority;
  scopes : gmap (list Z) bool;
  work : list WorkRow;
}.

(** A store handle, without the connection and the path. *)
Record Handle := mkHandle { h_limit : Z; h_fence : SchedulerFence }.

Definition fresh_db : Database := mkDb None ∅ [].

Abbreviation Scheduled := (result DurableSchedulerError).

(** A transaction: commit on success, roll back when the body fails. *)
Definition transaction {A} (body : Database -> Scheduled (A * Database)) (db : Database)
  : Scheduled A * Database :=
  match body db with
  | Ok (a, db') => (Ok a, db')
  | Err e => (Err e, db)
  end.

(** * Statements and helpers *)

(** [state IN ('running', 'stop_requested')]. *)
Definition row_running (r : WorkRow) : bool :=
  bool_decide (row_state r = str "running") || bool_decide (row_state r = str "stop_requested").

(** [UPDATE scheduler_work SET state = ... WHERE ...], with the rows changed. *)
Definition update_state (p : WorkRow -> bool) (spelling : list Z) (rows : list WorkRow)
  : list WorkRow * Z :=
  ((fun r => if p r then mkRow (row_work_id r) (row_scope_id r) spelling else r) <$> rows,
   len (List.filter p rows)).

Definition set_work (db : Database) (rows : list WorkRow) : Database :=
  mkDb (authority db) (scopes db) rows.

Definition parse_state (value : list Z) : Scheduled WorkState :=
  if bool_decide (value = str "queued") then Ok Queued
  else if bool_decide (value = str "running") then Ok Running
  else if bool_decide (value = str "stop_requested") then Ok StopRequested
  else if bool_decide (value = str "completed") then Ok Completed
  else if bool_decide (value = str "cancelled") then Ok Cancelled
  else Err (Corrupt "state").

(** [i64::try_from(fence.epoch())]. *)
Definition db_epoch (f : SchedulerFence) : Scheduled Z :=
  if epoch f <=? i64_max then Ok (epoch f) else Err (DInvalidField "epoch").

Definition require_fence (db : Database) (f : SchedulerFence) : Scheduled unit :=
  e ← db_epoch f;
  let matches :=
    match authority db with
    | Some a => bool_decide (au_generation a = generation_id f)
                && bool_decide (au_holder a = holder_id f) && (au_epoch a =? e)
    | None => false
    end in
  if matches then Ok tt else Err DStaleFence.

(** The [CHECK] constraints of [scheduler_authority] are part of the upsert. *)
Definition install_authority (limit : Z) (f : SchedulerFence) (db : Database)
  : Scheduled unit * Database :=
  match db_epoch f with
  | Err e => (Err e, db)
  | Ok e =>
      transaction (fun db =>
        if (1 <=? e) && (1 <=? limit) && (limit <=? 1024) then
          Ok (tt, mkDb (Some (mkAuthority (generation_id f) (holder_id f) e limit))
                    (scopes db) (work db))
        else Err Sqlite) db
  end.

Definition open_store (limit : Z) (f : SchedulerFence) (db : Database)
  : Scheduled Handle * Database :=
  if (limit =? 0) || (MAX_PARALLELISM_LIMIT <? limit) then
    (Err (DInvalidField "parallelism_limit"), db)
  else match install_authority limit f db with
       | (Ok _, db') => (Ok (mkHandle limit f), db')
       | (Err e, db') => (Err e, db')
       end.

Definition read_state (db : Database) (id : list Z) : Scheduled (option WorkState) :=
  match List.find (fun r => bool_decide (row_work_id r = id)) (work db) with
  | None => Ok None
  | Some r => Some <$> parse_state (row_state r)
  end.

Definition set_state (db : Database) (id : list Z) (st : WorkState) : Scheduled Database :=
  let '(rows, changed) :=
    update_state (fun r => bool_decide (row_work_id r = id)) (work_state_as_str st) (work db) in
  if changed =? 1 then Ok (set_work db rows) else Err (Corrupt "state_transition").

(** * Operations *)

Definition durable_submit (h : Handle) (w : QueuedWork) : Database -> Scheduled unit * Database :=
  transaction (fun db =>
    _ ← require_fence db (h_fence h);
    if existsb (fun r => bool_decide (row_work_id r = work_id w)) (work db)
    then Err DDuplicateWork
    else Ok (tt, set_work db (work db ++ [mkRow (work_id w) (scope w) (str "queued")]))).

(** [COALESCE(s.paused, 0) = 0] for the left join on the scope. *)
Definition unpaused (db : Database) (sc : list Z) : bool :=
  negb (default false (scopes db !! sc)).

Definition candidate (db : Database) (r : WorkRow) : bool :=
  bool_decide (row_state r = str "queued") && unpaused db (row_scope_id r).

(** The admission loop: [busy.insert] returns whether the scope was new. *)
Fixpoint admit_candidates (available : Z) (cands : list WorkRow) (busy : gset (list Z))
  (started : list (list Z)) (db : Database) : Scheduled (list (list Z) * Database) :=
  match cands with
  | [] => Ok (started, db)
  | c :: cands =>
      if available <=? len started then Ok (started, db)
      else if bool_decide (row_scope_id c ∈ busy) then admit_candidates available cands busy started db
      else
        let '(rows, changed) :=
          update_state (fun r => bool_decide (row_work_id r = row_work_id c)
                                 && bool_decide (row_state r = str "queued"))
            (str "running") (work db) in
        if negb (changed =? 1) then Err (Corrupt "tick_transition")
        else
          id ← map_err (fun _ => Corrupt "work_id") (work_id_new (row_work_id c));
          admit_candidates available cands ({[row_scope_id c]} ∪ busy) (started ++ [id])
            (set_work db rows)
  end.

Definition durable_tick (h : Handle) (f : SchedulerFence)
  : Database -> Scheduled (list (list Z)) * Database :=
  transaction (fun db =>
    _ ← require_fence db f;
    if negb (bool_decide (f = h_fence h)) then Err DStaleFence
    else
      let occupied := len (List.filter row_running (work db)) in
      if u32_max <? occupied then Err (Corrupt "occupied_slots")
      else
        let available := Z.max 0 (h_limit h - occupied) in
        if available =? 0 then Ok ([], db)
        else
          let busy : gset (list Z) :=
            list_to_set (row_scope_id <$> List.filter row_running (work db)) in
          admit_candidates available (List.filter (candidate db) (work db)) busy [] db).

Definition durable_complete (h : Handle) (id : list Z)
  : Database -> Scheduled WorkState * Database :=
  transaction (fun db =>
    _ ← require_fence db (h_fence h);
    found ← read_state db id;
    st ← ok_or found DUnknownWork;
    terminal ← match st with
               | Running => Ok Completed
               | StopRequested => Ok Cancelled
               | _ => Err DNotRunning
               end;
    db' ← set_state db id terminal;
    Ok (terminal, db')).

Definition durable_set_paused (h : Handle) (sc : list Z) (p : bool)
  : Database -> Scheduled unit * Database :=
  transaction (fun db =>
    _ ← require_fence db (h_fence h);
    Ok (tt, mkDb (authority db) (<[sc := p]> (scopes db)) (work db))).

Definition durable_cancel (h : Handle) (id : list Z)
  : Database -> Scheduled CancelDisposition * Database :=
  transaction (fun db =>
    _ ← require_fence db (h_fence h);
    found ← read_state db id;
    st ← ok_or found DUnknownWork;
    match st with
    | Queued => db' ← set_state db id Cancelled; Ok (NeverStarted, db')
    | Running => db' ← set_state db id StopRequested; Ok (CancelStopRequested, db')
    | StopRequested => Ok (CancelStopRequested, db)
    | Completed | Cancelled => Err DAlreadyTerminal
    end).

(** The [collect] into a [Result]. *)
Fixpoint collect_ids (ids : list (list Z)) : Scheduled (list (list Z)) :=
  match ids with
  | [] => Ok []
  | id :: ids =>
      id ← map_err (fun _ => Corrupt "work_id") (work_id_new id);
      ids ← collect_ids ids; Ok (id :: ids)
  end.

Definition durable_running (h : Handle) (db : Database) : Scheduled (list (list Z)) :=
  _ ← require_fence db (h_fence h);
  collect_ids (row_work_id <$> List.filter row_running (work db)).

Definition durable_state (h : Handle) (id : list Z) (db : Database)
  : Scheduled (option WorkState) :=
  _ ← require_fence db (h_fence h); read_state db id.

(** * The abstraction *)

Definition row_work (r : WorkRow) : QueuedWork := mkWork (row_work_id r) (row_scope_id r).

Definition state_of_row (r : WorkRow) : WorkState :=
  match parse_state (row_state r) with Ok st => st | Err _ => Queued end.

Definition abs_states (rows : list WorkRow) : gmap (list Z) WorkState :=
  list_to_map ((fun r => (row_work_id r, state_of_row r)) <$> rows).

Definition abs (h : Handle) (db : Database) : ReferenceScheduler :=
  mkReference (h_limit h) (h_fence h) (row_work <$> work db) (abs_states (work db))
    (dom (filter (fun kv => kv.2 = true) (scopes db))).

(** What the schema guarantees of the work table ([UNIQUE], [CHECK]) and what
    [WorkId] guarantees of the identities stored in it. *)
Record well_formed (db : Database) : Prop := mkWf {
  wf_unique : NoDup (row_work_id <$> work db);
  wf_state : forall r, r ∈ work db -> row_state r = work_state_as_str (state_of_row r);
  wf_ids : forall r, r ∈ work db -> valid_id (row_work_id r);
  wf_slots : len (List.filter row_running (work db)) <= MAX_PARALLELISM_LIMIT;
}.

(** The handle holds the authority row. *)
Definition holds_authority (h : Handle) (db : Database) : Prop :=
  require_fence db (h_fence h) = Ok tt.

(** * Lemmas *)

Lemma parse_as_str st : parse_state (work_state_as_str st) = Ok st.
Proof. by destruct st. Qed.

Lemma state_of_row_as_str id sc st : state_of_row (mkRow id sc (work_state_as_str st)) = st.
Proof. unfold state_of_row. simpl. by rewrite parse_as_str. Qed.

Lemma row_state_eqb r st :
  row_state r = work_state_as_str (state_of_row r) ->
  bool_decide (row_state r = work_state_as_str st) = bool_decide (state_of_row r = st).
Proof.
  intros ->. apply bool_decide_ext. split; [|by intros ->].
  by destruct (state_of_row r), st.
Qed.

Lemma row_running_slot r :
  row_state r = work_state_as_str (state_of_row r) ->
  row_running r = holds_a_slot (state_of_row r).
Proof. unfold row_running. intros ->. by destruct (state_of_row r). Qed.

Lemma elem_of_ids (rows : list WorkRow) r : r ∈ rows -> row_work_id r ∈ row_work_id <$> rows.
Proof. apply list_elem_of_fmap_2. Qed.

Lemma abs_states_cons r rows :
  abs_states (r :: rows) = <[row_work_id r := state_of_row r]> (abs_states rows).
Proof. reflexivity. Qed.

Lemma abs_states_lookup rows r :
  NoDup (row_work_id <$> rows) -> r ∈ rows ->
  abs_states rows !! row_work_id r = Some (state_of_row r).
Proof.
  intros Hnd Hr. apply elem_of_list_to_map_1.
  - by rewrite <- list_fmap_compose.
  - apply (list_elem_of_fmap_2 (fun r => (row_work_id r, state_of_row r))). done.
Qed.

Lemma abs_states_None rows id :
  abs_states rows !! id = None <-> id ∉ row_work_id <$> rows.
Proof.
  induction rows as [|r rows IH]; [set_solver|].
  rewrite abs_states_cons, lookup_insert_None, fmap_cons, not_elem_of_cons, IH. naive_solver.
Qed.

Lemma find_row rows id :
  NoDup (row_work_id <$> rows) ->
  state_of_row <$> List.find (fun r => bool_decide (row_work_id r = id)) rows =
  abs_states rows !! id.
Proof.
  induction rows as [|r rows IH]; [done|]. intros [Hn Hnd]%NoDup_cons.
  rewrite abs_states_cons, lookup_insert. simpl.
  case_bool_decide as E; case_decide; try done. by apply IH.
Qed.

(** ** Updating one row *)

Definition with_state (st : WorkState) (r : WorkRow) : WorkRow :=
  mkRow (row_work_id r) (row_scope_id r) (work_state_as_str st).

(** An update keyed on an identity that occurs once touches that row only. *)
Lemma update_state_one p spelling before r after :
  NoDup (row_work_id <$> before ++ r :: after) ->
  (forall r', p r' = true -> row_work_id r' = row_work_id r) -> p r = true ->
  update_state p spelling (before ++ r :: after) =
    (before ++ mkRow (row_work_id r) (row_scope_id r) spelling :: after, 1).
Proof.
  intros Hnd Hp Hr. rewrite fmap_app, fmap_cons, NoDup_app, NoDup_cons in Hnd.
  destruct Hnd as (_ & Hdis & Hra & _).
  assert (Hb : Forall (fun x => p x = false) before).
  { apply Forall_forall. intros x Hx. apply not_true_iff_false. intros Hpx.
    apply (Hdis (row_work_id x)); [by apply elem_of_ids|]. rewrite (Hp x Hpx). by left. }
  assert (Ha : Forall (fun x => p x = false) after).
  { apply Forall_forall. intros x Hx. apply not_true_iff_false. intros Hpx.
    apply Hra. rewrite <- (Hp x Hpx). by apply elem_of_ids. }
  assert (Hid : forall l, Forall (fun x => p x = false) l ->
     (fun r => if p r then mkRow (row_work_id r) (row_scope_id r) spelling else r) <$> l = l /\
     List.filter p l = []).
  { induction 1 as [|x l Hx _ [IH1 IH2]]; [done|]. simpl. rewrite Hx. simpl.
    split; [by f_equal|done]. }
  unfold update_state. f_equal.
  - rewrite fmap_app, fmap_cons, Hr, (proj1 (Hid _ Hb)), (proj1 (Hid _ Ha)). done.
  - rewrite List.filter_app. simpl. rewrite Hr, (proj2 (Hid _ Hb)), (proj2 (Hid _ Ha)). done.
Qed.

Lemma abs_states_update before r after st :
  NoDup (row_work_id <$> before ++ r :: after) ->
  abs_states (before ++ with_state st r :: after) =
  <[row_work_id r := st]> (abs_states (before ++ r :: after)).
Proof.
  induction before as [|x before IH]; intros Hnd.
  - simpl. rewrite !abs_states_cons. unfold with_state at 2. simpl.
    rewrite state_of_row_as_str, insert_insert_eq. done.
  - rewrite <- !app_comm_cons, !abs_states_cons. apply NoDup_cons in Hnd as [Hx Hnd].
    rewrite IH by done. rewrite insert_insert_ne; [done|].
    intros E. apply Hx. rewrite E. apply elem_of_ids. set_solver.
Qed.

Lemma row_work_with_state st r : row_work (with_state st r) = row_work r.
Proof. done. Qed.

Lemma ids_with_state before r after st :
  row_work_id <$> before ++ with_state st r :: after = row_work_id <$> before ++ r :: after.
Proof. by rewrite !fmap_app, !fmap_cons. Qed.

Lemma row_running_with_state st r : row_running (with_state st r) = holds_a_slot st.
Proof. by destruct st. Qed.

Lemma running_count_update before r after st :
  len (List.filter row_running (before ++ with_state st r :: after)) =
  len (List.filter row_running (before ++ r :: after)) - one (row_running r)
  + one (holds_a_slot st).
Proof.
  rewrite !List.filter_app. simpl. rewrite row_running_with_state.
  destruct (row_running r), (holds_a_slot st); simpl; rewrite ?len_app, ?len_cons; lia.
Qed.

(** A row update keeps the schema's guarantees when it does not overfill. *)
Lemma wf_update db before r after st :
  well_formed db -> work db = before ++ r :: after ->
  len (List.filter row_running (work db)) - one (row_running r) + one (holds_a_slot st)
    <= MAX_PARALLELISM_LIMIT ->
  well_formed (set_work db (before ++ with_state st r :: after)).
Proof.
  intros [Hu Hs Hi Hm] E Hle. rewrite E in *. split; simpl.
  - by rewrite ids_with_state.
  - intros x [Hx|[->|Hx]%elem_of_cons]%elem_of_app.
    + apply Hs. set_solver.
    + unfold with_state at 2. by rewrite state_of_row_as_str.
    + apply Hs. set_solver.
  - intros x [Hx|[->|Hx]%elem_of_cons]%elem_of_app.
    + apply Hi. set_solver.
    + simpl. apply Hi. set_solver.
    + apply Hi. set_solver.
  - by rewrite running_count_update.
Qed.

(** ** What the queries of [tick] read *)

Lemma occupied_abs h db :
  well_formed db -> occupied (abs h db) = len (List.filter row_running (work db)).
Proof.
  intros [Hu Hs _ _]. rewrite occupied_slots. simpl. revert Hu Hs.
  induction (work db) as [|r rows IH]; intros Hu Hs; [done|].
  apply NoDup_cons in Hu as [Hr Hu]. rewrite abs_states_cons, slots_insert.
  assert (abs_states rows !! row_work_id r = None) as En by (by apply abs_states_None).
  unfold slot. rewrite En. simpl. rewrite <- (row_running_slot r) by (apply Hs; by left).
  rewrite IH; [|done|intros; apply Hs; by right].
  destruct (row_running r); rewrite ?len_cons; simpl; lia.
Qed.

Lemma busy_abs h db sc :
  well_formed db ->
  scope_is_busy (abs h db) sc = true <->
  sc ∈ row_scope_id <$> List.filter row_running (work db).
Proof.
  intros [Hu Hs _ _]. rewrite scope_is_busy_true, list_elem_of_fmap. simpl. split.
  - intros (q & (r & -> & Hr)%list_elem_of_fmap & <- & Hsl). exists r. split; [done|].
    apply elem_of_filter_b. split; [done|]. unfold slot in Hsl. simpl in Hsl.
    rewrite abs_states_lookup in Hsl by done. by rewrite row_running_slot by auto.
  - intros (r & -> & [Hr Hrun]%elem_of_filter_b). exists (row_work r).
    split_and!; [by apply list_elem_of_fmap_2|done|].
    unfold slot. simpl. rewrite abs_states_lookup by done. by rewrite <- row_running_slot by auto.
Qed.

Lemma paused_abs h db sc : sc ∈ paused (abs h db) <-> unpaused db sc = false.
Proof.
  simpl. rewrite elem_of_dom. unfold unpaused. rewrite negb_false_iff.
  split.
  - intros [b [Hb E]%map_lookup_filter_Some]. simpl in E. subst. by rewrite Hb.
  - destruct (scopes db !! sc) as [[]|] eqn:E; simpl; [|done..]. intros _.
    exists true. by apply map_lookup_filter_Some.
Qed.

(** A row is skipped by the reference pass exactly when it is not a candidate
    or its scope is busy. *)
Lemma skips_abs h db r :
  well_formed db -> r ∈ work db ->
  skips (abs h db) (row_work r) =
  negb (candidate db r && negb (bool_decide
    (row_scope_id r ∈ row_scope_id <$> List.filter row_running (work db)))).
Proof.
  intros Hwf Hr. pose proof Hwf as [Hu Hs _ _]. apply eq_true_iff_eq.
  rewrite skips_blocked. unfold blocked. rewrite (paused_abs h db), (busy_abs h db) by done.
  simpl. rewrite abs_states_lookup by done. unfold candidate.
  change (str "queued") with (work_state_as_str Queued).
  rewrite row_state_eqb by auto.
  destruct (unpaused db (row_scope_id r)), (decide (state_of_row r = Queued)) as [Eq|Ne],
    (decide (row_scope_id r ∈ row_scope_id <$> List.filter row_running (work db))) as [Hin|Hn];
    rewrite ?(bool_decide_eq_true_2 _ Eq), ?(bool_decide_eq_false_2 _ Ne),
      ?(bool_decide_eq_true_2 _ Hin), ?(bool_decide_eq_false_2 _ Hn), ?Eq; simpl;
    split; intros; try done; auto; destruct_or?; try done; left; congruence.
Qed.

(** ** The admission loop *)

Lemma admit_full available cands busy started db :
  available <= len started -> admit_candidates available cands busy started db = Ok (started, db).
Proof. intros H. destruct cands; [done|]. simpl. by rewrite (proj2 (Z.leb_le _ _) H). Qed.

Lemma start_abs h db before r after :
  well_formed db -> work db = before ++ r :: after ->
  abs h (set_work db (before ++ with_state Running r :: after)) = start (row_work r) (abs h db).
Proof.
  intros [Hu _ _ _] E. unfold abs, start, set_states. simpl. rewrite E in *.
  f_equal; [by rewrite !fmap_app, !fmap_cons|]. by apply abs_states_update.
Qed.

(** The columns [busy] and [available] carry what the reference pass rereads. *)
Lemma admit_tick_loop h available rest : forall before busy started db,
  well_formed db -> work db = before ++ rest -> h_limit h <= MAX_PARALLELISM_LIMIT ->
  (forall sc, sc ∈ busy <-> sc ∈ row_scope_id <$> List.filter row_running (work db)) ->
  available - len started = h_limit h - len (List.filter row_running (work db)) ->
  exists started' db',
    admit_candidates available (List.filter (candidate db) rest) busy started db = Ok (started', db') /\
    tick_loop (row_work <$> rest) (abs h db) started = (abs h db', started') /\
    well_formed db' /\ authority db' = authority db.
Proof.
  induction rest as [|r rest IH]; intros before busy started db Hwf E Hl Hbusy Hav.
  { by exists started, db. }
  rewrite fmap_cons. cbn [tick_loop]. rewrite occupied_abs by done.
  change (limit (abs h db)) with (h_limit h).
  destruct (Z.leb_spec (h_limit h) (len (List.filter row_running (work db)))).
  { exists started, db. rewrite admit_full by lia. done. }
  assert (Hr : r ∈ work db) by (rewrite E; apply elem_of_app; right; by left).
  rewrite skips_abs by done. cbn [List.filter].
  assert (E' : work db = (before ++ [r]) ++ rest) by (by rewrite <- app_assoc).
  destruct (candidate db r) eqn:Hc; cbn [andb negb]; [|by apply (IH (before ++ [r]))].
  cbn [admit_candidates]. rewrite (proj2 (Z.leb_gt _ _)) by lia.
  rewrite (bool_decide_ext _ _ (Hbusy _)).
  case_bool_decide as Hb; cbn [negb]; [by apply (IH (before ++ [r]))|].
  assert (Hq : row_state r = str "queued").
  { unfold candidate in Hc. apply andb_true_iff in Hc as [Hc _]. by apply bool_decide_eq_true in Hc. }
  pose proof Hwf as [Hu Hs Hi _].
  assert (Hup : update_state (fun r' => bool_decide (row_work_id r' = row_work_id r)
      && bool_decide (row_state r' = str "queued")) (str "running") (work db)
    = (before ++ with_state Running r :: rest, 1)).
  { rewrite E in *. apply update_state_one; [done| |].
    - intros r' H'. bool_prop. tauto.
    - rewrite Hq. by rewrite !bool_decide_eq_true_2. }
  rewrite Hup. cbn [negb Z.eqb Pos.eqb].
  rewrite (proj2 (work_id_new_Ok _ _) (conj eq_refl (Hi r Hr))). cbn [map_err mbind result_bind].
  rewrite <- (start_abs h db before r rest Hwf E).
  assert (Hrun : row_running r = false) by (unfold row_running; by rewrite Hq).
  assert (Hcount : len (List.filter row_running (before ++ with_state Running r :: rest)) =
    len (List.filter row_running (work db)) + 1).
  { rewrite running_count_update, <- E, Hrun. simpl. lia. }
  apply (IH (before ++ [with_state Running r]) _ _ (set_work db (before ++ with_state Running r :: rest))).
  - apply wf_update; [done..|]. rewrite Hrun. simpl. lia.
  - simpl. by rewrite <- app_assoc.
  - done.
  - intros sc. simpl. rewrite elem_of_union, elem_of_singleton, Hbusy, E, !List.filter_app.
    cbn [List.filter]. rewrite row_running_with_state, Hrun. simpl.
    rewrite !fmap_app, fmap_cons, !elem_of_app, elem_of_cons. simpl. tauto.
  - rewrite len_app, len_cons, len_nil. simpl. rewrite Hcount. lia.
Qed.

(** ** Refinement, one operation at a time *)

(** Results correspond: equal values, or an error that is this refusal. *)
Definition agrees {A} (r : Scheduled A) (r' : result SchedulerRefusal A) : Prop :=
  match r, r' with
  | Ok a, Ok b => a = b
  | Err e, Err e' => refusal e = Some e'
  | _, _ => False
  end.

(** The simulation diagram of one operation. *)
Definition simulates {A} (h : Handle) (r : Scheduled A * Database)
  (r' : result SchedulerRefusal A * ReferenceScheduler) : Prop :=
  agrees r.1 r'.1 /\ abs h r.2 = r'.2 /\ well_formed r.2.

Lemma read_state_abs h db id :
  well_formed db -> read_state db id = Ok (states (abs h db) !! id).
Proof.
  intros [Hu Hs _ _]. simpl. rewrite <- find_row by done. unfold read_state.
  destruct (List.find _ (work db)) as [r|] eqn:E; [|done].
  apply find_some in E as [Hr _]. apply list_elem_of_In in Hr.
  rewrite Hs by done. cbn. by rewrite parse_as_str.
Qed.

(** Writing a legal state over a known row. *)
Lemma set_state_abs h db id st old :
  well_formed db -> states (abs h db) !! id = Some old ->
  (holds_a_slot st = true -> holds_a_slot old = true) ->
  exists db', set_state db id st = Ok db' /\ well_formed db' /\
    abs h db' = set_states (abs h db) (<[id := st]> (states (abs h db))) /\
    authority db' = authority db.
Proof.
  intros Hwf Hst Hslot. pose proof Hwf as [Hu Hs _ Hm]. simpl in Hst.
  rewrite <- find_row in Hst by done.
  destruct (List.find _ (work db)) as [r|] eqn:E; [|done].
  apply find_some in E as [Hr Hid]. bool_prop. subst id. simpl in Hst.
  apply list_elem_of_In in Hr.
  assert (Hold : row_running r = holds_a_slot old).
  { rewrite row_running_slot by auto. by simplify_eq. }
  apply list_elem_of_split in Hr as (before & after & E).
  assert (Hup : update_state (fun r' => bool_decide (row_work_id r' = row_work_id r))
      (work_state_as_str st) (work db) = (before ++ with_state st r :: after, 1)).
  { rewrite E in *. apply update_state_one; [done| |].
    - intros r' H'. by bool_prop.
    - by apply bool_decide_eq_true_2. }
  exists (set_work db (before ++ with_state st r :: after)). unfold set_state. rewrite Hup.
  split_and!; [done| | |done].
  - apply wf_update; [done..|]. rewrite Hold.
    destruct (holds_a_slot st), (holds_a_slot old); simpl; try lia.
  - unfold abs, set_states. simpl. rewrite E in *.
    f_equal; [by rewrite !fmap_app, !fmap_cons|]. by apply abs_states_update.
Qed.

Section operations.
Context (h : Handle) (db : Database).
Context (Hwf : well_formed db) (Hauth : holds_authority h db)
  (Hlimit : h_limit h <= MAX_PARALLELISM_LIMIT).

Lemma existsb_row id :
  existsb (fun r => bool_decide (row_work_id r = id)) (work db) =
  match abs_states (work db) !! id with Some _ => true | None => false end.
Proof.
  apply eq_true_iff_eq. rewrite existsb_exists. setoid_rewrite <- list_elem_of_In.
  setoid_rewrite bool_decide_eq_true. split.
  - intros (r & Hr & <-). by rewrite abs_states_lookup by (apply Hwf || done).
  - destruct (abs_states (work db) !! id) eqn:E; [|done]. intros _.
    assert (id ∈ row_work_id <$> work db) as (r & -> & Hr)%list_elem_of_fmap; [|eauto].
    destruct (decide (id ∈ row_work_id <$> work db)) as [?|Hn]; [done|].
    apply abs_states_None in Hn. congruence.
Qed.

Lemma submit_simulates w :
  valid_id (work_id w) ->
  simulates h (durable_submit h w db) (reference_submit w (abs h db)).
Proof.
  intros Hv. unfold simulates, durable_submit, transaction, reference_submit.
  rewrite Hauth. cbn [mbind result_bind]. rewrite existsb_row. simpl.
  destruct (abs_states (work db) !! work_id w) eqn:E; [done|]. simpl. destruct Hwf as [Hu Hs Hi Hm].
  split; [done|]. split.
  - unfold abs. simpl. rewrite fmap_app. f_equal; [by destruct w|]. unfold abs_states at 1.
    rewrite fmap_app, list_to_map_app.
    trans (abs_states (work db) ∪ {[work_id w := Queued]}); [reflexivity|]. symmetry.
    rewrite insert_union_singleton_l. apply map_union_comm.
    by apply map_disjoint_singleton_l.
  - apply abs_states_None in E. split; simpl.
    + rewrite fmap_app. apply NoDup_app. split_and!; [done| |apply NoDup_singleton].
      intros x Hx. by intros ->%list_elem_of_singleton.
    + intros r [?| ->%list_elem_of_singleton]%elem_of_app; [auto|done].
    + intros r [?| ->%list_elem_of_singleton]%elem_of_app; [auto|done].
    + rewrite List.filter_app, len_app. simpl. rewrite len_nil. lia.
Qed.

Lemma tick_simulates f :
  epoch f <= i64_max -> simulates h (durable_tick h f db) (reference_tick f (abs h db)).
Proof.
  intros He. unfold simulates, durable_tick, transaction, reference_tick.
  change (fence (abs h db)) with (h_fence h).
  case_bool_decide as Hf; cbn [negb]; [subst f; rewrite Hauth; cbn [mbind result_bind]|].
  - pose proof (wf_slots _ Hwf) as Hm. rewrite (proj2 (Z.ltb_ge _ _))
      by (unfold MAX_PARALLELISM_LIMIT in *; widths; lia).
    destruct (Z.eqb_spec (Z.max 0 (h_limit h - len (List.filter row_running (work db)))) 0).
    + change (order (abs h db)) with (row_work <$> work db).
      assert (tick_loop (row_work <$> work db) (abs h db) [] = (abs h db, [])) as ->; [|done].
      destruct (work db) as [|r rows] eqn:E; [done|]. rewrite fmap_cons. cbn [tick_loop].
      rewrite occupied_abs, E by done. change (limit (abs h db)) with (h_limit h).
      rewrite (proj2 (Z.leb_le _ _)) by lia. done.
    + edestruct (admit_tick_loop h (Z.max 0 (h_limit h - len (List.filter row_running (work db))))
        (work db) [] (list_to_set (row_scope_id <$> List.filter row_running (work db))) [] db)
        as (started & db' & -> & Ht & Hw & _); [done..| | |].
      * intros sc. by rewrite elem_of_list_to_set.
      * change (len (@nil (list Z))) with 0. lia.
      * change (order (abs h db)) with (row_work <$> work db). rewrite Ht. done.
  - destruct (require_fence db f) as [[]|e] eqn:E; [done|]. cbn.
    unfold require_fence, db_epoch in E. rewrite (proj2 (Z.leb_le _ _) He) in E. cbn in E.
    split; [|done]. by repeat case_match; simplify_eq.
Qed.

(** A fence whose epoch is above SQLite's integers is not the held one. *)
Lemma tick_unstorable f :
  i64_max < epoch f ->
  durable_tick h f db = (Err (DInvalidField "epoch"), db) /\
  reference_tick f (abs h db) = (Err StaleFence, abs h db).
Proof.
  intros He. assert (Hne : f <> h_fence h).
  { intros ->. pose proof Hauth as Ha. unfold holds_authority, require_fence, db_epoch in Ha.
    by rewrite (proj2 (Z.leb_gt _ _) He) in Ha. }
  unfold durable_tick, reference_tick, transaction. change (fence (abs h db)) with (h_fence h).
  rewrite !bool_decide_eq_false_2 by done. cbn [negb].
  unfold require_fence, db_epoch. by rewrite (proj2 (Z.leb_gt _ _) He).
Qed.

Lemma complete_simulates id :
  simulates h (durable_complete h id db) (reference_complete id (abs h db)).
Proof.
  unfold simulates, durable_complete, transaction, reference_complete.
  rewrite Hauth. cbn [mbind result_bind]. rewrite (read_state_abs h) by done.
  cbn [mbind result_bind].
  destruct (states (abs h db) !! id) as [st|] eqn:E; [|done]. cbn [ok_or mbind result_bind].
  destruct st; try done; cbn [mbind result_bind].
  - destruct (set_state_abs h db id Completed Running) as (db' & -> & ? & ? & _); done.
  - destruct (set_state_abs h db id Cancelled StopRequested) as (db' & -> & ? & ? & _); done.
Qed.

Lemma cancel_simulates id :
  simulates h (durable_cancel h id db) (reference_cancel id (abs h db)).
Proof.
  unfold simulates, durable_cancel, transaction, reference_cancel.
  rewrite Hauth. cbn [mbind result_bind]. rewrite (read_state_abs h) by done.
  cbn [mbind result_bind].
  destruct (states (abs h db) !! id) as [st|] eqn:E; [|done]. cbn [ok_or mbind result_bind].
  destruct st; try done; cbn [mbind result_bind].
  - destruct (set_state_abs h db id Cancelled Queued) as (db' & -> & ? & ? & _); done.
  - destruct (set_state_abs h db id StopRequested Running) as (db' & -> & ? & ? & _); done.
  - split_and!; [done| |done]. unfold set_states. cbn [snd]. rewrite insert_id by done. done.
Qed.

Lemma set_paused_simulates sc p :
  simulates h (durable_set_paused h sc p db)
    (Ok tt, (if p then reference_pause else reference_resume) sc (abs h db)).
Proof.
  unfold simulates, durable_set_paused, transaction. rewrite Hauth. cbn [mbind result_bind fst snd].
  split; [done|]. split; [|by destruct Hwf].
  unfold abs. destruct p; unfold reference_pause, reference_resume; simpl; f_equal.
  - rewrite map_filter_insert_True by done. by rewrite dom_insert_L.
  - rewrite map_filter_insert_False by done. rewrite map_filter_delete, dom_delete_L. done.
Qed.

Lemma collect_ids_valid ids : Forall valid_id ids -> collect_ids ids = Ok ids.
Proof.
  induction 1 as [|id ids Hv _ IH]; [done|]. simpl.
  rewrite (proj2 (work_id_new_Ok _ _) (conj eq_refl Hv)). cbn. by rewrite IH.
Qed.

Lemma running_simulates : durable_running h db = Ok (reference_running (abs h db)).
Proof.
  unfold durable_running. rewrite Hauth. cbn [mbind result_bind]. destruct Hwf as [Hu Hs Hi _].
  rewrite collect_ids_valid.
  - f_equal. unfold reference_running. simpl. rewrite <- list_fmap_compose.
    assert (Hs' : forall r, r ∈ work db -> slot (abs_states (work db)) (row_work_id r) = row_running r).
    { intros r Hr. unfold slot. rewrite abs_states_lookup by done. by rewrite row_running_slot by auto. }
    clear - Hs'. revert Hs'. generalize (abs_states (work db)). intros m.
    induction (work db) as [|r rows IH]; intros Hs'; [done|].
    rewrite fmap_cons. cbn [List.filter compose]. simpl. rewrite Hs' by (by left).
    destruct (row_running r); rewrite ?fmap_cons, IH; (done || intros; apply Hs'; by right).
  - apply Forall_forall. intros id (r & -> & [Hr _]%elem_of_filter_b)%list_elem_of_fmap. auto.
Qed.

Lemma state_simulates id : durable_state h id db = Ok (states (abs h db) !! id).
Proof. unfold durable_state. rewrite Hauth. by apply read_state_abs. Qed.

End operations.

(** ** Handles, processes and interleavings *)

(** A call through one handle: what it started and the database it leaves. *)
Definition durable_call (h : Handle) (c : Call) (db : Database) : list (list Z) * Database :=
  match c with
  | CSubmit w => ([], (durable_submit h w db).2)
  | CTick f => (match (durable_tick h f db).1 with Ok started => started | Err _ => [] end,
                (durable_tick h f db).2)
  | CComplete id => ([], (durable_complete h id db).2)
  | CPause sc => ([], (durable_set_paused h sc true db).2)
  | CResume sc => ([], (durable_set_paused h sc false db).2)
  | CCancel id => ([], (durable_cancel h id db).2)
  end.

(** One database file and every handle ever opened on it, in any process. *)
Record System := mkSystem { sys_db : Database; sys_handles : list Handle }.

Inductive Event :=
| EOpen (l : Z) (f : SchedulerFence)
| ECall (i : nat) (c : Call).

Definition sys_step (e : Event) (s : System) : list (list Z) * System :=
  match e with
  | EOpen l f =>
      match open_store l f (sys_db s) with
      | (Ok h, db) => ([], mkSystem db (sys_handles s ++ [h]))
      | (Err _, db) => ([], mkSystem db (sys_handles s))
      end
  | ECall i c =>
      match sys_handles s !! i with
      | None => ([], s)
      | Some h => let '(started, db) := durable_call h c (sys_db s) in
                  (started, mkSystem db (sys_handles s))
      end
  end.

Fixpoint sys_run (es : list Event) (s : System) : list (list Z) * System :=
  match es with
  | [] => ([], s)
  | e :: es => let '(now, s) := sys_step e s in
               let '(later, s) := sys_run es s in (now ++ later, s)
  end.

(** [WorkId] values are validated before they reach a store. *)
Definition valid_call (c : Call) : Prop :=
  match c with CSubmit w => valid_id (work_id w) | _ => True end.

Definition valid_event (e : Event) : Prop :=
  match e with ECall _ c => valid_call c | EOpen l _ => 0 <= l end.

(** The store as a reference scheduler with every slot the schema allows. *)
Definition wide (f : SchedulerFence) : Handle := mkHandle MAX_PARALLELISM_LIMIT f.
Definition view (db : Database) : ReferenceScheduler := abs (wide demo_fence) db.

Record store_inv (db : Database) : Prop := mkStoreInv {
  si_wf : well_formed db;
  si_inv : inv (view db);
}.

Lemma inv_handle h h' db :
  inv (abs h db) -> occupied (abs h db) <= h_limit h' -> inv (abs h' db).
Proof. intros [Hi He _] Hb. by split. Qed.

Lemma inv_bounded_by h db :
  store_inv db -> len (List.filter row_running (work db)) <= h_limit h -> inv (abs h db).
Proof.
  intros [Hwf Hi] Hb. apply (inv_handle (wide demo_fence)); [done|].
  by rewrite occupied_abs.
Qed.

Lemma store_inv_abs h db :
  well_formed db -> inv (abs h db) -> store_inv db.
Proof.
  intros Hwf Hi. split; [done|]. apply (inv_handle h); [done|].
  rewrite occupied_abs by done. apply Hwf.
Qed.

(** Without the authority no call has an effect. *)
Lemma refused_call h c db :
  ~ holds_authority h db -> durable_call h c db = ([], db).
Proof.
  intros Hn. assert (exists e, require_fence db (h_fence h) = Err e) as [e He].
  { unfold holds_authority in Hn. destruct (require_fence db (h_fence h)) as [[]|e]; [done|by exists e]. }
  destruct c as [w|f|id|sc|sc|id]; cbn;
    unfold durable_submit, durable_complete, durable_set_paused, durable_cancel, transaction;
    rewrite ?He; try done.
  unfold durable_tick, transaction. destruct (require_fence db f) as [[]|e'] eqn:Ef; [|done].
  cbn. case_bool_decide as E; [|done]. subst f. congruence.
Qed.

(** With it, a call is a call of the reference scheduler. *)
Lemma durable_call_abs h c db :
  well_formed db -> holds_authority h db -> h_limit h <= MAX_PARALLELISM_LIMIT ->
  valid_call c ->
  (durable_call h c db = ([], db)) \/
  (call c (abs h db) = ((durable_call h c db).1, abs h (durable_call h c db).2) /\
   well_formed (durable_call h c db).2).
Proof.
  intros Hwf Ha Hl Hv. destruct c as [w|f|id|sc|sc|id]; simpl.
  - right. destruct (submit_simulates h db Hwf Ha w Hv) as (_ & -> & ?). done.
  - destruct (Z.leb_spec (epoch f) i64_max) as [He|He].
    + right. destruct (tick_simulates h db Hwf Ha Hl f He) as (Hr & Hs & ?). rewrite Hs.
      split; [|done]. f_equal. unfold agrees in Hr.
      destruct (durable_tick h f db).1, (reference_tick f (abs h db)).1; naive_solver.
    + left. unfold durable_tick, transaction, require_fence, db_epoch.
      by rewrite (proj2 (Z.leb_gt _ _) He).
  - right. destruct (complete_simulates h db Hwf Ha id) as (_ & -> & ?). done.
  - right. destruct (set_paused_simulates h db Hwf Ha sc true) as (_ & -> & ?). done.
  - right. destruct (set_paused_simulates h db Hwf Ha sc false) as (_ & -> & ?). done.
  - right. destruct (cancel_simulates h db Hwf Ha id) as (_ & -> & ?). done.
Qed.

(** A handle with no free slot starts nothing. *)
Lemma tick_overfull h f db :
  h_limit h <= len (List.filter row_running (work db)) -> durable_call h (CTick f) db = ([], db).
Proof.
  intros Hle. cbn. unfold durable_tick, transaction.
  destruct (require_fence db f) as [[]|e]; [|done]. cbn [mbind result_bind].
  case_bool_decide; cbn [negb]; [|done].
  destruct (u32_max <? _); [done|]. by rewrite Z.max_l by lia.
Qed.

(** Calls other than [tick] do not read the limit. *)
Lemma call_any_limit h l c db :
  (forall f, c <> CTick f) -> durable_call h c db = durable_call (mkHandle l (h_fence h)) c db.
Proof. intros Hc. destruct c; try done. by destruct (Hc f). Qed.

(** What one event does to the store, whoever causes it. *)
Record stepped (started : list (list Z)) (db db' : Database) : Prop := mkStepped {
  sp_inv : store_inv db';
  sp_advances : advances (view db) (view db');
  sp_nodup : NoDup started;
  sp_started : forall id, id ∈ started ->
    states (view db) !! id = Some Queued /\ states (view db') !! id = Some Running;
}.

Lemma stepped_refl db : store_inv db -> stepped [] db db.
Proof.
  intros Hi. split; [done|apply advances_refl|apply NoDup_nil_2|].
  by intros ? ?%not_elem_of_nil.
Qed.

Lemma stepped_abs h db started db' c :
  inv (abs h db) -> well_formed db' -> call c (abs h db) = (started, abs h db') ->
  stepped started db db'.
Proof.
  intros Hi Hwf E. pose proof (call_inv c _ Hi) as Hi'. pose proof (call_advances c _ Hi) as Ha.
  pose proof (call_started_NoDup c _ Hi) as Hn. pose proof (call_started c (abs h db)) as Hs.
  rewrite E in *. cbn [fst snd] in *. split; [by eapply store_inv_abs|done..|].
  intros id Hid. by apply Hs.
Qed.

Lemma durable_call_stepped h c db :
  store_inv db -> h_limit h <= MAX_PARALLELISM_LIMIT -> valid_call c ->
  stepped (durable_call h c db).1 db (durable_call h c db).2.
Proof.
  intros Hi Hl Hv. pose proof (si_wf _ Hi) as Hwf.
  destruct (require_fence db (h_fence h)) as [[]|e] eqn:Ha.
  2: { rewrite refused_call by (unfold holds_authority; congruence). by apply stepped_refl. }
  assert (Hgo : forall h', inv (abs h' db) -> h_fence h' = h_fence h ->
    h_limit h' <= MAX_PARALLELISM_LIMIT ->
    stepped (durable_call h' c db).1 db (durable_call h' c db).2).
  { intros h' Hi' Hf Hl'. destruct (durable_call_abs h' c db) as [E|[E Hw]];
      [done| |done|done| |].
    - unfold holds_authority. congruence.
    - rewrite E. by apply stepped_refl.
    - by eapply stepped_abs. }
  assert ((exists f, c = CTick f) \/ forall f, c <> CTick f) as [[f ->]|Hnt]
    by (destruct c; eauto; by right).
  - destruct (Z.le_gt_cases (h_limit h) (len (List.filter row_running (work db)))).
    + rewrite tick_overfull by done. by apply stepped_refl.
    + apply Hgo; [apply inv_bounded_by; [done|lia]|done..].
  - rewrite (call_any_limit h MAX_PARALLELISM_LIMIT) by done.
    apply Hgo; [apply inv_bounded_by; [done|]; apply Hwf|done..].
Qed.

Lemma open_store_Ok l f db h db' :
  open_store l f db = (Ok h, db') ->
  h = mkHandle l f /\ 1 <= l <= MAX_PARALLELISM_LIMIT /\ 1 <= epoch f <= i64_max /\
  db' = mkDb (Some (mkAuthority (generation_id f) (holder_id f) (epoch f) l)) (scopes db) (work db).
Proof.
  unfold open_store, install_authority, db_epoch, transaction. case_match eqn:El; [done|].
  destruct (Z.leb_spec (epoch f) i64_max); [|done]. case_match eqn:Ec; repeat case_match; try done.
  intros [= <- <-]. simplify_eq. unfold MAX_PARALLELISM_LIMIT. bool_prop.
  split_and!; (done || lia).
Qed.

Lemma open_store_Err l f db e db' : open_store l f db = (Err e, db') -> db' = db.
Proof.
  unfold open_store, install_authority, transaction.
  destruct (_ || _); [naive_solver|]. destruct (db_epoch f); [|naive_solver].
  destruct (_ && _); naive_solver.
Qed.

Definition sys_inv (s : System) : Prop :=
  store_inv (sys_db s) /\ Forall (fun h => h_limit h <= MAX_PARALLELISM_LIMIT) (sys_handles s).

(** Opening rewrites the authority row only. *)
Lemma store_inv_authority a db :
  store_inv db -> store_inv (mkDb a (scopes db) (work db)).
Proof. intros [[] []]. by split; split. Qed.

Lemma sys_step_stepped e s :
  sys_inv s -> valid_event e ->
  stepped (sys_step e s).1 (sys_db s) (sys_db (sys_step e s).2) /\ sys_inv (sys_step e s).2.
Proof.
  intros [Hi Hh] Hv. destruct e as [l f|i c]; simpl in *.
  - destruct (open_store l f (sys_db s)) as [[h|e] db] eqn:E; simpl.
    + apply open_store_Ok in E as (-> & Hl & _ & ->).
      assert (Hi' : store_inv (mkDb (Some (mkAuthority (generation_id f) (holder_id f) (epoch f) l))
        (scopes (sys_db s)) (work (sys_db s)))) by (by apply store_inv_authority).
      split; [split; [done| |apply NoDup_nil_2|by intros ? ?%not_elem_of_nil]|].
      * intros id st Hst. by exists st.
      * split; [done|]. apply Forall_app. split; [done|]. apply Forall_singleton. simpl. lia.
    + apply open_store_Err in E as ->. split; [by apply stepped_refl|by split].
  - destruct (sys_handles s !! i) as [h|] eqn:E; [|split; [by apply stepped_refl|by split]].
    assert (Hl : h_limit h <= MAX_PARALLELISM_LIMIT)
      by (eapply (Forall_lookup_1 _ _ _ _ Hh E)).
    pose proof (durable_call_stepped h c (sys_db s) Hi Hl Hv) as Hs.
    destruct (durable_call h c (sys_db s)) as [started db]. cbn [fst snd sys_db sys_handles] in *.
    split; [done|]. split; [apply Hs|done].
Qed.

Lemma sys_run_cons e es s :
  sys_run (e :: es) s = ((sys_step e s).1 ++ (sys_run es (sys_step e s).2).1,
                         (sys_run es (sys_step e s).2).2).
Proof. cbn [sys_run]. destruct (sys_step e s) as [? s1]. cbn. by destruct (sys_run es s1). Qed.

Lemma sys_run_started es s :
  sys_inv s -> Forall valid_event es ->
  sys_inv (sys_run es s).2 /\ advances (view (sys_db s)) (view (sys_db (sys_run es s).2)) /\
  NoDup (sys_run es s).1 /\ forall id, id ∈ (sys_run es s).1 -> fresh (view (sys_db s)) id.
Proof.
  intros Hi Hv. revert s Hi; induction Hv as [|e es He _ IH]; intros s Hi.
  { split_and!; [done|apply advances_refl|apply NoDup_nil_2|by intros ? ?%not_elem_of_nil]. }
  rewrite sys_run_cons. cbn [fst snd].
  destruct (sys_step_stepped e s Hi He) as [[_ Hadv Hnd Hst] Hi'].
  destruct (IH _ Hi') as (Hi2 & Hadv2 & Hnd2 & Hf).
  split_and!; [done|by eapply advances_trans| |].
  - apply NoDup_app. split_and!; [done| |done]. intros id Hnow Hlater.
    destruct (Hst _ Hnow) as [_ E]. destruct (Hf _ Hlater); congruence.
  - intros id [Hnow|Hlater]%elem_of_app.
    + right. by apply Hst.
    + eapply advances_fresh; [done|]. by apply Hf.
Qed.

Definition fresh_system : System := mkSystem fresh_db [].

Lemma fresh_db_inv : store_inv fresh_db.
Proof.
  split.
  - split; simpl; [apply NoDup_nil_2|by intros ? ?%not_elem_of_nil..|done].
  - assert (view fresh_db = reference_new MAX_PARALLELISM_LIMIT demo_fence) as ->.
    { unfold view, abs, reference_new. simpl. f_equal. }
    by apply new_inv.
Qed.

Lemma fresh_system_inv : sys_inv fresh_system.
Proof. split; [apply fresh_db_inv|apply Forall_nil_2]. Qed.

(** * Properties *)

(** C3: the durable scheduler refines the reference scheduler.  For a handle
    that holds the authority over a well-formed database, every operation
    returns the reference scheduler's value or the error that is its refusal,
    and the database it leaves is again well-formed and abstracts to the state
    the reference scheduler reaches.  In particular no [Corrupt] or [Sqlite]
    error is reachable.  There is one departure, a tick under a fence whose
    epoch SQLite's integers cannot hold: the store answers that the epoch is an
    invalid field where the reference scheduler answers that the fence is
    stale; neither changes anything. *)
Theorem durable_refines_reference h db :
  well_formed db -> holds_authority h db -> h_limit h <= MAX_PARALLELISM_LIMIT ->
  (forall w, valid_id (work_id w) ->
     simulates h (durable_submit h w db) (reference_submit w (abs h db))) /\
  (forall f, epoch f <= i64_max ->
     simulates h (durable_tick h f db) (reference_tick f (abs h db))) /\
  (forall f, i64_max < epoch f ->
     durable_tick h f db = (Err (DInvalidField "epoch"), db) /\
     reference_tick f (abs h db) = (Err StaleFence, abs h db)) /\
  (forall id, simulates h (durable_complete h id db) (reference_complete id (abs h db))) /\
  (forall id, simulates h (durable_cancel h id db) (reference_cancel id (abs h db))) /\
  (forall sc, simulates h (durable_set_paused h sc true db) (Ok tt, reference_pause sc (abs h db))) /\
  (forall sc, simulates h (durable_set_paused h sc false db) (Ok tt, reference_resume sc (abs h db))) /\
  durable_running h db = Ok (reference_running (abs h db)) /\
  (forall id, durable_state h id db = Ok (reference_state id (abs h db))).
Proof.
  intros Hwf Ha Hl. split_and!.
  - by apply submit_simulates.
  - by apply tick_simulates.
  - by apply tick_unstorable.
  - by apply complete_simulates.
  - by apply cancel_simulates.
  - intros sc. by apply (set_paused_simulates h db Hwf Ha sc true).
  - intros sc. by apply (set_paused_simulates h db Hwf Ha sc false).
  - by apply running_simulates.
  - by apply state_simulates.
Qed.

Definition demo_handle : Handle := mkHandle 2 demo_fence.
Definition demo_db : Database :=
  mkDb (Some (mkAuthority (str "generation-1") (str "holder-1") 1 2))
    {[str "y" := true]}
    [mkRow (str "a") (str "x") (str "running"); mkRow (str "b") (str "x") (str "queued");
     mkRow (str "c") (str "y") (str "queued"); mkRow (str "d") (str "z") (str "queued")].

Lemma demo_db_wf : well_formed demo_db.
Proof.
  split.
  - apply (bool_decide_unpack _). vm_compute. exact I.
  - assert (Forall (fun r => row_state r = work_state_as_str (state_of_row r)) (work demo_db)) as H
      by (apply (bool_decide_unpack _); vm_compute; exact I).
    by rewrite Forall_forall in H.
  - intros r Hr. apply (validate_id_Ok _ ""). simpl in Hr.
    repeat (apply elem_of_cons in Hr as [->|Hr]; [vm_compute; reflexivity|]).
    by apply not_elem_of_nil in Hr.
  - vm_compute. congruence.
Qed.

Lemma durable_refines_reference_witness :
  durable_tick demo_handle demo_fence demo_db =
    (Ok [str "d"], (durable_tick demo_handle demo_fence demo_db).2) /\
  simulates demo_handle (durable_tick demo_handle demo_fence demo_db)
    (reference_tick demo_fence (abs demo_handle demo_db)).
Proof.
  split; [vm_compute; reflexivity|].
  assert (Ha : holds_authority demo_handle demo_db) by (vm_compute; reflexivity).
  assert (Hl : h_limit demo_handle <= MAX_PARALLELISM_LIMIT) by (vm_compute; congruence).
  destruct (durable_refines_reference demo_handle demo_db demo_db_wf Ha Hl) as (_ & Ht & _).
  apply Ht. vm_compute. congruence.
Defined.

(** C4: fencing.  A handle was opened, whatever the database was then; once
    another owner has opened the database under a different fence, every
    operation of the old handle is refused as stale and leaves the database
    untouched.  So is a tick under any other fence, except that a fence whose
    epoch SQLite's integers cannot hold is refused as an invalid field.  The new
    owner holds the authority, and taking it over changed neither the work nor
    the paused scopes, so nothing that runs is requeued. *)
Theorem stale_owner_is_fenced l0 f0 db0 h db1 l f db h' db' :
  open_store l0 f0 db0 = (Ok h, db1) ->
  open_store l f db = (Ok h', db') -> f0 <> f ->
  (forall w, durable_submit h w db' = (Err DStaleFence, db')) /\
  (forall g, durable_tick h g db' =
     (Err (if epoch g <=? i64_max then DStaleFence else DInvalidField "epoch"), db')) /\
  (forall id, durable_complete h id db' = (Err DStaleFence, db')) /\
  (forall id, durable_cancel h id db' = (Err DStaleFence, db')) /\
  (forall sc p, durable_set_paused h sc p db' = (Err DStaleFence, db')) /\
  durable_running h db' = Err DStaleFence /\
  (forall id, durable_state h id db' = Err DStaleFence) /\
  holds_authority h' db' /\ work db' = work db /\ scopes db' = scopes db.
Proof.
  intros (-> & _ & Hh & _)%open_store_Ok (-> & _ & He & ->)%open_store_Ok Hne.
  set (db' := mkDb _ _ _).
  assert (Hreq : forall g, epoch g <= i64_max ->
    require_fence db' g = if decide (g = f) then Ok tt else Err DStaleFence).
  { intros [gg gh ge] Hg. destruct f as [fg fh fe]. unfold require_fence, db_epoch. simpl in *.
    rewrite (proj2 (Z.leb_le _ _) Hg). cbn.
    case_decide as E; [simplify_eq|].
    - by rewrite !bool_decide_eq_true_2, Z.eqb_refl by done.
    - do 2 (case_bool_decide; [|done]). cbn. destruct (Z.eqb_spec fe ge); [|done].
      exfalso. apply E. congruence. }
  pose proof (Hreq f0 (proj2 Hh)) as Hst. rewrite decide_False in Hst by done.
  unfold durable_submit, durable_tick, durable_complete, durable_cancel, durable_set_paused,
    durable_running, durable_state, transaction. cbn [h_fence]. rewrite Hst.
  split_and!; try done.
  - intros g. destruct (Z.leb_spec (epoch g) i64_max) as [Hg|Hg].
    + rewrite Hreq by done. case_decide; [|done]. cbn. subst g.
      by rewrite bool_decide_eq_false_2 by done.
    + unfold require_fence, db_epoch. by rewrite (proj2 (Z.leb_gt _ _) Hg).
  - unfold holds_authority. simpl. rewrite Hreq by lia. by rewrite decide_True.
Qed.

Definition next_fence : SchedulerFence := mkFence (str "generation-2") (str "holder-1") 2.

Lemma stale_owner_is_fenced_witness :
  durable_complete demo_handle (str "a") (open_store 4 next_fence demo_db).2 =
  (Err DStaleFence, (open_store 4 next_fence demo_db).2).
Proof.
  assert (H0 : open_store 2 demo_fence fresh_db =
    (Ok demo_handle, (open_store 2 demo_fence fresh_db).2)) by (vm_compute; reflexivity).
  assert (Ho : open_store 4 next_fence demo_db =
    (Ok (mkHandle 4 next_fence), (open_store 4 next_fence demo_db).2)) by (vm_compute; reflexivity).
  assert (Hne : demo_fence <> next_fence) by (vm_compute; congruence).
  destruct (stale_owner_is_fenced _ _ _ _ _ _ _ _ _ _ H0 Ho Hne) as (_ & _ & Hc & _).
  apply Hc.
Defined.

(** C5: exactly-once starting across crashes, restarts and competing owners.
    Over any interleaving of opens (any limits and fences) and calls through
    any of the handles ever opened on one initially empty database: no work
    identity is started twice; the items holding a slot belong to distinct
    scopes and never exceed the schema's limit; and from any point of the
    interleaving on, every known item keeps a state, reached along legal moves. *)
Theorem started_once_across_owners es es' :
  Forall valid_event (es ++ es') ->
  let mid := (sys_run es fresh_system).2 in
  let final := (sys_run es' mid).2 in
  NoDup ((sys_run es fresh_system).1 ++ (sys_run es' mid).1) /\
  NoDup (running_scopes (view (sys_db final))) /\
  len (reference_running (view (sys_db final))) <= MAX_PARALLELISM_LIMIT /\
  advances (view (sys_db mid)) (view (sys_db final)).
Proof.
  intros [Hv Hv']%Forall_app mid final.
  assert (Hrun : forall es s, sys_run (es ++ es') s =
    ((sys_run es s).1 ++ (sys_run es' (sys_run es s).2).1, (sys_run es' (sys_run es s).2).2)).
  { clear. induction es as [|e es IH]; intros s; [simpl; by destruct (sys_run es' s)|].
    rewrite <- app_comm_cons, !sys_run_cons, IH. cbn [fst snd]. by rewrite app_assoc. }
  destruct (sys_run_started (es ++ es') fresh_system fresh_system_inv) as (_ & _ & Hnd & _);
    [by apply Forall_app|]. rewrite Hrun in Hnd.
  destruct (sys_run_started es fresh_system fresh_system_inv Hv) as (Hi & _ & _ & _).
  destruct (sys_run_started es' mid Hi Hv') as ([[_ [Hix Hex Hb]] _] & Hadv & _ & _).
  split_and!; [done|by apply running_scopes_NoDup| |done].
  by rewrite <- occupied_running.
Qed.

(** Two owners: the first crashes after starting [a]; the second takes over,
    the first comes back and is refused. *)
Definition demo_events : list Event :=
  [EOpen 1 demo_fence; ECall 0 (CSubmit (mkWork (str "a") (str "x")));
   ECall 0 (CSubmit (mkWork (str "b") (str "x"))); ECall 0 (CTick demo_fence);
   EOpen 2 next_fence; ECall 1 (CTick next_fence); ECall 0 (CComplete (str "a"));
   ECall 1 (CComplete (str "a")); ECall 1 (CTick next_fence); ECall 0 (CTick demo_fence)].

Lemma started_once_across_owners_witness :
  (sys_run demo_events fresh_system).1 = [str "a"; str "b"] /\
  NoDup (running_scopes (view (sys_db (sys_run demo_events fresh_system).2))).
Proof.
  split; [vm_compute; reflexivity|].
  assert (Hv : Forall valid_event ([] ++ demo_events)); [|
    by destruct (started_once_across_owners [] demo_events Hv) as (_ & Hs & _)].
  repeat apply Forall_cons_2; try apply Forall_nil_2; try exact I; simpl; try lia;
    apply (validate_id_Ok _ ""); vm_compute; reflexivity.
Defined.
