(* ===== verification/Controller.v ===== *)
(** The bounded controller tick: [automonique-core/src/lib.rs].

    [DurableScheduler] is the trait the tick runs over, a class of operations
    on an explicit adapter state; [Controller::tick] is [controller_tick].  The
    theorem is about every adapter: [Recorded] puts a recorder in front of one,
    which notes each call the controller makes with its arguments and the answer
    given, and the theorem says what the calls of a run are.  [MemoryDurable],
    the in-memory adapter of the file's test module, is one adapter; it never
    answers the same work twice as a new claim. *)

From S2P Require Import Prelude Text Fence.

Inductive FakeProgram := Succeed | Fail_.

Record DurableWorkItem := mkItem {
  item_work_id : list Z;
  item_request_key : list Z;
  program : FakeProgram;
}.

Definition work_item_new (work_id request_key : list Z) (p : FakeProgram)
  : result CoordinateError DurableWorkItem :=
  _ ← validate_id work_id "work_id";
  _ ← validate_id request_key "request_key";
  Ok (mkItem work_id request_key p).

Inductive FakeTerminal := Succeeded | Failed.

Record FakeEffectIntent := mkIntent { idempotency_key : list Z }.

Record TerminalCommit := mkTerminal {
  tc_work_id : list Z;
  tc_request_key : list Z;
  tc_terminal : FakeTerminal;
  tc_fake_effect : FakeEffectIntent;
}.

Record CommitReceipt := mkReceipt { terminal_id : list Z; fake_effect_receipt_id : list Z }.

Definition receipt_new (terminal_id receipt_id : list Z) : result CoordinateError CommitReceipt :=
  _ ← validate_id terminal_id "terminal_id";
  _ ← validate_id receipt_id "fake_effect_receipt_id";
  Ok (mkReceipt terminal_id receipt_id).

Inductive ReconciliationReason := ClaimedOutcomeUnknown.
Record Reconciliation := mkReconciliation {
  rec_work_id : list Z;
  rec_reason : ReconciliationReason;
}.

Definition reconciliation_new (work_id : list Z) (r : ReconciliationReason)
  : result CoordinateError Reconciliation :=
  _ ← validate_id work_id "work_id"; Ok (mkReconciliation work_id r).

Inductive ClaimOutcome :=
| Empty
| Claimed (w : DurableWorkItem)
| TerminalReplay (r : CommitReceipt)
| ClaimReconciliation (r : Reconciliation).

Inductive DurableError := FenceStale | TemporarilyUnavailable | InvariantViolation.

Inductive CommitOutcome := Committed (r : CommitReceipt) | CommitReplayed (r : CommitReceipt).

#[export] Instance FakeProgram_eq_dec : EqDecision FakeProgram.
Proof. solve_decision. Defined.
#[export] Instance FakeTerminal_eq_dec : EqDecision FakeTerminal.
Proof. solve_decision. Defined.
#[export] Instance FakeEffectIntent_eq_dec : EqDecision FakeEffectIntent.
Proof. solve_decision. Defined.
#[export] Instance TerminalCommit_eq_dec : EqDecision TerminalCommit.
Proof. solve_decision. Defined.

Class DurableScheduler (D : Type) := {
  renew_fence : SchedulerFence -> D -> result DurableError unit * D;
  claim_one : SchedulerFence -> D -> result DurableError ClaimOutcome * D;
  commit_terminal : SchedulerFence -> TerminalCommit -> D -> result DurableError CommitOutcome * D;
}.

Inductive RetryStage := RenewFence | Claim | Commit.

Inductive TickOutcome :=
| Idle
| TickCompleted (r : CommitReceipt)
| Replayed (r : CommitReceipt)
| FenceRejected (stage : RetryStage)
| RetryRequired (stage : RetryStage)
| ReconciliationRequired (r : Reconciliation).

Inductive ControllerError := DurableInvariant (stage : RetryStage).

(** The executor's counter is the controller's whole state. *)
Record Controller := mkController { executions : Z }.

Definition controller_new : Controller := mkController 0.

Definition execute (w : DurableWorkItem) (c : Controller) : TerminalCommit * Controller :=
  (mkTerminal (item_work_id w) (item_request_key w)
     (match program w with Succeed => Succeeded | Fail_ => Failed end)
     (mkIntent (str "fixture-receipt:" ++ item_request_key w)),
   mkController (sat_u64 (executions c + 1))).

Definition classify_error (e : DurableError) (stage : RetryStage)
  : result ControllerError TickOutcome :=
  match e with
  | FenceStale => Ok (FenceRejected stage)
  | TemporarilyUnavailable => Ok (RetryRequired stage)
  | InvariantViolation => Err (DurableInvariant stage)
  end.

Section tick.
Context {D : Type} `{DurableScheduler D}.

Definition controller_tick (f : SchedulerFence) (c : Controller) (d : D)
  : result ControllerError TickOutcome * Controller * D :=
  match renew_fence f d with
  | (Err e, d) => (classify_error e RenewFence, c, d)
  | (Ok _, d) =>
      match claim_one f d with
      | (Err e, d) => (classify_error e Claim, c, d)
      | (Ok Empty, d) => (Ok Idle, c, d)
      | (Ok (TerminalReplay r), d) => (Ok (Replayed r), c, d)
      | (Ok (ClaimReconciliation r), d) => (Ok (ReconciliationRequired r), c, d)
      | (Ok (Claimed w), d) =>
          let '(terminal, c) := execute w c in
          match commit_terminal f terminal d with
          | (Err e, d) => (classify_error e Commit, c, d)
          | (Ok (Committed r), d) => (Ok (TickCompleted r), c, d)
          | (Ok (CommitReplayed r), d) => (Ok (Replayed r), c, d)
          end
      end
  end.

(** A process ticks under some fence, or is replaced by a fresh one. *)
Inductive ControllerEvent := ETick (f : SchedulerFence) | ERestart.

(** The outcomes of the ticks, the last controller and the adapter's state. *)
Fixpoint controller_run (es : list ControllerEvent) (c : Controller) (d : D)
  : list (result ControllerError TickOutcome) * Controller * D :=
  match es with
  | [] => ([], c, d)
  | ERestart :: es => controller_run es controller_new d
  | ETick f :: es =>
      let '(outcome, c, d) := controller_tick f c d in
      let '(later, c, d) := controller_run es c d in (outcome :: later, c, d)
  end.

End tick.

(** * What an adapter sees *)

(** One call of the controller, with the adapter's answer. *)
Inductive AdapterCall :=
| CallRenew (f : SchedulerFence) (answer : result DurableError unit)
| CallClaim (f : SchedulerFence) (answer : result DurableError ClaimOutcome)
| CallCommit (f : SchedulerFence) (t : TerminalCommit) (answer : result DurableError CommitOutcome).

(** An adapter behind a recorder: each call goes through unchanged. *)
Definition Recorded (D : Type) : Type := D * list AdapterCall.

Definition recorded {D A} (note : A -> AdapterCall) (r : A * D) (log : list AdapterCall)
  : A * Recorded D := (r.1, (r.2, log ++ [note r.1])).

#[export] Instance Recorded_scheduler D `{DurableScheduler D} : DurableScheduler (Recorded D) := {
  renew_fence f d := recorded (CallRenew f) (renew_fence f d.1) d.2;
  claim_one f d := recorded (CallClaim f) (claim_one f d.1) d.2;
  commit_terminal f t d := recorded (CallCommit f t) (commit_terminal f t d.1) d.2;
}.

(** The work the adapter answered as a new claim, with the fence. *)
Definition claims (log : list AdapterCall) : list (SchedulerFence * DurableWorkItem) :=
  omap (fun c => match c with CallClaim f (Ok (Claimed w)) => Some (f, w) | _ => None end) log.

(** The fences that were to be renewed, and those of the ticks. *)
Definition renewals (log : list AdapterCall) : list SchedulerFence :=
  omap (fun c => match c with CallRenew f _ => Some f | _ => None end) log.

Definition ticks (es : list ControllerEvent) : list SchedulerFence :=
  omap (fun e => match e with ETick f => Some f | ERestart => None end) es.

(** The terminals the adapter was sent, with the fence. *)
Definition commits (log : list AdapterCall) : list (SchedulerFence * TerminalCommit) :=
  omap (fun c => match c with CallCommit f t _ => Some (f, t) | _ => None end) log.

(** The terminal record of one work item: its own identities, the end its
    program comes to, and the effect key derived from its request. *)
Definition terminal_of (w : DurableWorkItem) (t : TerminalCommit) : Prop :=
  tc_work_id t = item_work_id w /\ tc_request_key t = item_request_key w /\
  (tc_terminal t = Succeeded <-> program w = Succeed) /\
  idempotency_key (tc_fake_effect t) = str "fixture-receipt:" ++ item_request_key w.

(** What the last call of a tick means for its outcome.  A renewal that was granted
    and a new claim are no tick's last call. *)
Definition verdict (c : AdapterCall) : option (result ControllerError TickOutcome) :=
  let fault e stage :=
    match e with
    | FenceStale => Ok (FenceRejected stage)
    | TemporarilyUnavailable => Ok (RetryRequired stage)
    | InvariantViolation => Err (DurableInvariant stage)
    end in
  match c with
  | CallRenew _ (Err e) => Some (fault e RenewFence)
  | CallRenew _ (Ok _) => None
  | CallClaim _ (Err e) => Some (fault e Claim)
  | CallClaim _ (Ok Empty) => Some (Ok Idle)
  | CallClaim _ (Ok (TerminalReplay r)) => Some (Ok (Replayed r))
  | CallClaim _ (Ok (ClaimReconciliation r)) => Some (Ok (ReconciliationRequired r))
  | CallClaim _ (Ok (Claimed _)) => None
  | CallCommit _ _ (Err e) => Some (fault e Commit)
  | CallCommit _ _ (Ok (Committed r)) => Some (Ok (TickCompleted r))
  | CallCommit _ _ (Ok (CommitReplayed r)) => Some (Ok (Replayed r))
  end.

Definition starts_tick (c : AdapterCall) : bool :=
  match c with CallRenew _ _ => true | _ => false end.

(** The last call of each tick: a renewal, or nothing, comes next. *)
Fixpoint last_calls (log : list AdapterCall) : list AdapterCall :=
  match log with
  | [] => []
  | c :: rest =>
      if match rest with [] => true | next :: _ => starts_tick next end
      then c :: last_calls rest else last_calls rest
  end.

(** A claim is made right after its fence was renewed, a terminal is sent right
    after its work was claimed, both under the same fence. *)
Definition in_order (before : option AdapterCall) (c : AdapterCall) : Prop :=
  match c with
  | CallRenew _ _ => True
  | CallClaim f _ => before = Some (CallRenew f (Ok tt))
  | CallCommit f t _ =>
      exists w, before = Some (CallClaim f (Ok (Claimed w))) /\ terminal_of w t
  end.

(** A restart leaves no trace in the counter. *)
Definition restarts (es : list ControllerEvent) : bool :=
  existsb (fun e => match e with ERestart => true | ETick _ => false end) es.

Section conversations.
Context {D : Type} `{DurableScheduler D}.

(** A stretch of calls that ticks made. *)
Record conversation (fences : list SchedulerFence) (outcomes : list (result ControllerError TickOutcome))
  (log : list AdapterCall) : Prop := mkConversation {
  cv_starts : from_option starts_tick true (head log) = true;
  cv_order : forall before x after, log = before ++ x :: after -> in_order (last before) x;
  cv_commits : Forall2 (fun a b => a.1 = b.1 /\ terminal_of a.2 b.2) (claims log) (commits log);
  cv_fences : renewals log = fences;
  cv_outcomes : Some <$> outcomes = verdict <$> last_calls log;
}.

Lemma conversation_nil : conversation [] [] [].
Proof. split; [done|by intros [|??]|by constructor|done|done]. Qed.

Lemma last_calls_app l1 l2 :
  from_option starts_tick true (head l2) = true -> last_calls (l1 ++ l2) = last_calls l1 ++ last_calls l2.
Proof.
  intros Hs. induction l1 as [|c [|c' l1] IH]; [done| |].
  - simpl. destruct l2 as [|c' l2]; [done|]. simpl in Hs. by rewrite Hs.
  - cbn [app last_calls] in *. rewrite IH. by destruct (starts_tick c').
Qed.

Lemma conversation_app f1 o1 l1 f2 o2 l2 :
  conversation f1 o1 l1 -> conversation f2 o2 l2 -> conversation (f1 ++ f2) (o1 ++ o2) (l1 ++ l2).
Proof.
  intros [S1 O1 C1 F1 V1] [S2 O2 C2 F2 V2]. split.
  - by destruct l1.
  - intros before x after E. apply app_eq_inv in E as [(l & E1 & E2)|(l & E1 & E2)].
    + destruct l as [|y l]; simplify_eq/=; [by destruct x|by eapply O1].
    + destruct l as [|y l]; [simplify_eq/=; by destruct x|].
      rewrite E1, last_app_cons. by apply (O2 _ _ _ E2).
  - unfold claims, commits. rewrite !omap_app. by apply Forall2_app.
  - unfold renewals. rewrite omap_app. by f_equal.
  - rewrite last_calls_app, !fmap_app by done. congruence.
Qed.

(** The recorder is transparent, and notes the calls of one tick. *)
Lemma tick_recorded f c d log :
  let '(o, c', d') := controller_tick f c d in
  exists new, controller_tick f c (d, log) = (o, c', (d', log ++ new)) /\ conversation [f] [o] new /\
    executions c' = match claims new with [] => executions c | _ => sat_u64 (executions c + 1) end /\
    (length (claims new) <= 1)%nat.
Proof.
  unfold controller_tick. cbn [renew_fence claim_one commit_terminal Recorded_scheduler recorded fst snd].
  destruct (renew_fence f d) as [[[]|e] d1]; cbn [fst snd].
  2: { eexists [_]. split_and!; [done| |done|simpl; lia].
       split; [done| |by constructor|done|by destruct e].
       intros [|? [|??]] x after E; simplify_eq/=; done. }
  destruct (claim_one f d1) as [r d2]; cbn [fst snd].
  destruct r as [[|w|r|r]|e]; cbn [fst snd];
    try (eexists [_; _]; rewrite <- app_assoc; split_and!; [done| |done|simpl; lia];
         split; [done| |by constructor|done|by (destruct e || idtac)];
         intros [|? [|? [|??]]] x after E; simplify_eq/=; done).
  cbn [execute]. destruct (commit_terminal f _ d2) as [r d3]; cbn [fst snd].
  assert (Ht : terminal_of w (mkTerminal (item_work_id w) (item_request_key w)
     (match program w with Succeed => Succeeded | Fail_ => Failed end)
     (mkIntent (str "fixture-receipt:" ++ item_request_key w)))).
  { unfold terminal_of. simpl. split_and!; [done..| |done]. by destruct (program w). }
  destruct r as [[r|r]|e]; cbn [fst snd];
    (eexists [_; _; _]; rewrite <- !app_assoc; split_and!; [done| |done|simpl; lia];
     split; [done| |by apply Forall2_cons; split; [split|constructor]|done|by (destruct e || idtac)];
     intros [|? [|? [|? [|??]]]] x after E; simplify_eq/=; eauto).
Qed.

Lemma run_recorded es c d log :
  let '(os, c', d') := controller_run es c d in
  exists new, controller_run es c (d, log) = (os, c', (d', log ++ new)) /\ conversation (ticks es) os new /\
    (restarts es = false -> 0 <= executions c <= u64_max ->
     executions c' = Z.min u64_max (executions c + len (claims new))).
Proof.
  revert c d log; induction es as [|[f|] es IH]; intros c d log; cbn [controller_run restarts existsb].
  - exists []. rewrite app_nil_r. split_and!; [done|apply conversation_nil|]. intros _ ?.
    change (len (claims [])) with 0. lia.
  - pose proof (tick_recorded f c d log) as Ht.
    destruct (controller_tick f c d) as [[o c1] d1]. destruct Ht as (new & -> & Hc & Hn & Hl).
    specialize (IH c1 d1 (log ++ new)). destruct (controller_run es c1 d1) as [[os c2] d2].
    destruct IH as (later & -> & Hc2 & Hn2). exists (new ++ later). split_and!.
    + by rewrite app_assoc.
    + by apply (conversation_app [f] [o] new (ticks es) os later).
    + intros Hr Hb. unfold claims. rewrite omap_app. fold (claims new) (claims later).
      rewrite len_app.
      assert (Hb1 : 0 <= executions c1 <= u64_max) by (rewrite Hn; case_match; [done|]; unfold sat_u64; lia).
      rewrite (Hn2 Hr Hb1), Hn. destruct (claims new) as [|? [|??]]; simpl in Hl; [|..|lia].
      * change (len (@nil (SchedulerFence * DurableWorkItem))) with 0. lia.
      * rewrite len_cons. change (len (@nil (SchedulerFence * DurableWorkItem))) with 0.
        pose proof (len_nonneg (claims later)). unfold sat_u64. lia.
  - specialize (IH controller_new d log). destruct (controller_run es controller_new d) as [[os c2] d2].
    destruct IH as (new & E & Hc & _). exists new. by split_and!.
Qed.

End conversations.

(** * The in-memory adapter *)

Record MemoryDurable := mkMemory {
  expected_fence : option SchedulerFence;
  md_work : option DurableWorkItem;
  active : option (list Z);
  terminals : gmap (list Z) (TerminalCommit * CommitReceipt);
  fail_renew : option DurableError;
  fail_claim : option DurableError;
  fail_commit : option DurableError;
  replay_terminal_on_claim : bool;
  commit_calls : Z;
}.

Definition memory_with (f : SchedulerFence) (w : option DurableWorkItem) : MemoryDurable :=
  mkMemory (Some f) w None ∅ None None None false 0.

Definition memory_receipt (w : DurableWorkItem) : CommitReceipt :=
  mkReceipt (str "terminal:" ++ item_request_key w) (str "fake-effect:" ++ item_request_key w).

Definition memory_renew (f : SchedulerFence) (d : MemoryDurable)
  : result DurableError unit * MemoryDurable :=
  match fail_renew d with
  | Some e => (Err e, mkMemory (expected_fence d) (md_work d) (active d) (terminals d) None
                        (fail_claim d) (fail_commit d) (replay_terminal_on_claim d) (commit_calls d))
  | None => (if negb (bool_decide (expected_fence d = Some f)) then Err FenceStale else Ok tt, d)
  end.

Definition set_active (d : MemoryDurable) (a : option (list Z)) : MemoryDurable :=
  mkMemory (expected_fence d) (md_work d) a (terminals d) (fail_renew d) (fail_claim d)
    (fail_commit d) (replay_terminal_on_claim d) (commit_calls d).

Definition memory_claim (f : SchedulerFence) (d : MemoryDurable)
  : result DurableError ClaimOutcome * MemoryDurable :=
  match fail_claim d with
  | Some e => (Err e, mkMemory (expected_fence d) (md_work d) (active d) (terminals d)
                        (fail_renew d) None (fail_commit d) (replay_terminal_on_claim d)
                        (commit_calls d))
  | None =>
      match md_work d with
      | None => (Ok Empty, d)
      | Some w =>
          match terminals d !! item_request_key w with
          | Some (_, r) => (Ok (if replay_terminal_on_claim d then TerminalReplay r else Empty), d)
          | None =>
              if bool_decide (active d = Some (item_work_id w)) then
                (Ok (ClaimReconciliation (mkReconciliation (item_work_id w) ClaimedOutcomeUnknown)), d)
              else (Ok (Claimed w), set_active d (Some (item_work_id w)))
          end
      end
  end.

Definition memory_commit (f : SchedulerFence) (t : TerminalCommit) (d : MemoryDurable)
  : result DurableError CommitOutcome * MemoryDurable :=
  let d := mkMemory (expected_fence d) (md_work d) (active d) (terminals d) (fail_renew d)
             (fail_claim d) (fail_commit d) (replay_terminal_on_claim d) (commit_calls d + 1) in
  match fail_commit d with
  | Some e => (Err e, mkMemory (expected_fence d) (md_work d) (active d) (terminals d)
                        (fail_renew d) (fail_claim d) None (replay_terminal_on_claim d)
                        (commit_calls d))
  | None =>
      match terminals d !! tc_request_key t with
      | Some (recorded, r) =>
          (if bool_decide (recorded = t) then Ok (CommitReplayed r) else Err InvariantViolation, d)
      | None =>
          match md_work d with
          | None => (Err InvariantViolation, d)
          | Some w =>
              if negb (bool_decide (active d = Some (tc_work_id t)))
                 || negb (bool_decide (item_request_key w = tc_request_key t))
              then (Err InvariantViolation, d)
              else
                let r := memory_receipt w in
                (Ok (Committed r),
                 mkMemory (expected_fence d) (md_work d) None
                   (<[tc_request_key t := (t, r)]> (terminals d)) (fail_renew d) (fail_claim d)
                   (fail_commit d) (replay_terminal_on_claim d) (commit_calls d))
          end
      end
  end.

#[export] Instance MemoryDurable_scheduler : DurableScheduler MemoryDurable := {
  renew_fence := memory_renew;
  claim_one := memory_claim;
  commit_terminal := memory_commit;
}.

(** The one item counts as claimed while it is active or terminal. *)
Definition memory_claimed (d : MemoryDurable) : bool :=
  match md_work d with
  | None => false
  | Some w =>
      bool_decide (active d = Some (item_work_id w))
      || bool_decide (is_Some (terminals d !! item_request_key w))
  end.

Lemma memory_renew_claimed f d : memory_claimed (memory_renew f d).2 = memory_claimed d.
Proof. unfold memory_renew. by destruct (fail_renew d). Qed.

Lemma memory_commit_claimed f t d :
  memory_claimed d = true -> memory_claimed (memory_commit f t d).2 = true.
Proof.
  unfold memory_commit. cbn [fail_commit terminals md_work active].
  destruct (fail_commit d); [done|].
  destruct (terminals d !! tc_request_key t) as [[? ?]|] eqn:Et; [done|].
  unfold memory_claimed. destruct (md_work d) as [w|] eqn:Ew; [|done].
  destruct (negb _ || negb _) eqn:Ec; [by cbn [snd md_work active terminals]; rewrite ?Ew|].
  bool_prop. destruct Ec as [_ E]. cbn [snd md_work active terminals]. rewrite ?Ew, E, lookup_insert_eq.
  intros _. apply orb_true_iff. right. apply bool_decide_eq_true_2. by eexists.
Qed.

Lemma memory_claim_claimed f d :
  match memory_claim f d with
  | (Ok (Claimed w), d') => memory_claimed d = false /\ memory_claimed d' = true
  | (_, d') => memory_claimed d' = memory_claimed d
  end.
Proof.
  unfold memory_claim. destruct (fail_claim d); [done|].
  destruct (md_work d) as [w|] eqn:Ew; [|done].
  destruct (terminals d !! item_request_key w) as [[? ?]|] eqn:Et; [by destruct (replay_terminal_on_claim d)|].
  case_bool_decide as Ea; [done|]. unfold memory_claimed. simpl. rewrite Ew, Et.
  split; [|by rewrite bool_decide_eq_true_2].
  rewrite bool_decide_eq_false_2 by done. by rewrite bool_decide_eq_false_2 by (by intros [? ?]).
Qed.

(** The in-memory adapter answers a new claim at most once. *)
Lemma memory_tick_claims f c d log :
  let '(_, _, d') := controller_tick f c ((d, log) : Recorded MemoryDurable) in
  exists new, d'.2 = log ++ new /\
    (length (claims new) + (if memory_claimed d then 1 else 0) =
     (if memory_claimed d'.1 then 1 else 0))%nat.
Proof.
  unfold controller_tick.
  cbn [renew_fence claim_one commit_terminal Recorded_scheduler MemoryDurable_scheduler recorded fst snd].
  pose proof (memory_renew_claimed f d) as Hr.
  destruct (memory_renew f d) as [[[]|e] d1]; cbn [fst snd] in *.
  2: { eexists [_]. by rewrite Hr. }
  pose proof (memory_claim_claimed f d1) as Hc. destruct (memory_claim f d1) as [r d2].
  destruct r as [[|w|r|r]|e]; cbn [fst snd];
    try (eexists [_; _]; rewrite <- app_assoc; split; [done|]; by rewrite Hc, Hr).
  destruct Hc as [H1 H2]. rewrite Hr in H1. cbn [execute].
  match goal with |- context [memory_commit f ?t d2] =>
    pose proof (memory_commit_claimed f t d2 H2) as Hm; destruct (memory_commit f t d2) as [r d3] end.
  destruct r as [[r|r]|e]; cbn [fst snd] in *;
    (eexists [_; _; _]; rewrite <- !app_assoc; split; [done|]; by rewrite H1, Hm).
Qed.

Lemma memory_claims_once es : forall c d log,
  let '(_, _, d') := controller_run es c ((d, log) : Recorded MemoryDurable) in
  exists new, d'.2 = log ++ new /\ (length (claims new) <= if memory_claimed d then 0 else 1)%nat.
Proof.
  induction es as [|[f|] es IH]; intros c d log; cbn [controller_run].
  - exists []. rewrite app_nil_r. split; [done|]. simpl. lia.
  - pose proof (memory_tick_claims f c d log) as Ht.
    destruct (controller_tick f c _) as [[o c1] [d1 log1]]. destruct Ht as (new & E & Hn).
    cbn [fst snd] in *. subst log1. specialize (IH c1 d1 (log ++ new)).
    destruct (controller_run es c1 _) as [[os c2] d2]. destruct IH as (later & E & Hl).
    exists (new ++ later). rewrite app_assoc. split; [done|]. unfold claims in *.
    rewrite omap_app, length_app. destruct (memory_claimed d), (memory_claimed d1); lia.
  - apply IH.
Qed.

(** * Properties *)

(** C6: an item is executed exactly when the adapter answers it as a new claim.
    Over any adapter, and any sequence of ticks (under any fences) and controller
    restarts, whatever the adapter answers (stale fences, transient failures,
    failed commits): a claim is only ever made right after the renewal of its
    fence was granted, and a terminal is only ever sent right after the adapter
    answered its work as a new claim, under the same fence and with the work's
    own identities, end and effect key; the terminals sent are those of the items
    claimed, one for each and in the same order, so that work the adapter answers
    as new at most once is executed at most once; each tick's outcome is what its
    last answer means, which is never a granted renewal nor a new claim; each tick renews its own
    fence, once; and the counter of a process that is not restarted counts the
    claims, saturating.  Recording the calls changes nothing of the run. *)
Theorem executed_as_claimed D `{DurableScheduler D} es c (d : D) :
  let '(outcomes, c', d') := controller_run es c d in
  exists log, controller_run es c ((d, []) : Recorded D) = (outcomes, c', (d', log)) /\
    (forall before x after, log = before ++ x :: after -> in_order (last before) x) /\
    Forall2 (fun a b => a.1 = b.1 /\ terminal_of a.2 b.2) (claims log) (commits log) /\
    (NoDup ((fun a => item_work_id a.2) <$> claims log) ->
     NoDup ((fun b => tc_work_id b.2) <$> commits log)) /\
    renewals log = ticks es /\ Some <$> outcomes = verdict <$> last_calls log /\
    (restarts es = false -> 0 <= executions c <= u64_max ->
     executions c' = Z.min u64_max (executions c + len (claims log))).
Proof.
  pose proof (run_recorded es c d []) as Hr. destruct (controller_run es c d) as [[os c'] d'].
  destruct Hr as (log & E & [_ Ho Hc Hf Hv] & Hn). exists log. split_and!; [done..| |done|done|done].
  intros Hnd.
  assert ((fun b => tc_work_id b.2) <$> commits log = (fun a => item_work_id a.2) <$> claims log) as ->;
    [|done]. clear -Hc. induction Hc as [|a b la lb (_ & Ht & _) _ IH]; [done|].
  rewrite !fmap_cons, IH. f_equal. apply Ht.
Qed.

(** A tick whose commit fails, a restart, and two more ticks. *)
Definition demo_memory : MemoryDurable :=
  mkMemory (Some (mkFence (str "generation-a") (str "holder-a") 7))
    (Some (mkItem (str "work-a") (str "request-a") Succeed)) None ∅ None None
    (Some TemporarilyUnavailable) false 0.

Definition demo_ticks : list ControllerEvent :=
  [ETick (mkFence (str "generation-a") (str "holder-a") 7); ERestart;
   ETick (mkFence (str "generation-a") (str "holder-a") 7);
   ETick (mkFence (str "generation-b") (str "holder-a") 7)].

Example demo_run :
  (controller_run demo_ticks controller_new demo_memory).1.1 =
  [Ok (RetryRequired Commit);
   Ok (ReconciliationRequired (mkReconciliation (str "work-a") ClaimedOutcomeUnknown));
   Ok (FenceRejected RenewFence)].
Proof. vm_compute. reflexivity. Qed.

Abbreviation demo_log :=
  (controller_run demo_ticks controller_new ((demo_memory, []) : Recorded MemoryDurable)).2.2.

Lemma executed_as_claimed_witness :
  length demo_log = 6%nat /\ NoDup ((fun b => tc_work_id b.2) <$> commits demo_log).
Proof.
  split; [vm_compute; reflexivity|].
  pose proof (executed_as_claimed MemoryDurable demo_ticks controller_new demo_memory) as H.
  destruct (controller_run demo_ticks controller_new demo_memory) as [[o c'] d'].
  destruct H as (log & E & _ & _ & Hnd & _). rewrite E. apply Hnd.
  assert (log = demo_log) as -> by (by rewrite E).
  vm_compute. apply NoDup_singleton.
Defined.
