(* ===== verification/Conformance.v ===== *)
(** The scheduler conformance suite: [verify_scheduler_core] of
    [automonique-core/src/scheduler_conformance.rs].

    The suite is generic in the subject, so it is a program over the class
    [SchedulerCore], in a state-and-error monad whose state is the subject and
    whose error is the violated case (the prose of a violation is not
    modelled) or the panic of a subject's method.  [Refines] is the promise of one subject to behave as another; it
    is what makes a verdict transfer, and the durable scheduler, through the
    adapter of [automonique-store/tests/durable_scheduler.rs], keeps it. *)

From S2P Require Import Prelude Text Fence Scheduler DurableStore.

Definition CASE_LIMIT_IS_BOUNDED : string := "the_declared_parallelism_limit_is_bounded".
Definition CASE_PARALLELISM_NEVER_EXCEEDS_THE_LIMIT : string :=
  "parallelism_never_exceeds_the_declared_limit".
Definition CASE_ONE_ITEM_PER_SCOPE : string := "one_scope_runs_one_item_at_a_time".
Definition CASE_SCOPE_ADMITS_IN_SUBMISSION_ORDER : string := "a_scope_admits_in_submission_order".
Definition CASE_PAUSE_STARTS_NOTHING_NEW : string := "a_paused_scope_starts_nothing_new".
Definition CASE_PAUSE_DOES_NOT_STOP_RUNNING_WORK : string := "a_pause_does_not_stop_running_work".
Definition CASE_RESUME_LOSES_AND_DUPLICATES_NOTHING : string :=
  "resume_loses_no_work_and_duplicates_none".
Definition CASE_CANCELLED_QUEUED_WORK_NEVER_RUNS : string := "cancelled_queued_work_never_runs".
Definition CASE_CANCELLED_RUNNING_WORK_KEEPS_ITS_SLOT : string :=
  "cancelled_running_work_keeps_its_slot_until_terminal".
Definition CASE_A_STALE_FENCE_STARTS_NOTHING : string := "a_stale_fence_starts_nothing".

Definition CASES : list string :=
  [CASE_LIMIT_IS_BOUNDED; CASE_PARALLELISM_NEVER_EXCEEDS_THE_LIMIT; CASE_ONE_ITEM_PER_SCOPE;
   CASE_SCOPE_ADMITS_IN_SUBMISSION_ORDER; CASE_PAUSE_STARTS_NOTHING_NEW;
   CASE_PAUSE_DOES_NOT_STOP_RUNNING_WORK; CASE_RESUME_LOSES_AND_DUPLICATES_NOTHING;
   CASE_CANCELLED_QUEUED_WORK_NEVER_RUNS; CASE_CANCELLED_RUNNING_WORK_KEEPS_ITS_SLOT;
   CASE_A_STALE_FENCE_STARTS_NOTHING].

Record SchedulerViolation := mkViolation { violated_case : string }.

(** * The monad of the suite *)

(** How a case stops early: [return Err(violation)], or a method of the subject
    panicked and the suite unwinds. *)
Inductive Stopped := Violated (v : SchedulerViolation) | Panicked.

Definition violated (case : string) : Stopped := Violated (mkViolation case).

Definition Suite (S A : Type) : Type := S -> result Stopped (A * S).

Definition sret {S A} (a : A) : Suite S A := fun s => Ok (a, s).
Definition sbind {S A B} (m : Suite S A) (k : A -> Suite S B) : Suite S B := fun s =>
  match m s with Ok (a, s) => k a s | Err v => Err v end.

Declare Scope suite_scope.
Delimit Scope suite_scope with suite.
Notation "x <- m ;; k" := (sbind m (fun x => k))
  (at level 100, m at next level, right associativity) : suite_scope.
Notation "m ;; k" := (sbind m (fun _ => k)) (at level 100, right associativity) : suite_scope.
Local Open Scope suite_scope.

Section suite.
Context {S : Type} `{SchedulerCore S}.

Definition require (case : string) (condition : bool) : Suite S unit := fun s =>
  if condition then Ok (tt, s) else Err (violated case).

(** The fence of the subject. *)
Definition held_fence : Suite S SchedulerFence := fun s => Ok (fence_of s, s).

(** A query of the subject ([&self]). *)
Definition ask {A} (f : S -> option A) : Suite S A := fun s =>
  match f s with Some a => Ok (a, s) | None => Err Panicked end.

(** A [&mut self] method without a result. *)
Definition modify (f : S -> option S) : Suite S unit := fun s =>
  match f s with Some s => Ok (tt, s) | None => Err Panicked end.

(** A [&mut self] method, with [map_err] into a violation of the case. *)
Definition attempt {A} (case : string) (f : S -> option (result SchedulerRefusal A * S))
  : Suite S A := fun s =>
  match f s with
  | Some (Ok a, s) => Ok (a, s)
  | Some (Err _, _) => Err (violated case)
  | None => Err Panicked
  end.

Definition suite_work_id (case : string) (value : list Z) : Suite S (list Z) := fun s =>
  match work_id_new value with Ok id => Ok (id, s) | Err _ => Err (violated case) end.
Definition suite_scope_id (case : string) (value : list Z) : Suite S (list Z) := fun s =>
  match scope_id_new value with Ok id => Ok (id, s) | Err _ => Err (violated case) end.

Definition suite_submit (case : string) (work scope : list Z) : Suite S unit :=
  id <- suite_work_id case work;;
  sc <- suite_scope_id case scope;;
  attempt case (submit (mkWork id sc)).

Definition suite_tick (case : string) (f : SchedulerFence) : Suite S (list (list Z)) :=
  attempt case (tick f).

(** The loop with the [seen] set. *)
Fixpoint duplicate_free (seen : gset (list Z)) (started : list (list Z)) : bool :=
  match started with
  | [] => true
  | id :: started =>
      if bool_decide (id ∈ seen) then false else duplicate_free ({[id]} ∪ seen) started
  end.

Definition no_duplicate_starts (case : string) (started : list (list Z)) : Suite S unit :=
  require case (duplicate_free ∅ started).

(** [for x in l { body(x)?; }]. *)
Fixpoint for_each {X} (l : list X) (body : X -> Suite S unit) : Suite S unit :=
  match l with
  | [] => sret tt
  | x :: l => body x;; for_each l body
  end.

(** [0..n]. *)
Definition range (n : Z) : list Z := seqZ 0 n.

(** [started[0]], below a check that the length is one. *)
Definition first_of (l : list (list Z)) : list Z := default [] (head l).

Definition parallelism_is_bounded (limit : Z) : Suite S unit :=
  let CASE := CASE_PARALLELISM_NEVER_EXCEEDS_THE_LIMIT in
  fence <- held_fence;;
  for_each (range (limit + 2)) (fun index =>
    suite_submit CASE (str "work-" ++ dec index) (str "scope-" ++ dec index));;
  started <- attempt CASE (tick fence);;
  require CASE (len started =? limit);;
  now <- ask running;;
  require CASE (len now =? limit);;
  again <- attempt CASE (tick fence);;
  require CASE (bool_decide (again = []));;
  match started with
  | [] => fun _ => Err (violated CASE)
  | first :: _ =>
      attempt CASE (complete first);;
      third <- attempt CASE (tick fence);;
      now <- ask running;;
      require CASE ((len third =? 1) && (len now =? limit));;
      no_duplicate_starts CASE (started ++ again ++ third)
  end.

Definition serial_ids : list (list Z) := [str "serial-1"; str "serial-2"; str "serial-3"].

(** The [for] over the remaining identities, with [order] accumulated. *)
Fixpoint serialize_rest (fence : SchedulerFence) (expected : list (list Z))
  (order : list (list Z)) : Suite S (list (list Z)) :=
  let CASE := CASE_ONE_ITEM_PER_SCOPE in
  match expected with
  | [] => sret order
  | e :: expected =>
      match last order with
      | None => fun _ => Err (violated CASE)
      | Some run =>
          attempt CASE (complete run);;
          next <- suite_tick CASE fence;;
          require CASE (len next =? 1);;
          require CASE_SCOPE_ADMITS_IN_SUBMISSION_ORDER (bool_decide (first_of next = e));;
          serialize_rest fence expected (order ++ [first_of next])
      end
  end.

Definition scopes_serialize : Suite S unit :=
  let CASE := CASE_ONE_ITEM_PER_SCOPE in
  let ORDER := CASE_SCOPE_ADMITS_IN_SUBMISSION_ORDER in
  fence <- held_fence;;
  for_each serial_ids (fun id => suite_submit CASE id (str "one-scope"));;
  started <- suite_tick CASE fence;;
  require CASE (len started =? 1);;
  require ORDER (bool_decide (first_of started = str "serial-1"));;
  order <- serialize_rest fence (tail serial_ids) [first_of started];;
  no_duplicate_starts CASE order.

Definition pause_and_resume : Suite S unit :=
  let CASE := CASE_PAUSE_STARTS_NOTHING_NEW in
  let RUNNING := CASE_PAUSE_DOES_NOT_STOP_RUNNING_WORK in
  let RESUME := CASE_RESUME_LOSES_AND_DUPLICATES_NOTHING in
  fence <- held_fence;;
  sc <- suite_scope_id CASE (str "paused-scope");;
  for_each [str "paused-1"; str "paused-2"; str "paused-3"]
    (fun id => suite_submit CASE id (str "paused-scope"));;
  started <- suite_tick CASE fence;;
  require CASE (len started =? 1);;
  let run := first_of started in
  modify (pause sc);;
  st <- ask (state_of run);;
  require RUNNING (bool_decide (st = Some Running));;
  now <- ask running;;
  require RUNNING (bool_decide (run ∈ now));;
  attempt RUNNING (complete run);;
  while_paused <- suite_tick CASE fence;;
  require CASE (bool_decide (while_paused = []));;
  modify (pause sc);;
  still_paused <- suite_tick CASE fence;;
  require CASE (bool_decide (still_paused = []));;
  modify (resume sc);;
  after <- suite_tick RESUME fence;;
  require RESUME ((len after =? 1) && bool_decide (first_of after = str "paused-2"));;
  third <- suite_work_id RESUME (str "paused-3");;
  st <- ask (state_of third);;
  require RESUME (bool_decide (st = Some Queued));;
  no_duplicate_starts RESUME (started ++ while_paused ++ still_paused ++ after).

Definition cancellation (limit : Z) : Suite S unit :=
  let QUEUED := CASE_CANCELLED_QUEUED_WORK_NEVER_RUNS in
  let RUNNING := CASE_CANCELLED_RUNNING_WORK_KEEPS_ITS_SLOT in
  fence <- held_fence;;
  suite_submit QUEUED (str "cancel-running") (str "cancel-scope");;
  suite_submit QUEUED (str "cancel-queued") (str "cancel-scope");;
  for_each (range limit) (fun index =>
    suite_submit RUNNING (str "filler-" ++ dec index) (str "filler-scope-" ++ dec index));;
  started <- suite_tick QUEUED fence;;
  now <- ask running;;
  require RUNNING (len now =? limit);;
  queued <- suite_work_id QUEUED (str "cancel-queued");;
  disposition <- attempt QUEUED (cancel queued);;
  require QUEUED (bool_decide (disposition = NeverStarted));;
  st <- ask (state_of queued);;
  require QUEUED (bool_decide (st = Some Cancelled));;
  run <- suite_work_id RUNNING (str "cancel-running");;
  disposition <- attempt RUNNING (cancel run);;
  require RUNNING (bool_decide (disposition = CancelStopRequested));;
  now <- ask running;;
  require RUNNING (bool_decide (run ∈ now));;
  while_stopping <- suite_tick RUNNING fence;;
  require RUNNING (bool_decide (while_stopping = []));;
  terminal <- attempt RUNNING (complete run);;
  require RUNNING (bool_decide (terminal = Cancelled));;
  after <- suite_tick RUNNING fence;;
  require RUNNING (negb (bool_decide (queued ∈ after)));;
  no_duplicate_starts RUNNING (started ++ while_stopping ++ after).

Definition stale_fence : Suite S unit :=
  let CASE := CASE_A_STALE_FENCE_STARTS_NOTHING in
  held <- held_fence;;
  suite_submit CASE (str "fenced-1") (str "fenced-scope");;
  match fence_new (generation_id held) (holder_id held) (sat_u64 (epoch held + 1)) with
  | Err _ => fun _ => Err (violated CASE)
  | Ok stale => fun s =>
      match tick stale s with
      | None => Err Panicked
      | Some (Ok _, _) => Err (violated CASE)
      | Some (Err refusal, s) =>
          (require CASE (bool_decide (refusal = StaleFence));;
           now <- ask running;;
           require CASE (bool_decide (now = []))) s
      end
  end.

(** Every case runs on a fresh subject; the report lists the cases passed. *)
Definition verify_scheduler_core (new_subject : S) : result Stopped (list string) :=
  let limit := parallelism_limit new_subject in
  let fresh (m : Suite S unit) : result Stopped unit := fst <$> m new_subject in
  _ ← fresh (require CASE_LIMIT_IS_BOUNDED
               ((MIN_PARALLELISM_LIMIT <=? limit) && (limit <=? MAX_PARALLELISM_LIMIT)));
  _ ← fresh (parallelism_is_bounded limit);
  _ ← fresh scopes_serialize;
  _ ← fresh pause_and_resume;
  _ ← fresh (cancellation limit);
  _ ← fresh stale_fence;
  Ok CASES.

End suite.

(** [ReferenceScheduler::fixture]. *)
Definition fixture : ReferenceScheduler := reference_new MIN_PARALLELISM_LIMIT demo_fence.

Example fixture_conforms : verify_scheduler_core fixture = Ok CASES.
Proof. vm_compute. reflexivity. Qed.

Example eight_slots_conform : verify_scheduler_core (reference_new 8 demo_fence) = Ok CASES.
Proof. vm_compute. reflexivity. Qed.

(** The suite's own tests name both ends of the limit. *)
Example limits_refused :
  verify_scheduler_core (reference_new 1 demo_fence) = Err (violated CASE_LIMIT_IS_BOUNDED) /\
  verify_scheduler_core (reference_new 1025 demo_fence) = Err (violated CASE_LIMIT_IS_BOUNDED).
Proof. vm_compute. done. Qed.

(** At the last epoch the suite's stale fence is the held one, because its epoch
    saturates: the conforming reference scheduler is reported as violating the
    stale-fence case. *)
Theorem suite_rejects_at_last_epoch :
  verify_scheduler_core (reference_new 2 (mkFence (str "generation-1") (str "holder-1") u64_max))
  = Err (violated CASE_A_STALE_FENCE_STARTS_NOTHING).
Proof. vm_compute. reflexivity. Qed.

(** * Transfer of verdicts *)

(** A call of one subject and a call of another do not panic, answer alike and
    leave related subjects. *)
Definition alike {S T A} (R : S -> T -> Prop) (x : option (A * S)) (y : option (A * T)) : Prop :=
  match x, y with Some (a, s), Some (b, t) => a = b /\ R s t | _, _ => False end.

Definition both {S T} (R : S -> T -> Prop) (x : option S) (y : option T) : Prop :=
  match x, y with Some s, Some t => R s t | _, _ => False end.

(** Two subjects related by [R] answer alike and stay related.  A tick is only
    promised for fences whose epoch the store can represent. *)
Class Refines {S T} `{SchedulerCore S, SchedulerCore T} (R : S -> T -> Prop) : Prop := {
  rf_limit s t : R s t -> parallelism_limit s = parallelism_limit t;
  rf_fence s t : R s t -> fence_of s = fence_of t /\ epoch (fence_of t) < i64_max;
  rf_submit s t w : R s t -> valid_id (work_id w) -> alike R (submit w s) (submit w t);
  rf_tick s t f : R s t -> epoch f <= i64_max -> alike R (tick f s) (tick f t);
  rf_complete s t id : R s t -> alike R (complete id s) (complete id t);
  rf_pause s t sc : R s t -> both R (pause sc s) (pause sc t);
  rf_resume s t sc : R s t -> both R (resume sc s) (resume sc t);
  rf_cancel s t id : R s t -> alike R (cancel id s) (cancel id t);
  rf_running s t : R s t -> running s = running t /\ is_Some (running t);
  rf_state s t id : R s t -> state_of id s = state_of id t /\ is_Some (state_of id t);
}.

Section transfer.
Context {S T : Type} `{SchedulerCore S, SchedulerCore T} (R : S -> T -> Prop) `{!Refines R}.

Definition related {A} (m : Suite S A) (m' : Suite T A) : Prop :=
  forall s t, R s t ->
    match m s, m' t with
    | Ok (a, s'), Ok (b, t') => a = b /\ R s' t'
    | Err v, Err w => v = w
    | _, _ => False
    end.

Lemma related_bind {A B} (m : Suite S A) m' (k : A -> Suite S B) k' :
  related m m' -> (forall a, related (k a) (k' a)) -> related (sbind m k) (sbind m' k').
Proof.
  intros Hm Hk s t HR. specialize (Hm s t HR). unfold sbind.
  destruct (m s) as [[a s']|v], (m' t) as [[b t']|w]; try done. destruct Hm as [-> Hm].
  by apply Hk.
Qed.

Lemma related_fence {B} (k : SchedulerFence -> Suite S B) k' :
  (forall f, epoch f < i64_max -> related (k f) (k' f)) ->
  related (sbind held_fence k) (sbind held_fence k').
Proof.
  intros Hk s t HR. unfold sbind, held_fence. destruct (rf_fence s t HR) as [-> He]. by apply Hk.
Qed.

Lemma related_ret {A} (a : A) : related (sret a) (sret a).
Proof. by intros s t HR. Qed.

Lemma related_require case b : related (require case b) (require case b).
Proof. intros s t HR. unfold require. by destruct b. Qed.

Lemma related_fail {A} v : related (fun _ => Err v : result _ (A * S)) (fun _ => Err v).
Proof. by intros s t HR. Qed.

Lemma related_ask {A} (f : S -> option A) g :
  (forall s t, R s t -> f s = g t /\ is_Some (g t)) -> related (ask f) (ask g).
Proof. intros Hf s t HR. unfold ask. by destruct (Hf s t HR) as [-> [a ->]]. Qed.

Lemma related_modify f g :
  (forall s t, R s t -> both R (f s) (g t)) -> related (modify f) (modify g).
Proof.
  intros Hf s t HR. specialize (Hf s t HR). unfold modify, both in *.
  by destruct (f s), (g t).
Qed.

Lemma related_attempt {A} case (f : S -> option (result SchedulerRefusal A * S)) g :
  (forall s t, R s t -> alike R (f s) (g t)) -> related (attempt case f) (attempt case g).
Proof.
  intros Hf s t HR. specialize (Hf s t HR). unfold attempt, alike in *.
  destruct (f s) as [[r s']|], (g t) as [[r' t']|]; try done. destruct Hf as [-> Hf].
  by destruct r'.
Qed.

Lemma related_scope_id case v : related (suite_scope_id case v) (suite_scope_id case v).
Proof. intros s t HR. unfold suite_scope_id. by destruct (scope_id_new v). Qed.

Lemma related_work_id case v : related (suite_work_id case v) (suite_work_id case v).
Proof. intros s t HR. unfold suite_work_id. by destruct (work_id_new v). Qed.

Lemma related_valid_id {B} case w (k : list Z -> Suite S B) k' :
  (forall id, valid_id id -> related (k id) (k' id)) ->
  related (sbind (suite_work_id case w) k) (sbind (suite_work_id case w) k').
Proof.
  intros Hk s t HR. unfold sbind, suite_work_id.
  destruct (work_id_new w) as [id|] eqn:E; [|done]. apply work_id_new_Ok in E as [-> Hv].
  by apply Hk.
Qed.

Lemma related_submit case w sc : related (suite_submit case w sc) (suite_submit case w sc).
Proof.
  unfold suite_submit. apply related_valid_id. intros id Hv.
  apply related_bind; [apply related_scope_id|]. intros scp.
  apply related_attempt. intros s t HR. by apply rf_submit.
Qed.

Lemma related_tick case f :
  epoch f < i64_max -> related (attempt case (tick f)) (attempt case (tick f)).
Proof. intros He. apply related_attempt. intros s t HR. apply rf_tick; [done|lia]. Qed.

Lemma related_for_each {X} (l : list X) body body' :
  (forall x, related (body x) (body' x)) -> related (for_each l body) (for_each l body').
Proof.
  intros Hb. induction l as [|x l IH]; simpl; [apply related_ret|]. by apply related_bind.
Qed.

Lemma related_complete case id : related (attempt case (complete id)) (attempt case (complete id)).
Proof. apply related_attempt. intros. by apply rf_complete. Qed.
Lemma related_cancel case id : related (attempt case (cancel id)) (attempt case (cancel id)).
Proof. apply related_attempt. intros. by apply rf_cancel. Qed.
Lemma related_running : related (ask running) (ask running).
Proof. apply related_ask, rf_running. Qed.
Lemma related_state id : related (ask (state_of id)) (ask (state_of id)).
Proof. apply related_ask. intros. by apply rf_state. Qed.
Lemma related_pause sc : related (modify (pause sc)) (modify (pause sc)).
Proof. apply related_modify. intros. by apply rf_pause. Qed.
Lemma related_resume sc : related (modify (resume sc)) (modify (resume sc)).
Proof. apply related_modify. intros. by apply rf_resume. Qed.

Create HintDb suite discriminated.
#[local] Hint Resolve related_fence related_bind related_ret related_require related_fail
  related_work_id related_scope_id related_submit related_tick related_for_each related_complete
  related_cancel related_running related_state related_pause related_resume : suite.

Ltac related_tac :=
  repeat first
    [ match goal with |- forall _, _ => intro end
    | apply related_submit
    | simple apply related_fence | simple apply related_bind | simple apply related_for_each
    | solve [auto with suite]
    | progress cbv zeta
    | match goal with |- related (match ?x with _ => _ end) _ => destruct x end ].

Lemma related_serialize_rest f ids order :
  epoch f < i64_max -> related (serialize_rest f ids order) (serialize_rest f ids order).
Proof.
  intros He. revert order; induction ids as [|e ids IH]; intros order; cbn [serialize_rest];
    unfold suite_tick; related_tac.
Qed.

Lemma related_stale_fence : related stale_fence stale_fence.
Proof.
  unfold stale_fence. apply related_fence. intros f He. apply related_bind; [auto with suite|].
  intros _. assert (Hs : sat_u64 (epoch f + 1) <= i64_max) by mlia.
  destruct (fence_new _ _ _) as [g|] eqn:E; [|auto with suite].
  unfold fence_new in E. inv_result E. intros s t HR.
  pose proof (rf_tick s t (mkFence (generation_id f) (holder_id f) (sat_u64 (epoch f + 1))) HR Hs)
    as Ht. unfold alike in Ht.
  destruct (tick _ s) as [[r s']|], (tick _ t) as [[r' t']|]; try done. destruct Ht as [<- E2].
  destruct r as [started|refusal]; [done|].
  assert (Hend : related
    (require CASE_A_STALE_FENCE_STARTS_NOTHING (bool_decide (refusal = StaleFence));;
     now <- ask running;;
     require CASE_A_STALE_FENCE_STARTS_NOTHING (bool_decide (now = [])))
    (require CASE_A_STALE_FENCE_STARTS_NOTHING (bool_decide (refusal = StaleFence));;
     now <- ask running;;
     require CASE_A_STALE_FENCE_STARTS_NOTHING (bool_decide (now = [])))) by related_tac.
  by apply Hend.
Qed.

Lemma related_cases :
  (forall l, related (parallelism_is_bounded l) (parallelism_is_bounded l)) /\
  related scopes_serialize scopes_serialize /\ related pause_and_resume pause_and_resume /\
  (forall l, related (cancellation l) (cancellation l)) /\ related stale_fence stale_fence.
Proof.
  split_and!; [..|apply related_stale_fence].
  - unfold parallelism_is_bounded, no_duplicate_starts. related_tac.
  - unfold scopes_serialize, no_duplicate_starts, suite_tick. related_tac.
    by apply related_serialize_rest.
  - unfold pause_and_resume, no_duplicate_starts, suite_tick. related_tac.
  - unfold cancellation, no_duplicate_starts, suite_tick. related_tac.
Qed.

(** Related fresh subjects get the same verdict. *)
Lemma verify_transfer s t : R s t -> verify_scheduler_core s = verify_scheduler_core t.
Proof.
  intros HR. unfold verify_scheduler_core. rewrite (rf_limit s t HR).
  destruct related_cases as (H1 & H2 & H3 & H4 & H5).
  assert (Hf : forall (m : Suite S unit) m', related m m' ->
    (fst <$> m s : result Stopped unit) = fst <$> m' t).
  { intros m m' Hm. specialize (Hm s t HR).
    destruct (m s) as [[a s']|v], (m' t) as [[b t']|w]; try done; [by destruct Hm as [-> _]|].
    cbn. by rewrite Hm. }
  rewrite (Hf _ _ (related_require _ _)), (Hf _ _ (H1 _)), (Hf _ _ H2), (Hf _ _ H3),
    (Hf _ _ (H4 _)), (Hf _ _ H5). done.
Qed.

End transfer.
