(* ===== verification/Conforming.v ===== *)
(** Who passes the conformance suite.

    The reference scheduler passes [verify_scheduler_core] for every limit the
    suite admits and every fence below the last epoch; through the refinement
    of [DurableStore] so does the durable scheduler, behind the adapter of
    [automonique-store/tests/durable_scheduler.rs]. *)

From S2P Require Import Prelude Text Fence Scheduler DurableStore Conformance.

(** * The cases of constant size

    They never fill two slots, so they can be evaluated on the fixture and
    moved to any other limit and fence. *)

Section move.
Context (l : Z) (f : SchedulerFence) (Hl : MIN_PARALLELISM_LIMIT <= l).

Definition move (s : ReferenceScheduler) : ReferenceScheduler :=
  mkReference l f (order s) (states s) (paused s).

(** Programs that read neither the limit nor the fence. *)
Definition natural {A} (m : Suite ReferenceScheduler A) : Prop :=
  forall s a s', m s = Ok (a, s') -> m (move s) = Ok (a, move s').

Lemma natural_require case b : natural (require case b).
Proof. intros s a s'. unfold require. destruct b; naive_solver. Qed.

Lemma natural_ask_running : natural (ask running).
Proof. intros s a s' [= <- <-]. done. Qed.

Lemma natural_ask_state id : natural (ask (state_of id)).
Proof. intros s a s' [= <- <-]. done. Qed.

Lemma natural_pause sc : natural (modify (pause sc)).
Proof. intros s a s' [= <- <-]. done. Qed.

Lemma natural_resume sc : natural (modify (resume sc)).
Proof. intros s a s' [= <- <-]. done. Qed.

Lemma natural_complete case id : natural (attempt case (complete id)).
Proof.
  intros s a s'. unfold attempt. simpl. unfold reference_complete. simpl.
  destruct (states s !! id) as [[]|]; naive_solver.
Qed.

Lemma natural_work_id case v : natural (suite_work_id case v).
Proof. intros s a s'. unfold suite_work_id. destruct (work_id_new v); naive_solver. Qed.

Lemma natural_scope_id case v : natural (suite_scope_id case v).
Proof. intros s a s'. unfold suite_scope_id. destruct (scope_id_new v); naive_solver. Qed.

Lemma natural_submit case w sc : natural (suite_submit case w sc).
Proof.
  intros s a s'. unfold suite_submit, sbind, suite_work_id, suite_scope_id, attempt.
  destruct (work_id_new w); [|done]. destruct (scope_id_new sc); [|done]. simpl.
  unfold reference_submit. simpl. destruct (states s !! _); naive_solver.
Qed.

Lemma natural_for_each {X} (xs : list X) body :
  (forall x, natural (body x)) -> natural (for_each xs body).
Proof.
  intros Hb. induction xs as [|x xs IH]; simpl; [intros s a s' [= <- <-]; done|].
  intros s a s'. unfold sbind. destruct (body x s) as [[[] s1]|] eqn:E; [|done].
  rewrite (Hb _ _ _ _ E). apply IH.
Qed.

Lemma occupied_move s : occupied (move s) = occupied s.
Proof. done. Qed.

Lemma tick_loop_occupied rest s started s' started' :
  tick_loop rest s started = (s', started') -> occupied s <= occupied s'.
Proof.
  revert s started; induction rest as [|q rest IH]; intros s started; simpl.
  { intros [= -> _]. lia. }
  case_match; [intros [= -> _]; lia|]. destruct (skips s q) eqn:E; [apply IH|].
  intros Ht%IH. destruct (start_ticked_one s q E) as (_ & _ & _ & Ho). lia.
Qed.

(** A pass that ends below both limits is the same pass under either. *)
Lemma tick_loop_move rest s started s' started' :
  tick_loop rest s started = (s', started') -> occupied s' < limit s -> limit s <= l ->
  tick_loop rest (move s) started = (move s', started').
Proof.
  revert s started; induction rest as [|q rest IH]; intros s started; simpl.
  { by intros [= -> ->]. }
  intros Ht Hlt Hle. rewrite occupied_move.
  destruct (Z.leb_spec (limit s) (occupied s)).
  { simplify_eq. lia. }
  assert (skips (move s) q = skips s q) as -> by done.
  assert (occupied s <= occupied s').
  { destruct (skips s q) eqn:E; apply tick_loop_occupied in Ht; [done|].
    destruct (start_ticked_one s q E) as (_ & _ & _ & Ho). lia. }
  destruct (Z.leb_spec l (occupied s)); [lia|].
  destruct (skips s q); [by apply IH|by apply (IH (start q s))].
Qed.

Lemma move_tick case g s started s' :
  attempt case (tick g) s = Ok (started, s') -> g = fence s -> occupied s' < limit s ->
  limit s = MIN_PARALLELISM_LIMIT -> attempt case (tick f) (move s) = Ok (started, move s').
Proof.
  unfold attempt. simpl. unfold reference_tick. simpl. intros Ht -> Hlt Hm.
  rewrite !bool_decide_eq_true_2 in * by done. cbn [negb] in *.
  destruct (tick_loop (order s) s []) as [s1 st1] eqn:E. simplify_eq.
  rewrite (tick_loop_move _ _ _ _ _ E); [done..|lia].
Qed.

(** A step of the fixture, kept as a term: only its answer is evaluated. *)
Definition answer {A} (m : Suite ReferenceScheduler A) (s : ReferenceScheduler) : option A :=
  match m s with Ok (a, _) => Some a | Err _ => None end.
Definition after {A} (m : Suite ReferenceScheduler A) (s : ReferenceScheduler) : ReferenceScheduler :=
  match m s with Ok (_, s') => s' | Err _ => s end.

Lemma answer_after {A} (m : Suite ReferenceScheduler A) s a :
  answer m s = Some a -> m s = Ok (a, after m s).
Proof. unfold answer, after. destruct (m s) as [[? ?]|]; naive_solver. Qed.

Lemma move_bind {A B} (m : Suite ReferenceScheduler A) (k : A -> Suite ReferenceScheduler B) s a r :
  natural m -> answer m s = Some a -> k a (move (after m s)) = r -> sbind m k (move s) = r.
Proof. intros Hn E%answer_after <-. unfold sbind. by rewrite (Hn _ _ _ E). Qed.

Lemma move_bind_tick {B} case (k : list (list Z) -> Suite ReferenceScheduler B) s started r :
  answer (attempt case (tick demo_fence)) s = Some started ->
  (bool_decide (fence s = demo_fence) && (limit s =? MIN_PARALLELISM_LIMIT)
   && (occupied (after (attempt case (tick demo_fence)) s) <? MIN_PARALLELISM_LIMIT)) = true ->
  k started (move (after (attempt case (tick demo_fence)) s)) = r ->
  sbind (attempt case (tick f)) k (move s) = r.
Proof.
  intros E%answer_after Hc <-. unfold sbind. bool_prop. destruct Hc as [[Hf Hm] Ho].
  by rewrite (move_tick case demo_fence s started _ E) by (done || lia).
Qed.

Lemma move_bind_fence {B} (k : SchedulerFence -> Suite ReferenceScheduler B) s :
  sbind (held_fence) k (move s) = k f (move s).
Proof. done. Qed.

Lemma sbind_assoc {A B C} (m : Suite ReferenceScheduler A) (k : A -> Suite _ B)
  (k' : B -> Suite _ C) s :
  sbind (sbind m k) k' s = sbind m (fun a => sbind (k a) k') s.
Proof. unfold sbind. by destruct (m s) as [[? ?]|]. Qed.

Lemma sbind_ret {A B} (a : A) (k : A -> Suite ReferenceScheduler B) s : sbind (sret a) k s = k a s.
Proof. done. Qed.

Lemma require_true case b (s : ReferenceScheduler) : b = true -> require case b s = Ok (tt, s).
Proof. by intros ->. Qed.

Create HintDb natural discriminated.
Hint Resolve natural_require natural_ask_running natural_ask_state natural_pause natural_resume
  natural_complete natural_work_id natural_scope_id natural_submit natural_for_each : natural.

Ltac move_step :=
  lazymatch goal with
  | |- sbind (held_fence) _ _ = _ => rewrite move_bind_fence
  | |- sbind (attempt _ (tick _)) _ _ = _ =>
      eapply move_bind_tick; [vm_compute; reflexivity|vm_compute; reflexivity|]
  | |- sbind (sbind _ _) _ _ = _ => rewrite sbind_assoc
  | |- sbind (sret _) _ _ = _ => rewrite sbind_ret
  | |- sbind (suite_tick _ _) _ _ = _ => unfold suite_tick at 1
  | |- sbind (serialize_rest _ _ _) _ _ = _ => progress cbn [tail serialize_rest last app]
  | |- sbind _ _ _ = _ =>
      eapply move_bind; [solve [auto with natural]|vm_compute; reflexivity|]
  | |- require _ _ _ = _ => apply require_true; vm_compute; reflexivity
  end; cbv beta zeta.

Definition passes (m : Suite ReferenceScheduler unit) (s : ReferenceScheduler) : Prop :=
  answer m s = Some tt.

Lemma passes_intro (m : Suite ReferenceScheduler unit) s s' : m s = Ok (tt, s') -> passes m s.
Proof. unfold passes, answer. by intros ->. Qed.

Ltac move_case := cbv beta zeta; repeat move_step.

Lemma scopes_serialize_passes : passes scopes_serialize (reference_new l f).
Proof.
  change (reference_new l f) with (move fixture). eapply passes_intro.
  unfold scopes_serialize, suite_tick, no_duplicate_starts, serial_ids. move_case.
Qed.

Lemma pause_and_resume_passes : passes pause_and_resume (reference_new l f).
Proof.
  change (reference_new l f) with (move fixture). eapply passes_intro.
  unfold pause_and_resume, suite_tick, no_duplicate_starts. move_case.
Qed.

End move.

(** * The cases that fill every slot *)

Lemma sbind_Ok {S A B} (m : Suite S A) (k : A -> Suite S B) s a s' :
  m s = Ok (a, s') -> sbind m k s = k a s'.
Proof. unfold sbind. by intros ->. Qed.

Lemma require_Ok {S} case b (s : S) : b = true -> require case b s = Ok (tt, s).
Proof. by intros ->. Qed.

Lemma duplicate_free_NoDup started : forall seen,
  duplicate_free seen started = true <-> NoDup started /\ forall id, id ∈ started -> id ∉ seen.
Proof.
  induction started as [|id started IH]; intros seen; simpl.
  { split; [|done]. split; [apply NoDup_nil_2|by intros ? ?%not_elem_of_nil]. }
  rewrite NoDup_cons. case_bool_decide as Hin.
  - split; [done|]. intros [_ H]. by destruct (H id ltac:(left)).
  - rewrite IH. split.
    + intros [Hnd Hs]. split_and!; [|done|].
      * intros Hi. apply (Hs _ Hi). set_solver.
      * intros x [->|Hx]%elem_of_cons; [done|]. specialize (Hs x Hx). set_solver.
    + intros [[Hn Hnd] Hs]. split; [done|]. intros x Hx.
      assert (x <> id) by (by intros ->). assert (x ∉ seen) by (apply Hs; by right). set_solver.
Qed.

(** What a run of fresh submissions does. *)
Record submitted (ws : list QueuedWork) (s s' : ReferenceScheduler) : Prop := mkSubmitted {
  sb_inv : inv s';
  sb_same : limit s' = limit s /\ fence s' = fence s /\ paused s' = paused s;
  sb_order : order s' = order s ++ ws;
  sb_queued : forall w, w ∈ ws -> states s' !! work_id w = Some Queued;
  sb_other : forall id, id ∉ work_id <$> ws -> states s' !! id = states s !! id;
  sb_occupied : occupied s' = occupied s;
}.

Lemma submitted_refl s : inv s -> submitted [] s s.
Proof. intros Hi. split; try done; [by rewrite app_nil_r|by intros ? ?%not_elem_of_nil]. Qed.

Lemma submitted_trans ws ws' s s' s'' :
  NoDup (work_id <$> ws ++ ws') ->
  submitted ws s s' -> submitted ws' s' s'' -> submitted (ws ++ ws') s s''.
Proof.
  intros Hnd [_ (L1 & F1 & P1) O1 Q1 X1 C1] [I2 (L2 & F2 & P2) O2 Q2 X2 C2].
  rewrite fmap_app, NoDup_app in Hnd. destruct Hnd as (_ & Hd & _).
  split; [done| | | | |congruence].
  - split_and!; congruence.
  - by rewrite O2, O1, app_assoc.
  - intros w [Hw|Hw]%elem_of_app; [|by apply Q2].
    rewrite X2; [by apply Q1|]. apply Hd. by apply list_elem_of_fmap_2.
  - intros id Hid. rewrite fmap_app, elem_of_app in Hid. rewrite X2, X1 by tauto. done.
Qed.

Lemma suite_submit_Ok case id sc s :
  inv s -> valid_id id -> valid_id sc -> states s !! id = None ->
  exists s', suite_submit case id sc s = Ok (tt, s') /\ submitted [mkWork id sc] s s'.
Proof.
  intros Hi Hv Hvs Hn. pose proof (submit_inv (mkWork id sc) s Hi) as Hi'.
  unfold suite_submit, sbind, suite_work_id, suite_scope_id, attempt, scope_id_new.
  rewrite (proj2 (work_id_new_Ok _ _) (conj eq_refl Hv)), (proj2 (validate_id_Ok sc "scope_id") Hvs).
  cbn [mbind result_bind submit ReferenceScheduler_core].
  unfold reference_submit in *. cbn [work_id] in *. rewrite Hn in *.
  eexists. split; [done|]. split; [done..| | |].
  - intros w ->%list_elem_of_singleton. simpl. by rewrite lookup_insert_eq.
  - intros id' Hid. simpl in *. rewrite lookup_insert_ne; [done|]. set_solver.
  - rewrite !occupied_slots. simpl. rewrite slots_insert. unfold slot. rewrite Hn. simpl. lia.
Qed.

Lemma submit_all_Ok case (w : Z -> QueuedWork) xs : forall s,
  inv s -> NoDup (work_id ∘ w <$> xs) ->
  (forall x, x ∈ xs -> valid_id (work_id (w x)) /\ valid_id (scope (w x)) /\
     states s !! work_id (w x) = None) ->
  exists s', for_each xs (fun x => suite_submit case (work_id (w x)) (scope (w x))) s = Ok (tt, s')
    /\ submitted (w <$> xs) s s'.
Proof.
  induction xs as [|x xs IH]; intros s Hi Hnd Hx; simpl.
  { exists s. split; [done|by apply submitted_refl]. }
  rewrite fmap_cons in Hnd. pose proof Hnd as [Hxn Hnd']%NoDup_cons.
  destruct (Hx x) as (Hv & Hvs & Hn); [by left|].
  destruct (suite_submit_Ok case _ _ s Hi Hv Hvs Hn) as (s1 & E1 & H1).
  destruct (IH s1) as (s2 & E2 & H2); [apply H1|done| |].
  { intros y Hy. destruct (Hx y) as (? & ? & Hny); [by right|]. split_and!; [done..|].
    rewrite (sb_other _ _ _ H1); [done|]. simpl. intros E%list_elem_of_singleton.
    apply Hxn. apply list_elem_of_fmap. exists y. by split. }
  exists s2. split; [by rewrite (sbind_Ok _ _ _ _ _ E1)|].
  destruct (w x) as [wi wsc] eqn:E. apply (submitted_trans [mkWork wi wsc] _ s s1); [|done..].
  simpl. rewrite <- list_fmap_compose. simpl in Hnd. rewrite E in Hnd. done.
Qed.

(** A tick that leaves an item queued which is alone in its scope and not
    paused has filled every slot. *)
Lemma tick_fills g s started s' q :
  inv s -> reference_tick g s = (Ok started, s') ->
  q ∈ order s -> states s' !! work_id q = Some Queued -> scope q ∉ paused s ->
  (forall q', q' ∈ order s -> scope q' = scope q -> q' = q) ->
  occupied s' = limit s.
Proof.
  intros Hi Ht Hq Hqd Hp Hu. apply reference_tick_Ok in Ht as (_ & Hi' & Htk & Hloop); [|done].
  destruct Htk as [(Hl' & _ & Ho & Hp') _ _ _ _ _].
  destruct (tick_loop_blocks (order s) s [] s' started) as (_ & _ & [Hb|Hb]); [done..| |].
  - pose proof (inv_bounded _ Hi'). lia.
  - destruct (Hb q Hq) as [?|[?|Hbusy]]; [done|congruence|]. exfalso.
    apply scope_is_busy_true in Hbusy as (q' & Hq' & Hsc & Hsl). rewrite Ho in Hq'.
    rewrite (Hu q' Hq' Hsc) in Hsl. unfold slot in Hsl. by rewrite Hqd in Hsl.
Qed.

(** Fewer starts than items leave an item. *)
Lemma leftover (ws : list QueuedWork) (started : list (list Z)) :
  NoDup (work_id <$> ws) -> len started < len ws ->
  exists w, w ∈ ws /\ work_id w ∉ started.
Proof.
  intros Hnd Hlt.
  destruct (decide (Forall (fun w => work_id w ∈ started) ws)) as [Hall|Hn].
  - exfalso. assert (work_id <$> ws ⊆+ started) as Hsub%submseteq_length.
    { apply NoDup_submseteq; [done|]. intros id (w & -> & Hw)%list_elem_of_fmap.
      by eapply (proj1 (Forall_forall _ _) Hall). }
    rewrite length_fmap in Hsub. unfold len in Hlt. lia.
  - apply not_Forall_Exists in Hn; [|apply _]. apply Exists_exists in Hn as (w & Hw & Hn).
    by exists w.
Qed.

Lemma held_tick s : exists started s', reference_tick (fence s) s = (Ok started, s').
Proof.
  unfold reference_tick. rewrite bool_decide_eq_true_2 by done. cbn [negb].
  destruct (tick_loop (order s) s []) as [s' started]. eauto.
Qed.

Lemma attempt_tick_Ok case g s started s' :
  reference_tick g s = (Ok started, s') -> attempt case (tick g) s = Ok (started, s').
Proof. unfold attempt. simpl. by intros ->. Qed.

Lemma attempt_complete_Ok case id s st s' :
  reference_complete id s = (Ok st, s') -> attempt case (complete id) s = Ok (st, s').
Proof. unfold attempt. simpl. by intros ->. Qed.

Lemma attempt_cancel_Ok case id s d s' :
  reference_cancel id s = (Ok d, s') -> attempt case (cancel id) s = Ok (d, s').
Proof. unfold attempt. simpl. by intros ->. Qed.

(** One statement of a case, given its outcome. *)
Ltac suite_step E := rewrite (sbind_Ok _ _ _ _ _ E); cbv beta zeta.
Ltac suite_require tac :=
  match goal with
  | |- sbind (require ?c ?b) _ ?s = _ =>
      rewrite (sbind_Ok (require c b) _ s tt s) by (apply require_Ok; tac); cbv beta zeta
  end.

Lemma full_tick s : occupied s = limit s -> reference_tick (fence s) s = (Ok [], s).
Proof.
  intros H. unfold reference_tick. rewrite bool_decide_eq_true_2 by done. cbn [negb].
  by rewrite tick_loop_full by lia.
Qed.

(** Fixture texts of the suite are valid and distinct. *)
Definition fixture_prefixes : list (list Z) :=
  [str "work-"; str "scope-"; str "filler-"; str "filler-scope-"].

Lemma fixture_ids_valid p i :
  p ∈ fixture_prefixes -> 0 <= i < 1026 -> valid_id (p ++ dec i).
Proof.
  intros Hp Hi. apply (validate_id_Ok _ "").
  assert (Hall : forallb (fun p => forallb (fun i => is_ok (validate_id (p ++ dec i) ""))
            (seqZ 0 1026)) fixture_prefixes = true) by (vm_compute; reflexivity).
  rewrite forallb_forall in Hall. specialize (Hall p (proj1 (list_elem_of_In _ _) Hp)).
  rewrite forallb_forall in Hall.
  assert (Hin : i ∈ seqZ 0 1026) by (apply elem_of_seqZ; lia).
  specialize (Hall i (proj1 (list_elem_of_In _ _) Hin)).
  by destruct (validate_id (p ++ dec i) "") as [[]|].
Qed.

Lemma prefixed_inj p i j : 0 <= i -> 0 <= j -> p ++ dec i = p ++ dec j -> i = j.
Proof.
  intros Hi Hj E%app_inv_head. unfold dec in E.
  rewrite (proj2 (Z.ltb_ge _ _)) in E by lia. rewrite (proj2 (Z.ltb_ge _ _)) in E by lia.
  by apply dec_nat_inj.
Qed.

Lemma prefixed_NoDup p n : NoDup ((fun i => p ++ dec i) <$> seqZ 0 n).
Proof.
  apply NoDup_fmap_2_strong; [|apply NoDup_seqZ].
  intros i j Hi Hj. rewrite elem_of_seqZ in Hi, Hj. apply prefixed_inj; lia.
Qed.

Lemma len_seqZ n : 0 <= n -> len (seqZ 0 n) = n.
Proof. intros Hn. unfold len. rewrite length_seqZ. lia. Qed.

(** A tick over more queued items than free slots, each alone in its scope,
    fills every slot. *)
Lemma tick_fills_up s started s' (ws : list QueuedWork) :
  inv s -> reference_tick (fence s) s = (Ok started, s') ->
  NoDup (work_id <$> ws) -> limit s - occupied s < len ws ->
  (forall q, q ∈ ws -> q ∈ order s /\ states s !! work_id q = Some Queued /\ (scope q ∉ paused s) /\
     forall q', q' ∈ order s -> scope q' = scope q -> q' = q) ->
  occupied s' = limit s.
Proof.
  intros Hi Ht Hnd Hlt Hq. pose proof Ht as Ht'.
  apply reference_tick_Ok in Ht' as (_ & Hi' & [(Hl & _) _ _ Hot _ Hoc] & _); [|done].
  destruct (Z.lt_ge_cases (len started) (len ws)) as [Hlen|Hlen].
  - destruct (leftover ws started Hnd Hlen) as (q & Hin & Hn).
    destruct (Hq q Hin) as (Ho & Hst & Hp & Hu).
    apply (tick_fills (fence s) s started s' q); [done..| |done|done]. by rewrite Hot.
  - pose proof (inv_bounded _ Hi'). lia.
Qed.

Lemma occupied_new l f : occupied (reference_new l f) = 0.
Proof. rewrite occupied_slots. unfold slots. simpl. by rewrite map_filter_empty, map_size_empty. Qed.

Lemma complete_running id s :
  states s !! id = Some Running ->
  reference_complete id s = (Ok Completed, set_states s (<[id := Completed]> (states s))).
Proof. unfold reference_complete. by intros ->. Qed.

Section cases.
Context (l : Z) (f : SchedulerFence).
Context (Hl : MIN_PARALLELISM_LIMIT <= l <= MAX_PARALLELISM_LIMIT).

Definition numbered (p q : list Z) (i : Z) : QueuedWork := mkWork (p ++ dec i) (q ++ dec i).

Lemma numbered_NoDup p q n : NoDup (work_id <$> (numbered p q <$> range n)).
Proof. rewrite <- list_fmap_compose. apply (prefixed_NoDup p). Qed.

Lemma numbered_alone p q n w w' :
  w ∈ numbered p q <$> range n -> w' ∈ numbered p q <$> range n -> scope w' = scope w -> w' = w.
Proof.
  intros (i & -> & Hi)%list_elem_of_fmap (j & -> & Hj)%list_elem_of_fmap E.
  apply elem_of_seqZ in Hi, Hj. apply prefixed_inj in E; [by subst|lia..].
Qed.

Lemma len_numbered p q n : 0 <= n -> len (numbered p q <$> range n) = n.
Proof. intros Hn. unfold len. rewrite length_fmap. by apply len_seqZ. Qed.

Lemma submit_numbered case p q n s :
  p ∈ fixture_prefixes -> q ∈ fixture_prefixes -> n <= 1026 -> inv s ->
  (forall i, 0 <= i < n -> states s !! (p ++ dec i) = None) ->
  exists s', for_each (range n) (fun i => suite_submit case (p ++ dec i) (q ++ dec i)) s = Ok (tt, s')
    /\ submitted (numbered p q <$> range n) s s'.
Proof.
  intros Hp Hq Hn Hi Hs.
  apply (submit_all_Ok case (numbered p q) (range n) s Hi).
  - apply (prefixed_NoDup p).
  - intros i [Hi1 Hi2]%elem_of_seqZ. cbn [numbered work_id scope].
    split_and!; [by apply fixture_ids_valid; [|lia]..|apply Hs; lia].
Qed.

Abbreviation parallel_work := (numbered (str "work-") (str "scope-") <$> range (l + 2)).

(** The first tick over the submitted items fills every slot. *)
Lemma parallelism_first_tick s0 started s1 :
  submitted parallel_work (reference_new l f) s0 ->
  reference_tick (fence s0) s0 = (Ok started, s1) -> occupied s1 = l /\ len started = l.
Proof.
  intros [Hi0 (L0 & F0 & P0) O0 Q0 _ C0] T1. pose proof T1 as T1'.
  unfold MIN_PARALLELISM_LIMIT, MAX_PARALLELISM_LIMIT in Hl.
  apply reference_tick_Ok in T1' as (_ & _ & [_ _ _ _ _ C1] & _); [|done].
  rewrite occupied_new in C0. cbn [reference_new limit fence paused order app] in L0, F0, P0, O0.
  assert (Hfull : occupied s1 = limit s0).
  { apply (tick_fills_up s0 started s1 parallel_work);
      [done..|apply numbered_NoDup|rewrite len_numbered; lia|].
    intros q Hq. rewrite O0, P0. split_and!; [done|by apply Q0|set_solver|].
    intros q' Hq'. by apply (numbered_alone (str "work-") (str "scope-") (l + 2)). }
  split; [congruence|]. lia.
Qed.

(** After one of them completed, the next tick fills the slot it left. *)
Lemma parallelism_refills s0 first st1 s1 st4 s4 :
  submitted parallel_work (reference_new l f) s0 ->
  reference_tick (fence s0) s0 = (Ok (first :: st1), s1) ->
  let s3 := set_states s1 (<[first := Completed]> (states s1)) in
  reference_complete first s1 = (Ok Completed, s3) /\
  (reference_tick (fence s3) s3 = (Ok st4, s4) ->
   occupied s4 = l /\ len st4 = 1 /\ inv s4 /\ duplicate_free ∅ ((first :: st1) ++ [] ++ st4) = true).
Proof.
  intros Hsub T1 s3. destruct (parallelism_first_tick _ _ _ Hsub T1) as [Hfull1 _].
  pose proof Hl as Hl'. unfold MIN_PARALLELISM_LIMIT, MAX_PARALLELISM_LIMIT in Hl'.
  destruct Hsub as [Hi0 (L0 & F0 & P0) O0 Q0 _ C0].
  rewrite occupied_new in C0. cbn [reference_new limit fence paused order app] in L0, F0, P0, O0.
  apply reference_tick_Ok in T1 as (_ & Hi1 & [(L1 & F1 & O1 & P1) N1 ST1 OT1 _ C1] & _); [|done].
  destruct (ST1 first) as [_ Hfirst]; [by left|].
  assert (T3 : reference_complete first s1 = (Ok Completed, s3)) by (by apply complete_running).
  assert (Hi3 : inv s3) by (pose proof (complete_inv first s1 Hi1) as H; by rewrite T3 in H).
  assert (C3 : occupied s3 = occupied s1 - 1).
  { rewrite !occupied_slots. simpl. rewrite slots_insert. unfold slot. rewrite Hfirst. simpl. lia. }
  split; [done|]. intros T4. pose proof T4 as T4'.
  apply reference_tick_Ok in T4' as (_ & Hi4 & [(L4 & _) N4 ST4 OT4 _ C4] & _); [|done].
  pose proof (inv_bounded _ Hi4) as Hb4. rewrite L4 in Hb4. cbn [s3 set_states limit] in Hb4, L4.
  assert (Hfull4 : occupied s4 = limit s3).
  { destruct (leftover parallel_work ((first :: st1) ++ st4)) as (q & Hq & Hn);
      [apply numbered_NoDup|rewrite len_app, len_numbered; lia|].
    rewrite elem_of_app in Hn. apply (tick_fills _ s3 st4 s4 q Hi3 T4); cbn [s3 set_states order paused].
    - by rewrite O1, O0.
    - rewrite OT4 by tauto. cbn [s3 set_states states].
      rewrite lookup_insert_ne by (intros ->; apply Hn; left; by left).
      rewrite OT1 by tauto. by apply Q0.
    - rewrite P1, P0. set_solver.
    - rewrite O1, O0. intros q' Hq'. by apply (numbered_alone (str "work-") (str "scope-") (l + 2)). }
  cbn [s3 set_states limit] in Hfull4. split; [congruence|]. split; [lia|]. split; [done|].
  apply duplicate_free_NoDup. split; [|set_solver]. apply NoDup_app. split_and!; [done| |done].
  intros id Hid Hid4. destruct (ST1 id Hid) as [_ H1]. destruct (ST4 id Hid4) as [H4 _].
  cbn [s3 set_states states] in H4. rewrite lookup_insert, H1 in H4. by case_decide.
Qed.

Lemma parallelism_passes : passes (parallelism_is_bounded l) (reference_new l f).
Proof.
  pose proof Hl as Hl'. unfold MIN_PARALLELISM_LIMIT, MAX_PARALLELISM_LIMIT in Hl'.
  set (C := CASE_PARALLELISM_NEVER_EXCEEDS_THE_LIMIT).
  destruct (submit_numbered C (str "work-") (str "scope-") (l + 2) (reference_new l f))
    as (s0 & E0 & Hsub); [by left|by right; left|lia|apply new_inv; lia|done|].
  destruct (held_tick s0) as (st1 & s1 & T1). pose proof T1 as T1'.
  destruct (parallelism_first_tick _ _ _ Hsub T1) as [Hfull1 Hlen1].
  destruct st1 as [|first st1]; [change (len (@nil (list Z))) with 0 in Hlen1; lia|].
  set (s3 := set_states s1 (<[first := Completed]> (states s1))).
  destruct (held_tick s3) as (st4 & s4 & T4).
  destruct (parallelism_refills s0 first st1 s1 st4 s4 Hsub T1) as [T3 H4].
  destruct (H4 T4) as (Hfull4 & Hlen4 & Hi4 & Hdup).
  destruct Hsub as [Hi0 (L0 & F0 & P0) _ _ _ _]. cbn [reference_new limit fence paused] in L0, F0, P0.
  apply reference_tick_Ok in T1' as (_ & Hi1 & [(L1 & F1 & _) _ _ _ _ _] & _); [|done].
  assert (T2 : reference_tick (fence s1) s1 = (Ok [], s1)) by (apply full_tick; congruence).
  rewrite F0 in T1. rewrite F1, F0 in T2. cbn [s3 set_states fence] in T4. rewrite F1, F0 in T4.
  assert (Hrun1 : len (reference_running s1) = l) by (rewrite <- occupied_running; [congruence|apply Hi1]).
  assert (Hrun4 : len (reference_running s4) = l) by (rewrite <- occupied_running; [congruence|apply Hi4]).
  eapply passes_intro. unfold parallelism_is_bounded. fold C.
  suite_step (eq_refl : held_fence (reference_new l f) = Ok (f, reference_new l f)).
  suite_step E0. suite_step (attempt_tick_Ok C _ _ _ _ T1).
  suite_require ltac:(apply Z.eqb_eq; lia).
  suite_step (eq_refl : ask running s1 = Ok (reference_running s1, s1)).
  suite_require ltac:(by apply Z.eqb_eq).
  suite_step (attempt_tick_Ok C _ _ _ _ T2). suite_require ltac:(done).
  suite_step (attempt_complete_Ok C _ _ _ _ T3). suite_step (attempt_tick_Ok C _ _ _ _ T4).
  suite_step (eq_refl : ask running s4 = Ok (reference_running s4, s4)).
  suite_require ltac:(apply andb_true_iff; split; apply Z.eqb_eq; lia).
  by apply require_Ok.
Qed.

(** The head of the queue is started by any tick with a free slot. *)
Lemma tick_starts_head s q rest started s' :
  order s = q :: rest -> skips s q = false -> occupied s < limit s ->
  reference_tick (fence s) s = (Ok started, s') -> work_id q ∈ started.
Proof.
  intros Ho Hsk Hlt. unfold reference_tick. rewrite bool_decide_eq_true_2 by done. cbn [negb].
  rewrite Ho. cbn [tick_loop]. rewrite (proj2 (Z.leb_gt _ _)) by lia. rewrite Hsk.
  destruct (tick_loop rest _ _) as [s1 st1] eqn:E. intros [= -> ->].
  destruct (tick_loop_started_prefix _ _ _ _ _ E) as [more ->]. set_solver.
Qed.

Lemma cancel_scope_not_filler i : str "cancel-scope" <> str "filler-scope-" ++ dec i.
Proof. by destruct (dec i). Qed.

Lemma cancel_id_not_filler i :
  str "cancel-running" <> str "filler-" ++ dec i /\ str "cancel-queued" <> str "filler-" ++ dec i.
Proof. by destruct (dec i). Qed.

Definition cancel_running_work : QueuedWork := mkWork (str "cancel-running") (str "cancel-scope").
Definition cancel_queued_work : QueuedWork := mkWork (str "cancel-queued") (str "cancel-scope").
Definition fillers : list QueuedWork :=
  numbered (str "filler-") (str "filler-scope-") <$> range l.

(** The submissions of the cancellation case. *)
Lemma cancellation_submits :
  exists sa sb s0,
    suite_submit CASE_CANCELLED_QUEUED_WORK_NEVER_RUNS (str "cancel-running") (str "cancel-scope")
      (reference_new l f) = Ok (tt, sa) /\
    suite_submit CASE_CANCELLED_QUEUED_WORK_NEVER_RUNS (str "cancel-queued") (str "cancel-scope")
      sa = Ok (tt, sb) /\
    for_each (range l) (fun i => suite_submit CASE_CANCELLED_RUNNING_WORK_KEEPS_ITS_SLOT
      (str "filler-" ++ dec i) (str "filler-scope-" ++ dec i)) sb = Ok (tt, s0) /\
    submitted (cancel_running_work :: cancel_queued_work :: fillers) (reference_new l f) s0.
Proof.
  unfold MIN_PARALLELISM_LIMIT, MAX_PARALLELISM_LIMIT in Hl.
  assert (Hv : valid_id (str "cancel-running") /\ valid_id (str "cancel-queued") /\
    valid_id (str "cancel-scope")) by (rewrite <- !(validate_id_Ok _ ""); by vm_compute).
  destruct Hv as (Hv1 & Hv2 & Hv3).
  destruct (suite_submit_Ok CASE_CANCELLED_QUEUED_WORK_NEVER_RUNS _ _ (reference_new l f)
    ltac:(apply new_inv; lia) Hv1 Hv3 (lookup_empty _)) as (sa & Ea & Ha).
  destruct (suite_submit_Ok CASE_CANCELLED_QUEUED_WORK_NEVER_RUNS _ _ sa
    (sb_inv _ _ _ Ha) Hv2 Hv3) as (sb & Eb & Hb).
  { rewrite (sb_other _ _ _ Ha); [done|]. by intros ?%list_elem_of_singleton. }
  destruct (submit_numbered CASE_CANCELLED_RUNNING_WORK_KEEPS_ITS_SLOT (str "filler-")
    (str "filler-scope-") l sb) as (s0 & E0 & H0); [by right; right; left| |lia|apply Hb| |].
  { by right; right; right; left. }
  { intros i Hi. destruct (cancel_id_not_filler i) as [N1 N2].
    rewrite (sb_other _ _ _ Hb), (sb_other _ _ _ Ha); [done|..];
      by intros E%list_elem_of_singleton. }
  assert (Hnd : NoDup (work_id <$> [cancel_running_work; cancel_queued_work] ++ fillers)).
  { rewrite fmap_app. apply NoDup_app. split_and!; [|..|apply numbered_NoDup].
    - apply (bool_decide_unpack _). by vm_compute.
    - unfold fillers. intros id Hid (w & -> & (i & -> & _)%list_elem_of_fmap)%list_elem_of_fmap.
      destruct (cancel_id_not_filler i) as [N1 N2]. cbn [numbered work_id] in Hid.
      rewrite !fmap_cons, !elem_of_cons in Hid. destruct Hid as [E|[E|E%not_elem_of_nil]];
        [by apply N1|by apply N2|done]. }
  exists sa, sb, s0. split_and!; [done..|].
  apply (submitted_trans [cancel_running_work; cancel_queued_work] fillers _ sb); [done| |done].
  apply (submitted_trans [cancel_running_work] [cancel_queued_work] _ sa); [|done..].
  apply (bool_decide_unpack _). by vm_compute.
Qed.

(** The first tick: the running item starts, the one behind it does not, and
    every slot is taken. *)
Lemma cancellation_first_tick s0 started s1 :
  submitted (cancel_running_work :: cancel_queued_work :: fillers) (reference_new l f) s0 ->
  reference_tick (fence s0) s0 = (Ok started, s1) ->
  occupied s1 = l /\ str "cancel-running" ∈ started /\ (str "cancel-queued" ∉ started).
Proof.
  intros [Hi0 (L0 & F0 & P0) O0 Q0 _ C0] T1. pose proof T1 as T1'.
  unfold MIN_PARALLELISM_LIMIT, MAX_PARALLELISM_LIMIT in Hl.
  apply reference_tick_Ok in T1' as (_ & Hi1 & [(L1 & _) N1 ST1 OT1 _ C1] & _); [|done].
  rewrite occupied_new in C0. cbn [reference_new limit fence paused order app] in L0, F0, P0, O0.
  assert (Hrun : str "cancel-running" ∈ started).
  { apply (tick_starts_head s0 cancel_running_work _ started s1 O0); [|lia|done].
    apply skips_false. split_and!; [apply Q0; by left|rewrite P0; set_solver|].
    apply not_true_iff_false. rewrite scope_is_busy_true. intros (q & Hq & _ & Hsl).
    rewrite O0 in Hq. unfold slot in Hsl. by rewrite Q0 in Hsl. }
  split_and!; [|done|].
  - rewrite <- L0. destruct (leftover (cancel_running_work :: fillers) started) as (q & Hq & Hn).
    + rewrite fmap_cons. apply NoDup_cons. split; [|apply numbered_NoDup].
      unfold fillers. intros (w & E & (i & -> & _)%list_elem_of_fmap)%list_elem_of_fmap.
      by destruct (cancel_id_not_filler i).
    + rewrite len_cons. unfold fillers. rewrite len_numbered by lia.
      pose proof (inv_bounded _ Hi1). lia.
    + apply elem_of_cons in Hq as [->|Hq]; [done|].
      apply (tick_fills (fence s0) s0 started s1 q Hi0 T1).
      * rewrite O0. by do 2 right.
      * rewrite OT1 by done. apply Q0. by do 2 right.
      * rewrite P0. set_solver.
      * rewrite O0. intros q' Hq' Hsc. pose proof Hq as (i & Eq & _)%list_elem_of_fmap.
        assert (Hns : str "cancel-scope" <> scope q) by (rewrite Eq; apply cancel_scope_not_filler).
        rewrite !elem_of_cons in Hq'. destruct Hq' as [->|[->|Hq']]; [done..|].
        by apply (numbered_alone (str "filler-") (str "filler-scope-") l).
  - apply (tick_fifo (fence s0) s0 started s1 [] cancel_running_work [] cancel_queued_work fillers);
      [done..|]. apply Q0. by left.
Qed.
(** Cancelling [cancel-queued] and [cancel-running] in turn. *)
Lemma cancellation_cancels s1 :
  states s1 !! str "cancel-queued" = Some Queued -> states s1 !! str "cancel-running" = Some Running ->
  inv s1 ->
  exists s2 s3,
    reference_cancel (str "cancel-queued") s1 = (Ok NeverStarted, s2) /\
    reference_cancel (str "cancel-running") s2 = (Ok CancelStopRequested, s3) /\
    states s2 !! str "cancel-queued" = Some Cancelled /\
    states s3 = <[str "cancel-running" := StopRequested]> (<[str "cancel-queued" := Cancelled]> (states s1)) /\
    limit s3 = limit s1 /\ fence s3 = fence s1 /\ order s3 = order s1 /\
    occupied s3 = occupied s1 /\ inv s3.
Proof.
  intros Hq Hr Hi. unfold reference_cancel at 1. rewrite Hq.
  set (s2 := set_states s1 _).
  assert (Hr2 : states s2 !! str "cancel-running" = Some Running)
    by (simpl; by rewrite lookup_insert_ne).
  pose proof (cancel_inv (str "cancel-queued") s1 Hi) as Hi2.
  unfold reference_cancel in Hi2. rewrite Hq in Hi2. cbn [snd] in Hi2. fold s2 in Hi2.
  pose proof (cancel_inv (str "cancel-running") s2 Hi2) as Hi3.
  unfold reference_cancel in *. rewrite Hr2 in *. cbn [snd] in Hi3.
  exists s2, (set_states s2 (<[str "cancel-running" := StopRequested]> (states s2))).
  split_and!; try done.
  - by rewrite Hr2.
  - unfold s2, set_states. cbn [states]. by rewrite lookup_insert_eq.
  - rewrite !occupied_slots. simpl. rewrite !slots_insert. unfold slot.
    rewrite lookup_insert_ne, Hq, Hr by done. simpl. lia.
Qed.

(** Completing the stopped item cancels it; the next tick starts no item twice
    and not the one cancelled in the queue. *)
Lemma cancellation_last_tick s1 st1 s3 st6 s6 :
  NoDup st1 -> (forall id, id ∈ st1 -> states s1 !! id = Some Running) ->
  states s3 = <[str "cancel-running" := StopRequested]> (<[str "cancel-queued" := Cancelled]> (states s1)) ->
  inv s3 ->
  let s5 := set_states s3 (<[str "cancel-running" := Cancelled]> (states s3)) in
  reference_complete (str "cancel-running") s3 = (Ok Cancelled, s5) /\
  (reference_tick (fence s5) s5 = (Ok st6, s6) ->
   duplicate_free ∅ (st1 ++ [] ++ st6) = true /\ (str "cancel-queued" ∉ st6)).
Proof.
  intros N1 ST1 Hst3 Hi3 s5.
  assert (Hsr : states s3 !! str "cancel-running" = Some StopRequested)
    by (rewrite Hst3; apply lookup_insert_eq).
  assert (T5 : reference_complete (str "cancel-running") s3 = (Ok Cancelled, s5))
    by (unfold reference_complete; by rewrite Hsr).
  split; [done|]. intros T6.
  assert (Hi5 : inv s5)
    by (pose proof (complete_inv (str "cancel-running") s3 Hi3) as H; by rewrite T5 in H).
  apply reference_tick_Ok in T6 as (_ & _ & [_ N6 ST6 _ _ _] & _); [|done].
  assert (H5 : forall id, states s5 !! id = Some Queued ->
    states s1 !! id = Some Queued /\ id <> str "cancel-queued").
  { intros id. cbn [s5 set_states states]. rewrite Hst3, !lookup_insert. by repeat case_decide. }
  split; [|intros [Hq _]%ST6; by destruct (H5 _ Hq)].
  apply duplicate_free_NoDup. split; [|set_solver]. apply NoDup_app. split_and!; [done| |done].
  intros id Hid [Hq _]%ST6. destruct (H5 id Hq) as [Hq1 _]. rewrite (ST1 id Hid) in Hq1. done.
Qed.

Lemma cancellation_passes : passes (cancellation l) (reference_new l f).
Proof.
  destruct cancellation_submits as (sa & sb & s0 & Ea & Eb & E0 & Hsub).
  pose proof Hsub as [Hi0 (L0 & F0 & P0) O0 Q0 _ _]. cbn [reference_new limit fence] in L0, F0.
  destruct (held_tick s0) as (st1 & s1 & T1).
  destruct (cancellation_first_tick s0 st1 s1 Hsub T1) as (Hfull & Hrun & Hque).
  pose proof T1 as T1'.
  apply reference_tick_Ok in T1' as (_ & Hi1 & [(L1 & F1 & O1 & _) N1 ST1 OT1 _ _] & _); [|done].
  destruct (cancellation_cancels s1) as (s2 & s3 & K2 & K3 & Hst2 & Hst3 & L3 & F3 & O3 & C3 & Hi3);
    [rewrite OT1 by done; apply (Q0 cancel_queued_work); right; by left|by apply ST1|done|].
  assert (T4 : reference_tick (fence s3) s3 = (Ok [], s3)) by (apply full_tick; congruence).
  assert (Hsr : states s3 !! str "cancel-running" = Some StopRequested)
    by (rewrite Hst3; apply lookup_insert_eq).
  set (s5 := set_states s3 (<[str "cancel-running" := Cancelled]> (states s3))).
  destruct (held_tick s5) as (st6 & s6 & T6).
  destruct (cancellation_last_tick s1 st1 s3 st6 s6) as [T5 H6]; [done|by apply ST1|done..|].
  destruct (H6 T6) as [Hdup Hnq].
  assert (Hin : str "cancel-running" ∈ reference_running s3).
  { apply elem_of_filter_b. rewrite O3, O1, O0. split; [by left|]. unfold slot. by rewrite Hsr. }
  assert (Hlen : len (reference_running s1) = l) by (by rewrite <- occupied_running by apply Hi1).
  rewrite F0 in T1. rewrite F3, F1, F0 in T4. cbn [s5 set_states fence] in T6. rewrite F3, F1, F0 in T6.
  eapply passes_intro. unfold cancellation, suite_tick.
  suite_step (eq_refl : held_fence (reference_new l f) = Ok (f, reference_new l f)).
  suite_step Ea. suite_step Eb. suite_step E0. suite_step (attempt_tick_Ok
    CASE_CANCELLED_QUEUED_WORK_NEVER_RUNS _ _ _ _ T1).
  suite_step (eq_refl : ask running s1 = Ok (reference_running s1, s1)).
  suite_require ltac:(by apply Z.eqb_eq).
  rewrite (sbind_Ok (suite_work_id _ _) _ s1 (str "cancel-queued") s1) by (by vm_compute).
  suite_step (attempt_cancel_Ok CASE_CANCELLED_QUEUED_WORK_NEVER_RUNS _ _ _ _ K2).
  suite_require ltac:(done).
  suite_step (eq_refl : ask (state_of (str "cancel-queued")) s2 =
    Ok (states s2 !! str "cancel-queued", s2)).
  suite_require ltac:(by apply bool_decide_eq_true_2).
  rewrite (sbind_Ok (suite_work_id _ _) _ s2 (str "cancel-running") s2) by (by vm_compute).
  suite_step (attempt_cancel_Ok CASE_CANCELLED_RUNNING_WORK_KEEPS_ITS_SLOT _ _ _ _ K3).
  suite_require ltac:(done).
  suite_step (eq_refl : ask running s3 = Ok (reference_running s3, s3)).
  suite_require ltac:(by apply bool_decide_eq_true_2).
  suite_step (attempt_tick_Ok CASE_CANCELLED_RUNNING_WORK_KEEPS_ITS_SLOT _ _ _ _ T4).
  suite_require ltac:(done).
  suite_step (attempt_complete_Ok CASE_CANCELLED_RUNNING_WORK_KEEPS_ITS_SLOT _ _ _ _ T5).
  suite_require ltac:(done).
  suite_step (attempt_tick_Ok CASE_CANCELLED_RUNNING_WORK_KEEPS_ITS_SLOT _ _ _ _ T6).
  suite_require ltac:(by apply negb_true_iff, bool_decide_eq_false_2).
  by apply require_Ok.
Qed.

Lemma stale_fence_passes :
  valid_fence f -> epoch f < u64_max -> passes stale_fence (reference_new l f).
Proof.
  intros Hf He. unfold MIN_PARALLELISM_LIMIT in Hl.
  assert (Hv : valid_id (str "fenced-1") /\ valid_id (str "fenced-scope"))
    by (rewrite <- !(validate_id_Ok _ ""); by vm_compute).
  destruct (suite_submit_Ok CASE_A_STALE_FENCE_STARTS_NOTHING (str "fenced-1") (str "fenced-scope")
    (reference_new l f)) as (s0 & E0 & [Hi0 (_ & F0 & _) O0 Q0 _ _]);
    [apply new_inv; lia|apply Hv..|done|].
  assert (Hs : sat_u64 (epoch f + 1) = epoch f + 1) by (destruct Hf as (_ & _ & ?); mlia).
  eapply passes_intro. unfold stale_fence.
  suite_step (eq_refl : held_fence (reference_new l f) = Ok (f, reference_new l f)).
  suite_step E0. rewrite Hs.
  assert (fence_new (generation_id f) (holder_id f) (epoch f + 1) =
    Ok (mkFence (generation_id f) (holder_id f) (epoch f + 1))) as ->.
  { apply fence_new_Ok; [destruct Hf as (_ & _ & ?); mlia|]. split; [done|].
    destruct Hf as (? & ? & ?). split_and!; try done; cbn; lia. }
  cbn [tick ReferenceScheduler_core]. unfold reference_tick. rewrite bool_decide_eq_false_2.
  2: { rewrite F0. cbn [reference_new fence]. intros E. apply (f_equal epoch) in E. simpl in E. lia. }
  cbn [negb]. suite_require ltac:(done).
  suite_step (eq_refl : ask running s0 = Ok (reference_running s0, s0)). apply require_Ok.
  apply bool_decide_eq_true_2. unfold reference_running. rewrite O0.
  pose proof (Q0 (mkWork (str "fenced-1") (str "fenced-scope")) ltac:(by left)) as Hq.
  change (List.filter (slot (states s0)) [str "fenced-1"] = []). cbn [List.filter].
  unfold slot. cbn [work_id] in Hq. by rewrite Hq.
Qed.

Lemma reference_conforms :
  valid_fence f -> epoch f < u64_max -> verify_scheduler_core (reference_new l f) = Ok CASES.
Proof.
  intros Hf He. unfold verify_scheduler_core. cbn [parallelism_limit ReferenceScheduler_core].
  assert (Hp : forall m, passes m (reference_new l f) ->
    (fst <$> m (reference_new l f) : result Stopped unit) = Ok tt).
  { intros m. unfold passes, answer. destruct (m _) as [[[] ?]|]; done. }
  change (limit (reference_new l f)) with l.
  rewrite (require_Ok (S := ReferenceScheduler)).
  2: { rewrite !(proj2 (Z.leb_le _ _)); [done|lia|lia]. }
  cbn [fmap result_fmap mbind result_bind].
  rewrite (Hp _ parallelism_passes), (Hp _ (scopes_serialize_passes l f ltac:(lia))),
    (Hp _ (pause_and_resume_passes l f ltac:(lia))), (Hp _ cancellation_passes),
    (Hp _ (stale_fence_passes Hf He)). done.
Qed.

End cases.

(** * The durable scheduler behind the test adapter

    [as_refusal] panics on an error that is no refusal; [pause], [resume],
    [running] and [state] [expect] theirs away. *)

Definition Adapter : Type := Handle * Database.

Definition as_refusal {A} (h : Handle) (r : Scheduled A * Database)
  : option (result SchedulerRefusal A * Adapter) :=
  match r with
  | (Ok a, db) => Some (Ok a, (h, db))
  | (Err e, db) => e ← refusal e; Some (Err e, (h, db))
  end.

Definition adapter_call {A} (op : Handle -> Database -> Scheduled A * Database) (a : Adapter)
  : option (result SchedulerRefusal A * Adapter) := as_refusal a.1 (op a.1 a.2).

Definition adapter_pause (p : bool) (sc : list Z) (a : Adapter) : option Adapter :=
  match durable_set_paused a.1 sc p a.2 with
  | (Ok _, db) => Some (a.1, db)
  | (Err _, _) => None
  end.

#[export] Instance Adapter_core : SchedulerCore Adapter := {
  parallelism_limit a := h_limit a.1;
  fence_of a := h_fence a.1;
  submit w := adapter_call (fun h => durable_submit h w);
  tick f := adapter_call (fun h => durable_tick h f);
  complete id := adapter_call (fun h => durable_complete h id);
  pause := adapter_pause true;
  resume := adapter_pause false;
  cancel id := adapter_call (fun h => durable_cancel h id);
  running a := ok (durable_running a.1 a.2);
  state_of id a := ok (durable_state a.1 id a.2);
}.

(** The adapter stands for the reference scheduler its database abstracts to. *)
Definition adapts (a : Adapter) (s : ReferenceScheduler) : Prop :=
  s = abs a.1 a.2 /\ well_formed a.2 /\ holds_authority a.1 a.2 /\
  h_limit a.1 <= MAX_PARALLELISM_LIMIT /\ epoch (h_fence a.1) < i64_max.

(** No operation touches the authority row. *)
Lemma transaction_authority {A} (body : Database -> Scheduled (A * Database)) db :
  (forall a db', body db = Ok (a, db') -> authority db' = authority db) ->
  authority (transaction body db).2 = authority db.
Proof. intros Hb. unfold transaction. destruct (body db) as [[a db']|] eqn:E; [by eapply Hb|done]. Qed.

Lemma set_state_authority db id st db' : set_state db id st = Ok db' -> authority db' = authority db.
Proof. unfold set_state. destruct (update_state _ _ _). case_match; [by intros [= <-]|done]. Qed.

Lemma admit_authority av cands : forall busy started db started' db',
  admit_candidates av cands busy started db = Ok (started', db') -> authority db' = authority db.
Proof.
  induction cands as [|c cands IH]; intros busy started db started' db'; cbn [admit_candidates].
  { by intros [= _ <-]. }
  case_match; [by intros [= _ <-]|]. case_match; [apply IH|].
  destruct (update_state _ _ _) as [rows n]. case_match; [done|].
  intros (id & _ & E)%bind_Ok. by apply IH in E.
Qed.

Lemma call_authority h db :
  (forall w, authority (durable_submit h w db).2 = authority db) /\
  (forall f, authority (durable_tick h f db).2 = authority db) /\
  (forall id, authority (durable_complete h id db).2 = authority db) /\
  (forall id, authority (durable_cancel h id db).2 = authority db) /\
  (forall sc p, authority (durable_set_paused h sc p db).2 = authority db).
Proof.
  split_and!; intros; apply transaction_authority; intros a db'.
  - intros ([] & _ & E)%bind_Ok. cbv beta in E. case_match; by simplify_eq.
  - intros ([] & _ & E)%bind_Ok. cbv beta zeta in E. do 3 (case_match; [by simplify_eq|]). by apply admit_authority in E.
  - intros (? & _ & (? & _ & (? & _ & (? & _ & (? & Hs & E)%bind_Ok)%bind_Ok)%bind_Ok)%bind_Ok)%bind_Ok.
    apply set_state_authority in Hs. by simplify_eq.
  - intros (? & _ & (? & _ & (st & _ & E)%bind_Ok)%bind_Ok)%bind_Ok.
    destruct st; simplify_eq; try done; apply bind_Ok in E as (? & Hs & E);
      apply set_state_authority in Hs; by simplify_eq.
  - intros ([] & _ & E)%bind_Ok. by simplify_eq.
Qed.

Lemma adapts_call {A} h db (op : Handle -> Database -> Scheduled A * Database) r' :
  simulates h (op h db) r' -> authority (op h db).2 = authority db ->
  holds_authority h db -> h_limit h <= MAX_PARALLELISM_LIMIT -> epoch (h_fence h) < i64_max ->
  alike adapts (adapter_call op (h, db)) (Some r').
Proof.
  intros (Hr & Hs & Hw) Hau Ha Hl He. unfold adapter_call, as_refusal. cbn [fst snd].
  destruct (op h db) as [r db1], r' as [r' s1]. cbn [fst snd] in *.
  assert (Hh : adapts (h, db1) s1).
  { split_and!; try done. unfold holds_authority, require_fence in *. cbn [fst snd]. by rewrite Hau. }
  unfold agrees in Hr. destruct r as [a|e], r' as [b|e']; try done; [by subst|].
  rewrite Hr. by split.
Qed.

Lemma adapts_pause h db sc p :
  adapts (h, db) (abs h db) ->
  both adapts (adapter_pause p sc (h, db))
    (Some ((if p then reference_pause else reference_resume) sc (abs h db))).
Proof.
  intros (_ & Hw & Ha & Hl & He). cbn [fst snd] in *.
  pose proof (set_paused_simulates h db Hw Ha sc p) as (Hr & Hs & Hw').
  destruct (call_authority h db) as (_ & _ & _ & _ & Hau). specialize (Hau sc p).
  unfold adapter_pause. cbn [fst snd] in *.
  destruct (durable_set_paused h sc p db) as [[[]|e] db1]; [|done]. cbn [fst snd both] in *.
  split_and!; try done. unfold holds_authority, require_fence in *. cbn [fst snd]. by rewrite Hau.
Qed.

#[export] Instance adapts_refines : Refines adapts.
Proof.
  split.
  - by intros [h db] t (-> & _).
  - by intros [h db] t (-> & _ & _ & _ & ?).
  - intros [h db] t w (-> & Hw & Ha & Hl & He) Hv. cbn [fst snd] in *.
    by apply adapts_call; [apply submit_simulates|apply call_authority|..].
  - intros [h db] t g (-> & Hw & Ha & Hl & He) Hg. cbn [fst snd] in *.
    by apply adapts_call; [apply tick_simulates|apply call_authority|..].
  - intros [h db] t id (-> & Hw & Ha & Hl & He). cbn [fst snd] in *.
    by apply (adapts_call h db (fun h => durable_complete h id));
      [apply complete_simulates|apply call_authority|..].
  - intros [h db] t sc Hat. pose proof Hat as (-> & _). by apply adapts_pause.
  - intros [h db] t sc Hat. pose proof Hat as (-> & _). by apply (adapts_pause h db sc false).
  - intros [h db] t id (-> & Hw & Ha & Hl & He). cbn [fst snd] in *.
    by apply (adapts_call h db (fun h => durable_cancel h id));
      [apply cancel_simulates|apply call_authority|..].
  - intros [h db] t (-> & Hw & Ha & _). cbn [fst snd] in *.
    simpl. rewrite running_simulates by done. by split; [|eexists].
  - intros [h db] t id (-> & Hw & Ha & _). cbn [fst snd] in *.
    simpl. rewrite state_simulates by done. by split; [|eexists].
Qed.

(** An empty database can be opened by any fence its integers can hold. *)
Lemma open_fresh l f :
  MIN_PARALLELISM_LIMIT <= l <= MAX_PARALLELISM_LIMIT -> valid_fence f -> epoch f < i64_max ->
  exists db, open_store l f fresh_db = (Ok (mkHandle l f), db).
Proof.
  unfold MIN_PARALLELISM_LIMIT, MAX_PARALLELISM_LIMIT. intros Hl (_ & _ & Hf) He.
  unfold open_store, install_authority, db_epoch, transaction, MAX_PARALLELISM_LIMIT.
  rewrite (proj2 (Z.eqb_neq _ _)), (proj2 (Z.ltb_ge _ _)), (proj2 (Z.leb_le (epoch f) _)) by lia.
  cbn [orb]. rewrite !(proj2 (Z.leb_le _ _)) by lia. by eexists.
Qed.

(** * Properties *)

(** C7: both schedulers pass their conformance suite, for every size.  For every
    limit the suite admits (2 to 1024) and every valid fence, the reference
    scheduler passes all ten cases of [verify_scheduler_core] as long as the
    fence's epoch is not the last one of [u64]; and, as long as the epoch is
    below the last one the store can represent, an empty database can be opened
    and the durable scheduler it gives passes all ten behind the test adapter, so
    that none of the calls the suite makes panics. *)
Theorem schedulers_conform l f :
  MIN_PARALLELISM_LIMIT <= l <= MAX_PARALLELISM_LIMIT -> valid_fence f ->
  (epoch f < u64_max -> verify_scheduler_core (reference_new l f) = Ok CASES) /\
  (epoch f < i64_max ->
   exists h db, open_store l f fresh_db = (Ok h, db) /\
     verify_scheduler_core ((h, db) : Adapter) = Ok CASES).
Proof.
  intros Hl Hf. split; [by apply reference_conforms|]. intros He.
  destruct (open_fresh l f Hl Hf He) as (db & Ho). exists (mkHandle l f), db. split; [done|].
  rewrite (verify_transfer adapts _ (reference_new l f)); [|].
  { apply reference_conforms; [done..|]. widths. lia. }
  apply open_store_Ok in Ho as (_ & _ & _ & ->).
  split_and!; [done|apply store_inv_authority, fresh_db_inv| |simpl; lia|done].
  unfold holds_authority, require_fence, db_epoch. simpl. rewrite (proj2 (Z.leb_le _ _)) by lia. cbn.
  by rewrite !bool_decide_eq_true_2, Z.eqb_refl by done.
Qed.

Lemma schedulers_conform_witness :
  verify_scheduler_core (reference_new 4 (mkFence (str "generation-1") (str "holder-1") (u64_max - 1)))
    = Ok CASES /\
  exists h db, open_store 4 demo_fence fresh_db = (Ok h, db) /\
    verify_scheduler_core ((h, db) : Adapter) = Ok CASES.
Proof.
  split.
  - apply (schedulers_conform 4 (mkFence (str "generation-1") (str "holder-1") (u64_max - 1))).
    + vm_compute. split; congruence.
    + apply (fence_new_Ok (str "generation-1") (str "holder-1") (u64_max - 1));
        [vm_compute; split; congruence|vm_compute; reflexivity].
    + vm_compute. reflexivity.
  - apply (schedulers_conform 4 demo_fence).
    + vm_compute. split; congruence.
    + apply (fence_new_Ok (str "generation-1") (str "holder-1") 1);
        [vm_compute; split; congruence|vm_compute; reflexivity].
    + vm_compute. reflexivity.
Defined.
