(* ===== verification/Budget.v ===== *)
(** Call budgets: [automonique-transport-runtime/src/budget.rs].

    Token buckets over an injected clock, the Telegram budget with its
    whole-bot pause and bounded set of tracked chats, and the Slack budget with
    its per-method pauses.  A [&mut self] method returns its state beside its
    answer, on the refusing branches too: a refused claim still brings the
    buckets it looked at up to the current instant.

    Products [calls * TOKEN_SCALE] are [u64] and written with their wrap; the
    [u128] product of [refill] cannot overflow (63 by 64 bits).  [TelegramOutbound]
    and the method names are not modelled: [claim] ignores the method. *)

From Stdlib Require Import Sorted.
From S2P Require Import Prelude.

(** * Token buckets *)

Definition TOKEN_SCALE : Z := 3000000.

Record BucketSpec := mkSpec { capacity : Z; refill_per_ms : Z }.

Definition is_exact (calls window_ms : Z) : bool :=
  negb (window_ms =? 0) && negb (calls =? 0)
  && (wrap_u64 (calls * TOKEN_SCALE) mod window_ms =? 0)
  && negb (wrap_u64 (calls * TOKEN_SCALE) / window_ms =? 0).

Definition spec_new (calls window_ms : Z) : option BucketSpec :=
  if negb (is_exact calls window_ms) then None
  else Some (mkSpec (wrap_u64 (calls * TOKEN_SCALE)) (wrap_u64 (calls * TOKEN_SCALE) / window_ms)).

Definition spec_exact (calls window_ms : Z) : BucketSpec :=
  match spec_new calls window_ms with Some spec => spec | None => mkSpec 0 0 end.

Definition capacity_calls (s : BucketSpec) : Z := capacity s / TOKEN_SCALE.

Record TokenBucket := mkBucket { spec : BucketSpec; tokens : Z; observed_ms : Z }.

Definition full (s : BucketSpec) (now_ms : Z) : TokenBucket := mkBucket s (capacity s) now_ms.

Definition refill (now_ms : Z) (b : TokenBucket) : TokenBucket :=
  let elapsed := sat_i64 (now_ms - observed_ms b) in
  if elapsed <=? 0 then b
  else mkBucket (spec b)
         (Z.min (tokens b + elapsed * refill_per_ms (spec b)) (capacity (spec b))) now_ms.

Definition available (now_ms : Z) (b : TokenBucket) : Z * TokenBucket :=
  let b := refill now_ms b in (tokens b, b).

Definition admits (headroom_calls now_ms : Z) (b : TokenBucket) : bool * TokenBucket :=
  let required := sat_u64 (TOKEN_SCALE * sat_u64 (headroom_calls + 1)) in
  let '(held, b) := available now_ms b in (required <=? held, b).

Definition debit (now_ms : Z) (b : TokenBucket) : TokenBucket :=
  let b := refill now_ms b in
  mkBucket (spec b) (Z.max 0 (tokens b - TOKEN_SCALE)) (observed_ms b).

Definition is_full (now_ms : Z) (b : TokenBucket) : bool * TokenBucket :=
  let '(held, b) := available now_ms b in (held =? capacity (spec b), b).

(** * The Telegram budget *)

Inductive CallPriority := Durable | Ephemeral.

#[export] Instance CallPriority_eq_dec : EqDecision CallPriority.
Proof. solve_decision. Defined.

Inductive BudgetRefusal :=
| Paused (resume_after_ms : Z) | Global | Chat | Group | Untracked.

Definition GLOBAL_CALLS : Z := 30.
Definition GLOBAL_WINDOW_MS : Z := 1000.
Definition CHAT_BURST_CALLS : Z := 4.
Definition CHAT_WINDOW_MS : Z := 4000.
Definition GROUP_CALLS : Z := 20.
Definition GROUP_WINDOW_MS : Z := 60000.
Definition GLOBAL_EPHEMERAL_HEADROOM : Z := 10.
Definition CHAT_EPHEMERAL_HEADROOM : Z := 2.
Definition GROUP_EPHEMERAL_HEADROOM : Z := 5.
Definition MAX_TRACKED_CHATS : Z := 256.
Definition MAX_PAUSE_MS : Z := 300000.

Definition global_spec : BucketSpec := spec_exact GLOBAL_CALLS GLOBAL_WINDOW_MS.
Definition chat_spec : BucketSpec := spec_exact CHAT_BURST_CALLS CHAT_WINDOW_MS.
Definition group_spec : BucketSpec := spec_exact GROUP_CALLS GROUP_WINDOW_MS.

Record ChatBuckets := mkChat { chat : TokenBucket; group : option TokenBucket }.

Record TelegramCallBudget := mkBudget {
  global : TokenBucket;
  chats : gmap Z ChatBuckets;
  paused_until_ms : option Z;
}.

Definition budget_new (now_ms : Z) : TelegramCallBudget :=
  mkBudget (full global_spec now_ms) ∅ None.

Definition restore_pause (resume_after_ms : Z) (b : TelegramCallBudget) : TelegramCallBudget :=
  if resume_after_ms <=? 0 then b
  else mkBudget (global b) (chats b)
         (Some match paused_until_ms b with
               | Some existing => Z.max existing resume_after_ms
               | None => resume_after_ms
               end).

(** [i64::try_from(retry).unwrap_or(MAX).clamp(1, MAX)], then the deadline. *)
Definition pause_deadline (retry_after_ms now_ms : Z) : Z :=
  let delay := if retry_after_ms <=? i64_max then retry_after_ms else MAX_PAUSE_MS in
  let delay := Z.min MAX_PAUSE_MS (Z.max 1 delay) in
  sat_i64 (now_ms + delay).

Definition note_rate_limited (retry_after_ms now_ms : Z) (b : TelegramCallBudget)
  : Z * TelegramCallBudget :=
  let deadline := pause_deadline retry_after_ms now_ms in
  let b := restore_pause deadline b in
  (default deadline (paused_until_ms b), b).

Definition paused_until (now_ms : Z) (b : TelegramCallBudget) : option Z :=
  match paused_until_ms b with
  | Some deadline => if now_ms <? deadline then Some deadline else None
  | None => None
  end.

Definition tracked_chats (b : TelegramCallBudget) : Z := Z.of_nat (size (chats b)).

(** [BTreeMap::retain] with a predicate that refills what it looks at. *)
Definition retain_owing (now_ms : Z) (m : gmap Z ChatBuckets) : gmap Z ChatBuckets :=
  omap (fun c => let '(settled, chat) := is_full now_ms (chat c) in
                 if settled then None else Some (mkChat chat (group c))) m.

Definition fresh_chat (chat_id now_ms : Z) : ChatBuckets :=
  mkChat (full chat_spec now_ms)
    (if chat_id <? 0 then Some (full group_spec now_ms) else None).

(** The buckets of one chat and the map they are in. *)
Definition entry (chat_id now_ms : Z) (m : gmap Z ChatBuckets)
  : option ChatBuckets * gmap Z ChatBuckets :=
  let tracked := bool_decide (is_Some (m !! chat_id)) in
  let m := if negb tracked && (MAX_TRACKED_CHATS <=? Z.of_nat (size m))
           then retain_owing now_ms m else m in
  if negb tracked && (MAX_TRACKED_CHATS <=? Z.of_nat (size m)) then (None, m)
  else match m !! chat_id with
       | Some c => (Some c, m)
       | None => let c := fresh_chat chat_id now_ms in (Some c, <[chat_id := c]> m)
       end.

Definition debit_chat (now_ms : Z) (c : ChatBuckets) : ChatBuckets :=
  mkChat (debit now_ms (chat c)) (debit now_ms <$> group c).

Definition set_chats (b : TelegramCallBudget) (g : TokenBucket) (m : gmap Z ChatBuckets)
  : TelegramCallBudget := mkBudget g m (paused_until_ms b).

(** The group half of the ephemeral check. *)
Definition group_admits (now_ms : Z) (g : option TokenBucket) : bool * option TokenBucket :=
  match g with
  | None => (true, None)
  | Some g => let '(yes, g) := admits GROUP_EPHEMERAL_HEADROOM now_ms g in (yes, Some g)
  end.

Definition claim (chat_id : option Z) (priority : CallPriority) (now_ms : Z)
  (b : TelegramCallBudget) : result BudgetRefusal unit * TelegramCallBudget :=
  match paused_until now_ms b with
  | Some resume_after_ms => (Err (Paused resume_after_ms), b)
  | None =>
      let chat_id := match chat_id with Some id => if id =? 0 then None else Some id | None => None end in
      match priority with
      | Durable =>
          let g := debit now_ms (global b) in
          match chat_id with
          | None => (Ok tt, set_chats b g (chats b))
          | Some id =>
              match entry id now_ms (chats b) with
              | (None, m) => (Ok tt, set_chats b g m)
              | (Some c, m) => (Ok tt, set_chats b g (<[id := debit_chat now_ms c]> m))
              end
          end
      | Ephemeral =>
          let '(yes, g) := admits GLOBAL_EPHEMERAL_HEADROOM now_ms (global b) in
          if negb yes then (Err Global, set_chats b g (chats b))
          else match chat_id with
          | None => (Ok tt, set_chats b (debit now_ms g) (chats b))
          | Some id =>
              match entry id now_ms (chats b) with
              | (None, m) => (Err Untracked, set_chats b g m)
              | (Some c, m) =>
                  let '(yes, ch) := admits CHAT_EPHEMERAL_HEADROOM now_ms (chat c) in
                  if negb yes then
                    (Err Chat, set_chats b g (<[id := mkChat ch (group c)]> m))
                  else
                    let '(yes, gr) := group_admits now_ms (group c) in
                    if negb yes then (Err Group, set_chats b g (<[id := mkChat ch gr]> m))
                    else (Ok tt, set_chats b (debit now_ms g)
                                   (<[id := debit_chat now_ms (mkChat ch gr)]> m))
              end
          end
      end
  end.

(** * The Slack budget *)

Inductive SlackBudgetedMethod :=
| ChatStartStream | ChatAppendStream | ChatStopStream | ChatPostMessage | ChatUpdate.

#[export] Instance SlackBudgetedMethod_eq_dec : EqDecision SlackBudgetedMethod.
Proof. solve_decision. Defined.

Definition method_spec (m : SlackBudgetedMethod) : BucketSpec :=
  match m with
  | ChatStartStream | ChatStopStream => spec_exact 20 60000
  | ChatAppendStream => spec_exact 100 60000
  | ChatPostMessage | ChatUpdate => spec_exact 60 60000
  end.

Definition headroom (m : SlackBudgetedMethod) : Z :=
  match m with
  | ChatAppendStream => 20
  | ChatStartStream | ChatStopStream => 4
  | ChatPostMessage | ChatUpdate => 10
  end.

Definition is_channel_message (m : SlackBudgetedMethod) : bool :=
  match m with ChatPostMessage | ChatUpdate => true | _ => false end.

Inductive SlackBudgetRefusal := SPaused (resume_after_ms : Z) | SMethod | SChannel | SUntracked.

(** The method maps are total over the closed method set, so they are functions:
    a bucket per method, and an optional deadline per method. *)
Record SlackCallBudget := mkSlack {
  methods : SlackBudgetedMethod -> TokenBucket;
  s_paused_until_ms : SlackBudgetedMethod -> option Z;
  channels : gmap (list Z) TokenBucket;
}.

Definition set_method {A} (f : SlackBudgetedMethod -> A) (m : SlackBudgetedMethod) (a : A)
  : SlackBudgetedMethod -> A := fun m' => if decide (m' = m) then a else f m'.

Definition slack_new (now_ms : Z) : SlackCallBudget :=
  mkSlack (fun m => full (method_spec m) now_ms) (fun _ => None) ∅.

Definition slack_note_rate_limited (m : SlackBudgetedMethod) (retry_after_ms now_ms : Z)
  (b : SlackCallBudget) : Z * SlackCallBudget :=
  let deadline := pause_deadline retry_after_ms now_ms in
  let deadline := match s_paused_until_ms b m with
                  | Some existing => Z.max existing deadline
                  | None => deadline
                  end in
  (deadline, mkSlack (methods b) (set_method (s_paused_until_ms b) m (Some deadline)) (channels b)).

Definition slack_paused_until (m : SlackBudgetedMethod) (now_ms : Z) (b : SlackCallBudget)
  : option Z :=
  match s_paused_until_ms b m with
  | Some deadline => if now_ms <? deadline then Some deadline else None
  | None => None
  end.

Definition slack_retain (now_ms : Z) (m : gmap (list Z) TokenBucket) : gmap (list Z) TokenBucket :=
  omap (fun b => let '(settled, b) := is_full now_ms b in if settled then None else Some b) m.

Definition is_ephemeral (p : CallPriority) : bool :=
  match p with Ephemeral => true | Durable => false end.

(** The channel half of a claim: the refusal, if any, and the channels after. *)
Definition slack_channel (channel : list Z) (p : CallPriority) (now_ms : Z)
  (m : gmap (list Z) TokenBucket) : result SlackBudgetRefusal unit * gmap (list Z) TokenBucket :=
  let tracked := bool_decide (is_Some (m !! channel)) in
  let m := if negb tracked && (MAX_TRACKED_CHATS <=? Z.of_nat (size m))
           then slack_retain now_ms m else m in
  if negb tracked && (MAX_TRACKED_CHATS <=? Z.of_nat (size m)) then (Err SUntracked, m)
  else
    let b := default (full chat_spec now_ms) (m !! channel) in
    let '(yes, b) := if is_ephemeral p then admits CHAT_EPHEMERAL_HEADROOM now_ms b else (true, b) in
    if negb yes then (Err SChannel, <[channel := b]> m)
    else (Ok tt, <[channel := debit now_ms b]> m).

Definition slack_claim (m : SlackBudgetedMethod) (channel : option (list Z)) (p : CallPriority)
  (now_ms : Z) (b : SlackCallBudget) : result SlackBudgetRefusal unit * SlackCallBudget :=
  match slack_paused_until m now_ms b with
  | Some resume_after_ms => (Err (SPaused resume_after_ms), b)
  | None =>
      let '(yes, bucket) :=
        if is_ephemeral p then admits (headroom m) now_ms (methods b m) else (true, methods b m) in
      let b := mkSlack (set_method (methods b) m bucket) (s_paused_until_ms b) (channels b) in
      if negb yes then (Err SMethod, b)
      else
        let channel := match channel with Some [] => None | c => c end in
        let '(r, chans) :=
          match channel with
          | Some c => if is_channel_message m then slack_channel c p now_ms (channels b)
                      else (Ok tt, channels b)
          | None => (Ok tt, channels b)
          end in
        match r with
        | Err e => (Err e, mkSlack (methods b) (s_paused_until_ms b) chans)
        | Ok _ => (Ok tt, mkSlack (set_method (methods b) m (debit now_ms bucket))
                            (s_paused_until_ms b) chans)
        end
  end.

(** * Invariants *)

(** A bucket of a given shape holds between nothing and its capacity. *)
Record bucket_ok (s : BucketSpec) (b : TokenBucket) : Prop := mkBucketOk {
  bk_spec : spec b = s;
  bk_tokens : 0 <= tokens b <= capacity s;
  bk_clock : in_i64 (observed_ms b);
}.

Definition spec_ok (s : BucketSpec) : Prop := 0 <= capacity s /\ 0 <= refill_per_ms s.

Record chat_ok (id : Z) (c : ChatBuckets) : Prop := mkChatOk {
  ck_chat : bucket_ok chat_spec (chat c);
  ck_group : match group c with
             | Some g => id < 0 /\ bucket_ok group_spec g
             | None => 0 <= id
             end;
}.

Record budget_ok (b : TelegramCallBudget) : Prop := mkBudgetOk {
  bo_global : bucket_ok global_spec (global b);
  bo_chats : forall id c, chats b !! id = Some c -> chat_ok id c;
  bo_bounded : tracked_chats b <= MAX_TRACKED_CHATS;
}.

Lemma specs_ok : spec_ok global_spec /\ spec_ok chat_spec /\ spec_ok group_spec.
Proof. vm_compute. repeat split; congruence. Qed.

Lemma full_ok s now : spec_ok s -> in_i64 now -> bucket_ok s (full s now).
Proof. intros [? ?] ?. split; [done| |done]. simpl. lia. Qed.

Lemma refill_ok s now b : spec_ok s -> in_i64 now -> bucket_ok s b -> bucket_ok s (refill now b).
Proof.
  intros [Hc Hr] Hn [Hs Ht Ho]. unfold refill. case_match eqn:E; [done|]. apply Z.leb_gt in E.
  split; simpl; [done| |done]. rewrite Hs. nia.
Qed.

(** A refill moves the clock forward and gains no more than the rate allows. *)
Lemma refill_gain s now b :
  spec_ok s -> in_i64 now -> bucket_ok s b ->
  observed_ms (refill now b) = Z.max (observed_ms b) now /\
  tokens b <= tokens (refill now b) /\
  tokens (refill now b) <= tokens b + refill_per_ms s * (observed_ms (refill now b) - observed_ms b).
Proof.
  intros [Hc Hr] Hn [Hs Ht Ho]. unfold refill. case_match eqn:E.
  - apply Z.leb_le in E. assert (now - observed_ms b <= 0) by (widths; lia).
    split_and!; lia.
  - apply Z.leb_gt in E. simpl. rewrite Hs.
    assert (0 < sat_i64 (now - observed_ms b) <= now - observed_ms b) as [He1 He2] by (widths; lia).
    split_and!; [lia|nia|nia].
Qed.

Lemma debit_ok s now b : spec_ok s -> in_i64 now -> bucket_ok s b -> bucket_ok s (debit now b).
Proof.
  intros Hs Hn Hb. destruct (refill_ok s now b Hs Hn Hb) as [H1 H2 H3].
  split; simpl; [done| |done]. unfold TOKEN_SCALE. lia.
Qed.

Lemma admits_spec h now b :
  0 <= h <= 1000 ->
  admits h now b = (TOKEN_SCALE * (h + 1) <=? tokens (refill now b), refill now b).
Proof.
  intros Hh. unfold admits, available. f_equal.
  assert (sat_u64 (TOKEN_SCALE * sat_u64 (h + 1)) = TOKEN_SCALE * (h + 1)) as -> ; [|done].
  unfold TOKEN_SCALE. widths. lia.
Qed.

Lemma refill_idem now b : refill now (refill now b) = refill now b.
Proof.
  unfold refill at 2. destruct (Z.leb_spec (sat_i64 (now - observed_ms b)) 0) as [H|H].
  { unfold refill. by rewrite (proj2 (Z.leb_le _ _) H). }
  unfold refill at 1. simpl. rewrite Z.sub_diag. simpl.
  unfold refill. by rewrite (proj2 (Z.leb_gt _ _) H).
Qed.

(** ** Maps *)

Lemma retain_owing_lookup now m id :
  retain_owing now m !! id =
  m !! id ≫= fun c => if (is_full now (chat c)).1 then None
                      else Some (mkChat (refill now (chat c)) (group c)).
Proof.
  unfold retain_owing. rewrite lookup_omap. destruct (m !! id) as [c|]; [|done].
  simpl. unfold is_full, available. simpl. by case_match.
Qed.

Lemma retain_owing_size now m : (size (retain_owing now m) <= size m)%nat.
Proof.
  rewrite <- !size_dom. apply subseteq_size. intros id. rewrite !elem_of_dom, retain_owing_lookup.
  intros [c Hc]. destruct (m !! id); [by eexists|done].
Qed.

(** What [entry] answers and leaves behind. *)
Lemma entry_spec id now m r m' :
  entry id now m = (r, m') -> Z.of_nat (size m) <= MAX_TRACKED_CHATS ->
  Z.of_nat (size m') <= MAX_TRACKED_CHATS /\
  (forall c, r = Some c -> m' !! id = Some c /\ (m !! id = Some c \/ m !! id = None /\ c = fresh_chat id now)) /\
  (forall id', id' <> id \/ r = None -> m' !! id' = m !! id' \/ m' !! id' = retain_owing now m !! id').
Proof.
  unfold entry. intros E Hsz. cbv zeta in E. pose proof (retain_owing_size now m) as Hret.
  destruct (m !! id) as [c0|] eqn:Em.
  - rewrite (bool_decide_eq_true_2 _ (mk_is_Some _ _ eq_refl)) in E. simpl in E. rewrite Em in E.
    simplify_eq. split_and!; [done|naive_solver|naive_solver].
  - rewrite (bool_decide_eq_false_2 (is_Some None)) in E by (by intros [? ?]). simpl in E.
    set (m1 := if MAX_TRACKED_CHATS <=? Z.of_nat (size m) then retain_owing now m else m) in *.
    assert (Hm1 : m1 !! id = None).
    { unfold m1. destruct (_ <=? _); [|done]. by rewrite retain_owing_lookup, Em. }
    assert (Hor : forall x, m1 !! x = m !! x \/ m1 !! x = retain_owing now m !! x)
      by (intros x; unfold m1; destruct (_ <=? _); auto).
    destruct (Z.leb_spec MAX_TRACKED_CHATS (Z.of_nat (size m1))) as [Hf|Hf].
    + injection E as <- <-. split_and!; [unfold m1; destruct (_ <=? _); lia|done|by auto].
    + rewrite Hm1 in E. injection E as <- <-. split_and!.
      * rewrite map_size_insert_None by done. lia.
      * intros c [= <-]. rewrite lookup_insert_eq. auto.
      * intros x [Hx|?]; [|done]. by rewrite lookup_insert_ne.
Qed.

(** * Sequences of operations *)

Inductive BudgetEvent :=
| BClaim (chat_id : option Z) (priority : CallPriority) (now_ms : Z)
| BRateLimited (retry_after_ms now_ms : Z)
| BRestore (resume_after_ms : Z).

Definition budget_step (e : BudgetEvent) (b : TelegramCallBudget) : bool * TelegramCallBudget :=
  match e with
  | BClaim c p now => let '(r, b) := claim c p now b in (is_ok r, b)
  | BRateLimited retry now => (false, (note_rate_limited retry now b).2)
  | BRestore t => (false, restore_pause t b)
  end.

(** Is this an ephemeral claim, on this chat when one is given? *)
Definition draft (on : option Z) (e : BudgetEvent) : bool :=
  match e with
  | BClaim c Ephemeral _ =>
      match on with None => true | Some id => bool_decide (c = Some id) end
  | _ => false
  end.

(** The number of drafts a sequence of operations let through, and its end. *)
Fixpoint drafts (on : option Z) (es : list BudgetEvent) (b : TelegramCallBudget)
  : Z * TelegramCallBudget :=
  match es with
  | [] => (0, b)
  | e :: es =>
      let '(granted, b) := budget_step e b in
      let '(n, b) := drafts on es b in
      ((if granted && draft on e then 1 else 0) + n, b)
  end.

Definition event_clock (e : BudgetEvent) : option Z :=
  match e with BClaim _ _ now => Some now | _ => None end.

(** The instants of the claims, in order. *)
Definition clocks (es : list BudgetEvent) : list Z := omap event_clock es.

Lemma claim_pause c p now b : paused_until_ms (claim c p now b).2 = paused_until_ms b.
Proof.
  unfold claim. destruct (paused_until now b); [done|]. cbv zeta.
  destruct (match c with Some _ => _ | None => _ end) as [id|], p; try done.
  - by destruct (entry id now (chats b)) as [[ch|] m].
  - destruct (admits GLOBAL_EPHEMERAL_HEADROOM now (global b)) as [[] g]; cbn [negb]; [|done].
    destruct (entry id now (chats b)) as [[ch|] m]; [|done].
    destruct (admits CHAT_EPHEMERAL_HEADROOM now (chat ch)) as [[] ch']; cbn [negb]; [|done].
    by destruct (group_admits now (group ch)) as [[] gr].
  - by destruct (admits GLOBAL_EPHEMERAL_HEADROOM now (global b)) as [[] g].
Qed.

Lemma debit_refill now b : debit now (refill now b) = debit now b.
Proof. unfold debit. by rewrite refill_idem. Qed.

(** What a claim does to the bot-wide bucket. *)
Lemma claim_global c p now b :
  let g := global (claim c p now b).2 in
  g = global b \/ g = refill now (global b) \/ g = debit now (global b).
Proof.
  unfold claim. destruct (paused_until now b); [by left|]. cbv zeta.
  destruct (match c with Some _ => _ | None => _ end) as [id|], p;
    rewrite ?admits_spec by (vm_compute; split; congruence).
  - destruct (entry id now (chats b)) as [[ch|] m]; auto.
  - destruct (_ <=? _); cbn [negb]; [|auto].
    destruct (entry id now (chats b)) as [[ch|] m]; [|auto].
    destruct (admits CHAT_EPHEMERAL_HEADROOM now (chat ch)) as [[] ch']; cbn [negb]; [|auto].
    destruct (group_admits now (group ch)) as [[] gr]; cbn [negb]; [|auto].
    rewrite debit_refill. auto.
  - auto.
  - destruct (_ <=? _); cbn [negb]; [|auto]. rewrite debit_refill. auto.
Qed.

Lemma claim_global_draft c now b b' :
  claim c Ephemeral now b = (Ok tt, b') -> global b' = debit now (global b) /\
  TOKEN_SCALE * (GLOBAL_EPHEMERAL_HEADROOM + 1) <= tokens (refill now (global b)).
Proof.
  unfold claim. destruct (paused_until now b); [done|]. cbv zeta.
  rewrite admits_spec by (vm_compute; split; congruence).
  destruct (Z.leb_spec (TOKEN_SCALE * (GLOBAL_EPHEMERAL_HEADROOM + 1))
    (tokens (refill now (global b)))); cbn [negb]; [|done].
  rewrite debit_refill.
  destruct (match c with Some _ => _ | None => _ end) as [id|]; [|by intros [= <-]].
  destruct (entry id now (chats b)) as [[ch|] m]; [|done].
  destruct (admits CHAT_EPHEMERAL_HEADROOM now (chat ch)) as [[] ch']; cbn [negb]; [|done].
  destruct (group_admits now (group ch)) as [[] gr]; cbn [negb]; [|done].
  by intros [= <-].
Qed.

(** ** The potential argument *)

(** [n] drafts since the bucket was full at [t0] are paid for: by its tokens,
    and, with the headroom, by the time that has passed. *)
Record paid (s : BucketSpec) (head t0 n : Z) (b : TokenBucket) : Prop := mkPaid {
  pd_ok : bucket_ok s b;
  pd_tokens : tokens b + TOKEN_SCALE * n <= capacity s + refill_per_ms s * (observed_ms b - t0);
  pd_head : n = 0 \/
    TOKEN_SCALE * (n + head) <= capacity s + refill_per_ms s * (observed_ms b - t0);
}.

Lemma paid_full s head t0 : spec_ok s -> in_i64 t0 -> paid s head t0 0 (full s t0).
Proof. intros Hs Ht. split; [by apply full_ok|simpl; lia|by left]. Qed.

Lemma paid_refill s head t0 n now b :
  spec_ok s -> in_i64 now -> paid s head t0 n b -> paid s head t0 n (refill now b).
Proof.
  intros Hs Hn [Hb Ht Hh]. destruct (refill_gain s now b Hs Hn Hb) as (Ho & Hge & Hle).
  destruct Hs as [Hs1 Hs2]. split; [by apply refill_ok|nia|]. destruct Hh; [by left|right]. nia.
Qed.

Lemma paid_debit s head t0 n now b :
  spec_ok s -> in_i64 now -> paid s head t0 n b -> paid s head t0 n (debit now b).
Proof.
  intros Hs Hn Hp. destruct (paid_refill s head t0 n now b Hs Hn Hp) as [Hb Ht Hh].
  split; [by apply debit_ok; [..|destruct Hp]|simpl|done].
  pose proof (bk_tokens _ _ Hb). unfold TOKEN_SCALE in *. lia.
Qed.

(** A draft that left the headroom in place. *)
Lemma paid_draft s head t0 n now b :
  spec_ok s -> in_i64 now -> 0 <= head ->
  TOKEN_SCALE * (head + 1) <= tokens (refill now b) ->
  paid s head t0 n b -> paid s head t0 (n + 1) (debit now b).
Proof.
  intros Hs Hn Hh Hadm Hp. destruct (paid_refill s head t0 n now b Hs Hn Hp) as [Hb Ht _].
  split; [by apply debit_ok; [..|destruct Hp]| |right]; simpl; unfold TOKEN_SCALE in *; lia.
Qed.

Lemma budget_step_global t0 n e b :
  (forall now, event_clock e = Some now -> in_i64 now) ->
  paid global_spec GLOBAL_EPHEMERAL_HEADROOM t0 n (global b) ->
  let '(granted, b') := budget_step e b in
  paid global_spec GLOBAL_EPHEMERAL_HEADROOM t0
    (n + if granted && draft None e then 1 else 0) (global b').
Proof.
  intros Hclk Hp. destruct specs_ok as (Hs & _ & _).
  destruct e as [c p now|retry now|t]; simpl; [|rewrite Z.add_0_r..].
  - pose proof (claim_global c p now b) as Hg. pose proof (claim_global_draft c now b) as Hdr.
    specialize (Hclk now eq_refl).
    destruct (claim c p now b) as [r b'] eqn:E. cbn [snd] in Hg.
    assert (Hany : paid global_spec GLOBAL_EPHEMERAL_HEADROOM t0 n (global b')).
    { destruct Hg as [->|[->| ->]]; [done|by apply paid_refill|by apply paid_debit]. }
    destruct r as [[]|e], p; simpl; rewrite ?Z.add_0_r; try done.
    destruct (Hdr b' E) as [-> Hadm]. by apply paid_draft.
  - unfold note_rate_limited, restore_pause. simpl. by case_match.
  - unfold restore_pause. by case_match.
Qed.

Lemma budget_step_clock e b T :
  (forall now, event_clock e = Some now -> now <= T) -> observed_ms (global b) <= T ->
  bucket_ok global_spec (global b) -> (forall now, event_clock e = Some now -> in_i64 now) ->
  observed_ms (global (budget_step e b).2) <= T.
Proof.
  intros Hc Ho Hb Hi. destruct specs_ok as (Hs & _ & _).
  destruct e as [c p now|retry now|t]; simpl.
  - pose proof (claim_global c p now b) as Hg. destruct (claim c p now b) as [r b']. simpl in *.
    destruct (refill_gain global_spec now (global b) Hs (Hi now eq_refl) Hb) as (Hr & _).
    specialize (Hc now eq_refl). destruct Hg as [->|[->| ->]]; simpl; lia.
  - unfold note_rate_limited, restore_pause. simpl. by case_match.
  - unfold restore_pause. by case_match.
Qed.

Lemma drafts_paid es : forall t0 T n b,
  Forall (fun now => in_i64 now /\ now <= T) (clocks es) ->
  paid global_spec GLOBAL_EPHEMERAL_HEADROOM t0 n (global b) -> observed_ms (global b) <= T ->
  exists b', observed_ms b' <= T /\
    paid global_spec GLOBAL_EPHEMERAL_HEADROOM t0 (n + (drafts None es b).1) b'.
Proof.
  induction es as [|e es IH]; intros t0 T n b Hc Hp Ho; cbn [drafts].
  { exists (global b). by rewrite Z.add_0_r. }
  assert (He : forall now, event_clock e = Some now -> in_i64 now /\ now <= T).
  { intros now E. unfold clocks in Hc. simpl in Hc. rewrite E in Hc. by inversion Hc. }
  assert (Hc' : Forall (fun now => in_i64 now /\ now <= T) (clocks es)).
  { unfold clocks in *. simpl in Hc. destruct (event_clock e); [by inversion Hc|done]. }
  pose proof (budget_step_global t0 n e b ltac:(intros; by apply He) Hp) as Hp'.
  pose proof (budget_step_clock e b T ltac:(intros; by apply He) Ho (pd_ok _ _ _ _ _ Hp)
    ltac:(intros; by apply He)) as Ho'.
  destruct (budget_step e b) as [granted b1]. cbn [snd] in Ho'.
  destruct (IH t0 T _ b1 Hc' Hp' Ho') as (b2 & Ho2 & Hp2).
  destruct (drafts None es b1) as [m b3]. exists b2. split; [done|]. cbn [fst] in *.
  by rewrite Z.add_assoc.
Qed.

(** ** One chat's bucket *)

Definition retain_one (now : Z) (o : option ChatBuckets) : option ChatBuckets :=
  o ≫= fun c => if (is_full now (chat c)).1 then None
                else Some (mkChat (refill now (chat c)) (group c)).

(** How a claim at [now] may change what is remembered of one chat; [drafted]
    says that it let a draft to this chat through. *)
Inductive chat_move (id now : Z) (drafted : bool) (o : option ChatBuckets)
  : option ChatBuckets -> Prop :=
| move_none : drafted = false -> chat_move id now drafted o o
| move_retain : drafted = false -> chat_move id now drafted o (retain_one now o)
| move_touch c c' :
    o = Some c \/ o = None /\ c = fresh_chat id now ->
    chat c' = chat c \/ chat c' = refill now (chat c) \/ chat c' = debit now (chat c) ->
    (drafted = true -> chat c' = debit now (chat c) /\
       TOKEN_SCALE * (CHAT_EPHEMERAL_HEADROOM + 1) <= tokens (refill now (chat c))) ->
    chat_move id now drafted o (Some c').

Lemma entry_other id now m r m' id' drafted :
  entry id now m = (r, m') -> Z.of_nat (size m) <= MAX_TRACKED_CHATS ->
  id' <> id \/ r = None -> drafted = false -> chat_move id' now drafted (m !! id') (m' !! id').
Proof.
  intros E Hsz Hor Hd. destruct (entry_spec id now m r m' E Hsz) as (_ & _ & Ho).
  destruct (Ho id' Hor) as [->| ->]; [by apply move_none|].
  rewrite retain_owing_lookup. by apply move_retain.
Qed.

Lemma entry_self id now m c m' :
  entry id now m = (Some c, m') -> Z.of_nat (size m) <= MAX_TRACKED_CHATS ->
  m !! id = Some c \/ m !! id = None /\ c = fresh_chat id now.
Proof. intros E Hsz. destruct (entry_spec id now m _ m' E Hsz) as (_ & Hs & _). by apply Hs. Qed.

(** Writing back the buckets [entry] handed out. *)
Lemma entry_touch id0 now m ch m' id c' drafted :
  entry id0 now m = (Some ch, m') -> Z.of_nat (size m) <= MAX_TRACKED_CHATS ->
  chat c' = chat ch \/ chat c' = refill now (chat ch) \/ chat c' = debit now (chat ch) ->
  (drafted = true -> id = id0 /\ chat c' = debit now (chat ch) /\
     TOKEN_SCALE * (CHAT_EPHEMERAL_HEADROOM + 1) <= tokens (refill now (chat ch))) ->
  chat_move id now drafted (m !! id) (<[id0 := c']> m' !! id) /\
  Z.of_nat (size (<[id0 := c']> m')) <= MAX_TRACKED_CHATS.
Proof.
  intros E Hsz Hc Hd. destruct (entry_spec id0 now m _ m' E Hsz) as (Hsz' & Hself & _).
  destruct (Hself ch eq_refl) as [Hl Hor]. split.
  - destruct (decide (id = id0)) as [->|Hne].
    + rewrite lookup_insert_eq. apply (move_touch _ _ _ _ ch); [done..|].
      intros Hdt. by apply Hd.
    + rewrite lookup_insert_ne by done. apply (entry_other id0 now m (Some ch)); [done..|by left|].
      destruct drafted; [|done]. by destruct (Hd eq_refl).
  - by rewrite map_size_insert_Some by (by eexists).
Qed.

Lemma claim_chat c p now b id :
  tracked_chats b <= MAX_TRACKED_CHATS -> id <> 0 ->
  let '(r, b') := claim c p now b in
  chat_move id now (is_ok r && draft (Some id) (BClaim c p now)) (chats b !! id) (chats b' !! id) /\
  tracked_chats b' <= MAX_TRACKED_CHATS.
Proof.
  intros Hsz Hid. unfold tracked_chats in *. unfold claim.
  destruct (paused_until now b); [split; [by apply move_none|done]|]. cbv zeta.
  destruct (match c with Some _ => _ | None => _ end) as [id0|] eqn:Ec.
  2: { assert (Hn : bool_decide (c = Some id) = false).
       { apply bool_decide_eq_false. intros ->. by destruct (Z.eqb_spec id 0). }
       destruct p; [by split; [apply move_none|]|].
       rewrite admits_spec by (vm_compute; split; congruence).
       destruct (_ <=? _); cbn [negb]; (split; [apply move_none; simpl; by rewrite ?Hn|done]). }
  assert (Ec' : c = Some id0) by (destruct c as [i|]; [by destruct (i =? 0); simplify_eq|done]).
  clear Ec. subst c.
  destruct (entry id0 now (chats b)) as [r m] eqn:E.
  assert (Hnone : r = None -> chat_move id now false (chats b !! id) (m !! id) /\
            Z.of_nat (size m) <= MAX_TRACKED_CHATS).
  { intros ->. destruct (entry_spec id0 now (chats b) None m E Hsz) as (Hsz' & _).
    split; [by apply (entry_other id0 now _ None); [| |right|]|done]. }
  destruct p.
  - destruct r as [ch|]; [|by apply Hnone].
    apply (entry_touch _ _ _ ch); [done..|simpl; auto|done].
  - rewrite admits_spec by (vm_compute; split; congruence).
    destruct (_ <=? _); cbn [negb]; [|by split; [apply move_none|]].
    destruct r as [ch|]; [|by apply Hnone].
    rewrite admits_spec by (vm_compute; split; congruence).
    destruct (Z.leb_spec (TOKEN_SCALE * (CHAT_EPHEMERAL_HEADROOM + 1)) (tokens (refill now (chat ch))))
      as [Hadm|Hadm]; cbn [negb]; [|apply (entry_touch _ _ _ ch); [done..|simpl; auto|done]].
    destruct (group_admits now (group ch)) as [[] gr]; cbn [negb];
      apply (entry_touch _ _ _ ch); simpl; rewrite ?debit_refill; auto; [|done].
    intros Hb. bool_prop. by simplify_eq.
Qed.

(** What is remembered of a chat after [n] drafts to it, at the instant [t]. *)
Definition chat_paid (t0 t n : Z) (o : option ChatBuckets) : Prop :=
  match o with
  | Some c => paid chat_spec CHAT_EPHEMERAL_HEADROOM t0 n (chat c) /\ observed_ms (chat c) <= t
  | None => TOKEN_SCALE * n <= refill_per_ms chat_spec * (t - t0)
  end.

Lemma chat_paid_later t0 t t' n o : t <= t' -> chat_paid t0 t n o -> chat_paid t0 t' n o.
Proof.
  intros Ht. unfold chat_paid. destruct o as [c|]; [intros [? ?]; split; [done|lia]|].
  destruct specs_ok as (_ & [_ Hr] & _). revert Hr. generalize (refill_per_ms chat_spec).
  intros r Hr ?. nia.
Qed.

Lemma chat_paid_move id t0 t now n drafted o o' :
  in_i64 now -> t <= now -> 0 <= n ->
  chat_move id now drafted o o' -> chat_paid t0 t n o ->
  chat_paid t0 now (n + if drafted then 1 else 0) o'.
Proof.
  intros Hn Ht Hn0 Hm Hp. destruct specs_ok as (_ & Hs & _).
  destruct Hm as [->| ->|c c' Hc Hk Hd]; rewrite ?Z.add_0_r.
  - by eapply chat_paid_later.
  - destruct o as [c|]; [|by apply (chat_paid_later t0 t)]. destruct Hp as [Hp Ho].
    pose proof (paid_refill _ _ _ _ now _ Hs Hn Hp) as Hp'.
    destruct (refill_gain chat_spec now (chat c) Hs Hn (pd_ok _ _ _ _ _ Hp)) as (Ho' & _ & _).
    unfold retain_one, is_full, available. cbn [mbind option_bind fst].
    rewrite (bk_spec _ _ (pd_ok _ _ _ _ _ Hp')).
    destruct (Z.eqb_spec (tokens (refill now (chat c))) (capacity chat_spec)) as [Ef|];
      unfold chat_paid.
    + destruct Hp' as [_ Htk _], Hs as [_ Hr]. revert Hr Htk. rewrite Ef.
      generalize (refill_per_ms chat_spec) (capacity chat_spec). intros r k Hr Htk. nia.
    + cbn [chat]. split; [done|lia].
  - assert (Hpc : paid chat_spec CHAT_EPHEMERAL_HEADROOM t0 n (chat c) /\ observed_ms (chat c) <= now).
    { destruct Hc as [->|[-> ->]]; [destruct Hp; split; [done|lia]|].
      apply (chat_paid_later t0 t now) in Hp; [|done]. unfold chat_paid in Hp.
      cbn [fresh_chat chat full observed_ms]. split; [|lia].
      split; [by apply full_ok|cbn [full tokens observed_ms]; lia|right].
      assert (capacity chat_spec = 4 * TOKEN_SCALE) as -> by done.
      cbn [full observed_ms]. unfold CHAT_EPHEMERAL_HEADROOM, TOKEN_SCALE in *. lia. }
    destruct Hpc as [Hpc Ho].
    destruct (refill_gain chat_spec now (chat c) Hs Hn (pd_ok _ _ _ _ _ Hpc)) as (Ho' & _ & _).
    destruct drafted.
    + unfold chat_paid. destruct (Hd eq_refl) as [-> Hadm].
      split; [by apply paid_draft|cbn [debit observed_ms]; lia].
    + rewrite Z.add_0_r. unfold chat_paid.
      destruct Hk as [->|[->| ->]]; (split; [|unfold debit; cbn [observed_ms]; lia]);
        [done|by apply paid_refill|by apply paid_debit].
Qed.

Lemma budget_step_chat t0 t n e b id :
  tracked_chats b <= MAX_TRACKED_CHATS -> id <> 0 -> 0 <= n ->
  (forall now, event_clock e = Some now -> in_i64 now /\ t <= now) ->
  chat_paid t0 t n (chats b !! id) ->
  let '(granted, b') := budget_step e b in
  chat_paid t0 (default t (event_clock e)) (n + if granted && draft (Some id) e then 1 else 0)
    (chats b' !! id) /\ tracked_chats b' <= MAX_TRACKED_CHATS.
Proof.
  intros Hsz Hid Hn Hclk Hp.
  destruct e as [c p now|retry now|w]; cbn [budget_step event_clock default draft].
  - destruct (Hclk now eq_refl) as [Hi Hle]. pose proof (claim_chat c p now b id Hsz Hid) as Hc.
    destruct (claim c p now b) as [r b']. destruct Hc as [Hm Hsz']. split; [|done].
    by eapply chat_paid_move.
  - rewrite Z.add_0_r. unfold note_rate_limited, restore_pause. simpl. by case_match.
  - rewrite Z.add_0_r. unfold restore_pause. by case_match.
Qed.

Lemma drafts_nonneg on es b : 0 <= (drafts on es b).1.
Proof.
  revert b; induction es as [|e es IH]; intros b; cbn [drafts]; [done|].
  destruct (budget_step e b) as [g b1]. specialize (IH b1).
  destruct (drafts on es b1) as [n b2]. simpl in *. case_match; lia.
Qed.

Lemma drafts_chat_paid es id : forall t0 t T n b,
  tracked_chats b <= MAX_TRACKED_CHATS -> id <> 0 -> 0 <= n -> t <= T ->
  StronglySorted Z.le (t :: clocks es) -> Forall (fun now => in_i64 now /\ now <= T) (clocks es) ->
  chat_paid t0 t n (chats b !! id) ->
  let '(m, b') := drafts (Some id) es b in
  chat_paid t0 T (n + m) (chats b' !! id) /\ tracked_chats b' <= MAX_TRACKED_CHATS.
Proof.
  induction es as [|e es IH]; intros t0 t T n b Hsz Hid Hn HT Hs Hc Hp; cbn [drafts].
  { rewrite Z.add_0_r. split; [by eapply chat_paid_later|done]. }
  inversion Hs as [|? ? Hs' Hall]; subst.
  assert (He : forall now, event_clock e = Some now -> in_i64 now /\ t <= now).
  { intros now E. unfold clocks in *. simpl in *. rewrite E in Hc, Hall. simpl in *.
    split; [by inversion Hc as [|? ? [? ?]]|by inversion Hall]. }
  pose proof (budget_step_chat t0 t n e b id Hsz Hid Hn He Hp) as Hstep.
  destruct (budget_step e b) as [granted b1]. destruct Hstep as [Hp1 Hsz1].
  specialize (IH t0 (default t (event_clock e)) T (n + if granted && draft (Some id) e then 1 else 0) b1 Hsz1 Hid).
  assert (Hn1 : 0 <= n + (if granted && draft (Some id) e then 1 else 0)) by (case_match; lia).
  specialize (IH Hn1).
  destruct (drafts (Some id) es b1) as [m b2]. rewrite Z.add_assoc. apply IH; clear IH; try done.
  - destruct (event_clock e) as [now|] eqn:E; [|done]. simpl. unfold clocks in Hc. simpl in Hc.
    rewrite E in Hc. by inversion Hc as [|? ? [? ?]].
  - unfold clocks in *. simpl in *. destruct (event_clock e) as [now|]; simpl; done.
  - unfold clocks in *. simpl in Hc. destruct (event_clock e); [by inversion Hc|done].
Qed.

(** * Properties *)

(** C37: the bot-wide draft rate.  From a fresh budget, over any operations in
    any order at any instants up to [T] (a clock that steps backwards
    included), the drafts let through number at most 20 plus thirty for every
    second since the start: drafts never eat into the ten calls of headroom. *)
Theorem drafts_rate_bounded es t0 T :
  in_i64 t0 -> t0 <= T -> Forall (fun now => in_i64 now /\ now <= T) (clocks es) ->
  1000 * (drafts None es (budget_new t0)).1 <= 20000 + 30 * (T - t0).
Proof.
  intros Ht0 HT Hc. destruct specs_ok as (Hs & _ & _).
  destruct (drafts_paid es t0 T 0 (budget_new t0) Hc) as (b & Ho & [_ _ Hh]);
    [by apply paid_full|done|].
  rewrite Z.add_0_l in Hh. destruct Hh as [->|Hh]; [lia|]. revert Hh.
  assert (capacity global_spec = 90000000) as -> by done.
  assert (refill_per_ms global_spec = 90000) as -> by done.
  unfold TOKEN_SCALE, GLOBAL_EPHEMERAL_HEADROOM. lia.
Qed.

Definition burst (id : Z) (n : nat) (now : Z) : list BudgetEvent :=
  replicate n (BClaim (Some id) Ephemeral now).

Lemma drafts_rate_bounded_witness :
  (drafts None (burst 5 3 0 ++ burst 6 3 0) (budget_new 0)).1 = 4 /\
  1000 * (drafts None (burst 5 3 0 ++ burst 6 3 0) (budget_new 0)).1 <= 20000 + 30 * (10 - 0).
Proof.
  split; [vm_compute; reflexivity|].
  apply (drafts_rate_bounded (burst 5 3 0 ++ burst 6 3 0) 0 10); [vm_compute; split; congruence|lia|].
  repeat constructor; vm_compute; congruence.
Defined.

(** The per-chat draft rate, and the bound on what is remembered.  From a
    fresh budget, over any operations at non-decreasing instants between [t0]
    and [T], one chat receives at most two drafts plus one for every second,
    although the budget forgets chats to make room for others; and it never
    remembers more than 256 chats. *)
Theorem chat_drafts_rate_bounded es id t0 T :
  in_i64 t0 -> t0 <= T -> id <> 0 ->
  StronglySorted Z.le (t0 :: clocks es) -> Forall (fun now => in_i64 now /\ now <= T) (clocks es) ->
  1000 * (drafts (Some id) es (budget_new t0)).1 <= 2000 + (T - t0) /\
  tracked_chats (drafts (Some id) es (budget_new t0)).2 <= MAX_TRACKED_CHATS.
Proof.
  intros Ht0 HT Hid Hs Hc.
  assert (Hn : chat_paid t0 t0 0 (chats (budget_new t0) !! id)).
  { simpl. rewrite lookup_empty. unfold chat_paid. lia. }
  pose proof (drafts_chat_paid es id t0 t0 T 0 (budget_new t0) ltac:(done) Hid ltac:(done) HT Hs Hc Hn) as H.
  destruct (drafts (Some id) es (budget_new t0)) as [n b]. destruct H as [Hp Hsz].
  split; [|done]. cbn [fst]. rewrite Z.add_0_l in Hp. unfold chat_paid in Hp.
  assert (Hr : refill_per_ms chat_spec = 3000) by done.
  assert (Hk : capacity chat_spec = 12000000) by done.
  destruct (chats b !! id) as [c|].
  - destruct Hp as [[_ _ Hh] Ho]. rewrite Hr, Hk in Hh.
    unfold TOKEN_SCALE, CHAT_EPHEMERAL_HEADROOM in Hh. lia.
  - rewrite Hr in Hp. unfold TOKEN_SCALE in Hp. lia.
Qed.

Lemma chat_drafts_rate_bounded_witness :
  (drafts (Some 5) (burst 5 3 0 ++ burst 5 3 1000) (budget_new 0)).1 = 3 /\
  1000 * (drafts (Some 5) (burst 5 3 0 ++ burst 5 3 1000) (budget_new 0)).1 <= 2000 + (1000 - 0).
Proof.
  split; [vm_compute; reflexivity|].
  apply (chat_drafts_rate_bounded (burst 5 3 0 ++ burst 5 3 1000) 5 0 1000);
    [vm_compute; split; congruence|lia|lia|..];
    repeat constructor; vm_compute; congruence.
Defined.

Lemma paused_claim c p now b d :
  paused_until now b = Some d -> claim c p now b = (Err (Paused d), b).
Proof. unfold claim. by intros ->. Qed.

Lemma durable_claim c now b :
  paused_until now b = None -> (claim c Durable now b).1 = Ok tt.
Proof.
  unfold claim. intros ->. cbv zeta. destruct (match c with Some _ => _ | None => _ end) as [id|]; [|done].
  by destruct (entry id now (chats b)) as [[ch|] m].
Qed.

Lemma paused_until_ext now b b' :
  paused_until_ms b' = paused_until_ms b -> paused_until now b' = paused_until now b.
Proof. unfold paused_until. by intros ->. Qed.

(** Pauses are only ever extended. *)
Definition pause_reaches (d : Z) (b : TelegramCallBudget) : Prop :=
  exists d', paused_until_ms b = Some d' /\ d <= d'.

Lemma restore_pause_reaches d t b : pause_reaches d b -> pause_reaches d (restore_pause t b).
Proof.
  intros (d' & E & Hd). unfold restore_pause. case_match; [by exists d'|].
  rewrite E. exists (Z.max d' t). split; [done|lia].
Qed.

Lemma drafts_pause_reaches on es d b :
  pause_reaches d b -> pause_reaches d (drafts on es b).2.
Proof.
  revert b; induction es as [|e es IH]; intros b Hb; cbn [drafts]; [done|].
  assert (Hb1 : pause_reaches d (budget_step e b).2).
  { destruct e as [c p now|retry now|t]; simpl.
    - pose proof (claim_pause c p now b) as Hc. destruct (claim c p now b) as [r b'].
      simpl in *. destruct Hb as (d' & E & Hd). exists d'. by rewrite Hc.
    - by apply restore_pause_reaches.
    - by apply restore_pause_reaches. }
  destruct (budget_step e b) as [g b1]. specialize (IH b1 Hb1).
  by destruct (drafts on es b1) as [n b2].
Qed.

Definition is_claim (e : BudgetEvent) : bool := match e with BClaim _ _ _ => true | _ => false end.

Lemma drafts_claims_pause on es b :
  forallb is_claim es = true -> paused_until_ms (drafts on es b).2 = paused_until_ms b.
Proof.
  revert b; induction es as [|e es IH]; intros b Hes; cbn [drafts]; [done|].
  simpl in Hes. apply andb_true_iff in Hes as [He Hes].
  destruct e as [c p now| |]; try done. simpl. pose proof (claim_pause c p now b) as Hc.
  destruct (claim c p now b) as [r b1]. specialize (IH b1 Hes).
  destruct (drafts on es b1) as [n b2]. simpl in *. congruence.
Qed.

(** Streaming can never starve a final reply.  Whatever claims, drafts or
    not, were made before, a durable claim is granted exactly when no whole-bot
    pause was already live, and is otherwise refused with that pause's
    deadline; it is never refused for want of tokens or of room. *)
Theorem durable_never_starved es b c now :
  forallb is_claim es = true ->
  let b' := (drafts None es b).2 in
  (claim c Durable now b').1 =
  match paused_until now b with None => Ok tt | Some d => Err (Paused d) end.
Proof.
  intros Hes b'. assert (Hp : paused_until now b' = paused_until now b)
    by (apply paused_until_ext; by apply drafts_claims_pause).
  destruct (paused_until now b) as [d|].
  - by rewrite (paused_claim _ _ _ _ d).
  - by apply durable_claim.
Qed.

Lemma durable_never_starved_witness :
  (claim (Some 5) Durable 0 (drafts None (burst 5 40 0) (budget_new 0)).2).1 = Ok tt.
Proof. apply (durable_never_starved (burst 5 40 0) (budget_new 0)). vm_compute. reflexivity. Defined.

(** A rate limit silences the bot until its deadline.  When Telegram
    refuses the bot at [now] for any interval, the deadline returned lies after
    [now] and at most [MAX_PAUSE_MS] after it unless a longer pause was already
    in force; and after any further operations every claim before that deadline,
    durable or not, is refused with a deadline no earlier. *)
Theorem rate_limit_silences retry now b es c p later :
  0 <= retry -> 0 <= now <= i64_max - MAX_PAUSE_MS ->
  let '(d, b') := note_rate_limited retry now b in
  now < d /\ (d <= now + MAX_PAUSE_MS \/ paused_until_ms b = Some d) /\
  (later < d -> exists d', d <= d' /\
     (claim c p later (drafts None es b').2).1 = Err (Paused d')).
Proof.
  intros Hr Hnow. unfold note_rate_limited. cbv zeta.
  assert (Hd : now < pause_deadline retry now <= now + MAX_PAUSE_MS).
  { unfold pause_deadline, MAX_PAUSE_MS in *. case_match; widths; lia. }
  generalize dependent (pause_deadline retry now). intros d Hd. unfold MAX_PAUSE_MS in *.
  unfold restore_pause. rewrite (proj2 (Z.leb_gt _ _)) by lia. cbn [paused_until_ms default].
  set (top := match paused_until_ms b with Some existing => Z.max existing d | None => d end).
  assert (Htop : d <= top /\ (top = d \/ paused_until_ms b = Some top)).
  { unfold top. destruct (paused_until_ms b) as [e|]; [|split; [lia|by left]].
    destruct (Z.max_spec e d) as [[? ->]|[? ->]]; split; (lia || auto). }
  destruct Htop as [Hle Hor]. unfold id.
  split_and!; [lia|destruct Hor as [->|?]; [left; lia|by right]|]. intros Hl.
  destruct (drafts_pause_reaches None es top (mkBudget (global b) (chats b) (Some top)))
    as (d' & E & Hd'); [by exists top; split; [|lia]|].
  exists d'. split; [lia|]. rewrite (paused_claim _ _ _ _ d'); [done|].
  unfold paused_until. rewrite E. by rewrite (proj2 (Z.ltb_lt _ _)) by lia.
Qed.

Lemma rate_limit_silences_witness :
  exists d', 3000 <= d' /\
   (claim None Durable 2999 (drafts None [BRateLimited 1 1500] (note_rate_limited 2000 1000 (budget_new 0)).2).2).1
   = Err (Paused d').
Proof.
  destruct (rate_limit_silences 2000 1000 (budget_new 0) [BRateLimited 1 1500] None Durable 2999)
    as (_ & _ & H); [lia|vm_compute; split; congruence|]. exact (H eq_refl).
Defined.

(** Twenty durable replies to one group, then 255 other chats. *)
Definition group_script : list BudgetEvent :=
  replicate 20 (BClaim (Some (-1)) Durable 0) ++ [BClaim (Some (-2)) Durable 0] ++
  ((fun i => BClaim (Some i) Durable 4000) <$> seqZ 1 254).

(** A group whose own chat bucket has refilled is forgotten together with the
    debt of its per-minute bucket, although forgetting is meant to change no
    future answer: one claim for a 257th chat turns the refusal of a draft into
    a grant. *)
Theorem group_debt_is_forgotten :
  (claim (Some (-1)) Ephemeral 6000 (drafts None group_script (budget_new 0)).2).1 = Err Group /\
  (claim (Some (-1)) Ephemeral 6000
     (drafts None (group_script ++ [BClaim (Some 255) Durable 4000]) (budget_new 0)).2).1 = Ok tt.
Proof. vm_compute. done. Qed.

(** What can refuse a Slack call.  A durable claim is refused only by a live
    pause of its own method, or, for a message to a channel that is not
    tracked, when 256 channels remain tracked after the settled ones were
    dropped; pausing one method changes no answer for another. *)
Theorem slack_durable_refusals m channel now b :
  match (slack_claim m channel Durable now b).1 with
  | Ok _ => slack_paused_until m now b = None
  | Err (SPaused d) => slack_paused_until m now b = Some d /\ now < d
  | Err SUntracked =>
      exists ch, channel = Some ch /\ is_channel_message m = true /\ channels b !! ch = None /\
        MAX_TRACKED_CHATS <= Z.of_nat (size (slack_retain now (channels b)))
  | Err _ => False
  end /\
  forall m' channel' p retry at_ms now', m' <> m ->
    (slack_claim m' channel' p now' (slack_note_rate_limited m retry at_ms b).2).1 =
    (slack_claim m' channel' p now' b).1.
Proof.
  split.
  - unfold slack_claim. destruct (slack_paused_until m now b) as [d|] eqn:Ep.
    { simpl. split; [done|]. unfold slack_paused_until in Ep. repeat case_match; simplify_eq.
      by apply Z.ltb_lt. }
    cbn [is_ephemeral negb channels methods]. cbv zeta.
    destruct (match channel with Some [] => None | c => c end) as [ch|] eqn:Ec; [|done].
    destruct (is_channel_message m) eqn:Em; [|done].
    assert (Hch : channel = Some ch) by (destruct channel as [[|? ?]|]; simplify_eq; done).
    unfold slack_channel. cbv zeta.
    destruct (channels b !! ch) eqn:El.
    { rewrite (bool_decide_eq_true_2 _ (mk_is_Some _ _ eq_refl)). by simpl. }
    rewrite (bool_decide_eq_false_2 (is_Some None)) by (by intros [? ?]). cbn [negb andb].
    destruct (Z.leb_spec MAX_TRACKED_CHATS (Z.of_nat (size (channels b)))).
    + destruct (Z.leb_spec MAX_TRACKED_CHATS (Z.of_nat (size (slack_retain now (channels b))))); [|done].
      simpl. by exists ch.
    + by rewrite (proj2 (Z.leb_gt _ _)) by lia.
  - intros m' channel' p retry at_ms now' Hne. unfold slack_claim, slack_note_rate_limited.
    cbn [snd]. unfold slack_paused_until. cbn [s_paused_until_ms methods channels].
    unfold set_method at 1. rewrite decide_False by done.
    destruct (match s_paused_until_ms b m' with Some _ => _ | None => _ end); [done|].
    destruct (if is_ephemeral p then _ else _) as [[] bk]; [|done]. cbn [negb].
    destruct (match match channel' with Some [] => None | c => c end with Some _ => _ | None => _ end)
      as [[[]|e] chans]; done.
Qed.

(** The refusal of a durable call for want of room is reachable. *)
Definition slack_owing : SlackCallBudget :=
  fold_left (fun b i => (slack_claim ChatPostMessage (Some [65; i]) Durable 0 b).2)
    (seqZ 0 256) (slack_new 0).

Lemma slack_durable_untracked_reachable :
  (slack_claim ChatPostMessage (Some [66]) Durable 1 slack_owing).1 = Err SUntracked.
Proof. vm_compute. reflexivity. Qed.
