(* ===== verification/Codec.v ===== *)
(** The frame codec and the protocol envelope:
    [automonique-protocol/src/codec.rs], with the shared value rules of
    [primitives.rs] they use.

    Lengths are [usize] on a 64-bit target, so converting a [u32] to [usize]
    cannot fail.  A frame is a four-byte big-endian length and that many bytes. *)

From S2P Require Import Prelude Text.

(** * Errors *)

Inductive ValueError :=
| ZeroBound
| VEmpty
| TooLong (max_bytes actual_bytes : Z)
| ControlCharacter.

Inductive CodecError :=
| EmptyFrame
| FrameTooLarge (max_bytes declared_bytes : Z)
| NestingTooDeep (max_depth : Z)
| Field (field : string) (error : ValueError)
| Grammar (field : string)
| UnknownProtocol
| UnsupportedVersion (supported_min supported_max offered : Z)
| NoVersionOverlap (local_min local_max peer_min peer_max : Z)
| InvertedVersionRange (min max : Z)
| UnknownEnumValue (field : string)
| MalformedJson
| NonCanonicalJson
| InvalidJsonValue (field : string)
| DuplicateKey
| TrailingData
| IntegerOutOfRange
| TooManyEntries (max : Z)
| MissingField (field : string).

#[export] Instance ValueError_eq_dec : EqDecision ValueError.
Proof. solve_decision. Defined.
#[export] Instance CodecError_eq_dec : EqDecision CodecError.
Proof. solve_decision. Defined.

Definition category (e : CodecError) : string :=
  match e with
  | EmptyFrame => "empty_frame"
  | FrameTooLarge _ _ => "frame_too_large"
  | NestingTooDeep _ => "nesting_too_deep"
  | Field _ _ => "field_invalid"
  | Grammar _ => "field_grammar"
  | UnknownProtocol => "unknown_protocol"
  | UnsupportedVersion _ _ _ => "unsupported_version"
  | NoVersionOverlap _ _ _ _ => "no_version_overlap"
  | InvertedVersionRange _ _ => "inverted_version_range"
  | UnknownEnumValue _ => "unknown_enum_value"
  | MalformedJson => "malformed_json"
  | NonCanonicalJson => "non_canonical_json"
  | InvalidJsonValue _ => "invalid_json_value"
  | DuplicateKey => "duplicate_key"
  | TrailingData => "trailing_data"
  | IntegerOutOfRange => "integer_out_of_range"
  | TooManyEntries _ => "too_many_entries"
  | MissingField _ => "missing_field"
  end.

Definition wire_code (e : CodecError) : Z :=
  match e with
  | EmptyFrame => 1000
  | FrameTooLarge _ _ => 1001
  | NestingTooDeep _ => 1002
  | Field _ _ => 1003
  | Grammar _ => 1004
  | UnknownProtocol => 1005
  | UnsupportedVersion _ _ _ => 1006
  | NoVersionOverlap _ _ _ _ => 1007
  | InvertedVersionRange _ _ => 1008
  | UnknownEnumValue _ => 1009
  | MalformedJson => 1010
  | NonCanonicalJson => 1011
  | InvalidJsonValue _ => 1012
  | DuplicateKey => 1013
  | TrailingData => 1014
  | IntegerOutOfRange => 1015
  | TooManyEntries _ => 1016
  | MissingField _ => 1017
  end.

(** * Frames *)

Definition LENGTH_PREFIX_BYTES : Z := 4.
Definition MAX_FRAME_BYTES : Z := 8 * 1024 * 1024.

Inductive FrameDecode :=
| Frame (payload : list Z) (consumed : Z)
| NeedMore (additional : Z).

(** [u32::to_be_bytes] and [u32::from_be_bytes]. *)
Definition to_be_bytes (n : Z) : list Z :=
  [Z.shiftr n 24; Z.land (Z.shiftr n 16) 255; Z.land (Z.shiftr n 8) 255; Z.land n 255].

Definition from_be_bytes (bs : list Z) : Z :=
  fold_left (fun acc b => Z.lor (Z.shiftl acc 8) b) bs 0.

Definition encode_frame_with_limit (payload out : list Z) (max_bytes : Z)
  : result CodecError (list Z) :=
  if bool_decide (payload = []) then Err EmptyFrame
  else if max_bytes <? len payload then Err (FrameTooLarge max_bytes (len payload))
  else if u32_max <? len payload then Err (FrameTooLarge max_bytes (len payload))
  else Ok (out ++ to_be_bytes (len payload) ++ payload).

Definition encode_frame (payload out : list Z) : result CodecError (list Z) :=
  encode_frame_with_limit payload out MAX_FRAME_BYTES.

(** [NonZeroUsize::new(additional).unwrap_or(MIN)]. *)
Definition need_more (additional : Z) : FrameDecode := NeedMore (Z.max 1 additional).

(** [slice::get(from..to)]. *)
Definition slice_get (l : list Z) (from to : Z) : option (list Z) :=
  if to <=? len l then Some (take (Z.to_nat (to - from)) (drop (Z.to_nat from) l)) else None.

Definition decode_frame_with_limit (input : list Z) (max_bytes : Z)
  : result CodecError FrameDecode :=
  match slice_get input 0 LENGTH_PREFIX_BYTES with
  | None => Ok (need_more (LENGTH_PREFIX_BYTES - len input))
  | Some prefix =>
      let declared := from_be_bytes prefix in
      if declared =? 0 then Err EmptyFrame
      else if max_bytes <? declared then Err (FrameTooLarge max_bytes declared)
      else
        let total := LENGTH_PREFIX_BYTES + declared in
        match slice_get input LENGTH_PREFIX_BYTES total with
        | Some payload => Ok (Frame payload total)
        | None => Ok (need_more (total - len input))
        end
  end.

Definition decode_frame (input : list Z) : result CodecError FrameDecode :=
  decode_frame_with_limit input MAX_FRAME_BYTES.

(** * Depth *)

Definition MAX_NESTING_DEPTH : Z := 32.

Record DepthGuard := mkDepth { max_depth : Z; depth : Z }.

Definition depth_new : DepthGuard := mkDepth MAX_NESTING_DEPTH 0.
Definition with_max_depth (m : Z) : DepthGuard := mkDepth m 0.

Definition depth_enter (g : DepthGuard) : result CodecError DepthGuard :=
  if depth g =? max_depth g then Err (NestingTooDeep (max_depth g))
  else Ok (mkDepth (max_depth g) (depth g + 1)).

Definition depth_exit (g : DepthGuard) : DepthGuard :=
  mkDepth (max_depth g) (Z.max 0 (depth g - 1)).

(** * Bounded fields *)

Definition MAX_PROTOCOL_NAME_BYTES : Z := 64.
Definition MAX_REQUEST_ID_BYTES : Z := 128.
Definition MAX_MESSAGE_KIND_BYTES : Z := 64.
Definition MAX_ENUM_VALUE_BYTES : Z := 64.

(** [primitives::bounded_value]. *)
Definition bounded_value (value : list Z) (max_bytes : Z) : result ValueError unit :=
  if max_bytes =? 0 then Err ZeroBound
  else if bool_decide (value = []) then Err VEmpty
  else if max_bytes <? str_len value then Err (TooLong max_bytes (str_len value))
  else if existsb is_control value then Err ControlCharacter
  else Ok tt.

Definition validate_bounded_field (value : list Z) (max_bytes : Z) (field : string)
  : result CodecError unit :=
  let error :=
    if max_bytes =? 0 then Some ZeroBound
    else if bool_decide (value = []) then Some VEmpty
    else if max_bytes <? str_len value then Some (TooLong max_bytes (str_len value))
    else if existsb is_control value then Some ControlCharacter
    else None in
  match error with Some e => Err (Field field e) | None => Ok tt end.

(** The macro [bounded_field!]. *)
Definition bounded_field (max : Z) (field : string) (grammar : list Z -> bool) (value : list Z)
  : result CodecError (list Z) :=
  _ ← validate_bounded_field value max field;
  if negb (grammar value) then Err (Grammar field) else Ok value.

(** [str::ends_with(char)] and [str::contains] of two dots. *)
Definition ends_with (c : Z) (t : list Z) : bool := bool_decide (last t = Some c).
Fixpoint has_double_dot (t : list Z) : bool :=
  match t with
  | 46 :: (46 :: _) => true
  | _ :: t => has_double_dot t
  | [] => false
  end.

(** Bytes above ASCII fail every class, so the grammars read the characters. *)
Definition first_is_lowercase (t : list Z) : bool :=
  match t with c :: _ => is_ascii_lowercase c | [] => false end.

Definition protocol_name_grammar (t : list Z) : bool :=
  first_is_lowercase t
  && forallb (fun b => is_ascii_lowercase b || is_ascii_digit b || (b =? 46)) t
  && negb (ends_with 46 t) && negb (has_double_dot t).

Definition request_id_grammar (t : list Z) : bool :=
  forallb (fun b => is_ascii_alphanumeric b || contains b (str "-_.:")) t.

Definition message_kind_grammar (t : list Z) : bool :=
  first_is_lowercase t
  && forallb (fun b => is_ascii_lowercase b || is_ascii_digit b || (b =? 95)) t.

Definition protocol_name_new : list Z -> result CodecError (list Z) :=
  bounded_field MAX_PROTOCOL_NAME_BYTES "protocol" protocol_name_grammar.
Definition request_id_new : list Z -> result CodecError (list Z) :=
  bounded_field MAX_REQUEST_ID_BYTES "request_id" request_id_grammar.
Definition message_kind_new : list Z -> result CodecError (list Z) :=
  bounded_field MAX_MESSAGE_KIND_BYTES "kind" message_kind_grammar.

(** * Versions and envelopes *)

Definition major_version_new (value : Z) : result CodecError Z :=
  if value =? 0 then Err (Field "version" VEmpty) else Ok value.

Record VersionRange := mkRange { range_min : Z; range_max : Z }.

Definition version_range_new (min max : Z) : result CodecError VersionRange :=
  if max <? min then Err (InvertedVersionRange min max) else Ok (mkRange min max).

Definition version_range_exact (v : Z) : VersionRange := mkRange v v.

Definition accepts (r : VersionRange) (v : Z) : bool := (range_min r <=? v) && (v <=? range_max r).

Definition negotiate (local peer : VersionRange) : result CodecError Z :=
  let low := if range_min peer <=? range_min local then range_min local else range_min peer in
  let high := if range_max local <=? range_max peer then range_max local else range_max peer in
  if high <? low then
    Err (NoVersionOverlap (range_min local) (range_max local) (range_min peer) (range_max peer))
  else major_version_new high.

Record Envelope := mkEnvelope {
  env_protocol : list Z;
  env_version : Z;
  env_request_id : list Z;
  env_kind : list Z;
}.

Record SupportedProtocol := mkSupported { sp_name : list Z; sp_versions : VersionRange }.

Definition protocol_admit (p : SupportedProtocol) (e : Envelope) : result CodecError unit :=
  if negb (bool_decide (env_protocol e = sp_name p)) then Err UnknownProtocol
  else if negb (accepts (sp_versions p) (env_version e)) then
    Err (UnsupportedVersion (range_min (sp_versions p)) (range_max (sp_versions p)) (env_version e))
  else Ok tt.

(** The two enum traits, as a field name and a decoder. *)
Class WireEnum (T : Type) := { enum_field : string; from_wire : list Z -> option T }.

Definition decode_security_enum {T} `{WireEnum T} (value : list Z) : result CodecError T :=
  ok_or (from_wire value) (UnknownEnumValue enum_field).

Inductive ReadOnly (T : Type) := Known (t : T) | Unknown (spelling : list Z).
Arguments Known {T} t.
Arguments Unknown {T} spelling.

Definition decode_read_only_enum {T} `{WireEnum T} (value : list Z)
  : result CodecError (ReadOnly T) :=
  match from_wire value with
  | Some known => Ok (Known known)
  | None => _ ← validate_bounded_field value MAX_ENUM_VALUE_BYTES enum_field; Ok (Unknown value)
  end.

(** * Lemmas *)

Lemma land_disjoint a b k : 0 <= k -> 0 <= b < 2 ^ k -> Z.land (a * 2 ^ k) b = 0.
Proof.
  intros Hk Hb. apply Z.bits_inj'. intros n Hn. rewrite Z.land_spec, Z.bits_0.
  destruct (Z.lt_ge_cases n k).
  - by rewrite Z.mul_pow2_bits_low.
  - destruct (Z.eq_dec b 0) as [->|]; [by rewrite Z.bits_0, andb_false_r|].
    rewrite (Z.bits_above_log2 b), andb_false_r; [done|lia|].
    apply Z.log2_lt_pow2; [lia|]. apply Z.lt_le_trans with (2 ^ k); [lia|].
    apply Z.pow_le_mono_r; lia.
Qed.

Lemma shift_byte acc b : 0 <= b < 256 -> Z.lor (Z.shiftl acc 8) b = acc * 256 + b.
Proof.
  intros Hb. rewrite Z.shiftl_mul_pow2 by lia. change 256 with (2 ^ 8) in *.
  rewrite <- (Z.add_lor_land (acc * 2 ^ 8) b). rewrite land_disjoint by lia. lia.
Qed.

Lemma byte_of n k : 0 <= k -> Z.land (Z.shiftr n k) 255 = (n / 2 ^ k) mod 256.
Proof. intros Hk. rewrite Z.shiftr_div_pow2 by done. by apply (Z.land_ones _ 8). Qed.

Lemma to_be_bytes_spec n :
  to_be_bytes n = [n / 2 ^ 24; (n / 2 ^ 16) mod 256; (n / 2 ^ 8) mod 256; n mod 256].
Proof.
  unfold to_be_bytes. rewrite !byte_of, Z.shiftr_div_pow2 by lia.
  repeat f_equal. by apply (Z.land_ones n 8).
Qed.

Lemma from_to_be_bytes n : in_u32 n -> from_be_bytes (to_be_bytes n) = n.
Proof.
  intros Hn. rewrite to_be_bytes_spec. unfold from_be_bytes. simpl fold_left.
  change (2 ^ 24) with 16777216. change (2 ^ 16) with 65536. change (2 ^ 8) with 256.
  rewrite (shift_byte 0) by (widths; Z.to_euclidean_division_equations; lia).
  rewrite !shift_byte by (apply Z.mod_pos_bound; lia).
  widths. Z.to_euclidean_division_equations. lia.
Qed.

(** Four bytes are the big-endian form of what they decode to. *)
Lemma to_from_be_bytes a b c d :
  Forall (fun x => is_byte x = true) [a; b; c; d] ->
  to_be_bytes (from_be_bytes [a; b; c; d]) = [a; b; c; d] /\ in_u32 (from_be_bytes [a; b; c; d]).
Proof.
  intros Hb. rewrite !Forall_cons in Hb. unfold is_byte in Hb. bool_prop.
  assert (E : from_be_bytes [a; b; c; d] = a * 16777216 + b * 65536 + c * 256 + d).
  { unfold from_be_bytes. simpl fold_left. rewrite !shift_byte by lia. lia. }
  rewrite E. split; [|widths; lia]. rewrite to_be_bytes_spec.
  change (2 ^ 24) with 16777216. change (2 ^ 16) with 65536. change (2 ^ 8) with 256.
  repeat f_equal; Z.to_euclidean_division_equations; lia.
Qed.

Lemma to_be_bytes_len n : len (to_be_bytes n) = 4.
Proof. done. Qed.

Lemma slice_get_app l k from :
  from = len l -> slice_get (l ++ k) from (len l + len k) = Some k.
Proof.
  intros ->. unfold slice_get. rewrite len_app, Z.leb_refl. f_equal.
  unfold len. rewrite Nat2Z.id, drop_app_length. apply take_ge. lia.
Qed.

Lemma slice_get_mid l k r :
  slice_get (l ++ k ++ r) (len l) (len l + len k) = Some k.
Proof.
  unfold slice_get. rewrite !len_app. pose proof (len_nonneg r).
  rewrite (proj2 (Z.leb_le _ _)) by lia. f_equal.
  unfold len. rewrite Nat2Z.id, drop_app_length. apply take_app_length'. lia.
Qed.

Lemma slice_get_None l from to : slice_get l from to = None <-> len l < to.
Proof. unfold slice_get. case_match; bool_prop; split; try done; lia. Qed.

(** What the encoder appends. *)
Lemma encode_frame_Ok payload out max_bytes r :
  encode_frame_with_limit payload out max_bytes = Ok r <->
  payload <> [] /\ len payload <= max_bytes /\ len payload <= u32_max /\
  r = out ++ to_be_bytes (len payload) ++ payload.
Proof.
  unfold encode_frame_with_limit. repeat case_match; bool_prop; split; intros; destruct_and?;
    try done; try lia; simplify_eq; try done; split_and!; done || lia.
Qed.

Lemma decode_prefix_short input max_bytes :
  len input < LENGTH_PREFIX_BYTES ->
  decode_frame_with_limit input max_bytes = Ok (NeedMore (LENGTH_PREFIX_BYTES - len input)).
Proof.
  intros H. unfold decode_frame_with_limit. rewrite (proj2 (slice_get_None _ _ _) H).
  unfold need_more. f_equal. f_equal. lia.
Qed.

(** Past the prefix the decoder reads the declared length. *)
Lemma decode_prefixed n rest max_bytes :
  in_u32 n ->
  decode_frame_with_limit (to_be_bytes n ++ rest) max_bytes =
  if n =? 0 then Err EmptyFrame
  else if max_bytes <? n then Err (FrameTooLarge max_bytes n)
  else if n <=? len rest then Ok (Frame (take (Z.to_nat n) rest) (LENGTH_PREFIX_BYTES + n))
  else Ok (NeedMore (n - len rest)).
Proof.
  intros Hn. unfold decode_frame_with_limit.
  assert (slice_get (to_be_bytes n ++ rest) 0 LENGTH_PREFIX_BYTES = Some (to_be_bytes n)) as ->
    by exact (slice_get_mid [] (to_be_bytes n) rest).
  rewrite from_to_be_bytes by done.
  destruct (Z.eqb_spec n 0); [done|]. destruct (Z.ltb_spec max_bytes n); [done|].
  unfold slice_get. rewrite len_app, to_be_bytes_len. unfold LENGTH_PREFIX_BYTES.
  destruct (Z.leb_spec (4 + n) (4 + len rest)), (Z.leb_spec n (len rest)); try lia.
  - replace (4 + n - 4) with n by lia. done.
  - unfold need_more. f_equal. f_equal. widths. lia.
Qed.

(** * Properties *)

(** The frame codec is a lossless, incremental round trip.  A non-empty
    payload within the limit, encoded behind any output and followed by any
    further input, decodes to exactly that payload and the number of bytes it
    occupies; and on every strict prefix of its frame the decoder asks for at
    least one more byte and never for more than the frame still lacks. *)
Theorem frame_roundtrip payload out max_bytes rest :
  payload <> [] -> len payload <= max_bytes -> max_bytes <= u32_max ->
  exists frame, encode_frame_with_limit payload out max_bytes = Ok (out ++ frame) /\
    decode_frame_with_limit (frame ++ rest) max_bytes = Ok (Frame payload (len frame)) /\
    forall n, 0 <= n < len frame ->
      exists k, decode_frame_with_limit (take (Z.to_nat n) frame) max_bytes = Ok (NeedMore k) /\
        1 <= k <= len frame - n.
Proof.
  intros Hp Hl Hu. exists (to_be_bytes (len payload) ++ payload).
  pose proof (len_nonneg payload). assert (len payload <> 0) by (destruct payload; [done|rewrite len_cons; pose proof (len_nonneg payload); lia]).
  assert (Hin : in_u32 (len payload)) by (widths; lia). split_and!.
  - by apply encode_frame_Ok; split_and!; [|lia|lia|].
  - rewrite <- app_assoc, decode_prefixed by done. rewrite len_app, len_app, to_be_bytes_len.
    pose proof (len_nonneg rest).
    destruct (Z.eqb_spec (len payload) 0); [lia|]. rewrite (proj2 (Z.ltb_ge _ _)) by lia.
    rewrite (proj2 (Z.leb_le _ _)) by lia. f_equal. f_equal. apply take_app_length'. unfold len. lia.
  - intros n Hn. rewrite len_app, to_be_bytes_len in *.
    destruct (Z.lt_ge_cases n 4) as [H4|H4].
    + exists (4 - n). split; [|lia]. rewrite decode_prefix_short; unfold LENGTH_PREFIX_BYTES, len;
        rewrite length_take, length_app; change (length (to_be_bytes _)) with 4%nat;
        rewrite Nat.min_l by lia; [do 2 f_equal; lia|lia].
    + exists (len payload - (n - 4)). split; [|lia].
      assert (E : take (Z.to_nat n) (to_be_bytes (len payload) ++ payload) =
        to_be_bytes (len payload) ++ take (Z.to_nat (n - 4)) payload).
      { rewrite take_app. change (length (to_be_bytes _)) with 4%nat. rewrite take_ge by (simpl; lia).
        do 2 f_equal. lia. }
      rewrite E, decode_prefixed by done.
      assert (El : len (take (Z.to_nat (n - 4)) payload) = n - 4)
        by (unfold len in *; rewrite length_take; lia).
      rewrite El. destruct (Z.eqb_spec (len payload) 0); [lia|].
      rewrite (proj2 (Z.ltb_ge _ _)) by lia. rewrite (proj2 (Z.leb_gt _ _)) by lia. done.
Qed.

Lemma frame_roundtrip_witness :
  exists frame, encode_frame_with_limit [123; 125] [] 16 = Ok ([] ++ frame) /\ frame = [0; 0; 0; 2; 123; 125].
Proof.
  destruct (frame_roundtrip [123; 125] [] 16 []) as (frame & E & _);
    [congruence|vm_compute; congruence|vm_compute; congruence|].
  exists frame. split; [exact E|]. vm_compute in E. by simplify_eq.
Defined.

(** The decoder accepts only what the encoder writes, and judges the length
    before anything else.  Whatever input yields a frame begins with the
    encoding of that payload and the count is its length; and on input of at
    least four bytes a zero or oversized declared length is refused without
    waiting for, or looking at, a single payload byte. *)
Theorem frame_decode_sound input max_bytes :
  Forall (fun b => is_byte b = true) input ->
  (forall payload consumed, decode_frame_with_limit input max_bytes = Ok (Frame payload consumed) ->
     exists rest, input = to_be_bytes (len payload) ++ payload ++ rest /\
       consumed = 4 + len payload /\ payload <> [] /\ len payload <= max_bytes) /\
  (forall e, decode_frame_with_limit input max_bytes = Err e <->
     exists n rest, input = to_be_bytes n ++ rest /\ in_u32 n /\
       (n = 0 /\ e = EmptyFrame \/ n <> 0 /\ max_bytes < n /\ e = FrameTooLarge max_bytes n)).
Proof.
  intros Hb. destruct (Z.lt_ge_cases (len input) 4) as [Hs|Hs].
  { rewrite decode_prefix_short by done. split; [done|]. intros e. split; [done|].
    intros (n & rest & E & _). rewrite E, len_app, to_be_bytes_len in Hs.
    pose proof (len_nonneg rest). lia. }
  destruct input as [|a [|b [|c [|d rest]]]]; try (exfalso; unfold len in Hs; simpl in Hs; lia).
  rewrite !Forall_cons in Hb. destruct Hb as (Ha & Hb & Hc & Hd & _).
  destruct (to_from_be_bytes a b c d) as [E Hn]; [by repeat apply Forall_cons_2|].
  set (n := from_be_bytes [a; b; c; d]) in *.
  assert (Hin : a :: b :: c :: d :: rest = to_be_bytes n ++ rest) by (by rewrite E).
  rewrite Hin, decode_prefixed by done. split.
  - intros payload consumed. destruct (Z.eqb_spec n 0); [done|].
    destruct (Z.ltb_spec max_bytes n); [done|]. destruct (Z.leb_spec n (len rest)); [|done].
    intros [= <- <-]. exists (drop (Z.to_nat n) rest).
    assert (El : len (take (Z.to_nat n) rest) = n)
      by (unfold len in *; rewrite length_take; widths; lia).
    rewrite El, take_drop. split_and!; [done|unfold LENGTH_PREFIX_BYTES; lia| |lia].
    intros Enil. rewrite Enil in El. unfold len in El. simpl in El. lia.
  - intros e. split.
    + intros He. exists n, rest. split_and!; [done|done|].
      destruct (Z.eqb_spec n 0); [left; naive_solver|right].
      destruct (Z.ltb_spec max_bytes n); [naive_solver|]. by destruct (n <=? len rest).
    + intros (n' & rest' & E' & Hn' & He).
      assert (n' = n /\ rest' = rest) as [-> ->].
      { apply app_inj_1 in E' as [E1 ->]; [|done]. split; [|done].
        rewrite <- (from_to_be_bytes n'), <- (from_to_be_bytes n) by done. by rewrite E1. }
      destruct He as [[-> ->]|(H1 & H2 & ->)]; [done|].
      destruct (Z.eqb_spec n 0); [lia|]. by rewrite (proj2 (Z.ltb_lt _ _)) by lia.
Qed.

Lemma frame_decode_sound_witness :
  decode_frame [255; 255; 255; 255] = Err (FrameTooLarge MAX_FRAME_BYTES 4294967295).
Proof.
  apply (frame_decode_sound [255; 255; 255; 255] MAX_FRAME_BYTES).
  - repeat constructor.
  - exists 4294967295, []. vm_compute. split; [reflexivity|]. split; [split; congruence|].
    right. repeat split; congruence.
Defined.

(** Version negotiation picks the highest common major version.  For two
    well-formed ranges it answers [v] exactly when both accept [v] and no
    higher version is accepted by both; it fails exactly when they share none;
    and it is symmetric in success. *)
Theorem negotiate_highest local peer :
  1 <= range_min local <= range_max local -> 1 <= range_min peer <= range_max peer ->
  (forall v, negotiate local peer = Ok v <->
     accepts local v = true /\ accepts peer v = true /\
     forall w, accepts local w = true -> accepts peer w = true -> w <= v) /\
  (forall e, negotiate local peer = Err e <->
     e = NoVersionOverlap (range_min local) (range_max local) (range_min peer) (range_max peer) /\
     forall w, accepts local w = true -> accepts peer w = false) /\
  ok (negotiate local peer) = ok (negotiate peer local).
Proof.
  intros Hl Hp. unfold negotiate, accepts, major_version_new. destruct local as [a b], peer as [c d].
  cbn [range_min range_max] in *.
  assert (Hlow : (if c <=? a then a else c) = Z.max a c) by (destruct (Z.leb_spec c a); lia).
  assert (Hlow' : (if a <=? c then c else a) = Z.max a c) by (destruct (Z.leb_spec a c); lia).
  assert (Hhigh : (if b <=? d then b else d) = Z.min b d) by (destruct (Z.leb_spec b d); lia).
  assert (Hhigh' : (if d <=? b then d else b) = Z.min b d) by (destruct (Z.leb_spec d b); lia).
  rewrite Hlow, Hlow', Hhigh, Hhigh'.
  destruct (Z.ltb_spec (Z.min b d) (Z.max a c)) as [H|H].
  - split_and!; [|intros e; split|done].
    + intros v. split; [done|]. intros (H1 & H2 & _). bool_prop. lia.
    + intros [= <-]. split; [done|]. intros w Hw. bool_prop. lia.
    + by intros [-> _].
  - destruct (Z.eqb_spec (Z.min b d) 0); [lia|]. split_and!; [intros v; split|intros e; split; [done|]|done].
    + intros [= <-]. bool_prop. split_and!; try lia.
    + intros (H1 & H2 & H3). bool_prop. specialize (H3 (Z.min b d)). bool_prop. f_equal; lia.
    + intros [_ Hn]. specialize (Hn (Z.min b d)). bool_prop; lia.
Qed.

Lemma negotiate_highest_witness : negotiate (mkRange 1 4) (mkRange 2 9) = Ok 4.
Proof.
  apply (negotiate_highest (mkRange 1 4) (mkRange 2 9)); [cbn; lia|cbn; lia|].
  split; [reflexivity|]. split; [reflexivity|]. intros w H1 H2.
  unfold accepts in *. cbn in *. apply andb_true_iff in H1 as [_ H1]. by apply Z.leb_le in H1.
Defined.
