(* ===== verification/Wire.v ===== *)
(** Strict canonical JSON and the protocol message:
    [automonique-protocol/src/wire.rs].

    The parser's [position] into the input is the suffix that remains, and a
    loop of the source is a recursion with fuel over it; [None] is running out
    of fuel, which [parse_total] shows never happens with the fuel
    [parse_canonical] supplies (two units per remaining byte, plus one).
    A [String] is the list of its characters, a byte slice a list of bytes. *)

From S2P Require Import Prelude Text Codec.

Definition MAX_JSON_STRING_BYTES : Z := 64 * 1024.
Definition MAX_JSON_ENTRIES : Z := 4096.

#[warnings="-register-all"]
Inductive JsonValue :=
| Null
| JBool (b : bool)
| Integer (z : Z)
| JString (t : list Z)
| Array (items : list JsonValue)
| Object (entries : list (list Z * JsonValue)).

(** * Accessors *)

Definition json_get (v : JsonValue) (key : list Z) : option JsonValue :=
  match v with
  | Object entries => snd <$> List.find (fun e => bool_decide (fst e = key)) entries
  | _ => None
  end.

Definition as_str (v : JsonValue) : option (list Z) :=
  match v with JString t => Some t | _ => None end.
Definition as_integer (v : JsonValue) : option Z :=
  match v with Integer z => Some z | _ => None end.
Definition as_array (v : JsonValue) : option (list JsonValue) :=
  match v with Array l => Some l | _ => None end.

(** * The canonical writer *)

Definition hex_digit (n : Z) : Z := if n <? 10 then 48 + n else 87 + n.

(** One character of a string, escaped ([{:04x}] of a control below 32). *)
Definition escape_char (c : Z) : list Z :=
  if c =? 34 then [92; 34]
  else if c =? 92 then [92; 92]
  else if c =? 8 then [92; 98]
  else if c =? 12 then [92; 102]
  else if c =? 10 then [92; 110]
  else if c =? 13 then [92; 114]
  else if c =? 9 then [92; 116]
  else if c <? 32 then [92; 117; 48; 48; hex_digit (c / 16); hex_digit (c mod 16)]
  else encode_char c.

Definition write_canonical_string (t : list Z) : list Z :=
  34 :: mjoin (escape_char <$> t) ++ [34].

(** Elements separated by commas. *)
Fixpoint comma_separated (l : list (list Z)) : list Z :=
  match l with
  | [] => []
  | [x] => x
  | x :: l => x ++ 44 :: comma_separated l
  end.

(** [sort_by] on the key bytes: a stable sort, as insertion.  Sorting the
    written entries is sorting the entries, since only the keys are compared. *)
Definition key_leb {A} (x y : list Z * A) : bool := bytes_leb (utf8 (fst x)) (utf8 (fst y)).

Fixpoint insert_entry {A} (x : list Z * A) (l : list (list Z * A)) : list (list Z * A) :=
  match l with
  | [] => [x]
  | y :: l' => if key_leb x y then x :: l else y :: insert_entry x l'
  end.

Definition sort_entries {A} (l : list (list Z * A)) : list (list Z * A) :=
  foldr insert_entry [] l.

Definition write_entry (e : list Z * list Z) : list Z :=
  write_canonical_string (fst e) ++ 58 :: snd e.

Fixpoint to_canonical_bytes (v : JsonValue) : list Z :=
  match v with
  | Null => str "null"
  | JBool true => str "true"
  | JBool false => str "false"
  | Integer z => dec z
  | JString t => write_canonical_string t
  | Array items => 91 :: comma_separated (map to_canonical_bytes items) ++ [93]
  | Object entries =>
      123 :: comma_separated (map write_entry (sort_entries
        (map (fun e => (fst e, to_canonical_bytes (snd e))) entries))) ++ [125]
  end.

(** * The parser *)

Definition Parse (A : Type) : Type := option (result CodecError (A * list Z)).

Definition pret {A} (a : A) (rest : list Z) : Parse A := Some (Ok (a, rest)).
Definition pfail {A} (e : CodecError) : Parse A := Some (Err e).
Definition pbind {A B} (m : Parse A) (k : A -> list Z -> Parse B) : Parse B :=
  match m with
  | None => None
  | Some (Err e) => Some (Err e)
  | Some (Ok (a, rest)) => k a rest
  end.

Definition is_ws (b : Z) : bool := (b =? 32) || (b =? 9) || (b =? 10) || (b =? 13).

Fixpoint skip_whitespace (input : list Z) : list Z :=
  match input with
  | b :: rest => if is_ws b then skip_whitespace rest else input
  | [] => []
  end.

Definition expect (byte : Z) (input : list Z) : Parse unit :=
  match input with
  | b :: rest => if b =? byte then pret tt rest else pfail MalformedJson
  | [] => pfail MalformedJson
  end.

Definition literal (word : list Z) (input : list Z) : Parse unit :=
  match strip_prefix word input with
  | Some rest => pret tt rest
  | None => pfail MalformedJson
  end.

Definition hex_value (b : Z) : option Z :=
  if in_range 48 57 b then Some (b - 48)
  else if in_range 97 102 b then Some (b - 87)
  else if in_range 65 70 b then Some (b - 55)
  else None.

Fixpoint hex_number (acc : Z) (bs : list Z) : option Z :=
  match bs with
  | [] => Some acc
  | b :: bs => match hex_value b with Some d => hex_number (16 * acc + d) bs | None => None end
  end.

(** [u32::from_str_radix(text, 16)] on four bytes: a leading plus is allowed. *)
Definition from_str_radix_16 (bs : list Z) : option Z :=
  match bs with
  | 43 :: d :: ds => hex_number 0 (d :: ds)
  | _ => hex_number 0 bs
  end.

Definition parse_unicode_escape (input : list Z) : Parse Z :=
  match input with
  | h1 :: h2 :: h3 :: h4 :: rest =>
      match from_utf8 [h1; h2; h3; h4] with
      | None => pfail MalformedJson
      | Some text =>
          match from_str_radix_16 text with
          | Some code => if is_scalar code then pret code rest else pfail MalformedJson
          | None => pfail MalformedJson
          end
      end
  | _ => pfail MalformedJson
  end.

Definition simple_escape (b : Z) : option Z :=
  if b =? 34 then Some 34
  else if b =? 92 then Some 92
  else if b =? 47 then Some 47
  else if b =? 98 then Some 8
  else if b =? 102 then Some 12
  else if b =? 110 then Some 10
  else if b =? 114 then Some 13
  else if b =? 116 then Some 9
  else None.

(** One turn of the loop of [parse_string], up to the length check: the end of
    the string, or one character. *)
Definition parse_char (input : list Z) : Parse (option Z) :=
  match input with
  | [] => pfail MalformedJson
  | b :: rest =>
      if b =? 34 then pret None rest
      else if b =? 92 then
        match rest with
        | [] => pfail MalformedJson
        | e :: rest =>
            match simple_escape e with
            | Some c => pret (Some c) rest
            | None => if e =? 117 then pbind (parse_unicode_escape rest) (fun c rest => pret (Some c) rest)
                      else pfail MalformedJson
            end
        end
      else if b <? 32 then pfail MalformedJson
      else if b <? 128 then pret (Some b) rest
      else match from_utf8 (b :: rest) with
           | Some (c :: _) => pret (Some c) (drop (length (encode_char c)) (b :: rest))
           | _ => pfail MalformedJson
           end
  end.

Definition string_too_long (t : list Z) : CodecError :=
  Field "json_string" (TooLong MAX_JSON_STRING_BYTES (str_len t)).

Fixpoint parse_chars (fuel : nat) (value : list Z) (input : list Z) : Parse (list Z) :=
  match fuel with
  | O => None
  | S fuel =>
      pbind (parse_char input) (fun c rest =>
        match c with
        | None => pret value rest
        | Some c =>
            let value := value ++ [c] in
            if MAX_JSON_STRING_BYTES <? str_len value then pfail (string_too_long value)
            else parse_chars fuel value rest
        end)
  end.

Definition parse_string (input : list Z) : Parse (list Z) :=
  pbind (expect 34 input) (fun _ rest => parse_chars (S (length rest)) [] rest).

Fixpoint span_digits (input : list Z) : list Z * list Z :=
  match input with
  | b :: rest => if is_ascii_digit b then let '(ds, r) := span_digits rest in (b :: ds, r)
                 else ([], input)
  | [] => ([], [])
  end.

Definition parse_integer (input : list Z) : Parse JsonValue :=
  let '(negative, body) := match input with 45 :: rest => (true, rest) | _ => (false, input) end in
  let '(digits, rest) := span_digits body in
  if bool_decide (digits = []) then pfail MalformedJson
  else if match rest with b :: _ => (b =? 46) || (b =? 101) || (b =? 69) | [] => false end
  then pfail (InvalidJsonValue "json_number")
  else if (1 <? len digits) && bool_decide (head digits = Some 48) then pfail NonCanonicalJson
  else if negative && bool_decide (digits = [48]) then pfail NonCanonicalJson
  else
    let magnitude := dec_value digits in
    match check_i64 (if negative then - magnitude else magnitude) with
    | Some z => pret (Integer z) rest
    | None => pfail IntegerOutOfRange
    end.

Definition is_close (close : Z) (input : list Z) : bool :=
  match input with b :: _ => b =? close | [] => false end.

(** [match self.peek()] after an element: go on, stop or fail. *)
Inductive After := More (rest : list Z) | Stop (rest : list Z) | Neither.
Definition after_element (close : Z) (input : list Z) : After :=
  match input with
  | b :: rest => if b =? 44 then More rest else if b =? close then Stop rest else Neither
  | [] => Neither
  end.

Definition too_many : CodecError := TooManyEntries MAX_JSON_ENTRIES.

Fixpoint parse_value (fuel : nat) (g : DepthGuard) (input : list Z) {struct fuel} : Parse JsonValue :=
  match fuel with
  | O => None
  | S fuel =>
      match input with
      | [] => pfail MalformedJson
      | b :: after =>
          if b =? 110 then pbind (literal (str "null") input) (fun _ rest => pret Null rest)
          else if b =? 116 then pbind (literal (str "true") input) (fun _ rest => pret (JBool true) rest)
          else if b =? 102 then pbind (literal (str "false") input) (fun _ rest => pret (JBool false) rest)
          else if b =? 34 then pbind (parse_string input) (fun t rest => pret (JString t) rest)
          else if b =? 91 then
            match depth_enter g with
            | Err e => pfail e
            | Ok g =>
                let rest := skip_whitespace after in
                if is_close 93 rest then pret (Array []) (tail rest)
                else parse_items fuel g [] rest
            end
          else if b =? 123 then
            match depth_enter g with
            | Err e => pfail e
            | Ok g =>
                let rest := skip_whitespace after in
                if is_close 125 rest then pret (Object []) (tail rest)
                else parse_entries fuel g [] rest
            end
          else if (b =? 45) || is_ascii_digit b then parse_integer input
          else pfail MalformedJson
      end
  end
with parse_items (fuel : nat) (g : DepthGuard) (items : list JsonValue) (input : list Z)
  {struct fuel} : Parse JsonValue :=
  match fuel with
  | O => None
  | S fuel =>
      pbind (parse_value fuel g (skip_whitespace input)) (fun v rest =>
        let items := items ++ [v] in
        let rest := skip_whitespace rest in
        if MAX_JSON_ENTRIES <? len items then pfail too_many
        else match after_element 93 rest with
             | More rest => parse_items fuel g items rest
             | Stop rest => pret (Array items) rest
             | Neither => pfail MalformedJson
             end)
  end
with parse_entries (fuel : nat) (g : DepthGuard) (entries : list (list Z * JsonValue))
  (input : list Z) {struct fuel} : Parse JsonValue :=
  match fuel with
  | O => None
  | S fuel =>
      pbind (parse_string (skip_whitespace input)) (fun key rest =>
        let rest := skip_whitespace rest in
        if existsb (fun e => bool_decide (fst e = key)) entries then pfail DuplicateKey
        else pbind (expect 58 rest) (fun _ rest =>
          pbind (parse_value fuel g (skip_whitespace rest)) (fun v rest =>
            let rest := skip_whitespace rest in
            let entries := entries ++ [(key, v)] in
            if MAX_JSON_ENTRIES <? len entries then pfail too_many
            else match after_element 125 rest with
                 | More rest => parse_entries fuel g entries rest
                 | Stop rest => pret (Object entries) rest
                 | Neither => pfail MalformedJson
                 end)))
  end.

Definition parse_fuel (input : list Z) : nat := S (2 * length input).

Definition parse_canonical (payload : list Z) : result CodecError JsonValue :=
  match from_utf8 payload with
  | None => Err MalformedJson
  | Some _ =>
      let input := skip_whitespace payload in
      match parse_value (parse_fuel input) depth_new input with
      | None => Err MalformedJson
      | Some (Err e) => Err e
      | Some (Ok (value, rest)) =>
          if negb (bool_decide (skip_whitespace rest = [])) then Err TrailingData
          else if negb (bool_decide (to_canonical_bytes value = payload)) then Err NonCanonicalJson
          else Ok value
      end
  end.

(** * Messages *)

Record Message := mkMessage { msg_envelope : Envelope; msg_body : JsonValue }.

Definition message_value (m : Message) : JsonValue :=
  Object [(str "body", msg_body m);
          (str "kind", JString (env_kind (msg_envelope m)));
          (str "protocol", JString (env_protocol (msg_envelope m)));
          (str "request_id", JString (env_request_id (msg_envelope m)));
          (str "version", Integer (env_version (msg_envelope m)))].

Definition message_to_bytes (m : Message) : list Z := to_canonical_bytes (message_value m).

Definition required_string (v : JsonValue) (field : string) (max_bytes : Z)
  : result CodecError (list Z) :=
  found ← ok_or (json_get v (str field)) (MissingField field);
  text ← ok_or (as_str found) (InvalidJsonValue field);
  if max_bytes <? str_len text then Err (Field field (TooLong max_bytes (str_len text)))
  else Ok text.

Definition message_from_bytes (payload : list Z) : result CodecError Message :=
  value ← parse_canonical payload;
  protocol ← required_string value "protocol" MAX_PROTOCOL_NAME_BYTES;
  request_id ← required_string value "request_id" MAX_REQUEST_ID_BYTES;
  kind ← required_string value "kind" MAX_MESSAGE_KIND_BYTES;
  found ← ok_or (json_get value (str "version")) (MissingField "version");
  version ← ok_or (as_integer found) (InvalidJsonValue "version");
  version ← ok_or (check_u32 version) (InvalidJsonValue "version");
  body ← ok_or (json_get value (str "body")) (MissingField "body");
  protocol ← protocol_name_new protocol;
  version ← major_version_new version;
  request_id ← request_id_new request_id;
  kind ← message_kind_new kind;
  Ok (mkMessage (mkEnvelope protocol version request_id kind) body).

(** The loop over the supported protocols, with the refusal it would report. *)
Fixpoint admit_first (m : Message) (refusal : CodecError) (supported : list SupportedProtocol)
  : result CodecError Message :=
  match supported with
  | [] => Err refusal
  | p :: supported =>
      match protocol_admit p (msg_envelope m) with
      | Ok _ => Ok m
      | Err UnknownProtocol => admit_first m refusal supported
      | Err version =>
          admit_first m (if bool_decide (refusal = UnknownProtocol) then version else refusal) supported
      end
  end.

Definition message_from_bytes_admitted (payload : list Z) (supported : list SupportedProtocol)
  : result CodecError Message :=
  m ← message_from_bytes payload; admit_first m UnknownProtocol supported.

Example parses_canonical :
  parse_canonical (str "{" ++ write_canonical_string (str "a") ++ str ":[1,-2,true,null]}") =
  Ok (Object [(str "a", Array [Integer 1; Integer (-2); JBool true; Null])]).
Proof. vm_compute. reflexivity. Qed.

Example refuses_spellings :
  parse_canonical (str "[1 ]") = Err NonCanonicalJson /\
  parse_canonical (str "[01]") = Err NonCanonicalJson /\
  parse_canonical (str "1.5") = Err (InvalidJsonValue "json_number") /\
  parse_canonical (str "[1]x") = Err TrailingData /\
  parse_canonical (replicate 33 91 ++ replicate 33 93) = Err (NestingTooDeep 32) /\
  parse_canonical (str "9223372036854775808") = Err IntegerOutOfRange.
Proof. vm_compute. done. Qed.
