(* ===== verification/WireCanonical.v ===== *)
(** Canonical JSON is a bijection.

    The parser of [Wire] accepts exactly the canonical encodings of the values
    within its limits whose object keys are in order, it never runs out of the
    fuel it is given, and what it accepts re-encodes to the same bytes. *)

From S2P Require Import Prelude Text Codec Wire.

(** * Values within limits, values in order *)

Definition text_ok (t : list Z) : bool :=
  forallb is_scalar t && (str_len t <=? MAX_JSON_STRING_BYTES).

(** The value fits [d] further levels and every ceiling, and keys are unique. *)
Fixpoint limits (v : JsonValue) (d : Z) : bool :=
  match v with
  | Null | JBool _ => true
  | Integer z => (i64_min <=? z) && (z <=? i64_max)
  | JString t => text_ok t
  | Array items =>
      (0 <? d) && (len items <=? MAX_JSON_ENTRIES) && forallb (fun v => limits v (d - 1)) items
  | Object entries =>
      (0 <? d) && (len entries <=? MAX_JSON_ENTRIES)
      && bool_decide (NoDup (map fst entries))
      && forallb (fun e => text_ok (fst e) && limits (snd e) (d - 1)) entries
  end.

Fixpoint sortedb {A} (l : list (list Z * A)) : bool :=
  match l with
  | x :: l => match l with y :: _ => key_leb x y | [] => true end && sortedb l
  | [] => true
  end.

(** Every object lists its keys in byte order. *)
Fixpoint keys_in_order (v : JsonValue) : bool :=
  match v with
  | Array items => forallb keys_in_order items
  | Object entries => sortedb entries && forallb (fun e => keys_in_order (snd e)) entries
  | _ => true
  end.

Definition canonical (v : JsonValue) : bool := limits v MAX_NESTING_DEPTH && keys_in_order v.

(** The induction principle through both containers. *)
Section induction.
Context (P : JsonValue -> Prop).
Context (Hnull : P Null) (Hbool : forall b, P (JBool b)) (Hint : forall z, P (Integer z))
  (Hstr : forall t, P (JString t)) (Harr : forall l, Forall P l -> P (Array l))
  (Hobj : forall l, Forall (fun e => P (snd e)) l -> P (Object l)).

Fixpoint json_ind (v : JsonValue) : P v :=
  match v with
  | Null => Hnull
  | JBool b => Hbool b
  | Integer z => Hint z
  | JString t => Hstr t
  | Array l => Harr l ((fix go l : Forall P l :=
      match l with [] => Forall_nil_2 _ | x :: l => Forall_cons_2 _ _ _ (json_ind x) (go l) end) l)
  | Object l => Hobj l ((fix go l : Forall (fun e => P (snd e)) l :=
      match l with [] => Forall_nil_2 _ | x :: l => Forall_cons_2 _ _ _ (json_ind (snd x)) (go l) end) l)
  end.
End induction.

(** * UTF-8 validity of what is written *)

Definition valid (bs : list Z) : Prop := is_Some (from_utf8 bs).

Lemma valid_char c bs : is_scalar c = true -> valid bs -> valid (encode_char c ++ bs).
Proof. intros Hc [t Ht]. exists (c :: t). by rewrite from_utf8_encode_char, Ht. Qed.

Lemma valid_ascii b bs : in_range 0 0x7F b = true -> valid bs -> valid (b :: bs).
Proof. intros Hb [t Ht]. exists (b :: t). simpl. by rewrite Hb, Ht. Qed.

Lemma valid_ascii_app l bs :
  Forall (fun b => in_range 0 0x7F b = true) l -> valid bs -> valid (l ++ bs).
Proof. induction 1; [done|]. intros. simpl. by apply valid_ascii; auto. Qed.

Lemma hex_digit_ascii n : 0 <= n < 16 -> in_range 0 0x7F (hex_digit n) = true.
Proof. unfold hex_digit, in_range. intros. case_match; bool_prop; lia. Qed.

Ltac const_guards :=
  repeat match goal with
  | |- context [?a =? ?b] => destruct (Z.eqb_spec a b); [subst|]
  | |- context [?a <? ?b] => destruct (Z.ltb_spec a b)
  end.

Lemma escape_char_cases c :
  is_scalar c = true ->
  (c >= 32 /\ c <> 34 /\ c <> 92 /\ escape_char c = encode_char c) \/
  (exists e, simple_escape e = Some c /\ escape_char c = [92; e] /\ in_range 0 0x7F e = true) \/
  (0 <= c < 32 /\ escape_char c = [92; 117; 48; 48; hex_digit (c / 16); hex_digit (c mod 16)]).
Proof.
  unfold is_scalar. intros Hc. bool_prop. unfold escape_char.
  const_guards; try lia;
    try (right; left; eexists; split; [|split]; [|reflexivity|]; reflexivity).
  - right; right. split; [lia|done].
  - left. by split_and!; [lia|..].
Qed.

Lemma valid_escape c bs : is_scalar c = true -> valid bs -> valid (escape_char c ++ bs).
Proof.
  intros Hc Hb. destruct (escape_char_cases c Hc) as [(_ & _ & _ & ->)|[(e & _ & -> & He)|(Hr & ->)]].
  - by apply valid_char.
  - apply valid_ascii_app; [|done]. repeat constructor; done.
  - apply valid_ascii_app; [|done].
    repeat apply Forall_cons_2; try done; try apply Forall_nil_2;
      apply hex_digit_ascii; Z.to_euclidean_division_equations; lia.
Qed.

Lemma valid_escapes t bs :
  forallb is_scalar t = true -> valid bs -> valid (mjoin (escape_char <$> t) ++ bs).
Proof.
  induction t as [|c t IH]; [done|]. simpl. rewrite andb_true_iff. intros [Hc Ht] Hb.
  rewrite <- app_assoc. apply valid_escape; [done|]. by apply IH.
Qed.

Lemma valid_string t bs :
  text_ok t = true -> valid bs -> valid (write_canonical_string t ++ bs).
Proof.
  unfold text_ok. rewrite andb_true_iff. intros [Ht _] Hb.
  unfold write_canonical_string. simpl. apply valid_ascii; [done|].
  rewrite <- app_assoc. apply valid_escapes; [done|]. by apply valid_ascii.
Qed.

(** * Strings round-trip *)

Lemma hex_value_digit n : 0 <= n < 16 -> hex_value (hex_digit n) = Some n.
Proof.
  intros Hn. unfold hex_digit, hex_value, in_range.
  destruct (Z.ltb_spec n 10).
  - rewrite !(proj2 (Z.leb_le _ _)) by lia. simpl. f_equal. lia.
  - rewrite (proj2 (Z.leb_gt (87 + n) 57)), andb_false_r by lia.
    rewrite !(proj2 (Z.leb_le _ _)) by lia. simpl. f_equal. lia.
Qed.

Lemma parse_char_escape c rest :
  is_scalar c = true -> valid rest -> parse_char (escape_char c ++ rest) = pret (Some c) rest.
Proof.
  intros Hc Hv. pose proof Hc as Hs. unfold is_scalar in Hs. bool_prop.
  destruct (escape_char_cases c Hc) as [(H1 & H2 & H3 & ->)|[(e & He & -> & _)|(Hr & ->)]].
  - destruct Hv as [t Ht].
    pose proof (from_utf8_encode_char c rest Hc) as Hu. rewrite Ht in Hu.
    destruct (encode_char_cases c Hc) as [[Hk E]|Hk].
    + rewrite E. simpl. const_guards; try lia. done.
    + assert (exists b0 r0, encode_char c = b0 :: r0 /\ 128 <= b0) as (b0 & r0 & E & Hb).
      { destruct Hk as [[? ->]|[[? ->]|[? ->]]]; eexists _, _; (split; [reflexivity|]);
          Z.to_euclidean_division_equations; lia. }
      rewrite E in *. simpl app in *. unfold parse_char.
      destruct (Z.eqb_spec b0 34); [lia|]. destruct (Z.eqb_spec b0 92); [lia|].
      destruct (Z.ltb_spec b0 32); [lia|]. destruct (Z.ltb_spec b0 128); [lia|].
      rewrite Hu. cbn [fmap option_fmap option_map]. rewrite E.
      rewrite app_comm_cons, drop_app_length. done.
  - simpl. by rewrite He.
  - unfold parse_char. cbn [app Z.eqb Pos.eqb simple_escape]. unfold parse_unicode_escape.
    assert (Hh1 : 0 <= c / 16 < 16) by (Z.to_euclidean_division_equations; lia).
    assert (Hh2 : 0 <= c mod 16 < 16) by (Z.to_euclidean_division_equations; lia).
    assert (Hd : forall n, 0 <= n < 16 -> in_range 0 0x7F (hex_digit n) = true) by apply hex_digit_ascii.
    assert (from_utf8 [48; 48; hex_digit (c / 16); hex_digit (c mod 16)] =
      Some [48; 48; hex_digit (c / 16); hex_digit (c mod 16)]) as ->.
    { cbn -[hex_digit]. by rewrite (Hd _ Hh1), (Hd _ Hh2). }
    cbn [from_str_radix_16 hex_number]. change (hex_value 48) with (Some 0). cbv iota.
    rewrite (hex_value_digit _ Hh1), (hex_value_digit _ Hh2).
    replace (16 * (16 * (16 * (16 * 0 + 0) + 0) + c / 16) + c mod 16) with c
      by (Z.to_euclidean_division_equations; lia).
    by rewrite Hc.
Qed.

Lemma mjoin_cons (x : list Z) (l : list (list Z)) : mjoin (x :: l) = x ++ mjoin l.
Proof. done. Qed.

Lemma str_len_app t u : str_len (t ++ u) = str_len t + str_len u.
Proof. unfold str_len. by rewrite utf8_app, len_app. Qed.

Lemma escape_char_nonempty c : escape_char c <> [].
Proof. unfold escape_char. repeat case_match; try done. apply encode_char_nonnil. Qed.

Lemma parse_chars_complete t : forall fuel value rest,
  forallb is_scalar t = true -> valid rest -> str_len (value ++ t) <= MAX_JSON_STRING_BYTES ->
  (length (mjoin (escape_char <$> t)) < fuel)%nat ->
  parse_chars fuel value (mjoin (escape_char <$> t) ++ 34 :: rest) = pret (value ++ t) rest.
Proof.
  induction t as [|c t IH]; intros fuel value rest Ht Hv Hl Hf.
  { destruct fuel; [simpl in Hf; lia|]. simpl. by rewrite app_nil_r. }
  simpl in Ht. apply andb_true_iff in Ht as [Hc Ht].
  destruct fuel as [|fuel]; [lia|]. rewrite fmap_cons, mjoin_cons in Hf.
  rewrite length_app in Hf.
  assert (Hne : (0 < length (escape_char c))%nat).
  { destruct (escape_char c) eqn:E; [by apply escape_char_nonempty in E|simpl; lia]. }
  cbn [parse_chars]. rewrite fmap_cons, mjoin_cons, <- app_assoc.
  rewrite parse_char_escape; [|done|by apply valid_escapes; [|apply valid_ascii]].
  cbn [pbind pret]. replace (value ++ c :: t) with ((value ++ [c]) ++ t) in * by (by rewrite <- app_assoc).
  pose proof (str_len_nonneg t). rewrite str_len_app in Hl.
  rewrite (proj2 (Z.ltb_ge _ _)) by lia. apply IH; [done..| |lia].
  rewrite str_len_app. lia.
Qed.

Lemma parse_string_complete t rest :
  text_ok t = true -> valid rest ->
  parse_string (write_canonical_string t ++ rest) = pret t rest.
Proof.
  unfold text_ok. rewrite andb_true_iff, Z.leb_le. intros [Ht Hl] Hv.
  unfold parse_string, write_canonical_string. cbn [app expect]. rewrite Z.eqb_refl.
  cbn [pbind pret]. rewrite <- app_assoc. cbn [app].
  apply (parse_chars_complete t); [done..|]. rewrite !length_app. simpl. lia.
Qed.

(** * Integers round-trip *)

(** What may follow a value: nothing that would extend a number. *)
Definition follow (rest : list Z) : bool :=
  match rest with
  | b :: _ => negb (is_ascii_digit b) && negb ((b =? 46) || (b =? 101) || (b =? 69))
  | [] => true
  end.

Lemma span_digits_app ds rest :
  Forall (fun d => is_ascii_digit d = true) ds -> follow rest = true ->
  span_digits (ds ++ rest) = (ds, rest).
Proof.
  intros Hd Hf. induction Hd as [|d ds Hd _ IH]; simpl.
  - destruct rest as [|b rest]; [done|]. simpl in *. apply andb_true_iff in Hf as [Hf _].
    apply negb_true_iff in Hf. by rewrite Hf.
  - by rewrite Hd, IH.
Qed.


Lemma parse_integer_digits ds rest (negative : bool) :
  Forall (fun d => is_ascii_digit d = true) ds -> follow rest = true -> ds <> [] ->
  (exists d ds', ds = d :: ds' /\ d <> 48) \/ ds = [48] /\ negative = false ->
  let z := if negative then - dec_value ds else dec_value ds in
  in_i64 z ->
  parse_integer ((if negative then [45] else []) ++ ds ++ rest) = pret (Integer z) rest.
Proof.
  intros Hd Hf Hne Hlead z Hz. unfold parse_integer.
  assert (Hhead : match (if negative then [45] else []) ++ ds ++ rest with
            45 :: r => (true, r) | _ => (false, (if negative then [45] else []) ++ ds ++ rest) end
          = (negative, ds ++ rest)).
  { destruct negative; [done|]. destruct ds as [|d ds]; [done|].
    apply Forall_cons in Hd as [Hd _]. apply digit_range in Hd. simpl.
    destruct d as [|p|p]; try lia. by do 6 (destruct p as [p|p|]; try lia). }
  rewrite Hhead. rewrite span_digits_app by done.
  rewrite bool_decide_eq_false_2 by done.
  assert (match rest with b :: _ => (b =? 46) || (b =? 101) || (b =? 69) | [] => false end = false) as ->.
  { destruct rest; [done|]. simpl in Hf. apply andb_true_iff in Hf as [_ Hf]. by apply negb_true_iff in Hf. }
  assert ((1 <? len ds) && bool_decide (head ds = Some 48) = false) as ->.
  { destruct Hlead as [(d & ds' & -> & Hn)|[-> _]]; [|done].
    simpl. rewrite bool_decide_eq_false_2 by congruence. apply andb_false_r. }
  assert (negative && bool_decide (ds = [48]) = false) as ->.
  { destruct Hlead as [(d & ds' & -> & Hn)|[-> ->]]; [|done].
    rewrite bool_decide_eq_false_2 by congruence. apply andb_false_r. }
  cbv zeta. fold z. by rewrite (proj2 (check_i64_Some z z) (conj eq_refl Hz)).
Qed.

Lemma parse_integer_complete z rest :
  in_i64 z -> follow rest = true -> parse_integer (dec z ++ rest) = pret (Integer z) rest.
Proof.
  intros Hz Hf. unfold dec. destruct (Z.ltb_spec z 0) as [Hn|Hn].
  - destruct (dec_nat_spec (- z)) as (Hd & Hv & Hne & Hp & _); [lia|].
    pose proof (parse_integer_digits (dec_nat (- z)) rest true Hd Hf Hne) as H. cbv zeta in H.
    rewrite Hv, Z.opp_involutive in H. apply H; [left; by apply Hp; lia|done].
  - destruct (dec_nat_spec z) as (Hd & Hv & Hne & Hp & H0); [lia|].
    pose proof (parse_integer_digits (dec_nat z) rest false Hd Hf Hne) as H. cbv zeta in H.
    rewrite Hv in H. apply H; [|done].
    destruct (Z.eq_dec z 0); [right; auto|left; apply Hp; lia].
Qed.

(** * Values round-trip *)

(** The first byte of an encoding. *)
Definition starts_value (b : Z) : Prop :=
  b = 110 \/ b = 116 \/ b = 102 \/ b = 34 \/ b = 91 \/ b = 123 \/ b = 45 \/ 48 <= b <= 57.

Lemma dec_head z : exists b r, dec z = b :: r /\ (b = 45 \/ 48 <= b <= 57) /\
  Forall (fun b => in_range 0 0x7F b = true) (dec z).
Proof.
  assert (Hnat : forall n, 0 <= n -> exists b r, dec_nat n = b :: r /\ 48 <= b <= 57 /\
    Forall (fun b => in_range 0 0x7F b = true) (dec_nat n)).
  { intros n Hn. destruct (dec_nat_spec n Hn) as (Hd & _ & Hne & _).
    assert (Ha : Forall (fun b => in_range 0 0x7F b = true) (dec_nat n)).
    { eapply Forall_impl; [exact Hd|]. intros d. rewrite digit_range. unfold in_range.
      intros. bool_prop. lia. }
    destruct (dec_nat n) as [|b r]; [done|]. exists b, r. split; [done|]. split; [|done].
    apply digit_range. by inversion Hd. }
  unfold dec. destruct (Z.ltb_spec z 0).
  - destruct (Hnat (- z)) as (b & r & E & Hb & Ha); [lia|]. exists 45, (dec_nat (- z)).
    split_and!; [done|by left|]. by apply Forall_cons_2.
  - destruct (Hnat z) as (b & r & E & Hb & Ha); [lia|]. exists b, r. auto.
Qed.

Lemma write_head v : exists b r, to_canonical_bytes v = b :: r /\ starts_value b.
Proof.
  unfold starts_value. destruct v as [|b|z|t|l|l].
  - exists 110, [117; 108; 108]. split; [done|lia].
  - destruct b; [exists 116, [114; 117; 101]|exists 102, [97; 108; 115; 101]]; split; done || lia.
  - destruct (dec_head z) as (b & r & E & Hb & _). exists b, r. split; [done|lia].
  - eexists 34, _. split; [done|lia].
  - eexists 91, _. split; [done|lia].
  - eexists 123, _. split; [done|lia].
Qed.

Lemma skip_nonws b r : is_ws b = false -> skip_whitespace (b :: r) = b :: r.
Proof. simpl. by intros ->. Qed.

Lemma starts_value_nonws b : starts_value b -> is_ws b = false.
Proof. unfold starts_value, is_ws. intros. bool_prop. lia. Qed.

Lemma skip_write v rest : skip_whitespace (to_canonical_bytes v ++ rest) = to_canonical_bytes v ++ rest.
Proof.
  destruct (write_head v) as (b & r & -> & Hb). simpl app.
  by apply skip_nonws, starts_value_nonws.
Qed.

Lemma not_close v rest close :
  close = 93 \/ close = 125 -> is_close close (to_canonical_bytes v ++ rest) = false.
Proof.
  intros Hc. destruct (write_head v) as (b & r & -> & Hb). simpl. apply Z.eqb_neq.
  unfold starts_value in Hb. lia.
Qed.

(** ** Sorting *)

Lemma key_leb_trans {A} (x y z : list Z * A) :
  key_leb x y = true -> key_leb y z = true -> key_leb x z = true.
Proof. apply bytes_leb_trans. Qed.

Lemma key_leb_total {A} (x y : list Z * A) : key_leb x y = false -> key_leb y x = true.
Proof.
  unfold key_leb. intros H. destruct (bytes_leb_total (utf8 (fst x)) (utf8 (fst y))); congruence.
Qed.

Lemma insert_sorted {A} (x : list Z * A) l : sortedb l = true -> sortedb (insert_entry x l) = true.
Proof.
  induction l as [|y l IH]; [done|]. intros Hs. cbn [insert_entry].
  destruct (key_leb x y) eqn:E; [simpl in *; by rewrite E|].
  simpl in Hs. apply andb_true_iff in Hs as [Hy Hs]. specialize (IH Hs).
  cbn [sortedb]. rewrite IH, andb_true_r. apply key_leb_total in E.
  destruct l as [|z l]; [done|]. cbn [insert_entry]. by destruct (key_leb x z).
Qed.

Lemma sort_sorted {A} (l : list (list Z * A)) : sortedb (sort_entries l) = true.
Proof. induction l; [done|]. simpl. by apply insert_sorted. Qed.

Lemma sort_of_sorted {A} (l : list (list Z * A)) : sortedb l = true -> sort_entries l = l.
Proof.
  induction l as [|x l IH]; [done|]. cbn [sortedb]. rewrite andb_true_iff. intros [Hx Hs].
  simpl. rewrite IH by done. destruct l as [|y l]; [done|]. cbn [insert_entry]. by rewrite Hx.
Qed.

Lemma insert_perm {A} (x : list Z * A) l : insert_entry x l ≡ₚ x :: l.
Proof.
  induction l as [|y l IH]; [done|]. cbn [insert_entry]. destruct (key_leb x y); [done|].
  rewrite IH. constructor.
Qed.

Lemma sort_perm {A} (l : list (list Z * A)) : sort_entries l ≡ₚ l.
Proof. induction l as [|x l IH]; [done|]. simpl. by rewrite insert_perm, IH. Qed.

(** Sorting commutes with a map that keeps the keys. *)
Definition on_value {A B} (f : A -> B) (e : list Z * A) : list Z * B := (fst e, f (snd e)).

Lemma insert_map {A B} (f : A -> B) x l :
  insert_entry (on_value f x) (map (on_value f) l) = map (on_value f) (insert_entry x l).
Proof.
  induction l as [|y l IH]; [done|]. cbn [insert_entry map].
  change (key_leb (on_value f x) (on_value f y)) with (key_leb x y).
  destruct (key_leb x y); [done|]. cbn [map]. by rewrite IH.
Qed.

Lemma sort_map {A B} (f : A -> B) l :
  sort_entries (map (on_value f) l) = map (on_value f) (sort_entries l).
Proof. induction l as [|x l IH]; [done|]. simpl. by rewrite IH, insert_map. Qed.

Lemma sorted_map {A B} (f : A -> B) (l : list (list Z * A)) :
  sortedb (map (on_value f) l) = sortedb l.
Proof. induction l as [|x [|y l] IH]; [done..|]. cbn [map sortedb] in *. by rewrite IH. Qed.

(** ** Validity of encodings *)

Lemma comma_cons x y l : comma_separated (x :: y :: l) = x ++ 44 :: comma_separated (y :: l).
Proof. done. Qed.

Lemma valid_comma l rest :
  Forall (fun x => forall rest, valid rest -> valid (x ++ rest)) l -> valid rest ->
  valid (comma_separated l ++ rest).
Proof.
  intros Hl Hr. induction Hl as [|x l Hx Hl IH]; [done|]. destruct l as [|y l]; [by apply Hx|].
  rewrite comma_cons, <- app_assoc. apply Hx. simpl. by apply valid_ascii.
Qed.

Lemma valid_entry k w rest :
  text_ok k = true -> (forall rest, valid rest -> valid (w ++ rest)) -> valid rest ->
  valid (write_entry (k, w) ++ rest).
Proof.
  intros Hk Hw Hr. unfold write_entry. cbn [fst snd]. rewrite <- app_assoc.
  apply valid_string; [done|]. simpl. apply valid_ascii; [done|]. by apply Hw.
Qed.

Lemma sort_entries_Forall {A} (P : list Z * A -> Prop) l : Forall P l -> Forall P (sort_entries l).
Proof. intros H. by rewrite sort_perm. Qed.

Lemma valid_write v : forall d rest, limits v d = true -> valid rest -> valid (to_canonical_bytes v ++ rest).
Proof.
  induction v as [|b|z|t|l IH|l IH] using json_ind; intros d rest Hl Hr; cbn [limits] in Hl.
  - apply valid_ascii_app; [repeat constructor|done].
  - destruct b; (apply valid_ascii_app; [repeat constructor|done]).
  - destruct (dec_head z) as (_ & _ & _ & _ & Ha). by apply valid_ascii_app.
  - by apply valid_string.
  - rewrite !andb_true_iff in Hl. destruct Hl as [_ Hl]. cbn [to_canonical_bytes app].
    apply valid_ascii; [done|]. rewrite <- app_assoc. apply valid_comma; [|by apply valid_ascii].
    rewrite Forall_forall in IH. apply Forall_forall. intros w Hw.
    apply list_elem_of_In, in_map_iff in Hw as (v & <- & Hv). intros r Hr'.
    rewrite forallb_forall in Hl. apply (IH v ltac:(by apply list_elem_of_In) (d - 1)); [|done]. by apply Hl.
  - rewrite !andb_true_iff in Hl. destruct Hl as [_ Hl]. cbn [to_canonical_bytes app].
    apply valid_ascii; [done|]. rewrite <- app_assoc. apply valid_comma; [|by apply valid_ascii].
    rewrite Forall_forall in IH. rewrite forallb_forall in Hl. apply Forall_map, sort_entries_Forall, Forall_map.
    apply Forall_forall. intros e He r Hr'. assert (In e l) as Hin by (by apply list_elem_of_In).
    specialize (Hl e Hin). apply andb_true_iff in Hl as [Hk Hv].
    apply valid_entry; [done| |done]. intros. by apply (IH e He (d - 1)).
Qed.

(** ** Completeness *)

Definition room (g : DepthGuard) : Z := max_depth g - depth g.

Lemma depth_enter_Ok g :
  0 < room g -> exists g', depth_enter g = Ok g' /\ room g' = room g - 1.
Proof.
  intros Hr. unfold room, depth_enter in *. destruct (Z.eqb_spec (depth g) (max_depth g)); [lia|].
  eexists. split; [done|]. simpl. lia.
Qed.

(** The parser inverts the writer on [v], in any context. *)
Definition inverts (v : JsonValue) : Prop :=
  forall fuel g rest, limits v (room g) = true -> keys_in_order v = true -> follow rest = true ->
    valid rest -> (2 * length (to_canonical_bytes v ++ rest) < fuel)%nat ->
    parse_value fuel g (to_canonical_bytes v ++ rest) = pret v rest.

Lemma after_more close rest : after_element close (44 :: rest) = More rest.
Proof. done. Qed.

Lemma after_stop close rest :
  close = 93 \/ close = 125 -> after_element close (close :: rest) = Stop rest.
Proof. by intros [->| ->]. Qed.

Lemma parse_items_complete todo : Forall inverts todo -> todo <> [] -> forall fuel g items rest,
  forallb (fun v => limits v (room g)) todo = true -> forallb keys_in_order todo = true ->
  len (items ++ todo) <= MAX_JSON_ENTRIES -> valid rest ->
  (2 * length (comma_separated (map to_canonical_bytes todo) ++ 93%Z :: rest) + 1 < fuel)%nat ->
  parse_items fuel g items (comma_separated (map to_canonical_bytes todo) ++ 93 :: rest) =
  pret (Array (items ++ todo)) rest.
Proof.
  intros Hinv. induction Hinv as [|v todo Hv Htodo IH]; [done|].
  intros _ fuel g items rest Hl Hk Hlen Hr Hf. destruct fuel as [|fuel]; [lia|].
  cbn [forallb] in Hl, Hk. apply andb_true_iff in Hl as [Hlv Hl]. apply andb_true_iff in Hk as [Hkv Hk].
  assert (Hmore : len (items ++ [v]) <= MAX_JSON_ENTRIES).
  { rewrite len_app, len_cons in *. pose proof (len_nonneg todo). rewrite len_nil. lia. }
  cbn [parse_items]. destruct todo as [|w todo].
  - cbn [map comma_separated] in *. rewrite skip_write.
    rewrite Hv; [|done|done|done|by apply valid_ascii|lia]. cbn [pbind pret].
    rewrite (proj2 (Z.ltb_ge _ _)) by lia. rewrite skip_nonws by done.
    by rewrite after_stop by auto.
  - cbn [map] in *. rewrite comma_cons, <- app_assoc in *. cbn [app] in *. rewrite skip_write.
    assert (Hvr : valid (comma_separated (map to_canonical_bytes (w :: todo)) ++ 93 :: rest)).
    { apply valid_comma; [|by apply valid_ascii]. apply Forall_map, Forall_forall.
      intros x Hx r Hr'. rewrite forallb_forall in Hl. apply (valid_write x (room g)); [|done].
      apply Hl. by apply list_elem_of_In. }
    rewrite Hv; [|done|done|done|by apply valid_ascii|lia]. cbn [pbind pret].
    rewrite (proj2 (Z.ltb_ge _ _)) by lia. rewrite skip_nonws by done. rewrite after_more.
    rewrite length_app in Hf. cbn [length] in Hf.
    rewrite IH; [|done|done|done| |done|cbn [map]; lia]; rewrite <- app_assoc; done.
Qed.

(** An object's entry, written. *)
Definition entry_bytes (e : list Z * JsonValue) : list Z :=
  write_canonical_string (fst e) ++ 58 :: to_canonical_bytes (snd e).

(** One entry in front of what may follow it. *)
Lemma parse_entry_complete k v fuel g entries tail :
  inverts v -> text_ok k = true -> limits v (room g) = true -> keys_in_order v = true ->
  existsb (fun e => bool_decide (fst e = k)) entries = false ->
  valid tail -> follow tail = true ->
  (2 * length (entry_bytes (k, v) ++ tail) < S fuel)%nat ->
  parse_entries (S fuel) g entries (entry_bytes (k, v) ++ tail) =
  (let rest := skip_whitespace tail in
   let entries := entries ++ [(k, v)] in
   if MAX_JSON_ENTRIES <? len entries then pfail too_many
   else match after_element 125 rest with
        | More rest => parse_entries fuel g entries rest
        | Stop rest => pret (Object entries) rest
        | Neither => pfail MalformedJson
        end).
Proof.
  intros Hv Htk Hlv Hkv Hdup Hvt Hft Hlt. cbn [parse_entries]. unfold entry_bytes in *. cbn [fst snd] in *.
  rewrite <- app_assoc in *. cbn [app] in *.
  assert (Hskip : forall x, skip_whitespace (write_canonical_string k ++ x) = write_canonical_string k ++ x)
    by done.
  rewrite Hskip, parse_string_complete;
    [|done|apply valid_ascii; [done|]; by eapply valid_write].
  cbn [pbind pret]. rewrite Hdup, skip_nonws by done. cbn [expect]. rewrite Z.eqb_refl. cbn [pbind pret].
  rewrite skip_write, Hv; [done|done..|]. rewrite length_app in Hlt. cbn [length] in Hlt. lia.
Qed.

Lemma parse_entries_complete todo : Forall (fun e => inverts (snd e)) todo -> todo <> [] ->
  forall fuel g entries rest,
  forallb (fun e => text_ok (fst e) && limits (snd e) (room g)) todo = true ->
  forallb (fun e => keys_in_order (snd e)) todo = true ->
  NoDup (map fst (entries ++ todo)) ->
  len (entries ++ todo) <= MAX_JSON_ENTRIES -> valid rest ->
  (2 * length (comma_separated (map entry_bytes todo) ++ 125%Z :: rest) + 1 < fuel)%nat ->
  parse_entries fuel g entries (comma_separated (map entry_bytes todo) ++ 125 :: rest) =
  pret (Object (entries ++ todo)) rest.
Proof.
  intros Hinv. induction Hinv as [|[k v] todo Hv Htodo IH]; [done|].
  intros _ fuel g entries rest Hl Hk Hnd Hlen Hr Hf. destruct fuel as [|fuel]; [lia|].
  cbn [forallb fst snd] in Hl, Hk, Hv. rewrite !andb_true_iff in Hl. destruct Hl as [[Htk Hlv] Hl].
  apply andb_true_iff in Hk as [Hkv Hk].
  assert (Hmore : len (entries ++ [(k, v)]) <= MAX_JSON_ENTRIES).
  { rewrite len_app, len_cons in *. pose proof (len_nonneg todo). rewrite len_nil. lia. }
  assert (Hdup : existsb (fun e => bool_decide (fst e = k)) entries = false).
  { apply not_true_iff_false. rewrite existsb_exists. intros (e & He & E). bool_prop.
    rewrite map_app in Hnd. apply NoDup_app in Hnd as (_ & Hd & _). apply (Hd k).
    - apply list_elem_of_In, in_map_iff. eauto.
    - by left. }
  destruct todo as [|e todo].
  - cbn [map comma_separated] in *. rewrite parse_entry_complete; [|done..|by apply valid_ascii|done|lia]. cbv zeta.
    rewrite (proj2 (Z.ltb_ge _ _)) by lia. rewrite skip_nonws by done. by rewrite after_stop by auto.
  - cbn [map] in *. rewrite comma_cons, <- app_assoc in *. cbn [app] in *.
    assert (Hvr : valid (comma_separated (map entry_bytes (e :: todo)) ++ 125 :: rest)).
    { apply valid_comma; [|by apply valid_ascii]. apply Forall_map, Forall_forall.
      intros x Hx r Hr'. rewrite forallb_forall in Hl. specialize (Hl x ltac:(by apply list_elem_of_In)).
      apply andb_true_iff in Hl as [Hxk Hxv].
      apply (valid_entry (fst x) (to_canonical_bytes (snd x))); [done| |done].
      intros. by apply (valid_write (snd x) (room g)). }
    rewrite parse_entry_complete; [|done..|by apply valid_ascii|done|lia]. cbv zeta.
    rewrite (proj2 (Z.ltb_ge _ _)) by lia. rewrite skip_nonws by done. rewrite after_more.
    rewrite length_app in Hf. cbn [length] in Hf.
    assert (entry_bytes (k, v) <> []) by done.
    rewrite IH; [|done|done|done| | |done|cbn [map]; lia]; rewrite <- app_assoc; done.
Qed.

Lemma write_object es :
  sortedb es = true ->
  to_canonical_bytes (Object es) = 123 :: comma_separated (map entry_bytes es) ++ [125].
Proof.
  intros Hs. cbn [to_canonical_bytes].
  change (fun e : list Z * JsonValue => (fst e, to_canonical_bytes (snd e)))
    with (on_value (A := JsonValue) to_canonical_bytes).
  rewrite sort_map, sort_of_sorted by done. by rewrite map_map.
Qed.

Lemma literal_complete word rest : literal word (word ++ rest) = pret tt rest.
Proof. unfold literal. by rewrite (proj2 (strip_prefix_Some word (word ++ rest) rest) eq_refl). Qed.

Lemma parse_complete v : inverts v.
Proof.
  induction v as [|b|z|t|l IH|l IH] using json_ind; intros fuel g rest Hl Hk Hf Hv Hfuel;
    (destruct fuel as [|fuel]; [lia|]).
  - done.
  - by destruct b.
  - cbn [to_canonical_bytes]. destruct (dec_head z) as (b & r & E & Hb & _).
    cbn [limits] in Hl. bool_prop.
    assert (Hp : parse_integer (dec z ++ rest) = pret (Integer z) rest)
      by (apply parse_integer_complete; [widths; lia|done]).
    rewrite E in *. cbn [app parse_value].
    assert ((b =? 45) || is_ascii_digit b = true) as Hd.
    { apply orb_true_iff. destruct Hb; [left; lia|right; by apply digit_range]. }
    rewrite !(proj2 (Z.eqb_neq b _)), Hd by lia. done.
  - cbn [limits to_canonical_bytes] in *. pose proof (parse_string_complete t rest Hl Hv) as Hp.
    unfold write_canonical_string in *. cbn [app parse_value]. cbn [app] in Hp. cbn [Z.eqb Pos.eqb].
    by rewrite Hp.
  - cbn [limits] in Hl. rewrite !andb_true_iff in Hl. destruct Hl as [[Hd Hlen] Hl]. bool_prop.
    destruct (depth_enter_Ok g Hd) as (g' & Eg & Hg). rewrite <- Hg in Hl.
    cbn [keys_in_order] in Hk. cbn [to_canonical_bytes app parse_value Z.eqb Pos.eqb]. rewrite Eg.
    destruct l as [|v l]; [done|].
    assert (Hskip : skip_whitespace ((comma_separated (map to_canonical_bytes (v :: l)) ++ [93]) ++ rest) =
      comma_separated (map to_canonical_bytes (v :: l)) ++ 93 :: rest /\
      is_close 93 (comma_separated (map to_canonical_bytes (v :: l)) ++ 93 :: rest) = false).
    { rewrite <- app_assoc. cbn [map]. destruct l as [|w l]; [|cbn [map]; rewrite comma_cons, <- !app_assoc];
        split; apply skip_write || (apply not_close; by left). }
    destruct Hskip as [-> ->]. apply (parse_items_complete (v :: l)); [done..|].
    cbn [to_canonical_bytes app length] in Hfuel. rewrite <- app_assoc in Hfuel. cbn [app] in Hfuel. lia.
  - cbn [limits] in Hl. rewrite !andb_true_iff in Hl. destruct Hl as [[[Hd Hlen] Hnd] Hl]. bool_prop.
    destruct (depth_enter_Ok g Hd) as (g' & Eg & Hg). rewrite <- Hg in Hl.
    cbn [keys_in_order] in Hk. apply andb_true_iff in Hk as [Hs Hk].
    rewrite write_object in * by done. cbn [app parse_value Z.eqb Pos.eqb]. rewrite Eg.
    destruct l as [|[k v] l]; [done|].
    assert (Hskip : skip_whitespace ((comma_separated (map entry_bytes ((k, v) :: l)) ++ [125]) ++ rest) =
      comma_separated (map entry_bytes ((k, v) :: l)) ++ 125 :: rest /\
      is_close 125 (comma_separated (map entry_bytes ((k, v) :: l)) ++ 125 :: rest) = false).
    { rewrite <- app_assoc. cbn [map]. by destruct l as [|w l]. }
    destruct Hskip as [-> ->]. apply (parse_entries_complete ((k, v) :: l)); [done..|].
    cbn [app length] in Hfuel. rewrite <- app_assoc in Hfuel. cbn [app] in Hfuel. lia.
Qed.

(** * Soundness: what is parsed is within the limits *)

Lemma parse_char_sound input c rest :
  parse_char input = pret (Some c) rest -> is_scalar c = true /\ (length rest < length input)%nat.
Proof.
  unfold parse_char. destruct input as [|b input]; [done|].
  destruct (b =? 34); [done|]. destruct (b =? 92).
  { destruct input as [|e input]; [done|]. destruct (simple_escape e) as [c'|] eqn:Es.
    - intros [= <- <-]. split; [|simpl; lia]. unfold simple_escape in Es.
      repeat (destruct (_ =? _); [by simplify_eq|]). done.
    - destruct (e =? 117); [|done]. unfold parse_unicode_escape.
      destruct input as [|h1 [|h2 [|h3 [|h4 input]]]]; try done.
      destruct (from_utf8 [h1; h2; h3; h4]) as [text|]; [|done].
      destruct (from_str_radix_16 text) as [code|]; [|done].
      destruct (is_scalar code) eqn:Ec; [|done]. intros [= <- <-]. split; [done|simpl; lia]. }
  destruct (Z.ltb_spec b 32); [done|]. destruct (Z.ltb_spec b 128).
  { intros [= <- <-]. split; [|simpl; lia]. unfold is_scalar. bool_prop. lia. }
  destruct (from_utf8 (b :: input)) as [[|c' text]|] eqn:E; [done| |done].
  intros [= <- <-]. apply from_utf8_Some in E as [Hs E]. apply Forall_cons in Hs as [Hs _].
  split; [done|]. rewrite length_drop.
  assert (encode_char c' <> []) by apply encode_char_nonnil.
  destruct (encode_char c'); [done|]. simpl. lia.
Qed.

Lemma parse_char_end input rest :
  parse_char input = pret None rest -> (length rest < length input)%nat.
Proof.
  unfold parse_char. destruct input as [|b input]; [done|].
  destruct (b =? 34); [intros [= <-]; simpl; lia|]. destruct (b =? 92).
  { destruct input as [|e input]; [done|]. destruct (simple_escape e); [done|].
    destruct (e =? 117); [|done]. by destruct (parse_unicode_escape input) as [[[? ?]|]|]. }
  destruct (b <? 32); [done|]. destruct (b <? 128); [done|].
  by destruct (from_utf8 (b :: input)) as [[|? ?]|].
Qed.

Lemma parse_char_some input : parse_char input <> None.
Proof.
  unfold parse_char. destruct input as [|b input]; [done|].
  destruct (b =? 34); [done|]. destruct (b =? 92).
  { destruct input as [|e input]; [done|]. destruct (simple_escape e); [done|].
    destruct (e =? 117); [|done]. unfold parse_unicode_escape.
    destruct input as [|h1 [|h2 [|h3 [|h4 input]]]]; try done.
    destruct (from_utf8 [h1; h2; h3; h4]); [|done]. destruct (from_str_radix_16 _); [|done].
    by destruct (is_scalar _). }
  destruct (b <? 32); [done|]. destruct (b <? 128); [done|].
  by destruct (from_utf8 (b :: input)) as [[|? ?]|].
Qed.

Lemma parse_chars_sound fuel : forall value input t rest,
  parse_chars fuel value input = pret t rest -> text_ok value = true ->
  text_ok t = true /\ (length rest < length input)%nat.
Proof.
  induction fuel as [|fuel IH]; intros value input t rest; cbn [parse_chars]; [done|].
  destruct (parse_char input) as [[[c r]|e]|] eqn:E; cbn [pbind]; try done.
  destruct c as [c|].
  - apply parse_char_sound in E as [Hc Hlt]. destruct (Z.ltb_spec MAX_JSON_STRING_BYTES (str_len (value ++ [c]))); [done|].
    intros Hp Hv. apply IH in Hp; [split; [apply Hp|destruct Hp; lia]|].
    unfold text_ok in *. rewrite forallb_app. bool_prop. simpl. rewrite Hc. by destruct Hv as [-> _].
  - intros [= <- <-] Hv. apply parse_char_end in E. done.
Qed.

Lemma parse_string_sound input t rest :
  parse_string input = pret t rest -> text_ok t = true /\ (length rest < length input)%nat.
Proof.
  unfold parse_string, expect. destruct input as [|b input]; [done|].
  destruct (b =? 34); [|done]. cbn [pbind pret]. intros H.
  apply parse_chars_sound in H as [? ?]; [|done]. split; [done|simpl; lia].
Qed.

Lemma skip_length input : (length (skip_whitespace input) <= length input)%nat.
Proof. induction input as [|b input IH]; simpl; [lia|]. destruct (is_ws b); simpl; lia. Qed.

Lemma span_digits_length input ds rest :
  span_digits input = (ds, rest) -> (length input = length ds + length rest)%nat.
Proof.
  revert ds; induction input as [|b input IH]; intros ds; simpl; [by intros [= <- <-]|].
  destruct (is_ascii_digit b); [|by intros [= <- <-]].
  destruct (span_digits input) as [ds' r]. intros [= <- <-]. simpl. f_equal. by apply IH.
Qed.

Lemma parse_integer_sound input v rest d :
  parse_integer input = pret v rest -> limits v d = true /\ (length rest < length input)%nat.
Proof.
  unfold parse_integer.
  destruct (match input with 45 :: r => (true, r) | _ => (false, input) end) as [neg body] eqn:Eb.
  assert (Hb : (length body <= length input)%nat).
  { destruct input as [|b input]; [by simplify_eq|].
    assert (body = input \/ body = b :: input) as [-> | ->]; [|simpl; lia..].
    destruct b as [|p|p]; try (right; congruence).
    do 6 (destruct p as [p|p|]; try (right; congruence)). left. congruence. }
  destruct (span_digits body) as [ds r] eqn:Es. apply span_digits_length in Es.
  case_bool_decide as Hne; [done|]. assert ((0 < length ds)%nat) by (destruct ds; [done|simpl; lia]).
  destruct (match r with b :: _ => _ | [] => _ end); [done|].
  destruct ((1 <? len ds) && _); [done|]. destruct (neg && _); [done|]. cbv zeta.
  destruct (check_i64 _) as [z|] eqn:Ez; [|done]. intros [= <- <-].
  apply check_i64_Some in Ez as [-> Hz]. split; [simpl; widths; bool_prop; lia|lia].
Qed.

Lemma literal_sound word input rest :
  word <> [] -> literal word input = pret tt rest -> (length rest < length input)%nat.
Proof.
  intros Hw. unfold literal. destruct (strip_prefix word input) as [r|] eqn:E; [|done].
  intros [= <-]. apply strip_prefix_Some in E as ->. rewrite length_app. destruct word; [done|simpl; lia].
Qed.

Lemma pbind_Ok {A B} (m : Parse A) (k : A -> list Z -> Parse B) b rest :
  pbind m k = pret b rest -> exists a r, m = pret a r /\ k a r = pret b rest.
Proof. destruct m as [[[a r]|e]|]; cbn; try done. eauto. Qed.

Lemma after_element_shorter close rest :
  match after_element close rest with
  | More r | Stop r => (length r < length rest)%nat
  | Neither => True
  end.
Proof.
  destruct rest as [|b rest]; [done|]. simpl. destruct (b =? 44); [simpl; lia|].
  destruct (b =? close); [simpl; lia|done].
Qed.

Lemma depth_enter_room g g' : depth_enter g = Ok g' -> 0 <= room g -> 0 < room g /\ room g' = room g - 1.
Proof.
  unfold depth_enter, room. destruct (Z.eqb_spec (depth g) (max_depth g)); [done|].
  intros [= <-]. simpl. lia.
Qed.

Definition sound_value (fuel : nat) : Prop := forall g input v rest,
  0 <= room g -> parse_value fuel g input = pret v rest ->
  limits v (room g) = true /\ (length rest < length input)%nat.

Definition sound_items (fuel : nat) : Prop := forall g items input v rest,
  0 <= room g -> parse_items fuel g items input = pret v rest ->
  forallb (fun v => limits v (room g)) items = true ->
  exists l, v = Array l /\ len l <= MAX_JSON_ENTRIES /\
    forallb (fun v => limits v (room g)) l = true /\ (length rest < length input)%nat.

Definition sound_entries (fuel : nat) : Prop := forall g entries input v rest,
  0 <= room g -> parse_entries fuel g entries input = pret v rest ->
  forallb (fun e => text_ok (fst e) && limits (snd e) (room g)) entries = true ->
  NoDup (map fst entries) ->
  exists l, v = Object l /\ len l <= MAX_JSON_ENTRIES /\ NoDup (map fst l) /\
    forallb (fun e => text_ok (fst e) && limits (snd e) (room g)) l = true /\
    (length rest < length input)%nat.

Lemma sound_items_step fuel : sound_value fuel -> sound_items fuel -> sound_items (S fuel).
Proof.
  intros Hval IH g items input v rest Hg. cbn [parse_items].
  intros (x & r & Hx & H)%pbind_Ok Hl. apply Hval in Hx as [Hlx Hlt]; [|done].
  pose proof (skip_length input). pose proof (skip_length r).
  destruct (Z.ltb_spec MAX_JSON_ENTRIES (len (items ++ [x]))); [done|].
  assert (Hl' : forallb (fun v => limits v (room g)) (items ++ [x]) = true)
    by (rewrite forallb_app, Hl; simpl; by rewrite Hlx).
  pose proof (after_element_shorter 93 (skip_whitespace r)).
  destruct (after_element 93 (skip_whitespace r)) as [r'|r'|]; [| |done].
  - destruct (IH _ _ _ _ _ Hg H Hl') as (l & ? & ? & ? & ?). exists l. split_and!; done || lia.
  - injection H as <- <-. exists (items ++ [x]). split_and!; done || lia.
Qed.

Lemma sound_entries_step fuel : sound_value fuel -> sound_entries fuel -> sound_entries (S fuel).
Proof.
  intros Hval IH g entries input v rest Hg. cbn [parse_entries].
  intros (k & r0 & Hk & H)%pbind_Ok Hl Hnd. apply parse_string_sound in Hk as [Hk Hlt0].
  destruct (existsb _ entries) eqn:Hdup; [done|].
  apply pbind_Ok in H as ([] & r1 & He & H). apply pbind_Ok in H as (x & r2 & Hx & H).
  assert (Hlt1 : (length r1 < length (skip_whitespace r0))%nat).
  { unfold expect in He. destruct (skip_whitespace r0); [done|]. destruct (_ =? _); [|done].
    injection He as <-. simpl. lia. }
  apply Hval in Hx as [Hlx Hlt2]; [|done].
  pose proof (skip_length input). pose proof (skip_length r0). pose proof (skip_length r1).
  pose proof (skip_length r2).
  destruct (Z.ltb_spec MAX_JSON_ENTRIES (len (entries ++ [(k, x)]))); [done|].
  assert (Hl' : forallb (fun e => text_ok (fst e) && limits (snd e) (room g)) (entries ++ [(k, x)]) = true)
    by (rewrite forallb_app, Hl; cbn [forallb fst snd]; by rewrite Hk, Hlx).
  assert (Hnd' : NoDup (map fst (entries ++ [(k, x)]))).
  { rewrite map_app. apply NoDup_app. split_and!; [done| |apply NoDup_singleton].
    intros k' Hk' E%list_elem_of_singleton. apply not_true_iff_false in Hdup. apply Hdup.
    apply existsb_exists. apply list_elem_of_In, in_map_iff in Hk' as (e & Ee & Hin).
    exists e. split; [done|]. apply bool_decide_eq_true. by rewrite Ee, E. }
  pose proof (after_element_shorter 125 (skip_whitespace r2)).
  destruct (after_element 125 (skip_whitespace r2)) as [r'|r'|]; [| |done].
  - destruct (IH _ _ _ _ _ Hg H Hl' Hnd') as (l & ? & ? & ? & ? & ?). exists l. split_and!; done || lia.
  - injection H as <- <-. exists (entries ++ [(k, x)]). split_and!; done || lia.
Qed.

Lemma sound_value_step fuel : sound_items fuel -> sound_entries fuel -> sound_value (S fuel).
Proof.
  intros Hitems Hentries g input v rest Hg. cbn [parse_value].
  destruct input as [|b input]; [done|].
  assert (Htail : forall c r, is_close c r = true -> (length (tail r) < length r)%nat)
    by (intros c [|? ?]; [done|simpl; lia]).
  pose proof (skip_length input) as Hskip.
  repeat match goal with |- (if ?c then _ else _) = _ -> _ => destruct c end; try done.
  1-3: intros ([] & r & Hlit & [= <- <-])%pbind_Ok; apply literal_sound in Hlit; [done|done].
  - intros (t & r & Ht & [= <- <-])%pbind_Ok. by apply parse_string_sound in Ht.
  - destruct (depth_enter g) as [g'|] eqn:Eg; [|done]. cbv zeta.
    destruct (depth_enter_room g g' Eg Hg) as [Hpos Hr].
    destruct (is_close 93 (skip_whitespace input)) eqn:Ec.
    + intros [= <- <-]. specialize (Htail _ _ Ec). split; [|simpl; lia].
      cbn [limits forallb]. bool_prop. split_and!; done || lia || by vm_compute.
    + intros H. destruct (Hitems g' [] _ v rest ltac:(lia) H eq_refl)
        as (l & -> & Hlen & Hl & Hlt).
      split; [|simpl; lia]. cbn [limits]. rewrite Hr in Hl. rewrite Hl. bool_prop. split_and!; done || lia.
  - destruct (depth_enter g) as [g'|] eqn:Eg; [|done]. cbv zeta.
    destruct (depth_enter_room g g' Eg Hg) as [Hpos Hr].
    destruct (is_close 125 (skip_whitespace input)) eqn:Ec.
    + intros [= <- <-]. specialize (Htail _ _ Ec). split; [|simpl; lia].
      cbn [limits forallb map]. bool_prop. split_and!; done || lia || apply NoDup_nil_2 || by vm_compute.
    + intros H. destruct (Hentries g' [] _ v rest ltac:(lia) H eq_refl NoDup_nil_2)
        as (l & -> & Hlen & Hnd & Hl & Hlt).
      split; [|simpl; lia]. cbn [limits]. rewrite Hr in Hl. rewrite Hl. bool_prop. split_and!; done || lia.
  - apply parse_integer_sound.
Qed.

Lemma parse_sound fuel : sound_value fuel /\ sound_items fuel /\ sound_entries fuel.
Proof.
  induction fuel as [|fuel (IH1 & IH2 & IH3)].
  - split_and!; by intros ?.
  - split_and!; [by apply sound_value_step|by apply sound_items_step|by apply sound_entries_step].
Qed.

(** * The fuel is enough *)

Lemma parse_chars_total fuel : forall value input,
  (length input < fuel)%nat -> parse_chars fuel value input <> None.
Proof.
  induction fuel as [|fuel IH]; intros value input Hf; [lia|]. cbn [parse_chars].
  pose proof (parse_char_some input). destruct (parse_char input) as [[[[c|] r]|e]|] eqn:E; try done.
  cbn [pbind]. apply parse_char_sound in E as [_ Hlt].
  destruct (_ <? _); [done|]. apply IH. lia.
Qed.

Lemma parse_string_total input : parse_string input <> None.
Proof.
  unfold parse_string, expect. destruct input as [|b input]; [done|].
  destruct (b =? 34); [|done]. cbn [pbind pret]. apply parse_chars_total. lia.
Qed.

Lemma pbind_total {A B} (m : Parse A) (k : A -> list Z -> Parse B) :
  m <> None -> (forall a r, m = pret a r -> k a r <> None) -> pbind m k <> None.
Proof. intros Hm Hk. destruct m as [[[a r]|e]|]; cbn; [by apply Hk|done|done]. Qed.

Lemma parse_integer_total input : parse_integer input <> None.
Proof.
  unfold parse_integer.
  destruct (match input with 45 :: r => (true, r) | _ => (false, input) end) as [neg body].
  destruct (span_digits body) as [ds r]. case_bool_decide; [done|].
  destruct (match r with b :: _ => _ | [] => _ end); [done|].
  destruct ((1 <? len ds) && _); [done|]. destruct (neg && _); [done|]. cbv zeta.
  by destruct (check_i64 _).
Qed.

Lemma literal_total word input : literal word input <> None.
Proof. unfold literal. by destruct (strip_prefix word input). Qed.

Lemma expect_total b input : expect b input <> None.
Proof. unfold expect. destruct input as [|x input]; [done|]. by destruct (x =? b). Qed.

Lemma parse_total fuel :
  (forall g input, 0 <= room g -> (2 * length input < fuel)%nat -> parse_value fuel g input <> None) /\
  (forall g items input, 0 <= room g -> (2 * length input + 1 < fuel)%nat ->
     parse_items fuel g items input <> None) /\
  (forall g entries input, 0 <= room g -> (2 * length input + 1 < fuel)%nat ->
     parse_entries fuel g entries input <> None).
Proof.
  induction fuel as [|fuel (IHv & IHi & IHe)]; [split_and!; intros; lia|].
  destruct (parse_sound fuel) as (Hsound & _ & _). split_and!.
  - intros g input Hg Hf. cbn [parse_value]. destruct input as [|b input]; [done|].
    pose proof (skip_length input). cbn [length] in Hf.
    repeat match goal with |- (if ?c then _ else _) <> _ => destruct c end; try done;
      try (apply pbind_total; [apply literal_total|done]).
    + by apply pbind_total; [apply parse_string_total|].
    + destruct (depth_enter g) as [g'|] eqn:Eg; [|done]. cbv zeta.
      destruct (depth_enter_room g g' Eg Hg). destruct (is_close 93 _); [done|]. apply IHi; lia.
    + destruct (depth_enter g) as [g'|] eqn:Eg; [|done]. cbv zeta.
      destruct (depth_enter_room g g' Eg Hg). destruct (is_close 125 _); [done|]. apply IHe; lia.
    + apply parse_integer_total.
  - intros g items input Hg Hf. cbn [parse_items]. pose proof (skip_length input).
    apply pbind_total; [apply IHv; lia|]. intros v r Hv. apply Hsound in Hv as [_ Hlt]; [|done].
    pose proof (skip_length r). cbv zeta. destruct (_ <? _); [done|].
    pose proof (after_element_shorter 93 (skip_whitespace r)).
    destruct (after_element 93 (skip_whitespace r)); [apply IHi; lia|done..].
  - intros g entries input Hg Hf. cbn [parse_entries]. pose proof (skip_length input).
    apply pbind_total; [apply parse_string_total|]. intros k r0 Hk.
    apply parse_string_sound in Hk as [_ Hlt0]. cbv zeta. destruct (existsb _ entries); [done|].
    pose proof (skip_length r0).
    apply pbind_total; [apply expect_total|]. intros [] r1 He.
    assert (Hlt1 : (length r1 < length (skip_whitespace r0))%nat).
    { unfold expect in He. destruct (skip_whitespace r0); [done|]. destruct (_ =? _); [|done].
      injection He as <-. simpl. lia. }
    pose proof (skip_length r1).
    apply pbind_total; [apply IHv; lia|]. intros v r2 Hv. apply Hsound in Hv as [_ Hlt2]; [|done].
    pose proof (skip_length r2). destruct (_ <? _); [done|].
    pose proof (after_element_shorter 125 (skip_whitespace r2)).
    destruct (after_element 125 (skip_whitespace r2)); [apply IHe; lia|done..].
Qed.

(** * Normal forms *)

(** The value with every object's entries in key order. *)
Fixpoint norm (v : JsonValue) : JsonValue :=
  match v with
  | Array items => Array (map norm items)
  | Object entries => Object (sort_entries (map (on_value norm) entries))
  | _ => v
  end.

Lemma norm_write v : to_canonical_bytes (norm v) = to_canonical_bytes v.
Proof.
  induction v as [|b|z|t|l IH|l IH] using json_ind; try done; cbn [norm to_canonical_bytes].
  - do 3 f_equal. rewrite map_map. apply map_ext_in. intros v Hv.
    rewrite Forall_forall in IH. by apply IH, list_elem_of_In.
  - change (fun e : list Z * JsonValue => (fst e, to_canonical_bytes (snd e)))
      with (on_value (A := JsonValue) to_canonical_bytes).
    rewrite <- sort_map, (sort_of_sorted (sort_entries _)) by apply sort_sorted.
    do 5 f_equal. rewrite map_map. apply map_ext_in. intros e He. unfold on_value. cbn [fst snd].
    f_equal. rewrite Forall_forall in IH. by apply IH, list_elem_of_In.
Qed.

Lemma forallb_perm {A} (p : A -> bool) l l' : l ≡ₚ l' -> forallb p l = forallb p l'.
Proof.
  intros Hp. apply eq_true_iff_eq. rewrite !forallb_forall. setoid_rewrite <- list_elem_of_In.
  by setoid_rewrite Hp.
Qed.

Lemma forallb_ext_in {A} (p q : A -> bool) l :
  (forall x, x ∈ l -> p x = q x) -> forallb p l = forallb q l.
Proof.
  intros H. induction l as [|x l IH]; [done|]. simpl. rewrite H by (by left). rewrite IH; [done|].
  intros y Hy. apply H. by right.
Qed.

Lemma forallb_map {A B} (f : A -> B) p l : forallb p (map f l) = forallb (fun x => p (f x)) l.
Proof. induction l; [done|]. simpl. by f_equal. Qed.

Lemma norm_limits v : forall d, limits (norm v) d = limits v d.
Proof.
  induction v as [|b|z|t|l IH|l IH] using json_ind; intros d; try done; cbn [norm limits];
    rewrite Forall_forall in IH.
  - f_equal; [f_equal; unfold len; by rewrite length_map|]. rewrite forallb_map.
    apply forallb_ext_in. auto.
  - pose proof (sort_perm (map (on_value norm) l)) as Hp.
    f_equal; [f_equal; [f_equal; unfold len; by rewrite Hp, length_map|]|].
    + apply bool_decide_ext. rewrite Hp, map_map. done.
    + rewrite (forallb_perm _ _ _ Hp), forallb_map. apply forallb_ext_in. intros e He.
      unfold on_value. cbn [fst snd]. f_equal. by apply IH.
Qed.

Lemma norm_in_order v : keys_in_order (norm v) = true.
Proof.
  induction v as [|b|z|t|l IH|l IH] using json_ind; try done; cbn [norm keys_in_order];
    rewrite Forall_forall in IH.
  - rewrite forallb_map. apply forallb_forall. intros v Hv. by apply IH, list_elem_of_In.
  - rewrite sort_sorted. rewrite (forallb_perm _ _ _ (sort_perm _)), forallb_map. simpl.
    apply forallb_forall. intros e He. by apply IH, list_elem_of_In.
Qed.

(** A value in order decodes from its encoding. *)
Lemma parse_canonical_complete v :
  limits v MAX_NESTING_DEPTH = true -> keys_in_order v = true ->
  parse_canonical (to_canonical_bytes v) = Ok v.
Proof.
  intros Hl Hk. unfold parse_canonical.
  destruct (valid_write v MAX_NESTING_DEPTH [] Hl ltac:(by eexists)) as [t Ht].
  rewrite app_nil_r in Ht. rewrite Ht. cbv zeta.
  pose proof (skip_write v []) as Hskip. rewrite app_nil_r in Hskip. rewrite Hskip.
  pose proof (parse_complete v (parse_fuel (to_canonical_bytes v)) depth_new []) as Hp.
  rewrite app_nil_r in Hp. rewrite Hp; [|done|done|done|by eexists|unfold parse_fuel; lia].
  cbn [pret skip_whitespace]. rewrite !bool_decide_eq_true_2 by done. done.
Qed.

Lemma parse_canonical_norm v :
  limits v MAX_NESTING_DEPTH = true -> parse_canonical (to_canonical_bytes v) = Ok (norm v).
Proof.
  intros Hl. rewrite <- norm_write. apply parse_canonical_complete; [|apply norm_in_order].
  by rewrite norm_limits.
Qed.

(** A payload that parses is the encoding of a value in order within the limits. *)
Lemma parse_canonical_sound payload v :
  parse_canonical payload = Ok v -> canonical v = true /\ to_canonical_bytes v = payload.
Proof.
  unfold canonical. rewrite andb_true_iff. unfold parse_canonical. destruct (from_utf8 payload); [|done]. cbv zeta.
  destruct (parse_value _ _ _) as [[[w rest]|e]|] eqn:E; [|done..].
  case_bool_decide; cbn [negb]; [|done]. case_bool_decide as Hw; cbn [negb]; [|done].
  intros [= ->]. split; [|done].
  destruct (parse_sound (parse_fuel (skip_whitespace payload))) as (Hs & _ & _).
  pose proof E as Hlim. apply Hs in Hlim as [Hlim _]; [|done].
  change (room depth_new) with MAX_NESTING_DEPTH in Hlim. split; [done|].
  assert (Hp : skip_whitespace payload = to_canonical_bytes (norm v) ++ []).
  { rewrite norm_write, app_nil_r, Hw, <- (app_nil_r payload), <- Hw. apply skip_write. }
  rewrite Hp in E. rewrite (parse_complete (norm v)) in E; [| |apply norm_in_order|done|by eexists|].
  + injection E as Ev _. rewrite <- Ev. apply norm_in_order.
  + by rewrite norm_limits.
  + unfold parse_fuel. lia.
Qed.

(** * Properties *)

(** C38: canonical JSON is a bijection.  The parser accepts a payload with the
    value [v] exactly when [v] is within the depth, size and integer limits,
    lists every object's distinct keys in byte order, and encodes to that very
    payload: one value, one byte string, and no second spelling is accepted. *)
Theorem parse_canonical_exact payload v :
  parse_canonical payload = Ok v <-> canonical v = true /\ to_canonical_bytes v = payload.
Proof.
  split; [apply parse_canonical_sound|]. unfold canonical. rewrite andb_true_iff.
  intros [[Hl Hk] <-]. by apply parse_canonical_complete.
Qed.

(** C39: parsing terminates.  On every input, at every depth within the limit,
    the recursive descent ends within two steps per byte: the parser always
    answers, with a value or a typed refusal. *)
Theorem parse_always_answers g input :
  0 <= room g -> exists r, parse_value (parse_fuel input) g input = Some r.
Proof.
  intros Hg. destruct (parse_total (parse_fuel input)) as (Ht & _ & _).
  destruct (parse_value (parse_fuel input) g input) as [r|] eqn:E; [by exists r|].
  exfalso. apply (Ht g input); [lia|unfold parse_fuel; lia|done].
Qed.

Lemma parse_always_answers_witness :
  exists r, parse_value (parse_fuel (replicate 40 91)) depth_new (replicate 40 91) = Some r.
Proof. apply parse_always_answers. vm_compute. congruence. Defined.

(** Encoding forgets exactly the order of keys.  A value within the limits,
    with its entries in any order, encodes to a payload that decodes to the
    same value with every object in key order; and two such values have the
    same bytes exactly when they agree up to that order. *)
Theorem encode_up_to_key_order v w :
  limits v MAX_NESTING_DEPTH = true -> limits w MAX_NESTING_DEPTH = true ->
  parse_canonical (to_canonical_bytes v) = Ok (norm v) /\
  (to_canonical_bytes v = to_canonical_bytes w <-> norm v = norm w).
Proof.
  intros Hv Hw. split; [by apply parse_canonical_norm|]. split.
  - intros E. apply parse_canonical_norm in Hv, Hw. congruence.
  - intros E. by rewrite <- (norm_write v), E, norm_write.
Qed.

Definition demo_unordered : JsonValue :=
  Object [(str "b", Integer 1); (str "a", Array [Null; JBool true])].

Lemma encode_up_to_key_order_witness :
  parse_canonical (to_canonical_bytes demo_unordered) =
  Ok (Object [(str "a", Array [Null; JBool true]); (str "b", Integer 1)]).
Proof.
  destruct (encode_up_to_key_order demo_unordered Null) as [E _];
    [vm_compute; reflexivity|reflexivity|]. exact E.
Defined.

(** An envelope as its constructors make it. *)
Definition envelope_ok (e : Envelope) : Prop :=
  protocol_name_new (env_protocol e) = Ok (env_protocol e) /\
  request_id_new (env_request_id e) = Ok (env_request_id e) /\
  message_kind_new (env_kind e) = Ok (env_kind e) /\ 1 <= env_version e <= u32_max.

Lemma bounded_field_text max field grammar t r :
  bounded_field max field grammar t = Ok r -> max <= MAX_JSON_STRING_BYTES ->
  (grammar t = true -> forallb is_scalar t = true) ->
  text_ok t = true /\ str_len t <= max.
Proof.
  unfold bounded_field, validate_bounded_field. intros H Hmax Hg.
  destruct (max =? 0); [done|]. case_bool_decide; [done|].
  destruct (Z.ltb_spec max (str_len t)); [done|]. destruct (existsb is_control t); [done|].
  cbn in H. destruct (grammar t) eqn:E; [|done]. unfold text_ok. rewrite Hg by done.
  split; [bool_prop|]; lia || (split; [done|lia]).
Qed.

Lemma class_scalar (p : Z -> bool) t :
  (forall b, p b = true -> is_scalar b = true) -> forallb p t = true -> forallb is_scalar t = true.
Proof. intros Hp. rewrite !forallb_forall. auto. Qed.

Ltac class_tac :=
  intros b; unfold is_ascii_alphanumeric, is_ascii_lowercase, is_ascii_uppercase, is_ascii_digit,
    in_range, contains, is_scalar; cbn; bool_prop; lia.

Lemma envelope_text e :
  envelope_ok e ->
  (text_ok (env_protocol e) = true /\ str_len (env_protocol e) <= MAX_PROTOCOL_NAME_BYTES) /\
  (text_ok (env_request_id e) = true /\ str_len (env_request_id e) <= MAX_REQUEST_ID_BYTES) /\
  (text_ok (env_kind e) = true /\ str_len (env_kind e) <= MAX_MESSAGE_KIND_BYTES).
Proof.
  intros (Hp & Hr & Hk & _). split; [|split].
  - apply (bounded_field_text _ _ _ _ _ Hp); [by vm_compute|]. unfold protocol_name_grammar.
    rewrite !andb_true_iff. intros [[[_ H] _] _]. revert H. apply class_scalar. class_tac.
  - apply (bounded_field_text _ _ _ _ _ Hr); [by vm_compute|]. apply class_scalar. class_tac.
  - apply (bounded_field_text _ _ _ _ _ Hk); [by vm_compute|]. unfold message_kind_grammar.
    rewrite andb_true_iff. intros [_ H]. revert H. apply class_scalar. class_tac.
Qed.

(** The admission loop: any entry that admits wins; failing that, the first entry
    with the name decides the refusal. *)
Lemma admit_first_refusal m supported refusal :
  refusal <> UnknownProtocol ->
  admit_first m refusal supported =
  if existsb (fun p => is_ok (protocol_admit p (msg_envelope m))) supported then Ok m else Err refusal.
Proof.
  intros Hr. induction supported as [|p supported IH]; [done|]. cbn [admit_first existsb].
  destruct (protocol_admit p (msg_envelope m)) as [|e]; [done|]. cbn [is_ok orb].
  rewrite (bool_decide_eq_false_2 _ Hr). by destruct e.
Qed.

Lemma find_existsb {A} (p : A -> bool) l :
  existsb p l = match List.find p l with Some _ => true | None => false end.
Proof. induction l as [|x l IH]; [done|]. simpl. by destruct (p x). Qed.

Lemma admit_first_spec m supported :
  admit_first m UnknownProtocol supported =
    match List.find (fun p => is_ok (protocol_admit p (msg_envelope m))) supported with
    | Some _ => Ok m
    | None =>
        match List.find (fun p => bool_decide (env_protocol (msg_envelope m) = sp_name p)) supported with
        | None => Err UnknownProtocol
        | Some p => Err (UnsupportedVersion (range_min (sp_versions p)) (range_max (sp_versions p))
                           (env_version (msg_envelope m)))
        end
    end.
Proof.
  induction supported as [|p supported IH]; [done|]. cbn [admit_first List.find].
  assert (Hadm : protocol_admit p (msg_envelope m) =
    if bool_decide (env_protocol (msg_envelope m) = sp_name p) then
      if accepts (sp_versions p) (env_version (msg_envelope m)) then Ok tt
      else Err (UnsupportedVersion (range_min (sp_versions p)) (range_max (sp_versions p))
                  (env_version (msg_envelope m)))
    else Err UnknownProtocol).
  { unfold protocol_admit. case_bool_decide; [|done]. cbn [negb]. by destruct (accepts _ _). }
  rewrite Hadm. case_bool_decide; [|done]. destruct (accepts _ _); [done|]. cbn [is_ok].
  rewrite bool_decide_eq_true_2 by done. rewrite admit_first_refusal by done.
  rewrite find_existsb. by destruct (List.find _ supported).
Qed.

(** Messages round-trip and are admitted fail-closed.  A message whose
    envelope its constructors admit and whose canonical body leaves one level
    for the envelope decodes from its own encoding to the same message; it is
    then admitted exactly when some supported entry has its protocol name and
    accepts its version, and otherwise the refusal is [UnknownProtocol] when no
    entry has the name, and the first such entry's version refusal when one has. *)
Theorem message_roundtrip m supported :
  envelope_ok (msg_envelope m) ->
  limits (msg_body m) (MAX_NESTING_DEPTH - 1) = true -> keys_in_order (msg_body m) = true ->
  message_from_bytes (message_to_bytes m) = Ok m /\
  message_from_bytes_admitted (message_to_bytes m) supported =
    match List.find (fun p => is_ok (protocol_admit p (msg_envelope m))) supported with
    | Some _ => Ok m
    | None =>
        match List.find (fun p => bool_decide (env_protocol (msg_envelope m) = sp_name p)) supported with
        | None => Err UnknownProtocol
        | Some p => Err (UnsupportedVersion (range_min (sp_versions p)) (range_max (sp_versions p))
                           (env_version (msg_envelope m)))
        end
    end.
Proof.
  intros He Hl Hk. destruct (envelope_text _ He) as ([Hp1 Hp2] & [Hr1 Hr2] & [Hk1 Hk2]).
  destruct He as (Hp & Hr & Hkd & Hv). destruct m as [[prot ver req kind] body].
  cbn [msg_envelope msg_body env_protocol env_version env_request_id env_kind] in *.
  assert (Hdec : message_from_bytes (message_to_bytes (mkMessage (mkEnvelope prot ver req kind) body)) =
    Ok (mkMessage (mkEnvelope prot ver req kind) body)).
  { unfold message_from_bytes, message_to_bytes. rewrite parse_canonical_complete.
    - assert (Hg : forall k v, json_get (message_value (mkMessage (mkEnvelope prot ver req kind) body)) k
        = Some v -> json_get (message_value (mkMessage (mkEnvelope prot ver req kind) body)) k = Some v) by done.
      unfold required_string. cbn [mbind result_bind].
      rewrite (Hg (str "protocol") (JString prot)), (Hg (str "request_id") (JString req)),
        (Hg (str "kind") (JString kind)), (Hg (str "version") (Integer ver)),
        (Hg (str "body") body) by reflexivity.
      cbn [ok_or mbind result_bind as_str as_integer].
      rewrite !(proj2 (Z.ltb_ge _ _)) by lia. cbn [mbind result_bind].
      unfold check_u32. rewrite !(proj2 (Z.leb_le _ _)) by lia. cbn [andb ok_or mbind result_bind].
      rewrite Hp. cbn [mbind result_bind]. unfold major_version_new.
      rewrite (proj2 (Z.eqb_neq _ _)) by lia. cbn [mbind result_bind].
      rewrite Hr. cbn [mbind result_bind]. by rewrite Hkd.
    - cbn [message_value limits msg_envelope msg_body env_protocol env_version env_request_id env_kind
        forallb fst snd]. rewrite Hp1, Hr1, Hk1, Hl.
      rewrite !(proj2 (Z.leb_le _ ver)), (proj2 (Z.leb_le ver _)) by (widths; lia).
      vm_compute. reflexivity.
    - cbn [message_value keys_in_order msg_envelope msg_body forallb snd]. rewrite Hk.
      vm_compute. reflexivity. }
  split; [done|]. unfold message_from_bytes_admitted. rewrite Hdec. cbn [mbind result_bind].
  apply admit_first_spec.
Qed.

Definition demo_message : Message :=
  mkMessage (mkEnvelope (str "automonique.runner") 2 (str "req-1") (str "subscribe"))
    (Object [(str "after", Integer 7)]).

Lemma message_roundtrip_witness :
  message_from_bytes_admitted (message_to_bytes demo_message)
    [mkSupported (str "automonique.runner") (mkRange 3 4)] = Err (UnsupportedVersion 3 4 2).
Proof.
  apply (message_roundtrip demo_message [mkSupported (str "automonique.runner") (mkRange 3 4)]).
  - vm_compute. repeat split; congruence.
  - vm_compute. reflexivity.
  - vm_compute. reflexivity.
Defined.
