(* ===== verification/Digest.v ===== *)
(** SHA-256: [automonique-protocol/src/digest.rs].

    The streaming hasher with its 64-byte block buffer, the compression
    function on 32-bit words, and the spelling of a digest.  [fips_sha256] is
    the reference definition (pad the whole message, fold the compression over
    its blocks) that the streaming code is compared with. *)

From S2P Require Import Prelude Text.

Definition ALGORITHM : list Z := str "sha256".
Definition DIGEST_BYTES : nat := 32.
Definition BLOCK_BYTES : nat := 64.
Definition LENGTH_OFFSET : nat := 56.

Definition INITIAL_STATE : list Z :=
  [0x6a09_e667; 0xbb67_ae85; 0x3c6e_f372; 0xa54f_f53a; 0x510e_527f; 0x9b05_688c; 0x1f83_d9ab; 0x5be0_cd19].

Definition ROUND_CONSTANTS : list Z :=
  [0x428a_2f98; 0x7137_4491; 0xb5c0_fbcf; 0xe9b5_dba5; 0x3956_c25b; 0x59f1_11f1;
   0x923f_82a4; 0xab1c_5ed5; 0xd807_aa98; 0x1283_5b01; 0x2431_85be; 0x550c_7dc3;
   0x72be_5d74; 0x80de_b1fe; 0x9bdc_06a7; 0xc19b_f174; 0xe49b_69c1; 0xefbe_4786;
   0x0fc1_9dc6; 0x240c_a1cc; 0x2de9_2c6f; 0x4a74_84aa; 0x5cb0_a9dc; 0x76f9_88da;
   0x983e_5152; 0xa831_c66d; 0xb003_27c8; 0xbf59_7fc7; 0xc6e0_0bf3; 0xd5a7_9147;
   0x06ca_6351; 0x1429_2967; 0x27b7_0a85; 0x2e1b_2138; 0x4d2c_6dfc; 0x5338_0d13;
   0x650a_7354; 0x766a_0abb; 0x81c2_c92e; 0x9272_2c85; 0xa2bf_e8a1; 0xa81a_664b;
   0xc24b_8b70; 0xc76c_51a3; 0xd192_e819; 0xd699_0624; 0xf40e_3585; 0x106a_a070;
   0x19a4_c116; 0x1e37_6c08; 0x2748_774c; 0x34b0_bcb5; 0x391c_0cb3; 0x4ed8_aa4a;
   0x5b9c_ca4f; 0x682e_6ff3; 0x748f_82ee; 0x78a5_636f; 0x84c8_7814; 0x8cc7_0208;
   0x90be_fffa; 0xa450_6ceb; 0xbef9_a3f7; 0xc671_78f2].

(** * Words *)

Definition rotate_right (x n : Z) : Z :=
  Z.lor (Z.shiftr x n) (Z.land (Z.shiftl x (32 - n)) u32_max).
Definition not_u32 (x : Z) : Z := Z.lxor x u32_max.
Definition add_u32 (x y : Z) : Z := wrap_u32 (x + y).

(** [chunks_exact(n)]: the whole chunks of a slice, and its remainder. *)
Fixpoint chunks_exact (count n : nat) (l : list Z) : list (list Z) :=
  match count with
  | O => []
  | S count => take n l :: chunks_exact count n (drop n l)
  end.
Definition chunk_count (n : nat) (l : list Z) : nat := (length l / n)%nat.
Definition chunks (n : nat) (l : list Z) : list (list Z) := chunks_exact (chunk_count n l) n l.
Definition remainder (n : nat) (l : list Z) : list Z := drop (chunk_count n l * n) l.

(** * Compression *)

Definition word_of (chunk : list Z) : Z :=
  fold_left (fun value byte => Z.lor (Z.land (Z.shiftl value 8) u32_max) byte) chunk 0.

(** The schedule grows from sixteen words to [16 + n]. *)
Definition next_word (schedule : list Z) : Z :=
  let index := length schedule in
  let near := nth (index - 15) schedule 0 in
  let far := nth (index - 2) schedule 0 in
  let sigma0 := Z.lxor (Z.lxor (rotate_right near 7) (rotate_right near 18)) (Z.shiftr near 3) in
  let sigma1 := Z.lxor (Z.lxor (rotate_right far 17) (rotate_right far 19)) (Z.shiftr far 10) in
  add_u32 (add_u32 (add_u32 (nth (index - 16) schedule 0) sigma0) (nth (index - 7) schedule 0)) sigma1.

Fixpoint extend_schedule (n : nat) (schedule : list Z) : list Z :=
  match n with
  | O => schedule
  | S n => extend_schedule n (schedule ++ [next_word schedule])
  end.

Definition schedule_of (block : list Z) : list Z :=
  extend_schedule 48 (word_of <$> chunks 4 block).

(** One round; the working variables are the eight-element list. *)
Definition round (vars : list Z) (word_constant : Z * Z) : list Z :=
  let '(word, constant) := word_constant in
  match vars with
  | [a; b; c; d; e; f; g; h] =>
      let sum1 := Z.lxor (Z.lxor (rotate_right e 6) (rotate_right e 11)) (rotate_right e 25) in
      let choose := Z.lxor (Z.land e f) (Z.land (not_u32 e) g) in
      let temp1 := add_u32 (add_u32 (add_u32 (add_u32 h sum1) choose) constant) word in
      let sum0 := Z.lxor (Z.lxor (rotate_right a 2) (rotate_right a 13)) (rotate_right a 22) in
      let majority := Z.lxor (Z.lxor (Z.land a b) (Z.land a c)) (Z.land b c) in
      let temp2 := add_u32 sum0 majority in
      [add_u32 temp1 temp2; a; b; c; add_u32 d temp1; e; f; g]
  | _ => vars
  end.

Definition compress (state block : list Z) : list Z :=
  let vars := fold_left round (zip (schedule_of block) ROUND_CONSTANTS) state in
  zip_with add_u32 state vars.

(** * The streaming hasher *)

Record Sha256 := mkSha { state : list Z; block : list Z; filled : nat; bytes : Z }.

Definition sha_new : Sha256 := mkSha INITIAL_STATE (replicate BLOCK_BYTES 0) 0 0.

(** [buffer[from..from + data.len()].copy_from_slice(data)]. *)
Definition copy_at (from : nat) (data buffer : list Z) : list Z :=
  take from buffer ++ data ++ drop (from + length data) buffer.

Definition absorb_rest (input : list Z) (s : Sha256) : Sha256 :=
  let st := fold_left compress (chunks BLOCK_BYTES input) (state s) in
  let rest := remainder BLOCK_BYTES input in
  mkSha st (copy_at (filled s) rest (block s)) (filled s + length rest) (bytes s).

Definition absorb (input : list Z) (s : Sha256) : Sha256 :=
  if (0 <? filled s)%nat then
    let taken := Nat.min (BLOCK_BYTES - filled s) (length input) in
    let blk := copy_at (filled s) (take taken input) (block s) in
    let fill := (filled s + taken)%nat in
    let tail := drop taken input in
    if (fill =? BLOCK_BYTES)%nat then
      absorb_rest tail (mkSha (compress (state s) blk) blk 0 (bytes s))
    else absorb_rest tail (mkSha (state s) blk fill (bytes s))
  else absorb_rest input s.

Definition update (input : list Z) (s : Sha256) : Sha256 :=
  absorb input (mkSha (state s) (block s) (filled s) (wrap_u64 (bytes s + len input))).

(** [u32::to_be_bytes] and [u64::to_be_bytes]. *)
Definition be_bytes (n : nat) (x : Z) : list Z :=
  (fun i => Z.land (Z.shiftr x (8 * (Z.of_nat n - 1 - i))) 255) <$> seqZ 0 (Z.of_nat n).

Definition finish (s : Sha256) : list Z :=
  let bits := wrap_u64 (bytes s * 8) in
  let s := absorb [0x80] s in
  let padding := ((LENGTH_OFFSET + BLOCK_BYTES - filled s) mod BLOCK_BYTES)%nat in
  let s := absorb (replicate padding 0) s in
  let s := absorb (be_bytes 8 bits) s in
  mjoin (be_bytes 4 <$> state s).

Definition digest (input : list Z) : list Z := finish (update input sha_new).

(** * Spelling *)

Inductive DigestError := AlgorithmUnnamed | HexInvalid.

(** [HEX_DIGITS[n]]. *)
Definition HEX_DIGITS : list Z := str "0123456789abcdef".
Definition to_hex (d : list Z) : list Z :=
  mjoin ((fun b => [nth (Z.to_nat (Z.shiftr b 4)) HEX_DIGITS 0;
                    nth (Z.to_nat (Z.land b 15)) HEX_DIGITS 0]) <$> d).

Definition digest_to_string (d : list Z) : list Z := ALGORITHM ++ 58 :: to_hex d.

Definition digest_hex_value (b : Z) : option Z :=
  if in_range 48 57 b then Some (b - 48)
  else if in_range 97 102 b then Some (b - 97 + 10)
  else None.

(** One pair of digits; the first one shifted is still below 256. *)
Definition hex_pair (pair : list Z) : option Z :=
  fold_left (fun acc digit =>
    match acc, digest_hex_value digit with
    | Some value, Some d => Some (Z.lor (Z.land (Z.shiftl value 4) 255) d)
    | _, _ => None
    end) pair (Some 0).

Definition digest_from_str (value : list Z) : result DigestError (list Z) :=
  hex ← ok_or (strip_prefix ALGORITHM value ≫= strip_prefix [58]) AlgorithmUnnamed;
  if negb (str_len hex =? Z.of_nat (DIGEST_BYTES * 2)) then Err HexInvalid
  else ok_or (mapM hex_pair (chunks 2 (utf8 hex))) HexInvalid.

(** * The reference definition *)

(** FIPS 180-4 padding of a whole message. *)
Definition pad (m : list Z) : list Z :=
  m ++ 0x80 :: replicate (Z.to_nat ((55 - len m) mod 64)) 0 ++ be_bytes 8 (wrap_u64 (8 * len m)).

Definition fips_sha256 (m : list Z) : list Z :=
  mjoin (be_bytes 4 <$> fold_left compress (chunks BLOCK_BYTES (pad m)) INITIAL_STATE).

(** Published vectors: the empty message, one block, two blocks. *)
Example vector_empty :
  to_hex (digest []) = str "e3b0c44298fc1c149afbf4c8996fb92427ae41e4649b934ca495991b7852b855".
Proof. vm_compute. reflexivity. Qed.

Example vector_abc :
  to_hex (digest (str "abc")) = str "ba7816bf8f01cfea414140de5dae2223b00361a396177a9cb410ff61f20015ad".
Proof. vm_compute. reflexivity. Qed.

Example vector_two_blocks :
  to_hex (digest (str "abcdbcdecdefdefgefghfghighijhijkijkljklmklmnlmnomnopnopq")) =
  str "248d6a61d20638b8e5c026930c3e6039a33ce45964ff2167f6ecedd419db06c1".
Proof. vm_compute. reflexivity. Qed.

(** * Chunks *)

Lemma chunks_exact_concat bs (r : list Z) n :
  Forall (fun b => length b = n) bs -> chunks_exact (length bs) n (mjoin bs ++ r) = bs.
Proof.
  induction 1 as [|b bs Hb _ IH]; [done|]. cbn [length chunks_exact].
  change (mjoin (b :: bs)) with (b ++ mjoin bs). rewrite <- app_assoc.
  rewrite take_app_length', drop_app_length' by done. by rewrite IH.
Qed.

Lemma length_mjoin (bs : list (list Z)) n :
  Forall (fun b => length b = n) bs -> length (mjoin bs) = (length bs * n)%nat.
Proof.
  induction 1 as [|b bs Hb _ IH]; [done|]. change (mjoin (b :: bs)) with (b ++ mjoin bs).
  rewrite length_app, IH, Hb. done.
Qed.

(** Whole blocks followed by less than a block. *)
Lemma chunk_count_concat bs r n :
  Forall (fun b => length b = n) bs -> (length r < n)%nat ->
  chunk_count n (mjoin bs ++ r) = length bs.
Proof.
  intros Hb Hr. unfold chunk_count. rewrite length_app, (length_mjoin bs n Hb).
  rewrite Nat.div_add_l by lia. rewrite Nat.div_small by done. lia.
Qed.

Lemma chunks_concat bs r n :
  Forall (fun b => length b = n) bs -> (length r < n)%nat -> chunks n (mjoin bs ++ r) = bs.
Proof.
  intros Hb Hr. unfold chunks. rewrite chunk_count_concat by done. by apply chunks_exact_concat.
Qed.

Lemma remainder_concat bs r n :
  Forall (fun b => length b = n) bs -> (length r < n)%nat -> remainder n (mjoin bs ++ r) = r.
Proof.
  intros Hb Hr. unfold remainder. rewrite chunk_count_concat by done.
  apply drop_app_length'. by rewrite (length_mjoin bs n Hb).
Qed.

(** Every list splits that way. *)
Lemma chunks_split n (l : list Z) :
  (0 < n)%nat -> exists bs r, l = mjoin bs ++ r /\ Forall (fun b => length b = n) bs /\ (length r < n)%nat.
Proof.
  intros Hn. induction l as [l IH] using (induction_ltof1 _ length). unfold ltof in IH.
  destruct (Nat.lt_ge_cases (length l) n) as [Hl|Hl].
  { exists [], l. split_and!; [done|apply Forall_nil_2|done]. }
  destruct (IH (drop n l)) as (bs & r & E & Hb & Hr); [rewrite length_drop; lia|].
  exists (take n l :: bs), r. split_and!; [|apply Forall_cons_2; [|done]; rewrite length_take; lia|done].
  change (mjoin (take n l :: bs)) with (take n l ++ mjoin bs).
  by rewrite <- app_assoc, <- E, take_drop.
Qed.

(** * The hasher's representation *)

(** [s] has absorbed [m]: whole blocks are compressed, the rest is buffered. *)
Definition represents (s : Sha256) (m : list Z) : Prop :=
  exists bs, Forall (fun b => length b = BLOCK_BYTES) bs /\
    m = mjoin bs ++ take (filled s) (block s) /\
    state s = fold_left compress bs INITIAL_STATE /\
    length (block s) = BLOCK_BYTES /\ (filled s < BLOCK_BYTES)%nat.

Lemma sha_new_represents : represents sha_new [].
Proof. exists []. split_and!; [apply Forall_nil_2|done..|]. simpl. unfold BLOCK_BYTES. lia. Qed.

Lemma copy_at_length from data buffer :
  (from + length data <= length buffer)%nat -> length (copy_at from data buffer) = length buffer.
Proof. intros H. unfold copy_at. rewrite !length_app, length_take, length_drop. lia. Qed.

Lemma take_copy_at from data buffer :
  (from + length data <= length buffer)%nat ->
  take (from + length data) (copy_at from data buffer) = take from buffer ++ data.
Proof.
  intros H. unfold copy_at. rewrite app_assoc. apply take_app_length'.
  rewrite length_app, length_take. lia.
Qed.

(** Absorbing from a block boundary. *)
Lemma absorb_rest_represents input s m :
  represents s m -> filled s = O -> represents (absorb_rest input s) (m ++ input).
Proof.
  intros (bs & Hb & Hm & Hs & Hl & _) Hf. rewrite Hf, take_0, app_nil_r in Hm.
  destruct (chunks_split BLOCK_BYTES input) as (cs & r & E & Hc & Hr); [unfold BLOCK_BYTES; lia|].
  unfold absorb_rest. rewrite E, chunks_concat, remainder_concat by done. rewrite Hf.
  exists (bs ++ cs). cbn [state block filled].
  split_and!; [by apply Forall_app| | | |lia].
  - pose proof (take_copy_at 0 r (block s)) as Ht. rewrite take_0 in Ht. cbn [app] in Ht.
    rewrite Ht by lia. rewrite join_app, <- app_assoc. by rewrite Hm.
  - by rewrite fold_left_app, Hs.
  - rewrite copy_at_length; [done|lia].
Qed.

Lemma absorb_rest_nil s :
  (filled s < BLOCK_BYTES)%nat -> length (block s) = BLOCK_BYTES -> absorb_rest [] s = s.
Proof.
  intros Hf Hl. destruct s as [st blk fl by_]. unfold absorb_rest, chunks, remainder, chunk_count.
  cbn. f_equal; [|lia]. unfold copy_at. simpl. by rewrite Nat.add_0_r, take_drop.
Qed.

Lemma absorb_represents input s m :
  represents s m -> represents (absorb input s) (m ++ input).
Proof.
  intros Hrep. unfold absorb. destruct (Nat.ltb_spec 0 (filled s)) as [Hpos|Hz].
  2: { apply absorb_rest_represents; [done|lia]. }
  pose proof Hrep as (bs & Hb & Hm & Hs & Hl & Hlt). cbv zeta.
  set (taken := Nat.min (BLOCK_BYTES - filled s) (length input)).
  assert (Htl : length (take taken input) = taken) by (rewrite length_take; lia).
  set (blk := copy_at (filled s) (take taken input) (block s)).
  assert (Hblk : length blk = BLOCK_BYTES) by (unfold blk; rewrite copy_at_length; lia).
  assert (Htake : take (filled s + taken) blk = take (filled s) (block s) ++ take taken input).
  { rewrite <- Htl at 1. apply take_copy_at. lia. }
  destruct (Nat.eqb_spec (filled s + taken) BLOCK_BYTES) as [Efull|Hpart].
  - replace (m ++ input) with ((m ++ take taken input) ++ drop taken input)
      by (by rewrite <- app_assoc, take_drop).
    apply absorb_rest_represents; [|done].
    exists (bs ++ [blk]). cbn [state block filled].
    split_and!; [apply Forall_app; split; [done|by apply Forall_singleton]| | |done|unfold BLOCK_BYTES; lia].
    + rewrite take_0, app_nil_r, join_app. change (mjoin [blk]) with (blk ++ []).
      rewrite app_nil_r, Hm, <- app_assoc, <- Htake, Efull. by rewrite take_ge by lia.
    + by rewrite fold_left_app, <- Hs.
  - assert (Hall : drop taken input = []) by (apply drop_ge; lia).
    assert (Hin : take taken input = input) by (apply take_ge; lia).
    rewrite Hall, absorb_rest_nil by (cbn [filled block]; lia).
    exists bs. cbn [state block filled]. split_and!; [done| |done|done|lia].
    by rewrite Htake, Hin, Hm, <- app_assoc.
Qed.

Lemma absorb_bytes input s : bytes (absorb input s) = bytes s.
Proof. unfold absorb, absorb_rest. by repeat case_match. Qed.

(** The number of buffered bytes is the message length modulo the block. *)
Lemma represents_filled s m : represents s m -> filled s = (length m mod BLOCK_BYTES)%nat.
Proof.
  intros (bs & Hb & -> & _ & Hl & Hf). rewrite length_app, (length_mjoin bs BLOCK_BYTES Hb), length_take.
  rewrite Nat.min_l by lia. rewrite Nat.add_comm, Nat.Div0.mod_add. by rewrite Nat.mod_small.
Qed.

(** At a block boundary the state is the fold over the message's blocks. *)
Lemma represents_state s m :
  represents s m -> filled s = O -> state s = fold_left compress (chunks BLOCK_BYTES m) INITIAL_STATE.
Proof.
  intros (bs & Hb & -> & Hs & _ & _) Hf. rewrite Hf, take_0.
  rewrite chunks_concat; [done|done|simpl; unfold BLOCK_BYTES; lia].
Qed.

Lemma be_bytes_length n x : length (be_bytes n x) = n.
Proof. unfold be_bytes. rewrite length_fmap, length_seqZ. lia. Qed.

Lemma finish_spec s m :
  represents s m -> bytes s = wrap_u64 (len m) -> finish s = fips_sha256 m.
Proof.
  intros Hrep Hby. unfold finish, fips_sha256. cbv zeta.
  pose proof (absorb_represents [0x80] s m Hrep) as H1.
  pose proof (represents_filled _ _ H1) as Hf1.
  set (padding := ((LENGTH_OFFSET + BLOCK_BYTES - filled (absorb [0x80%Z] s)) mod BLOCK_BYTES)%nat).
  assert (Hpad : padding = Z.to_nat ((55 - len m) mod 64)).
  { unfold padding. rewrite Hf1, length_app. cbn [length]. unfold LENGTH_OFFSET, BLOCK_BYTES, len.
    apply Nat2Z.inj. rewrite Z2Nat.id by (apply Z.mod_pos_bound; lia).
    rewrite Nat2Z.inj_mod. pose proof (Nat.mod_upper_bound (length m + 1) 64 ltac:(lia)).
    rewrite Nat2Z.inj_sub by lia. rewrite Nat2Z.inj_mod, Nat2Z.inj_add.
    change (Z.of_nat (56 + 64)) with 120. change (Z.of_nat 64) with 64. change (Z.of_nat 1) with 1.
    Z.to_euclidean_division_equations. lia. }
  pose proof (absorb_represents (replicate padding 0) _ _ H1) as H2.
  pose proof (absorb_represents (be_bytes 8 (wrap_u64 (bytes s * 8))) _ _ H2) as H3.
  assert (Hbits : wrap_u64 (bytes s * 8) = wrap_u64 (8 * len m)).
  { rewrite Hby. unfold wrap_u64. rewrite Z.mul_comm. apply Z.mul_mod_idemp_r. widths. lia. }
  assert (Hmsg : ((m ++ [0x80]) ++ replicate padding 0) ++ be_bytes 8 (wrap_u64 (bytes s * 8)) = pad m).
  { unfold pad. rewrite Hbits, Hpad, <- !app_assoc. done. }
  rewrite Hmsg in H3. f_equal. f_equal. apply (represents_state _ _ H3).
  rewrite (represents_filled _ _ H3). unfold pad.
  rewrite length_app. cbn [length]. rewrite length_app, length_replicate, be_bytes_length.
  unfold BLOCK_BYTES. apply Nat2Z.inj. rewrite Nat2Z.inj_mod, Nat2Z.inj_add, Nat2Z.inj_succ, Nat2Z.inj_add.
  rewrite Z2Nat.id by (apply Z.mod_pos_bound; lia). unfold len.
  change (Z.of_nat 8) with 8. change (Z.of_nat 64) with 64. change (Z.of_nat 0) with 0.
  Z.to_euclidean_division_equations. lia.
Qed.

Lemma update_represents chunk s m :
  represents s m -> bytes s = wrap_u64 (len m) ->
  represents (update chunk s) (m ++ chunk) /\ bytes (update chunk s) = wrap_u64 (len (m ++ chunk)).
Proof.
  intros Hrep Hby. unfold update. split.
  - by apply absorb_represents.
  - rewrite absorb_bytes. cbn [bytes]. rewrite Hby, len_app. unfold wrap_u64.
    by rewrite Z.add_mod_idemp_l by (widths; lia).
Qed.

(** * Hexadecimal *)

Definition bytes_ok (d : list Z) : Prop := Forall (fun b => is_byte b = true) d.

Lemma utf8_bytes_ok t : Forall (fun c => is_scalar c = true) t -> bytes_ok (utf8 t).
Proof.
  induction 1 as [|c t Hc _ IH]; [constructor|]. rewrite utf8_cons. apply Forall_app.
  split; [by apply encode_char_bytes|done].
Qed.

(** All 256 bytes, by evaluation. *)
Lemma hex_byte b :
  is_byte b = true ->
  let h := nth (Z.to_nat (Z.shiftr b 4)) HEX_DIGITS 0 in
  let l := nth (Z.to_nat (Z.land b 15)) HEX_DIGITS 0 in
  hex_pair [h; l] = Some b /\ in_range 0 0x7F h = true /\ in_range 0 0x7F l = true.
Proof.
  assert (Hall : forallb (fun b =>
    let h := nth (Z.to_nat (Z.shiftr b 4)) HEX_DIGITS 0 in
    let l := nth (Z.to_nat (Z.land b 15)) HEX_DIGITS 0 in
    bool_decide (hex_pair [h; l] = Some b) && in_range 0 0x7F h && in_range 0 0x7F l)
    (seqZ 0 256) = true) by (vm_compute; reflexivity).
  intros Hb. rewrite forallb_forall in Hall.
  assert (Hin : b ∈ seqZ 0 256) by (apply elem_of_seqZ; unfold is_byte in Hb; bool_prop; lia).
  specialize (Hall b (proj1 (list_elem_of_In _ _) Hin)). cbv zeta in *.
  rewrite !andb_true_iff, bool_decide_eq_true in Hall. tauto.
Qed.

Lemma hex_value_range x : is_Some (digest_hex_value x) -> x ∈ seqZ 48 55.
Proof.
  intros [v Hx]. apply elem_of_seqZ. unfold digest_hex_value, in_range in Hx.
  destruct (Z.leb_spec 48 x), (Z.leb_spec x 57), (Z.leb_spec 97 x), (Z.leb_spec x 102);
    cbn [andb] in Hx; first [done | lia].
Qed.

(** The two digits of a byte are the only pair that reads as it. *)
Lemma hex_pair_inv h l b :
  hex_pair [h; l] = Some b ->
  is_byte b = true /\ h = nth (Z.to_nat (Z.shiftr b 4)) HEX_DIGITS 0 /\
  l = nth (Z.to_nat (Z.land b 15)) HEX_DIGITS 0.
Proof.
  assert (Hall : forallb (fun h => forallb (fun l =>
    match hex_pair [h; l] with
    | Some b => is_byte b && (h =? nth (Z.to_nat (Z.shiftr b 4)) HEX_DIGITS 0)
                && (l =? nth (Z.to_nat (Z.land b 15)) HEX_DIGITS 0)
    | None => true
    end) (seqZ 48 55)) (seqZ 48 55) = true) by (vm_compute; reflexivity).
  intros H.
  assert (Hh : is_Some (digest_hex_value h) /\ is_Some (digest_hex_value l)).
  { unfold hex_pair in H. cbn [fold_left] in H. destruct (digest_hex_value h); [|done].
    destruct (digest_hex_value l); [|done]. split; by eexists. }
  destruct Hh as [Hh Hl]. rewrite forallb_forall in Hall.
  specialize (Hall h (proj1 (list_elem_of_In _ _) (hex_value_range _ Hh))). rewrite forallb_forall in Hall.
  specialize (Hall l (proj1 (list_elem_of_In _ _) (hex_value_range _ Hl))). rewrite H in Hall.
  rewrite !andb_true_iff, !Z.eqb_eq in Hall. tauto.
Qed.

Lemma chunks_pairs_to_hex d : chunks 2 (to_hex d) = (fun b =>
  [nth (Z.to_nat (Z.shiftr b 4)) HEX_DIGITS 0; nth (Z.to_nat (Z.land b 15)) HEX_DIGITS 0]) <$> d.
Proof.
  unfold to_hex. rewrite <- (app_nil_r (mjoin _)). apply chunks_concat; [|simpl; lia].
  apply Forall_fmap, Forall_forall. done.
Qed.

Lemma to_hex_ascii d : bytes_ok d -> Forall (fun c => in_range 0 0x7F c = true) (to_hex d).
Proof.
  induction 1 as [|b d Hb _ IH]; [apply Forall_nil_2|].
  destruct (hex_byte b Hb) as (_ & H1 & H2). unfold to_hex. rewrite fmap_cons.
  change (mjoin (?x :: ?l)) with (x ++ mjoin l). by repeat apply Forall_cons_2.
Qed.

Lemma ascii_scalar t :
  Forall (fun c => in_range 0 0x7F c = true) t -> Forall (fun c => is_scalar c = true) t.
Proof.
  intros H. eapply Forall_impl; [exact H|]. intros c Hc. unfold in_range, is_scalar in *.
  rewrite andb_true_iff, !Z.leb_le in Hc. bool_prop. lia.
Qed.

Lemma to_hex_length d : length (to_hex d) = (2 * length d)%nat.
Proof.
  unfold to_hex. rewrite (length_mjoin _ 2); [rewrite length_fmap; lia|].
  apply Forall_fmap, Forall_forall. done.
Qed.


Lemma hex_pairs_read d :
  bytes_ok d -> mapM hex_pair (chunks 2 (to_hex d)) = Some d.
Proof.
  intros Hd. rewrite chunks_pairs_to_hex. apply mapM_Some.
  induction Hd as [|b d Hb _ IH]; [constructor|]. rewrite fmap_cons. constructor; [|done].
  by destruct (hex_byte b Hb).
Qed.

(** Pairs that read as bytes are the bytes' digits. *)
Lemma hex_pairs_inv ps d :
  Forall (fun p => length p = 2%nat) ps -> mapM hex_pair ps = Some d ->
  mjoin ps = to_hex d /\ bytes_ok d.
Proof.
  intros Hl Hm. apply mapM_Some in Hm. induction Hm as [|p b ps d Hp _ IH].
  { split; [done|apply Forall_nil_2]. }
  apply Forall_cons in Hl as [Hl1 Hl]. destruct (IH Hl) as [E Hd].
  destruct p as [|h [|l [|]]]; try done.
  destruct (hex_pair_inv h l b Hp) as (Hb & Eh & El).
  change (mjoin ([h; l] :: ps)) with (h :: l :: mjoin ps). rewrite E. split.
  - unfold to_hex. rewrite fmap_cons, Eh, El. done.
  - by apply Forall_cons_2.
Qed.

Lemma even_chunks l n :
  length l = (2 * n)%nat ->
  mjoin (chunks 2 l) = l /\ Forall (fun p => length p = 2%nat) (chunks 2 l).
Proof.
  intros Hl. destruct (chunks_split 2 l) as (ps & r & E & Hp & Hr); [lia|].
  pose proof Hl as Hlen. rewrite E, length_app, (length_mjoin ps 2 Hp) in Hlen.
  assert (r = []) as -> by (destruct r; [done|simpl in *; lia]).
  rewrite E, chunks_concat by done. by rewrite app_nil_r.
Qed.

Lemma prefix_split value hex :
  (strip_prefix ALGORITHM value ≫= strip_prefix [58]) = Some hex <-> value = ALGORITHM ++ 58 :: hex.
Proof.
  rewrite bind_Some. split.
  - intros (rest & H1 & H2). apply strip_prefix_Some in H1, H2. by rewrite H1, H2.
  - intros ->. exists (58 :: hex). split; [by apply strip_prefix_Some|].
    by apply (strip_prefix_Some [58]).
Qed.

Lemma to_hex_inj d d' : bytes_ok d -> bytes_ok d' -> to_hex d = to_hex d' -> d = d'.
Proof. intros H H' E. apply hex_pairs_read in H, H'. rewrite E in H. congruence. Qed.

(** A digest consists of bytes. *)
Lemma be_bytes_ok n x : bytes_ok (be_bytes n x).
Proof.
  apply Forall_fmap, Forall_forall. intros i _. unfold compose, is_byte.
  change 255 with (Z.ones 8) at 1 2. rewrite Z.land_ones by lia.
  pose proof (Z.mod_pos_bound (Z.shiftr x (8 * (Z.of_nat n - 1 - i))) (2 ^ 8) ltac:(lia)).
  change (2 ^ 8) with 256 in *. bool_prop. change (Z.ones 8) with 255. lia.
Qed.

Lemma finish_bytes s : bytes_ok (finish s).
Proof.
  unfold finish. cbv zeta. generalize (state (absorb (be_bytes 8 (wrap_u64 (bytes s * 8)))
    (absorb (replicate ((LENGTH_OFFSET + BLOCK_BYTES - filled (absorb [0x80%Z] s)) mod BLOCK_BYTES)%nat 0)
       (absorb [0x80] s)))).
  intros ws. induction ws as [|w ws IH]; [apply Forall_nil_2|]. rewrite fmap_cons.
  change (mjoin (be_bytes 4 w :: (be_bytes 4 <$> ws))) with (be_bytes 4 w ++ mjoin (be_bytes 4 <$> ws)).
  apply Forall_app. split; [apply be_bytes_ok|done].
Qed.

Lemma digest_bytes m : bytes_ok (digest m).
Proof. apply finish_bytes. Qed.

(** A digest is 32 bytes, spelled by 64 lowercase hexadecimal digits. *)
Lemma round_length vars wc : length (round vars wc) = length vars.
Proof. destruct wc. unfold round. repeat case_match; done. Qed.

Lemma compress_length st b : length (compress st b) = length st.
Proof.
  unfold compress. rewrite length_zip_with. assert (forall l v, length (fold_left round l v) = length v) as ->; [|lia].
  intros l. induction l as [|x l IH]; intros v; [done|]. cbn [fold_left]. by rewrite IH, round_length.
Qed.

Lemma absorb_rest_length input s : length (state (absorb_rest input s)) = length (state s).
Proof.
  unfold absorb_rest. cbn [state]. generalize (state s). induction (chunks BLOCK_BYTES input) as [|b bs IH]; intros st; [done|].
  cbn [fold_left]. by rewrite IH, compress_length.
Qed.

Lemma absorb_length input s : length (state (absorb input s)) = length (state s).
Proof.
  unfold absorb. destruct (0 <? filled s)%nat; [|apply absorb_rest_length]. cbv zeta.
  destruct (_ =? BLOCK_BYTES)%nat; rewrite absorb_rest_length; [apply compress_length|done].
Qed.

Lemma finish_length s : length (state s) = 8%nat -> length (finish s) = 32%nat.
Proof.
  intros Hs. unfold finish. cbv zeta.
  match goal with |- context [state ?x] => assert (length (state x) = 8%nat) as Hl by (by rewrite !absorb_length) end.
  revert Hl. generalize (state (absorb (be_bytes 8 (wrap_u64 (bytes s * 8)))
    (absorb (replicate ((LENGTH_OFFSET + BLOCK_BYTES - filled (absorb [0x80%Z] s)) mod BLOCK_BYTES)%nat 0)
       (absorb [0x80] s)))).
  intros ws Hl. do 9 (destruct ws as [|? ws]; [try discriminate Hl|]); [|discriminate Hl].
  cbn [fmap list_fmap mjoin list_join]. by rewrite !length_app, !be_bytes_length.
Qed.

Lemma digest_length m : length (digest m) = 32%nat.
Proof. unfold digest, update. apply finish_length. by rewrite absorb_length. Qed.

Definition lower_hex (c : Z) : bool := is_ascii_digit c || in_range 97 102 c.

Lemma to_hex_lower d : bytes_ok d -> Forall (fun c => lower_hex c = true) (to_hex d).
Proof.
  assert (Hall : forallb (fun b => lower_hex (nth (Z.to_nat (Z.shiftr b 4)) HEX_DIGITS 0)
    && lower_hex (nth (Z.to_nat (Z.land b 15)) HEX_DIGITS 0)) (seqZ 0 256) = true) by (vm_compute; reflexivity).
  rewrite forallb_forall in Hall. induction 1 as [|b d Hb _ IH]; [apply Forall_nil_2|].
  assert (Hin : b ∈ seqZ 0 256) by (apply elem_of_seqZ; unfold is_byte in Hb; bool_prop; lia).
  specialize (Hall b (proj1 (list_elem_of_In _ _) Hin)). apply andb_true_iff in Hall as [H1 H2].
  unfold to_hex. rewrite fmap_cons. change (mjoin (?x :: ?l)) with (x ++ mjoin l). by repeat apply Forall_cons_2.
Qed.

(** * Properties *)

(** However a message is cut into chunks, feeding the chunks to the
    streaming hasher and finishing it gives the FIPS 180-4 digest of the whole
    message: the message padded once and its blocks folded through the
    compression function. *)
Theorem streaming_is_fips (pieces : list (list Z)) :
  finish (fold_left (fun s piece => update piece s) pieces sha_new) = fips_sha256 (mjoin pieces).
Proof.
  enough (Hall : forall s m, represents s m -> bytes s = wrap_u64 (len m) ->
    finish (fold_left (fun s piece => update piece s) pieces s) = fips_sha256 (m ++ mjoin pieces)).
  { exact (Hall sha_new [] sha_new_represents eq_refl). }
  induction pieces as [|p pieces IH]; intros s m Hrep Hby; cbn [fold_left].
  - change (mjoin (@nil (list Z))) with (@nil Z). rewrite app_nil_r. by apply finish_spec.
  - destruct (update_represents p s m Hrep Hby) as [Hr Hb]. rewrite (IH _ _ Hr Hb).
    change (mjoin (p :: pieces)) with (p ++ mjoin pieces). by rewrite <- app_assoc.
Qed.

(** The digest parser accepts exactly the spellings the printer produces.
    A string reads as a digest precisely when it is the printed form of 32
    bytes, so printing round-trips and one digest has one accepted spelling. *)
Theorem digest_spelling_exact (value d : list Z) :
  Forall (fun c => is_scalar c = true) value ->
  digest_from_str value = Ok d <->
  value = digest_to_string d /\ bytes_ok d /\ length d = DIGEST_BYTES.
Proof.
  intros Hs. unfold digest_from_str, digest_to_string. split.
  - intros H. apply bind_Ok in H as (hex & Hh & H). apply ok_or_Ok, prefix_split in Hh. subst value.
    destruct (Z.eqb_spec (str_len hex) (Z.of_nat (DIGEST_BYTES * 2))) as [El|]; [|done]. cbn [negb] in H.
    apply ok_or_Ok in H. unfold str_len, len in El. apply Nat2Z.inj in El.
    destruct (even_chunks (utf8 hex) 32 El) as [Ej Hp].
    destruct (hex_pairs_inv _ _ Hp H) as [Ehex Hd]. rewrite Ej in Ehex.
    apply Forall_app in Hs as [_ Hs]. apply Forall_cons in Hs as [_ Hs].
    assert (hex = to_hex d) as ->.
    { pose proof (utf8_from_utf8 hex Hs) as H1.
      pose proof (utf8_from_utf8 _ (ascii_scalar _ (to_hex_ascii d Hd))) as H2.
      rewrite (utf8_ascii _ (to_hex_ascii d Hd)), <- Ehex in H2. congruence. }
    split_and!; [done..|]. rewrite Ehex, to_hex_length in El. unfold DIGEST_BYTES in *. lia.
  - intros (-> & Hd & Hl). rewrite (proj2 (prefix_split _ (to_hex d)) eq_refl).
    cbn [ok_or mbind result_bind]. unfold str_len. rewrite (utf8_ascii _ (to_hex_ascii d Hd)).
    unfold len. rewrite to_hex_length, Hl, hex_pairs_read by done. done.
Qed.

(** The parser on the printed form of the bytes 0 to 31. *)
Lemma digest_spelling_exact_witness :
  digest_from_str (digest_to_string (seqZ 0 32)) = Ok (seqZ 0 32).
Proof.
  apply (digest_spelling_exact (digest_to_string (seqZ 0 32)) (seqZ 0 32)).
  - apply Forall_forallb. vm_compute. reflexivity.
  - split_and!; [vm_compute; reflexivity|apply Forall_forallb|]; vm_compute; reflexivity.
Defined.
