(* ===== verification/AuditChain.v ===== *)
(** Hash-chained audit records: [automonique-protocol/src/audit.rs].

    The record with its validating constructor, its canonical bytes and hash,
    the derived identifier, and the chain verifier over stored links.  The hash
    is the SHA-256 of [Digest] and the bytes are the canonical JSON of [Wire],
    so nothing here is a parameter. *)

From S2P Require Import Prelude Text Codec Wire WireCanonical Digest.

Definition AUDIT_RECORD_SCHEMA_V1 : list Z := str "automonique.audit-record/v1".
Definition GENESIS_PREV_HASH : list Z := replicate 64 48.
Definition HASH_HEX_BYTES : Z := 64.
Definition RECORD_ID_PREFIX : list Z := str "aud-".
Definition RECORD_ID_HEX_BYTES : nat := 32.
Definition MAX_AUDIT_FIELD_BYTES : Z := 256.
Definition MAX_AUDIT_SEQ : Z := Z.shiftl 1 53 - 1.
Definition RECORD_ID_DOMAIN : list Z := str "automonique.audit-record/v1/record-id" ++ [0].

(** * Vocabularies *)

Inductive AuditCategory := Approval | Override | Action | Cancellation | Policy | Escalation.

#[export] Instance AuditCategory_eq_dec : EqDecision AuditCategory.
Proof. solve_decision. Defined.

Definition ALL_CATEGORIES : list AuditCategory :=
  [Approval; Action; Override; Cancellation; Policy; Escalation].

Definition category_as_str (c : AuditCategory) : list Z :=
  match c with
  | Approval => str "approval"
  | Action => str "action"
  | Override => str "override"
  | Cancellation => str "cancellation"
  | Policy => str "policy"
  | Escalation => str "escalation"
  end.

Definition category_from_spelling (value : list Z) : option AuditCategory :=
  List.find (fun c => bool_decide (category_as_str c = value)) ALL_CATEGORIES.

Inductive AuditOutcome := Success | Failure | Timeout_ | Denied | Escalated.

#[export] Instance AuditOutcome_eq_dec : EqDecision AuditOutcome.
Proof. solve_decision. Defined.

Definition ALL_OUTCOMES : list AuditOutcome := [Success; Failure; Timeout_; Denied; Escalated].

Definition outcome_as_str (o : AuditOutcome) : list Z :=
  match o with
  | Success => str "success"
  | Failure => str "failure"
  | Timeout_ => str "timeout"
  | Denied => str "denied"
  | Escalated => str "escalated"
  end.

Definition outcome_from_spelling (value : list Z) : option AuditOutcome :=
  List.find (fun o => bool_decide (outcome_as_str o = value)) ALL_OUTCOMES.

(** * Records *)

Inductive AuditError := InvalidField (field : string) | SeqOutOfRange | InvalidHash (field : string).

Record AuditEvent := mkEvent {
  ev_recorded_at : list Z;
  ev_actor : list Z;
  ev_surface : list Z;
  ev_category : AuditCategory;
  ev_subject : list Z;
  ev_outcome : AuditOutcome
}.

Record AuditRecord := mkRecord {
  rec_seq : Z;
  rec_recorded_at : list Z;
  rec_actor : list Z;
  rec_surface : list Z;
  rec_category : AuditCategory;
  rec_subject : list Z;
  rec_outcome : AuditOutcome;
  rec_prev_hash : list Z
}.

Definition is_lower_hex (b : Z) : bool := is_ascii_digit b || in_range 97 102 b.

Definition is_chain_hash (value : list Z) : bool :=
  (str_len value =? HASH_HEX_BYTES) && forallb is_lower_hex (utf8 value).

Definition checked_field (value : list Z) (field : string) : result AuditError (list Z) :=
  if bool_decide (value = []) || (MAX_AUDIT_FIELD_BYTES <? str_len value) || existsb is_control value
  then Err (InvalidField field) else Ok value.

(** [AuditRecord::link]: the fields are checked in the order they are written. *)
Definition record_link (seq : Z) (prev_hash : list Z) (event : AuditEvent)
  : result AuditError AuditRecord :=
  if (seq =? 0) || (MAX_AUDIT_SEQ <? seq) then Err SeqOutOfRange
  else if negb (is_chain_hash prev_hash) then Err (InvalidHash "prev_hash")
  else
    recorded_at ← checked_field (ev_recorded_at event) "recorded_at";
    actor ← checked_field (ev_actor event) "actor";
    surface ← checked_field (ev_surface event) "surface";
    subject ← checked_field (ev_subject event) "subject";
    Ok (mkRecord seq recorded_at actor surface (ev_category event) subject (ev_outcome event)
          prev_hash).

Definition to_json (r : AuditRecord) : JsonValue :=
  Object [(str "actor", JString (rec_actor r));
          (str "category", JString (category_as_str (rec_category r)));
          (str "outcome", JString (outcome_as_str (rec_outcome r)));
          (str "prev_hash", JString (rec_prev_hash r));
          (str "recorded_at", JString (rec_recorded_at r));
          (str "schema", JString AUDIT_RECORD_SCHEMA_V1);
          (str "seq", Integer (rec_seq r));
          (str "subject", JString (rec_subject r));
          (str "surface", JString (rec_surface r))].

Definition record_bytes (r : AuditRecord) : list Z := to_canonical_bytes (to_json r).

Definition record_hash (r : AuditRecord) : list Z := to_hex (digest (record_bytes r)).

Definition derive_record_id (hash : list Z) : list Z :=
  let hasher := update (utf8 hash) (update RECORD_ID_DOMAIN sha_new) in
  RECORD_ID_PREFIX ++ take RECORD_ID_HEX_BYTES (to_hex (finish hasher)).

Definition record_id (r : AuditRecord) : list Z := derive_record_id (record_hash r).

(** * Verification *)

Record AuditLink := mkLink {
  link_seq : Z;
  link_record_id : list Z;
  link_body : list Z;
  link_prev_hash : list Z;
  link_record_hash : list Z
}.

Inductive ChainFault :=
| SeqNotContiguous | BodyMalformed | BodyFieldInvalid | BodySeqMismatch | BodyPrevHashMismatch
| GenesisNotZero | PrevHashMismatch | RecordHashMismatch | RecordIdMismatch.

Record ChainBreak := mkBreak { break_seq : Z; break_fault : ChainFault }.

Definition BODY_KEYS : list (list Z) :=
  [str "actor"; str "category"; str "outcome"; str "prev_hash"; str "recorded_at"; str "schema";
   str "seq"; str "subject"; str "surface"].

Definition body_text (body : JsonValue) (key : string) : option (list Z) :=
  json_get body (str key) ≫= as_str.

Definition body_seq (body : JsonValue) : option Z :=
  (json_get body (str "seq") ≫= as_integer) ≫= check_u64.
Definition body_category (body : JsonValue) : option AuditCategory :=
  body_text body "category" ≫= category_from_spelling.
Definition body_outcome (body : JsonValue) : option AuditOutcome :=
  body_text body "outcome" ≫= outcome_from_spelling.

(** The fields of the body, in the order the source reads them. *)
Definition decode_fields (body : JsonValue) : result ChainFault AuditRecord :=
  seq ← ok_or (body_seq body) BodyFieldInvalid;
  category ← ok_or (body_category body) BodyFieldInvalid;
  outcome ← ok_or (body_outcome body) BodyFieldInvalid;
  prev_hash ← ok_or (body_text body "prev_hash") BodyFieldInvalid;
  recorded_at ← ok_or (body_text body "recorded_at") BodyFieldInvalid;
  actor ← ok_or (body_text body "actor") BodyFieldInvalid;
  surface ← ok_or (body_text body "surface") BodyFieldInvalid;
  subject ← ok_or (body_text body "subject") BodyFieldInvalid;
  map_err (fun _ => BodyFieldInvalid)
    (record_link seq prev_hash (mkEvent recorded_at actor surface category subject outcome)).

Definition decode_body (body : JsonValue) : result ChainFault AuditRecord :=
  match body with
  | Object entries =>
      if negb (len entries =? len BODY_KEYS)
         || negb (forallb (fun key => existsb (fun e => bool_decide (fst e = key)) entries) BODY_KEYS)
      then Err BodyMalformed
      else if negb (bool_decide (body_text body "schema" = Some AUDIT_RECORD_SCHEMA_V1))
      then Err BodyFieldInvalid
      else decode_fields body
  | _ => Err BodyMalformed
  end.

Definition verify_link (link : AuditLink) (expected_seq : Z) (expected_prev : list Z)
  : option ChainFault :=
  if negb (link_seq link =? expected_seq) then Some SeqNotContiguous
  else if (expected_seq =? 1) && negb (bool_decide (link_prev_hash link = GENESIS_PREV_HASH))
  then Some GenesisNotZero
  else if negb (bool_decide (link_prev_hash link = expected_prev)) then Some PrevHashMismatch
  else match parse_canonical (link_body link) with
       | Err _ => Some BodyMalformed
       | Ok body =>
           match decode_body body with
           | Err fault => Some fault
           | Ok record =>
               if negb (rec_seq record =? link_seq link) then Some BodySeqMismatch
               else if negb (bool_decide (rec_prev_hash record = link_prev_hash link))
               then Some BodyPrevHashMismatch
               else if negb (bool_decide (record_bytes record = link_body link))
                       || negb (bool_decide (record_hash record = link_record_hash link))
               then Some RecordHashMismatch
               else if negb (bool_decide (derive_record_id (record_hash record) = link_record_id link))
               then Some RecordIdMismatch
               else None
           end
       end.

Fixpoint verify_from (expected_seq : Z) (expected_prev : list Z) (verified : Z)
    (links : list AuditLink) : result ChainBreak Z :=
  match links with
  | [] => Ok verified
  | link :: links =>
      match verify_link link expected_seq expected_prev with
      | Some fault => Err (mkBreak (link_seq link) fault)
      | None =>
          verify_from (sat_u64 (expected_seq + 1)) (link_record_hash link) (sat_u64 (verified + 1)) links
      end
  end.

Definition verify_chain (links : list AuditLink) : result ChainBreak Z :=
  verify_from 1 GENESIS_PREV_HASH 0 links.

(** * Chains of records *)

(** What is stored of a record. *)
Definition link_of (r : AuditRecord) : AuditLink :=
  mkLink (rec_seq r) (record_id r) (record_bytes r) (rec_prev_hash r) (record_hash r).

(** A record the constructor admits: [record_link] gives it back, and its texts
    are strings of characters. *)
Definition event_of (r : AuditRecord) : AuditEvent :=
  mkEvent (rec_recorded_at r) (rec_actor r) (rec_surface r) (rec_category r) (rec_subject r)
    (rec_outcome r).

Definition scalars (t : list Z) : bool := forallb is_scalar t.

Definition record_ok (r : AuditRecord) : Prop :=
  record_link (rec_seq r) (rec_prev_hash r) (event_of r) = Ok r /\
  scalars (rec_recorded_at r) && scalars (rec_actor r) && scalars (rec_surface r)
    && scalars (rec_subject r) && scalars (rec_prev_hash r) = true /\
  0 <= rec_seq r.

(** Consecutive records, each naming the hash of the one before. *)
Inductive chained : Z -> list Z -> list AuditRecord -> Prop :=
| chained_nil seq prev : chained seq prev []
| chained_cons r rs :
    record_ok r -> chained (rec_seq r + 1) (record_hash r) rs ->
    chained (rec_seq r) (rec_prev_hash r) (r :: rs).

(** Proofs never look inside the hash. *)
#[local] Opaque digest finish derive_record_id to_hex.

(** * Fields *)

Lemma checked_field_Ok v f r :
  checked_field v f = Ok r -> r = v /\ checked_field v f = Ok v /\ str_len v <= MAX_AUDIT_FIELD_BYTES.
Proof.
  intros H. pose proof H as H'. unfold checked_field in H'.
  destruct (bool_decide (v = []) || (MAX_AUDIT_FIELD_BYTES <? str_len v) || existsb is_control v) eqn:E;
    [done|]. injection H' as <-. split_and!; [done..|].
  rewrite !orb_false_iff, Z.ltb_ge in E. tauto.
Qed.

Lemma record_link_Ok seq prev ev r :
  record_link seq prev ev = Ok r ->
  rec_seq r = seq /\ rec_prev_hash r = prev /\ event_of r = ev /\
  (seq <> 0) /\ seq <= MAX_AUDIT_SEQ /\ is_chain_hash prev = true /\
  str_len (rec_recorded_at r) <= MAX_AUDIT_FIELD_BYTES /\ str_len (rec_actor r) <= MAX_AUDIT_FIELD_BYTES /\
  str_len (rec_surface r) <= MAX_AUDIT_FIELD_BYTES /\ str_len (rec_subject r) <= MAX_AUDIT_FIELD_BYTES.
Proof.
  unfold record_link. intros H. destruct ((seq =? 0) || (MAX_AUDIT_SEQ <? seq)) eqn:Es; [done|].
  rewrite orb_false_iff, Z.eqb_neq, Z.ltb_ge in Es.
  destruct (is_chain_hash prev) eqn:Eh; [|done]. cbn [negb] in H.
  apply bind_Ok in H as (x1 & E1 & H). apply bind_Ok in H as (x2 & E2 & H).
  apply bind_Ok in H as (x3 & E3 & H). apply bind_Ok in H as (x4 & E4 & H).
  destruct (checked_field_Ok _ _ _ E1) as (-> & _ & L1), (checked_field_Ok _ _ _ E2) as (-> & _ & L2),
    (checked_field_Ok _ _ _ E3) as (-> & _ & L3), (checked_field_Ok _ _ _ E4) as (-> & _ & L4).
  injection H as <-. cbn. destruct ev. tauto.
Qed.

Lemma max_seq : MAX_AUDIT_SEQ = 9007199254740991.
Proof. reflexivity. Qed.

Lemma chain_hash_text t : scalars t = true -> is_chain_hash t = true -> text_ok t = true.
Proof.
  unfold is_chain_hash, text_ok. rewrite !andb_true_iff, Z.eqb_eq, Z.leb_le.
  intros Hs [-> _]. split; [done|]. by vm_compute.
Qed.

Lemma field_text t : scalars t = true -> str_len t <= MAX_AUDIT_FIELD_BYTES -> text_ok t = true.
Proof.
  unfold text_ok. rewrite andb_true_iff, Z.leb_le. intros Hs Hl. split; [done|].
  unfold MAX_AUDIT_FIELD_BYTES, MAX_JSON_STRING_BYTES in *. lia.
Qed.

(** A constructed record encodes within the limits of the parser. *)
Lemma record_canonical r : record_ok r -> canonical (to_json r) = true.
Proof.
  intros (Hl & Hs & H0). apply record_link_Ok in Hl as (_ & _ & _ & Hne & Hmax & Hh & H1 & H2 & H3 & H4).
  rewrite !andb_true_iff in Hs. destruct Hs as ((((S1 & S2) & S3) & S4) & S5).
  assert (Hq : (i64_min <=? rec_seq r) && (rec_seq r <=? i64_max) = true).
  { apply andb_true_iff. rewrite !Z.leb_le. rewrite max_seq in Hmax. widths. lia. }
  assert (Hc : text_ok (category_as_str (rec_category r)) = true) by (by destruct (rec_category r)).
  assert (Ho : text_ok (outcome_as_str (rec_outcome r)) = true) by (by destruct (rec_outcome r)).
  unfold canonical, to_json. apply andb_true_iff. split; [|reflexivity].
  cbn [limits forallb snd fst]. rewrite Hq, Hc, Ho, (chain_hash_text _ S5 Hh).
  rewrite !field_text by done. vm_compute. reflexivity.
Qed.

Lemma category_spelling c : category_from_spelling (category_as_str c) = Some c.
Proof. by destruct c. Qed.
Lemma outcome_spelling o : outcome_from_spelling (outcome_as_str o) = Some o.
Proof. by destruct o. Qed.

Lemma decode_to_json r : record_ok r -> decode_body (to_json r) = Ok r.
Proof.
  intros (Hl & Hs & H0). pose proof (record_link_Ok _ _ _ _ Hl) as (_ & _ & _ & _ & Hmax & _).
  transitivity (decode_fields (to_json r)); [reflexivity|].
  unfold decode_fields.
  assert (Eq : body_seq (to_json r) = Some (rec_seq r)).
  { change (body_seq (to_json r)) with (check_u64 (rec_seq r)). apply check_u64_Some. split; [done|].
    rewrite max_seq in Hmax. widths. lia. }
  assert (Ec : body_category (to_json r) = Some (rec_category r)).
  { change (body_category (to_json r)) with (category_from_spelling (category_as_str (rec_category r))).
    apply category_spelling. }
  assert (Eo : body_outcome (to_json r) = Some (rec_outcome r)).
  { change (body_outcome (to_json r)) with (outcome_from_spelling (outcome_as_str (rec_outcome r))).
    apply outcome_spelling. }
  rewrite Eq, Ec, Eo.
  change (map_err (fun _ => BodyFieldInvalid) (record_link (rec_seq r) (rec_prev_hash r) (event_of r)) = Ok r).
  by rewrite Hl.
Qed.

(** A text read out of a parsed body is a string of characters. *)
Lemma body_text_scalars v d key t :
  limits v d = true -> body_text v key = Some t -> scalars t = true.
Proof.
  intros Hl H. unfold body_text, json_get in H. destruct v as [| | | | |es]; try done.
  apply bind_Some in H as (w & H & Hw).
  destruct (List.find _ es) as [e|] eqn:E; [|done]. injection H as <-.
  apply List.find_some in E as [He _]. cbn [limits] in Hl.
  rewrite !andb_true_iff in Hl. destruct Hl as [_ Hall]. rewrite forallb_forall in Hall.
  specialize (Hall e He). rewrite andb_true_iff in Hall. destruct Hall as [_ Hall].
  destruct (snd e); try done. injection Hw as ->. cbn [limits] in Hall. unfold text_ok in Hall.
  rewrite andb_true_iff in Hall. tauto.
Qed.

Lemma decode_body_ok v d r : limits v d = true -> decode_body v = Ok r -> record_ok r.
Proof.
  intros Hl H. destruct v as [| | | | |es]; try done. unfold decode_body in H.
  destruct (negb _ || negb _); [done|]. destruct (negb _); [done|].
  unfold decode_fields in H.
  apply bind_Ok in H as (seq & Eq & H). apply bind_Ok in H as (cat & _ & H).
  apply bind_Ok in H as (out & _ & H).
  apply bind_Ok in H as (prev & E1 & H). apply bind_Ok in H as (at_ & E2 & H).
  apply bind_Ok in H as (actor & E3 & H). apply bind_Ok in H as (surf & E4 & H).
  apply bind_Ok in H as (subj & E5 & H).
  apply ok_or_Ok in Eq, E1, E2, E3, E4, E5.
  destruct (record_link seq prev _) as [r'|] eqn:El; [|done]. injection H as ->.
  pose proof (record_link_Ok _ _ _ _ El) as (<- & <- & Hev & Hrest).
  unfold record_ok. rewrite Hev. split_and!; [done| |].
  - unfold event_of in Hev. injection Hev as -> -> -> _ -> _.
    rewrite !(body_text_scalars _ _ _ _ Hl) by done. done.
  - unfold body_seq in Eq. apply bind_Some in Eq as (z & _ & Hz). apply check_u64_Some in Hz.
    unfold in_u64 in Hz. lia.
Qed.

(** * Exactness of the verifier *)

Lemma record_seq_bounds r : record_ok r -> 1 <= rec_seq r <= MAX_AUDIT_SEQ.
Proof. intros (H & _ & H0). apply record_link_Ok in H. destruct H as (_ & _ & _ & H1 & H2 & _). lia. Qed.

Lemma parse_record r : record_ok r -> parse_canonical (record_bytes r) = Ok (to_json r).
Proof.
  intros Hr. apply record_canonical in Hr. unfold canonical in Hr. apply andb_true_iff in Hr as [H1 H2].
  by apply parse_canonical_complete.
Qed.

(** Records with the same bytes are the same record. *)
Lemma record_bytes_inj r r' : record_ok r -> record_ok r' -> record_bytes r = record_bytes r' -> r = r'.
Proof.
  intros H H' E. pose proof (parse_record r H) as P. rewrite E, (parse_record r' H') in P.
  injection P as P. apply decode_to_json in H, H'.
  assert (decode_body (to_json r) = decode_body (to_json r')) as D by (unfold to_json; congruence).
  congruence.
Qed.

Lemma link_of_inj r r' : record_ok r -> record_ok r' -> link_of r = link_of r' -> r = r'.
Proof. intros H H' E. apply record_bytes_inj; [done..|]. exact (f_equal link_body E). Qed.

Lemma parse_limits payload v : parse_canonical payload = Ok v -> limits v MAX_NESTING_DEPTH = true.
Proof.
  unfold parse_canonical. destruct (from_utf8 payload); [|done]. cbv zeta.
  destruct (parse_value _ _ _) as [[[w rest]|e]|] eqn:E; [|done..].
  destruct (negb _); [done|]. destruct (negb _); [done|]. intros [= ->].
  destruct (parse_sound (parse_fuel (skip_whitespace payload))) as (Hs & _ & _).
  apply Hs in E as [E _]; [|done]. exact E.
Qed.

Lemma verify_link_exact link seq prev :
  (seq = 1 -> prev = GENESIS_PREV_HASH) ->
  verify_link link seq prev = None <->
  exists r, record_ok r /\ link = link_of r /\ rec_seq r = seq /\ rec_prev_hash r = prev.
Proof.
  intros Hg. unfold verify_link. split.
  - destruct (Z.eqb_spec (link_seq link) seq) as [Es|]; [|done]. cbn [negb].
    destruct ((seq =? 1) && _); [done|].
    case_bool_decide as Ep; [|done]. cbn [negb].
    destruct (parse_canonical (link_body link)) as [body|] eqn:Eb; [|done].
    destruct (decode_body body) as [r|] eqn:Er; [|done].
    destruct (Z.eqb_spec (rec_seq r) (link_seq link)) as [Er1|]; [|done]. cbn [negb].
    case_bool_decide as Er2; [|done]. cbn [negb].
    case_bool_decide as Er3; [|done]. cbn [negb orb].
    case_bool_decide as Er4; [|done]. cbn [negb].
    case_bool_decide as Er5; [|done]. intros _. exists r.
    split; [|split; [|split; congruence]].
    + by apply (decode_body_ok body MAX_NESTING_DEPTH); [apply (parse_limits (link_body link))|].
    + unfold link_of, record_id. rewrite Er1, Er2, Er3, Er4. rewrite Er4 in Er5. rewrite Er5. by destruct link.
  - intros (r & Hr & -> & Hs & Hp).
    change (link_seq (link_of r)) with (rec_seq r). change (link_prev_hash (link_of r)) with (rec_prev_hash r).
    change (link_body (link_of r)) with (record_bytes r). change (link_record_hash (link_of r)) with (record_hash r).
    change (link_record_id (link_of r)) with (derive_record_id (record_hash r)).
    rewrite Hs, Z.eqb_refl. cbn [negb].
    rewrite Hp, (bool_decide_eq_true_2 (prev = prev)) by done. cbn [negb].
    rewrite parse_record, decode_to_json by done.
    assert (Egen : (seq =? 1) && negb (bool_decide (prev = GENESIS_PREV_HASH)) = false).
    { destruct (Z.eqb_spec seq 1) as [->|]; [|done]. by rewrite bool_decide_eq_true_2 by auto. }
    rewrite Egen, Hs, Z.eqb_refl, Hp, (bool_decide_eq_true_2 (prev = prev)) by done. cbn [negb].
    rewrite (bool_decide_eq_true_2 (record_bytes r = record_bytes r)) by done.
    rewrite (bool_decide_eq_true_2 (record_hash r = record_hash r)) by done. cbn [negb orb].
    by rewrite bool_decide_eq_true_2.
Qed.

Lemma verify_from_exact links seq prev k n :
  1 <= seq <= MAX_AUDIT_SEQ + 1 -> (seq = 1 -> prev = GENESIS_PREV_HASH) -> k = seq - 1 ->
  verify_from seq prev k links = Ok n <->
  exists rs, chained seq prev rs /\ links = link_of <$> rs /\ n = k + len rs.
Proof.
  revert seq prev k. induction links as [|l links IH]; intros seq prev k Hs Hg Hk; cbn [verify_from].
  { split.
    - intros [= <-]. exists []. split_and!; [constructor|done|]. rewrite len_nil. lia.
    - intros ([|? ?] & _ & E & ->); [|done]. rewrite len_nil. f_equal. lia. }
  pose proof (verify_link_exact l seq prev Hg) as Hl.
  destruct (verify_link l seq prev) as [f|].
  { split; [done|]. intros (rs & Hc & E & _). destruct rs as [|r rs]; [done|].
    rewrite fmap_cons in E. injection E as -> _. exfalso.
    assert (Some f = None) by (apply Hl; inversion Hc; subst; eauto). done. }
  destruct (proj1 Hl eq_refl) as (r & Hr & -> & <- & <-).
  pose proof (record_seq_bounds r Hr) as Hb. rewrite max_seq in *.
  assert (E1 : sat_u64 (rec_seq r + 1) = rec_seq r + 1) by (widths; lia).
  assert (E2 : sat_u64 (k + 1) = k + 1) by (widths; lia).
  rewrite E1, E2. change (link_record_hash (link_of r)) with (record_hash r).
  rewrite (IH (rec_seq r + 1) (record_hash r) (k + 1)) by lia. split.
  - intros (rs & Hc & -> & ->). exists (r :: rs). split_and!; [by constructor|done|].
    rewrite len_cons. lia.
  - intros ([|r' rs] & Hc & E & ->); [done|]. rewrite fmap_cons in E. apply cons_inv in E as [E1' E].
    exists rs. inversion Hc; subst.
    assert (r = r') as -> by (by apply link_of_inj). split_and!; [done..|]. rewrite len_cons. lia.
Qed.

(** * Chains share their past *)

Lemma chained_snoc seq prev rs r :
  chained seq prev (rs ++ [r]) ->
  record_ok r /\ chained seq prev rs /\ rec_seq r = seq + len rs /\
  rec_prev_hash r = from_option record_hash prev (last rs).
Proof.
  revert seq prev. induction rs as [|x rs IH]; intros seq prev H; inversion H; subst.
  - split; [done|]. split; [constructor|]. rewrite len_nil. split; [lia|done].
  - destruct (IH _ _ ltac:(eassumption)) as (Hr & Hc & Hs & Hp).
    split; [done|]. split; [by constructor|]. rewrite len_cons. split; [lia|].
    rewrite Hp, last_cons. destruct (last rs); reflexivity.
Qed.

Lemma record_bytes_ok r : record_ok r -> bytes_ok (record_bytes r).
Proof.
  intros Hr. pose proof (parse_record r Hr) as H. unfold parse_canonical in H.
  destruct (from_utf8 (record_bytes r)) as [t|] eqn:E; [|done].
  apply from_utf8_Some in E as [Ht <-]. by apply utf8_bytes_ok.
Qed.

Lemma record_hash_inj r r' :
  record_ok r -> record_ok r' -> record_hash r = record_hash r' ->
  digest (record_bytes r) = digest (record_bytes r') /\
  (r = r' \/ record_bytes r <> record_bytes r').
Proof.
  intros H H' E. unfold record_hash in E.
  apply to_hex_inj in E; [|apply digest_bytes..]. split; [done|].
  destruct (decide (record_bytes r = record_bytes r')) as [Eb|Hne]; [left|by right].
  by apply record_bytes_inj.
Qed.

(** Two chains that end alike are one chain, or differ right before a common
    rest, in two records with one digest. *)
Lemma chained_same_head rs rs' r r' :
  chained 1 GENESIS_PREV_HASH (rs ++ [r]) -> chained 1 GENESIS_PREV_HASH (rs' ++ [r']) ->
  record_hash r = record_hash r' ->
  rs ++ [r] = rs' ++ [r'] \/
  exists pre x pre' x' rest,
    rs ++ [r] = pre ++ x :: rest /\ rs' ++ [r'] = pre' ++ x' :: rest /\
    record_ok x /\ record_ok x' /\
    record_bytes x <> record_bytes x' /\ digest (record_bytes x) = digest (record_bytes x').
Proof.
  revert r rs' r'. induction rs as [|x rs IH] using rev_ind; intros r rs' r' H H' E;
    destruct (chained_snoc _ _ _ _ H) as (Hr & Hc & Hs & Hp);
    destruct (chained_snoc _ _ _ _ H') as (Hr' & Hc' & Hs' & Hp');
    destruct (record_hash_inj r r' Hr Hr' E) as [Ed [<-|Hb]].
  2, 4: by right; eexists _, _, _, _, [].
  all: rewrite Hs in Hs'; destruct rs' as [|y rs' _] using rev_ind;
    rewrite ?len_app, ?len_cons, ?len_nil in Hs'.
  - by left.
  - pose proof (len_nonneg rs'). lia.
  - pose proof (len_nonneg rs). lia.
  - rewrite Hp, !last_snoc in Hp'. cbn [from_option] in Hp'.
    destruct (IH x rs' y Hc Hc' Hp') as [->|(p & a & p' & a' & rest & -> & -> & Ha)]; [by left|right].
    exists p, a, p', a', (rest ++ [r]). by rewrite <- !app_assoc.
Qed.

(** * Properties *)

(** The verifier accepts exactly the chains this module writes.  A list of
    stored links verifies with count [n] precisely when it is what is stored of
    [n] records, each of which the validating constructor admits, numbered from
    one, the first naming the genesis hash and every later one the hash of its
    predecessor. *)
Theorem verify_chain_exact links n :
  verify_chain links = Ok n <->
  exists rs, chained 1 GENESIS_PREV_HASH rs /\ links = link_of <$> rs /\ n = len rs.
Proof. unfold verify_chain. apply verify_from_exact; [by vm_compute|done|done]. Qed.

(** C9: a chain is tamper-evident.  Two chains that verify and end in the same
    record hash are the same chain, link for link, whatever their lengths; or
    else, going back from their ends, the first two links that differ carry two
    different bodies, byte strings both, with one SHA-256 digest.  So from the
    head hash alone no earlier record can be altered, removed, inserted or
    reordered unless the two chains themselves hold the collision. *)
Theorem chain_tamper_evident links links' x x' n n' :
  verify_chain (links ++ [x]) = Ok n -> verify_chain (links' ++ [x']) = Ok n' ->
  link_record_hash x = link_record_hash x' ->
  links ++ [x] = links' ++ [x'] \/
  exists before l before' l' rest,
    links ++ [x] = before ++ l :: rest /\ links' ++ [x'] = before' ++ l' :: rest /\
    bytes_ok (link_body l) /\ bytes_ok (link_body l') /\
    link_body l <> link_body l' /\ digest (link_body l) = digest (link_body l').
Proof.
  intros H H' E. unfold verify_chain in H, H'.
  apply verify_from_exact in H as (rs & Hc & El & _); [|by vm_compute|done|done].
  apply verify_from_exact in H' as (rs' & Hc' & El' & _); [|by vm_compute|done|done].
  destruct rs as [|r rs _] using rev_ind; [by destruct links|].
  destruct rs' as [|r' rs' _] using rev_ind; [by destruct links'|].
  rewrite El, El'. rewrite fmap_app in El, El'.
  apply app_inj_tail in El as [_ ->], El' as [_ ->].
  destruct (chained_same_head rs rs' r r' Hc Hc' E)
    as [->|(p & a & p' & a' & rest & -> & -> & Ha & Ha' & Hne & Ed)]; [by left|right].
  exists (link_of <$> p), (link_of a), (link_of <$> p'), (link_of a'), (link_of <$> rest).
  rewrite !fmap_app, !fmap_cons. split_and!; [done|done|by apply record_bytes_ok..|done|done].
Qed.

(** Two demonstration records, the second linked to the first. *)
Definition demo_first : AuditRecord :=
  mkRecord 1 (str "2026-01-01T00:00:00Z") (str "operator") (str "cli") Approval (str "run-1") Success
    GENESIS_PREV_HASH.
Definition demo_second : AuditRecord :=
  mkRecord 2 (str "2026-01-01T00:00:05Z") (str "operator") (str "cli") Cancellation (str "run-1") Denied
    (record_hash demo_first).

(** Whatever other chain of any length ends in the second record's hash. *)
Lemma chain_tamper_evident_witness :
  verify_chain ([link_of demo_first] ++ [link_of demo_second]) = Ok 2 /\
  forall links x n, verify_chain (links ++ [x]) = Ok n ->
    link_record_hash x = record_hash demo_second ->
    [link_of demo_first; link_of demo_second] = links ++ [x] \/
    exists before l before' l' rest,
      [link_of demo_first; link_of demo_second] = before ++ l :: rest /\
      links ++ [x] = before' ++ l' :: rest /\
      bytes_ok (link_body l) /\ bytes_ok (link_body l') /\
      link_body l <> link_body l' /\ digest (link_body l) = digest (link_body l').
Proof.
  assert (Hv : verify_chain ([link_of demo_first] ++ [link_of demo_second]) = Ok 2)
    by (vm_compute; reflexivity).
  split; [exact Hv|]. intros links x n Hx E.
  exact (chain_tamper_evident [link_of demo_first] links (link_of demo_second) x 2 n Hv Hx (eq_sym E)).
Defined.

(** An edited body, a removed record and a swapped pair are each reported. *)
Example faults_are_named :
  verify_chain [link_of demo_second] = Err (mkBreak 2 SeqNotContiguous) /\
  verify_chain [link_of demo_first; mkLink 2 (record_id demo_second) (record_bytes demo_second)
                  GENESIS_PREV_HASH (record_hash demo_second)] = Err (mkBreak 2 PrevHashMismatch) /\
  verify_chain [mkLink 1 (record_id demo_first) (record_bytes demo_first) GENESIS_PREV_HASH
                  (record_hash demo_second)] = Err (mkBreak 1 RecordHashMismatch).
Proof. vm_compute. done. Qed.
