(* ===== verification/Clock.v ===== *)
(** The conversation clock:
    [automonique-core/src/conversation.rs], [utc_rfc3339_from_unix_millis].

    The rendering of Unix milliseconds as a UTC timestamp, with its checked
    64-bit arithmetic, and the Gregorian calendar it is compared with: leap
    years by the 4/100/400 rule, months by their lengths, and a day counted by
    adding up the years and months before it. *)

From S2P Require Import Prelude Text.

(** * The code *)

(** [{n:0width}] of a non-negative integer. *)
Definition zero_padded (width : nat) (n : Z) : list Z :=
  replicate (width - length (dec n)) 48 ++ dec n.

(** The transformation from days since the epoch to a date; [i64] division
    truncates. *)
Definition year_of_era_of (day_of_era : Z) : Z :=
  (day_of_era - day_of_era ÷ 1460 + day_of_era ÷ 36524 - day_of_era ÷ 146096) ÷ 365.
Definition day_of_year_of (day_of_era year_of_era : Z) : Z :=
  day_of_era - (365 * year_of_era + year_of_era ÷ 4 - year_of_era ÷ 100).
Definition month_prime_of (day_of_year : Z) : Z := (5 * day_of_year + 2) ÷ 153.
Definition day_of (day_of_year month_prime : Z) : Z :=
  day_of_year - (153 * month_prime + 2) ÷ 5 + 1.
Definition month_of (month_prime : Z) : Z := month_prime + (if month_prime <? 10 then 3 else -9).

Definition civil_from_days (days : Z) : option (Z * Z * Z) :=
  match check_i64 (days + 719468) with
  | None => None
  | Some shifted =>
      let era := shifted / 146097 in
      match check_i64 (era * 146097) ≫= fun e => check_i64 (shifted - e) with
      | None => None
      | Some day_of_era =>
          let year_of_era := year_of_era_of day_of_era in
          match check_i64 (era * 400) ≫= fun e => check_i64 (year_of_era + e) with
          | None => None
          | Some year =>
              let day_of_year := day_of_year_of day_of_era year_of_era in
              let month_prime := month_prime_of day_of_year in
              let day := day_of day_of_year month_prime in
              let month := month_of month_prime in
              match (if month <=? 2 then check_i64 (year + 1) else Some year) with
              | None => None
              | Some year => Some (year, month, day)
              end
          end
      end
  end.

(** The format string. *)
Definition rfc3339 (year month day hour minute second milliseconds : Z) : list Z :=
  zero_padded 4 year ++ 45 :: zero_padded 2 month ++ 45 :: zero_padded 2 day
  ++ 84 :: zero_padded 2 hour ++ 58 :: zero_padded 2 minute
  ++ 58 :: zero_padded 2 second ++ 46 :: zero_padded 3 milliseconds ++ [90].

Definition utc_rfc3339_from_unix_millis (unix_ms : Z) : option (list Z) :=
  match check_u64 unix_ms with
  | None => None
  | Some unix_ms =>
      let unix_seconds := unix_ms / 1000 in
      let milliseconds := unix_ms mod 1000 in
      match check_i64 (unix_seconds / 86400) ≫= civil_from_days with
      | None => None
      | Some (year, month, day) =>
          let seconds_in_day := unix_seconds mod 86400 in
          let hour := seconds_in_day / 3600 in
          let minute := seconds_in_day mod 3600 / 60 in
          let second := seconds_in_day mod 60 in
          if negb ((0 <=? year) && (year <=? 9999)) then None
          else Some (rfc3339 year month day hour minute second milliseconds)
      end
  end.

Example renders_epoch :
  utc_rfc3339_from_unix_millis 0 = Some (str "1970-01-01T00:00:00.000Z") /\
  utc_rfc3339_from_unix_millis 1775433480000 = Some (str "2026-04-05T23:58:00.000Z") /\
  utc_rfc3339_from_unix_millis 951782400001 = Some (str "2000-02-29T00:00:00.001Z") /\
  utc_rfc3339_from_unix_millis (-1) = None.
Proof. vm_compute. done. Qed.

(** * The calendar *)

Definition is_leap (y : Z) : bool :=
  (y mod 4 =? 0) && (negb (y mod 100 =? 0) || (y mod 400 =? 0)).

Definition year_length (y : Z) : Z := if is_leap y then 366 else 365.

Definition month_table (leap : bool) : list Z :=
  [31; if leap then 29 else 28; 31; 30; 31; 30; 31; 31; 30; 31; 30; 31].

Definition month_lengths (y : Z) : list Z := month_table (is_leap y).

Definition month_length (y m : Z) : Z := nth (Z.to_nat (m - 1)) (month_lengths y) 0.

(** Days before a year, and before a month of a year. *)
Fixpoint days_before_year (y : nat) : Z :=
  match y with O => 0 | S y => days_before_year y + year_length (Z.of_nat y) end.

Definition days_before_month (y m : Z) : Z :=
  foldr Z.add 0 (take (Z.to_nat (m - 1)) (month_lengths y)).

Definition valid_date (y m d : Z) : bool :=
  (0 <=? y) && (1 <=? m) && (m <=? 12) && (1 <=? d) && (d <=? month_length y m).

(** Days from 0000-01-01. *)
Definition day_number (y m d : Z) : Z :=
  days_before_year (Z.to_nat y) + days_before_month y m + (d - 1).

Definition EPOCH : Z := day_number 1970 1 1.

Lemma epoch_value : EPOCH = 719528.
Proof. vm_compute. reflexivity. Qed.

(** * Finite checks *)

(** Every integer below a bound, by evaluation. *)
Fixpoint all_from (fuel : nat) (z : Z) (p : Z -> bool) : bool :=
  match fuel with
  | O => true
  | S fuel => if p z then all_from fuel (z + 1) p else false
  end.

Lemma all_from_spec fuel z p x :
  all_from fuel z p = true -> z <= x < z + Z.of_nat fuel -> p x = true.
Proof.
  revert z. induction fuel as [|fuel IH]; intros z H Hx; [lia|]. cbn [all_from] in H.
  destruct (p z) eqn:E; [|done]. destruct (Z.eq_dec x z) as [->|]; [done|].
  apply (IH (z + 1) H). lia.
Qed.

Definition padded_ok (width : nat) (n : Z) : bool :=
  (length (zero_padded width n) =? width)%nat && (dec_value (zero_padded width n) =? n).

Lemma zero_padded_spec width n :
  (width = 2%nat /\ n < 100 \/ width = 3%nat /\ n < 1000 \/ width = 4%nat /\ n < 10000) -> 0 <= n ->
  length (zero_padded width n) = width /\ dec_value (zero_padded width n) = n.
Proof.
  intros H Hn. rewrite <- Nat.eqb_eq, <- Z.eqb_eq, <- andb_true_iff.
  destruct H as [[-> H]|[[-> H]|[-> H]]].
  - apply (all_from_spec 100 0 (padded_ok 2)); [vm_compute; reflexivity|lia].
  - apply (all_from_spec 1000 0 (padded_ok 3)); [vm_compute; reflexivity|lia].
  - apply (all_from_spec (Z.to_nat 10000) 0 (padded_ok 4)); [vm_compute; reflexivity|lia].
Qed.

(** * Years *)

Definition leaps_before (y : Z) : Z := (y + 3) / 4 - (y + 99) / 100 + (y + 399) / 400.

Lemma days_before_year_closed n :
  days_before_year n = 365 * Z.of_nat n + leaps_before (Z.of_nat n).
Proof.
  induction n as [|n IH]; [reflexivity|]. cbn [days_before_year]. rewrite IH, Nat2Z.inj_succ.
  unfold year_length, is_leap, leaps_before. generalize (Z.of_nat n). clear. intros y.
  destruct (Z.eqb_spec (y mod 4) 0), (Z.eqb_spec (y mod 100) 0), (Z.eqb_spec (y mod 400) 0);
    cbn [andb orb negb]; Z.to_euclidean_division_equations; lia.
Qed.

Lemma days_before_year_Z y : 0 <= y -> days_before_year (Z.to_nat y) = 365 * y + leaps_before y.
Proof. intros Hy. by rewrite days_before_year_closed, Z2Nat.id. Qed.

(** The calendar repeats every 400 years. *)
Lemma leaps_period y k : leaps_before (y + 400 * k) = leaps_before y + 97 * k.
Proof.
  unfold leaps_before. replace (y + 400 * k + 3) with (y + 3 + 100 * k * 4) by ring.
  replace (y + 400 * k + 99) with (y + 99 + 4 * k * 100) by ring.
  replace (y + 400 * k + 399) with (y + 399 + k * 400) by ring.
  rewrite !Z.div_add by lia. ring.
Qed.

Lemma leap_period y k : is_leap (y + 400 * k) = is_leap y.
Proof.
  unfold is_leap. replace (y + 400 * k) with (y + 100 * k * 4) at 1 by ring.
  replace (y + 400 * k) with (y + 4 * k * 100) at 1 by ring.
  replace (y + 400 * k) with (y + k * 400) at 1 by ring. by rewrite !Z_mod_plus_full.
Qed.

Lemma month_lengths_period y k : month_lengths (y + 400 * k) = month_lengths y.
Proof. unfold month_lengths. by rewrite leap_period. Qed.

(** * One era *)

(** The first day of the year that begins in March of [y], from the era's start. *)
Definition march_start (y : Z) : Z := 365 * y + y / 4 - y / 100 + y / 400.

Lemma year_of_era_div doe :
  0 <= doe -> year_of_era_of doe = (doe - doe / 1460 + doe / 36524 - doe / 146096) / 365.
Proof.
  intros H. unfold year_of_era_of. rewrite !(Z.quot_div_nonneg doe) by lia.
  apply Z.quot_div_nonneg; [|lia]. Z.to_euclidean_division_equations. lia.
Qed.

Lemma year_of_era_mono a b : 0 <= a <= b -> year_of_era_of a <= year_of_era_of b.
Proof.
  intros H. rewrite !year_of_era_div by lia. apply Z.div_le_mono; [lia|].
  assert (Hq : forall x, x / 146096 = x / 36524 / 4) by (intros; by rewrite Z.div_div by lia).
  rewrite !Hq. pose proof (Z.div_le_mono a b 36524 ltac:(lia) ltac:(lia)) as Hu.
  assert (a - a / 1460 <= b - b / 1460) by (Z.to_euclidean_division_equations; lia).
  revert Hu. generalize (a / 36524), (b / 36524). intros u v Hu.
  assert (u - u / 4 <= v - v / 4) by (Z.to_euclidean_division_equations; lia). lia.
Qed.

Definition march_year_ok (y : Z) : bool :=
  (year_of_era_of (march_start y) =? y) && (year_of_era_of (march_start (y + 1) - 1) =? y)
  && (march_start (y + 1) =? march_start y + year_length (y + 1))
  && (365 * y + leaps_before y + 59 + (if is_leap y then 1 else 0) =? march_start y + 60)
  && (365 * (y + 1) + leaps_before (y + 1) =? march_start y + 366).

Lemma march_year y : 0 <= y < 400 -> march_year_ok y = true.
Proof. intros H. apply (all_from_spec 400 0); [vm_compute; reflexivity|lia]. Qed.

(** The month and the day from the day of the March year. *)
Definition march_day_ok (doy : Z) : bool :=
  let mp := month_prime_of doy in
  let m := month_of mp in
  let d := day_of doy mp in
  (1 <=? m) && (m <=? 12) && (1 <=? d) &&
  forallb (fun leap : bool =>
    if m <=? 2 then
      implb (doy <? 365 + (if leap then 1 else 0)) (d <=? nth (Z.to_nat (m - 1)) (month_table leap) 0)
      && (foldr Z.add 0 (take (Z.to_nat (m - 1)) (month_table leap)) + (d - 1) =? doy - 306)
    else
      (d <=? nth (Z.to_nat (m - 1)) (month_table leap) 0)
      && (foldr Z.add 0 (take (Z.to_nat (m - 1)) (month_table leap)) + (d - 1)
          =? 59 + (if leap then 1 else 0) + doy)) [false; true].

Lemma march_day doy : 0 <= doy < 366 -> march_day_ok doy = true.
Proof. intros H. apply (all_from_spec 366 0); [vm_compute; reflexivity|lia]. Qed.

(** The March year a day falls in. *)
Lemma march_year_exists doe n :
  0 <= doe < march_start (Z.of_nat n) ->
  exists y, 0 <= y < Z.of_nat n /\ march_start y <= doe < march_start (y + 1).
Proof.
  induction n as [|n IH]; intros H; [change (march_start (Z.of_nat 0)) with 0 in H; lia|].
  destruct (Z.lt_ge_cases doe (march_start (Z.of_nat n))) as [Hlt|Hge].
  - destruct IH as (y & Hy & Hd); [lia|]. exists y. lia.
  - exists (Z.of_nat n). rewrite Nat2Z.inj_succ in H. unfold Z.succ in H. lia.
Qed.

Lemma era_day doe :
  0 <= doe < 146097 ->
  let yoe := year_of_era_of doe in
  let doy := day_of_year_of doe yoe in
  let mp := month_prime_of doy in
  let m := month_of mp in
  let d := day_of doy mp in
  let y := if m <=? 2 then yoe + 1 else yoe in
  0 <= yoe < 400 /\ valid_date y m d = true /\
  365 * y + leaps_before y + days_before_month y m + (d - 1) = doe + 60.
Proof.
  intros Hdoe. destruct (march_year_exists doe 400) as (y0 & Hy & Hd); [exact Hdoe|].
  change (Z.of_nat 400) with 400 in Hy.
  pose proof (march_year y0 Hy) as Hok. unfold march_year_ok in Hok.
  rewrite !andb_true_iff, !Z.eqb_eq in Hok. destruct Hok as ((((H1 & H2) & H3) & H4) & H5).
  assert (Hm0 : 0 <= march_start y0)
    by (unfold march_start; Z.to_euclidean_division_equations; lia).
  assert (Ey : year_of_era_of doe = y0).
  { pose proof (year_of_era_mono (march_start y0) doe ltac:(lia)).
    pose proof (year_of_era_mono doe (march_start (y0 + 1) - 1) ltac:(lia)). lia. }
  cbv zeta. rewrite Ey.
  assert (Edoy : day_of_year_of doe y0 = doe - march_start y0).
  { unfold day_of_year_of, march_start. rewrite !Z.quot_div_nonneg, (Z.div_small y0 400) by lia. lia. }
  rewrite Edoy. set (doy := doe - march_start y0).
  assert (Hlen : year_length (y0 + 1) = 365 + (if is_leap (y0 + 1) then 1 else 0))
    by (unfold year_length; destruct (is_leap (y0 + 1)); reflexivity).
  assert (Hdoy : 0 <= doy < 365 + (if is_leap (y0 + 1) then 1 else 0)) by (unfold doy; lia).
  assert (Hdoy' : 0 <= doy < 366) by (destruct (is_leap (y0 + 1)); lia).
  pose proof (march_day doy Hdoy') as Hmd. unfold march_day_ok in Hmd. cbv zeta in Hmd.
  rewrite !andb_true_iff in Hmd. destruct Hmd as (((Hm1 & Hm2) & Hd1) & Hall).
  rewrite forallb_forall in Hall. split; [lia|].
  unfold valid_date, month_length, days_before_month, month_lengths. rewrite Hm1, Hm2, Hd1.
  destruct (month_of (month_prime_of doy) <=? 2).
  - specialize (Hall (is_leap (y0 + 1)) ltac:(destruct (is_leap (y0 + 1)); simpl; auto)).
    rewrite (proj2 (Z.ltb_lt _ _) (proj2 Hdoy)) in Hall. cbn [implb] in Hall.
    rewrite andb_true_iff, Z.eqb_eq in Hall. destruct Hall as [-> Hall].
    rewrite (proj2 (Z.leb_le 0 (y0 + 1))) by lia. split; [done|]. unfold doy in Hall |- *. lia.
  - specialize (Hall (is_leap y0) ltac:(destruct (is_leap y0); simpl; auto)).
    rewrite andb_true_iff, Z.eqb_eq in Hall. destruct Hall as [-> Hall].
    rewrite (proj2 (Z.leb_le 0 y0)) by lia. split; [done|]. unfold doy in Hall |- *. lia.
Qed.

(** * Dates *)

Lemma valid_date_bounds y m d :
  valid_date y m d = true -> 0 <= y /\ 1 <= m <= 12 /\ 1 <= d <= month_length y m.
Proof. unfold valid_date. rewrite !andb_true_iff, !Z.leb_le. tauto. Qed.

Lemma check_small z : 0 <= z <= 1000000000000000 -> check_i64 z = Some z.
Proof. intros H. apply check_i64_Some. split; [done|]. widths. lia. Qed.

Lemma civil_spec days :
  0 <= days <= 1000000000000 ->
  exists y m d, civil_from_days days = Some (y, m, d) /\ valid_date y m d = true /\
    day_number y m d = days + EPOCH.
Proof.
  intros H. unfold civil_from_days. rewrite check_small by lia.
  set (shifted := days + 719468). set (era := shifted / 146097).
  pose proof (Z.div_mod shifted 146097 ltac:(lia)) as Hdm. fold era in Hdm.
  pose proof (Z.mod_pos_bound shifted 146097 ltac:(lia)) as Hmb.
  assert (Hera : 0 <= era <= 10000000) by (unfold era, shifted; Z.to_euclidean_division_equations; lia).
  cbv zeta. rewrite (check_small (era * 146097)) by lia. cbn [mbind option_bind].
  rewrite (check_small (shifted - era * 146097)) by lia.
  destruct (era_day (shifted - era * 146097)) as (Hyoe & Hv & Hn); [lia|]. cbv zeta in Hv, Hn.
  set (doe := shifted - era * 146097) in *. set (yoe := year_of_era_of doe) in *.
  rewrite (check_small (era * 400)) by lia. cbn [mbind option_bind].
  rewrite (check_small (yoe + era * 400)) by lia.
  set (m := month_of (month_prime_of (day_of_year_of doe yoe))) in *.
  set (d := day_of (day_of_year_of doe yoe) (month_prime_of (day_of_year_of doe yoe))) in *.
  set (y := if m <=? 2 then yoe + 1 else yoe) in *.
  assert (Ey : (if m <=? 2 then check_i64 (yoe + era * 400 + 1) else Some (yoe + era * 400))
               = Some (y + 400 * era)).
  { unfold y. destruct (m <=? 2); [rewrite check_small by lia|]; f_equal; lia. }
  rewrite Ey. exists (y + 400 * era), m, d. split; [done|].
  pose proof (valid_date_bounds _ _ _ Hv) as (Hy0 & Hm & Hd).
  unfold valid_date, day_number, month_length, days_before_month in *. rewrite month_lengths_period. split.
  - rewrite !andb_true_iff, !Z.leb_le. lia.
  - rewrite days_before_year_Z, leaps_period by lia. rewrite epoch_value. unfold shifted in *. lia.
Qed.

(** The months of a year: each begins after the earlier ones, the last ends with
    the year. *)
Definition month_start_of (leap : bool) (m : Z) : Z :=
  foldr Z.add 0 (take (Z.to_nat (m - 1)) (month_table leap)).
Definition month_end_of (leap : bool) (m : Z) : Z :=
  month_start_of leap m + nth (Z.to_nat (m - 1)) (month_table leap) 0.

Definition months_ok (leap : bool) (m m' : Z) : bool :=
  (0 <=? month_start_of leap m) && (month_end_of leap m <=? (if leap then 366 else 365))
  && implb (m <? m') (month_end_of leap m <=? month_start_of leap m').

Lemma months_spec leap m m' : 1 <= m <= 12 -> 1 <= m' <= 12 -> months_ok leap m m' = true.
Proof.
  intros Hm Hm'.
  assert (Hall : all_from 12 1 (fun m => all_from 12 1 (months_ok leap m)) = true)
    by (destruct leap; vm_compute; reflexivity).
  pose proof (all_from_spec _ _ _ m Hall ltac:(lia)) as Hk. cbv beta in Hk.
  exact (all_from_spec _ _ _ m' Hk ltac:(lia)).
Qed.

Lemma day_in_year y m d :
  valid_date y m d = true -> 0 <= days_before_month y m + (d - 1) < year_length y.
Proof.
  intros H. apply valid_date_bounds in H as (_ & Hm & Hd).
  pose proof (months_spec (is_leap y) m m Hm Hm) as Hk. unfold months_ok in Hk.
  rewrite !andb_true_iff, !Z.leb_le in Hk. destruct Hk as [[H1 H2] _].
  unfold month_end_of, month_start_of in *.
  unfold days_before_month, month_length, month_lengths, year_length in *. lia.
Qed.

Lemma months_in_order y m m' d d' :
  valid_date y m d = true -> valid_date y m' d' = true -> m < m' ->
  days_before_month y m + (d - 1) < days_before_month y m' + (d' - 1).
Proof.
  intros H H' Hlt. apply valid_date_bounds in H as (_ & Hm & Hd), H' as (_ & Hm' & Hd').
  pose proof (months_spec (is_leap y) m m' Hm Hm') as Hk. unfold months_ok in Hk.
  rewrite !andb_true_iff, (proj2 (Z.ltb_lt _ _) Hlt) in Hk. cbn [implb] in Hk.
  rewrite !Z.leb_le in Hk. destruct Hk as [_ Hk]. unfold month_end_of, month_start_of in *.
  unfold days_before_month, month_length, month_lengths in *. lia.
Qed.

Lemma year_start_mono y y' : 0 <= y < y' ->
  days_before_year (Z.to_nat y) + year_length y <= days_before_year (Z.to_nat y').
Proof.
  intros H. rewrite !days_before_year_Z by lia. unfold leaps_before, year_length.
  destruct (is_leap y) eqn:E; unfold is_leap in E; bool_prop; Z.to_euclidean_division_equations; lia.
Qed.

(** A day number is one date. *)
Lemma day_number_inj y m d y' m' d' :
  valid_date y m d = true -> valid_date y' m' d' = true ->
  day_number y m d = day_number y' m' d' -> y = y' /\ m = m' /\ d = d'.
Proof.
  intros H H' E. unfold day_number in E.
  pose proof (day_in_year _ _ _ H). pose proof (day_in_year _ _ _ H').
  pose proof (valid_date_bounds _ _ _ H) as (Hy & _ & _). pose proof (valid_date_bounds _ _ _ H') as (Hy' & _ & _).
  assert (y = y') as <-.
  { destruct (Z.lt_trichotomy y y') as [Hl|[?|Hl]]; [|done|].
    - pose proof (year_start_mono y y' ltac:(lia)). lia.
    - pose proof (year_start_mono y' y ltac:(lia)). lia. }
  destruct (Z.lt_trichotomy m m') as [Hl|[<-|Hl]].
  - pose proof (months_in_order _ _ _ _ _ H H' Hl). lia.
  - split_and!; [done..|lia].
  - pose proof (months_in_order _ _ _ _ _ H' H Hl). lia.
Qed.

(** * Instants *)

(** A date of the calendar and a time of day, no earlier than the epoch. *)
Record moment (y m d h mi s f : Z) : Prop := mkMoment {
  moment_date : valid_date y m d = true;
  moment_year : y <= 9999;
  moment_time : 0 <= h < 24 /\ 0 <= mi < 60 /\ 0 <= s < 60 /\ 0 <= f < 1000;
  moment_epoch : EPOCH <= day_number y m d
}.

(** The milliseconds from the epoch to a moment. *)
Definition instant (y m d h mi s f : Z) : Z :=
  ((((day_number y m d - EPOCH) * 24 + h) * 60 + mi) * 60 + s) * 1000 + f.

Lemma day_number_bound y m d :
  valid_date y m d = true -> y <= 9999 -> day_number y m d <= 4000000.
Proof.
  intros Hv Hy. pose proof (day_in_year _ _ _ Hv) as Hd. pose proof (valid_date_bounds _ _ _ Hv) as (H0 & _).
  unfold day_number. rewrite days_before_year_Z by lia.
  assert (year_length y <= 366) by (unfold year_length; destruct (is_leap y); lia).
  assert (leaps_before y <= 3000) by (unfold leaps_before; Z.to_euclidean_division_equations; lia). lia.
Qed.

Lemma utc_moment y m d h mi s f :
  moment y m d h mi s f ->
  utc_rfc3339_from_unix_millis (instant y m d h mi s f) = Some (rfc3339 y m d h mi s f).
Proof.
  intros [Hv Hy (Hh & Hmi & Hs & Hf) He]. pose proof (day_number_bound y m d Hv Hy) as Hb.
  set (days := day_number y m d - EPOCH) in *.
  assert (Hdays : 0 <= days <= 4000000) by (unfold days; rewrite epoch_value in *; lia).
  unfold instant. fold days. unfold utc_rfc3339_from_unix_millis.
  set (ms := (((days * 24 + h) * 60 + mi) * 60 + s) * 1000 + f).
  assert (E1 : ms / 1000 = ((days * 24 + h) * 60 + mi) * 60 + s) by (unfold ms; Z.to_euclidean_division_equations; lia).
  assert (E2 : ms mod 1000 = f) by (unfold ms; Z.to_euclidean_division_equations; lia).
  assert (Ec : check_u64 ms = Some ms) by (apply check_u64_Some; split; [done|]; unfold ms; widths; lia).
  rewrite Ec. cbv zeta. rewrite E1, E2. clearbody ms. clear E1 E2 Ec.
  set (us := ((days * 24 + h) * 60 + mi) * 60 + s).
  assert (E3 : us / 86400 = days) by (unfold us; Z.to_euclidean_division_equations; lia).
  assert (E4 : us mod 86400 = (h * 60 + mi) * 60 + s) by (unfold us; Z.to_euclidean_division_equations; lia).
  rewrite E3, E4, check_small by lia. cbn [mbind option_bind]. clearbody us.
  destruct (civil_spec days) as (y' & m' & d' & -> & Hv' & Hn'); [lia|].
  destruct (day_number_inj y' m' d' y m d Hv' Hv) as (-> & -> & ->); [unfold days in Hn'; lia|].
  pose proof (valid_date_bounds _ _ _ Hv) as (H0 & _).
  rewrite (proj2 (Z.leb_le 0 y)), (proj2 (Z.leb_le y 9999)) by lia. cbn [andb negb].
  f_equal. f_equal; Z.to_euclidean_division_equations; lia.
Qed.

Lemma utc_Some ms t :
  utc_rfc3339_from_unix_millis ms = Some t ->
  exists y m d h mi s f, moment y m d h mi s f /\ ms = instant y m d h mi s f /\ t = rfc3339 y m d h mi s f.
Proof.
  unfold utc_rfc3339_from_unix_millis. destruct (check_u64 ms) as [ms'|] eqn:Ec; [|done].
  apply check_u64_Some in Ec as [-> Hu]. cbv zeta. intros H.
  assert (Hd : 0 <= ms / 1000 / 86400 <= 1000000000000)
    by (widths; Z.to_euclidean_division_equations; lia).
  rewrite check_small in H by lia. cbn [mbind option_bind] in H.
  destruct (civil_spec (ms / 1000 / 86400) Hd) as (y & m & d & E & Hv & Hn). rewrite E in H.
  destruct (Z.leb_spec 0 y); [|done]. destruct (Z.leb_spec y 9999); [|done]. cbn [andb negb] in H.
  injection H as <-.
  eexists y, m, d, _, _, _, _. split; [|split; [|reflexivity]].
  - split; [done|done| |lia]. clear. split_and!; Z.to_euclidean_division_equations; lia.
  - unfold instant. replace (day_number y m d - EPOCH) with (ms / 1000 / 86400) by lia.
    clear. Z.to_euclidean_division_equations. lia.
Qed.

(** Fields of one width can be read back. *)
Lemma zero_padded_inj width n n' rest rest' :
  zero_padded width n ++ rest = zero_padded width n' ++ rest' ->
  (width = 2%nat /\ n < 100 /\ n' < 100 \/ width = 3%nat /\ n < 1000 /\ n' < 1000 \/
   width = 4%nat /\ n < 10000 /\ n' < 10000) -> 0 <= n -> 0 <= n' ->
  n = n' /\ rest = rest'.
Proof.
  intros E Hw Hn Hn'. destruct (zero_padded_spec width n) as [L V]; [lia..|].
  destruct (zero_padded_spec width n') as [L' V']; [lia..|].
  apply app_inj_1 in E as [E ->]; [|by rewrite L, L']. split; [|done]. by rewrite <- V, E.
Qed.

Lemma moment_fields y m d h mi s f :
  moment y m d h mi s f -> 0 <= y < 10000 /\ 0 <= m < 100 /\ 0 <= d < 100.
Proof.
  intros [Hv Hy _ _]. pose proof (day_in_year _ _ _ Hv) as Hd.
  pose proof (valid_date_bounds _ _ _ Hv) as (H0 & Hm & Hd').
  assert (month_length y m <= 31).
  { unfold month_length, month_lengths. clear - Hm.
    assert (all_from 12 1 (fun m => forallb (fun leap => nth (Z.to_nat (m - 1)) (month_table leap) 0 <=? 31)
      [true; false]) = true) as Hall by (vm_compute; reflexivity).
    pose proof (all_from_spec _ _ _ m Hall ltac:(lia)) as Hk. cbv beta in Hk.
    rewrite forallb_forall in Hk. apply Z.leb_le, Hk. destruct (is_leap y); simpl; auto. }
  lia.
Qed.

Lemma rfc3339_inj y m d h mi s f y' m' d' h' mi' s' f' :
  moment y m d h mi s f -> moment y' m' d' h' mi' s' f' ->
  rfc3339 y m d h mi s f = rfc3339 y' m' d' h' mi' s' f' ->
  (y, m, d, h, mi, s, f) = (y', m', d', h', mi', s', f').
Proof.
  intros M M' E. pose proof (moment_fields _ _ _ _ _ _ _ M). pose proof (moment_fields _ _ _ _ _ _ _ M').
  destruct (moment_time _ _ _ _ _ _ _ M), (moment_time _ _ _ _ _ _ _ M'). unfold rfc3339 in E.
  apply zero_padded_inj in E as [-> E]; [|lia..]. apply cons_inv in E as [_ E].
  apply zero_padded_inj in E as [-> E]; [|lia..]. apply cons_inv in E as [_ E].
  apply zero_padded_inj in E as [-> E]; [|lia..]. apply cons_inv in E as [_ E].
  apply zero_padded_inj in E as [-> E]; [|lia..]. apply cons_inv in E as [_ E].
  apply zero_padded_inj in E as [-> E]; [|lia..]. apply cons_inv in E as [_ E].
  apply zero_padded_inj in E as [-> E]; [|lia..]. apply cons_inv in E as [_ E].
  apply zero_padded_inj in E as [-> E]; [|lia..]. done.
Qed.

(** * Properties *)

(** The clock renders the Gregorian calendar, exactly.  Milliseconds render
    as a timestamp precisely when they are the distance from the epoch to a
    date of the calendar (leap years by the 4/100/400 rule, months by their
    lengths) no later than the year 9999, with a time of day, and the
    timestamp spells that date and time; no two instants share a timestamp. *)
Theorem clock_exact ms t :
  (utc_rfc3339_from_unix_millis ms = Some t <->
   exists y m d h mi s f, moment y m d h mi s f /\ ms = instant y m d h mi s f /\
     t = rfc3339 y m d h mi s f) /\
  (forall ms', utc_rfc3339_from_unix_millis ms = Some t ->
     utc_rfc3339_from_unix_millis ms' = Some t -> ms' = ms).
Proof.
  split; [split|].
  - apply utc_Some.
  - intros (y & m & d & h & mi & s & f & M & -> & ->). by apply utc_moment.
  - intros ms' (y & m & d & h & mi & s & f & M & -> & ->)%utc_Some
      (y' & m' & d' & h' & mi' & s' & f' & M' & -> & E)%utc_Some.
    pose proof (rfc3339_inj _ _ _ _ _ _ _ _ _ _ _ _ _ _ M M' E) as [= -> -> -> -> -> -> ->]. done.
Qed.
