(* ===== verification/AuditStore.v ===== *)
(** The durable audit chain: [automonique-store/src/audit_chain.rs], and the
    daemon's two writers of it, [append_approval_record] and
    [record_cancellation_audit] of [automonique-daemon/src/lib.rs].

    The table [audit_records] is the list of its rows in [seq] order; a
    transaction that fails leaves it as it was.  The only constraint of the
    schema that an insertion validated by this module can still violate is the
    uniqueness of [record_hash], reported as SQLite's own error. *)

From S2P Require Import Prelude Text Codec Wire WireCanonical Digest AuditChain Clock.

Definition MAX_AUDIT_RECORDS : Z := 1000000.
Definition MAX_IDENTIFIER_BYTES : Z := 256.
Definition CHAIN_HASH_HEX_BYTES : Z := 64.
Definition MAX_AUDIT_PAGE : Z := 256.
Definition MAX_BODY_BYTES : Z := 8 * 1024.

Inductive AuditChainError :=
| BadField (field : string)
| ChainBroken (head_hash : list Z) (expected_seq : Z) (presented_prev_hash : list Z)
| Conflict (field : string) (recorded_seq : Z) (recorded_record_hash : list Z)
| CursorOutOfRange (supplied retained_last : Z)
| ChainFull (capacity : Z)
| Corrupt (field : string)
| Sqlite.

Inductive AuditDisposition := Recorded | AlreadyRecorded.

Record AuditAppend := mkAppend {
  ap_record_id : list Z;
  ap_recorded_at : list Z;
  ap_actor : list Z;
  ap_surface : list Z;
  ap_category : list Z;
  ap_subject : list Z;
  ap_outcome : list Z;
  ap_body : list Z;
  ap_prev_hash : list Z;
  ap_record_hash : list Z
}.

Record AuditReceipt := mkReceipt { rc_seq : Z; rc_disposition : AuditDisposition }.
Record AuditHead := mkHead { head_seq : Z; head_record_hash : list Z }.

(** A row: its position and what was presented.  A raw row has the same columns. *)
Record AuditEntry := mkEntry { en_seq : Z; en_data : AuditAppend }.

Record AuditPage := mkPage { page_entries : list AuditEntry; page_next_cursor : option Z }.

#[export] Instance AuditAppend_eq_dec : EqDecision AuditAppend.
Proof. solve_decision. Defined.
#[export] Instance AuditEntry_eq_dec : EqDecision AuditEntry.
Proof. solve_decision. Defined.

Abbreviation Chained A := (result AuditChainError A).
Abbreviation Table := (list AuditEntry).

(** * Validation *)

Definition CATEGORIES : list (list Z) :=
  [str "approval"; str "action"; str "override"; str "cancellation"; str "policy"; str "escalation"].
Definition OUTCOMES : list (list Z) :=
  [str "success"; str "failure"; str "timeout"; str "denied"; str "escalated"].

Definition validate_identifier (value : list Z) (field : string) : Chained unit :=
  if bool_decide (value = []) || (MAX_IDENTIFIER_BYTES <? str_len value) || existsb is_control value
  then Err (BadField field) else Ok tt.

Definition validate_hash (value : list Z) (field : string) : Chained unit :=
  if negb (str_len value =? CHAIN_HASH_HEX_BYTES) || negb (forallb is_lower_hex (utf8 value))
  then Err (BadField field) else Ok tt.

Definition validate_vocabulary (value : list Z) (allowed : list (list Z)) (field : string)
  : Chained unit :=
  if bool_decide (value ∈ allowed) then Ok tt else Err (BadField field).

Definition validate_append (r : AuditAppend) : Chained unit :=
  _ ← validate_identifier (ap_record_id r) "record_id";
  _ ← validate_identifier (ap_recorded_at r) "recorded_at";
  _ ← validate_identifier (ap_actor r) "actor";
  _ ← validate_identifier (ap_surface r) "surface";
  _ ← validate_identifier (ap_subject r) "subject";
  _ ← validate_vocabulary (ap_category r) CATEGORIES "category";
  _ ← validate_vocabulary (ap_outcome r) OUTCOMES "outcome";
  _ ← validate_hash (ap_prev_hash r) "prev_hash";
  _ ← validate_hash (ap_record_hash r) "record_hash";
  if bool_decide (ap_body r = []) || (MAX_BODY_BYTES <? len (ap_body r))
  then Err (BadField "body") else Ok tt.

(** [map_err(|_| corrupt(field))]. *)
Definition checked {A} (field : string) (m : Chained A) : Chained A := map_err (fun _ => Corrupt field) m.

Definition validated_entry (raw : AuditEntry) : Chained AuditEntry :=
  let r := en_data raw in
  seq ← ok_or (check_u64 (en_seq raw)) (Corrupt "seq");
  if seq =? 0 then Err (Corrupt "seq")
  else if bool_decide (ap_body r = []) || (MAX_BODY_BYTES <? len (ap_body r))
  then Err (Corrupt "body")
  else
    _ ← checked "record_id" (validate_identifier (ap_record_id r) "record_id");
    _ ← checked "recorded_at" (validate_identifier (ap_recorded_at r) "recorded_at");
    _ ← checked "actor" (validate_identifier (ap_actor r) "actor");
    _ ← checked "surface" (validate_identifier (ap_surface r) "surface");
    _ ← checked "category" (validate_vocabulary (ap_category r) CATEGORIES "category");
    _ ← checked "subject" (validate_identifier (ap_subject r) "subject");
    _ ← checked "outcome" (validate_vocabulary (ap_outcome r) OUTCOMES "outcome");
    _ ← checked "prev_hash" (validate_hash (ap_prev_hash r) "prev_hash");
    _ ← checked "record_hash" (validate_hash (ap_record_hash r) "record_hash");
    Ok (mkEntry seq r).

(** * Reading *)

(** [raw.map(validated_entry).transpose()]. *)
Definition validated_option (raw : option AuditEntry) : Chained (option AuditEntry) :=
  match raw with
  | None => Ok None
  | Some raw => e ← validated_entry raw; Ok (Some e)
  end.

Definition read_entry_by_seq (seq : Z) (t : Table) : Chained (option AuditEntry) :=
  validated_option (List.find (fun e => en_seq e =? seq) t).

Definition read_entry_by_record_id (id : list Z) (t : Table) : Chained (option AuditEntry) :=
  validated_option (List.find (fun e => bool_decide (ap_record_id (en_data e) = id)) t).

Definition head_of (e : option AuditEntry) : option AuditHead :=
  match e with
  | Some e => Some (mkHead (en_seq e) (ap_record_hash (en_data e)))
  | None => None
  end.

Definition read_head (t : Table) : Chained (option AuditHead) :=
  e ← validated_option (last t); Ok (head_of e).

(** The row count fits its types. *)
Definition count_records (t : Table) : Chained Z := Ok (len t).

Definition db_u64 (value : Z) (field : string) : Chained Z := ok_or (check_i64 value) (BadField field).

(** * Appending *)

Definition differing_field (durable presented : AuditAppend) : option string :=
  if negb (bool_decide (ap_record_hash durable = ap_record_hash presented)) then Some "record_hash"%string
  else if negb (bool_decide (ap_prev_hash durable = ap_prev_hash presented)) then Some "prev_hash"%string
  else if negb (bool_decide (ap_body durable = ap_body presented)) then Some "body"%string
  else if negb (bool_decide (ap_recorded_at durable = ap_recorded_at presented)) then Some "recorded_at"%string
  else if negb (bool_decide (ap_actor durable = ap_actor presented)) then Some "actor"%string
  else if negb (bool_decide (ap_surface durable = ap_surface presented)) then Some "surface"%string
  else if negb (bool_decide (ap_category durable = ap_category presented)) then Some "category"%string
  else if negb (bool_decide (ap_subject durable = ap_subject presented)) then Some "subject"%string
  else if negb (bool_decide (ap_outcome durable = ap_outcome presented)) then Some "outcome"%string
  else None.

Definition replay_or_conflict (durable : AuditEntry) (presented : AuditAppend) : Chained AuditReceipt :=
  match differing_field (en_data durable) presented with
  | Some field => Err (Conflict field (en_seq durable) (ap_record_hash (en_data durable)))
  | None => Ok (mkReceipt (en_seq durable) AlreadyRecorded)
  end.

(** Where the next record goes: [head.map_or_else]. *)
Definition next_position (head : option AuditHead) : Z * list Z :=
  match head with
  | None => (1, GENESIS_PREV_HASH)
  | Some h => (sat_u64 (head_seq h + 1), head_record_hash h)
  end.

Definition append_body (capacity : Z) (r : AuditAppend) (t : Table) : Chained (AuditReceipt * Table) :=
  _ ← validate_append r;
  found ← read_entry_by_record_id (ap_record_id r) t;
  match found with
  | Some durable => receipt ← replay_or_conflict durable r; Ok (receipt, t)
  | None =>
      head ← read_head t;
      let '(expected_seq, head_hash) := next_position head in
      if negb (bool_decide (ap_prev_hash r = head_hash))
      then Err (ChainBroken head_hash expected_seq (ap_prev_hash r))
      else
        live ← count_records t;
        if capacity <=? live then Err (ChainFull capacity)
        else
          seq ← db_u64 expected_seq "seq";
          if existsb (fun e => bool_decide (ap_record_hash (en_data e) = ap_record_hash r)) t
          then Err Sqlite
          else Ok (mkReceipt expected_seq Recorded, t ++ [mkEntry seq r])
  end.

(** A failed transaction changes nothing. *)
Definition append (capacity : Z) (r : AuditAppend) (t : Table) : Chained AuditReceipt * Table :=
  match append_body capacity r t with
  | Ok (receipt, t') => (Ok receipt, t')
  | Err e => (Err e, t)
  end.

(** * The other operations *)

Definition entry (seq : Z) (t : Table) : Chained (option AuditEntry) :=
  if seq =? 0 then Err (BadField "seq")
  else i ← db_u64 seq "seq"; read_entry_by_seq i t.

Definition record (id : list Z) (t : Table) : Chained (option AuditEntry) :=
  _ ← validate_identifier id "record_id"; read_entry_by_record_id id t.

(** [COALESCE(MAX(seq), 0)]. *)
Definition highest_seq (t : Table) : Z := foldr Z.max 0 (en_seq <$> t).

Fixpoint validated_entries (raws : list AuditEntry) : Chained (list AuditEntry) :=
  match raws with
  | [] => Ok []
  | raw :: raws => e ← validated_entry raw; es ← validated_entries raws; Ok (e :: es)
  end.

Definition page (cursor limit : Z) (t : Table) : Chained AuditPage :=
  if (limit =? 0) || (MAX_AUDIT_PAGE <? limit) then Err (BadField "limit")
  else
    after ← db_u64 cursor "cursor";
    lookahead ← ok_or (check_i64 (limit + 1)) (BadField "limit");
    retained_last ← ok_or (check_u64 (highest_seq t)) (Corrupt "seq");
    if retained_last <? cursor then Err (CursorOutOfRange cursor retained_last)
    else
      entries ← validated_entries (take (Z.to_nat lookahead) (List.filter (fun e => after <? en_seq e) t));
      if limit <? len entries then
        let entries := take (Z.to_nat limit) entries in
        e ← ok_or (last entries) (Corrupt "seq");
        Ok (mkPage entries (Some (en_seq e)))
      else Ok (mkPage entries None).

Fixpoint verify_structure_from (expected_seq : Z) (expected_prev : list Z) (checked_rows : Z)
    (rows : Table) : Chained Z :=
  match rows with
  | [] => Ok checked_rows
  | raw :: rows =>
      e ← validated_entry raw;
      if negb (en_seq e =? expected_seq) then Err (Corrupt "seq_not_contiguous")
      else if negb (bool_decide (ap_prev_hash (en_data e) = expected_prev))
      then Err (Corrupt (if expected_seq =? 1 then "genesis_prev_hash" else "prev_hash_link"))
      else verify_structure_from (sat_u64 (expected_seq + 1)) (ap_record_hash (en_data e))
             (sat_u64 (checked_rows + 1)) rows
  end.

Definition verify_structure (t : Table) : Chained Z := verify_structure_from 1 GENESIS_PREV_HASH 0 t.

(** * The daemon's writers *)

Definition append_of (r : AuditRecord) : AuditAppend :=
  mkAppend (record_id r) (rec_recorded_at r) (rec_actor r) (rec_surface r)
    (category_as_str (rec_category r)) (rec_subject r) (outcome_as_str (rec_outcome r))
    (record_bytes r) (rec_prev_hash r) (record_hash r).

(** Read the head, link a record to it, append it; every failure is silent. *)
Definition write_record (capacity : Z) (actor surface : list Z) (category : AuditCategory)
    (subject : list Z) (outcome : AuditOutcome) (now_ms : Z) (t : Table) : Table :=
  match read_head t, utc_rfc3339_from_unix_millis now_ms with
  | Ok head, Some recorded_at =>
      let '(seq, prev_hash) := next_position head in
      match record_link seq prev_hash (mkEvent recorded_at actor surface category subject outcome) with
      | Ok r => snd (append capacity (append_of r) t)
      | Err _ => t
      end
  | _, _ => t
  end.

Definition append_approval_record (capacity : Z) (subject actor surface : list Z)
    (outcome : AuditOutcome) (now_ms : Z) (t : Table) : Table :=
  write_record capacity actor surface Approval subject outcome now_ms t.

Inductive CancelRunOutcome := Delivered | AlreadyDelivered | CancelConflict.

Definition record_cancellation_audit (capacity : Z) (run_id : list Z) (outcome : CancelRunOutcome)
    (now_ms : Z) (t : Table) : Table :=
  write_record capacity (str "local-peer") (str "automonique.execute") Cancellation run_id
    (match outcome with
     | Delivered | AlreadyDelivered => Success
     | CancelConflict => Denied
     end) now_ms t.

(** Proofs never look inside the hash. *)
#[local] Opaque digest finish derive_record_id to_hex.

(** * Linked tables *)

Lemma validated_entry_id raw e : validated_entry raw = Ok e -> e = raw.
Proof.
  unfold validated_entry. intros H. apply bind_Ok in H as (seq & E & H). apply ok_or_Ok, check_u64_Some in E as [-> _].
  destruct (en_seq raw =? 0); [done|]. destruct (_ || _); [done|].
  repeat (apply bind_Ok in H as (? & _ & H)). injection H as <-. by destruct raw.
Qed.

(** Valid rows, numbered consecutively, each naming the hash of the one before. *)
Inductive linked : Z -> list Z -> Table -> Prop :=
| linked_nil seq prev : linked seq prev []
| linked_cons e t :
    validated_entry e = Ok e -> linked (en_seq e + 1) (ap_record_hash (en_data e)) t ->
    linked (en_seq e) (ap_prev_hash (en_data e)) (e :: t).

Definition row_hash (e : AuditEntry) : list Z := ap_record_hash (en_data e).

Lemma linked_snoc seq prev t e :
  linked seq prev (t ++ [e]) <->
  linked seq prev t /\ validated_entry e = Ok e /\ en_seq e = seq + len t /\
  ap_prev_hash (en_data e) = from_option row_hash prev (last t).
Proof.
  revert seq prev. induction t as [|x t IH]; intros seq prev.
  - cbn [app last from_option]. rewrite len_nil. split.
    + intros H. inversion H; subst. split_and!; [constructor|done|lia|done].
    + intros (_ & Hv & Hs & Hp). rewrite Z.add_0_r in Hs. subst. constructor; [done|constructor].
  - cbn [app]. rewrite last_cons, len_cons. split.
    + intros H. inversion H; subst. destruct (proj1 (IH _ _) ltac:(eassumption)) as (Hl & Hv & Hs & Hp).
      split_and!; [by constructor|done|lia|]. rewrite Hp. by destruct (last t).
    + intros (Hl & Hv & Hs & Hp). inversion Hl; subst. constructor; [done|].
      apply IH. split_and!; [done..|lia|]. rewrite Hp. by destruct (last t).
Qed.

Lemma linked_valid seq prev t e : linked seq prev t -> e ∈ t -> validated_entry e = Ok e.
Proof. induction 1; intros [->|?]%elem_of_cons || intros []%not_elem_of_nil; auto. Qed.

Lemma verify_structure_linked t seq prev k n :
  1 <= seq -> seq + len t <= u64_max -> k = seq - 1 ->
  verify_structure_from seq prev k t = Ok n <-> linked seq prev t /\ n = k + len t.
Proof.
  revert seq prev k. induction t as [|e t IH]; intros seq prev k Hs Hb Hk; cbn [verify_structure_from].
  { rewrite len_nil, Z.add_0_r. split; [intros [= <-]; split; [constructor|done]|by intros [_ ->]]. }
  rewrite len_cons in *. pose proof (len_nonneg t).
  assert (E1 : sat_u64 (seq + 1) = seq + 1) by (widths; lia).
  assert (E2 : sat_u64 (k + 1) = k + 1) by (widths; lia). rewrite E1, E2. split.
  - intros H1. apply bind_Ok in H1 as (e' & Ev & H1).
    pose proof (validated_entry_id _ _ Ev) as ->.
    destruct (Z.eqb_spec (en_seq e) seq) as [<-|]; [|done]. cbn [negb] in H1.
    case_bool_decide as Ep; [|done]. cbn [negb] in H1. subst prev.
    apply IH in H1 as [Hl ->]; [|lia..]. split; [by constructor|lia].
  - intros [Hl ->]. inversion Hl; subst.
    rewrite (ltac:(eassumption) : validated_entry e = Ok e). cbn [mbind result_bind].
    rewrite Z.eqb_refl, bool_decide_eq_true_2 by done. cbn [negb].
    apply IH; [lia..|]. split; [done|lia].
Qed.

Lemma verify_structure_exact t :
  len t < i64_max ->
  verify_structure t = Ok (len t) <-> linked 1 GENESIS_PREV_HASH t.
Proof.
  intros Hl. unfold verify_structure.
  rewrite verify_structure_linked by (unfold MAX_AUDIT_RECORDS in *; widths; lia). naive_solver lia.
Qed.

(** * Appending to a linked table *)

Abbreviation sound t := (linked 1 GENESIS_PREV_HASH t).

Lemma read_head_sound t : sound t -> read_head t = Ok (head_of (last t)).
Proof.
  intros Ht. unfold read_head, validated_option. destruct (last t) as [e|] eqn:E; [|done].
  apply last_Some in E as [t' ->]. apply linked_snoc in Ht as (_ & -> & _). done.
Qed.

Lemma next_position_sound t :
  sound t -> len t < i64_max ->
  next_position (head_of (last t)) = (len t + 1, from_option row_hash GENESIS_PREV_HASH (last t)).
Proof.
  intros Ht Hl. destruct (last t) as [e|] eqn:E.
  - apply last_Some in E as [t' ->]. apply linked_snoc in Ht as (_ & _ & Hs & _). cbn.
    rewrite Hs, len_app in *. change (len [e]) with 1 in *. f_equal.
    pose proof (len_nonneg t'). widths. lia.
  - apply last_None in E as ->. done.
Qed.

Lemma validated_append seq r :
  validate_append r = Ok tt -> 1 <= seq <= u64_max -> validated_entry (mkEntry seq r) = Ok (mkEntry seq r).
Proof.
  intros H Hs. unfold validate_append in H.
  repeat (apply bind_Ok in H as ([] & ? & H)).
  destruct (bool_decide (ap_body r = []) || (MAX_BODY_BYTES <? len (ap_body r))) eqn:Eb; [done|].
  unfold validated_entry. cbn [en_seq en_data]. rewrite (proj2 (check_u64_Some seq seq)) by (split; [done|widths; lia]).
  cbn [ok_or mbind result_bind]. rewrite (proj2 (Z.eqb_neq seq 0)), Eb by lia.
  unfold checked. repeat match goal with H : _ = Ok tt |- _ => rewrite H; clear H end. done.
Qed.

Lemma differing_None d r :
  ap_record_id d = ap_record_id r -> differing_field d r = None -> d = r.
Proof.
  unfold differing_field. intros Hid H.
  repeat (case_bool_decide; cbn [negb] in H; [|done]). destruct d, r; cbn in *; congruence.
Qed.

Lemma differing_refl r : differing_field r r = None.
Proof. unfold differing_field. by rewrite !bool_decide_eq_true_2. Qed.

(** What an append may do. *)
Inductive appended (capacity : Z) (r : AuditAppend) (t : Table) : Chained AuditReceipt * Table -> Prop :=
| appended_new :
    validate_append r = Ok tt -> len t < capacity ->
    Forall (fun e => ap_record_id (en_data e) <> ap_record_id r) t ->
    ap_prev_hash r = from_option row_hash GENESIS_PREV_HASH (last t) ->
    appended capacity r t (Ok (mkReceipt (len t + 1) Recorded), t ++ [mkEntry (len t + 1) r])
| appended_replay e :
    validate_append r = Ok tt -> e ∈ t -> en_data e = r ->
    appended capacity r t (Ok (mkReceipt (en_seq e) AlreadyRecorded), t)
| appended_refused err : appended capacity r t (Err err, t).

Lemma find_row_valid t (p : AuditEntry -> bool) :
  sound t -> validated_option (List.find p t) = Ok (List.find p t).
Proof.
  intros Ht. destruct (List.find p t) as [e|] eqn:E; [|done]. apply List.find_some in E as [E _].
  apply list_elem_of_In in E. cbn. by rewrite (linked_valid _ _ _ _ Ht E).
Qed.

Lemma append_cases capacity r t :
  sound t -> len t < i64_max -> capacity <= MAX_AUDIT_RECORDS ->
  appended capacity r t (append capacity r t).
Proof.
  intros Ht Hl Hc. unfold append, append_body.
  destruct (validate_append r) as [[]|] eqn:Ev; [|constructor]. cbn [mbind result_bind].
  unfold read_entry_by_record_id. rewrite find_row_valid by done. cbn [mbind result_bind].
  destruct (List.find _ t) as [e|] eqn:Ef.
  - apply List.find_some in Ef as [He Hid]. apply bool_decide_eq_true in Hid.
    unfold replay_or_conflict. destruct (differing_field (en_data e) r) as [f|] eqn:Ed; [constructor|].
    cbn [mbind result_bind]. apply differing_None in Ed; [|done].
    apply appended_replay; [done|by apply list_elem_of_In|done].
  - apply find_None_iff in Ef. rewrite read_head_sound by done. cbn [mbind result_bind].
    rewrite next_position_sound by done.
    case_bool_decide as Ep; cbn [negb]; [|constructor].
    unfold count_records. cbn [mbind result_bind]. destruct (Z.leb_spec capacity (len t)); [constructor|].
    unfold db_u64. rewrite (proj2 (check_i64_Some (len t + 1) (len t + 1))).
    2: { split; [done|]. pose proof (len_nonneg t). unfold MAX_AUDIT_RECORDS in *. widths. lia. }
    cbn [ok_or mbind result_bind]. destruct (existsb _ t); [constructor|].
    apply appended_new; [done|lia| |done].
    eapply Forall_impl; [exact Ef|]. intros e He. by apply bool_decide_eq_false in He.
Qed.

(** Appending keeps the table linked and only ever adds to its end. *)
Lemma appended_sound capacity r t res :
  sound t -> len t < i64_max -> capacity <= MAX_AUDIT_RECORDS -> appended capacity r t res ->
  sound (snd res) /\ len (snd res) < i64_max /\ exists more, snd res = t ++ more.
Proof.
  intros Ht Hl Hc []; cbn [snd].
  - pose proof (len_nonneg t). split; [|split].
    + apply linked_snoc. split_and!; [done| |cbn; lia|done].
      apply validated_append; [done|]. unfold MAX_AUDIT_RECORDS in *. widths. lia.
    + rewrite len_app. change (len [mkEntry (len t + 1) r]) with 1. unfold MAX_AUDIT_RECORDS in *. widths. lia.
    + by eexists.
  - split_and!; [done..|]. exists []. by rewrite app_nil_r.
  - split_and!; [done..|]. exists []. by rewrite app_nil_r.
Qed.

Definition append_all (capacity : Z) (rs : list AuditAppend) (t : Table) : Table :=
  fold_left (fun t r => snd (append capacity r t)) rs t.

Lemma append_all_sound capacity rs t :
  sound t -> len t < i64_max -> capacity <= MAX_AUDIT_RECORDS ->
  sound (append_all capacity rs t) /\ len (append_all capacity rs t) < i64_max /\
  exists more, append_all capacity rs t = t ++ more.
Proof.
  revert t. induction rs as [|r rs IH]; intros t Ht Hl Hc.
  { split_and!; [done..|]. exists []. by rewrite app_nil_r. }
  destruct (appended_sound capacity r t _ Ht Hl Hc (append_cases capacity r t Ht Hl Hc)) as (Ht' & Hl' & m & Em).
  destruct (IH _ Ht' Hl' Hc) as (Ht'' & Hl'' & m' & Em'). cbn [append_all fold_left].
  unfold append_all in *. rewrite Em', Em, <- app_assoc in *. eauto.
Qed.

(** An exact replay is answered with its position however the chain grew. *)
Lemma append_replay capacity r t seq more :
  sound (t ++ mkEntry seq r :: more) -> validate_append r = Ok tt ->
  Forall (fun e => ap_record_id (en_data e) <> ap_record_id r) t ->
  append capacity r (t ++ mkEntry seq r :: more) =
  (Ok (mkReceipt seq AlreadyRecorded), t ++ mkEntry seq r :: more).
Proof.
  intros Ht Hv Hf. unfold append, append_body. rewrite Hv. cbn [mbind result_bind].
  unfold read_entry_by_record_id. rewrite find_row_valid by done. cbn [mbind result_bind].
  rewrite find_app, (proj2 (find_None_iff _ t)).
  2: { eapply Forall_impl; [exact Hf|]. intros e He. by apply bool_decide_eq_false. }
  cbn [List.find en_data]. rewrite bool_decide_eq_true_2 by done.
  unfold replay_or_conflict. cbn [en_data]. by rewrite differing_refl.
Qed.

(** * What the daemon writes *)

Lemma zero_padded_scalars w n : 0 <= n -> scalars (zero_padded w n) = true.
Proof.
  intros Hn. unfold scalars, zero_padded, dec. rewrite (proj2 (Z.ltb_ge n 0)) by lia.
  rewrite forallb_app, andb_true_iff. split.
  - apply forallb_forall. intros x Hx. apply list_elem_of_In, elem_of_replicate in Hx as [-> _]. done.
  - destruct (dec_nat_spec n Hn) as [Hd _]. apply forallb_forall. intros x Hx.
    apply list_elem_of_In in Hx. rewrite Forall_forall in Hd. specialize (Hd x Hx).
    unfold is_ascii_digit, in_range in Hd. unfold is_scalar. bool_prop. lia.
Qed.

Lemma utc_scalars ms t : utc_rfc3339_from_unix_millis ms = Some t -> scalars t = true.
Proof.
  intros (y & m & d & h & mi & s & f & M & _ & ->)%utc_Some.
  pose proof (moment_fields _ _ _ _ _ _ _ M) as (Hy & Hm & Hd).
  destruct (moment_time _ _ _ _ _ _ _ M) as (Hh & Hmi & Hs & Hf).
  assert (Hcons : forall x t, is_scalar x = true -> scalars t = true -> scalars (x :: t) = true)
    by (intros x t E1 E2; unfold scalars; cbn [forallb]; by rewrite E1).
  assert (Happ : forall t u, scalars t = true -> scalars u = true -> scalars (t ++ u) = true)
    by (intros t u E1 E2; unfold scalars; rewrite forallb_app; by rewrite andb_true_iff).
  unfold rfc3339. repeat first [apply Happ; [apply zero_padded_scalars; lia|] | apply Hcons; [done|]]. done.
Qed.

(** The row of a record, and the link a verifier reads from a row. *)
Definition entry_of (r : AuditRecord) : AuditEntry := mkEntry (rec_seq r) (append_of r).
Definition link_of_entry (e : AuditEntry) : AuditLink :=
  mkLink (en_seq e) (ap_record_id (en_data e)) (ap_body (en_data e)) (ap_prev_hash (en_data e))
    (ap_record_hash (en_data e)).

Lemma link_of_entry_of r : link_of_entry (entry_of r) = link_of r.
Proof. reflexivity. Qed.

(** Hashes are strings of characters. *)
Lemma record_hash_scalars r : scalars (record_hash r) = true.
Proof.
  unfold record_hash, scalars. apply forallb_forall. intros x Hx. apply list_elem_of_In in Hx.
  pose proof (ascii_scalar _ (to_hex_ascii _ (digest_bytes (record_bytes r)))) as H.
  rewrite Forall_forall in H. by apply H.
Qed.

Lemma head_scalars rs :
  scalars (from_option row_hash GENESIS_PREV_HASH (last (entry_of <$> rs))) = true.
Proof. rewrite fmap_last. destruct (last rs) as [r|]; [apply record_hash_scalars|by vm_compute]. Qed.

(** Every row is the row of a record, and the records form a chain. *)
Definition written (t : Table) : Prop :=
  sound t /\ len t < i64_max /\
  exists rs, t = entry_of <$> rs /\ chained 1 GENESIS_PREV_HASH rs.

Lemma chained_add seq prev rs r :
  chained seq prev rs -> record_ok r -> rec_seq r = seq + len rs ->
  rec_prev_hash r = from_option record_hash prev (last rs) -> chained seq prev (rs ++ [r]).
Proof.
  intros H. revert r. induction H as [seq prev|x rs Hx H IH]; intros r Hr Hs Hp.
  - rewrite len_nil, Z.add_0_r in Hs. cbn in Hp. subst. constructor; [done|constructor].
  - cbn [app]. constructor; [done|]. rewrite len_cons, last_cons in *. apply IH; [done|lia|].
    rewrite Hp. destruct (last rs); reflexivity.
Qed.

Lemma write_record_written capacity actor surface category subject outcome now t :
  capacity <= MAX_AUDIT_RECORDS ->
  scalars actor = true -> scalars surface = true -> scalars subject = true ->
  written t ->
  written (write_record capacity actor surface category subject outcome now t) /\
  exists more, write_record capacity actor surface category subject outcome now t = t ++ more.
Proof.
  intros Hc Sa Ss Sb Hw. pose proof Hw as (Ht & Hl & rs & Et & Hch).
  assert (Hsame : written t /\ exists more, t = t ++ more) by (split; [done|exists []; by rewrite app_nil_r]).
  unfold write_record. rewrite read_head_sound by done.
  destruct (utc_rfc3339_from_unix_millis now) as [at_|] eqn:Ec; [|done].
  rewrite next_position_sound by done.
  destruct (record_link _ _ _) as [r|] eqn:Er; [|done].
  pose proof (append_cases capacity (append_of r) t Ht Hl Hc) as Hap.
  pose proof (appended_sound _ _ _ _ Ht Hl Hc Hap) as (Ht' & Hl' & Hmore).
  split; [|done]. split; [done|]. split; [done|]. clear Ht' Hl' Hmore.
  pose proof (record_link_Ok _ _ _ _ Er) as (Hseq & Hprev & Hev & _ & _ & Hh & _).
  inversion Hap as [Hv Hcap Hnew Hp E|e Hv He Hd E|err E]; [|by exists rs..]. cbn [snd].
  exists (rs ++ [r]). rewrite fmap_app, <- Et. split.
  - unfold entry_of. by rewrite <- Hseq.
  - apply chained_add; [done| | |].
    + unfold record_ok. rewrite Hseq, Hprev, Hev. split; [done|]. split.
      * unfold event_of in Hev. injection Hev as -> -> -> _ -> _.
        rewrite (utc_scalars _ _ Ec), Sa, Ss, Sb, Et. apply head_scalars.
      * pose proof (len_nonneg t). lia.
    + rewrite Hseq, Et. unfold len. rewrite length_fmap. lia.
    + rewrite Hprev, Et, fmap_last. destruct (last rs); reflexivity.
Qed.

Inductive AuditCall :=
| CApproval (subject actor surface : list Z) (outcome : AuditOutcome) (now_ms : Z)
| CCancellation (run_id : list Z) (outcome : CancelRunOutcome) (now_ms : Z).

Definition audit_call (capacity : Z) (c : AuditCall) (t : Table) : Table :=
  match c with
  | CApproval subject actor surface outcome now => append_approval_record capacity subject actor surface outcome now t
  | CCancellation run outcome now => record_cancellation_audit capacity run outcome now t
  end.

Definition audit_run (capacity : Z) (cs : list AuditCall) (t : Table) : Table :=
  fold_left (fun t c => audit_call capacity c t) cs t.

(** The strings of a call are strings of characters. *)
Definition call_text (c : AuditCall) : bool :=
  match c with
  | CApproval subject actor surface _ _ => scalars subject && scalars actor && scalars surface
  | CCancellation run _ _ => scalars run
  end.

Lemma audit_call_written capacity c t :
  capacity <= MAX_AUDIT_RECORDS -> call_text c = true -> written t ->
  written (audit_call capacity c t) /\ exists more, audit_call capacity c t = t ++ more.
Proof.
  intros Hc Htx Hw. destruct c as [subject actor surface o now|run o now]; cbn [call_text audit_call] in *.
  - rewrite !andb_true_iff in Htx. destruct Htx as [[? ?] ?]. by apply write_record_written.
  - by apply write_record_written.
Qed.

Lemma audit_run_written capacity cs t :
  capacity <= MAX_AUDIT_RECORDS -> forallb call_text cs = true -> written t ->
  written (audit_run capacity cs t) /\ exists more, audit_run capacity cs t = t ++ more.
Proof.
  intros Hc. revert t. induction cs as [|c cs IH]; intros t Htx Hw.
  { split; [done|]. exists []. by rewrite app_nil_r. }
  cbn [forallb] in Htx. apply andb_true_iff in Htx as [H1 H2].
  destruct (audit_call_written capacity c t Hc H1 Hw) as [Hw' [m Em]].
  destruct (IH _ H2 Hw') as [Hw'' [m' Em']]. cbn [audit_run fold_left].
  split; [exact Hw''|]. exists (m ++ m'). unfold audit_run in Em'. rewrite Em', Em. by rewrite app_assoc.
Qed.

Lemma written_empty : written [].
Proof. split; [constructor|]. split; [by vm_compute|]. exists []. split; [done|constructor]. Qed.

Lemma written_verifies t :
  written t -> verify_structure t = Ok (len t) /\ verify_chain (link_of_entry <$> t) = Ok (len t).
Proof.
  intros (Ht & Hl & rs & -> & Hc). split; [by apply verify_structure_exact; [lia|]|].
  unfold verify_chain. apply verify_from_exact; [by vm_compute|done|done|].
  exists rs. split; [done|]. rewrite <- list_fmap_compose. unfold len. rewrite length_fmap. split; [done|lia].
Qed.

(** * Paging *)

Lemma validated_entries_sound seq prev t es :
  linked seq prev t -> (forall e, e ∈ es -> e ∈ t) -> validated_entries es = Ok es.
Proof.
  intros Ht. induction es as [|e es IH]; intros Hin; [done|]. cbn [validated_entries].
  rewrite (linked_valid _ _ _ e Ht) by (apply Hin; left). cbn [mbind result_bind].
  rewrite IH; [done|]. intros x Hx. apply Hin. by right.
Qed.

(** The rows after a cursor are the rest of the table. *)
Lemma filter_after seq prev t cursor :
  linked seq prev t -> seq - 1 <= cursor <= seq - 1 + len t ->
  List.filter (fun e => cursor <? en_seq e) t = drop (Z.to_nat (cursor - (seq - 1))) t.
Proof.
  intros H. revert cursor. induction H as [seq prev|e t Hv H IH]; intros cursor Hc.
  { by rewrite drop_nil. }
  rewrite len_cons in Hc. cbn [List.filter].
  destruct (Z.ltb_spec cursor (en_seq e)) as [Hlt|Hge].
  - replace (Z.to_nat (cursor - (en_seq e - 1))) with O by lia. rewrite drop_0. f_equal.
    clear - H Hlt. revert Hlt. generalize dependent (ap_record_hash (en_data e)). intros prev H Hlt.
    assert (Hall : forall s p u, linked s p u -> cursor < s -> List.filter (fun e => cursor <? en_seq e) u = u).
    { clear. induction 1 as [|x u Hx Hu IHu]; intros Hlt; [done|]. cbn [List.filter].
      rewrite (proj2 (Z.ltb_lt _ _) Hlt). f_equal. apply IHu. lia. }
    apply (Hall _ _ _ H). lia.
  - rewrite IH by lia. replace (Z.to_nat (cursor - (en_seq e - 1)))
      with (S (Z.to_nat (cursor - (en_seq e + 1 - 1)))) by lia. done.
Qed.

Lemma linked_highest seq prev t : 1 <= seq -> linked seq prev t -> t <> [] -> highest_seq t = seq - 1 + len t.
Proof.
  intros Hs H. revert Hs. induction H as [|e t Hv H IH]; intros Hs Hne; [done|].
  unfold highest_seq in *. rewrite fmap_cons. cbn [foldr]. rewrite len_cons.
  destruct t as [|x t]; [change (Z.max (en_seq e) 0 = en_seq e - 1 + (1 + 0)); lia|]. rewrite IH by (done || lia). pose proof (len_nonneg (x :: t)). lia.
Qed.

Lemma linked_lookup seq prev t i e :
  linked seq prev t -> t !! i = Some e -> en_seq e = seq + Z.of_nat i.
Proof.
  intros H. revert i. induction H as [|x t Hv H IH]; intros [|i] Hi; [done..|by simplify_eq/=; lia|].
  apply IH in Hi. lia.
Qed.

(** A page of a linked table, from a cursor within it. *)
Lemma page_sound cursor limit t :
  sound t -> len t < i64_max -> 0 <= cursor <= len t -> 1 <= limit <= MAX_AUDIT_PAGE ->
  page cursor limit t =
  Ok (mkPage (take (Z.to_nat limit) (drop (Z.to_nat cursor) t))
        (if cursor + limit <? len t then Some (cursor + limit) else None)).
Proof.
  intros Ht Hl Hc Hlim. unfold page, MAX_AUDIT_PAGE, MAX_AUDIT_RECORDS in *.
  rewrite (proj2 (Z.eqb_neq limit 0)), (proj2 (Z.ltb_ge 256 limit)) by lia. cbn [orb].
  unfold db_u64. rewrite (proj2 (check_i64_Some cursor cursor)) by (split; [done|widths; lia]).
  cbn [ok_or mbind result_bind].
  rewrite (proj2 (check_i64_Some (limit + 1) (limit + 1))) by (split; [done|widths; lia]).
  cbn [ok_or mbind result_bind].
  assert (Hhigh : highest_seq t = len t).
  { destruct t as [|e t]; [done|]. rewrite (linked_highest 1 _ _ ltac:(lia) Ht) by done. lia. }
  rewrite Hhigh, (proj2 (check_u64_Some (len t) (len t))) by (split; [done|widths; lia]).
  cbn [ok_or mbind result_bind]. rewrite (proj2 (Z.ltb_ge (len t) cursor)) by lia.
  rewrite (filter_after 1 _ t cursor Ht) by lia.
  replace (cursor - (1 - 1)) with cursor by lia. set (rest := drop (Z.to_nat cursor) t).
  assert (Hrest : len rest = len t - cursor) by (unfold rest, len in *; rewrite length_drop; lia).
  rewrite (validated_entries_sound 1 GENESIS_PREV_HASH t); [|done|].
  2: { intros e He. apply elem_of_take in He as (i & Hi & _). unfold rest in Hi.
       rewrite lookup_drop in Hi. by apply list_elem_of_lookup_2 in Hi. }
  cbn [mbind result_bind].
  destruct (Z.ltb_spec limit (len (take (Z.to_nat (limit + 1)) rest))) as [Hlt|Hge];
    unfold len in *; rewrite length_take in *.
  - rewrite (proj2 (Z.ltb_lt (cursor + limit) _)) by lia.
    rewrite take_take, Nat.min_l by lia.
    destruct (lookup_lt_is_Some_2 rest (Z.to_nat limit - 1)) as [e He]; [lia|].
    assert (Elast : last (take (Z.to_nat limit) rest) = Some e).
    { rewrite last_lookup, length_take, Nat.min_l by lia. rewrite lookup_take_lt by lia.
      by replace (pred (Z.to_nat limit)) with (Z.to_nat limit - 1)%nat by lia. }
    rewrite Elast. cbn [ok_or mbind result_bind]. do 3 f_equal.
    unfold rest in He. rewrite lookup_drop in He. rewrite (linked_lookup _ _ _ _ _ Ht He). lia.
  - rewrite (proj2 (Z.ltb_ge (cursor + limit) _)) by lia. do 2 f_equal.
    rewrite !take_ge by lia. done.
Qed.

(** Following the cursors from the start. *)
Fixpoint walk (fuel : nat) (cursor limit : Z) (t : Table) : option (Chained (list AuditEntry)) :=
  match fuel with
  | O => None
  | S fuel =>
      match page cursor limit t with
      | Err e => Some (Err e)
      | Ok p =>
          match page_next_cursor p with
          | None => Some (Ok (page_entries p))
          | Some next =>
              match walk fuel next limit t with
              | Some (Ok es) => Some (Ok (page_entries p ++ es))
              | other => other
              end
          end
      end
  end.

Lemma walk_rest fuel cursor limit t :
  sound t -> len t < i64_max -> 0 <= cursor <= len t -> 1 <= limit <= MAX_AUDIT_PAGE ->
  len t - cursor < Z.of_nat fuel -> walk fuel cursor limit t = Some (Ok (drop (Z.to_nat cursor) t)).
Proof.
  intros Ht Hl Hc Hlim. revert cursor Hc. induction fuel as [|fuel IH]; intros cursor Hc Hf; [lia|].
  cbn [walk]. rewrite page_sound by done. cbn [page_next_cursor page_entries].
  destruct (Z.ltb_spec (cursor + limit) (len t)) as [Hlt|Hge].
  - rewrite IH by lia. do 2 f_equal. rewrite Z2Nat.inj_add by lia. rewrite <- drop_drop. apply take_drop.
  - do 2 f_equal. apply take_ge. unfold len in *. rewrite length_drop. lia.
Qed.

(** A valid, fresh record that names the head is recorded while there is room. *)
Lemma append_accepts capacity r t :
  sound t -> len t < i64_max -> validate_append r = Ok tt -> len t < capacity ->
  Forall (fun e => (ap_record_id (en_data e) <> ap_record_id r) /\ (row_hash e <> ap_record_hash r)) t ->
  ap_prev_hash r = from_option row_hash GENESIS_PREV_HASH (last t) ->
  append capacity r t = (Ok (mkReceipt (len t + 1) Recorded), t ++ [mkEntry (len t + 1) r]).
Proof.
  intros Ht Hl Hv Hc Hf Hp. unfold append, append_body. rewrite Hv. cbn [mbind result_bind].
  unfold read_entry_by_record_id. rewrite find_row_valid by done. cbn [mbind result_bind].
  rewrite (proj2 (find_None_iff _ t)).
  2: { eapply Forall_impl; [exact Hf|]. intros e [He _]. by apply bool_decide_eq_false. }
  rewrite read_head_sound by done. cbn [mbind result_bind]. rewrite next_position_sound by done.
  rewrite bool_decide_eq_true_2 by done. cbn [negb]. unfold count_records. cbn [mbind result_bind].
  rewrite (proj2 (Z.leb_gt capacity (len t))) by lia. unfold db_u64.
  rewrite (proj2 (check_i64_Some (len t + 1) (len t + 1))).
  2: { split; [done|]. pose proof (len_nonneg t). unfold MAX_AUDIT_RECORDS in *. widths. lia. }
  cbn [ok_or mbind result_bind].
  assert (E : existsb (fun e => bool_decide (ap_record_hash (en_data e) = ap_record_hash r)) t = false).
  { apply not_true_iff_false. intros (e & He & Eh)%existsb_exists. apply list_elem_of_In in He.
    apply bool_decide_eq_true in Eh. rewrite Forall_forall in Hf. by destruct (Hf e He) as [_ []]. }
  by rewrite E.
Qed.

(** Rows that store the links of a chain are linked. *)
Lemma chained_rows seq prev rs t :
  chained seq prev rs -> link_of_entry <$> t = link_of <$> rs ->
  Forall (fun e => validated_entry e = Ok e) t -> linked seq prev t.
Proof.
  intros H. revert t. induction H as [seq prev|r rs Hr H IH]; intros [|e t] E Hv; try done.
  { constructor. }
  rewrite !fmap_cons in E. apply cons_inv in E as [E Et]. apply Forall_cons in Hv as [Hv Hvt].
  pose proof (f_equal link_seq E) as E1. pose proof (f_equal link_prev_hash E) as E2.
  pose proof (f_equal link_record_hash E) as E3.
  change (en_seq e = rec_seq r) in E1. change (ap_prev_hash (en_data e) = rec_prev_hash r) in E2.
  change (ap_record_hash (en_data e) = record_hash r) in E3.
  rewrite <- E1, <- E2. constructor; [done|]. rewrite E1, E3. by apply IH.
Qed.

(** * [automonique audit verify] *)

Inductive AuditCliError := CliStore (e : AuditChainError) | CliBroken (e : AuditChainError + ChainBreak).

Definition broken_or_store (e : AuditChainError) : AuditCliError :=
  match e with Corrupt _ => CliBroken (inl e) | _ => CliStore e end.

(** One page per unit of fuel; a table is read with one unit per row and one more. *)
Definition read_all (t : Table) : option (result AuditCliError Table) :=
  map_err broken_or_store <$> walk (S (length t)) 0 MAX_AUDIT_PAGE t.

(** The verdict: records verified, rows checked, and the head hash. *)
Record Verdict := mkVerdict { vd_records : Z; vd_structure : Z; vd_head : option (list Z) }.

Definition verify_verb (t : Table) : option (result AuditCliError Verdict) :=
  match verify_structure t with
  | Err e => Some (Err (broken_or_store e))
  | Ok structural =>
      match read_all t with
      | None => None
      | Some (Err e) => Some (Err e)
      | Some (Ok entries) =>
          match verify_chain (link_of_entry <$> entries) with
          | Err b => Some (Err (CliBroken (inr b)))
          | Ok verified =>
              Some (Ok (mkVerdict verified structural (row_hash <$> last entries)))
          end
      end
  end.

Lemma read_all_sound t : sound t -> len t < i64_max -> read_all t = Some (Ok t).
Proof.
  intros Ht Hl. unfold read_all.
  rewrite (walk_rest (S (length t)) 0 MAX_AUDIT_PAGE t Ht Hl); [done|unfold len; lia|by vm_compute|unfold len; lia].
Qed.

Lemma verify_structure_count t n :
  len t < i64_max -> verify_structure t = Ok n -> sound t /\ n = len t.
Proof.
  intros Hl H. unfold verify_structure in H. apply verify_structure_linked in H; [|widths; lia..].
  destruct H as [Hs ->]. split; [done|lia].
Qed.

(** * Properties *)

(** Appending is exact, append-only and idempotent.  On a table whose
    structure verifies, an append leaves a table whose structure verifies; it
    either adds exactly the presented record at the next position, linked to
    the head, or reports the position of the identical record already there,
    or changes nothing.  Once recorded, presenting the same record again is
    answered with its position and changes nothing, however the chain has
    grown since; and a valid record with a fresh identifier and hash that
    names the head is recorded while there is room. *)
Theorem append_exact capacity r t :
  verify_structure t = Ok (len t) -> len t < i64_max -> capacity <= MAX_AUDIT_RECORDS ->
  (let '(res, t') := append capacity r t in
   verify_structure t' = Ok (len t') /\
   match res with
   | Ok (mkReceipt seq Recorded) =>
       t' = t ++ [mkEntry seq r] /\ seq = len t + 1 /\
       ap_prev_hash r = from_option row_hash GENESIS_PREV_HASH (last t) /\
       forall rs, append capacity r (append_all capacity rs t') =
                  (Ok (mkReceipt seq AlreadyRecorded), append_all capacity rs t')
   | Ok (mkReceipt seq AlreadyRecorded) => t' = t /\ mkEntry seq r ∈ t
   | Err _ => t' = t
   end) /\
  (validate_append r = Ok tt -> len t < capacity ->
   Forall (fun e => (ap_record_id (en_data e) <> ap_record_id r) /\ (row_hash e <> ap_record_hash r)) t ->
   ap_prev_hash r = from_option row_hash GENESIS_PREV_HASH (last t) ->
   (append capacity r t).1 = Ok (mkReceipt (len t + 1) Recorded)).
Proof.
  intros Ht Hl Hc. apply verify_structure_exact in Ht; [|lia]. split.
  2: { intros. by rewrite append_accepts. }
  pose proof (append_cases capacity r t Ht Hl Hc) as Hap.
  pose proof (appended_sound _ _ _ _ Ht Hl Hc Hap) as (Ht' & Hl' & _).
  destruct (append capacity r t) as [res t'] eqn:Ea. cbn [snd] in *.
  split; [apply verify_structure_exact; [lia|done]|].
  inversion Hap as [Hv Hcap Hnew Hp E|e Hv He Hd E|err E]; subst; [|destruct e; done|done].
  split_and!; [done..|]. intros rs.
  destruct (append_all_sound capacity rs _ Ht' Hl' Hc) as (Ht'' & _ & more & Em).
  rewrite Em in *. rewrite <- app_assoc in *. by apply append_replay.
Qed.

Lemma append_exact_witness :
  (append 10 (append_of demo_first) []).1 = Ok (mkReceipt 1 Recorded).
Proof.
  destruct (append_exact 10 (append_of demo_first) []) as [_ H];
    [reflexivity|vm_compute; congruence|vm_compute; congruence|].
  apply H; [vm_compute; reflexivity|vm_compute; reflexivity|apply Forall_nil_2|reflexivity].
Defined.

(** C10: what the daemon writes always verifies.  After any sequence of approval
    and cancellation records, with any subjects, actors, outcomes and clocks
    (out-of-range times and over-long or malformed fields included), into an
    empty chain of any capacity, both halves of the verification succeed on
    every row: the structural walk and the recomputation of every hash,
    identifier and link.  Earlier rows are never changed by later calls. *)
Theorem daemon_chain_verifies capacity cs more :
  capacity <= MAX_AUDIT_RECORDS -> forallb call_text (cs ++ more) = true ->
  let t := audit_run capacity cs [] in
  verify_structure t = Ok (len t) /\ verify_chain (link_of_entry <$> t) = Ok (len t) /\
  exists later, audit_run capacity (cs ++ more) [] = t ++ later.
Proof.
  intros Hc Htx. rewrite forallb_app, andb_true_iff in Htx. destruct Htx as [H1 H2]. cbv zeta.
  destruct (audit_run_written capacity cs [] Hc H1 written_empty) as [Hw _].
  destruct (written_verifies _ Hw) as [Hs Hv]. split; [done|]. split; [done|].
  unfold audit_run. rewrite fold_left_app. exact (proj2 (audit_run_written capacity more _ Hc H2 Hw)).
Qed.

Definition demo_calls : list AuditCall :=
  [CApproval (str "run-1") (str "operator") (str "cli") Success 1000;
   CApproval (str "run-2") [] (str "cli") Success 2000;
   CCancellation (str "run-1") CancelConflict 3000].

(** The second call is refused for its empty actor, the others are recorded. *)
Lemma daemon_chain_verifies_witness :
  len (audit_run 10 demo_calls []) = 2 /\
  verify_chain (link_of_entry <$> audit_run 10 demo_calls []) = Ok (len (audit_run 10 demo_calls [])).
Proof.
  split; [vm_compute; reflexivity|].
  destruct (daemon_chain_verifies 10 demo_calls []) as (_ & H & _);
    [vm_compute; congruence|vm_compute; reflexivity|]. exact H.
Defined.

(** C8: the verification verb decides integrity, and always answers.  On a table
    of any rows, whatever was done to them, the verb ends with a verdict or a
    finding, and the verdict is intact precisely when every row passes its
    checks and the rows' bodies, identifiers, hashes and links are those of a
    chain of records numbered from one and rooted in the genesis hash; the
    verdict then counts every row and names the last hash. *)
Theorem verify_verb_exact t v :
  len t < i64_max ->
  (exists answer, verify_verb t = Some answer) /\
  (verify_verb t = Some (Ok v) <->
   Forall (fun e => validated_entry e = Ok e) t /\
   (exists rs, chained 1 GENESIS_PREV_HASH rs /\ link_of_entry <$> t = link_of <$> rs) /\
   v = mkVerdict (len t) (len t) (row_hash <$> last t)).
Proof.
  intros Hl. unfold verify_verb. destruct (verify_structure t) as [n|e] eqn:Es.
  - destruct (verify_structure_count t n Hl Es) as [Ht ->]. rewrite read_all_sound by done.
    assert (Hval : Forall (fun e => validated_entry e = Ok e) t).
    { apply Forall_forall. intros e He. exact (linked_valid _ _ _ _ Ht He). }
    destruct (verify_chain (link_of_entry <$> t)) as [m|b] eqn:Ec.
    + apply verify_from_exact in Ec as (rs & Hc & El & ->); [|by vm_compute|done|done].
      assert (len rs = len t) as ->.
      { unfold len. rewrite <- (length_fmap link_of rs), <- El. by rewrite length_fmap. }
      rewrite Z.add_0_l. split; [by eexists|]. split; [intros [= <-]; eauto|by intros (_ & _ & ->)].
    + split; [by eexists|]. split; [done|]. intros (_ & (rs & Hc & El) & _). exfalso.
      assert (Ec' : verify_chain (link_of_entry <$> t) = Ok (0 + len rs))
        by (apply verify_from_exact; [by vm_compute|done|done|eauto]). congruence.
  - split; [by eexists|]. split; [done|]. intros (Hval & (rs & Hc & El) & _). exfalso.
    assert (Hs : sound t) by (by apply (chained_rows _ _ rs)).
    apply verify_structure_exact in Hs; [congruence|done].
Qed.

Lemma verify_verb_exact_witness :
  exists answer, verify_verb (audit_run 10 demo_calls []) = Some answer.
Proof.
  destruct (verify_verb_exact (audit_run 10 demo_calls []) (mkVerdict 0 0 None)) as [H _];
    [vm_compute; reflexivity|]. exact H.
Defined.
