(* ===== verification/Values.v ===== *)
(** Bounded values, instants and revisions: [automonique-protocol/src/primitives.rs].

    An [EpochMillis] is the [i64] it wraps, a [Revision] the [NonZeroU64]; the
    checked operations answer an error where the width ends. *)

From S2P Require Import Prelude Text Codec.

(** * Bounded text *)

Definition value_category (e : ValueError) : string :=
  match e with
  | ZeroBound => "zero_bound"
  | VEmpty => "empty"
  | TooLong _ _ => "too_long"
  | ControlCharacter => "control_character"
  end.

(** [OpaqueId::new]; the domain is a phantom type. *)
Definition opaque_id_new (max_bytes : Z) (value : list Z) : result ValueError (list Z) :=
  _ ← bounded_value value max_bytes; Ok value.

(** [BoundedString::new]. *)
Definition bounded_string_new (max_bytes : Z) (value : list Z) : result ValueError (list Z) :=
  _ ← bounded_value value max_bytes; Ok value.

(** [SecretText]: the value and what [Debug] writes of it. *)
Record SecretText := mkSecret { expose_secret : list Z }.
Definition REDACTION : string := "<redacted>".
Definition secret_text_new (max_bytes : Z) (value : list Z) : result ValueError SecretText :=
  _ ← bounded_value value max_bytes; Ok (mkSecret value).
Definition secret_debug (s : SecretText) : string := REDACTION.

(** * Instants *)

Inductive TimeError := MillisecondOutOfRange | TimeOverflow.

Definition time_category (e : TimeError) : string :=
  match e with
  | MillisecondOutOfRange => "millisecond_out_of_range"
  | TimeOverflow => "overflow"
  end.

Definition EpochMillis := Z.
Definition EPOCH : EpochMillis := 0.

Definition from_parts (seconds millis : Z) : result TimeError EpochMillis :=
  if 999 <? millis then Err MillisecondOutOfRange
  else match check_i64 (seconds * 1000) with
       | Some scaled =>
           match check_i64 (scaled + millis) with
           | Some total => Ok total
           | None => Err TimeOverflow
           end
       | None => Err TimeOverflow
       end.

(** [div_euclid] and [rem_euclid] by a positive constant are [/] and [mod]. *)
Definition to_parts (t : EpochMillis) : Z * Z := (t / 1000, t mod 1000).

Definition checked_add_millis (t : EpochMillis) (delta : Z) : result TimeError EpochMillis :=
  ok_or (check_i64 (t + delta)) TimeOverflow.

Definition checked_difference_millis (t earlier : EpochMillis) : result TimeError Z :=
  ok_or (check_i64 (t - earlier)) TimeOverflow.

(** * Revisions *)

Inductive RevisionError := RevisionZero | RevisionOverflow.

Definition revision_category (e : RevisionError) : string :=
  match e with RevisionZero => "zero_revision" | RevisionOverflow => "overflow" end.

Definition Revision := Z.
Definition revision_FIRST : Revision := 1.

Definition revision_new (value : Z) : result RevisionError Revision :=
  if value =? 0 then Err RevisionZero else Ok value.

Definition checked_next (r : Revision) : result RevisionError Revision :=
  match check_u64 (r + 1) with Some next => Ok next | None => Err RevisionOverflow end.

(** What a [Revision] of the sources holds. *)
Definition revision_ok (r : Revision) : Prop := 1 <= r <= u64_max.

(** * Lemmas *)

Lemma bounded_value_Ok v max :
  bounded_value v max = Ok tt <->
    max <> 0 /\ v <> [] /\ str_len v <= max /\ existsb is_control v = false.
Proof.
  unfold bounded_value.
  repeat case_match; bool_prop; simplify_eq; split; intros; destruct_and?; try done; try lia;
    congruence.
Qed.

Lemma checked_next_cases r : revision_ok r ->
  (r < u64_max /\ checked_next r = Ok (r + 1)) \/
  (r = u64_max /\ checked_next r = Err RevisionOverflow).
Proof.
  unfold revision_ok, checked_next. intros Hr. destruct (check_u64 (r + 1)) as [n|] eqn:E.
  - apply check_u64_Some in E as [-> ?]. left. split; [mlia|done].
  - right. split; [|done]. unfold check_u64 in E. case_match; [done|]. mlia.
Qed.

Lemma from_parts_Ok s m v :
  from_parts s m = Ok v <->
    m <= 999 /\ in_i64 (s * 1000) /\ in_i64 (s * 1000 + m) /\ v = s * 1000 + m.
Proof.
  unfold from_parts. case_match; bool_prop; [split; [done|intros (?&_); lia]|].
  destruct (check_i64 (s * 1000)) as [k|] eqn:E1.
  - apply check_i64_Some in E1 as [-> ?].
    destruct (check_i64 (s * 1000 + m)) as [k|] eqn:E2.
    + apply check_i64_Some in E2 as [-> ?]. naive_solver.
    + split; [done|]. intros (?&?&Hi&?). by rewrite (proj2 (check_i64_Some _ _) (conj eq_refl Hi)) in E2.
  - split; [done|]. intros (?&Hi&?&?). by rewrite (proj2 (check_i64_Some _ _) (conj eq_refl Hi)) in E1.
Qed.

Lemma checked_add_Ok t d v :
  checked_add_millis t d = Ok v <-> v = t + d /\ in_i64 (t + d).
Proof. unfold checked_add_millis. by rewrite ok_or_Ok, check_i64_Some. Qed.

Lemma checked_difference_Ok t u d :
  checked_difference_millis t u = Ok d <-> d = t - u /\ in_i64 (t - u).
Proof. unfold checked_difference_millis. by rewrite ok_or_Ok, check_i64_Some. Qed.

(** Instants lose nothing and wrap nowhere: an instant splits into seconds
    and a remainder in [0..=999], and the parts rebuild it unless its whole
    second starts below the [i64] range; what is rebuilt from parts splits into
    the same parts; adding the difference of two instants to the earlier one
    gives the later; and addition and difference answer exactly when the true
    result fits the width. *)
Theorem instants_exact t u :
  in_i64 t -> in_i64 u ->
  (let (s, m) := to_parts t in
   0 <= m <= 999 /\ (i64_min <= s * 1000 <-> from_parts s m = Ok t)) /\
  (forall s m v, 0 <= m -> from_parts s m = Ok v -> to_parts v = (s, m) /\ in_i64 v) /\
  (forall d, checked_difference_millis t u = Ok d -> checked_add_millis u d = Ok t) /\
  (forall d v, checked_add_millis t d = Ok v <-> v = t + d /\ in_i64 v) /\
  (forall d, checked_difference_millis t u = Ok d <-> d = t - u /\ in_i64 d).
Proof.
  intros Ht Hu. unfold to_parts. split_and!.
  - Z.to_euclidean_division_equations. lia.
  - Z.to_euclidean_division_equations. lia.
  - rewrite from_parts_Ok. widths. Z.to_euclidean_division_equations. lia.
  - intros s m v Hm (?&?&?&->)%from_parts_Ok. split; [|done].
    f_equal; Z.to_euclidean_division_equations; lia.
  - intros d [-> ?]%checked_difference_Ok. apply checked_add_Ok. split; [lia|].
    by replace (u + (t - u)) with t by lia.
  - intros d v. rewrite checked_add_Ok. naive_solver.
  - intros d. rewrite checked_difference_Ok. naive_solver.
Qed.

Lemma instants_exact_witness :
  to_parts (-1) = (-1, 999) /\ from_parts (-1) 999 = Ok (-1) /\
  from_parts (fst (to_parts i64_min)) (snd (to_parts i64_min)) = Err TimeOverflow /\
  checked_add_millis 5 (-6) = Ok (-1).
Proof.
  destruct (instants_exact (-1) 5) as ((_&H)&_&H2&_); [mlia|mlia|].
  split; [reflexivity|]. split; [apply H; by vm_compute|]. split; [reflexivity|].
  apply H2. reflexivity.
Defined.
