(* ===== verification/Journal.v ===== *)
(** The event journal, the action ledger and consumer cursors:
    [automonique-protocol/src/journal.rs].

    An operation by [&mut self] takes the state and answers the result with the
    state it leaves.  A projection is a type with the step of the trait
    [Projection]. *)

From S2P Require Import Prelude Text Codec Values.

(** * Fields and errors *)

Definition MAX_JOURNAL_FIELD_BYTES : Z := 128.
Definition MAX_EVENT_PAYLOAD_BYTES : Z := 4 * 1024.

Record AggregateId := mkAggregate { agg_kind : list Z; agg_id : list Z }.
Record ActionTarget := mkTarget { target_str : list Z }.
Record DomainEventPayload := mkEventPayload { event_text : list Z }.
Record EventSchemaVersion := mkSchemaVersion { schema_get : Z }.
Record ActionPayload := mkPayload { as_digest : option (list Z) }.

#[export] Instance AggregateId_eq_dec : EqDecision AggregateId.
Proof. solve_decision. Defined.
#[export] Instance ActionTarget_eq_dec : EqDecision ActionTarget.
Proof. solve_decision. Defined.
#[export] Instance ActionPayload_eq_dec : EqDecision ActionPayload.
Proof. solve_decision. Defined.

Inductive JournalError :=
| EventIdNotIncreasing (last_ offered : Z)
| RevisionConflict (expected observed : Z)
| RevisionExhausted (current observed : Z)
| EventSchemaOutOfRange (supported_min supported_max offered : Z)
| IdempotencyConflict (recorded_target offered_target : ActionTarget)
| IdempotencyPayloadConflict (recorded_payload offered_payload : ActionPayload)
| CursorWentBackwards (current offered : Z)
| InvertedRetainedRange (from to : Z)
| JField (field : string) (error : ValueError).

Definition journal_category (e : JournalError) : string :=
  match e with
  | EventIdNotIncreasing _ _ => "event_id_not_increasing"
  | RevisionConflict _ _ => "revision_conflict"
  | RevisionExhausted _ _ => "revision_exhausted"
  | EventSchemaOutOfRange _ _ _ => "event_schema_out_of_range"
  | IdempotencyConflict _ _ => "idempotency_conflict"
  | IdempotencyPayloadConflict _ _ => "idempotency_payload_conflict"
  | CursorWentBackwards _ _ => "cursor_went_backwards"
  | InvertedRetainedRange _ _ => "inverted_retained_range"
  | JField _ _ => "field_invalid"
  end.

Definition bounded_to (value : list Z) (field : string) (max_bytes : Z)
  : result JournalError unit :=
  map_err (JField field) (bounded_value value max_bytes).

Definition bounded (value : list Z) (field : string) : result JournalError unit :=
  bounded_to value field MAX_JOURNAL_FIELD_BYTES.

Definition aggregate_new (kind id : list Z) : result JournalError AggregateId :=
  _ ← bounded kind "aggregate_kind";
  _ ← bounded id "aggregate_id";
  Ok (mkAggregate kind id).

Definition target_new (value : list Z) : result JournalError ActionTarget :=
  _ ← bounded value "target"; Ok (mkTarget value).

Definition payload_text (value : list Z) : result JournalError DomainEventPayload :=
  _ ← bounded_to value "event_payload" MAX_EVENT_PAYLOAD_BYTES; Ok (mkEventPayload value).

Definition schema_version_new (value : Z) : result JournalError EventSchemaVersion :=
  if value =? 0 then Err (JField "event_schema_version" VEmpty) else Ok (mkSchemaVersion value).

(** * Events and the journal *)

Record DomainEvent := mkEvent {
  event_id : Z;
  aggregate : AggregateId;
  revision : Revision;
  schema_version : EventSchemaVersion;
  at_ : EpochMillis;
  event_kind : list Z;
  event_payload : DomainEventPayload;
}.

Definition event_new (id : Z) (a : AggregateId) (r : Revision) (v : EventSchemaVersion)
    (t : EpochMillis) (kind : list Z) (p : DomainEventPayload) : result JournalError DomainEvent :=
  _ ← bounded kind "event_kind";
  Ok (mkEvent id a r v t kind p).

Definition decodable_within (e : DomainEvent) (range : VersionRange) : result JournalError unit :=
  let offered := schema_get (schema_version e) in
  if (offered <? range_min range) || (range_max range <? offered)
  then Err (EventSchemaOutOfRange (range_min range) (range_max range) offered)
  else Ok tt.

Definition validate_revision_successor (current : option Revision) (observed : Revision)
  : result JournalError unit :=
  expected ← match current with
             | None => Ok revision_FIRST
             | Some current =>
                 map_err (fun _ => RevisionExhausted current observed) (checked_next current)
             end;
  if negb (observed =? expected) then Err (RevisionConflict expected observed) else Ok tt.

Record Journal := mkJournal { events : list DomainEvent }.
Definition journal_new : Journal := mkJournal [].

Definition of_aggregate (a : AggregateId) (e : DomainEvent) : bool := bool_decide (aggregate e = a).

Definition revision_of (j : Journal) (a : AggregateId) : option Revision :=
  revision <$> rfind (of_aggregate a) (events j).

(** The search for the current revision in [append] is the one of [revision_of]. *)
Definition append (j : Journal) (e : DomainEvent) : result JournalError unit * Journal :=
  match last (events j) with
  | Some l => if event_id e <=? event_id l
              then (Err (EventIdNotIncreasing (event_id l) (event_id e)), j)
              else
                match validate_revision_successor
                        (revision <$> rfind (of_aggregate (aggregate e)) (events j)) (revision e) with
                | Err err => (Err err, j)
                | Ok _ => (Ok tt, mkJournal (events j ++ [e]))
                end
  | None =>
      match validate_revision_successor
              (revision <$> rfind (of_aggregate (aggregate e)) (events j)) (revision e) with
      | Err err => (Err err, j)
      | Ok _ => (Ok tt, mkJournal (events j ++ [e]))
      end
  end.

(** The trait [Projection]. *)
Class Projection (P : Type) := apply_event : P -> DomainEvent -> P.

Definition replay {P} `{Projection P} (j : Journal) (projection : P) : P :=
  foldl apply_event projection (events j).

(** [Outbox]: pending destinations; nothing in the crate constructs one. *)
Record Outbox := mkOutbox { pending : list (list Z) }.
Definition enqueue (o : Outbox) (destination : list Z) : Outbox :=
  mkOutbox (pending o ++ [destination]).

(** * Action receipts *)

Inductive ActionOutcome := Accepted | Completed | Rejected | Conflict | Unknown_ | ResyncRequired_.

Definition outcome_ALL : list ActionOutcome :=
  [Accepted; Completed; Rejected; Conflict; Unknown_; ResyncRequired_].

Definition outcome_str (o : ActionOutcome) : string :=
  match o with
  | Accepted => "accepted"
  | Completed => "completed"
  | Rejected => "rejected"
  | Conflict => "conflict"
  | Unknown_ => "unknown"
  | ResyncRequired_ => "resync_required"
  end.

Definition states_no_effect (o : ActionOutcome) : bool :=
  match o with Rejected | Conflict => true | _ => false end.

Definition payload_absent : ActionPayload := mkPayload None.

Definition payload_digest (digest : list Z) : result JournalError ActionPayload :=
  _ ← bounded digest "payload_digest"; Ok (mkPayload (Some digest)).

Record ActionReceipt := mkReceipt {
  action_id : list Z;
  target : ActionTarget;
  idempotency_key : list Z;
  expected_revision : option Revision;
  payload : ActionPayload;
  outcome : ActionOutcome;
}.

Record ActionLedger := mkLedger { receipts : list ActionReceipt }.
Definition ledger_new : ActionLedger := mkLedger [].

Definition has_key (key : list Z) (r : ActionReceipt) : bool := bool_decide (idempotency_key r = key).

Definition find (l : ActionLedger) (key : list Z) : option ActionReceipt :=
  List.find (has_key key) (receipts l).

Definition record_target_with_payload (l : ActionLedger) (id : list Z) (t : ActionTarget)
    (key : list Z) (expected : option Revision) (p : ActionPayload) (o : ActionOutcome)
  : result JournalError ActionReceipt * ActionLedger :=
  match (_ ← bounded id "action_id"; bounded key "idempotency_key") with
  | Err e => (Err e, l)
  | Ok _ =>
      match List.find (has_key key) (receipts l) with
      | Some existing =>
          if negb (bool_decide (target existing = t))
          then (Err (IdempotencyConflict (target existing) t), l)
          else if negb (bool_decide (payload existing = p))
          then (Err (IdempotencyPayloadConflict (payload existing) p), l)
          else (Ok existing, l)
      | None =>
          let receipt := mkReceipt id t key expected p o in
          (Ok receipt, mkLedger (receipts l ++ [receipt]))
      end
  end.

Definition record_target (l : ActionLedger) id t key expected o :=
  record_target_with_payload l id t key expected payload_absent o.

Definition record_with_payload (l : ActionLedger) id (t : list Z) key expected p o
  : result JournalError ActionReceipt * ActionLedger :=
  match target_new t with
  | Err e => (Err e, l)
  | Ok t => record_target_with_payload l id t key expected p o
  end.

Definition record_ (l : ActionLedger) id (t : list Z) key expected o
  : result JournalError ActionReceipt * ActionLedger :=
  match target_new t with
  | Err e => (Err e, l)
  | Ok t => record_target l id t key expected o
  end.

(** * Consumer cursors *)

Record RetainedRange := mkRetained { first_ : Z; last_ : Z }.

Definition retained_new (first last : Z) : result JournalError RetainedRange :=
  if last <? first then Err (InvertedRetainedRange first last) else Ok (mkRetained first last).

Definition caught_up (r : RetainedRange) : Z := sat_u64 (last_ r + 1).

Inductive CursorResume :=
| Live (from : Z)
| ResyncRequired (snapshot_from snapshot_to : Z).

Definition resume_outcome (c : CursorResume) : option ActionOutcome :=
  match c with Live _ => None | ResyncRequired _ _ => Some ResyncRequired_ end.

Record JournalCursor := mkCursor { consumer : list Z; topic : list Z; position : Z }.

Definition cursor_new (c t : list Z) (p : Z) : result JournalError JournalCursor :=
  _ ← bounded c "consumer";
  _ ← bounded t "topic";
  Ok (mkCursor c t p).

Definition resume_within (c : JournalCursor) (r : RetainedRange) : CursorResume :=
  if (position c <? first_ r) || (caught_up r <? position c)
  then ResyncRequired (first_ r) (last_ r)
  else Live (position c).

Definition advance_to (c : JournalCursor) (p : Z) : result JournalError unit * JournalCursor :=
  if p <? position c then (Err (CursorWentBackwards (position c) p), c)
  else (Ok tt, mkCursor (consumer c) (topic c) p).

(** * The journal's invariant *)

Definition append_all (j : Journal) (es : list DomainEvent) : Journal :=
  foldl (fun j e => snd (append j e)) j es.

(** The events of one aggregate, in journal order. *)
Definition history (j : Journal) (a : AggregateId) : list DomainEvent :=
  List.filter (of_aggregate a) (events j).

Record journal_ok (j : Journal) : Prop := {
  ids_increase : StronglySorted Z.lt (event_id <$> events j);
  revisions_dense : forall a, revision <$> history j a = seqZ 1 (len (history j a));
  revisions_ok : Forall (fun e => revision_ok (revision e)) (events j);
}.

Lemma history_snoc j e a :
  history (mkJournal (events j ++ [e])) a =
  history j a ++ (if of_aggregate a e then [e] else []).
Proof. unfold history. cbn [events]. rewrite List.filter_app. simpl. by case_match. Qed.

Lemma rfind_last {A} (p : A -> bool) l : rfind p l = last (List.filter p l).
Proof.
  induction l as [|x l IH] using rev_ind; [done|].
  rewrite rfind_snoc, List.filter_app. simpl. case_match; [by rewrite last_snoc|].
  by rewrite app_nil_r.
Qed.

Lemma validate_successor_Ok current observed :
  (forall r, current = Some r -> revision_ok r) -> revision_ok observed ->
  (validate_revision_successor current observed = Ok tt <->
   observed = default 0 current + 1).
Proof.
  unfold validate_revision_successor. intros Hc Ho. destruct current as [r|]; cbn.
  - destruct (checked_next_cases r (Hc r eq_refl)) as [[? ->]|[-> ->]]; cbn.
    + case_match; bool_prop; split; intros; simplify_eq; try done; lia.
    + split; [done|]. intros ->. unfold revision_ok in Ho. lia.
  - unfold revision_FIRST. case_match; bool_prop; split; intros; simplify_eq; try done; lia.
Qed.

Lemma revision_of_dense j a :
  journal_ok j ->
  revision_of j a = if bool_decide (history j a = []) then None else Some (len (history j a)).
Proof.
  intros [_ Hd _]. unfold revision_of. rewrite rfind_last. fold (history j a).
  specialize (Hd a). rewrite <- fmap_last, Hd.
  destruct (history j a) as [|e h] eqn:E; [done|].
  rewrite bool_decide_false by done.
  rewrite last_lookup, length_seqZ. apply lookup_seqZ. autorewrite with len in *.
  pose proof (len_nonneg h). lia.
Qed.

(** One append, on every branch. *)
Lemma journal_append_cases j e :
  (exists err, append j e = (Err err, j)) \/
  append j e = (Ok tt, mkJournal (events j ++ [e])).
Proof. unfold append. repeat case_match; eauto. Qed.

Lemma append_Ok j e :
  fst (append j e) = Ok tt <->
  (forall l, last (events j) = Some l -> event_id l < event_id e) /\
  validate_revision_successor (revision_of j (aggregate e)) (revision e) = Ok tt.
Proof.
  unfold append, revision_of.
  destruct (last (events j)) as [l|]; [destruct (event_id e <=? event_id l) eqn:El; bool_prop|];
    try (destruct (validate_revision_successor _ _) as [[]|]); cbn;
    naive_solver lia.
Qed.

Lemma current_revision_ok j a r : journal_ok j -> revision_of j a = Some r -> revision_ok r.
Proof.
  intros Hj. unfold revision_of. rewrite rfind_last.
  intros (e & He & ->)%fmap_Some_1. apply last_Some_elem_of in He.
  apply list_elem_of_In, filter_In in He as [He%list_elem_of_In _].
  pose proof (revisions_ok j Hj) as Hr. rewrite Forall_forall in Hr. by apply Hr.
Qed.

(** An append is accepted exactly when its identifier is above every one
    recorded and its revision is one past the number of its aggregate's events. *)
Lemma journal_append_accepts j e : journal_ok j -> revision_ok (revision e) ->
  fst (append j e) = Ok tt <->
  Forall (fun i => i < event_id e) (event_id <$> events j) /\
  revision e = len (history j (aggregate e)) + 1.
Proof.
  intros Hj He. rewrite append_Ok, validate_successor_Ok by eauto using current_revision_ok.
  rewrite (increasing_last _ _ (ids_increase j Hj)), fmap_last.
  rewrite (revision_of_dense j _ Hj). apply and_iff_compat_l || f_equiv.
  - destruct (last (events j)); naive_solver.
  - case_bool_decide as E; [rewrite E|]; done.
Qed.

Lemma append_preserves j e : revision_ok (revision e) -> journal_ok j -> journal_ok (snd (append j e)).
Proof.
  intros He Hj. destruct (journal_append_cases j e) as [[err ->]|E]; [done|].
  assert (HOk : fst (append j e) = Ok tt) by by rewrite E.
  apply journal_append_accepts in HOk as [Hid Hrev]; [|done..]. rewrite E. cbn [snd].
  destruct Hj as [Hs Hd Hr]. constructor; cbn [events].
  - rewrite fmap_app. by apply increasing_snoc.
  - intros a. rewrite history_snoc, fmap_app, Hd. unfold of_aggregate.
    case_bool_decide as Ea; [|by rewrite !app_nil_r].
    subst a. cbn. rewrite Hrev. autorewrite with len.
    rewrite Z.add_0_r, seqZ_app by apply len_nonneg || lia. f_equal.
    rewrite Z.add_comm. symmetry. by rewrite (seqZ_cons _ 1).
  - apply Forall_app. split; [done|]. by apply Forall_singleton.
Qed.

Lemma append_all_ok es j :
  Forall (fun e => revision_ok (revision e)) es -> journal_ok j -> journal_ok (append_all j es).
Proof.
  intros Hes. revert j. induction Hes as [|e es He _ IH]; intros j Hj; [done|].
  simpl. apply IH. by apply append_preserves.
Qed.

Lemma journal_new_ok : journal_ok journal_new.
Proof. split; [constructor|done|constructor]. Qed.

(** A journal built by any sequence of appends, refused ones included,
    holds strictly increasing event ids and, for every aggregate, the revisions
    [1, 2, ..., n] with no gap and no repeat, [n] being what [revision_of]
    answers; an append is accepted exactly when its id is above all recorded
    ids and its revision is the next one; a refused append changes nothing; and
    a projection that applied each accepted event as it came holds what a
    replay of the whole journal rebuilds. *)
Theorem journal_invariant es :
  Forall (fun e => revision_ok (revision e)) es ->
  let j := append_all journal_new es in
  StronglySorted Z.lt (event_id <$> events j) /\
  (forall a, revision <$> history j a = seqZ 1 (len (history j a)) /\
     revision_of j a = if bool_decide (history j a = []) then None else Some (len (history j a))) /\
  (forall e, revision_ok (revision e) ->
     fst (append j e) = Ok tt <->
     Forall (fun i => i < event_id e) (event_id <$> events j) /\
     revision e = len (history j (aggregate e)) + 1) /\
  (forall e err, fst (append j e) = Err err -> snd (append j e) = j) /\
  (forall e P `(Projection P) (p : P), fst (append j e) = Ok tt ->
     replay (snd (append j e)) p = apply_event (replay j p) e).
Proof.
  intros Hes j. assert (Hj : journal_ok j) by (apply append_all_ok; [done|apply journal_new_ok]).
  split; [apply Hj|]. split; [intros a; split; [apply Hj|by apply revision_of_dense]|].
  split; [intros e; by apply journal_append_accepts|].
  split; intros e; destruct (journal_append_cases j e) as [[err ->]| -> ]; try done.
  intros P HP p _. unfold replay. cbn [events snd]. by rewrite foldl_app.
Qed.

Definition sample_event (id : Z) (agg : Z) (r : Z) : DomainEvent :=
  mkEvent id (mkAggregate [119] [agg]) r (mkSchemaVersion 1) 0 [107] (mkEventPayload [112]).

Lemma journal_invariant_witness :
  let j := append_all journal_new
    [sample_event 3 49 1; sample_event 4 50 1; sample_event 4 49 2; sample_event 9 49 3;
     sample_event 10 49 2] in
  (event_id <$> events j) = [3; 4; 10] /\ revision_of j (mkAggregate [119] [49]) = Some 2 /\
  fst (append j (sample_event 11 49 3)) = Ok tt.
Proof.
  destruct (journal_invariant [sample_event 3 49 1; sample_event 4 50 1; sample_event 4 49 2;
    sample_event 9 49 3; sample_event 10 49 2]) as (_&_&H&_).
  { repeat constructor; vm_compute; intros [=]. }
  split; [reflexivity|]. split; [reflexivity|].
  apply H; [vm_compute; split; intros [=]|]. split; [|reflexivity].
  repeat constructor.
Defined.

(** * The ledger's idempotency *)

(** One recording call, through any of the four entry points. *)
Inductive ledger_step : ActionLedger -> ActionLedger -> Prop :=
| step_record l id t key expected o :
    ledger_step l (snd (record_ l id t key expected o))
| step_record_target l id t key expected o :
    ledger_step l (snd (record_target l id t key expected o))
| step_record_with_payload l id t key expected p o :
    ledger_step l (snd (record_with_payload l id t key expected p o))
| step_record_target_with_payload l id t key expected p o :
    ledger_step l (snd (record_target_with_payload l id t key expected p o)).

(** A call keeps the ledger or adds one receipt under a fresh key. *)
Lemma record_grows l id t key expected p o :
  snd (record_target_with_payload l id t key expected p o) = l \/
  exists r, snd (record_target_with_payload l id t key expected p o) = mkLedger (receipts l ++ [r]) /\
    find l (idempotency_key r) = None.
Proof.
  unfold record_target_with_payload, find. case_match; [|by left].
  case_match; [repeat case_match; by left|]. right. eexists. by split.
Qed.

Lemma ledger_step_grows l l' :
  ledger_step l l' ->
  l' = l \/ exists r, l' = mkLedger (receipts l ++ [r]) /\ find l (idempotency_key r) = None.
Proof.
  destruct 1; unfold record_, record_with_payload, record_target;
    try (case_match; [|by left]); apply record_grows.
Qed.

Lemma find_has_key l key r : find l key = Some r -> idempotency_key r = key /\ r ∈ receipts l.
Proof.
  intros [Hin Hk]%find_some. apply bool_decide_eq_true in Hk.
  by apply list_elem_of_In in Hin.
Qed.

Lemma find_None_key l key : find l key = None <-> key ∉ idempotency_key <$> receipts l.
Proof.
  unfold find. rewrite find_None_iff, Forall_forall, list_elem_of_fmap. unfold has_key.
  split.
  - intros H (r & -> & Hr). specialize (H r Hr). by rewrite bool_decide_true in H.
  - intros H r Hr. apply bool_decide_eq_false. intros <-. eauto.
Qed.

Lemma ledger_keeps l l' key r :
  rtc ledger_step l l' -> find l key = Some r -> find l' key = Some r.
Proof.
  induction 1 as [|l l1 l' Hs _ IH]; [done|]. intros Hf. apply IH.
  destruct (ledger_step_grows _ _ Hs) as [->|(x & -> & _)]; [done|].
  unfold find in *. cbn [receipts]. by rewrite find_app, Hf.
Qed.

Lemma ledger_keys_unique l l' :
  rtc ledger_step l l' -> NoDup (idempotency_key <$> receipts l) ->
  NoDup (idempotency_key <$> receipts l').
Proof.
  induction 1 as [|l l1 l' Hs _ IH]; [done|]. intros Hn. apply IH.
  destruct (ledger_step_grows _ _ Hs) as [->|(x & -> & Hx%find_None_key)]; [done|].
  cbn [receipts]. rewrite fmap_app. apply NoDup_app. split_and!; [done| |apply NoDup_singleton].
  intros k Hk ->%list_elem_of_singleton. by apply Hx.
Qed.

(** What the code answers for a key already recorded. *)
Lemma record_known l id t key expected p o r :
  find l key = Some r -> bounded id "action_id" = Ok tt -> bounded key "idempotency_key" = Ok tt ->
  record_target_with_payload l id t key expected p o =
  (if decide (t = target r) then
     if decide (p = payload r) then Ok r else Err (IdempotencyPayloadConflict (payload r) p)
   else Err (IdempotencyConflict (target r) t), l).
Proof.
  unfold find, record_target_with_payload. intros -> -> ->. cbn.
  repeat case_decide; repeat case_bool_decide; simplify_eq; done.
Qed.

Lemma record_recorded l id t key expected p o r l1 :
  record_target_with_payload l id t key expected p o = (Ok r, l1) ->
  find l1 key = Some r /\ target r = t /\ payload r = p /\ bounded key "idempotency_key" = Ok tt.
Proof.
  unfold record_target_with_payload, find.
  destruct (bounded id "action_id") as [[]|]; cbn; [|done].
  destruct (bounded key "idempotency_key") as [[]|]; cbn; [|done].
  destruct (List.find (has_key key) (receipts l)) as [x|] eqn:E.
  - repeat case_bool_decide; simpl; intros; simplify_eq. done.
  - intros [= <- <-]. cbn [receipts]. rewrite find_app, E. simpl. unfold has_key.
    by rewrite bool_decide_true.
Qed.

(** Idempotency keys are permanent: once a call recorded a receipt under a
    key, whatever is recorded later through any entry point, the ledger holds
    each key once and that receipt under this one; every later call with the
    key leaves the ledger as it is and answers the recorded receipt, identical
    to the first, if target and payload are the recorded ones, and otherwise a
    typed conflict naming both sides. *)
Theorem ledger_idempotent l id t key expected p o r l1 l2 :
  rtc ledger_step ledger_new l ->
  record_target_with_payload l id t key expected p o = (Ok r, l1) ->
  rtc ledger_step l1 l2 ->
  NoDup (idempotency_key <$> receipts l2) /\ find l2 key = Some r /\
  (forall id' t' expected' p' o', bounded id' "action_id" = Ok tt ->
     record_target_with_payload l2 id' t' key expected' p' o' =
     (if decide (t' = t) then
        if decide (p' = p) then Ok r else Err (IdempotencyPayloadConflict p p')
      else Err (IdempotencyConflict t t'), l2)).
Proof.
  intros Hl Hr H12. destruct (record_recorded _ _ _ _ _ _ _ _ _ Hr) as (Hf & <- & <- & Hk).
  assert (H01 : ledger_step l l1) by (replace l1 with (snd (Ok (E:=JournalError) r, l1)) by done;
    rewrite <- Hr; constructor).
  assert (find l2 key = Some r) by eauto using ledger_keeps.
  split; [|split; [done|intros; by apply record_known]].
  eapply (ledger_keys_unique ledger_new); [|constructor].
  etrans; [exact Hl|]. by eapply rtc_l.
Qed.

Lemma ledger_idempotent_witness :
  let r := mkReceipt [97] (mkTarget [119]) [107] None payload_absent Accepted in
  let l := mkLedger [r] in
  record_ ledger_new [97] [119] [107] None Accepted = (Ok r, l) /\
  fst (record_ l [98] [119] [107] (Some 4) Completed) = Ok r /\
  fst (record_ l [98] [120] [107] None Accepted) =
    Err (IdempotencyConflict (mkTarget [119]) (mkTarget [120])).
Proof.
  destruct (ledger_idempotent ledger_new [97] (mkTarget [119]) [107] None payload_absent Accepted
    (mkReceipt [97] (mkTarget [119]) [107] None payload_absent Accepted)
    (mkLedger [mkReceipt [97] (mkTarget [119]) [107] None payload_absent Accepted])
    (mkLedger [mkReceipt [97] (mkTarget [119]) [107] None payload_absent Accepted]))
    as (_ & _ & H); [constructor|reflexivity|constructor|].
  split; [reflexivity|].
  pose proof (H [98] (mkTarget [119]) (Some 4) payload_absent Completed eq_refl) as H1.
  pose proof (H [98] (mkTarget [120]) None payload_absent Accepted eq_refl) as H2.
  split; [exact (f_equal fst H1)|exact (f_equal fst H2)].
Defined.

(** * Cursors *)

Definition advance_all (c : JournalCursor) (ps : list Z) : JournalCursor :=
  foldl (fun c p => snd (advance_to c p)) c ps.

Lemma advance_all_max ps c :
  advance_all c ps = mkCursor (consumer c) (topic c) (foldl Z.max (position c) ps).
Proof.
  revert c; induction ps as [|p ps IH]; intros c; [by destruct c|].
  cbn [advance_all foldl]. fold (advance_all (snd (advance_to c p)) ps). rewrite IH.
  unfold advance_to. case_match; bool_prop; cbn [snd consumer topic position]; do 2 f_equal; lia.
Qed.

(** A cursor resumes live exactly when the next position it waits for is
    retained or is the first one not yet written, computed without the [u64]
    saturation; anywhere else it gets the bounds of the whole retained window
    and the outcome [ResyncRequired]; and after any moves, refused ones
    included, the cursor stands at the highest position it was offered. *)
Theorem cursor_resume_exact c r ps :
  in_u64 (position c) -> in_u64 (last_ r) -> retained_new (first_ r) (last_ r) = Ok r ->
  (first_ r <= position c <= last_ r + 1 ->
     resume_within c r = Live (position c) /\ resume_outcome (resume_within c r) = None) /\
  (~ (first_ r <= position c <= last_ r + 1) ->
     resume_within c r = ResyncRequired (first_ r) (last_ r) /\
     resume_outcome (resume_within c r) = Some ResyncRequired_ /\ first_ r <= last_ r) /\
  position (advance_all c ps) = foldl Z.max (position c) ps.
Proof.
  intros Hp Hl Hr. unfold retained_new in Hr. case_match; [done|]. bool_prop.
  rewrite advance_all_max. unfold resume_within, caught_up.
  split_and!; [..|done]; intros H'; case_match; bool_prop; widths; try done; lia.
Qed.

Lemma cursor_resume_exact_witness :
  let c := mkCursor [99] [116] 8 in
  resume_within c (mkRetained 3 7) = Live 8 /\
  resume_within c (mkRetained 3 6) = ResyncRequired 3 6 /\
  position (advance_all c [12; 9]) = 12.
Proof.
  destruct (cursor_resume_exact (mkCursor [99] [116] 8) (mkRetained 3 7) [12; 9])
    as (H & _ & H2); [cbn; mlia|cbn; mlia|reflexivity|].
  destruct (cursor_resume_exact (mkCursor [99] [116] 8) (mkRetained 3 6) [])
    as (_ & H3 & _); [cbn; mlia|cbn; mlia|reflexivity|].
  cbn [first_ last_ position] in *.
  split; [apply H; lia|]. split; [apply H3; lia|exact H2].
Defined.
