(* ===== verification/Identity.v ===== *)
(** Actors, role grants and credential records:
    [automonique-protocol/src/identity.rs]. *)

From S2P Require Import Prelude Text Codec Values.

Definition MAX_IDENTITY_FIELD_BYTES : Z := 128.

(** * Actors *)

Inductive IdentityError :=
| CrossTenantComparison (left right : list Z)
| MutableAttributeAsKey (attribute : string)
| BreakGlassNeedsExpiry
| IField (field : string) (error : ValueError).

Definition identity_category (e : IdentityError) : string :=
  match e with
  | CrossTenantComparison _ _ => "cross_tenant_comparison"
  | MutableAttributeAsKey _ => "mutable_attribute_as_key"
  | BreakGlassNeedsExpiry => "break_glass_needs_expiry"
  | IField _ _ => "field_invalid"
  end.

Definition ibounded (value : list Z) (field : string) : result IdentityError unit :=
  map_err (IField field) (bounded_value value MAX_IDENTITY_FIELD_BYTES).

Record Actor := mkActor { tenant : list Z; actor_id : list Z }.

#[export] Instance Actor_eq_dec : EqDecision Actor.
Proof. solve_decision. Defined.

Definition actor_new (t id : list Z) : result IdentityError Actor :=
  _ ← ibounded t "tenant";
  _ ← ibounded id "actor_id";
  Ok (mkActor t id).

Definition is_same_as (a b : Actor) : result IdentityError bool :=
  if negb (bool_decide (tenant a = tenant b)) then Err (CrossTenantComparison (tenant a) (tenant b))
  else Ok (bool_decide (actor_id a = actor_id b)).

Inductive MutableAttribute := UserPrincipalName | Email | DisplayName | Username | Roles.

Definition attribute_ALL : list MutableAttribute :=
  [UserPrincipalName; Email; DisplayName; Username; Roles].

Definition attribute_str (a : MutableAttribute) : string :=
  match a with
  | UserPrincipalName => "user_principal_name"
  | Email => "email"
  | DisplayName => "display_name"
  | Username => "username"
  | Roles => "roles"
  end.

Record ExternalIdentityKey := mkKey {
  platform : list Z; application : list Z; external_tenant : list Z; immutable_user_id : list Z }.

Definition external_key_new (p a t u : list Z) : result IdentityError ExternalIdentityKey :=
  _ ← ibounded p "platform";
  _ ← ibounded a "application";
  _ ← ibounded t "external_tenant";
  _ ← ibounded u "immutable_user_id";
  Ok (mkKey p a t u).

Definition keyed_on (a : MutableAttribute) : result IdentityError ExternalIdentityKey :=
  Err (MutableAttributeAsKey (attribute_str a)).

(** * Role grants and decisions *)

Record RoleGrant := mkGrant {
  g_actor : Actor;
  g_role : list Z;
  granted_by : Actor;
  effective_from : Revision;
  effective_to : option Revision;
  g_reason : list Z;
}.

Definition role_grant_new (a : Actor) (role : list Z) (by_ : Actor) (from : Revision)
    (to : option Revision) (reason : list Z) : result IdentityError RoleGrant :=
  _ ← ibounded role "role";
  _ ← ibounded reason "reason";
  Ok (mkGrant a role by_ from to reason).

Definition in_force_at (g : RoleGrant) (revision : Revision) : bool :=
  (effective_from g <=? revision) &&
  match effective_to g with None => true | Some end_ => revision <? end_ end.

Inductive DenyReason := NoMatchingGrant | GrantNotInForce | WrongTenant.

Definition deny_str (r : DenyReason) : string :=
  match r with
  | NoMatchingGrant => "no_matching_grant"
  | GrantNotInForce => "grant_not_in_force"
  | WrongTenant => "wrong_tenant"
  end.

Inductive DecisionOutcome := Allow (role : list Z) | Deny (reason : DenyReason).

Record Decision_ := mkDecision {
  d_actor : Actor; d_permission : list Z; policy_revision : Revision; d_outcome : DecisionOutcome }.

Definition is_allowed (d : Decision_) : bool :=
  match d_outcome d with Allow _ => true | Deny _ => false end.

Record PolicyLedger := mkPolicy {
  grants : list RoleGrant;
  role_permissions : list (list Z * list Z);
}.

Definition policy_new : PolicyLedger := mkPolicy [] [].

Definition grant (p : PolicyLedger) (g : RoleGrant) : PolicyLedger :=
  mkPolicy (grants p ++ [g]) (role_permissions p).

Definition allow_role (p : PolicyLedger) (role permission : list Z)
  : result IdentityError unit * PolicyLedger :=
  match (_ ← ibounded role "role"; ibounded permission "permission") with
  | Err e => (Err e, p)
  | Ok _ => (Ok tt, mkPolicy (grants p) (role_permissions p ++ [(role, permission)]))
  end.

Definition carries (p : PolicyLedger) (role permission : list Z) : bool :=
  existsb (fun rp => bool_decide (fst rp = role) && bool_decide (snd rp = permission))
    (role_permissions p).

(** The loop over the grants: the role of the first grant that permits, or
    whether one was seen that was not in force. *)
Fixpoint scan_grants (p : PolicyLedger) (a : Actor) (permission : list Z) (revision : Revision)
    (gs : list RoleGrant) (saw_expired : bool) : list Z + bool :=
  match gs with
  | [] => inr saw_expired
  | g :: gs =>
      match is_same_as (g_actor g) a with
      | Err _ => scan_grants p a permission revision gs saw_expired
      | Ok same =>
          if negb same then scan_grants p a permission revision gs saw_expired
          else if negb (carries p (g_role g) permission)
          then scan_grants p a permission revision gs saw_expired
          else if in_force_at g revision then inl (g_role g)
          else scan_grants p a permission revision gs true
      end
  end.

Definition evaluate (p : PolicyLedger) (a : Actor) (permission : list Z) (revision : Revision)
  : Decision_ :=
  match scan_grants p a permission revision (grants p) false with
  | inl role => mkDecision a permission revision (Allow role)
  | inr saw_expired =>
      let wrong_tenant :=
        existsb (fun g => bool_decide (actor_id (g_actor g) = actor_id a)
                          && negb (bool_decide (tenant (g_actor g) = tenant a))) (grants p) in
      let reason := if wrong_tenant then WrongTenant
                    else if saw_expired then GrantNotInForce else NoMatchingGrant in
      mkDecision a permission revision (Deny reason)
  end.

(** * Credential records *)

Inductive CredentialHealth := Active | RotationOverlap | Revoked | Expired.

Record CredentialRecord := mkCredential {
  c_name : list Z; c_version : Z; c_owner : list Z; c_purpose : list Z; c_audience : list Z;
  expires_at : option EpochMillis; health : CredentialHealth }.

Definition credential_new (name : list Z) (version : Z) (owner purpose audience : list Z)
    (expires : option EpochMillis) : result IdentityError CredentialRecord :=
  _ ← ibounded name "credential_name";
  _ ← ibounded owner "owner";
  _ ← ibounded purpose "purpose";
  _ ← ibounded audience "audience";
  Ok (mkCredential name version owner purpose audience expires Active).

Definition with_health (c : CredentialRecord) (v : Z) (h : CredentialHealth) : CredentialRecord :=
  mkCredential (c_name c) v (c_owner c) (c_purpose c) (c_audience c) (expires_at c) h.

Definition rotating_to (c : CredentialRecord) (next_version : Z)
  : CredentialRecord * CredentialRecord :=
  (with_health c (c_version c) RotationOverlap, with_health c next_version RotationOverlap).

Definition revoked (c : CredentialRecord) : CredentialRecord := with_health c (c_version c) Revoked.

Definition grants_capability (c : CredentialRecord) (now : EpochMillis) : bool :=
  match health c with
  | Revoked | Expired => false
  | _ => match expires_at c with None => true | Some expiry => now <? expiry end
  end.

Record BreakGlassGrant := mkBreakGlass {
  b_actor : Actor; b_reason : list Z; b_role : list Z; b_expires_at : EpochMillis }.

Definition break_glass_new (a : Actor) (reason role : list Z) (expires : option EpochMillis)
  : result IdentityError BreakGlassGrant :=
  _ ← ibounded reason "reason";
  _ ← ibounded role "role";
  expires ← ok_or expires BreakGlassNeedsExpiry;
  Ok (mkBreakGlass a reason role expires).

Definition is_active_at (b : BreakGlassGrant) (now : EpochMillis) : bool := now <? b_expires_at b.

(** * Policy evaluation *)

(** A grant that bears on a request: the actor, with tenant, and the permission. *)
Definition matches (p : PolicyLedger) (a : Actor) (permission : list Z) (g : RoleGrant) : Prop :=
  g_actor g = a /\ (g_role g, permission) ∈ role_permissions p.

Lemma carries_spec p role permission :
  carries p role permission = true <-> (role, permission) ∈ role_permissions p.
Proof.
  unfold carries. rewrite existsb_exists. setoid_rewrite <- list_elem_of_In. split.
  - intros ([r q] & Hin & H). cbn in H. bool_prop. by destruct H as [-> ->].
  - intros Hin. exists (role, permission). split; [done|]. cbn. by rewrite !bool_decide_true.
Qed.

Lemma is_same_as_spec b a : is_same_as b a = Ok true <-> b = a.
Proof.
  unfold is_same_as. destruct b as [tb ib], a as [ta ia]. cbn. split.
  - destruct (bool_decide (tb = ta)) eqn:E; cbn; [|done]. intros [= E2].
    bool_prop. by subst.
  - intros [= -> ->]. by rewrite !bool_decide_true.
Qed.

Lemma matches_dec p a permission g :
  {matches p a permission g} + {~ matches p a permission g}.
Proof. unfold matches. apply (decide (_ /\ _)). Qed.

(** One step of the loop. *)
Lemma scan_cons p a permission revision g gs saw :
  scan_grants p a permission revision (g :: gs) saw =
  if matches_dec p a permission g then
    if in_force_at g revision then inl (g_role g) else scan_grants p a permission revision gs true
  else scan_grants p a permission revision gs saw.
Proof.
  cbn [scan_grants]. destruct (matches_dec p a permission g) as [[Ha Hc]|H].
  - rewrite (proj2 (is_same_as_spec _ _) Ha), (proj2 (carries_spec _ _ _) Hc). done.
  - destruct (is_same_as (g_actor g) a) as [[]|] eqn:E; [|done..]. cbn [negb].
    apply is_same_as_spec in E. destruct (carries p (g_role g) permission) eqn:Ec; [|done].
    apply carries_spec in Ec. by destruct H.
Qed.

Lemma scan_inl p a permission revision gs saw role :
  scan_grants p a permission revision gs saw = inl role ->
  exists g, g ∈ gs /\ matches p a permission g /\ in_force_at g revision = true /\ g_role g = role.
Proof.
  revert saw; induction gs as [|g gs IH]; intros saw; [done|]. rewrite scan_cons.
  destruct (matches_dec p a permission g); [destruct (in_force_at g revision) eqn:Ef|].
  - intros [= <-]. exists g. split_and!; [left|done..].
  - intros (x & ? & ?)%IH. exists x. split; [by right|done].
  - intros (x & ? & ?)%IH. exists x. split; [by right|done].
Qed.

Lemma scan_inr p a permission revision gs saw saw' :
  scan_grants p a permission revision gs saw = inr saw' ->
  (forall g, g ∈ gs -> matches p a permission g -> in_force_at g revision = false) /\
  (saw' = true <-> saw = true \/ exists g, g ∈ gs /\ matches p a permission g).
Proof.
  revert saw; induction gs as [|g gs IH]; intros saw.
  - intros [= <-]. split; [by intros ? ?%not_elem_of_nil|].
    split; [by left|]. intros [?|(? & ?%not_elem_of_nil & _)]; done.
  - rewrite scan_cons.
    destruct (matches_dec p a permission g) as [Hm|Hm];
      [destruct (in_force_at g revision) eqn:Ef; [done|]|];
      intros [H1 H2]%IH; rewrite H2; setoid_rewrite elem_of_cons;
      (split; [intros x [-> | ?]; naive_solver|]); naive_solver.
Qed.

(** A grant to an actor of the same name in another tenant. *)
Definition namesake (a : Actor) (g : RoleGrant) : Prop :=
  actor_id (g_actor g) = actor_id a /\ tenant (g_actor g) <> tenant a.

Lemma wrong_tenant_spec gs a :
  existsb (fun g => bool_decide (actor_id (g_actor g) = actor_id a)
                    && negb (bool_decide (tenant (g_actor g) = tenant a))) gs = true <->
  exists g, g ∈ gs /\ namesake a g.
Proof.
  rewrite existsb_exists. setoid_rewrite <- list_elem_of_In. unfold namesake.
  split; intros (g & Hg & H); exists g; (split; [done|]); revert H.
  - intros H. by bool_prop.
  - intros [? ?]. by rewrite bool_decide_true, bool_decide_false.
Qed.

Lemma evaluate_allowed p a permission revision :
  is_allowed (evaluate p a permission revision) = true <->
  exists g, g ∈ grants p /\ matches p a permission g /\ in_force_at g revision = true.
Proof.
  unfold evaluate. destruct (scan_grants _ _ _ _ _ _) as [role|saw] eqn:E.
  - apply scan_inl in E as (g & ? & ? & ? & ?). split; [eauto|done].
  - apply scan_inr in E as [H _]. split; [done|]. intros (g & Hg & Hm & Hf).
    by rewrite (H g Hg Hm) in Hf.
Qed.

(** Policy evaluation is exact and denies by default: a request is allowed
    exactly when some recorded grant names this actor in this tenant, its role
    carries the permission, and it is in force at the revision, and the
    decision then names such a role; otherwise it is denied with the one reason
    the grants give.  Grants of other tenants never allow anything: without
    them the same requests are allowed. *)
Theorem policy_exact p a permission revision :
  let d := evaluate p a permission revision in
  d_actor d = a /\ d_permission d = permission /\ policy_revision d = revision /\
  (is_allowed d = true <->
     exists g, g ∈ grants p /\ matches p a permission g /\ in_force_at g revision = true) /\
  match d_outcome d with
  | Allow role =>
      exists g, g ∈ grants p /\ matches p a permission g /\ in_force_at g revision = true /\
        g_role g = role
  | Deny WrongTenant => exists g, g ∈ grants p /\ namesake a g
  | Deny GrantNotInForce =>
      (exists g, g ∈ grants p /\ matches p a permission g) /\
      ~ exists g, g ∈ grants p /\ namesake a g
  | Deny NoMatchingGrant =>
      (forall g, g ∈ grants p -> ~ matches p a permission g) /\
      ~ exists g, g ∈ grants p /\ namesake a g
  end /\
  is_allowed (evaluate (mkPolicy (List.filter (fun g => bool_decide (tenant (g_actor g) = tenant a))
    (grants p)) (role_permissions p)) a permission revision) = is_allowed d.
Proof.
  intros d. subst d.
  split_and!; try (unfold evaluate; by case_match).
  - apply evaluate_allowed.
  - unfold evaluate. destruct (scan_grants _ _ _ _ _ _) as [role|saw] eqn:E; cbn [d_outcome].
    + by apply scan_inl in E.
    + apply scan_inr in E as [_ Hsaw]. pose proof (wrong_tenant_spec (grants p) a) as Hw.
      destruct (existsb _ _); [by apply Hw|].
      assert (Hn : ~ exists g, g ∈ grants p /\ namesake a g) by naive_solver.
      destruct saw; (split; [|exact Hn]).
      * by destruct (proj1 Hsaw eq_refl).
      * intros g Hg Hm. destruct Hsaw as [_ Hs]. discriminate Hs. eauto.
  - apply eq_true_iff_eq. rewrite !evaluate_allowed. cbn [grants].
    split; intros (g & Hg & Hm & Hf); exists g; (split; [|done]).
    + apply list_elem_of_In, filter_In in Hg as [Hg _]. by apply list_elem_of_In.
    + apply list_elem_of_In, filter_In. split; [by apply list_elem_of_In|].
      apply bool_decide_eq_true. destruct Hm as [-> _]. done.
Qed.

(** A revoked credential grants nothing, and an expiry is absolute; but
    beginning a rotation from a revoked record answers two records in rotation
    overlap, so the revoked version grants its capability again. *)
Theorem rotation_revives_revoked c v now :
  grants_capability (revoked c) now = false /\
  (forall c' expiry, expires_at c' = Some expiry -> expiry <= now -> grants_capability c' now = false) /\
  c_version (fst (rotating_to (revoked c) v)) = c_version c /\
  (grants_capability (fst (rotating_to (revoked c) v)) now = true <->
     match expires_at c with None => True | Some expiry => now < expiry end).
Proof.
  split; [done|]. split.
  - intros c' expiry He Hn. unfold grants_capability. rewrite He. by destruct (health c'); mlia || apply Z.ltb_ge.
  - split; [done|]. unfold grants_capability, rotating_to, with_health, revoked. cbn.
    destruct (expires_at c); cbn; [apply Z.ltb_lt|done].
Qed.

Lemma rotation_revives_revoked_witness :
  let c := mkCredential [100] 3 [111] [112] [97] (Some 50) Active in
  grants_capability (fst (rotating_to (revoked c) 4)) 10 = true /\
  grants_capability c 50 = false.
Proof.
  destruct (rotation_revives_revoked (mkCredential [100] 3 [111] [112] [97] (Some 50) Active) 4 10)
    as (_ & _ & _ & H).
  destruct (rotation_revives_revoked (mkCredential [100] 3 [111] [112] [97] (Some 50) Active) 4 50)
    as (_ & H2 & _).
  split; [apply H; cbn; lia|]. by apply (H2 _ 50).
Defined.
