(* ===== verification/SandboxValues.v ===== *)
(** Sandbox values: digests, paths and their grants, allowlists, credential
    descriptors, budgets, features and isolation requirements, from
    [automonique-protocol/src/sandbox.rs].

    A closed enumeration is its constructors, the list [ALL] of the sources and
    the stable spelling; [from_spelling] searches that list.  A digest domain is
    a phantom type, so a tagged digest is the digest. *)

From S2P Require Import Prelude Text Codec Values.

Definition MAX_SANDBOX_FIELD_BYTES : Z := 256.
Definition MAX_SANDBOX_PATH_BYTES : Z := 1024.
Definition MAX_SANDBOX_ENTRIES : Z := 256.

(** [T::from_spelling] of the closed enumerations. *)
Definition from_spelling {T} (all : list T) (as_str : T -> string) (value : list Z) : option T :=
  List.find (fun t => bool_decide (str (as_str t) = value)) all.

(** [str::split_once(char)]. *)
Fixpoint split_once (sep : Z) (t : list Z) : option (list Z * list Z) :=
  match t with
  | [] => None
  | c :: t =>
      if c =? sep then Some ([], t)
      else match split_once sep t with
           | Some (a, b) => Some (c :: a, b)
           | None => None
           end
  end.

(** * Digests *)

Inductive DigestError :=
| MissingAlgorithm
| UnknownAlgorithm
| DigestLength (expected actual : Z)
| NotLowercaseHex.

Definition digest_category (e : DigestError) : string :=
  match e with
  | MissingAlgorithm => "missing_algorithm"
  | UnknownAlgorithm => "unknown_algorithm"
  | DigestLength _ _ => "digest_length"
  | NotLowercaseHex => "not_lowercase_hex"
  end.

Inductive DigestAlgorithm := Sha256 | Sha512 | Blake3.

#[export] Instance DigestAlgorithm_eq_dec : EqDecision DigestAlgorithm.
Proof. solve_decision. Defined.

Definition algorithm_ALL : list DigestAlgorithm := [Sha256; Sha512; Blake3].

Definition algorithm_str (a : DigestAlgorithm) : string :=
  match a with Sha256 => "sha256" | Sha512 => "sha512" | Blake3 => "blake3" end.

Definition hex_digits (a : DigestAlgorithm) : Z :=
  match a with Sha256 | Blake3 => 64 | Sha512 => 128 end.

Record Digest := mkDigest { algorithm : DigestAlgorithm; hex : list Z }.

#[export] Instance Digest_eq_dec : EqDecision Digest.
Proof. solve_decision. Defined.

Definition is_lower_hex (c : Z) : bool := in_range 48 57 c || in_range 97 102 c.

(** The bytes of the body are tested; a scalar outside ASCII has only bytes
    from 128 up, so testing its scalars answers the same. *)
Definition digest_parse (value : list Z) : result DigestError Digest :=
  '(algorithm, hex) ← ok_or (split_once 58 value) MissingAlgorithm;
  algorithm ← ok_or (from_spelling algorithm_ALL algorithm_str algorithm) UnknownAlgorithm;
  if negb (str_len hex =? hex_digits algorithm)
  then Err (DigestLength (hex_digits algorithm) (str_len hex))
  else if negb (forallb is_lower_hex hex) then Err NotLowercaseHex
  else Ok (mkDigest algorithm hex).

(** [Display for Digest]. *)
Definition digest_display (d : Digest) : list Z := str (algorithm_str (algorithm d)) ++ 58 :: hex d.

(** * Errors *)

Inductive PathError :=
| PathValue (error : ValueError)
| NotAbsolute
| EmptyComponent
| TraversalComponent.

Definition path_category (e : PathError) : string :=
  match e with
  | PathValue inner => value_category inner
  | NotAbsolute => "not_absolute"
  | EmptyComponent => "empty_component"
  | TraversalComponent => "traversal_component"
  end.

Inductive SandboxError :=
| RequiredEnforcementMissing (feature : list Z)
| EnforcementImplementationRejected (feature offered : list Z)
| BudgetOutOfRange (unit : string) (max requested : Z)
| SField (field : string) (error : ValueError)
| SDigest (field : string) (error : DigestError)
| SPath (field : string) (error : PathError)
| NotPositive (field : string)
| TooManyEntries (field : string) (max requested : Z)
| DuplicateEntry (field : string)
| WidensProfile (axis : string).

Definition sandbox_category (e : SandboxError) : string :=
  match e with
  | RequiredEnforcementMissing _ => "required_enforcement_missing"
  | EnforcementImplementationRejected _ _ => "enforcement_implementation_rejected"
  | BudgetOutOfRange _ _ _ => "budget_out_of_range"
  | SField _ _ => "field_invalid"
  | SDigest _ _ => "digest_invalid"
  | SPath _ _ => "path_invalid"
  | NotPositive _ => "not_positive"
  | TooManyEntries _ _ _ => "too_many_entries"
  | DuplicateEntry _ => "duplicate_entry"
  | WidensProfile _ => "widens_profile"
  end.

Definition sbounded (value : list Z) (field : string) : result SandboxError unit :=
  map_err (SField field) (bounded_value value MAX_SANDBOX_FIELD_BYTES).

Definition bounded_len (length : Z) (field : string) : result SandboxError unit :=
  if MAX_SANDBOX_ENTRIES <? length then Err (TooManyEntries field MAX_SANDBOX_ENTRIES length)
  else Ok tt.

(** [SandboxName::new] under the field it is reported as. *)
Definition sandbox_name (value : list Z) (field : string) : result SandboxError (list Z) :=
  map_err (SField field) (bounded_string_new MAX_SANDBOX_FIELD_BYTES value).

(** The loops that collect a list and refuse an item already [held]. *)
Fixpoint collect {A} (same : A -> A -> bool) (field : string) (collected items : list A)
  : result SandboxError (list A) :=
  match items with
  | [] => Ok collected
  | x :: items =>
      if existsb (fun held => same held x) collected then Err (DuplicateEntry field)
      else collect same field (collected ++ [x]) items
  end.

Definition declare_with {A} (same : A -> A -> bool) (field : string) (items : list A)
  : result SandboxError (list A) :=
  if MAX_SANDBOX_ENTRIES <? len items
  then Err (TooManyEntries field MAX_SANDBOX_ENTRIES (len items))
  else collect same field [] items.

(** * Paths and grants *)

Definition SandboxPath := list Z.

(** The components after the root, each refused for the first rule it breaks. *)
Fixpoint path_components (cs : list (list Z)) : result PathError unit :=
  match cs with
  | [] => Ok tt
  | c :: cs =>
      if bool_decide (c = []) then Err EmptyComponent
      else if bool_decide (c = str ".") || bool_decide (c = str "..") then Err TraversalComponent
      else path_components cs
  end.

Definition sandbox_path_new (value : list Z) : result PathError SandboxPath :=
  if bool_decide (value = []) then Err (PathValue VEmpty)
  else if MAX_SANDBOX_PATH_BYTES <? str_len value
  then Err (PathValue (TooLong MAX_SANDBOX_PATH_BYTES (str_len value)))
  else if existsb is_control value then Err (PathValue ControlCharacter)
  else match strip_prefix [47] value with
       | None => Err NotAbsolute
       | Some body => _ ← path_components (split_on 47 body); Ok value
       end.

Inductive PathAccess := ReadOnly | ReadExecute | ReadWrite.

#[export] Instance PathAccess_eq_dec : EqDecision PathAccess.
Proof. solve_decision. Defined.

Definition access_ALL : list PathAccess := [ReadOnly; ReadExecute; ReadWrite].

Definition access_str (a : PathAccess) : string :=
  match a with
  | ReadOnly => "read_only" | ReadExecute => "read_execute" | ReadWrite => "read_write" end.

Definition intersect (a b : PathAccess) : PathAccess :=
  if bool_decide (a = ReadOnly) || bool_decide (b = ReadOnly) then ReadOnly
  else if bool_decide (a = ReadExecute) && bool_decide (b = ReadExecute) then ReadExecute
  else if bool_decide (a = ReadWrite) && bool_decide (b = ReadWrite) then ReadWrite
  else ReadOnly.

Definition covers (a requested : PathAccess) : bool :=
  bool_decide (requested = ReadOnly) || bool_decide (a = requested).

Record PathGrant := mkPathGrant { path : SandboxPath; access : PathAccess }.

Definition path_grant_new (p : list Z) (a : PathAccess) : result SandboxError PathGrant :=
  p ← map_err (SPath "path_grant") (sandbox_path_new p); Ok (mkPathGrant p a).

Definition PathGrants := list PathGrant.

Definition same_path (held g : PathGrant) : bool := bool_decide (path held = path g).

Definition path_grants_declare : list PathGrant -> result SandboxError PathGrants :=
  declare_with same_path "path_grants".

Definition writable (gs : PathGrants) : list PathGrant :=
  List.filter (fun g => bool_decide (access g = ReadWrite)) gs.

Definition narrowed_to (gs requested : PathGrants) : PathGrants :=
  omap (fun g =>
    match List.find (fun other => bool_decide (path other = path g)) requested with
    | Some other => Some (mkPathGrant (path g) (intersect (access g) (access other)))
    | None => None
    end) gs.

Definition is_within (gs other : PathGrants) : bool :=
  forallb (fun g =>
    existsb (fun held => bool_decide (path held = path g) && covers (access held) (access g)) other) gs.

(** * Profile axes *)

Inductive FilesystemAccess := FsNone | ReadOnlySnapshot | IsolatedWritable | WritableWithGrants.

Definition filesystem_ALL : list FilesystemAccess :=
  [FsNone; ReadOnlySnapshot; IsolatedWritable; WritableWithGrants].

Definition filesystem_str (f : FilesystemAccess) : string :=
  match f with
  | FsNone => "none"
  | ReadOnlySnapshot => "read_only_snapshot"
  | IsolatedWritable => "isolated_writable"
  | WritableWithGrants => "writable_with_grants"
  end.

(** The derived [Ord]: the position in the declaration. *)
Definition filesystem_rank (f : FilesystemAccess) : Z :=
  match f with FsNone => 0 | ReadOnlySnapshot => 1 | IsolatedWritable => 2 | WritableWithGrants => 3 end.

Definition permits_read (f : FilesystemAccess) : bool :=
  match f with FsNone => false | _ => true end.
Definition permits_write (f : FilesystemAccess) : bool :=
  match f with IsolatedWritable | WritableWithGrants => true | _ => false end.

Inductive NetworkAccess := Denied | BrokeredNamed | BrokeredAny.

Definition network_ALL : list NetworkAccess := [Denied; BrokeredNamed; BrokeredAny].

Definition network_str (n : NetworkAccess) : string :=
  match n with
  | Denied => "denied" | BrokeredNamed => "brokered_named" | BrokeredAny => "brokered_any" end.

Definition network_rank (n : NetworkAccess) : Z :=
  match n with Denied => 0 | BrokeredNamed => 1 | BrokeredAny => 2 end.

Record ProviderControlEgress := mkControlEgress { control_access : NetworkAccess }.
Definition control_denied : ProviderControlEgress := mkControlEgress Denied.
Definition control_brokered (n : NetworkAccess) : ProviderControlEgress := mkControlEgress n.

Record ToolWorkloadEgress := mkToolEgress { tool_access : NetworkAccess }.
Definition tool_denied : ToolWorkloadEgress := mkToolEgress Denied.
Definition tool_brokered (n : NetworkAccess) : ToolWorkloadEgress := mkToolEgress n.

(** * Orderings *)

Inductive ProfileOrdering := Narrower | Identical | Wider | Incomparable.

Definition ordering_str (o : ProfileOrdering) : string :=
  match o with
  | Narrower => "narrower" | Identical => "identical" | Wider => "wider"
  | Incomparable => "incomparable"
  end.

Definition combine (a b : ProfileOrdering) : ProfileOrdering :=
  match a, b with
  | Incomparable, _ | _, Incomparable => Incomparable
  | Identical, kept => kept
  | kept, Identical => kept
  | Narrower, Narrower => Narrower
  | Wider, Wider => Wider
  | _, _ => Incomparable
  end.

Definition value_ordering (left right : Z) : ProfileOrdering :=
  match (left ?= right) with Lt => Narrower | Eq => Identical | Gt => Wider end.

Definition containment_ordering (left_within_right right_within_left : bool) : ProfileOrdering :=
  match left_within_right, right_within_left with
  | true, true => Identical
  | true, false => Narrower
  | false, true => Wider
  | false, false => Incomparable
  end.

Definition is_subset {A} `{EqDecision A} (left right : list A) : bool :=
  forallb (fun item => bool_decide (item ∈ right)) left.

Definition subset_ordering {A} `{EqDecision A} (left right : list A) : ProfileOrdering :=
  containment_ordering (is_subset left right) (is_subset right left).

Definition superset_ordering {A} `{EqDecision A} (left right : list A) : ProfileOrdering :=
  containment_ordering (is_subset right left) (is_subset left right).

Definition path_grants_compare (a b : PathGrants) : ProfileOrdering :=
  containment_ordering (is_within a b) (is_within b a).

(** * Allowlists and credentials *)

Inductive AllowlistClass := Executable | Interpreter | Tool | McpServer | Companion.

#[export] Instance AllowlistClass_eq_dec : EqDecision AllowlistClass.
Proof. solve_decision. Defined.

Definition allowlist_ALL : list AllowlistClass := [Executable; Interpreter; Tool; McpServer; Companion].

Definition allowlist_str (c : AllowlistClass) : string :=
  match c with
  | Executable => "executable" | Interpreter => "interpreter" | Tool => "tool"
  | McpServer => "mcp_server" | Companion => "companion"
  end.

Record AllowlistEntry := mkAllow { class : AllowlistClass; allow_name : list Z }.

#[export] Instance AllowlistEntry_eq_dec : EqDecision AllowlistEntry.
Proof. solve_decision. Defined.

Definition allowlist_entry_new (c : AllowlistClass) (name : list Z) : result SandboxError AllowlistEntry :=
  name ← sandbox_name name "allowlist_entry"; Ok (mkAllow c name).

Definition allowlists_declare : list AllowlistEntry -> result SandboxError (list AllowlistEntry) :=
  declare_with (fun held e => bool_decide (held = e)) "allowlists".

Definition entries_of_class (es : list AllowlistEntry) (c : AllowlistClass) : list AllowlistEntry :=
  List.filter (fun e => bool_decide (class e = c)) es.

Inductive ProcessClass := ProviderAdapter | ToolProcess | PMcpServer | PCompanion | ExtensionWorker.

#[export] Instance ProcessClass_eq_dec : EqDecision ProcessClass.
Proof. solve_decision. Defined.

Definition process_ALL : list ProcessClass :=
  [ProviderAdapter; ToolProcess; PMcpServer; PCompanion; ExtensionWorker].

Definition process_str (c : ProcessClass) : string :=
  match c with
  | ProviderAdapter => "provider_adapter" | ToolProcess => "tool_process"
  | PMcpServer => "mcp_server" | PCompanion => "companion" | ExtensionWorker => "extension_worker"
  end.

Record CredentialDescriptor := mkDescriptor { credential_name : list Z; recipient : ProcessClass }.

#[export] Instance CredentialDescriptor_eq_dec : EqDecision CredentialDescriptor.
Proof. solve_decision. Defined.

Definition credential_descriptor_new (name : list Z) (r : ProcessClass)
  : result SandboxError CredentialDescriptor :=
  name ← sandbox_name name "credential_descriptor"; Ok (mkDescriptor name r).

Definition credentials_declare
  : list CredentialDescriptor -> result SandboxError (list CredentialDescriptor) :=
  declare_with (fun held d => bool_decide (credential_name held = credential_name d))
    "credential_descriptors".

(** * Budgets *)

Inductive BudgetUnit :=
| Milliseconds | MemoryBytes | CpuMillicores | Processes | FileDescriptors | TempBytes
| SpoolBytes | ArtifactBytes.

Definition unit_ALL : list BudgetUnit :=
  [Milliseconds; MemoryBytes; CpuMillicores; Processes; FileDescriptors; TempBytes; SpoolBytes;
   ArtifactBytes].

Definition unit_str (u : BudgetUnit) : string :=
  match u with
  | Milliseconds => "milliseconds" | MemoryBytes => "memory_bytes"
  | CpuMillicores => "cpu_millicores" | Processes => "processes"
  | FileDescriptors => "file_descriptors" | TempBytes => "temp_bytes"
  | SpoolBytes => "spool_bytes" | ArtifactBytes => "artifact_bytes"
  end.

Definition ceiling (u : BudgetUnit) : Z :=
  match u with
  | Milliseconds => 24 * 60 * 60 * 1000
  | MemoryBytes => 64 * 1024 * 1024 * 1024
  | CpuMillicores => 64000
  | Processes => 4096
  | FileDescriptors => 65536
  | TempBytes => 512 * 1024 * 1024 * 1024
  | SpoolBytes => 256 * 1024 * 1024 * 1024
  | ArtifactBytes => 1024 * 1024 * 1024 * 1024
  end.

Record Budget := mkBudget { unit_ : BudgetUnit; quantity : Z }.

Definition budget_new (u : BudgetUnit) (q : Z) : result SandboxError Budget :=
  if ceiling u <? q then Err (BudgetOutOfRange (unit_str u) (ceiling u) q) else Ok (mkBudget u q).

Record BudgetQuantities := mkQuantities {
  q_cgroup_memory_bytes : Z; q_cgroup_cpu_millicores : Z; q_rlimit_processes : Z;
  q_rlimit_descriptors : Z; q_timeout_millis : Z; q_temporary_storage_bytes : Z;
  q_spool_bytes : Z; q_artifact_bytes : Z }.

Record Budgets := mkBudgets {
  cgroup_memory : Budget; cgroup_cpu : Budget; rlimit_processes : Budget;
  rlimit_descriptors : Budget; timeout : Budget; temporary_storage : Budget;
  spool : Budget; artifact : Budget }.

Definition budgets_declare (q : BudgetQuantities) : result SandboxError Budgets :=
  m ← budget_new MemoryBytes (q_cgroup_memory_bytes q);
  c ← budget_new CpuMillicores (q_cgroup_cpu_millicores q);
  p ← budget_new Processes (q_rlimit_processes q);
  d ← budget_new FileDescriptors (q_rlimit_descriptors q);
  t ← budget_new Milliseconds (q_timeout_millis q);
  ts ← budget_new TempBytes (q_temporary_storage_bytes q);
  sp ← budget_new SpoolBytes (q_spool_bytes q);
  a ← budget_new ArtifactBytes (q_artifact_bytes q);
  Ok (mkBudgets m c p d t ts sp a).

Definition all_budgets (b : Budgets) : list Budget :=
  [cgroup_memory b; cgroup_cpu b; rlimit_processes b; rlimit_descriptors b; timeout b;
   temporary_storage b; spool b; artifact b].

Definition budgets_compare (a b : Budgets) : ProfileOrdering :=
  foldl (fun ordering mt => combine ordering (value_ordering (quantity (fst mt)) (quantity (snd mt))))
    Identical (zip (all_budgets a) (all_budgets b)).

(** * Required and offered features *)

Record RequiredFeature := mkFeature { feature_name : list Z; accepted : list Digest }.

Definition required_feature_new (name : list Z) (accepted_implementations : list Digest)
  : result SandboxError RequiredFeature :=
  name ← sandbox_name name "required_feature";
  if bool_decide (accepted_implementations = []) then Err (SField "accepted_implementations" VEmpty)
  else if MAX_SANDBOX_ENTRIES <? len accepted_implementations
  then Err (TooManyEntries "accepted_implementations" MAX_SANDBOX_ENTRIES
              (len accepted_implementations))
  else Ok (mkFeature name accepted_implementations).

Definition accepts_implementation (f : RequiredFeature) (d : Digest) : bool :=
  bool_decide (d ∈ accepted f).

Definition RequiredFeatures := list RequiredFeature.

Definition same_feature (held f : RequiredFeature) : bool :=
  bool_decide (feature_name held = feature_name f).

Definition required_features_declare (fs : list RequiredFeature)
  : result SandboxError RequiredFeatures :=
  if bool_decide (fs = []) then Err (SField "required_features" VEmpty)
  else declare_with same_feature "required_features" fs.

Definition implementation_digests (fs : RequiredFeatures) : list Digest := fs ≫= accepted.

Definition find_feature (fs : RequiredFeatures) (name : list Z) : option RequiredFeature :=
  List.find (fun f => bool_decide (feature_name f = name)) fs.

Definition features_compare (a b : RequiredFeatures) : ProfileOrdering :=
  foldl (fun ordering f =>
    match find_feature b (feature_name f) with
    | Some counterpart => combine ordering (subset_ordering (accepted f) (accepted counterpart))
    | None => ordering
    end) (superset_ordering (feature_name <$> a) (feature_name <$> b)) a.

Record HostFeature := mkHostFeature { host_feature_name : list Z; implementation : Digest }.

Definition host_feature_new (name : list Z) (d : Digest) : result SandboxError HostFeature :=
  name ← sandbox_name name "host_feature"; Ok (mkHostFeature name d).

(** * Nested isolation and prohibited capabilities *)

Inductive IsolationRequirement := HostBoundary | SeparateChildBoundary | StrongerIsolation.

Definition isolation_ALL : list IsolationRequirement :=
  [HostBoundary; SeparateChildBoundary; StrongerIsolation].

Definition isolation_str (i : IsolationRequirement) : string :=
  match i with
  | HostBoundary => "host_boundary" | SeparateChildBoundary => "separate_child_boundary"
  | StrongerIsolation => "stronger_isolation"
  end.

Definition isolation_rank (i : IsolationRequirement) : Z :=
  match i with HostBoundary => 0 | SeparateChildBoundary => 1 | StrongerIsolation => 2 end.

Record NestedIsolation := mkIsolation { nested_tools : IsolationRequirement; extensions : IsolationRequirement }.

Definition isolation_compare (a b : NestedIsolation) : ProfileOrdering :=
  combine (value_ordering (isolation_rank (nested_tools b)) (isolation_rank (nested_tools a)))
          (value_ordering (isolation_rank (extensions b)) (isolation_rank (extensions a))).

Fixpoint collect_names (field : string) (collected values : list (list Z))
  : result SandboxError (list (list Z)) :=
  match values with
  | [] => Ok collected
  | v :: values =>
      name ← sandbox_name v field;
      if bool_decide (name ∈ collected) then Err (DuplicateEntry field)
      else collect_names field (collected ++ [name]) values
  end.

Definition names (values : list (list Z)) (field : string) : result SandboxError (list (list Z)) :=
  _ ← bounded_len (len values) field; collect_names field [] values.

Definition prohibited_declare (capabilities : list (list Z)) : result SandboxError (list (list Z)) :=
  names capabilities "prohibited_capabilities".

(** * Lemmas: orderings are containments *)

Lemma combine_containment p q p' q' :
  combine (containment_ordering p q) (containment_ordering p' q') =
  containment_ordering (p && p') (q && q').
Proof. by destruct p, q, p', q'. Qed.

Lemma value_ordering_containment l r :
  value_ordering l r = containment_ordering (l <=? r) (r <=? l).
Proof.
  unfold value_ordering, containment_ordering.
  destruct (Z.compare_spec l r), (Z.leb_spec l r), (Z.leb_spec r l); lia || done.
Qed.

Lemma is_subset_spec {A} `{EqDecision A} (l r : list A) : is_subset l r = true <-> l ⊆ r.
Proof.
  unfold is_subset. rewrite forallb_forall. setoid_rewrite <- list_elem_of_In.
  setoid_rewrite bool_decide_eq_true. done.
Qed.

(** A fold of [combine] over containments is the containment of the conjunctions. *)
Lemma fold_containment {A} (p q : A -> bool) (step : ProfileOrdering -> A -> ProfileOrdering) l a b :
  (forall o x, step o x = combine o (containment_ordering (p x) (q x))) ->
  foldl step (containment_ordering a b) l =
  containment_ordering (a && forallb p l) (b && forallb q l).
Proof.
  intros Hs. revert a b; induction l as [|x l IH]; intros a b; cbn.
  - by rewrite !andb_true_r.
  - by rewrite Hs, combine_containment, IH, !andb_assoc.
Qed.

Definition budgets_within (a b : Budgets) : bool :=
  forallb (fun mt => quantity (fst mt) <=? quantity (snd mt)) (zip (all_budgets a) (all_budgets b)).

Lemma budgets_compare_containment a b :
  budgets_compare a b = containment_ordering (budgets_within a b) (budgets_within b a).
Proof.
  unfold budgets_compare.
  rewrite (fold_containment (fun mt => quantity (fst mt) <=? quantity (snd mt))
    (fun mt => quantity (snd mt) <=? quantity (fst mt)) _ _ true true);
    [|intros; by rewrite value_ordering_containment].
  done.
Qed.

(** * Lemmas: features *)

(** What a reviewed feature list holds: one entry per name, none empty. *)
Definition features_ok (fs : RequiredFeatures) : Prop :=
  NoDup (feature_name <$> fs) /\ Forall (fun f => accepted f <> []) fs.

(** Requiring at least as much: every feature of [o] under no more
    implementations. *)
Definition features_within (m o : RequiredFeatures) : Prop :=
  forall g, g ∈ o -> exists f, f ∈ m /\ feature_name f = feature_name g /\ accepted f ⊆ accepted g.

Lemma find_feature_Some fs name f :
  find_feature fs name = Some f -> f ∈ fs /\ feature_name f = name.
Proof.
  intros [Hin Hn]%find_some. bool_prop. by rewrite list_elem_of_In.
Qed.

Lemma NoDup_name_inj fs f g :
  NoDup (feature_name <$> fs) -> f ∈ fs -> g ∈ fs -> feature_name f = feature_name g -> f = g.
Proof.
  intros Hn [i Hi]%list_elem_of_lookup [j Hj]%list_elem_of_lookup E.
  assert (i = j) as ->; [|congruence].
  apply (NoDup_lookup (feature_name <$> fs) i j (feature_name f)); [done|..];
    rewrite list_lookup_fmap; [by rewrite Hi|by rewrite Hj, E].
Qed.

Lemma find_feature_complete fs f :
  NoDup (feature_name <$> fs) -> f ∈ fs -> find_feature fs (feature_name f) = Some f.
Proof.
  intros Hn Hf. destruct (find_feature fs (feature_name f)) as [g|] eqn:E.
  - apply find_feature_Some in E as [Hg E]. by rewrite (NoDup_name_inj fs f g).
  - unfold find_feature in E. rewrite find_None_iff, Forall_forall in E.
    specialize (E f Hf). by rewrite bool_decide_true in E.
Qed.

(** The two boolean answers the comparison folds together. *)
Definition shared_within (left : bool) (b : RequiredFeatures) (f : RequiredFeature) : bool :=
  match find_feature b (feature_name f) with
  | Some g => if left then is_subset (accepted f) (accepted g) else is_subset (accepted g) (accepted f)
  | None => true
  end.

Lemma features_compare_containment a b :
  features_compare a b =
  containment_ordering
    (is_subset (feature_name <$> b) (feature_name <$> a) && forallb (shared_within true b) a)
    (is_subset (feature_name <$> a) (feature_name <$> b) && forallb (shared_within false b) a).
Proof.
  apply fold_containment. intros o f. unfold shared_within.
  destruct (find_feature b (feature_name f)); [done|].
  destruct o; done.
Qed.

Lemma names_subset (a b : RequiredFeatures) :
  is_subset (feature_name <$> a) (feature_name <$> b) = true <->
  forall f, f ∈ a -> exists g, g ∈ b /\ feature_name g = feature_name f.
Proof.
  rewrite is_subset_spec. unfold subseteq, list_subseteq. setoid_rewrite list_elem_of_fmap.
  split.
  - intros H f Hf. destruct (H (feature_name f)) as (g & ? & ?); eauto.
  - intros H n (f & -> & Hf). destruct (H f Hf) as (g & ? & ?); eauto.
Qed.

Lemma shared_within_spec left a b :
  NoDup (feature_name <$> b) ->
  forallb (shared_within left b) a = true <->
  forall f g, f ∈ a -> g ∈ b -> feature_name f = feature_name g ->
    if left then accepted f ⊆ accepted g else accepted g ⊆ accepted f.
Proof.
  intros Hb. rewrite forallb_forall. setoid_rewrite <- list_elem_of_In. unfold shared_within. split.
  - intros H f g Hf Hg E. specialize (H f Hf).
    rewrite E, (find_feature_complete b g Hb Hg) in H. destruct left; by apply is_subset_spec.
  - intros H f Hf. destruct (find_feature b (feature_name f)) as [g|] eqn:E; [|done].
    apply find_feature_Some in E as [Hg E]. specialize (H f g Hf Hg (eq_sym E)).
    destruct left; by apply is_subset_spec.
Qed.

Lemma features_within_left a b :
  features_ok a -> features_ok b ->
  is_subset (feature_name <$> b) (feature_name <$> a) && forallb (shared_within true b) a = true <->
  features_within a b.
Proof.
  intros [Ha _] [Hb _]. rewrite andb_true_iff, names_subset, shared_within_spec by done.
  split.
  - intros [Hn Hs] g Hg. destruct (Hn g Hg) as (f & Hf & E). exists f. eauto.
  - intros H. split; [intros g Hg; destruct (H g Hg) as (f & ? & ? & ?); eauto|].
    intros f g Hf Hg E. destruct (H g Hg) as (f' & Hf' & E' & Hs).
    rewrite (NoDup_name_inj a f f' Ha Hf Hf'); [done|congruence].
Qed.

Lemma features_within_right a b :
  features_ok a -> features_ok b ->
  is_subset (feature_name <$> a) (feature_name <$> b) && forallb (shared_within false b) a = true <->
  features_within b a.
Proof.
  intros [Ha _] [Hb _]. rewrite andb_true_iff, names_subset, shared_within_spec by done.
  split.
  - intros [Hn Hs] f Hf. destruct (Hn f Hf) as (g & Hg & E). exists g. eauto.
  - intros H. split; [intros f Hf; destruct (H f Hf) as (g & ? & ? & ?); eauto|].
    intros f g Hf Hg E. destruct (H f Hf) as (g' & Hg' & E' & Hs).
    rewrite (NoDup_name_inj b g g' Hb Hg Hg'); [done|congruence].
Qed.

(** * Lemmas: path grants *)

Inductive PathRight := RightRead | RightWrite | RightExecute.

(** What an access mode confers on its path. *)
Definition confers (a : PathAccess) (r : PathRight) : bool :=
  match r with
  | RightRead => true
  | RightWrite => bool_decide (a = ReadWrite)
  | RightExecute => bool_decide (a = ReadExecute)
  end.

Definition path_permits (gs : PathGrants) (p : SandboxPath) (r : PathRight) : Prop :=
  exists g, g ∈ gs /\ path g = p /\ confers (access g) r = true.

Lemma covers_confers a b :
  covers a b = true <-> forall r, confers b r = true -> confers a r = true.
Proof.
  destruct a, b; vm_compute; split; try done; intros H;
    first [by intros []|by specialize (H RightWrite eq_refl)|by specialize (H RightExecute eq_refl)].
Qed.

Lemma intersect_confers a b r : confers (intersect a b) r = confers a r && confers b r.
Proof. by destruct a, b, r. Qed.

Lemma is_within_spec a b :
  is_within a b = true <-> forall p r, path_permits a p r -> path_permits b p r.
Proof.
  unfold is_within, path_permits. rewrite forallb_forall. setoid_rewrite <- list_elem_of_In.
  split.
  - intros H p r (g & Hg & <- & Hr). specialize (H g Hg).
    apply existsb_exists in H as (h & Hh%list_elem_of_In & [Hp Hc]%andb_true_iff).
    bool_prop. exists h. split_and!; [done..|]. by eapply covers_confers.
  - intros H g Hg.
    assert (exists h, h ∈ b /\ path h = path g /\ covers (access h) (access g) = true)
      as (h & Hh & Hp & Hc).
    { destruct (access g) eqn:Eg.
      - destruct (H (path g) RightRead) as (h & ? & ? & ?); [by exists g|]. exists h. done.
      - destruct (H (path g) RightExecute) as (h & ? & ? & Hc); [exists g; by rewrite Eg|].
        exists h. cbn in Hc. bool_prop. by rewrite Hc.
      - destruct (H (path g) RightWrite) as (h & ? & ? & Hc); [exists g; by rewrite Eg|].
        exists h. cbn in Hc. bool_prop. by rewrite Hc. }
    apply existsb_exists. exists h. rewrite <- list_elem_of_In. split; [done|].
    by rewrite Hc, bool_decide_true.
Qed.

Lemma find_path gs g :
  NoDup (path <$> gs) -> g ∈ gs ->
  List.find (fun other => bool_decide (path other = path g)) gs = Some g.
Proof.
  induction gs as [|h gs IH]; [by intros _ ?%not_elem_of_nil|].
  intros [Hn Hd]%NoDup_cons [->|Hg]%elem_of_cons; cbn.
  - by rewrite bool_decide_true.
  - rewrite bool_decide_false; [by apply IH|]. intros E. apply Hn. rewrite E.
    by apply list_elem_of_fmap_2.
Qed.

Lemma elem_of_narrowed gs requested x :
  x ∈ narrowed_to gs requested <->
  exists g other, g ∈ gs /\
    List.find (fun other => bool_decide (path other = path g)) requested = Some other /\
    x = mkPathGrant (path g) (intersect (access g) (access other)).
Proof.
  unfold narrowed_to. rewrite list_elem_of_omap. split.
  - intros (g & Hg & E). destruct (List.find _ _) as [o|] eqn:Ef; [|done].
    injection E as <-. eauto.
  - intros (g & o & Hg & Ef & ->). exists g. split; [done|]. by rewrite Ef.
Qed.

Lemma collect_spec {A B} `{EqDecision B} (key : A -> B) field acc items :
  collect (fun held x => bool_decide (key held = key x)) field acc items =
  if decide (NoDup (key <$> items) /\ Forall (fun k => k ∉ key <$> acc) (key <$> items))
  then Ok (acc ++ items) else Err (DuplicateEntry field).
Proof.
  revert acc; induction items as [|x items IH]; intros acc; cbn [collect fmap list_fmap].
  { rewrite decide_True by (split; constructor). by rewrite app_nil_r. }
  destruct (existsb _ acc) eqn:E.
  - apply existsb_exists in E as (h & Hh%list_elem_of_In & E). bool_prop.
    rewrite decide_False; [done|]. intros [_ [Hx _]%Forall_cons]. apply Hx.
    rewrite <- E. by apply list_elem_of_fmap_2.
  - assert (Hx : key x ∉ key <$> acc).
    { intros (h & Hk & Hh)%list_elem_of_fmap. apply not_true_iff_false in E. apply E.
      apply existsb_exists. exists h. rewrite <- list_elem_of_In.
      split; [done|]. by rewrite bool_decide_true. }
    rewrite IH, <- app_assoc, fmap_app. case_decide as H1; case_decide as H2; try done; exfalso.
    + apply H2. destruct H1 as [H1 H3]. rewrite Forall_forall in H3.
      rewrite NoDup_cons, Forall_cons, Forall_forall. split_and!; try done; set_solver.
    + apply H1. rewrite NoDup_cons, Forall_cons, !Forall_forall in *. set_solver.
Qed.

Lemma declare_with_spec {A B} `{EqDecision B} (key : A -> B) field items :
  declare_with (fun held x => bool_decide (key held = key x)) field items =
  if MAX_SANDBOX_ENTRIES <? len items
  then Err (TooManyEntries field MAX_SANDBOX_ENTRIES (len items))
  else if decide (NoDup (key <$> items)) then Ok items else Err (DuplicateEntry field).
Proof.
  unfold declare_with. case_match; [done|]. rewrite (collect_spec key).
  assert (Forall (fun k => k ∉ key <$> @nil A) (key <$> items))
    by (apply Forall_forall; intros ? _; apply not_elem_of_nil).
  destruct (decide (NoDup (key <$> items))); [rewrite decide_True|rewrite decide_False]; naive_solver.
Qed.

(** Narrowing is the exact intersection of what two reviewed grant sets
    permit: a path may be read, written or executed under the narrowed set
    exactly when it may be under both; so the result lies within each, and any
    set within both lies within it. *)
Theorem narrowing_is_intersection a b :
  path_grants_declare b = Ok b ->
  (forall p r, path_permits (narrowed_to a b) p r <-> path_permits a p r /\ path_permits b p r) /\
  is_within (narrowed_to a b) a = true /\ is_within (narrowed_to a b) b = true /\
  (forall c, is_within c a = true -> is_within c b = true -> is_within c (narrowed_to a b) = true).
Proof.
  intros Hb. unfold path_grants_declare, same_path in Hb. rewrite (declare_with_spec path) in Hb.
  case_match; [done|]. destruct (decide (NoDup (path <$> b))) as [Hd|]; [|done]. clear Hb.
  assert (HM : forall p r, path_permits (narrowed_to a b) p r <->
                           path_permits a p r /\ path_permits b p r).
  { intros p r. unfold path_permits. setoid_rewrite elem_of_narrowed. split.
    - intros (x & (g & o & Hg & [Ho Hp]%find_some & ->) & <- & Hr). cbn in *.
      rewrite intersect_confers in Hr. bool_prop. destruct Hr. apply list_elem_of_In in Ho.
      split; [by exists g|by exists o].
    - intros [(g & Hg & <- & Hgr) (o & Ho & Hp & Hor)].
      eexists. split; [exists g, o; split_and!; [done| |reflexivity]|].
      { rewrite <- Hp. by apply find_path. }
      cbn. by rewrite intersect_confers, Hgr, Hor. }
  split; [exact HM|]. setoid_rewrite is_within_spec. setoid_rewrite HM. naive_solver.
Qed.

Definition sample_grants : PathGrants :=
  [mkPathGrant (str "/w") ReadWrite; mkPathGrant (str "/b") ReadExecute].

Lemma narrowing_is_intersection_witness :
  let b := [mkPathGrant (str "/w") ReadExecute; mkPathGrant (str "/c") ReadWrite] in
  path_grants_declare b = Ok b /\
  narrowed_to sample_grants b = [mkPathGrant (str "/w") ReadOnly] /\
  is_within (narrowed_to sample_grants b) sample_grants = true.
Proof.
  cbv zeta. split; [reflexivity|]. split; [reflexivity|].
  destruct (narrowing_is_intersection sample_grants
    [mkPathGrant (str "/w") ReadExecute; mkPathGrant (str "/c") ReadWrite]) as (_ & H & _);
    [reflexivity|exact H].
Defined.
