(* ===== verification/Address.v ===== *)
(** Internet addresses as text: the parsers of the standard library
    ([Ipv4Addr::from_str], [Ipv6Addr::from_str], [IpAddr::from_str]) that URLs
    and the egress broker's hosts are read with, and the characters they
    accept. *)

From S2P Require Import Prelude Text.

(** * Address parsers of the standard library

    A parser answers what it read and the rest of the input, or [None] having
    consumed nothing. *)

Definition to_digit (radix c : Z) : option Z :=
  let v := if in_range 48 57 c then Some (c - 48)
           else if in_range 97 122 c then Some (c - 97 + 10)
           else if in_range 65 90 c then Some (c - 65 + 10)
           else None in
  match v with Some d => if d <? radix then Some d else None | None => None end.

Fixpoint number_span (radix : Z) (t : list Z) : list Z * list Z :=
  match t with
  | c :: rest =>
      match to_digit radix c with
      | Some d => let (ds, rest) := number_span radix rest in (d :: ds, rest)
      | None => ([], t)
      end
  | [] => ([], [])
  end.

(** [read_number] with a digit limit, into an integer of at most [max]. *)
Definition read_number (radix max_digits : Z) (allow_zero_prefix : bool) (max : Z) (t : list Z)
  : option (Z * list Z) :=
  let (ds, rest) := number_span radix t in
  let value := foldl (fun acc d => acc * radix + d) 0 ds in
  if max_digits <? len ds then None
  else if len ds =? 0 then None
  else if negb allow_zero_prefix && bool_decide (head t = Some 48) && (1 <? len ds) then None
  else if max <? value then None
  else Some (value, rest).

Definition read_given_char (c : Z) (t : list Z) : option (list Z) :=
  match t with x :: rest => if x =? c then Some rest else None | [] => None end.

Definition read_separator {A} (sep index : Z) (inner : list Z -> option (A * list Z)) (t : list Z)
  : option (A * list Z) :=
  if 0 <? index then match read_given_char sep t with Some t => inner t | None => None end
  else inner t.

Definition read_octet (index : Z) (t : list Z) : option (Z * list Z) :=
  read_separator 46 index (read_number 10 3 false 255) t.

Definition read_ipv4_addr (t : list Z) : option (list Z * list Z) :=
  '(a, t) ← read_octet 0 t;
  '(b, t) ← read_octet 1 t;
  '(c, t) ← read_octet 2 t;
  '(d, t) ← read_octet 3 t;
  Some ([a; b; c; d], t).

(** The two groups of an embedded IPv4 address. *)
Definition ipv4_groups (octets : list Z) : list Z :=
  match octets with [a; b; c; d] => [a * 256 + b; c * 256 + d] | _ => [] end.

(** [Ipv4Addr::from_str(s).is_ok()]. *)
Definition ipv4_from_str (s : list Z) : bool :=
  if 15 <? str_len s then false
  else match read_ipv4_addr s with Some (_, []) => true | _ => false end.

(** [read_groups] over [limit] groups from index [i]: the groups it read, and
    whether they end in an embedded IPv4 address. *)
Fixpoint read_groups (todo : nat) (i limit : Z) (t : list Z) : (list Z * bool) * list Z :=
  match todo with
  | O => (([], false), t)
  | S todo =>
      match (if i <? limit - 1 then read_separator 58 i read_ipv4_addr t else None) with
      | Some (octets, rest) => ((ipv4_groups octets, true), rest)
      | None =>
          match read_separator 58 i (read_number 16 4 true 65535) t with
          | Some (group, rest) =>
              let '((groups, v4), rest) := read_groups todo (i + 1) limit rest in
              ((group :: groups, v4), rest)
          | None => (([], false), t)
          end
      end
  end.

(** The eight segments: what stands before the double colon, zeros, and what
    stands after it. *)
Definition read_ipv6_addr (t : list Z) : option (list Z * list Z) :=
  let '((head, head_ipv4), rest) := read_groups 8 0 8 t in
  if len head =? 8 then Some (head, rest)
  else if head_ipv4 then None
  else
    rest ← read_given_char 58 rest;
    rest ← read_given_char 58 rest;
    let limit := 8 - (len head + 1) in
    let '((tail, _), rest) := read_groups (Z.to_nat limit) 0 limit rest in
    Some (head ++ replicate (8 - length head - length tail) 0 ++ tail, rest).

(** [Ipv6Addr::from_str]. *)
Definition parse_ipv6 (s : list Z) : option (list Z) :=
  match read_ipv6_addr s with Some (segments, []) => Some segments | _ => None end.

(** [Ipv6Addr::from_str(s).is_ok()]. *)
Definition ipv6_from_str (s : list Z) : bool := bool_decide (is_Some (parse_ipv6 s)).

(** [IpAddr]: four octets, or eight segments. *)
Inductive IpAddr :=
| V4 (octets : list Z)
| V6 (segments : list Z).

#[export] Instance IpAddr_eq_dec : EqDecision IpAddr.
Proof. solve_decision. Defined.

(** [IpAddr::from_str]: the IPv4 reader first, then the IPv6 one, over the whole
    input. *)
Definition parse_ip (s : list Z) : option IpAddr :=
  match read_ipv4_addr s with
  | Some (octets, rest) => match rest with [] => Some (V4 octets) | _ => None end
  | None => match read_ipv6_addr s with Some (segments, []) => Some (V6 segments) | _ => None end
  end.

(** * What the parsers consume *)

(** What a parser read, in front of the rest. *)
Lemma number_span_app radix t ds rest :
  number_span radix t = (ds, rest) ->
  exists cs, t = cs ++ rest /\ length cs = length ds /\ Forall (fun c => is_Some (to_digit radix c)) cs.
Proof.
  revert ds rest; induction t as [|c t IH]; intros ds rest; cbn [number_span].
  { intros [= <- <-]. by exists []. }
  destruct (to_digit radix c) as [d|] eqn:Ed.
  - destruct (number_span radix t) as [ds' rest'] eqn:E. intros [= <- <-].
    destruct (IH _ _ eq_refl) as (cs & -> & Hl & Hf). exists (c :: cs).
    split; [done|]. split; [cbn; lia|]. constructor; [eauto|done].
  - intros [= <- <-]. by exists [].
Qed.

Lemma read_number_app radix m z max t v rest :
  read_number radix m z max t = Some (v, rest) ->
  exists cs, t = cs ++ rest /\ 1 <= len cs <= m /\ Forall (fun c => is_Some (to_digit radix c)) cs.
Proof.
  unfold read_number. destruct (number_span radix t) as [ds r] eqn:E.
  apply number_span_app in E as (cs & -> & Hl & Hf).
  repeat (case_match; [done|]). intros [= <- <-]. bool_prop. exists cs.
  unfold len in *. split; [done|]. split; [lia|done].
Qed.

Lemma read_given_char_app c t rest : read_given_char c t = Some rest -> t = c :: rest.
Proof.
  destruct t as [|x t]; cbn; [done|]. destruct (Z.eqb_spec x c) as [->|]; [|done]. by intros [= ->].
Qed.

Lemma decimal_digit c : is_Some (to_digit 10 c) -> is_ascii_digit c = true.
Proof.
  unfold to_digit, is_ascii_digit. intros [d Hd]. revert Hd.
  destruct (in_range 48 57 c) eqn:E1; [done|].
  destruct (in_range 97 122 c) eqn:E2; [|destruct (in_range 65 90 c) eqn:E3; [|done]];
    case_match; try done; unfold in_range in *; bool_prop; lia.
Qed.

Lemma read_octet_app i t v rest :
  read_octet i t = Some (v, rest) ->
  exists cs, t = (if 0 <? i then [46] else []) ++ cs ++ rest /\ 1 <= len cs <= 3 /\
    Forall (fun c => is_ascii_digit c = true) cs.
Proof.
  unfold read_octet, read_separator. intros H.
  assert (exists t', t = (if 0 <? i then [46] else []) ++ t' /\ read_number 10 3 false 255 t' = Some (v, rest))
    as (t' & -> & H').
  { destruct (0 <? i); [|by exists t]. destruct (read_given_char 46 t) as [t'|] eqn:E; [|done].
    apply read_given_char_app in E as ->. by exists t'. }
  apply read_number_app in H' as (cs & -> & Hl & Hf). exists cs. split; [done|]. split; [done|].
  eapply Forall_impl; [exact Hf|apply decimal_digit].
Qed.

Lemma read_ipv4_app t a rest :
  read_ipv4_addr t = Some (a, rest) ->
  exists p q r s, t = p ++ 46 :: q ++ 46 :: r ++ 46 :: s ++ rest /\
    Forall (fun o => 1 <= len o <= 3 /\ Forall (fun c => is_ascii_digit c = true) o) [p; q; r; s].
Proof.
  unfold read_ipv4_addr, mbind, option_bind. intros H.
  destruct (read_octet 0 t) as [[v0 t0]|] eqn:E0; [|done].
  destruct (read_octet 1 t0) as [[v1 t1]|] eqn:E1; [|done].
  destruct (read_octet 2 t1) as [[v2 t2]|] eqn:E2; [|done].
  destruct (read_octet 3 t2) as [[v3 t3]|] eqn:E3; [|done].
  injection H as <- <-.
  apply read_octet_app in E0 as (p & -> & ? & ?), E1 as (q & -> & ? & ?),
    E2 as (r & -> & ? & ?), E3 as (s & -> & ? & ?).
  exists p, q, r, s. split; [done|]. rewrite !Forall_cons, Forall_nil. done.
Qed.

(** The characters an address is written with. *)
Definition addr_char (c : Z) : Prop := is_ascii_alphanumeric c = true \/ c = 46 \/ c = 58.

Lemma to_digit_addr radix c : is_Some (to_digit radix c) -> addr_char c.
Proof.
  unfold to_digit, addr_char, is_ascii_alphanumeric, is_ascii_digit, is_ascii_lowercase,
    is_ascii_uppercase. intros [d Hd]. left.
  destruct (in_range 48 57 c), (in_range 97 122 c), (in_range 65 90 c); done.
Qed.

Lemma digits_addr cs : Forall (fun c => is_ascii_digit c = true) cs -> Forall addr_char cs.
Proof.
  intros H. eapply Forall_impl; [exact H|]. intros c Hc. left. unfold is_ascii_alphanumeric. by rewrite Hc.
Qed.

Definition consumes {A} (read : list Z -> option (A * list Z)) : Prop :=
  forall t a rest, read t = Some (a, rest) -> exists cs, t = cs ++ rest /\ Forall addr_char cs.

Lemma consumes_ipv4 : consumes read_ipv4_addr.
Proof.
  intros t a rest (p & q & r & s & -> & Hf)%read_ipv4_app.
  rewrite !Forall_cons in Hf. destruct_and!.
  exists (p ++ 46 :: q ++ 46 :: r ++ 46 :: s). split; [by rewrite <- !app_assoc; cbn; rewrite <- !app_assoc; cbn; rewrite <- app_assoc|].
  assert (addr_char 46) by (right; by left).
  rewrite !Forall_app, !Forall_cons, !Forall_app, !Forall_cons, !Forall_app, !Forall_cons.
  auto 10 using digits_addr.
Qed.

Lemma consumes_number radix m z max : consumes (read_number radix m z max).
Proof.
  intros t a rest (cs & -> & _ & Hf)%read_number_app. exists cs. split; [done|].
  eapply Forall_impl; [exact Hf|apply to_digit_addr].
Qed.

Lemma consumes_separator {A} i (read : list Z -> option (A * list Z)) :
  consumes read -> consumes (read_separator 58 i read).
Proof.
  intros Hr t a rest. unfold read_separator. case_match; [|apply Hr].
  destruct (read_given_char 58 t) as [t'|] eqn:E; [|done]. apply read_given_char_app in E as ->.
  intros (cs & -> & Hf)%Hr. exists (58 :: cs). split; [done|]. constructor; [right; by right|done].
Qed.

Lemma read_groups_app todo i limit t r rest :
  read_groups todo i limit t = (r, rest) -> exists cs, t = cs ++ rest /\ Forall addr_char cs.
Proof.
  revert i t r; induction todo as [|todo IH]; intros i t r; cbn [read_groups].
  { intros [= <- <-]. by exists []. }
  destruct (if i <? limit - 1 then _ else _) as [[v4 rest']|] eqn:E.
  - intros [= <- <-]. destruct (i <? limit - 1); [|done].
    by apply (consumes_separator i _ consumes_ipv4) in E.
  - destruct (read_separator 58 i (read_number 16 4 true 65535) t) as [[g rest']|] eqn:Eg.
    + apply (consumes_separator i _ (consumes_number _ _ _ _)) in Eg as (cs & -> & Hf).
      destruct (read_groups todo (i + 1) limit rest') as [[gs v4] rest2] eqn:Er.
      intros [= <- <-]. apply IH in Er as (cs' & -> & Hf'). exists (cs ++ cs'). rewrite <- app_assoc.
      split; [done|]. by apply Forall_app.
    + intros [= <- <-]. by exists [].
Qed.

Lemma consumes_ipv6 : consumes read_ipv6_addr.
Proof.
  intros a segments rest'. unfold read_ipv6_addr, mbind, option_bind.
  destruct (read_groups 8 0 8 a) as [[n v4] rest] eqn:E.
  apply read_groups_app in E as (cs & -> & Hcs).
  destruct (len n =? 8); [intros [= <- <-]; eauto|].
  destruct v4; [done|].
  destruct (read_given_char 58 rest) as [r1|] eqn:E1; [|done]. apply read_given_char_app in E1 as ->.
  destruct (read_given_char 58 r1) as [r2|] eqn:E2; [|done]. apply read_given_char_app in E2 as ->.
  destruct (read_groups _ 0 _ r2) as [[tl b] rest2] eqn:E3. apply read_groups_app in E3 as (cs2 & -> & Hcs2).
  intros [= <- <-]. assert (addr_char 58) by (right; by right).
  exists (cs ++ 58 :: 58 :: cs2). split; [by rewrite <- app_assoc|].
  apply Forall_app. split; [done|]. by repeat constructor.
Qed.

Lemma ipv6_chars a : ipv6_from_str a = true -> Forall addr_char a.
Proof.
  unfold ipv6_from_str, parse_ipv6. rewrite bool_decide_eq_true.
  destruct (read_ipv6_addr a) as [[s [|? ?]]|] eqn:E; intros [? H]; try done.
  apply consumes_ipv6 in E as (cs & -> & Hf). by rewrite app_nil_r.
Qed.
