(* ===== verification/Url.v ===== *)
(** Public HTTP URLs: ports, DNS names, authorities and [PublicHttpUrl] of
    [automonique-protocol/src/primitives.rs], over the address parsers of
    [Address].

    Values are lists of scalar values; every test here is on ASCII text, where
    scalars and bytes agree. *)

From S2P Require Import Prelude Text Codec Values SandboxValues Address.

Definition MAX_DNS_NAME_BYTES : Z := 253.
Definition MAX_DNS_LABEL_BYTES : Z := 63.

Inductive UrlError :=
| UrlValue (error : ValueError)
| NonAscii
| Whitespace
| Scheme
| UserInfo
| Fragment
| Backslash
| EmptyHost
| Host
| Port.

Definition url_category (e : UrlError) : string :=
  match e with
  | UrlValue inner => value_category inner
  | NonAscii => "non_ascii"
  | Whitespace => "whitespace"
  | Scheme => "scheme"
  | UserInfo => "user_info"
  | Fragment => "fragment"
  | Backslash => "backslash"
  | EmptyHost => "empty_host"
  | Host => "host"
  | Port => "port"
  end.

(** * Authorities *)

(** [port.parse::<u32>()] of a string of digits: [None] when it overflows. *)
Definition parse_u32 (digits : list Z) : option Z := check_u32 (dec_value digits).

Definition starts_with (c : Z) (t : list Z) : bool := bool_decide (head t = Some c).

Definition validate_port (port : list Z) : result UrlError unit :=
  if bool_decide (port = []) || negb (forallb is_ascii_digit port) then Err Port
  else if (1 <? str_len port) && starts_with 48 port then Err Port
  else match parse_u32 port with
       | Some value => if (1 <=? value) && (value <=? 65535) then Ok tt else Err Port
       | None => Err Port
       end.

Definition is_label (label : list Z) : bool :=
  negb (bool_decide (label = []))
  && (str_len label <=? MAX_DNS_LABEL_BYTES)
  && negb (starts_with 45 label)
  && negb (ends_with 45 label)
  && forallb (fun b => is_ascii_alphanumeric b || (b =? 45)) label.

Definition is_dns_name (host : list Z) : bool :=
  if bool_decide (host = []) || (MAX_DNS_NAME_BYTES <? str_len host) then false
  else forallb is_label (split_on 46 host).

Definition validate_authority (authority : list Z) : result UrlError unit :=
  if contains 64 authority then Err UserInfo
  else if bool_decide (authority = []) then Err EmptyHost
  else match strip_prefix [91] authority with
       | Some rest =>
           match split_once 93 rest with
           | None => Err Host
           | Some (inside, tail) =>
               if bool_decide (inside = []) then Err EmptyHost
               else if negb (ipv6_from_str inside) then Err Host
               else match tail with
                    | [] => Ok tt
                    | _ => match strip_prefix [58] tail with
                           | Some port => validate_port port
                           | None => Err Host
                           end
                    end
           end
       | None =>
           if contains 93 authority then Err Host
           else
             let '(host, port) := match split_once 58 authority with
                                  | Some (host, port) => (host, Some port)
                                  | None => (authority, None)
                                  end in
             if bool_decide (host = []) then Err EmptyHost
             else if contains 58 host then Err Host
             else if negb (is_dns_name host) && negb (ipv4_from_str host) then Err Host
             else match port with Some port => validate_port port | None => Ok tt end
       end.

(** * URLs *)

Definition is_ascii (c : Z) : bool := in_range 0 127 c.
Definition is_ascii_whitespace (b : Z) : bool :=
  (b =? 32) || (b =? 9) || (b =? 10) || (b =? 12) || (b =? 13).

(** The authority ends at the first slash or question mark. *)
Fixpoint authority_of (rest : list Z) : list Z :=
  match rest with
  | [] => []
  | c :: rest => if (c =? 47) || (c =? 63) then [] else c :: authority_of rest
  end.

Definition public_url_new (max_bytes : Z) (value : list Z) : result UrlError (list Z) :=
  _ ← map_err UrlValue (bounded_value value max_bytes);
  if negb (forallb is_ascii value) then Err NonAscii
  else if existsb is_ascii_whitespace value then Err Whitespace
  else if contains 92 value then Err Backslash
  else if contains 35 value then Err Fragment
  else
    rest ← match strip_prefix (str "https://") value with
           | Some rest => Ok rest
           | None => match strip_prefix (str "http://") value with
                     | Some rest => Ok rest
                     | None => Err Scheme
                     end
           end;
    _ ← validate_authority (authority_of rest);
    Ok value.

(** * Ports *)

Lemma ascii_str_len t : Forall (fun c => in_range 0 127 c = true) t -> str_len t = len t.
Proof. intros H. unfold str_len. by rewrite utf8_ascii. Qed.

Lemma digit_ascii d : is_ascii_digit d = true -> in_range 0 127 d = true.
Proof. rewrite digit_range. unfold in_range. bool_prop. lia. Qed.

(** A port is accepted exactly when it is the decimal spelling of a number in
    [1..=65535]. *)
Lemma validate_port_exact port :
  validate_port port = Ok tt <-> exists n, 1 <= n <= 65535 /\ port = dec n.
Proof.
  unfold validate_port. split.
  - destruct (bool_decide (port = []) || negb (forallb is_ascii_digit port)) eqn:E1; [done|].
    apply orb_false_iff in E1 as [Hne Hd]. apply negb_false_iff, Forall_forallb in Hd.
    destruct ((1 <? str_len port) && starts_with 48 port) eqn:E2; [done|].
    unfold parse_u32. destruct (check_u32 (dec_value port)) as [v|] eqn:Ev; [|done].
    destruct ((1 <=? v) && (v <=? 65535)) eqn:E3; [|done]. intros _.
    unfold check_u32 in Ev. case_match; [|done]. injection Ev as <-. bool_prop.
    exists (dec_value port). split; [lia|]. unfold dec. rewrite (proj2 (Z.ltb_ge _ _)) by lia.
    destruct (dec_nat_spec (dec_value port)) as (Hf & Hv & _ & Hp & _); [lia|].
    destruct Hp as (d & ds & Eds & Hd48); [lia|].
    apply dec_value_inj; [done|done| | |by rewrite Hv].
    + intros Hh. destruct port as [|c port]; [done|]. injection Hh as ->.
      destruct E2 as [E2|E2]; [|unfold starts_with in E2; by rewrite bool_decide_true in E2].
      rewrite ascii_str_len in E2 by (eapply Forall_impl; [exact Hd|apply digit_ascii]).
      rewrite len_cons in E2. pose proof (len_nonneg port).
      assert (len port = 0) as Hl by lia. destruct port; [|rewrite len_cons in Hl; pose proof (len_nonneg port); lia].
      change (dec_value [48]) with 0 in *. lia.
    + rewrite Eds. cbn. congruence.
  - intros (n & Hn & ->). unfold dec. rewrite (proj2 (Z.ltb_ge n 0)) by lia.
    destruct (dec_nat_spec n) as (Hf & Hv & Hne & Hp & _); [lia|].
    destruct Hp as (d & ds & Eds & Hd48); [lia|].
    rewrite bool_decide_false by done.
    rewrite (proj2 (forallb_forall is_ascii_digit (dec_nat n)));
      [|intros x Hx%list_elem_of_In; rewrite Forall_forall in Hf; by apply Hf].
    assert (Hh : starts_with 48 (dec_nat n) = false)
      by (unfold starts_with; rewrite Eds; apply bool_decide_false; cbn; congruence).
    cbn [orb negb]. rewrite Hh, andb_false_r.
    unfold parse_u32. rewrite Hv. unfold check_u32.
    rewrite (proj2 (andb_true_iff _ _)) by (split; apply Z.leb_le; widths; lia).
    by rewrite (proj2 (andb_true_iff _ _)) by (split; apply Z.leb_le; lia).
Qed.

(** * Hosts *)

(** Every address in dotted form is also a DNS name, so the second test of the
    host decides nothing. *)
Lemma ipv4_is_dns h : ipv4_from_str h = true -> is_dns_name h = true.
Proof.
  unfold ipv4_from_str. case_match eqn:El; [done|].
  destruct (read_ipv4_addr h) as [[a []]|] eqn:E; try done. intros _.
  apply read_ipv4_app in E as (p & q & r & s & -> & Hf). rewrite app_nil_r in *.
  assert (Hd : forall o, o ∈ [p; q; r; s] -> is_label o = true /\ 46 ∉ o).
  { intros o Ho. rewrite Forall_forall in Hf. destruct (Hf o Ho) as [Hl Ho'].
    split; [|intros H46; rewrite Forall_forall in Ho'; by specialize (Ho' _ H46)].
    assert (Hn : forall c, c ∈ o -> 48 <= c <= 57)
      by (intros c Hc; rewrite Forall_forall in Ho'; by apply digit_range, Ho').
    unfold is_label. rewrite ascii_str_len by (eapply Forall_impl; [exact Ho'|apply digit_ascii]).
    rewrite !andb_true_iff, !negb_true_iff. split_and!.
    - apply bool_decide_false. intros ->. change (len (@nil Z)) with 0 in Hl. lia.
    - apply Z.leb_le. unfold MAX_DNS_LABEL_BYTES. lia.
    - apply bool_decide_false. intros Hh. destruct o; [done|]. injection Hh as ->.
      specialize (Hn 45 ltac:(left)). lia.
    - apply bool_decide_false. intros Hh%last_Some_elem_of. specialize (Hn 45 Hh). lia.
    - apply forallb_forall. intros c Hc%list_elem_of_In. specialize (Hn c Hc).
      unfold is_ascii_alphanumeric. rewrite (proj2 (digit_range c)) by lia. done. }
  unfold is_dns_name. rewrite bool_decide_false by (by destruct p).
  rewrite (proj2 (Z.ltb_ge _ _)) by (unfold MAX_DNS_NAME_BYTES; bool_prop; lia). cbn [orb].
  rewrite !split_on_app, split_on_none by (apply Hd; set_solver).
  cbn [forallb]. rewrite !(fun o H => proj1 (Hd o H)) by set_solver. done.
Qed.

(** * Authorities *)

(** An authority is a DNS name or a bracketed IPv6 address, with a port or
    without. *)
Inductive host_form : list Z -> Prop :=
| host_name h : is_dns_name h = true -> host_form h
| host_ipv6 a : a <> [] -> ipv6_from_str a = true -> host_form (91 :: a ++ [93]).

Inductive authority_form : list Z -> Prop :=
| form_host h : host_form h -> authority_form h
| form_port h n : host_form h -> 1 <= n <= 65535 -> authority_form (h ++ 58 :: dec n).

Lemma split_once_Some sep t a b :
  split_once sep t = Some (a, b) <-> t = a ++ sep :: b /\ (sep ∉ a).
Proof.
  revert a; induction t as [|c t IH]; intros a; cbn [split_once].
  { split; [done|]. intros [H _]. by destruct a. }
  destruct (Z.eqb_spec c sep) as [->|Hne].
  - split; [intros [= <- <-]; split; [done|apply not_elem_of_nil]|].
    intros [E Hn]. destruct a as [|x a]; cbn in E; injection E; [by intros ->|].
    intros _ ->. destruct Hn. left.
  - destruct (split_once sep t) as [[x y]|] eqn:E.
    + split.
      * intros [= <- <-]. destruct (proj1 (IH x) eq_refl) as [-> Hx].
        split; [done|]. by apply not_elem_of_cons.
      * intros [E' Hn]. destruct a as [|z a]; cbn in E'; injection E'; [congruence|].
        intros E2 ->. apply not_elem_of_cons in Hn as [_ Hn].
        assert (H : Some (x, y) = Some (a, b)) by by apply IH. by injection H as -> ->.
    + split; [done|]. intros [E' Hn]. destruct a as [|z a]; cbn in E'; injection E'; [congruence|].
      intros E2 ->. apply not_elem_of_cons in Hn as [_ Hn].
      assert (H : None = Some (a, b)) by by apply IH. done.
Qed.

Lemma split_once_None sep t : split_once sep t = None <-> sep ∉ t.
Proof.
  induction t as [|c t IH]; cbn [split_once].
  { split; [intros _; apply not_elem_of_nil|done]. }
  rewrite not_elem_of_cons. destruct (Z.eqb_spec c sep) as [->|Hne]; [naive_solver|].
  destruct (split_once sep t) as [[x y]|]; naive_solver.
Qed.

Lemma split_on_elem sep t c : c ∈ t -> c = sep \/ exists p, p ∈ split_on sep t /\ c ∈ p.
Proof.
  induction t as [|x t IH]; [by intros ?%not_elem_of_nil|]. cbn [split_on].
  destruct (Z.eqb_spec x sep) as [->|Hne].
  - intros [->|H]%elem_of_cons; [by left|]. destruct (IH H) as [|(p & Hp & Hc)]; [by left|].
    right. exists p. split; [by right|done].
  - pose proof (split_on_nonnil sep t) as Hnn. destruct (split_on sep t) as [|q qs] eqn:E; [done|].
    intros [->|H]%elem_of_cons; [right; exists (x :: q); split; left|].
    destruct (IH H) as [|(p & [->|Hp]%elem_of_cons & Hc)]; [by left|..]; right.
    + exists (x :: q). split; [left|by right].
    + exists p. split; [by right|done].
Qed.

Definition name_char (c : Z) : Prop := is_ascii_alphanumeric c = true \/ c = 45 \/ c = 46.

Lemma dns_chars h : is_dns_name h = true -> h <> [] /\ Forall name_char h.
Proof.
  unfold is_dns_name. case_bool_decide as He; [done|]. cbn [orb]. case_match; [done|].
  intros Hl. split; [done|]. apply Forall_forall. intros c Hc.
  destruct (split_on_elem 46 h c Hc) as [->|(p & Hp & Hcp)]; [right; by right|].
  rewrite forallb_forall in Hl. specialize (Hl p ltac:(by apply list_elem_of_In)).
  unfold is_label in Hl. rewrite !andb_true_iff in Hl. destruct Hl as [_ Hl].
  rewrite forallb_forall in Hl. specialize (Hl c ltac:(by apply list_elem_of_In)).
  bool_prop. unfold name_char. tauto.
Qed.

(** No delimiter of a URL is a character of a host. *)

Lemma alphanumeric_range c :
  is_ascii_alphanumeric c = true -> 48 <= c <= 57 \/ 97 <= c <= 122 \/ 65 <= c <= 90.
Proof.
  unfold is_ascii_alphanumeric, is_ascii_digit, is_ascii_lowercase, is_ascii_uppercase, in_range.
  bool_prop. lia.
Qed.

Lemma name_char_not c d : name_char c -> d ∈ [35; 47; 58; 63; 64; 91; 92; 93] -> c <> d.
Proof.
  intros Hc Hd ->. unfold name_char in Hc. rewrite !elem_of_cons, elem_of_nil in Hd.
  destruct Hc as [Hc%alphanumeric_range|Hc]; lia.
Qed.

Lemma addr_char_not c d : addr_char c -> d ∈ [35; 47; 63; 64; 91; 92; 93] -> c <> d.
Proof.
  intros Hc Hd ->. unfold addr_char in Hc. rewrite !elem_of_cons, elem_of_nil in Hd.
  destruct Hc as [Hc%alphanumeric_range|Hc]; lia.
Qed.

Lemma not_in_name d h :
  is_dns_name h = true -> d ∈ [35; 47; 58; 63; 64; 91; 92; 93] -> d ∉ h.
Proof.
  intros [_ Hf]%dns_chars Hd Hin. rewrite Forall_forall in Hf.
  by apply (name_char_not d d (Hf d Hin) Hd).
Qed.

Lemma not_in_addr d a : ipv6_from_str a = true -> d ∈ [35; 47; 63; 64; 91; 92; 93] -> d ∉ a.
Proof.
  intros Hf%ipv6_chars Hd Hin. rewrite Forall_forall in Hf. by apply (addr_char_not d d (Hf d Hin) Hd).
Qed.

Lemma not_in_port d n : 0 <= n -> d ∈ [35; 47; 58; 63; 64; 91; 92; 93] -> d ∉ dec n.
Proof.
  intros Hn Hd Hin. unfold dec in Hin. rewrite (proj2 (Z.ltb_ge n 0)) in Hin by lia.
  destruct (dec_nat_spec n Hn) as (Hf & _). rewrite Forall_forall in Hf.
  specialize (Hf d Hin). apply digit_range in Hf. rewrite !elem_of_cons, elem_of_nil in Hd. lia.
Qed.

Lemma strip_prefix_None c t : strip_prefix [c] t = None <-> head t <> Some c.
Proof.
  destruct t as [|x t]; cbn; [done|]. destruct (Z.eqb_spec c x); naive_solver.
Qed.

(** The host alone, and the host with its port. *)
Lemma validate_host_name h tail :
  is_dns_name h = true -> (tail = [] \/ exists port, tail = 58 :: port /\ (64 ∉ port) /\ (93 ∉ port)) ->
  validate_authority (h ++ tail) =
  match tail with [] => Ok tt | _ :: port => validate_port port end.
Proof.
  intros Hh Ht. pose proof Hh as Hh'. apply dns_chars in Hh' as [Hne _].
  assert (Hin : forall d, d ∈ [64; 93] -> d ∉ h ++ tail).
  { intros d Hd [H|H]%elem_of_app; [by apply (not_in_name d h Hh); [set_solver|]|].
    destruct Ht as [->|(port & -> & ? & ?)]; [by apply not_elem_of_nil in H|].
    apply elem_of_cons in H as [->|H]; set_solver. }
  unfold validate_authority. rewrite !(proj2 (contains_false _ _)) by (apply Hin; set_solver).
  rewrite bool_decide_false by (by destruct h).
  rewrite (proj2 (strip_prefix_None 91 (h ++ tail))).
  2:{ destruct h as [|c h]; [done|]. intros [= ->]. apply (not_in_name 91 _ Hh); [set_solver|left]. }
  assert (Hs : split_once 58 (h ++ tail) = match tail with [] => None | _ :: port => Some (h, port) end).
  { assert (58 ∉ h) by (apply (not_in_name 58 h Hh); set_solver).
    destruct Ht as [->|(port & -> & _)]; [apply split_once_None; by rewrite app_nil_r|].
    by apply split_once_Some. }
  rewrite Hs. destruct Ht as [->|(port & -> & _)].
  - rewrite app_nil_r, bool_decide_false by done.
    rewrite (proj2 (contains_false 58 h)) by (apply (not_in_name 58 h Hh); set_solver). by rewrite Hh.
  - rewrite bool_decide_false by done.
    rewrite (proj2 (contains_false 58 h)) by (apply (not_in_name 58 h Hh); set_solver). by rewrite Hh.
Qed.

Lemma validate_host_ipv6 a tail :
  a <> [] -> ipv6_from_str a = true -> (tail = [] \/ exists port, tail = 58 :: port /\ (64 ∉ port)) ->
  validate_authority ((91 :: a ++ [93]) ++ tail) =
  match tail with [] => Ok tt | _ :: port => validate_port port end.
Proof.
  intros Hne Ha Ht. unfold validate_authority.
  rewrite (proj2 (contains_false 64 _)).
  2:{ assert (64 ∉ a) by (apply (not_in_addr 64 a Ha); set_solver).
      destruct Ht as [->|(port & -> & ?)]; set_solver. }
  rewrite bool_decide_false by done. cbn [app strip_prefix]. rewrite Z.eqb_refl, <- app_assoc. cbn [app].
  rewrite (proj2 (split_once_Some 93 _ a tail)) by
    (split; [done|apply (not_in_addr 93 a Ha); set_solver]).
  rewrite bool_decide_false by done. rewrite Ha. cbn [negb].
  destruct Ht as [->|(port & -> & _)]; [done|]. cbn [strip_prefix]. by rewrite Z.eqb_refl.
Qed.

Lemma authority_sound a : validate_authority a = Ok tt -> authority_form a.
Proof.
  unfold validate_authority. destruct (contains 64 a); [done|]. case_bool_decide; [done|].
  destruct (strip_prefix [91] a) as [rest|] eqn:Es.
  - apply strip_prefix_Some in Es as ->. cbn [app].
    destruct (split_once 93 rest) as [[inside tail]|] eqn:E; [|done].
    apply split_once_Some in E as [-> _]. case_bool_decide; [done|].
    destruct (ipv6_from_str inside) eqn:E6; [|done]. cbn [negb].
    destruct tail as [|c tail]; [intros _; apply form_host; by constructor|].
    destruct (strip_prefix [58] (c :: tail)) as [port|] eqn:Ep; [|done].
    apply strip_prefix_Some in Ep as E'. rewrite E'. intros (n & Hn & ->)%validate_port_exact.
    replace (91 :: inside ++ 93 :: [58] ++ dec n) with ((91 :: inside ++ [93]) ++ 58 :: dec n)
      by (cbn; by rewrite <- app_assoc).
    apply form_port; [by constructor|done].
  - destruct (contains 93 a); [done|].
    destruct (split_once 58 a) as [[host port]|] eqn:E.
    + apply split_once_Some in E as [-> _]. case_bool_decide; [done|].
      destruct (contains 58 host); [done|].
      destruct (is_dns_name host) eqn:Ed; cbn [negb andb].
      2:{ destruct (ipv4_from_str host) eqn:E4; [|done]. apply ipv4_is_dns in E4. congruence. }
      intros (n & Hn & ->)%validate_port_exact. apply form_port; [by constructor|done].
    + case_bool_decide; [done|]. destruct (contains 58 a); [done|].
      destruct (is_dns_name a) eqn:Ed; cbn [negb andb]; [intros _; apply form_host; by constructor|].
      destruct (ipv4_from_str a) eqn:E4; [|done]. apply ipv4_is_dns in E4. congruence.
Qed.

Lemma authority_complete a : authority_form a -> validate_authority a = Ok tt.
Proof.
  assert (HP : forall n, 1 <= n <= 65535 -> validate_port (dec n) = Ok tt)
    by (intros n Hn; apply validate_port_exact; eauto).
  intros [h [h' Hh|i Hi Hi6]|h n [h' Hh|i Hi Hi6] Hn].
  - rewrite <- (app_nil_r h'). rewrite (validate_host_name h' []); auto.
  - rewrite <- (app_nil_r (91 :: i ++ [93])). rewrite (validate_host_ipv6 i []); auto.
  - rewrite validate_host_name; [by apply HP|done|]. right. exists (dec n).
    split_and!; [done|apply not_in_port; [lia|set_solver]..].
  - rewrite validate_host_ipv6; [by apply HP|done..|]. right. exists (dec n).
    split_and!; [done|apply not_in_port; [lia|set_solver]].
Qed.

(** What stands before the first slash or question mark. *)
Lemma authority_of_spec rest :
  exists tail, rest = authority_of rest ++ tail /\
    (forall c, c ∈ authority_of rest -> c <> 47 /\ c <> 63) /\
    (tail = [] \/ head tail = Some 47 \/ head tail = Some 63).
Proof.
  induction rest as [|c rest IH]; cbn [authority_of].
  { exists []. split; [done|]. split; [by intros ? ?%not_elem_of_nil|by left]. }
  destruct ((c =? 47) || (c =? 63)) eqn:E; bool_prop.
  - exists (c :: rest). split; [done|]. split; [by intros ? ?%not_elem_of_nil|].
    right. cbn. destruct E as [-> | ->]; auto.
  - destruct IH as (tail & E1 & H1 & H2). exists tail. split; [cbn; congruence|].
    split; [|done]. intros d [->|Hd]%elem_of_cons; [done|auto].
Qed.

Lemma authority_of_app a tail :
  (forall c, c ∈ a -> c <> 47 /\ c <> 63) ->
  (tail = [] \/ head tail = Some 47 \/ head tail = Some 63) ->
  authority_of (a ++ tail) = a.
Proof.
  intros Ha Ht. induction a as [|c a IH]; cbn [app authority_of].
  - destruct tail as [|x tail]; [done|]. destruct Ht as [|[[= ->]|[= ->]]]; done.
  - destruct (Ha c) as [H1 H2]; [left|].
    rewrite (proj2 (Z.eqb_neq c 47)), (proj2 (Z.eqb_neq c 63)) by done. cbn [orb].
    f_equal. apply IH. intros d Hd. apply Ha. by right.
Qed.

(** The printable ASCII a URL may hold: no space, no backslash, no fragment. *)
Definition url_char (c : Z) : Prop := 33 <= c <= 126 /\ c <> 92 /\ c <> 35.

Lemma url_chars v :
  existsb is_control v = false ->
  (forallb is_ascii v = true /\ existsb is_ascii_whitespace v = false /\
   contains 92 v = false /\ contains 35 v = false) <-> Forall url_char v.
Proof.
  intros Hc. rewrite Forall_forall, !contains_false, forallb_forall.
  setoid_rewrite <- list_elem_of_In. rewrite <- not_true_iff_false in *.
  rewrite existsb_exists in *. setoid_rewrite <- list_elem_of_In in Hc.
  setoid_rewrite <- list_elem_of_In. split.
  - intros (Ha & Hw & H92 & H35) c Hin. specialize (Ha c Hin).
    assert (is_control c <> true) by eauto. assert (is_ascii_whitespace c <> true) by eauto.
    unfold url_char, is_control, is_ascii_whitespace, is_ascii, in_range in *.
    rewrite not_true_iff_false in *. bool_prop.
    assert (c <> 92) by (by intros ->). assert (c <> 35) by (by intros ->). lia.
  - intros H. unfold url_char in H. split_and!.
    + intros c Hin. specialize (H c Hin). unfold is_ascii, in_range. bool_prop. lia.
    + intros (c & Hin & Hw). specialize (H c Hin). unfold is_ascii_whitespace in Hw. bool_prop. lia.
    + intros Hin. specialize (H 92 Hin). lia.
    + intros Hin. specialize (H 35 Hin). lia.
Qed.

(** An authority holds neither of the two characters that end it. *)
Lemma authority_form_chars a : authority_form a -> forall c, c ∈ a -> c <> 47 /\ c <> 63.
Proof.
  assert (Hh : forall h d, host_form h -> d ∈ [47; 63] -> d ∉ h).
  { intros h d [h' Hd|i _ Hi] Hin; [apply (not_in_name d h' Hd); set_solver|].
    assert (d ∉ i) by (apply (not_in_addr d i Hi); set_solver). set_solver. }
  assert (Ha : forall d, d ∈ [47; 63] -> authority_form a -> d ∉ a).
  { intros d Hd [h Hf|h n Hf Hn]; [by apply Hh|].
    assert (d ∉ h) by (by apply Hh). assert (d ∉ dec n) by (apply not_in_port; [lia|set_solver]).
    set_solver. }
  intros Hf c Hin. split; intros ->; eapply Ha; [| |exact Hin| | |exact Hin]; try done; set_solver.
Qed.

(** The URL a constructor accepts: a lowercase scheme, an authority, and
    whatever follows the slash or the question mark that ends it. *)
Definition url_form (v : list Z) : Prop :=
  exists scheme authority tail,
    v = str scheme ++ authority ++ tail /\ (scheme = "https://" \/ scheme = "http://")%string /\
    authority_form authority /\ (tail = [] \/ head tail = Some 47 \/ head tail = Some 63).

(** The scheme and the authority of the constructor, as one test. *)
Definition url_tests (v : list Z) : result UrlError unit :=
  match strip_prefix (str "https://") v with
  | Some rest => validate_authority (authority_of rest)
  | None => match strip_prefix (str "http://") v with
            | Some rest => validate_authority (authority_of rest)
            | None => Err Scheme
            end
  end.

Lemma rest_exact rest :
  validate_authority (authority_of rest) = Ok tt <->
  exists authority tail, rest = authority ++ tail /\ authority_form authority /\
    (tail = [] \/ head tail = Some 47 \/ head tail = Some 63).
Proof.
  split.
  - intros Hv%authority_sound. destruct (authority_of_spec rest) as (tail & E & _ & Ht).
    by exists (authority_of rest), tail.
  - intros (a & tail & -> & Hf & Ht). rewrite authority_of_app; [by apply authority_complete| |done].
    by apply authority_form_chars.
Qed.

Lemma url_tests_exact v : url_tests v = Ok tt <-> url_form v.
Proof.
  unfold url_tests, url_form. split.
  - destruct (strip_prefix _ v) as [rest|] eqn:E;
      [|clear E; destruct (strip_prefix _ v) as [rest|] eqn:E; [|done]];
      apply strip_prefix_Some in E as ->; intros (a & tail & -> & Hf & Ht)%rest_exact;
      eexists _, a, tail; eauto.
  - intros (scheme & a & tail & -> & Hs & Hf & Ht).
    assert (validate_authority (authority_of (a ++ tail)) = Ok tt) as Hr by (apply rest_exact; eauto).
    destruct Hs as [-> | ->].
    + by rewrite (proj2 (strip_prefix_Some _ _ _) eq_refl).
    + rewrite (proj2 (strip_prefix_Some (str "http://") _ _) eq_refl).
      by rewrite Hr.
Qed.

(** A public URL is accepted exactly when it fits its ceiling, holds only
    printable ASCII without backslash or number sign, and reads as a lowercase
    scheme, a host that is a DNS name or a bracketed IPv6 address, an optional
    port in [1..=65535] spelled without leading zero, and a tail that starts
    with a slash or a question mark; the accepted value is the given one. *)
Theorem url_exact max v u :
  public_url_new max v = Ok u <->
  u = v /\ max <> 0 /\ v <> [] /\ str_len v <= max /\ Forall url_char v /\ url_form v.
Proof.
  rewrite <- url_tests_exact.
  transitivity (u = v /\ bounded_value v max = Ok tt /\ Forall url_char v /\ url_tests v = Ok tt).
  - unfold public_url_new, url_tests. destruct (bounded_value v max) as [[]|e] eqn:Eb.
    2:{ split; [done|]. by intros (_ & ? & _). }
    apply bounded_value_Ok in Eb as (_ & _ & _ & Hc). rewrite <- (url_chars v Hc).
    unfold mbind, result_bind, map_err.
    destruct (forallb is_ascii v), (existsb is_ascii_whitespace v), (contains 92 v), (contains 35 v);
      cbn [negb]; try (split; [discriminate|intros H; destruct_and! H; discriminate]).
    destruct (strip_prefix _ v) as [rest|];
      [|destruct (strip_prefix _ v) as [rest|]; [|split; [discriminate|intros H; destruct_and! H; discriminate]]];
      destruct (validate_authority (authority_of rest)) as [[]|e]; split; intros H;
      destruct_and? H; simplify_eq; split_and?; done.
  - rewrite bounded_value_Ok. split; [naive_solver|].
    intros (-> & ? & ? & ? & Hf & Hu). split_and!; try done.
    apply not_true_is_false. intros (c & Hin%list_elem_of_In & Hc)%existsb_exists.
    rewrite Forall_forall in Hf. destruct (Hf c Hin) as [? _].
    unfold is_control, in_range in Hc. bool_prop. lia.
Qed.
