(* ===== verification/SandboxSpec.v ===== *)
(** Sandbox specs and host adoption: profiles, compilation, the authority order,
    admission on a host, host reuse and the attestation comparison of
    [automonique-protocol/src/sandbox.rs]. *)

From S2P Require Import Prelude Text Codec Values Identity SandboxValues.

(** * Profiles and specs *)

Record SandboxProfile := mkProfile {
  profile_id : list Z;
  profile_version : Z;
  filesystem : FilesystemAccess;
  tool_network : ToolWorkloadEgress;
}.

Definition profile_new (id : list Z) (version : Z) (f : FilesystemAccess) (n : ToolWorkloadEgress)
  : result SandboxError SandboxProfile :=
  _ ← sbounded id "profile_id"; Ok (mkProfile id version f n).

Definition profile_compare (a b : SandboxProfile) : ProfileOrdering :=
  combine (value_ordering (filesystem_rank (filesystem a)) (filesystem_rank (filesystem b)))
          (value_ordering (network_rank (tool_access (tool_network a)))
                          (network_rank (tool_access (tool_network b)))).

(** [SandboxSpec]; [SandboxSpecParts] has the same fields. *)
Record SandboxSpec := mkSpec {
  profile : SandboxProfile;
  policy_digest : Digest;
  actor : Actor;
  provider_account : list Z;
  workspace_context : Digest;
  base_revision : Revision;
  path_grants : PathGrants;
  allowlists : list AllowlistEntry;
  provider_control_egress : ProviderControlEgress;
  tool_workload_egress : ToolWorkloadEgress;
  credentials : list CredentialDescriptor;
  budgets : Budgets;
  required_features : RequiredFeatures;
  nested_isolation : NestedIsolation;
  approval_revision : Revision;
  prohibited_capabilities : list (list Z);
}.

Definition compile (parts : SandboxSpec) : result SandboxError SandboxSpec :=
  if network_rank (tool_access (tool_network (profile parts)))
     <? network_rank (tool_access (tool_workload_egress parts))
  then Err (WidensProfile "tool_workload_egress")
  else if negb (permits_read (filesystem (profile parts)))
          && negb (bool_decide (path_grants parts = []))
  then Err (WidensProfile "path_grants")
  else if negb (permits_write (filesystem (profile parts)))
          && (0 <? len (writable (path_grants parts)))
  then Err (WidensProfile "path_grants")
  else Ok parts.

Definition spec_tenant (s : SandboxSpec) : list Z := tenant (actor s).

Definition tool_allowlist (s : SandboxSpec) : list AllowlistEntry := entries_of_class (allowlists s) Tool.

Definition compare_authority (a b : SandboxSpec) : ProfileOrdering :=
  combine (combine (combine (combine (combine (combine (combine (combine (combine
    (profile_compare (profile a) (profile b))
    (value_ordering (network_rank (control_access (provider_control_egress a)))
                    (network_rank (control_access (provider_control_egress b)))))
    (value_ordering (network_rank (tool_access (tool_workload_egress a)))
                    (network_rank (tool_access (tool_workload_egress b)))))
    (path_grants_compare (path_grants a) (path_grants b)))
    (subset_ordering (allowlists a) (allowlists b)))
    (subset_ordering (credentials a) (credentials b)))
    (budgets_compare (budgets a) (budgets b)))
    (features_compare (required_features a) (required_features b)))
    (isolation_compare (nested_isolation a) (nested_isolation b)))
    (superset_ordering (prohibited_capabilities a) (prohibited_capabilities b)).

(** [admit_on], feature by feature. *)
Fixpoint admit_features (required : RequiredFeatures) (offered : list HostFeature)
  : result SandboxError unit :=
  match required with
  | [] => Ok tt
  | f :: required =>
      match List.find (fun h => bool_decide (host_feature_name h = feature_name f)) offered with
      | None => Err (RequiredEnforcementMissing (feature_name f))
      | Some offer =>
          if negb (accepts_implementation f (implementation offer))
          then Err (EnforcementImplementationRejected (feature_name f)
                      (digest_display (implementation offer)))
          else admit_features required offered
      end
  end.

Definition admit_on (s : SandboxSpec) (offered : list HostFeature) : result SandboxError unit :=
  admit_features (required_features s) offered.

Inductive ReuseOutcome := Reuse | RequiresNewHost.

Definition evaluate_reuse (existing requested : SandboxSpec) : ReuseOutcome :=
  let same_principal :=
    match is_same_as (actor existing) (actor requested) with Ok b => b | Err _ => false end in
  if negb same_principal
     || negb (bool_decide (provider_account existing = provider_account requested))
     || negb (bool_decide (workspace_context existing = workspace_context requested))
  then RequiresNewHost
  else match compare_authority requested existing with
       | Narrower | Identical => Reuse
       | Wider | Incomparable => RequiresNewHost
       end.

(** * Violations *)

Inductive ViolationClass := PolicyViolation | BudgetExhaustion | EnforcementLoss | AttestationMismatch.

Definition violation_ALL : list ViolationClass :=
  [PolicyViolation; BudgetExhaustion; EnforcementLoss; AttestationMismatch].

Definition violation_str (v : ViolationClass) : string :=
  match v with
  | PolicyViolation => "policy_violation" | BudgetExhaustion => "budget_exhaustion"
  | EnforcementLoss => "enforcement_loss" | AttestationMismatch => "attestation_mismatch"
  end.

Inductive Disposition := TerminateRun | TerminateRunAndRecord | Quarantine.

Definition disposition_str (d : Disposition) : string :=
  match d with
  | TerminateRun => "terminate_run" | TerminateRunAndRecord => "terminate_run_and_record"
  | Quarantine => "quarantine"
  end.

Definition disposition (v : ViolationClass) : Disposition :=
  match v with
  | PolicyViolation => TerminateRun
  | BudgetExhaustion => TerminateRunAndRecord
  | EnforcementLoss | AttestationMismatch => Quarantine
  end.

(** * Attestations *)

Inductive NamespaceKind := Mount | Pid | Network | User | Ipc | Uts | Cgroup.

#[export] Instance NamespaceKind_eq_dec : EqDecision NamespaceKind.
Proof. solve_decision. Defined.

Definition namespace_ALL : list NamespaceKind := [Mount; Pid; Network; User; Ipc; Uts; Cgroup].

Definition namespace_str (k : NamespaceKind) : string :=
  match k with
  | Mount => "mount" | Pid => "pid" | Network => "network" | User => "user"
  | Ipc => "ipc" | Uts => "uts" | Cgroup => "cgroup"
  end.

Record NamespaceIdentity := mkNamespace { ns_kind : NamespaceKind; inode : Z }.
Record LandlockAttestation := mkLandlock { abi : Z; ruleset_digest : Digest }.
Record ExternalDaemonContext := mkDaemon { daemon : list Z; attested_context : Digest }.

#[export] Instance NamespaceIdentity_eq_dec : EqDecision NamespaceIdentity.
Proof. solve_decision. Defined.
#[export] Instance LandlockAttestation_eq_dec : EqDecision LandlockAttestation.
Proof. solve_decision. Defined.
#[export] Instance ExternalDaemonContext_eq_dec : EqDecision ExternalDaemonContext.
Proof. solve_decision. Defined.

Definition namespace_new (k : NamespaceKind) (i : Z) : result SandboxError NamespaceIdentity :=
  if i =? 0 then Err (NotPositive "namespace_inode") else Ok (mkNamespace k i).

Definition process_group_new (id : Z) : result SandboxError Z :=
  if id =? 0 then Err (NotPositive "process_group") else Ok id.

Definition landlock_abi_new (version : Z) : result SandboxError Z :=
  if version =? 0 then Err (NotPositive "landlock_abi") else Ok version.

Definition external_daemon_new (d : list Z) (context : Digest) : result SandboxError ExternalDaemonContext :=
  d ← sandbox_name d "external_daemon"; Ok (mkDaemon d context).

Inductive SupervisorProperty :=
| NoNewPrivileges | CapabilityBounding | RestrictiveUmask | PrivateTmp | PrivateRuntimeDir
| PrivateDevices.

#[export] Instance SupervisorProperty_eq_dec : EqDecision SupervisorProperty.
Proof. solve_decision. Defined.

Definition supervisor_ALL : list SupervisorProperty :=
  [NoNewPrivileges; CapabilityBounding; RestrictiveUmask; PrivateTmp; PrivateRuntimeDir;
   PrivateDevices].

Definition supervisor_str (p : SupervisorProperty) : string :=
  match p with
  | NoNewPrivileges => "no_new_privileges" | CapabilityBounding => "capability_bounding"
  | RestrictiveUmask => "restrictive_umask" | PrivateTmp => "private_tmp"
  | PrivateRuntimeDir => "private_runtime_dir" | PrivateDevices => "private_devices"
  end.

Inductive CredentialDelivery :=
| SealedDescriptor | OneTimeProtected | SupervisorStore | EnvironmentVariable.

#[export] Instance CredentialDelivery_eq_dec : EqDecision CredentialDelivery.
Proof. solve_decision. Defined.

Definition delivery_ALL : list CredentialDelivery :=
  [SealedDescriptor; OneTimeProtected; SupervisorStore; EnvironmentVariable].

Definition delivery_str (d : CredentialDelivery) : string :=
  match d with
  | SealedDescriptor => "sealed_descriptor" | OneTimeProtected => "one_time_protected"
  | SupervisorStore => "supervisor_store" | EnvironmentVariable => "environment_variable"
  end.

(** [EnforcementAttestation]; its parts have the same fields. *)
Record EnforcementAttestation := mkAttestation {
  resolved_paths : list SandboxPath;
  namespaces : list NamespaceIdentity;
  process_group : Z;
  cgroup : list Z;
  backend : list Z;
  kernel_boot : list Z;
  supervisor_properties : list SupervisorProperty;
  landlock : LandlockAttestation;
  seccomp_digest : Digest;
  egress_digest : Digest;
  credential_delivery : CredentialDelivery;
  external_daemon : option ExternalDaemonContext;
}.

Definition COMPARED_FIELDS : list string :=
  ["resolved_paths"; "namespaces"; "process_group"; "cgroup"; "backend"; "kernel_boot";
   "supervisor_properties"; "landlock"; "seccomp_digest"; "egress_digest";
   "credential_delivery"; "external_daemon"].

Definition record_attestation (p : EnforcementAttestation)
  : result SandboxError EnforcementAttestation :=
  _ ← bounded_len (len (resolved_paths p)) "resolved_paths";
  _ ← bounded_len (len (namespaces p)) "namespaces";
  _ ← bounded_len (len (supervisor_properties p)) "supervisor_properties";
  paths ← collect (fun held x => bool_decide (held = x)) "resolved_paths" [] (resolved_paths p);
  nss ← collect (fun held x => bool_decide (ns_kind held = ns_kind x)) "namespaces" [] (namespaces p);
  props ← collect (fun held x => bool_decide (held = x)) "supervisor_properties" []
            (supervisor_properties p);
  Ok (mkAttestation paths nss (process_group p) (cgroup p) (backend p) (kernel_boot p) props
        (landlock p) (seccomp_digest p) (egress_digest p) (credential_delivery p)
        (external_daemon p)).

Definition first_difference (a observed : EnforcementAttestation) : option string :=
  if negb (bool_decide (resolved_paths a = resolved_paths observed)) then Some "resolved_paths"%string
  else if negb (bool_decide (namespaces a = namespaces observed)) then Some "namespaces"%string
  else if negb (bool_decide (process_group a = process_group observed)) then Some "process_group"%string
  else if negb (bool_decide (cgroup a = cgroup observed)) then Some "cgroup"%string
  else if negb (bool_decide (backend a = backend observed)) then Some "backend"%string
  else if negb (bool_decide (kernel_boot a = kernel_boot observed)) then Some "kernel_boot"%string
  else if negb (bool_decide (supervisor_properties a = supervisor_properties observed))
  then Some "supervisor_properties"%string
  else if negb (bool_decide (landlock a = landlock observed)) then Some "landlock"%string
  else if negb (bool_decide (seccomp_digest a = seccomp_digest observed)) then Some "seccomp_digest"%string
  else if negb (bool_decide (egress_digest a = egress_digest observed)) then Some "egress_digest"%string
  else if negb (bool_decide (credential_delivery a = credential_delivery observed))
  then Some "credential_delivery"%string
  else if negb (bool_decide (external_daemon a = external_daemon observed))
  then Some "external_daemon"%string
  else None.

(** * Adoption *)

Inductive QuarantinedOperation := Observe | Reconcile | Cancel.

Definition quarantined_ALL : list QuarantinedOperation := [Observe; Reconcile; Cancel].

Definition quarantined_str (o : QuarantinedOperation) : string :=
  match o with Observe => "observe" | Reconcile => "reconcile" | Cancel => "cancel" end.

Inductive QuarantineReason :=
| NothingAttested
| NoRecordedAttestation
| NoObservedAttestation
| Mismatch (field : string).

Definition quarantine_category (r : QuarantineReason) : string :=
  match r with
  | NothingAttested => "nothing_attested"
  | NoRecordedAttestation => "no_recorded_attestation"
  | NoObservedAttestation => "no_observed_attestation"
  | Mismatch _ => "mismatch"
  end.

Inductive AdoptionOutcome :=
| Adopted (attestation : EnforcementAttestation)
| Quarantined (reason : QuarantineReason).

Definition adopt_host (recorded observed : option EnforcementAttestation) : AdoptionOutcome :=
  match recorded, observed with
  | None, None => Quarantined NothingAttested
  | None, Some _ => Quarantined NoRecordedAttestation
  | Some _, None => Quarantined NoObservedAttestation
  | Some recorded, Some observed =>
      match first_difference recorded observed with
      | None => Adopted recorded
      | Some field => Quarantined (Mismatch field)
      end
  end.

Record ApprovalRequest := mkApproval { approval_class : list Z; description : list Z }.

Definition approval_request_new (c d : list Z) : result SandboxError ApprovalRequest :=
  _ ← sbounded c "approval_class";
  _ ← sbounded d "approval_description";
  Ok (mkApproval c d).

(** * What a spec permits

    The authority a spec grants, one constructor per kind of thing its fields
    speak of.  Running on a host is an authority too: a spec that demands more
    of the host may run on fewer. *)

Inductive Authority :=
| UsePath (p : SandboxPath) (r : PathRight)
| UseFilesystem (f : FilesystemAccess)
| UseProfileNetwork (n : NetworkAccess)
| UseControlNetwork (n : NetworkAccess)
| UseToolNetwork (n : NetworkAccess)
| Start (e : AllowlistEntry)
| Receive (c : CredentialDescriptor)
| Spend (category : nat) (amount : Z)
| RunOn (offered : list HostFeature)
| NestTools (boundary : IsolationRequirement)
| Extend (boundary : IsolationRequirement)
| Hold (capability : list Z).

Definition permits (s : SandboxSpec) (a : Authority) : Prop :=
  match a with
  | UsePath p r => path_permits (path_grants s) p r
  | UseFilesystem f => filesystem_rank f <= filesystem_rank (filesystem (profile s))
  | UseProfileNetwork n => network_rank n <= network_rank (tool_access (tool_network (profile s)))
  | UseControlNetwork n => network_rank n <= network_rank (control_access (provider_control_egress s))
  | UseToolNetwork n => network_rank n <= network_rank (tool_access (tool_workload_egress s))
  | Start e => e ∈ allowlists s
  | Receive c => c ∈ credentials s
  | Spend category amount =>
      exists b, all_budgets (budgets s) !! category = Some b /\ amount <= quantity b
  | RunOn offered => admit_on s offered = Ok tt
  | NestTools i => isolation_rank (nested_tools (nested_isolation s)) <= isolation_rank i
  | Extend i => isolation_rank (extensions (nested_isolation s)) <= isolation_rank i
  | Hold c => c ∉ prohibited_capabilities s
  end.

(** The fields are what their constructors accept. *)
Definition spec_ok (s : SandboxSpec) : Prop := features_ok (required_features s).

(** * Admission *)

Lemma admit_features_Ok required offered :
  admit_features required offered = Ok tt <->
  forall f, f ∈ required -> exists h,
    List.find (fun h => bool_decide (host_feature_name h = feature_name f)) offered = Some h /\
    implementation h ∈ accepted f.
Proof.
  induction required as [|f required IH]; cbn [admit_features].
  { split; [by intros _ ? ?%not_elem_of_nil|done]. }
  setoid_rewrite elem_of_cons.
  destruct (List.find _ offered) as [h|] eqn:E.
  - unfold accepts_implementation. case_bool_decide as Ha; cbn [negb].
    + rewrite IH. split; [intros H g [->|?]; eauto|eauto].
    + split; [done|]. intros H. destruct (H f (or_introl eq_refl)) as (h' & E' & ?). congruence.
  - split; [done|]. intros H. destruct (H f (or_introl eq_refl)) as (h' & E' & ?). congruence.
Qed.

(** A host built for one feature list. *)
Definition host_for (fs : RequiredFeatures) : list HostFeature :=
  omap (fun f => mkHostFeature (feature_name f) <$> head (accepted f)) fs.

Lemma find_host_for fs f :
  features_ok fs -> f ∈ fs -> exists d, d ∈ accepted f /\
  List.find (fun h => bool_decide (host_feature_name h = feature_name f)) (host_for fs) =
    Some (mkHostFeature (feature_name f) d).
Proof.
  intros [Hn Ha]. induction fs as [|g fs IH]; [by intros ?%not_elem_of_nil|].
  cbn [fmap list_fmap] in Hn. apply NoDup_cons in Hn as [Hg Hn].
  apply Forall_cons in Ha as [Hga Ha].
  unfold host_for. cbn [omap list_omap]. destruct (accepted g) as [|d ds] eqn:Eg; [done|].
  cbn [head fmap option_fmap option_map List.find host_feature_name].
  intros [->|Hf]%elem_of_cons.
  - rewrite bool_decide_true by done. exists d. rewrite Eg. split; [left|done].
  - rewrite bool_decide_false; [by apply IH|]. intros E. apply Hg. rewrite E.
    by apply list_elem_of_fmap_2.
Qed.

Lemma host_for_name fs h : h ∈ host_for fs -> exists f, f ∈ fs /\ feature_name f = host_feature_name h.
Proof.
  unfold host_for. intros (f & Hf & E)%list_elem_of_omap.
  apply fmap_Some in E as (d & _ & ->). eauto.
Qed.

(** Requiring at least as much is running on no host the other would not. *)
Lemma features_within_admit a b :
  features_ok a ->
  features_within a b <->
  forall offered, admit_features a offered = Ok tt -> admit_features b offered = Ok tt.
Proof.
  intros Ha. split.
  - intros Hw offered. rewrite !admit_features_Ok. intros H g Hg.
    destruct (Hw g Hg) as (f & Hf & <- & Hs). destruct (H f Hf) as (h & ? & ?). eauto.
  - intros H g Hg.
    assert (H0 : admit_features a (host_for a) = Ok tt).
    { apply admit_features_Ok. intros f Hf. destruct (find_host_for a f Ha Hf) as (d & ? & ->). eauto. }
    apply H in H0. rewrite admit_features_Ok in H0. destruct (H0 g Hg) as (h & [Hh E]%find_some & _).
    bool_prop. apply list_elem_of_In, host_for_name in Hh as (f & Hf & Ef).
    exists f. split_and!; [done|congruence|]. intros d Hd.
    assert (H1 : admit_features a (mkHostFeature (feature_name f) d :: host_for a) = Ok tt).
    { apply admit_features_Ok. intros f' Hf'. cbn [List.find host_feature_name].
      case_bool_decide as E'.
      - exists (mkHostFeature (feature_name f) d). split; [done|].
        by rewrite <- (NoDup_name_inj a f f' (proj1 Ha) Hf Hf' E').
      - destruct (find_host_for a f' Ha Hf') as (d' & ? & ->). eauto. }
    apply H in H1. rewrite admit_features_Ok in H1. destruct (H1 g Hg) as (h' & E' & Hi).
    cbn [List.find host_feature_name] in E'. rewrite bool_decide_true in E' by congruence.
    injection E' as <-. done.
Qed.

(** * The authority order *)

(** An ordering answers two containment questions. *)
Definition ordered (o : ProfileOrdering) (P Q : Prop) : Prop :=
  exists p q, o = containment_ordering p q /\ (p = true <-> P) /\ (q = true <-> Q).

#[export] Instance ordered_proper : Proper (eq ==> iff ==> iff ==> iff) ordered.
Proof.
  intros o ? <- P P' HP Q Q' HQ. unfold ordered.
  by setoid_rewrite HP; setoid_rewrite HQ.
Qed.

Lemma ordered_combine o o' P Q P' Q' :
  ordered o P Q -> ordered o' P' Q' -> ordered (combine o o') (P /\ P') (Q /\ Q').
Proof.
  intros (p & q & -> & HP & HQ) (p' & q' & -> & HP' & HQ').
  exists (p && p'), (q && q'). rewrite combine_containment, !andb_true_iff, HP, HP', HQ, HQ'. done.
Qed.

Lemma ordered_rank {T} (rank : T -> Z) x y :
  ordered (value_ordering (rank x) (rank y))
    (forall n, rank n <= rank x -> rank n <= rank y)
    (forall n, rank n <= rank y -> rank n <= rank x).
Proof.
  exists (rank x <=? rank y), (rank y <=? rank x). rewrite value_ordering_containment, !Z.leb_le.
  split; [done|]. split; (split; [intros ? n; lia|intros H; by apply H]).
Qed.

Lemma ordered_requirement {T} (rank : T -> Z) x y :
  ordered (value_ordering (rank y) (rank x))
    (forall n, rank x <= rank n -> rank y <= rank n)
    (forall n, rank y <= rank n -> rank x <= rank n).
Proof.
  exists (rank y <=? rank x), (rank x <=? rank y). rewrite value_ordering_containment, !Z.leb_le.
  split; [done|]. split; (split; [intros ? n; lia|intros H; by apply H]).
Qed.

Lemma ordered_subset {A} `{EqDecision A} (a b : list A) :
  ordered (subset_ordering a b) (forall e, e ∈ a -> e ∈ b) (forall e, e ∈ b -> e ∈ a).
Proof. exists (is_subset a b), (is_subset b a). rewrite !is_subset_spec. done. Qed.

Lemma ordered_superset {A} `{EqDecision A} (a b : list A) :
  ordered (superset_ordering a b) (forall e, e ∉ a -> e ∉ b) (forall e, e ∉ b -> e ∉ a).
Proof.
  exists (is_subset b a), (is_subset a b). rewrite !is_subset_spec. split; [done|].
  split; (split; [set_solver|]); intros H e He; apply dec_stable; intros Hn; by apply (H e Hn).
Qed.

Lemma ordered_paths a b :
  ordered (path_grants_compare a b) (forall p r, path_permits a p r -> path_permits b p r)
    (forall p r, path_permits b p r -> path_permits a p r).
Proof. exists (is_within a b), (is_within b a). rewrite !is_within_spec. done. Qed.

Definition spends (b : Budgets) (i : nat) (amount : Z) : Prop :=
  exists x, all_budgets b !! i = Some x /\ amount <= quantity x.

Lemma budgets_within_spec a b :
  budgets_within a b = true <-> forall i amount, spends a i amount -> spends b i amount.
Proof.
  unfold budgets_within, spends. cbn [all_budgets zip zip_with forallb fst snd].
  rewrite !andb_true_iff, !Z.leb_le. split.
  - intros H i amount (x & Hx & Hq). destruct_and!.
    do 8 (destruct i as [|i]; [cbn in *; injection Hx as <-; eexists; (split; [done|lia])|]). done.
  - intros H.
    assert (HH : forall i x y, all_budgets a !! i = Some x -> all_budgets b !! i = Some y ->
                               quantity x <= quantity y).
    { intros i x y Hx Hy. destruct (H i (quantity x)) as (y' & Hy' & ?); [eauto with lia|].
      rewrite Hy in Hy'. injection Hy' as <-. done. }
    split_and!; try done;
      [apply (HH 0%nat)|apply (HH 1%nat)|apply (HH 2%nat)|apply (HH 3%nat)|apply (HH 4%nat)
      |apply (HH 5%nat)|apply (HH 6%nat)|apply (HH 7%nat)]; done.
Qed.

Lemma ordered_budgets a b :
  ordered (budgets_compare a b) (forall i amount, spends a i amount -> spends b i amount)
    (forall i amount, spends b i amount -> spends a i amount).
Proof.
  exists (budgets_within a b), (budgets_within b a).
  by rewrite budgets_compare_containment, !budgets_within_spec.
Qed.

Lemma ordered_features a b :
  features_ok a -> features_ok b ->
  ordered (features_compare a b)
    (forall offered, admit_features a offered = Ok tt -> admit_features b offered = Ok tt)
    (forall offered, admit_features b offered = Ok tt -> admit_features a offered = Ok tt).
Proof.
  intros Ha Hb. rewrite features_compare_containment.
  rewrite <- (features_within_admit a b Ha), <- (features_within_admit b a Hb).
  do 2 eexists. split; [done|]. by rewrite features_within_left, features_within_right.
Qed.

(** [a] grants no more than [b]. *)
Definition authority_within (a b : SandboxSpec) : Prop := forall x, permits a x -> permits b x.

Lemma authority_within_axes a b :
  authority_within a b <->
  ((((((((((forall f, permits a (UseFilesystem f) -> permits b (UseFilesystem f)) /\
  (forall n, permits a (UseProfileNetwork n) -> permits b (UseProfileNetwork n))) /\
  (forall n, permits a (UseControlNetwork n) -> permits b (UseControlNetwork n))) /\
  (forall n, permits a (UseToolNetwork n) -> permits b (UseToolNetwork n))) /\
  (forall p r, permits a (UsePath p r) -> permits b (UsePath p r))) /\
  (forall e, permits a (Start e) -> permits b (Start e))) /\
  (forall c, permits a (Receive c) -> permits b (Receive c))) /\
  (forall i q, permits a (Spend i q) -> permits b (Spend i q))) /\
  (forall o, permits a (RunOn o) -> permits b (RunOn o))) /\
  ((forall i, permits a (NestTools i) -> permits b (NestTools i)) /\
   (forall i, permits a (Extend i) -> permits b (Extend i)))) /\
  (forall c, permits a (Hold c) -> permits b (Hold c)).
Proof.
  split; [intros H; split_and!; intros; by apply H|].
  intros H x. destruct_and!. destruct x; auto.
Qed.

Lemma compare_authority_ordered a b :
  spec_ok a -> spec_ok b ->
  ordered (compare_authority a b) (authority_within a b) (authority_within b a).
Proof.
  intros Ha Hb.
  rewrite (authority_within_axes a b), (authority_within_axes b a).
  unfold compare_authority, profile_compare, isolation_compare.
  repeat apply ordered_combine; cbn [permits]; unfold admit_on;
    first [apply ordered_rank|apply ordered_requirement|apply ordered_paths|apply ordered_subset
          |apply ordered_superset|apply ordered_budgets|by apply ordered_features].
Qed.

(** The comparison of two specs is exactly the inclusion order of what they
    permit: it answers narrower, identical, wider or incomparable precisely as
    everything the first permits (paths, networks, programs, credentials,
    budgets, hosts, nesting and capabilities) is permitted by the second and
    the other way round. *)
Theorem authority_order_exact a b :
  spec_ok a -> spec_ok b ->
  (compare_authority a b = Narrower <-> authority_within a b /\ ~ authority_within b a) /\
  (compare_authority a b = Identical <-> authority_within a b /\ authority_within b a) /\
  (compare_authority a b = Wider <-> ~ authority_within a b /\ authority_within b a) /\
  (compare_authority a b = Incomparable <-> ~ authority_within a b /\ ~ authority_within b a).
Proof.
  intros Ha Hb. destruct (compare_authority_ordered a b Ha Hb) as (p & q & -> & <- & <-).
  destruct p, q; cbn; naive_solver.
Qed.

(** C36: a host is reused exactly for the same principal, provider account and
    workspace context and a request that permits nothing the host's spec does
    not: reuse never widens any authority. *)
Theorem reuse_never_widens existing requested :
  spec_ok existing -> spec_ok requested ->
  evaluate_reuse existing requested = Reuse <->
  actor existing = actor requested /\ provider_account existing = provider_account requested /\
  workspace_context existing = workspace_context requested /\
  authority_within requested existing.
Proof.
  intros He Hr. destruct (compare_authority_ordered requested existing Hr He) as (p & q & E & HP & _).
  unfold evaluate_reuse. rewrite E, <- HP. pose proof (is_same_as_spec (actor existing) (actor requested)) as Hs.
  destruct (is_same_as _ _) as [[]|]; cbn; [|naive_solver..].
  repeat case_bool_decide; cbn; [|naive_solver..].
  destruct p, q; cbn; naive_solver.
Qed.

(** * Sample specs *)

Definition sample_digest (c : Z) : Digest := mkDigest Sha256 (replicate 64 c).

Definition sample_budgets : Budgets :=
  mkBudgets (mkBudget MemoryBytes 1000) (mkBudget CpuMillicores 1000) (mkBudget Processes 64)
    (mkBudget FileDescriptors 256) (mkBudget Milliseconds 60000) (mkBudget TempBytes 4096)
    (mkBudget SpoolBytes 4096) (mkBudget ArtifactBytes 4096).

Definition sample_spec (features : RequiredFeatures) (nested : IsolationRequirement) : SandboxSpec :=
  mkSpec (mkProfile (str "workspace") 1 IsolatedWritable tool_denied) (sample_digest 48)
    (mkActor (str "acme") (str "alice")) (str "account") (sample_digest 49) 1 sample_grants
    [mkAllow Tool (str "fs.read")] control_denied tool_denied [] sample_budgets features
    (mkIsolation nested HostBoundary) 1 [str "CAP_SYS_ADMIN"].

Definition landlock_feature : RequiredFeature := mkFeature (str "landlock") [sample_digest 50].
Definition seccomp_feature : RequiredFeature := mkFeature (str "seccomp") [sample_digest 51].

Definition loose_spec : SandboxSpec := sample_spec [landlock_feature] HostBoundary.
Definition strict_spec : SandboxSpec :=
  sample_spec [landlock_feature; seccomp_feature] StrongerIsolation.

Lemma loose_ok : spec_ok loose_spec.
Proof. split; [apply (bool_decide_unpack _); by vm_compute|repeat constructor; done]. Qed.

Lemma strict_ok : spec_ok strict_spec.
Proof. split; [apply (bool_decide_unpack _); by vm_compute|repeat constructor; done]. Qed.

Lemma authority_order_exact_witness :
  compare_authority strict_spec loose_spec = Narrower /\
  authority_within strict_spec loose_spec /\ ~ authority_within loose_spec strict_spec.
Proof.
  split; [reflexivity|].
  apply (authority_order_exact strict_spec loose_spec strict_ok loose_ok). reflexivity.
Defined.

Lemma reuse_never_widens_witness :
  evaluate_reuse loose_spec strict_spec = Reuse /\ authority_within strict_spec loose_spec /\
  ~ authority_within loose_spec strict_spec.
Proof.
  split; [reflexivity|]. split.
  - apply (reuse_never_widens loose_spec strict_spec loose_ok strict_ok). reflexivity.
  - intros H.
    assert (E : evaluate_reuse strict_spec loose_spec = Reuse)
      by (apply (reuse_never_widens strict_spec loose_spec strict_ok loose_ok); done).
    discriminate E.
Defined.

(** Reuse looks at the specs alone, so a stricter request is put on a host
    that was admitted for a looser one: there are compiled specs and a host
    whose features the running spec admits, for which reuse is answered
    although the request refuses that host's features and demands a stronger
    nested isolation than the host was set up with. *)
Theorem reuse_skips_enforcement :
  exists existing requested offered,
    compile existing = Ok existing /\ compile requested = Ok requested /\
    admit_on existing offered = Ok tt /\
    evaluate_reuse existing requested = Reuse /\
    admit_on requested offered = Err (RequiredEnforcementMissing (str "seccomp")) /\
    isolation_rank (nested_tools (nested_isolation existing)) <
      isolation_rank (nested_tools (nested_isolation requested)).
Proof.
  exists loose_spec, strict_spec, [mkHostFeature (str "landlock") (sample_digest 50)].
  repeat split; reflexivity.
Qed.

(** * Compilation and adoption *)

(** A spec compiles, unchanged, exactly when it grants no more than its
    profile: tool egress at most the profile's, no path grant under a profile
    without a filesystem, and no writable grant under one that permits no
    write; a refusal names the first axis exceeded. *)
Theorem compile_exact parts :
  (compile parts = Ok parts <->
     network_rank (tool_access (tool_workload_egress parts)) <=
       network_rank (tool_access (tool_network (profile parts))) /\
     (filesystem (profile parts) = FsNone -> path_grants parts = []) /\
     (permits_write (filesystem (profile parts)) = false ->
        forall p, ~ path_permits (path_grants parts) p RightWrite)) /\
  (forall e, compile parts = Err e ->
     e = WidensProfile "tool_workload_egress" /\
       network_rank (tool_access (tool_network (profile parts))) <
         network_rank (tool_access (tool_workload_egress parts)) \/
     e = WidensProfile "path_grants" /\
       network_rank (tool_access (tool_workload_egress parts)) <=
         network_rank (tool_access (tool_network (profile parts)))).
Proof.
  assert (Hw : (0 <? len (writable (path_grants parts))) = true <->
               exists p, path_permits (path_grants parts) p RightWrite).
  { rewrite Z.ltb_lt. unfold writable, path_permits, len. split.
    - intros H. destruct (List.filter _ _) as [|g gs] eqn:E; [cbn in H; lia|].
      assert (Hg : g ∈ g :: gs) by left. rewrite <- E in Hg.
      apply list_elem_of_In, filter_In in Hg as [Hg%list_elem_of_In Ha]. by exists (path g), g.
    - intros (p & g & Hg & _ & Ha).
      assert (Hf : g ∈ List.filter (fun g => bool_decide (access g = ReadWrite)) (path_grants parts)).
      { apply list_elem_of_In, filter_In. split; [by apply list_elem_of_In|done]. }
      destruct (List.filter _ _); [by apply not_elem_of_nil in Hf|cbn; lia]. }
  unfold compile. case_match eqn:E1; bool_prop.
  { split; [split; [done|lia]|]. intros e [= <-]. by left. }
  destruct (negb (permits_read _) && _) eqn:E2; bool_prop.
  { split; [|intros e [= <-]; right; split; [done|lia]].
    split; [done|]. intros (_ & H & _). destruct E2 as [E2 E3]. destruct (filesystem _); naive_solver. }
  destruct (negb (permits_write _) && _) eqn:E3.
  { split; [|intros e [= <-]; right; split; [done|lia]].
    apply andb_true_iff in E3 as [E3%negb_true_iff Hx]. apply Z.ltb_lt, Hw in Hx as [p Hp].
    split; [done|]. intros (_ & _ & H). by destruct (H E3 p). }
  split; [|done]. split; [|done]. intros _. split; [lia|]. split.
  - intros Ef. rewrite Ef in E2. cbn in E2. by destruct E2.
  - intros Ew p Hp. rewrite Ew in E3. cbn in E3. apply not_true_iff_false in E3. apply E3, Z.ltb_lt, Hw. eauto.
Qed.

(** The agreements of two attestations, in the order of [COMPARED_FIELDS]. *)
Definition agreements (a b : EnforcementAttestation) : list Prop :=
  [resolved_paths a = resolved_paths b; namespaces a = namespaces b;
   process_group a = process_group b; cgroup a = cgroup b; backend a = backend b;
   kernel_boot a = kernel_boot b; supervisor_properties a = supervisor_properties b;
   landlock a = landlock b; seccomp_digest a = seccomp_digest b;
   egress_digest a = egress_digest b; credential_delivery a = credential_delivery b;
   external_daemon a = external_daemon b].

(** The comparison's chain of tests, over any list of them. *)
Fixpoint first_failing (tests : list (bool * string)) : option string :=
  match tests with
  | [] => None
  | (holds, field) :: tests => if negb holds then Some field else first_failing tests
  end.

Lemma first_failing_Some tests f :
  first_failing tests = Some f ->
  exists i, tests !! i = Some (false, f) /\ forall j t, (j < i)%nat -> tests !! j = Some t -> fst t = true.
Proof.
  induction tests as [|[[] g] tests IH]; cbn; [done|..].
  - intros (i & Hi & Hj)%IH. exists (S i). split; [done|].
    intros [|j] t Hlt E; [by injection E as <-|]. apply (Hj j); [lia|done].
  - intros [= ->]. exists 0%nat. split; [done|]. intros; lia.
Qed.

Lemma first_failing_None tests :
  first_failing tests = None <-> Forall (fun t => fst t = true) tests.
Proof.
  induction tests as [|[[] g] tests IH]; cbn; [done|..]; rewrite Forall_cons; cbn; naive_solver.
Qed.

Definition difference_tests (a b : EnforcementAttestation) : list (bool * string) :=
  zip [bool_decide (resolved_paths a = resolved_paths b); bool_decide (namespaces a = namespaces b);
   bool_decide (process_group a = process_group b); bool_decide (cgroup a = cgroup b);
   bool_decide (backend a = backend b); bool_decide (kernel_boot a = kernel_boot b);
   bool_decide (supervisor_properties a = supervisor_properties b);
   bool_decide (landlock a = landlock b); bool_decide (seccomp_digest a = seccomp_digest b);
   bool_decide (egress_digest a = egress_digest b);
   bool_decide (credential_delivery a = credential_delivery b);
   bool_decide (external_daemon a = external_daemon b)] COMPARED_FIELDS.

Lemma first_difference_tests a b : first_difference a b = first_failing (difference_tests a b).
Proof. reflexivity. Qed.

Lemma difference_tests_Forall2 a b :
  Forall2 (fun P t => fst t = true <-> P) (agreements a b) (difference_tests a b).
Proof.
  unfold agreements, difference_tests, COMPARED_FIELDS. cbn [zip zip_with].
  repeat constructor; cbn [fst]; apply bool_decide_eq_true.
Qed.

Lemma agreements_all a b : Forall (fun P => P) (agreements a b) <-> a = b.
Proof.
  split.
  - unfold agreements. rewrite !Forall_cons. intros H. destruct_and!. destruct a, b. cbn in *. congruence.
  - intros ->. repeat constructor.
Qed.

(** Across a reload a host is adopted exactly when an attestation was
    recorded and the observed one equals it in every field, and it is adopted
    against that recorded attestation; a mismatch names a compared field in
    which the two differ while all the fields before it agree. *)
Theorem adoption_exact recorded observed :
  (forall x, adopt_host recorded observed = Adopted x <-> recorded = Some x /\ observed = Some x) /\
  (forall f, adopt_host recorded observed = Quarantined (Mismatch f) ->
     exists r o i P, recorded = Some r /\ observed = Some o /\
       COMPARED_FIELDS !! i = Some f /\ agreements r o !! i = Some P /\ ~ P /\
       Forall (fun P => P) (take i (agreements r o))).
Proof.
  destruct recorded as [r|], observed as [o|]; cbn;
    try (split; [intros x; split; [done|by intros []]|done]).
  rewrite first_difference_tests. pose proof (difference_tests_Forall2 r o) as HF.
  destruct (first_failing _) as [f|] eqn:E.
  - split.
    + intros x. split; [done|]. intros [[= ->] [= ->]]. exfalso.
      assert (Ht : first_failing (difference_tests x x) = None); [|congruence].
      apply first_failing_None, Forall_forall. intros t [i Hi]%list_elem_of_lookup.
      destruct (Forall2_lookup_r _ _ _ _ _ HF Hi) as (P & HP & ->).
      exact (Forall_lookup_1 _ _ _ _ (proj2 (agreements_all x x) eq_refl) HP).
    + intros g [= <-]. apply first_failing_Some in E as (i & Hi & Hj).
      destruct (Forall2_lookup_r _ _ _ _ _ HF Hi) as (P & HP & HPi).
      exists r, o, i, P. split_and!; [done..| |done|cbn in HPi; naive_solver|].
      * apply lookup_zip_Some in Hi as [_ Hi]. done.
      * apply Forall_lookup. intros j Q HQ. apply lookup_take_Some in HQ as [HQ Hlt].
        destruct (Forall2_lookup_l _ _ _ _ _ HF HQ) as (t & Ht & HQt). apply HQt. by eapply Hj.
  - apply first_failing_None in E. split; [|done]. intros x.
    assert (r = o) as <-.
    { apply agreements_all, Forall_lookup. intros i P HP.
      destruct (Forall2_lookup_l _ _ _ _ _ HF HP) as (t & Ht & HPt). apply HPt.
      exact (Forall_lookup_1 _ _ _ _ E Ht). }
    split; [by intros [= <-]|by intros [[= <-] _]].
Qed.

Definition sample_attestation (boot : Z) : EnforcementAttestation :=
  mkAttestation [str "/w"] [mkNamespace Mount 7] 12 (str "cg") (str "be") [boot] [NoNewPrivileges]
    (mkLandlock 3 (sample_digest 48)) (sample_digest 49) (sample_digest 50) SealedDescriptor None.

Lemma adoption_exact_witness :
  adopt_host (Some (sample_attestation 1)) (Some (sample_attestation 1)) = Adopted (sample_attestation 1) /\
  adopt_host (Some (sample_attestation 1)) (Some (sample_attestation 2)) =
    Quarantined (Mismatch "kernel_boot") /\
  exists i P, COMPARED_FIELDS !! i = Some "kernel_boot"%string /\
    agreements (sample_attestation 1) (sample_attestation 2) !! i = Some P /\ ~ P.
Proof.
  split; [by apply (proj1 (adoption_exact (Some (sample_attestation 1)) (Some (sample_attestation 1))))|].
  assert (E : adopt_host (Some (sample_attestation 1)) (Some (sample_attestation 2)) =
    Quarantined (Mismatch "kernel_boot")) by reflexivity.
  split; [exact E|].
  destruct (proj2 (adoption_exact (Some (sample_attestation 1)) (Some (sample_attestation 2))) _ E)
    as (r & o & i & P & [= <-] & [= <-] & H1 & H2 & H3 & _).
  exists i, P. auto.
Defined.
