(* ===== verification/Provider.v ===== *)
(** Provider capabilities and mode selection:
    [automonique-protocol/src/provider.rs]. *)

From S2P Require Import Prelude Text Codec Values SandboxValues.

Definition MAX_PROVIDER_ID_BYTES : Z := 128.
Definition MAX_CAPABILITIES : Z := 128.

(** The macro [provider_domain!]: the five provider identities. *)
Definition provider_id_new : list Z -> result ValueError (list Z) := opaque_id_new MAX_PROVIDER_ID_BYTES.

(** * Capabilities *)

Inductive CapabilityGroup := Sessions | Turns | Events_ | Approvals | Tools | Telemetry | Lifecycle.

#[export] Instance CapabilityGroup_eq_dec : EqDecision CapabilityGroup.
Proof. solve_decision. Defined.

Definition group_ALL : list CapabilityGroup :=
  [Sessions; Turns; Events_; Approvals; Tools; Telemetry; Lifecycle].

Definition group_str (g : CapabilityGroup) : string :=
  match g with
  | Sessions => "sessions" | Turns => "turns" | Events_ => "events" | Approvals => "approvals"
  | Tools => "tools" | Telemetry => "telemetry" | Lifecycle => "lifecycle"
  end.

Definition group_from_spelling : list Z -> option CapabilityGroup := from_spelling group_ALL group_str.

Record Capability := mkCapability { group : CapabilityGroup; cap_name : list Z }.

#[export] Instance Capability_eq_dec : EqDecision Capability.
Proof. solve_decision. Defined.

Definition capability_new (g : CapabilityGroup) (name : list Z) : result ValueError Capability :=
  if bool_decide (name = []) then Err VEmpty
  else if MAX_PROVIDER_ID_BYTES <? str_len name
  then Err (TooLong MAX_PROVIDER_ID_BYTES (str_len name))
  else if existsb is_control name then Err ControlCharacter
  else Ok (mkCapability g name).

Inductive CapabilityState := Present | Absent | Unprobed.

#[export] Instance CapabilityState_eq_dec : EqDecision CapabilityState.
Proof. solve_decision. Defined.

Record UnknownCapability := mkUnknown { unknown_name : list Z }.

Definition unknown_new (name : list Z) : result ValueError UnknownCapability :=
  _ ← capability_new Sessions name; Ok (mkUnknown name).

(** * Errors *)

Inductive ProviderError :=
| RequiredCapabilityIsDegraded (capability : list Z)
| RequiredCapabilitiesMissing (missing : list (list Z))
| BindingMismatch (component : string)
| PDigest (field : string) (error : DigestError)
| PDigestAlgorithm (field : string)
| PValue (field : string) (error : ValueError)
| TooManyCapabilities (max : Z).

Definition provider_category (e : ProviderError) : string :=
  match e with
  | RequiredCapabilityIsDegraded _ => "required_capability_is_degraded"
  | RequiredCapabilitiesMissing _ => "required_capabilities_missing"
  | BindingMismatch _ => "binding_mismatch"
  | PDigest _ _ => "digest_invalid"
  | PDigestAlgorithm _ => "digest_algorithm_invalid"
  | PValue _ _ => "value_invalid"
  | TooManyCapabilities _ => "too_many_capabilities"
  end.

Definition pbounded (value : list Z) (field : string) : result ProviderError unit :=
  map_err (PValue field) (bounded_value value MAX_PROVIDER_ID_BYTES).

Definition canonical_sha256 (value : list Z) (field : string) : result ProviderError unit :=
  digest ← map_err (PDigest field) (digest_parse value);
  if negb (bool_decide (algorithm digest = Sha256)) then Err (PDigestAlgorithm field) else Ok tt.

(** * Provenance and bindings *)

Record BinaryProvenance := mkProvenance {
  version : list Z; binary_digest : list Z; schema_digest : option (list Z) }.

Definition provenance_new (v d : list Z) (schema : option (list Z)) : result ProviderError BinaryProvenance :=
  _ ← pbounded v "binary_version";
  _ ← canonical_sha256 d "binary_digest";
  _ ← match schema with Some s => canonical_sha256 s "schema_digest" | None => Ok tt end;
  Ok (mkProvenance v d schema).

Definition provenance_matches (a observed : BinaryProvenance) : bool :=
  bool_decide (binary_digest a = binary_digest observed)
  && bool_decide (schema_digest a = schema_digest observed).

Record SessionBinding := mkBinding {
  b_tenant : list Z; b_backend : list Z; provider_account : list Z; provider_namespace : list Z;
  session : list Z }.

Definition binding_new (t b pa pn s : list Z) : result ProviderError SessionBinding :=
  _ ← pbounded t "tenant";
  _ ← pbounded b "backend";
  _ ← pbounded pa "provider_account";
  _ ← pbounded pn "provider_namespace";
  Ok (mkBinding t b pa pn s).

(** The loop of [confirm_same] over the named components. *)
Fixpoint first_mismatch (components : list (string * list Z * list Z)) : result ProviderError unit :=
  match components with
  | [] => Ok tt
  | (component, l, r) :: rest =>
      if negb (bool_decide (l = r)) then Err (BindingMismatch component)
      else first_mismatch rest
  end.

Definition confirm_same (a b : SessionBinding) : result ProviderError unit :=
  _ ← first_mismatch
        [("tenant"%string, b_tenant a, b_tenant b);
         ("backend"%string, b_backend a, b_backend b);
         ("provider_account"%string, provider_account a, provider_account b);
         ("provider_namespace"%string, provider_namespace a, provider_namespace b)];
  if negb (bool_decide (session a = session b)) then Err (BindingMismatch "session") else Ok tt.

(** * Mode declarations *)

Record ModeDeclaration := mkMode {
  mode : list Z;
  required : list Capability;
  native : list Capability;
  degraded : list Capability;
  unknown : list UnknownCapability;
  provenance : BinaryProvenance;
}.

Definition mode_new (m : list Z) (req nat_ deg : list Capability) (unk : list UnknownCapability)
    (p : BinaryProvenance) : result ProviderError ModeDeclaration :=
  _ ← pbounded m "mode";
  if MAX_CAPABILITIES <? len req + len nat_ + len deg + len unk
  then Err (TooManyCapabilities MAX_CAPABILITIES)
  else match List.find (fun c => bool_decide (c ∈ deg)) req with
       | Some conflict => Err (RequiredCapabilityIsDegraded (cap_name conflict))
       | None => Ok (mkMode m req nat_ deg unk p)
       end.

Definition state_of (m : ModeDeclaration) (c : Capability) : CapabilityState :=
  if bool_decide (c ∈ native m) then Present
  else if bool_decide (c ∈ degraded m) then Absent
  else Unprobed.

Record Selection := mkSelection { selected_mode : list Z; selected_degraded : list (list Z) }.

Definition select (m : ModeDeclaration) : result ProviderError Selection :=
  let missing := cap_name <$> List.filter (fun c => negb (bool_decide (state_of m c = Present))) (required m) in
  if bool_decide (missing = []) then Ok (mkSelection (mode m) (cap_name <$> degraded m))
  else Err (RequiredCapabilitiesMissing missing).

(** * Selection fails closed *)

Lemma state_of_Present m c : state_of m c = Present <-> c ∈ native m.
Proof. unfold state_of. repeat case_bool_decide; naive_solver. Qed.

(** A mode is selected exactly when every capability it requires was
    observed natively, whatever was degraded, unknown or never probed; the
    selection names the declared mode and all its degradations, and a refusal
    lists, in declaration order, exactly the required capabilities that were
    not observed. *)
Theorem select_fails_closed m :
  (is_ok (select m) = true <-> required m ⊆ native m) /\
  (forall s, select m = Ok s -> s = mkSelection (mode m) (cap_name <$> degraded m)) /\
  (forall e, select m = Err e ->
     exists missing, e = RequiredCapabilitiesMissing (cap_name <$> missing) /\ missing <> [] /\
       missing `sublist_of` required m /\
       forall c, c ∈ missing <-> c ∈ required m /\ c ∉ native m).
Proof.
  unfold select. set (p := fun c => negb (bool_decide (state_of m c = Present))).
  assert (Hp : forall c, p c = true <-> c ∉ native m).
  { intros c. unfold p. rewrite negb_true_iff, bool_decide_eq_false, state_of_Present. done. }
  assert (Hm : forall c, c ∈ List.filter p (required m) <-> c ∈ required m /\ c ∉ native m).
  { intros c. rewrite list_elem_of_In, filter_In, Hp, <- list_elem_of_In. done. }
  case_bool_decide as E.
  - apply fmap_nil_inv in E. split; [|split; [by intros s [= <-]|done]]. split; [|done].
    intros _ c Hc. apply dec_stable. intros Hn.
    assert (Hf : c ∈ List.filter p (required m)) by by apply Hm. rewrite E in Hf.
    by apply not_elem_of_nil in Hf.
  - split; [|split; [done|]].
    + split; [done|]. intros Hs. exfalso. apply E.
      destruct (List.filter p (required m)) as [|c cs] eqn:Ef; [done|].
      assert (Hc : c ∈ c :: cs) by left. apply Hm in Hc as [Hc Hn]. by apply Hs in Hc.
    + intros e [= <-]. exists (List.filter p (required m)). split; [done|]. split.
      * intros Ef. by rewrite Ef in E.
      * split; [|done]. clear. induction (required m) as [|c cs IH]; cbn; [constructor|].
        destruct (p c); by constructor.
Qed.

(** A binding is confirmed only against itself. *)
Lemma confirm_same_Ok a b : confirm_same a b = Ok tt <-> a = b.
Proof.
  split.
  - unfold confirm_same. cbn [first_mismatch]. unfold mbind, result_bind.
    repeat (case_bool_decide; cbn; [|done]).
    intros _. destruct a, b; cbn in *; congruence.
  - intros ->. unfold confirm_same. cbn [first_mismatch]. by rewrite !bool_decide_true.
Qed.
