(* ===== verification/Events.v ===== *)
(** Normalized provider events, run timelines, subscriptions and provider
    approvals: [automonique-protocol/src/event.rs]. *)

From S2P Require Import Prelude Text Codec Values SandboxValues Provider Journal.

Definition MAX_INLINE_RAW_BYTES : Z := 64 * 1024.
Definition MAX_SOURCE_FIELD_BYTES : Z := 256.
Definition MAX_RETRY_AFTER_MS : Z := 300000.

(** * Vocabulary *)

Inductive Authority := Authoritative | Synthetic.

Definition authority_str (a : Authority) : string :=
  match a with Authoritative => "authoritative" | Synthetic => "synthetic" end.

Inductive EventKind :=
| ProviderConnected | ProviderDisconnected | SessionCreated | SessionLoaded | SessionUpdated
| TurnQueued | TurnStarted | TurnSteered | TurnInterrupted | TurnCompleted
| AssistantMessageDelta | AssistantMessageCompleted
| ToolCallStarted | ToolCallUpdated | ToolCallCompleted
| ApprovalRequested | ApprovalResolved | InputRequested
| SubagentStarted | SubagentEvent | SubagentCompleted
| UsageUpdated | ProviderWarning | ProviderFault | RunTerminal.

#[export] Instance EventKind_eq_dec : EqDecision EventKind.
Proof. solve_decision. Defined.

Definition kind_ALL : list EventKind :=
  [ProviderConnected; ProviderDisconnected; SessionCreated; SessionLoaded; SessionUpdated;
   TurnQueued; TurnStarted; TurnSteered; TurnInterrupted; TurnCompleted;
   AssistantMessageDelta; AssistantMessageCompleted;
   ToolCallStarted; ToolCallUpdated; ToolCallCompleted;
   ApprovalRequested; ApprovalResolved; InputRequested;
   SubagentStarted; SubagentEvent; SubagentCompleted;
   UsageUpdated; ProviderWarning; ProviderFault; RunTerminal].

Definition kind_str (k : EventKind) : string :=
  match k with
  | ProviderConnected => "provider_connected"
  | ProviderDisconnected => "provider_disconnected"
  | SessionCreated => "session_created"
  | SessionLoaded => "session_loaded"
  | SessionUpdated => "session_updated"
  | TurnQueued => "turn_queued"
  | TurnStarted => "turn_started"
  | TurnSteered => "turn_steered"
  | TurnInterrupted => "turn_interrupted"
  | TurnCompleted => "turn_completed"
  | AssistantMessageDelta => "assistant_message_delta"
  | AssistantMessageCompleted => "assistant_message_completed"
  | ToolCallStarted => "tool_call_started"
  | ToolCallUpdated => "tool_call_updated"
  | ToolCallCompleted => "tool_call_completed"
  | ApprovalRequested => "approval_requested"
  | ApprovalResolved => "approval_resolved"
  | InputRequested => "input_requested"
  | SubagentStarted => "subagent_started"
  | SubagentEvent => "subagent_event"
  | SubagentCompleted => "subagent_completed"
  | UsageUpdated => "usage_updated"
  | ProviderWarning => "provider_warning"
  | ProviderFault => "provider_fault"
  | RunTerminal => "run_terminal"
  end.

Definition kind_from_spelling : list Z -> option EventKind := from_spelling kind_ALL kind_str.

Definition is_terminal (k : EventKind) : bool := match k with RunTerminal => true | _ => false end.
Definition is_preview_only (k : EventKind) : bool :=
  match k with AssistantMessageDelta => true | _ => false end.

Inductive MemberRule := Required | Optional | Forbidden.

Definition rule_ALL : list MemberRule := [Required; Optional; Forbidden].

Definition rule_str (r : MemberRule) : string :=
  match r with Required => "required" | Optional => "optional" | Forbidden => "forbidden" end.

Definition admits (r : MemberRule) (present : bool) : bool :=
  match r with Required => present | Optional => true | Forbidden => negb present end.

Definition step_rule (k : EventKind) : MemberRule :=
  match k with
  | ToolCallStarted | ToolCallUpdated | ToolCallCompleted
  | SubagentStarted | SubagentEvent | SubagentCompleted => Required
  | ProviderConnected | ProviderDisconnected | SessionCreated | SessionLoaded | SessionUpdated
  | TurnQueued | TurnStarted | TurnSteered | TurnInterrupted | TurnCompleted
  | AssistantMessageDelta | AssistantMessageCompleted | ApprovalRequested | ApprovalResolved
  | InputRequested | UsageUpdated | ProviderWarning | ProviderFault | RunTerminal => Forbidden
  end.

Definition retry_rule (k : EventKind) : MemberRule :=
  match k with
  | ProviderWarning | ProviderFault => Required
  | ProviderConnected | ProviderDisconnected | SessionCreated | SessionLoaded | SessionUpdated
  | TurnQueued | TurnStarted | TurnSteered | TurnInterrupted | TurnCompleted
  | AssistantMessageDelta | AssistantMessageCompleted
  | ToolCallStarted | ToolCallUpdated | ToolCallCompleted
  | ApprovalRequested | ApprovalResolved | InputRequested
  | SubagentStarted | SubagentEvent | SubagentCompleted | UsageUpdated | RunTerminal => Forbidden
  end.

Definition text_rule (k : EventKind) : MemberRule :=
  match k with
  | AssistantMessageDelta | AssistantMessageCompleted => Required
  | ToolCallStarted | ToolCallUpdated | ToolCallCompleted | ApprovalRequested | InputRequested
  | SubagentStarted | SubagentEvent | SubagentCompleted | ProviderWarning | ProviderFault => Optional
  | ProviderConnected | ProviderDisconnected | SessionCreated | SessionLoaded | SessionUpdated
  | TurnQueued | TurnStarted | TurnSteered | TurnInterrupted | TurnCompleted
  | ApprovalResolved | UsageUpdated | RunTerminal => Forbidden
  end.

Inductive StepStatus := Pending | InProgress | StepCompleted | StepError.

Definition step_ALL : list StepStatus := [Pending; InProgress; StepCompleted; StepError].

Definition step_str (s : StepStatus) : string :=
  match s with
  | Pending => "pending" | InProgress => "in_progress" | StepCompleted => "completed"
  | StepError => "error"
  end.

Definition step_from_spelling : list Z -> option StepStatus := from_spelling step_ALL step_str.

Definition is_settled (s : StepStatus) : bool :=
  match s with StepCompleted | StepError => true | _ => false end.

Inductive RetryCategory := RateLimited | Overloaded | Timeout | Transport | RetryRejected | Internal.

Definition retry_ALL : list RetryCategory :=
  [RateLimited; Overloaded; Timeout; Transport; RetryRejected; Internal].

Definition retry_str (c : RetryCategory) : string :=
  match c with
  | RateLimited => "rate_limited" | Overloaded => "overloaded" | Timeout => "timeout"
  | Transport => "transport" | RetryRejected => "rejected" | Internal => "internal"
  end.

Definition retry_from_spelling : list Z -> option RetryCategory := from_spelling retry_ALL retry_str.

Inductive ApprovalClass := Command | File | Network | Mcp | Elicitation | Permission.

Inductive ApprovalDecision := Allow | Deny.

#[export] Instance ApprovalDecision_eq_dec : EqDecision ApprovalDecision.
Proof. solve_decision. Defined.

Definition decision_str (d : ApprovalDecision) : string :=
  match d with Allow => "allow" | Deny => "deny" end.

(** * Errors *)

Inductive EventError :=
| RawPayloadTooLarge (max_bytes actual_bytes : Z)
| SourceFieldInvalid (field : string)
| SequenceNotIncreasing (last_ offered : Z)
| TerminalAlreadyRecorded (existing : Z)
| RunAlreadyTerminal
| ECursorWentBackwards (current offered : Z)
| ApprovalConflict (recorded offered : ApprovalDecision)
| RetentionWouldOutliveEvidence (preview_ms authoritative_ms : Z)
| RetryContextIncoherent (field : string)
| BodyMemberRefused (member : string) (kind : EventKind) (rule : MemberRule)
| PreviewClaimedAuthority (kind : EventKind).

Definition event_category (e : EventError) : string :=
  match e with
  | RawPayloadTooLarge _ _ => "raw_payload_too_large"
  | SourceFieldInvalid _ => "source_field_invalid"
  | SequenceNotIncreasing _ _ => "sequence_not_increasing"
  | TerminalAlreadyRecorded _ => "terminal_already_recorded"
  | RunAlreadyTerminal => "run_already_terminal"
  | ECursorWentBackwards _ _ => "cursor_went_backwards"
  | ApprovalConflict _ _ => "approval_conflict"
  | RetentionWouldOutliveEvidence _ _ => "retention_would_outlive_evidence"
  | RetryContextIncoherent _ => "retry_context_incoherent"
  | BodyMemberRefused _ _ _ => "body_member_refused"
  | PreviewClaimedAuthority _ => "preview_claimed_authority"
  end.

Definition source_field (value : list Z) (field : string) : result EventError unit :=
  if bool_decide (value = []) || (MAX_SOURCE_FIELD_BYTES <? str_len value) || existsb is_control value
  then Err (SourceFieldInvalid field) else Ok tt.

(** * Records *)

Record RetryContext := mkRetry {
  retry_category : RetryCategory; retryable : bool; retry_after_ms : option Z; attempt : Z }.

Definition retry_context_new (c : RetryCategory) (retryable : bool) (after : option Z) (attempt : Z)
  : result EventError RetryContext :=
  if attempt =? 0 then Err (RetryContextIncoherent "attempt")
  else match after with
       | Some delay =>
           if negb retryable || (MAX_RETRY_AFTER_MS <? delay)
           then Err (RetryContextIncoherent "retry_after_ms")
           else Ok (mkRetry c retryable after attempt)
       | None => Ok (mkRetry c retryable after attempt)
       end.

Inductive RawPayload := Inline (bytes : list Z) | Artifact (digest : list Z).

Record RawProviderRecord := mkRaw {
  raw_provenance : BinaryProvenance; source_type : list Z; source_cursor : list Z;
  raw_payload : RawPayload }.

Definition raw_inline (p : BinaryProvenance) (type cursor payload : list Z)
  : result EventError RawProviderRecord :=
  _ ← source_field type "source_type";
  _ ← source_field cursor "source_cursor";
  if MAX_INLINE_RAW_BYTES <? len payload
  then Err (RawPayloadTooLarge MAX_INLINE_RAW_BYTES (len payload))
  else Ok (mkRaw p type cursor (Inline payload)).

Definition raw_artifact (p : BinaryProvenance) (type cursor digest : list Z)
  : result EventError RawProviderRecord :=
  _ ← source_field type "source_type";
  _ ← source_field cursor "source_cursor";
  _ ← source_field digest "artifact_digest";
  Ok (mkRaw p type cursor (Artifact digest)).

Record EventCoordinates := mkCoordinates {
  co_session : list Z; co_turn : option (list Z); co_item : option (list Z) }.

Record PreviewEvent := mkPreview {
  pv_sequence : Z; pv_coordinates : EventCoordinates; pv_at : EpochMillis; pv_text : list Z }.

(** [RecordedEvent]; [RecordedEventParts] has the same fields. *)
Record RecordedEvent := mkRecorded {
  sequence : Z;
  coordinates : EventCoordinates;
  kind : EventKind;
  authority : Authority;
  recorded_at : EpochMillis;
  source_schema_version : Z;
  raw : option RawProviderRecord;
  step : option StepStatus;
  retry : option RetryContext;
}.

Definition admit_member (member : string) (k : EventKind) (rule : MemberRule) (present : bool)
  : result EventError unit :=
  if admits rule present then Ok tt else Err (BodyMemberRefused member k rule).

Definition is_present {A} (o : option A) : bool := match o with Some _ => true | None => false end.

Definition recorded_new (parts : RecordedEvent) : result EventError RecordedEvent :=
  if is_preview_only (kind parts) && (match authority parts with Authoritative => true | _ => false end)
  then Err (PreviewClaimedAuthority (kind parts))
  else
    _ ← admit_member "step" (kind parts) (step_rule (kind parts)) (is_present (step parts));
    _ ← admit_member "retry" (kind parts) (retry_rule (kind parts)) (is_present (retry parts));
    Ok parts.

(** * Run timelines *)

Record RunTimeline := mkTimeline { tl_events : list RecordedEvent; terminal_sequence : option Z }.

Definition timeline_new : RunTimeline := mkTimeline [] None.

Definition timeline_record (t : RunTimeline) (e : RecordedEvent) : result EventError unit * RunTimeline :=
  match (match last (tl_events t) with
         | Some l => if sequence e <=? sequence l
                     then Some (SequenceNotIncreasing (sequence l) (sequence e)) else None
         | None => None
         end) with
  | Some err => (Err err, t)
  | None =>
      match terminal_sequence t with
      | Some existing =>
          (Err (if is_terminal (kind e) then TerminalAlreadyRecorded existing else RunAlreadyTerminal), t)
      | None =>
          (Ok tt, mkTimeline (tl_events t ++ [e])
                    (if is_terminal (kind e) then Some (sequence e) else None))
      end
  end.

Definition timeline_terminal (t : RunTimeline) : option RecordedEvent :=
  List.find (fun e => is_terminal (kind e)) (tl_events t).

(** * Subscriptions *)

Record ConsumerCursor := mkConsumer { cc_consumer : list Z; cc_topic : list Z; cc_position : Z }.

Definition consumer_new (c t : list Z) (p : Z) : result EventError ConsumerCursor :=
  _ ← source_field c "consumer";
  _ ← source_field t "topic";
  Ok (mkConsumer c t p).

Definition consumer_advance_to (c : ConsumerCursor) (p : Z) : result EventError unit * ConsumerCursor :=
  if p <? cc_position c then (Err (ECursorWentBackwards (cc_position c) p), c)
  else (Ok tt, mkConsumer (cc_consumer c) (cc_topic c) p).

(** [SubscriptionStart] has the two answers of [CursorResume]. *)
Inductive SubscriptionStart :=
| SubLive (from : Z)
| SubResyncRequired (snapshot_from snapshot_to : Z).

Definition resolve_subscription (c : ConsumerCursor) (retained_from retained_to : Z) : SubscriptionStart :=
  if cc_position c <? retained_from then SubResyncRequired retained_from retained_to
  else SubLive (cc_position c).

(** * Provider approvals *)

Record ProviderApprovalRequest := mkApprovalRequest {
  ar_class : ApprovalClass; ar_request : list Z; ar_item : option (list Z); ar_turn : list Z }.

Record ApprovalReceipt := mkApprovalReceipt {
  rc_request : list Z; rc_decision : ApprovalDecision; rc_at : EpochMillis }.

Record ApprovalLedger := mkApprovals { approvals : list ApprovalReceipt }.
Definition approvals_new : ApprovalLedger := mkApprovals [].

Definition decide_approval (l : ApprovalLedger) (request : ProviderApprovalRequest)
    (d : ApprovalDecision) (at_ : EpochMillis) : result EventError ApprovalReceipt * ApprovalLedger :=
  match List.find (fun r => bool_decide (rc_request r = ar_request request)) (approvals l) with
  | Some existing =>
      if bool_decide (rc_decision existing = d) then (Ok existing, l)
      else (Err (ApprovalConflict (rc_decision existing) d), l)
  | None =>
      let receipt := mkApprovalReceipt (ar_request request) d at_ in
      (Ok receipt, mkApprovals (approvals l ++ [receipt]))
  end.

(** * Retention *)

Record RetentionPolicy := mkRetention { preview_ms : Z; authoritative_ms : Z }.

Definition retention_new (p a : Z) : result EventError RetentionPolicy :=
  if a <=? p then Err (RetentionWouldOutliveEvidence p a) else Ok (mkRetention p a).

Definition expire_previews (r : RetentionPolicy) (previews : list PreviewEvent) (now : EpochMillis)
  : list PreviewEvent :=
  List.filter (fun preview => sat_i64 (now - pv_at preview) <? preview_ms r) previews.

(** * Recorded events *)

(** Each rule is required for some kinds and forbidden for the others. *)
Lemma step_rule_kinds k :
  step_rule k = if bool_decide (k ∈ [ToolCallStarted; ToolCallUpdated; ToolCallCompleted;
                      SubagentStarted; SubagentEvent; SubagentCompleted]) then Required else Forbidden.
Proof. by destruct k. Qed.

Lemma retry_rule_kinds k :
  retry_rule k = if bool_decide (k ∈ [ProviderWarning; ProviderFault]) then Required else Forbidden.
Proof. by destruct k. Qed.

Lemma admit_member_Ok {A} member k rule (b : bool) (o : option A) :
  rule = (if b then Required else Forbidden) ->
  admit_member member k rule (is_present o) = Ok tt <-> (is_Some o <-> b = true).
Proof. intros ->. destruct b, o; cbn; split; try done; try naive_solver. Qed.

(** C40: a recorded event is exactly a coherent one: it is accepted, unchanged,
    exactly when an assistant delta is not marked authoritative, a step status
    is present just for the tool-call and subagent kinds and a retry context
    just for warnings and faults; so nothing that was only shown can be
    recorded as decided. *)
Theorem recorded_event_coherent parts :
  (recorded_new parts = Ok parts <->
     (kind parts = AssistantMessageDelta -> authority parts = Synthetic) /\
     (is_Some (step parts) <->
        kind parts ∈ [ToolCallStarted; ToolCallUpdated; ToolCallCompleted;
                      SubagentStarted; SubagentEvent; SubagentCompleted]) /\
     (is_Some (retry parts) <-> kind parts ∈ [ProviderWarning; ProviderFault])) /\
  (forall e, recorded_new parts = Ok e -> e = parts).
Proof.
  pose proof (admit_member_Ok "step" (kind parts) _ _ (step parts) (step_rule_kinds (kind parts))) as Hst.
  pose proof (admit_member_Ok "retry" (kind parts) _ _ (retry parts) (retry_rule_kinds (kind parts))) as Hre.
  rewrite bool_decide_eq_true in Hst, Hre. rewrite <- Hst, <- Hre. unfold recorded_new.
  destruct (is_preview_only (kind parts) && _) eqn:E.
  - split; [|done]. split; [done|]. intros (H & _).
    destruct (kind parts), (authority parts); naive_solver.
  - assert (HA : kind parts = AssistantMessageDelta -> authority parts = Synthetic).
    { intros Ek. rewrite Ek in E. by destruct (authority parts). }
    destruct (admit_member "step" _ _ _) as [[]|]; cbn; [|naive_solver].
    destruct (admit_member "retry" _ _ _) as [[]|]; cbn; naive_solver.
Qed.

(** * Timelines *)

Record timeline_ok (t : RunTimeline) : Prop := {
  sequences_increase : StronglySorted Z.lt (sequence <$> tl_events t);
  terminal_shape :
    match terminal_sequence t with
    | None => Forall (fun e => is_terminal (kind e) = false) (tl_events t)
    | Some s => exists es e, tl_events t = es ++ [e] /\ sequence e = s /\ is_terminal (kind e) = true /\
        Forall (fun e => is_terminal (kind e) = false) es
    end;
}.

Lemma timeline_record_cases t e :
  timeline_ok t ->
  (Forall (fun s => s < sequence e) (sequence <$> tl_events t) /\ terminal_sequence t = None /\
   timeline_record t e = (Ok tt, mkTimeline (tl_events t ++ [e])
                            (if is_terminal (kind e) then Some (sequence e) else None))) \/
  ((~ Forall (fun s => s < sequence e) (sequence <$> tl_events t) \/ is_Some (terminal_sequence t)) /\
   exists err, timeline_record t e = (Err err, t)).
Proof.
  intros [Hs _]. rewrite (increasing_last _ (sequence e) Hs), fmap_last. unfold timeline_record.
  destruct (last (tl_events t)) as [l|]; cbn;
    [destruct (sequence e <=? sequence l) eqn:E; bool_prop|].
  - right. split; [left; intros H; specialize (H _ eq_refl); lia|eauto].
  - destruct (terminal_sequence t); [right; eauto|left]. split_and!; [naive_solver|done..].
  - destruct (terminal_sequence t); [right; eauto|left]. done.
Qed.

Lemma timeline_record_ok t e : timeline_ok t -> timeline_ok (snd (timeline_record t e)).
Proof.
  intros Ht. destruct (timeline_record_cases t e Ht) as [(Hs & Hn & ->)|(_ & err & ->)]; [|done].
  destruct Ht as [Hi Hsh]. rewrite Hn in Hsh. cbn [snd]. constructor; cbn.
  - rewrite fmap_app. by apply increasing_snoc.
  - destruct (is_terminal (kind e)) eqn:Ek; [by exists (tl_events t), e|].
    apply Forall_app. split; [done|]. by apply Forall_singleton.
Qed.

Definition record_all (t : RunTimeline) (es : list RecordedEvent) : RunTimeline :=
  foldl (fun t e => snd (timeline_record t e)) t es.

Lemma record_all_ok es t : timeline_ok t -> timeline_ok (record_all t es).
Proof.
  revert t; induction es as [|e es IH]; intros t Ht; [done|]. apply IH. by apply timeline_record_ok.
Qed.

Lemma timeline_new_ok : timeline_ok timeline_new.
Proof. split; [constructor|constructor]. Qed.

Lemma find_last_terminal es e :
  Forall (fun e => is_terminal (kind e) = false) es -> is_terminal (kind e) = true ->
  List.find (fun e => is_terminal (kind e)) (es ++ [e]) = Some e.
Proof.
  intros Hf He. rewrite find_app. apply find_None_iff in Hf. rewrite Hf. cbn. by rewrite He.
Qed.

(** A run ends once: whatever is offered to a timeline, its events have
    strictly increasing sequences and at most one of them is terminal, the last;
    an event is accepted exactly when its sequence is above every recorded one
    and no terminal was recorded, a refused one changes nothing, and the
    terminal outcome, once there, is that event for good. *)
Theorem timeline_ends_once es :
  let t := record_all timeline_new es in
  StronglySorted Z.lt (sequence <$> tl_events t) /\
  (forall x, timeline_terminal t = Some x <->
     x ∈ tl_events t /\ is_terminal (kind x) = true) /\
  (forall x, timeline_terminal t = Some x -> last (tl_events t) = Some x) /\
  (forall e, fst (timeline_record t e) = Ok tt <->
     Forall (fun s => s < sequence e) (sequence <$> tl_events t) /\ timeline_terminal t = None) /\
  (forall e err, fst (timeline_record t e) = Err err -> snd (timeline_record t e) = t) /\
  (forall x es', timeline_terminal t = Some x -> record_all t es' = t).
Proof.
  intros t. assert (Ht : timeline_ok t) by apply record_all_ok, timeline_new_ok.
  assert (Hterm : forall x, timeline_terminal t = Some x <->
                            x ∈ tl_events t /\ is_terminal (kind x) = true).
  { intros x. pose proof (terminal_shape t Ht) as Hsh. unfold timeline_terminal.
    destruct (terminal_sequence t) as [s|].
    - destruct Hsh as (es0 & e & -> & _ & He & Hes). rewrite (find_last_terminal _ _ Hes He).
      rewrite elem_of_app, list_elem_of_singleton. rewrite Forall_forall in Hes.
      split; [intros [= <-]; auto|]. intros [[Hx| ->] Hk]; [|done]. by rewrite (Hes x Hx) in Hk.
    - rewrite (proj2 (find_None_iff _ _) Hsh). rewrite Forall_forall in Hsh.
      split; [done|]. intros [Hx Hk]. by rewrite (Hsh x Hx) in Hk. }
  assert (HN : terminal_sequence t = None <-> timeline_terminal t = None).
  { pose proof (terminal_shape t Ht) as Hsh. unfold timeline_terminal.
    destruct (terminal_sequence t) as [s|].
    - destruct Hsh as (es0 & e & -> & _ & He & Hes). by rewrite (find_last_terminal _ _ Hes He).
    - by rewrite (proj2 (find_None_iff _ _) Hsh). }
  split; [apply Ht|]. split; [exact Hterm|]. split_and!.
  - intros x Hx. pose proof (terminal_shape t Ht) as Hsh. unfold timeline_terminal in Hx.
    destruct (terminal_sequence t) as [s|].
    + destruct Hsh as (es0 & e & E & _ & He & Hes). rewrite E in *.
      rewrite (find_last_terminal _ _ Hes He) in Hx. by rewrite last_snoc.
    + by rewrite (proj2 (find_None_iff _ _) Hsh) in Hx.
  - intros e. rewrite <- HN.
    destruct (timeline_record_cases t e Ht) as [(? & ? & ->)|([?|[s ?]] & err & ->)]; cbn; naive_solver.
  - intros e err. destruct (timeline_record_cases t e Ht) as [(_ & _ & ->)|(_ & err' & ->)]; done.
  - intros x es' Hx. induction es' as [|e es' IH]; [done|].
    unfold record_all. cbn [foldl]. fold (record_all (snd (timeline_record t e)) es').
    destruct (timeline_record_cases t e Ht) as [(_ & Hn & _)|(_ & err' & ->)]; [|exact IH].
    apply HN in Hn. congruence.
Qed.

(** * Subscriptions against journal cursors *)

(** The two resume decisions agree exactly while the consumer is not ahead
    of the topic: for a window of [u64] positions both answer the same below and
    inside it and one past its end; beyond that the journal cursor asks for a
    resync while [resolve_subscription] answers live delivery from a position
    the topic has not reached, so every position written in between is
    skipped. *)
Theorem subscription_skips_ahead c from to :
  in_u64 (cc_position c) -> in_u64 to -> from <= to ->
  let j := resume_within (mkCursor (cc_consumer c) (cc_topic c) (cc_position c)) (mkRetained from to) in
  (cc_position c <= to + 1 ->
     resolve_subscription c from to =
     match j with Live p => SubLive p | ResyncRequired a b => SubResyncRequired a b end) /\
  (to + 1 < cc_position c ->
     resolve_subscription c from to = SubLive (cc_position c) /\ j = ResyncRequired from to).
Proof.
  intros Hp Ht Hft. cbv zeta. unfold resolve_subscription, resume_within, caught_up.
  cbn [position first_ last_]. widths.
  destruct (cc_position c <? from) eqn:E1; cbn [orb];
    [|destruct (_ <? cc_position c) eqn:E2]; bool_prop; split; intros H; try done; lia.
Qed.

Lemma subscription_skips_ahead_witness :
  resolve_subscription (mkConsumer [99] [116] 20) 3 7 = SubLive 20 /\
  resume_within (mkCursor [99] [116] 20) (mkRetained 3 7) = ResyncRequired 3 7.
Proof.
  apply (subscription_skips_ahead (mkConsumer [99] [116] 20) 3 7); cbn; mlia.
Defined.

(** * Approvals and retention *)

Definition decide_all (l : ApprovalLedger)
    (calls : list (ProviderApprovalRequest * ApprovalDecision * EpochMillis)) : ApprovalLedger :=
  foldl (fun l c => snd (decide_approval l c.1.1 c.1.2 c.2)) l calls.

Lemma decide_keeps l calls id r :
  List.find (fun r => bool_decide (rc_request r = id)) (approvals l) = Some r ->
  List.find (fun r => bool_decide (rc_request r = id)) (approvals (decide_all l calls)) = Some r.
Proof.
  revert l; induction calls as [|c calls IH]; intros l Hf; [done|]. apply IH.
  unfold decide_approval. case_match; [by case_match|].
  cbn [snd approvals]. by rewrite find_app, Hf.
Qed.

(** A provider approval is decided once: after a decision is recorded,
    whatever is decided later, the same decision for the request answers the
    first receipt with its original time and the opposite one is a typed
    conflict, and neither changes the ledger. *)
Theorem approval_decided_once l request d at_ r l1 calls :
  decide_approval l request d at_ = (Ok r, l1) ->
  let l2 := decide_all l1 calls in
  rc_request r = ar_request request /\ rc_decision r = d /\
  (forall request' at', ar_request request' = ar_request request ->
     decide_approval l2 request' d at' = (Ok r, l2)) /\
  (forall request' d' at', ar_request request' = ar_request request -> d' <> d ->
     decide_approval l2 request' d' at' = (Err (ApprovalConflict d d'), l2)).
Proof.
  intros Hd l2.
  assert (HR : rc_request r = ar_request request /\ rc_decision r = d /\
    List.find (fun r => bool_decide (rc_request r = ar_request request)) (approvals l1) = Some r).
  { revert Hd. unfold decide_approval. destruct (List.find _ _) as [x|] eqn:E.
    - case_bool_decide; [|done]. intros [= <- <-]. pose proof (find_some _ _ E) as [_ Hx].
      by apply bool_decide_eq_true in Hx.
    - intros [= <- <-]. cbn [approvals]. rewrite find_app, E. cbn. by rewrite bool_decide_true. }
  destruct HR as (H1 & H2 & Hf). apply (decide_keeps _ calls) in Hf. fold l2 in Hf.
  split; [done|]. split; [done|].
  split; intros; unfold decide_approval; rewrite H, Hf, H2;
    [by rewrite bool_decide_true|by rewrite bool_decide_false].
Qed.

Lemma approval_decided_once_witness :
  let q := mkApprovalRequest Command [113] None [116] in
  let l := mkApprovals [mkApprovalReceipt [113] Allow 5] in
  decide_approval approvals_new q Allow 5 = (Ok (mkApprovalReceipt [113] Allow 5), l) /\
  decide_approval l q Allow 9 = (Ok (mkApprovalReceipt [113] Allow 5), l) /\
  decide_approval l q Deny 9 = (Err (ApprovalConflict Allow Deny), l).
Proof.
  cbv zeta. split; [reflexivity|].
  destruct (approval_decided_once approvals_new (mkApprovalRequest Command [113] None [116]) Allow 5
    (mkApprovalReceipt [113] Allow 5) (mkApprovals [mkApprovalReceipt [113] Allow 5]) [])
    as (_ & _ & H1 & H2); [reflexivity|].
  split; [by apply H1|by apply H2].
Defined.
