(* ===== verification/Egress.v ===== *)
(** The destination policy of the egress broker
    ([automonique-egress-broker/src/allowlist.rs]): hosts and ports as written,
    the closed list of destinations, and the scope an address a name resolves
    to must fall in. *)

From S2P Require Import Prelude Text Codec SandboxValues Address Url.

Definition MAX_ALLOWLIST_ENTRIES : Z := 16.
Definition MAX_HOST_BYTES : Z := 253.
Definition MAX_LABEL_BYTES : Z := 63.

(** * Addresses *)

(** [Ipv4Addr::octets] and [Ipv6Addr::segments], out of range read as zero. *)
Definition nth_octet (n : nat) (l : list Z) : Z := default 0 (l !! n).

(** The classes of the standard library. *)
Definition v4_is_loopback (o : list Z) : bool := nth_octet 0 o =? 127.
Definition v4_is_unspecified (o : list Z) : bool := bool_decide (o = [0; 0; 0; 0]).
Definition v4_is_broadcast (o : list Z) : bool := bool_decide (o = [255; 255; 255; 255]).
Definition v4_is_multicast (o : list Z) : bool := in_range 224 239 (nth_octet 0 o).
Definition v4_is_link_local (o : list Z) : bool := (nth_octet 0 o =? 169) && (nth_octet 1 o =? 254).
Definition v4_is_documentation (o : list Z) : bool :=
  bool_decide (take 3 o = [192; 0; 2]) || bool_decide (take 3 o = [198; 51; 100])
  || bool_decide (take 3 o = [203; 0; 113]).

Definition v6_is_loopback (s : list Z) : bool := bool_decide (s = [0; 0; 0; 0; 0; 0; 0; 1]).
Definition v6_is_unspecified (s : list Z) : bool := bool_decide (s = [0; 0; 0; 0; 0; 0; 0; 0]).
Definition v6_is_multicast (s : list Z) : bool := Z.land (nth_octet 0 s) 0xff00 =? 0xff00.

Definition is_loopback (a : IpAddr) : bool :=
  match a with V4 o => v4_is_loopback o | V6 s => v6_is_loopback s end.

(** [Ipv6Addr::to_ipv4_mapped]. *)
Definition to_ipv4_mapped (s : list Z) : option (list Z) :=
  if bool_decide (take 6 s = [0; 0; 0; 0; 0; 0xffff]) then
    match drop 6 s with
    | [g; h] => Some [g / 256; g mod 256; h / 256; h mod 256]
    | _ => None
    end
  else None.

Definition canonical (address : IpAddr) : IpAddr :=
  match address with
  | V6 v6 => match to_ipv4_mapped v6 with Some v4 => V4 v4 | None => V6 v6 end
  | other => other
  end.

Definition is_global_v4 (address : list Z) : bool :=
  let a := nth_octet 0 address in
  let b := nth_octet 1 address in
  let shared_cgnat := (a =? 100) && in_range 64 127 b in
  let private := (a =? 10) || ((a =? 172) && in_range 16 31 b) || ((a =? 192) && (b =? 168)) in
  let reserved := 240 <=? a in
  negb (v4_is_loopback address
        || v4_is_unspecified address
        || v4_is_broadcast address
        || v4_is_multicast address
        || v4_is_link_local address
        || v4_is_documentation address
        || (a =? 0)
        || private
        || shared_cgnat
        || reserved).

Definition is_global_v6 (address : list Z) : bool :=
  let first := nth_octet 0 address in
  let unique_local := Z.land first 0xfe00 =? 0xfc00 in
  let link_local := Z.land first 0xffc0 =? 0xfe80 in
  negb (v6_is_loopback address
        || v6_is_unspecified address
        || v6_is_multicast address
        || unique_local
        || link_local).

Definition is_globally_routable (address : IpAddr) : bool :=
  match address with V4 v4 => is_global_v4 v4 | V6 v6 => is_global_v6 v6 end.

Inductive AddressScope := PublicScope | LoopbackScope.

#[export] Instance AddressScope_eq_dec : EqDecision AddressScope.
Proof. solve_decision. Defined.

Definition scope_permits (scope : AddressScope) (address : IpAddr) : bool :=
  let address := canonical address in
  match scope with
  | PublicScope => is_globally_routable address
  | LoopbackScope => is_loopback address
  end.

Definition requires_transport_security (scope : AddressScope) : bool :=
  match scope with PublicScope => true | LoopbackScope => false end.

(** * Hosts and ports *)

Inductive DestinationHost :=
| Name (name : list Z)
| Address (address : IpAddr).

#[export] Instance DestinationHost_eq_dec : EqDecision DestinationHost.
Proof. solve_decision. Defined.

Inductive DestinationError :=
| HostEmpty
| HostTooLong
| HostNotLdh
| LabelRejected
| BracketedHostNotIpv6
| PortRejected
| DuplicateDestination
| TooManyDestinations.

(** [str::strip_suffix(char)] and [to_ascii_lowercase]. *)
Definition strip_suffix (c : Z) (t : list Z) : option (list Z) :=
  match last t with Some x => if x =? c then Some (removelast t) else None | None => None end.

Definition lower_char (c : Z) : Z := if is_ascii_uppercase c then c + 32 else c.
Definition to_ascii_lowercase (t : list Z) : list Z := lower_char <$> t.

Definition is_ldh (b : Z) : bool := is_ascii_alphanumeric b || (b =? 45) || (b =? 46).

(** One turn of the label loop. *)
Definition label_accepted (label : list Z) : bool :=
  if bool_decide (label = []) || (MAX_LABEL_BYTES <? str_len label) then false
  else if starts_with 45 label || ends_with 45 label then false
  else true.

Definition parse_host (host : list Z) : result DestinationError DestinationHost :=
  if bool_decide (host = []) then Err HostEmpty
  else if MAX_HOST_BYTES <? str_len host then Err HostTooLong
  else match strip_prefix [91] host with
       | Some inner =>
           inner ← ok_or (strip_suffix 93 inner) BracketedHostNotIpv6;
           address ← ok_or (parse_ipv6 inner) BracketedHostNotIpv6;
           Ok (Address (V6 address))
       | None =>
           match parse_ip host with
           | Some address => Ok (Address address)
           | None =>
               if negb (forallb is_ldh (utf8 host)) then Err HostNotLdh
               else if negb (forallb label_accepted (split_on 46 host)) then Err LabelRejected
               else Ok (Name (to_ascii_lowercase host))
           end
       end.

(** [str::parse::<u16>] of a string of digits. *)
Definition parse_u16 (digits : list Z) : option Z :=
  if dec_value digits <=? u16_max then Some (dec_value digits) else None.

Definition parse_port (port : list Z) : result DestinationError Z :=
  if bool_decide (port = []) || (5 <? str_len port) || negb (forallb is_ascii_digit (utf8 port))
  then Err PortRejected
  else if (1 <? str_len port) && starts_with 48 port then Err PortRejected
  else match parse_u16 port with
       | Some p => if p =? 0 then Err PortRejected else Ok p
       | None => Err PortRejected
       end.

(** * Destinations *)

Record Destination := mkDestination {
  d_host : DestinationHost;
  d_port : Z;
  d_scope : AddressScope
}.

#[export] Instance Destination_eq_dec : EqDecision Destination.
Proof. solve_decision. Defined.

Definition destination_new (host : list Z) (port : Z) (scope : AddressScope)
  : result DestinationError Destination :=
  if port =? 0 then Err PortRejected
  else host ← parse_host host; Ok (mkDestination host port scope).

Record DestinationAllowlist := mkAllowlist { entries : list Destination }.

Definition deny_all : DestinationAllowlist := mkAllowlist [].

Definition allowing (l : DestinationAllowlist) (host : list Z) (port : Z) (scope : AddressScope)
  : result DestinationError DestinationAllowlist :=
  destination ← destination_new host port scope;
  if existsb (fun entry => bool_decide (d_host entry = d_host destination)
                           && (d_port entry =? d_port destination)) (entries l)
  then Err DuplicateDestination
  else if MAX_ALLOWLIST_ENTRIES <=? len (entries l) then Err TooManyDestinations
  else Ok (mkAllowlist (entries l ++ [destination])).

Definition denies_everything (l : DestinationAllowlist) : bool := bool_decide (entries l = []).

Definition permits (l : DestinationAllowlist) (host : DestinationHost) (port : Z)
  : option Destination :=
  List.find (fun entry => (d_port entry =? port) && bool_decide (d_host entry = host)) (entries l).

(** * The scope check

    An address as a number, and the address blocks of the special-purpose
    registries the check leaves out. *)

Definition v4_value (o : list Z) : Z := foldl (fun n b => n * 256 + b) 0 o.
Definition v6_value (s : list Z) : Z := foldl (fun n g => n * 65536 + g) 0 s.

Definition addr_ok (a : IpAddr) : Prop :=
  match a with
  | V4 o => length o = 4%nat /\ Forall (fun b => 0 <= b <= 255) o
  | V6 s => length s = 8%nat /\ Forall (fun g => 0 <= g <= 65535) s
  end.

(** Membership in a block given by its first address and its prefix length. *)
Definition in_block (width n : Z) (block : Z * Z) : Prop :=
  n / 2 ^ (width - snd block) = fst block / 2 ^ (width - snd block).

Definition special_v4 : list (Z * Z) :=
  [(v4_value [0; 0; 0; 0], 8); (v4_value [10; 0; 0; 0], 8); (v4_value [100; 64; 0; 0], 10);
   (v4_value [127; 0; 0; 0], 8); (v4_value [169; 254; 0; 0], 16); (v4_value [172; 16; 0; 0], 12);
   (v4_value [192; 0; 2; 0], 24); (v4_value [192; 168; 0; 0], 16); (v4_value [198; 51; 100; 0], 24);
   (v4_value [203; 0; 113; 0], 24); (v4_value [224; 0; 0; 0], 4); (v4_value [240; 0; 0; 0], 4)].

Definition special_v6 : list (Z * Z) :=
  [(0, 128); (1, 128); (0xfc00 * 2 ^ 112, 7); (0xfe80 * 2 ^ 112, 10); (0xff00 * 2 ^ 112, 8)].

(** The block of IPv4-mapped addresses. *)
Definition mapped_block : Z * Z := (0xffff * 2 ^ 32, 96).

Lemma v4_inv o : addr_ok (V4 o) ->
  exists a b c d, o = [a; b; c; d] /\ 0 <= a <= 255 /\ 0 <= b <= 255 /\ 0 <= c <= 255 /\ 0 <= d <= 255.
Proof.
  intros [Hl Hf]. destruct o as [|a [|b [|c [|d [|? ?]]]]]; try done.
  rewrite !Forall_cons in Hf. destruct_and!. by exists a, b, c, d.
Qed.

Lemma v6_inv s : addr_ok (V6 s) ->
  exists g0 g1 g2 g3 g4 g5 g6 g7, s = [g0; g1; g2; g3; g4; g5; g6; g7] /\
    Forall (fun g => 0 <= g <= 65535) [g0; g1; g2; g3; g4; g5; g6; g7].
Proof.
  intros [Hl Hf].
  destruct s as [|g0 [|g1 [|g2 [|g3 [|g4 [|g5 [|g6 [|g7 [|? ?]]]]]]]]]; try done.
  by exists g0, g1, g2, g3, g4, g5, g6, g7.
Qed.

(** A block whose prefix ends inside the first octets, by octets. *)
Lemma v4_quotients a b c d :
  0 <= a <= 255 -> 0 <= b <= 255 -> 0 <= c <= 255 -> 0 <= d <= 255 ->
  let n := v4_value [a; b; c; d] in
  n / 2 ^ (32 - 24) = a * 65536 + b * 256 + c /\ n / 2 ^ (32 - 16) = a * 256 + b /\
  n / 2 ^ (32 - 12) = a * 16 + b / 16 /\ n / 2 ^ (32 - 10) = a * 4 + b / 64 /\
  n / 2 ^ (32 - 8) = a /\ n / 2 ^ (32 - 4) = a / 16.
Proof.
  intros Ha Hb Hc Hd n. subst n. cbn [v4_value foldl].
  change (2 ^ (32 - 24)) with 256. change (2 ^ (32 - 16)) with 65536.
  change (2 ^ (32 - 12)) with 1048576. change (2 ^ (32 - 10)) with 4194304.
  change (2 ^ (32 - 8)) with 16777216. change (2 ^ (32 - 4)) with 268435456.
  split_and!; Z.to_euclidean_division_equations; lia.
Qed.

(** Finds the disjunct that arithmetic proves. *)
Ltac pick :=
  lazymatch goal with
  | |- _ \/ _ => first [left; pick | right; pick]
  | |- _ => first [lia | destruct_and?; by subst]
  end.

Lemma special_v4_octets a b c d :
  0 <= a <= 255 -> 0 <= b <= 255 -> 0 <= c <= 255 -> 0 <= d <= 255 ->
  Exists (in_block 32 (v4_value [a; b; c; d])) special_v4 <->
  a = 0 \/ a = 10 \/ (a = 100 /\ 64 <= b <= 127) \/ a = 127 \/ (a = 169 /\ b = 254) \/
  (a = 172 /\ 16 <= b <= 31) \/ (a = 192 /\ b = 0 /\ c = 2) \/ (a = 192 /\ b = 168) \/
  (a = 198 /\ b = 51 /\ c = 100) \/ (a = 203 /\ b = 0 /\ c = 113) \/ 224 <= a.
Proof.
  intros Ha Hb Hc Hd. unfold special_v4, in_block. rewrite !Exists_cons, Exists_nil. cbn [fst snd].
  destruct (v4_quotients a b c d) as (E24 & E16 & E12 & E10 & E8 & E4); try done.
  rewrite E24, E16, E12, E10, E8, E4. clear E24 E16 E12 E10 E8 E4. cbn [v4_value foldl].
  repeat match goal with |- context [?x / 2 ^ ?k] =>
    let v := eval vm_compute in (x / 2 ^ k) in
    match v with Zpos _ => change (x / 2 ^ k) with v | Z0 => change (x / 2 ^ k) with v end end.
  assert (Hc12 : a * 16 + b / 16 = 2753 <-> a = 172 /\ 16 <= b <= 31)
    by (Z.to_euclidean_division_equations; lia).
  assert (Hc10 : a * 4 + b / 64 = 401 <-> a = 100 /\ 64 <= b <= 127)
    by (Z.to_euclidean_division_equations; lia).
  assert (Hc4 : forall k, a / 16 = k <-> 16 * k <= a <= 16 * k + 15)
    by (intros k; Z.to_euclidean_division_equations; lia).
  rewrite Hc12, Hc10, !Hc4. clear Hc12 Hc10 Hc4.
  split; intros H; [repeat destruct H as [H|H]; try done; pick|].
  destruct (Z.le_gt_cases 240 a); repeat destruct H as [H|H]; pick.
Qed.

Lemma global_v4_exact o : addr_ok (V4 o) ->
  is_global_v4 o = true <-> Forall (fun block => ~ in_block 32 (v4_value o) block) special_v4.
Proof.
  intros (a & b & c & d & -> & Ha & Hb & Hc & Hd)%v4_inv.
  rewrite Forall_Exists_neg, special_v4_octets by done.
  unfold is_global_v4, v4_is_loopback, v4_is_unspecified, v4_is_broadcast, v4_is_multicast,
    v4_is_link_local, v4_is_documentation, in_range, nth_octet.
  cbn [lookup list_lookup default take id from_option].
  rewrite negb_true_iff, <- not_true_iff_false. apply not_iff_compat. bool_prop.
  split; intros H; destruct (Z.le_gt_cases 240 a); repeat destruct H as [H|H]; simplify_eq; pick.
Qed.

(** A mask of the high bits keeps the quotient. *)
Lemma high_mask s k : 0 <= k -> 0 <= s <= 65535 ->
  Z.land s (Z.ldiff (Z.ones 16) (Z.ones k)) = s / 2 ^ k * 2 ^ k.
Proof.
  intros Hk Hs. rewrite Z.ldiff_land, Z.land_assoc, Z.land_ones, Z.mod_small by lia.
  by rewrite <- Z.ldiff_land, Z.ldiff_ones_r, Z.shiftl_mul_pow2, Z.shiftr_div_pow2.
Qed.

Lemma masks_exact s : 0 <= s <= 65535 ->
  (Z.land s 0xfe00 = 0xfc00 <-> s / 2 ^ 9 = 126) /\ (Z.land s 0xffc0 = 0xfe80 <-> s / 2 ^ 6 = 1018) /\
  (Z.land s 0xff00 = 0xff00 <-> s / 2 ^ 8 = 255).
Proof.
  intros Hs. pose proof (high_mask s 9) as H9. pose proof (high_mask s 6) as H6.
  pose proof (high_mask s 8) as H8.
  change (Z.ldiff (Z.ones 16) (Z.ones 9)) with 0xfe00 in H9.
  change (Z.ldiff (Z.ones 16) (Z.ones 6)) with 0xffc0 in H6.
  change (Z.ldiff (Z.ones 16) (Z.ones 8)) with 0xff00 in H8.
  rewrite H9, H6, H8 by lia. lia.
Qed.

(** The first segment is the top sixteen bits; the rest stays below. *)
Lemma v6_split g0 l :
  length l = 7%nat -> Forall (fun g => 0 <= g <= 65535) l ->
  exists r, v6_value (g0 :: l) = g0 * 2 ^ 112 + r /\ v6_value l = r /\ 0 <= r < 2 ^ 112.
Proof.
  intros Hl Hf. destruct l as [|g1 [|g2 [|g3 [|g4 [|g5 [|g6 [|g7 [|? ?]]]]]]]]; try done.
  rewrite !Forall_cons in Hf. destruct_and!.
  exists (v6_value [g1; g2; g3; g4; g5; g6; g7]). cbn [v6_value foldl].
  change (2 ^ 112) with 5192296858534827628530496329220096. lia.
Qed.

Lemma v6_top g r k : 0 <= g <= 65535 -> 0 <= r < 2 ^ 112 -> 0 <= k <= 16 ->
  (g * 2 ^ 112 + r) / 2 ^ (128 - k) = g / 2 ^ (16 - k).
Proof.
  intros Hg Hr Hk. replace (128 - k) with (112 + (16 - k)) by lia.
  rewrite Z.pow_add_r, <- Z.div_div by lia.
  by rewrite Z.div_add_l, (Z.div_small r), Z.add_0_r by lia.
Qed.

(** Addresses of a width are their numbers. *)
Lemma v6_value_inj s t : addr_ok (V6 s) -> addr_ok (V6 t) -> v6_value s = v6_value t -> s = t.
Proof.
  intros (g0&g1&g2&g3&g4&g5&g6&g7&->&Hs)%v6_inv (k0&k1&k2&k3&k4&k5&k6&k7&->&Ht)%v6_inv.
  rewrite !Forall_cons in Hs, Ht. destruct_and!. cbn [v6_value foldl]. intros E.
  assert (Hstep : forall a b x y, 0 <= x <= 65535 -> 0 <= y <= 65535 ->
    a * 65536 + x = b * 65536 + y -> a = b /\ x = y) by (intros; lia).
  repeat (apply Hstep in E; [|done..]; destruct E as [E ->]). done.
Qed.

(** The tests on a segment list, as blocks of its number. *)
Lemma global_v6_exact s : addr_ok (V6 s) ->
  is_global_v6 s = true <-> Forall (fun block => ~ in_block 128 (v6_value s) block) special_v6.
Proof.
  intros Hok. pose proof Hok as (g0&g1&g2&g3&g4&g5&g6&g7&->&Hs)%v6_inv.
  apply Forall_cons in Hs as [Hg0 Hl].
  destruct (v6_split g0 [g1; g2; g3; g4; g5; g6; g7] eq_refl Hl) as (r & Ev & _ & Hr).
  rewrite Forall_Exists_neg. unfold is_global_v6. rewrite negb_true_iff, <- not_true_iff_false.
  apply not_iff_compat. unfold special_v6, in_block. rewrite !Exists_cons, Exists_nil. cbn [fst snd].
  assert (Hz : forall t, addr_ok (V6 t) -> v6_value [g0; g1; g2; g3; g4; g5; g6; g7] = v6_value t <->
    [g0; g1; g2; g3; g4; g5; g6; g7] = t) by (intros t Ht; split; [by apply v6_value_inj|by intros ->]).
  rewrite !Z.sub_diag, !Z.pow_0_r, !Z.div_1_r.
  rewrite (Hz [0;0;0;0;0;0;0;0]), (Hz [0;0;0;0;0;0;0;1]) by (split; [done|by repeat constructor]).
  rewrite Ev, !v6_top by lia.
  rewrite <- (Z.add_0_r (0xfc00 * 2 ^ 112)), <- (Z.add_0_r (0xfe80 * 2 ^ 112)), <- (Z.add_0_r (0xff00 * 2 ^ 112)).
  rewrite !v6_top by (first [lia|split; [lia|reflexivity]]).
  destruct (masks_exact g0 Hg0) as (H9 & H6 & H8).
  unfold v6_is_loopback, v6_is_unspecified, v6_is_multicast, nth_octet.
  cbn [lookup list_lookup default from_option id].
  bool_prop. rewrite H9, H6, H8. cbn [Z.sub]. tauto.
Qed.

(** A mapped address carries its IPv4 address in the low thirty-two bits. *)
Lemma mapped_exact s : addr_ok (V6 s) ->
  match to_ipv4_mapped s with
  | Some o => in_block 128 (v6_value s) mapped_block /\ addr_ok (V4 o) /\
              v4_value o = v6_value s mod 2 ^ 32
  | None => ~ in_block 128 (v6_value s) mapped_block
  end.
Proof.
  intros (g0&g1&g2&g3&g4&g5&g6&g7&->&Hs)%v6_inv. rewrite !Forall_cons in Hs. destruct_and!.
  unfold to_ipv4_mapped, in_block, mapped_block. cbn [take drop fst snd].
  change (2 ^ (128 - 96)) with 4294967296. change (2 ^ 32) with 4294967296.
  rewrite (Z.div_mul 0xffff 4294967296) by done.
  assert (Ev : v6_value [g0; g1; g2; g3; g4; g5; g6; g7] =
    v6_value [g0; g1; g2; g3; g4; g5] * 4294967296 + (g6 * 65536 + g7)) by (cbn [v6_value foldl]; lia).
  rewrite Ev, Z.div_add_l, (Z.div_small (g6 * 65536 + g7)), Z.add_0_r by lia.
  case_bool_decide as Ht.
  - injection Ht as -> -> -> -> -> ->. split; [reflexivity|].
    rewrite (Z.add_comm (_ * 4294967296)), Z.mod_add, (Z.mod_small (g6 * 65536 + g7)) by lia. split.
    + split; [done|]. rewrite !Forall_cons, Forall_nil. Z.to_euclidean_division_equations; lia.
    + cbn [v4_value foldl]. Z.to_euclidean_division_equations; lia.
  - intros E. apply Ht. cbn [v6_value foldl] in E. assert (g0 = 0) as -> by lia.
    assert (g1 = 0) as -> by lia. assert (g2 = 0) as -> by lia. assert (g3 = 0) as -> by lia.
    assert (g4 = 0) as -> by lia. by assert (g5 = 65535) as -> by lia.
Qed.

Definition loopback_v4 : Z * Z := (v4_value [127; 0; 0; 0], 8).

Lemma loopback_v4_exact o : addr_ok (V4 o) ->
  v4_is_loopback o = true <-> in_block 32 (v4_value o) loopback_v4.
Proof.
  intros (a & b & c & d & -> & Ha & Hb & Hc & Hd)%v4_inv.
  unfold in_block, loopback_v4, v4_is_loopback, nth_octet. cbn [fst snd lookup list_lookup default from_option id].
  destruct (v4_quotients a b c d) as (_ & _ & _ & _ & -> & _); try done.
  change (v4_value [127; 0; 0; 0] / 2 ^ (32 - 8)) with 127. by rewrite Z.eqb_eq.
Qed.

(** The address check of a destination, over addresses as numbers: an
    IPv4-mapped address is judged by the IPv4 address it carries, a public
    destination refuses every special-purpose block, and a loopback destination
    takes [127.0.0.0/8] and [::1] only. *)
Theorem scope_exact scope a : addr_ok a ->
  let v4 := match a with
            | V4 o => Some (v4_value o)
            | V6 s => if bool_decide (v6_value s / 2 ^ 32 = 0xffff) then Some (v6_value s mod 2 ^ 32)
                      else None
            end in
  scope_permits scope a = true <->
  match scope, v4, a with
  | PublicScope, Some n, _ => Forall (fun block => ~ in_block 32 n block) special_v4
  | PublicScope, None, V6 s => Forall (fun block => ~ in_block 128 (v6_value s) block) special_v6
  | LoopbackScope, Some n, _ => in_block 32 n loopback_v4
  | LoopbackScope, None, V6 s => v6_value s = 1
  | _, None, V4 _ => False
  end.
Proof.
  intros Hok v4. subst v4. unfold scope_permits. destruct a as [o|s]; cbn [canonical].
  { destruct scope; [by apply global_v4_exact|by apply loopback_v4_exact]. }
  pose proof (mapped_exact s Hok) as Hm. unfold in_block, mapped_block in Hm. cbn [fst snd] in Hm.
  change (2 ^ (128 - 96)) with (2 ^ 32) in Hm. change (0xffff * 2 ^ 32 / 2 ^ 32) with 0xffff in Hm.
  destruct (to_ipv4_mapped s) as [o|].
  - destruct Hm as (Hm & Ho & <-). rewrite bool_decide_true by done.
    destruct scope; [by apply global_v4_exact|by apply loopback_v4_exact].
  - rewrite bool_decide_false by done. destruct scope; [by apply global_v6_exact|].
    cbn [is_loopback]. unfold v6_is_loopback. rewrite bool_decide_eq_true.
    split; [by intros ->|]. intros E. apply v6_value_inj; [done| |done].
    split; [done|by repeat constructor].
Qed.

(** * What the parsers answer *)

(** An address that was read has the width of its kind. *)
Lemma number_span_digits radix t ds rest :
  number_span radix t = (ds, rest) -> Forall (fun d => 0 <= d) ds.
Proof.
  revert ds rest; induction t as [|c t IH]; intros ds rest; cbn [number_span].
  { intros [= <- <-]. constructor. }
  destruct (to_digit radix c) as [d|] eqn:Ed; [|intros [= <- <-]; constructor].
  destruct (number_span radix t) as [ds' rest'] eqn:E. intros [= <- <-].
  constructor; [|by eapply IH]. revert Ed. unfold to_digit, in_range.
  repeat case_match; intros [= <-]; bool_prop; simplify_eq; bool_prop; lia.
Qed.

Lemma read_number_range radix m z max t v rest :
  0 <= radix -> read_number radix m z max t = Some (v, rest) -> 0 <= v <= max.
Proof.
  intros Hr. unfold read_number. destruct (number_span radix t) as [ds r] eqn:E.
  apply number_span_digits in E. repeat (case_match; [done|]). intros [= <- <-].
  bool_prop. split; [|lia].
  clear -E Hr. assert (forall acc, 0 <= acc -> 0 <= foldl (fun acc d => acc * radix + d) acc ds) as H; [|by apply H].
  induction ds as [|d ds IH]; intros acc Ha; [done|]. rewrite Forall_cons in E. destruct E.
  cbn [foldl]. apply IH; [done|nia].
Qed.

Lemma read_separator_inner {A} sep i (read : list Z -> option (A * list Z)) t a rest (P : A -> Prop) :
  (forall t a rest, read t = Some (a, rest) -> P a) -> read_separator sep i read t = Some (a, rest) -> P a.
Proof. intros H. unfold read_separator. repeat case_match; try done; apply H. Qed.

Lemma read_ipv4_ok t o rest : read_ipv4_addr t = Some (o, rest) -> addr_ok (V4 o).
Proof.
  assert (Ho : forall i t v rest, read_octet i t = Some (v, rest) -> 0 <= v <= 255).
  { intros i t' v rest'. apply (read_separator_inner _ _ _ _ _ _ (fun v => 0 <= v <= 255)).
    intros ? ? ?. by apply read_number_range. }
  unfold read_ipv4_addr, mbind, option_bind. intros H.
  destruct (read_octet 0 t) as [[v0 t0]|] eqn:E0; [|done].
  destruct (read_octet 1 t0) as [[v1 t1]|] eqn:E1; [|done].
  destruct (read_octet 2 t1) as [[v2 t2]|] eqn:E2; [|done].
  destruct (read_octet 3 t2) as [[v3 t3]|] eqn:E3; [|done].
  apply Ho in E0, E1, E2, E3. injection H as <- <-. split; [done|]. by rewrite !Forall_cons, Forall_nil.
Qed.

Lemma ipv4_groups_ok o : addr_ok (V4 o) ->
  length (ipv4_groups o) = 2%nat /\ Forall (fun g => 0 <= g <= 65535) (ipv4_groups o).
Proof.
  intros (a & b & c & d & -> & Ha & Hb & Hc & Hd)%v4_inv. split; [done|].
  cbn [ipv4_groups]. rewrite !Forall_cons, Forall_nil. lia.
Qed.

Lemma read_groups_ok todo i limit t groups v4 rest :
  limit - i <= Z.of_nat todo -> read_groups todo i limit t = ((groups, v4), rest) ->
  (length groups <= todo)%nat /\ Forall (fun g => 0 <= g <= 65535) groups.
Proof.
  revert i t groups; induction todo as [|todo IH]; intros i t groups Hl; cbn [read_groups].
  { intros [= <- <- <-]. split; [done|constructor]. }
  destruct (if i <? limit - 1 then _ else _) as [[o rest']|] eqn:E.
  - intros [= <- <- <-]. destruct (i <? limit - 1) eqn:Ei; [|done]. bool_prop.
    apply (read_separator_inner _ _ _ _ _ _ (fun o => addr_ok (V4 o)) read_ipv4_ok) in E.
    apply ipv4_groups_ok in E as [-> Hf]. split; [lia|done].
  - destruct (read_separator 58 i (read_number 16 4 true 65535) t) as [[g rest']|] eqn:Eg;
      [|intros [= <- <- <-]; split; [cbn; lia|constructor]].
    destruct (read_groups todo (i + 1) limit rest') as [[gs b] rest2] eqn:Er.
    intros [= <- <- <-]. apply IH in Er as [Hn Hf]; [|lia]. split; [cbn; lia|]. constructor; [|done].
    apply (read_separator_inner _ _ _ _ _ _ (fun v => 0 <= v <= 65535)) in Eg; [done|].
    intros ? ? ?. by apply read_number_range.
Qed.

Lemma read_ipv6_ok t s rest : read_ipv6_addr t = Some (s, rest) -> addr_ok (V6 s).
Proof.
  unfold read_ipv6_addr, mbind, option_bind.
  destruct (read_groups 8 0 8 t) as [[hd v4] r0] eqn:E.
  apply read_groups_ok in E as [Hn Hf]; [|done].
  destruct (len hd =? 8) eqn:E8; [intros [= <- <-]; split; [unfold len in *; bool_prop; lia|done]|].
  destruct v4; [done|]. repeat (case_match; [|done]).
  match goal with |- context [read_groups ?n 0 ?m ?l] =>
    destruct (read_groups n 0 m l) as [[tl b] r1] eqn:Et end.
  unfold len in *. bool_prop. apply read_groups_ok in Et as [Hn' Hf']; [|lia].
  intros [= <- <-]. split; [rewrite !length_app, length_replicate; lia|].
  rewrite !Forall_app. split_and!; [done| |done]. by apply Forall_replicate.
Qed.

Lemma parse_ip_ok t a : parse_ip t = Some a -> addr_ok a.
Proof.
  unfold parse_ip. destruct (read_ipv4_addr t) as [[o [|? ?]]|] eqn:E4; try done.
  - intros [= <-]. by apply read_ipv4_ok in E4.
  - destruct (read_ipv6_addr t) as [[s [|? ?]]|] eqn:E6; try done.
    intros [= <-]. by apply read_ipv6_ok in E6.
Qed.

(** A number has as many digits as its size asks for. *)
Lemma dec_value_lower ds :
  Forall (fun d => is_ascii_digit d = true) ds -> ds <> [] -> head ds <> Some 48 ->
  10 ^ (len ds - 1) <= dec_value ds.
Proof.
  induction ds as [|d ds IH] using rev_ind; [done|].
  intros Hf _ Hh. pose proof (dec_value_pos _ Hf) as [_ Hp]. specialize (Hp ltac:(by destruct ds) Hh).
  apply Forall_app in Hf as [Hds Hd]. rewrite Forall_singleton in Hd. apply digit_range in Hd.
  rewrite dec_value_snoc in *. rewrite len_app. change (len [d]) with 1.
  destruct ds as [|e ds]; [change (dec_value []) with 0 in *; change (10 ^ _) with 1; lia|].
  specialize (IH Hds ltac:(done) Hh). pose proof (len_nonneg ds).
  replace (len (e :: ds) + 1 - 1) with (Z.succ (len (e :: ds) - 1)) by lia.
  rewrite Z.pow_succ_r by (rewrite len_cons; lia). lia.
Qed.

Lemma dec_port n : 1 <= n <= 65535 -> dec n = dec_nat n /\ len (dec_nat n) <= 5.
Proof.
  intros Hn. unfold dec. rewrite (proj2 (Z.ltb_ge n 0)) by lia. split; [done|].
  destruct (dec_nat_spec n) as (Hf & Hv & Hne & Hp & _); [lia|].
  destruct Hp as (d & ds & Eds & Hd); [lia|].
  pose proof (dec_value_lower (dec_nat n) Hf Hne ltac:(rewrite Eds; cbn; congruence)) as Hl.
  rewrite Hv in Hl. apply Z.nlt_ge. intros Hlt.
  assert (10 ^ 5 <= 10 ^ (len (dec_nat n) - 1)) by (apply Z.pow_le_mono_r; lia).
  change (10 ^ 5) with 100000 in *. lia.
Qed.

Lemma Forall_to_forallb {A} (p : A -> bool) l : Forall (fun x => p x = true) l -> forallb p l = true.
Proof. induction 1 as [|x l Hx Hl IH]; cbn; [done|by rewrite Hx]. Qed.

Lemma digit_small b : is_ascii_digit b = true -> b < 128.
Proof. rewrite digit_range. lia. Qed.

(** A port is read exactly from its decimal spelling, as the URL grammar of the
    protocol accepts it. *)
Lemma parse_port_exact port n :
  parse_port port = Ok n <-> 1 <= n <= 65535 /\ port = dec n.
Proof.
  unfold parse_port. split.
  - destruct (bool_decide (port = []) || (5 <? str_len port) || negb (forallb is_ascii_digit (utf8 port))) eqn:E1;
      [done|].
    apply orb_false_iff in E1 as [[Hne _]%orb_false_iff Hd%negb_false_iff].
    rewrite (class_bytes _ _ digit_small Hd) in Hd.
    destruct ((1 <? str_len port) && starts_with 48 port) eqn:E2; [done|].
    unfold parse_u16. destruct (dec_value port <=? u16_max) eqn:E3; [|done].
    destruct (dec_value port =? 0) eqn:E4; [done|]. intros [= <-].
    assert (Hv : validate_port port = Ok tt).
    { unfold validate_port. rewrite Hne, Hd, E2. cbn [orb negb]. unfold parse_u32, check_u32.
      apply Forall_forallb in Hd. pose proof (dec_value_pos _ Hd) as [H0 _]. widths. bool_prop.
      rewrite (proj2 (andb_true_iff _ _)) by (split; apply Z.leb_le; lia).
      by rewrite (proj2 (andb_true_iff _ _)) by (split; apply Z.leb_le; lia). }
    apply validate_port_exact in Hv as (m & Hm & ->). destruct (dec_port m Hm) as [-> _].
    destruct (dec_nat_spec m) as (_ & -> & _); [lia|]. destruct (dec_port m Hm) as [-> _]. done.
  - intros [Hn ->]. destruct (dec_port n Hn) as [-> Hl].
    destruct (dec_nat_spec n) as (Hf & Hv & Hne & Hp & _); [lia|].
    destruct Hp as (d & ds & Eds & Hd48); [lia|].
    assert (Hu : utf8 (dec_nat n) = dec_nat n)
      by (apply utf8_ascii; eapply Forall_impl; [exact Hf|apply digit_ascii]).
    unfold str_len. rewrite Hu, bool_decide_false, (proj2 (Z.ltb_ge _ _)) by done.
    rewrite (Forall_to_forallb _ _ Hf). cbn [orb negb].
    assert (Hh : starts_with 48 (dec_nat n) = false)
      by (unfold starts_with; rewrite Eds; apply bool_decide_false; cbn; congruence).
    rewrite Hh, andb_false_r. unfold parse_u16. rewrite Hv.
    rewrite (proj2 (Z.leb_le _ _)) by (widths; lia). by rewrite (proj2 (Z.eqb_neq n 0)) by lia.
Qed.

(** * Hosts *)

Lemma split_on_incl sep t p c : p ∈ split_on sep t -> c ∈ p -> c ∈ t.
Proof.
  revert p; induction t as [|x t IH]; intros p; cbn [split_on].
  { intros ->%list_elem_of_singleton. done. }
  destruct (Z.eqb_spec x sep) as [->|Hne].
  - intros [->|Hp]%elem_of_cons; [by intros ?%not_elem_of_nil|]. intros Hc. right. by eapply IH.
  - pose proof (split_on_nonnil sep t) as Hn. destruct (split_on sep t) as [|q qs] eqn:E; [done|].
    intros [->|Hp]%elem_of_cons Hc.
    + apply elem_of_cons in Hc as [->|Hc]; [left|]. right. eapply IH; [left|done].
    + right. eapply IH; [by right|done].
Qed.

Lemma ldh_small b : is_ldh b = true -> b < 128.
Proof.
  unfold is_ldh, is_ascii_alphanumeric, is_ascii_digit, is_ascii_lowercase, is_ascii_uppercase, in_range.
  bool_prop. lia.
Qed.

(** The name grammar of the broker is the DNS grammar of the protocol's URLs. *)
Lemma labels_agree h :
  utf8 h = h ->
  forallb is_label (split_on 46 h) = true <->
  forallb is_ldh h = true /\ forallb label_accepted (split_on 46 h) = true.
Proof.
  intros Hu. rewrite !forallb_forall. setoid_rewrite <- list_elem_of_In. split.
  - intros Hl. split.
    + intros c Hc. unfold is_ldh. destruct (split_on_elem 46 h c Hc) as [->|(p & Hp & Hcp)].
      { by rewrite orb_true_r. }
      specialize (Hl p Hp). unfold is_label in Hl. rewrite !andb_true_iff in Hl. destruct Hl as [_ Hl].
      rewrite forallb_forall in Hl. specialize (Hl c ltac:(by apply list_elem_of_In)). by rewrite Hl.
    + intros p Hp. specialize (Hl p Hp). unfold is_label in Hl. unfold label_accepted, MAX_LABEL_BYTES.
      unfold MAX_DNS_LABEL_BYTES in Hl. rewrite !andb_true_iff, !negb_true_iff in Hl.
      destruct Hl as [[[[-> Hlen] ->] ->] _]. apply Z.leb_le in Hlen. by rewrite (proj2 (Z.ltb_ge _ _)).
  - intros [Hc Hl] p Hp. specialize (Hl p Hp). unfold label_accepted, MAX_LABEL_BYTES in Hl.
    unfold is_label, MAX_DNS_LABEL_BYTES.
    destruct (bool_decide (p = [])) eqn:E; [done|]. cbn [orb] in Hl.
    destruct (63 <? str_len p) eqn:E63; [done|]. destruct (starts_with 45 p); [done|].
    destruct (ends_with 45 p); [done|]. apply Z.ltb_ge in E63. rewrite (proj2 (Z.leb_le _ _)) by done. cbn [negb andb].
    apply forallb_forall. intros c Hcp%list_elem_of_In. specialize (Hc c (split_on_incl _ _ _ _ Hp Hcp)).
    unfold is_ldh in Hc. apply orb_true_iff in Hc as [Hc|Hc]; [done|]. bool_prop. subst c.
    pose proof (split_on_no_sep 46 h) as Hs. rewrite Forall_forall in Hs. specialize (Hs p Hp).
    by apply contains_false in Hs.
Qed.

Lemma dns_ascii h : is_dns_name h = true -> utf8 h = h.
Proof.
  intros [_ Hf]%dns_chars. apply ascii_bytes. rewrite utf8_ascii.
  - eapply Forall_impl; [exact Hf|]. intros c Hc. apply ldh_small.
    unfold is_ldh. destruct Hc as [-> |[-> | ->]]; rewrite ?orb_true_r; done.
  - eapply Forall_impl; [exact Hf|]. intros c Hc. unfold in_range.
    destruct Hc as [Hc|[-> | ->]]; [|done..].
    unfold is_ascii_alphanumeric, is_ascii_digit, is_ascii_lowercase, is_ascii_uppercase, in_range in Hc.
    bool_prop. lia.
Qed.

Lemma parse_host_name h n :
  parse_host h = Ok (Name n) <-> is_dns_name h = true /\ parse_ip h = None /\ n = to_ascii_lowercase h.
Proof.
  unfold parse_host. split.
  - unfold is_dns_name, MAX_HOST_BYTES, MAX_DNS_NAME_BYTES.
    destruct (bool_decide (h = [])) eqn:E; [done|]. destruct (253 <? str_len h) eqn:E253; [done|].
    destruct (strip_prefix [91] h) as [inner|].
    { unfold mbind, result_bind, ok_or. repeat case_match; done. }
    destruct (parse_ip h); [done|].
    destruct (forallb is_ldh (utf8 h)) eqn:El; [|done]. cbn [negb].
    destruct (forallb label_accepted (split_on 46 h)) eqn:Ea; [|done]. cbn [negb orb]. intros [= <-].
    pose proof (class_bytes _ _ ldh_small El) as Hu. rewrite Hu in El.
    split_and!; [|done..]. by apply labels_agree.
  - intros (Hd & Hi & ->). pose proof (dns_ascii h Hd) as Hu. pose proof Hd as Hd'.
    unfold is_dns_name, MAX_DNS_NAME_BYTES in Hd'. unfold MAX_HOST_BYTES.
    destruct (bool_decide (h = [])) eqn:E; [done|]. destruct (253 <? str_len h) eqn:E253; [done|].
    cbn [orb] in Hd'. apply labels_agree in Hd' as [Hl Ha]; [|done].
    rewrite (proj2 (strip_prefix_None 91 h)), Hi, Hu, Hl, Ha; [done|].
    destruct h as [|c h]; [done|]. intros [= ->]. apply (not_in_name 91 _ Hd); [set_solver|left].
Qed.

Lemma strip_suffix_Some c t r : strip_suffix c t = Some r <-> t = r ++ [c].
Proof.
  unfold strip_suffix. destruct t as [|x t _] using rev_ind; cbn.
  { split; [done|]. by destruct r. }
  rewrite last_snoc. destruct (Z.eqb_spec x c) as [->|Hne].
  - rewrite removelast_last. split; [by intros [= ->]|]. by intros [-> _]%app_inj_tail.
  - split; [done|]. by intros [_ ->]%app_inj_tail.
Qed.

Lemma parse_host_address h a :
  parse_host h = Ok (Address a) ->
  addr_ok a /\ (parse_ip h = Some a \/ exists inner s, h = 91 :: inner ++ [93] /\ parse_ipv6 inner = Some s /\ a = V6 s).
Proof.
  unfold parse_host. case_bool_decide; [done|]. case_match; [done|].
  destruct (strip_prefix [91] h) as [inner|] eqn:E.
  - apply strip_prefix_Some in E as ->. unfold mbind, result_bind, ok_or.
    destruct (strip_suffix 93 inner) as [i|] eqn:Es; [|done]. apply strip_suffix_Some in Es as ->.
    destruct (parse_ipv6 i) as [s|] eqn:E6; [|done]. intros [= <-]. split; [|right; by exists i, s].
    revert E6. unfold parse_ipv6. destruct (read_ipv6_addr i) as [[s' [|? ?]]|] eqn:E6; try done.
    intros [= <-]. by apply read_ipv6_ok in E6.
  - destruct (parse_ip h) as [a'|] eqn:Ei; [|repeat case_match; done].
    intros [= <-]. split; [by eapply parse_ip_ok|by left].
Qed.

Lemma parse_host_err h e :
  parse_host h = Err e -> e <> DuplicateDestination /\ e <> TooManyDestinations.
Proof.
  unfold parse_host. case_bool_decide; [by intros [= <-]|].
  destruct (MAX_HOST_BYTES <? str_len h); [by intros [= <-]|].
  destruct (strip_prefix [91] h) as [inner|].
  - unfold mbind, result_bind, ok_or. destruct (strip_suffix 93 inner) as [i|]; [|by intros [= <-]].
    destruct (parse_ipv6 i); [done|by intros [= <-]].
  - destruct (parse_ip h); [done|]. destruct (negb (forallb is_ldh (utf8 h))); [by intros [= <-]|].
    destruct (negb _); [by intros [= <-]|done].
Qed.

(** * The allowlist *)

Lemma permits_snoc es d h p :
  permits (mkAllowlist (es ++ [d])) h p =
  match permits (mkAllowlist es) h p with
  | Some e => Some e
  | None => if (d_port d =? p) && bool_decide (d_host d = h) then Some d else None
  end.
Proof. unfold permits. cbn [entries]. rewrite find_app. cbn [List.find]. done. Qed.

Lemma existsb_permits es h p :
  existsb (fun entry => bool_decide (d_host entry = h) && (d_port entry =? p)) es = false <->
  permits (mkAllowlist es) h p = None.
Proof.
  unfold permits. cbn [entries]. rewrite find_None_iff, <- not_true_iff_false, existsb_exists.
  setoid_rewrite <- list_elem_of_In. setoid_rewrite andb_comm at 1. split.
  - intros Hn. apply Forall_forall. intros x Hx. apply not_true_is_false. naive_solver.
  - intros Hn (x & Hx & Ht). rewrite Forall_forall in Hn. specialize (Hn x Hx). congruence.
Qed.

(** An allowlist is a finite map from a host and a port: adding a destination
    succeeds exactly when its host reads, its port is not zero, the pair is new
    and there is room, and it changes the answer at that pair only. *)
Theorem allowlist_is_a_map l host port scope r :
  allowing l host port scope = r ->
  match r with
  | Ok l' =>
      exists h, parse_host host = Ok h /\ port <> 0 /\ len (entries l) < MAX_ALLOWLIST_ENTRIES /\
        permits l h port = None /\ entries l' = entries l ++ [mkDestination h port scope] /\
        forall h' p', permits l' h' p' =
          if bool_decide ((h', p') = (h, port)) then Some (mkDestination h port scope)
          else permits l h' p'
  | Err DuplicateDestination =>
      exists h d, parse_host host = Ok h /\ permits l h port = Some d
  | Err TooManyDestinations => MAX_ALLOWLIST_ENTRIES <= len (entries l)
  | Err e => e = PortRejected /\ port = 0 \/ parse_host host = Err e
  end.
Proof.
  intros <-. unfold allowing, destination_new, mbind, result_bind.
  destruct (Z.eqb_spec port 0) as [->|Hp]; [left; split; reflexivity|].
  destruct (parse_host host) as [h|e] eqn:Eh.
  2:{ destruct (parse_host_err host e Eh) as [H1 H2]. destruct e; try (by right); congruence. }
  cbn [d_host d_port]. destruct l as [es]. cbn [entries].
  destruct (existsb _ es) eqn:Ed.
  - destruct (permits (mkAllowlist es) h port) as [d|] eqn:Epm; [by exists h, d|].
    apply existsb_permits in Epm. congruence.
  - apply existsb_permits in Ed. destruct (Z.leb_spec MAX_ALLOWLIST_ENTRIES (len es)); [done|].
    exists h. split_and!; try done. intros h' p'. rewrite permits_snoc. cbn [d_host d_port].
    destruct (decide ((h', p') = (h, port))) as [[= -> ->]|E].
    + by rewrite Ed, Z.eqb_refl, !bool_decide_true.
    + rewrite (bool_decide_false ((h', p') = (h, port))) by done. destruct (permits (mkAllowlist es) h' p'); [done|].
      destruct (Z.eqb_spec port p') as [->|]; [|done]. by rewrite bool_decide_false by congruence.
Qed.

Lemma scope_exact_witness :
  scope_permits PublicScope (V6 [0; 0; 0; 0; 0; 0xffff; 0x7f00; 1]) = true <->
  Forall (fun block => ~ in_block 32 (0x7f00 * 65536 + 1) block) special_v4.
Proof.
  apply (scope_exact PublicScope (V6 [0; 0; 0; 0; 0; 0xffff; 0x7f00; 1])).
  split; [reflexivity|]. repeat constructor; discriminate.
Defined.
