(* ===== verification/EgressRequest.v ===== *)
(** The [CONNECT] request head of the egress broker
    ([automonique-egress-broker/src/request.rs]): the parser, and the loop that
    collects a head from a socket.

    Heads are bytes.  A socket is what its reads will answer: [SocketData] holds
    bytes that are ready, of which a read takes as many as it asked for; no
    bytes is the end of the stream, also after the last element. *)

From S2P Require Import Prelude Text Codec SandboxValues Address Url Egress.

Definition MAX_REQUEST_HEAD_BYTES : Z := 8192.
Definition MAX_HEADER_LINES : Z := 64.
Definition READ_CHUNK_BYTES : Z := 1024.
Definition HEAD_TERMINATOR : list Z := [13; 10; 13; 10].

Record ConnectRequest := mkConnect { c_host : DestinationHost; c_port : Z }.

Inductive RequestError :=
| HeadTooLarge
| HeadIncomplete
| HeadTimedOut
| ClientUnreadable
| MethodNotConnect
| VersionUnsupported
| RequestLineMalformed
| AuthorityRejected (error : DestinationError)
| HeaderMalformed
| TooManyHeaderLines
| StrayNewline.

(** * Lines *)

(** [reject_stray_newlines]: a carriage return not followed by a line feed, or
    a line feed not preceded by one. *)
Fixpoint stray_newlines (after_cr : bool) (bytes : list Z) : bool :=
  match bytes with
  | [] => false
  | byte :: rest =>
      ((byte =? 13) && negb (bool_decide (head rest = Some 10)))
      || ((byte =? 10) && negb after_cr)
      || stray_newlines (byte =? 13) rest
  end.

Definition reject_stray_newlines (bytes : list Z) : result RequestError unit :=
  if stray_newlines false bytes then Err StrayNewline else Ok tt.

Definition strip_cr (line : list Z) : list Z :=
  match last line with
  | Some b => if b =? 13 then removelast line else line
  | None => line
  end.

Fixpoint find (haystack needle : list Z) : option nat :=
  match strip_prefix needle haystack with
  | Some _ => Some O
  | None => match haystack with [] => None | _ :: rest => S <$> find rest needle end
  end.

(** * The request line *)

(** [str::find(char)]. *)
Fixpoint find_char (c : Z) (t : list Z) : option nat :=
  match t with
  | [] => None
  | x :: t => if x =? c then Some O else S <$> find_char c t
  end.

Definition parse_authority (authority : list Z) : result RequestError ConnectRequest :=
  authority ← ok_or (from_utf8 authority) (AuthorityRejected HostNotLdh);
  separator ←
    (if starts_with 91 authority then
       close ← ok_or (find_char 93 authority) (AuthorityRejected BracketedHostNotIpv6);
       offset ← ok_or (find_char 58 (drop close authority)) (AuthorityRejected PortRejected);
       Ok (close + offset)%nat
     else
       first ← ok_or (find_char 58 authority) (AuthorityRejected PortRejected);
       if contains 58 (drop (S first) authority) then Err (AuthorityRejected HostNotLdh)
       else Ok first);
  host ← map_err AuthorityRejected (parse_host (take separator authority));
  port ← map_err AuthorityRejected (parse_port (drop (S separator) authority));
  Ok (mkConnect host port).

Definition parse_request_line (line : list Z) : result RequestError ConnectRequest :=
  match split_on 32 line with
  | [method; authority; version] =>
      if bool_decide (method = []) || bool_decide (authority = []) || bool_decide (version = [])
      then Err RequestLineMalformed
      else if negb (bool_decide (method = str "CONNECT")) then Err MethodNotConnect
      else if negb (bool_decide (version = str "HTTP/1.1")) then Err VersionUnsupported
      else parse_authority authority
  | _ => Err RequestLineMalformed
  end.

(** * Headers *)

Definition reject_malformed_header (line : list Z) : result RequestError unit :=
  if starts_with 32 line || starts_with 9 line then Err HeaderMalformed
  else
    colon ← ok_or (find_char 58 line) HeaderMalformed;
    let name := take colon line in
    if bool_decide (name = []) || existsb is_ascii_whitespace name then Err HeaderMalformed
    else Ok tt.

Fixpoint check_headers (header_lines : Z) (lines : list (list Z)) : result RequestError unit :=
  match lines with
  | [] => Ok tt
  | line :: lines =>
      let line := strip_cr line in
      if bool_decide (line = []) then Err HeaderMalformed
      else
        let header_lines := header_lines + 1 in
        if MAX_HEADER_LINES <? header_lines then Err TooManyHeaderLines
        else _ ← reject_malformed_header line; check_headers header_lines lines
  end.

Definition connect_parse (bytes : list Z) : result RequestError ConnectRequest :=
  if MAX_REQUEST_HEAD_BYTES <? len bytes then Err HeadTooLarge
  else
    _ ← reject_stray_newlines bytes;
    match split_on 10 bytes with
    | [] => Err RequestLineMalformed
    | request_line :: lines =>
        target ← parse_request_line (strip_cr request_line);
        _ ← check_headers 0 lines;
        Ok target
    end.

(** * Sockets *)

Inductive ReadOutcome :=
| SocketData (bytes : list Z)
| SocketTimedOut
| SocketFailed.

(** One [read] into a buffer of [want] bytes. *)
Definition socket_read (want : nat) (socket : list ReadOutcome) : ReadOutcome * list ReadOutcome :=
  match socket with
  | [] => (SocketData [], [])
  | SocketData bytes :: rest =>
      (SocketData (take want bytes),
       match drop want bytes with [] => rest | more => SocketData more :: rest end)
  | outcome :: rest => (outcome, rest)
  end.

Record Socket := mkSocket {
  accepts_deadline : bool;   (** whether [set_read_timeout] succeeds *)
  reads : list ReadOutcome
}.

(** The loop of [read_request] and [read_head]: collect bytes until the
    terminator is in the buffer, and parse what stands before it.  Every turn
    that goes on adds a byte and the buffer is bounded, so [fuel] one past the
    bound is enough; [None] is running out of it. *)
Section CollectHead.

Context {E A : Type} (max : Z) (parse : list Z -> result E A).
Context (too_large incomplete timed_out unreadable : E).

Fixpoint collect_head (fuel : nat) (buffer : list Z) (socket : list ReadOutcome)
  : option (result E (A * list Z) * list ReadOutcome) :=
  match fuel with
  | O => None
  | S fuel =>
      match find buffer HEAD_TERMINATOR with
      | Some index =>
          Some ((request ← parse (take index buffer);
                 Ok (request, drop (index + 4) buffer)), socket)
      | None =>
          if max <? len buffer then Some (Err too_large, socket)
          else
            match socket_read (Z.to_nat READ_CHUNK_BYTES) socket with
            | (SocketTimedOut, socket) => Some (Err timed_out, socket)
            | (SocketFailed, socket) => Some (Err unreadable, socket)
            | (SocketData [], socket) => Some (Err incomplete, socket)
            | (SocketData bytes, socket) => collect_head fuel (buffer ++ bytes) socket
            end
      end
  end.
End CollectHead.

(** The head's own bound is tested before it is parsed. *)
Definition parse_within (bytes : list Z) : result RequestError ConnectRequest :=
  if MAX_REQUEST_HEAD_BYTES <? len bytes then Err HeadTooLarge else connect_parse bytes.

Definition read_request (client : Socket)
  : option (result RequestError (ConnectRequest * list Z) * list ReadOutcome) :=
  if negb (accepts_deadline client) then Some (Err ClientUnreadable, reads client)
  else collect_head MAX_REQUEST_HEAD_BYTES parse_within HeadTooLarge HeadIncomplete HeadTimedOut
         ClientUnreadable (Z.to_nat (MAX_REQUEST_HEAD_BYTES + 2)) [] (reads client).

(** * Heads as lines

    A head without stray newlines is a list of lines free of both newline
    bytes, joined by the pair of them. *)

Definition clean (line : list Z) : Prop := (10 ∉ line) /\ (13 ∉ line).

Definition crlf_join (first : list Z) (rest : list (list Z)) : list Z :=
  first ++ mjoin ((fun line => 13 :: 10 :: line) <$> rest).

Lemma crlf_join_cons first line rest :
  crlf_join first (line :: rest) = first ++ 13 :: 10 :: crlf_join line rest.
Proof. done. Qed.

Lemma clean_cons b l : clean (b :: l) <-> b <> 10 /\ b <> 13 /\ clean l.
Proof. unfold clean. rewrite !not_elem_of_cons. naive_solver. Qed.

Lemma stray_clean line tail :
  clean line -> line <> [] -> forall cr, stray_newlines cr (line ++ tail) = stray_newlines false tail.
Proof.
  intros Hc Hne. induction line as [|b line IH]; [done|]. intros cr.
  apply clean_cons in Hc as (H10 & H13 & Hc). cbn [app stray_newlines].
  rewrite (proj2 (Z.eqb_neq b 13)), (proj2 (Z.eqb_neq b 10)) by done. cbn [andb orb].
  destruct line as [|c line]; [done|]. by apply IH.
Qed.

Lemma stray_join first rest :
  Forall clean (first :: rest) -> stray_newlines false (crlf_join first rest) = false.
Proof.
  revert first; induction rest as [|line rest IH]; intros first [Hc Hf]%Forall_cons.
  - unfold crlf_join. cbn. destruct first as [|b first]; [done|].
    by rewrite (stray_clean (b :: first) [] Hc).
  - rewrite crlf_join_cons.
    assert (Ht : stray_newlines false (13 :: 10 :: crlf_join line rest) = false)
      by (cbn [stray_newlines head]; rewrite bool_decide_true by done; cbn; by apply IH).
    destruct first as [|b first]; [done|]. by rewrite (stray_clean (b :: first)).
Qed.

Lemma stray_lines bytes :
  stray_newlines false bytes = false ->
  exists first rest, Forall clean (first :: rest) /\ bytes = crlf_join first rest.
Proof.
  induction bytes as [bytes IH] using (induction_ltof1 _ (@length Z)). unfold ltof in IH.
  assert (Hnil : clean []) by (split; apply not_elem_of_nil).
  destruct bytes as [|b bytes]; [intros _; exists [], []; split; [by constructor|done]|].
  cbn [stray_newlines].
  destruct (Z.eqb_spec b 13) as [->|H13].
  - case_bool_decide as Hh; [|done]. cbn. destruct bytes as [|c bytes]; [done|]. injection Hh as ->.
    cbn [stray_newlines Z.eqb Pos.eqb andb orb negb]. intros (first & rest & Hf & ->)%IH; [|cbn; lia].
    exists [], (first :: rest). split; [by constructor|done].
  - destruct (Z.eqb_spec b 10) as [->|H10]; [done|]. cbn [andb orb].
    intros (first & rest & [Hc Hf]%Forall_cons & ->)%IH; [|cbn; lia].
    exists (b :: first), rest. split; [|done]. constructor; [|done]. by apply clean_cons.
Qed.

Lemma strip_cr_clean line : clean line -> strip_cr line = line.
Proof.
  intros [_ H]. unfold strip_cr. destruct (last line) as [b|] eqn:E; [|done].
  destruct (Z.eqb_spec b 13) as [->|]; [|done]. by apply last_Some_elem_of in E.
Qed.

Lemma strip_cr_snoc line : strip_cr (line ++ [13]) = line.
Proof. unfold strip_cr. rewrite last_snoc. cbn. apply removelast_last. Qed.

(** The lines the parsers iterate over are the lines that were joined. *)
Lemma split_lines first rest :
  Forall clean (first :: rest) ->
  exists pieces, split_on 10 (crlf_join first rest) = pieces /\ strip_cr <$> pieces = first :: rest.
Proof.
  revert first; induction rest as [|line rest IH]; intros first [Hc Hf]%Forall_cons.
  - exists [first]. unfold crlf_join. cbn. rewrite app_nil_r, split_on_none by apply Hc.
    by rewrite strip_cr_clean.
  - destruct (IH line Hf) as (pieces & Ep & Es). exists ((first ++ [13]) :: pieces).
    rewrite crlf_join_cons, cons_middle, app_assoc, split_on_app, Ep.
    + split; [done|]. cbn. by rewrite strip_cr_snoc, Es.
    + rewrite not_elem_of_app, not_elem_of_cons. split; [apply Hc|]. split; [done|apply not_elem_of_nil].
Qed.

(** The lines of a head are unique. *)
Lemma crlf_join_inj first rest first' rest' :
  Forall clean (first :: rest) -> Forall clean (first' :: rest') ->
  crlf_join first rest = crlf_join first' rest' -> first = first' /\ rest = rest'.
Proof.
  intros H1 H2 E. destruct (split_lines _ _ H1) as (p & Ep & Es), (split_lines _ _ H2) as (p' & Ep' & Es').
  rewrite E, Ep' in Ep. subst p'. rewrite Es in Es'. by injection Es'.
Qed.

(** * Authorities and headers *)

Lemma find_char_Some c t n :
  find_char c t = Some n <-> exists a b, t = a ++ c :: b /\ (c ∉ a) /\ n = length a.
Proof.
  revert n; induction t as [|x t IH]; intros n; cbn [find_char].
  { split; [done|]. by intros ([|? ?] & b & ? & _). }
  destruct (Z.eqb_spec x c) as [->|Hne].
  - split; [intros [= <-]; exists [], t; split_and!; [done|apply not_elem_of_nil|done]|].
    intros ([|y a] & b & E & Hn & ->); [done|]. injection E as <- _. destruct Hn. left.
  - rewrite fmap_Some. split.
    + intros (m & (a & b & -> & Hn & ->)%IH & ->). exists (x :: a), b.
      split_and!; [done| |done]. by apply not_elem_of_cons.
    + intros ([|y a] & b & E & Hn & ->); [by injection E as ->|]. injection E as -> ->.
      exists (length a). split; [|done]. apply IH. exists a, b. split_and!; [done| |done].
      by apply not_elem_of_cons in Hn as [_ ?].
Qed.

Lemma find_char_app c a b : c ∉ a -> find_char c (a ++ c :: b) = Some (length a).
Proof. intros H. apply find_char_Some. by exists a, b. Qed.

Definition ascii (t : list Z) : Prop := Forall (fun c => in_range 0 127 c = true) t.

Lemma ascii_from_utf8 t : ascii t -> from_utf8 t = Some t.
Proof.
  intros Hf. rewrite <- (utf8_ascii t Hf) at 1. apply utf8_from_utf8.
  eapply Forall_impl; [exact Hf|]. intros c. unfold in_range, is_scalar. bool_prop. lia.
Qed.

Lemma alphanumeric_ascii c : is_ascii_alphanumeric c = true -> in_range 0 127 c = true.
Proof.
  unfold is_ascii_alphanumeric, is_ascii_digit, is_ascii_lowercase, is_ascii_uppercase, in_range.
  bool_prop. lia.
Qed.

Lemma addr_char_ascii t : Forall addr_char t -> ascii t.
Proof.
  intros Hf. eapply Forall_impl; [exact Hf|]. intros c [Hc|[-> | ->]]; [|done..].
  by apply alphanumeric_ascii.
Qed.

Lemma dec_ascii p : 1 <= p <= 65535 -> ascii (dec p) /\ (58 ∉ dec p).
Proof.
  intros Hp. destruct (dec_port p Hp) as [-> _]. destruct (dec_nat_spec p) as (Hf & _); [lia|]. split.
  - eapply Forall_impl; [exact Hf|apply digit_ascii].
  - intros Hin. rewrite Forall_forall in Hf. by specialize (Hf _ Hin).
Qed.

Lemma parse_ip_chars t a : parse_ip t = Some a -> Forall addr_char t.
Proof.
  unfold parse_ip. destruct (read_ipv4_addr t) as [[o [|? ?]]|] eqn:E4; try done.
  - intros _. apply consumes_ipv4 in E4 as (cs & -> & Hf). by rewrite app_nil_r.
  - destruct (read_ipv6_addr t) as [[s [|? ?]]|] eqn:E6; try done.
    intros _. apply consumes_ipv6 in E6 as (cs & -> & Hf). by rewrite app_nil_r.
Qed.

Lemma parse_ipv6_chars t s : parse_ipv6 t = Some s -> Forall addr_char t.
Proof. intros E. apply ipv6_chars. unfold ipv6_from_str. apply bool_decide_true. eauto. Qed.

Lemma starts_with_app c a b : a <> [] -> starts_with c (a ++ b) = starts_with c a.
Proof. by destruct a. Qed.

(** A host that reads is ASCII, and in brackets only as an IPv6 literal. *)
Lemma parse_host_form t h :
  parse_host t = Ok h ->
  ascii t /\ t <> [] /\
  (starts_with 91 t = true -> exists inner, t = 91 :: inner ++ [93] /\ (93 ∉ inner)).
Proof.
  assert (H93 : forall i, Forall addr_char i -> 93 ∉ i)
    by (intros i Hf Hin; rewrite Forall_forall in Hf; destruct (Hf _ Hin) as [|[|]]; done).
  assert (H91 : forall i, Forall addr_char i -> starts_with 91 i <> true).
  { intros [|c i] Hf; unfold starts_with; rewrite bool_decide_eq_true; [done|]. intros [= ->].
    apply Forall_cons in Hf as [[|[|]] _]; done. }
  intros E. assert (Hne : t <> []) by (by intros ->). destruct h as [n|a].
  - apply parse_host_name in E as (Hd & _ & _). pose proof (dns_chars t Hd) as [_ Hf]. split_and!; [|done|].
    + eapply Forall_impl; [exact Hf|]. intros c [Hc|[-> | ->]]; [by apply alphanumeric_ascii|done..].
    + unfold starts_with. rewrite bool_decide_eq_true. destruct t as [|c t]; [done|]. intros [= ->].
      exfalso. apply (not_in_name 91 _ Hd); [set_solver|left].
  - apply parse_host_address in E as (_ & [E|(inner & s & -> & E & ->)]).
    + apply parse_ip_chars in E. split_and!; [by apply addr_char_ascii|done|]. intros Hs. by apply H91 in Hs.
    + apply parse_ipv6_chars in E. split_and!; [|done|intros _; exists inner; auto].
      apply Forall_cons. split; [done|]. apply Forall_app. split; [by apply addr_char_ascii|by repeat constructor].
Qed.

(** What the two searches for the separator leave to read. *)
Lemma authority_parts a y h p :
  (host ← map_err AuthorityRejected (parse_host (take (length a) (a ++ 58 :: y)));
   port ← map_err AuthorityRejected (parse_port (drop (S (length a)) (a ++ 58 :: y)));
   Ok (mkConnect host port)) = Ok (mkConnect h p) <->
  parse_host a = Ok h /\ 1 <= p <= 65535 /\ y = dec p.
Proof.
  rewrite take_app_length, cons_middle, app_assoc.
  replace (S (length a)) with (length (a ++ [58])) by (rewrite length_app; cbn; lia).
  rewrite drop_app_length, <- parse_port_exact. unfold mbind, result_bind, map_err.
  destruct (parse_host a), (parse_port y); naive_solver.
Qed.

(** An authority is a host, a colon and a port; only a bracketed host may hold
    a colon of its own. *)
Definition connect_authority (bytes : list Z) (h : DestinationHost) (p : Z) : Prop :=
  exists host, bytes = host ++ 58 :: dec p /\ 1 <= p <= 65535 /\ parse_host host = Ok h /\
    (starts_with 91 host = true \/ (58 ∉ host)).

Lemma connect_authority_sound bytes h p :
  parse_authority bytes = Ok (mkConnect h p) -> connect_authority bytes h p.
Proof.
  unfold parse_authority, mbind, result_bind, ok_or.
  destruct (from_utf8 bytes) as [t|] eqn:Eu; [|done]. apply from_utf8_Some in Eu as [_ <-].
  assert (Hfin : forall a y, t = a ++ 58 :: y -> starts_with 91 a = true \/ (58 ∉ a) ->
    parse_host a = Ok h /\ 1 <= p <= 65535 /\ y = dec p -> connect_authority (utf8 t) h p).
  { intros a y -> Ha (Eh & Hp & ->). exists a. refine (conj _ (conj Hp (conj Eh Ha))).
    destruct (parse_host_form a h Eh) as (Hf & _ & _). destruct (dec_ascii p Hp) as [Hd _].
    apply utf8_ascii, Forall_app. split; [done|]. by constructor. }
  destruct (starts_with 91 t) eqn:Es.
  - destruct (find_char 93 t) as [close|] eqn:E1; [|done].
    apply find_char_Some in E1 as (a & b & -> & Ha & ->). rewrite drop_app_length.
    destruct (find_char 58 (93 :: b)) as [offset|] eqn:E2; [|done].
    apply find_char_Some in E2 as (x & y & E2 & Hx & ->). rewrite <- length_app, E2, app_assoc.
    intros H%authority_parts. rewrite E2, app_assoc in Hfin. apply (Hfin (a ++ x) y); [done| |done].
    assert (a <> []) by (intros ->; by apply bool_decide_eq_true in Es).
    left. rewrite starts_with_app in Es by done. by rewrite starts_with_app.
  - destruct (find_char 58 t) as [first|] eqn:E1; [|done].
    apply find_char_Some in E1 as (a & b & -> & Ha & ->).
    destruct (contains 58 (drop (S (length a)) _)); [done|]. intros H%authority_parts. apply (Hfin a b); auto.
Qed.

Lemma connect_authority_complete bytes h p :
  connect_authority bytes h p -> parse_authority bytes = Ok (mkConnect h p).
Proof.
  intros (host & -> & Hp & Eh & Hh). destruct (parse_host_form host h Eh) as (Hf & Hne & Hb).
  destruct (dec_ascii p Hp) as [Hd H58].
  unfold parse_authority, mbind, result_bind, ok_or.
  rewrite ascii_from_utf8 by (apply Forall_app; split; [done|by constructor]).
  rewrite starts_with_app by done. destruct (starts_with 91 host) eqn:Es.
  - destruct (Hb eq_refl) as (inner & -> & H93).
    assert (E : (91 :: inner ++ [93]) ++ 58 :: dec p = (91 :: inner) ++ 93 :: 58 :: dec p)
      by (cbn; by rewrite <- app_assoc).
    rewrite E, find_char_app by (rewrite not_elem_of_cons; done). rewrite drop_app_length.
    change (find_char 58 (93 :: 58 :: dec p)) with (Some 1%nat). rewrite <- E. cbv iota. replace (length (91%Z :: inner) + 1)%nat with (length (91%Z :: inner ++ [93%Z]))
      by (cbn; rewrite length_app; cbn; lia).
    by apply authority_parts.
  - destruct Hh as [|H]; [done|]. rewrite find_char_app by done.
    rewrite (proj2 (contains_false 58 _)); [by apply authority_parts|].
    rewrite cons_middle, app_assoc.
    replace (S (length host)) with (length (host ++ [58])) by (rewrite length_app; cbn; lia).
    by rewrite drop_app_length.
Qed.

Definition host_char (c : Z) : Prop := is_ascii_alphanumeric c = true \/ c ∈ [45; 46; 58; 91; 93].

Lemma parse_host_chars t h : parse_host t = Ok h -> Forall host_char t.
Proof.
  assert (Ha : forall i, Forall addr_char i -> Forall host_char i).
  { intros i Hf. eapply Forall_impl; [exact Hf|]. unfold addr_char, host_char. set_solver. }
  destruct h as [n|a].
  - intros (Hd & _ & _)%parse_host_name. apply dns_chars in Hd as [_ Hf].
    eapply Forall_impl; [exact Hf|]. unfold name_char, host_char. set_solver.
  - intros (_ & [E|(inner & s & -> & E & ->)])%parse_host_address.
    + by eapply Ha, parse_ip_chars.
    + apply Forall_cons. split; [right; set_solver|]. apply Forall_app.
      split; [by eapply Ha, parse_ipv6_chars|]. constructor; [right; set_solver|constructor].
Qed.

Lemma authority_clean a h p : connect_authority a h p -> a <> [] /\ clean a /\ (32 ∉ a).
Proof.
  intros (host & -> & Hp & Eh%parse_host_chars & _). split; [by destruct host|].
  assert (Hf : Forall host_char (host ++ 58 :: dec p)).
  { apply Forall_app. split; [done|]. apply Forall_cons. split; [right; set_solver|].
    destruct (dec_port p Hp) as [-> _]. destruct (dec_nat_spec p) as (Hd & _); [lia|].
    eapply Forall_impl; [exact Hd|]. intros c Hc. left. unfold is_ascii_alphanumeric. by rewrite Hc. }
  rewrite Forall_forall in Hf. assert (Hno : forall d, d ∈ [10; 13; 32] -> d ∉ host ++ 58 :: dec p).
  { intros d Hd Hin. destruct (Hf d Hin) as [H|H]; rewrite !elem_of_cons, elem_of_nil in Hd.
    - destruct Hd as [->|[->|[->|[]]]]; done.
    - destruct Hd as [->|[->|[->|[]]]]; set_solver. }
  split; [split|]; apply Hno; set_solver.
Qed.

(** A header line: a name without colon or whitespace, a colon, a value. *)
Definition header_form (line : list Z) : Prop :=
  exists name value, line = name ++ 58 :: value /\ name <> [] /\
    Forall (fun c => c <> 58 /\ is_ascii_whitespace c = false) name.

Lemma malformed_header_exact line : reject_malformed_header line = Ok tt <-> header_form line.
Proof.
  unfold reject_malformed_header, mbind, result_bind, ok_or. split.
  - destruct (starts_with 32 line || starts_with 9 line); [done|].
    destruct (find_char 58 line) as [n|] eqn:E; [|done].
    apply find_char_Some in E as (name & value & -> & Hn & ->). rewrite take_app_length.
    case_bool_decide; [done|]. destruct (existsb is_ascii_whitespace name) eqn:Ew; [done|]. intros _.
    exists name, value. split_and!; [done..|]. apply Forall_forall. intros c Hc. split; [by intros ->|].
    apply not_true_is_false. intros Hw. rewrite <- not_true_iff_false, existsb_exists in Ew.
    destruct Ew. exists c. by rewrite <- list_elem_of_In.
  - intros (name & value & -> & Hne & Hf). rewrite Forall_forall in Hf.
    assert (Hs : forall c, is_ascii_whitespace c = true -> starts_with c (name ++ 58 :: value) = false).
    { intros c Hc. rewrite starts_with_app by done. destruct name as [|d name]; [done|].
      apply bool_decide_false. intros [= ->]. destruct (Hf c ltac:(left)). congruence. }
    rewrite !Hs by done. rewrite find_char_app by (intros Hin; by destruct (Hf _ Hin)).
    rewrite take_app_length, bool_decide_false by done. cbn [orb].
    destruct (existsb is_ascii_whitespace name) eqn:Ew; [|done].
    apply existsb_exists in Ew as (c & Hin%list_elem_of_In & Hw). destruct (Hf c Hin). congruence.
Qed.

Lemma check_headers_exact n lines :
  check_headers n lines = Ok tt <->
  Forall header_form (strip_cr <$> lines) /\ (lines = [] \/ n + len lines <= MAX_HEADER_LINES).
Proof.
  revert n; induction lines as [|line lines IH]; intros n; cbn [check_headers fmap list_fmap].
  { split; [split; [constructor|by left]|done]. }
  assert (Hne : header_form (strip_cr line) -> strip_cr line <> [])
    by (intros (name & value & -> & _); by destruct name).
  rewrite Forall_cons, len_cons, <- malformed_header_exact in *. pose proof (len_nonneg lines).
  case_bool_decide as He; [naive_solver|]. unfold mbind, result_bind.
  destruct (Z.ltb_spec MAX_HEADER_LINES (n + 1)).
  { split; [done|]. intros [_ [|]]; [done|lia]. }
  destruct (reject_malformed_header (strip_cr line)) as [[]|] eqn:E; [|naive_solver].
  rewrite IH. split.
  - intros [Hf Hl]. split; [done|]. right. destruct Hl as [->|]; [rewrite len_nil; lia|lia].
  - intros [[_ Hf] Hl]. split; [done|]. destruct Hl as [|]; [done|]. right. lia.
Qed.

Fixpoint join_with (sep : Z) (pieces : list (list Z)) : list Z :=
  match pieces with
  | [] => []
  | [p] => p
  | p :: ps => p ++ sep :: join_with sep ps
  end.

Lemma split_on_join sep t : join_with sep (split_on sep t) = t.
Proof.
  induction t as [|c t IH]; [done|]. cbn [split_on].
  pose proof (split_on_nonnil sep t) as Hn. destruct (split_on sep t) as [|p ps]; [done|].
  destruct (Z.eqb_spec c sep) as [->|]; [by rewrite <- IH|]. destruct ps; rewrite <- IH; done.
Qed.

Lemma request_line_exact line h p :
  parse_request_line line = Ok (mkConnect h p) <->
  exists authority, line = str "CONNECT " ++ authority ++ str " HTTP/1.1" /\ connect_authority authority h p.
Proof.
  unfold parse_request_line. split.
  - pose proof (split_on_join 32 line) as Hj.
    destruct (split_on 32 line) as [|m [|a [|v [|? ?]]]]; try done.
    destruct (_ || _ || _); [done|]. case_bool_decide as Em; [|done]. case_bool_decide as Ev; [|done].
    cbn [negb]. intros Ha%connect_authority_sound. exists a. split; [|done]. subst m v. rewrite <- Hj. done.
  - intros (a & -> & Ha). destruct (authority_clean a h p Ha) as (Hne & _ & H32).
    change (str "CONNECT ") with (str "CONNECT" ++ [32]). change (str " HTTP/1.1") with (32 :: str "HTTP/1.1").
    rewrite <- app_assoc. cbn [app]. rewrite !split_on_app, split_on_none by (done || (vm_compute; set_solver)).
    rewrite (bool_decide_false (a = [])) by done. by apply connect_authority_complete.
Qed.

(** The language of the [CONNECT] parser: it accepts a head exactly when the head
    is within its bound and is the line [CONNECT host:port HTTP/1.1] followed by
    at most sixty-four header lines, every line ended by the newline pair and
    free of other newline bytes, and it answers the host and the port that
    stand in that line. *)
Theorem connect_exact bytes h p :
  connect_parse bytes = Ok (mkConnect h p) <->
  len bytes <= MAX_REQUEST_HEAD_BYTES /\
  exists authority headers,
    bytes = crlf_join (str "CONNECT " ++ authority ++ str " HTTP/1.1") headers /\
    connect_authority authority h p /\ len headers <= MAX_HEADER_LINES /\
    Forall (fun line => clean line /\ header_form line) headers.
Proof.
  unfold connect_parse, reject_stray_newlines, mbind, result_bind. split.
  - destruct (Z.ltb_spec MAX_REQUEST_HEAD_BYTES (len bytes)); [done|].
    destruct (stray_newlines false bytes) eqn:Es; [done|].
    apply stray_lines in Es as (first & rest & Hc & ->).
    destruct (split_lines first rest Hc) as (pieces & -> & Ep).
    destruct pieces as [|line lines]; [done|]. rewrite fmap_cons in Ep. apply cons_inv in Ep as [El Er]. rewrite El.
    destruct (parse_request_line first) as [[h' p']|] eqn:E1; [|done].
    destruct (check_headers 0 lines) as [[]|] eqn:E2; [|done]. intros [= -> ->].
    apply request_line_exact in E1 as (a & -> & Ha). apply check_headers_exact in E2 as [Hf Hl].
    rewrite Er in Hf. split; [done|]. exists a, rest. split_and!; try done.
    + rewrite <- Er. unfold len. rewrite length_fmap. destruct Hl as [->|]; [done|]. unfold len in *. lia.
    + apply Forall_cons in Hc as [_ Hc]. by apply Forall_and.
  - intros [Hlen (a & rest & -> & Ha & Hl & Hf)]. rewrite Forall_and in Hf. destruct Hf as [Hc Hf].
    rewrite (proj2 (Z.ltb_ge _ _)) by done.
    assert (Hcl : Forall clean ((str "CONNECT " ++ a ++ str " HTTP/1.1") :: rest)).
    { constructor; [|done]. destruct (authority_clean a h p Ha) as (_ & [H10 H13] & _).
      split; rewrite !not_elem_of_app; split_and!; try done; vm_compute; set_solver. }
    rewrite (stray_join _ _ Hcl). destruct (split_lines _ _ Hcl) as (pieces & -> & Ep).
    destruct pieces as [|line lines]; [done|]. rewrite fmap_cons in Ep. apply cons_inv in Ep as [El Er]. rewrite El.
    rewrite (proj2 (request_line_exact _ h p)) by eauto.
    rewrite (proj2 (check_headers_exact 0 lines)); [done|].
    rewrite Er. split; [done|]. right. rewrite <- Er in Hl. unfold len in *. rewrite length_fmap in Hl. lia.
Qed.

(** * Reading a head from a socket *)

(** The bytes a socket will deliver before it fails or ends. *)
Fixpoint stream (socket : list ReadOutcome) : list Z :=
  match socket with
  | SocketData (b :: bytes) :: rest => b :: bytes ++ stream rest
  | _ => []
  end.

(** A head in front of its first terminator. *)
Definition framed (bytes head rest : list Z) : Prop :=
  bytes = head ++ HEAD_TERMINATOR ++ rest /\ find bytes HEAD_TERMINATOR = Some (length head).

Lemma socket_read_stream want s :
  (0 < want)%nat ->
  match socket_read want s with
  | (SocketData [], _) => stream s = []
  | (SocketData bytes, s') => stream s = bytes ++ stream s'
  | _ => stream s = []
  end.
Proof.
  intros Hw. destruct s as [|[bytes| |] s]; try done. cbn [socket_read].
  destruct want as [|want]; [lia|]. destruct bytes as [|b bytes]; [done|]. cbn [take drop stream].
  pose proof (take_drop want bytes) as Htd.
  destruct (drop want bytes) as [|c more] eqn:E; cbn [stream].
  - rewrite app_nil_r in Htd. by rewrite Htd.
  - rewrite <- Htd at 1. rewrite <- app_assoc. by cbn [app].
Qed.

Lemma strip_prefix_app p t u r : strip_prefix p t = Some r -> strip_prefix p (t ++ u) = Some (r ++ u).
Proof. rewrite !strip_prefix_Some. intros ->. by rewrite app_assoc. Qed.

Lemma find_short t needle : (length t < length needle)%nat -> find t needle = None.
Proof.
  induction t as [|x t IH]; intros Hl; cbn [find].
  - destruct needle; cbn in *; [lia|done].
  - destruct (strip_prefix needle (x :: t)) as [r|] eqn:E.
    + apply strip_prefix_Some in E. rewrite E, length_app in Hl. lia.
    + rewrite IH; [done|]. cbn in Hl. lia.
Qed.

(** A first occurrence is found as soon as the buffer holds all of it, and not
    before. *)
Lemma find_prefix a b needle k :
  needle <> [] -> find (a ++ b) needle = Some k ->
  find a needle = if bool_decide (k + length needle <= length a)%nat then Some k else None.
Proof.
  intros Hne. revert k; induction a as [|x a IH]; intros k Hk.
  { rewrite bool_decide_false by (destruct needle; cbn; lia || done). by destruct needle. }
  cbn [app find] in Hk. cbn [find].
  destruct (strip_prefix needle (x :: a)) as [r|] eqn:E.
  - pose proof (strip_prefix_app _ _ b _ E) as E'. cbn [app] in E'. rewrite E' in Hk. injection Hk as <-.
    apply strip_prefix_Some in E. rewrite bool_decide_true; [done|]. rewrite E, length_app. cbn. lia.
  - destruct (strip_prefix needle (x :: a ++ b)) as [r|] eqn:E'.
    + injection Hk as <-. case_bool_decide as Hl.
      * apply strip_prefix_Some in E'. change (x :: a ++ b) with ((x :: a) ++ b) in E'.
        assert (Hp : x :: a = needle ++ drop (length needle) (x :: a)).
        { rewrite <- (take_drop (length needle) (x :: a)) at 1. f_equal.
          rewrite <- (take_app_le (x :: a) b) by lia. by rewrite E', take_app_length. }
        apply strip_prefix_Some in Hp. congruence.
      * rewrite find_short; [done|]. cbn in *. lia.
    + apply fmap_Some in Hk as (k' & Hk & ->). rewrite (IH k' Hk). cbn [length].
      repeat case_bool_decide; try done; lia.
Qed.

Lemma find_Some t needle k :
  find t needle = Some k -> t = take k t ++ needle ++ drop (k + length needle) t /\ (k <= length t)%nat.
Proof.
  revert k; induction t as [|x t IH]; intros k; cbn [find].
  - destruct (strip_prefix needle []) as [r|] eqn:E; [|done]. intros [= <-].
    apply strip_prefix_Some in E. cbn. destruct needle; [by rewrite drop_nil|done].
  - destruct (strip_prefix needle (x :: t)) as [r|] eqn:E.
    + intros [= <-]. apply strip_prefix_Some in E. cbn [take app]. split; [|lia].
      rewrite E at 2. by rewrite Nat.add_0_l, drop_app_length.
    + intros (k' & [Ht Hl]%IH & ->)%fmap_Some. cbn [take drop app Nat.add length]. split; [by f_equal|lia].
Qed.

Section CollectHeadFacts.
Context {E A : Type} (max : Z) (parse : list Z -> result E A).
Context (too_large incomplete timed_out unreadable : E).

Abbreviation collect := (collect_head max parse too_large incomplete timed_out unreadable).

(** What is kept when a buffer holds its terminator. *)
Lemma buffer_framed buffer later index :
  find buffer HEAD_TERMINATOR = Some index ->
  (forall k, find (buffer ++ later) HEAD_TERMINATOR = Some k -> k = index) /\
  buffer = take index buffer ++ HEAD_TERMINATOR ++ drop (index + 4) buffer /\
  length (take index buffer) = index.
Proof.
  intros Hf. pose proof (find_Some _ _ _ Hf) as [Hb Hl]. split_and!; [|done|rewrite length_take; lia].
  intros k Hk. apply find_prefix in Hk; [|done]. rewrite Hf in Hk. case_bool_decide; congruence.
Qed.

Lemma find_extends buffer later index :
  find buffer HEAD_TERMINATOR = Some index -> find (buffer ++ later) HEAD_TERMINATOR = Some index.
Proof.
  revert index; induction buffer as [|x buffer IH]; intros index; [done|]. cbn [find app].
  destruct (strip_prefix HEAD_TERMINATOR (x :: buffer)) as [r|] eqn:Ep.
  - pose proof (strip_prefix_app _ _ later _ Ep) as Ep'. cbn [app] in Ep'. by rewrite Ep'.
  - intros (k & Hk & ->)%fmap_Some. destruct (strip_prefix HEAD_TERMINATOR (x :: buffer ++ later)) as [r|] eqn:Ep'.
    + exfalso. apply strip_prefix_Some in Ep'. pose proof (find_Some _ _ _ Hk) as [Hb _].
      destruct buffer as [|b1 [|b2 [|b3 buffer]]]; try (apply (f_equal length) in Hb; rewrite !length_app in Hb; cbn in Hb; lia).
      cbn in Ep'. injection Ep' as -> -> -> -> _. by cbn in Ep.
    + by rewrite (IH k Hk).
Qed.

(** Enough fuel gives an answer. *)
Lemma collect_answers fuel buffer s :
  max + 2 <= Z.of_nat fuel + len buffer -> (0 < fuel)%nat -> is_Some (collect fuel buffer s).
Proof.
  revert buffer s; induction fuel as [|fuel IH]; intros buffer s Hf Hpos; [lia|]. cbn [collect_head].
  destruct (find buffer HEAD_TERMINATOR) as [i|]; [eauto|].
  destruct (Z.ltb_spec max (len buffer)); [eauto|].
  destruct (socket_read _ s) as [[[|b bytes]| |] s']; eauto.
  assert (1 <= len (b :: bytes)) by (rewrite len_cons; pose proof (len_nonneg bytes); lia).
  apply IH; rewrite ?len_app; lia.
Qed.

(** A head that is answered is the one in front of the first terminator, and
    no byte is lost. *)
Lemma collect_sound fuel buffer s request early s' :
  collect fuel buffer s = Some (Ok (request, early), s') ->
  exists head, framed (buffer ++ stream s) head (early ++ stream s') /\ parse head = Ok request.
Proof.
  revert buffer s; induction fuel as [|fuel IH]; intros buffer s; [done|]. cbn [collect_head].
  destruct (find buffer HEAD_TERMINATOR) as [i|] eqn:Ef.
  - unfold mbind, result_bind. destruct (parse (take i buffer)) as [q|] eqn:Ep; [|done]. intros [= <- <- <-].
    exists (take i buffer). split; [|done]. destruct (buffer_framed buffer [] i Ef) as (_ & Hb & Hl).
    split; [|rewrite Hl; by apply find_extends]. rewrite Hb at 1. by rewrite <- !app_assoc.
  - destruct (max <? len buffer); [done|].
    pose proof (socket_read_stream (Z.to_nat READ_CHUNK_BYTES) s ltac:(vm_compute; lia)) as Hs.
    destruct (socket_read _ s) as [[[|b bytes]| |] s1]; try done.
    intros H%IH. by rewrite Hs, app_assoc.
Qed.

(** A head that leaves room for its terminator is found however the bytes
    arrive. *)
Lemma collect_complete fuel buffer s head rest :
  max + 2 <= Z.of_nat fuel + len buffer -> (0 < fuel)%nat -> len head + 3 <= max ->
  framed (buffer ++ stream s) head rest ->
  exists early s', collect fuel buffer s = Some ((q ← parse head; Ok (q, early)), s') /\
    early ++ stream s' = rest.
Proof.
  revert buffer s; induction fuel as [|fuel IH]; intros buffer s Hf Hpos Hmax [Hb Hfind]; [lia|].
  cbn [collect_head]. pose proof (find_prefix _ _ HEAD_TERMINATOR _ ltac:(done) Hfind) as Hp.
  rewrite Hp. case_bool_decide as Hl; cbn in Hl.
  - destruct (buffer_framed buffer [] _ Hp) as (_ & Hb' & Hlen).
    assert (Hh : take (length head) buffer = head).
    { rewrite <- (take_app_le buffer (stream s)) by lia. by rewrite Hb, take_app_length. }
    exists (drop (length head + 4) buffer), s. rewrite Hh in *. split; [done|].
    rewrite Hb' in Hb at 1. rewrite <- !app_assoc in Hb. by apply app_inv_head, app_inv_head in Hb.
  - assert (Hsmall : len buffer <= max) by (unfold len in *; lia).
    rewrite (proj2 (Z.ltb_ge _ _)) by done.
    assert (Hmore : stream s <> []).
    { intros E0. rewrite E0, app_nil_r in Hb. apply (f_equal length) in Hb. rewrite !length_app in Hb.
      cbn in Hb. lia. }
    pose proof (socket_read_stream (Z.to_nat READ_CHUNK_BYTES) s ltac:(vm_compute; lia)) as Hs.
    destruct (socket_read _ s) as [[[|b bytes]| |] s1]; try done.
    assert (1 <= len (b :: bytes)) by (rewrite len_cons; pose proof (len_nonneg bytes); lia).
    unfold framed in IH. apply IH; rewrite ?len_app, <- ?app_assoc, <- ?Hs; try done; lia.
Qed.
End CollectHeadFacts.

Lemma parse_within_eq bytes : parse_within bytes = connect_parse bytes.
Proof. unfold parse_within, connect_parse. by destruct (MAX_REQUEST_HEAD_BYTES <? len bytes). Qed.

(** Reading a request always answers; a request that is answered is the parse
    of the bytes before the first blank line, and those bytes, the early data
    and what is left in the socket are everything that was sent; and a head
    with room for its terminator within the bound is read the same however the
    bytes arrive. *)
Theorem read_request_exact client :
  accepts_deadline client = true ->
  (exists r s', read_request client = Some (r, s')) /\
  (forall request early s', read_request client = Some (Ok (request, early), s') ->
     exists head, framed (stream (reads client)) head (early ++ stream s') /\
       connect_parse head = Ok request) /\
  (forall head rest, framed (stream (reads client)) head rest ->
     len head + 3 <= MAX_REQUEST_HEAD_BYTES ->
     exists early s',
       read_request client = Some ((request ← connect_parse head; Ok (request, early)), s') /\
       early ++ stream s' = rest).
Proof.
  intros Hd. unfold read_request. rewrite Hd. cbn [negb].
  assert (Hf : MAX_REQUEST_HEAD_BYTES + 2 <= Z.of_nat (Z.to_nat (MAX_REQUEST_HEAD_BYTES + 2)) + len (@nil Z))
    by (unfold MAX_REQUEST_HEAD_BYTES; rewrite len_nil; lia).
  assert (Hp : (0 < Z.to_nat (MAX_REQUEST_HEAD_BYTES + 2))%nat) by (unfold MAX_REQUEST_HEAD_BYTES; lia).
  split_and!.
  - destruct (collect_answers MAX_REQUEST_HEAD_BYTES parse_within HeadTooLarge HeadIncomplete HeadTimedOut
      ClientUnreadable _ [] (reads client) Hf Hp) as [[r s'] H]. eauto.
  - intros request early s' (head & Hfr & Hq)%collect_sound. rewrite parse_within_eq in Hq. eauto.
  - intros head rest Hfr Hl. rewrite <- parse_within_eq. by apply collect_complete.
Qed.

Definition sample_head : list Z := str "CONNECT example.com:443 HTTP/1.1".

Lemma read_request_exact_witness :
  exists early s',
    read_request (mkSocket true [SocketData (sample_head ++ [13]); SocketData [10; 13; 10; 22]; SocketData [3]])
    = Some ((request ← connect_parse sample_head; Ok (request, early)), s') /\
    early ++ stream s' = [22; 3].
Proof.
  apply (read_request_exact
    (mkSocket true [SocketData (sample_head ++ [13]); SocketData [10; 13; 10; 22]; SocketData [3]]));
    [reflexivity|split; vm_compute; reflexivity|vm_compute; discriminate].
Defined.

(** The bound itself depends on how the bytes arrive: a head of 8190 bytes,
    which the parser accepts, is refused as too large when its terminator is
    split after the third byte. *)
Definition long_head : list Z := str "CONNECT a:1 HTTP/1.1" ++ [13; 10; 120; 58] ++ replicate 8166 97.

Theorem head_bound_depends_on_arrival :
  let whole := mkSocket true [SocketData (long_head ++ HEAD_TERMINATOR)] in
  let split := mkSocket true [SocketData (long_head ++ [13; 10; 13]); SocketData [10]] in
  stream (reads whole) = stream (reads split) /\ len long_head <= MAX_REQUEST_HEAD_BYTES /\
  (exists request, connect_parse long_head = Ok request /\ read_request whole = Some (Ok (request, []), [])) /\
  read_request split = Some (Err HeadTooLarge, [SocketData [10]]).
Proof.
  cbv zeta. split; [vm_compute; reflexivity|]. split; [vm_compute; discriminate|]. split.
  - exists (mkConnect (Name [97]) 1). split; vm_compute; reflexivity.
  - vm_compute. reflexivity.
Qed.
