(* ===== verification/EgressProvider.v ===== *)
(** The identity-bound provider endpoint of the egress broker
    ([automonique-egress-broker/src/identity.rs] and [substitute.rs]): the
    sentinel a workload holds in place of a credential, the request parser, the
    decision on the credential it presents, and the head that is rebuilt for
    the provider.

    Heads are bytes; the strings taken from them are ASCII. *)

From S2P Require Import Prelude Text Codec SandboxValues Address Url Egress EgressRequest.

(** * Sentinels and credentials *)

Definition SENTINEL_ENTROPY_BYTES : Z := 32.
Definition SENTINEL_PREFIX : string := "amq-egress-session-".
Definition MAX_CREDENTIAL_BYTES : Z := 4096.
Definition MAX_LEDGER_ENTRIES : Z := 64.

Inductive IdentityError := EntropyUnavailable | TokenRejected | CredentialRejected.

Record SessionSentinel := mkSentinel { token : list Z }.

(** [SessionSentinel::from_token]. *)
Definition from_token (t : list Z) : result IdentityError SessionSentinel :=
  match strip_prefix (str SENTINEL_PREFIX) t with
  | None => Err TokenRejected
  | Some digits =>
      if negb (str_len digits =? SENTINEL_ENTROPY_BYTES * 2)
         || negb (forallb (fun byte => is_ascii_digit byte || in_range 97 102 byte) (utf8 digits))
      then Err TokenRejected
      else Ok (mkSentinel t)
  end.

(** [SessionSentinel::matches]: the comparison's running time is not modelled. *)
Definition sentinel_matches (s : SessionSentinel) (presented : list Z) : bool :=
  let expected := utf8 (token s) in
  if negb (len presented =? len expected) then false
  else bool_decide (expected = presented).

Inductive CredentialScheme := ApiKeyHeader | BearerToken.

Definition header_name (s : CredentialScheme) : string :=
  match s with ApiKeyHeader => "x-api-key" | BearerToken => "authorization" end.

Definition header_value (s : CredentialScheme) (secret : list Z) : list Z :=
  match s with ApiKeyHeader => secret | BearerToken => str "Bearer " ++ secret end.

Definition is_ascii_graphic (b : Z) : bool := in_range 33 126 b.

Record ProviderCredential := mkCredential { scheme : CredentialScheme; secret : list Z }.

(** [ProviderCredential::new]. *)
Definition credential_new (s : CredentialScheme) (secret : list Z)
  : result IdentityError ProviderCredential :=
  if bool_decide (secret = []) || (MAX_CREDENTIAL_BYTES <? str_len secret) then Err CredentialRejected
  else if negb (forallb (fun byte => is_ascii_graphic byte || (byte =? 32)) (utf8 secret))
  then Err CredentialRejected
  else Ok (mkCredential s secret).

Definition header_line (c : ProviderCredential) : list Z :=
  str (header_name (scheme c)) ++ str ": " ++ header_value (scheme c) (secret c).

Record ProviderIdentity := mkIdentity {
  upstream : Destination;
  sentinel : SessionSentinel;
  credential : ProviderCredential
}.

(** * Refusals *)

Inductive IdentityRefusal :=
| ForeignCredential
| MissingCredential
| TunnelToProviderRefused
| AmbiguousCredential
| MethodRejected
| TargetRejected
| VersionRefused
| HeadMalformed
| HeadOverBound
| HeadLate
| ClientLost
| RequestFramingRejected
| UpstreamUnreachable
| UpstreamOutOfScope
| UpstreamTlsRefused.

#[export] Instance IdentityRefusal_eq_dec : EqDecision IdentityRefusal.
Proof. solve_decision. Defined.

(** [IdentityRefusal::as_str]. *)
Definition refusal_str (r : IdentityRefusal) : string :=
  match r with
  | ForeignCredential => "foreign_credential"
  | MissingCredential => "missing_credential"
  | TunnelToProviderRefused => "tunnel_to_provider_refused"
  | AmbiguousCredential => "ambiguous_credential"
  | MethodRejected => "method_rejected"
  | TargetRejected => "target_rejected"
  | VersionRefused => "version_unsupported"
  | HeadMalformed => "head_malformed"
  | HeadOverBound => "head_too_large"
  | HeadLate => "head_timed_out"
  | ClientLost => "client_unreadable"
  | RequestFramingRejected => "request_framing_rejected"
  | UpstreamUnreachable => "upstream_unreachable"
  | UpstreamOutOfScope => "upstream_out_of_scope"
  | UpstreamTlsRefused => "upstream_tls_refused"
  end.

Definition precedes_any_dial (r : IdentityRefusal) : bool :=
  match r with
  | UpstreamUnreachable | UpstreamOutOfScope | UpstreamTlsRefused => false
  | _ => true
  end.

Record RefusalRecord := mkRefusal {
  refusal : IdentityRefusal;
  before_any_dial : bool;
  sequence : Z
}.

(** [RefusalLedger]: the count and the retained records. *)
Definition RefusalLedger : Type := Z * list RefusalRecord.
Definition ledger_empty : RefusalLedger := (0, []).

Definition ledger_record (l : RefusalLedger) (r : IdentityRefusal) : RefusalLedger :=
  let '(seq, es) := l in
  let record := mkRefusal r (precedes_any_dial r) seq in
  let es := if len es =? MAX_LEDGER_ENTRIES then tail es else es in
  (wrap_u64 (seq + 1), es ++ [record]).

(** * Requests *)

Definition MAX_PROVIDER_HEAD_BYTES : Z := 16 * 1024.
Definition MAX_PROVIDER_HEADER_LINES : Z := 64.
Definition MAX_PROVIDER_BODY_BYTES : Z := 8 * 1024 * 1024.

Definition DROPPED_REQUEST_HEADERS : list (list Z) :=
  str <$> ["authorization"; "connection"; "expect"; "host"; "keep-alive"; "proxy-authenticate";
           "proxy-authorization"; "proxy-connection"; "te"; "trailer"; "upgrade"; "x-api-key"].

Record ProviderRequest := mkRequest {
  method : list Z;
  target : list Z;
  headers : list (list Z * list Z)
}.

(** RFC 9110 [tchar]. *)
Definition is_token_byte (byte : Z) : bool :=
  is_ascii_alphanumeric byte || contains byte (str "!#$%&'*+-.^_`|~").

Definition is_ows (b : Z) : bool := (b =? 32) || (b =? 9).

Fixpoint trim_start (value : list Z) : list Z :=
  match value with
  | b :: rest => if is_ows b then trim_start rest else value
  | [] => []
  end.

Definition trim_optional_whitespace (value : list Z) : list Z :=
  reverse (trim_start (reverse (trim_start value))).

Definition parse_header (line : list Z) : result IdentityRefusal (list Z * list Z) :=
  if starts_with 32 line || starts_with 9 line then Err HeadMalformed
  else
    colon ← ok_or (find_char 58 line) HeadMalformed;
    let name := take colon line in
    let value := drop (S colon) line in
    if bool_decide (name = []) || negb (forallb is_token_byte name) then Err HeadMalformed
    else
      let value := trim_optional_whitespace value in
      if negb (forallb (fun byte => is_ascii_graphic byte || is_ows byte) value) then Err HeadMalformed
      else
        name ← ok_or (from_utf8 (to_ascii_lowercase name)) HeadMalformed;
        value ← ok_or (from_utf8 value) HeadMalformed;
        Ok (name, value).

(** [parse_request_line] of substitute.rs. *)
Definition parse_provider_line (line : list Z) : result IdentityRefusal (list Z * list Z) :=
  match split_on 32 line with
  | [method; target; version] =>
      if bool_decide (method = []) || bool_decide (target = []) || bool_decide (version = [])
      then Err HeadMalformed
      else if negb (bool_decide (version = str "HTTP/1.1")) then Err VersionRefused
      else if bool_decide (method = str "CONNECT") || negb (forallb is_ascii_uppercase method)
      then Err MethodRejected
      else if negb (starts_with 47 target) || negb (forallb is_ascii_graphic target)
      then Err TargetRejected
      else
        method ← ok_or (from_utf8 method) MethodRejected;
        target ← ok_or (from_utf8 target) TargetRejected;
        Ok (method, target)
  | _ => Err HeadMalformed
  end.

(** The header loop of [ProviderRequest::parse]. *)
Fixpoint parse_headers (acc : list (list Z * list Z)) (lines : list (list Z))
  : result IdentityRefusal (list (list Z * list Z)) :=
  match lines with
  | [] => Ok acc
  | line :: lines =>
      let line := strip_cr line in
      if bool_decide (line = []) then Err HeadMalformed
      else if len acc =? MAX_PROVIDER_HEADER_LINES then Err HeadOverBound
      else header ← parse_header line; parse_headers (acc ++ [header]) lines
  end.

Definition provider_parse (bytes : list Z) : result IdentityRefusal ProviderRequest :=
  if MAX_PROVIDER_HEAD_BYTES <? len bytes then Err HeadOverBound
  else if stray_newlines false bytes then Err HeadMalformed
  else match split_on 10 bytes with
       | [] => Err HeadMalformed
       | request_line :: lines =>
           '(m, t) ← parse_provider_line (strip_cr request_line);
           hs ← parse_headers [] lines;
           Ok (mkRequest m t hs)
       end.

Definition values (r : ProviderRequest) (name : string) : list (list Z) :=
  snd <$> filter (fun h => fst h = str name) (headers r).

Definition authenticate (r : ProviderRequest) (s : SessionSentinel) : result IdentityRefusal unit :=
  let keys := values r "x-api-key" in
  let bearers := (fun value => default value (strip_prefix (str "Bearer ") value))
                 <$> values r "authorization" in
  match len keys + len bearers, last (keys ++ bearers) with
  | 0, _ => Err MissingCredential
  | 1, Some value => if sentinel_matches s (utf8 value) then Ok tt else Err ForeignCredential
  | 1, None => Err ForeignCredential
  | _, _ => Err AmbiguousCredential
  end.

(** [str::parse::<usize>]: an optional plus sign and digits, within 64 bits. *)
Definition parse_usize (t : list Z) : option Z :=
  let digits := match t with 43 :: rest => rest | _ => t end in
  if bool_decide (digits = []) || negb (forallb is_ascii_digit digits) then None
  else check_u64 (dec_value digits).

Definition body_length (r : ProviderRequest) : result IdentityRefusal Z :=
  match values r "transfer-encoding" with
  | _ :: _ => Err RequestFramingRejected
  | [] =>
      match values r "content-length" with
      | [] => Ok 0
      | [value] =>
          length ← ok_or (parse_usize value) RequestFramingRejected;
          if MAX_PROVIDER_BODY_BYTES <? length then Err RequestFramingRejected else Ok length
      | _ => Err RequestFramingRejected
      end
  end.

(** * The rebuilt head *)

(** [Ipv4Addr] and [Ipv6Addr] as [Display] writes them. *)
Fixpoint join_text (sep : Z) (pieces : list (list Z)) : list Z :=
  match pieces with [] => [] | [p] => p | p :: ps => p ++ sep :: join_text sep ps end.

Definition v4_to_string (o : list Z) : list Z := join_text 46 (dec <$> o).

Definition hex_digit (d : Z) : Z := if d <? 10 then 48 + d else 87 + d.
Definition hex_group (g : Z) : list Z :=
  let ds := [g / 4096; g / 256 mod 16; g / 16 mod 16; g mod 16] in
  let significant := if g <? 16 then drop 3 ds else if g <? 256 then drop 2 ds
                     else if g <? 4096 then drop 1 ds else ds in
  hex_digit <$> significant.

(** The longest run of zero segments, the first of them: its start and length. *)
Fixpoint zero_span (i : nat) (current longest : nat * nat) (s : list Z) : nat * nat :=
  match s with
  | [] => longest
  | g :: s =>
      if g =? 0 then
        let current := if (snd current =? 0)%nat then (i, 1%nat) else (fst current, S (snd current)) in
        zero_span (S i) current (if (snd longest <? snd current)%nat then current else longest) s
      else zero_span (S i) (0%nat, 0%nat) longest s
  end.

Definition v6_to_string (s : list Z) : list Z :=
  match to_ipv4_mapped s with
  | Some v4 => str "::ffff:" ++ v4_to_string v4
  | None =>
      let '(start, length) := zero_span 0 (0%nat, 0%nat) (0%nat, 0%nat) s in
      if (1 <? length)%nat then
        join_text 58 (hex_group <$> take start s) ++ str "::"
        ++ join_text 58 (hex_group <$> drop (start + length) s)
      else join_text 58 (hex_group <$> s)
  end.

Definition host_header (d : Destination) : list Z :=
  let host := match d_host d with
              | Name name => name
              | Address (V6 s) => [91] ++ v6_to_string s ++ [93]
              | Address (V4 o) => v4_to_string o
              end in
  let default_port := if requires_transport_security (d_scope d) then 443 else 80 in
  if d_port d =? default_port then host else host ++ [58] ++ dec (d_port d).

Definition CRLF : list Z := [13; 10].

Definition upstream_head (r : ProviderRequest) (identity : ProviderIdentity) : list Z :=
  method r ++ [32] ++ target r ++ str " HTTP/1.1" ++ CRLF
  ++ str "host: " ++ host_header (upstream identity) ++ CRLF
  ++ header_line (credential identity) ++ CRLF
  ++ str "connection: close" ++ CRLF
  ++ mjoin ((fun h => if bool_decide (fst h ∈ DROPPED_REQUEST_HEADERS) then []
                      else fst h ++ str ": " ++ snd h ++ CRLF) <$> headers r)
  ++ CRLF.

(** * Reading *)

Definition read_head (client : Socket)
  : option (result IdentityRefusal (ProviderRequest * list Z) * list ReadOutcome) :=
  if negb (accepts_deadline client) then Some (Err ClientLost, reads client)
  else collect_head MAX_PROVIDER_HEAD_BYTES provider_parse HeadOverBound HeadMalformed HeadLate
         ClientLost (Z.to_nat (MAX_PROVIDER_HEAD_BYTES + 2)) [] (reads client).

(** The loop of [read_body]; every turn adds a byte. *)
Fixpoint fill_body (fuel : nat) (body : list Z) (length : Z) (socket : list ReadOutcome)
  : option (result IdentityRefusal (list Z) * list ReadOutcome) :=
  match fuel with
  | O => None
  | S fuel =>
      if len body <? length then
        let want := Z.min (length - len body) READ_CHUNK_BYTES in
        match socket_read (Z.to_nat want) socket with
        | (SocketTimedOut, socket) => Some (Err HeadLate, socket)
        | (SocketFailed, socket) => Some (Err ClientLost, socket)
        | (SocketData [], socket) => Some (Err RequestFramingRejected, socket)
        | (SocketData bytes, socket) => fill_body fuel (body ++ bytes) length socket
        end
      else Some (Ok body, socket)
  end.

Definition read_body (client : Socket) (early : list Z) (length : Z)
  : option (result IdentityRefusal (list Z) * list ReadOutcome) :=
  if length <? len early then Some (Err RequestFramingRejected, reads client)
  else if len early =? length then Some (Ok early, reads client)
  else if negb (accepts_deadline client) then Some (Err ClientLost, reads client)
  else fill_body (S (Z.to_nat (length - len early))) early length (reads client).

(** * Bytes of a header *)

Lemma forallb_seqZ (p : Z -> bool) lo n b :
  forallb p (seqZ lo n) = true -> lo <= b < lo + n -> p b = true.
Proof.
  intros Hf Hb. rewrite forallb_forall in Hf. apply Hf, list_elem_of_In, elem_of_seqZ. lia.
Qed.

Definition token_facts (b : Z) : bool :=
  implb (is_token_byte b)
    (is_token_byte (lower_char b) && (lower_char (lower_char b) =? lower_char b)
     && negb (contains b [9; 10; 13; 32; 58])).

Lemma token_range b : is_token_byte b = true -> 33 <= b <= 126.
Proof.
  unfold is_token_byte. rewrite orb_true_iff, contains_iff. intros [H|H].
  - unfold is_ascii_alphanumeric, is_ascii_digit, is_ascii_lowercase, is_ascii_uppercase, in_range in H.
    bool_prop. lia.
  - change (b ∈ [33; 35; 36; 37; 38; 39; 42; 43; 45; 46; 94; 95; 96; 124; 126]) in H.
    rewrite !elem_of_cons, elem_of_nil in H. lia.
Qed.

Lemma token_lower b :
  is_token_byte b = true ->
  is_token_byte (lower_char b) = true /\ lower_char (lower_char b) = lower_char b /\
  (b ∉ [9; 10; 13; 32; 58]).
Proof.
  intros H. pose proof (forallb_seqZ token_facts 33 94 b ltac:(vm_compute; reflexivity)) as Hf.
  specialize (Hf ltac:(pose proof (token_range b H); lia)). unfold token_facts in Hf. rewrite H in Hf.
  cbn [implb] in Hf. rewrite !andb_true_iff, negb_true_iff, contains_false, Z.eqb_eq in Hf. tauto.
Qed.

Lemma trim_start_spec v :
  exists p, v = p ++ trim_start v /\ (forall b, head (trim_start v) = Some b -> is_ows b = false).
Proof.
  induction v as [|b v IH]; cbn [trim_start]; [by exists []|].
  destruct (is_ows b) eqn:E.
  - destruct IH as (p & Ev & Hh). exists (b :: p). split; [cbn; congruence|done].
  - exists []. split; [done|]. by intros c [= <-].
Qed.

Lemma trim_start_id v : (forall b, head v = Some b -> is_ows b = false) -> trim_start v = v.
Proof. destruct v as [|b v]; [done|]. intros H. cbn. by rewrite (H b). Qed.

(** Trimming removes from both ends and is done once. *)
Lemma trim_spec v :
  exists p q, v = p ++ trim_optional_whitespace v ++ q /\
    trim_optional_whitespace (trim_optional_whitespace v) = trim_optional_whitespace v.
Proof.
  unfold trim_optional_whitespace.
  destruct (trim_start_spec v) as (p & Ev & Hh). set (w := trim_start v) in *.
  destruct (trim_start_spec (reverse w)) as (q & Er & Hq). set (u := trim_start (reverse w)) in *.
  assert (Ew : w = reverse u ++ reverse q) by (by rewrite <- reverse_app, <- Er, reverse_involutive).
  exists p, (reverse q). split; [by rewrite <- Ew|].
  rewrite (trim_start_id (reverse u)); [by rewrite reverse_involutive, (trim_start_id u)|].
  intros b Hb. apply Hh. rewrite Ew. by destruct (reverse u).
Qed.

Lemma trim_space v : trim_optional_whitespace (32 :: v) = trim_optional_whitespace v.
Proof. done. Qed.

Definition name_ok (n : list Z) : Prop :=
  n <> [] /\ Forall (fun b => is_token_byte b = true) n /\ to_ascii_lowercase n = n.

Definition value_byte (b : Z) : Prop := is_ascii_graphic b || is_ows b = true.
Definition value_ok (v : list Z) : Prop := Forall value_byte v /\ trim_optional_whitespace v = v.

Lemma token_ascii n : Forall (fun b => is_token_byte b = true) n -> ascii n.
Proof.
  intros Hf. eapply Forall_impl; [exact Hf|]. intros b Hb%token_range. unfold in_range. bool_prop. lia.
Qed.

Lemma value_ascii v : Forall value_byte v -> ascii v /\ clean v.
Proof.
  intros Hf. split; [|split; intros Hin; rewrite Forall_forall in Hf; by specialize (Hf _ Hin)].
  eapply Forall_impl; [exact Hf|]. unfold value_byte, is_ascii_graphic, is_ows, in_range.
  intros b Hb. bool_prop. lia.
Qed.

Lemma lowercase_ok n :
  Forall (fun b => is_token_byte b = true) n ->
  Forall (fun b => is_token_byte b = true) (to_ascii_lowercase n) /\
  to_ascii_lowercase (to_ascii_lowercase n) = to_ascii_lowercase n.
Proof.
  unfold to_ascii_lowercase. induction 1 as [|b n Hb Hn [IH1 IH2]]; [done|].
  destruct (token_lower b Hb) as (H1 & H2 & _). split; [by constructor|]. cbn. congruence.
Qed.

Lemma parse_header_ok line n v : parse_header line = Ok (n, v) -> name_ok n /\ value_ok v.
Proof.
  unfold parse_header, mbind, result_bind, ok_or. destruct (_ || _); [done|].
  destruct (find_char 58 line) as [colon|]; [|done].
  case_bool_decide as Hne; [done|]. destruct (forallb is_token_byte _) eqn:Ht; [|done]. cbn [orb negb].
  destruct (forallb _ (trim_optional_whitespace _)) eqn:Hv; [|done]. cbn [negb].
  apply Forall_forallb in Ht, Hv. destruct (lowercase_ok _ Ht) as [Hl1 Hl2].
  rewrite ascii_from_utf8 by (by apply token_ascii). rewrite ascii_from_utf8 by (by apply value_ascii).
  intros [= <- <-]. split.
  - split_and!; [|done|done]. intros E. apply Hne. by destruct (take colon line).
  - split; [done|]. by destruct (trim_spec (drop (S colon) line)) as (p & q & _ & ?).
Qed.

Lemma drop_after (a : list Z) c b : drop (S (length a)) (a ++ c :: b) = b.
Proof. induction a as [|x a IH]; [done|]. cbn [length app drop]. apply IH. Qed.

(** A header that was kept is read back as it was kept. *)
Lemma parse_header_back n v :
  name_ok n -> Forall value_byte v ->
  parse_header (n ++ str ": " ++ v) = Ok (n, trim_optional_whitespace v) /\ clean (n ++ str ": " ++ v).
Proof.
  intros (Hne & Ht & Hl) Hv.
  assert (Hno : forall d, d ∈ [9; 10; 13; 32; 58] -> d ∉ n).
  { intros d Hd Hin. rewrite Forall_forall in Ht. destruct (token_lower d (Ht d Hin)) as (_ & _ & H). done. }
  change (str ": ") with [58; 32]. cbn [app]. split.
  - assert (Hs : forall c, c ∈ [9; 32] -> starts_with c (n ++ 58 :: 32 :: v) = false).
    { intros c Hc. rewrite starts_with_app by done. destruct n as [|d n]; [done|].
      apply bool_decide_false. intros [= ->]. apply (Hno c); [set_solver|left]. }
    unfold parse_header, mbind, result_bind, ok_or.
    rewrite !Hs, find_char_app by (set_solver || (apply Hno; set_solver)). cbn [orb].
    rewrite take_app_length, bool_decide_false by done. rewrite (Forall_to_forallb _ _ Ht). cbn [orb negb].
    rewrite (drop_after n 58 (32 :: v)).
    rewrite trim_space. destruct (trim_spec v) as (p & q & Ev & _).
    assert (Hv' : Forall value_byte (trim_optional_whitespace v))
      by (rewrite Ev in Hv; rewrite !Forall_app in Hv; tauto).
    rewrite (Forall_to_forallb _ _ Hv'), Hl. cbn [negb].
    rewrite ascii_from_utf8 by (by apply token_ascii). by rewrite ascii_from_utf8 by (by apply value_ascii).
  - destruct (value_ascii v Hv) as [_ [H10 H13]].
    split; rewrite not_elem_of_app, !not_elem_of_cons; split_and!; try done; apply Hno; set_solver.
Qed.

(** * Requests that were read *)

Definition request_ok (r : ProviderRequest) : Prop :=
  method r <> [] /\ method r <> str "CONNECT" /\
  Forall (fun b => is_ascii_uppercase b = true) (method r) /\
  starts_with 47 (target r) = true /\ Forall (fun b => is_ascii_graphic b = true) (target r) /\
  Forall (fun h => name_ok (fst h) /\ value_ok (snd h)) (headers r) /\
  len (headers r) <= MAX_PROVIDER_HEADER_LINES.

Lemma graphic_ascii t : Forall (fun b => is_ascii_graphic b = true) t -> ascii t /\ clean t /\ (32 ∉ t).
Proof.
  intros Hf. split_and!.
  - eapply Forall_impl; [exact Hf|]. unfold is_ascii_graphic, in_range. intros b Hb. bool_prop. lia.
  - split; intros Hin; rewrite Forall_forall in Hf; by specialize (Hf _ Hin).
  - intros Hin. rewrite Forall_forall in Hf. by specialize (Hf _ Hin).
Qed.

Lemma uppercase_graphic b : is_ascii_uppercase b = true -> is_ascii_graphic b = true.
Proof. unfold is_ascii_uppercase, is_ascii_graphic, in_range. bool_prop. lia. Qed.

Definition line_ok (m t : list Z) : Prop :=
  m <> [] /\ m <> str "CONNECT" /\ Forall (fun b => is_ascii_uppercase b = true) m /\
  starts_with 47 t = true /\ Forall (fun b => is_ascii_graphic b = true) t.

Lemma provider_line_ok line m t : parse_provider_line line = Ok (m, t) -> line_ok m t.
Proof.
  unfold parse_provider_line, mbind, result_bind, ok_or.
  destruct (split_on 32 line) as [|m' [|t' [|v [|? ?]]]]; try done.
  destruct (bool_decide (m' = [])) eqn:Em; [done|]. destruct (bool_decide (t' = [])) eqn:Et; [done|].
  destruct (bool_decide (v = [])); [done|]. cbn [orb].
  destruct (bool_decide (v = str "HTTP/1.1")); [|done]. cbn [negb].
  destruct (bool_decide (m' = str "CONNECT")) eqn:Ec; [done|].
  destruct (forallb is_ascii_uppercase m') eqn:Eu; [|done].
  destruct (starts_with 47 t') eqn:Es; [|done]. destruct (forallb is_ascii_graphic t') eqn:Eg; [|done].
  cbn [orb negb]. apply Forall_forallb in Eu, Eg.
  assert (Hm : Forall (fun b => is_ascii_graphic b = true) m')
    by (eapply Forall_impl; [exact Eu|apply uppercase_graphic]).
  rewrite !ascii_from_utf8 by (by apply graphic_ascii). intros [= <- <-].
  apply bool_decide_eq_false in Em, Ec. done.
Qed.

Lemma provider_line_back m t :
  line_ok m t ->
  parse_provider_line (m ++ [32] ++ t ++ str " HTTP/1.1") = Ok (m, t) /\
  clean (m ++ [32] ++ t ++ str " HTTP/1.1").
Proof.
  intros (Hne & Hc & Hu & Hs & Hg).
  assert (Hm : Forall (fun b => is_ascii_graphic b = true) m)
    by (eapply Forall_impl; [exact Hu|apply uppercase_graphic]).
  destruct (graphic_ascii m Hm) as (Am & [M10 M13] & M32), (graphic_ascii t Hg) as (At & [T10 T13] & T32).
  split.
  - unfold parse_provider_line. change (str " HTTP/1.1") with (32 :: str "HTTP/1.1"). cbn [app].
    rewrite !split_on_app, split_on_none by (done || (vm_compute; set_solver)).
    rewrite (bool_decide_false (m = [])), (bool_decide_false (m = str "CONNECT")) by done.
    rewrite (bool_decide_false (t = [])) by (by intros ->).
    rewrite (Forall_to_forallb _ _ Hu), (Forall_to_forallb _ _ Hg), Hs. cbn [orb negb].
    unfold mbind, result_bind, ok_or. by rewrite !ascii_from_utf8.
  - split; rewrite !not_elem_of_app; split_and!; try done; vm_compute; set_solver.
Qed.

Lemma parse_headers_ok acc lines hs :
  Forall (fun h => name_ok (fst h) /\ value_ok (snd h)) acc -> len acc <= MAX_PROVIDER_HEADER_LINES ->
  parse_headers acc lines = Ok hs ->
  Forall (fun h => name_ok (fst h) /\ value_ok (snd h)) hs /\ len hs <= MAX_PROVIDER_HEADER_LINES.
Proof.
  revert acc; induction lines as [|line lines IH]; intros acc Ha Hl; cbn [parse_headers]; [by intros [= <-]|].
  case_bool_decide; [done|]. destruct (Z.eqb_spec (len acc) MAX_PROVIDER_HEADER_LINES) as [|Hne]; [done|].
  unfold mbind, result_bind. destruct (parse_header (strip_cr line)) as [[n v]|] eqn:E; [|done].
  apply parse_header_ok in E. apply IH; [apply Forall_app; split; [done|by constructor]|].
  rewrite len_app. change (len [(n, v)]) with 1. lia.
Qed.

Lemma provider_parse_ok bytes r : provider_parse bytes = Ok r -> request_ok r.
Proof.
  unfold provider_parse, mbind, result_bind. destruct (_ <? _); [done|].
  destruct (stray_newlines false bytes); [done|]. destruct (split_on 10 bytes) as [|line lines]; [done|].
  destruct (parse_provider_line _) as [[m t]|] eqn:El; [|done].
  destruct (parse_headers [] lines) as [hs|] eqn:Eh; [|done]. intros [= <-].
  apply provider_line_ok in El as (? & ? & ? & ? & ?).
  apply parse_headers_ok in Eh as [? ?]; [|done|vm_compute; discriminate]. done.
Qed.

(** * What leaves the host *)

(** An identity of the broker: a credential from its constructor, and a
    destination from its own. *)
Definition identity_ok (i : ProviderIdentity) : Prop :=
  credential_new (scheme (credential i)) (secret (credential i)) = Ok (credential i) /\
  exists host, destination_new host (d_port (upstream i)) (d_scope (upstream i)) = Ok (upstream i) /\
    0 <= d_port (upstream i) <= u16_max.

Definition forwarded_headers (r : ProviderRequest) (i : ProviderIdentity) : list (list Z * list Z) :=
  [(str "host", host_header (upstream i));
   (str (header_name (scheme (credential i))),
    trim_optional_whitespace (header_value (scheme (credential i)) (secret (credential i))));
   (str "connection", str "close")]
  ++ filter (fun h => fst h ∉ DROPPED_REQUEST_HEADERS) (headers r).

Lemma graphic_value t : Forall (fun b => is_ascii_graphic b = true) t -> value_ok t.
Proof.
  intros Hf. split; [eapply Forall_impl; [exact Hf|]; intros b Hb; unfold value_byte; by rewrite Hb|].
  assert (Hn : forall b, is_ascii_graphic b = true -> is_ows b = false)
    by (unfold is_ascii_graphic, is_ows, in_range; intros b; bool_prop; lia).
  rewrite Forall_forall in Hf. unfold trim_optional_whitespace.
  rewrite (trim_start_id t) by (intros b Hb; apply Hn, Hf; destruct t; [done|injection Hb as ->; left]).
  rewrite trim_start_id; [by rewrite reverse_involutive|].
  intros b Hb. apply Hn, Hf, elem_of_reverse. destruct (reverse t); [done|]. injection Hb as ->. left.
Qed.

Lemma join_text_graphic sep ps :
  is_ascii_graphic sep = true -> Forall (Forall (fun b => is_ascii_graphic b = true)) ps ->
  Forall (fun b => is_ascii_graphic b = true) (join_text sep ps).
Proof.
  intros Hs. induction 1 as [|p ps Hp Hps IH]; [constructor|]. cbn [join_text]. destruct ps; [done|].
  apply Forall_app. split; [done|]. by constructor.
Qed.

Lemma dec_graphic n : 0 <= n -> Forall (fun b => is_ascii_graphic b = true) (dec n).
Proof.
  intros Hn. unfold dec. rewrite (proj2 (Z.ltb_ge n 0)) by lia. destruct (dec_nat_spec n Hn) as (Hf & _).
  eapply Forall_impl; [exact Hf|]. intros b Hb%digit_range. unfold is_ascii_graphic, in_range. bool_prop. lia.
Qed.

Lemma v4_graphic o : addr_ok (V4 o) -> Forall (fun b => is_ascii_graphic b = true) (v4_to_string o).
Proof.
  intros [_ Hf]. apply join_text_graphic; [done|]. apply Forall_fmap.
  eapply Forall_impl; [exact Hf|]. intros b [Hb _]. by apply dec_graphic.
Qed.

Lemma hex_graphic g : 0 <= g <= 65535 -> Forall (fun b => is_ascii_graphic b = true) (hex_group g).
Proof.
  intros Hg. unfold hex_group.
  assert (Hd : forall d, 0 <= d < 16 -> is_ascii_graphic (hex_digit d) = true)
    by (intros d Hd; unfold hex_digit, is_ascii_graphic, in_range; destruct (Z.ltb_spec d 10); bool_prop; lia).
  assert (Hds : Forall (fun d => is_ascii_graphic (hex_digit d) = true)
    [g / 4096; g / 256 mod 16; g / 16 mod 16; g mod 16]).
  { repeat constructor; apply Hd; try (apply Z.mod_pos_bound; lia).
    split; [apply Z.div_pos; lia|apply Z.div_lt_upper_bound; lia]. }
  repeat case_match; apply Forall_fmap; try apply Forall_drop; exact Hds.
Qed.

Lemma v6_graphic s : addr_ok (V6 s) -> Forall (fun b => is_ascii_graphic b = true) (v6_to_string s).
Proof.
  intros Hok. pose proof (mapped_exact s Hok) as Hm. unfold v6_to_string.
  destruct (to_ipv4_mapped s) as [o|].
  { apply Forall_app. split; [by repeat constructor|]. apply v4_graphic, Hm. }
  destruct (zero_span _ _ _ _) as [start length]. destruct Hok as [_ Hf].
  assert (Hj : forall l, Forall (fun g => 0 <= g <= 65535) l ->
    Forall (fun b => is_ascii_graphic b = true) (join_text 58 (hex_group <$> l))).
  { intros l Hl. apply join_text_graphic; [done|]. apply Forall_fmap. eapply Forall_impl; [exact Hl|apply hex_graphic]. }
  case_match; [|by apply Hj]. rewrite !Forall_app. split_and!; [|by repeat constructor|];
    apply Hj; [by apply Forall_take|by apply Forall_drop].
Qed.

Lemma host_header_graphic d host :
  destination_new host (d_port d) (d_scope d) = Ok d -> 0 <= d_port d ->
  Forall (fun b => is_ascii_graphic b = true) (host_header d).
Proof.
  unfold destination_new, mbind, result_bind. destruct (d_port d =? 0); [done|].
  destruct (parse_host host) as [h|] eqn:Eh; [|done]. intros [= E] Hp.
  assert (Hh : d_host d = h) by (by rewrite <- E). unfold host_header. rewrite Hh.
  assert (Hg : Forall (fun b => is_ascii_graphic b = true)
    match h with Name n => n | Address (V6 s) => [91] ++ v6_to_string s ++ [93] | Address (V4 o) => v4_to_string o end).
  { destruct h as [n|a].
    - apply parse_host_name in Eh as (Hd & _ & ->). apply dns_chars in Hd as [_ Hf]. apply Forall_fmap.
      eapply Forall_impl; [exact Hf|]. intros c Hc. unfold compose, lower_char.
      unfold name_char, is_ascii_alphanumeric, is_ascii_digit, is_ascii_lowercase, is_ascii_uppercase,
        is_ascii_graphic, in_range in *.
      destruct ((65 <=? c) && (c <=? 90)) eqn:Eu; bool_prop; lia.
    - apply parse_host_address in Eh as [Ha _]. destruct a as [o|s]; [by apply v4_graphic|].
      rewrite !Forall_app. split_and!; [by repeat constructor|by apply v6_graphic|by repeat constructor]. }
  destruct (d_port d =? _); [done|]. rewrite !Forall_app. split_and!; [done|by repeat constructor|].
  by apply dec_graphic.
Qed.

Lemma credential_value i : identity_ok i ->
  Forall value_byte (header_value (scheme (credential i)) (secret (credential i))).
Proof.
  intros [Hc _]. unfold credential_new in Hc. destruct (_ || _); [done|].
  destruct (forallb _ (utf8 _)) eqn:Hf; [|done].
  assert (Hs : Forall value_byte (secret (credential i))).
  { pose proof (class_bytes (fun byte => is_ascii_graphic byte || (byte =? 32)) (secret (credential i))) as Hu.
    rewrite Hu in Hf; [|intros b Hb; unfold is_ascii_graphic, in_range in Hb; bool_prop; lia|done].
    apply Forall_forallb in Hf. eapply Forall_impl; [exact Hf|]. intros b Hb.
    unfold value_byte, is_ows. bool_prop. tauto. }
  destruct (scheme (credential i)); [done|]. apply Forall_app. split; [by repeat constructor|done].
Qed.

Lemma lines_cons (a : list Z) ls : mjoin (a :: ls) = a ++ mjoin ls.
Proof. done. Qed.

(** The joined form of a head, and its terminator. *)
Lemma lines_then_blank first lines :
  first ++ CRLF ++ mjoin ((fun l => l ++ CRLF) <$> lines) ++ CRLF = crlf_join first lines ++ HEAD_TERMINATOR.
Proof.
  revert first; induction lines as [|l lines IH]; intros first.
  - unfold crlf_join. cbn. by rewrite app_nil_r.
  - rewrite crlf_join_cons, fmap_cons, lines_cons, <- !app_assoc, (IH l). done.
Qed.

Definition header_text (h : list Z * list Z) : list Z := fst h ++ str ": " ++ snd h.

Lemma surviving_lines hs :
  mjoin ((fun h => if bool_decide (fst h ∈ DROPPED_REQUEST_HEADERS) then []
                   else fst h ++ str ": " ++ snd h ++ CRLF) <$> hs) =
  mjoin ((fun l => l ++ CRLF) <$> (header_text <$> filter (fun h => fst h ∉ DROPPED_REQUEST_HEADERS) hs)).
Proof.
  induction hs as [|h hs IH]; [done|]. rewrite fmap_cons, lines_cons, IH, filter_cons.
  case_bool_decide; case_decide; try done. rewrite !fmap_cons, lines_cons. f_equal.
  unfold header_text. by rewrite <- !app_assoc.
Qed.

Lemma upstream_head_lines r i :
  upstream_head r i =
  crlf_join (method r ++ [32] ++ target r ++ str " HTTP/1.1")
    ([str "host: " ++ host_header (upstream i); header_line (credential i); str "connection: close"]
     ++ (header_text <$> filter (fun h => fst h ∉ DROPPED_REQUEST_HEADERS) (headers r)))
  ++ HEAD_TERMINATOR.
Proof.
  rewrite <- lines_then_blank. unfold upstream_head. rewrite surviving_lines.
  rewrite fmap_app, join_app, !fmap_cons, !lines_cons. cbn [fmap list_fmap mjoin list_join].
  by rewrite <- !app_assoc.
Qed.

Lemma forwarded_lines r i :
  request_ok r -> identity_ok i ->
  Forall2 (fun line h => parse_header line = Ok h /\ clean line)
    ([str "host: " ++ host_header (upstream i); header_line (credential i); str "connection: close"]
     ++ (header_text <$> filter (fun h => fst h ∉ DROPPED_REQUEST_HEADERS) (headers r)))
    (forwarded_headers r i).
Proof.
  intros (_ & _ & _ & _ & _ & Hh & _) Hi. pose proof Hi as (_ & host & Hd & Hp & _).
  assert (Hn : forall s, (s = "host" \/ s = "x-api-key" \/ s = "authorization" \/ s = "connection")%string -> name_ok (str s))
    by (intros s [->|[->|[-> | ->]]]; (split; [done|]); (split; [by apply Forall_forallb|done])).
  unfold forwarded_headers. cbn [app]. constructor; [|constructor; [|constructor]].
  - pose proof (graphic_value _ (host_header_graphic _ _ Hd Hp)) as [Hv Et].
    destruct (parse_header_back (str "host") _ (Hn "host"%string ltac:(auto)) Hv) as [E Hc]. rewrite Et in E. done.
  - apply parse_header_back; [apply Hn; destruct (scheme _); cbn; auto|by apply credential_value].
  - apply (parse_header_back (str "connection") (str "close")); [apply Hn; auto|].
    by apply (Forall_forallb (fun b => is_ascii_graphic b || is_ows b)).
  - apply Forall2_fmap_l, Forall_Forall2_diag, Forall_forall. intros [n v] [_ Hin]%list_elem_of_filter.
    rewrite Forall_forall in Hh. destruct (Hh _ Hin) as [Hnm [Hv Et]]. cbn [fst snd] in *.
    destruct (parse_header_back n v Hnm Hv) as [E1 E2]. rewrite Et in E1. done.
Qed.

Lemma filter_none {A} (P : A -> Prop) `{!forall x, Decision (P x)} l :
  (forall x, x ∈ l -> ~ P x) -> filter P l = [].
Proof.
  intros Hno. induction l as [|x l IH]; [done|]. rewrite filter_cons, decide_False by (apply Hno; left).
  apply IH. intros y Hy. apply Hno. by right.
Qed.

(** The headers a credential travels in. *)
Definition is_credential (h : list Z * list Z) : Prop := fst h = str "x-api-key" \/ fst h = str "authorization".

#[export] Instance is_credential_dec h : Decision (is_credential h).
Proof. unfold is_credential. apply _. Defined.

Lemma dropped_names n :
  n = str "x-api-key" \/ n = str "authorization" \/ n = str "host" -> n ∈ DROPPED_REQUEST_HEADERS.
Proof.
  intros [->|[-> | ->]]; apply (bool_decide_eq_true_1 (_ ∈ DROPPED_REQUEST_HEADERS)); vm_compute; reflexivity.
Qed.

(** C35: what the provider reads: the head the broker sends is one request line and
    header lines in the broker's own grammar, ended by its only blank line; the
    request line is the one that was parsed, the headers are the broker's host,
    its credential, [connection: close] and those of the workload that are not
    dropped, and among them there is exactly one credential, the broker's, and
    exactly one host. *)
Theorem forwarded_head_exact bytes r i :
  provider_parse bytes = Ok r -> identity_ok i ->
  exists first lines,
    upstream_head r i = crlf_join first lines ++ HEAD_TERMINATOR /\ Forall clean (first :: lines) /\
    parse_provider_line first = Ok (method r, target r) /\
    Forall2 (fun line h => parse_header line = Ok h) lines (forwarded_headers r i) /\
    filter is_credential (forwarded_headers r i) =
      [(str (header_name (scheme (credential i))),
        trim_optional_whitespace (header_value (scheme (credential i)) (secret (credential i))))] /\
    filter (fun h => fst h = str "host") (forwarded_headers r i) =
      [(str "host", host_header (upstream i))].
Proof.
  intros Hr%provider_parse_ok Hi. pose proof (forwarded_lines r i Hr Hi) as Hl.
  destruct Hr as (H1 & H2 & H3 & H4 & H5 & _).
  destruct (provider_line_back (method r) (target r)) as [Hline Hclean]; [done|].
  eexists _, _. split; [apply upstream_head_lines|]. split_and!.
  - constructor; [done|]. apply Forall_forall. intros l Hin.
    apply list_elem_of_lookup in Hin as [k Hk]. destruct (Forall2_lookup_l _ _ _ _ _ Hl Hk) as (h & _ & _ & Hc). done.
  - done.
  - eapply Forall2_impl; [exact Hl|]. by intros l h [? _].
  - unfold forwarded_headers. rewrite filter_app.
    rewrite (filter_none _ (filter _ (headers r))).
    + rewrite app_nil_r. destruct (scheme (credential i)); reflexivity.
    + intros [n v] [Hn _]%list_elem_of_filter [E|E]; apply Hn; rewrite E; apply dropped_names; auto.
  - unfold forwarded_headers. rewrite filter_app.
    rewrite (filter_none _ (filter _ (headers r))).
    + rewrite app_nil_r. destruct (scheme (credential i)); reflexivity.
    + intros [n v] [Hn _]%list_elem_of_filter E; apply Hn; rewrite E; apply dropped_names; auto.
Qed.

Definition sample_destination : Destination := mkDestination (Name (str "api.example.com")) 443 PublicScope.
Definition sample_sentinel : SessionSentinel :=
  mkSentinel (str SENTINEL_PREFIX ++ replicate 64 97).
Definition sample_identity : ProviderIdentity :=
  mkIdentity sample_destination sample_sentinel (mkCredential ApiKeyHeader (str "sk-real")).
Definition sample_request : ProviderRequest :=
  mkRequest (str "POST") (str "/v1/messages")
    [(str "x-api-key", token sample_sentinel); (str "content-length", str "+5")].
Definition sample_request_head : list Z :=
  str "POST /v1/messages HTTP/1.1" ++ CRLF ++ str "X-Api-Key: " ++ token sample_sentinel ++ CRLF
  ++ str "Content-Length:  +5 ".

Lemma forwarded_head_exact_witness :
  exists first lines,
    upstream_head sample_request sample_identity = crlf_join first lines ++ HEAD_TERMINATOR /\
    Forall clean (first :: lines) /\
    parse_provider_line first = Ok (str "POST", str "/v1/messages") /\
    Forall2 (fun line h => parse_header line = Ok h) lines (forwarded_headers sample_request sample_identity) /\
    filter is_credential (forwarded_headers sample_request sample_identity)
      = [(str "x-api-key", str "sk-real")] /\
    filter (fun h => fst h = str "host") (forwarded_headers sample_request sample_identity)
      = [(str "host", str "api.example.com")].
Proof.
  apply (forwarded_head_exact sample_request_head sample_request sample_identity).
  - vm_compute. reflexivity.
  - split; [vm_compute; reflexivity|]. exists (str "api.example.com"). split; [vm_compute; reflexivity|].
    vm_compute. split; discriminate.
Defined.

(** A length with a plus sign is taken as a number and sent on as it was
    written, where the provider may read no length or refuse the request. *)
Theorem signed_length_is_forwarded :
  provider_parse sample_request_head = Ok sample_request /\
  authenticate sample_request sample_sentinel = Ok tt /\
  body_length sample_request = Ok 5 /\
  In (str "content-length", str "+5") (forwarded_headers sample_request sample_identity).
Proof. split_and!; try (vm_compute; reflexivity). vm_compute. tauto. Qed.

(** * The decision on the credential *)

Definition presented (h : list Z * list Z) : list Z :=
  if bool_decide (fst h = str "x-api-key") then snd h
  else default (snd h) (strip_prefix (str "Bearer ") (snd h)).

(** The two searches of [authenticate], as one over the credential headers. *)
Lemma candidates_exact r :
  let candidates := values r "x-api-key" ++
    ((fun value => default value (strip_prefix (str "Bearer ") value)) <$> values r "authorization") in
  candidates ≡ₚ presented <$> filter is_credential (headers r).
Proof.
  cbv zeta. unfold values. induction (headers r) as [|[n v] hs IH]; [done|].
  rewrite !filter_cons. cbn [fst].
  assert (Hne : str "x-api-key" <> str "authorization") by (vm_compute; discriminate).
  destruct (decide (is_credential (n, v))) as [Hc|Hc]; unfold is_credential in Hc; cbn [fst] in Hc;
    destruct (decide (n = str "x-api-key")) as [->|Hk]; try tauto.
  - rewrite decide_False by done. rewrite !fmap_cons. cbn [snd app].
    unfold presented at 1. cbn [fst snd]. rewrite bool_decide_true by done. by rewrite IH.
  - destruct Hc as [|Hb]; [done|]. rewrite decide_True by done. rewrite !fmap_cons. cbn [snd].
    unfold presented at 1. cbn [fst snd]. rewrite bool_decide_false by done.
    rewrite <- Permutation_middle. by rewrite IH.
  - rewrite decide_False by tauto. exact IH.
Qed.

Lemma sentinel_matches_exact s p : sentinel_matches s p = true <-> p = utf8 (token s).
Proof.
  unfold sentinel_matches. destruct (Z.eqb_spec (len p) (len (utf8 (token s)))) as [E|E]; cbn [negb].
  - rewrite bool_decide_eq_true. split; congruence.
  - split; [done|]. intros ->. done.
Qed.

(** A request passes exactly when it carries one credential header in all and
    its value, without the bearer scheme, is the session's sentinel; otherwise
    the refusal tells none, one that is foreign, and several apart. *)
Theorem authenticate_exact r s :
  match authenticate r s, filter is_credential (headers r) with
  | Ok _, [h] => utf8 (presented h) = utf8 (token s)
  | Err ForeignCredential, [h] => utf8 (presented h) <> utf8 (token s)
  | Err MissingCredential, [] => True
  | Err AmbiguousCredential, _ :: _ :: _ => True
  | _, _ => False
  end.
Proof.
  pose proof (candidates_exact r) as Hp. cbv zeta in Hp. unfold authenticate.
  set (bearers := (fun value => _) <$> values r "authorization") in *.
  set (keys := values r "x-api-key") in *. rewrite <- len_app.
  assert (Hl : length (keys ++ bearers) = length (filter is_credential (headers r)))
    by (rewrite Hp; apply length_fmap).
  destruct (keys ++ bearers) as [|c [|d cs]] eqn:Ec.
  - destruct (filter is_credential (headers r)); done.
  - destruct (filter is_credential (headers r)) as [|h [|? ?]]; try done.
    symmetry in Hp. apply Permutation_singleton_r in Hp. injection Hp as Hp. cbn [last].
    change (len [c]) with 1. cbv iota. rewrite <- Hp.
    destruct (sentinel_matches s (utf8 (presented h))) eqn:E.
    + by apply sentinel_matches_exact in E.
    + intros H. by rewrite (proj2 (sentinel_matches_exact _ _) H) in E.
  - destruct (filter is_credential (headers r)) as [|h [|h' hs]]; try done.
    assert (2 <= len (c :: d :: cs)) by (rewrite !len_cons; pose proof (len_nonneg cs); lia).
    destruct (len (c :: d :: cs)) as [|[q|q|]|]; try lia; destruct (last (c :: d :: cs)); done.
Qed.

(** * The refusal ledger *)

Lemma tail_drop {A} (l : list A) k : tail (drop k l) = drop (S k) l.
Proof. revert k; induction l as [|x l IH]; intros [|k]; try done. cbn [drop]. apply IH. Qed.

(** Whatever is refused, the ledger counts every refusal and holds the last
    sixty-four in order, each with its position among all. *)
Theorem ledger_exact rs :
  len rs <= u64_max ->
  foldl ledger_record ledger_empty rs =
  (len rs, drop (length rs - 64) (imap (fun i r => mkRefusal r (precedes_any_dial r) (Z.of_nat i)) rs)).
Proof.
  induction rs as [|r rs IH] using rev_ind; [done|]. rewrite len_app. change (len [r]) with 1. intros Hl.
  rewrite foldl_app, IH by (pose proof (len_nonneg rs); lia). cbn [foldl]. unfold ledger_record.
  rewrite imap_app. cbn [imap]. set (L := imap _ rs).
  assert (HL : length L = length rs) by apply length_imap.
  rewrite length_app. cbn [length]. f_equal.
  - unfold wrap_u64. apply Z.mod_small. pose proof (len_nonneg rs). lia.
  - assert (Hd : len (drop (length rs - 64) L) = Z.min 64 (len rs))
      by (unfold len; rewrite length_drop, HL; lia).
    rewrite Hd. unfold MAX_LEDGER_ENTRIES, len in *.
    destruct (Z.eqb_spec (Z.min 64 (Z.of_nat (length rs))) 64) as [E|E].
    + rewrite tail_drop, drop_app_le by lia. replace (length rs + 1 - 64)%nat with (S (length rs - 64)) by lia.
      unfold compose. by rewrite Nat.add_0_r.
    + replace (length rs - 64)%nat with 0%nat by lia. replace (length rs + 1 - 64)%nat with 0%nat by lia.
      unfold compose. by rewrite Nat.add_0_r.
Qed.

(** * Bodies *)

Lemma fill_body_exact fuel body length s :
  len body <= length -> length - len body < Z.of_nat fuel ->
  exists r s', fill_body fuel body length s = Some (r, s') /\
    match r with
    | Ok whole => len whole = length /\ body ++ stream s = whole ++ stream s'
    | Err RequestFramingRejected => len (body ++ stream s) < length
    | Err e => e = HeadLate \/ e = ClientLost
    end.
Proof.
  revert body s; induction fuel as [|fuel IH]; intros body s Hle Hf; [lia|]. cbn [fill_body].
  destruct (Z.ltb_spec (len body) length) as [Hlt|Hge].
  2:{ exists (Ok body), s. split; [done|]. split; [lia|done]. }
  set (want := Z.min (length - len body) READ_CHUNK_BYTES).
  assert (Hw : 0 < want <= length - len body) by (unfold want, READ_CHUNK_BYTES; lia).
  pose proof (socket_read_stream (Z.to_nat want) s ltac:(lia)) as Hs.
  assert (Hb : match socket_read (Z.to_nat want) s with (SocketData bytes, _) => len bytes <= want | _ => True end).
  { destruct s as [|[bytes| |] s]; cbn [socket_read]; try done; [rewrite len_nil; lia|].
    unfold len. rewrite length_take. lia. }
  destruct (socket_read (Z.to_nat want) s) as [[[|b bytes]| |] s1].
  - exists (Err RequestFramingRejected), s1. split; [done|]. by rewrite Hs, app_nil_r.
  - assert (1 <= len (b :: bytes)) by (rewrite len_cons; pose proof (len_nonneg bytes); lia).
    destruct (IH (body ++ b :: bytes) s1) as (r & s' & E & Hr); [rewrite len_app; lia..|].
    exists r, s'. split; [exact E|]. by rewrite Hs, app_assoc.
  - exists (Err HeadLate), s1. auto.
  - exists (Err ClientLost), s1. auto.
Qed.

(** A body always reads to an answer; the body answered has the framed length
    and is the front of what was sent, more early bytes than framed are refused,
    and an early end is refused as a framing error. *)
Theorem read_body_exact client early length :
  0 <= length ->
  exists r s', read_body client early length = Some (r, s') /\
    match r with
    | Ok body => len body = length /\ early ++ stream (reads client) = body ++ stream s'
    | Err RequestFramingRejected => length < len early \/ len (early ++ stream (reads client)) < length
    | Err e => e = HeadLate \/ e = ClientLost
    end.
Proof.
  intros Hl. unfold read_body. destruct (Z.ltb_spec length (len early)).
  { exists (Err RequestFramingRejected), (reads client). auto. }
  destruct (Z.eqb_spec (len early) length); [exists (Ok early), (reads client); auto|].
  destruct (accepts_deadline client); cbn [negb]; [|exists (Err ClientLost), (reads client); auto].
  destruct (fill_body_exact (S (Z.to_nat (length - len early))) early length (reads client)) as (r & s' & E & Hr);
    [lia..|].
  exists r, s'. split; [done|]. destruct r as [body|[]]; auto.
Qed.

(** Reading the head of a provider request, as [read_request_exact] has it for
    the tunnel. *)
Lemma read_head_exact client :
  accepts_deadline client = true ->
  (exists r s', read_head client = Some (r, s')) /\
  (forall request early s', read_head client = Some (Ok (request, early), s') ->
     exists head, framed (stream (reads client)) head (early ++ stream s') /\
       provider_parse head = Ok request).
Proof.
  intros Hd. unfold read_head. rewrite Hd. cbn [negb]. split.
  - destruct (collect_answers MAX_PROVIDER_HEAD_BYTES provider_parse HeadOverBound HeadMalformed HeadLate
      ClientLost (Z.to_nat (MAX_PROVIDER_HEAD_BYTES + 2)) [] (reads client)) as [[r s'] E]; [..|eauto];
      unfold MAX_PROVIDER_HEAD_BYTES; rewrite ?len_nil; lia.
  - intros request early s' H. by apply collect_sound in H.
Qed.
