(* ===== verification/EgressBroker.v ===== *)
(** The egress broker ([automonique-egress-broker/src/lib.rs]): configuration,
    the two connection handlers, the connection slots and the window of refused
    destinations.

    A handler is the list of its effects in order.  What the operating system,
    the resolver, the peer sockets and TLS answer is a [World] given to the
    handler; the effects on shared state are interpreted by [apply_effect], so
    handlers that run at the same time are an interleaving of their effects. *)

From S2P Require Import Prelude Text Codec SandboxValues Address Url Egress EgressRequest EgressProvider.

Definition MAX_CONNECTION_LIMIT : Z := 64.
Definition MAX_RESOLVED_ADDRESSES : Z := 4.
Definition MAX_REFUSED_DESTINATION_EVENTS : Z := 256.

(** Durations in nanoseconds. *)
Definition from_millis (n : Z) : Z := n * 1000000.
Definition from_secs (n : Z) : Z := n * 1000000000.
Definition MAX_TIMEOUT : Z := from_secs 3600.

(** * Configuration *)

Record BrokerConfig := mkConfig {
  allowlist : DestinationAllowlist;
  cfg_port : Z;
  identity : option ProviderIdentity;
  provider_port : Z;
  max_connections : Z;
  head_timeout : Z;
  connect_timeout : Z;
  idle_timeout : Z
}.

Definition default_config : BrokerConfig :=
  mkConfig deny_all 0 None 0 8 (from_secs 10) (from_secs 10) (from_secs 300).

Inductive BrokerError :=
| ConnectionLimitRejected (limit : Z)
| TimeoutRejected (timeout : Z)
| ListenerRefused
| IdentityHostAlsoTunnelled.

(** The first deadline out of range, in the order they are tried. *)
Fixpoint bad_timeout (timeouts : list Z) : option Z :=
  match timeouts with
  | [] => None
  | t :: ts => if (t <? from_millis 1) || (MAX_TIMEOUT <? t) then Some t else bad_timeout ts
  end.

Definition validate (c : BrokerConfig) : result BrokerError unit :=
  if (max_connections c =? 0) || (MAX_CONNECTION_LIMIT <? max_connections c)
  then Err (ConnectionLimitRejected (max_connections c))
  else match bad_timeout [head_timeout c; connect_timeout c; idle_timeout c] with
       | Some t => Err (TimeoutRejected t)
       | None =>
           match identity c with
           | Some i =>
               if existsb (fun entry => bool_decide (d_host entry = d_host (upstream i)))
                          (entries (allowlist c))
               then Err IdentityHostAlsoTunnelled
               else Ok tt
           | None => Ok tt
           end
       end.

(** * Refused destinations *)

Record RefusedDestination := mkRefused { rd_host : DestinationHost; rd_port : Z }.

#[export] Instance RefusedDestination_eq_dec : EqDecision RefusedDestination.
Proof. solve_decision. Defined.

Record RefusedDestinationState := mkRefusedState {
  rs_sequence : Z;
  history_lost : bool;
  rs_events : list (Z * RefusedDestination)
}.

Definition refused_empty : RefusedDestinationState := mkRefusedState 0 false [].

Definition record_refused (s : RefusedDestinationState) (d : RefusedDestination)
  : RefusedDestinationState :=
  match check_u64 (rs_sequence s + 1) with
  | None => mkRefusedState (rs_sequence s) true []
  | Some seq =>
      let events := rs_events s ++ [(seq, d)] in
      mkRefusedState seq (history_lost s)
        (if MAX_REFUSED_DESTINATION_EVENTS <? len events then tail events else events)
  end.

Inductive RefusedDestinationWindow :=
| Empty
| Unambiguous (destination : RefusedDestination)
| Ambiguous.

(** [RefusedDestinationState::take_since]: the window, and the position the
    cursor is left at. *)
Definition take_since (s : RefusedDestinationState) (cursor : Z) : RefusedDestinationWindow * Z :=
  let end_ := rs_sequence s in
  let start := cursor in
  (if history_lost s || (end_ <? start) then Ambiguous
   else if start =? end_ then Empty
   else match rs_events s with
        | [] => Ambiguous
        | (first_retained, _) :: _ =>
            if sat_u64 (start + 1) <? first_retained then Ambiguous
            else match snd <$> filter (fun e => start < fst e) (rs_events s) with
                 | [] => Ambiguous
                 | first :: observed =>
                     if forallb (fun d => bool_decide (d = first)) observed then Unambiguous first
                     else Ambiguous
                 end
        end, end_).

(** [RefusedDestinationObserver::take_since]: a cursor of another broker's
    stream is refused and not moved. *)
Definition observe_since (same_stream : bool) (s : RefusedDestinationState) (cursor : Z)
  : RefusedDestinationWindow * Z :=
  if negb same_stream then (Ambiguous, cursor) else take_since s cursor.

(** * Effects *)

Inductive Counter :=
| Accepted | Established | DeniedDestination | DeniedScope | RefusedMalformed | RefusedSaturated
| DestinationUnreachable | BytesToDestination | BytesToClient | ProviderForwarded
| ProviderRefusedIdentity | ProviderRefusedOther | RefusedProviderTunnel | BytesToProvider
| BytesFromProvider.

#[export] Instance Counter_eq_dec : EqDecision Counter.
Proof. solve_decision. Defined.

Inductive Refusal := BadRequest | Unauthorized | Forbidden | RequestTimeout | BadGateway | ServiceUnavailable.

Definition status_line (r : Refusal) : string :=
  match r with
  | BadRequest => "HTTP/1.1 400 Bad Request"
  | Unauthorized => "HTTP/1.1 401 Unauthorized"
  | Forbidden => "HTTP/1.1 403 Forbidden"
  | RequestTimeout => "HTTP/1.1 408 Request Timeout"
  | BadGateway => "HTTP/1.1 502 Bad Gateway"
  | ServiceUnavailable => "HTTP/1.1 503 Service Unavailable"
  end.

(** [IdentityRefusal::status] and [is_identity_decision]. *)
Definition refusal_status (r : IdentityRefusal) : Refusal :=
  match r with
  | MissingCredential => Unauthorized
  | ForeignCredential | AmbiguousCredential | TunnelToProviderRefused => Forbidden
  | HeadLate => RequestTimeout
  | UpstreamUnreachable | UpstreamOutOfScope | UpstreamTlsRefused => BadGateway
  | _ => BadRequest
  end.

Definition is_identity_decision (r : IdentityRefusal) : bool :=
  match r with
  | ForeignCredential | MissingCredential | AmbiguousCredential | TunnelToProviderRefused => true
  | _ => false
  end.

Definition SocketAddr : Type := IpAddr * Z.

Inductive Effect :=
| Count (counter : Counter) (n : Z)
| RecordRefusal (refusal : IdentityRefusal)
| RecordDestination (destination : RefusedDestination)
| Answer (status : Refusal) (reason : option IdentityRefusal)
| Resolve (name : list Z) (port : Z)
| Dial (address : SocketAddr)
| Attach (address : SocketAddr)
| AnswerEstablished
| SendUpstream (secure : bool) (address : SocketAddr) (bytes : list Z)
| Tunnel (address : SocketAddr)
| StreamBack (address : SocketAddr).

(** What the world answers to one connection. *)
Record World := mkWorld {
  peer : IpAddr;
  client : Socket;
  resolver : list Z -> Z -> option (list SocketAddr);   (** [to_socket_addrs] *)
  connects : SocketAddr -> bool;                        (** [connect_timeout] *)
  deadlines_installed : bool;                           (** [install_deadlines] *)
  client_takes_answer : bool;                           (** the write of the 200 *)
  upstream_takes_early : bool;                          (** the write of early data *)
  relayed : option (Z * Z);                             (** [relay::relay] *)
  upstream_timeouts : bool;                             (** the deadlines of [establish] *)
  tls_starts : list Z -> bool;                          (** server name and handshake *)
  upstream_takes_request : bool;                        (** the writes of the request *)
  streamed : option Z                                   (** [stream_response] *)
}.

Definition refuse (status : Refusal) : list Effect := [Answer status None].

Definition refuse_identity (r : IdentityRefusal) : list Effect :=
  [RecordRefusal r;
   Count (if is_identity_decision r then ProviderRefusedIdentity else ProviderRefusedOther) 1;
   Answer (refusal_status r) (Some r)].

Definition resolve (w : World) (d : Destination) : list Effect * option (list SocketAddr) :=
  match d_host d with
  | Address address => ([], Some [(address, d_port d)])
  | Name name =>
      ([Resolve name (d_port d)],
       take (Z.to_nat MAX_RESOLVED_ADDRESSES) <$> resolver w name (d_port d))
  end.

(** [dial] and [dial_in_scope]: addresses are tried in order until one answers. *)
Fixpoint dial (w : World) (addresses : list SocketAddr) : list Effect * option SocketAddr :=
  match addresses with
  | [] => ([], None)
  | a :: rest =>
      if connects w a then ([Dial a], Some a)
      else let (es, r) := dial w rest in (Dial a :: es, r)
  end.

Definition in_scope (d : Destination) (addresses : list SocketAddr) : list SocketAddr :=
  filter (fun a => scope_permits (d_scope d) (fst a) = true) addresses.

(** * The tunnel *)

(** [serve] from the dial on: the tunnel's own steps. *)
Definition open_tunnel (w : World) (early_data : list Z) (upstream : SocketAddr) : list Effect :=
  Attach upstream ::
  if negb (deadlines_installed w) then Count DestinationUnreachable 1 :: refuse BadGateway
  else if negb (client_takes_answer w) then [AnswerEstablished]
  else
    AnswerEstablished ::
    (if bool_decide (early_data = []) then [] else [SendUpstream false upstream early_data]) ++
    if negb (bool_decide (early_data = [])) && negb (upstream_takes_early w) then []
    else
      Count Established 1 :: Tunnel upstream ::
      match relayed w with
      | Some (to_destination, to_client) =>
          [Count BytesToDestination (to_destination + len early_data); Count BytesToClient to_client]
      | None => []
      end.

(** [serve] from a permitted destination on. *)
Definition reach (w : World) (destination : Destination) (early_data : list Z) : list Effect :=
  let (resolving, resolved) := resolve w destination in
  resolving ++
  match resolved with
  | None | Some [] => Count DestinationUnreachable 1 :: refuse BadGateway
  | Some addresses =>
      match in_scope destination addresses with
      | [] => Count DeniedScope 1 :: refuse Forbidden
      | reachable =>
          let (dialling, upstream) := dial w reachable in
          dialling ++
          match upstream with
          | None => Count DestinationUnreachable 1 :: refuse BadGateway
          | Some upstream => open_tunnel w early_data upstream
          end
      end
  end.

Definition tunnel_status (e : RequestError) : Refusal :=
  match e with HeadTimedOut => RequestTimeout | _ => BadRequest end.

(** [serve] for a request that was read. *)
Definition decide_tunnel (c : BrokerConfig) (w : World) (request : ConnectRequest) (early_data : list Z)
  : list Effect :=
  let to_provider := match identity c with
                     | Some i => bool_decide (d_host (upstream i) = c_host request)
                     | None => false
                     end in
  if to_provider then
    [Count RefusedProviderTunnel 1; RecordRefusal TunnelToProviderRefused;
     Answer Forbidden (Some TunnelToProviderRefused)]
  else
    match permits (allowlist c) (c_host request) (c_port request) with
    | None =>
        Count DeniedDestination 1
        :: RecordDestination (mkRefused (c_host request) (c_port request)) :: refuse Forbidden
    | Some destination => reach w destination early_data
    end.

(** [serve]; [slot] is whether [Shared::register] granted one. *)
Definition serve (c : BrokerConfig) (slot : bool) (w : World) : list Effect :=
  Count Accepted 1 ::
  if negb (is_loopback (peer w)) then Count DeniedDestination 1 :: refuse Forbidden
  else if negb slot then Count RefusedSaturated 1 :: refuse ServiceUnavailable
  else match read_request (client w) with
       | None => []
       | Some (Err e, _) => Count RefusedMalformed 1 :: refuse (tunnel_status e)
       | Some (Ok (request, early_data), _) => decide_tunnel c w request early_data
       end.

(** * The provider endpoint *)

(** The name TLS is started with. *)
Definition server_name (d : Destination) : list Z :=
  match d_host d with
  | Name name => name
  | Address (V4 o) => v4_to_string o
  | Address (V6 s) => v6_to_string s
  end.

(** [Upstream::establish]: whether the session is wrapped in TLS. *)
Definition establish (w : World) (d : Destination) : result IdentityRefusal bool :=
  if negb (upstream_timeouts w) then Err UpstreamUnreachable
  else if negb (requires_transport_security (d_scope d)) then Ok false
  else if tls_starts w (server_name d) then Ok true else Err UpstreamTlsRefused.

(** [serve_provider] from the socket on. *)
Definition substitute (w : World) (i : ProviderIdentity) (request : ProviderRequest) (body : list Z)
    (socket : SocketAddr) : list Effect :=
  Attach socket ::
  match establish w (upstream i) with
  | Err refusal => refuse_identity refusal
  | Ok secure =>
      let head := upstream_head request i in
      SendUpstream secure socket (head ++ body) ::
      if negb (upstream_takes_request w) then refuse_identity UpstreamUnreachable
      else
        Count ProviderForwarded 1 :: Count BytesToProvider (len head + len body) :: StreamBack socket ::
        match streamed w with Some moved => [Count BytesFromProvider moved] | None => [] end
  end.

(** [serve_provider] from the resolution on. *)
Definition forward (w : World) (i : ProviderIdentity) (request : ProviderRequest) (body : list Z)
  : list Effect :=
  let (resolving, resolved) := resolve w (upstream i) in
  resolving ++
  match resolved with
  | None | Some [] => refuse_identity UpstreamUnreachable
  | Some addresses =>
      match in_scope (upstream i) addresses with
      | [] => refuse_identity UpstreamOutOfScope
      | reachable =>
          let (dialling, socket) := dial w reachable in
          dialling ++
          match socket with
          | None => refuse_identity UpstreamUnreachable
          | Some socket => substitute w i request body socket
          end
      end
  end.

(** [serve_provider] for a head that was read: the credential, the framing and
    the body are decided before anything is resolved. *)
Definition decide_provider (w : World) (i : ProviderIdentity) (request : ProviderRequest)
    (early_body : list Z) (rest : list ReadOutcome) : list Effect :=
  match authenticate request (sentinel i) with
  | Err refusal => refuse_identity refusal
  | Ok _ =>
      match body_length request with
      | Err refusal => refuse_identity refusal
      | Ok length =>
          match read_body (mkSocket (accepts_deadline (client w)) rest) early_body length with
          | None => []
          | Some (Err refusal, _) => refuse_identity refusal
          | Some (Ok body, _) => forward w i request body
          end
      end
  end.

Definition serve_provider (c : BrokerConfig) (slot : bool) (w : World) : list Effect :=
  Count Accepted 1 ::
  match identity c with
  | None => refuse Forbidden
  | Some i =>
      if negb (is_loopback (peer w)) then refuse_identity ClientLost
      else if negb slot then Count RefusedSaturated 1 :: refuse ServiceUnavailable
      else match read_head (client w) with
           | None => []
           | Some (Err refusal, _) => refuse_identity refusal
           | Some (Ok (request, early_body), rest) => decide_provider w i request early_body rest
           end
  end.

(** * Shared state *)

Record Shared := mkShared {
  counters : Counter -> Z;
  ledger : RefusalLedger;
  refused_destination : RefusedDestinationState
}.

Definition shared_new : Shared := mkShared (fun _ => 0) ledger_empty refused_empty.

Definition apply_effect (s : Shared) (e : Effect) : Shared :=
  match e with
  | Count c n =>
      mkShared (fun c' => if bool_decide (c' = c) then wrap_u64 (counters s c + n) else counters s c')
        (ledger s) (refused_destination s)
  | RecordRefusal r => mkShared (counters s) (ledger_record (ledger s) r) (refused_destination s)
  | RecordDestination d => mkShared (counters s) (ledger s) (record_refused (refused_destination s) d)
  | _ => s
  end.

(** * Connection slots *)

Record LiveConnections := mkLive { next_id : Z; open : list Z; stopping : bool }.

(** [Shared::register], [ConnectionSlot::drop] and [Shared::stop_all]; cloning
    the socket is the world's [clones]. *)
Definition register (c : BrokerConfig) (clones : bool) (l : LiveConnections) : option Z * LiveConnections :=
  if stopping l || (max_connections c <=? len (open l)) then (None, l)
  else if negb clones then (None, l)
  else (Some (next_id l), mkLive (wrap_u64 (next_id l + 1)) (next_id l :: open l) (stopping l)).

Definition deregister (id : Z) (l : LiveConnections) : LiveConnections :=
  mkLive (next_id l) (filter (fun x => x <> id) (open l)) (stopping l).

Definition stop_all (l : LiveConnections) : LiveConnections := mkLive (next_id l) (open l) true.

(** The accept loops and the handlers change the slots in any order. *)
Inductive slot_step (c : BrokerConfig) : LiveConnections -> LiveConnections -> Prop :=
| step_register clones l : slot_step c l (snd (register c clones l))
| step_deregister id l : slot_step c l (deregister id l)
| step_stop l : slot_step c l (stop_all l).

Definition live_empty : LiveConnections := mkLive 0 [] false.

(** * What a connection can reach *)

(** The addresses a destination stands for: a literal as written, or the first
    four the resolver answers for the name; and in the destination's scope. *)
Definition reachable_at (w : World) (d : Destination) (a : SocketAddr) : Prop :=
  scope_permits (d_scope d) (fst a) = true /\
  match d_host d with
  | Address address => a = (address, d_port d)
  | Name name =>
      exists addresses, resolver w name (d_port d) = Some addresses /\
        a ∈ take (Z.to_nat MAX_RESOLVED_ADDRESSES) addresses
  end.

(** The network effects a destination allows; the others are not restricted. *)
Definition within (w : World) (d : Destination) (e : Effect) : Prop :=
  match e with
  | Resolve name port => d_host d = Name name /\ port = d_port d
  | Dial a => reachable_at w d a
  | Attach a | SendUpstream _ a _ | Tunnel a | StreamBack a => reachable_at w d a /\ connects w a = true
  | _ => True
  end.

Definition is_network (e : Effect) : bool :=
  match e with
  | Resolve _ _ | Dial _ | Attach _ | SendUpstream _ _ _ | Tunnel _ | StreamBack _ => true
  | _ => false
  end.

Lemma within_local w d e : is_network e = false -> within w d e.
Proof. by destruct e. Qed.

Lemma local_within w d es : Forall (fun e => is_network e = false) es -> Forall (within w d) es.
Proof. intros H. eapply Forall_impl; [exact H|]. apply within_local. Qed.

Lemma refuse_local r : Forall (fun e => is_network e = false) (refuse r).
Proof. by repeat constructor. Qed.

Lemma refuse_identity_local r : Forall (fun e => is_network e = false) (refuse_identity r).
Proof. by repeat constructor. Qed.

Create HintDb local_effects.
#[export] Hint Resolve refuse_local refuse_identity_local local_within : local_effects.
#[export] Hint Constructors Forall : local_effects.

Lemma dial_spec w addrs es r :
  dial w addrs = (es, r) ->
  Forall (fun e => exists a, e = Dial a /\ a ∈ addrs) es /\
  match r with Some a => a ∈ addrs /\ connects w a = true | None => True end.
Proof.
  revert es r; induction addrs as [|a addrs IH]; intros es r; cbn [dial].
  { intros [= <- <-]. split; [constructor|done]. }
  destruct (connects w a) eqn:Ec.
  - intros [= <- <-]. split; [|split; [left|done]]. constructor; [|constructor]. exists a. split; [done|left].
  - destruct (dial w addrs) as [es' r'] eqn:E. intros [= <- <-]. destruct (IH _ _ eq_refl) as [Hes Hr]. split.
    + constructor; [exists a; split; [done|left]|]. eapply Forall_impl; [exact Hes|].
      intros e (b & -> & Hb). exists b. split; [done|by right].
    + destruct r' as [b|]; [|done]. destruct Hr. split; [by right|done].
Qed.

Lemma resolve_spec w d es addrs :
  resolve w d = (es, Some addrs) -> forall a, a ∈ in_scope d addrs -> reachable_at w d a.
Proof.
  unfold resolve, reachable_at, in_scope. destruct (d_host d) as [name|address] eqn:Eh.
  - intros [= <- E]. apply fmap_Some in E as (all & E & ->).
    intros a [Hs Ha]%list_elem_of_filter. eauto.
  - intros [= <- <-]. intros a [Hs ->%list_elem_of_singleton]%list_elem_of_filter. done.
Qed.

(** The shape both handlers share: resolve, keep what is in scope, dial, and go
    on with the address that answered. *)
Lemma reach_forall (P : Effect -> Prop) w d unreachable out_of_scope undialled (k : SocketAddr -> list Effect) :
  (forall name, d_host d = Name name -> P (Resolve name (d_port d))) ->
  (forall a, reachable_at w d a -> P (Dial a)) ->
  Forall P unreachable -> Forall P out_of_scope -> Forall P undialled ->
  (forall a, reachable_at w d a -> connects w a = true -> Forall P (k a)) ->
  Forall P
    (let (resolving, resolved) := resolve w d in
     resolving ++
     match resolved with
     | None | Some [] => unreachable
     | Some addresses =>
         match in_scope d addresses with
         | [] => out_of_scope
         | reachable =>
             let (dialling, upstream) := dial w reachable in
             dialling ++ match upstream with None => undialled | Some upstream => k upstream end
         end
     end).
Proof.
  intros Hres Hdial Hu Ho Hd Hk.
  assert (He : Forall P (fst (resolve w d))).
  { unfold resolve. destruct (d_host d) eqn:E; cbn [fst]; [apply Forall_singleton; auto|apply Forall_nil_2]. }
  destruct (resolve w d) as [es [[|a0 addrs]|]] eqn:Er; cbn [fst] in He;
    apply Forall_app; (split; [done|]); try done.
  pose proof (resolve_spec w d es (a0 :: addrs) Er) as Hr.
  destruct (in_scope d (a0 :: addrs)) as [|b bs]; [done|].
  destruct (dial w (b :: bs)) as [ds u] eqn:Ed. apply dial_spec in Ed as [Hds Hu'].
  apply Forall_app. split.
  - eapply Forall_impl; [exact Hds|]. intros e (a & -> & Ha). auto.
  - destruct u as [u|]; [|done]. destruct Hu'. apply Hk; auto.
Qed.

Lemma open_tunnel_within w d early a :
  reachable_at w d a -> connects w a = true -> Forall (within w d) (open_tunnel w early a).
Proof.
  intros Hr Hc. unfold open_tunnel. constructor; [done|].
  destruct (deadlines_installed w), (client_takes_answer w); cbn [negb];
    try (by apply local_within; repeat constructor).
  constructor; [done|]. apply Forall_app. split; [case_bool_decide; [apply Forall_nil_2|by apply Forall_singleton]|].
  destruct (_ && _); [apply Forall_nil_2|]. apply Forall_cons. split; [done|]. apply Forall_cons. split; [done|].
  apply local_within. destruct (relayed w) as [[x y]|]; by repeat constructor.
Qed.

Lemma decide_tunnel_within c w request early :
  (forall e, e ∈ decide_tunnel c w request early -> is_network e = true ->
     exists d, permits (allowlist c) (c_host request) (c_port request) = Some d /\
       (forall i, identity c = Some i -> d_host (upstream i) <> c_host request) /\ within w d e).
Proof.
  intros e Hin Hnet. unfold decide_tunnel in Hin.
  assert (Hno : forall es, Forall (fun e => is_network e = false) es -> e ∉ es).
  { intros es Hf He. rewrite Forall_forall in Hf. specialize (Hf e He). congruence. }
  destruct (match identity c with Some _ => _ | None => _ end) eqn:Ei.
  { exfalso. eapply Hno; [|exact Hin]. by repeat constructor. }
  destruct (permits (allowlist c) (c_host request) (c_port request)) as [d|] eqn:Ep.
  2:{ exfalso. eapply Hno; [|exact Hin]. by repeat constructor. }
  exists d. split_and!; [done| |].
  - intros i Hi. rewrite Hi in Ei. by apply bool_decide_eq_false in Ei.
  - assert (Hf : Forall (within w d) (reach w d early)).
    { apply reach_forall; [done..|by repeat constructor|by repeat constructor|by repeat constructor|].
      intros a. apply open_tunnel_within. }
    rewrite Forall_forall in Hf. by apply Hf.
Qed.

Lemma no_network es e : Forall (fun e => is_network e = false) es -> e ∈ es -> is_network e = true -> False.
Proof. intros Hf Hin Hn. rewrite Forall_forall in Hf. specialize (Hf e Hin). congruence. Qed.

(** C34: containment of the tunnel: whatever the client sends and the resolver
    answers, everything a connection does on the network happens for one parsed
    request whose exact host and port are an entry of the allowlist and whose
    host is not the bound identity's; only that entry's name is resolved, and
    an address is dialled only when it is the literal or one of the first four
    the resolver gave and lies in the entry's scope; bytes go only to an
    address that was connected. *)
Theorem tunnel_contained c slot w e :
  e ∈ serve c slot w -> is_network e = true ->
  exists request early s' d,
    read_request (client w) = Some (Ok (request, early), s') /\ slot = true /\
    is_loopback (peer w) = true /\
    permits (allowlist c) (c_host request) (c_port request) = Some d /\
    (forall i, identity c = Some i -> d_host (upstream i) <> c_host request) /\
    within w d e.
Proof.
  unfold serve. intros [->|Hin]%elem_of_cons Hn; [done|].
  destruct (is_loopback (peer w)); cbn [negb] in Hin; [|exfalso; eapply no_network; [|done..]; by repeat constructor].
  destruct slot; cbn [negb] in Hin; [|exfalso; eapply no_network; [|done..]; by repeat constructor].
  destruct (read_request (client w)) as [[[[request early]|err] s']|] eqn:Er.
  - destruct (decide_tunnel_within c w request early e Hin Hn) as (d & H1 & H2 & H3).
    by exists request, early, s', d.
  - exfalso; eapply no_network; [|done..]; by repeat constructor.
  - by apply not_elem_of_nil in Hin.
Qed.

(** What the provider endpoint writes upstream, and to whom. *)
Definition substituted (w : World) (i : ProviderIdentity) (r : ProviderRequest) (body : list Z) (e : Effect) : Prop :=
  within w (upstream i) e /\
  match e with
  | SendUpstream secure a bytes =>
      bytes = upstream_head r i ++ body /\ secure = requires_transport_security (d_scope (upstream i)) /\
      (secure = false -> is_loopback (canonical (fst a)) = true)
  | Tunnel _ => False
  | _ => True
  end.

Lemma substitute_spec w i r body a :
  reachable_at w (upstream i) a -> connects w a = true ->
  Forall (substituted w i r body) (substitute w i r body a).
Proof.
  intros Hr Hc.
  assert (Hl : forall r', Forall (substituted w i r body) (refuse_identity r')) by (intros r'; by repeat constructor).
  unfold substitute. apply Forall_cons. split; [by split|].
  destruct (establish w (upstream i)) as [secure|] eqn:Ee; [|apply Hl].
  apply Forall_cons. split.
  - split; [done|]. split; [done|].
    assert (Es : secure = requires_transport_security (d_scope (upstream i))).
    { unfold establish in Ee. destruct (upstream_timeouts w); [|done]. cbn [negb] in Ee.
      destruct (requires_transport_security _); cbn [negb] in Ee; [|by injection Ee].
      destruct (tls_starts w _); [by injection Ee|done]. }
    split; [done|]. intros Hs. rewrite Hs in Es. destruct Hr as [Hp _]. unfold scope_permits in Hp.
    destruct (d_scope (upstream i)); [done|exact Hp].
  - destruct (upstream_takes_request w); cbn [negb]; [|apply Hl].
    apply Forall_cons. split; [done|]. apply Forall_cons. split; [done|]. apply Forall_cons. split; [by split|].
    destruct (streamed w); [by apply Forall_singleton|apply Forall_nil_2].
Qed.

Lemma forward_spec w i r body : Forall (substituted w i r body) (forward w i r body).
Proof.
  assert (Hl : forall r', Forall (substituted w i r body) (refuse_identity r')) by (intros r'; by repeat constructor).
  apply reach_forall; try apply Hl; [done..|]. intros a. apply substitute_spec.
Qed.

(** Containment of the provider endpoint: a connection does nothing on the
    network unless the request it carried presented exactly the session's
    sentinel and its framing read; then it reaches only the identity's own
    destination, what it writes is the rebuilt head with the broker's
    credential and the framed body, and it is written in the clear only to a
    loopback address. *)
Theorem provider_contained c slot w e :
  e ∈ serve_provider c slot w -> is_network e = true ->
  exists i request early rest length body s',
    identity c = Some i /\ read_head (client w) = Some (Ok (request, early), rest) /\
    authenticate request (sentinel i) = Ok tt /\ body_length request = Ok length /\
    read_body (mkSocket (accepts_deadline (client w)) rest) early length = Some (Ok body, s') /\
    substituted w i request body e.
Proof.
  unfold serve_provider. intros [->|Hin]%elem_of_cons Hn; [done|].
  destruct (identity c) as [i|]; [|exfalso; by eapply no_network; [apply refuse_local|..]].
  destruct (is_loopback (peer w)); cbn [negb] in Hin; [|exfalso; by eapply no_network; [apply refuse_identity_local|..]].
  destruct slot; cbn [negb] in Hin; [|exfalso; eapply no_network; [|done..]; by repeat constructor].
  destruct (read_head (client w)) as [[[[request early]|err] rest]|] eqn:Er;
    [|exfalso; by eapply no_network; [apply refuse_identity_local|..]|by apply not_elem_of_nil in Hin].
  unfold decide_provider in Hin.
  destruct (authenticate request (sentinel i)) as [[]|] eqn:Ea; [|exfalso; by eapply no_network; [apply refuse_identity_local|..]].
  destruct (body_length request) as [length|] eqn:El; [|exfalso; by eapply no_network; [apply refuse_identity_local|..]].
  destruct (read_body _ early length) as [[[body|] s']|] eqn:Eb;
    [|exfalso; by eapply no_network; [apply refuse_identity_local|..]|by apply not_elem_of_nil in Hin].
  exists i, request, early, rest, length, body, s'. split_and!; try done.
  all: pose proof (forward_spec w i request body) as Hf; rewrite Forall_forall in Hf; by apply Hf.
Qed.

(** * Refusals and the order of effects *)

Definition late_refusal (e : Effect) : Prop :=
  match e with RecordRefusal r => precedes_any_dial r = false | _ => True end.

Lemma forward_refusals w i r body : Forall late_refusal (forward w i r body).
Proof.
  assert (Hl : forall x, precedes_any_dial x = false -> Forall late_refusal (refuse_identity x))
    by (intros x Hx; by repeat constructor).
  apply reach_forall; try (by apply Hl); [done..|]. intros u _ _. unfold substitute.
  apply Forall_cons. split; [done|].
  destruct (establish w (upstream i)) as [secure|x] eqn:Ee.
  - apply Forall_cons. split; [done|]. destruct (upstream_takes_request w); cbn [negb]; [|by apply Hl].
    repeat (apply Forall_cons; split; [done|]). destruct (streamed w); [by apply Forall_singleton|apply Forall_nil_2].
  - apply Hl. unfold establish in Ee. destruct (upstream_timeouts w); cbn [negb] in Ee; [|by injection Ee as <-].
    destruct (requires_transport_security _); cbn [negb] in Ee; [|done].
    destruct (tls_starts w _); [done|by injection Ee as <-].
Qed.

Lemma reach_refuses_nothing w d early r : RecordRefusal r ∉ reach w d early.
Proof.
  assert (Hf : Forall (fun e => e <> RecordRefusal r) (reach w d early)).
  { apply reach_forall; try done; try (by repeat constructor). intros a _ _. unfold open_tunnel.
    apply Forall_cons. split; [done|]. destruct (deadlines_installed w), (client_takes_answer w); cbn [negb];
      try (by repeat constructor).
    apply Forall_cons. split; [done|]. apply Forall_app.
    split; [case_bool_decide; [apply Forall_nil_2|by apply Forall_singleton]|].
    destruct (_ && _); [apply Forall_nil_2|]. destruct (relayed w) as [[x y]|]; by repeat constructor. }
  intros Hin. rewrite Forall_forall in Hf. by apply (Hf _ Hin).
Qed.

(** The ledger tells the truth about the dial: a refusal that is marked as
    preceding any dial is recorded by a connection that resolves, dials and
    sends nothing; and the tunnel records one refusal only, of a tunnel to the
    provider. *)
Theorem refusals_precede_dials c slot w r :
  (RecordRefusal r ∈ serve_provider c slot w -> precedes_any_dial r = true ->
     Forall (fun e => is_network e = false) (serve_provider c slot w)) /\
  (RecordRefusal r ∈ serve c slot w ->
     r = TunnelToProviderRefused /\ Forall (fun e => is_network e = false) (serve c slot w)).
Proof.
  assert (Hc : forall x, Forall (fun e => is_network e = false) (Count Accepted 1 :: refuse_identity x))
    by (intros x; by repeat constructor).
  split.
  - unfold serve_provider. destruct (identity c) as [i|]; [|by repeat constructor].
    destruct (is_loopback (peer w)); cbn [negb]; [|done].
    destruct slot; cbn [negb]; [|by repeat constructor].
    destruct (read_head (client w)) as [[[[request early]|err] rest]|]; [|done|by repeat constructor].
    unfold decide_provider. destruct (authenticate request (sentinel i)) as [[]|]; [|done].
    destruct (body_length request) as [length|]; [|done].
    destruct (read_body _ early length) as [[[body|] s']|]; [|done|by repeat constructor].
    intros [|Hin]%elem_of_cons Hp; [done|]. pose proof (forward_refusals w i request body) as Hf.
    rewrite Forall_forall in Hf. specialize (Hf _ Hin). cbn in Hf. congruence.
  - assert (Hno : forall es, existsb (fun e => match e with RecordRefusal _ => true | _ => false end) es = false ->
      RecordRefusal r ∉ es).
    { intros es He Hin. rewrite <- not_true_iff_false, existsb_exists in He. destruct He.
      exists (RecordRefusal r). split; [by apply list_elem_of_In|done]. }
    unfold serve. destruct (is_loopback (peer w)); cbn [negb]; [|by intros ?%Hno].
    destruct slot; cbn [negb]; [|by intros ?%Hno].
    destruct (read_request (client w)) as [[[[request early]|err] rest]|]; [|by intros ?%Hno|by intros ?%Hno].
    unfold decide_tunnel. destruct (match identity c with Some _ => _ | None => _ end).
    + intros Hin. split; [|by repeat constructor]. rewrite !elem_of_cons, elem_of_nil in Hin.
      destruct Hin as [|[|[[= ->]|[|[]]]]]; done.
    + destruct (permits _ _ _) as [d|]; [|by intros ?%Hno].
      intros [|Hin]%elem_of_cons; [done|]. by apply reach_refuses_nothing in Hin.
Qed.

(** * The window of refused destinations *)

Definition numbered (ds : list RefusedDestination) : list (Z * RefusedDestination) :=
  imap (fun i d => (Z.of_nat i + 1, d)) ds.

Lemma numbered_snoc ds d : numbered (ds ++ [d]) = numbered ds ++ [(len ds + 1, d)].
Proof. unfold numbered. rewrite imap_app. cbn. unfold compose. by rewrite Nat.add_0_r. Qed.

Lemma numbered_length ds : length (numbered ds) = length ds.
Proof. apply length_imap. Qed.

(** The state after any refusals: their number, and the last 256 of them. *)
Lemma recorded_state ds :
  len ds <= u64_max ->
  foldl record_refused refused_empty ds =
  mkRefusedState (len ds) false (drop (length ds - 256) (numbered ds)).
Proof.
  induction ds as [|d ds IH] using rev_ind; [done|]. rewrite len_app. change (len [d]) with 1. intros Hl.
  pose proof (len_nonneg ds). rewrite foldl_app, IH by lia. cbn [foldl]. unfold record_refused.
  cbn [rs_sequence history_lost rs_events]. unfold check_u64.
  rewrite (proj2 (andb_true_iff _ _)) by (split; apply Z.leb_le; widths; lia).
  rewrite numbered_snoc. f_equal. rewrite length_app. cbn [length].
  set (es := drop (length ds - 256) (numbered ds) ++ [(len ds + 1, d)]).
  assert (Hes : len es = Z.min 256 (len ds) + 1)
    by (unfold es, len; rewrite length_app, length_drop, numbered_length; cbn [length]; lia).
  unfold MAX_REFUSED_DESTINATION_EVENTS. rewrite Hes. pose proof (numbered_length ds) as Hn.
  destruct (Z.ltb_spec 256 (Z.min 256 (len ds) + 1)) as [Hlt|Hge]; unfold es, len in *.
  - replace (length ds + 1 - 256)%nat with (S (length ds - 256)) by lia.
    rewrite drop_app_le by lia. rewrite <- tail_drop.
    destruct (drop (length ds - 256) (numbered ds)) eqn:E; [|done].
    apply (f_equal length) in E. rewrite length_drop in E. cbn in E. lia.
  - replace (length ds - 256)%nat with 0%nat by lia. replace (length ds + 1 - 256)%nat with 0%nat by lia. done.
Qed.

(** Past a position, the numbered refusals are the later ones. *)
Lemma later_than ds n k :
  (k <= n)%nat -> (n <= length ds)%nat ->
  snd <$> filter (fun e => Z.of_nat n < fst e) (drop k (numbered ds)) = drop n ds.
Proof.
  revert n k; induction ds as [|d ds IH] using rev_ind; intros n k Hkn Hn.
  { unfold numbered. cbn. by rewrite !drop_nil. }
  rewrite numbered_snoc. rewrite length_app in Hn. cbn [length] in Hn.
  destruct (decide (n <= length ds)%nat) as [Hle|Hgt].
  - rewrite !drop_app_le by (rewrite ?numbered_length; lia). rewrite filter_app, fmap_app, IH by lia.
    f_equal. rewrite filter_cons, decide_True by (cbn; unfold len; lia). done.
  - assert (n = length (ds ++ [d])) as -> by (rewrite length_app; cbn; lia). rewrite drop_all.
    rewrite filter_none; [done|]. intros [p x] Hin Hp. cbn [fst] in Hp.
    assert (Hin' : (p, x) ∈ numbered ds ++ [(len ds + 1, d)]).
    { rewrite <- (take_drop k). apply elem_of_app. by right. }
    rewrite length_app in Hp. cbn [length] in Hp.
    apply elem_of_app in Hin' as [H|[= -> ->]%list_elem_of_singleton]; [|unfold len in Hp; lia].
    unfold numbered in H. apply elem_of_lookup_imap in H as (i & y & [= -> ->] & Hy).
    apply lookup_lt_Some in Hy. lia.
Qed.

(** A cursor taken after some refusals reads exactly what came later: nothing
    when nothing was refused since, the destination when all later refusals, at
    most 256, name the same one, and no claim otherwise; and it moves to the
    end. *)
Theorem window_exact before after :
  len (before ++ after) <= u64_max ->
  let state := foldl record_refused refused_empty (before ++ after) in
  observe_since true state (len before) =
  (match after with
   | [] => Empty
   | d :: later =>
       if (256 <? len after) || negb (bool_decide (Forall (fun d' => d' = d) later)) then Ambiguous
       else Unambiguous d
   end, len (before ++ after)).
Proof.
  intros Hl state. subst state. rewrite recorded_state by done. unfold observe_since, take_since.
  cbn [negb rs_sequence history_lost rs_events orb]. f_equal.
  rewrite len_app in *. pose proof (len_nonneg before) as Hb. pose proof (len_nonneg after) as Ha.
  rewrite (proj2 (Z.ltb_ge (len before + len after) (len before))) by lia.
  destruct after as [|d later]; [rewrite len_nil, Z.add_0_r, Z.eqb_refl; done|].
  rewrite len_cons in *. pose proof (len_nonneg later) as Hla.
  rewrite (proj2 (Z.eqb_neq _ _)) by lia.
  set (L := numbered (before ++ d :: later)). set (k := (length (before ++ d :: later) - 256)%nat).
  assert (HL : length L = length (before ++ d :: later)) by apply numbered_length.
  destruct (drop k L) as [|[p x] es] eqn:Ed.
  { apply (f_equal length) in Ed. rewrite length_drop, HL in Ed. cbn in Ed. unfold k in Ed.
    rewrite length_app in Ed. cbn in Ed. lia. }
  assert (Hp : p = Z.of_nat k + 1).
  { assert (HLk : L !! k = Some (p, x)) by (rewrite <- (Nat.add_0_r k), <- lookup_drop, Ed; done).
    unfold L, numbered in HLk. rewrite list_lookup_imap in HLk. apply fmap_Some in HLk as (y & _ & [= -> ->]). done. }
  unfold sat_u64. rewrite Z.max_r, Z.min_r by (widths; lia).
  assert (Hk : (len before + 1 <? p) = (256 <? 1 + len later)).
  { subst p k. rewrite length_app. cbn [length]. unfold len in *.
    destruct (Z.ltb_spec 256 (1 + Z.of_nat (length later)));
      [apply Z.ltb_lt|apply Z.ltb_ge]; lia. }
  rewrite Hk. destruct (Z.ltb_spec 256 (1 + len later)) as [|Hge]; [done|]. cbn [orb].
  rewrite <- Ed. unfold len at 1. unfold L. rewrite later_than by (unfold k, len in *; rewrite length_app; cbn [length]; lia).
  rewrite drop_app_length.
  destruct (forallb (fun d' => bool_decide (d' = d)) later) eqn:Ef; case_bool_decide as Hf; try done; exfalso.
  - apply Hf. apply Forall_forallb in Ef. eapply Forall_impl; [exact Ef|]. intros y. apply bool_decide_eq_true.
  - rewrite Forall_to_forallb in Ef; [done|]. eapply Forall_impl; [exact Hf|]. intros y. apply bool_decide_eq_true_2.
Qed.

(** * Connection slots *)

Lemma len_filter_le {A} (P : A -> Prop) `{!forall x, Decision (P x)} (l : list A) : len (filter P l) <= len l.
Proof. unfold len. pose proof (length_filter P l). lia. Qed.

(** In any order of registrations, endings and shutdown, a broker of a valid
    configuration holds at most its limit of connections, hence at most
    sixty-four, and once it is stopping it never takes another. *)
Theorem slots_bounded c l :
  validate c = Ok tt -> 0 <= max_connections c -> rtc (slot_step c) live_empty l ->
  len (open l) <= max_connections c <= MAX_CONNECTION_LIMIT /\
  (stopping l = true -> forall l', rtc (slot_step c) l l' ->
     stopping l' = true /\ forall id, id ∈ open l' -> id ∈ open l).
Proof.
  intros Hv Hm Hr. split.
  - split.
    + apply rtc_ind_r with (P := fun l => len (open l) <= max_connections c) (z := l) in Hr; [done|exact Hm|].
      clear l Hr. intros l l' _ Hs IH. destruct Hs as [clones l|id l|l].
      * unfold register. destruct (stopping l); [done|]. cbn [orb].
        destruct (Z.leb_spec (max_connections c) (len (open l))); [done|]. destruct clones; [|done].
        cbn [negb snd open]. rewrite len_cons. lia.
      * cbn [deregister open]. pose proof (len_filter_le (fun x => x <> id) (open l)). lia.
      * done.
    + unfold validate in Hv. destruct (_ || _) eqn:E; [done|]. bool_prop. lia.
  - intros Hs l' Hr'. clear Hr. induction Hr' as [l|l l1 l' H1 _ IH]; [done|].
    assert (H2 : stopping l1 = true /\ forall id, id ∈ open l1 -> id ∈ open l).
    { destruct H1 as [clones l|id l|l].
      - unfold register. by rewrite Hs.
      - split; [done|]. intros x [_ Hx]%list_elem_of_filter. done.
      - done. }
    destruct H2 as [H2 H3]. destruct (IH H2) as [H4 H5]. split; [done|]. auto.
Qed.

Lemma slots_bounded_witness :
  len (open (snd (register default_config true live_empty))) <= 8 <= MAX_CONNECTION_LIMIT.
Proof.
  apply (slots_bounded default_config (snd (register default_config true live_empty)));
    [reflexivity|cbn; lia|apply rtc_once, step_register].
Defined.

(** A configuration the broker starts with never permits a tunnel to the bound
    identity's host, whatever the port. *)
Theorem identity_host_not_tunnelled c i port :
  validate c = Ok tt -> identity c = Some i -> permits (allowlist c) (d_host (upstream i)) port = None.
Proof.
  unfold validate. intros Hv Hi. destruct (_ || _); [done|]. destruct (bad_timeout _); [done|].
  rewrite Hi in Hv. destruct (existsb _ _) eqn:E; [done|].
  unfold permits. apply find_None_iff, Forall_forall. intros d Hd.
  apply not_true_is_false. intros [_ He]%andb_true_iff. rewrite <- not_true_iff_false, existsb_exists in E.
  destruct E. exists d. by rewrite <- list_elem_of_In.
Qed.

(** * Sample connections *)

Definition sample_config : BrokerConfig :=
  mkConfig (mkAllowlist [mkDestination (Name (str "example.com")) 443 PublicScope]) 0
    (Some sample_identity) 0 8 (from_secs 10) (from_secs 10) (from_secs 300).

Definition loopback : IpAddr := V4 [127; 0; 0; 1].

(** A resolver that answers the loopback address before the public one. *)
Definition sample_world (sent : list Z) : World :=
  mkWorld loopback (mkSocket true [SocketData sent])
    (fun _ port => Some [(loopback, port); (V4 [93; 184; 216; 34], port)])
    (fun _ => true) true true true (Some (10, 20)) true (fun _ => true) true (Some 30).

Definition tunnel_world : World := sample_world (sample_head ++ HEAD_TERMINATOR).
Definition provider_world : World :=
  sample_world (sample_request_head ++ HEAD_TERMINATOR ++ str "hello").

Lemma tunnel_contained_witness :
  exists request early s' d,
    read_request (client tunnel_world) = Some (Ok (request, early), s') /\ true = true /\
    is_loopback (peer tunnel_world) = true /\
    permits (allowlist sample_config) (c_host request) (c_port request) = Some d /\
    (forall i, identity sample_config = Some i -> d_host (upstream i) <> c_host request) /\
    within tunnel_world d (Tunnel (V4 [93; 184; 216; 34], 443)).
Proof.
  apply (tunnel_contained sample_config true tunnel_world); [|reflexivity].
  apply list_elem_of_In. vm_compute. tauto.
Defined.

Lemma provider_contained_witness :
  exists i request early rest length body s',
    identity sample_config = Some i /\ read_head (client provider_world) = Some (Ok (request, early), rest) /\
    authenticate request (sentinel i) = Ok tt /\ body_length request = Ok length /\
    read_body (mkSocket (accepts_deadline (client provider_world)) rest) early length = Some (Ok body, s') /\
    substituted provider_world i request body (Dial (V4 [93; 184; 216; 34], 443)).
Proof.
  apply (provider_contained sample_config true provider_world); [|reflexivity].
  apply list_elem_of_In. vm_compute. tauto.
Defined.
