(* ===== verification/Table.v ===== *)
(** Tables with an [INTEGER PRIMARY KEY], as the SQLite stores of
    automonique-store keep them.

    A table is the list of its rows in row-id order, the order of the table's
    b-tree and of [ORDER BY entry_id].  The store modules never name the row id
    they insert at: SQLite takes one more than the largest in use, or one in an
    empty table, so the id of a deleted last row is given out again.  When the
    largest id is in use already SQLite tries ids at random, which is the
    parameter [random_rowid]; [RandomRowidLaws] is what its documentation
    promises of them.  A transaction that fails leaves the table as it was. *)

From S2P Require Import Prelude Text.

Class RandomRowid := random_rowid : list Z -> option Z.

Class RandomRowidLaws `{RandomRowid} : Prop :=
  random_rowid_fresh ids i : random_rowid ids = Some i -> (i ∉ ids) /\ (0 < i <= i64_max).

(** The choice that gives up at once. *)
Definition no_random_rowid : RandomRowid := fun _ => None.

Lemma no_random_rowid_laws : @RandomRowidLaws no_random_rowid.
Proof. by intros ids i [=]. Qed.

(** The end of a transaction: commit, or roll back on the error that left it. *)
Definition transact {E A T} (m : result E (A * T)) (t : T) : result E A * T :=
  match m with
  | Ok (a, t') => (Ok a, t')
  | Err e => (Err e, t)
  end.

Lemma transact_Ok {E A T} (m : result E (A * T)) t a t' :
  transact m t = (Ok a, t') <-> m = Ok (a, t').
Proof. destruct m as [[b u]|e]; cbn; naive_solver. Qed.

Lemma transact_Err {E A T} (m : result E (A * T)) t e t' :
  transact m t = (Err e, t') <-> m = Err e /\ t' = t.
Proof. destruct m as [[b u]|e']; cbn; naive_solver. Qed.

(** * Rows *)

Section Rows.
Context {Row : Type}.
Implicit Types (r : Row) (t : list Row).

(** [UPDATE ... WHERE p] and [DELETE ... WHERE p]; the number of rows they
    report is [rows_matching]. *)
Definition rows_matching (p : Row -> bool) t : Z := len (List.filter p t).
Definition update_rows (p : Row -> bool) (f : Row -> Row) t : list Row :=
  (fun r => if p r then f r else r) <$> t.
Definition delete_rows (p : Row -> bool) t : list Row := List.filter (fun r => negb (p r)) t.

Lemma elem_of_filter_rows (p : Row -> bool) r t : r ∈ List.filter p t <-> p r = true /\ r ∈ t.
Proof. rewrite !list_elem_of_In, filter_In. tauto. Qed.

Lemma elem_of_delete_rows (p : Row -> bool) r t : r ∈ delete_rows p t <-> p r = false /\ r ∈ t.
Proof. unfold delete_rows. rewrite elem_of_filter_rows, negb_true_iff. done. Qed.

Lemma len_filter_rows (p : Row -> bool) t : len (List.filter p t) <= len t.
Proof.
  induction t as [|x t IH]; [done|]. cbn. case_match; autorewrite with len; lia.
Qed.

Lemma len_delete_rows (p : Row -> bool) t : len (delete_rows p t) = len t - rows_matching p t.
Proof.
  unfold delete_rows, rows_matching. induction t as [|x t IH]; [done|]. cbn.
  destruct (p x); cbn; autorewrite with len; lia.
Qed.

(** * Rows by a unique column *)

Section Keys.
Context {K : Type} `{EqDecision K} (key : Row -> K).

(** [SELECT ... WHERE key = ?1] of a UNIQUE column. *)
Definition lookup_key (k : K) t : option Row := List.find (fun r => bool_decide (key r = k)) t.

Definition unique t : Prop := NoDup (key <$> t).

Lemma lookup_key_elem k t r : lookup_key k t = Some r -> r ∈ t /\ key r = k.
Proof. intros [Hr Hk]%find_some. apply list_elem_of_In in Hr. bool_prop. done. Qed.

Lemma lookup_key_Some k t r : unique t -> lookup_key k t = Some r <-> r ∈ t /\ key r = k.
Proof.
  intros Hu. split; [apply lookup_key_elem|]. intros [Hr <-]. unfold lookup_key.
  induction t as [|x t IH]; [set_solver|]. unfold unique in Hu. rewrite fmap_cons in Hu.
  apply NoDup_cons in Hu as [Hx Hu]. cbn. case_bool_decide as E.
  - apply elem_of_cons in Hr as [->|Hr]; [done|]. exfalso. apply Hx. rewrite E. set_solver.
  - apply elem_of_cons in Hr as [->|Hr]; [done|]. by apply IH.
Qed.

Lemma lookup_key_None k t : lookup_key k t = None <-> k ∉ key <$> t.
Proof.
  unfold lookup_key. rewrite find_None_iff, Forall_forall. setoid_rewrite bool_decide_eq_false.
  rewrite list_elem_of_fmap. naive_solver.
Qed.

Lemma filter_unique (p : Row -> bool) t : unique t -> unique (List.filter p t).
Proof.
  unfold unique. induction t as [|x t IH]; [done|]. rewrite fmap_cons.
  intros [Hx Hu]%NoDup_cons. cbn. case_match; [|auto]. rewrite fmap_cons.
  constructor; [|auto]. intros (y & E & Hy)%list_elem_of_fmap. apply Hx.
  apply elem_of_filter_rows in Hy as [_ Hy]. apply list_elem_of_fmap. eauto.
Qed.

Lemma update_rows_unique (p : Row -> bool) f t :
  (forall r, key (f r) = key r) -> unique t -> unique (update_rows p f t).
Proof.
  unfold unique, update_rows. intros Hf Hs. rewrite <- list_fmap_compose.
  erewrite list_fmap_ext; [exact Hs|]. intros i r _. cbn. by case_match.
Qed.

Lemma lookup_delete_rows k (p : Row -> bool) t :
  unique t ->
  lookup_key k (delete_rows p t) =
  match lookup_key k t with Some r => if p r then None else Some r | None => None end.
Proof.
  intros Hu. apply option_eq. intros x.
  rewrite lookup_key_Some by (by apply filter_unique). rewrite elem_of_delete_rows.
  destruct (lookup_key k t) as [r|] eqn:E.
  - pose proof E as [Hr Hk]%lookup_key_elem. split.
    + intros [[Hp Hx] Ex]. assert (lookup_key k t = Some x) as E' by (by apply lookup_key_Some).
      rewrite E in E'. injection E' as ->. by rewrite Hp.
    + case_match; [done|]. by intros [= <-].
  - apply lookup_key_None in E. split; [|done]. intros [[_ Hx] <-]. exfalso. apply E. set_solver.
Qed.

Lemma lookup_update_rows k (p : Row -> bool) f t :
  (forall r, key (f r) = key r) ->
  lookup_key k (update_rows p f t) =
  (fun r => if p r then f r else r) <$> lookup_key k t.
Proof.
  intros Hf. unfold lookup_key, update_rows. induction t as [|x t IH]; [done|].
  rewrite fmap_cons. cbn [List.find].
  assert (key (if p x then f x else x) = key x) as -> by (by case_match).
  by case_bool_decide.
Qed.
End Keys.
End Rows.

(** * Row ids *)

Section Tables.
Context {Row : Type} (rowid : Row -> Z).
Implicit Types (r : Row) (t : list Row).

(** [SELECT MAX(rowid)], [SELECT MIN(rowid)]. *)
Definition max_rowid t : option Z :=
  match rowid <$> t with
  | [] => None
  | i :: ids => Some (foldr Z.max i ids)
  end.

Definition min_rowid t : option Z :=
  match rowid <$> t with
  | [] => None
  | i :: ids => Some (foldr Z.min i ids)
  end.

Definition next_rowid `{RandomRowid} t : option Z :=
  match max_rowid t with
  | None => Some 1
  | Some m => if m <? i64_max then Some (m + 1) else random_rowid (rowid <$> t)
  end.

(** Insertion at the place of the row's id. *)
Fixpoint insert_row r t : list Row :=
  match t with
  | [] => [r]
  | x :: t' => if rowid r <? rowid x then r :: t else x :: insert_row r t'
  end.

(** Row ids in order, so without repetition. *)
Definition ordered t : Prop := StronglySorted Z.lt (rowid <$> t).

Lemma max_rowid_spec t :
  match max_rowid t with
  | None => t = []
  | Some m => (exists r, r ∈ t /\ rowid r = m) /\ Forall (fun r => rowid r <= m) t
  end.
Proof.
  unfold max_rowid. destruct t as [|x t]; [done|]. rewrite fmap_cons. induction t as [|y t IH].
  - cbn. split; [exists x; set_solver|by repeat constructor].
  - rewrite fmap_cons. cbn [foldr]. destruct IH as [(r & Hr & E) Hf].
    rewrite !Forall_cons in *. destruct Hf as [Hx Hf].
    set (m := foldr Z.max (rowid x) (rowid <$> t)) in *. split.
    + destruct (Z.max_spec (rowid y) m) as [[_ ->]|[_ ->]]; [exists r|exists y]; set_solver.
    + split_and!; [lia..|]. eapply Forall_impl; [exact Hf|]. cbn. lia.
Qed.

Lemma next_rowid_fresh `{RandomRowidLaws} t i :
  next_rowid t = Some i -> i ∉ rowid <$> t.
Proof.
  unfold next_rowid. pose proof (max_rowid_spec t) as Hm. destruct (max_rowid t) as [m|].
  - destruct Hm as [_ Hf]. case_match; [|intros [? _]%random_rowid_fresh; done].
    intros [= <-] (r & E & Hr)%list_elem_of_fmap. rewrite Forall_forall in Hf.
    specialize (Hf r Hr). lia.
  - intros [= <-]. subst t. set_solver.
Qed.

Lemma next_rowid_range `{RandomRowidLaws} t i :
  Forall (fun r => 0 < rowid r) t -> next_rowid t = Some i -> 0 < i <= i64_max.
Proof.
  unfold next_rowid. pose proof (max_rowid_spec t) as Hm. intros Hp.
  destruct (max_rowid t) as [m|]; [|intros [= <-]; mlia].
  destruct Hm as [(r & Hr & <-) _]. rewrite Forall_forall in Hp. specialize (Hp r Hr).
  case_match; [intros [= <-]; bool_prop; lia|by intros [_ ?]%random_rowid_fresh].
Qed.

(** There is an id unless the largest one is in use. *)
Lemma next_rowid_total `{RandomRowid} t :
  Forall (fun r => rowid r < i64_max) t -> exists i, next_rowid t = Some i.
Proof.
  unfold next_rowid. pose proof (max_rowid_spec t) as Hm. intros Hp.
  destruct (max_rowid t) as [m|]; [|by eauto].
  destruct Hm as [(r & Hr & <-) _]. rewrite Forall_forall in Hp. specialize (Hp r Hr).
  assert ((rowid r <? i64_max) = true) as -> by mlia. eauto.
Qed.

Lemma insert_row_perm r t : insert_row r t ≡ₚ r :: t.
Proof.
  induction t as [|x t IH]; cbn; [done|]. case_match; [done|]. rewrite IH. constructor.
Qed.

Lemma elem_of_insert_row r x t : x ∈ insert_row r t <-> x = r \/ x ∈ t.
Proof. by rewrite insert_row_perm, elem_of_cons. Qed.

Lemma len_insert_row r t : len (insert_row r t) = len t + 1.
Proof. unfold len. rewrite insert_row_perm. cbn. lia. Qed.

Lemma insert_row_ordered r t :
  ordered t -> rowid r ∉ rowid <$> t -> ordered (insert_row r t).
Proof.
  unfold ordered. induction t as [|x t IH]; [intros; repeat constructor|].
  intros Hs Hn. cbn [insert_row]. rewrite fmap_cons in *.
  apply StronglySorted_inv in Hs as [Hs Hx]. case_match; bool_prop; rewrite !fmap_cons.
  - constructor; [by constructor|]. constructor; [done|]. eapply Forall_impl; [exact Hx|]. cbn. lia.
  - constructor; [apply IH; set_solver|]. rewrite insert_row_perm, fmap_cons.
    constructor; [|done]. assert (rowid r <> rowid x) by set_solver. lia.
Qed.

(** A row above all others is appended. *)
Lemma insert_row_last r t : Forall (fun x => rowid x < rowid r) t -> insert_row r t = t ++ [r].
Proof.
  induction 1 as [|x t Hx _ IH]; [done|]. cbn. case_match; bool_prop; [lia|]. by rewrite IH.
Qed.

Lemma filter_ordered (p : Row -> bool) t : ordered t -> ordered (List.filter p t).
Proof.
  unfold ordered. induction t as [|x t IH]; [done|]. rewrite fmap_cons. cbn [List.filter].
  intros [Hs Hx]%StronglySorted_inv. specialize (IH Hs). case_match; [|done].
  rewrite fmap_cons. constructor; [done|]. rewrite Forall_fmap, Forall_forall in *.
  intros y Hy%list_elem_of_In%filter_In. apply Hx, list_elem_of_In. tauto.
Qed.

Lemma ordered_inj t r r' : ordered t -> r ∈ t -> r' ∈ t -> rowid r = rowid r' -> r = r'.
Proof.
  unfold ordered. induction t as [|x t IH]; [set_solver|]. rewrite fmap_cons.
  intros [Hs Hx]%StronglySorted_inv. rewrite Forall_fmap, Forall_forall in Hx.
  intros [->|Hr]%elem_of_cons [->|Hr']%elem_of_cons E; [done| | |by apply IH].
  - specialize (Hx _ Hr'). cbn in Hx. lia.
  - specialize (Hx _ Hr). cbn in Hx. lia.
Qed.

Lemma update_rows_ordered (p : Row -> bool) f t :
  (forall r, rowid (f r) = rowid r) -> ordered t -> ordered (update_rows p f t).
Proof.
  unfold ordered, update_rows. intros Hf Hs. rewrite <- list_fmap_compose.
  erewrite list_fmap_ext; [exact Hs|]. intros i r _. cbn. by case_match.
Qed.

(** In an ordered table one id is matched by one row at most. *)
Lemma rows_matching_one t r (q : Row -> bool) :
  ordered t -> r ∈ t -> q r = true ->
  rows_matching (fun x => (rowid x =? rowid r) && q x) t = 1.
Proof.
  intros Hs Hr Hq. unfold rows_matching.
  assert (List.filter (fun x => (rowid x =? rowid r) && q x) t = [r]) as ->; [|done].
  unfold ordered in Hs. induction t as [|x t IH]; [set_solver|]. rewrite fmap_cons in Hs.
  apply StronglySorted_inv in Hs as [Hs Hx]. rewrite Forall_fmap, Forall_forall in Hx. cbn.
  apply elem_of_cons in Hr as [->|Hr].
  - rewrite Z.eqb_refl, Hq. cbn. f_equal.
    destruct (List.filter _ t) as [|y l] eqn:E; [done|]. exfalso.
    assert (y ∈ List.filter (fun y => (rowid y =? rowid x) && q y) t) as Hy by (rewrite E; left).
    apply elem_of_filter_rows in Hy as [Hy Hin]. specialize (Hx y Hin). cbn in Hx. bool_prop. lia.
  - specialize (Hx r Hr). cbn in Hx. case_match; [bool_prop; lia|]. by apply IH.
Qed.

(** Insertion in a table with a unique column. *)

Section Insertion.
Context {K : Type} `{EqDecision K} (key : Row -> K).

Lemma insert_row_unique r t : unique key t -> key r ∉ key <$> t -> unique key (insert_row r t).
Proof. unfold unique. intros Hu Hn. rewrite insert_row_perm, fmap_cons. by constructor. Qed.

Lemma lookup_insert_row k r t :
  unique key t -> key r ∉ key <$> t ->
  lookup_key key k (insert_row r t) = if bool_decide (key r = k) then Some r else lookup_key key k t.
Proof.
  intros Hu Hn. apply option_eq. intros x.
  rewrite lookup_key_Some by (by apply insert_row_unique). rewrite elem_of_insert_row.
  case_bool_decide as E.
  - split; [intros [[->|Hx] Ex]; [done|]|naive_solver]. exfalso. apply Hn.
    rewrite E, <- Ex. set_solver.
  - rewrite lookup_key_Some by done. naive_solver.
Qed.

End Insertion.
End Tables.
