(* ===== verification/RowMap.v ===== *)
(** Tables as maps.

    The store modules validate every row they read.  [RowCodec] is what a table
    has for that: the row's id and unique key, the validation and the row an
    entry is stored as.  Under [RowCodecLaws], a table whose rows are all valid is
    a finite map from keys to entries, and each SQL write is the write of the
    map. *)

From S2P Require Import Prelude Table.

Class RowCodec (Row Entry Failure K : Type) := {
  codec_id : Row -> Z;
  codec_key : Row -> K;
  codec_validate : Row -> result Failure Entry;
  codec_row : Entry -> Row;
  codec_ok : Entry -> Prop
}.

Class RowCodecLaws (Row Entry Failure K : Type) `{RowCodec Row Entry Failure K} : Prop := {
  codec_exact raw e : codec_validate raw = Ok e <-> raw = codec_row e /\ codec_ok e;
  codec_id_pos e : codec_ok e -> 0 < codec_id (codec_row e)
}.

Section RowMap.
Context {Row Entry Failure K : Type} `{Countable K} `{RowCodecLaws Row Entry Failure K}.
Implicit Types (t : list Row) (e : Entry).

Definition entry_key e : K := codec_key (codec_row e).

Definition row_valid (raw : Row) : Prop := exists e, codec_validate raw = Ok e.

(** A table as its own writers leave it. *)
Record rows_ok t : Prop := mkRowsOk {
  rows_ordered : ordered codec_id t;
  rows_unique : unique codec_key t;
  rows_valid : Forall row_valid t
}.

Fixpoint entries t : gmap K Entry :=
  match t with
  | [] => ∅
  | raw :: t =>
      match codec_validate raw with
      | Ok e => <[codec_key raw := e]> (entries t)
      | Err _ => entries t
      end
  end.

Lemma validate_row e : codec_ok e -> codec_validate (codec_row e) = Ok e.
Proof. intros. by apply codec_exact. Qed.

Lemma rows_ok_nil : rows_ok [].
Proof. constructor; [constructor|constructor|constructor]. Qed.

Lemma entries_lookup t k :
  Forall row_valid t -> entries t !! k = lookup_key codec_key k t ≫= fun raw => ok (codec_validate raw).
Proof.
  induction 1 as [|raw t [e He] _ IH]; [done|]. cbn. rewrite He. case_bool_decide as E.
  - subst. rewrite lookup_insert_eq. cbn. by rewrite He.
  - by rewrite lookup_insert_ne.
Qed.

(** Reading by the unique key is the lookup. *)
Lemma read_by_key_eq t k :
  Forall row_valid t ->
  match lookup_key codec_key k t with
  | None => Ok None
  | Some raw => e ← codec_validate raw; Ok (Some e)
  end = Ok (entries t !! k).
Proof.
  intros Hv. rewrite entries_lookup by done.
  destruct (lookup_key codec_key k t) as [raw|] eqn:E; [|done].
  apply lookup_key_elem in E as [Hin _]. rewrite Forall_forall in Hv.
  destruct (Hv raw Hin) as [e He]. cbn. by rewrite He.
Qed.

Lemma entries_Some t k e :
  rows_ok t -> entries t !! k = Some e <-> codec_row e ∈ t /\ entry_key e = k /\ codec_ok e.
Proof.
  intros [_ Hu Hr]. rewrite entries_lookup by done. split.
  - destruct (lookup_key _ k t) as [raw|] eqn:E; [|done]. apply lookup_key_elem in E as [Hin <-].
    cbn. destruct (codec_validate raw) as [e'|] eqn:V; [|done]. intros [= ->].
    apply codec_exact in V as [-> ?]. done.
  - intros (Hin & <- & Hok). rewrite (proj2 (lookup_key_Some codec_key _ t (codec_row e) Hu)) by done.
    cbn. by rewrite validate_row.
Qed.

Lemma entries_size t : rows_ok t -> Z.of_nat (size (entries t)) = len t.
Proof.
  intros [_ Hu Hr]. induction Hr as [|raw t [e He] Hr IH]; [done|]. cbn. rewrite He.
  unfold unique in Hu. rewrite fmap_cons in Hu. apply NoDup_cons in Hu as [Hn Hu].
  rewrite map_size_insert_None, len_cons, <- IH; [lia|done|].
  rewrite entries_lookup by done. by rewrite (proj2 (lookup_key_None codec_key _ t)).
Qed.

Lemma rows_ok_ids t : rows_ok t -> Forall (fun r => 0 < codec_id r) t.
Proof.
  intros [_ _ Hr]. eapply Forall_impl; [exact Hr|]. intros raw [e [-> He]%codec_exact]. by apply codec_id_pos.
Qed.

(** An insertion under a new key. *)
Lemma entries_insert t e :
  rows_ok t -> codec_ok e -> codec_id (codec_row e) ∉ codec_id <$> t -> entries t !! entry_key e = None ->
  rows_ok (insert_row codec_id (codec_row e) t) /\
  entries (insert_row codec_id (codec_row e) t) = <[entry_key e := e]> (entries t).
Proof.
  intros [Ho Hu Hr] He Hid Hnone.
  assert (Hk : codec_key (codec_row e) ∉ codec_key <$> t).
  { apply lookup_key_None. rewrite entries_lookup in Hnone by done. fold (entry_key e).
    destruct (lookup_key _ _ t) as [raw|] eqn:E; [|done]. cbn in Hnone.
    apply lookup_key_elem in E as [Hin _]. rewrite Forall_forall in Hr.
    destruct (Hr _ Hin) as [? E']. by rewrite E' in Hnone. }
  assert (Hok : rows_ok (insert_row codec_id (codec_row e) t)).
  { constructor; [by apply insert_row_ordered|by apply insert_row_unique|].
    rewrite insert_row_perm. constructor; [exists e; by apply validate_row|done]. }
  split; [done|]. apply map_eq. intros k. rewrite entries_lookup by apply Hok.
  rewrite lookup_insert_row by done. fold (entry_key e). case_bool_decide as E.
  - subst. cbn. rewrite validate_row by done. by rewrite lookup_insert_eq.
  - rewrite lookup_insert_ne by done. by rewrite entries_lookup.
Qed.

Lemma entries_delete t p :
  rows_ok t ->
  rows_ok (delete_rows p t) /\
  entries (delete_rows p t) = filter (fun ke => p (codec_row (snd ke)) = false) (entries t).
Proof.
  intros [Ho Hu Hr].
  assert (Hok : rows_ok (delete_rows p t)).
  { constructor; [by apply filter_ordered|by apply filter_unique|].
    rewrite Forall_forall in *. intros r [_ Hin]%elem_of_delete_rows. auto. }
  split; [done|]. apply map_eq. intros k. rewrite entries_lookup by apply Hok.
  rewrite lookup_delete_rows by done. rewrite map_lookup_filter, entries_lookup by done.
  destruct (lookup_key _ k t) as [raw|] eqn:E; [|done]. apply lookup_key_elem in E as [Hin _].
  rewrite Forall_forall in Hr. destruct (Hr _ Hin) as [e He]. cbn. rewrite He. cbn.
  apply codec_exact in He as [-> He']. destruct (p (codec_row e)) eqn:P; cbn.
  - rewrite option_guard_False; [done|]. cbn. congruence.
  - rewrite option_guard_True by done. by rewrite validate_row.
Qed.

(** An update that stays inside the valid rows and keeps their identity. *)
Lemma entries_update t p f (g : Entry -> Entry) :
  rows_ok t ->
  (forall r, codec_id (f r) = codec_id r) -> (forall r, codec_key (f r) = codec_key r) ->
  (forall e, codec_ok e -> codec_row e ∈ t -> p (codec_row e) = true -> f (codec_row e) = codec_row (g e) /\ codec_ok (g e)) ->
  rows_ok (update_rows p f t) /\
  entries (update_rows p f t) = (fun e => if p (codec_row e) then g e else e) <$> entries t.
Proof.
  intros [Ho Hu Hr] Hid Hkey Hg.
  assert (Hok : rows_ok (update_rows p f t)).
  { constructor; [by apply update_rows_ordered|by apply update_rows_unique|].
    unfold update_rows. apply Forall_fmap. rewrite Forall_forall in *. intros r Hin. cbn.
    destruct (p r) eqn:P; [|auto]. destruct (Hr r Hin) as [e [-> He]%codec_exact].
    destruct (Hg e He Hin P) as [-> Hok]. exists (g e). by apply validate_row. }
  split; [done|]. apply map_eq. intros k. rewrite entries_lookup by apply Hok.
  rewrite lookup_update_rows by done. rewrite lookup_fmap, entries_lookup by done.
  destruct (lookup_key _ k t) as [raw|] eqn:E; [|done]. apply lookup_key_elem in E as [Hin _].
  rewrite Forall_forall in Hr. destruct (Hr _ Hin) as [e He]. cbn. rewrite He. cbn.
  apply codec_exact in He as [-> He]. destruct (p (codec_row e)) eqn:P.
  - destruct (Hg e He Hin P) as [-> Hok']. by rewrite validate_row.
  - by rewrite validate_row.
Qed.

(** Rows of one key: one at most. *)
Lemma rows_matching_key t k (q : Row -> bool) :
  unique codec_key t ->
  rows_matching (fun r => bool_decide (codec_key r = k) && q r) t =
  match lookup_key codec_key k t with Some r => if q r then 1 else 0 | None => 0 end.
Proof.
  unfold unique, rows_matching. induction t as [|r t IH]; [done|]. rewrite fmap_cons.
  intros [Hr Hu]%NoDup_cons. cbn [List.filter]. unfold lookup_key in *. cbn [List.find].
  destruct (decide (codec_key r = k)) as [E|E].
  - rewrite bool_decide_eq_true_2 by done. cbn [andb].
    assert (List.filter (fun r0 => bool_decide (codec_key r0 = k) && q r0) t = []) as Hnil.
    { destruct (List.filter _ t) as [|y l] eqn:F; [done|]. exfalso.
      assert (y ∈ List.filter (fun r0 => bool_decide (codec_key r0 = k) && q r0) t) as Hy by (rewrite F; left).
      apply elem_of_filter_rows in Hy as [Hy Hin]. apply andb_true_iff in Hy as [Hy _]. bool_prop.
      apply Hr. rewrite E, <- Hy. set_solver. }
    destruct (q r); rewrite Hnil; done.
  - rewrite bool_decide_eq_false_2 by done. cbn [andb]. by apply IH.
Qed.
End RowMap.
