(* ===== verification/CancelLedger.v ===== *)
(** The durable cancellation ledger: [automonique-store/src/cancel_ledger.rs].

    The table [cancel_requests] is the list of its rows in [entry_id] order (see
    [Table]); several processes may hold a handle on it, each with its own
    capacity, so an operation takes the handle's capacity and the table and
    answers with the table it leaves.  Every operation is one immediate
    transaction. *)

From S2P Require Import Prelude Text Table RowMap.

Definition CANCEL_LEDGER_SCHEMA_VERSION : Z := 2.
Definition MAX_LEDGER_ENTRIES : Z := 65536.
Definition MAX_IDENTIFIER_BYTES : Z := 256.
Definition MAX_BATCH_REQUESTS : Z := 1024.
Definition MAX_TERMINAL_ATTEMPTS : Z := 1024.

Inductive CancelLedgerError :=
| InsecurePath (reason : list Z)
| SchemaVersion (found supported : Z)
| InvalidField (field : string)
| Conflict (field : string) (recorded_attempt_id : list Z) (recorded_observed_sequence : Z)
| LedgerFull (capacity : Z)
| InFlight
| Corrupt (field : string)
| Io
| Sqlite.

Definition category (e : CancelLedgerError) : string :=
  match e with
  | InsecurePath _ => "insecure_path"
  | SchemaVersion _ _ => "schema_version"
  | InvalidField _ => "invalid_field"
  | Conflict _ _ _ => "conflict"
  | LedgerFull _ => "ledger_full"
  | InFlight => "in_flight"
  | Corrupt _ => "corrupt"
  | Io => "io"
  | Sqlite => "sqlite"
  end.

Record CancelRequest := mkRequest {
  rq_request_ref : list Z;
  rq_attempt_id : list Z;
  rq_observed_sequence : Z;
  rq_requested_at_ms : Z
}.

Inductive CancelDisposition := Delivered | AlreadyDelivered.

Definition disposition_as_str (d : CancelDisposition) : string :=
  match d with Delivered => "delivered" | AlreadyDelivered => "already_delivered" end.

Record CancelReceipt := mkReceipt { rc_entry_id : Z; rc_disposition : CancelDisposition }.

Inductive CancelEntryState := StateReserved | StateDelivered.

Definition state_as_str (s : CancelEntryState) : string :=
  match s with StateReserved => "reserved" | StateDelivered => "delivered" end.

Record CancelEntry := mkEntry {
  en_entry_id : Z;
  en_request_ref : list Z;
  en_attempt_id : list Z;
  en_observed_sequence : Z;
  en_requested_at_ms : Z;
  en_delivery_state : CancelEntryState
}.

Record CancelReservation := mkReservation {
  rs_entry_id : Z;
  rs_request_ref : list Z;
  rs_attempt_id : list Z;
  rs_observed_sequence : Z
}.

Inductive CancelReserveDisposition :=
| Reserved (r : CancelReservation)
| ReplayDelivered (r : CancelReceipt).

Record Retention := mkRetention { older_than_ms : Z; terminal_attempts : list (list Z) }.
Record PruneOutcome := mkPrune { removed : Z; remaining : Z }.

(** A row as it is stored. *)
Record RawEntry := mkRaw {
  raw_entry_id : Z;
  raw_request_ref : list Z;
  raw_attempt_id : list Z;
  raw_observed_sequence : Z;
  raw_requested_at_ms : Z;
  raw_delivery_state : list Z
}.

#[export] Instance CancelEntryState_eq_dec : EqDecision CancelEntryState.
Proof. solve_decision. Defined.
#[export] Instance RawEntry_eq_dec : EqDecision RawEntry.
Proof. solve_decision. Defined.
#[export] Instance CancelReservation_eq_dec : EqDecision CancelReservation.
Proof. solve_decision. Defined.

Abbreviation Ledgered A := (result CancelLedgerError A).
Abbreviation Rows := (list RawEntry).

(** * Validation *)

Definition validate_identifier (value : list Z) (field : string) : Ledgered unit :=
  if bool_decide (value = []) || (MAX_IDENTIFIER_BYTES <? str_len value) || existsb is_control value
  then Err (InvalidField field) else Ok tt.

Definition validate_time (value : Z) (field : string) : Ledgered unit :=
  if value <? 0 then Err (InvalidField field) else Ok tt.

Definition validate_row_id (value : Z) (field : string) : Ledgered unit :=
  if value <=? 0 then Err (InvalidField field) else Ok tt.

Definition corrupt_field (field : string) : CancelLedgerError := Corrupt field.

Definition checked_identifier (value : list Z) (field : string) : Ledgered (list Z) :=
  _ ← map_err (fun _ => corrupt_field field) (validate_identifier value field); Ok value.

Definition checked_time (value : Z) (field : string) : Ledgered Z :=
  _ ← map_err (fun _ => corrupt_field field) (validate_time value field); Ok value.

Definition checked_row_id (value : Z) (field : string) : Ledgered Z :=
  _ ← map_err (fun _ => corrupt_field field) (validate_row_id value field); Ok value.

Definition to_db_u64 (value : Z) (field : string) : Ledgered Z :=
  ok_or (check_i64 value) (InvalidField field).

Definition from_db_u64 (value : Z) (field : string) : Ledgered Z :=
  ok_or (check_u64 value) (InvalidField field).

Definition validate_request (request : CancelRequest) : Ledgered unit :=
  _ ← validate_identifier (rq_request_ref request) "request_ref";
  _ ← validate_identifier (rq_attempt_id request) "attempt_id";
  _ ← validate_time (rq_requested_at_ms request) "requested_at_ms";
  _ ← to_db_u64 (rq_observed_sequence request) "observed_sequence"; Ok tt.

Definition state_of_spelling (s : list Z) : option CancelEntryState :=
  if bool_decide (s = str "reserved") then Some StateReserved
  else if bool_decide (s = str "delivered") then Some StateDelivered
  else None.

Definition validated_entry (raw : RawEntry) : Ledgered CancelEntry :=
  entry_id ← checked_row_id (raw_entry_id raw) "entry_id";
  request_ref ← checked_identifier (raw_request_ref raw) "request_ref";
  attempt_id ← checked_identifier (raw_attempt_id raw) "attempt_id";
  observed_sequence ← map_err (fun _ => corrupt_field "observed_sequence")
    (from_db_u64 (raw_observed_sequence raw) "observed_sequence");
  requested_at_ms ← checked_time (raw_requested_at_ms raw) "requested_at_ms";
  delivery_state ← ok_or (state_of_spelling (raw_delivery_state raw)) (corrupt_field "delivery_state");
  Ok (mkEntry entry_id request_ref attempt_id observed_sequence requested_at_ms delivery_state).

Definition validate_same_binding (recorded : CancelEntry) (request : CancelRequest) : Ledgered unit :=
  if negb (bool_decide (en_attempt_id recorded = rq_attempt_id request))
  then Err (Conflict "attempt_id" (en_attempt_id recorded) (en_observed_sequence recorded))
  else if negb (en_observed_sequence recorded =? rq_observed_sequence request)
  then Err (Conflict "observed_sequence" (en_attempt_id recorded) (en_observed_sequence recorded))
  else Ok tt.

Definition validate_reservation (recorded : CancelEntry) (reservation : CancelReservation)
  : Ledgered unit :=
  if negb (en_entry_id recorded =? rs_entry_id reservation)
     || negb (bool_decide (en_attempt_id recorded = rs_attempt_id reservation))
     || negb (en_observed_sequence recorded =? rs_observed_sequence reservation)
  then Err (Corrupt "reservation_binding") else Ok tt.

(** * Reading *)

Definition read_entry_by_ref (request_ref : list Z) (t : Rows) : Ledgered (option CancelEntry) :=
  match lookup_key raw_request_ref request_ref t with
  | None => Ok None
  | Some raw => e ← validated_entry raw; Ok (Some e)
  end.

Fixpoint validated_entries (raws : Rows) : Ledgered (list CancelEntry) :=
  match raws with
  | [] => Ok []
  | raw :: raws => e ← validated_entry raw; es ← validated_entries raws; Ok (e :: es)
  end.

Definition read_attempt_entries (attempt_id : list Z) (t : Rows) : Ledgered (list CancelEntry) :=
  validated_entries (List.filter (fun r => bool_decide (raw_attempt_id r = attempt_id)) t).

(** The row count fits its types. *)
Definition count_entries (t : Rows) : Ledgered Z := Ok (len t).

Definition entry (request_ref : list Z) (t : Rows) : Ledgered (option CancelEntry) :=
  _ ← validate_identifier request_ref "request_ref"; read_entry_by_ref request_ref t.

Definition attempt_requests (attempt_id : list Z) (t : Rows) : Ledgered (list CancelEntry) :=
  _ ← validate_identifier attempt_id "attempt_id"; read_attempt_entries attempt_id t.

Definition entry_count (t : Rows) : Ledgered Z := count_entries t.

Section Writers.
Context `{RandomRowid}.

(** [INSERT INTO cancel_requests]: the id of the new row, and the table. *)
Definition insert_request (request : CancelRequest) (state : CancelEntryState) (t : Rows)
  : Ledgered (Z * Rows) :=
  observed_sequence ← to_db_u64 (rq_observed_sequence request) "observed_sequence";
  entry_id ← ok_or (next_rowid raw_entry_id t) Sqlite;
  Ok (entry_id, insert_row raw_entry_id
        (mkRaw entry_id (rq_request_ref request) (rq_attempt_id request) observed_sequence
           (rq_requested_at_ms request) (str (state_as_str state))) t).

(** [live] counts the rows, with those this transaction inserted. *)
Definition record_row (request : CancelRequest) (capacity live : Z) (t : Rows)
  : Ledgered (CancelReceipt * Z * Rows) :=
  found ← read_entry_by_ref (rq_request_ref request) t;
  match found with
  | Some recorded =>
      _ ← validate_same_binding recorded request;
      if bool_decide (en_delivery_state recorded = StateReserved) then Err InFlight
      else Ok (mkReceipt (en_entry_id recorded) AlreadyDelivered, live, t)
  | None =>
      if capacity <=? live then Err (LedgerFull capacity)
      else
        '(entry_id, t') ← insert_request request StateDelivered t;
        live ← ok_or (check_u64 (live + 1)) (InvalidField "batch_length");
        Ok (mkReceipt entry_id Delivered, live, t')
  end.

Definition record_body (capacity : Z) (request : CancelRequest) (t : Rows)
  : Ledgered (CancelReceipt * Rows) :=
  _ ← validate_request request;
  live ← count_entries t;
  '(receipt, _, t') ← record_row request capacity live t;
  Ok (receipt, t').

Definition record (capacity : Z) (request : CancelRequest) (t : Rows) : Ledgered CancelReceipt * Rows :=
  transact (record_body capacity request t) t.

Definition reserve_body (capacity : Z) (request : CancelRequest) (t : Rows)
  : Ledgered (CancelReserveDisposition * Rows) :=
  _ ← validate_request request;
  live ← count_entries t;
  found ← read_entry_by_ref (rq_request_ref request) t;
  match found with
  | Some recorded =>
      _ ← validate_same_binding recorded request;
      match en_delivery_state recorded with
      | StateDelivered => Ok (ReplayDelivered (mkReceipt (en_entry_id recorded) AlreadyDelivered), t)
      | StateReserved => Err InFlight
      end
  | None =>
      if capacity <=? live then Err (LedgerFull capacity)
      else
        '(entry_id, t') ← insert_request request StateReserved t;
        Ok (Reserved (mkReservation entry_id (rq_request_ref request) (rq_attempt_id request)
                        (rq_observed_sequence request)), t')
  end.

Definition reserve (capacity : Z) (request : CancelRequest) (t : Rows)
  : Ledgered CancelReserveDisposition * Rows :=
  transact (reserve_body capacity request t) t.

(** [WHERE entry_id = ?1 AND delivery_state = 'reserved']. *)
Definition reserved_row (entry_id : Z) (r : RawEntry) : bool :=
  (raw_entry_id r =? entry_id) && bool_decide (raw_delivery_state r = str "reserved").

Definition set_delivered (r : RawEntry) : RawEntry :=
  mkRaw (raw_entry_id r) (raw_request_ref r) (raw_attempt_id r) (raw_observed_sequence r)
    (raw_requested_at_ms r) (str "delivered").

Definition complete_body (reservation : CancelReservation) (t : Rows)
  : Ledgered (CancelReceipt * Rows) :=
  found ← read_entry_by_ref (rs_request_ref reservation) t;
  recorded ← ok_or found (Corrupt "reservation_missing");
  _ ← validate_reservation recorded reservation;
  if bool_decide (en_delivery_state recorded = StateDelivered)
  then Ok (mkReceipt (en_entry_id recorded) AlreadyDelivered, t)
  else if negb (rows_matching (reserved_row (rs_entry_id reservation)) t =? 1)
  then Err (Corrupt "reservation_state")
  else Ok (mkReceipt (en_entry_id recorded) Delivered,
           update_rows (reserved_row (rs_entry_id reservation)) set_delivered t).

Definition complete (reservation : CancelReservation) (t : Rows) : Ledgered CancelReceipt * Rows :=
  transact (complete_body reservation t) t.

Definition abandon_body (reservation : CancelReservation) (t : Rows) : Ledgered (unit * Rows) :=
  found ← read_entry_by_ref (rs_request_ref reservation) t;
  recorded ← ok_or found (Corrupt "reservation_missing");
  _ ← validate_reservation recorded reservation;
  if negb (bool_decide (en_delivery_state recorded = StateReserved))
  then Err (Corrupt "reservation_state")
  else if negb (rows_matching (reserved_row (rs_entry_id reservation)) t =? 1)
  then Err (Corrupt "reservation_state")
  else Ok (tt, delete_rows (reserved_row (rs_entry_id reservation)) t).

Definition abandon (reservation : CancelReservation) (t : Rows) : Ledgered unit * Rows :=
  transact (abandon_body reservation t) t.

Fixpoint validate_requests (requests : list CancelRequest) : Ledgered unit :=
  match requests with
  | [] => Ok tt
  | request :: requests => _ ← validate_request request; validate_requests requests
  end.

Fixpoint record_rows (requests : list CancelRequest) (capacity live : Z) (t : Rows)
  : Ledgered (list CancelReceipt * Rows) :=
  match requests with
  | [] => Ok ([], t)
  | request :: requests =>
      '(receipt, live, t) ← record_row request capacity live t;
      '(receipts, t) ← record_rows requests capacity live t;
      Ok (receipt :: receipts, t)
  end.

Definition record_all_body (capacity : Z) (requests : list CancelRequest) (t : Rows)
  : Ledgered (list CancelReceipt * Rows) :=
  if MAX_BATCH_REQUESTS <? len requests then Err (InvalidField "batch_length")
  else
    _ ← validate_requests requests;
    live ← count_entries t;
    record_rows requests capacity live t.

Definition record_all (capacity : Z) (requests : list CancelRequest) (t : Rows)
  : Ledgered (list CancelReceipt) * Rows :=
  transact (record_all_body capacity requests t) t.
End Writers.

(** * Pruning *)

Fixpoint validate_attempts (attempts : list (list Z)) : Ledgered unit :=
  match attempts with
  | [] => Ok tt
  | attempt :: attempts => _ ← validate_identifier attempt "attempt_id"; validate_attempts attempts
  end.

(** [WHERE attempt_id = ?1 AND requested_at_ms < ?2]. *)
Definition prunable (older_than_ms : Z) (attempt : list Z) (r : RawEntry) : bool :=
  bool_decide (raw_attempt_id r = attempt) && (raw_requested_at_ms r <? older_than_ms).

Fixpoint prune_attempts (older_than_ms : Z) (attempts : list (list Z)) (removed : Z) (t : Rows)
  : Ledgered (Z * Rows) :=
  match attempts with
  | [] => Ok (removed, t)
  | attempt :: attempts =>
      removed ← ok_or (check_u64 (removed + rows_matching (prunable older_than_ms attempt) t))
        (InvalidField "terminal_attempts");
      prune_attempts older_than_ms attempts removed (delete_rows (prunable older_than_ms attempt) t)
  end.

Definition prune_body (retention : Retention) (t : Rows) : Ledgered (PruneOutcome * Rows) :=
  _ ← validate_time (older_than_ms retention) "older_than_ms";
  if MAX_TERMINAL_ATTEMPTS <? len (terminal_attempts retention)
  then Err (InvalidField "terminal_attempts")
  else
    _ ← validate_attempts (terminal_attempts retention);
    '(removed, t') ← prune_attempts (older_than_ms retention) (terminal_attempts retention) 0 t;
    remaining ← count_entries t';
    Ok (mkPrune removed remaining, t').

Definition prune (retention : Retention) (t : Rows) : Ledgered PruneOutcome * Rows :=
  transact (prune_body retention t) t.

(** * Opening *)

(** A row of schema version 1, which had no delivery state. *)
Record RawEntryV1 := mkRawV1 {
  v1_entry_id : Z;
  v1_request_ref : list Z;
  v1_attempt_id : list Z;
  v1_observed_sequence : Z;
  v1_requested_at_ms : Z
}.

Inductive CancelTable := TableV1 (rows : list RawEntryV1) | TableV2 (rows : Rows).

(** The database file: its [user_version], how many objects its schema has and
    the table, if it is there. *)
Record Database := mkDatabase {
  user_version : Z;
  schema_objects : Z;
  cancel_requests : option CancelTable
}.

(** [MIGRATE_V1_TO_V2]: the new column takes its default in every row.  Without
    the table, or when it has the column already, the statement fails. *)
Definition migrated_row (r : RawEntryV1) : RawEntry :=
  mkRaw (v1_entry_id r) (v1_request_ref r) (v1_attempt_id r) (v1_observed_sequence r)
    (v1_requested_at_ms r) (str "delivered").

Definition migrate (db : Database) : Ledgered Database :=
  match cancel_requests db with
  | Some (TableV1 rows) =>
      Ok (mkDatabase CANCEL_LEDGER_SCHEMA_VERSION (schema_objects db)
            (Some (TableV2 (migrated_row <$> rows))))
  | _ => Err Sqlite
  end.

Definition initialize_or_validate_schema (db : Database) : Ledgered Database :=
  if user_version db =? CANCEL_LEDGER_SCHEMA_VERSION then Ok db
  else if user_version db =? 1 then migrate db
  else if negb (user_version db =? 0)
  then Err (SchemaVersion (user_version db) CANCEL_LEDGER_SCHEMA_VERSION)
  else if negb (schema_objects db =? 0)
  then Err (SchemaVersion 0 CANCEL_LEDGER_SCHEMA_VERSION)
  else Ok (mkDatabase CANCEL_LEDGER_SCHEMA_VERSION 2 (Some (TableV2 []))).

(** [secured] and [secured_again] are the two checks of the path, [opened] is
    creating the file when it is absent and opening it. *)
Definition open_with_capacity (capacity : Z) (secured : Ledgered unit) (secured_again : Ledgered unit)
    (opened : Ledgered Database) : Ledgered (Z * Database) :=
  if (capacity =? 0) || (MAX_LEDGER_ENTRIES <? capacity) then Err (InvalidField "capacity")
  else
    _ ← secured;
    _ ← secured_again;
    db ← opened;
    db ← initialize_or_validate_schema db;
    Ok (capacity, db).

Definition open (secured secured_again : Ledgered unit) (opened : Ledgered Database)
  : Ledgered (Z * Database) :=
  open_with_capacity MAX_LEDGER_ENTRIES secured secured_again opened.

(** * Rows the operations believe *)

Definition identifier_ok (value : list Z) : bool :=
  negb (bool_decide (value = [])) && (str_len value <=? MAX_IDENTIFIER_BYTES)
  && negb (existsb is_control value).

Record entry_ok (e : CancelEntry) : Prop := mkEntryOk {
  ok_id : 0 < en_entry_id e;
  ok_ref : identifier_ok (en_request_ref e) = true;
  ok_attempt : identifier_ok (en_attempt_id e) = true;
  ok_sequence : in_u64 (en_observed_sequence e);
  ok_time : 0 <= en_requested_at_ms e
}.

Definition row_of (e : CancelEntry) : RawEntry :=
  mkRaw (en_entry_id e) (en_request_ref e) (en_attempt_id e) (en_observed_sequence e)
    (en_requested_at_ms e) (str (state_as_str (en_delivery_state e))).

Lemma validate_identifier_Ok value field u :
  validate_identifier value field = Ok u <-> identifier_ok value = true.
Proof.
  destruct u. unfold validate_identifier, identifier_ok. rewrite (Z.ltb_antisym (str_len value)).
  destruct (bool_decide _), (str_len value <=? _), (existsb _ _); cbn; naive_solver.
Qed.

Lemma checked_Ok {A} (m : Ledgered unit) field (value a : A) :
  (_ ← map_err (fun _ => corrupt_field field) m; Ok value) = Ok a <-> m = Ok tt /\ a = value.
Proof. destruct m as [[]|]; cbn; naive_solver. Qed.

Lemma validate_time_Ok value field u : validate_time value field = Ok u <-> 0 <= value.
Proof. destruct u. unfold validate_time. case_match; bool_prop; naive_solver lia. Qed.

Lemma validate_row_id_Ok value field u : validate_row_id value field = Ok u <-> 0 < value.
Proof. destruct u. unfold validate_row_id. case_match; bool_prop; naive_solver lia. Qed.

Lemma state_of_spelling_Some s st : state_of_spelling s = Some st <-> s = str (state_as_str st).
Proof.
  unfold state_of_spelling. destruct st; repeat case_bool_decide; subst; naive_solver.
Qed.

(** What validation accepts are the rows of valid entries, and it answers the entry. *)
Lemma validated_entry_Ok raw e : validated_entry raw = Ok e <-> raw = row_of e /\ entry_ok e.
Proof.
  unfold validated_entry, checked_row_id, checked_identifier, checked_time, from_db_u64. split.
  - intros H. do 6 (apply bind_Ok in H as (? & E & H); revert E). injection H as <-.
    intros E6%ok_or_Ok%state_of_spelling_Some [E5 ->]%checked_Ok E4 [E3 ->]%checked_Ok
      [E2 ->]%checked_Ok [E1 ->]%checked_Ok.
    destruct (check_u64 _) eqn:E; [|done]. injection E4 as ->.
    apply check_u64_Some in E as [-> ?]. destruct raw; cbn in *; subst.
    split; [done|]. constructor; cbn; [by eapply validate_row_id_Ok|by eapply validate_identifier_Ok..
      |done|by eapply validate_time_Ok].
  - intros [-> [H1 H2 H3 H4 H5]]. destruct e as [id ref at_ seq tm st]; cbn in *.
    rewrite (proj2 (validate_row_id_Ok id "entry_id" tt) H1). cbn.
    rewrite (proj2 (validate_identifier_Ok ref "request_ref" tt) H2). cbn.
    rewrite (proj2 (validate_identifier_Ok at_ "attempt_id" tt) H3). cbn.
    rewrite (proj2 (check_u64_Some seq seq)) by done. cbn.
    rewrite (proj2 (validate_time_Ok tm "requested_at_ms" tt) H5). cbn.
    rewrite (proj2 (state_of_spelling_Some (str (state_as_str st)) st)) by done. done.
Qed.

(** * The ledger as a map from references to entries *)

#[export] Instance cancel_codec : RowCodec RawEntry CancelEntry CancelLedgerError (list Z) := {
  codec_id := raw_entry_id;
  codec_key := raw_request_ref;
  codec_validate := validated_entry;
  codec_row := row_of;
  codec_ok := entry_ok
}.

#[export] Instance cancel_codec_laws : RowCodecLaws RawEntry CancelEntry CancelLedgerError (list Z).
Proof. split; [exact validated_entry_Ok|]. intros e H. apply H. Qed.

(** The table as its own writers leave it, and the map it is. *)
Definition ledger_ok (t : Rows) : Prop := rows_ok t.
Definition entries_of (t : Rows) : gmap (list Z) CancelEntry := entries t.
#[global] Arguments entries_of : simpl never.

Lemma entries_of_lookup t k :
  ledger_ok t ->
  entries_of t !! k = lookup_key raw_request_ref k t ≫= fun raw => ok (validated_entry raw).
Proof. intros [_ _ H]. exact (entries_lookup t k H). Qed.

Lemma read_entry_by_ref_eq t k : ledger_ok t -> read_entry_by_ref k t = Ok (entries_of t !! k).
Proof. intros [_ _ H]. exact (read_by_key_eq t k H). Qed.

Lemma entries_of_Some t k e :
  ledger_ok t -> entries_of t !! k = Some e <-> row_of e ∈ t /\ en_request_ref e = k /\ entry_ok e.
Proof. exact (entries_Some t k e). Qed.

Lemma entries_of_size t : ledger_ok t -> Z.of_nat (size (entries_of t)) = len t.
Proof. exact (entries_size t). Qed.

Lemma insert_entry t e :
  ledger_ok t -> entry_ok e -> en_entry_id e ∉ raw_entry_id <$> t ->
  entries_of t !! en_request_ref e = None ->
  ledger_ok (insert_row raw_entry_id (row_of e) t) /\
  entries_of (insert_row raw_entry_id (row_of e) t) = <[en_request_ref e := e]> (entries_of t).
Proof. exact (entries_insert t e). Qed.

Lemma delete_entries t p :
  ledger_ok t ->
  ledger_ok (delete_rows p t) /\
  entries_of (delete_rows p t) = filter (fun ke => p (row_of (snd ke)) = false) (entries_of t).
Proof. exact (entries_delete t p). Qed.

(** * The abstract ledger

    What the ledger promises, on the map alone: a reference is absent, reserved
    or delivered, and stays bound to one attempt and sequence while it is
    there.  [alloc] is the row id a new entry gets, if SQLite finds one. *)

Definition new_entry (id : Z) (st : CancelEntryState) (rq : CancelRequest) : CancelEntry :=
  mkEntry id (rq_request_ref rq) (rq_attempt_id rq) (rq_observed_sequence rq) (rq_requested_at_ms rq) st.

Definition delivered (e : CancelEntry) : CancelEntry :=
  mkEntry (en_entry_id e) (en_request_ref e) (en_attempt_id e) (en_observed_sequence e)
    (en_requested_at_ms e) StateDelivered.

Definition reservation_of (e : CancelEntry) : CancelReservation :=
  mkReservation (en_entry_id e) (en_request_ref e) (en_attempt_id e) (en_observed_sequence e).

Inductive Call :=
| CallRecord (rq : CancelRequest)
| CallReserve (rq : CancelRequest)
| CallComplete (rs : CancelReservation)
| CallAbandon (rs : CancelReservation)
| CallPrune (ret : Retention).

Inductive Answer :=
| AnsReceipt (r : CancelReceipt)
| AnsReserved (r : CancelReservation)
| AnsAbandoned
| AnsPruned (o : PruneOutcome).

Definition receipt_answer (r : CancelReserveDisposition) : Answer :=
  match r with Reserved r => AnsReserved r | ReplayDelivered r => AnsReceipt r end.

Definition map_fst {E A B T} (f : A -> B) (r : result E A * T) : result E B * T :=
  (f <$> fst r, snd r).

Definition run_call `{RandomRowid} (capacity : Z) (c : Call) (t : Rows) : Ledgered Answer * Rows :=
  match c with
  | CallRecord rq => map_fst AnsReceipt (record capacity rq t)
  | CallReserve rq => map_fst receipt_answer (reserve capacity rq t)
  | CallComplete rs => map_fst AnsReceipt (complete rs t)
  | CallAbandon rs => map_fst (fun _ => AnsAbandoned) (abandon rs t)
  | CallPrune ret => map_fst AnsPruned (prune ret t)
  end.

Abbreviation Entries := (gmap (list Z) CancelEntry).

(** A new reference: refused when the ledger is full, else bound to a new row. *)
Definition spec_new (capacity : Z) (alloc : option Z) (st : CancelEntryState) (rq : CancelRequest)
    (m : Entries) (answer : CancelEntry -> Answer) : Ledgered Answer * Entries :=
  if capacity <=? Z.of_nat (size m) then (Err (LedgerFull capacity), m)
  else match alloc with
       | None => (Err Sqlite, m)
       | Some id => (Ok (answer (new_entry id st rq)), <[rq_request_ref rq := new_entry id st rq]> m)
       end.

(** A known reference: a conflict, in flight, or an exact replay.  Nothing changes. *)
Definition spec_known (e : CancelEntry) (rq : CancelRequest) : Ledgered Answer :=
  if negb (bool_decide (en_attempt_id e = rq_attempt_id rq))
  then Err (Conflict "attempt_id" (en_attempt_id e) (en_observed_sequence e))
  else if negb (en_observed_sequence e =? rq_observed_sequence rq)
  then Err (Conflict "observed_sequence" (en_attempt_id e) (en_observed_sequence e))
  else match en_delivery_state e with
       | StateReserved => Err InFlight
       | StateDelivered => Ok (AnsReceipt (mkReceipt (en_entry_id e) AlreadyDelivered))
       end.

Definition spec_present (capacity : Z) (alloc : option Z) (st : CancelEntryState) (rq : CancelRequest)
    (answer : CancelEntry -> Answer) (m : Entries) : Ledgered Answer * Entries :=
  match validate_request rq with
  | Err e => (Err e, m)
  | Ok _ =>
      match m !! rq_request_ref rq with
      | Some e => (spec_known e rq, m)
      | None => spec_new capacity alloc st rq m answer
      end
  end.

(** What a reservation finds: no entry, another binding, or its own entry. *)
Definition spec_held (rs : CancelReservation) (m : Entries) : Ledgered CancelEntry :=
  match m !! rs_request_ref rs with
  | None => Err (Corrupt "reservation_missing")
  | Some e => if bool_decide (reservation_of e = rs) then Ok e else Err (Corrupt "reservation_binding")
  end.

Definition kept (ret : Retention) (e : CancelEntry) : bool :=
  negb (bool_decide (en_attempt_id e ∈ terminal_attempts ret) && (en_requested_at_ms e <? older_than_ms ret)).

Definition spec_prune (ret : Retention) (m : Entries) : Ledgered Answer * Entries :=
  if (older_than_ms ret <? 0) then (Err (InvalidField "older_than_ms"), m)
  else if MAX_TERMINAL_ATTEMPTS <? len (terminal_attempts ret)
  then (Err (InvalidField "terminal_attempts"), m)
  else if negb (forallb identifier_ok (terminal_attempts ret))
  then (Err (InvalidField "attempt_id"), m)
  else let m' := filter (fun ke => kept ret (snd ke) = true) m in
       (Ok (AnsPruned (mkPrune (Z.of_nat (size m) - Z.of_nat (size m')) (Z.of_nat (size m')))), m').

Definition spec_call (capacity : Z) (alloc : option Z) (c : Call) (m : Entries)
  : Ledgered Answer * Entries :=
  match c with
  | CallRecord rq =>
      spec_present capacity alloc StateDelivered rq
        (fun e => AnsReceipt (mkReceipt (en_entry_id e) Delivered)) m
  | CallReserve rq =>
      spec_present capacity alloc StateReserved rq (fun e => AnsReserved (reservation_of e)) m
  | CallComplete rs =>
      match spec_held rs m with
      | Err e => (Err e, m)
      | Ok e =>
          match en_delivery_state e with
          | StateDelivered => (Ok (AnsReceipt (mkReceipt (en_entry_id e) AlreadyDelivered)), m)
          | StateReserved =>
              (Ok (AnsReceipt (mkReceipt (en_entry_id e) Delivered)), <[rs_request_ref rs := delivered e]> m)
          end
      end
  | CallAbandon rs =>
      match spec_held rs m with
      | Err e => (Err e, m)
      | Ok e =>
          match en_delivery_state e with
          | StateDelivered => (Err (Corrupt "reservation_state"), m)
          | StateReserved => (Ok AnsAbandoned, delete (rs_request_ref rs) m)
          end
      end
  | CallPrune ret => spec_prune ret m
  end.

(** * The table implements the map *)

(** What holds of the table under every handle's capacity. *)
Definition ledger_inv (t : Rows) : Prop := ledger_ok t /\ len t <= MAX_LEDGER_ENTRIES.

Definition handle_capacity (capacity : Z) : Prop := 0 < capacity <= MAX_LEDGER_ENTRIES.

(** One call: the answers agree, and the tables still correspond. *)
Definition refines (r : Ledgered Answer * Rows) (s : Ledgered Answer * Entries) : Prop :=
  fst r = fst s /\ entries_of (snd r) = snd s /\ ledger_ok (snd r).

Lemma refines_same (a : Ledgered Answer) t m :
  ledger_ok t -> entries_of t = m -> refines (a, t) (a, m).
Proof. intros ? <-. by split. Qed.

Lemma validate_request_Ok rq u :
  validate_request rq = Ok u ->
  identifier_ok (rq_request_ref rq) = true /\ identifier_ok (rq_attempt_id rq) = true /\
  0 <= rq_requested_at_ms rq /\ in_i64 (rq_observed_sequence rq).
Proof.
  unfold validate_request, to_db_u64. intros H.
  apply bind_Ok in H as (? & H1%validate_identifier_Ok & H).
  apply bind_Ok in H as (? & H2%validate_identifier_Ok & H).
  apply bind_Ok in H as (? & H3%validate_time_Ok & H).
  apply bind_Ok in H as (? & H4%ok_or_Ok%check_i64_Some & _). tauto.
Qed.

Lemma new_entry_ok id st rq u :
  validate_request rq = Ok u -> in_u64 (rq_observed_sequence rq) -> 0 < id -> entry_ok (new_entry id st rq).
Proof. intros (? & ? & ? & ?)%validate_request_Ok ? ?. by constructor. Qed.

Lemma ledger_ok_ids t : ledger_ok t -> Forall (fun r => 0 < raw_entry_id r) t.
Proof. exact (rows_ok_ids t). Qed.

Lemma insert_request_eq `{RandomRowid} rq st t :
  in_i64 (rq_observed_sequence rq) ->
  insert_request rq st t =
  match next_rowid raw_entry_id t with
  | None => Err Sqlite
  | Some id => Ok (id, insert_row raw_entry_id (row_of (new_entry id st rq)) t)
  end.
Proof.
  intros Hs. unfold insert_request, to_db_u64.
  rewrite (proj2 (check_i64_Some _ _)) by (split; [reflexivity|done]). cbn.
  by destruct (next_rowid _ _).
Qed.

(** Inserting for a new reference implements [spec_new]. *)
Lemma insert_refines `{RandomRowidLaws} capacity rq st t answer :
  ledger_ok t -> validate_request rq = Ok tt -> in_u64 (rq_observed_sequence rq) ->
  entries_of t !! rq_request_ref rq = None -> len t < capacity ->
  refines
    (transact ('(id, t') ← insert_request rq st t; Ok (answer (new_entry id st rq), t')) t)
    (spec_new capacity (next_rowid raw_entry_id t) st rq (entries_of t) answer).
Proof.
  intros Hok Hv Hs Hn Hc. unfold spec_new. rewrite entries_of_size by done.
  rewrite (proj2 (Z.leb_gt _ _) Hc), insert_request_eq by (by eapply validate_request_Ok).
  destruct (next_rowid raw_entry_id t) as [id|] eqn:E; cbn; [|by apply refines_same].
  destruct (insert_entry t (new_entry id st rq)) as [Ho He]; [done| | |done|by split].
  - eapply new_entry_ok; [done..|]. exact (proj1 (next_rowid_range raw_entry_id t id (ledger_ok_ids t Hok) E)).
  - exact (next_rowid_fresh raw_entry_id t id E).
Qed.

Lemma same_binding_known e rq :
  (_ ← validate_same_binding e rq;
   match en_delivery_state e with
   | StateDelivered => Ok (AnsReceipt (mkReceipt (en_entry_id e) AlreadyDelivered))
   | StateReserved => Err InFlight
   end) = spec_known e rq.
Proof. unfold validate_same_binding, spec_known. by repeat case_match. Qed.

Lemma record_refines `{RandomRowidLaws} capacity rq t :
  ledger_inv t -> handle_capacity capacity -> in_u64 (rq_observed_sequence rq) ->
  refines (run_call capacity (CallRecord rq) t)
    (spec_call capacity (next_rowid raw_entry_id t) (CallRecord rq) (entries_of t)).
Proof.
  intros [Hok Hl] Hc Hs. cbn [run_call spec_call]. unfold map_fst, record, record_body, spec_present, count_entries.
  destruct (validate_request rq) as [[]|] eqn:V; [|by apply refines_same]. cbn.
  unfold record_row. rewrite read_entry_by_ref_eq by done. cbn.
  destruct (entries_of t !! rq_request_ref rq) as [e|] eqn:E; cbn.
  - rewrite <- same_binding_known.
    destruct (validate_same_binding e rq); [|by apply refines_same]. cbn.
    destruct (en_delivery_state e); by apply refines_same.
  - unfold spec_new. destruct (Z.leb_spec capacity (len t)) as [?|Hlt].
    { rewrite entries_of_size by done. rewrite (proj2 (Z.leb_le _ _)) by done. by apply refines_same. }
    pose proof (insert_refines capacity rq StateDelivered t
      (fun e => AnsReceipt (mkReceipt (en_entry_id e) Delivered)) Hok V Hs E Hlt) as Hr.
    unfold spec_new in Hr. revert Hr. destruct (insert_request rq StateDelivered t) as [[id t']|] eqn:I; [|done].
    cbn. unfold handle_capacity, MAX_LEDGER_ENTRIES in *. pose proof (len_nonneg t).
    rewrite (proj2 (check_u64_Some (len t + 1) (len t + 1))); [done|]. split; [done|]. mlia.
Qed.

Lemma reserve_refines `{RandomRowidLaws} capacity rq t :
  ledger_ok t -> in_u64 (rq_observed_sequence rq) ->
  refines (run_call capacity (CallReserve rq) t)
    (spec_call capacity (next_rowid raw_entry_id t) (CallReserve rq) (entries_of t)).
Proof.
  intros Hok Hs. cbn [run_call spec_call]. unfold map_fst, reserve, reserve_body, spec_present, count_entries.
  destruct (validate_request rq) as [[]|] eqn:V; [|by apply refines_same]. cbn.
  rewrite read_entry_by_ref_eq by done. cbn.
  destruct (entries_of t !! rq_request_ref rq) as [e|] eqn:E; cbn.
  - rewrite <- same_binding_known.
    destruct (validate_same_binding e rq); [|by apply refines_same]. cbn.
    destruct (en_delivery_state e); by apply refines_same.
  - unfold spec_new. destruct (Z.leb_spec capacity (len t)) as [?|Hlt].
    { rewrite entries_of_size by done. rewrite (proj2 (Z.leb_le _ _)) by done. by apply refines_same. }
    pose proof (insert_refines capacity rq StateReserved t
      (fun e => AnsReserved (reservation_of e)) Hok V Hs E Hlt) as Hr.
    unfold spec_new in Hr. revert Hr. by destruct (insert_request rq StateReserved t) as [[id t']|] eqn:I.
Qed.

(** The row a reservation names is its entry's, and the only one of that id. *)
Lemma reserved_row_eq t e x :
  ledger_ok t -> row_of e ∈ t -> en_delivery_state e = StateReserved -> x ∈ t ->
  reserved_row (en_entry_id e) x = bool_decide (x = row_of e).
Proof.
  intros [Ho _ _] He Hst Hx. unfold reserved_row. destruct (decide (x = row_of e)) as [->|E].
  - rewrite (bool_decide_eq_true_2 (row_of e = row_of e)) by done. cbn. by rewrite Z.eqb_refl, Hst.
  - rewrite (bool_decide_eq_false_2 (x = row_of e)) by done. destruct (Z.eqb_spec (raw_entry_id x) (en_entry_id e)) as [E'|]; [|done].
    exfalso. apply E. by eapply ordered_inj.
Qed.

Lemma reserved_row_one t e :
  ledger_ok t -> row_of e ∈ t -> en_delivery_state e = StateReserved ->
  rows_matching (reserved_row (en_entry_id e)) t = 1.
Proof.
  intros Hok He Hst. apply (rows_matching_one raw_entry_id t (row_of e)
    (fun r => bool_decide (raw_delivery_state r = str "reserved"))); [apply Hok|done|].
  cbn. rewrite Hst. by case_bool_decide.
Qed.

Lemma held_cases rs t {A} (k : CancelEntry -> Ledgered A) :
  ledger_ok t ->
  (found ← read_entry_by_ref (rs_request_ref rs) t;
   recorded ← ok_or found (Corrupt "reservation_missing");
   _ ← validate_reservation recorded rs; k recorded) = (e ← spec_held rs (entries_of t); k e).
Proof.
  intros Hok. rewrite read_entry_by_ref_eq by done. cbn. unfold spec_held.
  destruct (entries_of t !! rs_request_ref rs) as [e|] eqn:E; [|done]. cbn.
  apply entries_of_Some in E as (_ & Hr & _); [|done]. unfold validate_reservation, reservation_of.
  destruct rs as [id ref at_ seq]; cbn in *. subst ref.
  destruct (Z.eqb_spec (en_entry_id e) id), (bool_decide_reflect (en_attempt_id e = at_)),
    (Z.eqb_spec (en_observed_sequence e) seq); case_bool_decide; cbn; congruence.
Qed.

Lemma spec_held_Ok rs t e :
  ledger_ok t -> spec_held rs (entries_of t) = Ok e ->
  entries_of t !! rs_request_ref rs = Some e /\ row_of e ∈ t /\ rs_entry_id rs = en_entry_id e /\ entry_ok e.
Proof.
  unfold spec_held. intros Hok. case_match eqn:E; [|done]. case_bool_decide as Hb; [|done]. intros [= ->].
  pose proof E as (? & ? & ?)%entries_of_Some; [|done]. by rewrite <- Hb.
Qed.

Lemma set_delivered_row e : set_delivered (row_of e) = row_of (delivered e).
Proof. done. Qed.

Lemma complete_refines `{RandomRowid} capacity alloc rs t :
  ledger_ok t ->
  refines (run_call capacity (CallComplete rs) t) (spec_call capacity alloc (CallComplete rs) (entries_of t)).
Proof.
  intros Hok. cbn [run_call spec_call]. unfold map_fst, complete, complete_body.
  rewrite held_cases by done. destruct (spec_held rs (entries_of t)) as [e|] eqn:E; [|by apply refines_same].
  destruct (spec_held_Ok rs t e Hok E) as (Hm & Hin & Hid & He). cbn. rewrite Hid.
  destruct (en_delivery_state e) eqn:Hst; cbn; [|by apply refines_same].
  rewrite reserved_row_one by done. cbn.
  rewrite (bool_decide_eq_false_2 (StateReserved = StateDelivered)) by done. cbn.
  split; [done|]. cbn [snd].
  destruct (entries_update t (reserved_row (en_entry_id e)) set_delivered delivered Hok) as [Hu Hd]; [done..| |].
  { intros e' [] _ _. split; [by rewrite set_delivered_row|by constructor]. }
  split; [|exact Hu]. unfold entries_of in *. etrans; [exact Hd|]. apply map_eq. intros k. rewrite lookup_fmap.
  destruct (decide (k = rs_request_ref rs)) as [->|Hk].
  - rewrite Hm, lookup_insert_eq. cbn. by rewrite (reserved_row_eq t e), bool_decide_eq_true_2 by done.
  - rewrite lookup_insert_ne by done. destruct (entries t !! k) as [x|] eqn:Ex; [|done]. cbn.
    apply (entries_Some t k x Hok) in Ex as (Hx & Ek & _). apply (entries_Some t _ e Hok) in Hm as (_ & Hr & _).
    rewrite (reserved_row_eq t e) by done. case_bool_decide as Exe; [|done]. exfalso. apply Hk.
    rewrite <- Ek, <- Hr. exact (f_equal raw_request_ref Exe).
Qed.

Lemma abandon_refines `{RandomRowid} capacity alloc rs t :
  ledger_ok t ->
  refines (run_call capacity (CallAbandon rs) t) (spec_call capacity alloc (CallAbandon rs) (entries_of t)).
Proof.
  intros Hok. cbn [run_call spec_call]. unfold map_fst, abandon, abandon_body.
  rewrite held_cases by done. destruct (spec_held rs (entries_of t)) as [e|] eqn:E; [|by apply refines_same].
  destruct (spec_held_Ok rs t e Hok E) as (Hm & Hin & Hid & He). cbn. rewrite Hid.
  destruct (en_delivery_state e) eqn:Hst; cbn; [|by apply refines_same].
  rewrite reserved_row_one by done. cbn.
  rewrite (bool_decide_eq_true_2 (StateReserved = StateReserved)) by done. cbn.
  destruct (delete_entries t (reserved_row (en_entry_id e)) Hok) as [Hd Hf].
  split_and!; [done| |done]. cbn [snd]. rewrite Hf. apply map_eq. intros k.
  apply option_eq. intros e'. rewrite map_lookup_filter_Some, lookup_delete_Some. cbn. split.
  - intros [He' Hp]. split; [|done]. intros <-. rewrite Hm in He'. injection He' as <-.
    rewrite (reserved_row_eq t e), bool_decide_eq_true_2 in Hp by done. done.
  - intros [Hk He']. split; [done|]. apply entries_of_Some in He' as (Hin' & <- & _); [|done].
    rewrite (reserved_row_eq t e) by done. apply bool_decide_eq_false. intros Eq. apply Hk.
    apply entries_of_Some in Hm as (_ & <- & _); [|done]. by apply (f_equal raw_request_ref) in Eq.
Qed.

Lemma delete_rows_delete (p q : RawEntry -> bool) t :
  delete_rows p (delete_rows q t) = delete_rows (fun r => q r || p r) t.
Proof.
  unfold delete_rows. induction t as [|x t IH]; [done|]. cbn.
  destruct (q x); cbn; [done|]. destruct (p x); cbn; by rewrite IH.
Qed.

Definition prunable_any (older_than_ms : Z) (attempts : list (list Z)) (r : RawEntry) : bool :=
  existsb (fun a => prunable older_than_ms a r) attempts.

Lemma prune_attempts_eq o attempts n t :
  0 <= n -> n + len t <= u64_max ->
  prune_attempts o attempts n t =
  Ok (n + rows_matching (prunable_any o attempts) t, delete_rows (prunable_any o attempts) t).
Proof.
  revert n t. induction attempts as [|a attempts IH]; intros n t Hn Hb; cbn [prune_attempts].
  - pose proof (len_delete_rows (prunable_any o []) t) as Hd.
    assert (delete_rows (prunable_any o []) t = t) as E.
    { unfold delete_rows. cbn. clear. induction t as [|x t IH]; [done|]. cbn. by rewrite IH. }
    rewrite E in *. do 2 f_equal. lia.
  - pose proof (len_delete_rows (prunable o a) t) as Hd.
    pose proof (len_filter_rows (prunable o a) t) as Hf.
    pose proof (len_nonneg (List.filter (prunable o a) t)) as Hp. unfold rows_matching in *.
    rewrite (proj2 (check_u64_Some (n + len (List.filter (prunable o a) t)) (n + len (List.filter (prunable o a) t))))
      by (split; [done|mlia]).
    cbn. rewrite IH by lia. unfold rows_matching. rewrite delete_rows_delete.
    change (fun r => prunable o a r || prunable_any o attempts r) with (prunable_any o (a :: attempts)).
    do 2 f_equal. pose proof (len_delete_rows (prunable_any o attempts) (delete_rows (prunable o a) t)) as H1.
    pose proof (len_delete_rows (prunable_any o (a :: attempts)) t) as H2.
    rewrite delete_rows_delete in H1.
    change (fun r => prunable o a r || prunable_any o attempts r) with (prunable_any o (a :: attempts)) in H1.
    unfold rows_matching in *. lia.
Qed.

Lemma validate_attempts_eq attempts :
  validate_attempts attempts =
  if forallb identifier_ok attempts then Ok tt else Err (InvalidField "attempt_id").
Proof.
  induction attempts as [|a attempts IH]; [done|]. cbn. unfold validate_identifier, identifier_ok at 1.
  rewrite (Z.ltb_antisym (str_len a)).
  destruct (bool_decide _), (str_len a <=? _), (existsb _ _); cbn; done.
Qed.

(** The rows deleted are those of entries the specification does not keep. *)
Lemma prunable_any_kept ret e :
  prunable_any (older_than_ms ret) (terminal_attempts ret) (row_of e) = negb (kept ret e).
Proof.
  unfold prunable_any, kept. rewrite negb_involutive. apply eq_true_iff_eq.
  rewrite existsb_exists, andb_true_iff, bool_decide_eq_true. unfold prunable. cbn. split.
  - intros (a & Ha%list_elem_of_In & [E%bool_decide_eq_true Ht]%andb_true_iff). by subst.
  - intros [Ha Ht]. exists (en_attempt_id e). rewrite <- list_elem_of_In. split; [done|].
    by rewrite bool_decide_eq_true_2, Ht.
Qed.

Lemma prune_refines `{RandomRowid} capacity alloc ret t :
  ledger_inv t ->
  refines (run_call capacity (CallPrune ret) t) (spec_call capacity alloc (CallPrune ret) (entries_of t)).
Proof.
  intros [Hok Hl]. cbn [run_call spec_call]. unfold map_fst, prune, prune_body, spec_prune, validate_time.
  destruct (older_than_ms ret <? 0); [by apply refines_same|]. cbn.
  destruct (MAX_TERMINAL_ATTEMPTS <? _); [by apply refines_same|].
  rewrite validate_attempts_eq. destruct (forallb _ _); cbn; [|by apply refines_same].
  rewrite prune_attempts_eq by (unfold MAX_LEDGER_ENTRIES in *; widths; lia). cbn.
  set (p := prunable_any _ _). destruct (delete_entries t p Hok) as [Hd Hf].
  assert (Hm : filter (fun ke => kept ret (snd ke) = true) (entries_of t) =
               filter (fun ke => p (row_of (snd ke)) = false) (entries_of t)).
  { apply map_filter_ext. intros k e _. cbn. unfold p. rewrite prunable_any_kept.
    by destruct (kept ret e). }
  split_and!; [|cbn [snd]; congruence|done]. cbn [fst]. rewrite Hm, <- Hf, !entries_of_size by done.
  rewrite len_delete_rows. do 3 f_equal. lia.
Qed.

(** Sequences and times have the width of their types; a reservation's are not
    read. *)
Definition call_ok (c : Call) : Prop :=
  match c with
  | CallRecord rq | CallReserve rq => in_u64 (rq_observed_sequence rq)
  | _ => True
  end.

Lemma spec_held_lookup rs m e : spec_held rs m = Ok e -> m !! rs_request_ref rs = Some e.
Proof. unfold spec_held. case_match; [|done]. case_bool_decide; [|done]. by intros [= ->]. Qed.

Lemma spec_size capacity alloc c m :
  handle_capacity capacity -> Z.of_nat (size m) <= MAX_LEDGER_ENTRIES ->
  Z.of_nat (size (snd (spec_call capacity alloc c m))) <= MAX_LEDGER_ENTRIES.
Proof.
  intros [_ Hc] Hm.
  assert (Hnew : forall st rq answer, Z.of_nat (size (snd (spec_present capacity alloc st rq answer m)))
                                 <= MAX_LEDGER_ENTRIES).
  { intros st rq answer. unfold spec_present, spec_new. case_match; [|done]. case_match eqn:E; [done|].
    destruct (Z.leb_spec capacity (Z.of_nat (size m))); [done|]. case_match; [|done]. cbn [snd].
    rewrite map_size_insert_None by done. lia. }
  destruct c as [rq|rq|rs|rs|ret]; cbn; auto.
  - destruct (spec_held rs m) as [e|] eqn:E; [|done]. apply spec_held_lookup in E.
    case_match; [|done]. cbn [snd]. rewrite map_size_insert, E. exact Hm.
  - case_match; [|done]. case_match; [|done]. cbn [snd].
    etrans; [|exact Hm]. apply inj_le, map_subseteq_size, delete_subseteq.
  - unfold spec_prune. repeat (case_match; [done|]). cbn [snd].
    etrans; [|exact Hm]. apply inj_le, map_subseteq_size, map_filter_subseteq.
Qed.

(** The statement of the refinement, used by the clients of the ledger. *)
Lemma ledger_refines_map_lemma `{RandomRowidLaws} capacity c t :
  ledger_inv t -> handle_capacity capacity -> call_ok c ->
  let alloc := next_rowid raw_entry_id t in
  let '(answer, t') := run_call capacity c t in
  spec_call capacity alloc c (entries_of t) = (answer, entries_of t') /\ ledger_inv t' /\
  (forall id k e, alloc = Some id -> entries_of t !! k = Some e -> 0 < id /\ en_entry_id e <> id).
Proof.
  intros Hinv Hc Hok alloc.
  assert (Hr : refines (run_call capacity c t) (spec_call capacity alloc c (entries_of t))).
  { destruct c; [by apply record_refines|apply reserve_refines; [apply Hinv|done]
      |apply complete_refines, Hinv|apply abandon_refines, Hinv|by apply prune_refines]. }
  destruct Hinv as [Hlok Hl]. pose proof (spec_size capacity alloc c (entries_of t) Hc) as Hs.
  rewrite entries_of_size in Hs by done. specialize (Hs Hl). destruct (run_call capacity c t) as [a t'].
  destruct Hr as (Ha & Ht & Hok'). cbn [fst snd] in Ha, Ht, Hok'. split_and!.
  - rewrite (surjective_pairing (spec_call _ _ _ _)). by rewrite <- Ha, <- Ht.
  - split; [done|]. by rewrite <- entries_of_size, Ht.
  - intros id k e Hid (Hin & _ & _)%entries_of_Some; [|done]. split.
    + apply (next_rowid_range raw_entry_id t id); [by apply ledger_ok_ids|done].
    + intros <-. eapply (next_rowid_fresh raw_entry_id t); [exact Hid|].
      apply list_elem_of_fmap. by exists (row_of e).
Qed.

(** Every operation of the ledger is the operation of the abstract map: the
    same answer, errors included, and the tables that remain correspond again;
    no operation ever brings more than [MAX_LEDGER_ENTRIES] rows, and a new
    entry gets a row id no live entry has. *)
Theorem ledger_refines_map `{RandomRowidLaws} capacity c t :
  ledger_inv t -> handle_capacity capacity -> call_ok c ->
  let alloc := next_rowid raw_entry_id t in
  let '(answer, t') := run_call capacity c t in
  spec_call capacity alloc c (entries_of t) = (answer, entries_of t') /\ ledger_inv t' /\
  (forall id k e, alloc = Some id -> entries_of t !! k = Some e -> 0 < id /\ en_entry_id e <> id).
Proof. intros Hinv Hc Hok. exact (ledger_refines_map_lemma capacity c t Hinv Hc Hok). Qed.

(** * Batches *)

(** [record] on each request in turn, up to the first refusal. *)
Fixpoint record_each `{RandomRowid} (capacity : Z) (requests : list CancelRequest) (t : Rows)
  : Ledgered (list CancelReceipt) * Rows :=
  match requests with
  | [] => (Ok [], t)
  | request :: requests =>
      match record capacity request t with
      | (Err e, t) => (Err e, t)
      | (Ok receipt, t) => map_fst (cons receipt) (record_each capacity requests t)
      end
  end.

Lemma insert_request_len `{RandomRowid} rq st t id t' :
  insert_request rq st t = Ok (id, t') -> len t' = len t + 1.
Proof.
  unfold insert_request. intros (seq & _ & H1)%bind_Ok. apply bind_Ok in H1 as (i & _ & [= <- <-]).
  by rewrite len_insert_row.
Qed.

Lemma record_row_live `{RandomRowid} rq capacity t receipt live t' :
  record_row rq capacity (len t) t = Ok (receipt, live, t') -> live = len t'.
Proof.
  unfold record_row. intros (found & _ & H1)%bind_Ok. destruct found as [e|].
  - apply bind_Ok in H1 as (? & _ & H1). case_bool_decide; [done|]. by injection H1 as <- <- <-.
  - case_match; [done|]. apply bind_Ok in H1 as ([id t1] & Hi & H1). cbn in H1.
    apply bind_Ok in H1 as (l & [-> _]%ok_or_Ok%check_u64_Some & H1). injection H1 as <- <- <-.
    symmetry. by eapply insert_request_len.
Qed.

Lemma record_rows_each `{RandomRowid} requests capacity t :
  validate_requests requests = Ok tt ->
  match record_rows requests capacity (len t) t with
  | Ok (receipts, t') => record_each capacity requests t = (Ok receipts, t')
  | Err e => exists t', record_each capacity requests t = (Err e, t')
  end.
Proof.
  revert t. induction requests as [|rq requests IH]; intros t; [done|]. cbn [validate_requests].
  intros ([] & Hv & Hvs)%bind_Ok. cbn [record_rows record_each]. unfold record, record_body.
  rewrite Hv. cbn. destruct (record_row rq capacity (len t) t) as [[[receipt live] t1]|e] eqn:R; cbn; [|by eauto].
  apply record_row_live in R as ->. specialize (IH t1 Hvs).
  destruct (record_rows requests capacity (len t1) t1) as [[receipts t2]|e]; cbn.
  - by rewrite IH.
  - destruct IH as [t2 ->]. by eauto.
Qed.

Lemma validate_requests_Err requests e :
  validate_requests requests = Err e -> exists field, e = InvalidField field.
Proof.
  induction requests as [|rq requests IH]; [done|]. cbn.
  intros [H1|(? & _ & ?)]%bind_Err; [|auto]. revert H1.
  unfold validate_request, validate_identifier, validate_time, to_db_u64. unfold mbind, result_bind.
  repeat case_match; intros; simplify_eq; eauto.
  destruct (check_i64 _); cbn in *; simplify_eq; eauto.
Qed.

(** A batch is its records one by one, in order and seeing each other, and
    atomic: it answers all their receipts, or the first refusal with nothing
    written.  An over-long batch or a malformed field anywhere is refused
    before any of it is looked up. *)
Theorem batch_is_atomic_sequence `{RandomRowid} capacity requests t :
  record_all capacity requests t =
  if MAX_BATCH_REQUESTS <? len requests then (Err (InvalidField "batch_length"), t)
  else match validate_requests requests with
       | Err e => (Err e, t)
       | Ok _ =>
           match record_each capacity requests t with
           | (Ok receipts, t') => (Ok receipts, t')
           | (Err e, _) => (Err e, t)
           end
       end.
Proof.
  unfold record_all, record_all_body. case_match; [done|].
  destruct (validate_requests requests) as [[]|e] eqn:V; [|done]. cbn.
  pose proof (record_rows_each requests capacity t V) as Hr.
  destruct (record_rows requests capacity (len t) t) as [[receipts t']|e]; cbn.
  - by rewrite Hr.
  - by destruct Hr as [t' ->].
Qed.

(** * Tables the ledger did not write *)

Definition call_ref (c : Call) : option (list Z) :=
  match c with
  | CallRecord rq | CallReserve rq => Some (rq_request_ref rq)
  | CallComplete rs | CallAbandon rs => Some (rs_request_ref rs)
  | CallPrune _ => None
  end.

(** The caller's own fields are well formed. *)
Definition call_valid (c : Call) : Prop :=
  match c with
  | CallRecord rq | CallReserve rq => validate_request rq = Ok tt
  | CallComplete _ | CallAbandon _ => True
  | CallPrune ret =>
      0 <= older_than_ms ret /\ len (terminal_attempts ret) <= MAX_TERMINAL_ATTEMPTS /\
      forallb identifier_ok (terminal_attempts ret) = true
  end.

Definition is_invalid_field (e : CancelLedgerError) : bool :=
  match e with InvalidField _ => true | _ => false end.

Lemma map_corrupt_Err {A B} (m : Ledgered A) (f : A -> Ledgered B) field e :
  (forall a e', f a = Err e' -> exists field, e' = Corrupt field) ->
  (a ← map_err (fun _ => corrupt_field field) m; f a) = Err e -> exists field, e = Corrupt field.
Proof.
  intros Hf. destruct m; cbn; [apply Hf|]. intros [= <-]. by eexists.
Qed.

Lemma validated_entry_Err raw e : validated_entry raw = Err e -> exists field, e = Corrupt field.
Proof.
  unfold validated_entry, checked_row_id, checked_identifier, checked_time.
  intros H. apply bind_Err in H as [H|(? & _ & H)]; [by eapply map_corrupt_Err; [|exact H]|].
  apply bind_Err in H as [H|(? & _ & H)]; [by eapply map_corrupt_Err; [|exact H]|].
  apply bind_Err in H as [H|(? & _ & H)]; [by eapply map_corrupt_Err; [|exact H]|].
  revert H. apply map_corrupt_Err. intros seq e' H.
  apply bind_Err in H as [H|(? & _ & H)]; [by eapply map_corrupt_Err; [|exact H]|].
  apply bind_Err in H as [H|(? & _ & H)]; [|done].
  destruct (state_of_spelling _); cbn in H; [done|]. injection H as <-. by eexists.
Qed.

Lemma read_entry_by_ref_Err k t e :
  read_entry_by_ref k t = Err e ->
  exists raw, lookup_key raw_request_ref k t = Some raw /\ validated_entry raw = Err e.
Proof.
  unfold read_entry_by_ref. case_match; [|done]. intros [?|(? & _ & ?)]%bind_Err; [eauto|done].
Qed.

(** A refusal that is not about the fields of the call. *)
Definition not_field {A} (m : Ledgered A) : Prop := forall e, m = Err e -> is_invalid_field e = false.

Lemma not_field_bind {A B} (m : Ledgered A) (f : A -> Ledgered B) :
  not_field m -> (forall a, m = Ok a -> not_field (f a)) -> not_field (m ≫= f).
Proof. intros Hm Hf e [?|(a & ? & ?)]%bind_Err; [by apply Hm|by eapply Hf]. Qed.

Lemma not_field_read k t : not_field (read_entry_by_ref k t).
Proof. by intros e (? & _ & [? ->]%validated_entry_Err)%read_entry_by_ref_Err. Qed.

Lemma not_field_binding e rq : not_field (validate_same_binding e rq).
Proof. intros e'. unfold validate_same_binding. repeat case_match; naive_solver. Qed.

Lemma not_field_reservation e rs : not_field (validate_reservation e rs).
Proof. intros e'. unfold validate_reservation. repeat case_match; naive_solver. Qed.

Lemma not_field_insert `{RandomRowid} rq st t : validate_request rq = Ok tt -> not_field (insert_request rq st t).
Proof.
  intros (_ & _ & _ & Hs)%validate_request_Ok e. rewrite insert_request_eq by done. case_match; naive_solver.
Qed.

Lemma not_field_Ok {A} (a : A) : not_field (Ok a).
Proof. by intros e. Qed.

Lemma not_field_Err {A} e : is_invalid_field e = false -> @not_field A (Err e).
Proof. intros ? ? [= <-]. done. Qed.

Create HintDb not_field.
#[local] Hint Resolve not_field_bind not_field_read not_field_binding not_field_reservation
  not_field_insert not_field_Ok not_field_Err : not_field.

Lemma map_fst_Err {E A B T} (f : A -> B) (r : result E A * T) e t' :
  map_fst f r = (Err e, t') <-> r = (Err e, t').
Proof. destruct r as [[a|e'] t]; unfold map_fst; cbn; split; intros; by simplify_eq. Qed.

Lemma not_field_record_row `{RandomRowid} rq capacity t :
  validate_request rq = Ok tt -> handle_capacity capacity ->
  not_field (record_row rq capacity (len t) t).
Proof.
  intros Hv [_ Hc]. unfold record_row. apply not_field_bind; [apply not_field_read|]. intros [e|] _.
  - apply not_field_bind; [apply not_field_binding|]. intros _ _. case_bool_decide; auto with not_field.
  - destruct (Z.leb_spec capacity (len t)); [by apply not_field_Err|].
    apply not_field_bind; [by apply not_field_insert|]. intros [id t'] _.
    pose proof (len_nonneg t). unfold MAX_LEDGER_ENTRIES in Hc.
    rewrite (proj2 (check_u64_Some (len t + 1) (len t + 1))) by (split; [done|mlia]). apply not_field_Ok.
Qed.

Lemma not_field_reserve `{RandomRowid} capacity rq t :
  validate_request rq = Ok tt -> not_field (reserve_body capacity rq t).
Proof.
  intros Hv. unfold reserve_body. rewrite Hv. cbn. apply not_field_bind; [apply not_field_read|].
  intros [e|] _.
  - apply not_field_bind; [apply not_field_binding|]. intros _ _. case_match; auto with not_field.
  - case_match; [by apply not_field_Err|]. apply not_field_bind; [by apply not_field_insert|].
    intros [id t'] _. apply not_field_Ok.
Qed.

Lemma not_field_held rs t {A} (k : CancelEntry -> Ledgered A) :
  (forall e, not_field (k e)) ->
  not_field (found ← read_entry_by_ref (rs_request_ref rs) t;
             recorded ← ok_or found (Corrupt "reservation_missing");
             _ ← validate_reservation recorded rs; k recorded).
Proof.
  intros Hk. apply not_field_bind; [apply not_field_read|]. intros [e|] _; cbn; [|by apply not_field_Err].
  apply not_field_bind; [apply not_field_reservation|]. auto.
Qed.

Lemma not_field_prune ret t :
  call_valid (CallPrune ret) -> len t <= u64_max -> not_field (prune_body ret t).
Proof.
  intros (Ht & Hl & Ha) Hn. unfold prune_body, validate_time. rewrite (proj2 (Z.ltb_ge _ _) Ht). cbn.
  rewrite (proj2 (Z.ltb_ge _ _) Hl), validate_attempts_eq, Ha. cbn.
  rewrite prune_attempts_eq by lia. apply not_field_Ok.
Qed.

(** What a call answers is its body, or the error that rolled it back. *)
Lemma map_fst_transact_Err {A B T} (f : A -> B) (m : Ledgered (A * T)) (t : T) e t' :
  map_fst f (transact m t) = (Err e, t') -> m = Err e /\ t' = t.
Proof. by intros [? ->]%map_fst_Err%transact_Err. Qed.

(** An unreadable row is the answer to every call on its reference. *)
Lemma unreadable_row `{RandomRowid} capacity c t ref raw e :
  call_valid c -> call_ref c = Some ref -> lookup_key raw_request_ref ref t = Some raw ->
  validated_entry raw = Err e -> run_call capacity c t = (Err e, t).
Proof.
  intros Hv Hc Hl He.
  assert (Hr : read_entry_by_ref ref t = Err e) by (unfold read_entry_by_ref; by rewrite Hl, He).
  destruct c as [rq|rq|rs|rs|ret]; cbn in Hv, Hc; [..|done]; injection Hc as <-; cbn.
  - unfold record, record_body, record_row. rewrite Hv. cbn. by rewrite Hr.
  - unfold reserve, reserve_body. rewrite Hv. cbn. by rewrite Hr.
  - unfold complete, complete_body. by rewrite Hr.
  - unfold abandon, abandon_body. by rewrite Hr.
Qed.

(** A row that is not what is stored of a well-formed entry. *)
Definition corrupt_row (raw : RawEntry) : Prop := ~ exists e, raw = row_of e /\ entry_ok e.

Lemma corrupt_row_Err raw : corrupt_row raw -> exists column, validated_entry raw = Err (Corrupt column).
Proof.
  intros Hc. destruct (validated_entry raw) as [e|e] eqn:E.
  - exfalso. apply Hc. exists e. by apply validated_entry_Ok.
  - destruct (validated_entry_Err _ _ E) as [column ->]. by exists column.
Qed.

(** C13: errors, on any table, whoever wrote it.  A refused call leaves every row
    as it was, and with well-formed fields it is never refused for a field of
    the caller's.  A stored row that is not the row of any well-formed entry is
    reported as corruption, under the name of a column, by every recording,
    reservation, completion and abandonment of its reference and by the reader
    of its entry: such a row is never answered as an entry, replaced or
    repaired by them. *)
Theorem refusals_exact `{RandomRowid} capacity c t answer t' :
  run_call capacity c t = (answer, t') ->
  (forall e, answer = Err e -> t' = t /\
     (call_valid c -> handle_capacity capacity -> len t <= u64_max -> is_invalid_field e = false)) /\
  (forall ref raw, call_valid c -> call_ref c = Some ref ->
     lookup_key raw_request_ref ref t = Some raw -> corrupt_row raw ->
     exists column, answer = Err (Corrupt column) /\ t' = t /\
       (validate_identifier ref "request_ref" = Ok tt -> entry ref t = Err (Corrupt column))).
Proof.
  intros Hrun. split.
  - intros e ->. split.
    { destruct c; cbn in Hrun; by apply map_fst_transact_Err in Hrun as [_ ->]. }
    intros Hv Hc Hl. destruct c as [rq|rq|rs|rs|ret]; cbn in Hrun, Hv;
      apply map_fst_transact_Err in Hrun as [Hrun _].
    + unfold record_body in Hrun. rewrite Hv in Hrun. cbn in Hrun.
      apply bind_Err in Hrun as [Hrun|([[r l] t1] & _ & Hrun)]; [|done].
      by eapply not_field_record_row in Hrun.
    + by eapply not_field_reserve in Hrun.
    + unfold complete_body in Hrun. eapply not_field_held; [|exact Hrun].
      intros en. repeat (case_match; auto with not_field).
    + unfold abandon_body in Hrun. eapply not_field_held; [|exact Hrun].
      intros en. repeat (case_match; auto with not_field).
    + by eapply not_field_prune in Hrun.
  - intros ref raw Hv Hc Hl [column Hb]%corrupt_row_Err. exists column.
    rewrite (unreadable_row capacity c t ref raw _ Hv Hc Hl Hb) in Hrun. injection Hrun as <- <-.
    split_and!; [done..|]. intros Hi. unfold entry, read_entry_by_ref. rewrite Hi. cbn. by rewrite Hl, Hb.
Qed.

(** * Witnesses *)

Definition sample_request (ref : string) (seq : Z) : CancelRequest :=
  mkRequest (str ref) (str "attempt-1") seq 1000.

Definition sample_rows : Rows :=
  [row_of (new_entry 1 StateReserved (sample_request "cancel-1" 7))].

Lemma sample_rows_ok : ledger_inv sample_rows.
Proof.
  split; [|vm_compute; discriminate].
  constructor; [by repeat constructor|apply NoDup_singleton|].
  apply Forall_singleton. eexists. by vm_compute.
Qed.

Lemma ledger_refines_map_witness :
  let '(answer, t') := @run_call no_random_rowid 8 (CallReserve (sample_request "cancel-2" 7)) sample_rows in
  spec_call 8 (@next_rowid _ raw_entry_id no_random_rowid sample_rows)
    (CallReserve (sample_request "cancel-2" 7)) (entries_of sample_rows) = (answer, entries_of t') /\
  ledger_inv t' /\
  (forall id k e, @next_rowid _ raw_entry_id no_random_rowid sample_rows = Some id ->
     entries_of sample_rows !! k = Some e -> 0 < id /\ en_entry_id e <> id).
Proof.
  apply (@ledger_refines_map no_random_rowid no_random_rowid_laws 8
    (CallReserve (sample_request "cancel-2" 7)) sample_rows).
  - exact sample_rows_ok.
  - split; [lia|unfold MAX_LEDGER_ENTRIES; lia].
  - cbn. widths. lia.
Defined.

(** The sample row with a state nothing writes. *)
Definition spoiled_rows : Rows :=
  (fun raw => mkRaw (raw_entry_id raw) (raw_request_ref raw) (raw_attempt_id raw)
     (raw_observed_sequence raw) (raw_requested_at_ms raw) (str "lost")) <$> sample_rows.

Abbreviation spoiled_record := (CallRecord (sample_request "cancel-1" 7)).

Lemma refusals_exact_witness :
  (exists column,
     @run_call no_random_rowid 8 spoiled_record spoiled_rows = (Err (Corrupt column), spoiled_rows) /\
     entry (str "cancel-1") spoiled_rows = Err (Corrupt column)) /\
  @run_call no_random_rowid 8 spoiled_record sample_rows = (Err InFlight, sample_rows) /\
  is_invalid_field InFlight = false.
Proof.
  split.
  - destruct (@run_call no_random_rowid 8 spoiled_record spoiled_rows) as [answer t'] eqn:H.
    destruct (proj2 (@refusals_exact no_random_rowid 8 spoiled_record spoiled_rows answer t' H)
      (str "cancel-1") (hd (row_of (new_entry 1 StateReserved (sample_request "cancel-1" 7))) spoiled_rows))
      as (column & -> & -> & He); [by vm_compute|done|by vm_compute| |].
    + intros (e & E & _). apply (f_equal raw_delivery_state) in E. destruct e as [? ? ? ? ? []]; discriminate E.
    + exists column. split; [done|]. apply He. by vm_compute.
  - assert (H : @run_call no_random_rowid 8 spoiled_record sample_rows = (Err InFlight, sample_rows))
      by (by vm_compute).
    split; [exact H|].
    apply (@refusals_exact no_random_rowid 8 spoiled_record sample_rows _ _ H);
      [done|by vm_compute|split; [lia|unfold MAX_LEDGER_ENTRIES; lia]|vm_compute; discriminate].
Defined.
