(* ===== verification/CancelDispatch.v ===== *)
(** Cancellation custody and the dispatcher: the seam of
    [automonique-runner/src/control.rs], its durable implementation in
    [automonique-daemon/src/cancel_custody.rs], and the dispatcher and seats of
    [automonique-runner/src/dispatch.rs].

    The traits [CancelCustody] and [CancelSink] are classes over the state [W]
    their methods change.  A sink may panic: its answer is then [None].  The
    dispatcher's mutex makes one call of [dispatch] a single step of the
    process; what a panicking sink leaves behind is the [poisoned] flag. *)

From S2P Require Import Prelude Text Table CancelLedger.

Definition MAX_BINDINGS : Z := 128.
Definition MAX_IDENTIFIER_BYTES : Z := 64.
Definition MAX_REGISTRATIONS : Z := MAX_BINDINGS.

(** * The seam *)

Inductive CancelDelivery := Accepted | DeliveryDelivered | DeliveryAlreadyDelivered.

Inductive CancelSinkError := SinkErrUnavailable | SinkErrConflict | SinkErrLedgerFull | SinkErrInternal.

Record CancelClaim := mkClaim {
  cl_attempt_id : list Z;
  cl_request_ref : list Z;
  cl_observed_sequence : Z
}.

Inductive CustodyVerdict := Fresh | Replay | VerdictConflict.

Inductive CustodyFailure := Full | Unavailable.

#[export] Instance CancelClaim_eq_dec : EqDecision CancelClaim.
Proof. solve_decision. Defined.
#[export] Instance CustodyVerdict_eq_dec : EqDecision CustodyVerdict.
Proof. solve_decision. Defined.

Class CancelCustody (W : Type) := {
  classify : CancelClaim -> W -> result CustodyFailure CustodyVerdict * W;
  custody_record : CancelClaim -> W -> result CustodyFailure CustodyVerdict * W;
  custody_abandon : CancelClaim -> W -> result CustodyFailure unit * W
}.

(** The trait's default for [abandon]. *)
Definition default_abandon {W} (_ : CancelClaim) (w : W) : result CustodyFailure unit * W := (Ok tt, w).

Class CancelSink (Sink W : Type) :=
  deliver : Sink -> list Z -> list Z -> W -> option (result CancelSinkError CancelDelivery) * W.

Definition identifier_byte (b : Z) : bool :=
  is_ascii_alphanumeric b || (b =? 45) || (b =? 95) || (b =? 46).

Definition is_identifier (value : list Z) : bool :=
  negb (bool_decide (value = [])) && (str_len value <=? MAX_IDENTIFIER_BYTES)
  && forallb identifier_byte (utf8 value).

(** * Durable custody *)

(** [now_ms]: the milliseconds since the epoch the clock read, if it is past it. *)
Definition now_ms (elapsed : option Z) : result CustodyFailure Z :=
  elapsed ← ok_or elapsed Unavailable; ok_or (check_i64 elapsed) Unavailable.

Definition custody_failure (error : CancelLedgerError) : CustodyFailure :=
  match error with
  | LedgerFull _ => Full
  | InFlight => Unavailable
  | Conflict _ _ _ | InvalidField _ | InsecurePath _ | SchemaVersion _ _ | Corrupt _ | Io | Sqlite =>
      Unavailable
  end.

(** The adapter: its handle's capacity, the ledger file, and the reservations it
    holds in memory.  [sc_elapsed] is what the system clock would read. *)
Record StoreCancelCustody := mkCustody {
  sc_capacity : Z;
  sc_rows : Rows;
  sc_reservations : gmap (list Z) CancelReservation;
  sc_elapsed : option Z
}.

Definition with_rows (s : StoreCancelCustody) (t : Rows) : StoreCancelCustody :=
  mkCustody (sc_capacity s) t (sc_reservations s) (sc_elapsed s).

Definition with_reservations (s : StoreCancelCustody) (r : gmap (list Z) CancelReservation)
  : StoreCancelCustody :=
  mkCustody (sc_capacity s) (sc_rows s) r (sc_elapsed s).

(** [StoreCancelCustody::new]. *)
Definition custody_new (capacity : Z) (rows : Rows) (elapsed : option Z) : StoreCancelCustody :=
  mkCustody capacity rows ∅ elapsed.

Definition request_of (c : CancelClaim) (requested_at_ms : Z) : CancelRequest :=
  mkRequest (cl_request_ref c) (cl_attempt_id c) (cl_observed_sequence c) requested_at_ms.

Definition disposition_verdict (r : CancelReceipt) : CustodyVerdict :=
  match rc_disposition r with Delivered => Fresh | AlreadyDelivered => Replay end.

(** The [match receipt] that ends [record]. *)
Definition receipt_verdict (receipt : result CancelLedgerError CancelReceipt)
  : result CustodyFailure CustodyVerdict :=
  match receipt with
  | Ok receipt => Ok (disposition_verdict receipt)
  | Err (Conflict _ _ _) => Ok VerdictConflict
  | Err error => Err (custody_failure error)
  end.

Section Store.
Context `{RandomRowid}.

Definition store_classify (claim : CancelClaim) (s : StoreCancelCustody)
  : result CustodyFailure CustodyVerdict * StoreCancelCustody :=
  match sc_reservations s !! cl_request_ref claim with
  | Some _ => (Err Unavailable, s)
  | None =>
      match now_ms (sc_elapsed s) with
      | Err failure => (Err failure, s)
      | Ok now =>
          let '(answer, rows) := reserve (sc_capacity s) (request_of claim now) (sc_rows s) in
          let s := with_rows s rows in
          match answer with
          | Err (Conflict _ _ _) => (Ok VerdictConflict, s)
          | Err error => (Err (custody_failure error), s)
          | Ok (Reserved reservation) =>
              (Ok Fresh,
               with_reservations s (<[cl_request_ref claim := reservation]> (sc_reservations s)))
          | Ok (ReplayDelivered _) => (Ok Replay, s)
          end
      end
  end.

Definition store_record (claim : CancelClaim) (s : StoreCancelCustody)
  : result CustodyFailure CustodyVerdict * StoreCancelCustody :=
  match sc_reservations s !! cl_request_ref claim with
  | Some reservation =>
      let s := with_reservations s (delete (cl_request_ref claim) (sc_reservations s)) in
      let '(receipt, rows) := complete reservation (sc_rows s) in
      (receipt_verdict receipt, with_rows s rows)
  | None =>
      match entry (cl_request_ref claim) (sc_rows s) with
      | Err error => (Err (custody_failure error), s)
      | Ok None =>
          match entry_count (sc_rows s) with
          | Err error => (Err (custody_failure error), s)
          | Ok count => (Err (if sc_capacity s <=? count then Full else Unavailable), s)
          end
      | Ok (Some _) =>
          match now_ms (sc_elapsed s) with
          | Err failure => (Err failure, s)
          | Ok now =>
              let '(receipt, rows) := record (sc_capacity s) (request_of claim now) (sc_rows s) in
              (receipt_verdict receipt, with_rows s rows)
          end
      end
  end.

Definition store_abandon (claim : CancelClaim) (s : StoreCancelCustody)
  : result CustodyFailure unit * StoreCancelCustody :=
  match sc_reservations s !! cl_request_ref claim with
  | None => (Err Unavailable, s)
  | Some reservation =>
      let s := with_reservations s (delete (cl_request_ref claim) (sc_reservations s)) in
      let '(answer, rows) := abandon reservation (sc_rows s) in
      (map_err custody_failure answer, with_rows s rows)
  end.

#[export] Instance StoreCancelCustody_custody : CancelCustody StoreCancelCustody := {
  classify := store_classify;
  custody_record := store_record;
  custody_abandon := store_abandon
}.
End Store.

(** * The dispatcher *)

Inductive DispatchOutcome :=
| OutDelivered
| OutAlreadyDelivered
| OutConflict
| UnknownAttempt
| SinkUnavailable
| CustodyFull
| CustodyUnavailable
| OutFieldInvalid.

Inductive DispatchError := ErrInvalidIdentifier | ErrDuplicateAttempt | ErrUnknownAttempt | ErrRegistrationLimit | ErrPoisoned.

Inductive Refusal :=
| FieldInvalid
| UnknownOperation
| MalformedRequest
| RequestTooLarge
| TargetUnknown
| CursorAhead
| CancelConflict
| CancelUnavailable
| RefusedLedgerFull
| Internal.

#[export] Instance Refusal_eq_dec : EqDecision Refusal.
Proof. solve_decision. Defined.
#[export] Instance DispatchOutcome_eq_dec : EqDecision DispatchOutcome.
Proof. solve_decision. Defined.

Definition outcome_refusal (o : DispatchOutcome) : option Refusal :=
  match o with
  | OutDelivered | OutAlreadyDelivered => None
  | OutConflict => Some CancelConflict
  | UnknownAttempt => Some TargetUnknown
  | SinkUnavailable => Some CancelUnavailable
  | CustodyFull => Some RefusedLedgerFull
  | CustodyUnavailable => Some Internal
  | OutFieldInvalid => Some FieldInvalid
  end.

Definition is_delivery_evidence (o : DispatchOutcome) : bool :=
  match o with OutDelivered | OutAlreadyDelivered => true | _ => false end.

Definition custody_outcome (failure : CustodyFailure) : DispatchOutcome :=
  match failure with Full => CustodyFull | Unavailable => CustodyUnavailable end.

Record Registration (Sink : Type) := mkRegistration { reg_epoch : Z; reg_sink : Sink }.
Arguments mkRegistration {Sink}.
Arguments reg_epoch {Sink}.
Arguments reg_sink {Sink}.

(** What the mutex guards, but for the custody, which is part of [W]. *)
Record DispatchState (Sink : Type) := mkDispatch {
  registrations : gmap (list Z) (Registration Sink);
  next_epoch : Z;
  poisoned : bool;
  dispatch_capacity : Z
}.
Arguments mkDispatch {Sink}.
Arguments registrations {Sink}.
Arguments next_epoch {Sink}.
Arguments poisoned {Sink}.
Arguments dispatch_capacity {Sink}.

Record RegistrationHandle := mkHandle { hd_attempt_id : list Z; hd_epoch : Z }.

Section Dispatcher.
Context {Sink W : Type} `{CancelCustody W, CancelSink Sink W}.
Abbreviation State := (DispatchState Sink).

Definition with_registrations (d : State) (r : gmap (list Z) (Registration Sink)) : State :=
  mkDispatch r (next_epoch d) (poisoned d) (dispatch_capacity d).

Definition poison (d : State) : State :=
  mkDispatch (registrations d) (next_epoch d) true (dispatch_capacity d).

Definition dispatcher_with_capacity (capacity : Z) : State :=
  mkDispatch ∅ 0 false (Z.min capacity MAX_REGISTRATIONS).

Definition dispatcher_new : State := dispatcher_with_capacity MAX_REGISTRATIONS.

(** After the sink accepted. *)
Definition record_outcome (answer : result CustodyFailure CustodyVerdict) : DispatchOutcome :=
  match answer with
  | Ok (Fresh | Replay) => OutDelivered
  | Ok VerdictConflict => OutConflict
  | Err failure => custody_outcome failure
  end.

(** After the sink refused. *)
Definition abandon_outcome (answer : result CustodyFailure unit) : DispatchOutcome :=
  match answer with
  | Ok _ => SinkUnavailable
  | Err failure => custody_outcome failure
  end.

(** [None]: the sink's panic unwinds through the call. *)
Definition dispatch (attempt_id request_ref : list Z) (observed_sequence : Z) (pinned_epoch : option Z)
    (d : State) (w : W) : option DispatchOutcome * State * W :=
  if negb (is_identifier attempt_id) || negb (is_identifier request_ref) then (Some OutFieldInvalid, d, w)
  else if poisoned d then (Some CustodyUnavailable, d, w)
  else
    match registrations d !! attempt_id with
    | None => (Some UnknownAttempt, d, w)
    | Some registration =>
        if match pinned_epoch with
           | Some epoch => negb (epoch =? reg_epoch registration)
           | None => false
           end
        then (Some UnknownAttempt, d, w)
        else
          let claim := mkClaim attempt_id request_ref observed_sequence in
          let '(verdict, w) := classify claim w in
          match verdict with
          | Ok Replay => (Some OutAlreadyDelivered, d, w)
          | Ok VerdictConflict => (Some OutConflict, d, w)
          | Err failure => (Some (custody_outcome failure), d, w)
          | Ok Fresh =>
              let '(delivery, w) := deliver (reg_sink registration) attempt_id request_ref w in
              match delivery with
              | None => (None, poison d, w)
              | Some (Err _) =>
                  let '(answer, w) := custody_abandon claim w in (Some (abandon_outcome answer), d, w)
              | Some (Ok _) =>
                  let '(answer, w) := custody_record claim w in (Some (record_outcome answer), d, w)
              end
          end
    end.

Definition cancel (attempt_id request_ref : list Z) (observed_sequence : Z) (d : State) (w : W)
  : option DispatchOutcome * State * W :=
  dispatch attempt_id request_ref observed_sequence None d w.

Definition registration_count (d : State) : result DispatchError Z :=
  if poisoned d then Err ErrPoisoned else Ok (Z.of_nat (size (registrations d))).

(** Sorted as Rust orders strings, by bytes. *)
Definition string_le (a b : list Z) : Prop := bytes_leb (utf8 a) (utf8 b) = true.

#[local] Instance string_le_dec : RelDecision string_le := fun a b => decide (_ = true).

Definition registered_attempts (d : State) : result DispatchError (list (list Z)) :=
  if poisoned d then Err ErrPoisoned
  else Ok (merge_sort string_le ((map_to_list (registrations d)).*1)).

(** The epoch counter is a [u64]. *)
Definition register (attempt_id : list Z) (sink : Sink) (d : State)
  : result DispatchError RegistrationHandle * State :=
  if negb (is_identifier attempt_id) then (Err ErrInvalidIdentifier, d)
  else if poisoned d then (Err ErrPoisoned, d)
  else
    match registrations d !! attempt_id with
    | Some _ => (Err ErrDuplicateAttempt, d)
    | None =>
        if dispatch_capacity d <=? Z.of_nat (size (registrations d)) then (Err ErrRegistrationLimit, d)
        else
          (Ok (mkHandle attempt_id (next_epoch d)),
           mkDispatch (<[attempt_id := mkRegistration (next_epoch d) sink]> (registrations d))
             (wrap_u64 (next_epoch d + 1)) false (dispatch_capacity d))
    end.

Definition release (attempt_id : list Z) (epoch : Z) (d : State) : result DispatchError Sink * State :=
  if poisoned d then (Err ErrPoisoned, d)
  else
    match registrations d !! attempt_id with
    | Some registration =>
        if reg_epoch registration =? epoch
        then (Ok (reg_sink registration), with_registrations d (delete attempt_id (registrations d)))
        else (Err ErrUnknownAttempt, d)
    | None => (Err ErrUnknownAttempt, d)
    end.

(** A handle's release, when the dispatcher may be gone ([None]); the handle is
    consumed, so its [Drop] does nothing more. *)
Definition handle_release (h : RegistrationHandle) (core : option State)
  : result DispatchError Sink * option State :=
  match core with
  | None => (Err ErrUnknownAttempt, None)
  | Some d => let '(answer, d) := release (hd_attempt_id h) (hd_epoch h) d in (answer, Some d)
  end.

(** [Drop]: the same, without its answer. *)
Definition handle_drop (h : RegistrationHandle) (core : option State) : option State :=
  snd (handle_release h core).
End Dispatcher.

(** * Seats

    A seat connects one control server to the dispatcher.  Its custody and its
    sinks share the dispatcher, which may have been dropped, and the claim cell;
    [seat_thread] is the thread that runs. *)

Record SeatClaim := mkSeatClaim {
  st_thread : nat;
  st_attempt_id : list Z;
  st_request_ref : list Z;
  st_observed_sequence : Z
}.

Record SeatSink := mkSeatSink { ss_attempt_id : list Z; ss_epoch : Z }.

Record SeatWorld (Sink W : Type) := mkSeat {
  seat_core : option (DispatchState Sink);
  seat_claim : option SeatClaim;
  seat_thread : nat;
  seat_world : W
}.
Arguments mkSeat {Sink W}.
Arguments seat_core {Sink W}.
Arguments seat_claim {Sink W}.
Arguments seat_thread {Sink W}.
Arguments seat_world {Sink W}.

(** [ControlSeat::sink]. *)
Definition seat_sink_of (h : RegistrationHandle) : SeatSink := mkSeatSink (hd_attempt_id h) (hd_epoch h).

Section Seats.
Context {Sink W : Type} `{CancelCustody W, CancelSink Sink W}.
Abbreviation Seat := (SeatWorld Sink W).

Definition remember (claim : option CancelClaim) (s : Seat) : Seat :=
  mkSeat (seat_core s)
    (match claim with
     | Some c => Some (mkSeatClaim (seat_thread s) (cl_attempt_id c) (cl_request_ref c) (cl_observed_sequence c))
     | None => None
     end) (seat_thread s) (seat_world s).

Definition seat_classify (claim : CancelClaim) (s : Seat) : result CustodyFailure CustodyVerdict * Seat :=
  match seat_core s with
  | None => (Err Unavailable, s)
  | Some _ => (Ok Fresh, remember (Some claim) s)
  end.

Definition seat_record (claim : CancelClaim) (s : Seat) : result CustodyFailure CustodyVerdict * Seat :=
  match seat_core s with
  | None => (Err Unavailable, s)
  | Some d =>
      let s := remember None s in
      if poisoned d then (Err Unavailable, s)
      else let '(answer, w) := custody_record claim (seat_world s) in
           (answer, mkSeat (seat_core s) (seat_claim s) (seat_thread s) w)
  end.

Definition seat_abandon (claim : CancelClaim) (s : Seat) : result CustodyFailure unit * Seat :=
  (Ok tt, remember None s).

(** Only the claim this seat classified for this request, on this thread; it is taken. *)
Definition take_observed_sequence (attempt_id request_ref : list Z) (s : Seat) : option (Z * Seat) :=
  match seat_claim s with
  | Some c =>
      if (Nat.eqb (st_thread c) (seat_thread s)) && bool_decide (st_attempt_id c = attempt_id)
         && bool_decide (st_request_ref c = request_ref)
      then Some (st_observed_sequence c, mkSeat (seat_core s) None (seat_thread s) (seat_world s))
      else None
  | None => None
  end.

Definition outcome_delivery (o : DispatchOutcome) : result CancelSinkError CancelDelivery :=
  match o with
  | OutDelivered => Ok DeliveryDelivered
  | OutAlreadyDelivered => Ok DeliveryAlreadyDelivered
  | OutConflict => Err SinkErrConflict
  | CustodyFull => Err SinkErrLedgerFull
  | CustodyUnavailable => Err SinkErrInternal
  | UnknownAttempt | SinkUnavailable | OutFieldInvalid => Err SinkErrUnavailable
  end.

Definition seat_deliver (sink : SeatSink) (attempt_id request_ref : list Z) (s : Seat)
  : option (result CancelSinkError CancelDelivery) * Seat :=
  if negb (bool_decide (attempt_id = ss_attempt_id sink)) then (Some (Err SinkErrUnavailable), s)
  else
    match take_observed_sequence attempt_id request_ref s with
    | None => (Some (Err SinkErrUnavailable), s)
    | Some (observed_sequence, s) =>
        match seat_core s with
        | None => (Some (Err SinkErrUnavailable), s)
        | Some d =>
            let '(outcome, d, w) :=
              dispatch attempt_id request_ref observed_sequence (Some (ss_epoch sink)) d (seat_world s) in
            (outcome_delivery <$> outcome, mkSeat (Some d) (seat_claim s) (seat_thread s) w)
        end
    end.

#[export] Instance SeatWorld_custody : CancelCustody Seat := {
  classify := seat_classify;
  custody_record := seat_record;
  custody_abandon := seat_abandon
}.

#[export] Instance SeatSink_sink : CancelSink SeatSink Seat := seat_deliver.
End Seats.

(** * Registrations *)

Section Registry.
Context {Sink : Type}.
Abbreviation State := (DispatchState Sink).

(** The registry stays within its bound, and epochs are below the counter. *)
Record registry_ok (d : State) : Prop := mkRegistryOk {
  reg_bounded : Z.of_nat (size (registrations d)) <= dispatch_capacity d <= MAX_REGISTRATIONS;
  reg_epochs : map_Forall (fun _ r => 0 <= reg_epoch r < next_epoch d) (registrations d);
  reg_identifiers : map_Forall (fun a _ => is_identifier a = true) (registrations d)
}.

Lemma dispatcher_ok capacity : 0 <= capacity -> registry_ok (dispatcher_with_capacity capacity).
Proof.
  intros Hc. constructor; cbn; [|apply map_Forall_empty..]. rewrite map_size_empty.
  unfold MAX_REGISTRATIONS, MAX_BINDINGS. lia.
Qed.

Lemma register_ok attempt sink (d : State) h d' :
  registry_ok d -> 0 <= next_epoch d < u64_max -> register attempt sink d = (Ok h, d') ->
  registry_ok d' /\ next_epoch d' = next_epoch d + 1 /\ h = mkHandle attempt (next_epoch d) /\
  registrations d !! attempt = None /\
  registrations d' = <[attempt := mkRegistration (next_epoch d) sink]> (registrations d).
Proof.
  intros [Hb He Hi] Hn. unfold register. destruct (is_identifier attempt) eqn:I; [|done]. cbn.
  case_match; [done|]. case_match eqn:E; [done|].
  destruct (Z.leb_spec (dispatch_capacity d) (Z.of_nat (size (registrations d)))); [done|].
  intros [= <- <-]. cbn. assert (wrap_u64 (next_epoch d + 1) = next_epoch d + 1) as Hw.
  { unfold wrap_u64. widths. rewrite Z.mod_small; lia. }
  split_and!; [|done..]. constructor; cbn.
  - rewrite map_size_insert_None by done. lia.
  - rewrite Hw. apply map_Forall_insert_2; [cbn; lia|]. eapply map_Forall_impl; [exact He|]. cbn. lia.
  - by apply map_Forall_insert_2.
Qed.

Lemma release_ok attempt epoch (d : State) answer d' :
  registry_ok d -> release attempt epoch d = (answer, d') -> registry_ok d'.
Proof.
  intros Hok. unfold release. case_match; [by intros [= <- <-]|]. case_match; [|by intros [= <- <-]].
  case_match; intros [= <- <-]; [|done]. destruct Hok as [Hb He Hi]. constructor; cbn.
  - split; [|apply Hb].
    etrans; [|exact (proj1 Hb)]. apply inj_le, map_subseteq_size, delete_subseteq.
  - by apply map_Forall_delete.
  - by apply map_Forall_delete.
Qed.
End Registry.
