(* ===== verification/CancelHost.v ===== *)
(** Several dispatcher processes over one cancellation ledger.

    [CancelCustody] of the daemon reserves against every other handle on the
    same file, so what has to be exclusive is exclusive between processes.  Here
    the processes interleave: each ledger transaction, each answer of a sink and
    each crash is a step, and so is a prune or a direct recording by somebody
    else.  A process is between two calls ([Idle]), or somewhere in the
    sequence classify, deliver, record or abandon that [dispatch] and the
    control server's [cancel] run; a panicking sink leaves it [Poisoned]. *)

From S2P Require Import Prelude Text Table CancelLedger CancelDispatch.

Inductive Phase :=
| Idle
| Classified (c : CancelClaim)
| AcceptedBySink (c : CancelClaim)
| RefusedBySink (c : CancelClaim)
| PoisonedPhase.

Record Process := mkProcess {
  p_capacity : Z;
  p_reservations : gmap (list Z) CancelReservation;
  p_phase : Phase
}.

(** [h_signals]: attempt and reference of every delivery a sink took. *)
Record Host := mkHost {
  h_rows : Rows;
  h_processes : gmap nat Process;
  h_signals : list (list Z * list Z)
}.

Definition custody_of (p : Process) (rows : Rows) (elapsed : option Z) : StoreCancelCustody :=
  mkCustody (p_capacity p) rows (p_reservations p) elapsed.

(** The process after a custody call, in its next phase. *)
Definition after (s : StoreCancelCustody) (phase : Phase) : Process :=
  mkProcess (sc_capacity s) (sc_reservations s) phase.

Definition classified_phase (c : CancelClaim) (answer : result CustodyFailure CustodyVerdict) : Phase :=
  match answer with Ok Fresh => Classified c | _ => Idle end.

Definition signal (c : CancelClaim) : list Z * list Z := (cl_attempt_id c, cl_request_ref c).

(** The reference a process is delivering, if it is. *)
Definition phase_claim (ph : Phase) : option CancelClaim :=
  match ph with
  | Classified c | AcceptedBySink c | RefusedBySink c => Some c
  | Idle | PoisonedPhase => None
  end.

Section Steps.
Context `{RandomRowid}.

(** [allowed] says which prunes may happen. *)
Inductive Step (allowed : Retention -> Rows -> Prop) : Host -> Host -> Prop :=
| step_start i capacity h :
    handle_capacity capacity ->
    Step allowed h (mkHost (h_rows h) (<[i := mkProcess capacity ∅ Idle]> (h_processes h)) (h_signals h))
| step_classify i p c elapsed answer s h :
    h_processes h !! i = Some p -> p_phase p = Idle -> in_u64 (cl_observed_sequence c) ->
    store_classify c (custody_of p (h_rows h) elapsed) = (answer, s) ->
    Step allowed h (mkHost (sc_rows s) (<[i := after s (classified_phase c answer)]> (h_processes h)) (h_signals h))
| step_accept i p c h :
    h_processes h !! i = Some p -> p_phase p = Classified c ->
    Step allowed h
      (mkHost (h_rows h) (<[i := mkProcess (p_capacity p) (p_reservations p) (AcceptedBySink c)]> (h_processes h))
         (h_signals h ++ [signal c]))
| step_refuse i p c h :
    h_processes h !! i = Some p -> p_phase p = Classified c ->
    Step allowed h
      (mkHost (h_rows h) (<[i := mkProcess (p_capacity p) (p_reservations p) (RefusedBySink c)]> (h_processes h))
         (h_signals h))
| step_panic i p c signalled h :
    h_processes h !! i = Some p -> p_phase p = Classified c ->
    Step allowed h
      (mkHost (h_rows h) (<[i := mkProcess (p_capacity p) (p_reservations p) PoisonedPhase]> (h_processes h))
         (h_signals h ++ (if signalled : bool then [signal c] else [])))
| step_record i p c elapsed answer s h :
    h_processes h !! i = Some p -> p_phase p = AcceptedBySink c ->
    store_record c (custody_of p (h_rows h) elapsed) = (answer, s) ->
    Step allowed h (mkHost (sc_rows s) (<[i := after s Idle]> (h_processes h)) (h_signals h))
| step_abandon i p c elapsed answer s h :
    h_processes h !! i = Some p -> p_phase p = RefusedBySink c ->
    store_abandon c (custody_of p (h_rows h) elapsed) = (answer, s) ->
    Step allowed h (mkHost (sc_rows s) (<[i := after s Idle]> (h_processes h)) (h_signals h))
| step_direct capacity rq h :
    handle_capacity capacity -> in_u64 (rq_observed_sequence rq) ->
    Step allowed h (mkHost (snd (record capacity rq (h_rows h))) (h_processes h) (h_signals h))
| step_prune ret h :
    allowed ret (h_rows h) ->
    Step allowed h (mkHost (snd (prune ret (h_rows h))) (h_processes h) (h_signals h)).
End Steps.

(** A ledger somebody left, and nobody running yet. *)
Definition initial (h : Host) : Prop :=
  ledger_inv (h_rows h) /\ h_processes h = ∅ /\ h_signals h = [].

(** The prune does not forget the reference. *)
Definition keeps (ref : list Z) (ret : Retention) (rows : Rows) : Prop :=
  forall e, entries_of rows !! ref = Some e -> kept ret e = true.

Definition deliveries (ref : list Z) (signals : list (list Z * list Z)) : Z :=
  len (List.filter (fun s => bool_decide (snd s = ref)) signals).

(** * What custody does to the ledger, by the abstract map *)

Section Custody.
Context `{RandomRowidLaws}.

Lemma run_call_spec capacity c t answer t' :
  ledger_inv t -> handle_capacity capacity -> call_ok c -> run_call capacity c t = (answer, t') ->
  spec_call capacity (next_rowid raw_entry_id t) c (entries_of t) = (answer, entries_of t') /\ ledger_inv t'.
Proof.
  intros Ht Hc Hok Hrun. pose proof (ledger_refines_map_lemma capacity c t Ht Hc Hok) as Hr.
  cbv zeta in Hr. rewrite Hrun in Hr. tauto.
Qed.

(** A reservation is given for an absent reference alone, and puts it there. *)
Lemma reserve_effect capacity rq t answer t' :
  ledger_inv t -> handle_capacity capacity -> in_u64 (rq_observed_sequence rq) ->
  reserve capacity rq t = (answer, t') ->
  ledger_inv t' /\
  match answer with
  | Ok (Reserved rs) =>
      exists id, entries_of t !! rq_request_ref rq = None /\
        rs = reservation_of (new_entry id StateReserved rq) /\
        entries_of t' = <[rq_request_ref rq := new_entry id StateReserved rq]> (entries_of t)
  | _ => entries_of t' = entries_of t
  end.
Proof.
  intros Ht Hc Hs E. destruct (run_call_spec capacity (CallReserve rq) t (receipt_answer <$> answer) t')
    as [Hspec Hinv]; [done..|by cbn; rewrite E|]. split; [done|]. cbn in Hspec. revert Hspec.
  unfold spec_present, spec_new, spec_known.
  destruct answer as [[rs|r]|e]; cbn; repeat case_match; intros; simplify_eq; eauto.
Qed.

(** A direct recording changes at most its own, absent, reference. *)
Lemma record_effect capacity rq t answer t' :
  ledger_inv t -> handle_capacity capacity -> in_u64 (rq_observed_sequence rq) ->
  record capacity rq t = (answer, t') ->
  ledger_inv t' /\
  (entries_of t' = entries_of t \/
   exists e, entries_of t !! rq_request_ref rq = None /\
     entries_of t' = <[rq_request_ref rq := e]> (entries_of t)).
Proof.
  intros Ht Hc Hs E. destruct (run_call_spec capacity (CallRecord rq) t (AnsReceipt <$> answer) t')
    as [Hspec Hinv]; [done..|by cbn; rewrite E|]. split; [done|]. cbn in Hspec. revert Hspec.
  unfold spec_present, spec_new, spec_known. repeat case_match; intros; simplify_eq; eauto.
Qed.

(** Completion changes at most the reservation's reference, which stays bound. *)
Lemma complete_effect rs t answer t' :
  ledger_inv t -> complete rs t = (answer, t') ->
  ledger_inv t' /\
  (entries_of t' = entries_of t \/
   exists e, entries_of t' = <[rs_request_ref rs := e]> (entries_of t)).
Proof.
  intros Ht E. destruct (run_call_spec 1 (CallComplete rs) t (AnsReceipt <$> answer) t')
    as [Hspec Hinv]; [done|by unfold handle_capacity, MAX_LEDGER_ENTRIES|done|by cbn; rewrite E|].
  split; [done|]. cbn in Hspec. revert Hspec. repeat case_match; intros; simplify_eq; eauto.
Qed.

(** Abandoning removes at most the reservation's reference. *)
Lemma abandon_effect rs t answer t' :
  ledger_inv t -> abandon rs t = (answer, t') ->
  ledger_inv t' /\
  (entries_of t' = entries_of t \/ entries_of t' = delete (rs_request_ref rs) (entries_of t)).
Proof.
  intros Ht E. destruct (run_call_spec 1 (CallAbandon rs) t ((fun _ => AnsAbandoned) <$> answer) t')
    as [Hspec Hinv]; [done|by unfold handle_capacity, MAX_LEDGER_ENTRIES|done|by cbn; rewrite E|].
  split; [done|]. cbn in Hspec. revert Hspec. repeat case_match; intros; simplify_eq; eauto.
Qed.

(** A prune keeps what it is told to keep, and forgets the rest. *)
Lemma prune_effect ret t answer t' :
  ledger_inv t -> prune ret t = (answer, t') ->
  ledger_inv t' /\
  (forall k e, entries_of t' !! k = Some e -> entries_of t !! k = Some e) /\
  (forall k e, entries_of t !! k = Some e -> kept ret e = true -> entries_of t' !! k = Some e).
Proof.
  intros Ht E. destruct (run_call_spec 1 (CallPrune ret) t (AnsPruned <$> answer) t')
    as [Hspec Hinv]; [done|by unfold handle_capacity, MAX_LEDGER_ENTRIES|done|by cbn; rewrite E|].
  split; [done|]. cbn in Hspec. revert Hspec. unfold spec_prune.
  repeat case_match; intros Hspec; injection Hspec as _ <-; [by eauto..|].
  split; intros k e; rewrite map_lookup_filter_Some; naive_solver.
Qed.

(** * What custody does to a process *)

Lemma classify_effect c s answer s' :
  ledger_inv (sc_rows s) -> handle_capacity (sc_capacity s) -> in_u64 (cl_observed_sequence c) ->
  store_classify c s = (answer, s') ->
  ledger_inv (sc_rows s') /\ sc_capacity s' = sc_capacity s /\
  ((answer = Ok Fresh /\ entries_of (sc_rows s) !! cl_request_ref c = None /\
    exists e, entries_of (sc_rows s') = <[cl_request_ref c := e]> (entries_of (sc_rows s)) /\
      en_request_ref e = cl_request_ref c /\
      sc_reservations s' = <[cl_request_ref c := reservation_of e]> (sc_reservations s)) \/
   (answer <> Ok Fresh /\ entries_of (sc_rows s') = entries_of (sc_rows s) /\
    sc_reservations s' = sc_reservations s)).
Proof.
  intros Ht Hc Hs. unfold store_classify. case_match; [intros [= <- <-]; auto 10|].
  destruct (now_ms (sc_elapsed s)) as [a|]; [|intros [= <- <-]; auto 10].
  destruct (reserve _ _ _) as [ans t'] eqn:E. 
  destruct (reserve_effect (sc_capacity s) (request_of c a) _ _ _ Ht Hc Hs E) as [Ht' He].
  destruct ans as [[rs|r]|e]; cbn.
  - destruct He as (id & Hn & -> & He). intros [= <- <-]. cbn. split_and!; [done|done|]. left.
    split_and!; [done..|]. by eexists.
  - intros [= <- <-]. cbn. auto 10.
  - destruct e; intros [= <- <-]; cbn; auto 10.
Qed.

Lemma record_with_reservation c s rs answer s' :
  ledger_inv (sc_rows s) -> sc_reservations s = {[cl_request_ref c := rs]} ->
  rs_request_ref rs = cl_request_ref c -> store_record c s = (answer, s') ->
  ledger_inv (sc_rows s') /\ sc_capacity s' = sc_capacity s /\ sc_reservations s' = ∅ /\
  (entries_of (sc_rows s') = entries_of (sc_rows s) \/
   exists e, entries_of (sc_rows s') = <[cl_request_ref c := e]> (entries_of (sc_rows s))).
Proof.
  intros Ht Hr Hrs. unfold store_record. rewrite Hr, lookup_singleton_eq.
  destruct (complete rs (sc_rows (with_reservations s _))) as [ans t'] eqn:E.
  destruct (complete_effect rs _ _ _ Ht E) as [Ht' He]. intros [= <- <-]. cbn.
  rewrite delete_singleton_eq. rewrite Hrs in He. auto.
Qed.

Lemma abandon_with_reservation c s rs answer s' :
  ledger_inv (sc_rows s) -> sc_reservations s = {[cl_request_ref c := rs]} ->
  rs_request_ref rs = cl_request_ref c -> store_abandon c s = (answer, s') ->
  ledger_inv (sc_rows s') /\ sc_capacity s' = sc_capacity s /\ sc_reservations s' = ∅ /\
  (entries_of (sc_rows s') = entries_of (sc_rows s) \/
   entries_of (sc_rows s') = delete (cl_request_ref c) (entries_of (sc_rows s))).
Proof.
  intros Ht Hr Hrs. unfold store_abandon. rewrite Hr, lookup_singleton_eq.
  destruct (abandon rs (sc_rows (with_reservations s _))) as [ans t'] eqn:E.
  destruct (abandon_effect rs _ _ _ Ht E) as [Ht' He]. intros [= <- <-]. cbn.
  rewrite delete_singleton_eq. rewrite Hrs in He. auto.
Qed.
End Custody.

(** * The invariant of one reference *)

Definition process_ok (p : Process) : Prop :=
  handle_capacity (p_capacity p) /\
  match p_phase p with
  | Idle => p_reservations p = ∅
  | PoisonedPhase => True
  | Classified c | AcceptedBySink c | RefusedBySink c =>
      exists rs, p_reservations p = {[cl_request_ref c := rs]} /\ rs_request_ref rs = cl_request_ref c
  end.

Definition holds (ref : list Z) (ph : Phase) : Prop :=
  exists c, phase_claim ph = Some c /\ cl_request_ref c = ref.

(** Reserved, and no sink has taken it. *)
Definition pending (ref : list Z) (ph : Phase) : Prop :=
  match ph with
  | Classified c | RefusedBySink c => cl_request_ref c = ref
  | _ => False
  end.

Lemma pending_holds ref ph : pending ref ph -> holds ref ph.
Proof. destruct ph; cbn; try done; intros <-; by eexists. Qed.

Definition bound (ref : list Z) (rows : Rows) : Prop := is_Some (entries_of rows !! ref).

Record host_inv (ref : list Z) (h : Host) : Prop := mkHostInv {
  hi_ledger : ledger_inv (h_rows h);
  hi_processes : map_Forall (fun _ p => process_ok p) (h_processes h);
  hi_bound : forall i p, h_processes h !! i = Some p -> holds ref (p_phase p) -> bound ref (h_rows h);
  hi_single : forall i j p q, h_processes h !! i = Some p -> h_processes h !! j = Some q ->
    holds ref (p_phase p) -> holds ref (p_phase q) -> i = j;
  hi_pending : forall i p, h_processes h !! i = Some p -> pending ref (p_phase p) ->
    deliveries ref (h_signals h) = 0;
  hi_delivered : 0 < deliveries ref (h_signals h) -> bound ref (h_rows h);
  hi_once : deliveries ref (h_signals h) <= 1
}.

Lemma deliveries_app ref l k : deliveries ref (l ++ k) = deliveries ref l + deliveries ref k.
Proof. unfold deliveries. by rewrite List.filter_app, len_app. Qed.

Lemma deliveries_signal ref c :
  deliveries ref [signal c] = if bool_decide (cl_request_ref c = ref) then 1 else 0.
Proof. unfold deliveries. cbn. by case_bool_decide. Qed.

Lemma initial_inv ref h : initial h -> host_inv ref h.
Proof.
  intros (Hl & Hp & Hs). constructor; rewrite ?Hp, ?Hs; done.
Qed.

(** A step of process [i]: what it has to establish. *)
Lemma update_inv ref h i p' rows' signals' :
  host_inv ref h -> ledger_inv rows' -> process_ok p' ->
  (forall j q, j <> i -> h_processes h !! j = Some q -> holds ref (p_phase q) ->
     bound ref rows' /\ ~ holds ref (p_phase p') /\
     deliveries ref signals' = deliveries ref (h_signals h)) ->
  (holds ref (p_phase p') -> bound ref rows') ->
  (pending ref (p_phase p') -> deliveries ref signals' = 0) ->
  (0 < deliveries ref signals' -> bound ref rows') ->
  deliveries ref signals' <= 1 ->
  host_inv ref (mkHost rows' (<[i := p']> (h_processes h)) signals').
Proof.
  intros [Hl Hp Hb Hs Hpe Hd Ho] Hl' Hp' Hother Hbound Hpend Hdel Honce. constructor; cbn; [done| | | | |done..].
  - by apply map_Forall_insert_2.
  - intros j q [[<- <-]|[Hj Hq]]%lookup_insert_Some Hh; [auto|]. by destruct (Hother j q).
  - intros j k q r [[<- <-]|[Hj Hq]]%lookup_insert_Some [[<- <-]|[Hk Hr]]%lookup_insert_Some H1 H2;
      [done| | |by eapply Hs].
    + by destruct (Hother k r) as (_ & [] & _).
    + by destruct (Hother j q) as (_ & [] & _).
  - intros j q [[<- <-]|[Hj Hq]]%lookup_insert_Some Hh; [auto|].
    destruct (Hother j q) as (_ & _ & ->); [done..|by apply pending_holds|]. by eapply Hpe.
Qed.

(** The ledger changes under the processes: a direct recording or a prune. *)
Lemma ledger_inv_step ref h rows' :
  host_inv ref h -> ledger_inv rows' -> (bound ref (h_rows h) -> bound ref rows') ->
  host_inv ref (mkHost rows' (h_processes h) (h_signals h)).
Proof. intros [Hl Hp Hb Hs Hpe Hd Ho] Hl' Hm. constructor; cbn; eauto. Qed.

Lemma bound_insert (ref k : list Z) (e : CancelEntry) (m : Entries) : is_Some (m !! ref) -> is_Some (<[k := e]> m !! ref).
Proof. intros H. rewrite lookup_insert_is_Some. destruct (decide (k = ref)); auto. Qed.

Section Invariant.
Context `{RandomRowidLaws} (ref : list Z).

Lemma no_signals_deliveries h : deliveries ref (h_signals h ++ []) = deliveries ref (h_signals h).
Proof. by rewrite app_nil_r. Qed.

Lemma classify_step i p c elapsed answer s h :
  host_inv ref h -> h_processes h !! i = Some p -> p_phase p = Idle ->
  in_u64 (cl_observed_sequence c) -> store_classify c (custody_of p (h_rows h) elapsed) = (answer, s) ->
  host_inv ref (mkHost (sc_rows s) (<[i := after s (classified_phase c answer)]> (h_processes h)) (h_signals h)).
Proof.
  intros Hinv Hi Hph Hs E. pose proof Hinv as [Hl Hp Hb Hsi Hpe Hd Ho].
  destruct (Hp i p Hi) as [Hcap Hres]. rewrite Hph in Hres.
  destruct (classify_effect c (custody_of p (h_rows h) elapsed) answer s Hl Hcap Hs E) as (Hl' & Hc' & Hcase). cbn in *.
  destruct Hcase as [(-> & Hnone & e & He & Hre & Hr)|(Hne & He & Hr)].
  - (* fresh: the reference was absent, so nobody held it and no sink took it *)
    rewrite Hres in Hr. apply update_inv; [done..| | | | | |done].
    + split; cbn; [by rewrite Hc'|]. exists (reservation_of e). by rewrite Hr.
    + intros j q _ Hq Hh. pose proof (Hb j q Hq Hh) as Hbd. unfold bound in *. rewrite He.
      split; [by apply bound_insert|]. split; [|done]. cbn. intros (c' & [= <-] & Hc).
      rewrite Hc in Hnone. rewrite Hnone in Hbd. by destruct Hbd.
    + cbn. intros (c' & [= <-] & <-). unfold bound. rewrite He, lookup_insert_eq. by eexists.
    + cbn. intros <-. destruct (Z.lt_trichotomy 0 (deliveries (cl_request_ref c) (h_signals h))) as [Hlt|[Heq|Hlt]].
      * apply Hd in Hlt. unfold bound in Hlt. rewrite Hnone in Hlt. by destruct Hlt.
      * done.
      * pose proof (len_nonneg (List.filter (fun s => bool_decide (s.2 = cl_request_ref c)) (h_signals h))).
        unfold deliveries in Hlt. lia.
    + intros Hlt. unfold bound. rewrite He. apply bound_insert. by apply Hd.
  - assert (classified_phase c answer = Idle) as ->.
    { destruct answer as [[]|]; cbn; congruence. }
    apply update_inv; [done..| | | | | |done]; unfold bound; rewrite ?He; cbn.
    + split; cbn; [by rewrite Hc'|congruence].
    + intros j q _ Hq Hh. split; [by eapply Hb|]. split; [|done]. by intros (? & ? & _).
    + by intros (? & ? & _).
    + done.
    + exact Hd.
Qed.

(** A process that moves on without the ledger: to a phase that holds no more
    than it did. *)
Lemma phase_step i p ph' signals' h :
  host_inv ref h -> h_processes h !! i = Some p -> process_ok (mkProcess (p_capacity p) (p_reservations p) ph') ->
  (holds ref ph' -> holds ref (p_phase p)) ->
  (holds ref (p_phase p) \/ deliveries ref signals' = deliveries ref (h_signals h)) ->
  (pending ref ph' -> deliveries ref signals' = 0) ->
  (deliveries ref signals' = deliveries ref (h_signals h) \/
   deliveries ref (h_signals h) = 0 /\ deliveries ref signals' <= 1 /\ bound ref (h_rows h)) ->
  host_inv ref (mkHost (h_rows h) (<[i := mkProcess (p_capacity p) (p_reservations p) ph']> (h_processes h)) signals').
Proof.
  intros Hinv Hi Hok Hh Hor Hpend Hcnt. pose proof Hinv as [Hl Hp Hb Hsi Hpe Hd Ho].
  apply update_inv; [done|done|done| | |done| |].
  - intros j q Hj Hq Hq'. split; [by eapply Hb|]. split.
    + cbn. intros Hx. apply Hj, (Hsi j i q p); auto.
    + destruct Hor as [Hx|]; [|done]. exfalso. by apply Hj, (Hsi j i q p).
  - cbn. intros Hx. eapply Hb; [exact Hi|auto].
  - destruct Hcnt as [->|(_ & _ & ?)]; auto.
  - destruct Hcnt as [->|(_ & ? & _)]; lia.
Qed.

Lemma accept_step i p c h :
  host_inv ref h -> h_processes h !! i = Some p -> p_phase p = Classified c ->
  host_inv ref (mkHost (h_rows h)
    (<[i := mkProcess (p_capacity p) (p_reservations p) (AcceptedBySink c)]> (h_processes h))
    (h_signals h ++ [signal c])).
Proof.
  intros Hinv Hi Hph. pose proof Hinv as [Hl Hp Hb Hsi Hpe Hd Ho].
  destruct (Hp i p Hi) as [Hcap Hres]. rewrite Hph in Hres.
  assert (Hdel := deliveries_app ref (h_signals h) [signal c]). rewrite deliveries_signal in Hdel.
  apply phase_step; [done|done|by split| | |done|]; rewrite ?Hph.
  - done.
  - case_bool_decide as E; [left; by exists c|right; lia].
  - case_bool_decide as E; [right|left; lia].
    assert (Hz : deliveries ref (h_signals h) = 0) by (eapply Hpe; [exact Hi|by rewrite Hph]).
    split_and!; [done|lia|]. eapply Hb; [exact Hi|]. rewrite Hph. by exists c.
Qed.

Lemma refuse_step i p c h :
  host_inv ref h -> h_processes h !! i = Some p -> p_phase p = Classified c ->
  host_inv ref (mkHost (h_rows h)
    (<[i := mkProcess (p_capacity p) (p_reservations p) (RefusedBySink c)]> (h_processes h)) (h_signals h)).
Proof.
  intros Hinv Hi Hph. pose proof Hinv as [Hl Hp Hb Hsi Hpe Hd Ho].
  destruct (Hp i p Hi) as [Hcap Hres]. rewrite Hph in Hres.
  apply phase_step; [done|done|by split|by rewrite Hph|by right| |by left].
  cbn. intros <-. eapply Hpe; [exact Hi|by rewrite Hph].
Qed.

Lemma panic_step i p c (signalled : bool) h :
  host_inv ref h -> h_processes h !! i = Some p -> p_phase p = Classified c ->
  host_inv ref (mkHost (h_rows h)
    (<[i := mkProcess (p_capacity p) (p_reservations p) PoisonedPhase]> (h_processes h))
    (h_signals h ++ (if signalled then [signal c] else []))).
Proof.
  intros Hinv Hi Hph. pose proof Hinv as [Hl Hp Hb Hsi Hpe Hd Ho].
  destruct (Hp i p Hi) as [Hcap Hres]. rewrite Hph in Hres.
  assert (Hdel : deliveries ref (h_signals h ++ (if signalled then [signal c] else [])) =
    deliveries ref (h_signals h) + (if signalled && bool_decide (cl_request_ref c = ref) then 1 else 0)).
  { rewrite deliveries_app. destruct signalled; [by rewrite deliveries_signal|done]. }
  apply phase_step; [done|done|by split| | |done|]; rewrite ?Hph.
  - by intros (? & ? & _).
  - case_bool_decide as E; [left; by exists c|right; destruct signalled; cbn in Hdel; lia].
  - case_bool_decide as E; [|left; destruct signalled; cbn in Hdel; lia].
    destruct signalled; cbn in Hdel; [right|left; lia].
    assert (Hz : deliveries ref (h_signals h) = 0) by (eapply Hpe; [exact Hi|by rewrite Hph]).
    split_and!; [done|lia|]. eapply Hb; [exact Hi|]. rewrite Hph. by exists c.
Qed.

(** The end of a sequence: the process holds nothing, and the reference stays
    bound unless it was this process's and no sink had taken it. *)
Lemma idle_step i p s h :
  host_inv ref h -> h_processes h !! i = Some p -> ledger_inv (sc_rows s) ->
  sc_capacity s = p_capacity p -> sc_reservations s = ∅ ->
  (bound ref (h_rows h) -> bound ref (sc_rows s) \/
     holds ref (p_phase p) /\ deliveries ref (h_signals h) = 0) ->
  host_inv ref (mkHost (sc_rows s) (<[i := after s Idle]> (h_processes h)) (h_signals h)).
Proof.
  intros Hinv Hi Hl' Hc Hr Hkeep. pose proof Hinv as [Hl Hp Hb Hsi Hpe Hd Ho].
  destruct (Hp i p Hi) as [Hcap _].
  apply update_inv; [done|done| | | |done| |done].
  - split; cbn; [by rewrite Hc|done].
  - intros j q Hj Hq Hh. split; [|by split; [intros (? & ? & _)|]].
    destruct (Hkeep (Hb j q Hq Hh)) as [|[Hx _]]; [done|]. exfalso. by apply Hj, (Hsi j i q p).
  - by intros (? & ? & _).
  - intros Hlt. destruct (Hkeep (Hd Hlt)) as [|[_ Hz]]; [done|lia].
Qed.

Lemma record_step i p c elapsed answer s h :
  host_inv ref h -> h_processes h !! i = Some p -> p_phase p = AcceptedBySink c ->
  store_record c (custody_of p (h_rows h) elapsed) = (answer, s) ->
  host_inv ref (mkHost (sc_rows s) (<[i := after s Idle]> (h_processes h)) (h_signals h)).
Proof.
  intros Hinv Hi Hph E. pose proof Hinv as [Hl Hp _ _ _ _ _].
  destruct (Hp i p Hi) as [_ Hres]. rewrite Hph in Hres. destruct Hres as (rs & Hres & Hrs).
  destruct (record_with_reservation c (custody_of p (h_rows h) elapsed) rs answer s Hl Hres Hrs E)
    as (Hl' & Hc & Hr & He). cbn in *.
  eapply idle_step; [done|exact Hi|done..|]. intros Hb. left. unfold bound in *.
  destruct He as [->|[e ->]]; [done|by apply bound_insert].
Qed.

Lemma abandon_step i p c elapsed answer s h :
  host_inv ref h -> h_processes h !! i = Some p -> p_phase p = RefusedBySink c ->
  store_abandon c (custody_of p (h_rows h) elapsed) = (answer, s) ->
  host_inv ref (mkHost (sc_rows s) (<[i := after s Idle]> (h_processes h)) (h_signals h)).
Proof.
  intros Hinv Hi Hph E. pose proof Hinv as [Hl Hp _ _ Hpe _ _].
  destruct (Hp i p Hi) as [_ Hres]. rewrite Hph in Hres. destruct Hres as (rs & Hres & Hrs).
  destruct (abandon_with_reservation c (custody_of p (h_rows h) elapsed) rs answer s Hl Hres Hrs E)
    as (Hl' & Hc & Hr & He). cbn in *.
  eapply idle_step; [done|exact Hi|done..|]. intros Hb. unfold bound in *.
  destruct He as [->| ->]; [by left|]. destruct (decide (cl_request_ref c = ref)) as [Hc'|Hc'].
  - right. rewrite Hph. split; [by exists c|]. eapply Hpe; [exact Hi|by rewrite Hph].
  - left. by rewrite lookup_delete_ne.
Qed.

Lemma start_step i capacity h :
  host_inv ref h -> handle_capacity capacity ->
  host_inv ref (mkHost (h_rows h) (<[i := mkProcess capacity ∅ Idle]> (h_processes h)) (h_signals h)).
Proof.
  intros Hinv Hc. pose proof Hinv as [Hl Hp Hb Hsi Hpe Hd Ho].
  apply update_inv; [done|done|by split| | |done|done|done].
  - intros j q _ Hq Hh. split; [by eapply Hb|]. split; [by intros (? & ? & _)|done].
  - by intros (? & ? & _).
Qed.

Lemma step_inv h h' : host_inv ref h -> Step (keeps ref) h h' -> host_inv ref h'.
Proof.
  intros Hinv Hstep. destruct Hstep.
  - by apply start_step.
  - by eapply classify_step.
  - by apply accept_step.
  - by apply refuse_step.
  - by apply panic_step.
  - by eapply record_step.
  - by eapply abandon_step.
  - destruct (record capacity rq (h_rows h)) as [answer t'] eqn:E.
    destruct (record_effect capacity rq _ answer t' (hi_ledger _ _ Hinv) H1 H2 E) as [Hl He].
    apply ledger_inv_step; [done|done|]. unfold bound. intros Hb. cbn.
    destruct He as [->|(e & _ & ->)]; [done|by apply bound_insert].
  - destruct (prune ret (h_rows h)) as [answer t'] eqn:E.
    destruct (prune_effect ret _ answer t' (hi_ledger _ _ Hinv) E) as (Hl & _ & Hk).
    apply ledger_inv_step; [done|done|]. intros [e He]. exists e. apply Hk; [done|]. by apply H1.
Qed.

Lemma steps_inv h h' : host_inv ref h -> rtc (Step (keeps ref)) h h' -> host_inv ref h'.
Proof. intros Hinv. induction 1; [done|]. eauto using step_inv. Qed.
End Invariant.

(** C11: any number of dispatcher processes share one ledger, interleaving their
    transactions, with sinks that refuse or panic, crashes and restarts at any
    point, direct recordings by others, and any prune that does not forget the
    reference: a sink takes a given reference once at most, and once it has, no
    process is about to deliver it again and the ledger still binds it. *)
Theorem delivered_at_most_once `{RandomRowidLaws} ref h h' :
  initial h -> rtc (Step (keeps ref)) h h' ->
  deliveries ref (h_signals h') <= 1 /\
  (deliveries ref (h_signals h') = 1 ->
     is_Some (entries_of (h_rows h') !! ref) /\
     forall i p c, h_processes h' !! i = Some p -> p_phase p = Classified c -> cl_request_ref c <> ref).
Proof.
  intros Hi Hrun. pose proof (steps_inv ref h h' (initial_inv ref h Hi) Hrun) as [Hl Hp Hb Hs Hpe Hd Ho].
  split; [done|]. intros H1. split; [apply Hd; lia|]. intros i p c Hp' Hph Hc.
  assert (deliveries ref (h_signals h') = 0); [|lia]. eapply Hpe; [exact Hp'|]. by rewrite Hph.
Qed.

(** * The dispatcher is one of these processes *)

(** A sink by what it does when it is called. *)
Inductive SinkBehaviour := Accepts (d : CancelDelivery) | Refuses (e : CancelSinkError) | Panics (signalled : bool).

(** A process's custody, with the signals its sinks took. *)
Record StoreWorld := mkWorld { sw_custody : StoreCancelCustody; sw_signals : list (list Z * list Z) }.

Definition lift_custody {A} (f : StoreCancelCustody -> A * StoreCancelCustody) (w : StoreWorld) : A * StoreWorld :=
  let '(a, s) := f (sw_custody w) in (a, mkWorld s (sw_signals w)).

#[export] Instance StoreWorld_custody `{RandomRowid} : CancelCustody StoreWorld := {
  classify c := lift_custody (store_classify c);
  custody_record c := lift_custody (store_record c);
  custody_abandon c := lift_custody (store_abandon c)
}.

#[export] Instance SinkBehaviour_sink : CancelSink SinkBehaviour StoreWorld :=
  fun sink attempt_id request_ref w =>
    match sink with
    | Accepts d => (Some (Ok d), mkWorld (sw_custody w) (sw_signals w ++ [(attempt_id, request_ref)]))
    | Refuses e => (Some (Err e), w)
    | Panics signalled =>
        (None, mkWorld (sw_custody w) (sw_signals w ++ (if signalled then [(attempt_id, request_ref)] else [])))
    end.

(** The host as process [i] sees it, and as it leaves it. *)
Definition host_with (h : Host) (i : nat) (w : StoreWorld) (ph : Phase) : Host :=
  mkHost (sc_rows (sw_custody w)) (<[i := after (sw_custody w) ph]> (h_processes h)) (sw_signals w).

Definition world_of (h : Host) (p : Process) (elapsed : option Z) : StoreWorld :=
  mkWorld (custody_of p (h_rows h) elapsed) (h_signals h).

Lemma store_classify_keeps `{RandomRowid} c s answer s' : store_classify c s = (answer, s') -> sc_capacity s' = sc_capacity s /\ sc_elapsed s' = sc_elapsed s.
Proof.
  unfold store_classify. case_match; [by intros [= <- <-]|]. case_match; [|by intros [= <- <-]].
  destruct (reserve _ _ _) as [ans t']. repeat case_match; by intros [= <- <-].
Qed.

Lemma custody_of_after s ph rows : custody_of (after s ph) rows (sc_elapsed s) = with_rows s rows.
Proof. by destruct s. Qed.

Lemma with_rows_id s : with_rows s (sc_rows s) = s.
Proof. by destruct s. Qed.

(** C12: one call of the dispatcher, on a process that is between calls, is a run
    of that process's steps in the interleaved system: the ledger, the signals
    and the phase it leaves are those of the run.  It answers [Delivered] only
    after the sink took the reference, [AlreadyDelivered] only when it was not
    called, and nothing exactly when the sink panicked, which kills the
    dispatcher. *)
Theorem cancel_is_a_run `{RandomRowid} allowed h i p elapsed c sink d :
  h_processes h !! i = Some p -> p_phase p = Idle -> in_u64 (cl_observed_sequence c) ->
  is_identifier (cl_attempt_id c) = true -> is_identifier (cl_request_ref c) = true ->
  poisoned d = false -> (exists epoch, registrations d !! cl_attempt_id c = Some (mkRegistration epoch sink)) ->
  let '(outcome, d', w') :=
    cancel (cl_attempt_id c) (cl_request_ref c) (cl_observed_sequence c) d (world_of h p elapsed) in
  rtc (Step allowed) h (host_with h i w' (if outcome is Some _ then Idle else PoisonedPhase)) /\
  (outcome = None <-> poisoned d' = true) /\
  (outcome = Some OutDelivered -> sw_signals w' = h_signals h ++ [signal c]) /\
  (outcome = Some OutAlreadyDelivered -> sw_signals w' = h_signals h).
Proof.
  intros Hi Hph Hs Ha Hr Hpo [epoch Hreg]. unfold cancel, dispatch. rewrite Ha, Hr. cbn.
  rewrite Hpo, Hreg. cbn. destruct c as [a r n]. cbn in *. unfold world_of, lift_custody. cbn.
  destruct (store_classify _ _) as [verdict s] eqn:E. cbn.
  pose proof (store_classify_keeps _ _ _ _ E) as [_ Hel]. cbn in Hel.
  assert (H1 : Step allowed h (mkHost (sc_rows s)
    (<[i := after s (classified_phase (mkClaim a r n) verdict)]> (h_processes h)) (h_signals h)))
    by (by eapply step_classify).
  destruct verdict as [[]|f]; cbn in *.
  - set (h1 := mkHost _ _ _) in H1. set (p1 := after s (Classified (mkClaim a r n))) in h1.
    assert (Hp1 : h_processes h1 !! i = Some p1) by apply lookup_insert_eq.
    destruct sink as [dl|er|sg]; cbn.
    + assert (H2 := step_accept allowed i p1 (mkClaim a r n) h1 Hp1 eq_refl).
      set (h2 := mkHost _ _ _) in H2.
      destruct (store_record (mkClaim a r n) s) as [answer s2] eqn:E2. cbn.
      assert (H3 : Step allowed h2 (mkHost (sc_rows s2) (<[i := after s2 Idle]> (h_processes h2)) (h_signals h2))).
      { eapply (step_record _ i _ (mkClaim a r n) elapsed); [apply lookup_insert_eq|done|].
        rewrite <- E2. f_equal. unfold custody_of. cbn. rewrite <- Hel. by destruct s. }
      split_and!; [|by rewrite Hpo|done|].
      * eapply rtc_l; [exact H1|]. eapply rtc_l; [exact H2|]. eapply rtc_l; [exact H3|].
        unfold host_with. cbn. rewrite !insert_insert_eq. apply rtc_refl.
      * destruct answer as [[]|[]]; done.
    + assert (H2 := step_refuse allowed i p1 (mkClaim a r n) h1 Hp1 eq_refl).
      set (h2 := mkHost _ _ _) in H2.
      destruct (store_abandon (mkClaim a r n) s) as [answer s2] eqn:E2. cbn.
      assert (H3 : Step allowed h2 (mkHost (sc_rows s2) (<[i := after s2 Idle]> (h_processes h2)) (h_signals h2))).
      { eapply (step_abandon _ i _ (mkClaim a r n) elapsed); [apply lookup_insert_eq|done|].
        rewrite <- E2. f_equal. unfold custody_of. cbn. rewrite <- Hel. by destruct s. }
      split_and!; [|by rewrite Hpo|by destruct answer as [|[]]|by destruct answer as [|[]]].
      eapply rtc_l; [exact H1|]. eapply rtc_l; [exact H2|]. eapply rtc_l; [exact H3|].
      unfold host_with. cbn. rewrite !insert_insert_eq. apply rtc_refl.
    + assert (H2 := step_panic allowed i p1 (mkClaim a r n) sg h1 Hp1 eq_refl).
      split_and!; [|done|done|done]. eapply rtc_l; [exact H1|]. eapply rtc_l; [exact H2|].
      unfold host_with. cbn. rewrite !insert_insert_eq. apply rtc_refl.
  - split_and!; [|by rewrite Hpo|done|done]. by apply rtc_once.
  - split_and!; [|by rewrite Hpo|done|done]. by apply rtc_once.
  - split_and!; [|by rewrite Hpo|by destruct f|by destruct f]. by apply rtc_once.
Qed.

(** * What a prune may do *)

Definition sample_claim : CancelClaim := mkClaim (str "attempt-1") (str "cancel-1") 7.

(** A custody that has just reserved the sample claim as the only row. *)
Definition sample_custody (now : Z) : StoreCancelCustody :=
  mkCustody 8 [row_of (new_entry 1 StateReserved (request_of sample_claim now))]
    {[cl_request_ref sample_claim := mkReservation 1 (str "cancel-1") (str "attempt-1") 7]} (Some now).

(** Without the side condition the bound fails: a prune deletes a row that
    is reserved, not only those delivered, so another process is given the
    reference while the first is still delivering it, and both sinks take it. *)
Theorem prune_forgets_in_flight `{RandomRowid} :
  exists h h', initial h /\ rtc (Step (fun _ _ => True)) h h' /\
    deliveries (str "cancel-1") (h_signals h') = 2.
Proof.
  exists (mkHost [] ∅ []). eexists. split; [|split].
  - split_and!; [|done..]. split; [|by unfold MAX_LEDGER_ENTRIES].
    constructor; [by constructor|by constructor|by constructor].
  - eapply rtc_l; [apply (step_start _ 0 8); by unfold handle_capacity, MAX_LEDGER_ENTRIES|].
    eapply rtc_l; [apply (step_start _ 1 8); by unfold handle_capacity, MAX_LEDGER_ENTRIES|].
    eapply rtc_l.
    { apply (step_classify _ 0 (mkProcess 8 ∅ Idle) sample_claim (Some 5) (Ok Fresh) (sample_custody 5));
        [cbn [h_processes]; by rewrite lookup_insert_ne, lookup_insert_eq|done|by vm_compute|by vm_compute]. }
    eapply rtc_l; [by apply (step_prune _ (mkRetention i64_max [str "attempt-1"]))|].
    assert (Hp : snd (prune (mkRetention i64_max [str "attempt-1"]) (sc_rows (sample_custody 5))) = [])
      by (by vm_compute).
    cbn [h_rows h_processes h_signals]. rewrite Hp.
    eapply rtc_l.
    { apply (step_classify _ 1 (mkProcess 8 ∅ Idle) sample_claim (Some 6) (Ok Fresh) (sample_custody 6));
        [cbn [h_processes]; by rewrite lookup_insert_ne, lookup_insert_eq|done|by vm_compute|by vm_compute]. }
    eapply rtc_l.
    { apply (step_accept _ 0 (after (sample_custody 5) (Classified sample_claim)) sample_claim); [|done].
      cbn [h_processes]. by rewrite lookup_insert_ne, lookup_insert_eq. }
    eapply rtc_l.
    { apply (step_accept _ 1 (after (sample_custody 6) (Classified sample_claim)) sample_claim); [|done].
      cbn [h_processes]. by rewrite lookup_insert_ne, lookup_insert_eq. }
    apply rtc_refl.
  - by vm_compute.
Qed.

(** * Witnesses *)

Definition empty_host : Host := mkHost [] ∅ [].

Lemma empty_host_initial : initial empty_host.
Proof.
  split_and!; [|done..]. split; [|by unfold MAX_LEDGER_ENTRIES]. constructor; by constructor.
Qed.

Definition sample_host : Host :=
  mkHost [row_of (new_entry 1 StateReserved (request_of sample_claim 5))]
    (<[0%nat := mkProcess 8 (sc_reservations (sample_custody 5)) (AcceptedBySink sample_claim)]>
       (<[0%nat := after (sample_custody 5) (Classified sample_claim)]>
          (<[0%nat := mkProcess 8 ∅ Idle]> ∅)))
    [signal sample_claim].

Lemma sample_run `{RandomRowid} : rtc (Step (keeps (str "cancel-1"))) empty_host sample_host.
Proof.
  eapply rtc_l; [apply (step_start _ 0 8); by unfold handle_capacity, MAX_LEDGER_ENTRIES|].
  eapply rtc_l.
  { apply (step_classify _ 0 (mkProcess 8 ∅ Idle) sample_claim (Some 5) (Ok Fresh) (sample_custody 5));
      [apply lookup_insert_eq|done|by vm_compute|by vm_compute]. }
  eapply rtc_l; [|apply rtc_refl].
  by apply (step_accept _ 0 (after (sample_custody 5) (Classified sample_claim)) sample_claim).
Qed.

Lemma delivered_at_most_once_witness :
  deliveries (str "cancel-1") (h_signals sample_host) <= 1 /\
  (deliveries (str "cancel-1") (h_signals sample_host) = 1 ->
     is_Some (entries_of (h_rows sample_host) !! str "cancel-1") /\
     forall i p c, h_processes sample_host !! i = Some p -> p_phase p = Classified c ->
       cl_request_ref c <> str "cancel-1").
Proof.
  exact (@delivered_at_most_once no_random_rowid no_random_rowid_laws (str "cancel-1") empty_host sample_host
    empty_host_initial (@sample_run no_random_rowid)).
Defined.

Definition sample_dispatcher : DispatchState SinkBehaviour :=
  mkDispatch {[str "attempt-1" := mkRegistration 0 (Accepts Accepted)]} 1 false MAX_REGISTRATIONS.

Lemma cancel_is_a_run_witness :
  let h := mkHost [] {[0%nat := mkProcess 8 ∅ Idle]} [] in
  let '(outcome, d', w') :=
    @cancel SinkBehaviour StoreWorld (@StoreWorld_custody no_random_rowid) SinkBehaviour_sink
      (str "attempt-1") (str "cancel-1") 7 sample_dispatcher (world_of h (mkProcess 8 ∅ Idle) (Some 5)) in
  outcome = Some OutDelivered /\ sw_signals w' = [(str "attempt-1", str "cancel-1")].
Proof.
  pose proof (@cancel_is_a_run no_random_rowid (fun _ _ => True) (mkHost [] {[0%nat := mkProcess 8 ∅ Idle]} [])
    0%nat (mkProcess 8 ∅ Idle) (Some 5) sample_claim (Accepts Accepted) sample_dispatcher
    (lookup_singleton_eq _ _) eq_refl ltac:(by vm_compute) ltac:(by vm_compute) ltac:(by vm_compute) eq_refl
    (ex_intro _ 0 (lookup_singleton_eq (str "attempt-1") (mkRegistration 0 (Accepts Accepted))))) as H.
  cbn beta zeta iota delta [sample_claim cl_attempt_id cl_request_ref cl_observed_sequence] in H |- *.
  revert H. destruct (cancel _ _ _ _ _) as [[outcome d'] w'] eqn:E. intros (_ & _ & Hd & _).
  assert (outcome = Some OutDelivered) as ->; [|by auto].
  apply (f_equal (fun x => fst (fst x))) in E. cbn [fst] in E. rewrite <- E. by vm_compute.
Defined.
