(* ===== verification/Spool.v ===== *)
(** The event spool of a run: [automonique-runner/src/spool.rs].

    A spool is one file of lines, each carrying the digest of the one before it.
    SHA-256 is a dependency of the source (the crate sha2), so it is a parameter
    here, [sha256], and what the source uses of it is [Sha256Laws].  The file
    is the list of its bytes; what the operating system answers to a write is an
    argument of [append_at]. *)

From S2P Require Import Prelude Text Digest.

Class HashFunction := sha256 : list Z -> list Z.

Class Sha256Laws `{HashFunction} : Prop :=
  sha256_bytes m : length (sha256 m) = 32%nat /\ bytes_ok (sha256 m).

Definition MAX_EVENT_PAYLOAD_BYTES : Z := 64 * 1024.
Definition GENESIS_DIGEST : list Z := replicate 32 0.

Inductive Authority := Synthetic | Authoritative.
Inductive EventKind := Started | AdapterEvent | SimulationEvent | CancelRequested | Terminal.
Inductive RunState := Ready | Running | Completed | Failed | Cancelled | TimedOut.

#[export] Instance Authority_eq_dec : EqDecision Authority.
Proof. solve_decision. Defined.
#[export] Instance EventKind_eq_dec : EqDecision EventKind.
Proof. solve_decision. Defined.
#[export] Instance RunState_eq_dec : EqDecision RunState.
Proof. solve_decision. Defined.

Definition authority_as_str (a : Authority) : list Z :=
  match a with Synthetic => str "synthetic" | Authoritative => str "authoritative" end.

Definition authority_parse (value : list Z) : option Authority :=
  if bool_decide (value = str "synthetic") then Some Synthetic
  else if bool_decide (value = str "authoritative") then Some Authoritative
  else None.

Definition kind_as_str (k : EventKind) : list Z :=
  match k with
  | Started => str "started"
  | AdapterEvent => str "adapter_event"
  | SimulationEvent => str "simulation_event"
  | CancelRequested => str "cancel_requested"
  | Terminal => str "terminal"
  end.

Definition kind_parse (value : list Z) : option EventKind :=
  if bool_decide (value = str "started") then Some Started
  else if bool_decide (value = str "adapter_event") then Some AdapterEvent
  else if bool_decide (value = str "simulation_event") then Some SimulationEvent
  else if bool_decide (value = str "cancel_requested") then Some CancelRequested
  else if bool_decide (value = str "terminal") then Some Terminal
  else None.

Definition run_state_as_str (s : RunState) : list Z :=
  match s with
  | Ready => str "ready"
  | Running => str "running"
  | Completed => str "completed"
  | Failed => str "failed"
  | Cancelled => str "cancelled"
  | TimedOut => str "timed_out"
  end.

Record Event := mkEvent {
  ev_run_id : list Z;
  ev_sequence : Z;
  ev_at_millis : Z;
  ev_kind : EventKind;
  ev_authority : Authority;
  ev_payload : list Z;
  ev_digest : list Z
}.

#[export] Instance Event_eq_dec : EqDecision Event.
Proof. solve_decision. Defined.

Record Status := mkStatus { su_run_id : list Z; su_state : RunState; su_last_sequence : Z }.

Inductive SpoolError :=
| SpoolIo
| UnsafeDirectory
| UnsafeFile
| AlreadyOpen
| Corrupt
| LimitExceeded
| AlreadyTerminal
| CursorAhead (requested available : Z).

(** * Hexadecimal *)

Definition hex (bytes : list Z) : list Z :=
  mjoin ((fun b => [nth (Z.to_nat (Z.shiftr b 4)) (str "0123456789abcdef") 0;
                    nth (Z.to_nat (Z.land b 15)) (str "0123456789abcdef") 0]) <$> bytes).

Definition nibble (b : Z) : option Z :=
  if in_range 48 57 b then Some (b - 48)
  else if in_range 97 102 b then Some (b - 97 + 10)
  else None.

(** [nibble(pair[0])? << 4 | nibble(pair[1])?], the shift in a [u8]. *)
Definition unhex_pair (pair : list Z) : option Z :=
  match pair with
  | [a; b] => h ← nibble a; l ← nibble b; Some (Z.lor (Z.land (Z.shiftl h 4) 255) l)
  | _ => None
  end.

Definition unhex (value : list Z) : option (list Z) :=
  if negb (str_len value mod 2 =? 0) then None else mapM unhex_pair (chunks 2 (utf8 value)).

Definition digest_bytes (value : list Z) : result SpoolError (list Z) :=
  bytes ← ok_or (unhex value) Corrupt;
  if len bytes =? 32 then Ok bytes else Err Corrupt.

(** * Text *)

(** [str::split_once]: around the first occurrence of [p]. *)
Fixpoint split_once (p t : list Z) : option (list Z * list Z) :=
  match strip_prefix p t with
  | Some rest => Some ([], rest)
  | None =>
      match t with
      | [] => None
      | c :: t => '(a, b) ← split_once p t; Some (c :: a, b)
      end
  end.

Definition strip_suffix (p t : list Z) : option (list Z) := @rev Z <$> strip_prefix (rev p) (rev t).

(** [str::lines]: pieces ended by a line feed, one carriage return before it
    dropped; a last piece without line feed as it is, unless it is empty. *)
Definition chomp (line : list Z) : list Z := default line (strip_suffix [13] line).

Fixpoint lines_from (acc t : list Z) : list (list Z) :=
  match t with
  | [] => if bool_decide (acc = []) then [] else [acc]
  | c :: t => if c =? 10 then chomp acc :: lines_from [] t else lines_from (acc ++ [c]) t
  end.

Definition lines (t : list Z) : list (list Z) := lines_from [] t.

(** [str::parse::<u64>]: one plus sign is allowed, and leading zeros. *)
Definition parse_u64 (t : list Z) : option Z :=
  let digits := match t with 43 :: ((_ :: _) as ds) => ds | _ => t end in
  if bool_decide (digits = []) || negb (forallb is_ascii_digit digits) then None
  else check_u64 (dec_value digits).

(** Literals of the line format, with single quotes for its double ones. *)
Definition quoted (s : string) : list Z := (fun c => if c =? 39 then 34 else c) <$> str s.

(** * Lines *)

(** The bytes [chained_digest] feeds to the hash function. *)
Definition hashed_bytes (e : Event) (previous : list Z) : list Z :=
  str "automonique.runner.event/v1" ++ [0] ++ previous
    ++ be_bytes 8 (str_len (ev_run_id e)) ++ utf8 (ev_run_id e)
    ++ be_bytes 8 (ev_sequence e) ++ be_bytes 8 (ev_at_millis e)
    ++ utf8 (kind_as_str (ev_kind e)) ++ [0] ++ utf8 (authority_as_str (ev_authority e)) ++ [0]
    ++ be_bytes 8 (len (ev_payload e)) ++ ev_payload e.

Definition chained_digest `{HashFunction} (e : Event) (previous : list Z) : list Z :=
  sha256 (hashed_bytes e previous).

Definition line_text (e : Event) (previous : list Z) : list Z :=
  quoted "{'protocol':'automonique.runner.event','version':1,'run_id_hex':'" ++ hex (utf8 (ev_run_id e))
    ++ quoted "','seq':" ++ dec (ev_sequence e) ++ quoted ",'at':" ++ dec (ev_at_millis e)
    ++ quoted ",'kind':'" ++ kind_as_str (ev_kind e)
    ++ quoted "','authority':'" ++ authority_as_str (ev_authority e)
    ++ quoted "','payload_hex':'" ++ hex (ev_payload e)
    ++ quoted "','previous_sha256':'" ++ hex previous
    ++ quoted "','sha256':'" ++ hex (ev_digest e) ++ quoted "'}".

Definition encode_event (e : Event) (previous : list Z) : list Z := utf8 (line_text e previous ++ [10]).

Definition last_digest (events : list Event) : list Z :=
  match last events with Some e => ev_digest e | None => GENESIS_DIGEST end.

Definition last_sequence (events : list Event) : Z :=
  match last events with Some e => ev_sequence e | None => 0 end.

Definition ends_terminal (events : list Event) : bool :=
  match last events with Some e => bool_decide (ev_kind e = Terminal) | None => false end.

Definition byte_text (value : list Z) : result SpoolError (list Z) :=
  bytes ← ok_or (unhex value) Corrupt; ok_or (from_utf8 bytes) Corrupt.

(** One turn of the loop of [parse_events]. *)
Definition parse_line `{HashFunction} (expected_run_id : list Z) (events : list Event) (line : list Z)
  : result SpoolError Event :=
  line ← ok_or (strip_prefix (quoted "{'protocol':'automonique.runner.event','version':1,'run_id_hex':'") line) Corrupt;
  '(run_id_hex, line) ← ok_or (split_once (quoted "','seq':") line) Corrupt;
  run_id ← byte_text run_id_hex;
  if negb (bool_decide (run_id = expected_run_id)) then Err Corrupt
  else
    '(sequence, line) ← ok_or (split_once (quoted ",'at':") line) Corrupt;
    sequence ← ok_or (parse_u64 sequence) Corrupt;
    if negb (sequence =? len events + 1) then Err Corrupt
    else
      '(at_millis, line) ← ok_or (split_once (quoted ",'kind':'") line) Corrupt;
      at_millis ← ok_or (parse_u64 at_millis) Corrupt;
      '(kind, line) ← ok_or (split_once (quoted "','authority':'") line) Corrupt;
      kind ← ok_or (kind_parse kind) Corrupt;
      '(authority, line) ← ok_or (split_once (quoted "','payload_hex':'") line) Corrupt;
      authority ← ok_or (authority_parse authority) Corrupt;
      '(payload_hex, line) ← ok_or (split_once (quoted "','previous_sha256':'") line) Corrupt;
      payload ← ok_or (unhex payload_hex) Corrupt;
      if MAX_EVENT_PAYLOAD_BYTES <? len payload then Err Corrupt
      else if ends_terminal events then Err Corrupt
      else
        '(previous_hex, line) ← ok_or (split_once (quoted "','sha256':'") line) Corrupt;
        offered_previous ← digest_bytes previous_hex;
        digest_hex ← ok_or (strip_suffix (quoted "'}") line) Corrupt;
        offered_digest ← digest_bytes digest_hex;
        let event := mkEvent run_id sequence at_millis kind authority payload offered_digest in
        let expected_previous := last_digest events in
        if negb (bool_decide (offered_previous = expected_previous))
           || negb (bool_decide (offered_digest = chained_digest event expected_previous))
        then Err Corrupt
        else Ok event.

Fixpoint parse_lines `{HashFunction} (expected_run_id : list Z) (events : list Event) (ls : list (list Z))
  : result SpoolError (list Event) :=
  match ls with
  | [] => Ok events
  | line :: ls =>
      event ← parse_line expected_run_id events line;
      parse_lines expected_run_id (events ++ [event]) ls
  end.

Definition parse_events `{HashFunction} (raw expected_run_id : list Z) : result SpoolError (list Event) :=
  text ← ok_or (from_utf8 raw) Corrupt;
  parse_lines expected_run_id [] (lines text).

Definition state_from_events (events : list Event) : RunState :=
  match last events with
  | None => Ready
  | Some e =>
      if negb (bool_decide (ev_kind e = Terminal)) then Running
      else if bool_decide (ev_payload e = str "completed") then Completed
      else if bool_decide (ev_payload e = str "cancelled") then Cancelled
      else if bool_decide (ev_payload e = str "timed_out") then TimedOut
      else Failed
  end.

(** * The writer *)

(** [sp_file] is the content of [events.ndjson]; [sp_status] the content of
    [status.json], if it was written. *)
Record Spool := mkSpool {
  sp_run_id : list Z;
  sp_file : list Z;
  sp_events : list Event;
  sp_bytes : Z;
  sp_max_bytes : Z;
  sp_terminal : bool;
  sp_status : option (list Z)
}.

Definition status_text (run_id : list Z) (state : RunState) (sequence : Z) : list Z :=
  quoted "{'protocol':'automonique.runner.status','version':1,'run_id_hex':'" ++ hex (utf8 run_id)
    ++ quoted "','state':'" ++ run_state_as_str state ++ quoted "','last_sequence':" ++ dec sequence
    ++ quoted "}" ++ [10].

(** The status file is replaced, or an error comes before or after the rename. *)
Inductive StatusOutcome := StatusReplaced | StatusFailed (renamed : bool).

Definition write_status (io : StatusOutcome) (s : Spool) : result SpoolError unit * Spool :=
  let text := status_text (sp_run_id s) (state_from_events (sp_events s)) (last_sequence (sp_events s)) in
  let s' := mkSpool (sp_run_id s) (sp_file s) (sp_events s) (sp_bytes s) (sp_max_bytes s) (sp_terminal s)
              (Some text) in
  match io with
  | StatusReplaced => (Ok tt, s')
  | StatusFailed renamed => (Err SpoolIo, if renamed then s' else s)
  end.

(** The bytes up to and with the last line feed. *)
Definition complete_bytes (raw : list Z) : Z :=
  match list_find (fun b => b = 10) (rev raw) with
  | Some (i, _) => len raw - Z.of_nat i
  | None => 0
  end.

(** What is on disk of a spool: the content of [events.ndjson], and of [status.json]
    if it is there. *)
Record SpoolFiles := mkSpoolFiles { sf_events : list Z; sf_status : option (list Z) }.

Definition files_of (s : Spool) : SpoolFiles := mkSpoolFiles (sp_file s) (sp_status s).

(** Cutting a torn line off: done, or an error that comes before or after it. *)
Inductive CutOutcome := CutDone | CutFailed (done : bool).

(** [Spool::open] on files that are there and locked: what it answers, and the
    files it leaves, refused or not. *)
Definition open_files `{HashFunction} (run_id : list Z) (files : SpoolFiles) (max_bytes : Z) (cut : CutOutcome)
    (io : StatusOutcome) : result SpoolError Spool * SpoolFiles :=
  let raw := sf_events files in
  if max_bytes <? len raw then (Err LimitExceeded, files)
  else
    let complete := take (Z.to_nat (complete_bytes raw)) raw in
    match parse_events complete run_id with
    | Err e => (Err e, files)
    | Ok events =>
        match (if complete_bytes raw <? len raw then cut else CutDone) with
        | CutFailed done => (Err SpoolIo, mkSpoolFiles (if done then complete else raw) (sf_status files))
        | CutDone =>
            let s := mkSpool run_id complete events (complete_bytes raw) max_bytes (ends_terminal events) (sf_status files) in
            let '(answer, s) := write_status io s in
            (_ ← answer; Ok s, files_of s)
        end
    end.

(** [Spool::open] on a file of content [raw], when cutting does not fail; the
    directory, the file and its lock have been checked.  [old_status] is the status
    file that is there. *)
Definition open `{HashFunction} (run_id raw : list Z) (max_bytes : Z) (old_status : option (list Z)) (io : StatusOutcome)
  : result SpoolError Spool := fst (open_files run_id (mkSpoolFiles raw old_status) max_bytes CutDone io).

(** What a write and the sync after it do: all of it, or an error that leaves
    the first bytes of the line in the file. *)
Inductive WriteOutcome := Wrote | WriteFailed (bytes : nat).

Definition append_at `{HashFunction} (kind : EventKind) (authority : Authority) (payload : list Z)
    (at_millis : Z) (write : WriteOutcome) (io : StatusOutcome) (s : Spool) : result SpoolError Event * Spool :=
  if sp_terminal s then (Err AlreadyTerminal, s)
  else if MAX_EVENT_PAYLOAD_BYTES <? len payload then (Err LimitExceeded, s)
  else
    match check_u64 (len (sp_events s) + 1) with
    | None => (Err LimitExceeded, s)
    | Some sequence =>
        let event := mkEvent (sp_run_id s) sequence at_millis kind authority payload GENESIS_DIGEST in
        let previous := last_digest (sp_events s) in
        let event := mkEvent (sp_run_id s) sequence at_millis kind authority payload
                       (chained_digest event previous) in
        let encoded := encode_event event previous in
        match check_u64 (sp_bytes s + len encoded) with
        | None => (Err LimitExceeded, s)
        | Some bytes =>
            if sp_max_bytes s <? bytes then (Err LimitExceeded, s)
            else
              match write with
              | WriteFailed n =>
                  (Err SpoolIo,
                   mkSpool (sp_run_id s) (sp_file s ++ take n encoded) (sp_events s) (sp_bytes s)
                     (sp_max_bytes s) (sp_terminal s) (sp_status s))
              | Wrote =>
                  let s := mkSpool (sp_run_id s) (sp_file s ++ encoded) (sp_events s ++ [event])
                             bytes (sp_max_bytes s) (bool_decide (kind = Terminal)) (sp_status s) in
                  let '(answer, s) := write_status io s in
                  (_ ← answer; Ok event, s)
              end
        end
    end.

(** [append] stamps the clock: milliseconds since the epoch, if it is past it. *)
Definition append `{HashFunction} (kind : EventKind) (authority : Authority) (payload : list Z)
    (elapsed : option Z) (write : WriteOutcome) (io : StatusOutcome) (s : Spool) : result SpoolError Event * Spool :=
  match elapsed ≫= check_u64 with
  | None => (Err Corrupt, s)
  | Some at_millis => append_at kind authority payload at_millis write io s
  end.

(** * Readers *)

Definition events_after (cursor : Z) (s : Spool) : result SpoolError (list Event) :=
  let available := last_sequence (sp_events s) in
  if available <? cursor then Err (CursorAhead cursor available)
  else Ok (List.filter (fun e => cursor <? ev_sequence e) (sp_events s)).

Definition status (s : Spool) : Status :=
  mkStatus (sp_run_id s) (state_from_events (sp_events s)) (last_sequence (sp_events s)).

Definition is_terminal (s : Spool) : bool := sp_terminal s.

Definition remaining_bytes (s : Spool) : Z := Z.max 0 (sp_max_bytes s - sp_bytes s).

(** [read_events]: a reader's own view of the file. *)
Definition read_events `{HashFunction} (raw run_id : list Z) : result SpoolError (list Event) :=
  parse_events (take (Z.to_nat (complete_bytes raw)) raw) run_id.

(** * Reading hexadecimal and decimal back *)

Lemma unhex_pair_hex a b : unhex_pair [a; b] = hex_pair [a; b].
Proof.
  unfold unhex_pair, hex_pair. cbn [fold_left].
  change (nibble a) with (digest_hex_value a). change (nibble b) with (digest_hex_value b).
  by destruct (digest_hex_value a), (digest_hex_value b).
Qed.

Lemma mapM_unhex_pair ps :
  Forall (fun p => length p = 2%nat) ps -> mapM unhex_pair ps = mapM hex_pair ps.
Proof.
  induction 1 as [|p ps Hp _ IH]; [done|]. destruct p as [|a [|b [|]]]; try done.
  cbn [mapM]. by rewrite unhex_pair_hex, IH.
Qed.

Lemma hex_ascii d : bytes_ok d -> utf8 (hex d) = hex d.
Proof. intros H. apply utf8_ascii. by apply to_hex_ascii. Qed.

Lemma unhex_hex d : bytes_ok d -> unhex (hex d) = Some d.
Proof.
  intros H. unfold unhex, str_len. rewrite hex_ascii by done. unfold len.
  assert (length (hex d) = (2 * length d)%nat) as Hl by apply to_hex_length. rewrite Hl.
  replace (Z.of_nat (2 * length d) mod 2) with 0 by (rewrite Nat2Z.inj_mul, Z.mul_comm, Z.mod_mul; lia). cbn [Z.eqb negb].
  rewrite mapM_unhex_pair; [by apply hex_pairs_read|]. by eapply even_chunks.
Qed.

Lemma unhex_bytes value d : unhex value = Some d -> bytes_ok d.
Proof.
  unfold unhex, str_len. case_match eqn:E; [done|]. bool_prop.
  intros H. assert (exists n, length (utf8 value) = (2 * n)%nat) as [n Hn].
  { exists (Z.to_nat (len (utf8 value) / 2)). unfold len in *. apply Nat2Z.inj.
    rewrite Nat2Z.inj_mul, Z2Nat.id by (apply Z.div_pos; lia).
    pose proof (Z.div_mod (Z.of_nat (length (utf8 value))) 2 ltac:(lia)). lia. }
  destruct (even_chunks _ n Hn) as [_ Hp]. rewrite mapM_unhex_pair in H by done.
  by apply hex_pairs_inv in H as [_ ?].
Qed.

Lemma digest_bytes_hex d : bytes_ok d -> length d = 32%nat -> digest_bytes (hex d) = Ok d.
Proof. intros H Hl. unfold digest_bytes. rewrite unhex_hex by done. cbn. unfold len. by rewrite Hl. Qed.

Lemma digest_bytes_Ok value d : digest_bytes value = Ok d -> bytes_ok d /\ length d = 32%nat.
Proof.
  unfold digest_bytes. intros (b & Hb%ok_or_Ok & H)%bind_Ok. apply unhex_bytes in Hb.
  destruct (Z.eqb_spec (len b) 32) as [E|]; [|done]. injection H as ->. unfold len in E. split; [done|lia].
Qed.

Lemma byte_text_hex t : Forall (fun c => is_scalar c = true) t -> bytes_ok (utf8 t) -> byte_text (hex (utf8 t)) = Ok t.
Proof. intros Hs Hb. unfold byte_text. rewrite unhex_hex by done. cbn. by rewrite utf8_from_utf8. Qed.

Lemma parse_u64_dec n : in_u64 n -> parse_u64 (dec n) = Some n.
Proof.
  intros Hn. unfold parse_u64, dec. rewrite (proj2 (Z.ltb_ge n 0)) by mlia.
  destruct (dec_nat_spec n) as (Hd & Hv & Hne & _ & _); [mlia|].
  assert (Hhead : match dec_nat n with 43 :: ((_ :: _) as ds) => ds | _ => dec_nat n end = dec_nat n).
  { destruct (dec_nat n) as [|d ds]; [done|]. apply Forall_cons in Hd as [Hd _]. apply digit_range in Hd.
    destruct (Z.eq_dec d 43) as [->|Hne']; [lia|]. destruct d as [|p|p]; try lia; try done.
    repeat (destruct p as [p|p|]; try done; try lia). }
  rewrite Hhead. rewrite bool_decide_eq_false_2 by done.
  assert (forallb is_ascii_digit (dec_nat n) = true) as ->.
  { apply forallb_forall. intros d Hin%list_elem_of_In. rewrite Forall_forall in Hd. auto. }
  cbn [negb orb]. rewrite Hv. by apply check_u64_Some.
Qed.

Lemma parse_u64_range t n : parse_u64 t = Some n -> in_u64 n.
Proof. unfold parse_u64. case_match; [done|]. by intros [-> ?]%check_u64_Some. Qed.

Lemma kind_parse_str k : kind_parse (kind_as_str k) = Some k.
Proof. by destruct k. Qed.

Lemma authority_parse_str a : authority_parse (authority_as_str a) = Some a.
Proof. by destruct a. Qed.

(** * Splitting *)

Lemma split_once_first c p a b : c ∉ a -> split_once (c :: p) (a ++ (c :: p) ++ b) = Some (a, b).
Proof.
  induction a as [|x a IH]; intros Hn.
  - cbn [app split_once]. assert (strip_prefix (c :: p) ((c :: p) ++ b) = Some b) as E by (by apply strip_prefix_Some).
    cbn [app] in E. destruct (c :: p ++ b) eqn:Ec; [done|]. cbn [split_once]. rewrite E. done.
  - apply not_elem_of_cons in Hn as [Hx Hn]. cbn [app split_once].
    destruct (strip_prefix (c :: p) (x :: a ++ c :: p ++ b)) as [r|] eqn:E.
    { apply strip_prefix_Some in E. cbn in E. injection E as -> _. done. }
    cbn [app] in IH. rewrite IH by done. done.
Qed.

Lemma strip_suffix_app t p : strip_suffix p (t ++ p) = Some t.
Proof.
  unfold strip_suffix. rewrite rev_app_distr.
  rewrite (proj2 (strip_prefix_Some _ _ (rev t))) by done. cbn. by rewrite rev_involutive.
Qed.

Lemma chomp_id line : last line <> Some 13 -> chomp line = line.
Proof.
  unfold chomp, strip_suffix. intros Hl. destruct (strip_prefix _ _) as [r|] eqn:E; [|done].
  apply strip_prefix_Some in E. exfalso. apply Hl. cbn in E.
  rewrite <- (rev_involutive line), E. cbn. by rewrite last_snoc.
Qed.

Lemma lines_from_line acc line t :
  10 ∉ line -> lines_from acc (line ++ 10 :: t) = chomp (acc ++ line) :: lines_from [] t.
Proof.
  revert acc. induction line as [|c line IH]; intros acc Hn; cbn [app lines_from].
  - by rewrite app_nil_r.
  - apply not_elem_of_cons in Hn as [Hc Hn]. rewrite (proj2 (Z.eqb_neq c 10)) by done.
    rewrite IH by done. by rewrite <- app_assoc.
Qed.

Lemma lines_joined ls :
  Forall (fun l => (10 ∉ l) /\ last l <> Some 13) ls ->
  lines (mjoin ((fun l => l ++ [10]) <$> ls)) = ls.
Proof.
  unfold lines. induction 1 as [|l ls [Hn Hl] _ IH]; [done|]. rewrite fmap_cons.
  change (mjoin (?x :: ?l)) with (x ++ mjoin l). rewrite <- app_assoc. cbn [app].
  rewrite lines_from_line by done. cbn [app]. by rewrite IH, chomp_id.
Qed.

(** * Characters of a line *)

Definition printable (c : Z) : Prop := 32 <= c <= 126.

Lemma hex_chars d : bytes_ok d -> Forall (fun c => 48 <= c <= 102) (hex d).
Proof.
  assert (Hall : forallb (fun b =>
    forallb (fun c => (48 <=? c) && (c <=? 102)) (hex [b])) (seqZ 0 256) = true) by (vm_compute; reflexivity).
  rewrite forallb_forall in Hall. induction 1 as [|b d Hb _ IH]; [constructor|].
  change (hex (b :: d)) with (hex [b] ++ hex d). apply Forall_app. split; [|done].
  assert (Hin : b ∈ seqZ 0 256) by (apply elem_of_seqZ; unfold is_byte in Hb; bool_prop; lia).
  specialize (Hall b (proj1 (list_elem_of_In _ _) Hin)). apply Forall_forallb in Hall.
  eapply Forall_impl; [exact Hall|]. cbn. intros. bool_prop. lia.
Qed.

Lemma Forall_not_in (P : Z -> Prop) c l : Forall P l -> ~ P c -> c ∉ l.
Proof. rewrite Forall_forall. intros H Hc Hin. by apply Hc, H. Qed.

Lemma printable_by_bool l : forallb (fun c => (32 <=? c) && (c <=? 126)) l = true -> Forall printable l.
Proof.
  intros H%Forall_forallb. eapply Forall_impl; [exact H|]. unfold printable. cbn. intros. bool_prop. lia.
Qed.

Lemma kind_chars k : 34 ∉ kind_as_str k.
Proof. apply contains_false. by destruct k. Qed.

Lemma authority_chars a : 34 ∉ authority_as_str a.
Proof. apply contains_false. by destruct a. Qed.

(** A separator's first character is in none of the fields before it. *)
Ltac no_quote :=
  first [by apply kind_chars|by apply authority_chars
    |eapply Forall_not_in; [by apply hex_chars; eauto using utf8_bytes_ok|cbn; lia]
    |eapply Forall_not_in; [by apply dec_chars; mlia|cbn; lia]].

(** * Chains *)

(** A value the types of the source can hold. *)
Record event_typed (e : Event) : Prop := mkTyped {
  ty_run_id : Forall (fun c => is_scalar c = true) (ev_run_id e);
  ty_sequence : in_u64 (ev_sequence e);
  ty_at : in_u64 (ev_at_millis e);
  ty_payload : bytes_ok (ev_payload e);
  ty_digest : bytes_ok (ev_digest e) /\ length (ev_digest e) = 32%nat
}.

Section Chains.
Context `{HashFunction} (run_id : list Z).

(** What an event must be to come after [events]. *)
Record follows (events : list Event) (e : Event) : Prop := mkFollows {
  fo_typed : event_typed e;
  fo_run : ev_run_id e = run_id;
  fo_sequence : ev_sequence e = len events + 1;
  fo_payload : len (ev_payload e) <= MAX_EVENT_PAYLOAD_BYTES;
  fo_open : ends_terminal events = false;
  fo_digest : ev_digest e = chained_digest e (last_digest events)
}.

Inductive chain : list Event -> Prop :=
| chain_nil : chain []
| chain_snoc events e : chain events -> follows events e -> chain (events ++ [e]).

(** The file of a chain. *)
Fixpoint lines_of (previous : list Z) (events : list Event) : list (list Z) :=
  match events with
  | [] => []
  | e :: events => line_text e previous :: lines_of (ev_digest e) events
  end.

Definition file_of (events : list Event) : list Z :=
  mjoin ((fun l => utf8 (l ++ [10])) <$> lines_of GENESIS_DIGEST events).

Lemma lines_of_snoc previous events e :
  lines_of previous (events ++ [e]) =
  lines_of previous events ++ [line_text e (match last events with Some x => ev_digest x | None => previous end)].
Proof.
  revert previous. induction events as [|x events IH]; intros previous; [done|].
  cbn [app lines_of]. rewrite IH, last_cons. by destruct (last events).
Qed.

Lemma file_of_snoc events e : file_of (events ++ [e]) = file_of events ++ encode_event e (last_digest events).
Proof.
  unfold file_of. rewrite lines_of_snoc, fmap_app, join_app. cbn. by rewrite app_nil_r.
Qed.

Lemma chain_digest_ok events : chain events -> bytes_ok (last_digest events) /\ length (last_digest events) = 32%nat.
Proof.
  unfold last_digest. induction 1 as [|events e _ _ [[] _ _ _ _ _]].
  - split; [|done]. by apply (Forall_replicate (fun b => is_byte b = true) 32 0).
  - by rewrite last_snoc.
Qed.

Lemma line_printable e previous : event_typed e -> bytes_ok previous -> Forall printable (line_text e previous).
Proof.
  intros [Hr Hs Ha Hp [Hd _]] Hprev. unfold line_text.
  assert (Hhex : forall d, bytes_ok d -> Forall printable (hex d)).
  { intros d ?. eapply Forall_impl; [by apply hex_chars|]. unfold printable. cbn. lia. }
  assert (Hdec : forall n, in_u64 n -> Forall printable (dec n)).
  { intros n ?. eapply Forall_impl; [apply dec_chars; mlia|]. unfold printable. cbn. lia. }
  repeat (apply Forall_app; split);
    first [by apply printable_by_bool|by apply Hhex|by apply Hdec|
      apply Hhex, utf8_bytes_ok; done|destruct (ev_kind e); by apply printable_by_bool
      |destruct (ev_authority e); by apply printable_by_bool].
Qed.

(** One line of a chain is read back. *)
Lemma parse_line_of events e :
  follows events e -> bytes_ok (last_digest events) -> length (last_digest events) = 32%nat ->
  parse_line run_id events (line_text e (last_digest events)) = Ok e.
Proof.
  intros [[Hr Hs Ha Hp [Hd Hdl]] Hrun Hseq Hlen Hopen Hdig] Hb Hl. unfold parse_line, line_text.
  rewrite (proj2 (strip_prefix_Some _ _ _) eq_refl). cbn [ok_or mbind result_bind].
  assert (Hq : forall s a b, 34 ∉ a -> forall rest, quoted s = 34 :: rest ->
    split_once (quoted s) (a ++ quoted s ++ b) = Some (a, b)).
  { intros s a b Ha' rest ->. by apply split_once_first. }
  assert (Hc : forall s a b, 44 ∉ a -> forall rest, quoted s = 44 :: rest ->
    split_once (quoted s) (a ++ quoted s ++ b) = Some (a, b)).
  { intros s a b Ha' rest ->. by apply split_once_first. }
  erewrite Hq; [|no_quote|by vm_compute]. cbn [ok_or mbind result_bind].
  rewrite byte_text_hex by eauto using utf8_bytes_ok. cbn [ok_or mbind result_bind].
  rewrite bool_decide_eq_true_2 by done. cbn [negb].
  erewrite Hc; [|no_quote|by vm_compute]. cbn [ok_or mbind result_bind].
  rewrite parse_u64_dec by done. cbn [ok_or mbind result_bind].
  rewrite Hseq, Z.eqb_refl, <- Hseq. cbn [negb].
  erewrite Hc; [|no_quote|by vm_compute]. cbn [ok_or mbind result_bind].
  rewrite parse_u64_dec by done. cbn [ok_or mbind result_bind].
  erewrite Hq; [|no_quote|by vm_compute]. cbn [ok_or mbind result_bind].
  rewrite kind_parse_str. cbn [ok_or mbind result_bind].
  erewrite Hq; [|no_quote|by vm_compute]. cbn [ok_or mbind result_bind].
  rewrite authority_parse_str. cbn [ok_or mbind result_bind].
  erewrite Hq; [|no_quote|by vm_compute]. cbn [ok_or mbind result_bind].
  rewrite unhex_hex by done. cbn [ok_or mbind result_bind].
  rewrite (proj2 (Z.ltb_ge _ _) Hlen), Hopen.
  erewrite Hq; [|no_quote|by vm_compute]. cbn [ok_or mbind result_bind].
  rewrite digest_bytes_hex by done. cbn [ok_or mbind result_bind].
  rewrite strip_suffix_app. cbn [ok_or mbind result_bind].
  rewrite digest_bytes_hex by done. cbn [ok_or mbind result_bind].
  assert (E : mkEvent (ev_run_id e) (ev_sequence e) (ev_at_millis e) (ev_kind e) (ev_authority e)
    (ev_payload e) (ev_digest e) = e) by (by destruct e). rewrite E.
  rewrite !bool_decide_eq_true_2 by done. done.
Qed.
End Chains.

(** * The parser *)

Lemma chain_inv_bytes `{HashFunction} run_id events :
  chain run_id events -> bytes_ok (last_digest events) /\ length (last_digest events) = 32%nat.
Proof. apply chain_digest_ok. Qed.

Lemma parse_line_sound `{HashFunction} run_id events line e :
  parse_line run_id events line = Ok e -> follows run_id events e.
Proof.
  unfold parse_line. intros H1.
  apply bind_Ok in H1 as (l0 & _ & H1). apply bind_Ok in H1 as ([rh l1] & _ & H1).
  apply bind_Ok in H1 as (r & Hr & H1). cbn beta iota in H1. case_bool_decide as Er; [|done]. cbn [negb] in H1.
  apply bind_Ok in H1 as ([sq l2] & _ & H1). apply bind_Ok in H1 as (s & Hs%ok_or_Ok & H1).
  destruct (Z.eqb_spec s (len events + 1)) as [Es|]; [|done]. cbn [negb] in H1.
  apply bind_Ok in H1 as ([at_ l3] & _ & H1). apply bind_Ok in H1 as (a & Ha%ok_or_Ok & H1).
  apply bind_Ok in H1 as ([kd l4] & _ & H1). apply bind_Ok in H1 as (k & _ & H1).
  apply bind_Ok in H1 as ([au l5] & _ & H1). apply bind_Ok in H1 as (u & _ & H1).
  apply bind_Ok in H1 as ([ph l6] & _ & H1). apply bind_Ok in H1 as (p & Hp%ok_or_Ok & H1).
  destruct (Z.ltb_spec MAX_EVENT_PAYLOAD_BYTES (len p)) as [|Hl]; [done|].
  destruct (ends_terminal events) eqn:Ht; [done|].
  apply bind_Ok in H1 as ([pv l7] & _ & H1). apply bind_Ok in H1 as (op & _ & H1).
  apply bind_Ok in H1 as (dh & _ & H1). apply bind_Ok in H1 as (od & Hd & H1). cbv zeta in H1.
  repeat case_bool_decide; cbn [negb orb] in H1; try done. injection H1 as <-.
  unfold byte_text in Hr. apply bind_Ok in Hr as (b & _ & Hr%ok_or_Ok%from_utf8_Some).
  apply digest_bytes_Ok in Hd. apply unhex_bytes in Hp.
  constructor; cbn; [|done..]. constructor; cbn; [tauto|by eapply parse_u64_range..|done|done].
Qed.

Lemma parse_lines_sound `{HashFunction} run_id events ls events' :
  chain run_id events -> parse_lines run_id events ls = Ok events' -> chain run_id events'.
Proof.
  revert events. induction ls as [|l ls IH]; intros events Hc; cbn [parse_lines]; [by intros [= <-]|].
  intros (e & He & H1)%bind_Ok. eapply IH; [|exact H1]. constructor; [done|]. by eapply parse_line_sound.
Qed.

Lemma parse_lines_app `{HashFunction} run_id events ls ls' :
  parse_lines run_id events (ls ++ ls') =
  (events' ← parse_lines run_id events ls; parse_lines run_id events' ls').
Proof.
  revert events. induction ls as [|l ls IH]; intros events; [done|]. cbn [app parse_lines].
  destruct (parse_line run_id events l); [|done]. cbn. apply IH.
Qed.

Lemma parse_events_sound `{HashFunction} run_id raw events :
  parse_events raw run_id = Ok events -> chain run_id events.
Proof.
  unfold parse_events. intros (t & _ & H1)%bind_Ok. by eapply parse_lines_sound; [constructor|].
Qed.

Lemma lines_from_app acc t u :
  lines_from acc (t ++ 10 :: u) = lines_from acc (t ++ [10]) ++ lines_from [] u.
Proof.
  revert acc. induction t as [|c t IH]; intros acc; cbn [app lines_from]; [done|].
  destruct (c =? 10); cbn [app]; [by rewrite IH|apply IH].
Qed.

(** Text that ends with a line feed, or is empty. *)
Definition complete (t : list Z) : Prop := t = [] \/ last t = Some 10.

Lemma last_Some_snoc {A} (l : list A) x : last l = Some x -> exists k, l = k ++ [x].
Proof. destruct l as [|y k _] using rev_ind; [done|]. rewrite last_snoc. intros [= ->]. by eexists. Qed.

Lemma lines_complete_app t u : complete t -> lines (t ++ u) = lines t ++ lines u.
Proof.
  unfold lines. intros [->|[k ->]%last_Some_snoc]; [done|].
  rewrite <- app_assoc. cbn [app]. apply lines_from_app.
Qed.

Lemma encode_char_last c : is_scalar c = true -> last (encode_char c) = Some 10 -> c = 10.
Proof.
  intros Hc. unfold is_scalar in Hc. bool_prop. unfold encode_char.
  pose proof (Z.mod_pos_bound c 64 ltac:(lia)). repeat case_match; cbn; intros E; simplify_eq; lia.
Qed.

Lemma complete_text t : Forall (fun c => is_scalar c = true) t -> complete (utf8 t) -> complete t.
Proof.
  intros Hs. destruct t as [|c t _] using rev_ind; [by left|]. apply Forall_app in Hs as [_ Hc].
  rewrite Forall_singleton in Hc. rewrite utf8_app, utf8_cons, app_nil_r.
  intros [Hn|Hl].
  - apply app_eq_nil in Hn as [_ Hn]. by apply encode_char_nonnil in Hn.
  - right. rewrite last_snoc. f_equal. apply encode_char_last; [done|].
    pose proof (encode_char_nonnil c) as Hne. revert Hl Hne.
    destruct (encode_char c) as [|b k _] using rev_ind; [done|].
    by rewrite app_assoc, !last_snoc.
Qed.

Lemma printable_scalar t : Forall printable t -> Forall (fun c => is_scalar c = true) t /\ utf8 t = t.
Proof.
  intros H. assert (Ha : Forall (fun c => in_range 0 0x7F c = true) t).
  { eapply Forall_impl; [exact H|]. unfold printable, in_range. cbn. intros. bool_prop. lia. }
  split; [by apply ascii_scalar|by apply utf8_ascii].
Qed.

Lemma line_of_printable l : Forall printable l -> lines (l ++ [10]) = [l].
Proof.
  intros H. unfold lines. rewrite lines_from_line by (eapply Forall_not_in; [exact H|unfold printable; lia]).
  cbn [app lines_from]. rewrite chomp_id; [by case_bool_decide|].
  intros [k ->]%last_Some_snoc. apply Forall_app in H as [_ H]. rewrite Forall_singleton in H. unfold printable in H. lia.
Qed.

(** A printable line after a complete file is parsed after what the file holds. *)
Lemma parse_events_line `{HashFunction} run_id raw events l :
  complete raw -> parse_events raw run_id = Ok events -> Forall printable l ->
  parse_events (raw ++ utf8 (l ++ [10])) run_id =
  (e ← parse_line run_id events l; Ok (events ++ [e])).
Proof.
  intros Hc Hp Hl. unfold parse_events in *. apply bind_Ok in Hp as (t & Ht%ok_or_Ok%from_utf8_Some & Hp).
  destruct Ht as [Hs <-]. apply complete_text in Hc; [|done].
  rewrite <- utf8_app, utf8_from_utf8.
  2: { apply Forall_app. split; [done|]. apply Forall_app. split; [by apply printable_scalar|by repeat constructor]. }
  cbn [ok_or mbind result_bind]. rewrite lines_complete_app, line_of_printable by done.
  rewrite parse_lines_app, Hp. cbn. destruct (parse_line run_id events l); done.
Qed.

(** * Complete bytes *)

Lemma complete_bytes_snoc x junk : 10 ∉ junk -> complete_bytes (x ++ 10 :: junk) = len x + 1.
Proof.
  intros Hn. unfold complete_bytes. rewrite rev_app_distr. cbn [rev]. rewrite <- app_assoc. cbn [app].
  assert (list_find (fun b => b = 10) (rev junk ++ 10 :: rev x) = Some (length (rev junk), 10)) as ->.
  { apply list_find_app_Some. right. split; [lia|]. rewrite Nat.sub_diag. split; [|done].
    apply list_find_None, Forall_forall. intros b Hb%list_elem_of_In%in_rev%list_elem_of_In. congruence. }
  autorewrite with len. unfold len. rewrite length_rev. lia.
Qed.

Lemma complete_bytes_none junk : 10 ∉ junk -> complete_bytes junk = 0.
Proof.
  intros Hn. unfold complete_bytes. assert (list_find (fun b => b = 10) (rev junk) = None) as ->; [|done].
  apply list_find_None, Forall_forall. intros b Hb%list_elem_of_In%in_rev%list_elem_of_In. congruence.
Qed.

(** What opening keeps of a file: its complete lines. *)
Lemma complete_part x junk :
  complete x -> 10 ∉ junk -> complete_bytes (x ++ junk) = len x /\ take (Z.to_nat (len x)) (x ++ junk) = x.
Proof.
  intros Hc Hn. split.
  - destruct Hc as [->|[k ->]%last_Some_snoc]; [by apply complete_bytes_none|].
    rewrite <- app_assoc. cbn [app]. rewrite complete_bytes_snoc by done. autorewrite with len. lia.
  - unfold len. rewrite Nat2Z.id, take_app_length. done.
Qed.

Lemma complete_split raw : exists x junk, raw = x ++ junk /\ complete x /\ 10 ∉ junk.
Proof.
  induction raw as [|b raw (x & junk & -> & Hc & Hn)] using rev_ind.
  - exists [], []. split_and!; [done|by left|set_solver].
  - destruct (decide (b = 10)) as [->|Hb].
    + exists ((x ++ junk) ++ [10]), []. split_and!; [by rewrite app_nil_r|right; by rewrite last_snoc|set_solver].
    + exists x, (junk ++ [b]). split_and!; [by rewrite app_assoc|done|set_solver].
Qed.

(** * What an open spool is *)

Record spool_ok `{HashFunction} (s : Spool) : Prop := mkSpoolOk {
  sk_run : Forall (fun c => is_scalar c = true) (sp_run_id s);
  sk_parse : parse_events (sp_file s) (sp_run_id s) = Ok (sp_events s);
  sk_complete : complete (sp_file s);
  sk_bytes : sp_bytes s = len (sp_file s);
  sk_bound : sp_bytes s <= sp_max_bytes s <= u64_max;
  sk_terminal : sp_terminal s = ends_terminal (sp_events s)
}.

Lemma write_status_same io s answer s' :
  write_status io s = (answer, s') ->
  sp_run_id s' = sp_run_id s /\ sp_file s' = sp_file s /\ sp_events s' = sp_events s /\
  sp_bytes s' = sp_bytes s /\ sp_max_bytes s' = sp_max_bytes s /\ sp_terminal s' = sp_terminal s.
Proof. unfold write_status. destruct io as [|[]]; by intros [= <- <-]. Qed.

Lemma spool_ok_status `{HashFunction} io s answer s' :
  write_status io s = (answer, s') -> spool_ok s -> spool_ok s'.
Proof.
  intros (E1 & E2 & E3 & E4 & E5 & E6)%write_status_same [H1 H2 H3 H4 H5 H6].
  constructor; rewrite ?E1, ?E2, ?E3, ?E4, ?E5, ?E6; done.
Qed.

Lemma open_body `{HashFunction} run_id raw max_bytes old io :
  open run_id raw max_bytes old io =
  if max_bytes <? len raw then Err LimitExceeded
  else
    let complete := take (Z.to_nat (complete_bytes raw)) raw in
    events ← parse_events complete run_id;
    let s := mkSpool run_id complete events (complete_bytes raw) max_bytes (ends_terminal events) old in
    let '(answer, s) := write_status io s in
    _ ← answer; Ok s.
Proof.
  unfold open, open_files. cbn [sf_events sf_status]. cbv zeta. case_match; [done|].
  destruct (parse_events _ run_id); [|done]. cbn [mbind result_bind].
  assert (forall b : bool, (if b then CutDone else CutDone) = CutDone) as -> by (by intros []).
  by destruct (write_status _ _).
Qed.

(** What opening leaves of a spool's files: the events file as it was, or without its
    torn last line; the status file as it was, or that of the events. *)
Definition opened_from `{HashFunction} (run_id : list Z) (files files' : SpoolFiles) : Prop :=
  let complete := take (Z.to_nat (complete_bytes (sf_events files))) (sf_events files) in
  (sf_events files' = sf_events files \/ sf_events files' = complete) /\
  (sf_status files' = sf_status files \/
   exists events, parse_events complete run_id = Ok events /\
     sf_status files' = Some (status_text run_id (state_from_events events) (last_sequence events))).

Lemma open_files_exact `{HashFunction} run_id files max_bytes cut io answer files' :
  open_files run_id files max_bytes cut io = (answer, files') ->
  opened_from run_id files files' /\ forall s, answer = Ok s -> files' = files_of s.
Proof.
  unfold open_files, opened_from. case_match; [intros [= <- <-]; split; [split; by left|done]|].
  destruct (parse_events _ run_id) as [events|e] eqn:E; [|intros [= <- <-]; split; [split; by left|done]].
  destruct (if complete_bytes _ <? _ then cut else CutDone) as [|done].
  - unfold write_status. destruct io as [|[]]; intros [= <- <-]; cbn [files_of sf_events sf_status sp_file sp_status];
      (split; [split; [by right|]|by intros s [= <-]]); [right|right|by left]; by exists events.
  - intros [= <- <-]. split; [|done]. cbn [sf_events sf_status]. split; [|by left].
    destruct done; [by right|by left].
Qed.

(** When cutting and writing the status do not fail, it is [open]. *)
Lemma open_files_Ok `{HashFunction} run_id files max_bytes cut io s :
  fst (open_files run_id files max_bytes cut io) = Ok s ->
  io = StatusReplaced /\ open run_id (sf_events files) max_bytes (sf_status files) StatusReplaced = Ok s.
Proof.
  rewrite open_body. unfold open_files. case_match; [done|].
  destruct (parse_events _ run_id) as [events|e]; [|done]. cbn [mbind result_bind].
  destruct (if complete_bytes _ <? _ then cut else CutDone) as [|tail]; [|done].
  unfold write_status. destruct io as [|[]]; cbn; [|done..]. intros [= <-]. done.
Qed.

(** Opening a file keeps its complete lines, and fails exactly when they do not
    parse or the file is too long. *)
Lemma open_complete `{HashFunction} run_id x junk max_bytes old events :
  Forall (fun c => is_scalar c = true) run_id -> complete x -> 10 ∉ junk ->
  parse_events x run_id = Ok events -> len (x ++ junk) <= max_bytes <= u64_max ->
  exists s, open run_id (x ++ junk) max_bytes old StatusReplaced = Ok s /\ spool_ok s /\
    sp_file s = x /\ sp_events s = events /\ sp_run_id s = run_id /\ sp_max_bytes s = max_bytes.
Proof.
  intros Hr Hc Hn Hp [Hl Hm]. rewrite open_body, (proj2 (Z.ltb_ge _ _) Hl). cbv zeta.
  destruct (complete_part x junk Hc Hn) as [-> ->]. rewrite Hp. cbn.
  eexists. split; [done|]. split_and!; [|done..]. rewrite len_app in Hl. pose proof (len_nonneg junk).
  by constructor; cbn; [..|lia|].
Qed.

Lemma open_corrupt `{HashFunction} run_id x junk max_bytes old io e :
  complete x -> 10 ∉ junk -> parse_events x run_id = Err e -> len (x ++ junk) <= max_bytes ->
  open run_id (x ++ junk) max_bytes old io = Err e.
Proof.
  intros Hc Hn Hp Hl. rewrite open_body, (proj2 (Z.ltb_ge _ _) Hl). cbv zeta.
  destruct (complete_part x junk Hc Hn) as [-> ->]. by rewrite Hp.
Qed.

Lemma open_Ok `{HashFunction} run_id raw max_bytes old s :
  Forall (fun c => is_scalar c = true) run_id -> max_bytes <= u64_max ->
  open run_id raw max_bytes old StatusReplaced = Ok s -> spool_ok s /\ sp_run_id s = run_id.
Proof.
  intros Hr Hm Ho. destruct (complete_split raw) as (x & junk & -> & Hc & Hn).
  assert (Hl : len (x ++ junk) <= max_bytes).
  { rewrite open_body in Ho. destruct (Z.ltb_spec max_bytes (len (x ++ junk))); [done|lia]. }
  destruct (parse_events x run_id) as [events|e] eqn:Hp.
  - destruct (open_complete run_id x junk max_bytes old events Hr Hc Hn Hp ltac:(lia)) as (s' & E & Hok & _ & _ & Hrun & _).
    rewrite E in Ho. by injection Ho as <-.
  - by rewrite (open_corrupt run_id x junk max_bytes old StatusReplaced e Hc Hn Hp Hl) in Ho.
Qed.

(** * Appending *)

(** The event an append makes. *)
Definition appended `{HashFunction} (kind : EventKind) (authority : Authority) (payload : list Z)
    (at_millis : Z) (s : Spool) : Event :=
  let e := mkEvent (sp_run_id s) (len (sp_events s) + 1) at_millis kind authority payload GENESIS_DIGEST in
  mkEvent (sp_run_id s) (len (sp_events s) + 1) at_millis kind authority payload
    (chained_digest e (last_digest (sp_events s))).

Definition appended_bytes `{HashFunction} kind authority payload at_millis s : list Z :=
  encode_event (appended kind authority payload at_millis s) (last_digest (sp_events s)).

(** When an append gets as far as the file. *)
Definition append_fits `{HashFunction} kind authority payload at_millis s : Prop :=
  sp_terminal s = false /\ len payload <= MAX_EVENT_PAYLOAD_BYTES /\ len (sp_events s) + 1 <= u64_max /\
  sp_bytes s + len (appended_bytes kind authority payload at_millis s) <= sp_max_bytes s.

(** An append is refused with nothing done, or reaches the file. *)
Lemma append_at_cases `{HashFunction} kind authority payload at_millis write io s :
  0 <= sp_bytes s -> sp_max_bytes s <= u64_max ->
  let r := append_at kind authority payload at_millis write io s in
  let e := appended kind authority payload at_millis s in
  (append_fits kind authority payload at_millis s /\
   match write with
   | WriteFailed n =>
       r = (Err SpoolIo, mkSpool (sp_run_id s) (sp_file s ++ take n (appended_bytes kind authority payload at_millis s))
                           (sp_events s) (sp_bytes s) (sp_max_bytes s) (sp_terminal s) (sp_status s))
   | Wrote =>
       exists answer,
         write_status io (mkSpool (sp_run_id s) (sp_file s ++ appended_bytes kind authority payload at_millis s)
           (sp_events s ++ [e]) (sp_bytes s + len (appended_bytes kind authority payload at_millis s))
           (sp_max_bytes s) (bool_decide (kind = Terminal)) (sp_status s)) = (answer, snd r) /\
         fst r = (_ ← answer; Ok e)
   end) \/
  (exists err, r = (Err err, s) /\ (err = AlreadyTerminal \/ err = LimitExceeded)).
Proof.
  intros Hb Hm. cbv zeta. unfold append_at, append_fits. destruct (sp_terminal s) eqn:Ht; [right; by eauto|].
  destruct (Z.ltb_spec MAX_EVENT_PAYLOAD_BYTES (len payload)); [right; by eauto|].
  pose proof (len_nonneg (sp_events s)).
  destruct (check_u64 (len (sp_events s) + 1)) as [sq|] eqn:Es.
  2: { right. by eauto. }
  apply check_u64_Some in Es as [-> Hsq]. cbv zeta.
  fold (appended kind authority payload at_millis s).
  change (encode_event _ (last_digest (sp_events s))) with (appended_bytes kind authority payload at_millis s).
  pose proof (len_nonneg (appended_bytes kind authority payload at_millis s)).
  destruct (check_u64 _) as [bytes|] eqn:Eb.
  2: { right. by eauto. }
  apply check_u64_Some in Eb as [-> _]. destruct (Z.ltb_spec (sp_max_bytes s)
    (sp_bytes s + len (appended_bytes kind authority payload at_millis s))); [right; by eauto|].
  left. split; [split_and!; [done|done|mlia|lia]|]. destruct write; [|done].
  destruct (write_status io _) as [answer s'] eqn:E. exists answer. done.
Qed.

Section Appending.
Context `{Sha256Laws} (kind : EventKind) (authority : Authority) (payload : list Z) (at_millis : Z).
Hypothesis payload_bytes : bytes_ok payload.
Hypothesis at_range : in_u64 at_millis.
Context (s : Spool) (Hs : spool_ok s).

Lemma appended_follows :
  append_fits kind authority payload at_millis s ->
  follows (sp_run_id s) (sp_events s) (appended kind authority payload at_millis s).
Proof.
  intros (Ht & Hl & Hn & _). destruct Hs as [Hr _ _ _ _ Hterm].
  constructor; cbn; [|done|done|done|congruence|done]. constructor; cbn; [done| |done|done|].
  - pose proof (len_nonneg (sp_events s)). mlia.
  - unfold chained_digest. split; apply sha256_bytes.
Qed.

Lemma appended_line_printable :
  append_fits kind authority payload at_millis s ->
  Forall printable (line_text (appended kind authority payload at_millis s) (last_digest (sp_events s))).
Proof.
  intros Hf. apply line_printable; [by apply appended_follows|].
  destruct Hs as [_ Hp _ _ _ _]. by apply parse_events_sound, chain_inv_bytes in Hp as [? _].
Qed.

(** The file with the new line parses to one event more. *)
Lemma appended_parses :
  append_fits kind authority payload at_millis s ->
  parse_events (sp_file s ++ appended_bytes kind authority payload at_millis s) (sp_run_id s) =
  Ok (sp_events s ++ [appended kind authority payload at_millis s]).
Proof.
  intros Hf. pose proof Hs as [Hr Hp Hc Hb Hm Hterm]. unfold appended_bytes, encode_event.
  rewrite (parse_events_line _ _ (sp_events s)); [|done|done|by apply appended_line_printable].
  apply parse_events_sound, chain_inv_bytes in Hp as [Hd Hdl].
  rewrite parse_line_of; [done|by apply appended_follows|done|done].
Qed.

Lemma appended_bytes_shape :
  append_fits kind authority payload at_millis s ->
  exists l, appended_bytes kind authority payload at_millis s = l ++ [10] /\ Forall printable l.
Proof.
  intros Hf. eexists. split; [|by apply appended_line_printable]. unfold appended_bytes, encode_event.
  rewrite utf8_app. by rewrite (proj2 (printable_scalar _ (appended_line_printable Hf))).
Qed.

(** A torn write leaves no line feed of its own unless it wrote the whole line. *)
Lemma torn_line l n :
  Forall printable l -> take n (l ++ [10]) = l ++ [10] \/ 10 ∉ take n (l ++ [10]).
Proof.
  intros Hl. destruct (decide (n <= length l)%nat) as [Hn|Hn].
  - right. rewrite take_app_le by done. eapply Forall_not_in; [by apply Forall_take|unfold printable; lia].
  - left. apply take_ge. rewrite length_app. cbn. lia.
Qed.
End Appending.

Lemma ends_terminal_snoc events e : ends_terminal (events ++ [e]) = bool_decide (ev_kind e = Terminal).
Proof. unfold ends_terminal. by rewrite last_snoc. Qed.

Lemma spool_bytes_nonneg `{HashFunction} s : spool_ok s -> 0 <= sp_bytes s.
Proof. intros [_ _ _ -> _ _]. apply len_nonneg. Qed.

(** C14: an append survives a crash.  Whatever the write did, all of it, an error
    after any number of bytes, or nothing, a process that opens the file again
    finds a well-formed spool with the events there were, or those and the new
    one; the new one when the append was acknowledged.  A spool that is not
    crashed keeps its invariant over every append whose write did not fail. *)
Theorem append_survives_crash `{Sha256Laws} kind authority payload at_millis write io s answer s' :
  spool_ok s -> bytes_ok payload -> in_u64 at_millis ->
  append_at kind authority payload at_millis write io s = (answer, s') ->
  (exists reopened,
     open (sp_run_id s) (sp_file s') (sp_max_bytes s) (sp_status s') StatusReplaced = Ok reopened /\
     spool_ok reopened /\
     (sp_events reopened = sp_events s \/ exists e, sp_events reopened = sp_events s ++ [e]) /\
     (forall e, answer = Ok e -> sp_events reopened = sp_events s ++ [e])) /\
  (write = Wrote -> spool_ok s' /\ forall e, answer = Ok e -> sp_events s' = sp_events s ++ [e]).
Proof.
  intros Hs Hp Ha E. pose proof Hs as [Hr Hparse Hc Hb [Hm1 Hm2] Hterm].
  pose proof (append_at_cases kind authority payload at_millis write io s (spool_bytes_nonneg s Hs) Hm2) as Hcases.
  cbv zeta in Hcases. rewrite E in Hcases. cbn [fst snd] in Hcases.
  destruct Hcases as [[Hfit Hw]|(err & [= -> ->] & _)].
  - pose proof (appended_parses kind authority payload at_millis Hp Ha s Hs Hfit) as Hparse'.
    destruct (appended_bytes_shape kind authority payload at_millis Hp Ha s Hs Hfit) as (l & El & Hl).
    pose proof Hfit as (_ & _ & _ & Hsz).
    set (e := appended kind authority payload at_millis s) in *.
    set (enc := appended_bytes kind authority payload at_millis s) in *.
    assert (Hce : complete (sp_file s ++ enc)) by (right; by rewrite El, app_assoc, last_snoc).
    destruct (open_complete (sp_run_id s) (sp_file s ++ enc) [] (sp_max_bytes s) (sp_status s') _ Hr Hce
      ltac:(set_solver) Hparse') as (s2 & Ho2 & Hok2 & _ & He2 & _ & _).
    { rewrite app_nil_r, len_app. lia. }
    rewrite app_nil_r in Ho2. destruct write as [|n].
    + destruct Hw as (ans & Hst & Hans). pose proof Hst as (_ & Hf & Hev & _)%write_status_same. cbn [sp_file sp_events] in Hf, Hev.
      rewrite Hf. split.
      * exists s2. split_and!; [done|done|right; by exists e|]. intros e' ->.
        destruct ans; cbn in Hans; [|done]. injection Hans as ->. done.
      * intros _. split.
        -- eapply spool_ok_status; [exact Hst|].
           constructor; cbn [sp_run_id sp_file sp_events sp_bytes sp_max_bytes sp_terminal]; [done|done|done| | |].
           ++ rewrite len_app. lia.
           ++ lia.
           ++ by rewrite ends_terminal_snoc.
        -- intros e' ->. destruct ans; cbn in Hans; [|done]. injection Hans as ->. done.
    + injection Hw as -> ->. cbn [sp_file sp_status]. split; [|done].
      destruct (torn_line l n Hl) as [Et|Hn]; rewrite <- El in *.
      * fold enc in Et. rewrite Et. exists s2. split_and!; [done|done|right; by exists e|done].
      * fold enc in Hn. assert (len (take n enc) <= len enc) by (unfold len; rewrite length_take; lia).
        destruct (open_complete (sp_run_id s) (sp_file s) (take n enc) (sp_max_bytes s) (sp_status s) _ Hr Hc Hn Hparse)
          as (s3 & Ho3 & Hok3 & _ & He3 & _ & _); [rewrite len_app; lia|].
        exists s3. split_and!; [done|done|by left|done].
  - split; [|done].
    destruct (open_complete (sp_run_id s) (sp_file s) [] (sp_max_bytes s) (sp_status s) _ Hr Hc
      ltac:(set_solver) Hparse) as (s3 & Ho3 & Hok3 & _ & He3 & _ & _); [rewrite app_nil_r; lia|].
    rewrite app_nil_r in Ho3. exists s3. split_and!; [done|done|by left|done].
Qed.

(** * Tampering *)

Lemma be_bytes_inj n x y :
  0 <= x < 2 ^ (8 * Z.of_nat n) -> 0 <= y < 2 ^ (8 * Z.of_nat n) -> be_bytes n x = be_bytes n y -> x = y.
Proof.
  intros Hx Hy E. apply Z.bits_inj'. intros m Hm.
  destruct (Z.lt_ge_cases m (8 * Z.of_nat n)) as [Hlt|Hge].
  - set (i := Z.of_nat n - 1 - m / 8).
    pose proof (Z.div_mod m 8 ltac:(lia)) as Hdm. pose proof (Z.mod_pos_bound m 8 ltac:(lia)) as Hmod.
    assert (0 <= m / 8) by (apply Z.div_pos; lia). assert (0 <= i < Z.of_nat n) by (unfold i; lia).
    assert (Ei : Z.land (Z.shiftr x (8 * (Z.of_nat n - 1 - i))) 255 = Z.land (Z.shiftr y (8 * (Z.of_nat n - 1 - i))) 255).
    { assert (Hi : seqZ 0 (Z.of_nat n) !! Z.to_nat i = Some i) by (apply lookup_seqZ; lia).
      apply (f_equal (fun l => l !! Z.to_nat i)) in E. unfold be_bytes in E.
      rewrite !list_lookup_fmap, Hi in E. cbn in E. congruence. }
    apply (f_equal (fun z => Z.testbit z (m mod 8))) in Ei. rewrite !Z.land_spec, !Z.shiftr_spec in Ei by lia.
    replace (m mod 8 + 8 * (Z.of_nat n - 1 - i)) with m in Ei by (unfold i; lia).
    change 255 with (Z.ones 8) in Ei. rewrite Z.ones_spec_low in Ei by lia. by rewrite !andb_true_r in Ei.
  - assert (Hz : forall z, 0 <= z < 2 ^ (8 * Z.of_nat n) -> Z.testbit z m = false).
    { intros z Hz. destruct (Z.eq_dec z 0) as [->|]; [apply Z.bits_0|].
      apply Z.bits_above_log2; [lia|]. apply Z.log2_lt_pow2; [lia|].
      eapply Z.lt_le_trans; [apply Hz|]. apply Z.pow_le_mono_r; lia. }
    by rewrite !Hz.
Qed.

Lemma be8_inj x y : in_u64 x -> in_u64 y -> be_bytes 8 x = be_bytes 8 y -> x = y.
Proof.
  intros Hx Hy. apply be_bytes_inj; change (2 ^ (8 * Z.of_nat 8)) with 18446744073709551616; mlia.
Qed.

(** Splitting equal concatenations at a known length. *)
Lemma app_split {A} (a a' b b' : list A) :
  length a = length a' -> a ++ b = a' ++ b' -> a = a' /\ b = b'.
Proof. intros Hl E. by apply app_inj_1 in E. Qed.

Lemma kind_zero_inj k k' (x y : list Z) :
  utf8 (kind_as_str k) ++ [0] ++ x = utf8 (kind_as_str k') ++ [0] ++ y -> k = k' /\ x = y.
Proof. destruct k, k'; intros E; vm_compute in E; by simplify_eq. Qed.

Lemma authority_zero_inj a a' (x y : list Z) :
  utf8 (authority_as_str a) ++ [0] ++ x = utf8 (authority_as_str a') ++ [0] ++ y -> a = a' /\ x = y.
Proof. destruct a, a'; intros E; vm_compute in E; by simplify_eq. Qed.

(** Equal hashed bytes are those of equal events after equal digests. *)
Lemma hashed_bytes_inj e e' p p' :
  event_typed e -> event_typed e' -> str_len (ev_run_id e) <= u64_max -> str_len (ev_run_id e') <= u64_max ->
  len (ev_payload e) <= u64_max -> len (ev_payload e') <= u64_max ->
  length p = 32%nat -> length p' = 32%nat -> ev_digest e = ev_digest e' ->
  hashed_bytes e p = hashed_bytes e' p' -> e = e' /\ p = p'.
Proof.
  intros [Hr Hs Ha _ _] [Hr' Hs' Ha' _ _] Hrl Hrl' Hpl Hpl' Hp Hp' Hd Em.
  destruct e as [run sq at_ k au pay dg], e' as [run' sq' at' k' au' pay' dg'].
  unfold hashed_bytes in Em.
  cbn [ev_run_id ev_sequence ev_at_millis ev_kind ev_authority ev_payload ev_digest] in *.
  apply app_inv_head in Em. apply app_inv_head in Em.
  apply app_split in Em as [-> Em]; [|congruence]. apply app_split in Em as [E1 Em]; [|done].
  pose proof (str_len_nonneg run). pose proof (str_len_nonneg run').
  apply be8_inj in E1; [|mlia..]. apply app_split in Em as [Er Em]; [|unfold str_len, len in E1; lia].
  apply app_split in Em as [E2 Em]; [|done]. apply be8_inj in E2 as ->; [|done..].
  apply app_split in Em as [E3 Em]; [|done]. apply be8_inj in E3 as ->; [|done..].
  apply kind_zero_inj in Em as [-> Em]. apply authority_zero_inj in Em as [-> Em].
  apply app_split in Em as [_ ->]; [|done].
  apply (f_equal from_utf8) in Er. rewrite !utf8_from_utf8 in Er by done. injection Er as ->.
  by subst.
Qed.

Lemma ascii_bytes_ok s : forallb is_byte s = true -> bytes_ok s.
Proof. rewrite forallb_forall. intros H. apply Forall_forall. intros c Hc. by apply H, list_elem_of_In. Qed.

Lemma hashed_bytes_ok e p : event_typed e -> bytes_ok p -> bytes_ok (hashed_bytes e p).
Proof.
  intros [Hr _ _ Hpay _] Hp. unfold hashed_bytes.
  repeat (apply Forall_app; split); try done; try apply be_bytes_ok.
  - by apply ascii_bytes_ok.
  - by apply ascii_bytes_ok.
  - by apply utf8_bytes_ok.
  - apply ascii_bytes_ok. by destruct (ev_kind e).
  - by apply ascii_bytes_ok.
  - apply ascii_bytes_ok. by destruct (ev_authority e).
  - by apply ascii_bytes_ok.
Qed.

(** C15: tamper evidence.  Two files that both parse, of whatever runs, and end in
    the same digest hold exactly the same events; or else, going back from
    their ends, the last two events before the files agree were digested from
    two different byte strings to one digest, so that the files themselves hold
    the collision.  Nothing recorded can be changed, dropped from the front or
    the middle, reordered or given another time without changing the last
    digest or finding one. *)
Theorem spool_tamper_evident `{HashFunction} run_id run_id' raw raw' events events' :
  str_len run_id <= u64_max -> str_len run_id' <= u64_max ->
  parse_events raw run_id = Ok events -> parse_events raw' run_id' = Ok events' ->
  events <> [] -> events' <> [] -> last_digest events = last_digest events' ->
  events = events' \/
  exists before e before' e' rest,
    events = before ++ e :: rest /\ events' = before' ++ e' :: rest /\
    bytes_ok (hashed_bytes e (last_digest before)) /\
    bytes_ok (hashed_bytes e' (last_digest before')) /\
    hashed_bytes e (last_digest before) <> hashed_bytes e' (last_digest before') /\
    sha256 (hashed_bytes e (last_digest before)) = sha256 (hashed_bytes e' (last_digest before')).
Proof.
  intros Hr Hr' Hc%parse_events_sound Hc'%parse_events_sound. revert events' Hc'.
  induction Hc as [|events e Hc IH Hf]; intros events' Hc' Hn Hn' E; [done|].
  destruct Hc' as [|events' e' Hc' Hf']; [done|]. clear Hn Hn'.
  unfold last_digest in E. rewrite !last_snoc in E.
  pose proof (chain_digest_ok _ _ Hc) as [Hb Hl]. pose proof (chain_digest_ok _ _ Hc') as [Hb' Hl'].
  pose proof Hf as [Ht Hru Hsq Hpy _ Hdg]. pose proof Hf' as [Ht' Hru' Hsq' Hpy' _ Hdg'].
  destruct (decide (hashed_bytes e (last_digest events) = hashed_bytes e' (last_digest events'))) as [Em|Hne].
  2: { right. exists events, e, events', e', [].
       split_and!; [done..|by apply hashed_bytes_ok|by apply hashed_bytes_ok|done|].
       unfold chained_digest in Hdg, Hdg'. congruence. }
  apply hashed_bytes_inj in Em as [-> Ep];
    try done; try congruence; try (unfold MAX_EVENT_PAYLOAD_BYTES in *; mlia).
  rewrite Hsq in Hsq'. assert (Hlen : len events = len events') by lia.
  destruct events as [|x events].
  { destruct events'; [by left|]. rewrite len_cons, len_nil in Hlen. pose proof (len_nonneg events'). lia. }
  destruct events' as [|x' events'].
  { rewrite len_cons, len_nil in Hlen. pose proof (len_nonneg events). lia. }
  destruct (IH _ Hc' ltac:(done) ltac:(done) Ep) as [->|(b & a & b' & a' & rest & -> & -> & Ha)];
    [by left|right].
  exists b, a, b', a', (rest ++ [e']). by rewrite <- !app_assoc.
Qed.

(** * Cursors *)

Lemma chain_sequences `{HashFunction} run_id events : chain run_id events -> ev_sequence <$> events = seqZ 1 (len events).
Proof.
  induction 1 as [|events e _ IH [_ _ Hs _ _ _]]; [done|].
  rewrite fmap_app, IH, len_app. pose proof (len_nonneg events).
  change (len [e]) with 1. rewrite seqZ_app by lia. cbn [fmap list_fmap]. rewrite Hs.
  replace (1 + len events) with (len events + 1) by lia. done.
Qed.

Lemma chain_last_sequence `{HashFunction} run_id events : chain run_id events -> last_sequence events = len events.
Proof.
  unfold last_sequence. intros Hc. destruct Hc as [|events e _ [_ _ Hs _ _ _]]; [done|].
  rewrite last_snoc, Hs, len_app. done.
Qed.

Lemma events_after_filter (events : list Event) k cursor :
  ev_sequence <$> events = seqZ k (len events) ->
  List.filter (fun e => cursor <? ev_sequence e) events = drop (Z.to_nat (cursor + 1 - k)) events.
Proof.
  revert k. induction events as [|e events IH]; intros k Hs; [by rewrite drop_nil|].
  rewrite fmap_cons, len_cons in Hs. pose proof (len_nonneg events).
  rewrite seqZ_cons in Hs by lia. injection Hs as He Hs. replace (Z.pred (1 + len events)) with (len events) in Hs by lia.
  cbn [List.filter]. rewrite (IH (Z.succ k)) by done. destruct (Z.ltb_spec cursor (ev_sequence e)).
  - replace (Z.to_nat (cursor + 1 - k)) with 0%nat by lia.
    replace (Z.to_nat (cursor + 1 - Z.succ k)) with 0%nat by lia. done.
  - replace (Z.to_nat (cursor + 1 - k)) with (S (Z.to_nat (cursor + 1 - Z.succ k))) by lia. done.
Qed.

(** What parses is dense in its sequences, of one run, bounded in its payloads,
    and has its terminal event last if it has one; a cursor of [n] reads
    exactly the events after the first [n], and one beyond the end is refused
    with the last sequence there is. *)
Lemma cursor_exact `{HashFunction} s cursor :
  spool_ok s -> 0 <= cursor ->
  events_after cursor s =
    (if len (sp_events s) <? cursor then Err (CursorAhead cursor (len (sp_events s)))
     else Ok (drop (Z.to_nat cursor) (sp_events s))).
Proof.
  intros [_ Hp _ _ _ _] Hc. apply parse_events_sound in Hp. unfold events_after.
  rewrite (chain_last_sequence _ _ Hp). case_match; [done|]. f_equal.
  rewrite (events_after_filter _ 1) by (by eapply chain_sequences). f_equal. lia.
Qed.

(** * A failed write *)

(** A line with another sequence than the next one is refused. *)
Lemma parse_line_wrong_sequence `{HashFunction} run_id events e previous :
  event_typed e -> ev_run_id e = run_id -> ev_sequence e <> len events + 1 ->
  parse_line run_id events (line_text e previous) = Err Corrupt.
Proof.
  intros [Hr Hs Ha Hp Hd] Hrun Hseq. unfold parse_line, line_text.
  rewrite (proj2 (strip_prefix_Some _ _ _) eq_refl). cbn [ok_or mbind result_bind].
  change (quoted "','seq':") with (34 :: tail (quoted "','seq':")).
  rewrite split_once_first by no_quote. cbn [ok_or mbind result_bind].
  rewrite byte_text_hex by eauto using utf8_bytes_ok. cbn [ok_or mbind result_bind].
  rewrite bool_decide_eq_true_2 by done. cbn [negb].
  change (quoted ",'at':") with (44 :: tail (quoted ",'at':")).
  rewrite split_once_first by no_quote. cbn [ok_or mbind result_bind].
  rewrite parse_u64_dec by done. cbn [ok_or mbind result_bind].
  by rewrite (proj2 (Z.eqb_neq _ _)) by done.
Qed.

(** One byte of a line before a whole one. *)
Lemma parse_line_after_brace `{HashFunction} run_id events e previous :
  parse_line run_id events (123 :: line_text e previous) = Err Corrupt.
Proof.
  unfold parse_line. assert (strip_prefix (quoted "{'protocol':'automonique.runner.event','version':1,'run_id_hex':'")
    (123 :: line_text e previous) = None) as ->; [|done].
  unfold line_text. generalize (hex (utf8 (ev_run_id e)) ++ quoted "','seq':" ++ dec (ev_sequence e) ++
    quoted ",'at':" ++ dec (ev_at_millis e) ++ quoted ",'kind':'" ++ kind_as_str (ev_kind e) ++
    quoted "','authority':'" ++ authority_as_str (ev_authority e) ++ quoted "','payload_hex':'" ++
    hex (ev_payload e) ++ quoted "','previous_sha256':'" ++ hex previous ++ quoted "','sha256':'" ++
    hex (ev_digest e) ++ quoted "'}"). intros l. by vm_compute.
Qed.

(** A write that failed is not undone.  When it left its first byte in the
    file, or the whole line with only the sync failing, the spool stays open and
    the next append is acknowledged, but the file it acknowledged into is
    corrupt: nobody can open the spool or read any of its events again. *)
Theorem failed_write_poisons `{Sha256Laws} s n k a p t io s1 k' a' p' t' io' e s2 max_bytes old io'' :
  spool_ok s -> bytes_ok p -> in_u64 t -> bytes_ok p' -> in_u64 t' ->
  append_at k a p t (WriteFailed n) io s = (Err SpoolIo, s1) ->
  n = 1%nat \/ (length (appended_bytes k a p t s) <= n)%nat ->
  append_at k' a' p' t' Wrote io' s1 = (Ok e, s2) ->
  len (sp_file s2) <= max_bytes ->
  open (sp_run_id s) (sp_file s2) max_bytes old io'' = Err Corrupt /\
  read_events (sp_file s2) (sp_run_id s) = Err Corrupt.
Proof.
  intros Hs Hp Ht Hp' Ht' E1 Hn E2 Hmax. pose proof Hs as [Hr Hparse Hc Hb [Hm1 Hm2] Hterm].
  pose proof (append_at_cases k a p t (WriteFailed n) io s (spool_bytes_nonneg s Hs) Hm2) as H1. cbv zeta in H1.
  rewrite E1 in H1. destruct H1 as [[Hfit H1]|(err & [= <- ->] & [?|?])]; [|done|done]. injection H1 as ->.
  pose proof (append_at_cases k' a' p' t' Wrote io' (mkSpool (sp_run_id s) (sp_file s ++ take n (appended_bytes k a p t s))
    (sp_events s) (sp_bytes s) (sp_max_bytes s) (sp_terminal s) (sp_status s)) (spool_bytes_nonneg s Hs) Hm2) as H2.
  cbv zeta in H2. rewrite E2 in H2. destruct H2 as [[Hfit' H2]|(err & [=] & _)].
  destruct H2 as (ans & (_ & Hf & _)%write_status_same & _). cbn [sp_file snd] in Hf.
  change (appended_bytes k' a' p' t' (mkSpool (sp_run_id s) _ (sp_events s) _ _ _ _)) with
    (appended_bytes k' a' p' t' s) in Hf.
  change (append_fits k' a' p' t' s) in Hfit'. rewrite Hf in *.
  destruct (appended_bytes_shape k' a' p' t' Hp' Ht' s Hs Hfit') as (l' & El' & Hl').
  assert (Herr : parse_events ((sp_file s ++ take n (appended_bytes k a p t s)) ++ appended_bytes k' a' p' t' s)
    (sp_run_id s) = Err Corrupt).
  { pose proof (appended_line_printable k' a' p' t' Hp' Ht' s Hs Hfit') as Hline'.
    destruct Hn as [->|Hn].
    - destruct (appended_bytes_shape k a p t Hp Ht s Hs Hfit) as (l & El & Hl).
      assert (take 1 (appended_bytes k a p t s) = [123]) as ->.
      { unfold appended_bytes, encode_event, line_text. by vm_compute. }
      rewrite <- app_assoc. unfold appended_bytes at 1, encode_event. rewrite <- (utf8_app [123]).
      change ([123] ++ line_text ?x ?y ++ [10]) with ((123 :: line_text x y) ++ [10]).
      rewrite (parse_events_line _ _ (sp_events s)); [|done|done|by constructor].
      by rewrite parse_line_after_brace.
    - rewrite take_ge by done. unfold appended_bytes at 2, encode_event.
      rewrite (parse_events_line _ _ (sp_events s ++ [appended k a p t s])); [|..|done].
      + rewrite parse_line_wrong_sequence; [done|by apply (appended_follows k' a' p' t' Hp' Ht' s Hs Hfit')|done|].
        cbn. rewrite len_app. change (len [_]) with 1. lia.
      + destruct (appended_bytes_shape k a p t Hp Ht s Hs Hfit) as (l & El & Hl).
        right. by rewrite El, app_assoc, last_snoc.
      + by apply appended_parses. }
  assert (Hcomp : complete ((sp_file s ++ take n (appended_bytes k a p t s)) ++ appended_bytes k' a' p' t' s))
    by (right; by rewrite El', app_assoc, last_snoc).
  set (f := (sp_file s ++ _) ++ _) in *. split.
  - rewrite <- (app_nil_r f). apply open_corrupt; [done|set_solver|done|by rewrite app_nil_r].
  - unfold read_events. destruct (complete_part f [] Hcomp ltac:(set_solver)) as [E3 E4].
    rewrite app_nil_r in E3, E4. by rewrite E3, E4.
Qed.

(** * Witnesses

    Over a function that is no hash, but has the length of one. *)

Definition toy_hash : HashFunction := fun m => replicate 32 (len m mod 256).

Lemma toy_hash_laws : @Sha256Laws toy_hash.
Proof.
  intros m. split; [done|]. apply (Forall_replicate (fun b => is_byte b = true) 32).
  pose proof (Z.mod_pos_bound (len m) 256 ltac:(lia)). unfold is_byte. bool_prop. lia.
Qed.

Definition demo_spool : Spool := mkSpool (str "run-1") [] [] 0 100000 false None.

Lemma demo_spool_ok : @spool_ok toy_hash demo_spool.
Proof.
  constructor; cbn; [|done|by left|done|widths; lia|done].
  apply ascii_scalar. by repeat constructor.
Qed.

Definition demo_step (s : Spool) (write : WriteOutcome) : result SpoolError Event * Spool :=
  @append_at toy_hash Started Synthetic (str "hello") 7 write StatusReplaced s.

Definition demo_after : Spool := snd (demo_step demo_spool Wrote).

Lemma demo_payload : bytes_ok (str "hello").
Proof. by repeat constructor. Qed.

Lemma append_survives_crash_witness :
  exists reopened,
    @open toy_hash (str "run-1") (sp_file (snd (demo_step demo_spool (WriteFailed 20)))) 100000 None StatusReplaced
    = Ok reopened.
Proof.
  destruct (@append_survives_crash toy_hash toy_hash_laws Started Synthetic (str "hello") 7 (WriteFailed 20)
    StatusReplaced demo_spool (fst (demo_step demo_spool (WriteFailed 20))) (snd (demo_step demo_spool (WriteFailed 20)))
    demo_spool_ok demo_payload ltac:(widths; lia) (surjective_pairing _)) as ((r & Hr & _) & _).
  exists r. exact Hr.
Defined.

(** Two files of different events whose last events have one toy digest: the
    collision is in the files. *)
Definition demo_other : Spool :=
  snd (@append_at toy_hash Started Synthetic (str "jello") 7 Wrote StatusReplaced demo_spool).

Lemma spool_tamper_evident_witness :
  exists before e before' e' rest,
    sp_events demo_after = before ++ e :: rest /\ sp_events demo_other = before' ++ e' :: rest /\
    hashed_bytes e (last_digest before) <> hashed_bytes e' (last_digest before') /\
    @sha256 toy_hash (hashed_bytes e (last_digest before)) =
    @sha256 toy_hash (hashed_bytes e' (last_digest before')).
Proof.
  destruct (@spool_tamper_evident toy_hash (str "run-1") (str "run-1") (sp_file demo_after) (sp_file demo_other)
    (sp_events demo_after) (sp_events demo_other))
    as [E|(b & e & b' & e' & rest & E & E' & _ & _ & Hne & Eh)];
    [vm_compute; discriminate|vm_compute; discriminate|by vm_compute|by vm_compute|by vm_compute|by vm_compute|by vm_compute| |].
  - exfalso. vm_compute in E. discriminate E.
  - exists b, e, b', e', rest. by split_and!.
Defined.

Lemma failed_write_poisons_witness :
  @open toy_hash (str "run-1")
    (sp_file (snd (demo_step (snd (demo_step demo_spool (WriteFailed 1))) Wrote))) 100000 None StatusReplaced
  = Err Corrupt.
Proof.
  assert (H : exists e, fst (demo_step (snd (demo_step demo_spool (WriteFailed 1))) Wrote) = Ok e)
    by (eexists; by vm_compute).
  destruct H as [e He].
  apply (@failed_write_poisons toy_hash toy_hash_laws demo_spool 1 Started Synthetic (str "hello") 7 StatusReplaced
    (snd (demo_step demo_spool (WriteFailed 1))) Started Synthetic (str "hello") 7 StatusReplaced e
    (snd (demo_step (snd (demo_step demo_spool (WriteFailed 1))) Wrote)) 100000 None StatusReplaced);
    [exact demo_spool_ok|exact demo_payload|widths; lia|exact demo_payload|widths; lia|by vm_compute|by left| |
     vm_compute; discriminate].
  rewrite <- He. apply surjective_pairing.
Defined.
