(* ===== verification/Control.v ===== *)
(** The control endpoint of the runner: [automonique-runner/src/control.rs], with
    the provenance identifiers it writes, [automonique-protocol/src/provenance.rs].

    A server is the map of its bindings; its custody and the world of its sinks
    are one state [W] (see [CancelDispatch]).  What the socket does is an
    argument: the credentials, the chunks that are read, and whether a write
    succeeds. *)

From S2P Require Import Prelude Text Digest Spool CancelDispatch.

Definition CONTROL_GREETING : list Z := str "automonique.control/v2".
Definition MAX_REQUEST_LINE_BYTES : Z := 4 * 1024.
Definition MAX_RESPONSE_BYTES : Z := 2 * 1024 * 1024.
Definition MAX_SUBSCRIBE_PAGE_EVENTS : Z := 8.
Definition MAX_EVENT_LINE_BYTES : Z := 64 + 2 * 64 * 1024.
Definition MAX_END_LINE_BYTES : Z := 64.
Definition MAX_PROVENANCE_LINE_BYTES : Z := 3 * 256 + 32.
Definition DELIVERED_LINE : list Z := str "cancel_result delivered" ++ [10].
Definition ALREADY_DELIVERED_LINE : list Z := str "cancel_result already_delivered" ++ [10].

(** * Provenance *)

Definition MAX_PROVENANCE_ID_BYTES : Z := 256.

Inductive ProvenanceError := ProvEmpty | ProvTooLong | ProvInvalidCharacter.

Definition provenance_byte (b : Z) : bool :=
  is_ascii_alphanumeric b || (b =? 46) || (b =? 95) || (b =? 58) || (b =? 45).

Definition provenance_validate (value : list Z) : result ProvenanceError unit :=
  if bool_decide (value = []) then Err ProvEmpty
  else if MAX_PROVENANCE_ID_BYTES <? str_len value then Err ProvTooLong
  else if negb (forallb provenance_byte (utf8 value)) then Err ProvInvalidCharacter
  else Ok tt.

(** [CorrelationId::new], [CausationId::new] and [TraceId::new]. *)
Definition provenance_new (value : list Z) : result ProvenanceError (list Z) :=
  _ ← provenance_validate value; Ok value.

Definition trace_for_ingress (transport transport_key : list Z) : list Z :=
  to_hex (take 16 (digest (utf8 transport ++ [0] ++ utf8 transport_key))).

(** * Peers *)

Record PeerIdentity := mkPeer { peer_uid : Z; peer_gid : Z; peer_pid : Z }.

Inductive PeerRefusal := CredentialsUnavailable | ForeignUid | RootPeer | ImplausiblePid.

Definition admit_peer (peer : PeerIdentity) (admitted_uid : Z) : result PeerRefusal unit :=
  if peer_pid peer <=? 0 then Err ImplausiblePid
  else if (peer_uid peer =? 0) || (admitted_uid =? 0) then Err RootPeer
  else if negb (peer_uid peer =? admitted_uid) then Err ForeignUid
  else Ok tt.

(** * Spelling *)

Definition refusal_as_str (r : Refusal) : list Z :=
  match r with
  | FieldInvalid => str "field_invalid"
  | UnknownOperation => str "unknown_operation"
  | MalformedRequest => str "malformed_request"
  | RequestTooLarge => str "request_too_large"
  | TargetUnknown => str "target_unknown"
  | CursorAhead => str "cursor_ahead"
  | CancelConflict => str "cancel_conflict"
  | CancelUnavailable => str "cancel_unavailable"
  | RefusedLedgerFull => str "ledger_full"
  | Internal => str "internal"
  end.

Definition state_word (s : RunState) : list Z :=
  match s with
  | Ready => str "ready"
  | Running => str "running"
  | Completed => str "completed"
  | Failed => str "failed"
  | Cancelled => str "cancelled"
  | TimedOut => str "timed_out"
  end.

Definition kind_word (k : EventKind) : list Z :=
  match k with
  | Started => str "started"
  | AdapterEvent => str "adapter_event"
  | SimulationEvent => str "simulation_event"
  | CancelRequested => str "cancel_requested"
  | Terminal => str "terminal"
  end.

Definition authority_word (a : Authority) : list Z :=
  match a with Synthetic => str "synthetic" | Authoritative => str "authoritative" end.

Definition payload_field (payload : list Z) : list Z :=
  if bool_decide (payload = []) then [45]
  else mjoin ((fun b => [nth (Z.to_nat (Z.shiftr b 4)) (str "0123456789abcdef") 0;
                         nth (Z.to_nat (Z.land b 15)) (str "0123456789abcdef") 0]) <$> payload).

(** Canonical unsigned decimal.  The digits-only text is then parsed as a [u64]. *)
Definition parse_unsigned (value : list Z) : result Refusal Z :=
  if bool_decide (value = []) || (20 <? str_len value) then Err FieldInvalid
  else if (1 <? str_len value) && bool_decide (head value = Some 48) then Err FieldInvalid
  else if negb (forallb is_ascii_digit (utf8 value)) then Err FieldInvalid
  else ok_or (parse_u64 value) FieldInvalid.

Definition custody_refusal (failure : CustodyFailure) : Refusal :=
  match failure with Full => RefusedLedgerFull | Unavailable => Internal end.

Definition cancel_sink_refusal (error : CancelSinkError) : Refusal :=
  match error with
  | SinkErrUnavailable => CancelUnavailable
  | SinkErrConflict => CancelConflict
  | SinkErrLedgerFull => RefusedLedgerFull
  | SinkErrInternal => Internal
  end.

(** * The server *)

Record Binding (Sink : Type) := mkBinding { bd_spool : Spool; bd_cancel : Sink }.
Arguments mkBinding {Sink}.
Arguments bd_spool {Sink}.
Arguments bd_cancel {Sink}.

Inductive ControlError := InvalidIdentifier (which : string) | DuplicateAttempt | BindingLimit | UnknownBinding.

Inductive LineError := Transport | TooLarge | Malformed.

(** One read of the socket: what it gave, nothing at the end of the stream. *)
Inductive ReadResult := Chunk (bytes : list Z) | ReadFailed.

(** The place of the first line feed. *)
Definition newline_position (buffer : list Z) : option Z :=
  (fun p => Z.of_nat (fst p)) <$> list_find (fun b => b = 10) buffer.

Fixpoint read_request_loop (buffer : list Z) (reads : list ReadResult) : result LineError (list Z) :=
  match reads with
  | [] | ReadFailed :: _ | Chunk [] :: _ => Err Transport
  | Chunk bytes :: reads =>
      let buffer := buffer ++ bytes in
      match newline_position buffer with
      | Some position =>
          if MAX_REQUEST_LINE_BYTES <? position then Err TooLarge
          else if negb (position + 1 =? len buffer) then Err Malformed
          else ok_or (from_utf8 (take (Z.to_nat position) buffer)) Malformed
      | None =>
          if MAX_REQUEST_LINE_BYTES <? len buffer then Err TooLarge
          else read_request_loop buffer reads
      end
  end.

Definition read_request_line (reads : list ReadResult) : result LineError (list Z) :=
  read_request_loop [] reads.

Section Server.
Context {Sink W : Type} `{CancelCustody W, CancelSink Sink W}.
Abbreviation Bindings := (gmap (list Z) (Binding Sink)).

Definition control_register (attempt_id : list Z) (spool : Spool) (sink : Sink) (b : Bindings)
  : result ControlError unit * Bindings :=
  if negb (is_identifier attempt_id) then (Err (InvalidIdentifier "attempt id"), b)
  else if negb (is_identifier (su_run_id (status spool))) then (Err (InvalidIdentifier "run id"), b)
  else
    match b !! attempt_id with
    | Some _ => (Err DuplicateAttempt, b)
    | None =>
        if MAX_BINDINGS <=? Z.of_nat (size b) then (Err BindingLimit, b)
        else (Ok tt, <[attempt_id := mkBinding spool sink]> b)
    end.

Definition unregister (attempt_id : list Z) (b : Bindings) : result ControlError Spool * Bindings :=
  match b !! attempt_id with
  | Some binding => (Ok (bd_spool binding), delete attempt_id b)
  | None => (Err UnknownBinding, b)
  end.

Definition binding (attempt_id : list Z) (b : Bindings) : result Refusal (Binding Sink) :=
  if negb (is_identifier attempt_id) then Err FieldInvalid else ok_or (b !! attempt_id) TargetUnknown.

Definition inspect (attempt_id : list Z) (b : Bindings) : result Refusal (list Z) :=
  binding ← binding attempt_id b;
  let st := status (bd_spool binding) in
  Ok (str "status " ++ attempt_id ++ [32] ++ su_run_id st ++ [32] ++ state_word (su_state st) ++ [32]
        ++ dec (su_last_sequence st) ++ [10]).

Definition event_line (e : Event) : list Z :=
  str "event " ++ dec (ev_sequence e) ++ [32] ++ kind_word (ev_kind e) ++ [32]
    ++ authority_word (ev_authority e) ++ [32] ++ payload_field (ev_payload e) ++ [10].

(** The loop over the events: the body so far, the cursor, how many were emitted. *)
Fixpoint emit_events (events : list Event) (body : list Z) (next_cursor emitted : Z)
  : result Refusal (list Z * Z * Z) :=
  match events with
  | [] => Ok (body, next_cursor, emitted)
  | e :: events =>
      if emitted =? MAX_SUBSCRIBE_PAGE_EVENTS then Ok (body, next_cursor, emitted)
      else
        let line := event_line e in
        if MAX_RESPONSE_BYTES <? str_len body + str_len line + MAX_END_LINE_BYTES then
          if emitted =? 0 then Err Internal else Ok (body, next_cursor, emitted)
        else emit_events events (body ++ line) (ev_sequence e) (emitted + 1)
  end.

Definition provenance_line (attempt_id run_id : list Z) : result Refusal (list Z) :=
  correlation_id ← map_err (fun _ => Internal) (provenance_new (str "attempt:" ++ attempt_id));
  causation_id ← map_err (fun _ => Internal) (provenance_new (str "run:" ++ run_id));
  Ok (str "provenance " ++ trace_for_ingress (str "run") run_id ++ [32] ++ correlation_id ++ [32]
        ++ causation_id ++ [10]).

Definition end_line (next_cursor : Z) (more : bool) : list Z :=
  str "end " ++ dec next_cursor ++ [32] ++ (if more then str "true" else str "false") ++ [10].

Definition subscribe (attempt_id cursor : list Z) (b : Bindings) : result Refusal (list Z) :=
  binding ← binding attempt_id b;
  cursor ← parse_unsigned cursor;
  events ← map_err (fun error => match error with Spool.CursorAhead _ _ => CursorAhead | _ => Internal end)
             (events_after cursor (bd_spool binding));
  body ← provenance_line attempt_id (su_run_id (status (bd_spool binding)));
  '(body, next_cursor, emitted) ← emit_events events body cursor 0;
  Ok (body ++ end_line next_cursor (emitted <? len events)).

(** [elapsed]: the milliseconds since the server started. *)
Definition heartbeat (elapsed : Z) (b : Bindings) : result Refusal (list Z) :=
  uptime_millis ← ok_or (check_u64 elapsed) Internal;
  Ok (str "heartbeat " ++ dec uptime_millis ++ [32] ++ dec (Z.of_nat (size b)) ++ [10]).

(** [None]: the sink's panic unwinds. *)
Definition control_cancel (attempt_id request_ref observed_sequence : list Z) (b : Bindings) (w : W)
  : option (result Refusal (list Z)) * W :=
  if negb (is_identifier request_ref) then (Some (Err FieldInvalid), w)
  else
    match parse_unsigned observed_sequence with
    | Err refusal => (Some (Err refusal), w)
    | Ok observed_sequence =>
        match binding attempt_id b with
        | Err refusal => (Some (Err refusal), w)
        | Ok binding =>
            let claim := mkClaim attempt_id request_ref observed_sequence in
            let '(verdict, w) := classify claim w in
            match verdict with
            | Err failure => (Some (Err (custody_refusal failure)), w)
            | Ok Replay => (Some (Ok ALREADY_DELIVERED_LINE), w)
            | Ok VerdictConflict => (Some (Err CancelConflict), w)
            | Ok Fresh =>
                let '(delivery, w) := deliver (bd_cancel binding) attempt_id request_ref w in
                match delivery with
                | None => (None, w)
                | Some (Err error) =>
                    let '(answer, w) := custody_abandon claim w in
                    (Some (match answer with
                           | Err failure => Err (custody_refusal failure)
                           | Ok _ => Err (cancel_sink_refusal error)
                           end), w)
                | Some (Ok DeliveryDelivered) => (Some (Ok DELIVERED_LINE), w)
                | Some (Ok DeliveryAlreadyDelivered) => (Some (Ok ALREADY_DELIVERED_LINE), w)
                | Some (Ok Accepted) =>
                    let '(answer, w) := custody_record claim w in
                    (Some (match answer with
                           | Err failure => Err (custody_refusal failure)
                           | Ok (Fresh | Replay) => Ok DELIVERED_LINE
                           | Ok VerdictConflict => Err CancelConflict
                           end), w)
                end
            end
        end
    end.

Definition answer (elapsed : Z) (line : list Z) (b : Bindings) (w : W) : option (result Refusal (list Z)) * W :=
  match split_on 32 line with
  | [op; attempt_id] =>
      if bool_decide (op = str "inspect") then (Some (inspect attempt_id b), w)
      else (Some (Err UnknownOperation), w)
  | [op; attempt_id; field] =>
      if bool_decide (op = str "subscribe") then (Some (subscribe attempt_id field b), w)
      else if bool_decide (op = str "cancel") then control_cancel attempt_id field (str "0") b w
      else (Some (Err UnknownOperation), w)
  | [op] =>
      if bool_decide (op = str "heartbeat") then (Some (heartbeat elapsed b), w)
      else (Some (Err UnknownOperation), w)
  | [op; attempt_id; request_ref; observed_sequence] =>
      if bool_decide (op = str "cancel") then control_cancel attempt_id request_ref observed_sequence b w
      else (Some (Err UnknownOperation), w)
  | _ => (Some (Err UnknownOperation), w)
  end.

(** What became of one connection, and what was written to it. *)
Inductive Served := PeerRefused (r : PeerRefusal) | Answered | Refused (r : Refusal) | ClientLost.

Definition respond_refusal (refusal : Refusal) (write_ok : bool) : Served * list Z :=
  if write_ok then (Refused refusal, str "refused " ++ refusal_as_str refusal ++ [10]) else (ClientLost, []).

(** [write_ok]: whether the answer could be written; what a failed write left of
    it is not told. *)
Definition handle_connection (identity : result PeerRefusal PeerIdentity) (admitted_uid : Z)
    (configured greeted : bool) (reads : list ReadResult) (write_ok : bool) (elapsed : Z)
    (b : Bindings) (w : W) : option (Served * list Z) * W :=
  match (identity ← identity; admit_peer identity admitted_uid) with
  | Err refusal => (Some (PeerRefused refusal, []), w)
  | Ok _ =>
      if negb configured || negb greeted then (Some (ClientLost, []), w)
      else
        let greeting := CONTROL_GREETING ++ [10] in
        let told := fun r : Served * list Z => (fst r, greeting ++ snd r) in
        match read_request_line reads with
        | Err Transport => (Some (ClientLost, greeting), w)
        | Err TooLarge => (Some (told (respond_refusal RequestTooLarge write_ok)), w)
        | Err Malformed => (Some (told (respond_refusal MalformedRequest write_ok)), w)
        | Ok line =>
            let '(response, w) := answer elapsed line b w in
            (response ← response;
             Some (told (match response with
                         | Ok body => if write_ok then (Answered, body) else (ClientLost, [])
                         | Err refusal => respond_refusal refusal write_ok
                         end)), w)
        end
  end.
End Server.

(** * The length of what is written *)

Lemma text_len_app a b : str_len (a ++ b) = str_len a + str_len b.
Proof. unfold str_len. by rewrite utf8_app, len_app. Qed.

Lemma hex_length d : bytes_ok d -> str_len (hex d) = 2 * len d.
Proof.
  intros H. unfold str_len. rewrite hex_ascii by done. unfold len.
  assert (length (hex d) = (2 * length d)%nat) as -> by apply to_hex_length. lia.
Qed.

Lemma event_line_bound e :
  event_typed e -> len (ev_payload e) <= MAX_EVENT_PAYLOAD_BYTES -> str_len (event_line e) <= MAX_EVENT_LINE_BYTES.
Proof.
  intros [_ Hs _ Hp _] Hl. unfold event_line. rewrite !text_len_app.
  pose proof (dec_length _ Hs).
  assert (str_len (kind_word (ev_kind e)) <= 16) by (destruct (ev_kind e); vm_compute; discriminate).
  assert (str_len (authority_word (ev_authority e)) <= 13) by (destruct (ev_authority e); vm_compute; discriminate).
  assert (str_len (payload_field (ev_payload e)) <= 2 * 65536).
  { unfold payload_field. case_bool_decide; [vm_compute; discriminate|]. fold (hex (ev_payload e)).
    rewrite hex_length by done. unfold MAX_EVENT_PAYLOAD_BYTES in Hl. lia. }
  assert (str_len (str "event ") = 6) as -> by (by vm_compute).
  assert (str_len [32] = 1) as -> by (by vm_compute). assert (str_len [10] = 1) as -> by (by vm_compute).
  unfold MAX_EVENT_LINE_BYTES. lia.
Qed.

Lemma is_identifier_inv a :
  is_identifier a = true -> a <> [] /\ str_len a <= 64 /\ forallb identifier_byte (utf8 a) = true.
Proof.
  unfold is_identifier, MAX_IDENTIFIER_BYTES. rewrite !andb_true_iff, negb_true_iff, bool_decide_eq_false, Z.leb_le. tauto.
Qed.

Lemma provenance_id prefix a :
  is_identifier a = true -> str_len prefix <= 16 -> forallb provenance_byte (utf8 prefix) = true -> prefix <> [] ->
  provenance_new (prefix ++ a) = Ok (prefix ++ a).
Proof.
  intros (_ & Hl & Hb)%is_identifier_inv Hp Hpb Hne. unfold provenance_new, provenance_validate.
  rewrite bool_decide_eq_false_2 by (by destruct prefix). rewrite text_len_app.
  rewrite (proj2 (Z.ltb_ge _ _)) by (unfold MAX_PROVENANCE_ID_BYTES; lia).
  rewrite utf8_app, forallb_app, Hpb. cbn [andb].
  assert (forallb provenance_byte (utf8 a) = true) as ->; [|done].
  apply forallb_forall. intros b Hin. rewrite forallb_forall in Hb. specialize (Hb b Hin).
  unfold identifier_byte, provenance_byte in *. destruct (is_ascii_alphanumeric b), (b =? 45), (b =? 95), (b =? 46), (b =? 58); done.
Qed.

(** The first line of a page never fails for bound identifiers, and is short. *)
Lemma provenance_line_Ok attempt_id run_id :
  is_identifier attempt_id = true -> is_identifier run_id = true ->
  exists line, provenance_line attempt_id run_id = Ok line /\ str_len line <= MAX_PROVENANCE_LINE_BYTES.
Proof.
  intros Ha Hr. unfold provenance_line.
  rewrite (provenance_id (str "attempt:") attempt_id); [|done|vm_compute; discriminate|by vm_compute|by vm_compute].
  rewrite (provenance_id (str "run:") run_id); [|done|vm_compute; discriminate|by vm_compute|by vm_compute].
  cbn [map_err mbind result_bind]. eexists. split; [done|]. apply is_identifier_inv in Ha as (_ & Ha & _), Hr as (_ & Hr & _).
  assert (Ht : str_len (trace_for_ingress (str "run") run_id) <= 32).
  { unfold trace_for_ingress. assert (Hok : bytes_ok (take 16 (digest (utf8 (str "run") ++ [0] ++ utf8 run_id))))
      by (apply Forall_take, Digest.digest_bytes).
    change (to_hex ?x) with (hex x). rewrite hex_length by done. unfold len. rewrite length_take. lia. }
  rewrite !text_len_app. assert (str_len (str "provenance ") = 11) as -> by (by vm_compute).
  assert (str_len (str "attempt:") = 8) as -> by (by vm_compute).
  assert (str_len (str "run:") = 4) as -> by (by vm_compute).
  assert (str_len [32] = 1) as -> by (by vm_compute). assert (str_len [10] = 1) as -> by (by vm_compute).
  unfold MAX_PROVENANCE_LINE_BYTES. lia.
Qed.

(** * Pages *)

Definition page_of (events : list Event) (emitted : Z) : list Event :=
  take (Z.to_nat (MAX_SUBSCRIBE_PAGE_EVENTS - emitted)) events.

Lemma emit_events_page events body cursor emitted :
  Forall (fun e => event_typed e /\ len (ev_payload e) <= MAX_EVENT_PAYLOAD_BYTES) events ->
  ev_sequence <$> events = seqZ (cursor + 1) (len events) ->
  0 <= emitted <= MAX_SUBSCRIBE_PAGE_EVENTS ->
  str_len body <= MAX_PROVENANCE_LINE_BYTES + emitted * MAX_EVENT_LINE_BYTES ->
  emit_events events body cursor emitted =
  Ok (body ++ mjoin (event_line <$> page_of events emitted), cursor + len (page_of events emitted),
      emitted + len (page_of events emitted)).
Proof.
  unfold page_of. intros Hall. revert body cursor emitted.
  induction Hall as [|e events [Ht Hp] _ IH]; intros body cursor emitted Hs He Hb; cbn [emit_events].
  - rewrite take_nil, app_nil_r. cbn. by rewrite !Z.add_0_r.
  - destruct (Z.eqb_spec emitted MAX_SUBSCRIBE_PAGE_EVENTS) as [->|Hne].
    { rewrite Z.sub_diag. cbn. by rewrite app_nil_r, !Z.add_0_r. }
    pose proof (event_line_bound e Ht Hp) as Hl.
    unfold MAX_SUBSCRIBE_PAGE_EVENTS, MAX_PROVENANCE_LINE_BYTES, MAX_EVENT_LINE_BYTES, MAX_RESPONSE_BYTES, MAX_END_LINE_BYTES in *.
    rewrite (proj2 (Z.ltb_ge _ _)) by lia.
    rewrite fmap_cons, len_cons in Hs. pose proof (len_nonneg events).
    rewrite seqZ_cons in Hs by lia. injection Hs as Hsq Hs.
    replace (Z.pred (1 + len events)) with (len events) in Hs by lia.
    rewrite IH; [|rewrite Hsq; by replace (cursor + 1 + 1) with (Z.succ (cursor + 1)) by lia|lia|rewrite text_len_app; lia].
    replace (Z.to_nat (8 - emitted)) with (S (Z.to_nat (8 - (emitted + 1)))) by lia.
    cbn [take]. rewrite fmap_cons. change (mjoin (?x :: ?l)) with (x ++ mjoin l).
    rewrite <- app_assoc, len_cons, Hsq. by rewrite !Z.add_assoc.
Qed.

Lemma chain_typed `{HashFunction} run_id events :
  chain run_id events -> Forall (fun e => event_typed e /\ len (ev_payload e) <= MAX_EVENT_PAYLOAD_BYTES) events.
Proof.
  induction 1 as [|events e _ IH [Ht _ _ Hp _ _]]; [constructor|]. apply Forall_app. split; [done|].
  by apply Forall_singleton.
Qed.

(** One page of a subscription, on every branch.  For a bound attempt the
    answer is the provenance line, the next events after the cursor, eight at
    most, each whole, and the cursor to continue from with whether there is
    more; a cursor beyond the spool is refused as such.  The size checks never
    cut a page or fail one, so polling from the returned cursor reads every
    event once, in order. *)
Theorem subscribe_exact `{HashFunction} {Sink} attempt_id text cursor spool (sink : Sink) b :
  is_identifier attempt_id = true -> is_identifier (sp_run_id spool) = true ->
  b !! attempt_id = Some (mkBinding spool sink) -> spool_ok spool -> parse_unsigned text = Ok cursor ->
  exists line, provenance_line attempt_id (sp_run_id spool) = Ok line /\
  subscribe attempt_id text b =
    (if len (sp_events spool) <? cursor then Err CursorAhead
     else
       let page := take 8 (drop (Z.to_nat cursor) (sp_events spool)) in
       Ok (line ++ mjoin (event_line <$> page)
             ++ end_line (cursor + len page) (cursor + len page <? len (sp_events spool)))).
Proof.
  intros Ha Hr Hb Hok Hp. destruct (provenance_line_Ok attempt_id (sp_run_id spool) Ha Hr) as (line & Hl & Hlen).
  exists line. split; [done|]. unfold subscribe, binding. rewrite Ha, Hb. cbn [negb ok_or mbind result_bind bd_spool].
  rewrite Hp. cbn [mbind result_bind].
  assert (Hc : 0 <= cursor).
  { unfold parse_unsigned in Hp. repeat case_match; try done. apply ok_or_Ok, parse_u64_range in Hp. mlia. }
  rewrite cursor_exact by done. destruct (Z.ltb_spec (len (sp_events spool)) cursor) as [|Hle]; [done|].
  cbn [map_err mbind result_bind]. change (su_run_id (status spool)) with (sp_run_id spool). rewrite Hl.
  cbn [mbind result_bind]. pose proof Hok as [_ Hch _ _ _ _]. apply parse_events_sound in Hch.
  set (events := sp_events spool) in *. set (rest := drop (Z.to_nat cursor) events).
  assert (Hlr : len rest = len events - cursor) by (unfold rest, len in *; rewrite length_drop; lia).
  rewrite (emit_events_page rest line cursor 0); [..|unfold MAX_SUBSCRIBE_PAGE_EVENTS; lia|lia].
  - cbn [mbind result_bind]. change (page_of rest 0) with (take 8 rest). rewrite <- app_assoc.
    assert ((0 + len (take 8 rest) <? len rest) = (cursor + len (take 8 rest) <? len events)) as ->; [|done].
    rewrite Hlr. apply eq_true_iff_eq. rewrite !Z.ltb_lt. lia.
  - apply Forall_drop. by eapply chain_typed.
  - pose proof (chain_sequences _ _ Hch) as Hs. unfold rest. rewrite fmap_drop, Hs.
    fold events in Hs. rewrite <- (Z2Nat.id cursor) at 2 by done. fold rest. rewrite Hlr.
    apply list_eq. intros i. rewrite lookup_drop.
    destruct (decide (Z.of_nat i < len events - cursor)).
    + rewrite !lookup_seqZ_lt by lia. f_equal. lia.
    + rewrite !lookup_seqZ_ge by lia. done.
Qed.

(** * Request lines *)

Lemma newline_position_Some b p :
  newline_position b = Some p <-> exists x y, b = x ++ 10 :: y /\ (10 ∉ x) /\ p = len x.
Proof.
  unfold newline_position. rewrite fmap_Some. split.
  - intros ([i c] & Hf & ->). apply list_find_Some in Hf as (Hi & -> & Hb). cbn.
    exists (take i b), (drop (S i) b). split_and!.
    + by rewrite take_drop_middle.
    + intros (j & Hj)%list_elem_of_lookup. pose proof (lookup_lt_Some _ _ _ Hj) as Hlt.
      rewrite length_take in Hlt. rewrite lookup_take_lt in Hj by lia. exact (Hb j 10 Hj ltac:(lia) eq_refl).
    + unfold len. rewrite length_take. apply lookup_lt_Some in Hi. lia.
  - intros (x & y & -> & Hx & ->). exists (length x, 10). split; [|done]. apply list_find_app_Some. right.
    rewrite Nat.sub_diag. split_and!; [done| |done]. apply list_find_None, Forall_forall. intros c Hc ->. done.
Qed.

Lemma newline_position_None b : newline_position b = None <-> 10 ∉ b.
Proof.
  unfold newline_position. rewrite fmap_None, list_find_None, Forall_forall. naive_solver.
Qed.

(** The chunks a line came in. *)
Definition line_in (buffer : list Z) (reads : list ReadResult) (line : list Z) : Prop :=
  exists cs rest, cs <> [] /\ Forall (fun c => c <> []) cs /\ reads = (Chunk <$> cs) ++ rest /\
    buffer ++ mjoin cs = utf8 line ++ [10] /\ Forall (fun c => is_scalar c = true) line /\
    (10 ∉ utf8 line) /\ str_len line <= MAX_REQUEST_LINE_BYTES.

Lemma mjoin_nonempty (cs : list (list Z)) : cs <> [] -> Forall (fun c => c <> []) cs -> mjoin cs <> [].
Proof. destruct cs as [|c cs]; [done|]. intros _ [Hc _]%Forall_cons. by destruct c. Qed.

(** One more chunk: it ends the line, or it is inside it. *)
Lemma line_in_cons buffer bytes reads line :
  10 ∉ buffer -> bytes <> [] ->
  line_in buffer (Chunk bytes :: reads) line <->
  (buffer ++ bytes = utf8 line ++ [10] /\ Forall (fun c => is_scalar c = true) line /\
     (10 ∉ utf8 line) /\ str_len line <= MAX_REQUEST_LINE_BYTES) \/
  ((10 ∉ buffer ++ bytes) /\ len (buffer ++ bytes) <= MAX_REQUEST_LINE_BYTES /\
     line_in (buffer ++ bytes) reads line).
Proof.
  intros Hb Hne. split.
  - intros (cs & rest & Hcs & Hf & E & Ej & Hs & Hn & Hl). destruct cs as [|c cs]; [done|].
    rewrite fmap_cons in E. injection E as <- ->. change (mjoin (bytes :: cs)) with (bytes ++ mjoin cs) in Ej.
    apply Forall_cons in Hf as [_ Hf]. rewrite app_assoc in Ej. destruct (decide (cs = [])) as [->|Hcs'].
    + left. cbn in Ej. rewrite app_nil_r in Ej. done.
    + right. pose proof (mjoin_nonempty cs Hcs' Hf) as Hm.
      destruct (mjoin cs) as [|y k _] eqn:Ek using rev_ind; [done|]. rewrite app_assoc in Ej.
      apply app_inj_tail in Ej as [Ej ->]. split_and!.
      * intros Hin. apply Hn. rewrite <- Ej. set_solver.
      * unfold str_len in Hl. rewrite <- Ej, len_app in Hl. pose proof (len_nonneg k). lia.
      * exists cs, rest. split_and!; try done. rewrite Ek, app_assoc, Ej. done.
  - intros [(Ej & Hs & Hn & Hl)|(_ & _ & cs & rest & Hcs & Hf & -> & Ej & Hs & Hn & Hl)].
    + exists [bytes], reads. split_and!; try done; [by apply Forall_singleton|]. cbn. by rewrite app_nil_r.
    + exists (bytes :: cs), rest. split_and!; try done; [by constructor|].
      change (mjoin (bytes :: cs)) with (bytes ++ mjoin cs). by rewrite app_assoc.
Qed.

Lemma read_request_loop_exact reads buffer line :
  10 ∉ buffer -> read_request_loop buffer reads = Ok line <-> line_in buffer reads line.
Proof.
  revert buffer. induction reads as [|r reads IH]; intros buffer Hb; cbn [read_request_loop].
  { split; [done|]. intros (cs & rest & Hcs & _ & E & _). by destruct cs. }
  destruct r as [bytes|]; [|split; [done|]; intros (cs & rest & Hcs & _ & E & _); by destruct cs].
  destruct bytes as [|c bytes].
  { split; [done|]. intros (cs & rest & Hcs & Hf & E & _). destruct cs as [|d cs]; [done|].
    rewrite fmap_cons in E. injection E as <- _. by apply Forall_cons in Hf as [? _]. }
  rewrite line_in_cons by done. set (chunk := c :: bytes) in *.
  destruct (newline_position (buffer ++ chunk)) as [p|] eqn:Ep.
  - apply newline_position_Some in Ep as (x & y & E & Hx & ->). rewrite E. split.
    + destruct (Z.ltb_spec MAX_REQUEST_LINE_BYTES (len x)); [done|].
      destruct (Z.eqb_spec (len x + 1) (len (x ++ 10 :: y))) as [El|]; [|done]. cbn [negb].
      rewrite len_app, len_cons in El. pose proof (len_nonneg y).
      assert (y = []) as -> by (destruct y; [done|rewrite len_cons in El; pose proof (len_nonneg y); lia]).
      unfold len. rewrite Nat2Z.id, take_app_length. intros [Hs <-]%ok_or_Ok%from_utf8_Some.
      left. split_and!; done.
    + intros [(Ej & Hs & Hn & Hl)|(Hn & _)]; [|exfalso; apply Hn; set_solver].
      assert (x = utf8 line /\ y = []) as [-> ->].
      { destruct y as [|z y _] using rev_ind.
        - by apply app_inj_tail in Ej as [-> _].
        - exfalso. apply Hn. rewrite app_comm_cons, app_assoc in Ej. apply app_inj_tail in Ej as [<- _]. set_solver. }
      rewrite (proj2 (Z.ltb_ge _ _)) by (unfold str_len in Hl; lia).
      rewrite len_app, Z.eqb_refl. cbn [negb]. unfold len. rewrite Nat2Z.id, take_app_length.
      by rewrite utf8_from_utf8.
  - apply newline_position_None in Ep. split.
    + destruct (Z.ltb_spec MAX_REQUEST_LINE_BYTES (len (buffer ++ chunk))); [done|].
      intros Hr. right. split_and!; [done|lia|]. by apply IH.
    + intros [(Ej & _)|(_ & Hl & Hr)]; [rewrite Ej in Ep; exfalso; apply Ep; set_solver|].
      rewrite (proj2 (Z.ltb_ge _ _)) by lia. by apply IH.
Qed.

(** A request line is accepted exactly when the chunks the socket gave spell
    it, as UTF-8 and at most 4096 bytes, with its line feed at the end of a
    chunk; how the bytes are cut into chunks before that makes no difference,
    and whatever is read later is never looked at. *)
Theorem request_line_read reads line :
  read_request_line reads = Ok line <-> line_in [] reads line.
Proof. apply read_request_loop_exact. set_solver. Qed.

(** * Seats behind the server *)

(** What the server answers for a dispatch outcome that came through a seat. *)
Definition seat_answer (o : DispatchOutcome) : result Refusal (list Z) :=
  match o with
  | OutDelivered => Ok DELIVERED_LINE
  | OutAlreadyDelivered => Ok ALREADY_DELIVERED_LINE
  | OutConflict => Err CancelConflict
  | CustodyFull => Err RefusedLedgerFull
  | CustodyUnavailable => Err Internal
  | UnknownAttempt | SinkUnavailable | OutFieldInvalid => Err CancelUnavailable
  end.

(** C16: a cancellation that a control server takes through a seat is one dispatch
    of the shared dispatcher, for the registration the seat's sink was made of:
    the answer is that outcome, the custody and the registry change as that
    dispatch changes them and the claim cell is empty again, also when the sink
    panics.  With the dispatcher gone nothing is delivered and the answer is an
    internal error. *)
Theorem seat_cancel_is_dispatch {Sink W} `{CancelCustody W, CancelSink Sink W}
    (attempt_id request_ref text : list Z) (observed epoch : Z) (spool : Spool) (b : gmap (list Z) (Binding SeatSink)) (s : SeatWorld Sink W) :
  is_identifier attempt_id = true -> is_identifier request_ref = true ->
  parse_unsigned text = Ok observed ->
  b !! attempt_id = Some (mkBinding spool (mkSeatSink attempt_id epoch)) ->
  control_cancel attempt_id request_ref text b s =
  match seat_core s with
  | None => (Some (Err Internal), s)
  | Some d =>
      let '(outcome, d, w) := dispatch attempt_id request_ref observed (Some epoch) d (seat_world s) in
      (seat_answer <$> outcome, mkSeat (Some d) None (seat_thread s) w)
  end.
Proof.
  intros Ha Hr Hp Hb. unfold control_cancel, binding. rewrite Ha, Hr, Hp, Hb. cbn [negb ok_or].
  destruct s as [core claim thread w]. cbn [classify SeatWorld_custody seat_core seat_thread seat_world].
  unfold seat_classify. cbn [seat_core]. destruct core as [d|]; [|done].
  unfold deliver, SeatSink_sink, seat_deliver, take_observed_sequence, remember.
  cbn [bd_cancel ss_attempt_id ss_epoch seat_claim seat_core seat_thread seat_world st_thread st_attempt_id
       st_request_ref st_observed_sequence cl_attempt_id cl_request_ref cl_observed_sequence].
  rewrite !bool_decide_eq_true_2, Nat.eqb_refl by done. cbn [negb andb seat_core seat_claim seat_thread seat_world].
  destruct (dispatch attempt_id request_ref observed (Some epoch) d w) as [[[[]|] d'] w']; done.
Qed.

(** * Witnesses *)

Lemma demo_after_ok : @spool_ok toy_hash demo_after.
Proof.
  constructor; [|by vm_compute|right; by vm_compute|by vm_compute|split; vm_compute; discriminate|by vm_compute].
  apply ascii_scalar. by repeat constructor.
Qed.

Lemma subscribe_exact_witness :
  exists line, subscribe (str "a1") (str "0") {[str "a1" := mkBinding demo_after tt]} =
    Ok (line ++ mjoin (event_line <$> sp_events demo_after) ++ end_line 1 false).
Proof.
  destruct (@subscribe_exact toy_hash unit (str "a1") (str "0") 0 demo_after tt {[str "a1" := mkBinding demo_after tt]}
    ltac:(by vm_compute) ltac:(by vm_compute) (lookup_singleton_eq _ _) demo_after_ok ltac:(by vm_compute))
    as (line & _ & E).
  exists line. exact E.
Defined.

Definition accepting_sink : CancelSink unit (list (list Z)) := fun _ _ r w => (Some (Ok Accepted), w ++ [r]).

(** Custody that remembers nothing. *)
Definition forgetful : CancelCustody (list (list Z)) :=
  Build_CancelCustody _ (fun _ w => (Ok Fresh, w)) (fun _ w => (Ok Fresh, w)) default_abandon.

Lemma seat_cancel_is_dispatch_witness :
  fst (@control_cancel SeatSink (SeatWorld unit (list (list Z)))
    (@SeatWorld_custody unit _ forgetful) (@SeatSink_sink unit _ forgetful accepting_sink)
    (str "a1") (str "r1") (str "0") {[str "a1" := mkBinding demo_spool (mkSeatSink (str "a1") 0)]}
    (mkSeat (Some (mkDispatch {[str "a1" := mkRegistration 0 tt]} 1 false 8)) None 0 []))
  = Some (Ok DELIVERED_LINE).
Proof.
  rewrite (@seat_cancel_is_dispatch unit (list (list Z)) forgetful accepting_sink (str "a1") (str "r1") (str "0") 0 0 demo_spool
    {[str "a1" := mkBinding demo_spool (mkSeatSink (str "a1") 0)]}
    (mkSeat (Some (mkDispatch {[str "a1" := mkRegistration 0 tt]} 1 false 8)) None 0 []));
    [by vm_compute|by vm_compute|by vm_compute|by vm_compute|by vm_compute].
Defined.
