(* ===== verification/ApprovalLedger.v ===== *)
(** The write-once ledger of approval decisions: [automonique-store/src/approval_ledger.rs].

    The table [approval_decisions] is the list of its rows in [entry_id] order
    (see [Table]).  A handle is its capacity; several may be open on one table,
    so an operation takes the capacity and the table.  [record] is one immediate
    transaction, a page is read in one transaction. *)

From S2P Require Import Prelude Text Table.

Definition APPROVAL_LEDGER_SCHEMA_VERSION : Z := 1.
Definition MAX_APPROVAL_DECISIONS : Z := 65536.
Definition MAX_IDENTIFIER_BYTES : Z := 256.
Definition MAX_APPROVAL_PAGE : Z := 512.

Inductive ApprovalDecision := Granted | Denied.

#[export] Instance ApprovalDecision_eq_dec : EqDecision ApprovalDecision.
Proof. solve_decision. Defined.

Definition ALL : list ApprovalDecision := [Granted; Denied].

Definition decision_as_str (d : ApprovalDecision) : string :=
  match d with Granted => "granted" | Denied => "denied" end.

Definition from_spelling (value : list Z) : option ApprovalDecision :=
  List.find (fun d => bool_decide (str (decision_as_str d) = value)) ALL.

Definition grants (d : ApprovalDecision) : bool := match d with Granted => true | Denied => false end.

Inductive ApprovalLedgerError :=
| InsecurePath (reason : list Z)
| SchemaVersion (found supported : Z)
| InvalidField (field : string)
| Conflict (field : string) (entry_id : Z) (recorded_subject : list Z)
    (recorded_decision : ApprovalDecision) (recorded_decider : list Z)
| CursorOutOfRange (supplied retained_last : Z)
| LedgerFull (capacity : Z)
| Corrupt (field : string)
| Io
| Sqlite.

Definition category (e : ApprovalLedgerError) : string :=
  match e with
  | InsecurePath _ => "insecure_path"
  | SchemaVersion _ _ => "schema_version"
  | InvalidField _ => "invalid_field"
  | Conflict _ _ _ _ _ => "conflict"
  | CursorOutOfRange _ _ => "cursor_out_of_range"
  | LedgerFull _ => "ledger_full"
  | Corrupt _ => "corrupt"
  | Io => "io"
  | Sqlite => "sqlite"
  end.

Record ApprovalDecisionRecord := mkRecord {
  ar_approval_key : list Z;
  ar_subject : list Z;
  ar_decision : ApprovalDecision;
  ar_decider : list Z;
  ar_decided_at_ms : Z
}.

Inductive ApprovalDisposition := Recorded | AlreadyRecorded.

Definition disposition_as_str (d : ApprovalDisposition) : string :=
  match d with Recorded => "recorded" | AlreadyRecorded => "already_recorded" end.

Record ApprovalReceipt := mkReceipt {
  rc_entry_id : Z;
  rc_disposition : ApprovalDisposition;
  rc_decided_at_ms : Z
}.

Record ApprovalEntry := mkEntry {
  en_entry_id : Z;
  en_approval_key : list Z;
  en_subject : list Z;
  en_decision : ApprovalDecision;
  en_decider : list Z;
  en_decided_at_ms : Z;
  en_revision : Z
}.

Definition entry_grants (e : ApprovalEntry) : bool := grants (en_decision e).

Record ApprovalPage := mkPage { pg_entries : list ApprovalEntry; pg_next_cursor : option Z }.

Record RetainedApprovalRange := mkRange { rr_first : Z; rr_last : Z }.

(** A row as it is stored. *)
Record RawEntry := mkRaw {
  raw_entry_id : Z;
  raw_approval_key : list Z;
  raw_subject : list Z;
  raw_decision : list Z;
  raw_decider : list Z;
  raw_decided_at_ms : Z;
  raw_revision : Z
}.

Abbreviation Ledgered A := (result ApprovalLedgerError A).
Abbreviation Rows := (list RawEntry).

(** * Validation *)

Definition validate_identifier (value : list Z) (field : string) : Ledgered unit :=
  if bool_decide (value = []) || (MAX_IDENTIFIER_BYTES <? str_len value) || existsb is_control value
  then Err (InvalidField field) else Ok tt.

Definition validate_time (value : Z) (field : string) : Ledgered unit :=
  if value <? 0 then Err (InvalidField field) else Ok tt.

Definition corrupt (field : string) : ApprovalLedgerError := Corrupt field.

Definition checked_identifier (value : list Z) (field : string) : Ledgered (list Z) :=
  _ ← map_err (fun _ => corrupt field) (validate_identifier value field); Ok value.

Definition checked_time (value : Z) (field : string) : Ledgered Z :=
  _ ← map_err (fun _ => corrupt field) (validate_time value field); Ok value.

Definition checked_row_id (value : Z) (field : string) : Ledgered Z :=
  if value <=? 0 then Err (corrupt field) else Ok value.

Definition to_db_u64 (value : Z) (field : string) : Ledgered Z :=
  ok_or (check_i64 value) (InvalidField field).

Definition from_db_u64 (value : Z) (field : string) : Ledgered Z :=
  ok_or (check_u64 value) (InvalidField field).

(** The struct's fields are evaluated as they are written. *)
Definition validated_entry (raw : RawEntry) : Ledgered ApprovalEntry :=
  decision ← ok_or (from_spelling (raw_decision raw)) (corrupt "decision");
  revision ← map_err (fun _ => corrupt "revision") (from_db_u64 (raw_revision raw) "revision");
  if negb (revision =? 1) then Err (corrupt "revision")
  else
    entry_id ← checked_row_id (raw_entry_id raw) "entry_id";
    approval_key ← checked_identifier (raw_approval_key raw) "approval_key";
    subject ← checked_identifier (raw_subject raw) "subject";
    decider ← checked_identifier (raw_decider raw) "decider";
    decided_at_ms ← checked_time (raw_decided_at_ms raw) "decided_at_ms";
    Ok (mkEntry entry_id approval_key subject decision decider decided_at_ms revision).

(** * Reading *)

Definition read_by_key (approval_key : list Z) (t : Rows) : Ledgered (option ApprovalEntry) :=
  match lookup_key raw_approval_key approval_key t with
  | None => Ok None
  | Some raw => e ← validated_entry raw; Ok (Some e)
  end.

(** The row count fits its types. *)
Definition count_decisions (t : Rows) : Ledgered Z := Ok (len t).

Definition decision_count (t : Rows) : Ledgered Z := count_decisions t.

Definition entry (approval_key : list Z) (t : Rows) : Ledgered (option ApprovalEntry) :=
  _ ← validate_identifier approval_key "approval_key"; read_by_key approval_key t.

Definition retained_range (t : Rows) : Ledgered (option RetainedApprovalRange) :=
  match min_rowid raw_entry_id t, max_rowid raw_entry_id t with
  | Some first, Some last =>
      first ← checked_row_id first "entry_id";
      last ← checked_row_id last "entry_id";
      if last <? first then Err (corrupt "entry_id")
      else
        first ← map_err (fun _ => corrupt "entry_id") (from_db_u64 first "entry_id");
        last ← map_err (fun _ => corrupt "entry_id") (from_db_u64 last "entry_id");
        Ok (Some (mkRange first last))
  | None, None => Ok None
  | _, _ => Err (corrupt "entry_id")
  end.

Fixpoint validated_entries (raws : Rows) : Ledgered (list ApprovalEntry) :=
  match raws with
  | [] => Ok []
  | raw :: raws => e ← validated_entry raw; es ← validated_entries raws; Ok (e :: es)
  end.

(** [WHERE entry_id > ?1 AND subject = ?3]. *)
Definition selects (after : Z) (subject : option (list Z)) (r : RawEntry) : bool :=
  (after <? raw_entry_id r)
  && match subject with Some s => bool_decide (raw_subject r = s) | None => true end.

(** [limit] is at most 512 here, so it and [limit + 1] fit an [i64]. *)
Definition read_page (cursor limit : Z) (subject : option (list Z)) (t : Rows) : Ledgered ApprovalPage :=
  if (limit =? 0) || (MAX_APPROVAL_PAGE <? limit) then Err (InvalidField "limit")
  else
    after ← to_db_u64 cursor "cursor";
    let lookahead := limit + 1 in
    let highest := default 0 (max_rowid raw_entry_id t) in
    retained_last ← map_err (fun _ => corrupt "entry_id") (from_db_u64 highest "entry_id");
    if retained_last <? cursor then Err (CursorOutOfRange cursor retained_last)
    else
      entries ← validated_entries (take (Z.to_nat lookahead) (List.filter (selects after subject) t));
      if limit <? len entries then
        let entries := take (Z.to_nat limit) entries in
        e ← ok_or (last entries) (corrupt "entry_id");
        next ← map_err (fun _ => corrupt "entry_id") (from_db_u64 (en_entry_id e) "entry_id");
        Ok (mkPage entries (Some next))
      else Ok (mkPage entries None).

Definition page (cursor limit : Z) (t : Rows) : Ledgered ApprovalPage := read_page cursor limit None t.

Definition by_subject (subject : list Z) (cursor limit : Z) (t : Rows) : Ledgered ApprovalPage :=
  _ ← validate_identifier subject "subject"; read_page cursor limit (Some subject) t.

(** * Recording *)

Definition differing_field (durable : ApprovalEntry) (presented : ApprovalDecisionRecord) : option string :=
  if negb (bool_decide (en_subject durable = ar_subject presented)) then Some "subject"%string
  else if negb (bool_decide (en_decision durable = ar_decision presented)) then Some "decision"%string
  else if negb (bool_decide (en_decider durable = ar_decider presented)) then Some "decider"%string
  else None.

Definition replay_or_conflict (durable : ApprovalEntry) (presented : ApprovalDecisionRecord)
  : Ledgered ApprovalReceipt :=
  match differing_field durable presented with
  | Some field =>
      Err (Conflict field (en_entry_id durable) (en_subject durable) (en_decision durable) (en_decider durable))
  | None => Ok (mkReceipt (en_entry_id durable) AlreadyRecorded (en_decided_at_ms durable))
  end.

Section Writer.
Context `{RandomRowid}.

Definition record_body (capacity : Z) (r : ApprovalDecisionRecord) (t : Rows)
  : Ledgered (ApprovalReceipt * Rows) :=
  _ ← validate_identifier (ar_approval_key r) "approval_key";
  _ ← validate_identifier (ar_subject r) "subject";
  _ ← validate_identifier (ar_decider r) "decider";
  _ ← validate_time (ar_decided_at_ms r) "decided_at_ms";
  found ← read_by_key (ar_approval_key r) t;
  match found with
  | Some durable => receipt ← replay_or_conflict durable r; Ok (receipt, t)
  | None =>
      live ← count_decisions t;
      if capacity <=? live then Err (LedgerFull capacity)
      else
        entry_id ← ok_or (next_rowid raw_entry_id t) Sqlite;
        Ok (mkReceipt entry_id Recorded (ar_decided_at_ms r),
            insert_row raw_entry_id
              (mkRaw entry_id (ar_approval_key r) (ar_subject r) (str (decision_as_str (ar_decision r)))
                 (ar_decider r) (ar_decided_at_ms r) 1) t)
  end.

Definition record (capacity : Z) (r : ApprovalDecisionRecord) (t : Rows) : Ledgered ApprovalReceipt * Rows :=
  transact (record_body capacity r t) t.
End Writer.

(** * Opening *)

(** The database file: its [user_version], how many objects its schema has and
    the table, if it is there. *)
Record Database := mkDatabase {
  user_version : Z;
  schema_objects : Z;
  approval_decisions : option Rows
}.

Definition initialize_or_validate_schema (db : Database) : Ledgered Database :=
  if user_version db =? APPROVAL_LEDGER_SCHEMA_VERSION then Ok db
  else if negb (user_version db =? 0)
  then Err (SchemaVersion (user_version db) APPROVAL_LEDGER_SCHEMA_VERSION)
  else if negb (schema_objects db =? 0)
  then Err (SchemaVersion 0 APPROVAL_LEDGER_SCHEMA_VERSION)
  else Ok (mkDatabase APPROVAL_LEDGER_SCHEMA_VERSION 2 (Some [])).

(** [secured] and [secured_again] are the two checks of the path, [opened] is
    creating the file when it is absent and opening it. *)
Definition open_with_capacity (capacity : Z) (secured secured_again : Ledgered unit)
    (opened : Ledgered Database) : Ledgered (Z * Database) :=
  if (capacity =? 0) || (MAX_APPROVAL_DECISIONS <? capacity) then Err (InvalidField "capacity")
  else
    _ ← secured;
    _ ← secured_again;
    db ← opened;
    db ← initialize_or_validate_schema db;
    Ok (capacity, db).

Definition open (secured secured_again : Ledgered unit) (opened : Ledgered Database)
  : Ledgered (Z * Database) :=
  open_with_capacity MAX_APPROVAL_DECISIONS secured secured_again opened.

(** * The log the table represents

    Nothing is ever deleted or changed, so the row ids are the places in the
    order of recording. *)

Definition identifier_ok (value : list Z) : bool :=
  negb (bool_decide (value = [])) && (str_len value <=? MAX_IDENTIFIER_BYTES)
  && negb (existsb is_control value).

Abbreviation Log := (list ApprovalDecisionRecord).

Definition row_of (i : nat) (r : ApprovalDecisionRecord) : RawEntry :=
  mkRaw (Z.of_nat i + 1) (ar_approval_key r) (ar_subject r) (str (decision_as_str (ar_decision r)))
    (ar_decider r) (ar_decided_at_ms r) 1.

Definition entry_of (i : nat) (r : ApprovalDecisionRecord) : ApprovalEntry :=
  mkEntry (Z.of_nat i + 1) (ar_approval_key r) (ar_subject r) (ar_decision r) (ar_decider r)
    (ar_decided_at_ms r) 1.

Definition table_of (log : Log) : Rows := imap row_of log.
Definition entries_of (log : Log) : list ApprovalEntry := imap entry_of log.

Record record_ok (r : ApprovalDecisionRecord) : Prop := mkRecordOk {
  ro_key : identifier_ok (ar_approval_key r) = true;
  ro_subject : identifier_ok (ar_subject r) = true;
  ro_decider : identifier_ok (ar_decider r) = true;
  ro_time : 0 <= ar_decided_at_ms r
}.

Record log_ok (log : Log) : Prop := mkLogOk {
  lo_records : Forall record_ok log;
  lo_keys : NoDup (ar_approval_key <$> log);
  lo_bound : len log <= MAX_APPROVAL_DECISIONS
}.

(** A table its own writers left. *)
Definition ledger_ok (t : Rows) : Prop := exists log, t = table_of log /\ log_ok log.

Definition handle_capacity (capacity : Z) : Prop := 0 < capacity <= MAX_APPROVAL_DECISIONS.

(** The specification: a write-once log. *)

Definition first_invalid (r : ApprovalDecisionRecord) : option string :=
  if negb (identifier_ok (ar_approval_key r)) then Some "approval_key"%string
  else if negb (identifier_ok (ar_subject r)) then Some "subject"%string
  else if negb (identifier_ok (ar_decider r)) then Some "decider"%string
  else if ar_decided_at_ms r <? 0 then Some "decided_at_ms"%string
  else None.

Definition find_key (key : list Z) (log : Log) : option (nat * ApprovalDecisionRecord) :=
  list_find (fun r => ar_approval_key r = key) log.

Definition spec_record (capacity : Z) (r : ApprovalDecisionRecord) (log : Log)
  : Ledgered ApprovalReceipt * Log :=
  match first_invalid r with
  | Some field => (Err (InvalidField field), log)
  | None =>
      match find_key (ar_approval_key r) log with
      | Some (i, d) => (replay_or_conflict (entry_of i d) r, log)
      | None =>
          if capacity <=? len log then (Err (LedgerFull capacity), log)
          else (Ok (mkReceipt (len log + 1) Recorded (ar_decided_at_ms r)), log ++ [r])
      end
  end.

(** The decisions a listing is about. *)
Definition about (subject : option (list Z)) (e : ApprovalEntry) : bool :=
  match subject with Some s => bool_decide (en_subject e = s) | None => true end.

Definition matching (subject : option (list Z)) (log : Log) : list ApprovalEntry :=
  List.filter (about subject) (entries_of log).

(** * Rows and entries *)

Lemma validate_identifier_eq value field :
  validate_identifier value field = if identifier_ok value then Ok tt else Err (InvalidField field).
Proof.
  unfold validate_identifier, identifier_ok. rewrite (Z.ltb_antisym (str_len value)).
  by destruct (bool_decide _), (str_len value <=? _), (existsb _ _).
Qed.

Lemma from_spelling_str d : from_spelling (str (decision_as_str d)) = Some d.
Proof. by destruct d. Qed.

Lemma validated_row i r :
  record_ok r -> validated_entry (row_of i r) = Ok (entry_of i r).
Proof.
  intros [Hk Hs Hd Ht]. unfold validated_entry, row_of, entry_of.
  cbn [raw_decision raw_revision raw_entry_id raw_approval_key raw_subject raw_decider raw_decided_at_ms].
  rewrite from_spelling_str. cbn [ok_or mbind result_bind].
  change (map_err _ (from_db_u64 1 _)) with (@Ok ApprovalLedgerError Z 1). cbn [mbind result_bind].
  change (negb (1 =? 1)) with false. unfold checked_row_id, checked_identifier, checked_time, validate_time.
  rewrite (proj2 (Z.leb_gt _ _)) by lia. rewrite !validate_identifier_eq, Hk, Hs, Hd.
  rewrite (proj2 (Z.ltb_ge _ _)) by done. done.
Qed.

Lemma validated_rows n log :
  Forall record_ok log ->
  validated_entries (imap (fun i => row_of (n + i)) log) = Ok (imap (fun i => entry_of (n + i)) log).
Proof.
  intros H. revert n. induction H as [|r log Hr _ IH]; intros n; [done|]. cbn [imap validated_entries].
  rewrite validated_row by done. cbn [mbind result_bind].
  rewrite (imap_ext _ (fun i => row_of (S n + i))) by (intros; cbn; f_equal; lia).
  rewrite IH. cbn [mbind result_bind]. do 2 f_equal. apply imap_ext. intros. cbn. f_equal. lia.
Qed.

Lemma validated_entries_app a b es fs :
  validated_entries a = Ok es -> validated_entries b = Ok fs -> validated_entries (a ++ b) = Ok (es ++ fs).
Proof.
  revert es. induction a as [|x a IH]; intros es; [by intros [= <-]|].
  cbn [validated_entries app]. intros (e & He & (es' & Hes & [= <-])%bind_Ok)%bind_Ok Hb.
  rewrite He. cbn [mbind result_bind]. by rewrite (IH _ Hes Hb).
Qed.

(** Selections commute with validation. *)
Lemma validated_filter (p : RawEntry -> bool) (q : ApprovalEntry -> bool) raws es :
  (forall raw e, validated_entry raw = Ok e -> p raw = q e) ->
  validated_entries raws = Ok es -> validated_entries (List.filter p raws) = Ok (List.filter q es).
Proof.
  intros Hpq. revert es. induction raws as [|raw raws IH]; intros es; [by intros [= <-]|].
  cbn [validated_entries List.filter]. intros (e & He & (es' & Hes & [= <-])%bind_Ok)%bind_Ok.
  cbn [List.filter]. rewrite (Hpq raw e He). destruct (q e); [|by apply IH].
  cbn [validated_entries]. rewrite He, (IH _ Hes). done.
Qed.

Lemma validated_take n raws es :
  validated_entries raws = Ok es -> validated_entries (take n raws) = Ok (take n es).
Proof.
  revert n es. induction raws as [|raw raws IH]; intros n es; [intros [= <-]; by rewrite !take_nil|].
  cbn [validated_entries]. intros (e & He & (es' & Hes & [= <-])%bind_Ok)%bind_Ok.
  destruct n; [done|]. cbn [take validated_entries]. rewrite He. cbn [mbind result_bind]. by rewrite (IH _ _ Hes).
Qed.

Lemma validated_entry_fields raw e :
  validated_entry raw = Ok e -> raw_entry_id raw = en_entry_id e /\ raw_subject raw = en_subject e.
Proof.
  unfold validated_entry, checked_row_id, checked_identifier, checked_time.
  intros (d & _ & (rv & _ & H)%bind_Ok)%bind_Ok. case_match; [done|].
  apply bind_Ok in H as (id & Hid & H). apply bind_Ok in H as (k & _ & H). apply bind_Ok in H as (s & Hs & H).
  apply bind_Ok in H as (dc & _ & H). apply bind_Ok in H as (tm & _ & [= <-]). cbn.
  case_match; [done|]. injection Hid as <-. apply bind_Ok in Hs as ([] & _ & [= <-]). done.
Qed.

Lemma validated_table log : log_ok log -> validated_entries (table_of log) = Ok (entries_of log).
Proof. intros [Hr _ _]. exact (validated_rows 0 log Hr). Qed.

(** * Keys and row ids of the table *)

Lemma lookup_imap_row n key log :
  lookup_key raw_approval_key key (imap (fun i => row_of (n + i)) log) =
  (fun p => row_of (n + fst p) (snd p)) <$> find_key key log.
Proof.
  revert n. induction log as [|r log IH]; intros n; [done|]. unfold lookup_key, find_key in *.
  cbn [imap List.find list_find]. cbn [raw_approval_key row_of]. case_bool_decide as E.
  - rewrite decide_True by done. done.
  - rewrite decide_False by done.
    rewrite (imap_ext _ (fun i => row_of (S n + i))) by (intros; cbn; f_equal; lia).
    rewrite IH. destruct (list_find _ log) as [[j d]|]; [|done]. cbn. do 2 f_equal. lia.
Qed.

Lemma lookup_table key log :
  lookup_key raw_approval_key key (table_of log) = (fun p => row_of (fst p) (snd p)) <$> find_key key log.
Proof. exact (lookup_imap_row 0 key log). Qed.

Lemma find_key_Some key log i d :
  find_key key log = Some (i, d) -> log !! i = Some d /\ ar_approval_key d = key.
Proof. unfold find_key. rewrite list_find_Some. tauto. Qed.

Lemma find_key_None key log : find_key key log = None <-> key ∉ ar_approval_key <$> log.
Proof.
  unfold find_key. rewrite list_find_None, Forall_forall, list_elem_of_fmap. naive_solver.
Qed.

Lemma find_key_app key log added p : find_key key log = Some p -> find_key key (log ++ added) = Some p.
Proof. unfold find_key. destruct p. intros H. apply list_find_app_Some. by left. Qed.

Lemma table_ids log : raw_entry_id <$> table_of log = seqZ 1 (len log).
Proof.
  apply list_eq. intros i. rewrite list_lookup_fmap. unfold table_of. rewrite list_lookup_imap.
  destruct (log !! i) as [r|] eqn:E; cbn.
  - apply lookup_lt_Some in E. rewrite lookup_seqZ_lt by (unfold len; lia). f_equal. lia.
  - apply lookup_ge_None in E. by rewrite lookup_seqZ_ge by (unfold len; lia).
Qed.

Lemma table_max log :
  max_rowid raw_entry_id (table_of log) = if bool_decide (log = []) then None else Some (len log).
Proof.
  pose proof (max_rowid_spec raw_entry_id (table_of log)) as H. destruct log as [|r log]; [done|].
  rewrite bool_decide_eq_false_2 by done. set (l := r :: log) in *.
  assert (Hl : 0 < len l) by (unfold l; rewrite len_cons; pose proof (len_nonneg log); lia).
  destruct (max_rowid raw_entry_id (table_of l)) as [m|].
  - destruct H as [(x & Hx & <-) Hf]. f_equal.
    assert (Hid : forall i, 1 <= i <= len l -> i <= raw_entry_id x).
    { intros i Hi. assert (i ∈ raw_entry_id <$> table_of l) as (y & -> & Hy)%list_elem_of_fmap
        by (rewrite table_ids; apply elem_of_seqZ; lia).
      rewrite Forall_forall in Hf. by apply Hf. }
    specialize (Hid (len l) ltac:(lia)).
    assert (raw_entry_id x ∈ raw_entry_id <$> table_of l) as Hin by (apply list_elem_of_fmap; eauto).
    rewrite table_ids in Hin. apply elem_of_seqZ in Hin. lia.
  - assert (length (table_of l) = length l) as E by apply length_imap. rewrite H in E. done.
Qed.

Lemma table_next `{RandomRowid} log :
  len log <= MAX_APPROVAL_DECISIONS -> next_rowid raw_entry_id (table_of log) = Some (len log + 1).
Proof.
  intros Hb. unfold next_rowid. rewrite table_max. case_bool_decide as E; [by subst|].
  rewrite (proj2 (Z.ltb_lt _ _)); [done|]. unfold MAX_APPROVAL_DECISIONS in Hb. widths. lia.
Qed.

Lemma table_snoc log r : insert_row raw_entry_id (row_of (length log) r) (table_of log) = table_of (log ++ [r]).
Proof.
  rewrite insert_row_last.
  - unfold table_of. rewrite imap_app. cbn. by rewrite Nat.add_0_r.
  - apply Forall_forall. intros x Hx. assert (raw_entry_id x ∈ raw_entry_id <$> table_of log) as Hi
      by (apply list_elem_of_fmap; eauto).
    rewrite table_ids in Hi. apply elem_of_seqZ in Hi. cbn. unfold len in Hi. lia.
Qed.

(** * Recording implements the write-once log *)

Lemma record_body_eq `{RandomRowid} capacity r log :
  log_ok log ->
  record capacity r (table_of log) =
  (fst (spec_record capacity r log), table_of (snd (spec_record capacity r log))).
Proof.
  intros [Hr Hk Hb]. unfold record, record_body, spec_record, first_invalid.
  rewrite !validate_identifier_eq. unfold validate_time.
  destruct (identifier_ok (ar_approval_key r)); [|done]. destruct (identifier_ok (ar_subject r)); [|done].
  destruct (identifier_ok (ar_decider r)); [|done]. destruct (ar_decided_at_ms r <? 0); [done|].
  cbn [negb mbind result_bind]. unfold read_by_key. rewrite lookup_table.
  destruct (find_key (ar_approval_key r) log) as [[i d]|] eqn:E.
  - cbn [fmap option_fmap option_map fst snd]. apply find_key_Some in E as [Hi _].
    rewrite validated_row by (rewrite Forall_forall in Hr; by eapply Hr, list_elem_of_lookup_2).
    cbn [mbind result_bind]. by destruct (replay_or_conflict (entry_of i d) r).
  - cbn [fmap option_fmap option_map mbind result_bind count_decisions].
    assert (len (table_of log) = len log) as -> by (unfold len; f_equal; apply length_imap).
    destruct (capacity <=? len log); [done|]. rewrite table_next by done.
    cbn [ok_or mbind result_bind transact fst snd]. f_equal. rewrite <- table_snoc. done.
Qed.

Lemma first_invalid_None r : first_invalid r = None <-> record_ok r.
Proof.
  unfold first_invalid. split.
  - intros H. repeat case_match; try done. constructor; by bool_prop.
  - intros [-> -> -> H]. cbn. by rewrite (proj2 (Z.ltb_ge _ _)).
Qed.

Lemma spec_record_ok capacity r log :
  handle_capacity capacity -> log_ok log ->
  log_ok (snd (spec_record capacity r log)) /\ log `prefix_of` snd (spec_record capacity r log).
Proof.
  intros [_ Hc] Hok. unfold spec_record. destruct (first_invalid r) eqn:Ei; [done|].
  destruct (find_key _ log) as [[i d]|] eqn:E; [done|]. destruct (Z.leb_spec capacity (len log)); [done|].
  cbn [snd]. destruct Hok as [Hr Hk Hb]. split; [|by exists [r]]. constructor.
  - apply Forall_app. split; [done|]. by apply Forall_singleton, first_invalid_None.
  - rewrite fmap_app. apply NoDup_app. split_and!; [done| |apply NoDup_singleton].
    apply find_key_None in E. set_solver.
  - rewrite len_app. change (len [r]) with 1. lia.
Qed.

(** Recording a decision is the write-once log, on every branch: the first
    malformed field is refused; a known key is answered from the decision that
    is there, in a full ledger too, a replay when subject, decision and decider
    are the same and otherwise a conflict that names the first that differs; a
    new key is refused at the handle's capacity and else appended under the
    next row id.  What is in the log stays where it is, and a well-formed
    ledger stays one. *)
Theorem record_refines_log `{RandomRowid} capacity r log answer t' :
  handle_capacity capacity -> log_ok log -> record capacity r (table_of log) = (answer, t') ->
  exists log', t' = table_of log' /\ (answer, log') = spec_record capacity r log /\
    log_ok log' /\ log `prefix_of` log'.
Proof.
  intros Hc Hok. rewrite record_body_eq by done. intros [= <- <-].
  exists (snd (spec_record capacity r log)). pose proof (spec_record_ok capacity r log Hc Hok) as [? ?].
  split_and!; try done. symmetry. apply surjective_pairing.
Qed.

(** * Permanence *)

(** The identity of a decision besides its key; the time is not part of it. *)
Definition same_decision (e : ApprovalEntry) (r : ApprovalDecisionRecord) : Prop :=
  en_subject e = ar_subject r /\ en_decision e = ar_decision r /\ en_decider e = ar_decider r.

Definition first_difference (e : ApprovalEntry) (r : ApprovalDecisionRecord) (field : string) : Prop :=
  (field = "subject"%string /\ en_subject e <> ar_subject r) \/
  (field = "decision"%string /\ en_subject e = ar_subject r /\ en_decision e <> ar_decision r) \/
  (field = "decider"%string /\ en_subject e = ar_subject r /\ en_decision e = ar_decision r /\
     en_decider e <> ar_decider r).

Lemma differing_field_exact e r :
  match differing_field e r with
  | None => same_decision e r
  | Some field => first_difference e r field
  end.
Proof.
  unfold differing_field, same_decision, first_difference.
  repeat case_bool_decide; cbn [negb]; naive_solver.
Qed.

(** What the handles on one ledger did, each at its own capacity. *)
Fixpoint run `{RandomRowid} (calls : list (Z * ApprovalDecisionRecord)) (t : Rows) : Rows :=
  match calls with
  | [] => t
  | (capacity, r) :: calls => run calls (snd (record capacity r t))
  end.

Lemma run_grows `{RandomRowid} calls log :
  Forall (fun c => handle_capacity (fst c)) calls -> log_ok log ->
  exists log', run calls (table_of log) = table_of log' /\ log_ok log' /\ log `prefix_of` log'.
Proof.
  intros Hc. revert log. induction Hc as [|[capacity r] calls Hc _ IH]; intros log Hok; [by exists log|].
  cbn [run]. rewrite record_body_eq by done. pose proof (spec_record_ok capacity r log Hc Hok) as [Hok' Hp].
  destruct (IH _ Hok') as (log' & E & Hl & Hp'). exists log'. split_and!; [done..|]. by etrans.
Qed.

Lemma entry_table key log :
  log_ok log -> identifier_ok key = true ->
  entry key (table_of log) = Ok ((fun p => entry_of (fst p) (snd p)) <$> find_key key log).
Proof.
  intros [Hr _ _] Hk. unfold entry. rewrite validate_identifier_eq, Hk. cbn [mbind result_bind].
  unfold read_by_key. rewrite lookup_table. destruct (find_key key log) as [[i d]|] eqn:E; [|done].
  apply find_key_Some in E as [Hi _]. cbn. rewrite validated_row; [done|].
  rewrite Forall_forall in Hr. by eapply Hr, list_elem_of_lookup_2.
Qed.

Lemma entry_Some key log e :
  log_ok log -> entry key (table_of log) = Ok (Some e) ->
  exists p, find_key key log = Some p /\ e = entry_of (fst p) (snd p) /\ identifier_ok key = true.
Proof.
  intros Hok He. destruct (identifier_ok key) eqn:Hk.
  - rewrite entry_table in He by done. destruct (find_key key log) as [p|]; [|done].
    injection He as <-. eauto.
  - unfold entry in He. by rewrite validate_identifier_eq, Hk in He.
Qed.

(** C20: a decision, once recorded, is what every later read of its key answers,
    whatever is recorded afterwards, through whichever handles; and no later
    call for its key changes the table or is answered as a new recording: the
    same decision is replayed with the time of the first, another one is a
    conflict that names the first field that differs and what is recorded. *)
Theorem decision_is_permanent `{RandomRowid} calls t key e :
  ledger_ok t -> Forall (fun c => handle_capacity (fst c)) calls -> entry key t = Ok (Some e) ->
  entry key (run calls t) = Ok (Some e) /\
  forall capacity r, ar_approval_key r = key ->
    snd (record capacity r (run calls t)) = run calls t /\
    match fst (record capacity r (run calls t)) with
    | Ok receipt => same_decision e r /\ receipt = mkReceipt (en_entry_id e) AlreadyRecorded (en_decided_at_ms e)
    | Err (Conflict field id s d who) =>
        first_difference e r field /\ id = en_entry_id e /\
        s = en_subject e /\ d = en_decision e /\ who = en_decider e
    | Err (InvalidField field) => first_invalid r = Some field
    | Err _ => False
    end.
Proof.
  intros (log & -> & Hok) Hc He. destruct (run_grows calls log Hc Hok) as (log' & -> & Hok' & [added ->]).
  apply entry_Some in He as (p & Hf & -> & Hk); [|done]. apply find_key_app with (added := added) in Hf.
  split; [by rewrite entry_table, Hf by done|]. intros capacity r <-. rewrite record_body_eq by done.
  cbn [fst snd]. unfold spec_record. destruct (first_invalid r) as [field|] eqn:Ei; [done|].
  rewrite Hf. destruct p as [i d]. cbn [fst snd]. unfold replay_or_conflict.
  split; [done|]. pose proof (differing_field_exact (entry_of i d) r) as Hd.
  by destruct (differing_field (entry_of i d) r) as [field|].
Qed.

(** * Pages *)

Lemma entries_position log i e : entries_of log !! i = Some e -> en_entry_id e = Z.of_nat i + 1.
Proof. unfold entries_of. rewrite list_lookup_imap, fmap_Some. by intros (r & _ & ->). Qed.

(** What a page of the listing is. *)
Definition page_spec (cursor limit : Z) (subject : option (list Z)) (log : Log) : Ledgered ApprovalPage :=
  if (limit =? 0) || (MAX_APPROVAL_PAGE <? limit) then Err (InvalidField "limit")
  else if negb (in_range 0 i64_max cursor) then Err (InvalidField "cursor")
  else if len log <? cursor then Err (CursorOutOfRange cursor (len log))
  else
    let rest := List.filter (fun e => cursor <? en_entry_id e) (matching subject log) in
    Ok (mkPage (take (Z.to_nat limit) rest)
          (if limit <? len rest then en_entry_id <$> last (take (Z.to_nat limit) rest) else None)).

Lemma filter_filter {A} (p q : A -> bool) l :
  List.filter p (List.filter q l) = List.filter (fun x => p x && q x) l.
Proof.
  induction l as [|x l IH]; [done|]. cbn. destruct (q x) eqn:Eq, (p x) eqn:Ep; cbn; rewrite ?Ep, ?Eq; cbn; by rewrite ?IH.
Qed.

Lemma matching_id subject log e : e ∈ matching subject log -> e ∈ entries_of log /\ 1 <= en_entry_id e <= len log.
Proof.
  intros [_ H]%elem_of_filter_rows. split; [done|]. apply list_elem_of_lookup in H as [i Hi].
  rewrite (entries_position _ _ _ Hi). apply lookup_lt_Some in Hi. unfold entries_of in Hi.
  rewrite length_imap in Hi. unfold len. lia.
Qed.

Lemma read_page_eq cursor limit subject log :
  0 <= cursor -> 0 <= limit -> log_ok log ->
  read_page cursor limit subject (table_of log) = page_spec cursor limit subject log.
Proof.
  intros Hc Hl Hok. unfold read_page, page_spec, to_db_u64.
  destruct (_ || _) eqn:El; [done|]. apply orb_false_iff in El as [El0 Elm]. bool_prop.
  assert (Hin : check_i64 cursor = if in_range 0 i64_max cursor then Some cursor else None).
  { unfold check_i64, in_range, i64_min. widths. destruct (Z.leb_spec 0 cursor); [|lia]. cbn.
    destruct (_ && _) eqn:E1, (cursor <=? _) eqn:E2; bool_prop; try done; exfalso; lia. }
  rewrite Hin. destruct (in_range 0 i64_max cursor) eqn:Ei; [|done]. cbn [negb ok_or mbind result_bind].
  rewrite table_max. pose proof (len_nonneg log) as Hn. destruct Hok as [Hr Hk Hb].
  assert (Hcu : forall n, 0 <= n <= MAX_APPROVAL_DECISIONS -> from_db_u64 n "entry_id" = Ok n).
  { intros n Hn'. unfold from_db_u64. rewrite (proj2 (check_u64_Some n n)); [done|].
    unfold MAX_APPROVAL_DECISIONS in Hn'. split; [done|mlia]. }
  assert (default 0 (if bool_decide (log = []) then None else Some (len log)) = len log) as ->.
  { case_bool_decide as E; [by subst|done]. }
  rewrite Hcu by lia. cbn [map_err mbind result_bind]. destruct (len log <? cursor); [done|].
  set (E := List.filter (fun e => cursor <? en_entry_id e) (matching subject log)).
  assert (HE : validated_entries (List.filter (selects cursor subject) (table_of log)) = Ok E).
  { unfold E, matching. rewrite filter_filter. apply validated_filter; [|by apply validated_table].
    intros raw e [Hid Hs]%validated_entry_fields. unfold selects, about. by rewrite Hid, Hs. }
  rewrite (validated_take _ _ _ HE). cbn [mbind result_bind].
  assert (Ht : (limit <? len (take (Z.to_nat (limit + 1)) E)) = (limit <? len E)).
  { apply eq_true_iff_eq. rewrite !Z.ltb_lt. unfold len. rewrite length_take. lia. }
  rewrite Ht, take_take, Nat.min_l by lia. destruct (Z.ltb_spec limit (len E)) as [Hlt|Hge].
  - destruct (last (take (Z.to_nat limit) E)) as [e|] eqn:Ee.
    + cbn [ok_or mbind result_bind fmap option_fmap option_map]. rewrite Hcu; [done|].
      apply last_Some in Ee as [k Ek]. assert (e ∈ E) as He.
      { rewrite <- (take_drop (Z.to_nat limit) E), Ek. set_solver. }
      apply elem_of_filter_rows in He as [_ [_ ?]%matching_id]. lia.
    + exfalso. apply last_None in Ee. assert (length (take (Z.to_nat limit) E) = 0%nat) by (by rewrite Ee).
      rewrite length_take in H. unfold len in Hlt. lia.
  - do 2 f_equal. rewrite !take_ge; [done|unfold len in Hge; lia..].
Qed.

(** The listing call: [page], or [by_subject]. *)
Definition list_page (subject : option (list Z)) (cursor limit : Z) (t : Rows) : Ledgered ApprovalPage :=
  match subject with Some s => by_subject s cursor limit t | None => page cursor limit t end.

Definition subject_ok (subject : option (list Z)) : Prop :=
  match subject with Some s => identifier_ok s = true | None => True end.

Lemma list_page_eq subject cursor limit log :
  subject_ok subject -> 0 <= cursor -> 0 <= limit -> log_ok log ->
  list_page subject cursor limit (table_of log) = page_spec cursor limit subject log.
Proof.
  intros Hs ? ? ?. destruct subject as [s|]; cbn [list_page]; unfold by_subject, page.
  - rewrite validate_identifier_eq, Hs. cbn [mbind result_bind]. by apply read_page_eq.
  - by apply read_page_eq.
Qed.

(** A client that follows [next_cursor].  Each page is read from the table as it
    is then; the answer is what was collected, and the table of the page that
    ended the listing, if one did. *)
Fixpoint walk (subject : option (list Z)) (cursor : Z) (reads : list (Z * Rows))
  : Ledgered (list ApprovalEntry * option Rows) :=
  match reads with
  | [] => Ok ([], None)
  | (limit, t) :: reads =>
      p ← list_page subject cursor limit t;
      match pg_next_cursor p with
      | None => Ok (pg_entries p, Some t)
      | Some cursor =>
          '(es, ended) ← walk subject cursor reads;
          Ok (pg_entries p ++ es, ended)
      end
  end.

Lemma entries_ordered log : ordered en_entry_id (entries_of log).
Proof.
  unfold ordered. assert (en_entry_id <$> entries_of log = seqZ 1 (len log)) as ->.
  { rewrite <- table_ids. apply list_eq. intros i. rewrite !list_lookup_fmap. unfold entries_of, table_of.
    rewrite !list_lookup_imap. by destruct (log !! i). }
  generalize 1. induction log as [|r log IH]; intros n; [constructor|].
  rewrite len_cons. pose proof (len_nonneg log). rewrite seqZ_cons by lia.
  replace (Z.pred (1 + len log)) with (len log) by lia. constructor; [apply IH|].
  apply Forall_forall. intros i Hi%elem_of_seqZ. lia.
Qed.

Lemma matching_ordered subject log : ordered en_entry_id (matching subject log).
Proof. apply filter_ordered, entries_ordered. Qed.

Lemma filter_prefix {A} (p : A -> bool) a b :
  a `prefix_of` b -> List.filter p a `prefix_of` List.filter p b.
Proof. intros [k ->]. rewrite List.filter_app. by exists (List.filter p k). Qed.

Lemma matching_prefix subject log log' : log `prefix_of` log' -> matching subject log `prefix_of` matching subject log'.
Proof. intros [k ->]. apply filter_prefix. unfold entries_of. rewrite imap_app. by eexists. Qed.

(** In an ordered list, the rows after the last of a prefix are the rest. *)
Lemma ordered_after (a b : list ApprovalEntry) x :
  ordered en_entry_id (a ++ b) -> last a = Some x ->
  List.filter (fun e => en_entry_id x <? en_entry_id e) (a ++ b) = b.
Proof.
  unfold ordered. intros Ho [k ->]%last_Some. rewrite fmap_app in Ho.
  induction k as [|y k IH].
  - cbn in *. rewrite Z.ltb_irrefl. apply StronglySorted_inv in Ho as [_ Hx].
    rewrite Forall_fmap in Hx. induction Hx as [|e b He _ IH]; [done|]. cbn in *.
    rewrite (proj2 (Z.ltb_lt _ _)) by done. by f_equal.
  - cbn in Ho. apply StronglySorted_inv in Ho as [Ho Hy]. cbn [app List.filter].
    assert (en_entry_id y < en_entry_id x) as Hlt.
    { rewrite Forall_forall in Hy. apply Hy. rewrite fmap_app. set_solver. }
    rewrite (proj2 (Z.ltb_ge _ _)) by lia. by apply IH.
Qed.

Definition later (cursor : Z) (es : list ApprovalEntry) : list ApprovalEntry :=
  List.filter (fun e => cursor <? en_entry_id e) es.

Lemma later_later c d es : c <= d -> later d es = later d (later c es).
Proof.
  intros H. unfold later. rewrite filter_filter. apply List.filter_ext. intros e.
  apply eq_true_iff_eq. rewrite andb_true_iff, !Z.ltb_lt. lia.
Qed.

(** What a full page leaves, in the ledger as it is now or later. *)
Lemma page_rest subject cursor n log log' x :
  log `prefix_of` log' -> last (take n (later cursor (matching subject log))) = Some x ->
  later cursor (matching subject log') =
  take n (later cursor (matching subject log)) ++ later (en_entry_id x) (matching subject log').
Proof.
  intros Hp Hx. set (rest := later cursor (matching subject log)) in *.
  assert (take n rest `prefix_of` later cursor (matching subject log')) as [b Eb].
  { etrans; [|by apply filter_prefix, matching_prefix]. exists (drop n rest). by rewrite take_drop. }
  assert (cursor < en_entry_id x).
  { apply last_Some in Hx as [k Ek]. assert (x ∈ rest) as [? _]%elem_of_filter_rows.
    { rewrite <- (take_drop n rest), Ek. set_solver. } by bool_prop. }
  rewrite (later_later cursor (en_entry_id x)) by lia. rewrite Eb. f_equal. symmetry.
  apply ordered_after; [|done]. rewrite <- Eb. apply filter_ordered, matching_ordered.
Qed.

Definition reads_of (steps : list (Z * Log)) : list (Z * Rows) :=
  (fun s => (fst s, table_of (snd s))) <$> steps.

Lemma walk_eq subject cursor steps :
  subject_ok subject -> 0 <= cursor ->
  Forall (fun s => 0 < fst s <= MAX_APPROVAL_PAGE /\ log_ok (snd s) /\ cursor <= len (snd s)) steps ->
  StronglySorted prefix (snd <$> steps) ->
  exists es ended, walk subject cursor (reads_of steps) = Ok (es, ended) /\
    match ended with
    | Some t => exists log, t = table_of log /\ log ∈ snd <$> steps /\ es = later cursor (matching subject log)
    | None =>
        len steps <= len es /\
        forall log, Forall (fun l => l `prefix_of` log) (snd <$> steps) -> steps <> [] ->
          es `prefix_of` later cursor (matching subject log)
    end.
Proof.
  intros Hs. revert cursor. induction steps as [|[limit log] steps IH]; intros cursor Hc Hall Hsort.
  { exists [], None. by split. }
  apply Forall_cons in Hall as [(Hl & Hok & Hcl) Hall]. cbn in Hl, Hok, Hcl. rewrite fmap_cons in Hsort.
  apply StronglySorted_inv in Hsort as [Hsort Hpre]. cbn [reads_of fmap list_fmap walk fst snd].
  rewrite list_page_eq by (try done; lia). unfold page_spec.
  rewrite (proj2 (orb_false_iff _ _)) by (split; bool_prop; lia).
  assert (in_range 0 i64_max cursor = true) as ->.
  { destruct Hok as [_ _ Hb]. unfold MAX_APPROVAL_DECISIONS in Hb. unfold in_range. widths. bool_prop. lia. }
  rewrite (proj2 (Z.ltb_ge _ _)) by done. cbn [negb mbind result_bind pg_next_cursor pg_entries].
  fold (later cursor (matching subject log)). set (rest := later cursor (matching subject log)).
  destruct (Z.ltb_spec limit (len rest)) as [Hlt|Hge].
  - assert (exists x, last (take (Z.to_nat limit) rest) = Some x) as [x Hx].
    { destruct (last (take (Z.to_nat limit) rest)) eqn:E; [by eauto|]. apply last_None in E.
      apply (f_equal length) in E. rewrite length_take in E. unfold len in Hlt. cbn in E. lia. }
    rewrite Hx. cbn [fmap option_fmap option_map].
    assert (Hxin : 1 <= en_entry_id x <= len log).
    { apply last_Some in Hx as [k Ek]. assert (x ∈ rest) as [_ [_ ?]%matching_id]%elem_of_filter_rows; [|done].
      rewrite <- (take_drop (Z.to_nat limit) rest), Ek. set_solver. }
    destruct (IH (en_entry_id x)) as (es & ended & Ew & He); [lia| |done|].
    { rewrite Forall_fmap in Hpre. rewrite Forall_forall in *. intros s Hin. specialize (Hall s Hin) as (? & ? & _).
      specialize (Hpre s Hin). cbn in Hpre. apply prefix_length in Hpre. unfold len in *. split_and!; try done; lia. }
    fold (reads_of steps). rewrite Ew. cbn [mbind result_bind]. eexists _, _. split; [done|]. destruct ended as [t|].
    + destruct He as (log' & -> & Hin & ->). exists log'. split; [done|]. split; [set_solver|].
      symmetry. apply page_rest; [|done]. rewrite Forall_forall in Hpre. by apply Hpre.
    + destruct He as [Hlen Hp]. split.
      * rewrite len_cons, len_app. assert (len (take (Z.to_nat limit) rest) = limit) as ->; [|lia].
        unfold len in *. rewrite length_take. lia.
      * intros log' Hf _. apply Forall_cons in Hf as [Hlog Hf]. cbn in Hlog.
        rewrite (page_rest subject cursor (Z.to_nat limit) log log' x) by done. apply prefix_app.
        destruct (decide (steps = [])) as [->|Hne]; [|by apply Hp]. cbn in Ew. injection Ew as <-. apply prefix_nil.
  - eexists _, _. split; [done|]. exists log. split; [done|]. split; [set_solver|].
    rewrite take_ge; [done|]. unfold len in Hge. lia.
Qed.

(** A listing that follows the cursors is complete, over every decision or
    over one subject's, with any page sizes, while other handles keep recording
    between the pages.  No page is refused; a listing that ends has returned
    every matching decision of the ledger as it was at its last page, each once
    and in the order of recording; one that was not followed to its end has
    returned the first of them, at least one a page, so that a reader who does
    not give up comes to the end after as many pages as there are decisions. *)
Theorem listing_complete subject steps :
  subject_ok subject ->
  Forall (fun s => 0 < fst s <= MAX_APPROVAL_PAGE /\ log_ok (snd s)) steps ->
  StronglySorted prefix (snd <$> steps) ->
  exists es ended, walk subject 0 (reads_of steps) = Ok (es, ended) /\
    match ended with
    | Some t => exists log, t = table_of log /\ log ∈ snd <$> steps /\ es = matching subject log
    | None =>
        len steps <= len es /\
        forall log, last (snd <$> steps) = Some log -> es `prefix_of` matching subject log
    end.
Proof.
  intros Hs Hall Hsort. assert (Hl : forall log, later 0 (matching subject log) = matching subject log).
  { intros log. unfold later. apply forallb_filter_id, forallb_forall. intros e [_ ?]%list_elem_of_In%matching_id.
    bool_prop. lia. }
  destruct (walk_eq subject 0 steps Hs ltac:(lia)) as (es & ended & Ew & He); [|done|].
  { eapply Forall_impl; [exact Hall|]. intros s [? ?]. pose proof (len_nonneg (snd s)). done. }
  exists es, ended. split; [done|]. destruct ended as [t|].
  - destruct He as (log & ? & ? & ->). exists log. by rewrite Hl.
  - destruct He as [Hlen Hp]. split; [done|]. intros log Hlast. rewrite <- (Hl log). apply Hp.
    + clear -Hsort Hlast. apply last_Some in Hlast as [k Ek]. rewrite Ek in *. clear Ek.
      induction k as [|x k IH]; [by repeat constructor|]. cbn in *. apply StronglySorted_inv in Hsort as [Hs Hx].
      constructor; [|by apply IH]. rewrite Forall_forall in Hx. apply Hx. set_solver.
    + by intros ->.
Qed.

(** The retained window starts at the first decision. *)
Lemma retained_range_eq log :
  log_ok log ->
  retained_range (table_of log) = Ok (if bool_decide (log = []) then None else Some (mkRange 1 (len log))).
Proof.
  intros [Hr Hk Hb]. unfold retained_range. rewrite table_max. destruct log as [|r log]; [done|].
  rewrite bool_decide_eq_false_2 by done. set (l := r :: log) in *.
  assert (Hl : 1 <= len l) by (unfold l; rewrite len_cons; pose proof (len_nonneg log); lia).
  assert (min_rowid raw_entry_id (table_of l) = Some 1) as ->.
  { unfold min_rowid. rewrite table_ids. rewrite seqZ_cons by lia. f_equal.
    generalize (Z.pred (len l)). intros n.
    assert (Hge : Forall (fun i => 1 <= i) (seqZ (Z.succ 1) n)).
    { apply Forall_forall. intros i Hi%elem_of_seqZ. lia. }
    induction Hge as [|i ids ? _ IH]; [done|]. cbn. lia. }
  unfold checked_row_id. rewrite (proj2 (Z.leb_gt _ _)) by lia. cbn [Z.leb Z.compare mbind result_bind].
  rewrite (proj2 (Z.ltb_ge _ _)) by done. unfold from_db_u64, MAX_APPROVAL_DECISIONS in *.
  rewrite (proj2 (check_u64_Some 1 1)) by (split; [done|mlia]).
  rewrite (proj2 (check_u64_Some (len l) (len l))) by (split; [done|mlia]). done.
Qed.

(** * Witnesses *)

Definition demo_decision (key subject : string) (d : ApprovalDecision) : ApprovalDecisionRecord :=
  mkRecord (str key) (str subject) d (str "operator") 5.

Definition demo_log : Log :=
  [demo_decision "apr-1" "deploy" Denied; demo_decision "apr-2" "restart" Granted;
   demo_decision "apr-3" "deploy" Granted].

Lemma demo_log_ok : log_ok demo_log.
Proof.
  constructor.
  - repeat constructor; try (by vm_compute); vm_compute; discriminate.
  - apply (bool_decide_eq_true_1 _). by vm_compute.
  - vm_compute. discriminate.
Qed.

Lemma record_refines_log_witness :
  exists log', snd (record (H := no_random_rowid) 8 (demo_decision "apr-4" "deploy" Denied) (table_of demo_log))
    = table_of log' /\ log_ok log'.
Proof.
  destruct (@record_refines_log no_random_rowid 8 (demo_decision "apr-4" "deploy" Denied) demo_log _ _
    ltac:(unfold handle_capacity, MAX_APPROVAL_DECISIONS; lia) demo_log_ok (surjective_pairing _)) as (log' & E & _ & Hok & _).
  by exists log'.
Defined.

Lemma decision_is_permanent_witness :
  entry (str "apr-1") (@run no_random_rowid [(8, demo_decision "apr-1" "deploy" Granted)] (table_of demo_log))
  = Ok (Some (entry_of 0 (demo_decision "apr-1" "deploy" Denied))).
Proof.
  apply (@decision_is_permanent no_random_rowid [(8, demo_decision "apr-1" "deploy" Granted)] (table_of demo_log)
    (str "apr-1") (entry_of 0 (demo_decision "apr-1" "deploy" Denied))).
  - exists demo_log. split; [done|exact demo_log_ok].
  - apply Forall_singleton. unfold handle_capacity, MAX_APPROVAL_DECISIONS. cbn. lia.
  - by vm_compute.
Defined.

Lemma listing_complete_witness :
  exists es ended, walk (Some (str "deploy")) 0 (reads_of [(1, take 1 demo_log); (1, demo_log)]) = Ok (es, ended).
Proof.
  assert (Ht : log_ok (take 1 demo_log)).
  { constructor; [|apply NoDup_singleton|vm_compute; discriminate].
    apply Forall_take, demo_log_ok. }
  destruct (listing_complete (Some (str "deploy")) [(1, take 1 demo_log); (1, demo_log)]) as (es & ended & E & _).
  - by vm_compute.
  - apply Forall_cons_2; [|apply Forall_singleton]; (split; [unfold MAX_APPROVAL_PAGE; cbn; lia|]);
      [exact Ht|exact demo_log_ok].
  - repeat constructor. by exists (drop 1 demo_log).
  - by exists es, ended.
Defined.
