(* ===== verification/ApprovalConfig.v ===== *)
(** The configured requirement and lifetime of approvals:
    [automonique-daemon/src/approval_policy.rs].

    Opening the file is the argument of [load]: its metadata, when it exists, and
    its bytes. *)

From S2P Require Import Prelude Text Spool Approval.

Definition CONFIG_HEADER : list Z := str "schema=automonique.approvals/v1".
Definition CONFIG_TERMINATOR : list Z := str "end=automonique.approvals/v1".
Definition MAX_CONFIG_BYTES : Z := 4096.
Definition MIN_TTL_MS : Z := 60 * 1000.
Definition MAX_TTL_MS : Z := 7 * 24 * 60 * 60 * 1000.
Definition DEFAULT_APPROVAL_TTL_MS : Z := 60 * 60 * 1000.
Definition DEFAULT_REMINDER_PERCENT : Z := 50.
Definition DEFAULT_ESCALATION_PERCENT : Z := 80.
Definition DEFAULT_APPROVAL_REQUIREMENT : ApprovalRequirement := Allowed.

Inductive ApprovalPolicyConfigError :=
| Insecure | Unreadable | Malformed | RequirementInvalid | LifetimeInvalid | LadderInvalid.

Definition config_category (e : ApprovalPolicyConfigError) : string :=
  match e with
  | Insecure => "approval_config_insecure"
  | Unreadable => "approval_config_unreadable"
  | Malformed => "approval_config_malformed"
  | RequirementInvalid => "approval_config_requirement_invalid"
  | LifetimeInvalid => "approval_config_lifetime_invalid"
  | LadderInvalid => "approval_config_ladder_invalid"
  end.

(** * Lifetimes *)

Record ApprovalLifetime := mkLifetime {
  ttl_ms : Z;
  reminder_percent : Z;
  escalation_percent : Z
}.

Definition DEFAULT_LIFETIME : ApprovalLifetime :=
  mkLifetime DEFAULT_APPROVAL_TTL_MS DEFAULT_REMINDER_PERCENT DEFAULT_ESCALATION_PERCENT.

Definition expires_at (lt : ApprovalLifetime) (requested_at_ms : Z) : Z := sat_i64 (requested_at_ms + ttl_ms lt).

(** The product is of integers of 64 bits; see [rungs_fit]. *)
Definition rung_at (lt : ApprovalLifetime) (requested_at_ms percent : Z) : Z :=
  sat_i64 (requested_at_ms + ttl_ms lt ÷ 100 * percent).

Definition reminder_at (lt : ApprovalLifetime) (requested_at_ms : Z) : Z :=
  rung_at lt requested_at_ms (reminder_percent lt).

Definition escalation_at (lt : ApprovalLifetime) (requested_at_ms : Z) : Z :=
  rung_at lt requested_at_ms (escalation_percent lt).

(** * The configuration *)

Record ApprovalPolicyConfig := mkConfig {
  cf_requirement : ApprovalRequirement;
  cf_lifetime : ApprovalLifetime
}.

(** [str::parse] of a signed and of an unsigned integer. *)
Definition parse_i64 (t : list Z) : option Z :=
  match t with
  | 45 :: ds => if bool_decide (ds = []) || negb (forallb is_ascii_digit ds) then None else check_i64 (- dec_value ds)
  | 43 :: ds => if bool_decide (ds = []) || negb (forallb is_ascii_digit ds) then None else check_i64 (dec_value ds)
  | ds => if bool_decide (ds = []) || negb (forallb is_ascii_digit ds) then None else check_i64 (dec_value ds)
  end.

Definition parse_u8 (t : list Z) : option Z :=
  let digits := match t with 43 :: ds => ds | _ => t end in
  if bool_decide (digits = []) || negb (forallb is_ascii_digit digits) then None
  else if dec_value digits <=? u8_max then Some (dec_value digits) else None.

Definition percent (value : list Z) : result ApprovalPolicyConfigError Z :=
  parsed ← ok_or (parse_u8 value) LadderInvalid;
  if negb (in_range 1 99 parsed) then Err LadderInvalid else Ok parsed.

(** What the loop over the lines has read. *)
Record Fields := mkFields {
  fl_requirement : option ApprovalRequirement;
  fl_ttl : option Z;
  fl_reminder : option Z;
  fl_escalation : option Z;
  fl_terminated : bool
}.

Definition no_fields : Fields := mkFields None None None None false.

Definition lifetime_value (value : list Z) : result ApprovalPolicyConfigError Z :=
  parsed ← ok_or (parse_i64 value) LifetimeInvalid;
  if negb (in_range MIN_TTL_MS MAX_TTL_MS parsed) then Err LifetimeInvalid else Ok parsed.

Definition key_line (key value : list Z) (f : Fields) : result ApprovalPolicyConfigError Fields :=
  let '(mkFields requirement ttl reminder escalation terminated) := f in
  if bool_decide (key = str "requirement") && bool_decide (requirement = None) then
    r ← ok_or (from_spelling value) RequirementInvalid;
    Ok (mkFields (Some r) ttl reminder escalation terminated)
  else if bool_decide (key = str "ttl_ms") && bool_decide (ttl = None) then
    t ← lifetime_value value; Ok (mkFields requirement (Some t) reminder escalation terminated)
  else if bool_decide (key = str "reminder_percent") && bool_decide (reminder = None) then
    p ← percent value; Ok (mkFields requirement ttl (Some p) escalation terminated)
  else if bool_decide (key = str "escalation_percent") && bool_decide (escalation = None) then
    p ← percent value; Ok (mkFields requirement ttl reminder (Some p) terminated)
  else Err Malformed.

Definition terminate (f : Fields) : Fields :=
  mkFields (fl_requirement f) (fl_ttl f) (fl_reminder f) (fl_escalation f) true.

Definition config_line (line : list Z) (f : Fields) : result ApprovalPolicyConfigError Fields :=
  if fl_terminated f then Err Malformed
  else if bool_decide (line = CONFIG_TERMINATOR) then Ok (terminate f)
  else
    '(key, value) ← ok_or (split_once [61] line) Malformed;
    key_line key value f.

Fixpoint config_lines (lines : list (list Z)) (f : Fields) : result ApprovalPolicyConfigError Fields :=
  match lines with
  | [] => Ok f
  | line :: lines => f ← config_line line f; config_lines lines f
  end.

Definition parse (text : list Z) : result ApprovalPolicyConfigError (option ApprovalPolicyConfig) :=
  match lines text with
  | [] => Err Malformed
  | header :: rest =>
      if negb (bool_decide (header = CONFIG_HEADER)) then Err Malformed
      else
        f ← config_lines rest no_fields;
        if negb (fl_terminated f) then Err Malformed
        else
          let reminder := default DEFAULT_REMINDER_PERCENT (fl_reminder f) in
          let escalation := default DEFAULT_ESCALATION_PERCENT (fl_escalation f) in
          if escalation <=? reminder then Err LadderInvalid
          else
            r ← ok_or (fl_requirement f) RequirementInvalid;
            Ok (Some (mkConfig r (mkLifetime (default DEFAULT_APPROVAL_TTL_MS (fl_ttl f)) reminder escalation)))
  end.

(** What the metadata of the path says: nothing there, not readable, or a file
    that is private or not and has a length. *)
Inductive ConfigFile := Absent | Unstatable | File (private : bool) (length : Z) (bytes : option (list Z)).

Definition load (file : ConfigFile) : result ApprovalPolicyConfigError (option ApprovalPolicyConfig) :=
  match file with
  | Absent => Ok None
  | Unstatable => Err Unreadable
  | File private length bytes =>
      if negb private || (MAX_CONFIG_BYTES <? length) then Err Insecure
      else
        raw ← ok_or bytes Unreadable;
        text ← ok_or (from_utf8 raw) Malformed;
        parse text
  end.

Definition values_or_default (file : ConfigFile)
  : result ApprovalPolicyConfigError (ApprovalRequirement * ApprovalLifetime) :=
  c ← load file;
  Ok match c with
     | Some c => (cf_requirement c, cf_lifetime c)
     | None => (DEFAULT_APPROVAL_REQUIREMENT, DEFAULT_LIFETIME)
     end.

Definition lifetime_or_default (file : ConfigFile) : result ApprovalPolicyConfigError ApprovalLifetime :=
  snd <$> values_or_default file.

Definition requirement_or_default (file : ConfigFile) : result ApprovalPolicyConfigError ApprovalRequirement :=
  fst <$> values_or_default file.

(** * What a configuration may be *)

Definition lifetime_ok (lt : ApprovalLifetime) : Prop :=
  MIN_TTL_MS <= ttl_ms lt <= MAX_TTL_MS /\
  1 <= reminder_percent lt /\ reminder_percent lt < escalation_percent lt /\ escalation_percent lt <= 99.

Lemma DEFAULT_LIFETIME_ok : lifetime_ok DEFAULT_LIFETIME.
Proof. unfold lifetime_ok. cbn. done. Qed.

Lemma in_range_iff lo hi b : in_range lo hi b = true <-> lo <= b <= hi.
Proof. unfold in_range. rewrite andb_true_iff, !Z.leb_le. done. Qed.

Definition fields_ok (f : Fields) : Prop :=
  from_option (fun t => MIN_TTL_MS <= t <= MAX_TTL_MS) True (fl_ttl f) /\
  from_option (fun p => 1 <= p <= 99) True (fl_reminder f) /\
  from_option (fun p => 1 <= p <= 99) True (fl_escalation f).

Lemma percent_range value p : percent value = Ok p -> 1 <= p <= 99.
Proof.
  unfold percent. intros (x & _ & H)%bind_Ok. destruct (in_range 1 99 x) eqn:E; [|done].
  injection H as <-. by apply in_range_iff.
Qed.

Lemma lifetime_range value t : lifetime_value value = Ok t -> MIN_TTL_MS <= t <= MAX_TTL_MS.
Proof.
  unfold lifetime_value. intros (x & _ & H)%bind_Ok. destruct (in_range _ _ x) eqn:E; [|done].
  injection H as <-. by apply in_range_iff.
Qed.

Lemma key_line_ok key value f f' : fields_ok f -> key_line key value f = Ok f' -> fields_ok f'.
Proof.
  destruct f as [r t p q b]. unfold fields_ok, key_line. cbn. intros (H1 & H2 & H3).
  destruct (_ && _); [intros (x & _ & [= <-])%bind_Ok; done|].
  destruct (_ && _); [intros (x & Hx%lifetime_range & [= <-])%bind_Ok; done|].
  destruct (_ && _); [intros (x & Hx%percent_range & [= <-])%bind_Ok; done|].
  destruct (_ && _); [intros (x & Hx%percent_range & [= <-])%bind_Ok; done|done].
Qed.

Lemma config_lines_ok ls f f' : fields_ok f -> config_lines ls f = Ok f' -> fields_ok f'.
Proof.
  revert f. induction ls as [|line ls IH]; intros f Hf; cbn [config_lines]; [by intros [= <-]|].
  intros (g & Hg & H)%bind_Ok. apply (IH g); [|done]. revert Hg. unfold config_line.
  destruct (fl_terminated f); [done|]. case_bool_decide; [intros [= <-]; done|].
  intros ([k v] & _ & Hk)%bind_Ok. by eapply key_line_ok.
Qed.

(** The rungs are computed without leaving the integers of 64 bits. *)
Lemma rungs_fit lt p : lifetime_ok lt -> 1 <= p <= 99 -> 0 < ttl_ms lt ÷ 100 * p < ttl_ms lt.
Proof.
  intros (Ht & _) Hp. assert (600 <= ttl_ms lt ÷ 100 /\ ttl_ms lt ÷ 100 * 100 <= ttl_ms lt) as [H1 H2].
  { unfold MIN_TTL_MS, MAX_TTL_MS in Ht. rewrite Z.quot_div_nonneg by lia.
    pose proof (Z.mul_div_le (ttl_ms lt) 100 ltac:(lia)) as H1.
    pose proof (Z.div_le_mono 60000 (ttl_ms lt) 100 ltac:(lia) ltac:(lia)) as H2.
    change (60000 / 100) with 600 in H2. lia. }
  nia.
Qed.

(** Whatever text is read as a configuration, the lifetime it sets is
    between a minute and a week with rungs strictly inside it: the reminder of
    a proposal comes after it is raised, the escalation after the reminder and
    the deadline after both, all without overflow while the deadline is
    representable; the compiled default has the same shape, and no value of the
    file reads as no expiry. *)
Theorem configured_lifetime_sound file requirement lt now :
  values_or_default file = Ok (requirement, lt) -> 0 <= now -> now + ttl_ms lt <= i64_max ->
  lifetime_ok lt /\ expires_at lt now = now + ttl_ms lt /\
  now < reminder_at lt now /\ reminder_at lt now < escalation_at lt now /\ escalation_at lt now < expires_at lt now.
Proof.
  intros H Hn Hmax. assert (Hlt : lifetime_ok lt).
  { unfold values_or_default in H. apply bind_Ok in H as ([c|] & Hl & [= <- <-]); [|exact DEFAULT_LIFETIME_ok].
    revert Hl. unfold load. destruct file as [| |private length bytes]; [done..|].
    destruct (_ || _); [done|]. intros (raw & _ & (text & _ & Hp)%bind_Ok)%bind_Ok. revert Hp. unfold parse.
    destruct (lines text) as [|header rest]; [done|]. destruct (negb _); [done|].
    intros (f & Hf & Hp)%bind_Ok. apply config_lines_ok in Hf as (H1 & H2 & H3); [|done].
    destruct (negb (fl_terminated f)); [done|]. destruct (_ <=? _) eqn:E; [done|].
    apply bind_Ok in Hp as (r & _ & [= <-]). cbn. bool_prop. unfold lifetime_ok; cbn.
    unfold DEFAULT_APPROVAL_TTL_MS, DEFAULT_REMINDER_PERCENT, DEFAULT_ESCALATION_PERCENT, MIN_TTL_MS, MAX_TTL_MS in *.
    destruct (fl_ttl f), (fl_reminder f), (fl_escalation f); cbn in *; lia. }
  split; [done|]. pose proof Hlt as (Ht & H1 & H2 & H3).
  pose proof (rungs_fit lt (reminder_percent lt) Hlt ltac:(lia)) as Hr.
  pose proof (rungs_fit lt (escalation_percent lt) Hlt ltac:(lia)) as He.
  assert (Hq : 0 < ttl_ms lt ÷ 100) by nia. unfold MIN_TTL_MS, MAX_TTL_MS in Ht.
  unfold expires_at, reminder_at, escalation_at, rung_at, sat_i64. widths.
  rewrite !(Z.min_r i64_max), !(Z.max_r i64_min) by (widths; lia). nia.
Qed.

Definition demo_config : ConfigFile :=
  File true 100 (Some (utf8 (CONFIG_HEADER ++ [10] ++ str "ttl_ms=60000" ++ [10] ++ str "requirement=approval_required"
    ++ [13; 10] ++ str "reminder_percent=+07" ++ [10] ++ CONFIG_TERMINATOR))).

Lemma configured_lifetime_sound_witness :
  values_or_default demo_config = Ok (ApprovalRequired, mkLifetime 60000 7 80) /\
  reminder_at (mkLifetime 60000 7 80) 100 < escalation_at (mkLifetime 60000 7 80) 100.
Proof.
  assert (H : values_or_default demo_config = Ok (ApprovalRequired, mkLifetime 60000 7 80)) by by vm_compute.
  split; [exact H|]. destruct (configured_lifetime_sound demo_config _ _ 100 H) as (_ & _ & _ & Hr & _); [lia|by vm_compute|].
  exact Hr.
Defined.
