(* ===== verification/ApprovalRequests.v ===== *)
(** The table of approval requests: [automonique-store/src/approval_requests.rs]
    and the bell of [automonique-store/src/approval_watch.rs].

    The table is the list of its rows in [request_entry_id] order (see [Table]);
    [RowMap] reads it as a map from request keys to records.  A handle has a
    capacity and may hold a bell; handles that hold one bell share it, so the
    bells are a store of their own and a handle holds a place in it.  Each write
    is one immediate transaction, and rings after it commits. *)

From S2P Require Import Prelude Text Table RowMap.

Definition APPROVAL_REQUEST_SCHEMA_VERSION : Z := 1.
Definition MAX_APPROVAL_REQUESTS : Z := 65536.
Definition MAX_IDENTIFIER_BYTES : Z := 256.
Definition REQUEST_KEY_PREFIX : list Z := str "apr-".
Definition REQUEST_KEY_HEX_BYTES : Z := 32.
Definition REQUEST_KEY_BYTES : Z := str_len REQUEST_KEY_PREFIX + REQUEST_KEY_HEX_BYTES.
Definition DIGEST_HEX_BYTES : Z := 64.
Definition MAX_APPROVAL_REQUEST_PAGE : Z := 256.

(** * The bell *)

(** [ApprovalWatch::new], [observed] and [announce], on the count. *)
Definition watch_new : Z := 0.
Definition watch_observed (announced : Z) : Z := announced.
Definition watch_announce (announced : Z) : Z := sat_u64 (announced + 1).

(** One pass of the waiting loop: the clock when the pass looks at it, and the
    count once the wait it then makes returns. *)
Record Pass := mkPass { pass_now : Z; woken_with : Z }.

(** The loop of [wait_beyond]; [None] while it is waiting still. *)
Fixpoint wait_loop (observed deadline announced : Z) (passes : list Pass) : option Z :=
  if observed <? announced then Some announced
  else match passes with
       | [] => None
       | p :: passes =>
           if deadline <=? pass_now p then Some announced
           else wait_loop observed deadline (woken_with p) passes
       end.

Definition wait_beyond (observed bound started announced : Z) (passes : list Pass) : option Z :=
  wait_loop observed (started + bound) announced passes.

(** * Data *)

Inductive ApprovalRequestError :=
| InsecurePath (reason : list Z)
| SchemaVersion (found supported : Z)
| InvalidField (field : string)
| Conflict (field : string) (request_entry_id : Z)
| UnknownRequest
| StaleRevision
| TableFull (capacity : Z)
| Corrupt (field : string)
| Io
| Sqlite.

Definition category (e : ApprovalRequestError) : string :=
  match e with
  | InsecurePath _ => "insecure_path"
  | SchemaVersion _ _ => "schema_version"
  | InvalidField _ => "invalid_field"
  | Conflict _ _ => "conflict"
  | UnknownRequest => "unknown_request"
  | StaleRevision => "stale_revision"
  | TableFull _ => "table_full"
  | Corrupt _ => "corrupt"
  | Io => "io"
  | Sqlite => "sqlite"
  end.

Inductive ApprovalState := Pending | Granted | Denied | Expired.

Definition ALL_STATES : list ApprovalState := [Pending; Granted; Denied; Expired].

Definition state_as_str (s : ApprovalState) : string :=
  match s with
  | Pending => "pending" | Granted => "granted" | Denied => "denied" | Expired => "expired"
  end.

Definition state_from_spelling (value : list Z) : option ApprovalState :=
  List.find (fun s => bool_decide (str (state_as_str s) = value)) ALL_STATES.

Definition is_pending (s : ApprovalState) : bool := match s with Pending => true | _ => false end.

Inductive ApprovalOutcome := OutcomeGranted | OutcomeDenied.

Definition ALL_OUTCOMES : list ApprovalOutcome := [OutcomeGranted; OutcomeDenied].

Definition outcome_as_str (o : ApprovalOutcome) : string :=
  match o with OutcomeGranted => "granted" | OutcomeDenied => "denied" end.

Definition outcome_from_spelling (value : list Z) : option ApprovalOutcome :=
  List.find (fun o => bool_decide (str (outcome_as_str o) = value)) ALL_OUTCOMES.

Definition outcome_state (o : ApprovalOutcome) : ApprovalState :=
  match o with OutcomeGranted => Granted | OutcomeDenied => Denied end.

Definition outcome_grants (o : ApprovalOutcome) : bool :=
  match o with OutcomeGranted => true | OutcomeDenied => false end.

#[export] Instance ApprovalState_eq_dec : EqDecision ApprovalState.
Proof. solve_decision. Defined.
#[export] Instance ApprovalOutcome_eq_dec : EqDecision ApprovalOutcome.
Proof. solve_decision. Defined.

Record ApprovalContext := mkContext {
  spec_digest : list Z;
  program_path : list Z;
  program_sha256 : list Z;
  prompt_sha256 : list Z;
  cwd_token : list Z
}.

(** The context read back off a row. *)
Definition StoredApprovalContext : Type := ApprovalContext.

#[export] Instance ApprovalContext_eq_dec : EqDecision ApprovalContext.
Proof. solve_decision. Defined.

Record ApprovalProposal := mkProposal {
  pp_request_key : list Z;
  pp_subject : list Z;
  pp_run_id : list Z;
  pp_context : ApprovalContext;
  pp_requested_by : list Z;
  pp_requested_at_ms : Z;
  pp_expires_at_ms : Z
}.

Inductive ProposalDisposition := Proposed | AlreadyProposed.

Definition proposal_as_str (d : ProposalDisposition) : string :=
  match d with Proposed => "proposed" | AlreadyProposed => "already_proposed" end.

Record ProposalReceipt := mkReceipt {
  rc_request_entry_id : Z;
  rc_disposition : ProposalDisposition;
  rc_revision : Z
}.

Record ApprovalRequestRecord := mkRecord {
  rr_request_entry_id : Z;
  rr_request_key : list Z;
  rr_subject : list Z;
  rr_run_id : list Z;
  rr_context : StoredApprovalContext;
  rr_requested_by : list Z;
  rr_requested_at_ms : Z;
  rr_expires_at_ms : Z;
  rr_state : ApprovalState;
  rr_approval_key : option (list Z);
  rr_decided_at_ms : option Z;
  rr_revision : Z
}.

Definition is_answerable_at (r : ApprovalRequestRecord) (now_ms : Z) : bool :=
  is_pending (rr_state r) && (now_ms <? rr_expires_at_ms r).

Record ApprovalRequestPage := mkPage {
  pg_records : list ApprovalRequestRecord;
  pg_next_cursor : option Z
}.

(** A row as it is stored. *)
Record RawRecord := mkRaw {
  raw_request_entry_id : Z;
  raw_request_key : list Z;
  raw_subject : list Z;
  raw_run_id : list Z;
  raw_spec_digest : list Z;
  raw_program_path : list Z;
  raw_program_sha256 : list Z;
  raw_prompt_sha256 : list Z;
  raw_cwd_token : list Z;
  raw_requested_by : list Z;
  raw_requested_at_ms : Z;
  raw_expires_at_ms : Z;
  raw_state : list Z;
  raw_approval_key : option (list Z);
  raw_decided_at_ms : option Z;
  raw_revision : Z
}.

Abbreviation Requested A := (result ApprovalRequestError A).
Abbreviation Rows := (list RawRecord).

(** * Validation *)

Definition lower_hex_byte (b : Z) : bool := is_ascii_digit b || in_range 97 102 b.

Definition validate_request_key (value : list Z) : Requested unit :=
  match strip_prefix REQUEST_KEY_PREFIX value with
  | Some hex =>
      if negb (str_len value =? REQUEST_KEY_BYTES) || negb (forallb lower_hex_byte (utf8 hex))
      then Err (InvalidField "request_key") else Ok tt
  | None => Err (InvalidField "request_key")
  end.

Definition validate_digest (value : list Z) (field : string) : Requested unit :=
  if negb (str_len value =? DIGEST_HEX_BYTES) || negb (forallb lower_hex_byte (utf8 value))
  then Err (InvalidField field) else Ok tt.

Definition validate_identifier (value : list Z) (field : string) : Requested unit :=
  if bool_decide (value = []) || (MAX_IDENTIFIER_BYTES <? str_len value) || existsb is_control value
  then Err (InvalidField field) else Ok tt.

Definition validate_time (value : Z) (field : string) : Requested unit :=
  if value <? 0 then Err (InvalidField field) else Ok tt.

Definition corrupt_field (field : string) : ApprovalRequestError := Corrupt field.

Definition checked_identifier (value : list Z) (field : string) : Requested (list Z) :=
  _ ← map_err (fun _ => corrupt_field field) (validate_identifier value field); Ok value.

Definition checked_digest (value : list Z) (field : string) : Requested (list Z) :=
  _ ← map_err (fun _ => corrupt_field field) (validate_digest value field); Ok value.

Definition checked_request_key (value : list Z) : Requested (list Z) :=
  _ ← map_err (fun _ => corrupt_field "request_key") (validate_request_key value); Ok value.

Definition checked_time (value : Z) (field : string) : Requested Z :=
  _ ← map_err (fun _ => corrupt_field field) (validate_time value field); Ok value.

Definition checked_row_id (value : Z) (field : string) : Requested Z :=
  if value <=? 0 then Err (corrupt_field field) else Ok value.

Definition to_db_u64 (value : Z) (field : string) : Requested Z :=
  ok_or (check_i64 value) (InvalidField field).

Definition to_db_usize (value : Z) : Requested Z := ok_or (check_i64 value) (InvalidField "limit").

Definition from_db_u64 (value : Z) (field : string) : Requested Z :=
  ok_or (check_u64 value) (InvalidField field).

Definition validate_proposal (p : ApprovalProposal) : Requested unit :=
  _ ← validate_request_key (pp_request_key p);
  _ ← validate_identifier (pp_subject p) "subject";
  _ ← validate_identifier (pp_run_id p) "run_id";
  _ ← validate_digest (spec_digest (pp_context p)) "spec_digest";
  _ ← validate_identifier (program_path (pp_context p)) "program_path";
  _ ← validate_digest (program_sha256 (pp_context p)) "program_sha256";
  _ ← validate_digest (prompt_sha256 (pp_context p)) "prompt_sha256";
  _ ← validate_identifier (cwd_token (pp_context p)) "cwd_token";
  _ ← validate_identifier (pp_requested_by p) "requested_by";
  _ ← validate_time (pp_requested_at_ms p) "requested_at_ms";
  _ ← validate_time (pp_expires_at_ms p) "expires_at_ms";
  if pp_expires_at_ms p <=? pp_requested_at_ms p then Err (InvalidField "expires_at_ms") else Ok tt.

(** A column that may be NULL. *)
Definition checked_option {A} (checked : A -> Requested A) (o : option A) : Requested (option A) :=
  match o with
  | Some a => a ← checked a; Ok (Some a)
  | None => Ok None
  end.

(** Which states carry which columns. *)
Definition carries_decision (s : ApprovalState) : bool :=
  match s with Granted | Denied => true | _ => false end.

Definition paired (s : ApprovalState) (approval_key : option (list Z)) (decided_at_ms : option Z) : bool :=
  eqb (is_pending s) (bool_decide (decided_at_ms = None))
  && eqb (carries_decision s) (bool_decide (is_Some approval_key)).

Definition validated_record (raw : RawRecord) : Requested ApprovalRequestRecord :=
  state ← ok_or (state_from_spelling (raw_state raw)) (corrupt_field "state");
  approval_key ← checked_option (fun k => checked_identifier k "approval_key") (raw_approval_key raw);
  decided_at_ms ← checked_option (fun t => checked_time t "decided_at_ms") (raw_decided_at_ms raw);
  if negb (paired state approval_key decided_at_ms) then Err (corrupt_field "state")
  else
    expires_at_ms ← checked_time (raw_expires_at_ms raw) "expires_at_ms";
    requested_at_ms ← checked_time (raw_requested_at_ms raw) "requested_at_ms";
    if expires_at_ms <=? requested_at_ms then Err (corrupt_field "expires_at_ms")
    else
      request_entry_id ← checked_row_id (raw_request_entry_id raw) "request_entry_id";
      request_key ← checked_request_key (raw_request_key raw);
      subject ← checked_identifier (raw_subject raw) "subject";
      run_id ← checked_identifier (raw_run_id raw) "run_id";
      spec_digest ← checked_digest (raw_spec_digest raw) "spec_digest";
      program_path ← checked_identifier (raw_program_path raw) "program_path";
      program_sha256 ← checked_digest (raw_program_sha256 raw) "program_sha256";
      prompt_sha256 ← checked_digest (raw_prompt_sha256 raw) "prompt_sha256";
      cwd_token ← checked_identifier (raw_cwd_token raw) "cwd_token";
      requested_by ← checked_identifier (raw_requested_by raw) "requested_by";
      revision ← map_err (fun _ => corrupt_field "revision") (from_db_u64 (raw_revision raw) "revision");
      Ok (mkRecord request_entry_id request_key subject run_id
            (mkContext spec_digest program_path program_sha256 prompt_sha256 cwd_token)
            requested_by requested_at_ms expires_at_ms state approval_key decided_at_ms revision).

(** * Reading *)

Definition read_by_key (request_key : list Z) (t : Rows) : Requested (option ApprovalRequestRecord) :=
  match lookup_key raw_request_key request_key t with
  | None => Ok None
  | Some raw => e ← validated_record raw; Ok (Some e)
  end.

(** The row count fits its types. *)
Definition count_rows (t : Rows) : Requested Z := Ok (len t).

Definition entry (request_key : list Z) (t : Rows) : Requested (option ApprovalRequestRecord) :=
  _ ← validate_request_key request_key; read_by_key request_key t.

Definition page_limit (limit : Z) : Requested unit :=
  if (limit =? 0) || (MAX_APPROVAL_REQUEST_PAGE <? limit) then Err (InvalidField "limit") else Ok tt.

Definition by_subject (subject : list Z) (t : Rows) : Requested (list ApprovalRequestRecord) :=
  _ ← validate_identifier subject "subject";
  mapM validated_record (List.filter (fun r => bool_decide (raw_subject r = subject)) t).

Definition pending_row (r : RawRecord) : bool := bool_decide (raw_state r = str "pending").

(** [WHERE p ORDER BY request_entry_id LIMIT limit]. *)
Definition select (p : RawRecord -> bool) (limit : Z) (t : Rows) : Requested (list ApprovalRequestRecord) :=
  limit ← to_db_usize limit; mapM validated_record (take (Z.to_nat limit) (List.filter p t)).

Definition expiring_before (now_ms limit : Z) (t : Rows) : Requested (list ApprovalRequestRecord) :=
  _ ← validate_time now_ms "now_ms";
  _ ← page_limit limit;
  select (fun r => pending_row r && (raw_expires_at_ms r <=? now_ms)) limit t.

Definition pending (limit : Z) (t : Rows) : Requested (list ApprovalRequestRecord) :=
  _ ← page_limit limit; select pending_row limit t.

Definition pending_for_run (run_id : list Z) (now_ms limit : Z) (t : Rows)
  : Requested (list ApprovalRequestRecord) :=
  _ ← validate_identifier run_id "run_id";
  _ ← validate_time now_ms "now_ms";
  _ ← page_limit limit;
  select (fun r => bool_decide (raw_run_id r = run_id) && pending_row r && (now_ms <? raw_expires_at_ms r))
    limit t.

Definition page (cursor limit : Z) (t : Rows) : Requested ApprovalRequestPage :=
  _ ← page_limit limit;
  after ← to_db_u64 cursor "cursor";
  records ← select (fun r => after <? raw_request_entry_id r) limit t;
  if len records =? limit then
    match last records with
    | Some r => next ← from_db_u64 (rr_request_entry_id r) "request_entry_id"; Ok (mkPage records (Some next))
    | None => Ok (mkPage records None)
    end
  else Ok (mkPage records None).

Definition request_count (t : Rows) : Requested Z := count_rows t.

Definition state_count (s : ApprovalState) (t : Rows) : Requested Z :=
  Ok (rows_matching (fun r => bool_decide (raw_state r = str (state_as_str s))) t).

(** * Writing *)

(** The bound fields a replay is compared on, in the order a refusal names them. *)
Definition comparisons (recorded : ApprovalRequestRecord) (p : ApprovalProposal) : list (string * bool) :=
  let differs {A} `{EqDecision A} (x y : A) := negb (bool_decide (x = y)) in
  let had := rr_context recorded in
  let has := pp_context p in
  [("subject"%string, differs (rr_subject recorded) (pp_subject p));
   ("run_id"%string, differs (rr_run_id recorded) (pp_run_id p));
   ("spec_digest"%string, differs (spec_digest had) (spec_digest has));
   ("program_path"%string, differs (program_path had) (program_path has));
   ("program_sha256"%string, differs (program_sha256 had) (program_sha256 has));
   ("prompt_sha256"%string, differs (prompt_sha256 had) (prompt_sha256 has));
   ("cwd_token"%string, differs (cwd_token had) (cwd_token has));
   ("requested_by"%string, differs (rr_requested_by recorded) (pp_requested_by p));
   ("expires_at_ms"%string, differs (rr_expires_at_ms recorded) (pp_expires_at_ms p))].

Definition first_difference (recorded : ApprovalRequestRecord) (p : ApprovalProposal) : option string :=
  fst <$> List.find snd (comparisons recorded p).

Definition proposed_row (request_entry_id : Z) (p : ApprovalProposal) : RawRecord :=
  let c := pp_context p in
  mkRaw request_entry_id (pp_request_key p) (pp_subject p) (pp_run_id p) (spec_digest c) (program_path c)
    (program_sha256 c) (prompt_sha256 c) (cwd_token c) (pp_requested_by p) (pp_requested_at_ms p)
    (pp_expires_at_ms p) (str "pending") None None 1.

Section Writers.
Context `{RandomRowid}.

Definition propose_row (p : ApprovalProposal) (capacity : Z) (t : Rows)
  : Requested (ProposalReceipt * Rows) :=
  found ← read_by_key (pp_request_key p) t;
  match found with
  | Some recorded =>
      match first_difference recorded p with
      | Some field => Err (Conflict field (rr_request_entry_id recorded))
      | None => Ok (mkReceipt (rr_request_entry_id recorded) AlreadyProposed (rr_revision recorded), t)
      end
  | None =>
      count ← count_rows t;
      if capacity <=? count then Err (TableFull capacity)
      else
        id ← ok_or (next_rowid raw_request_entry_id t) Sqlite;
        Ok (mkReceipt id Proposed 1, insert_row raw_request_entry_id (proposed_row id p) t)
  end.

Definition propose_body (capacity : Z) (p : ApprovalProposal) (t : Rows)
  : Requested (ProposalReceipt * Rows) :=
  _ ← validate_proposal p; propose_row p capacity t.
End Writers.

(** [WHERE request_key = ? AND revision = ? AND state = 'pending']. *)
Definition fenced (request_key : list Z) (revision : Z) (r : RawRecord) : bool :=
  bool_decide (raw_request_key r = request_key) && ((raw_revision r =? revision) && pending_row r).

(** [SET state, approval_key, decided_at_ms, revision = revision + 1]. *)
Definition moved (state : ApprovalState) (approval_key : option (list Z)) (at_ms : Z) (r : RawRecord)
  : RawRecord :=
  mkRaw (raw_request_entry_id r) (raw_request_key r) (raw_subject r) (raw_run_id r) (raw_spec_digest r)
    (raw_program_path r) (raw_program_sha256 r) (raw_prompt_sha256 r) (raw_cwd_token r)
    (raw_requested_by r) (raw_requested_at_ms r) (raw_expires_at_ms r) (str (state_as_str state))
    approval_key (Some at_ms) (raw_revision r + 1).

(** The update statement: a revision that leaves the integers is a REAL, which a
    STRICT table refuses. *)
Definition execute_move (request_key : list Z) (revision : Z) (f : RawRecord -> RawRecord) (t : Rows)
  : Requested (Z * Rows) :=
  if existsb (fun r => fenced request_key revision r && negb (raw_revision (f r) <=? i64_max)) t
  then Err Sqlite
  else Ok (rows_matching (fenced request_key revision) t, update_rows (fenced request_key revision) f t).

(** What [decide] and [expire] share: the transaction after their validation. *)
Definition move_row (request_key : list Z) (revision : Z) (f : RawRecord -> RawRecord) (t : Rows)
  : Requested (ApprovalRequestRecord * Rows) :=
  found ← read_by_key request_key t;
  if bool_decide (found = None) then Err UnknownRequest
  else
    '(changed, t') ← execute_move request_key revision f t;
    if negb (changed =? 1) then Err StaleRevision
    else
      found ← read_by_key request_key t';
      record ← ok_or found (Corrupt "request_key");
      Ok (record, t').

Definition decide_body (request_key : list Z) (expected_revision : Z) (outcome : ApprovalOutcome)
    (approval_key : list Z) (decided_at_ms : Z) (t : Rows) : Requested (ApprovalRequestRecord * Rows) :=
  _ ← validate_request_key request_key;
  _ ← validate_identifier approval_key "approval_key";
  _ ← validate_time decided_at_ms "decided_at_ms";
  revision ← to_db_u64 expected_revision "revision";
  move_row request_key revision (moved (outcome_state outcome) (Some approval_key) decided_at_ms) t.

(** [expire] leaves the column [approval_key] as it is. *)
Definition expired (at_ms : Z) (r : RawRecord) : RawRecord := moved Expired (raw_approval_key r) at_ms r.

Definition expire_body (request_key : list Z) (expected_revision expired_at_ms : Z) (t : Rows)
  : Requested (ApprovalRequestRecord * Rows) :=
  _ ← validate_request_key request_key;
  _ ← validate_time expired_at_ms "expired_at_ms";
  revision ← to_db_u64 expected_revision "revision";
  move_row request_key revision (expired expired_at_ms) t.

(** [WHERE state != 'pending' AND decided_at_ms < ?1]. *)
Definition prunable (older_than_ms : Z) (r : RawRecord) : bool :=
  negb (pending_row r) && match raw_decided_at_ms r with Some t => t <? older_than_ms | None => false end.

Definition prune_body (older_than_ms : Z) (t : Rows) : Requested (Z * Rows) :=
  _ ← validate_time older_than_ms "older_than_ms";
  Ok (rows_matching (prunable older_than_ms) t, delete_rows (prunable older_than_ms) t).

(** * Handles *)

Record Handle := mkHandle { capacity : Z; watch : option nat }.

(** The database's table and the bells of the process. *)
Record Store := mkStore { table : Rows; bells : list Z }.

(** [announce_to] and [watched]; [ApprovalWatch::new] is a new place. *)
Definition announce_to (w : nat) (h : Handle) : Handle := mkHandle (capacity h) (Some w).

Definition watched (h : Handle) (s : Store) : nat * Handle * Store :=
  match watch h with
  | Some w => (w, h, s)
  | None =>
      let w := length (bells s) in
      (w, mkHandle (capacity h) (Some w), mkStore (table s) (bells s ++ [watch_new]))
  end.

Definition announce (h : Handle) (s : Store) : Store :=
  match watch h with
  | Some w => mkStore (table s) (alter watch_announce w (bells s))
  | None => s
  end.

Definition on_table {A} (body : Rows -> Requested (A * Rows)) (s : Store) : Requested A * Store :=
  let '(answer, t) := transact (body (table s)) (table s) in (answer, mkStore t (bells s)).

(** A transition rings after it commits. *)
Definition transition {A} (h : Handle) (body : Rows -> Requested (A * Rows)) (s : Store) : Requested A * Store :=
  match on_table body s with
  | (Ok a, s) => (Ok a, announce h s)
  | (Err e, s) => (Err e, s)
  end.

Definition propose `{RandomRowid} (h : Handle) (p : ApprovalProposal) (s : Store)
  : Requested ProposalReceipt * Store :=
  on_table (propose_body (capacity h) p) s.

Definition decide (h : Handle) (request_key : list Z) (expected_revision : Z) (outcome : ApprovalOutcome)
    (approval_key : list Z) (decided_at_ms : Z) (s : Store) : Requested ApprovalRequestRecord * Store :=
  transition h (decide_body request_key expected_revision outcome approval_key decided_at_ms) s.

Definition expire (h : Handle) (request_key : list Z) (expected_revision expired_at_ms : Z) (s : Store)
  : Requested ApprovalRequestRecord * Store :=
  transition h (expire_body request_key expected_revision expired_at_ms) s.

Definition prune (h : Handle) (older_than_ms : Z) (s : Store) : Requested Z * Store :=
  on_table (prune_body older_than_ms) s.

(** * Opening *)

(** The database file: its [user_version], how many objects its schema has and
    the table, if it is there. *)
Record Database := mkDatabase {
  user_version : Z;
  schema_objects : Z;
  approval_requests : option Rows
}.

Definition initialize_or_validate_schema (db : Database) : Requested Database :=
  if user_version db =? APPROVAL_REQUEST_SCHEMA_VERSION then Ok db
  else if negb (user_version db =? 0)
  then Err (SchemaVersion (user_version db) APPROVAL_REQUEST_SCHEMA_VERSION)
  else if negb (schema_objects db =? 0)
  then Err (SchemaVersion 0 APPROVAL_REQUEST_SCHEMA_VERSION)
  else Ok (mkDatabase APPROVAL_REQUEST_SCHEMA_VERSION 3 (Some [])).

(** [secured] and [secured_again] are the two checks of the path, [opened] is
    creating the file when it is absent and opening it. *)
Definition open_with_capacity (capacity : Z) (secured secured_again : Requested unit)
    (opened : Requested Database) : Requested (Handle * Database) :=
  if (capacity =? 0) || (MAX_APPROVAL_REQUESTS <? capacity) then Err (InvalidField "capacity")
  else
    _ ← secured;
    _ ← secured_again;
    db ← opened;
    db ← initialize_or_validate_schema db;
    Ok (mkHandle capacity None, db).

Definition open (secured secured_again : Requested unit) (opened : Requested Database)
  : Requested (Handle * Database) :=
  open_with_capacity MAX_APPROVAL_REQUESTS secured secured_again opened.

(** * Rows the operations believe *)

Definition identifier_ok (value : list Z) : bool :=
  negb (bool_decide (value = [])) && (str_len value <=? MAX_IDENTIFIER_BYTES)
  && negb (existsb is_control value).

Definition digest_ok (value : list Z) : bool :=
  (str_len value =? DIGEST_HEX_BYTES) && forallb lower_hex_byte (utf8 value).

Definition request_key_ok (value : list Z) : bool :=
  match strip_prefix REQUEST_KEY_PREFIX value with
  | Some hex => (str_len value =? REQUEST_KEY_BYTES) && forallb lower_hex_byte (utf8 hex)
  | None => false
  end.

Record context_ok (c : ApprovalContext) : Prop := mkContextOk {
  co_spec : digest_ok (spec_digest c) = true;
  co_program : identifier_ok (program_path c) = true;
  co_program_sha256 : digest_ok (program_sha256 c) = true;
  co_prompt_sha256 : digest_ok (prompt_sha256 c) = true;
  co_cwd : identifier_ok (cwd_token c) = true
}.

Record record_ok (r : ApprovalRequestRecord) : Prop := mkRecordOk {
  ro_id : 0 < rr_request_entry_id r;
  ro_key : request_key_ok (rr_request_key r) = true;
  ro_subject : identifier_ok (rr_subject r) = true;
  ro_run : identifier_ok (rr_run_id r) = true;
  ro_context : context_ok (rr_context r);
  ro_requester : identifier_ok (rr_requested_by r) = true;
  ro_window : 0 <= rr_requested_at_ms r < rr_expires_at_ms r;
  ro_paired : paired (rr_state r) (rr_approval_key r) (rr_decided_at_ms r) = true;
  ro_approval_key : from_option (fun k => identifier_ok k = true) True (rr_approval_key r);
  ro_decided : from_option (fun t => 0 <= t) True (rr_decided_at_ms r);
  ro_revision : in_u64 (rr_revision r)
}.

Definition row_of (r : ApprovalRequestRecord) : RawRecord :=
  let c := rr_context r in
  mkRaw (rr_request_entry_id r) (rr_request_key r) (rr_subject r) (rr_run_id r) (spec_digest c)
    (program_path c) (program_sha256 c) (prompt_sha256 c) (cwd_token c) (rr_requested_by r)
    (rr_requested_at_ms r) (rr_expires_at_ms r) (str (state_as_str (rr_state r))) (rr_approval_key r)
    (rr_decided_at_ms r) (rr_revision r).

Lemma state_from_spelling_Some s st : state_from_spelling s = Some st <-> s = str (state_as_str st).
Proof.
  unfold state_from_spelling. cbn [ALL_STATES List.find].
  destruct st; repeat case_bool_decide; subst; split; intros E; try done; try congruence.
Qed.

Lemma valid_identifier value field :
  validate_identifier value field = if identifier_ok value then Ok tt else Err (InvalidField field).
Proof.
  unfold validate_identifier, identifier_ok. rewrite (Z.ltb_antisym (str_len value)).
  by destruct (bool_decide _), (str_len value <=? _), (existsb _ _).
Qed.

Lemma valid_digest value field :
  validate_digest value field = if digest_ok value then Ok tt else Err (InvalidField field).
Proof. unfold validate_digest, digest_ok. by destruct (_ =? _), (forallb _ _). Qed.

Lemma valid_request_key value :
  validate_request_key value = if request_key_ok value then Ok tt else Err (InvalidField "request_key").
Proof.
  unfold validate_request_key, request_key_ok. destruct (strip_prefix _ _); [|done].
  by destruct (_ =? _), (forallb _ _).
Qed.

Lemma checked_if {A} (b : bool) e field (value a : A) :
  (_ ← map_err (fun _ => corrupt_field field) (if b then Ok tt else Err (e : ApprovalRequestError)); Ok value) = Ok a <->
  b = true /\ a = value.
Proof. destruct b; cbn; naive_solver. Qed.

Lemma checked_identifier_Ok value field a :
  checked_identifier value field = Ok a <-> identifier_ok value = true /\ a = value.
Proof. unfold checked_identifier. rewrite valid_identifier. apply checked_if. Qed.

Lemma checked_digest_Ok value field a :
  checked_digest value field = Ok a <-> digest_ok value = true /\ a = value.
Proof. unfold checked_digest. rewrite valid_digest. apply checked_if. Qed.

Lemma checked_request_key_Ok value a :
  checked_request_key value = Ok a <-> request_key_ok value = true /\ a = value.
Proof. unfold checked_request_key. rewrite valid_request_key. apply checked_if. Qed.

Lemma checked_time_Ok value field a : checked_time value field = Ok a <-> 0 <= value /\ a = value.
Proof. unfold checked_time, validate_time. case_match; bool_prop; cbn; naive_solver lia. Qed.

Lemma checked_row_id_Ok value field a : checked_row_id value field = Ok a <-> 0 < value /\ a = value.
Proof. unfold checked_row_id. case_match; bool_prop; naive_solver lia. Qed.

Lemma checked_revision_Ok value a :
  map_err (fun _ => corrupt_field "revision") (from_db_u64 value "revision") = Ok a <-> in_u64 value /\ a = value.
Proof.
  unfold from_db_u64. destruct (check_u64 value) as [z|] eqn:E; cbn.
  - apply check_u64_Some in E as [-> E]. naive_solver.
  - split; [done|]. intros [H _]. by rewrite (proj2 (check_u64_Some value value)) in E.
Qed.

Lemma checked_option_Ok {A} (checked : A -> Requested A) (P : A -> Prop) o a :
  (forall x b, checked x = Ok b <-> P x /\ b = x) ->
  checked_option checked o = Ok a <-> from_option P True o /\ a = o.
Proof.
  intros H. destruct o as [x|]; cbn; [|naive_solver]. rewrite bind_Ok. setoid_rewrite H. naive_solver.
Qed.

Lemma guard_Ok {A} (b : bool) e (m : Requested A) a : (if b then Err e else m) = Ok a <-> b = false /\ m = Ok a.
Proof. destruct b; naive_solver. Qed.

(** What validation accepts are the rows of valid records, and it answers the record. *)
Lemma validated_record_Ok raw e : validated_record raw = Ok e <-> raw = row_of e /\ record_ok e.
Proof.
  unfold validated_record. do 2 (setoid_rewrite bind_Ok).
  split.
  - intros (st & Est%ok_or_Ok%state_from_spelling_Some & k & Ek & R).
    rewrite checked_option_Ok in Ek by (intros; apply checked_identifier_Ok). destruct Ek as [Hk ->].
    rewrite bind_Ok in R. destruct R as (tm & Et & R).
    rewrite checked_option_Ok in Et by (intros; apply checked_time_Ok). destruct Et as [Ht ->].
    apply guard_Ok in R as [Hp%negb_false_iff R].
    do 2 (apply bind_Ok in R as (? & [? ->]%checked_time_Ok & R)).
    apply guard_Ok in R as [Hw R].
    apply bind_Ok in R as (? & [? ->]%checked_row_id_Ok & R).
    apply bind_Ok in R as (? & [? ->]%checked_request_key_Ok & R).
    do 2 (apply bind_Ok in R as (? & [? ->]%checked_identifier_Ok & R)).
    apply bind_Ok in R as (? & [? ->]%checked_digest_Ok & R).
    apply bind_Ok in R as (? & [? ->]%checked_identifier_Ok & R).
    do 2 (apply bind_Ok in R as (? & [? ->]%checked_digest_Ok & R)).
    do 2 (apply bind_Ok in R as (? & [? ->]%checked_identifier_Ok & R)).
    apply bind_Ok in R as (? & [? ->]%checked_revision_Ok & R). injection R as <-.
    destruct raw; cbn in *; subst. split; [done|]. bool_prop.
    constructor; cbn; done.
  - intros [-> H]. destruct H as [Hid Hkey Hs Hr [C1 C2 C3 C4 C5] Hq Hw Hp Hk Ht Hv].
    destruct e as [id key su ru [c1 c2 c3 c4 c5] rq at_ ex st k tm rev]; cbn in *.
    exists st. split; [by apply ok_or_Ok, state_from_spelling_Some|].
    exists k. split; [by apply (checked_option_Ok _ (fun k => identifier_ok k = true)); [intros; apply checked_identifier_Ok|]|].
    apply bind_Ok. exists tm.
    split; [by apply (checked_option_Ok _ (fun t => 0 <= t)); [intros; apply checked_time_Ok|]|].
    apply guard_Ok. split; [by rewrite Hp|].
    apply bind_Ok. exists ex. split; [apply checked_time_Ok; split; [lia|done]|].
    apply bind_Ok. exists at_. split; [apply checked_time_Ok; split; [lia|done]|].
    apply guard_Ok. split; [mlia|].
    rewrite (proj2 (checked_row_id_Ok id _ id)), (proj2 (checked_request_key_Ok key key)),
      (proj2 (checked_identifier_Ok su _ su)), (proj2 (checked_identifier_Ok ru _ ru)),
      (proj2 (checked_digest_Ok c1 _ c1)), (proj2 (checked_identifier_Ok c2 _ c2)),
      (proj2 (checked_digest_Ok c3 _ c3)), (proj2 (checked_digest_Ok c4 _ c4)),
      (proj2 (checked_identifier_Ok c5 _ c5)), (proj2 (checked_identifier_Ok rq _ rq)) by done.
    cbn. by rewrite (proj2 (checked_revision_Ok rev rev)).
Qed.

(** * The table as a map from keys to records *)

#[export] Instance request_codec : RowCodec RawRecord ApprovalRequestRecord ApprovalRequestError (list Z) := {
  codec_id := raw_request_entry_id;
  codec_key := raw_request_key;
  codec_validate := validated_record;
  codec_row := row_of;
  codec_ok := record_ok
}.

#[export] Instance request_codec_laws :
  RowCodecLaws RawRecord ApprovalRequestRecord ApprovalRequestError (list Z).
Proof. split; [exact validated_record_Ok|]. intros e H. apply H. Qed.

Abbreviation Entries := (gmap (list Z) ApprovalRequestRecord).

Definition entries_of (t : Rows) : Entries := entries t.

(** The revision says whether the row has moved. *)
Definition revision_ok (r : RawRecord) : Prop := raw_revision r = if pending_row r then 1 else 2.

(** A table as its own writers leave it. *)
Record table_ok (t : Rows) : Prop := mkTableOk {
  to_rows : rows_ok t;
  to_revisions : Forall revision_ok t;
  to_ids : Forall (fun r => raw_request_entry_id r <= i64_max) t
}.

Lemma pending_row_of e : pending_row (row_of e) = is_pending (rr_state e).
Proof. unfold pending_row. cbn. by destruct (rr_state e). Qed.

Lemma entry_in_table t key e :
  table_ok t -> entries_of t !! key = Some e ->
  row_of e ∈ t /\ rr_request_key e = key /\ record_ok e /\
  rr_revision e = if is_pending (rr_state e) then 1 else 2.
Proof.
  intros [Hr Hv _] H. apply (entries_Some t key e Hr) in H as (Hin & Hk & Hok). split_and!; [done..|].
  rewrite Forall_forall in Hv. specialize (Hv _ Hin). unfold revision_ok in Hv. by rewrite pending_row_of in Hv.
Qed.

Lemma read_by_key_table t key : table_ok t -> read_by_key key t = Ok (entries_of t !! key).
Proof. intros [[_ _ Hv] _ _]. exact (read_by_key_eq t key Hv). Qed.

(** * The promise of the table, on the map alone *)

Inductive Call :=
| CallPropose (p : ApprovalProposal)
| CallDecide (request_key : list Z) (expected_revision : Z) (outcome : ApprovalOutcome)
    (approval_key : list Z) (decided_at_ms : Z)
| CallExpire (request_key : list Z) (expected_revision expired_at_ms : Z)
| CallPrune (older_than_ms : Z).

Inductive Answer :=
| AnsReceipt (r : ProposalReceipt)
| AnsMoved (r : ApprovalRequestRecord)
| AnsPruned (removed : Z).

Definition answering {A} (f : A -> Answer) (r : Requested A * Store) : Requested Answer * Store :=
  (f <$> fst r, snd r).

Definition run_call `{RandomRowid} (h : Handle) (c : Call) (s : Store) : Requested Answer * Store :=
  match c with
  | CallPropose p => answering AnsReceipt (propose h p s)
  | CallDecide key rev o akey at_ms => answering AnsMoved (decide h key rev o akey at_ms s)
  | CallExpire key rev at_ms => answering AnsMoved (expire h key rev at_ms s)
  | CallPrune t => answering AnsPruned (prune h t s)
  end.

Definition proposed (id : Z) (p : ApprovalProposal) : ApprovalRequestRecord :=
  mkRecord id (pp_request_key p) (pp_subject p) (pp_run_id p) (pp_context p) (pp_requested_by p)
    (pp_requested_at_ms p) (pp_expires_at_ms p) Pending None None 1.

(** The move out of pending; the identity, the binding and the deadline stay. *)
Definition answered (st : ApprovalState) (akey : option (list Z)) (at_ms : Z) (e : ApprovalRequestRecord)
  : ApprovalRequestRecord :=
  mkRecord (rr_request_entry_id e) (rr_request_key e) (rr_subject e) (rr_run_id e) (rr_context e)
    (rr_requested_by e) (rr_requested_at_ms e) (rr_expires_at_ms e) st akey (Some at_ms) 2.

Definition spec_propose (capacity : Z) (alloc : option Z) (p : ApprovalProposal) (m : Entries)
  : Requested Answer * Entries :=
  match validate_proposal p, m !! pp_request_key p with
  | Err e, _ => (Err e, m)
  | Ok _, Some e =>
      (match first_difference e p with
       | Some field => Err (Conflict field (rr_request_entry_id e))
       | None => Ok (AnsReceipt (mkReceipt (rr_request_entry_id e) AlreadyProposed (rr_revision e)))
       end, m)
  | Ok _, None =>
      if capacity <=? Z.of_nat (size m) then (Err (TableFull capacity), m)
      else match alloc with
           | None => (Err Sqlite, m)
           | Some id =>
               (Ok (AnsReceipt (mkReceipt id Proposed 1)), <[pp_request_key p := proposed id p]> m)
           end
  end.

Definition spec_move (key : list Z) (rev : Z) (f : ApprovalRequestRecord -> ApprovalRequestRecord) (m : Entries)
  : Requested Answer * Entries :=
  match m !! key with
  | None => (Err UnknownRequest, m)
  | Some e =>
      if is_pending (rr_state e) && (rev =? 1) then (Ok (AnsMoved (f e)), <[key := f e]> m)
      else (Err StaleRevision, m)
  end.

(** The first refused argument of a transition. *)
Definition move_refusal (key : list Z) (akey : option (list Z)) (at_ms : Z) (field : string) (rev : Z)
  : option string :=
  if negb (request_key_ok key) then Some "request_key"%string
  else if negb (from_option identifier_ok true akey) then Some "approval_key"%string
  else if at_ms <? 0 then Some field
  else if negb (in_range i64_min i64_max rev) then Some "revision"%string
  else None.

Definition spec_call (capacity : Z) (alloc : option Z) (c : Call) (m : Entries) : Requested Answer * Entries :=
  match c with
  | CallPropose p => spec_propose capacity alloc p m
  | CallDecide key rev o akey at_ms =>
      match move_refusal key (Some akey) at_ms "decided_at_ms" rev with
      | Some field => (Err (InvalidField field), m)
      | None => spec_move key rev (answered (outcome_state o) (Some akey) at_ms) m
      end
  | CallExpire key rev at_ms =>
      match move_refusal key None at_ms "expired_at_ms" rev with
      | Some field => (Err (InvalidField field), m)
      | None => spec_move key rev (answered Expired None at_ms) m
      end
  | CallPrune t =>
      if t <? 0 then (Err (InvalidField "older_than_ms"), m)
      else
        let m' := filter (fun ke => prunable t (row_of (snd ke)) = false) m in
        (Ok (AnsPruned (Z.of_nat (size m) - Z.of_nat (size m'))), m')
  end.

(** Which answers ring. *)
Definition rings (r : Requested Answer) : bool := match r with Ok (AnsMoved _) => true | _ => false end.

Definition rung (h : Handle) (ring : bool) (bells : list Z) : list Z :=
  match watch h with
  | Some w => if ring then alter watch_announce w bells else bells
  | None => bells
  end.

(** * The table keeps the promise *)

(** A transaction's body does to the table what [spec] does to the map. *)
Definition implements {A} (f : A -> Answer) (body : Rows -> Requested (A * Rows))
    (spec : Entries -> Requested Answer * Entries) (t : Rows) : Prop :=
  match body t with
  | Ok (a, t') => spec (entries_of t) = (Ok (f a), entries_of t') /\ table_ok t'
  | Err e => spec (entries_of t) = (Err e, entries_of t)
  end.

Lemma read_same (t : Rows) (ok_t : table_ok t) : Z.of_nat (size (entries_of t)) = len t.
Proof. apply entries_size, ok_t. Qed.

Lemma if_Ok (b : bool) (x : ApprovalRequestError) u : (if b then Ok tt else Err x) = Ok u -> b = true.
Proof. by destruct b. Qed.

Lemma time_Ok value field u : validate_time value field = Ok u -> 0 <= value.
Proof. unfold validate_time. case_match; bool_prop; [done|lia]. Qed.

Lemma proposed_ok p id : validate_proposal p = Ok tt -> 0 < id -> record_ok (proposed id p).
Proof.
  unfold validate_proposal. rewrite valid_request_key, !valid_identifier, !valid_digest. intros R Hid.
  do 9 (apply bind_Ok in R as (? & ?%if_Ok & R)). do 2 (apply bind_Ok in R as (? & ?%time_Ok & R)).
  apply guard_Ok in R as [Hw _]. bool_prop. constructor; try assumption; try exact I; done.
Qed.

Lemma proposed_row_of id p : proposed_row id p = row_of (proposed id p).
Proof. by destruct p. Qed.

Lemma insert_revisions r t :
  revision_ok r -> Forall revision_ok t -> Forall revision_ok (insert_row raw_request_entry_id r t).
Proof. intros. rewrite insert_row_perm. by constructor. Qed.

Lemma propose_implements `{RandomRowidLaws} cap p t :
  table_ok t ->
  implements AnsReceipt (propose_body cap p) (spec_propose cap (next_rowid raw_request_entry_id t) p) t.
Proof.
  intros Hok. unfold implements, propose_body, spec_propose.
  destruct (validate_proposal p) as [[]|] eqn:Ev; [|done]. cbn [mbind result_bind].
  unfold propose_row. rewrite read_by_key_table by done. cbn [mbind result_bind].
  destruct (entries_of t !! pp_request_key p) as [e|] eqn:E.
  - destruct (first_difference e p); [done|]. by split.
  - unfold count_rows. cbn [mbind result_bind]. rewrite read_same by done. destruct (cap <=? len t); [done|].
    destruct (next_rowid raw_request_entry_id t) as [id|] eqn:En; [|done]. cbn [ok_or mbind result_bind].
    rewrite proposed_row_of. destruct Hok as [Hr Hv Hi].
    assert (0 < id <= i64_max) as [Hid Hmax] by exact (next_rowid_range raw_request_entry_id t id (rows_ok_ids t Hr) En).
    pose proof (next_rowid_fresh _ _ _ En) as Hf.
    destruct (entries_insert t (proposed id p) Hr (proposed_ok p id Ev Hid) Hf E) as [Hr' He].
    split; [|constructor; [exact Hr'|by apply insert_revisions|rewrite insert_row_perm; by constructor]].
    unfold entries_of. f_equal. symmetry. exact He.
Qed.

(** A move that keeps the identity, applied to a pending row. *)
Record a_move (f : RawRecord -> RawRecord) (g : ApprovalRequestRecord -> ApprovalRequestRecord) : Prop := mkMove {
  mv_id r : raw_request_entry_id (f r) = raw_request_entry_id r;
  mv_key r : raw_request_key (f r) = raw_request_key r;
  mv_revision r : raw_revision (f r) = raw_revision r + 1;
  mv_leaves r : pending_row (f r) = false;
  mv_row e : record_ok e -> is_pending (rr_state e) = true -> rr_revision e = 1 ->
    f (row_of e) = row_of (g e) /\ record_ok (g e)
}.

Lemma pending_fields e :
  record_ok e -> is_pending (rr_state e) = true -> rr_approval_key e = None /\ rr_decided_at_ms e = None.
Proof.
  intros [_ _ _ _ _ _ _ Hp _ _ _]. revert Hp. unfold paired. destruct (rr_state e); cbn; try done.
  destruct (rr_approval_key e), (rr_decided_at_ms e); done.
Qed.

Lemma decide_move st akey at_ms :
  carries_decision st = true -> identifier_ok akey = true -> 0 <= at_ms ->
  a_move (moved st (Some akey) at_ms) (answered st (Some akey) at_ms).
Proof.
  intros Hs Hk Ht. constructor; try done.
  - intros r. unfold pending_row. cbn. by destruct st.
  - intros e He Hp Hv. split; [unfold moved, answered, row_of; cbn; by rewrite Hv|].
    destruct He. constructor; cbn; try done. unfold paired. cbn. by destruct st.
Qed.

Lemma expire_move at_ms : 0 <= at_ms -> a_move (expired at_ms) (answered Expired None at_ms).
Proof.
  intros Ht. constructor; try done. intros e He Hp Hv.
  destruct (pending_fields e He Hp) as [Hk _].
  split; [unfold expired, moved, answered, row_of; cbn; by rewrite Hv, Hk|].
  destruct He. constructor; cbn; done.
Qed.

Lemma move_revisions f g key rev t :
  a_move f g -> Forall revision_ok t -> Forall revision_ok (update_rows (fenced key rev) f t).
Proof.
  intros Hm Ht. unfold update_rows. apply Forall_fmap. eapply Forall_impl; [exact Ht|]. intros r Hr. cbn.
  destruct (fenced key rev r) eqn:F; [|done]. unfold revision_ok. rewrite (mv_leaves _ _ Hm), (mv_revision _ _ Hm).
  unfold fenced in F. bool_prop. destruct F as (_ & _ & F). unfold revision_ok in Hr. rewrite F in Hr. lia.
Qed.

Lemma move_fits f g key rev t :
  a_move f g -> Forall revision_ok t ->
  existsb (fun r => fenced key rev r && negb (raw_revision (f r) <=? i64_max)) t = false.
Proof.
  intros Hm Ht. apply not_true_iff_false. rewrite existsb_exists. intros (r & Hin & Hr).
  apply list_elem_of_In in Hin. rewrite Forall_forall in Ht. specialize (Ht r Hin). unfold revision_ok in Ht.
  rewrite (mv_revision _ _ Hm) in Hr. bool_prop. widths. destruct Hr as [_ Hr]. destruct (pending_row r); lia.
Qed.

(** The rows the fence names: the row of the key, when it is pending and at the revision. *)
Lemma fenced_row key rev t e :
  table_ok t -> entries_of t !! key = Some e ->
  fenced key rev (row_of e) = is_pending (rr_state e) && (rev =? 1) /\
  rows_matching (fenced key rev) t = if is_pending (rr_state e) && (rev =? 1) then 1 else 0.
Proof.
  intros Hok E. destruct (entry_in_table _ _ _ Hok E) as (Hin & Hk & _ & Hv).
  assert (F : (raw_revision (row_of e) =? rev) && pending_row (row_of e) = is_pending (rr_state e) && (rev =? 1)).
  { rewrite pending_row_of. cbn. rewrite Hv. destruct (is_pending _); [|by rewrite andb_false_r].
    by rewrite andb_true_r, Z.eqb_sym. }
  destruct Hok as [[_ Hu _] _ _]. split.
  - unfold fenced. rewrite F. rewrite bool_decide_eq_true_2 by done. done.
  - unfold fenced. etrans; [exact (rows_matching_key t key (fun r => (raw_revision r =? rev) && pending_row r) Hu)|].
    rewrite (proj2 (lookup_key_Some codec_key key t (row_of e) Hu)) by done. by rewrite F.
Qed.

Lemma move_implements f g key rev t :
  table_ok t -> a_move f g -> (forall e, rr_request_key (g e) = rr_request_key e) ->
  implements AnsMoved (move_row key rev f) (spec_move key rev g) t.
Proof.
  intros Hok Hm Hg. unfold implements, move_row, spec_move. rewrite read_by_key_table by done.
  cbn [mbind result_bind]. destruct (entries_of t !! key) as [e|] eqn:E; [|done].
  rewrite bool_decide_eq_false_2 by done. unfold execute_move. rewrite (move_fits f g) by (done || apply Hok).
  cbn [mbind result_bind]. destruct (fenced_row key rev t e Hok E) as [F ->].
  destruct (is_pending (rr_state e) && (rev =? 1)) eqn:P; [|done]. change (negb (1 =? 1)) with false. cbn [negb].
  destruct (entry_in_table _ _ _ Hok E) as (Hin & Hk & Hre & Hv). bool_prop. destruct P as [P ->].
  rewrite P in Hv. destruct (mv_row _ _ Hm e Hre P Hv) as [Hrow Hg'].
  destruct (entries_update t (fenced key 1) f (fun e' => if bool_decide (rr_request_key e' = key) then g e' else e')
    (to_rows t Hok) (mv_id _ _ Hm) (mv_key _ _ Hm)) as [Hr' He'].
  { intros e' Hok' Hin' F'. unfold fenced in F'. bool_prop. destruct F' as (Ek & Er & Ep).
    rewrite bool_decide_eq_true_2 by done. apply (mv_row _ _ Hm); [done| |done].
    rewrite <- pending_row_of. exact Ep. }
  assert (Hm' : entries_of (update_rows (fenced key 1) f t) = <[key := g e]> (entries_of t)).
  { unfold entries_of. etrans; [exact He'|]. apply map_eq. intros k. rewrite lookup_fmap.
    destruct (base.decide (k = key)) as [->|Hne].
    - rewrite lookup_insert_eq. unfold entries_of in E. rewrite E. cbn. rewrite F.
      by rewrite bool_decide_eq_true_2.
    - rewrite lookup_insert_ne by done. destruct (entries t !! k) as [e'|] eqn:E'; [|done]. cbn.
      apply (entry_in_table t k e' Hok) in E' as (_ & <- & _). rewrite bool_decide_eq_false_2 by done.
      by case_match. }
  assert (Hok' : table_ok (update_rows (fenced key 1) f t)).
  { constructor; [exact Hr'|apply (move_revisions f g); [done|apply Hok]|].
    unfold update_rows. apply Forall_fmap. eapply Forall_impl; [exact (to_ids t Hok)|]. intros r Hr. cbn.
    case_match; [by rewrite (mv_id _ _ Hm)|done]. }
  rewrite read_by_key_table by done. rewrite Hm', lookup_insert_eq. cbn [mbind result_bind ok_or].
  split; [by rewrite Hm'|done].
Qed.

Lemma prune_implements older t :
  table_ok t ->
  implements AnsPruned (prune_body older) (spec_call 0 None (CallPrune older)) t.
Proof.
  intros Hok. unfold implements, prune_body. cbn [spec_call]. unfold validate_time.
  destruct (older <? 0); [done|]. cbn [mbind result_bind].
  destruct (entries_delete t (prunable older) (to_rows t Hok)) as [Hr He].
  assert (Hok' : table_ok (delete_rows (prunable older) t)).
  { destruct Hok as [_ Hv Hi]. constructor; [done|..]; rewrite Forall_forall in *;
    intros r [_ Hin]%elem_of_delete_rows; auto. }
  pose proof (read_same t Hok) as Hs. pose proof (read_same _ Hok') as Hs'. split; [|done].
  change (filter _ (entries_of t)) with (filter (fun ke => prunable older (codec_row ke.2) = false) (entries t)).
  rewrite <- He. unfold entries_of in *. rewrite Hs, Hs', len_delete_rows. do 3 f_equal. lia.
Qed.

(** A call without its handle's bell: what it does in its transaction. *)
Definition call_implements `{RandomRowid} (h : Handle) (c : Call) (t : Rows) : Prop :=
  let spec := spec_call (capacity h) (next_rowid raw_request_entry_id t) c in
  match c with
  | CallPropose p => implements AnsReceipt (propose_body (capacity h) p) spec t
  | CallDecide key rev o akey at_ms => implements AnsMoved (decide_body key rev o akey at_ms) spec t
  | CallExpire key rev at_ms => implements AnsMoved (expire_body key rev at_ms) spec t
  | CallPrune older => implements AnsPruned (prune_body older) spec t
  end.

Lemma to_db_revision rev :
  to_db_u64 rev "revision" = if in_range i64_min i64_max rev then Ok rev else Err (InvalidField "revision").
Proof. unfold to_db_u64, check_i64, in_range. by destruct (_ && _). Qed.

Lemma call_refines `{RandomRowidLaws} h c t : table_ok t -> call_implements h c t.
Proof.
  intros Hok. destruct c as [p|key rev o akey at_ms|key rev at_ms|older]; cbn [call_implements].
  - by apply propose_implements.
  - unfold implements, decide_body, spec_call, move_refusal. rewrite valid_request_key, valid_identifier, to_db_revision.
    unfold validate_time. cbn [from_option].
    destruct (request_key_ok key); [|done]. destruct (identifier_ok akey) eqn:Ha; [|done].
    destruct (Z.ltb_spec at_ms 0); [done|]. destruct (in_range _ _ rev); [|done]. cbn [negb mbind result_bind].
    apply (move_implements _ _ key rev t Hok); [|done]. apply decide_move; [by destruct o|done|lia].
  - unfold implements, expire_body, spec_call, move_refusal. rewrite valid_request_key, to_db_revision.
    unfold validate_time. cbn [from_option].
    destruct (request_key_ok key); [|done]. cbn [negb mbind result_bind].
    destruct (Z.ltb_spec at_ms 0); [done|]. destruct (in_range _ _ rev); [|done]. cbn [negb mbind result_bind].
    apply (move_implements _ _ key rev t Hok); [|done]. apply expire_move. lia.
  - by apply prune_implements.
Qed.

Lemma on_table_implements {A} (f : A -> Answer) body spec (s : Store) :
  implements f body spec (table s) -> table_ok (table s) ->
  let r := answering f (on_table body s) in
  spec (entries_of (table s)) = (fst r, entries_of (table (snd r))) /\ table_ok (table (snd r)) /\
  bells (snd r) = bells s.
Proof.
  unfold implements, on_table. destruct (body (table s)) as [[a t']|e]; cbn; naive_solver.
Qed.

Lemma transition_implements h body spec (s : Store) :
  implements AnsMoved body spec (table s) -> table_ok (table s) ->
  let r := answering AnsMoved (transition h body s) in
  spec (entries_of (table s)) = (fst r, entries_of (table (snd r))) /\ table_ok (table (snd r)) /\
  bells (snd r) = rung h (rings (fst r)) (bells s).
Proof.
  unfold implements, transition, on_table, announce, rung.
  destruct (body (table s)) as [[a t']|e]; cbn; destruct (watch h); cbn; naive_solver.
Qed.

Lemma run_call_refines `{RandomRowidLaws} h c (s : Store) answer (s' : Store) :
  table_ok (table s) -> run_call h c s = (answer, s') ->
  spec_call (capacity h) (next_rowid raw_request_entry_id (table s)) c (entries_of (table s)) =
    (answer, entries_of (table s')) /\
  table_ok (table s') /\ bells s' = rung h (rings answer) (bells s).
Proof.
  intros Hok E. pose proof (call_refines h c (table s) Hok) as Hc.
  assert (Hno : forall A (f : A -> Answer) (r : Requested A), (forall a, rings (Ok (f a)) = false) ->
    rung h (rings (f <$> r)) (bells s) = bells s).
  { intros A f r Hf. assert (rings (f <$> r) = false) as ->; [destruct r; [apply Hf|done]|].
    unfold rung. by destruct (watch h). }
  destruct c as [p|key rev o akey at_ms|key rev at_ms|older]; cbn [call_implements run_call] in *.
  - destruct (on_table_implements _ _ _ s Hc Hok) as (H1 & H2 & H3). unfold propose in E. rewrite E in *.
    cbn [fst snd] in H3. split_and!; [done..|]. rewrite H3. injection E as <- _. symmetry. by apply Hno.
  - pose proof (transition_implements h _ _ s Hc Hok) as H1. unfold decide in E. by rewrite E in H1.
  - pose proof (transition_implements h _ _ s Hc Hok) as H1. unfold expire in E. by rewrite E in H1.
  - destruct (on_table_implements _ _ _ s Hc Hok) as (H1 & H2 & H3). unfold prune in E. rewrite E in *.
    cbn [fst snd] in H3. split_and!; [done..|]. rewrite H3. injection E as <- _. symmetry. by apply Hno.
Qed.

(** Every operation on the table, through any handle, is the operation of
    the map from request keys to records.  A proposal is refused for its first
    malformed field, else a key that is there is a conflict naming the first
    bound field that differs or an exact replay, in a full table too, and a new
    key is refused at capacity or becomes a pending record at revision one; a
    transition moves the record of its key only when that is pending and the
    caller's fence is its revision, and answers unknown or stale otherwise;
    pruning deletes terminal records decided before the instant.  A refusal
    changes nothing, and the handle's bell rings for a transition that
    committed and for nothing else. *)
Theorem requests_refine_map `{RandomRowidLaws} h c (s : Store) answer (s' : Store) :
  table_ok (table s) -> run_call h c s = (answer, s') ->
  spec_call (capacity h) (next_rowid raw_request_entry_id (table s)) c (entries_of (table s)) =
    (answer, entries_of (table s')) /\
  table_ok (table s') /\ bells s' = rung h (rings answer) (bells s).
Proof. apply run_call_refines. Qed.

(** * One answer wins *)

Fixpoint run_calls `{RandomRowid} (calls : list (Handle * Call)) (s : Store)
  : list (Requested Answer) * Store :=
  match calls with
  | [] => ([], s)
  | (h, c) :: calls =>
      let '(a, s) := run_call h c s in
      let '(answers, s) := run_calls calls s in
      (a :: answers, s)
  end.

Definition deletes (c : Call) : bool := match c with CallPrune _ => true | _ => false end.

(** The record an answer says it moved the key to. *)
Definition moved_to (key : list Z) (a : Requested Answer) : option ApprovalRequestRecord :=
  match a with
  | Ok (AnsMoved r) => if bool_decide (rr_request_key r = key) then Some r else None
  | _ => None
  end.

Definition moves (key : list Z) (answers : list (Requested Answer)) : list ApprovalRequestRecord :=
  omap (moved_to key) answers.

(** A record that left pending: what was asked is as it was. *)
Definition answer_of (e e' : ApprovalRequestRecord) : Prop :=
  exists st akey at_ms, st <> Pending /\ e' = answered st akey at_ms e.

Lemma spec_move_step key rev g m key' e a m' :
  m !! key' = Some e -> (forall k x, m !! k = Some x -> rr_request_key x = k) ->
  (forall x, rr_request_key (g x) = rr_request_key x) ->
  spec_move key rev g m = (a, m') ->
  (moved_to key' a = None /\ m' !! key' = Some e) \/
  (is_pending (rr_state e) = true /\ moved_to key' a = Some (g e) /\ m' !! key' = Some (g e)).
Proof.
  intros E Hk Hg. unfold spec_move. destruct (m !! key) as [x|] eqn:Ex; [|intros [= <- <-]; by left].
  destruct (_ && _) eqn:P; intros [= <- <-]; [|by left]. pose proof (Hk _ _ Ex) as Hx. cbn [moved_to].
  rewrite Hg, Hx. destruct (base.decide (key = key')) as [->|Hne].
  - right. rewrite E in Ex. injection Ex as ->. bool_prop. rewrite bool_decide_eq_true_2, lookup_insert_eq by done.
    naive_solver.
  - left. by rewrite bool_decide_eq_false_2, lookup_insert_ne by done.
Qed.

Lemma spec_call_step cap alloc c m key e a m' :
  deletes c = false -> m !! key = Some e -> (forall k x, m !! k = Some x -> rr_request_key x = k) ->
  spec_call cap alloc c m = (a, m') ->
  (moved_to key a = None /\ m' !! key = Some e) \/
  (is_pending (rr_state e) = true /\ exists e', answer_of e e' /\ moved_to key a = Some e' /\ m' !! key = Some e').
Proof.
  intros Hd E Hk. destruct c as [p|k rev o akey at_ms|k rev at_ms|older]; [| | |done]; cbn [spec_call].
  - unfold spec_propose. destruct (validate_proposal p); [|intros [= <- <-]; by left].
    destruct (m !! pp_request_key p) as [x|] eqn:Ex.
    + destruct (first_difference x p); intros [= <- <-]; by left.
    + destruct (cap <=? _); [intros [= <- <-]; by left|]. destruct alloc; intros [= <- <-]; [|by left].
      left. split; [done|]. rewrite lookup_insert_ne; [done|]. congruence.
  - destruct (move_refusal _ _ _ _ _); [intros [= <- <-]; by left|]. intros S.
    eapply spec_move_step in S as [S|(S1 & S2 & S3)]; [by left|right|done..]. split; [done|].
    eexists. split_and!; [|exact S2|exact S3]. eexists _, _, _. split; [|done]. by destruct o.
  - destruct (move_refusal _ _ _ _ _); [intros [= <- <-]; by left|]. intros S.
    eapply spec_move_step in S as [S|(S1 & S2 & S3)]; [by left|right|done..]. split; [done|].
    eexists. split_and!; [|exact S2|exact S3]. eexists _, _, _. by split; [|done].
Qed.

(** Where a record of the map after a call comes from. *)
Definition comes_from (c : Call) (m : Entries) (key : list Z) (e' : ApprovalRequestRecord) : Prop :=
  m !! key = Some e' \/
  (m !! key = None /\ rr_state e' = Pending /\ rr_request_key e' = key /\ exists p, c = CallPropose p) \/
  (exists e, m !! key = Some e /\ is_pending (rr_state e) = true /\
     match c with
     | CallDecide k _ o akey at_ms => k = key /\ e' = answered (outcome_state o) (Some akey) at_ms e
     | CallExpire k _ at_ms => k = key /\ e' = answered Expired None at_ms e
     | _ => False
     end).

Lemma spec_move_back key rev g m a m' k e' :
  spec_move key rev g m = (a, m') -> m' !! k = Some e' ->
  m !! k = Some e' \/ (exists e, m !! k = Some e /\ is_pending (rr_state e) = true /\ key = k /\ e' = g e).
Proof.
  unfold spec_move. destruct (m !! key) as [e|] eqn:E; [|intros [= _ <-]; by left].
  destruct (_ && _) eqn:P; [|intros [= _ <-]; by left]. intros [= _ <-]. bool_prop.
  rewrite lookup_insert_Some. intros [[<- <-]|[_ H]]; [right|by left]. exists e. by destruct P.
Qed.

Lemma spec_call_back cap alloc c m a m' key e' :
  spec_call cap alloc c m = (a, m') -> m' !! key = Some e' -> comes_from c m key e'.
Proof.
  unfold comes_from. destruct c as [p|k rev o akey at_ms|k rev at_ms|older]; cbn [spec_call].
  - unfold spec_propose. destruct (validate_proposal p); [|intros [= _ <-]; by left].
    destruct (m !! pp_request_key p) as [x|] eqn:Ex; [intros [= _ <-]; by left|].
    destruct (cap <=? _); [intros [= _ <-]; by left|]. destruct alloc as [id|]; [|intros [= _ <-]; by left].
    intros [= _ <-]. rewrite lookup_insert_Some. intros [[<- <-]|[_ H]]; [|by left]. right; left. eauto.
  - destruct (move_refusal _ _ _ _ _); [intros [= _ <-]; by left|]. intros S H.
    destruct (spec_move_back _ _ _ _ _ _ _ _ S H) as [?|(e & ? & ? & ? & ?)]; [by left|right; right; eauto].
  - destruct (move_refusal _ _ _ _ _); [intros [= _ <-]; by left|]. intros S H.
    destruct (spec_move_back _ _ _ _ _ _ _ _ S H) as [?|(e & ? & ? & ? & ?)]; [by left|right; right; eauto].
  - destruct (older <? 0); [intros [= _ <-]; by left|]. intros [= _ <-].
    rewrite map_lookup_filter_Some. intros [H _]. by left.
Qed.

(** What a proposal asks for: everything but its answer. *)
Definition same_proposal (e e' : ApprovalRequestRecord) : Prop :=
  rr_request_entry_id e' = rr_request_entry_id e /\ rr_request_key e' = rr_request_key e /\
  rr_subject e' = rr_subject e /\ rr_run_id e' = rr_run_id e /\ rr_context e' = rr_context e /\
  rr_requested_by e' = rr_requested_by e /\ rr_requested_at_ms e' = rr_requested_at_ms e /\
  rr_expires_at_ms e' = rr_expires_at_ms e.

(** One call on the table: the table stays well formed, no record is lost or
    comes to ask for something else, an answered one stays as it is, and every
    record has a reason to be there. *)
Lemma run_call_step `{RandomRowidLaws} h c (s : Store) :
  table_ok (table s) -> deletes c = false ->
  let s' := snd (run_call h c s) in
  table_ok (table s') /\
  (forall key e, entries_of (table s) !! key = Some e ->
     exists e', entries_of (table s') !! key = Some e' /\ same_proposal e e' /\
       (is_pending (rr_state e) = false -> e' = e)) /\
  (forall key e', entries_of (table s') !! key = Some e' -> comes_from c (entries_of (table s)) key e').
Proof.
  intros Hok Hc s'. destruct (run_call h c s) as [a s1] eqn:E. cbn in s'. subst s'.
  destruct (run_call_refines h c s a s1 Hok E) as (Hs & Hok1 & _). split_and!; [done| |].
  - intros key e He.
    assert (Hk : forall k x, entries_of (table s) !! k = Some x -> rr_request_key x = k)
      by (intros k x Hx; by apply (entry_in_table _ _ _ Hok) in Hx as (_ & ? & _)).
    destruct (spec_call_step _ _ _ _ _ _ _ _ Hc He Hk Hs) as [[_ H1]|(Hp & e' & (st & k & t & _ & ->) & _ & H1)].
    + exists e. done.
    + eexists. split_and!; [exact H1|done|]. congruence.
  - intros key e' He'. by eapply spec_call_back.
Qed.

(** C21: A proposal is answered once.  Whatever the handles propose, decide and
    expire, in whatever order, a proposal that is in the table keeps its id,
    subject, run, context, requester and deadline; of all the transitions aimed
    at it at most one is answered as done, none when it had been answered
    before, and what that one answered is what the table holds from then on. *)
Theorem answered_once `{RandomRowidLaws} calls (s : Store) key e :
  table_ok (table s) -> Forall (fun hc => deletes (snd hc) = false) calls ->
  entry key (table s) = Ok (Some e) ->
  let '(answers, s') := run_calls calls s in
  (moves key answers = [] /\ entry key (table s') = Ok (Some e)) \/
  (is_pending (rr_state e) = true /\ exists e', answer_of e e' /\
     moves key answers = [e'] /\ entry key (table s') = Ok (Some e')).
Proof.
  intros Hok Hd He. unfold entry in *. rewrite valid_request_key in *.
  destruct (request_key_ok key); [|done]. cbn [mbind result_bind] in *.
  rewrite read_by_key_table in He by done. injection He as He. revert s e Hok He.
  induction Hd as [|[h c] calls Hc _ IH]; intros s e Hok He; cbn [run_calls].
  { left. split; [done|]. by rewrite read_by_key_table, He. }
  destruct (run_call h c s) as [a s1] eqn:E1. destruct (run_calls calls s1) as [answers s2] eqn:E2.
  destruct (run_call_refines h c s a s1 Hok E1) as (Hs & Hok1 & _).
  assert (Hk : forall k x, entries_of (table s) !! k = Some x -> rr_request_key x = k)
    by (intros k x Hx; by apply (entry_in_table _ _ _ Hok) in Hx as (_ & ? & _)).
  unfold moves. cbn [omap list_omap].
  destruct (spec_call_step _ _ _ _ _ _ _ _ Hc He Hk Hs) as [[-> He1]|(Hp & e' & Ha & -> & He1)].
  - specialize (IH s1 e Hok1 He1). by rewrite E2 in IH.
  - specialize (IH s1 e' Hok1 He1). rewrite E2 in IH. right. split; [done|]. exists e'.
    destruct IH as [[IH1 IH2]|(Hp' & _)].
    + unfold moves in IH1. rewrite IH1. done.
    + destruct Ha as (st & akey & at_ms & Hst & ->). cbn in Hp'. by destruct st.
Qed.

(** * Reading it back *)

Lemma validated_rows_of (p : RawRecord -> bool) t :
  Forall row_valid t ->
  exists es, t = row_of <$> es /\ Forall record_ok es /\ mapM validated_record (List.filter p t) = Ok (List.filter (fun e => p (row_of e)) es).
Proof.
  induction 1 as [|raw t [e He] _ (es & -> & Hes & IH)]; [by exists []|]. cbn in He.
  pose proof He as [-> Hok]%validated_record_Ok. exists (e :: es). split_and!; [done|by constructor|].
  cbn [List.filter].
  destruct (p (row_of e)); [|done]. cbn [mapM]. by rewrite He, IH.
Qed.

Lemma mapM_take {A B E} (f : A -> result E B) n l k : mapM f l = Ok k -> mapM f (take n l) = Ok (take n k).
Proof.
  revert n k. induction l as [|x l IH]; intros n k; [intros [= <-]; by rewrite !take_nil|].
  cbn [mapM]. intros (y & Ey & (z & Ez & [= <-])%bind_Ok)%bind_Ok. destruct n as [|n]; [done|].
  cbn [take mapM]. rewrite Ey. cbn [mbind result_bind]. by rewrite (IH n z Ez).
Qed.

(** The records of the table, oldest first. *)
Definition records (t : Rows) : list ApprovalRequestRecord :=
  omap (fun raw => ok (validated_record raw)) t.

Lemma records_of_rows es : Forall record_ok es -> records (row_of <$> es) = es.
Proof.
  induction 1 as [|e es He _ IH]; [done|]. unfold records in *. rewrite fmap_cons. cbn [omap list_omap].
  rewrite (proj2 (validated_record_Ok (row_of e) e)) by done. cbn. by rewrite IH.
Qed.

Lemma select_eq p limit t :
  table_ok t -> 0 <= limit <= MAX_APPROVAL_REQUEST_PAGE ->
  select p limit t = Ok (take (Z.to_nat limit) (List.filter (fun e => p (row_of e)) (records t))).
Proof.
  intros [[_ _ Hv] _ _] Hl. unfold select, to_db_usize.
  rewrite (proj2 (check_i64_Some limit limit)) by (split; [done|unfold MAX_APPROVAL_REQUEST_PAGE in Hl; widths; lia]).
  cbn [ok_or mbind result_bind]. destruct (validated_rows_of p t Hv) as (es & -> & Hes & Hm).
  by rewrite (mapM_take _ _ _ _ Hm), records_of_rows.
Qed.

Lemma records_elem t e : table_ok t -> e ∈ records t <-> entries_of t !! rr_request_key e = Some e.
Proof.
  intros Hok. destruct Hok as [Hr _ _]. pose proof (rows_valid t Hr) as Hv. unfold records.
  rewrite list_elem_of_omap. etrans; [|symmetry; exact (entries_Some t (rr_request_key e) e Hr)]. split.
  - intros (raw & Hin & E). destruct (validated_record raw) as [x|] eqn:V; [|done]. injection E as ->.
    apply validated_record_Ok in V as [-> ?]. done.
  - intros (Hin & _ & He). exists (row_of e). split; [done|]. by rewrite (proj2 (validated_record_Ok (row_of e) e)).
Qed.

Lemma records_ids t : table_ok t -> rr_request_entry_id <$> records t = raw_request_entry_id <$> t.
Proof.
  intros [[_ _ Hv] _ _]. destruct (validated_rows_of (fun _ => true) t Hv) as (es & -> & Hes & _).
  rewrite records_of_rows by done. rewrite <- list_fmap_compose. done.
Qed.

Lemma records_ordered t : table_ok t -> ordered rr_request_entry_id (records t).
Proof. intros Hok. unfold ordered. rewrite records_ids by done. apply Hok. Qed.

Lemma records_keys t : table_ok t -> NoDup (rr_request_key <$> records t).
Proof.
  intros [[_ Hu Hv] _ _]. destruct (validated_rows_of (fun _ => true) t Hv) as (es & -> & Hes & _).
  rewrite records_of_rows by done. unfold unique in Hu. by rewrite <- list_fmap_compose in Hu.
Qed.

Lemma page_limit_Ok limit : 0 < limit <= MAX_APPROVAL_REQUEST_PAGE -> page_limit limit = Ok tt.
Proof.
  intros H. unfold page_limit. destruct (Z.eqb_spec limit 0); [lia|]. by destruct (Z.ltb_spec MAX_APPROVAL_REQUEST_PAGE limit); [lia|].
Qed.

Lemma filter_ext_rows {A} (p q : A -> bool) l : (forall x, p x = q x) -> List.filter p l = List.filter q l.
Proof. intros H. induction l as [|x l IH]; [done|]. cbn. by rewrite H, IH. Qed.

Lemma by_subject_eq subject t :
  table_ok t -> identifier_ok subject = true ->
  by_subject subject t = Ok (List.filter (fun e => bool_decide (rr_subject e = subject)) (records t)).
Proof.
  intros [[_ _ Hv] _ _] Hs. unfold by_subject. rewrite valid_identifier, Hs. cbn [mbind result_bind].
  destruct (validated_rows_of (fun r => bool_decide (raw_subject r = subject)) t Hv) as (es & -> & Hes & ->).
  by rewrite records_of_rows.
Qed.

(** What the lane reads back is what the map holds, oldest first: the
    record of a key; all the records of a subject; the oldest pending records up
    to the limit; those of them whose deadline has arrived, which are exactly
    the pending ones that are no longer answerable at that instant, the deadline
    itself included; and those of one run that still are. *)
Theorem queues_exact t now limit subject run key :
  table_ok t -> 0 <= now -> 0 < limit <= MAX_APPROVAL_REQUEST_PAGE ->
  identifier_ok subject = true -> identifier_ok run = true -> request_key_ok key = true ->
  let oldest p := take (Z.to_nat limit) (List.filter p (records t)) in
  entry key t = Ok (entries_of t !! key) /\
  by_subject subject t = Ok (List.filter (fun e => bool_decide (rr_subject e = subject)) (records t)) /\
  pending limit t = Ok (oldest (fun e => is_pending (rr_state e))) /\
  expiring_before now limit t = Ok (oldest (fun e => is_pending (rr_state e) && negb (is_answerable_at e now))) /\
  pending_for_run run now limit t =
    Ok (oldest (fun e => bool_decide (rr_run_id e = run) && is_answerable_at e now)) /\
  ordered rr_request_entry_id (records t) /\
  (forall e, e ∈ records t <-> entries_of t !! rr_request_key e = Some e).
Proof.
  intros Hok Hn Hl Hs Hr Hk oldest.
  assert (Hb : 0 <= limit <= MAX_APPROVAL_REQUEST_PAGE) by lia.
  assert (Ht : validate_time now "now_ms" = Ok tt) by (unfold validate_time; by destruct (Z.ltb_spec now 0); [lia|]).
  rewrite by_subject_eq by done. unfold entry, pending, expiring_before, pending_for_run.
  rewrite valid_request_key, valid_identifier, Hk, Hr, Ht, page_limit_Ok by done. cbn [mbind result_bind].
  rewrite !select_eq, read_by_key_table by done. unfold oldest. split_and!; [done|done| | | |by apply records_ordered|].
  - do 2 f_equal. apply filter_ext_rows. intros e. apply pending_row_of.
  - do 2 f_equal. apply filter_ext_rows. intros e. rewrite pending_row_of. unfold is_answerable_at. cbn.
    destruct (is_pending _); [|done]. cbn. apply Z.leb_antisym.
  - do 2 f_equal. apply filter_ext_rows. intros e. rewrite pending_row_of. unfold is_answerable_at. cbn.
    by rewrite andb_assoc.
  - intros e. by apply records_elem.
Qed.

(** * Pages *)

Definition beyond (cursor : Z) (t : Rows) : list ApprovalRequestRecord :=
  List.filter (fun e => cursor <? rr_request_entry_id e) (records t).

Lemma records_bounded t e : table_ok t -> e ∈ records t -> 0 < rr_request_entry_id e.
Proof. intros Hok He%records_elem; [|done]. apply entry_in_table in He as (_ & _ & [? _] & _); done. Qed.

Lemma records_fit t e : table_ok t -> e ∈ records t -> rr_request_entry_id e <= i64_max.
Proof.
  intros Hok He%records_elem; [|done]. apply entry_in_table in He as (Hin & _); [|done].
  pose proof (to_ids t Hok) as Hf. rewrite Forall_forall in Hf. exact (Hf _ Hin).
Qed.

Lemma page_eq cursor limit t :
  table_ok t -> 0 <= cursor <= i64_max -> 0 < limit <= MAX_APPROVAL_REQUEST_PAGE ->
  let found := take (Z.to_nat limit) (beyond cursor t) in
  page cursor limit t =
  Ok (mkPage found (if limit <=? len (beyond cursor t) then rr_request_entry_id <$> last found else None)).
Proof.
  intros Hok Hc Hl found. unfold page. rewrite page_limit_Ok by done. cbn [mbind result_bind].
  unfold to_db_u64. rewrite (proj2 (check_i64_Some cursor cursor)) by (split; [done|widths; lia]).
  cbn [ok_or mbind result_bind]. rewrite select_eq by (done || lia). cbn [mbind result_bind].
  change (List.filter _ (records t)) with (beyond cursor t). fold found.
  assert (Hlen : (len found =? limit) = (limit <=? len (beyond cursor t))).
  { apply eq_true_iff_eq. unfold found, len. rewrite Z.eqb_eq, Z.leb_le, length_take. lia. }
  rewrite Hlen. destruct (Z.leb_spec limit (len (beyond cursor t))); [|done].
  destruct (last found) as [r|] eqn:E; [|done].
  unfold from_db_u64. rewrite (proj2 (check_u64_Some (rr_request_entry_id r) (rr_request_entry_id r))); [done|].
  split; [done|]. apply last_Some in E as [l E].
  assert (r ∈ beyond cursor t) as [_ Hr]%elem_of_filter_rows.
  { rewrite <- (take_drop (Z.to_nat limit) (beyond cursor t)). fold found. rewrite E. set_solver. }
  pose proof (records_bounded t r Hok Hr). pose proof (records_fit t r Hok Hr). widths. lia.
Qed.

(** A client that follows the cursors for at most so many pages: what it
    collected, and whether a page told it that it was the last. *)
Fixpoint walk (pages : nat) (cursor limit : Z) (t : Rows) : Requested (list ApprovalRequestRecord * bool) :=
  match pages with
  | O => Ok ([], false)
  | S pages =>
      p ← page cursor limit t;
      match pg_next_cursor p with
      | None => Ok (pg_records p, true)
      | Some cursor =>
          '(rest, ended) ← walk pages cursor limit t;
          Ok (pg_records p ++ rest, ended)
      end
  end.

Lemma filter_none_rows {A} (p : A -> bool) l : (forall x, x ∈ l -> p x = false) -> List.filter p l = [].
Proof.
  induction l as [|x l IH]; [done|]. intros H. cbn. rewrite H by left. apply IH. intros y Hy. apply H. by right.
Qed.

Lemma filter_all_rows {A} (p : A -> bool) l : (forall x, x ∈ l -> p x = true) -> List.filter p l = l.
Proof.
  induction l as [|x l IH]; [done|]. intros H. cbn. rewrite H by left. f_equal. apply IH. intros y Hy. apply H. by right.
Qed.

(** The records beyond the last of a page are the rest of those beyond its cursor. *)
Lemma beyond_rest cursor t n r :
  table_ok t -> last (take n (beyond cursor t)) = Some r ->
  beyond (rr_request_entry_id r) t = drop n (beyond cursor t) /\ cursor < rr_request_entry_id r.
Proof.
  intros Hok Hlast. pose proof (filter_ordered rr_request_entry_id (fun e => cursor <? rr_request_entry_id e) _
    (records_ordered t Hok)) as Ho. fold (beyond cursor t) in Ho. apply last_Some in Hlast as [l El].
  pose proof (take_drop n (beyond cursor t)) as E. rewrite El in E. set (rest := drop n (beyond cursor t)) in *.
  assert (Hr : cursor < rr_request_entry_id r).
  { assert (r ∈ beyond cursor t) as [Hr _]%elem_of_filter_rows by (rewrite <- E; set_solver). by bool_prop. }
  split; [|done]. rewrite <- E in Ho.
  assert (beyond (rr_request_entry_id r) t = List.filter (fun e => rr_request_entry_id r <? rr_request_entry_id e) (beyond cursor t)) as ->.
  { unfold beyond. induction (records t) as [|x rs IH]; [done|]. cbn [List.filter].
    destruct (Z.ltb_spec cursor (rr_request_entry_id x)); cbn [List.filter]; rewrite IH; [done|].
    by destruct (Z.ltb_spec (rr_request_entry_id r) (rr_request_entry_id x)); [lia|]. }
  rewrite <- E. clear - Ho. rewrite !List.filter_app. unfold ordered in Ho. rewrite !fmap_app in Ho.
  assert (Hin : forall x, x ∈ l ++ [r] -> rr_request_entry_id x <= rr_request_entry_id r).
  { rewrite <- app_assoc in Ho. intros x [Hx| ->%list_elem_of_singleton]%elem_of_app; [|done].
    apply StronglySorted_app in Ho as (H1 & _ & _). specialize (H1 (rr_request_entry_id x) (rr_request_entry_id r)).
    apply Z.lt_le_incl, H1; set_solver. }
  assert (Hout : forall x, x ∈ rest -> rr_request_entry_id r < rr_request_entry_id x).
  { intros x Hx. apply StronglySorted_app in Ho as (H1 & _ & _). apply H1; set_solver. }
  rewrite <- List.filter_app, (filter_none_rows _ (l ++ [r])), (filter_all_rows _ rest); [done|..].
  - intros x Hx. apply Z.ltb_lt. by apply Hout.
  - intros x Hx. apply Z.ltb_ge. by apply Hin.
Qed.

Lemma walk_from t limit pages cursor :
  table_ok t -> 0 < limit <= MAX_APPROVAL_REQUEST_PAGE -> 0 <= cursor <= i64_max ->
  (length (beyond cursor t) < pages)%nat -> walk pages cursor limit t = Ok (beyond cursor t, true).
Proof.
  intros Hok Hl. revert cursor. induction pages as [|pages IH]; intros cursor Hc Hp; [lia|].
  cbn [walk]. rewrite page_eq by done. cbn [mbind result_bind pg_next_cursor pg_records].
  destruct (Z.leb_spec limit (len (beyond cursor t))) as [Hle|Hgt].
  - destruct (last (take (Z.to_nat limit) (beyond cursor t))) as [r|] eqn:E.
    + cbn [fmap option_fmap option_map]. destruct (beyond_rest _ _ _ _ Hok E) as [Eb Hlt].
      assert (r ∈ beyond cursor t) as [_ Hr]%elem_of_filter_rows.
      { apply last_Some in E as [l E]. rewrite <- (take_drop (Z.to_nat limit) (beyond cursor t)), E. set_solver. }
      rewrite IH.
      * cbn [mbind result_bind]. by rewrite Eb, take_drop.
      * pose proof (records_fit t r Hok Hr). lia.
      * rewrite Eb, length_drop. unfold len in Hle. lia.
    + exfalso. apply last_None in E. assert (length (take (Z.to_nat limit) (beyond cursor t)) = 0%nat) by (by rewrite E).
      rewrite length_take in *. unfold len in Hle. lia.
  - rewrite take_ge by (unfold len in Hgt; lia). done.
Qed.

(** A client that follows the cursor of each page, from zero and at any page
    size, collects every record of the table once, oldest first, and is told it
    is done after at most one page more than the table has rows; a page carries
    a cursor exactly when it is full, so the last page carries one too when the
    table ends where the page does, and the client then reads one that is
    empty. *)
Theorem pages_cover_the_table t limit :
  table_ok t -> 0 < limit <= MAX_APPROVAL_REQUEST_PAGE ->
  walk (S (length t)) 0 limit t = Ok (records t, true) /\
  NoDup (rr_request_key <$> records t) /\
  forall cursor p, 0 <= cursor <= i64_max -> page cursor limit t = Ok p ->
    (is_Some (pg_next_cursor p) <-> len (pg_records p) = limit).
Proof.
  intros Hok Hl. assert (H0 : beyond 0 t = records t).
  { apply filter_all_rows. intros e He. apply Z.ltb_lt. by eapply records_bounded. }
  split_and!.
  - assert (length (records t) = length t) as Hlen.
    2: { rewrite walk_from, H0; [done..| |by rewrite H0, Hlen; lia]. split; [done|]. by widths. }
    pose proof (f_equal length (records_ids t Hok)) as H. by rewrite !length_fmap in H.
  - by apply records_keys.
  - intros cursor p Hc. rewrite page_eq by done. intros [= <-]. cbn [pg_next_cursor pg_records].
    assert (Hlen : len (take (Z.to_nat limit) (beyond cursor t)) = Z.min limit (len (beyond cursor t))).
    { unfold len. rewrite length_take. lia. }
    rewrite Hlen. destruct (Z.leb_spec limit (len (beyond cursor t))) as [Hle|Hgt].
    + split; [intros _; lia|]. intros _. destruct (last (take _ _)) as [r|] eqn:E; [by eexists|].
      apply last_None in E. rewrite E, len_nil in Hlen. lia.
    + split; [by intros [? ?]|intros; lia].
Qed.

(** * Waiting *)

Lemma wait_loop_reports observed deadline announced passes r :
  wait_loop observed deadline announced passes = Some r ->
  observed < r \/ exists p, p ∈ passes /\ deadline <= pass_now p.
Proof.
  revert announced. induction passes as [|p passes IH]; intros announced; cbn [wait_loop];
    destruct (Z.ltb_spec observed announced); [intros [= <-]; by left|done|intros [= <-]; by left|].
  destruct (Z.leb_spec deadline (pass_now p)); [intros _; right; exists p; set_solver|].
  intros H1%IH. destruct H1 as [|(q & Hq & ?)]; [by left|right; exists q; set_solver].
Qed.

Lemma wait_loop_ends observed deadline announced passes :
  (exists p, p ∈ passes /\ deadline <= pass_now p) ->
  is_Some (wait_loop observed deadline announced passes).
Proof.
  revert announced. induction passes as [|p passes IH]; intros announced (q & Hq & Hd); [set_solver|].
  cbn [wait_loop]. destruct (observed <? announced); [by eexists|].
  destruct (Z.leb_spec deadline (pass_now p)); [by eexists|]. apply IH.
  apply elem_of_cons in Hq as [->|Hq]; [lia|eauto].
Qed.

Definition bells_ok (bs : list Z) : Prop := Forall in_u64 bs.

Lemma announce_bell n : in_u64 n -> n < u64_max -> watch_announce n = n + 1.
Proof. unfold watch_announce, sat_u64, in_u64. lia. Qed.

Lemma announce_ok n : in_u64 n -> in_u64 (watch_announce n) /\ n <= watch_announce n.
Proof. unfold watch_announce, sat_u64, in_u64. widths. lia. Qed.

(** A call never takes a ring back, and an answered transition of a handle rings its bell. *)
Lemma rung_grows h ring bs w n :
  bells_ok bs -> bs !! w = Some n ->
  bells_ok (rung h ring bs) /\
  exists n', rung h ring bs !! w = Some n' /\ n <= n' /\
    (ring = true -> watch h = Some w -> n < u64_max -> n < n').
Proof.
  intros Hok Hn. pose proof (Forall_lookup_1 _ _ _ _ Hok Hn) as Hn64. unfold rung.
  destruct (watch h) as [v|]; [|split; [done|]; exists n; split_and!; [done|lia|done]].
  destruct ring; [|split; [done|]; exists n; split_and!; [done|lia|done]]. split.
  - unfold bells_ok in *. apply Forall_alter; [done|]. intros x _ Hx. by apply announce_ok.
  - destruct (base.decide (v = w)) as [->|Hne].
    + rewrite list_lookup_alter_eq, Hn. exists (watch_announce n). split_and!; [done|by apply announce_ok|].
      intros _ _ Hlt. rewrite announce_bell by done. lia.
    + rewrite list_lookup_alter_ne by done. exists n. split_and!; [done|lia|]. congruence.
Qed.

(** Some call of the run was an answered transition through a handle with this bell. *)
Definition rang (w : nat) (calls : list (Handle * Call)) (answers : list (Requested Answer)) : Prop :=
  exists i h c a, calls !! i = Some (h, c) /\ answers !! i = Some a /\ watch h = Some w /\ rings a = true.

Lemma run_calls_bells `{RandomRowidLaws} calls (s : Store) w n :
  table_ok (table s) -> bells_ok (bells s) -> bells s !! w = Some n ->
  exists n', bells (snd (run_calls calls s)) !! w = Some n' /\ n <= n' /\
    (rang w calls (fst (run_calls calls s)) -> n < u64_max -> n < n').
Proof.
  revert s n. induction calls as [|[h c] calls IH]; intros s n Hok Hb Hn.
  { exists n. split_and!; [done|lia|]. intros (i & ? & ? & ? & ? & ?). set_solver. }
  cbn [run_calls]. destruct (run_call h c s) as [a s1] eqn:E1.
  destruct (run_call_refines h c s a s1 Hok E1) as (_ & Hok1 & Hb1).
  destruct (rung_grows h (rings a) (bells s) w n Hb Hn) as (Hbok & n1 & Hn1 & Hle & Hring).
  rewrite <- Hb1 in Hbok, Hn1. destruct (IH s1 n1 Hok1 Hbok Hn1) as (n2 & Hn2 & Hle2 & Hring2).
  destruct (run_calls calls s1) as [answers s2] eqn:E2. cbn [fst snd] in *.
  exists n2. split_and!; [done|lia|]. intros (i & h' & c' & a' & Hi & Ha & Hw & Hr) Hmax.
  destruct i as [|i]; cbn in Hi, Ha.
  - injection Hi as <- <-. injection Ha as <-. specialize (Hring Hr Hw Hmax). lia.
  - destruct (base.decide (n = n1)) as [->|]; [|lia]. apply Hring2; [|done]. by exists i, h', c', a'.
Qed.

(** C22: An answer is not slept through.  A waiter that read its bell's count,
    and then looked at the table, waits beyond that count: when in between, or
    before the look, some handle holding the bell committed a transition, the
    wait returns at once whatever the clock does; in any case it returns once a
    pass finds the bound elapsed, and it never returns for another reason. *)
Theorem no_answer_slept_through `{RandomRowidLaws} calls (s : Store) w observed bound started passes :
  table_ok (table s) -> bells_ok (bells s) -> bells s !! w = Some observed -> observed < u64_max ->
  let '(answers, s') := run_calls calls s in
  exists announced, bells s' !! w = Some announced /\
    (rang w calls answers ->
       wait_beyond observed bound started announced passes = Some announced /\ observed < announced) /\
    ((exists p, p ∈ passes /\ started + bound <= pass_now p) ->
       is_Some (wait_beyond observed bound started announced passes)) /\
    (forall r, wait_beyond observed bound started announced passes = Some r ->
       observed < r \/ exists p, p ∈ passes /\ started + bound <= pass_now p).
Proof.
  intros Hok Hb Hw Hmax. destruct (run_calls_bells calls s w observed Hok Hb Hw) as (n & Hn & Hle & Hring).
  destruct (run_calls calls s) as [answers s']. cbn [fst snd] in *. exists n. split_and!; [done|..].
  - intros Hr. specialize (Hring Hr Hmax). split; [|done]. unfold wait_beyond.
    destruct passes; cbn [wait_loop]; by rewrite (proj2 (Z.ltb_lt _ _)).
  - apply wait_loop_ends.
  - intros r. apply wait_loop_reports.
Qed.

(** * A concrete table *)

Definition demo_digest (d : Z) : list Z := repeat d 64.

Definition demo_key (d : Z) : list Z := REQUEST_KEY_PREFIX ++ repeat d 32.

Definition demo_proposal (d : Z) : ApprovalProposal :=
  mkProposal (demo_key d) (str "launch:1") (str "run-1")
    (mkContext (demo_digest 97) (str "/usr/bin/agent") (demo_digest 98) (demo_digest 99) (str "cwd-1"))
    (str "web") 100 900.

Definition demo_table : Rows := [proposed_row 1 (demo_proposal 97); proposed_row 2 (demo_proposal 98)].

Definition demo_store : Store := mkStore demo_table [0].

Definition demo_handle : Handle := mkHandle 8 (Some 0%nat).

Definition demo_calls : list (Handle * Call) :=
  [(demo_handle, CallPropose (demo_proposal 97));
   (demo_handle, CallDecide (demo_key 97) 1 OutcomeDenied (demo_key 97) 200);
   (mkHandle 2 None, CallExpire (demo_key 97) 1 900)].

Lemma demo_table_ok : table_ok demo_table.
Proof.
  constructor.
  - constructor.
    + unfold ordered. cbn. repeat constructor.
    + apply (bool_decide_unpack _). by vm_compute.
    + apply Forall_cons_2; [|apply Forall_singleton]; (eexists; vm_compute; reflexivity).
  - apply Forall_cons_2; [|apply Forall_singleton]; by vm_compute.
  - apply Forall_cons_2; [|apply Forall_singleton]; by vm_compute.
Qed.

Definition demo_decide : Call := CallDecide (demo_key 97) 1 OutcomeDenied (demo_key 97) 200.

Lemma requests_refine_map_witness :
  let '(answer, s') := @run_call no_random_rowid demo_handle demo_decide demo_store in
  spec_call 8 (@next_rowid _ raw_request_entry_id no_random_rowid demo_table) demo_decide (entries_of demo_table) =
    (answer, entries_of (table s')) /\
  is_ok answer = true /\ bells s' = [1].
Proof.
  destruct (@run_call no_random_rowid demo_handle demo_decide demo_store) as [answer s'] eqn:E.
  destruct (@requests_refine_map no_random_rowid no_random_rowid_laws demo_handle demo_decide demo_store answer s'
    demo_table_ok E) as (H & _ & Hb).
  split; [exact H|]. vm_compute in E. injection E as <- <-. by split.
Defined.

Lemma answered_once_witness :
  exists e e', entry (demo_key 97) demo_table = Ok (Some e) /\
  moves (demo_key 97) (fst (@run_calls no_random_rowid demo_calls demo_store)) = [e'] /\
  entry (demo_key 97) (table (snd (@run_calls no_random_rowid demo_calls demo_store))) = Ok (Some e') /\
  rr_state e' = Denied.
Proof.
  exists (proposed 1 (demo_proposal 97)), (answered Denied (Some (demo_key 97)) 200 (proposed 1 (demo_proposal 97))).
  assert (He : entry (demo_key 97) (table demo_store) = Ok (Some (proposed 1 (demo_proposal 97)))) by by vm_compute.
  pose proof (@answered_once no_random_rowid no_random_rowid_laws demo_calls demo_store (demo_key 97) _ demo_table_ok
    ltac:(by repeat constructor) He) as H.
  destruct (@run_calls no_random_rowid demo_calls demo_store) as [answers s'] eqn:E. vm_compute in E. injection E as <- <-.
  split; [exact He|]. destruct H as [[H _]|(_ & e' & _ & H1 & H2)]; [by vm_compute in H|].
  cbn [fst snd]. vm_compute in H1. injection H1 as H1. rewrite H2. rewrite <- H1. by vm_compute.
Defined.

Lemma queues_exact_witness :
  expiring_before 900 1 demo_table = Ok [proposed 1 (demo_proposal 97)] /\
  pending_for_run (str "run-1") 900 1 demo_table = Ok [].
Proof.
  destruct (queues_exact demo_table 900 1 (str "launch:1") (str "run-1") (demo_key 97) demo_table_ok
    ltac:(lia) ltac:(by vm_compute) ltac:(by vm_compute) ltac:(by vm_compute) ltac:(by vm_compute))
    as (_ & _ & _ & H1 & H2 & _).
  rewrite H1, H2. by vm_compute.
Defined.

Lemma pages_cover_the_table_witness : walk 3 0 2 demo_table = Ok (records demo_table, true).
Proof. apply (pages_cover_the_table demo_table 2 demo_table_ok). by vm_compute. Defined.

Lemma no_answer_slept_through_witness :
  wait_beyond 0 50 0 1 [] = Some 1.
Proof.
  pose proof (@no_answer_slept_through no_random_rowid no_random_rowid_laws demo_calls demo_store 0%nat 0 50 0 []
    demo_table_ok ltac:(by repeat constructor) eq_refl ltac:(by vm_compute)) as H.
  destruct (@run_calls no_random_rowid demo_calls demo_store) as [answers s'] eqn:E. vm_compute in E. injection E as <- <-.
  destruct H as (n & Hn & H & _). vm_compute in Hn. injection Hn as <-. apply H.
  exists 1%nat, demo_handle. eexists _, _. split_and!; by vm_compute.
Defined.
