(* ===== verification/ApprovalLane.v ===== *)
(** The approval lane of the daemon: [automonique-daemon/src/lib.rs], the
    functions from [mint_request_key] to [reconcile_approval_requests], and
    [admit_approval], [record_decision], [record_approval] and [tick_approvals]
    with what they call; and the proposals of [automonique-daemon/src/execute.rs].

    The lane works on two databases that no transaction spans: the table of
    requests (see [ApprovalRequests]) and the ledger of decisions (see
    [ApprovalLedger]); what it appends to the audit chain is kept as the list of
    calls that [AuditStore.audit_run] executes.  A handler runs to its end in one
    thread, but workers and other processes hold the request table too, so a
    handler that touches the table more than once takes what happens in between
    as an argument, [meanwhile].  Reading a RunSpec document and hashing the
    program and prompt it names is the argument [Observation].  The notices of
    [stage_approval_notices] go to the outbox of another store and are left out. *)

From S2P Require Import Prelude Text Table RowMap Digest AuditChain AuditStore Approval ApprovalConfig.
From S2P Require Import ApprovalLedger ApprovalRequests.

Definition APPROVAL_PROPOSER : list Z := str "automonique.execute".
Definition APPROVAL_RECONCILE_LIMIT : Z := 256.
Definition APPROVAL_KEY_DOMAIN : list Z := utf8 (str "automonique.approval-request/v1/key") ++ [0].
Definition APPROVAL_SWEEP_BATCH : Z := 64.
Definition APPROVAL_SWEEPER : list Z := str "system:ttl".
Definition PROVIDER_APPROVAL_KEY_DOMAIN : list Z := utf8 (str "automonique.provider-approval/v1/key") ++ [0].
Definition PROVIDER_APPROVAL_PROPOSER : list Z := str "automonique.jcode".

Inductive ApprovalContextField := SpecDigest | ProgramPath | ProgramSha256 | PromptSha256 | CwdToken.

Definition ALL_FIELDS : list ApprovalContextField :=
  [SpecDigest; ProgramPath; ProgramSha256; PromptSha256; CwdToken].

Definition field_as_str (f : ApprovalContextField) : string :=
  match f with
  | SpecDigest => "spec_digest"
  | ProgramPath => "program_path"
  | ProgramSha256 => "program_sha256"
  | PromptSha256 => "prompt_sha256"
  | CwdToken => "cwd_token"
  end.

Definition drift_spelling (f : ApprovalContextField) : string :=
  match f with
  | SpecDigest => "approval_context_drift_spec_digest"
  | ProgramPath => "approval_context_drift_program_path"
  | ProgramSha256 => "approval_context_drift_program_sha256"
  | PromptSha256 => "approval_context_drift_prompt_sha256"
  | CwdToken => "approval_context_drift_cwd_token"
  end.

Inductive ExecuteRefusal :=
| UnknownRun | RunNotReady | AlreadyExecuting | LaneSaturated | SandboxUnenforceable
| ContainmentUnavailable | LaunchHelperUnavailable | PromptUnresolvable | ProviderBinaryUnverified
| AdmissionRefused | IntakePaused | GenerationDegraded | ExecutionUnavailable | NoLiveAttempt
| CancelNotDelivered | SourceRouteUnavailable | ApprovalForbidden | ApprovalRequired | ApprovalDenied
| ApprovalUnreachable | ApprovalContextDrift (field : ApprovalContextField).

Definition ALL_REFUSALS : list ExecuteRefusal :=
  [UnknownRun; RunNotReady; AlreadyExecuting; LaneSaturated; SandboxUnenforceable; ContainmentUnavailable;
   LaunchHelperUnavailable; PromptUnresolvable; ProviderBinaryUnverified; AdmissionRefused; IntakePaused;
   GenerationDegraded; ExecutionUnavailable; NoLiveAttempt; CancelNotDelivered; SourceRouteUnavailable;
   ApprovalForbidden; ApprovalRequired; ApprovalDenied; ApprovalUnreachable]
  ++ (ApprovalContextDrift <$> ALL_FIELDS).

Definition execute_refusal_as_str (r : ExecuteRefusal) : string :=
  match r with
  | UnknownRun => "unknown_run"
  | RunNotReady => "run_not_ready"
  | AlreadyExecuting => "already_executing"
  | LaneSaturated => "lane_saturated"
  | SandboxUnenforceable => "sandbox_unenforceable"
  | ContainmentUnavailable => "containment_unavailable"
  | LaunchHelperUnavailable => "launch_helper_unavailable"
  | PromptUnresolvable => "prompt_unresolvable"
  | ProviderBinaryUnverified => "provider_binary_unverified"
  | AdmissionRefused => "admission_refused"
  | IntakePaused => "intake_paused"
  | GenerationDegraded => "generation_degraded"
  | ExecutionUnavailable => "execution_unavailable"
  | NoLiveAttempt => "no_live_attempt"
  | CancelNotDelivered => "cancel_not_delivered"
  | SourceRouteUnavailable => "source_route_unavailable"
  | ApprovalForbidden => "approval_forbidden"
  | ApprovalRequired => "approval_required"
  | ApprovalDenied => "approval_denied"
  | ApprovalUnreachable => "approval_unreachable"
  | ApprovalContextDrift f => drift_spelling f
  end.

Definition execute_refusal_from_spelling (value : list Z) : option ExecuteRefusal :=
  List.find (fun r => bool_decide (str (execute_refusal_as_str r) = value)) ALL_REFUSALS.

Definition is_host_wide (r : ExecuteRefusal) : bool :=
  match r with
  | SandboxUnenforceable | ContainmentUnavailable | LaunchHelperUnavailable | IntakePaused
  | GenerationDegraded => true
  | _ => false
  end.

Inductive ApprovalDecisionDisposition := NewlyRecorded | FoundRecorded.

Record ApprovalDecisionReceipt := mkDecisionReceipt {
  dr_entry_id : Z;
  dr_request_key : list Z;
  dr_subject : list Z;
  dr_run_id : list Z;
  dr_outcome : ApprovalOutcome;
  dr_decider : list Z;
  dr_decided_at_ms : Z;
  dr_disposition : ApprovalDecisionDisposition
}.

Inductive ApprovalDecisionRefusal :=
| MalformedKey
| UnknownProposal
| AlreadyDecided (outcome : ApprovalOutcome) (decider : list Z)
| RequestExpired
| LedgerIsFull
| DecisionUnavailable.

Definition decision_refusal_category (r : ApprovalDecisionRefusal) : string :=
  match r with
  | MalformedKey => "malformed_key"
  | UnknownProposal => "unknown_request"
  | AlreadyDecided _ _ => "already_decided"
  | RequestExpired => "request_expired"
  | LedgerIsFull => "ledger_full"
  | DecisionUnavailable => "decision_unavailable"
  end.

Abbreviation Decided A := (result ApprovalDecisionRefusal A).

(** The two databases, and what was appended to the audit chain. *)
Record Lane := mkLane {
  requests : Store;
  ledger : list RawEntry;
  audited : list AuditCall
}.

Definition with_requests (s : Store) (l : Lane) : Lane := mkLane s (ledger l) (audited l).
Definition with_ledger (t : list RawEntry) (l : Lane) : Lane := mkLane (requests l) t (audited l).
Definition append_approval (subject actor : list Z) (surface : string) (outcome : AuditOutcome) (now_ms : Z)
    (l : Lane) : Lane :=
  mkLane (requests l) (ledger l) (audited l ++ [CApproval subject actor (str surface) outcome now_ms]).

(** * Keys, contexts and evidence *)

(** Each component is followed by a zero byte. *)
Definition key_material (domain : list Z) (components : list (list Z)) : list Z :=
  domain ++ mjoin ((fun c => utf8 c ++ [0]) <$> components).

Definition key_hex (material : list Z) : list Z :=
  take (Z.to_nat REQUEST_KEY_HEX_BYTES) (to_hex (digest material)).

Definition mint_request_key (subject run_id spec_digest : list Z) (requested_at_ms prior_proposals : Z) : list Z :=
  REQUEST_KEY_PREFIX ++
  key_hex (key_material APPROVAL_KEY_DOMAIN
    [subject; run_id; spec_digest; dec requested_at_ms; dec prior_proposals]).

Definition field_differs (approved observed : ApprovalContext) (f : ApprovalContextField) : bool :=
  match f with
  | SpecDigest => negb (bool_decide (spec_digest approved = spec_digest observed))
  | ProgramPath => negb (bool_decide (program_path approved = program_path observed))
  | ProgramSha256 => negb (bool_decide (program_sha256 approved = program_sha256 observed))
  | PromptSha256 => negb (bool_decide (prompt_sha256 approved = prompt_sha256 observed))
  | CwdToken => negb (bool_decide (cwd_token approved = cwd_token observed))
  end.

Definition approved_context_drift (approved observed : ApprovalContext) : option ApprovalContextField :=
  List.find (field_differs approved observed) ALL_FIELDS.

Definition decided_evidence (s : ApprovalState) : option ApprovalEvidence :=
  match s with
  | ApprovalRequests.Granted => Some Approval.Granted
  | ApprovalRequests.Denied => Some Approval.Denied
  | Pending | Expired => None
  end.

Definition evidence_of (history : list ApprovalRequestRecord) : ApprovalEvidence :=
  default Undecided (head (omap (fun r => decided_evidence (rr_state r)) (reverse history))).

(** * Deciding *)

Definition store_decision (o : ApprovalOutcome) : ApprovalDecision :=
  match o with OutcomeGranted => ApprovalLedger.Granted | OutcomeDenied => ApprovalLedger.Denied end.

Definition outcome_of (d : ApprovalDecision) : ApprovalOutcome :=
  if grants d then OutcomeGranted else OutcomeDenied.

Definition decision_disposition (d : ApprovalDisposition) : ApprovalDecisionDisposition :=
  match d with Recorded => NewlyRecorded | AlreadyRecorded => FoundRecorded end.

(** The entry of the ledger a row links to, when it can be read. *)
Definition linked_entry (r : ApprovalRequestRecord) (l : Lane) : option ApprovalEntry :=
  key ← rr_approval_key r;
  match ApprovalLedger.entry key (ledger l) with
  | Ok (Some e) => Some e
  | _ => None
  end.

Definition already_decided (r : ApprovalRequestRecord) (outcome : ApprovalOutcome) (l : Lane)
  : Decided ApprovalDecisionReceipt :=
  recorded ← match rr_state r with
    | ApprovalRequests.Granted => Ok OutcomeGranted
    | ApprovalRequests.Denied => Ok OutcomeDenied
    | Pending | Expired => Err DecisionUnavailable
    end;
  e ← ok_or (linked_entry r l) DecisionUnavailable;
  if negb (bool_decide (recorded = outcome)) then Err (AlreadyDecided recorded (en_decider e))
  else Ok (mkDecisionReceipt (en_entry_id e) (rr_request_key r) (rr_subject r) (rr_run_id r) recorded
             (en_decider e) (en_decided_at_ms e) FoundRecorded).

Definition ledger_refusal (e : ApprovalLedgerError) : ApprovalDecisionRefusal :=
  match e with
  | ApprovalLedger.Conflict _ _ _ d who => AlreadyDecided (outcome_of d) who
  | LedgerFull _ => LedgerIsFull
  | _ => DecisionUnavailable
  end.

Definition outcome_audit (o : ApprovalOutcome) : AuditOutcome :=
  match o with OutcomeGranted => Success | OutcomeDenied => AuditChain.Denied end.

Definition record_decision_audit (subject : list Z) (outcome : ApprovalOutcome) (decider : list Z) (now_ms : Z)
    (l : Lane) : Lane :=
  append_approval subject decider "automonique.approval" (outcome_audit outcome) now_ms l.

(** What may go wrong after the ledger was written: the process ends, or the
    request database fails. *)
Inductive Fault := NoFault | ProcessEnds | RequestsFail.

(** The points at which [record_decision] leaves the databases to others. *)
Inductive Point := AfterRead | AfterLedger | BeforeReread.

Definition entry_refusal (e : ApprovalRequestError) : ApprovalDecisionRefusal :=
  if String.eqb (ApprovalRequests.category e) "invalid_field" then MalformedKey else DecisionUnavailable.

Section Deciding.
Context `{RandomRowid} (meanwhile : Point -> Lane -> Lane).

(** The last part: the transition, once the ledger holds the decision. *)
Definition finish_decision (h : Handle) (key : list Z) (record : ApprovalRequestRecord) (outcome : ApprovalOutcome)
    (decider : list Z) (now_ms : Z) (receipt : ApprovalReceipt) (l : Lane)
  : Decided ApprovalDecisionReceipt * Lane :=
  let '(moved, s) := ApprovalRequests.decide h key (rr_revision record) outcome key now_ms (requests l) in
  let l := with_requests s l in
  match moved with
  | Ok _ =>
      (Ok (mkDecisionReceipt (rc_entry_id receipt) key (rr_subject record) (rr_run_id record) outcome decider
             (rc_decided_at_ms receipt) (decision_disposition (ApprovalLedger.rc_disposition receipt))),
       record_decision_audit (rr_subject record) outcome decider now_ms l)
  | Err StaleRevision =>
      let l := meanwhile BeforeReread l in
      (match ApprovalRequests.entry key (table (requests l)) with
       | Err _ => Err DecisionUnavailable
       | Ok None => Err UnknownProposal
       | Ok (Some current) => already_decided current outcome l
       end, l)
  | Err _ => (Err DecisionUnavailable, l)
  end.

(** [None] when the process ended before it answered. *)
Definition record_decision (fault : Fault) (h : Handle) (ledger_capacity : Z) (key : list Z)
    (outcome : ApprovalOutcome) (decider : list Z) (now_ms : Z) (l : Lane)
  : option (Decided ApprovalDecisionReceipt) * Lane :=
  match ApprovalRequests.entry key (table (requests l)) with
  | Err e => (Some (Err (entry_refusal e)), l)
  | Ok None => (Some (Err UnknownProposal), l)
  | Ok (Some record) =>
      match rr_state record with
      | Expired => (Some (Err RequestExpired), l)
      | ApprovalRequests.Granted | ApprovalRequests.Denied => (Some (already_decided record outcome l), l)
      | Pending =>
          if negb (is_answerable_at record now_ms) then (Some (Err RequestExpired), l)
          else
            let l := meanwhile AfterRead l in
            let '(recorded, rows) :=
              ApprovalLedger.record ledger_capacity
                (ApprovalLedger.mkRecord key (rr_subject record) (store_decision outcome) decider now_ms) (ledger l) in
            let l := with_ledger rows l in
            match recorded with
            | Err e => (Some (Err (ledger_refusal e)), l)
            | Ok receipt =>
                let l := meanwhile AfterLedger l in
                match fault with
                | ProcessEnds => (None, l)
                | RequestsFail => (Some (Err DecisionUnavailable), l)
                | NoFault =>
                    let '(answer, l) := finish_decision h key record outcome decider now_ms receipt l in
                    (Some answer, l)
                end
            end
      end
  end.

(** [record_approval]: a key of a proposal is decided, any other is recorded in
    the ledger as it is. *)
Definition record_approval (fault : Fault) (h : Handle) (ledger_capacity : Z) (r : ApprovalDecisionRecord) (l : Lane)
  : option (Decided ApprovalDecisionReceipt + Ledgered ApprovalReceipt) * Lane :=
  match ApprovalRequests.entry (ar_approval_key r) (table (requests l)) with
  | Ok (Some _) =>
      let '(answer, l) := record_decision fault h ledger_capacity (ar_approval_key r) (outcome_of (ar_decision r))
                            (ar_decider r) (ar_decided_at_ms r) l in
      (inl <$> answer, l)
  | _ =>
      let l := meanwhile AfterRead l in
      let '(answer, rows) := ApprovalLedger.record ledger_capacity r (ledger l) in
      (Some (inr answer), with_ledger rows l)
  end.
End Deciding.

(** * Repair and sweep *)

Section Repair.
Context (meanwhile : Lane -> Lane).

(** Errors of the two loops are categories of [DaemonError]. *)
Inductive LaneFailure := RequestsFailed (category : string) | LedgerFailed (category : string).

(** The rows of the page, in order; others may write before each of them. *)
Fixpoint reconcile_rows (h : Handle) (rows : list ApprovalRequestRecord) (l : Lane)
  : result LaneFailure unit * Lane :=
  match rows with
  | [] => (Ok tt, l)
  | record :: rows =>
      let l := meanwhile l in
      if negb (is_pending (rr_state record)) then reconcile_rows h rows l
      else
        match ApprovalLedger.entry (rr_request_key record) (ledger l) with
        | Err e => (Err (LedgerFailed (ApprovalLedger.category e)), l)
        | Ok None => reconcile_rows h rows l
        | Ok (Some e) =>
            let '(moved, s) := ApprovalRequests.decide h (rr_request_key record) (rr_revision record)
                                 (outcome_of (en_decision e)) (rr_request_key record) (en_decided_at_ms e)
                                 (requests l) in
            let l := with_requests s l in
            match moved with
            | Ok _ | Err StaleRevision => reconcile_rows h rows l
            | Err e => (Err (RequestsFailed (ApprovalRequests.category e)), l)
            end
        end
  end.

Definition reconcile_approval_requests (h : Handle) (l : Lane) : result LaneFailure unit * Lane :=
  match ApprovalRequests.page 0 APPROVAL_RECONCILE_LIMIT (table (requests l)) with
  | Err e => (Err (RequestsFailed (ApprovalRequests.category e)), l)
  | Ok p => reconcile_rows h (pg_records p) l
  end.

(** The first half of [tick_approvals]. *)
Fixpoint expire_rows (h : Handle) (rows : list ApprovalRequestRecord) (now_ms : Z) (l : Lane)
  : result LaneFailure unit * Lane :=
  match rows with
  | [] => (Ok tt, l)
  | record :: rows =>
      let l := meanwhile l in
      let '(moved, s) := ApprovalRequests.expire h (rr_request_key record) (rr_revision record) now_ms (requests l) in
      let l := with_requests s l in
      match moved with
      | Ok _ =>
          expire_rows h rows now_ms
            (append_approval (rr_subject record) APPROVAL_SWEEPER "approval_expired" Timeout_ now_ms l)
      | Err StaleRevision => expire_rows h rows now_ms l
      | Err e => (Err (RequestsFailed (ApprovalRequests.category e)), l)
      end
  end.

Definition tick_expiries (h : Handle) (now_ms : Z) (l : Lane) : result LaneFailure unit * Lane :=
  match expiring_before now_ms APPROVAL_SWEEP_BATCH (table (requests l)) with
  | Err e => (Err (RequestsFailed (ApprovalRequests.category e)), l)
  | Ok due => expire_rows h due now_ms l
  end.
End Repair.

(** * Admission *)

(** What reading the document and hashing its program and prompt answers. *)
Record Observation := mkObservation {
  decoded : bool;
  executable : option (list Z);
  digests : option (list Z * list Z);
  cwd : list Z
}.

Definition observe (o : Observation) (spec_digest : list Z) : result ExecuteRefusal ApprovalContext :=
  if negb (decoded o) then Err ExecutionUnavailable
  else
    path ← ok_or (executable o) ProviderBinaryUnverified;
    '(program, prompt) ← ok_or (digests o) ProviderBinaryUnverified;
    Ok (mkContext spec_digest path program prompt (cwd o)).

Definition granted_record (history : list ApprovalRequestRecord) : option ApprovalRequestRecord :=
  List.find (fun r => bool_decide (rr_state r = ApprovalRequests.Granted)) (reverse history).

Definition verify_approved_context (history : list ApprovalRequestRecord) (spec_digest : list Z) (o : Observation)
  : result ExecuteRefusal unit :=
  match granted_record history with
  | None => Ok tt
  | Some approved =>
      observed ← observe o spec_digest;
      match approved_context_drift (rr_context approved) observed with
      | None => Ok tt
      | Some field => Err (ApprovalContextDrift field)
      end
  end.

(** The daemon's standing state: its composed sources, its surfaces, the
    lifetime of a proposal, and its handle on the requests. *)
Record Standing := mkStanding {
  configured : ApprovalRequirement;
  sandbox_enforceable : bool;
  poller_live : bool;
  slack_approvals_live : bool;
  lifetime : ApprovalLifetime;
  handle : Handle
}.

Definition approval_sources (d : Standing) (per_call : ApprovalRequirement) : ApprovalSources :=
  mkSources (configured d) (for_measured_host (sandbox_enforceable d)) per_call.

Definition operator_surfaces (d : Standing) : OperatorSurfaces :=
  let surfaces := surfaces_none in
  let surfaces := if poller_live d then with_telegram_poller surfaces else surfaces in
  if slack_approvals_live d then with_slack_approvals surfaces else surfaces.

Section Admission.
Context `{RandomRowid}.

Definition propose_approval (d : Standing) (run_id subject spec_digest : list Z) (o : Observation)
    (history : list ApprovalRequestRecord) (now_ms : Z) (l : Lane)
  : result ExecuteRefusal ExecuteRefusal * Lane :=
  if existsb (fun r => is_answerable_at r now_ms) history then (Ok ApprovalRequired, l)
  else
    match observe o spec_digest with
    | Err e => (Err e, l)
    | Ok context =>
        let request_key := mint_request_key subject run_id spec_digest now_ms (len history) in
        let '(proposed, s) :=
          ApprovalRequests.propose (handle d)
            (mkProposal request_key subject run_id context APPROVAL_PROPOSER now_ms (expires_at (lifetime d) now_ms))
            (requests l) in
        (match proposed with Ok _ => Ok ApprovalRequired | Err _ => Err ExecutionUnavailable end,
         with_requests s l)
    end.

Definition record_approval_audit (subject : list Z) (refusal : ExecuteRefusal) (now_ms : Z) (l : Lane) : Lane :=
  append_approval subject (str "local-peer") (execute_refusal_as_str refusal) AuditChain.Denied now_ms l.

(** The subject of a launch. *)
Definition launch_subject (spec_digest : list Z) : list Z := str "runspec:" ++ spec_digest.

(** The gate's refusal, or that there is none; only a proposal writes. *)
Definition launch_refusal (d : Standing) (run_id spec_digest : list Z) (o : Observation)
    (history : list ApprovalRequestRecord) (now_ms : Z) (l : Lane)
  : result ExecuteRefusal (option ExecuteRefusal) * Lane :=
  let sources := approval_sources d Allowed in
  match decide_gate sources (operator_surfaces d) (evidence_of history) with
  | Proceed =>
      if negb (match compose sources with Approval.ApprovalRequired => true | _ => false end) then (Ok None, l)
      else (Ok (match verify_approved_context history spec_digest o with Ok _ => None | Err e => Some e end), l)
  | Refuse RefusedForbidden =>
      (Ok (Some (match host sources with Forbidden => SandboxUnenforceable | _ => ApprovalForbidden end)), l)
  | Refuse Approval.ApprovalDenied => (Ok (Some ApprovalDenied), l)
  | Refuse Approval.ApprovalUnreachable => (Ok (Some ApprovalUnreachable), l)
  | Propose =>
      let '(r, l) := propose_approval d run_id (launch_subject spec_digest) spec_digest o history now_ms l in
      (Some <$> r, l)
  end.

Definition admit_approval (d : Standing) (run_id spec_digest : list Z) (o : Observation) (now_ms : Z) (l : Lane)
  : result ExecuteRefusal unit * Lane :=
  match ApprovalRequests.by_subject (launch_subject spec_digest) (table (requests l)) with
  | Err _ => (Err ExecutionUnavailable, l)
  | Ok history =>
      match launch_refusal d run_id spec_digest o history now_ms l with
      | (Err e, l) => (Err e, l)
      | (Ok None, l) => (Ok tt, l)
      | (Ok (Some refusal), l) =>
          (Err refusal, record_approval_audit (launch_subject spec_digest) refusal now_ms l)
      end
  end.

(** * Permissions of a provider's turn *)

(** [ProviderApprovalContext::propose]; the table is opened at its full capacity. *)
Definition provider_propose (context : ApprovalContext) (expires_after_ms : Z) (run_id request_id : list Z)
    (now_ms : Z) (l : Lane) : option (list Z) * Lane :=
  let hex := key_hex (key_material PROVIDER_APPROVAL_KEY_DOMAIN [run_id; request_id]) in
  let request_key := REQUEST_KEY_PREFIX ++ hex in
  let '(proposed, s) :=
    ApprovalRequests.propose (mkHandle MAX_APPROVAL_REQUESTS None)
      (mkProposal request_key (str "provider-permission:" ++ hex) run_id context PROVIDER_APPROVAL_PROPOSER now_ms
         (sat_i64 (now_ms + expires_after_ms))) (requests l) in
  (match proposed with Ok _ => Some request_key | Err _ => None end, with_requests s l).
End Admission.

(** What [poll_jcode_temporary_storage] answers. *)
Inductive StoragePoll := StorageFine | StorageExceeded | StorageFailed.

(** One pass of the wait for an operator: what the run sees, and the lane when
    it reads the row. *)
Record Look := mkLook {
  storage : StoragePoll;
  draining : bool;
  cancelled : bool;
  timed_out : bool;
  seen : Lane
}.

Inductive RunSpoolState := SpoolFailed | SpoolCancelled | SpoolTimedOut.

(** How the wait ends: the decision given to the provider with the state the run
    is forced into, or the run's end without an answer. *)
Inductive PermissionWait :=
| Answered (allow : bool) (forced : option RunSpoolState)
| Ended (state : RunSpoolState).

Fixpoint wait_for_permission (key : list Z) (looks : list Look) : option PermissionWait :=
  match looks with
  | [] => None
  | look :: looks =>
      match storage look with
      | StorageExceeded | StorageFailed => Some (Ended SpoolFailed)
      | StorageFine =>
          if draining look then Some (Ended SpoolCancelled)
          else if cancelled look then Some (Answered false (Some SpoolCancelled))
          else if timed_out look then Some (Answered false (Some SpoolTimedOut))
          else
            match ApprovalRequests.entry key (table (requests (seen look))) with
            | Ok (Some record) =>
                match rr_state record with
                | ApprovalRequests.Granted => Some (Answered true None)
                | ApprovalRequests.Denied | Expired => Some (Answered false None)
                | Pending => wait_for_permission key looks
                end
            | Ok None | Err _ => Some (Ended SpoolFailed)
            end
      end
  end.

(** [expire_unanswered_approvals], when the clock and the table can be read. *)
Fixpoint expire_proposed (h : Handle) (rows : list ApprovalRequestRecord) (now_ms : Z) (s : Store) : Store :=
  match rows with
  | [] => s
  | record :: rows =>
      if negb (bool_decide (rr_requested_by record = PROVIDER_APPROVAL_PROPOSER))
      then expire_proposed h rows now_ms s
      else expire_proposed h rows now_ms (snd (ApprovalRequests.expire h (rr_request_key record) (rr_revision record) now_ms s))
  end.

Definition expire_unanswered_approvals (bell : nat) (run_id : list Z) (now_ms : Z) (s : Store) : Store :=
  match pending_for_run run_id now_ms MAX_APPROVAL_REQUEST_PAGE (table s) with
  | Ok pending => expire_proposed (mkHandle MAX_APPROVAL_REQUESTS (Some bell)) pending now_ms s
  | Err _ => s
  end.

(** * The ledger's side *)

Lemma entry_key_ok key t e :
  ledger_ok t -> ApprovalLedger.entry key t = Ok (Some e) -> en_approval_key e = key.
Proof.
  intros (log & -> & Hok) He. apply entry_Some in He as ([i d] & Hf & -> & _); [|done].
  by apply find_key_Some in Hf as [_ ?].
Qed.

(** One recording: entries stay, and an entry is either an old one or the one
    this call recorded; a call answered with a receipt left its decision there. *)
Lemma ledger_step `{RandomRowid} cap r t :
  handle_capacity cap -> ledger_ok t ->
  let '(a, t') := ApprovalLedger.record cap r t in
  ledger_ok t' /\
  (forall key e, ApprovalLedger.entry key t = Ok (Some e) -> ApprovalLedger.entry key t' = Ok (Some e)) /\
  (forall key e, ApprovalLedger.entry key t' = Ok (Some e) ->
     ApprovalLedger.entry key t = Ok (Some e) \/ (key = ar_approval_key r /\ same_decision e r)) /\
  match a with
  | Ok receipt =>
      exists e, ApprovalLedger.entry (ar_approval_key r) t' = Ok (Some e) /\ same_decision e r /\
        rc_entry_id receipt = en_entry_id e /\ rc_decided_at_ms receipt = en_decided_at_ms e /\
        (ApprovalLedger.rc_disposition receipt = AlreadyRecorded ->
           ApprovalLedger.entry (ar_approval_key r) t = Ok (Some e))
  | Err (ApprovalLedger.Conflict _ _ s d who) =>
      t' = t /\ exists e, ApprovalLedger.entry (ar_approval_key r) t = Ok (Some e) /\
        en_subject e = s /\ en_decision e = d /\ en_decider e = who
  | Err _ => t' = t
  end.
Proof.
  intros Hc (log & -> & Hok). rewrite record_body_eq by done.
  destruct (spec_record_ok cap r log Hc Hok) as [Hok' [added Hadd]].
  assert (Hkeep : forall key e, ApprovalLedger.entry key (table_of log) = Ok (Some e) ->
    ApprovalLedger.entry key (table_of (snd (spec_record cap r log))) = Ok (Some e)).
  { intros key e He. apply entry_Some in He as (p & Hf & -> & Hk); [|done].
    rewrite entry_table by done. rewrite Hadd. by rewrite (find_key_app _ _ _ _ Hf). }
  split; [by eexists|]. split; [exact Hkeep|].
  unfold spec_record in *. destruct (first_invalid r) as [f|] eqn:Ei; [split; [by left|done]|].
  apply first_invalid_None in Ei.
  destruct (find_key (ar_approval_key r) log) as [[i d]|] eqn:Ef; cbn [fst snd] in *.
  - assert (He : ApprovalLedger.entry (ar_approval_key r) (table_of log) = Ok (Some (entry_of i d))).
    { rewrite entry_table by (done || apply Ei). by rewrite Ef. }
    split; [by left|]. unfold replay_or_conflict.
    pose proof (differing_field_exact (entry_of i d) r) as Hd. destruct (differing_field _ _); [by split; [|exists (entry_of i d)]|].
    exists (entry_of i d). done.
  - destruct (cap <=? len log); cbn [fst snd] in *; [split; [by left|done]|].
    assert (Hnew : find_key (ar_approval_key r) (log ++ [r]) = Some (length log, r)).
    { unfold find_key in *. rewrite list_find_app_r by done. cbn. rewrite decide_True by done. done. }
    split.
    + intros key e He. apply entry_Some in He as (p & Hf & -> & Hk); [|done].
      destruct (base.decide (key = ar_approval_key r)) as [->|Hne].
      * right. rewrite Hnew in Hf. by injection Hf as <-.
      * left. rewrite entry_table by done. destruct (find_key key log) as [q|] eqn:Eq.
        { rewrite (find_key_app _ _ _ _ Eq) in Hf. by injection Hf as <-. }
        unfold find_key in *. rewrite list_find_app_r in Hf by done. cbn in Hf.
        by rewrite decide_False in Hf by congruence.
    + exists (entry_of (length log) r). rewrite entry_table by (done || apply Ei). by rewrite Hnew.
Qed.

(** * Interleavings

    What daemons, workers and surfaces may do to the two databases, one
    transaction at a time.  A decision under way is held by the process that
    makes it: a row it has read, or a decision the ledger already has.  The
    relation allows more orders than the functions of the lane take; that every
    run of theirs is a run of it is proved below ([ran_steps]), not assumed, and
    what is proved of reachable worlds is thereby proved of the lanes they reach. *)

Inductive Held :=
| HeldRow (record : ApprovalRequestRecord)
| HeldDecision (key : list Z) (revision : Z) (outcome : ApprovalOutcome) (at_ms : Z).

Record World := mkWorld {
  w_requests : Store;
  w_ledger : list RawEntry;
  w_held : list Held
}.

(** The keys the free-form lane of [record_approval] writes in the ledger. *)
Section Steps.
Context `{RandomRowid} (free : list Z -> Prop).

Definition proposes_or_expires (c : Call) : bool :=
  match c with CallPropose _ | CallExpire _ _ _ => true | _ => false end.

Inductive step : World -> World -> Prop :=
(** Anybody proposes or expires. *)
| step_requests s t held h c :
    proposes_or_expires c = true ->
    step (mkWorld s t held) (mkWorld (snd (run_call h c s)) t held)
(** A decision reads the row it is about. *)
| step_read s t held key record :
    ApprovalRequests.entry key (table s) = Ok (Some record) ->
    step (mkWorld s t held) (mkWorld s t (HeldRow record :: held))
(** It is recorded in the ledger under the row's key and subject. *)
| step_recorded s t held record outcome decider now_ms cap receipt t' :
    HeldRow record ∈ held -> handle_capacity cap ->
    ApprovalLedger.record cap (ApprovalLedger.mkRecord (rr_request_key record) (rr_subject record)
      (store_decision outcome) decider now_ms) t = (Ok receipt, t') ->
    step (mkWorld s t held)
         (mkWorld s t' (HeldDecision (rr_request_key record) (rr_revision record) outcome now_ms :: held))
(** A repair reads a recorded decision of a row. *)
| step_repair s t held key record e :
    HeldRow record ∈ held -> rr_request_key record = key ->
    ApprovalLedger.entry key t = Ok (Some e) ->
    step (mkWorld s t held)
         (mkWorld s t (HeldDecision key (rr_revision record) (outcome_of (en_decision e)) (en_decided_at_ms e) :: held))
(** The transition, under the row's revision. *)
| step_decide s t held h key revision outcome at_ms :
    HeldDecision key revision outcome at_ms ∈ held ->
    step (mkWorld s t held) (mkWorld (snd (ApprovalRequests.decide h key revision outcome key at_ms s)) t held)
(** A process ends, or is done with what it holds. *)
| step_forget s t held held' :
    held' ⊆ held -> step (mkWorld s t held) (mkWorld s t held')
(** The free-form lane. *)
| step_free s t held cap r :
    handle_capacity cap -> free (ar_approval_key r) ->
    step (mkWorld s t held) (mkWorld s (snd (ApprovalLedger.record cap r t)) held).

Definition steps : World -> World -> Prop := rtc step.

(** * What every interleaving keeps *)

Definition recorded_as (t : list RawEntry) (key : list Z) (o : ApprovalOutcome) : Prop :=
  exists e, ApprovalLedger.entry key t = Ok (Some e) /\ en_decision e = store_decision o.

Definition asked_for (m : Entries) (key subject : list Z) : Prop :=
  exists e, m !! key = Some e /\ rr_subject e = subject.

Record backed (w : World) : Prop := mkBacked {
  bk_requests : table_ok (table (w_requests w));
  bk_ledger : ledger_ok (w_ledger w);
  (** an answered row links to its own key, and the ledger has its decision *)
  bk_rows key e : entries_of (table (w_requests w)) !! key = Some e ->
    (forall o, rr_state e = outcome_state o ->
       rr_approval_key e = Some key /\ recorded_as (w_ledger w) key o);
  (** and so has it a decision on its way to the row *)
  bk_held key revision o at_ms : HeldDecision key revision o at_ms ∈ w_held w ->
    recorded_as (w_ledger w) key o;
  (** a row somebody read is there still, asking for the same *)
  bk_read record : HeldRow record ∈ w_held w ->
    asked_for (entries_of (table (w_requests w))) (rr_request_key record) (rr_subject record);
  (** when the free-form lane stays off the keys of proposals, a recorded
      decision under such a key is about the subject of its proposal *)
  bk_subject : (forall k, free k -> request_key_ok k = false) ->
    forall key e, ApprovalLedger.entry key (w_ledger w) = Ok (Some e) -> request_key_ok key = true ->
      asked_for (entries_of (table (w_requests w))) key (en_subject e)
}.
End Steps.

Lemma recorded_as_keep `{RandomRowid} cap r t key o :
  handle_capacity cap -> ledger_ok t -> recorded_as t key o ->
  recorded_as (snd (ApprovalLedger.record cap r t)) key o.
Proof.
  intros Hc Ht (e & He & Ho). pose proof (ledger_step cap r t Hc Ht) as H1.
  destruct (ApprovalLedger.record cap r t) as [a t']. destruct H1 as (_ & Hk & _). exists e. auto.
Qed.

Lemma asked_for_keep (s s' : Store) key subject :
  (forall k e, entries_of (table s) !! k = Some e ->
     exists e', entries_of (table s') !! k = Some e' /\ same_proposal e e' /\ (is_pending (rr_state e) = false -> e' = e)) ->
  asked_for (entries_of (table s)) key subject -> asked_for (entries_of (table s')) key subject.
Proof.
  intros Hk (e & He & Hs). destruct (Hk _ _ He) as (e' & He' & (_ & _ & Hs' & _) & _). exists e'. by rewrite Hs'.
Qed.

Lemma outcome_state_inj o o' : outcome_state o = outcome_state o' -> o = o'.
Proof. by destruct o, o'. Qed.

Lemma outcome_not_pending o : is_pending (outcome_state o) = false.
Proof. by destruct o. Qed.

(** A call on the requests keeps the rest, when every row it answers is backed. *)
Lemma backed_call `{RandomRowidLaws} free s t held h c :
  backed free (mkWorld s t held) -> deletes c = false ->
  (forall k rev o akey at_ms, c = CallDecide k rev o akey at_ms -> akey = k /\ recorded_as t k o) ->
  backed free (mkWorld (snd (run_call h c s)) t held).
Proof.
  intros [Hr Hl Hrows Hheld Hread Hsub] Hc Hd. cbn [w_requests w_ledger w_held] in *.
  destruct (run_call_step h c s Hr Hc) as (Hok & Hkeep & Hfrom).
  constructor; cbn [w_requests w_ledger w_held]; [done|done| |done| |].
  - intros key e He o Ho. destruct (Hfrom _ _ He) as [He0|[(_ & Hp & _)|(e0 & _ & _ & Hcase)]].
    + by apply (Hrows key e He0).
    + exfalso. rewrite Hp in Ho. by destruct o.
    + destruct c as [p|k rev o' akey at_ms|k rev at_ms|older]; try done.
      * destruct Hcase as [-> ->]. destruct (Hd _ _ _ _ _ eq_refl) as [-> Hrec]. cbn in *.
        by rewrite (outcome_state_inj _ _ Ho) in Hrec.
      * destruct Hcase as [-> ->]. cbn in Ho. by destruct o.
  - intros r Hin. eapply asked_for_keep; [exact Hkeep|auto].
  - intros Hfree key e He Hk. eapply asked_for_keep; [exact Hkeep|eauto].
Qed.

(** A recording in the ledger keeps the rest, when the key is free or of a row read. *)
Lemma backed_record `{RandomRowidLaws} (free : list Z -> Prop) s t held cap r :
  backed free (mkWorld s t held) -> handle_capacity cap ->
  (free (ar_approval_key r) \/ asked_for (entries_of (table s)) (ar_approval_key r) (ar_subject r)) ->
  backed free (mkWorld s (snd (ApprovalLedger.record cap r t)) held).
Proof.
  intros [Hr Hl Hrows Hheld Hread Hsub] Hc Hkey. cbn [w_requests w_ledger w_held] in *.
  assert (Hstep := ledger_step cap r t Hc Hl).
  destruct (ApprovalLedger.record cap r t) as [a t'] eqn:E. destruct Hstep as (Hok & Hkeep & Hfrom & _).
  assert (Hrec : forall key o, recorded_as t key o -> recorded_as t' key o).
  { intros key o H1. pose proof (recorded_as_keep cap r t key o Hc Hl H1) as H2. by rewrite E in H2. }
  constructor; cbn [w_requests w_ledger w_held snd]; [done|done| | |done|].
  - intros key e He o Ho. destruct (Hrows key e He o Ho). auto.
  - eauto.
  - intros Hfree key e He Hk. destruct (Hfrom _ _ He) as [He0|[-> [Hs _]]]; [by apply Hsub|].
    destruct Hkey as [Hf|Ha]; [by rewrite Hfree in Hk|]. by rewrite Hs.
Qed.

Lemma backed_held `{RandomRowidLaws} (free : list Z -> Prop) s t held held' :
  backed free (mkWorld s t held) ->
  (forall k rev o at_ms, HeldDecision k rev o at_ms ∈ held' -> recorded_as t k o) ->
  (forall r, HeldRow r ∈ held' -> asked_for (entries_of (table s)) (rr_request_key r) (rr_subject r)) ->
  backed free (mkWorld s t held').
Proof. intros [Hr Hl Hrows Hheld Hread Hsub] Hd Ha. by constructor. Qed.

Lemma store_outcome d : store_decision (outcome_of d) = d.
Proof. by destruct d. Qed.

Lemma entry_asked (t : list RawRecord) key record :
  table_ok t -> ApprovalRequests.entry key t = Ok (Some record) ->
  rr_request_key record = key /\ asked_for (entries_of t) key (rr_subject record) /\
  request_key_ok key = true /\ entries_of t !! key = Some record.
Proof.
  intros Hok. unfold ApprovalRequests.entry. rewrite valid_request_key.
  destruct (request_key_ok key); [|done]. cbn [mbind result_bind]. rewrite read_by_key_table by done.
  intros [= He]. pose proof (entry_in_table _ _ _ Hok He) as (_ & Hk & _). split_and!; try done. by exists record.
Qed.

Lemma step_backed `{RandomRowidLaws} free w w' : step free w w' -> backed free w -> backed free w'.
Proof.
  intros [s t held h c Hc|s t held key record He|s t held record outcome decider now_ms cap receipt t' Hin Hcap Hrec
    |s t held key record e Hin Hkey He|s t held h key revision outcome at_ms Hin|s t held held' Hsub|s t held cap r Hcap Hf] Hb.
  - apply backed_call; [done|by destruct c|]. intros. subst c. done.
  - pose proof Hb as [Hr _ _ Hheld Hread _]. cbn in *. apply (backed_held free s t held); [done| |].
    + intros k rev o at_ms [E|Hin]%elem_of_cons; [done|eauto].
    + intros r [[= ->]|Hin]%elem_of_cons; [|auto]. destruct (entry_asked _ _ _ Hr He) as (-> & Ha & _). done.
  - pose proof Hb as [Hr Hl _ Hheld Hread _]. cbn in *.
    pose proof (backed_record free s t held cap (ApprovalLedger.mkRecord (rr_request_key record) (rr_subject record)
      (store_decision outcome) decider now_ms) Hb Hcap (or_intror (Hread _ Hin))) as Hb'.
    rewrite Hrec in Hb'. cbn [snd] in Hb'. pose proof Hb' as [_ _ _ Hheld' _ _]. cbn in Hheld'.
    apply (backed_held free s t' held); [done| |].
    + intros k rev o at_ms' [E|Hin']%elem_of_cons; [injection E as -> -> -> ->|eauto].
      assert (Hstep := ledger_step cap (ApprovalLedger.mkRecord (rr_request_key record) (rr_subject record)
        (store_decision outcome) decider now_ms) t Hcap Hl). rewrite Hrec in Hstep.
      destruct Hstep as (_ & _ & _ & e & He & (_ & Hd & _) & _). by exists e.
    + intros r [E|Hin']%elem_of_cons; [done|auto].
  - pose proof Hb as [Hr Hl _ Hheld Hread _]. cbn in *. apply (backed_held free s t held); [done| |].
    + intros k rev o at_ms' [E|Hin']%elem_of_cons; [injection E as -> -> -> ->|eauto].
      exists e. by rewrite store_outcome.
    + intros r [E|Hin']%elem_of_cons; [done|auto].
  - apply (backed_call free s t held h (CallDecide key revision outcome key at_ms)); [done..|].
    intros k rev o akey t0 [= <- <- <- <- <-]. split; [done|]. by eapply (bk_held _ _ Hb).
  - pose proof Hb as [_ _ _ Hheld Hread _]. cbn in *. apply (backed_held free s t held); [done| |]; eauto.
  - apply backed_record; [done..|by left].
Qed.

Lemma steps_backed `{RandomRowidLaws} free w w' : steps free w w' -> backed free w -> backed free w'.
Proof. induction 1; eauto using step_backed. Qed.

(** Two new databases. *)
Definition new_world (bells : list Z) : World := mkWorld (mkStore [] bells) [] [].

Lemma new_world_backed free bells : backed free (new_world bells).
Proof.
  constructor; cbn.
  - constructor; [apply rows_ok_nil|constructor..].
  - exists []. split; [done|]. constructor; [constructor|constructor|done].
  - intros key e He. by rewrite lookup_empty in He.
  - intros key rev o at_ms H. set_solver.
  - intros r H. set_solver.
  - intros _ key e He _. unfold ApprovalLedger.entry in He. by destruct (ApprovalLedger.validate_identifier key _) as [[]|].
Qed.

Lemma ok_entry (t : list RawRecord) key e :
  table_ok t -> request_key_ok key = true -> entries_of t !! key = Some e ->
  ApprovalRequests.entry key t = Ok (Some e).
Proof.
  intros Hok Hk He. unfold ApprovalRequests.entry. rewrite valid_request_key, Hk. cbn [mbind result_bind].
  by rewrite read_by_key_table, He.
Qed.

(** No step loses a decision or an answered row. *)
Lemma step_keeps `{RandomRowidLaws} free w w' :
  step free w w' -> backed free w ->
  (forall key e, entries_of (table (w_requests w)) !! key = Some e -> is_pending (rr_state e) = false ->
     entries_of (table (w_requests w')) !! key = Some e) /\
  (forall key d, ApprovalLedger.entry key (w_ledger w) = Ok (Some d) -> ApprovalLedger.entry key (w_ledger w') = Ok (Some d)).
Proof.
  assert (Hcall : forall s h c, table_ok (table s) -> deletes c = false -> forall key e,
    entries_of (table s) !! key = Some e -> is_pending (rr_state e) = false ->
    entries_of (table (snd (run_call h c s))) !! key = Some e).
  { intros s h c Hok Hc key e He Hp. destruct (run_call_step h c s Hok Hc) as (_ & Hkeep & _).
    destruct (Hkeep _ _ He) as (e' & He' & _ & Heq). by rewrite <- (Heq Hp). }
  assert (Hrec : forall cap r t, handle_capacity cap -> ledger_ok t -> forall key d,
    ApprovalLedger.entry key t = Ok (Some d) -> ApprovalLedger.entry key (snd (ApprovalLedger.record cap r t)) = Ok (Some d)).
  { intros cap r t Hc Ht key d Hd. pose proof (ledger_step cap r t Hc Ht) as H1.
    destruct (ApprovalLedger.record cap r t) as [a t']. apply H1, Hd. }
  intros [s t held h c Hc|s t held key record He|s t held record outcome decider now_ms cap receipt t' Hin Hcap Hr
    |s t held key record e Hin Hkey He|s t held h key revision outcome at_ms Hin|s t held held' Hsub|s t held cap r Hcap Hf] Hb;
    pose proof (bk_requests _ _ Hb) as Hq; pose proof (bk_ledger _ _ Hb) as Hl; cbn in *; split; try done; eauto.
  - apply Hcall; [done|by destruct c].
  - intros k d Hd. apply (Hrec _ (ApprovalLedger.mkRecord (rr_request_key record) (rr_subject record)
      (store_decision outcome) decider now_ms) t Hcap Hl) in Hd. by rewrite Hr in Hd.
  - apply (Hcall s h (CallDecide key revision outcome key at_ms)); done.
Qed.

(** In every reachable world an answered row is backed, and stays so. *)
Lemma answered_row_is_backed `{RandomRowidLaws} free w key e o :
  backed free w ->
  ApprovalRequests.entry key (table (w_requests w)) = Ok (Some e) -> rr_state e = outcome_state o ->
  rr_approval_key e = Some key /\
  exists d, en_decision d = store_decision o /\
    ((forall k, free k -> request_key_ok k = false) -> en_subject d = rr_subject e) /\
    forall w', steps free w w' ->
      ApprovalRequests.entry key (table (w_requests w')) = Ok (Some e) /\
      ApprovalLedger.entry key (w_ledger w') = Ok (Some d).
Proof.
  intros Hb He Ho.
  destruct (entry_asked _ _ _ (bk_requests _ _ Hb) He) as (Hk & _ & Hkey & Hm).
  destruct (bk_rows _ _ Hb key e Hm o Ho) as (Ha & d & Hd & Hdo). split; [done|]. exists d. split; [done|]. split.
  - intros Hfree. destruct (bk_subject _ _ Hb Hfree key d Hd Hkey) as (e' & He' & <-). by rewrite Hm in He'; injection He' as <-.
  - intros w' Hs'. assert (Hgoal : entries_of (table (w_requests w')) !! key = Some e /\ ApprovalLedger.entry key (w_ledger w') = Ok (Some d) /\ backed free w').
    { induction Hs' as [w|w w1 w' Hstep _ IH]; [done|]. pose proof (step_backed free _ _ Hstep Hb) as Hb1.
      destruct (step_keeps free w w1 Hstep Hb) as [Hkr Hkl]. apply IH; auto.
      - apply ok_entry; [apply Hb1|done|]. apply Hkr; [done|]. rewrite Ho. apply outcome_not_pending.
      - apply Hkr; [done|]. rewrite Ho. apply outcome_not_pending. }
    destruct Hgoal as (H1 & H2 & Hb'). split; [|done]. by apply ok_entry; [apply Hb'| |].
Qed.

(** * Handlers are runs *)

Definition world_of (l : Lane) (held : list Held) : World := mkWorld (requests l) (ledger l) held.

(** Others do anything that is a run, and leave what this process holds. *)
Definition others_run `{RandomRowid} (free : list Z -> Prop) (others : Lane -> Lane) : Prop :=
  forall l held, backed free (world_of l held) -> steps free (world_of l held) (world_of (others l) held).

Lemma forget_all `{RandomRowid} free l held held' :
  held' ⊆ held -> steps free (world_of l held) (world_of l held').
Proof. intros H1. by apply rtc_once, step_forget. Qed.

Lemma steps_trans `{RandomRowid} free w1 w2 w3 : steps free w1 w2 -> steps free w2 w3 -> steps free w1 w3.
Proof. intros. by etrans. Qed.

Lemma entry_kept `{RandomRowidLaws} free w w' key e :
  steps free w w' -> backed free w -> entries_of (table (w_requests w)) !! key = Some e ->
  exists e', entries_of (table (w_requests w')) !! key = Some e' /\ same_proposal e e'.
Proof.
  intros Hs. revert e. induction Hs as [w|w w1 w' Hstep _ IH]; intros e Hb He; [by exists e|].
  assert (exists e1, entries_of (table (w_requests w1)) !! key = Some e1 /\ same_proposal e e1) as (e1 & He1 & Hs1).
  { pose proof (bk_requests _ _ Hb) as Hq. assert (Hcall : forall s h c, table_ok (table s) -> deletes c = false ->
      entries_of (table s) !! key = Some e ->
      exists e', entries_of (table (snd (run_call h c s))) !! key = Some e' /\ same_proposal e e').
    { intros s h c Hok Hc Hx. destruct (run_call_step h c s Hok Hc) as (_ & Hkeep & _).
      destruct (Hkeep _ _ Hx) as (e' & ? & ? & _). eauto. }
    destruct Hstep as [s t held h c Hc| | | |s t held h key0 revision outcome at_ms Hin| |]; cbn in *; try (by exists e).
    - apply Hcall; [done|by destruct c|done].
    - apply (Hcall s h (CallDecide key0 revision outcome key0 at_ms)); done. }
  destruct (IH e1) as (e' & He' & Hs'); [by eapply step_backed|done|]. exists e'. split; [done|].
  unfold same_proposal in *. destruct_and!. split_and!; congruence.
Qed.

(** What deciding does to the requests. *)
Lemma decide_exact `{RandomRowidLaws} h key rev o at_ms (s : Store) a s' :
  table_ok (table s) -> ApprovalRequests.decide h key rev o key at_ms s = (a, s') ->
  table_ok (table s') /\
  match a with
  | Ok e => entries_of (table s') !! key = Some e /\ rr_state e = outcome_state o
  | Err _ => table s' = table s
  end.
Proof.
  intros Hok E.
  destruct (run_call h (CallDecide key rev o key at_ms) s) as [b s1] eqn:E1.
  destruct (run_call_refines h (CallDecide key rev o key at_ms) s b s1 Hok E1) as (Hs & Hok1 & _).
  cbn [run_call] in E1. rewrite E in E1. unfold answering in E1. cbn [fst snd] in E1. injection E1 as <- <-.
  split; [done|]. cbn [spec_call] in Hs. destruct a as [e|e].
  - destruct (move_refusal _ _ _ _ _); [done|]. unfold spec_move in Hs.
    destruct (entries_of (table s) !! key) as [x|]; [|done]. destruct (_ && _); [|done].
    injection Hs as <- <-. by rewrite lookup_insert_eq.
  - unfold ApprovalRequests.decide, transition, on_table in E.
    destruct (decide_body _ _ _ _ _ (table s)) as [[x t]|x]; cbn in E; [done|]. by injection E as _ <-.
Qed.

(** The decision an answer is about is the one that stands. *)
Definition answer_stands (key : list Z) (outcome : ApprovalOutcome) (now_ms : Z) (before after : Lane)
    (answer : option (Decided ApprovalDecisionReceipt)) : Prop :=
  match answer with
  | Some (Ok r) =>
      exists e d, ApprovalRequests.entry key (table (requests after)) = Ok (Some e) /\
        rr_state e = outcome_state outcome /\
        ApprovalLedger.entry key (ledger after) = Ok (Some d) /\ en_decision d = store_decision outcome /\
        dr_outcome r = outcome /\ dr_request_key r = key /\ dr_subject r = rr_subject e /\
        dr_run_id r = rr_run_id e /\ dr_entry_id r = en_entry_id d /\ dr_decider r = en_decider d /\
        dr_decided_at_ms r = en_decided_at_ms d
  | Some (Err (AlreadyDecided o who)) =>
      exists d, ApprovalLedger.entry key (ledger after) = Ok (Some d) /\
        en_decision d = store_decision o /\ en_decider d = who
  | Some (Err RequestExpired) =>
      exists e, ApprovalRequests.entry key (table (requests before)) = Ok (Some e) /\
        (rr_state e = Expired \/ (rr_state e = Pending /\ rr_expires_at_ms e <= now_ms))
  | Some (Err UnknownProposal) =>
      ApprovalRequests.entry key (table (requests before)) = Ok None
  | Some (Err MalformedKey) => request_key_ok key = false
  | Some (Err LedgerIsFull) | Some (Err DecisionUnavailable) | None => True
  end.

Lemma already_decided_stands free held key e outcome now_ms before l :
  backed free (world_of l held) -> ApprovalRequests.entry key (table (requests l)) = Ok (Some e) ->
  answer_stands key outcome now_ms before l (Some (already_decided e outcome l)).
Proof.
  intros Hb He. destruct (entry_asked _ _ _ (bk_requests _ _ Hb) He) as (Hk & _ & _ & Hm). cbn in Hm.
  assert (Hcase : forall o, rr_state e = outcome_state o ->
    exists d, linked_entry e l = Some d /\ ApprovalLedger.entry key (ledger l) = Ok (Some d) /\ en_decision d = store_decision o).
  { intros o Ho. destruct (bk_rows _ _ Hb key e Hm o Ho) as (Ha & d & Hd & Hdo). exists d.
    unfold linked_entry. rewrite Ha. cbn in *. by rewrite Hd. }
  unfold already_decided. destruct (rr_state e) eqn:Est; cbn [mbind result_bind]; [done| | |done].
  - destruct (Hcase OutcomeGranted eq_refl) as (d & -> & Hd & Hdo). cbn [ok_or mbind result_bind].
    case_bool_decide as E; cbn [negb answer_stands]; [|by exists d]. subst outcome. exists e, d. by rewrite Est.
  - destruct (Hcase OutcomeDenied eq_refl) as (d & -> & Hd & Hdo). cbn [ok_or mbind result_bind].
    case_bool_decide as E; cbn [negb answer_stands]; [|by exists d]. subst outcome. exists e, d. by rewrite Est.
Qed.

Lemma entry_category (t : list RawRecord) key e :
  table_ok t -> ApprovalRequests.entry key t = Err e -> request_key_ok key = false /\ entry_refusal e = MalformedKey.
Proof.
  intros Hok. unfold ApprovalRequests.entry. rewrite valid_request_key. destruct (request_key_ok key).
  - cbn [mbind result_bind]. by rewrite read_by_key_table.
  - by intros [= <-].
Qed.

Section Runs.
Context `{RandomRowidLaws} (free : list Z -> Prop) (meanwhile : Point -> Lane -> Lane).
Hypothesis Hothers : forall p, others_run free (meanwhile p).

Lemma backed_others p l held : backed free (world_of l held) -> backed free (world_of (meanwhile p l) held).
Proof. intros Hb. by apply (steps_backed free (world_of l held)); [apply Hothers|]. Qed.

Lemma finish_decision_run h key record outcome decider now_ms receipt before l held :
  HeldDecision key (rr_revision record) outcome now_ms ∈ held ->
  backed free (world_of l held) ->
  (exists e, entries_of (table (requests l)) !! key = Some e /\ same_proposal record e) ->
  (exists d, ApprovalLedger.entry key (ledger l) = Ok (Some d) /\ en_decision d = store_decision outcome /\
     en_decider d = decider /\ rc_entry_id receipt = en_entry_id d /\ rc_decided_at_ms receipt = en_decided_at_ms d) ->
  request_key_ok key = true ->
  let '(answer, l') := finish_decision meanwhile h key record outcome decider now_ms receipt l in
  steps free (world_of l held) (world_of l' held) /\ answer_stands key outcome now_ms before l' (Some answer).
Proof.
  intros Hin Hb (e0 & He0 & Hsame) (d & Hd & Hdo & Hdw & Hid & Hat) Hkey. unfold finish_decision.
  destruct (ApprovalRequests.decide h key (rr_revision record) outcome key now_ms (requests l)) as [moved s] eqn:E.
  assert (Hstep : steps free (world_of l held) (world_of (with_requests s l) held)).
  { apply rtc_once. pose proof (step_decide free (requests l) (ledger l) held h key _ outcome now_ms Hin) as H1.
    by rewrite E in H1. }
  pose proof (steps_backed free _ _ Hstep Hb) as Hb1.
  destruct (decide_exact h key _ outcome now_ms _ _ _ (bk_requests _ _ Hb) E) as [Hok1 Hdec].
  destruct (entry_kept free _ _ key e0 Hstep Hb He0) as (e1 & He1 & Hsame1). cbn in He1.
  destruct moved as [moved|err].
  - destruct Hdec as [Hm Hst]. split; [exact Hstep|]. rewrite Hm in He1. injection He1 as ->.
    exists e1, d. cbn [requests ledger append_approval record_decision_audit with_requests].
    unfold same_proposal in *. destruct_and!. split_and!; try done; cbn; try congruence. by apply ok_entry.
  - assert (Herr : answer_stands key outcome now_ms before (with_requests s l) (Some (Err DecisionUnavailable))) by done.
    destruct err; try (split; [exact Hstep|exact Herr]).
    assert (Hstep2 : steps free (world_of l held) (world_of (meanwhile BeforeReread (with_requests s l)) held)).
    { eapply steps_trans; [exact Hstep|by apply Hothers]. }
    pose proof (steps_backed free _ _ Hstep2 Hb) as Hb2. split; [exact Hstep2|].
    destruct (entry_kept free _ _ key e0 Hstep2 Hb He0) as (e2 & He2 & _). cbn in He2.
    pose proof (ok_entry _ _ _ (bk_requests _ _ Hb2) Hkey He2) as He. cbn in He. rewrite He.
    by eapply already_decided_stands.
Qed.
End Runs.

Lemma answered_kept `{RandomRowidLaws} free w w' key e :
  steps free w w' -> backed free w -> entries_of (table (w_requests w)) !! key = Some e ->
  is_pending (rr_state e) = false -> entries_of (table (w_requests w')) !! key = Some e.
Proof.
  induction 1 as [w|w w1 w' Hstep _ IH]; [done|]. intros Hb He Hp. apply IH; [by eapply step_backed| |done].
  by apply (step_keeps free w w1 Hstep Hb).
Qed.

Lemma step_keeps_star `{RandomRowidLaws} free w w' key d :
  steps free w w' -> backed free w -> ApprovalLedger.entry key (w_ledger w) = Ok (Some d) ->
  ApprovalLedger.entry key (w_ledger w') = Ok (Some d).
Proof.
  induction 1 as [w|w w1 w' Hstep _ IH]; [done|]. intros Hb Hd. apply IH; [by eapply step_backed|].
  by apply (step_keeps free w w1 Hstep Hb).
Qed.

Lemma record_decision_run `{RandomRowidLaws} free meanwhile fault h cap key outcome decider now_ms l held :
  (forall p, others_run free (meanwhile p)) -> handle_capacity cap -> backed free (world_of l held) ->
  let '(answer, l') := record_decision meanwhile fault h cap key outcome decider now_ms l in
  steps free (world_of l held) (world_of l' held) /\ answer_stands key outcome now_ms l l' answer.
Proof.
  intros Ho Hc Hb. pose proof (bk_requests _ _ Hb) as Hq. cbn in Hq. unfold record_decision.
  assert (Hstay : forall a, answer_stands key outcome now_ms l l a ->
    steps free (world_of l held) (world_of l held) /\ answer_stands key outcome now_ms l l a) by done.
  destruct (ApprovalRequests.entry key (table (requests l))) as [[record|]|e] eqn:He; [|by apply Hstay|].
  2: { apply Hstay. destruct (entry_category _ _ _ Hq He) as [Hk ->]. exact Hk. }
  destruct (entry_asked _ _ _ Hq He) as (Hkey & _ & Hkok & Hm).
  destruct (rr_state record) eqn:Est; [|by apply Hstay; eapply already_decided_stands..|apply Hstay; exists record; by split; [|left]].
  destruct (negb (is_answerable_at record now_ms)) eqn:Hans.
  { apply Hstay. exists record. split; [done|]. right. split; [done|]. unfold is_answerable_at in Hans.
    rewrite Est in Hans. cbn in Hans. by bool_prop. }
  set (held1 := HeldRow record :: held).
  assert (S1 : steps free (world_of l held) (world_of (meanwhile AfterRead l) held1)).
  { assert (S0 : steps free (world_of l held) (world_of l held1)) by (apply rtc_once; by eapply step_read).
    eapply steps_trans; [exact S0|]. apply Ho. by eapply steps_backed. }
  pose proof (steps_backed free _ _ S1 Hb) as Hb1. set (l1 := meanwhile AfterRead l) in *.
  destruct (ApprovalLedger.record cap _ (ledger l1)) as [recorded rows] eqn:Er.
  pose proof (ledger_step cap (ApprovalLedger.mkRecord key (rr_subject record) (store_decision outcome) decider now_ms)
    (ledger l1) Hc (bk_ledger _ _ Hb1)) as Hls. rewrite Er in Hls. destruct Hls as (Hlok & Hlkeep & _ & Hans').
  destruct recorded as [receipt|err].
  - set (held2 := HeldDecision key (rr_revision record) outcome now_ms :: held1).
    assert (S2 : steps free (world_of l held) (world_of (with_ledger rows l1) held2)).
    { eapply steps_trans; [exact S1|]. apply rtc_once. unfold held2. rewrite <- Hkey in *.
      eapply (step_recorded free (requests l1) (ledger l1) held1 record outcome decider now_ms cap receipt rows);
        [by left|done|exact Er]. }
    assert (S3 : steps free (world_of l held) (world_of (meanwhile AfterLedger (with_ledger rows l1)) held2))
      by (eapply steps_trans; [exact S2|apply Ho; by eapply steps_backed]).
    set (l3 := meanwhile AfterLedger (with_ledger rows l1)) in *.
    assert (Hforget : forall l', steps free (world_of l' held2) (world_of l' held)).
    { intros l'. apply forget_all. unfold held2, held1. set_solver. }
    destruct fault; [|by split; [eapply steps_trans; [exact S3|apply Hforget]|]..].
    pose proof (steps_backed free _ _ S3 Hb) as Hb3.
    pose proof (finish_decision_run free meanwhile Ho h key record outcome decider now_ms receipt l l3 held2) as Hfin.
    destruct (finish_decision _ _ _ _ _ _ _ _ l3) as [answer l4]. destruct Hfin as [S4 Hst]; [by left|done| | |done|].
    + by apply (entry_kept free (world_of l held) (world_of l3 held2)).
    + destruct Hans' as (d & Hd & (Hs & Hdo & Hdw) & Hid & Hat & _). exists d. split_and!; try done.
      apply (step_keeps_star free (world_of (with_ledger rows l1) held2) (world_of l3 held2));
        [apply Ho| |exact Hd]; by eapply steps_backed.
    + split; [|exact Hst]. eapply steps_trans; [exact S3|]. eapply steps_trans; [exact S4|apply Hforget].
  - assert (Hrows : rows = ledger l1).
    { destruct err; try exact Hans'. by destruct Hans' as [? _]. }
    split.
    + eapply steps_trans; [exact S1|]. subst rows. apply (forget_all free l1 held1 held). unfold held1. set_solver.
    + destruct err; try done. destruct Hans' as (_ & d & Hd & _ & Hdo & Hdw). subst rows. exists d. cbn. split_and!; [done| |done].
      by rewrite Hdo, store_outcome.
Qed.

(** The one function that decides approvals, run while others propose,
    expire, decide, repair and record around it and whatever fails after its
    ledger write, is a run of the lane, and its answers are true.  A receipt
    names the decision that stands in both databases: the proposal has the
    outcome asked for, and the entry, decider and instant are the ledger's; an
    answer that it is decided already names the ledger's decision and decider;
    expired means that the row read was expired or past its deadline; unknown
    and malformed that there is no such proposal or key. *)
Theorem decision_answers_stand `{RandomRowidLaws} free bells meanwhile fault h cap key outcome decider now_ms l answer l' :
  (forall p, others_run free (meanwhile p)) -> handle_capacity cap ->
  steps free (new_world bells) (world_of l []) ->
  record_decision meanwhile fault h cap key outcome decider now_ms l = (answer, l') ->
  steps free (new_world bells) (world_of l' []) /\ answer_stands key outcome now_ms l l' answer.
Proof.
  intros Ho Hc Hs E. pose proof (steps_backed free _ _ Hs (new_world_backed free bells)) as Hb.
  pose proof (record_decision_run free meanwhile fault h cap key outcome decider now_ms l [] Ho Hc Hb) as H1.
  rewrite E in H1. destruct H1 as [H1 H2]. split; [by eapply steps_trans|done].
Qed.

(** * A second click *)

Lemma others_identity `{RandomRowid} free : forall p : Point, others_run free ((fun _ l => l) p).
Proof. intros p l held _. done. Qed.

(** Deciding again changes nothing.  Once a decision was answered with a
    receipt, and whatever ran since, another decision on the same proposal, by
    anyone, at any time, answers the same receipt as found recorded when it is for
    the same outcome and is refused with the outcome and decider that stand when
    it is for the other; either way it leaves both databases and the audit chain
    as they are. *)
Theorem decision_is_idempotent `{RandomRowidLaws} free meanwhile fault fault' h cap key outcome outcome' decider decider'
    now_ms later bells l receipt l' l'' :
  (forall p, others_run free (meanwhile p)) -> handle_capacity cap ->
  steps free (new_world bells) (world_of l []) ->
  record_decision meanwhile fault h cap key outcome decider now_ms l = (Some (Ok receipt), l') ->
  steps free (world_of l' []) (world_of l'' []) ->
  record_decision meanwhile fault' h cap key outcome' decider' later l'' =
    (Some (if bool_decide (outcome' = outcome)
           then Ok (mkDecisionReceipt (dr_entry_id receipt) (dr_request_key receipt) (dr_subject receipt)
                      (dr_run_id receipt) (dr_outcome receipt) (dr_decider receipt) (dr_decided_at_ms receipt)
                      FoundRecorded)
           else Err (AlreadyDecided outcome (dr_decider receipt))), l'').
Proof.
  intros Ho Hc Hs E Hs2. pose proof (steps_backed free _ _ Hs (new_world_backed free bells)) as Hb.
  pose proof (record_decision_run free meanwhile fault h cap key outcome decider now_ms l [] Ho Hc Hb) as H1.
  rewrite E in H1. destruct H1 as [Hrun (e & d & He & Hst & Hd & Hdo & Hr)].
  pose proof (steps_backed free _ _ Hrun Hb) as Hb'. pose proof (steps_backed free _ _ Hs2 Hb') as Hb2.
  destruct (entry_asked _ _ _ (bk_requests _ _ Hb') He) as (Hk & _ & Hkok & Hm).
  pose proof (answered_kept free _ _ key e Hs2 Hb' Hm ltac:(by rewrite Hst; destruct outcome)) as Hm2.
  pose proof (step_keeps_star free _ _ key d Hs2 Hb' Hd) as Hd2. cbn in Hm2, Hd2.
  destruct (bk_rows _ _ Hb2 key e Hm2 outcome Hst) as [Ha _].
  assert (Hlink : linked_entry e l'' = Some d) by (unfold linked_entry; rewrite Ha; cbn; by rewrite Hd2).
  assert (Halready : already_decided e outcome' l'' =
    if bool_decide (outcome' = outcome)
    then Ok (mkDecisionReceipt (en_entry_id d) (rr_request_key e) (rr_subject e) (rr_run_id e) outcome
               (en_decider d) (en_decided_at_ms d) FoundRecorded)
    else Err (AlreadyDecided outcome (en_decider d))).
  { unfold already_decided. rewrite Hst, Hlink. destruct outcome, outcome'; done. }
  unfold record_decision. rewrite (ok_entry _ _ _ (bk_requests _ _ Hb2) Hkok Hm2 : ApprovalRequests.entry key (table (requests l'')) = _).
  destruct receipt as [r1 r2 r3 r4 r5 r6 r7 r8]; cbn in Hr.
  destruct Hr as (-> & -> & -> & -> & -> & -> & ->). rewrite <- Hk in *. cbn.
  destruct outcome; cbn in Hst; rewrite Hst, Halready; by case_bool_decide.
Qed.

(** * Every function of the lane is a run *)

Section Functions.
Context `{RandomRowidLaws} (free : list Z -> Prop).

Lemma propose_run h p l held :
  steps free (world_of l held) (world_of (with_requests (snd (ApprovalRequests.propose h p (requests l))) l) held).
Proof.
  apply rtc_once. exact (step_requests free (requests l) (ledger l) held h (CallPropose p) eq_refl).
Qed.

Lemma expire_run h key revision at_ms l held :
  steps free (world_of l held)
    (world_of (with_requests (snd (ApprovalRequests.expire h key revision at_ms (requests l))) l) held).
Proof.
  apply rtc_once. exact (step_requests free (requests l) (ledger l) held h (CallExpire key revision at_ms) eq_refl).
Qed.

Lemma expire_proposed_run h rows now_ms s l held :
  steps free (world_of l held) (world_of (with_requests s l) held) ->
  steps free (world_of l held) (world_of (with_requests (expire_proposed h rows now_ms s) l) held).
Proof.
  revert s. induction rows as [|r rows IH]; intros s Hs; [done|]. cbn [expire_proposed].
  case_match; apply IH; [done|]. eapply steps_trans; [exact Hs|].
  exact (expire_run h (rr_request_key r) (rr_revision r) now_ms (with_requests s l) held).
Qed.

Lemma expire_unanswered_run bell run_id now_ms l held :
  steps free (world_of l held)
    (world_of (with_requests (expire_unanswered_approvals bell run_id now_ms (requests l)) l) held).
Proof.
  unfold expire_unanswered_approvals. assert (steps free (world_of l held) (world_of (with_requests (requests l) l) held)) as H1
    by apply rtc_refl.
  case_match; [by apply expire_proposed_run|exact H1].
Qed.

Lemma provider_propose_run context expires run_id request_id now_ms l held :
  steps free (world_of l held) (world_of (snd (provider_propose context expires run_id request_id now_ms l)) held).
Proof.
  unfold provider_propose. destruct (ApprovalRequests.propose _ _ _) as [proposed s] eqn:E.
  cbn [snd]. change s with (snd (proposed, s)). rewrite <- E. apply propose_run.
Qed.

Lemma propose_approval_run d run_id subject digest o history now_ms l held :
  steps free (world_of l held) (world_of (snd (propose_approval d run_id subject digest o history now_ms l)) held).
Proof.
  unfold propose_approval. case_match; [apply rtc_refl|]. destruct (observe o digest) as [context|]; [|apply rtc_refl].
  cbv zeta. destruct (ApprovalRequests.propose _ _ _) as [proposed s] eqn:E.
  cbn [snd]. change s with (snd (proposed, s)). rewrite <- E. apply propose_run.
Qed.

Lemma admit_run d run_id digest o now_ms l held :
  steps free (world_of l held) (world_of (snd (admit_approval d run_id digest o now_ms l)) held).
Proof.
  unfold admit_approval. destruct (ApprovalRequests.by_subject _ _) as [history|]; [|apply rtc_refl].
  assert (Hl : steps free (world_of l held) (world_of (snd (launch_refusal d run_id digest o history now_ms l)) held)).
  { unfold launch_refusal. destruct (decide_gate _ _ _) as [| |r]; cbv zeta.
    - case_match; apply rtc_refl.
    - pose proof (propose_approval_run d run_id (launch_subject digest) digest o history now_ms l held) as H1.
      by destruct (propose_approval _ _ _ _ _ _ _ l) as [r l1].
    - destruct r; apply rtc_refl. }
  destruct (launch_refusal _ _ _ _ _ _ l) as [[[r|]|] l1]; exact Hl.
Qed.

(** What others leave in between, for a handler with one kind of gap. *)
Context (meanwhile : Lane -> Lane) (Hothers : others_run free meanwhile).

(** One row of the repair, from a lane where its process has read the row. *)
Lemma reconcile_rows_run h rows : forall l held,
  (forall r, r ∈ rows -> HeldRow r ∈ held) -> backed free (world_of l held) ->
  steps free (world_of l held) (world_of (snd (reconcile_rows meanwhile h rows l)) held).
Proof.
  induction rows as [|r rows IH]; intros l held Hheld Hb; [apply rtc_refl|]. cbn [reconcile_rows].
  pose proof (Hothers l held Hb) as S1. pose proof (steps_backed free _ _ S1 Hb) as Hb1.
  set (l1 := meanwhile l) in *.
  assert (Hrest : forall l2, steps free (world_of l1 held) (world_of l2 held) ->
    steps free (world_of l held) (world_of (snd (reconcile_rows meanwhile h rows l2)) held)).
  { intros l2 S2. pose proof (steps_trans free _ _ _ S1 S2) as S3. eapply steps_trans; [exact S3|].
    apply IH; [intros x Hx; apply Hheld; by right|by eapply steps_backed]. }
  destruct (negb _); [apply Hrest, rtc_refl|].
  destruct (ApprovalLedger.entry (rr_request_key r) (ledger l1)) as [[e|]|err] eqn:He; [|apply Hrest, rtc_refl|exact S1].
  set (held1 := HeldDecision (rr_request_key r) (rr_revision r) (outcome_of (en_decision e)) (en_decided_at_ms e) :: held).
  assert (S2 : steps free (world_of l1 held) (world_of (with_requests (snd (ApprovalRequests.decide h (rr_request_key r)
    (rr_revision r) (outcome_of (en_decision e)) (rr_request_key r) (en_decided_at_ms e) (requests l1))) l1) held)).
  { apply (steps_trans free _ (world_of l1 held1)).
    { apply rtc_once. eapply step_repair; [apply Hheld; by left|done|exact He]. }
    eapply steps_trans; [apply rtc_once, (step_decide free _ _ held1 h); by left|].
    apply (forget_all free (with_requests _ l1) held1 held). unfold held1. set_solver. }
  destruct (ApprovalRequests.decide _ _ _ _ _ _ _) as [moved s] eqn:E. cbn [snd] in S2.
  pose proof (steps_trans free _ _ _ S1 S2) as S3.
  destruct moved as [moved|[]]; try exact S3; apply Hrest, S2.
Qed.

(** A process reads rows that are there. *)
Lemma read_rows rows : forall l held,
  table_ok (table (requests l)) -> (forall r, r ∈ rows -> r ∈ records (table (requests l))) ->
  steps free (world_of l held) (world_of l ((HeldRow <$> rows) ++ held)).
Proof.
  induction rows as [|r rows IH]; intros l held Hok Hrows; [apply rtc_refl|].
  eapply steps_trans; [apply IH; [done|intros x Hx; apply Hrows; by right]|].
  apply rtc_once. eapply step_read. pose proof (Hrows r ltac:(by left)) as Hr.
  apply records_elem in Hr; [|done]. pose proof (entry_in_table _ _ _ Hok Hr) as (_ & _ & Ho & _).
  apply ok_entry; [done|apply Ho|exact Hr].
Qed.

Lemma reconcile_run h l held :
  backed free (world_of l held) ->
  steps free (world_of l held) (world_of (snd (reconcile_approval_requests meanwhile h l)) held).
Proof.
  intros Hb. pose proof (bk_requests _ _ Hb) as Hq. cbn in Hq.
  unfold reconcile_approval_requests. rewrite page_eq by (done || by vm_compute). cbn [pg_records].
  set (rows := take _ _).
  assert (S1 : steps free (world_of l held) (world_of l ((HeldRow <$> rows) ++ held))).
  { apply read_rows; [done|]. intros r Hr. assert (r ∈ beyond 0 (table (requests l))) as H1
      by (rewrite <- (take_drop (Z.to_nat APPROVAL_RECONCILE_LIMIT)); set_solver).
    by apply elem_of_filter_rows in H1 as [_ ?]. }
  pose proof (steps_backed free _ _ S1 Hb) as Hb1.
  eapply steps_trans; [exact S1|]. eapply steps_trans; [apply (reconcile_rows_run h rows); [|exact Hb1]|].
  - intros r Hr. apply elem_of_app. left. by apply list_elem_of_fmap_2.
  - apply forget_all. set_solver.
Qed.

Lemma expire_rows_run h rows now_ms : forall l held,
  backed free (world_of l held) ->
  steps free (world_of l held) (world_of (snd (expire_rows meanwhile h rows now_ms l)) held).
Proof.
  induction rows as [|r rows IH]; intros l held Hb; [apply rtc_refl|]. cbn [expire_rows].
  pose proof (Hothers l held Hb) as S1. set (l1 := meanwhile l) in *.
  pose proof (expire_run h (rr_request_key r) (rr_revision r) now_ms l1 held) as S2.
  destruct (ApprovalRequests.expire _ _ _ _ _) as [moved s]. cbn [snd] in S2.
  pose proof (steps_trans free _ _ _ S1 S2) as S3. pose proof (steps_backed free _ _ S3 Hb) as Hb3.
  destruct moved as [moved|[]]; try exact S3; (eapply steps_trans; [exact S3|]).
  - exact (IH (append_approval (rr_subject r) APPROVAL_SWEEPER "approval_expired" Timeout_ now_ms (with_requests s l1)) held Hb3).
  - exact (IH _ held Hb3).
Qed.

Lemma tick_expiries_run h now_ms l held :
  backed free (world_of l held) ->
  steps free (world_of l held) (world_of (snd (tick_expiries meanwhile h now_ms l)) held).
Proof. intros Hb. unfold tick_expiries. case_match; [by apply expire_rows_run|apply rtc_refl]. Qed.
End Functions.

Lemma record_approval_run `{RandomRowidLaws} free meanwhile fault h cap r l held :
  (forall p, others_run free (meanwhile p)) -> handle_capacity cap ->
  ((forall e, ApprovalRequests.entry (ar_approval_key r) (table (requests l)) <> Ok (Some e)) ->
     free (ar_approval_key r)) ->
  backed free (world_of l held) ->
  steps free (world_of l held) (world_of (snd (record_approval meanwhile fault h cap r l)) held).
Proof.
  intros Ho Hc Hfree Hb. unfold record_approval.
  assert (Hlane : (forall e, ApprovalRequests.entry (ar_approval_key r) (table (requests l)) <> Ok (Some e)) ->
    steps free (world_of l held)
      (world_of (with_ledger (snd (ApprovalLedger.record cap r (ledger (meanwhile AfterRead l)))) (meanwhile AfterRead l)) held)).
  { intros Hn. eapply steps_trans; [by apply Ho|]. apply rtc_once.
    exact (step_free free _ _ held cap r Hc (Hfree Hn)). }
  destruct (ApprovalRequests.entry _ _) as [[e|]|err] eqn:E; cbv zeta.
  - pose proof (record_decision_run free meanwhile fault h cap (ar_approval_key r) (outcome_of (ar_decision r))
      (ar_decider r) (ar_decided_at_ms r) l held Ho Hc Hb) as H1.
    destruct (record_decision _ _ _ _ _ _ _ _ _) as [a l']. exact (proj1 H1).
  - destruct (ApprovalLedger.record _ _ _) as [a rows]. by apply Hlane.
  - destruct (ApprovalLedger.record _ _ _) as [a rows]. by apply Hlane.
Qed.

(** Whatever the functions of the lane do to it, from a given lane on: each of
    them called any number of times, with any arguments, by any process, and
    wherever one leaves the databases to others, others run any of these
    functions in their turn; a decision may end with its process, or with a
    failure of the request database, after its ledger write.  Only a decision
    of the free-form lane of [record_approval], on a key that has no proposal
    when it looks, is about a key of [free]. *)
Inductive ran `{RandomRowid} (free : list Z -> Prop) : Lane -> Lane -> Prop :=
| ran_nothing l : ran free l l
| ran_then l1 l2 l3 : ran free l1 l2 -> ran free l2 l3 -> ran free l1 l3
| ran_propose h p l : ran free l (with_requests (snd (ApprovalRequests.propose h p (requests l))) l)
| ran_expire h key revision at_ms l :
    ran free l (with_requests (snd (ApprovalRequests.expire h key revision at_ms (requests l))) l)
| ran_launch d run_id digest o now_ms l : ran free l (snd (admit_approval d run_id digest o now_ms l))
| ran_permission context expires_after run_id request_id now_ms l :
    ran free l (snd (provider_propose context expires_after run_id request_id now_ms l))
| ran_unanswered bell run_id now_ms l :
    ran free l (with_requests (expire_unanswered_approvals bell run_id now_ms (requests l)) l)
| ran_decision meanwhile fault h cap key outcome decider now_ms l :
    (forall point l, ran free l (meanwhile point l)) -> handle_capacity cap ->
    ran free l (snd (record_decision meanwhile fault h cap key outcome decider now_ms l))
| ran_approval meanwhile fault h cap r l :
    (forall point l, ran free l (meanwhile point l)) -> handle_capacity cap ->
    ((forall e, ApprovalRequests.entry (ar_approval_key r) (table (requests l)) <> Ok (Some e)) ->
       free (ar_approval_key r)) ->
    ran free l (snd (record_approval meanwhile fault h cap r l))
| ran_repair meanwhile h l :
    (forall l, ran free l (meanwhile l)) -> ran free l (snd (reconcile_approval_requests meanwhile h l))
| ran_sweep meanwhile h now_ms l :
    (forall l, ran free l (meanwhile l)) -> ran free l (snd (tick_expiries meanwhile h now_ms l)).

(** So every lane the functions reach is reachable by steps, and what holds in
    every reachable world holds there. *)
Lemma ran_steps `{RandomRowidLaws} free l l' :
  ran free l l' -> forall held, backed free (world_of l held) -> steps free (world_of l held) (world_of l' held).
Proof.
  induction 1 as [l|l1 l2 l3 _ IH1 _ IH2|h p l|h key revision at_ms l|d run_id digest o now_ms l
    |context expires run_id request_id now_ms l|bell run_id now_ms l|meanwhile fault h cap key outcome decider now_ms l _ IH Hc
    |meanwhile fault h cap r l _ IH Hc Hf|meanwhile h l _ IH|meanwhile h now_ms l _ IH]; intros held Hb.
  - apply rtc_refl.
  - pose proof (IH1 held Hb) as S1. eapply steps_trans; [exact S1|]. apply IH2. by eapply steps_backed.
  - apply propose_run.
  - apply expire_run.
  - apply admit_run.
  - apply provider_propose_run.
  - apply expire_unanswered_run.
  - pose proof (record_decision_run free meanwhile fault h cap key outcome decider now_ms l held IH Hc Hb) as H1.
    destruct (record_decision _ _ _ _ _ _ _ _ l) as [a l']. exact (proj1 H1).
  - by apply record_approval_run.
  - by apply reconcile_run.
  - by apply tick_expiries_run.
Qed.

(** Two new databases. *)
Definition new_lane (bells : list Z) : Lane := mkLane (mkStore [] bells) [] [].

Lemma ran_backed `{RandomRowidLaws} free bells l :
  ran free (new_lane bells) l -> backed free (world_of l []).
Proof.
  intros Hr. eapply steps_backed; [exact (ran_steps free _ _ Hr [] (new_world_backed free bells))|].
  exact (new_world_backed free bells).
Qed.

(** C17: An answered proposal is backed by the ledger.  Start with two new
    databases and let the functions of the lane run, proposals, launches,
    permissions, decisions, repairs and sweeps, each any number of times, others
    running in between wherever they may and decisions cut short after their
    ledger write: a proposal that reads granted or denied links to its own key,
    under which the ledger has that very decision, and both stay so whatever
    of this runs next.  When the free-form lane stays off the keys of
    proposals, the decision in the ledger is about the proposal's subject. *)
Theorem answered_proposal_is_backed `{RandomRowidLaws} free bells l key e o :
  ran free (new_lane bells) l ->
  ApprovalRequests.entry key (table (requests l)) = Ok (Some e) -> rr_state e = outcome_state o ->
  rr_approval_key e = Some key /\
  exists d, en_decision d = store_decision o /\
    ((forall k, free k -> request_key_ok k = false) -> en_subject d = rr_subject e) /\
    forall l', ran free l l' ->
      ApprovalRequests.entry key (table (requests l')) = Ok (Some e) /\
      ApprovalLedger.entry key (ledger l') = Ok (Some d).
Proof.
  intros Hr He Ho. pose proof (ran_backed free bells l Hr) as Hb.
  destruct (answered_row_is_backed free (world_of l []) key e o Hb He Ho) as (Ha & d & Hd & Hs & Hk).
  split; [done|]. exists d. split_and!; [done..|]. intros l' Hr'.
  exact (Hk (world_of l' []) (ran_steps free l l' Hr' [] Hb)).
Qed.

(** * Admission *)

Lemma drift_None approved observed : approved_context_drift approved observed = None <-> approved = observed.
Proof.
  unfold approved_context_drift. rewrite find_None_iff. unfold ALL_FIELDS. rewrite !Forall_cons, Forall_nil.
  cbn [field_differs]. rewrite !negb_false_iff, !bool_decide_eq_true.
  destruct approved, observed; cbn. naive_solver.
Qed.

Lemma evidence_granted history :
  evidence_of history = Approval.Granted ->
  exists r older newer, history = older ++ r :: newer /\ rr_state r = ApprovalRequests.Granted /\
    Forall (fun x => decided_evidence (rr_state x) = None) newer /\ granted_record history = Some r.
Proof.
  unfold evidence_of, granted_record. intros Hev.
  assert (Hgen : forall l, default Undecided (head (omap (fun r => decided_evidence (rr_state r)) l)) = Approval.Granted ->
    exists r pre post, l = pre ++ r :: post /\ rr_state r = ApprovalRequests.Granted /\
      Forall (fun x => decided_evidence (rr_state x) = None) pre /\
      List.find (fun r => bool_decide (rr_state r = ApprovalRequests.Granted)) l = Some r).
  { induction l as [|r l IH]; [done|]. cbn [omap list_omap List.find]. destruct (rr_state r) eqn:E; cbn.
    1,4: intros Hl; destruct (IH Hl) as (x & pre & post & -> & Hx & Hpre & Hf); exists x, (r :: pre), post;
      split_and!; [done|done|constructor; [by rewrite E|done]|]; exact Hf.
    - intros _. exists r, [], l. by split_and!.
    - done. }
  destruct (Hgen _ Hev) as (r & pre & post & Hrev & Hr & Hpre & Hf). exists r, (reverse post), (reverse pre).
  split_and!; [|done|by apply Forall_reverse|done].
  rewrite <- (reverse_involutive history), Hrev, reverse_app, reverse_cons, <- app_assoc. done.
Qed.

(** The daemon's composition is over its configuration and its host. *)
Definition requires_approval (d : Standing) : bool :=
  match compose (approval_sources d Allowed) with Approval.ApprovalRequired => true | _ => false end.

Lemma admit_Ok `{RandomRowid} d run_id digest o now_ms l l' :
  admit_approval d run_id digest o now_ms l = (Ok tt, l') ->
  l' = l /\ exists history,
    ApprovalRequests.by_subject (launch_subject digest) (table (requests l)) = Ok history /\
    ((compose (approval_sources d Allowed) = Allowed) \/
     (requires_approval d = true /\ evidence_of history = Approval.Granted /\
      verify_approved_context history digest o = Ok tt)).
Proof.
  unfold admit_approval, requires_approval. destruct (ApprovalRequests.by_subject _ _) as [history|]; [|done].
  unfold launch_refusal, decide_gate. destruct (compose (approval_sources d Allowed)) eqn:Ec; cbn [negb].
  - intros [= <-]. split; [done|]. exists history. by split; [|left].
  - destruct (evidence_of history) eqn:Ev.
    + destruct (any_reachable _); [|done]. destruct (propose_approval _ _ _ _ _ _ _ _) as [[r|r] l1]; done.
    + destruct (verify_approved_context history digest o) as [[]|] eqn:Hv; [|done].
      intros [= <-]. split; [done|]. exists history. by split; [|right].
    + done.
  - destruct (host _); done.
Qed.

(** C18: A launch that needs an approval is admitted only under one.  When the
    composed policy requires approval and the gate lets a launch pass, then in
    any reachable state of the lane some proposal about this very document was
    granted, its bound context (document digest, program path and digest, prompt
    digest, working directory) is the one observed now, the ledger has the
    grant under its key, no proposal of the document raised later was denied or
    granted, and passing wrote nothing. *)
Theorem admitted_launch_was_granted `{RandomRowidLaws} free bells d run_id digest o now_ms l l' :
  steps free (new_world bells) (world_of l []) -> requires_approval d = true ->
  admit_approval d run_id digest o now_ms l = (Ok tt, l') ->
  l' = l /\
  exists e grant,
    ApprovalRequests.entry (rr_request_key e) (table (requests l)) = Ok (Some e) /\
    rr_state e = ApprovalRequests.Granted /\ rr_subject e = launch_subject digest /\
    observe o digest = Ok (rr_context e) /\
    ApprovalLedger.entry (rr_request_key e) (ledger l) = Ok (Some grant) /\ entry_grants grant = true /\
    forall key e', ApprovalRequests.entry key (table (requests l)) = Ok (Some e') ->
      rr_subject e' = launch_subject digest -> rr_request_entry_id e < rr_request_entry_id e' ->
      rr_state e' = Pending \/ rr_state e' = Expired.
Proof.
  intros Hs Hreq E. pose proof (steps_backed free _ _ Hs (new_world_backed free bells)) as Hb.
  pose proof (bk_requests _ _ Hb) as Hq. cbn in Hq.
  destruct (admit_Ok _ _ _ _ _ _ _ E) as (-> & history & Hh & [Hc|(_ & Hev & Hv)]); [by unfold requires_approval in Hreq; rewrite Hc in Hreq|].
  split; [done|]. destruct (evidence_granted _ Hev) as (e & older & newer & Ehist & Hst & Hnewer & Hg).
  assert (Hsub : identifier_ok (launch_subject digest) = true).
  { unfold ApprovalRequests.by_subject in Hh. rewrite valid_identifier in Hh. by destruct (identifier_ok _). }
  rewrite by_subject_eq in Hh by done. injection Hh as Hh.
  assert (He : e ∈ history) by (rewrite Ehist; set_solver).
  rewrite <- Hh in He. apply elem_of_filter_rows in He as [Hes Her]. bool_prop. apply records_elem in Her; [|done].
  pose proof (entry_in_table _ _ _ Hq Her) as (_ & _ & Hok & _).
  destruct (bk_rows _ _ Hb _ e Her OutcomeGranted Hst) as (_ & grant & Hgr & Hgd).
  exists e, grant. split_and!; [apply ok_entry; [done|apply Hok|done]|done|done| |done| |].
  - unfold verify_approved_context in Hv. rewrite Hg in Hv. destruct (observe o digest) as [c|]; [|done].
    cbn [mbind result_bind] in Hv. destruct (approved_context_drift (rr_context e) c) eqn:Ed; [done|].
    by apply drift_None in Ed as ->.
  - unfold entry_grants. by rewrite Hgd.
  - intros key e' He' Hsub' Hlt. destruct (entry_asked _ _ _ Hq He') as (Hk' & _ & _ & Hm').
    assert (Hin' : e' ∈ history).
    { rewrite <- Hh. apply elem_of_filter_rows. split; [by apply bool_decide_eq_true|]. apply records_elem; [done|].
      by rewrite Hk'. }
    pose proof (filter_ordered rr_request_entry_id (fun e => bool_decide (rr_subject e = launch_subject digest)) _
      (records_ordered _ Hq)) as Hord. rewrite Hh, Ehist in Hord. unfold ordered in Hord. rewrite fmap_app, fmap_cons in Hord.
    rewrite Ehist in Hin'. apply elem_of_app in Hin' as [Hin'|[->|Hin']%elem_of_cons]; [|lia|].
    + apply StronglySorted_app in Hord as (H1 & _ & _).
      specialize (H1 (rr_request_entry_id e') (rr_request_entry_id e)). enough (rr_request_entry_id e' < rr_request_entry_id e) by lia.
      apply H1; set_solver.
    + rewrite Forall_forall in Hnewer. specialize (Hnewer e' Hin'). destruct (rr_state e'); naive_solver.
Qed.

(** * Repair *)

(** What a row looks like once a recorded decision is completed. *)
Definition repaired (t : list RawEntry) (e : ApprovalRequestRecord) : ApprovalRequestRecord :=
  if is_pending (rr_state e) then
    match ApprovalLedger.entry (rr_request_key e) t with
    | Ok (Some d) => answered (outcome_state (outcome_of (en_decision d))) (Some (rr_request_key e)) (en_decided_at_ms d) e
    | _ => e
    end
  else e.


Lemma hex_char c : forallb lower_hex_byte (encode_char c) = true -> is_control c = false.
Proof.
  unfold encode_char. destruct (Z.ltb_spec c 0x80).
  { cbn [forallb]. rewrite andb_true_r. unfold lower_hex_byte, is_ascii_digit, is_control, in_range.
    rewrite orb_true_iff, orb_false_iff, !andb_true_iff, !andb_false_iff, !Z.leb_le, !Z.leb_gt. lia. }
  assert (Hhigh : forall b rest, 128 <= b -> forallb lower_hex_byte (b :: rest) = false).
  { intros b rest Hb. cbn [forallb]. apply andb_false_iff. left. unfold lower_hex_byte, is_ascii_digit, in_range.
    rewrite orb_false_iff, !andb_false_iff, !Z.leb_gt. lia. }
  destruct (Z.ltb_spec c 0x800); [|destruct (Z.ltb_spec c 0x10000)]; rewrite Hhigh; try done.
  - pose proof (Z.div_pos c 64). lia.
  - pose proof (Z.div_pos c 4096). lia.
  - pose proof (Z.div_pos c 262144). lia.
Qed.

Lemma request_key_identifier key : request_key_ok key = true -> ApprovalRequests.identifier_ok key = true.
Proof.
  unfold request_key_ok. destruct (strip_prefix _ key) as [hex|] eqn:E; [|done]. apply strip_prefix_Some in E.
  rewrite andb_true_iff, Z.eqb_eq. intros [Hl Hh]. unfold ApprovalRequests.identifier_ok. rewrite Hl.
  assert (existsb is_control key = false) as ->.
  { subst key. rewrite existsb_app. clear Hl. induction hex as [|c hex IH]; [done|].
    rewrite utf8_cons, forallb_app in Hh. bool_prop. destruct Hh as [Hc Hh]. specialize (IH Hh).
    cbn in IH. cbn. by rewrite (hex_char c Hc). }
  subst key. done.
Qed.

Lemma ledger_total t key :
  ledger_ok t -> request_key_ok key = true ->
  exists found, ApprovalLedger.entry key t = Ok found /\ from_option (fun d => 0 <= en_decided_at_ms d) True found.
Proof.
  intros (log & -> & Hok) Hk. rewrite entry_table by (done || by apply request_key_identifier). eexists. split; [done|].
  destruct (find_key key log) as [[i d]|] eqn:E; [|done]. cbn. apply find_key_Some in E as [Hi _].
  pose proof (lo_records _ Hok) as Hr. rewrite Forall_forall in Hr. apply list_elem_of_lookup_2, Hr in Hi. apply Hi.
Qed.

(** Completing one row. *)
Lemma decide_pending `{RandomRowidLaws} h key o at_ms (s : Store) e :
  table_ok (table s) -> request_key_ok key = true -> 0 <= at_ms ->
  entries_of (table s) !! key = Some e -> is_pending (rr_state e) = true ->
  exists s', ApprovalRequests.decide h key (rr_revision e) o key at_ms s =
    (Ok (answered (outcome_state o) (Some key) at_ms e), s') /\ table_ok (table s') /\
    entries_of (table s') = <[key := answered (outcome_state o) (Some key) at_ms e]> (entries_of (table s)).
Proof.
  intros Hok Hk Hat He Hp. destruct (entry_in_table _ _ _ Hok He) as (_ & _ & _ & Hv). rewrite Hp in Hv.
  destruct (run_call h (CallDecide key (rr_revision e) o key at_ms) s) as [a s'] eqn:E.
  destruct (run_call_refines _ _ _ _ _ Hok E) as (Hs & Hok' & _). cbn [spec_call] in Hs.
  unfold move_refusal in Hs. rewrite Hk in Hs. cbn [from_option] in Hs. rewrite (request_key_identifier key Hk) in Hs.
  rewrite (proj2 (Z.ltb_ge at_ms 0)), Hv in Hs by done. cbn [negb] in Hs.
  change (in_range i64_min i64_max 1) with true in Hs. cbn [negb] in Hs.
  unfold spec_move in Hs. rewrite He, Hp in Hs. cbn [andb] in Hs. change (1 =? 1) with true in Hs. injection Hs as <- Hm.
  cbn [run_call] in E. unfold answering in E. destruct (ApprovalRequests.decide _ _ _ _ _ _ s) as [[r|r] s1]; [|done].
  cbn in E. injection E as -> <-. by exists s1.
Qed.

Lemma reconcile_rows_exact `{RandomRowidLaws} h rows l :
  table_ok (table (requests l)) -> ledger_ok (ledger l) -> NoDup (rr_request_key <$> rows) ->
  (forall e, e ∈ rows -> entries_of (table (requests l)) !! rr_request_key e = Some e) ->
  exists l', reconcile_rows (fun l => l) h rows l = (Ok tt, l') /\ ledger l' = ledger l /\ audited l' = audited l /\
    table_ok (table (requests l')) /\
    (forall e, e ∈ rows -> entries_of (table (requests l')) !! rr_request_key e = Some (repaired (ledger l) e)) /\
    (forall key, key ∉ rr_request_key <$> rows ->
       entries_of (table (requests l')) !! key = entries_of (table (requests l)) !! key).
Proof.
  revert l. induction rows as [|r rows IH]; intros l Hok Hl Hnd Hrows.
  { exists l. split_and!; try done. intros e He. set_solver. }
  rewrite fmap_cons in Hnd. apply NoDup_cons in Hnd as [Hr Hnd]. cbn [reconcile_rows].
  pose proof (Hrows r ltac:(by left)) as Hm. destruct (entry_in_table _ _ _ Hok Hm) as (_ & _ & Hro & _).
  (* the rest of the loop from a lane that differs at this row only *)
  assert (Hrest : forall l1, table_ok (table (requests l1)) -> ledger l1 = ledger l -> audited l1 = audited l ->
    entries_of (table (requests l1)) = <[rr_request_key r := repaired (ledger l) r]> (entries_of (table (requests l))) ->
    exists l', reconcile_rows (fun l => l) h rows l1 = (Ok tt, l') /\ ledger l' = ledger l /\ audited l' = audited l /\
      table_ok (table (requests l')) /\
      (forall e, e ∈ r :: rows -> entries_of (table (requests l')) !! rr_request_key e = Some (repaired (ledger l) e)) /\
      (forall key, key ∉ rr_request_key <$> (r :: rows) ->
         entries_of (table (requests l')) !! key = entries_of (table (requests l)) !! key)).
  { intros l1 Hok1 Hl1 Ha1 Hm1. destruct (IH l1 Hok1) as (l' & E & Hle & Hae & Hok' & Hin & Hout); [by rewrite Hl1|done| |].
    - intros e He. rewrite Hm1, lookup_insert_ne; [apply Hrows; by right|]. intros Eq. apply Hr. rewrite Eq. set_solver.
    - rewrite Hl1 in *. rewrite Ha1 in *. exists l'. split_and!; try done.
      + intros e [->|He]%elem_of_cons; [|by apply Hin]. rewrite (Hout _ Hr), Hm1. by rewrite lookup_insert_eq.
      + intros key [Hne Hk]%not_elem_of_cons. rewrite (Hout _ Hk), Hm1. by rewrite lookup_insert_ne. }
  assert (Hsame : repaired (ledger l) r = r ->
    entries_of (table (requests l)) = <[rr_request_key r := repaired (ledger l) r]> (entries_of (table (requests l)))).
  { intros ->. by rewrite insert_id. }
  destruct (is_pending (rr_state r)) eqn:Hp; cbn [negb].
  2: { apply Hrest; [done..|]. apply Hsame. unfold repaired. by rewrite Hp. }
  destruct (ledger_total (ledger l) (rr_request_key r) Hl (ro_key _ Hro)) as (found & Hf & Hat). rewrite Hf.
  destruct found as [d|].
  2: { apply Hrest; [done..|]. apply Hsame. unfold repaired. by rewrite Hp, Hf. }
  destruct (decide_pending h (rr_request_key r) (outcome_of (en_decision d)) (en_decided_at_ms d) (requests l) r Hok
    (ro_key _ Hro) Hat Hm Hp) as (s' & -> & Hok1 & Hm1).
  apply Hrest; [done..|]. cbn. rewrite Hm1. unfold repaired. by rewrite Hp, Hf.
Qed.

(** C19: A repair completes what was left half written.  In any reachable state
    of the lane, opening the daemon answers without error, and each of the first
    256 rows of the requests that is pending and has a decision in the ledger under
    its key takes that decision's outcome and instant and links to it; every
    other row, those beyond the first 256 included, stays as it is, and so do
    the ledger and the audit chain. *)
Theorem reconcile_completes_decisions `{RandomRowidLaws} free bells h l :
  steps free (new_world bells) (world_of l []) ->
  let first := take (Z.to_nat APPROVAL_RECONCILE_LIMIT) (records (table (requests l))) in
  exists l', reconcile_approval_requests (fun l => l) h l = (Ok tt, l') /\
    ledger l' = ledger l /\ audited l' = audited l /\
    (forall e, e ∈ first ->
       ApprovalRequests.entry (rr_request_key e) (table (requests l')) = Ok (Some (repaired (ledger l) e))) /\
    (forall e, e ∈ records (table (requests l)) -> e ∉ first ->
       ApprovalRequests.entry (rr_request_key e) (table (requests l')) = Ok (Some e)).
Proof.
  intros Hs first. pose proof (steps_backed free _ _ Hs (new_world_backed free bells)) as Hb.
  pose proof (bk_requests _ _ Hb) as Hq. pose proof (bk_ledger _ _ Hb) as Hl. cbn in Hq, Hl.
  unfold reconcile_approval_requests. rewrite page_eq by (done || by vm_compute).
  assert (beyond 0 (table (requests l)) = records (table (requests l))) as ->.
  { apply filter_all_rows. intros e He. apply Z.ltb_lt. by eapply records_bounded. }
  cbn [pg_records]. fold first.
  assert (Hnd : NoDup (rr_request_key <$> records (table (requests l)))) by (by apply records_keys).
  assert (Hfirst : forall e, e ∈ first -> e ∈ records (table (requests l))).
  { intros e He. rewrite <- (take_drop (Z.to_nat APPROVAL_RECONCILE_LIMIT) (records _)). fold first. set_solver. }
  destruct (reconcile_rows_exact h first l Hq Hl) as (l' & E & Hle & Hae & Hok' & Hin & Hout).
  - unfold first. rewrite fmap_take. by eapply sublist_NoDup; [|apply sublist_take].
  - intros e He. apply records_elem; [done|by apply Hfirst].
  - exists l'. split_and!; try done.
    + intros e He. apply ok_entry; [done| |by apply Hin]. pose proof (Hfirst e He) as Hr.
      apply records_elem in Hr; [|done]. apply entry_in_table in Hr as (_ & _ & Ho & _); [apply Ho|done].
    + intros e He Hne. pose proof He as Hr. apply records_elem in Hr; [|done].
      pose proof (entry_in_table _ _ _ Hq Hr) as (_ & _ & Ho & _).
      apply ok_entry; [done|apply Ho|]. rewrite Hout; [done|].
      intros (e' & Ek & He')%list_elem_of_fmap. apply Hne.
      assert (e = e') as ->; [|done]. apply Hfirst in He'. apply records_elem in He'; [|done].
      rewrite <- Ek, Hr in He'. by injection He'.
Qed.

(** * Waiting for a permission *)

(** A provider is told to go on only under a recorded grant.  Whatever a run
    sees while it waits for the answer to its permission, each time in some
    reachable state of the lane, it allows the step only at a look that reads the
    proposal granted, with the grant in the ledger under its key, after looks
    that all read it pending, and not while it is draining, cancelled or out of
    time; the first look that reads it answered ends the wait. *)
Theorem permission_needs_a_grant `{RandomRowidLaws} free bells key looks :
  Forall (fun k => steps free (new_world bells) (world_of (seen k) [])) looks ->
  (forall forced, wait_for_permission key looks = Some (Answered true forced) ->
     forced = None /\
     exists before look after e grant, looks = before ++ look :: after /\
       storage look = StorageFine /\ draining look = false /\ cancelled look = false /\ timed_out look = false /\
       ApprovalRequests.entry key (table (requests (seen look))) = Ok (Some e) /\
       rr_state e = ApprovalRequests.Granted /\
       ApprovalLedger.entry key (ledger (seen look)) = Ok (Some grant) /\ entry_grants grant = true /\
       Forall (fun k => exists e', ApprovalRequests.entry key (table (requests (seen k))) = Ok (Some e') /\
                          rr_state e' = Pending) before) /\
  (forall look e, look ∈ looks -> ApprovalRequests.entry key (table (requests (seen look))) = Ok (Some e) ->
     rr_state e <> Pending -> is_Some (wait_for_permission key looks)).
Proof.
  induction 1 as [|look looks Hs _ IH]; [split; [done|intros ? ? ?; set_solver]|].
  pose proof (steps_backed free _ _ Hs (new_world_backed free bells)) as Hb. destruct IH as [IH1 IH2].
  cbn [wait_for_permission]. destruct (storage look) eqn:Est; [|by split; [|by eexists]..].
  destruct (draining look) eqn:Ed; [by split; [|by eexists]|].
  destruct (cancelled look) eqn:Ec; [by split; [|by eexists]|].
  destruct (timed_out look) eqn:Et; [by split; [|by eexists]|].
  destruct (ApprovalRequests.entry key (table (requests (seen look)))) as [[e|]|] eqn:He; [|by split; [|by eexists]..].
  destruct (rr_state e) eqn:Estate; [| |by split; [|by eexists]..].
  - split.
    + intros forced Hw. destruct (IH1 forced Hw) as (-> & before & k & after & e1 & grant & -> & Hrest).
      split; [done|]. exists (look :: before), k, after, e1, grant. split; [done|].
      destruct Hrest as (?&?&?&?&?&?&?&?&Hbefore). split_and!; try done. constructor; [by exists e|done].
    + intros k e1 [->|Hk]%elem_of_cons He1 Hne; [|by eapply IH2]. exfalso. rewrite He in He1. by injection He1 as <-.
  - split; [|by eexists]. intros forced [= <-]. split; [done|].
    destruct (entry_asked _ _ _ (bk_requests _ _ Hb) He) as (_ & _ & _ & Hm).
    destruct (bk_rows _ _ Hb key e Hm OutcomeGranted Estate) as (_ & grant & Hg & Hgd).
    exists [], look, looks, e, grant. split_and!; try done. unfold entry_grants. by rewrite Hgd.
Qed.

(** * Keys *)

Lemma utf8_no_zero t : Forall (fun c => is_scalar c = true) t -> 0 ∉ t -> 0 ∉ utf8 t.
Proof.
  induction 1 as [|c t Hc _ IH]; [done|]. rewrite utf8_cons. intros [Hne Ht]%not_elem_of_cons.
  intros [H1|H1]%elem_of_app; [|by apply IH]. destruct (encode_char_cases c Hc) as [(Hr & E)|[(Hr & E)|[(Hr & E)|(Hr & E)]]];
    rewrite E in H1; rewrite ?elem_of_cons, ?elem_of_nil in H1.
  - destruct H1 as [H1|[]]. congruence.
  - pose proof (Z.div_pos c 64). pose proof (Z.mod_pos_bound c 64). lia.
  - pose proof (Z.div_pos c 4096). pose proof (Z.mod_pos_bound c 64). pose proof (Z.mod_pos_bound (c / 64) 64). lia.
  - pose proof (Z.div_pos c 262144). pose proof (Z.mod_pos_bound c 64). pose proof (Z.mod_pos_bound (c / 64) 64).
    pose proof (Z.mod_pos_bound (c / 4096) 64). lia.
Qed.

(** A component of a key: text without the zero that ends it. *)
Definition component_ok (t : list Z) : Prop := Forall (fun c => is_scalar c = true) t /\ 0 ∉ t.

Lemma components_inj cs ds :
  Forall component_ok cs -> Forall component_ok ds ->
  mjoin ((fun c => utf8 c ++ [0]) <$> cs) = mjoin ((fun c => utf8 c ++ [0]) <$> ds) -> cs = ds.
Proof.
  intros Hc. revert ds. induction Hc as [|c cs [Hs Hz] _ IH]; intros ds [|d ds' [Hs' Hz'] Hd]; cbn; try done.
  - intros E. by destruct (utf8 d).
  - intros E. by destruct (utf8 c).
  - rewrite <- !app_assoc. cbn [app]. intros E. pose proof (f_equal (split_on 0) E) as E'.
    rewrite !split_on_app in E' by by apply utf8_no_zero. injection E' as E' _. rewrite E' in E.
    apply app_inv_head in E. injection E as E. f_equal; [|by apply IH].
    pose proof (utf8_from_utf8 c Hs) as H1. rewrite E', utf8_from_utf8 in H1 by done. by injection H1.
Qed.

Lemma key_hex_ok material :
  Forall (fun c => lower_hex_byte c = true) (key_hex material) /\ length (key_hex material) = 32%nat.
Proof.
  unfold key_hex. split.
  - apply Forall_take. exact (to_hex_lower _ (digest_bytes material)).
  - rewrite length_take, to_hex_length, digest_length. done.
Qed.

Lemma lower_hex_ascii t : Forall (fun c => lower_hex_byte c = true) t -> utf8 t = t.
Proof.
  intros Ht. apply utf8_ascii. eapply Forall_impl; [exact Ht|]. intros c.
  unfold lower_hex_byte, is_ascii_digit, in_range. rewrite orb_true_iff, !andb_true_iff, !Z.leb_le. lia.
Qed.

Lemma prefixed_key_ok material : request_key_ok (REQUEST_KEY_PREFIX ++ key_hex material) = true.
Proof.
  destruct (key_hex_ok material) as [Hh Hl]. unfold request_key_ok.
  rewrite (proj2 (strip_prefix_Some REQUEST_KEY_PREFIX _ (key_hex material)) eq_refl).
  unfold str_len. rewrite utf8_app, !(lower_hex_ascii (key_hex material)) by done. rewrite len_app.
  unfold len at 2. rewrite Hl. apply andb_true_iff. split; [done|]. apply forallb_forall.
  intros c Hc%list_elem_of_In. rewrite Forall_forall in Hh. by apply Hh.
Qed.

(** Two materials whose digests agree on the sixteen bytes a key carries. *)
Definition truncated_collision (m m' : list Z) : Prop := m <> m' /\ take 16 (digest m) = take 16 (digest m').

Lemma key_hex_inj m m' : key_hex m = key_hex m' -> m = m' \/ truncated_collision m m'.
Proof.
  intros E. destruct (base.decide (m = m')) as [->|Hne]; [by left|]. right. split; [done|].
  assert (Ht : forall d, length d = 32%nat -> take 32 (to_hex d) = to_hex (take 16 d)).
  { intros d Hd. rewrite <- (take_drop 16 d) at 1. unfold to_hex. rewrite fmap_app, join_app.
    rewrite take_app_le; [apply take_ge|]; fold (to_hex (take 16 d)); rewrite to_hex_length, length_take; lia. }
  unfold key_hex in E. change (Z.to_nat REQUEST_KEY_HEX_BYTES) with 32%nat in E. rewrite !Ht in E by apply digest_length.
  apply to_hex_inj in E; [done|apply Forall_take, digest_bytes..].
Qed.

Lemma digits_component ds : Forall (fun d => is_ascii_digit d = true) ds -> component_ok ds.
Proof.
  rewrite Forall_forall. intros H1. split.
  - apply Forall_forall. intros c Hc%H1%digit_range. unfold is_scalar. bool_prop. lia.
  - intros Hz%H1%digit_range. lia.
Qed.

Lemma dec_component n : 0 <= n -> component_ok (dec n).
Proof.
  intros Hn. unfold dec. destruct (Z.ltb_spec n 0); [lia|]. apply digits_component.
  apply dec_nat_spec. done.
Qed.

Lemma dec_inj n m : 0 <= n -> 0 <= m -> dec n = dec m -> n = m.
Proof.
  intros Hn Hm. unfold dec. destruct (Z.ltb_spec n 0), (Z.ltb_spec m 0); try lia. by apply dec_nat_inj.
Qed.

(** Minted keys.  Every key the lane mints, for a launch or for a provider's
    permission, is in the grammar of request keys; two launches get one key only
    if they are about the same subject, run, document and instant with the same
    number of earlier proposals, or if the hash collides on sixteen bytes, and a
    launch and a permission only if it collides. *)
Theorem minted_keys_separate subject run digest now prior subject' run' digest' now' prior' request :
  Forall component_ok [subject; run; digest] -> Forall component_ok [subject'; run'; digest'] ->
  0 <= now -> 0 <= prior -> 0 <= now' -> 0 <= prior' ->
  let key := mint_request_key subject run digest now prior in
  let permission := REQUEST_KEY_PREFIX ++ key_hex (key_material PROVIDER_APPROVAL_KEY_DOMAIN [run'; request]) in
  request_key_ok key = true /\ request_key_ok permission = true /\
  (key = mint_request_key subject' run' digest' now' prior' ->
     (subject = subject' /\ run = run' /\ digest = digest' /\ now = now' /\ prior = prior') \/
     exists m m', truncated_collision m m') /\
  (key = permission -> exists m m', truncated_collision m m').
Proof.
  intros Hc Hc' Hn Hp Hn' Hp' key permission. split_and!; [apply prefixed_key_ok..| |].
  - intros E%app_inv_head. apply key_hex_inj in E as [E|E]; [left|by right; eauto].
    apply app_inv_head in E. apply components_inj in E.
    + injection E as -> -> -> E1 E2. apply dec_inj in E1; [|done..]. by apply dec_inj in E2.
    + rewrite !Forall_cons, Forall_nil in *. destruct_and!. split_and!; auto using dec_component.
    + rewrite !Forall_cons, Forall_nil in *. destruct_and!. split_and!; auto using dec_component.
  - intros E%app_inv_head. apply key_hex_inj in E as [E|E]; [|eauto]. exfalso.
    apply (f_equal (fun l => nth 12 l 0)) in E. by vm_compute in E.
Qed.

(** * A concrete lane *)

Definition demo_document : list Z := ApprovalRequests.demo_digest 97.

Definition demo_context : ApprovalContext :=
  mkContext demo_document (str "/usr/bin/agent") (ApprovalRequests.demo_digest 98) (ApprovalRequests.demo_digest 99)
    (str "cwd-1").

Definition launch_proposal : ApprovalProposal :=
  mkProposal (demo_key 97) (launch_subject demo_document) (str "run-1") demo_context APPROVAL_PROPOSER 100 900.

Definition demo_free : list Z -> Prop := fun k => request_key_ok k = false.

(** A lane with one open proposal. *)
Definition demo_lane : Lane :=
  mkLane (snd (@run_call no_random_rowid demo_handle (CallPropose launch_proposal) (mkStore [] [0]))) [] [].

Definition demo_decision (fault : Fault) (outcome : ApprovalOutcome) (decider : string) (now_ms : Z) (l : Lane) :=
  @record_decision no_random_rowid (fun _ l => l) fault demo_handle 8 (demo_key 97) outcome (str decider) now_ms l.

Definition granted_lane : Lane := snd (demo_decision NoFault OutcomeGranted "alice" 200 demo_lane).

Lemma demo_lane_reached : @steps no_random_rowid demo_free (new_world [0]) (world_of demo_lane []).
Proof.
  apply rtc_once.
  exact (@step_requests no_random_rowid demo_free (mkStore [] [0]) [] [] demo_handle (CallPropose launch_proposal) eq_refl).
Qed.

Lemma demo_capacity : handle_capacity 8.
Proof. by vm_compute. Qed.

Lemma granted_lane_reached : @steps no_random_rowid demo_free (new_world [0]) (world_of granted_lane []).
Proof.
  eapply steps_trans; [exact demo_lane_reached|].
  pose proof (@record_decision_run no_random_rowid no_random_rowid_laws demo_free (fun _ l => l) NoFault demo_handle 8
    (demo_key 97) OutcomeGranted (str "alice") 200 demo_lane [] (others_identity demo_free) demo_capacity
    (@steps_backed no_random_rowid no_random_rowid_laws demo_free _ _ demo_lane_reached (new_world_backed demo_free [0]))) as H.
  unfold granted_lane, demo_decision. destruct (record_decision _ _ _ _ _ _ _ _ demo_lane) as [a l]. exact (proj1 H).
Qed.

Definition granted_entry : ApprovalRequestRecord :=
  answered ApprovalRequests.Granted (Some (demo_key 97)) 200 (proposed 1 launch_proposal).

(** The proposal, a decision that ends with its process, and the repair, with a
    sweep in its gaps. *)
Definition demo_half : Lane :=
  snd (@record_decision no_random_rowid (fun _ l => l) ProcessEnds demo_handle 8 (demo_key 97) OutcomeGranted
         (str "alice") 200 demo_lane).
Definition demo_repaired : Lane :=
  snd (reconcile_approval_requests (fun l => snd (tick_expiries (fun l => l) demo_handle 300 l)) demo_handle demo_half).

Lemma demo_repaired_ran : @ran no_random_rowid demo_free (new_lane [0]) demo_repaired.
Proof.
  apply (ran_then demo_free _ demo_half).
  - apply (ran_then demo_free _ demo_lane).
    + exact (@ran_propose no_random_rowid demo_free demo_handle launch_proposal (new_lane [0])).
    + apply ran_decision; [intros ? ?; apply ran_nothing|exact demo_capacity].
  - apply ran_repair. intros l. apply ran_sweep. intros l'. apply ran_nothing.
Qed.

Lemma answered_proposal_is_backed_witness :
  exists d, en_decision d = ApprovalLedger.Granted /\ en_subject d = launch_subject demo_document /\
    ApprovalLedger.entry (demo_key 97) (ledger demo_repaired) = Ok (Some d).
Proof.
  destruct (@answered_proposal_is_backed no_random_rowid no_random_rowid_laws demo_free [0] demo_repaired
    (demo_key 97) granted_entry OutcomeGranted demo_repaired_ran ltac:(by vm_compute) eq_refl)
    as (_ & d & Hd & Hs & Hkeep).
  exists d. split; [exact Hd|]. split; [apply Hs; done|]. apply (Hkeep demo_repaired). apply ran_nothing.
Defined.

(** Another process expires the row between the two writes of a decision. *)
Definition demo_meanwhile (p : Point) (l : Lane) : Lane :=
  match p with
  | AfterLedger => with_requests (snd (@run_call no_random_rowid demo_handle (CallExpire (demo_key 97) 1 900) (requests l))) l
  | _ => l
  end.

Lemma demo_meanwhile_runs p : @others_run no_random_rowid demo_free (demo_meanwhile p).
Proof.
  intros l held _. destruct p; [apply rtc_refl| |apply rtc_refl]. apply rtc_once.
  exact (@step_requests no_random_rowid demo_free (requests l) (ledger l) held demo_handle
    (CallExpire (demo_key 97) 1 900) eq_refl).
Qed.

Lemma decision_answers_stand_witness :
  let '(answer, l') := @record_decision no_random_rowid demo_meanwhile NoFault demo_handle 8 (demo_key 97)
                         OutcomeGranted (str "alice") 899 demo_lane in
  @steps no_random_rowid demo_free (new_world [0]) (world_of l' []) /\ answer = Some (Err DecisionUnavailable).
Proof.
  destruct (@record_decision no_random_rowid demo_meanwhile NoFault demo_handle 8 (demo_key 97)
              OutcomeGranted (str "alice") 899 demo_lane) as [answer l'] eqn:E.
  split; [exact (proj1 (@decision_answers_stand no_random_rowid no_random_rowid_laws demo_free [0] demo_meanwhile NoFault
    demo_handle 8 (demo_key 97) OutcomeGranted (str "alice") 899 demo_lane answer l' demo_meanwhile_runs demo_capacity
    demo_lane_reached E))|]. apply (f_equal fst) in E. vm_compute in E. exact (eq_sym E).
Defined.

Lemma decision_is_idempotent_witness :
  fst (demo_decision NoFault OutcomeDenied "bob" 2000 granted_lane) =
    Some (Err (AlreadyDecided OutcomeGranted (str "alice"))).
Proof.
  destruct (demo_decision NoFault OutcomeGranted "alice" 200 demo_lane) as [a l] eqn:E.
  assert (Ha : exists r, a = Some (Ok r) /\ dr_decider r = str "alice").
  { apply (f_equal fst) in E. vm_compute in E. subst a. eexists. by split. }
  destruct Ha as (r & -> & Hr).
  pose proof (@decision_is_idempotent no_random_rowid no_random_rowid_laws demo_free (fun _ l => l) NoFault NoFault demo_handle 8
    (demo_key 97) OutcomeGranted OutcomeDenied (str "alice") (str "bob") 200 2000 [0] demo_lane r l l
    (others_identity demo_free) demo_capacity demo_lane_reached E (rtc_refl _ _)) as H.
  unfold granted_lane. rewrite E. cbn [snd]. unfold demo_decision. rewrite H. cbn [fst]. by rewrite Hr.
Defined.

Definition demo_standing : Standing := mkStanding Approval.ApprovalRequired true true false DEFAULT_LIFETIME demo_handle.

Definition demo_observation : Observation :=
  mkObservation true (Some (str "/usr/bin/agent"))
    (Some (ApprovalRequests.demo_digest 98, ApprovalRequests.demo_digest 99)) (str "cwd-1").

Lemma admitted_launch_was_granted_witness :
  exists e, rr_state e = ApprovalRequests.Granted /\ observe demo_observation demo_document = Ok (rr_context e).
Proof.
  destruct (@admit_approval no_random_rowid demo_standing (str "run-1") demo_document demo_observation 300 granted_lane)
    as [a l'] eqn:E.
  assert (Ha : a = Ok tt) by (apply (f_equal fst) in E; vm_compute in E; exact (eq_sym E)). rewrite Ha in E. clear Ha.
  destruct (@admitted_launch_was_granted no_random_rowid no_random_rowid_laws demo_free [0] demo_standing (str "run-1")
    demo_document demo_observation 300 granted_lane l' granted_lane_reached eq_refl E) as (_ & e & _ & _ & Hst & _ & Ho & _).
  exists e. exact (conj Hst Ho).
Defined.

(** The process ended after the ledger write. *)
Definition half_lane : Lane := snd (demo_decision ProcessEnds OutcomeDenied "alice" 200 demo_lane).

Lemma half_lane_reached : @steps no_random_rowid demo_free (new_world [0]) (world_of half_lane []).
Proof.
  eapply steps_trans; [exact demo_lane_reached|].
  pose proof (@record_decision_run no_random_rowid no_random_rowid_laws demo_free (fun _ l => l) ProcessEnds demo_handle 8
    (demo_key 97) OutcomeDenied (str "alice") 200 demo_lane [] (others_identity demo_free) demo_capacity
    (@steps_backed no_random_rowid no_random_rowid_laws demo_free _ _ demo_lane_reached (new_world_backed demo_free [0]))) as H.
  unfold half_lane, demo_decision. destruct (record_decision _ _ _ _ _ _ _ _ demo_lane) as [a l]. exact (proj1 H).
Qed.

Lemma reconcile_completes_decisions_witness :
  ApprovalRequests.entry (demo_key 97) (table (requests half_lane)) = Ok (Some (proposed 1 launch_proposal)) /\
  exists l', reconcile_approval_requests (fun l => l) demo_handle half_lane = (Ok tt, l') /\
    ApprovalRequests.entry (demo_key 97) (table (requests l')) =
      Ok (Some (answered ApprovalRequests.Denied (Some (demo_key 97)) 200 (proposed 1 launch_proposal))).
Proof.
  split; [by vm_compute|].
  destruct (@reconcile_completes_decisions no_random_rowid no_random_rowid_laws demo_free [0] demo_handle half_lane half_lane_reached)
    as (l' & E & _ & _ & H & _).
  exists l'. split; [exact E|]. apply (H (proposed 1 launch_proposal)). vm_compute. left.
Defined.

Lemma permission_needs_a_grant_witness :
  wait_for_permission (demo_key 97)
    [mkLook StorageFine false false false demo_lane; mkLook StorageFine false false false granted_lane] =
    Some (Answered true None) /\
  is_Some (wait_for_permission (demo_key 97) [mkLook StorageFine false false false granted_lane]).
Proof.
  split; [by vm_compute|].
  destruct (@permission_needs_a_grant no_random_rowid no_random_rowid_laws demo_free [0] (demo_key 97)
    [mkLook StorageFine false false false granted_lane] ltac:(by apply Forall_singleton, granted_lane_reached)) as [_ H].
  apply (H (mkLook StorageFine false false false granted_lane) granted_entry); [left|by vm_compute|done].
Defined.

Lemma minted_keys_separate_witness :
  request_key_ok (mint_request_key (str "runspec:x") (str "run-1") (str "x") 100 0) = true.
Proof.
  assert (Hok : Forall component_ok [str "runspec:x"; str "run-1"; str "x"]).
  { repeat apply Forall_cons_2; try apply Forall_nil_2; (split; [repeat apply Forall_cons_2; try apply Forall_nil_2; done|]);
      apply (bool_decide_unpack _); by vm_compute. }
  apply (minted_keys_separate (str "runspec:x") (str "run-1") (str "x") 100 0 (str "runspec:x") (str "run-1") (str "x") 100 0
    (str "r") Hok Hok); lia.
Defined.

(** * What the seam does not heal *)

(** A decision whose second write failed is refused, but it stays in the ledger,
    and when the sweep comes first the proposal expires under a recorded grant. *)
Lemma refused_decision_is_recorded :
  let '(answer, l) := demo_decision RequestsFail OutcomeGranted "alice" 200 demo_lane in
  let '(_, swept) := tick_expiries (fun l => l) demo_handle 900 l in
  answer = Some (Err DecisionUnavailable) /\
  recorded_as (ledger l) (demo_key 97) OutcomeGranted /\
  (exists e, ApprovalRequests.entry (demo_key 97) (table (requests swept)) = Ok (Some e) /\ rr_state e = Expired).
Proof.
  destruct (demo_decision RequestsFail OutcomeGranted "alice" 200 demo_lane) as [answer l] eqn:E. vm_compute in E.
  injection E as <- <-. vm_compute. split; [reflexivity|]. split; eexists; split; reflexivity.
Qed.

(** The same answer by another operator does not complete a half-written
    decision: it is refused as decided already, and the proposal stays pending. *)
Lemma other_operator_does_not_heal :
  let '(answer, l) := demo_decision NoFault OutcomeDenied "bob" 300 half_lane in
  answer = Some (Err (AlreadyDecided OutcomeDenied (str "alice"))) /\
  exists e, ApprovalRequests.entry (demo_key 97) (table (requests l)) = Ok (Some e) /\ rr_state e = Pending.
Proof.
  destruct (demo_decision NoFault OutcomeDenied "bob" 300 half_lane) as [answer l] eqn:E. vm_compute in E.
  injection E as <- <-. vm_compute. split; [reflexivity|]. eexists. split; reflexivity.
Qed.

(** A decision the free-form lane recorded under a key before there was a
    proposal for it is taken for that proposal's by the repair, whatever it was
    about. *)
Lemma free_form_decision_is_adopted :
  let r := ApprovalLedger.mkRecord (demo_key 97) (str "something else") ApprovalLedger.Granted (str "bob") 50 in
  let '(_, l) := @record_approval no_random_rowid (fun _ l => l) NoFault demo_handle 8 r (mkLane (mkStore [] [0]) [] []) in
  let proposed := with_requests (snd (@run_call no_random_rowid demo_handle (CallPropose launch_proposal) (requests l))) l in
  let '(_, repaired) := reconcile_approval_requests (fun l => l) demo_handle proposed in
  exists e d, ApprovalRequests.entry (demo_key 97) (table (requests repaired)) = Ok (Some e) /\
    rr_state e = ApprovalRequests.Granted /\ rr_subject e = launch_subject demo_document /\
    ApprovalLedger.entry (demo_key 97) (ledger repaired) = Ok (Some d) /\ en_subject d = str "something else".
Proof. vm_compute. do 2 eexists. split_and!; reflexivity. Qed.
