(* ===== verification/Seccomp.v ===== *)
(** The socket filter of a run: [automonique-runner/src/seccomp.rs].

    The policy, its compilation to denial rules and the two programs that are
    installed.  The seccompiler crate and the kernel are the class [Seccomp];
    [SeccompLaws] is what their documentation says of them: how a chain of rules
    is read, and that of several programs the most restrictive answer is taken.
    Numbers are those of Linux on x86_64. *)

From S2P Require Import Prelude Text.

Definition DENIAL_ERRNO : Z := 1.
Definition SOCKET_TYPE_MASK : Z := 0xff.
Definition MAX_ALLOWED_SHAPES : Z := 8.
Definition MAX_ALLOWED_PROTOCOL : Z := 255.
Definition X32_SYSCALL_BIT : Z := 0x40000000.
Definition SYS_SOCKET : Z := 41.
Definition SYS_SOCKETPAIR : Z := 53.
Definition IO_URING_SYSCALLS : list Z := [425; 426; 427].
Definition PROCESS_INSPECTION_SYSCALLS : list Z := [101; 310; 311; 438; 521; 539; 540].
Definition NAMESPACE_SYSCALLS : list Z := [272; 308].
Definition SYS_CLONE : Z := 56.
Definition SYS_CLONE3 : Z := 435.
Definition CLONE_NAMESPACE_FLAGS : list Z :=
  [0x20000; 0x2000000; 0x4000000; 0x8000000; 0x10000000; 0x20000000; 0x40000000; 0x80].
Definition CLONE3_ERRNO : Z := 38.
Definition ARG_CLONE_FLAGS : Z := 0.
Definition ARG_DOMAIN : Z := 0.
Definition ARG_TYPE : Z := 1.
Definition ARG_PROTOCOL : Z := 2.
Definition TYPE_MASK_BITS : Z := 8.
Definition TYPE_FLAGS : list Z := [0; 0x80000; 0x800; Z.lor 0x80000 0x800].

Inductive SocketDomain := Unix | Inet | Inet6.
Inductive SocketKind := Stream | Datagram | SeqPacket.

#[export] Instance SocketDomain_eq_dec : EqDecision SocketDomain.
Proof. solve_decision. Defined.
#[export] Instance SocketKind_eq_dec : EqDecision SocketKind.
Proof. solve_decision. Defined.

Definition address_family (d : SocketDomain) : Z := match d with Unix => 1 | Inet => 2 | Inet6 => 10 end.
Definition socket_type_of (k : SocketKind) : Z := match k with Stream => 1 | Datagram => 2 | SeqPacket => 5 end.

(** The casts to [u32] of values that are not negative. *)
Definition domain_argument (d : SocketDomain) : Z := address_family d.
Definition kind_argument (k : SocketKind) : Z := socket_type_of k.

Record AllowedSocketShape := mkShape {
  sh_domain : SocketDomain;
  sh_kind : SocketKind;
  sh_protocols : list Z
}.

#[export] Instance AllowedSocketShape_eq_dec : EqDecision AllowedSocketShape.
Proof. solve_decision. Defined.

Inductive SocketFilterError :=
| UnsupportedArch
| DuplicateShape (d : SocketDomain) (k : SocketKind)
| TooManyShapes
| ProtocolOutOfRange (protocol : Z)
| ShapeDeniedByItsOwnFilter (shape : AllowedSocketShape)
| FilterRefused (detail : list Z)
| ApplyRefused (detail : list Z).

(** The arguments as [u32]. *)
Record SocketCall := mkCall { call_domain : Z; call_type : Z; call_protocol : Z }.

Definition as_u32 (z : Z) : Z := z mod 2 ^ 32.

(** [SocketCall::new], of three [i32]. *)
Definition socket_call (domain socket_type protocol : Z) : SocketCall :=
  mkCall (as_u32 domain) (as_u32 socket_type) (as_u32 protocol).

Definition argument (call : SocketCall) (index : Z) : Z :=
  if index =? ARG_DOMAIN then call_domain call
  else if index =? ARG_TYPE then call_type call
  else call_protocol call.

Definition shape_permits (s : AllowedSocketShape) (call : SocketCall) : bool :=
  (call_domain call =? domain_argument (sh_domain s))
  && (Z.land (call_type call) SOCKET_TYPE_MASK =? kind_argument (sh_kind s))
  && bool_decide (call_protocol call ∈ sh_protocols s).

(** * Policies *)

Definition Policy := list AllowedSocketShape.

Definition deny_all : Policy := [].

Definition allowing (domain : SocketDomain) (kind : SocketKind) (protocols : list Z) (p : Policy)
  : result SocketFilterError Policy :=
  if existsb (fun s => bool_decide (sh_domain s = domain) && bool_decide (sh_kind s = kind)) p
  then Err (DuplicateShape domain kind)
  else if MAX_ALLOWED_SHAPES <=? len p then Err TooManyShapes
  else
    match List.find (fun protocol => MAX_ALLOWED_PROTOCOL <? protocol) protocols with
    | Some protocol => Err (ProtocolOutOfRange protocol)
    | None => Ok (p ++ [mkShape domain kind protocols])
    end.

Definition allowing_unix_sockets (p : Policy) : result SocketFilterError Policy :=
  p ← allowing Unix Stream [0] p; allowing Unix Datagram [0] p.

Definition allowing_unix_seqpacket_sockets (p : Policy) : result SocketFilterError Policy :=
  allowing Unix SeqPacket [0] p.

Definition allowing_tcp_sockets (p : Policy) : result SocketFilterError Policy :=
  p ← allowing Inet Stream [0; 6] p; allowing Inet6 Stream [0; 6] p.

Definition allowing_inet_datagram_sockets (p : Policy) : result SocketFilterError Policy :=
  p ← allowing Inet Datagram [0; 17] p; allowing Inet6 Datagram [0; 17] p.

Definition denies_all_socket_creation (p : Policy) : bool := bool_decide (p = []).

Definition permits_call (p : Policy) (call : SocketCall) : bool :=
  existsb (fun s => shape_permits s call) p.

Definition permits (p : Policy) (domain socket_type protocol : Z) : bool :=
  permits_call p (socket_call domain socket_type protocol).

Definition socketpair_shapes (p : Policy) : Policy :=
  List.filter (fun s => bool_decide (sh_domain s = Unix)) p.

Definition permits_socketpair (p : Policy) (domain socket_type protocol : Z) : bool :=
  existsb (fun s => shape_permits s (socket_call domain socket_type protocol)) (socketpair_shapes p).

(** * Denials *)

Inductive ArgTest :=
| TestEq (arg value : Z)
| TestNe (arg value : Z)
| TestGt (arg value : Z)
| TestMaskedEq (arg mask value : Z).

Definition test_matches (t : ArgTest) (call : SocketCall) : bool :=
  match t with
  | TestEq arg value => argument call arg =? value
  | TestNe arg value => negb (argument call arg =? value)
  | TestGt arg value => value <? argument call arg
  | TestMaskedEq arg mask value => Z.land (argument call arg) mask =? value
  end.

Definition DenyClause := list ArgTest.

Inductive SocketDenials := Everything | Clauses (clauses : list DenyClause).

Definition denies (d : SocketDenials) (call : SocketCall) : bool :=
  match d with
  | Everything => true
  | Clauses clauses => existsb (fun clause => forallb (fun t => test_matches t call) clause) clauses
  end.

(** [u32::BITS - value.leading_zeros()]. *)
Definition bit_length (value : Z) : Z := if value =? 0 then 0 else Z.log2 value + 1.

Definition unallowed_type_tests (allowed : list Z) : list ArgTest :=
  let bits := Z.min (foldr Z.max 0 (bit_length <$> allowed)) TYPE_MASK_BITS in
  let low_mask := Z.shiftl 1 bits - 1 in
  ((fun bit => TestMaskedEq ARG_TYPE (Z.shiftl 1 bit) (Z.shiftl 1 bit)) <$> seqZ bits (TYPE_MASK_BITS - bits))
  ++ ((fun value => TestMaskedEq ARG_TYPE low_mask value) <$>
        List.filter (fun value => negb (bool_decide (value ∈ allowed))) (seqZ 0 (low_mask + 1))).

Definition unallowed_protocol_tests (allowed : list Z) : list ArgTest :=
  let highest := foldr Z.max 0 allowed in
  TestGt ARG_PROTOCOL highest
  :: ((fun value => TestEq ARG_PROTOCOL value) <$>
        List.filter (fun value => negb (bool_decide (value ∈ allowed))) (seqZ 0 (highest + 1))).

(** The domains named, in the order of their first shape. *)
Definition domains_of (p : Policy) : list SocketDomain :=
  foldl (fun ds s => if bool_decide (sh_domain s ∈ ds) then ds else ds ++ [sh_domain s]) [] p.

Definition shapes_in (p : Policy) (d : SocketDomain) : list AllowedSocketShape :=
  List.filter (fun s => bool_decide (sh_domain s = d)) p.

(** Layers two and three, for one domain. *)
Definition domain_clauses (p : Policy) (d : SocketDomain) : list DenyClause :=
  let is_here := TestEq ARG_DOMAIN (domain_argument d) in
  let types := (fun s => kind_argument (sh_kind s)) <$> shapes_in p d in
  ((fun t => [is_here; t]) <$> unallowed_type_tests types)
  ++ mjoin ((fun s =>
        let is_this_type := TestMaskedEq ARG_TYPE SOCKET_TYPE_MASK (kind_argument (sh_kind s)) in
        (fun t => [is_here; is_this_type; t]) <$> unallowed_protocol_tests (sh_protocols s)) <$> shapes_in p d).

Definition deny_clauses (p : Policy) : SocketDenials :=
  let domains := domains_of p in
  if bool_decide (domains = []) then Everything
  else
    Clauses (((fun d => TestNe ARG_DOMAIN (domain_argument d)) <$> domains)
             :: mjoin (domain_clauses p <$> domains)).

(** The first granted shape the denials would refuse. *)
Definition shape_denied (d : SocketDenials) (s : AllowedSocketShape) : bool :=
  existsb (fun protocol =>
    existsb (fun flags =>
      denies d (mkCall (domain_argument (sh_domain s)) (Z.lor (kind_argument (sh_kind s)) flags) protocol))
      TYPE_FLAGS) (sh_protocols s).

Definition check_clauses_permit_granted_shapes (p : Policy) (d : SocketDenials) : result SocketFilterError unit :=
  match List.find (shape_denied d) p with
  | Some s => Err (ShapeDeniedByItsOwnFilter s)
  | None => Ok tt
  end.

(** * The crate and the kernel *)

Inductive SeccompCmpArgLen := Dword | Qword.
Inductive SeccompCmpOp := CmpEq | CmpNe | CmpGt | CmpMaskedEq (mask : Z).

Record SeccompCondition := mkCondition {
  cond_arg : Z;
  cond_len : SeccompCmpArgLen;
  cond_op : SeccompCmpOp;
  cond_value : Z
}.

Abbreviation SeccompRule := (list SeccompCondition).

Inductive SeccompAction := Allow | Errno (errno : Z) | KillProcess.

#[export] Instance SeccompAction_eq_dec : EqDecision SeccompAction.
Proof. solve_decision. Defined.

(** For x86_64. *)
Record SeccompFilter := mkFilter {
  f_rules : gmap Z (list SeccompRule);
  f_mismatch : SeccompAction;
  f_match : SeccompAction
}.

(** A system call: whether its audit architecture is x86_64, its number and its
    registers. *)
Record Syscall := mkSyscall { sc_x86_64 : bool; sc_number : Z; sc_args : list Z }.

Definition register (s : Syscall) (arg : Z) : Z := nth (Z.to_nat arg) (sc_args s) 0.

Class Seccomp := {
  Program : Type;
  condition_new : SeccompCondition -> result (list Z) SeccompCondition;
  rule_new : list SeccompCondition -> result (list Z) SeccompRule;
  filter_new : SeccompFilter -> result (list Z) SeccompFilter;
  assemble : SeccompFilter -> result (list Z) Program;
  program_len : Program -> Z;
  kernel_answer : list Program -> Syscall -> SeccompAction
}.

Definition refused {A} (m : result (list Z) A) : result SocketFilterError A := map_err FilterRefused m.

(** * Compilation *)

Definition test_condition (t : ArgTest) : SeccompCondition :=
  match t with
  | TestEq arg value => mkCondition arg Dword CmpEq value
  | TestNe arg value => mkCondition arg Dword CmpNe value
  | TestGt arg value => mkCondition arg Dword CmpGt value
  | TestMaskedEq arg mask value => mkCondition arg Dword (CmpMaskedEq mask) value
  end.

Definition both_abis (number : Z) : list Z := [number; Z.lor number X32_SYSCALL_BIT].

(** [BTreeMap::insert] for each number. *)
Definition insert_all (numbers : list Z) (rules : list SeccompRule) (m : gmap Z (list SeccompRule))
  : gmap Z (list SeccompRule) :=
  foldl (fun m number => <[number := rules]> m) m numbers.

Definition ascending (numbers : list Z) : list Z := merge_sort Z.le numbers.

Record Host := mkHost { build_is_x86_64 : bool }.

Definition check_build_arch (h : Host) : result SocketFilterError unit :=
  if build_is_x86_64 h then Ok tt else Err UnsupportedArch.

Section Compiler.
Context `{Seccomp}.

Definition condition (t : ArgTest) : result SocketFilterError SeccompCondition :=
  refused (condition_new (test_condition t)).

Definition compile_clause (clause : DenyClause) : result SocketFilterError SeccompRule :=
  conditions ← mapM condition clause; refused (rule_new conditions).

Definition compile_rules (shapes : Policy) : result SocketFilterError (list SeccompRule) :=
  let denials := deny_clauses shapes in
  _ ← check_clauses_permit_granted_shapes shapes denials;
  match denials with
  | Everything => Ok []
  | Clauses clauses => mapM compile_clause clauses
  end.

Definition clone_rule (flag : Z) : result SocketFilterError SeccompRule :=
  c ← refused (condition_new (mkCondition ARG_CLONE_FLAGS Qword (CmpMaskedEq flag) flag));
  refused (rule_new [c]).

Definition clone_namespace_rules : result SocketFilterError (list SeccompRule) :=
  mapM clone_rule CLONE_NAMESPACE_FLAGS.

Record CompiledSocketFilter := mkCompiled {
  program : Program;
  clone3_program : Program;
  filtered_syscalls : list Z
}.

(** The map the first program is built from. *)
Definition socket_rule_map (socket_rules socketpair_rules clone_rules : list SeccompRule)
  : gmap Z (list SeccompRule) :=
  let m := insert_all (both_abis SYS_SOCKET) socket_rules ∅ in
  let m := insert_all (both_abis SYS_SOCKETPAIR) socketpair_rules m in
  let m := foldl (fun m syscall => insert_all (both_abis syscall) [] m) m
             (IO_URING_SYSCALLS ++ PROCESS_INSPECTION_SYSCALLS ++ NAMESPACE_SYSCALLS) in
  insert_all (both_abis SYS_CLONE) clone_rules m.

Definition clone3_rule_map : gmap Z (list SeccompRule) := insert_all (both_abis SYS_CLONE3) [] ∅.

(** The keys, and after them those of the second program. *)
Definition filtered (m : gmap Z (list SeccompRule)) : list Z :=
  ascending (ascending ((map_to_list m).*1) ++ both_abis SYS_CLONE3).

Definition compile (h : Host) (p : Policy) : result SocketFilterError CompiledSocketFilter :=
  _ ← check_build_arch h;
  socket_rules ← compile_rules p;
  socketpair_rules ← compile_rules (socketpair_shapes p);
  clone_rules ← clone_namespace_rules;
  let m := socket_rule_map socket_rules socketpair_rules clone_rules in
  filter ← refused (filter_new (mkFilter m Allow (Errno DENIAL_ERRNO)));
  program ← refused (assemble filter);
  clone3_filter ← refused (filter_new (mkFilter clone3_rule_map Allow (Errno CLONE3_ERRNO)));
  clone3_program ← refused (assemble clone3_filter);
  Ok (mkCompiled program clone3_program (filtered m)).

Definition instruction_count (c : CompiledSocketFilter) : Z :=
  program_len (program c) + program_len (clone3_program c).

(** The programs installed on the thread, oldest first; [io1] and [io2] are what
    the kernel says to each installation. *)
Definition apply_filter (p : Program) (io : result (list Z) unit) (thread : list Program)
  : result SocketFilterError unit * list Program :=
  match io with
  | Ok _ => (Ok tt, thread ++ [p])
  | Err detail => (Err (ApplyRefused detail), thread)
  end.

Definition apply_compiled (c : CompiledSocketFilter) (io1 io2 : result (list Z) unit) (thread : list Program)
  : result SocketFilterError Z * list Program :=
  let '(answer, thread) := apply_filter (program c) io1 thread in
  match answer with
  | Err error => (Err error, thread)
  | Ok _ =>
      let '(answer, thread) := apply_filter (clone3_program c) io2 thread in
      (_ ← answer; Ok (instruction_count c), thread)
  end.

Definition apply_to_current_thread (h : Host) (p : Policy) (io1 io2 : result (list Z) unit) (thread : list Program)
  : result SocketFilterError Z * list Program :=
  match compile h p with
  | Err error => (Err error, thread)
  | Ok c => apply_compiled c io1 io2 thread
  end.
End Compiler.

(** * What the crate and the kernel promise *)

Definition read_arg (l : SeccompCmpArgLen) (v : Z) : Z := match l with Dword => as_u32 v | Qword => v end.

Definition condition_holds (s : Syscall) (c : SeccompCondition) : bool :=
  let v := read_arg (cond_len c) (register s (cond_arg c)) in
  match cond_op c with
  | CmpEq => v =? cond_value c
  | CmpNe => negb (v =? cond_value c)
  | CmpGt => cond_value c <? v
  | CmpMaskedEq mask => Z.land v mask =? cond_value c
  end.

(** A chain matches when one of its rules does, and an empty chain always; a rule
    when all its conditions do. *)
Definition chain_matches (s : Syscall) (rules : list SeccompRule) : bool :=
  bool_decide (rules = []) || existsb (fun rule => forallb (condition_holds s) rule) rules.

Definition filter_answer (f : SeccompFilter) (s : Syscall) : SeccompAction :=
  if negb (sc_x86_64 s) then KillProcess
  else
    match f_rules f !! sc_number s with
    | Some rules => if chain_matches s rules then f_match f else f_mismatch f
    | None => f_mismatch f
    end.

(** A masked comparison is against a value inside the mask. *)
Definition condition_plain (c : SeccompCondition) : Prop :=
  match cond_op c with CmpMaskedEq mask => Z.land (cond_value c) mask = cond_value c | _ => True end.

Definition condition_sound (c : SeccompCondition) : Prop :=
  0 <= cond_arg c <= 5 /\ match cond_len c with Dword => in_u32 (cond_value c) | Qword => in_u64 (cond_value c) end.

Definition filter_plain (f : SeccompFilter) : Prop :=
  map_Forall (fun _ rules => Forall (Forall condition_plain) rules) (f_rules f).

(** Kill before errno before allow, and of two errnos the one installed last. *)
Definition strictest (answers : list SeccompAction) : SeccompAction :=
  if bool_decide (KillProcess ∈ answers) then KillProcess
  else
    match List.find (fun a => negb (bool_decide (a = Allow))) (rev answers) with
    | Some a => a
    | None => Allow
    end.

Class SeccompLaws `{Seccomp} (program_answer : Program -> Syscall -> SeccompAction) : Prop := {
  condition_new_accepts c : condition_sound c -> condition_new c = Ok c;
  rule_new_accepts cs : cs <> [] -> rule_new cs = Ok cs;
  filter_new_accepts f : f_match f <> f_mismatch f -> filter_new f = Ok f;
  assemble_answers f p s : assemble f = Ok p -> filter_plain f -> program_answer p s = filter_answer f s;
  kernel_strictest ps s : kernel_answer ps s = strictest ((fun p => program_answer p s) <$> ps)
}.

(** * The denials are the complement of the grants *)

Lemma existsb_elem {A} (f : A -> bool) l : existsb f l = true <-> exists x, x ∈ l /\ f x = true.
Proof. rewrite existsb_exists. setoid_rewrite list_elem_of_In. done. Qed.

Lemma forallb_elem {A} (f : A -> bool) l : forallb f l = true <-> forall x, x ∈ l -> f x = true.
Proof. rewrite forallb_forall. setoid_rewrite list_elem_of_In. done. Qed.

Lemma elem_of_filter_bool {A} (f : A -> bool) x l : x ∈ List.filter f l <-> f x = true /\ x ∈ l.
Proof. rewrite !list_elem_of_In, filter_In. tauto. Qed.

Lemma foldr_max_ge (l : list Z) x : x ∈ l -> x <= foldr Z.max 0 l.
Proof. induction l as [|y l IH]; [set_solver|]. intros [->|H]%elem_of_cons; cbn; [lia|]. specialize (IH H). lia. Qed.

Lemma foldr_max_nonneg (l : list Z) : 0 <= foldr Z.max 0 l.
Proof. induction l; cbn; lia. Qed.

Lemma foldr_max_bound (l : list Z) b : 0 <= b -> Forall (fun x => x <= b) l -> foldr Z.max 0 l <= b.
Proof. intros Hb. induction 1; cbn; lia. Qed.

Lemma bit_length_spec v : 0 <= v -> v < 2 ^ bit_length v /\ 0 <= bit_length v.
Proof.
  intros Hv. unfold bit_length. destruct (Z.eqb_spec v 0) as [->|]; [lia|].
  pose proof (Z.log2_spec v ltac:(lia)) as [_ Hl]. pose proof (Z.log2_nonneg v). split; [|lia].
  by rewrite Z.add_1_r.
Qed.

Lemma land_low t k : 0 <= k -> Z.land t (2 ^ k - 1) = t mod 2 ^ k.
Proof. intros. rewrite <- Z.land_ones by done. by rewrite Z.ones_equiv, Z.sub_1_r. Qed.

Lemma land_bit t b : 0 <= b -> Z.land t (2 ^ b) = 2 ^ b <-> Z.testbit t b = true.
Proof.
  intros Hb. split.
  - intros E. apply (f_equal (fun z => Z.testbit z b)) in E. rewrite Z.land_spec, Z.pow2_bits_true in E by done.
    by rewrite andb_true_r in E.
  - intros Ht. apply Z.bits_inj'. intros n Hn. rewrite Z.land_spec, Z.pow2_bits_eqb by done.
    destruct (Z.eqb_spec b n) as [->|]; [by rewrite Ht|by rewrite andb_false_r].
Qed.

(** The highest bit that is set decides whether a value is below a power. *)
Lemma high_bit_or_small m k n :
  0 <= k -> 0 <= m < 2 ^ n -> m < 2 ^ k \/ exists b, k <= b < n /\ Z.testbit m b = true.
Proof.
  intros Hk [Hm Hn]. destruct (Z.lt_ge_cases m (2 ^ k)) as [|Hge]; [by left|right].
  assert (0 < 2 ^ k) by (apply Z.pow_pos_nonneg; lia).
  exists (Z.log2 m). split; [|apply Z.bit_log2; lia]. split.
  - rewrite <- (Z.log2_pow2 k) by done. by apply Z.log2_le_mono.
  - apply Z.log2_lt_pow2; lia.
Qed.

Lemma testbit_ge m b : 0 <= m -> 0 <= b -> Z.testbit m b = true -> 2 ^ b <= m.
Proof.
  intros Hm Hb Ht. destruct (Z.lt_ge_cases m (2 ^ b)) as [Hlt|]; [|done].
  destruct (Z.eq_dec m 0) as [->|]; [by rewrite Z.bits_0 in Ht|].
  rewrite Z.bits_above_log2 in Ht; [done|done|]. apply Z.log2_lt_pow2; lia.
Qed.

Definition masked_type (call : SocketCall) : Z := Z.land (call_type call) SOCKET_TYPE_MASK.

Lemma masked_type_mod call : masked_type call = call_type call mod 2 ^ 8.
Proof. exact (land_low (call_type call) 8 ltac:(lia)). Qed.

Lemma type_tests_exact allowed call :
  Forall (fun v => 0 <= v < 256) allowed ->
  existsb (fun t => test_matches t call) (unallowed_type_tests allowed) = true <->
  masked_type call ∉ allowed.
Proof.
  intros Ha. unfold unallowed_type_tests, TYPE_MASK_BITS. set (k := Z.min (foldr Z.max 0 (bit_length <$> allowed)) 8).
  assert (Hk : 0 <= k <= 8) by (unfold k; pose proof (foldr_max_nonneg (bit_length <$> allowed)); lia).
  assert (Hlow : forall a, a ∈ allowed -> a < 2 ^ k).
  { intros a Hin. rewrite Forall_forall in Ha. specialize (Ha a Hin). destruct (bit_length_spec a ltac:(lia)) as [Hlt Hb].
    assert (bit_length a <= foldr Z.max 0 (bit_length <$> allowed)) by (apply foldr_max_ge, list_elem_of_fmap; eauto).
    assert (bit_length a <= 8).
    { unfold bit_length. destruct (Z.eqb_spec a 0); [lia|]. assert (Z.log2 a < 8) by (apply Z.log2_lt_pow2; lia). lia. }
    eapply Z.lt_le_trans; [exact Hlt|]. apply Z.pow_le_mono_r; lia. }
  set (m := masked_type call). assert (Hm : m = call_type call mod 2 ^ 8) by apply masked_type_mod.
  assert (Hmr : 0 <= m < 2 ^ 8) by (rewrite Hm; apply Z.mod_pos_bound; lia).
  rewrite Z.shiftl_1_l.
  assert (Hml : Z.land (call_type call) (2 ^ k - 1) = m mod 2 ^ k).
  { rewrite land_low by lia. rewrite Hm. symmetry. apply Z.mod_mod_divide.
    exists (2 ^ (8 - k)). rewrite <- Z.pow_add_r by lia. f_equal. lia. }
  assert (Hbit : forall b, 0 <= b < 8 -> Z.testbit (call_type call) b = Z.testbit m b).
  { intros b Hb. rewrite Hm, Z.mod_pow2_bits_low by lia. done. }
  assert (0 < 2 ^ k) by (apply Z.pow_pos_nonneg; lia).
  rewrite existsb_elem. split.
  - intros (t & Ht & Hmt) Hin. specialize (Hlow m Hin). apply elem_of_app in Ht as [Ht|Ht];
      apply list_elem_of_fmap in Ht as (v & -> & Hv); cbn in Hmt; apply Z.eqb_eq in Hmt.
    + apply elem_of_seqZ in Hv. rewrite Z.shiftl_1_l in Hmt. apply land_bit in Hmt; [|lia].
      rewrite Hbit in Hmt by lia. apply testbit_ge in Hmt; [|lia..].
      assert (2 ^ k <= 2 ^ v) by (apply Z.pow_le_mono_r; lia). lia.
    + apply elem_of_filter_bool in Hv as [Hn _]. rewrite Hml, Z.mod_small in Hmt by lia. subst v.
      apply negb_true_iff, bool_decide_eq_false in Hn. done.
  - intros Hn. destruct (high_bit_or_small m k 8 ltac:(lia) Hmr) as [Hs|(b & Hb & Ht)].
    + exists (TestMaskedEq ARG_TYPE (2 ^ k - 1) m). split.
      * apply elem_of_app. right. apply list_elem_of_fmap. exists m. split; [done|]. apply elem_of_filter_bool.
        split; [by apply negb_true_iff, bool_decide_eq_false|]. apply elem_of_seqZ. lia.
      * cbn. apply Z.eqb_eq. rewrite Hml. apply Z.mod_small. lia.
    + exists (TestMaskedEq ARG_TYPE (Z.shiftl 1 b) (Z.shiftl 1 b)). split.
      * apply elem_of_app. left. apply list_elem_of_fmap. exists b. split; [done|]. apply elem_of_seqZ. lia.
      * cbn. apply Z.eqb_eq. rewrite Z.shiftl_1_l. apply land_bit; [lia|]. by rewrite Hbit by lia.
Qed.

Lemma protocol_tests_exact allowed call :
  0 <= call_protocol call ->
  existsb (fun t => test_matches t call) (unallowed_protocol_tests allowed) = true <->
  call_protocol call ∉ allowed.
Proof.
  intros Hc. unfold unallowed_protocol_tests. set (h := foldr Z.max 0 allowed).
  assert (Hh : 0 <= h) by apply foldr_max_nonneg. cbn [existsb]. rewrite orb_true_iff, existsb_elem. split.
  - intros [Hg|(t & Ht & Hmt)] Hin.
    + cbn in Hg. apply Z.ltb_lt in Hg. pose proof (foldr_max_ge allowed _ Hin). lia.
    + apply list_elem_of_fmap in Ht as (v & -> & Hv). cbn in Hmt. apply Z.eqb_eq in Hmt. subst v.
      apply elem_of_filter_bool in Hv as [Hn _]. apply negb_true_iff, bool_decide_eq_false in Hn. done.
  - intros Hn. destruct (Z.lt_ge_cases h (call_protocol call)) as [Hlt|Hge]; [left; cbn; by apply Z.ltb_lt|].
    right. exists (TestEq ARG_PROTOCOL (call_protocol call)). split; [|cbn; by apply Z.eqb_eq].
    apply list_elem_of_fmap. eexists. split; [done|]. apply elem_of_filter_bool.
    split; [by apply negb_true_iff, bool_decide_eq_false|]. apply elem_of_seqZ. lia.
Qed.

(** What the builders make: no shape twice, protocols in range. *)
Record policy_ok (p : Policy) : Prop := mkPolicyOk {
  po_distinct : NoDup ((fun s => (sh_domain s, sh_kind s)) <$> p);
  po_protocols : Forall (fun s => Forall (fun v => 0 <= v <= MAX_ALLOWED_PROTOCOL) (sh_protocols s)) p
}.

Lemma domains_of_elem p d : d ∈ domains_of p <-> exists s, s ∈ p /\ sh_domain s = d.
Proof.
  unfold domains_of.
  assert (Hg : forall ds, d ∈ foldl (fun ds s => if bool_decide (sh_domain s ∈ ds) then ds else ds ++ [sh_domain s]) ds p
    <-> d ∈ ds \/ exists s, s ∈ p /\ sh_domain s = d).
  { induction p as [|s p IH]; intros ds; cbn; [set_solver|]. rewrite IH. case_bool_decide; set_solver. }
  rewrite Hg. set_solver.
Qed.

Lemma domain_argument_inj d d' : domain_argument d = domain_argument d' -> d = d'.
Proof. by destruct d, d'. Qed.

Lemma kind_argument_inj k k' : kind_argument k = kind_argument k' -> k = k'.
Proof. by destruct k, k'. Qed.

Lemma elem_of_mjoin_fmap {A B} (f : A -> list B) x l : x ∈ mjoin (f <$> l) <-> exists y, y ∈ l /\ x ∈ f y.
Proof. rewrite list_elem_of_join. setoid_rewrite list_elem_of_fmap. naive_solver. Qed.

Definition clause_matches (call : SocketCall) (clause : DenyClause) : bool :=
  forallb (fun t => test_matches t call) clause.

(** A clause with the tests [f t] of which exactly the last varies. *)
Lemma guarded_clauses call (f : ArgTest -> DenyClause) (guard : bool) tests :
  (forall t, clause_matches call (f t) = guard && test_matches t call) ->
  (exists c, c ∈ f <$> tests /\ clause_matches call c = true) <->
  guard = true /\ existsb (fun t => test_matches t call) tests = true.
Proof.
  intros Hf. rewrite existsb_elem. split.
  - intros (c & (t & -> & Ht)%list_elem_of_fmap & Hc). rewrite Hf in Hc. apply andb_true_iff in Hc as [-> ?]. eauto.
  - intros (-> & t & Ht & Hm). exists (f t). split; [apply list_elem_of_fmap; eauto|]. by rewrite Hf, Hm.
Qed.

Lemma kinds_below p d : Forall (fun v => 0 <= v < 256) ((fun s => kind_argument (sh_kind s)) <$> shapes_in p d).
Proof. apply Forall_fmap, Forall_forall. intros s _. cbn. destruct (sh_kind s); cbn; lia. Qed.

Lemma domain_clauses_exact p d call :
  0 <= call_protocol call ->
  (exists c, c ∈ domain_clauses p d /\ clause_matches call c = true) <->
  call_domain call = domain_argument d /\
  ((masked_type call ∉ (fun s => kind_argument (sh_kind s)) <$> shapes_in p d) \/
   exists s, s ∈ shapes_in p d /\ masked_type call = kind_argument (sh_kind s) /\
     (call_protocol call ∉ sh_protocols s)).
Proof.
  intros Hc. unfold domain_clauses. setoid_rewrite elem_of_app. setoid_rewrite elem_of_mjoin_fmap.
  set (here := test_matches (TestEq ARG_DOMAIN (domain_argument d)) call).
  assert (Hh : here = true <-> call_domain call = domain_argument d) by (unfold here; cbn; apply Z.eqb_eq).
  rewrite <- Hh. rewrite <- (type_tests_exact _ call (kinds_below p d)). split.
  - intros (c & [Hin|(s & Hs & Hin)] & Hm).
    + assert (here = true /\ existsb (fun t => test_matches t call) (unallowed_type_tests
        ((fun s => kind_argument (sh_kind s)) <$> shapes_in p d)) = true) as [? ?].
      { apply (guarded_clauses call (fun t => [TestEq ARG_DOMAIN (domain_argument d); t])); [|by exists c].
        intros t. unfold clause_matches. cbn [forallb]. fold here. by rewrite andb_true_r. }
      by split; [|left].
    + assert (here && test_matches (TestMaskedEq ARG_TYPE SOCKET_TYPE_MASK (kind_argument (sh_kind s))) call = true
        /\ existsb (fun t => test_matches t call) (unallowed_protocol_tests (sh_protocols s)) = true) as [Hg Ht].
      { apply (guarded_clauses call (fun t => [TestEq ARG_DOMAIN (domain_argument d);
          TestMaskedEq ARG_TYPE SOCKET_TYPE_MASK (kind_argument (sh_kind s)); t])); [|by exists c].
        intros t. unfold clause_matches. cbn [forallb]. fold here. by rewrite andb_true_r, andb_assoc. }
      apply andb_true_iff in Hg as [Hd Hk]. cbn in Hk. apply Z.eqb_eq in Hk.
      apply protocol_tests_exact in Ht; [|done]. split; [done|]. right. by exists s.
  - intros [Hd [Ht|(s & Hs & Hk & Hp)]].
    + destruct (proj2 (guarded_clauses call (fun t => [TestEq ARG_DOMAIN (domain_argument d); t]) here
        (unallowed_type_tests ((fun s => kind_argument (sh_kind s)) <$> shapes_in p d))
        ltac:(intros t; unfold clause_matches; cbn [forallb]; fold here; by rewrite andb_true_r)) (conj Hd Ht)) as (c & ? & ?).
      exists c. by split; [left|].
    + apply protocol_tests_exact in Hp; [|done].
      destruct (proj2 (guarded_clauses call (fun t => [TestEq ARG_DOMAIN (domain_argument d);
          TestMaskedEq ARG_TYPE SOCKET_TYPE_MASK (kind_argument (sh_kind s)); t])
        (here && test_matches (TestMaskedEq ARG_TYPE SOCKET_TYPE_MASK (kind_argument (sh_kind s))) call)
        (unallowed_protocol_tests (sh_protocols s))
        ltac:(intros t; unfold clause_matches; cbn [forallb]; fold here; by rewrite andb_true_r, andb_assoc)))
        as (c & ? & ?).
      { split; [|done]. rewrite Hd. cbn. by apply Z.eqb_eq. }
      exists c. split; [|done]. right. by exists s.
Qed.

Lemma denies_iff p call :
  0 <= call_protocol call ->
  denies (deny_clauses p) call = true <->
  (forall s, s ∈ p -> call_domain call <> domain_argument (sh_domain s)) \/
  exists d, d ∈ domains_of p /\ call_domain call = domain_argument d /\
    ((masked_type call ∉ (fun s => kind_argument (sh_kind s)) <$> shapes_in p d) \/
     exists s, s ∈ shapes_in p d /\ masked_type call = kind_argument (sh_kind s) /\ (call_protocol call ∉ sh_protocols s)).
Proof.
  intros Hc. unfold deny_clauses. case_bool_decide as E.
  - cbn. split; [|done]. intros _. left. intros s Hs. exfalso.
    assert (sh_domain s ∈ domains_of p) as Hd by (apply domains_of_elem; eauto). rewrite E in Hd. set_solver.
  - cbn [denies existsb]. rewrite orb_true_iff, existsb_elem, forallb_elem. split.
    + intros [Hall|(c & (d & Hd & Hin)%elem_of_mjoin_fmap & Hm)].
      * left. intros s Hs Heq. assert (sh_domain s ∈ domains_of p) as Hd by (apply domains_of_elem; eauto).
        specialize (Hall (TestNe ARG_DOMAIN (domain_argument (sh_domain s)))).
        rewrite list_elem_of_fmap in Hall. specialize (Hall ltac:(eauto)). cbn in Hall.
        apply negb_true_iff, Z.eqb_neq in Hall. done.
      * right. exists d. split; [done|]. apply domain_clauses_exact; [done|]. by exists c.
    + intros [Hall|(d & Hd & Hcl)].
      * left. intros t (d & -> & Hd)%list_elem_of_fmap. cbn. apply negb_true_iff, Z.eqb_neq.
        apply domains_of_elem in Hd as (s & Hs & <-). by apply Hall.
      * right. apply domain_clauses_exact in Hcl as (c & Hin & Hm); [|done]. exists c.
        split; [|done]. apply elem_of_mjoin_fmap. eauto.
Qed.

Lemma shapes_in_elem p d s : s ∈ shapes_in p d <-> sh_domain s = d /\ s ∈ p.
Proof. unfold shapes_in. rewrite elem_of_filter_bool, bool_decide_eq_true. done. Qed.

Lemma same_shape p s s' :
  policy_ok p -> s ∈ p -> s' ∈ p -> sh_domain s = sh_domain s' -> sh_kind s = sh_kind s' -> s = s'.
Proof.
  intros [Hn _] [i Hi]%list_elem_of_lookup [j Hj]%list_elem_of_lookup Hd Hk.
  assert (i = j) as ->; [|congruence].
  eapply NoDup_lookup; [exact Hn|rewrite list_lookup_fmap, Hi; done|rewrite list_lookup_fmap, Hj; cbn; by rewrite Hd, Hk].
Qed.

Lemma shape_permits_iff s call :
  shape_permits s call = true <->
  call_domain call = domain_argument (sh_domain s) /\ masked_type call = kind_argument (sh_kind s) /\
  call_protocol call ∈ sh_protocols s.
Proof.
  unfold shape_permits. rewrite !andb_true_iff, !Z.eqb_eq, bool_decide_eq_true. unfold masked_type. tauto.
Qed.

Lemma denials_complement p call :
  policy_ok p -> 0 <= call_protocol call -> denies (deny_clauses p) call = negb (permits_call p call).
Proof.
  intros Hp Hc. apply eq_true_iff_eq. rewrite negb_true_iff, <- not_true_iff_false, denies_iff by done.
  unfold permits_call. rewrite existsb_elem. split.
  - intros Hd (s & Hs & (Hsd & Hsk & Hsp)%shape_permits_iff).
    destruct Hd as [Hall|(d & Hd & Heq & Hcl)]; [by eapply Hall|].
    rewrite Heq in Hsd. apply domain_argument_inj in Hsd as ->. destruct Hcl as [Hn|(s' & Hs' & Hk' & Hp')].
    + apply Hn, list_elem_of_fmap. exists s. split; [done|]. by apply shapes_in_elem.
    + apply shapes_in_elem in Hs' as [Hd' Hin']. rewrite Hsk in Hk'. apply kind_argument_inj in Hk'.
      rewrite (same_shape p s s') in Hsp; done.
  - intros Hn. destruct (decide (Exists (fun s => call_domain call = domain_argument (sh_domain s)) p)) as [Hex|Hall].
    + right. apply Exists_exists in Hex as (s & Hs & Hd). exists (sh_domain s).
      split; [apply domains_of_elem; eauto|]. split; [done|].
      destruct (decide (masked_type call ∈ (fun s => kind_argument (sh_kind s)) <$> shapes_in p (sh_domain s))) as [Hin|]; [|by left].
      right. apply list_elem_of_fmap in Hin as (s' & Hk & Hs'). exists s'. split_and!; [done..|]. intros Hin.
      apply Hn. apply shapes_in_elem in Hs' as [Hd' Hs']. exists s'. split; [done|]. apply shape_permits_iff.
      by rewrite Hd', Hd.
    + left. intros s Hs Hd. apply Hall, Exists_exists. eauto.
Qed.

(** The compiled denials are exactly the complement of what the policy
    permits, for all 2^96 argument triples and not only the matrix the unit
    tests walk, whatever flag bits a socket type carries. *)
Theorem denials_exact p call :
  policy_ok p -> in_u32 (call_domain call) -> in_u32 (call_type call) -> in_u32 (call_protocol call) ->
  denies (deny_clauses p) call = negb (permits_call p call).
Proof. intros Hp _ _ [? _]. by apply denials_complement. Qed.

(** * The builders *)

(** The policies there are: the builders are the only public way to grow one. *)
Inductive built : Policy -> Prop :=
| built_deny_all : built deny_all
| built_unix p q : built p -> allowing_unix_sockets p = Ok q -> built q
| built_seqpacket p q : built p -> allowing_unix_seqpacket_sockets p = Ok q -> built q
| built_tcp p q : built p -> allowing_tcp_sockets p = Ok q -> built q
| built_datagram p q : built p -> allowing_inet_datagram_sockets p = Ok q -> built q.

Lemma allowing_ok domain kind protocols p q :
  policy_ok p -> Forall (fun v => 0 <= v) protocols -> allowing domain kind protocols p = Ok q ->
  policy_ok q /\ q = p ++ [mkShape domain kind protocols].
Proof.
  intros [Hn Hp] Hv. unfold allowing. destruct (existsb _ p) eqn:Ed; [done|]. case_match; [done|].
  destruct (List.find _ protocols) eqn:Ef; [done|]. intros [= <-]. split; [|done]. constructor.
  - rewrite fmap_app. apply NoDup_app. split_and!; [done| |apply NoDup_singleton].
    intros x (s & -> & Hs)%list_elem_of_fmap Hin. apply list_elem_of_singleton in Hin. injection Hin as Hd Hk.
    apply not_true_iff_false in Ed. apply Ed. apply existsb_elem. exists s. split; [done|].
    by rewrite !bool_decide_eq_true_2.
  - apply Forall_app. split; [done|]. apply Forall_singleton. cbn. apply find_None_iff in Ef.
    rewrite Forall_forall in *. intros v Hin. specialize (Hv v Hin). specialize (Ef v Hin). cbn in Ef.
    apply Z.ltb_ge in Ef. lia.
Qed.

Lemma allowing_both d1 d2 k1 k2 protocols p q :
  policy_ok p -> Forall (fun v => 0 <= v) protocols ->
  (p ← allowing d1 k1 protocols p; allowing d2 k2 protocols p) = Ok q -> policy_ok q.
Proof.
  intros Hp Hv (p' & H1 & H2)%bind_Ok. eapply allowing_ok in H1 as [H1 _]; [|done..].
  by eapply allowing_ok in H2 as [H2 _].
Qed.

Lemma built_ok p : built p -> policy_ok p.
Proof.
  induction 1 as [|p q _ IH E|p q _ IH E|p q _ IH E|p q _ IH E].
  - constructor; [apply NoDup_nil_2|constructor].
  - eapply allowing_both; [exact IH| |exact E]. by repeat constructor.
  - eapply allowing_ok in E as [? _]; [done|done|]. by repeat constructor.
  - eapply allowing_both; [exact IH| |exact E]. repeat constructor; lia.
  - eapply allowing_both; [exact IH| |exact E]. repeat constructor; lia.
Qed.

Lemma socketpair_shapes_ok p : policy_ok p -> policy_ok (socketpair_shapes p).
Proof.
  intros [Hn Hp]. unfold socketpair_shapes. constructor.
  - clear Hp. induction p as [|s p IH]; [constructor|]. rewrite fmap_cons in Hn. apply NoDup_cons in Hn as [Hs Hn].
    cbn [List.filter]. case_match; [|by apply IH]. rewrite fmap_cons. apply NoDup_cons. split; [|by apply IH].
    intros (x & E & [_ Hx]%elem_of_filter_bool)%list_elem_of_fmap. apply Hs. rewrite E. apply list_elem_of_fmap. eauto.
  - rewrite Forall_forall in *. intros s [_ Hs]%elem_of_filter_bool. by apply Hp.
Qed.

(** A granted shape is never refused by its own clauses. *)
Lemma granted_not_denied p : policy_ok p -> check_clauses_permit_granted_shapes p (deny_clauses p) = Ok tt.
Proof.
  intros Hp. unfold check_clauses_permit_granted_shapes. destruct (List.find _ p) as [s|] eqn:E; [exfalso|done].
  apply find_some in E as [Hs Hd]. apply list_elem_of_In in Hs. unfold shape_denied in Hd.
  apply existsb_elem in Hd as (protocol & Hpr & (flags & Hf & Hd)%existsb_elem).
  rewrite denials_complement in Hd; [|done|].
  - apply negb_true_iff, not_true_iff_false in Hd. apply Hd. unfold permits_call. apply existsb_elem.
    exists s. split; [done|]. apply shape_permits_iff. cbn. split_and!; [done| |done]. unfold masked_type. cbn.
    unfold TYPE_FLAGS in Hf. destruct (sh_kind s); repeat (apply elem_of_cons in Hf as [->|Hf]; [done|]); set_solver.
  - destruct Hp as [_ Hp]. rewrite Forall_forall in Hp. specialize (Hp s Hs). rewrite Forall_forall in Hp.
    cbn. by apply Hp.
Qed.

(** * The rules say what the denials say *)

Definition call_of (s : Syscall) : SocketCall := socket_call (register s 0) (register s 1) (register s 2).

Record test_ok (t : ArgTest) : Prop := mkTestOk {
  to_holds s : condition_holds s (test_condition t) = test_matches t (call_of s);
  to_sound : condition_sound (test_condition t);
  to_plain : condition_plain (test_condition t)
}.

Lemma as_u32_range z : in_u32 (as_u32 z).
Proof. unfold as_u32, in_u32, u32_max. pose proof (Z.mod_pos_bound z (2 ^ 32) ltac:(lia)). lia. Qed.

Lemma test_eq_ok arg value : 0 <= arg <= 2 -> in_u32 value -> test_ok (TestEq arg value) /\ test_ok (TestNe arg value) /\ test_ok (TestGt arg value).
Proof.
  intros Ha Hv. assert (arg = 0 \/ arg = 1 \/ arg = 2) as Hc by lia.
  destruct Hc as [->|[->| ->]]; (split_and!; (constructor; [intros s; reflexivity|split; [cbn; lia|exact Hv]|exact I])).
Qed.

Lemma test_masked_ok mask value :
  in_u32 value -> Z.land value mask = value -> test_ok (TestMaskedEq ARG_TYPE mask value).
Proof. intros Hv Hm. constructor; [intros s; reflexivity|split; [by split|exact Hv]|exact Hm]. Qed.

Lemma unallowed_type_ok allowed : Forall test_ok (unallowed_type_tests allowed).
Proof.
  unfold unallowed_type_tests, TYPE_MASK_BITS. set (k := Z.min (foldr Z.max 0 (bit_length <$> allowed)) 8).
  assert (Hk : 0 <= k <= 8) by (unfold k; pose proof (foldr_max_nonneg (bit_length <$> allowed)); lia).
  assert (Hpow : forall b, 0 <= b <= 8 -> 1 <= 2 ^ b <= 256).
  { intros b Hb. split; [apply (Z.pow_le_mono_r 2 0 b); lia|apply (Z.pow_le_mono_r 2 b 8); lia]. }
  apply Forall_app. rewrite !Forall_fmap. split; apply Forall_forall.
  - intros b Hb%elem_of_seqZ. cbn. rewrite Z.shiftl_1_l. specialize (Hpow b ltac:(lia)).
    apply test_masked_ok; [unfold in_u32, u32_max; lia|apply Z.land_diag].
  - intros v [_ Hv]%elem_of_filter_bool. apply elem_of_seqZ in Hv. cbn. rewrite Z.shiftl_1_l in *.
    specialize (Hpow k Hk). apply test_masked_ok; [unfold in_u32, u32_max; lia|].
    rewrite land_low by lia. apply Z.mod_small. lia.
Qed.

Lemma unallowed_protocol_ok allowed :
  Forall (fun v => 0 <= v <= MAX_ALLOWED_PROTOCOL) allowed -> Forall test_ok (unallowed_protocol_tests allowed).
Proof.
  intros Ha. unfold unallowed_protocol_tests. pose proof (foldr_max_nonneg allowed).
  assert (foldr Z.max 0 allowed <= MAX_ALLOWED_PROTOCOL).
  { apply foldr_max_bound; [unfold MAX_ALLOWED_PROTOCOL; lia|]. eapply Forall_impl; [exact Ha|]. cbn. lia. }
  unfold MAX_ALLOWED_PROTOCOL in *. constructor.
  - apply test_eq_ok; [by split|]. unfold in_u32, u32_max. lia.
  - apply Forall_fmap, Forall_forall. intros v [_ Hv]%elem_of_filter_bool. apply elem_of_seqZ in Hv.
    apply (test_eq_ok ARG_PROTOCOL v); [by split|]. unfold in_u32, u32_max. lia.
Qed.

Lemma domain_tests_ok d : test_ok (TestEq ARG_DOMAIN (domain_argument d)) /\ test_ok (TestNe ARG_DOMAIN (domain_argument d)).
Proof.
  destruct (test_eq_ok ARG_DOMAIN (domain_argument d)) as (? & ? & _); [by split| |done].
  unfold in_u32, u32_max. destruct d; cbn; lia.
Qed.

Lemma deny_clauses_ok p clauses :
  policy_ok p -> deny_clauses p = Clauses clauses -> clauses <> [] /\ Forall (fun c => c <> [] /\ Forall test_ok c) clauses.
Proof.
  intros Hp. unfold deny_clauses. case_bool_decide as E; [done|]. intros [= <-]. split; [done|]. constructor.
  - split.
    + destruct (domains_of p); [done|]. by rewrite fmap_cons.
    + apply Forall_fmap, Forall_forall. intros d _. cbn. apply domain_tests_ok.
  - apply Forall_forall. intros c (d & _ & Hc)%elem_of_mjoin_fmap. unfold domain_clauses in Hc.
    apply elem_of_app in Hc as [(t & -> & Ht)%list_elem_of_fmap|(s & Hs & (t & -> & Ht)%list_elem_of_fmap)%elem_of_mjoin_fmap].
    + split; [done|]. pose proof (unallowed_type_ok ((fun s => kind_argument (sh_kind s)) <$> shapes_in p d)) as Hall.
      rewrite Forall_forall in Hall. apply Forall_cons. split; [apply domain_tests_ok|by apply Forall_singleton, Hall].
    + split; [done|]. destruct Hp as [_ Hp]. apply shapes_in_elem in Hs as [_ Hs]. rewrite Forall_forall in Hp.
      pose proof (unallowed_protocol_ok (sh_protocols s) (Hp s Hs)) as Hall. rewrite Forall_forall in Hall.
      apply Forall_cons. split; [apply domain_tests_ok|]. apply Forall_cons. split; [|by apply Forall_singleton, Hall].
      apply test_masked_ok; destruct (sh_kind s); cbn; done.
Qed.

Definition rule_of (c : DenyClause) : SeccompRule := test_condition <$> c.

Definition rules_of (d : SocketDenials) : list SeccompRule :=
  match d with Everything => [] | Clauses clauses => rule_of <$> clauses end.

Lemma clause_holds c s : Forall test_ok c -> forallb (condition_holds s) (rule_of c) = clause_matches (call_of s) c.
Proof.
  unfold rule_of, clause_matches. induction 1 as [|t c Ht _ IH]; [done|]. cbn [fmap list_fmap forallb]. rewrite (to_holds t Ht), <- IH. done.
Qed.

Lemma rules_match p s :
  policy_ok p -> chain_matches s (rules_of (deny_clauses p)) = denies (deny_clauses p) (call_of s).
Proof.
  intros Hp. destruct (deny_clauses p) as [|clauses] eqn:E; [done|].
  apply deny_clauses_ok in E as [Hne Hok]; [|done]. unfold chain_matches. cbn [rules_of].
  rewrite bool_decide_eq_false_2 by (destruct clauses; [done|by rewrite fmap_cons]). cbn [orb denies].
  clear Hne. induction Hok as [|c clauses [_ Hc] _ IH]; [done|]. rewrite fmap_cons. cbn [existsb].
  by rewrite (clause_holds c s Hc), IH.
Qed.

Lemma rules_plain p : policy_ok p -> Forall (Forall condition_plain) (rules_of (deny_clauses p)).
Proof.
  intros Hp. destruct (deny_clauses p) as [|clauses] eqn:E; [constructor|].
  apply deny_clauses_ok in E as [_ Hok]; [|done]. apply Forall_fmap. eapply Forall_impl; [exact Hok|].
  intros c [_ Hc]. apply Forall_fmap. eapply Forall_impl; [exact Hc|]. intros t Ht. apply Ht.
Qed.

(** * The rule maps *)

Lemma insert_all_lookup numbers rules m n :
  insert_all numbers rules m !! n = if bool_decide (n ∈ numbers) then Some rules else m !! n.
Proof.
  unfold insert_all. revert m. induction numbers as [|k numbers IH]; intros m; [done|]. cbn [foldl].
  rewrite IH. destruct (decide (n ∈ numbers)) as [Hin|Hn].
  - rewrite !bool_decide_eq_true_2 by set_solver. done.
  - rewrite (bool_decide_eq_false_2 (n ∈ numbers)) by done. destruct (decide (n = k)) as [->|Hk].
    + rewrite lookup_insert_eq, bool_decide_eq_true_2 by set_solver. done.
    + rewrite lookup_insert_ne by done. rewrite bool_decide_eq_false_2 by set_solver. done.
Qed.

Lemma deny_all_lookup calls m n :
  foldl (fun m syscall => insert_all (both_abis syscall) [] m) m calls !! n =
  if bool_decide (n ∈ mjoin (both_abis <$> calls)) then Some [] else m !! n.
Proof.
  revert m. induction calls as [|k calls IH]; intros m; [done|]. cbn [foldl fmap list_fmap].
  rewrite IH, insert_all_lookup. change (mjoin (both_abis k :: ?l)) with (both_abis k ++ mjoin l).
  destruct (decide (n ∈ mjoin (both_abis <$> calls))) as [Hin|Hn].
  - rewrite !bool_decide_eq_true_2; [done|set_solver..].
  - rewrite (bool_decide_eq_false_2 (n ∈ mjoin (both_abis <$> calls))) by done.
    destruct (decide (n ∈ both_abis k)) as [Hk|Hk].
    + rewrite !bool_decide_eq_true_2; [done|set_solver..].
    + rewrite !bool_decide_eq_false_2; [done|set_solver..].
Qed.

(** A call by either spelling of its number. *)
Definition is_call (number : Z) (s : Syscall) : bool :=
  (sc_number s =? number) || (sc_number s =? Z.lor number 0x40000000).

Definition always_denied : list Z := IO_URING_SYSCALLS ++ PROCESS_INSPECTION_SYSCALLS ++ NAMESPACE_SYSCALLS.

Lemma is_call_number number s : is_call number s = true -> sc_number s = number \/ sc_number s = Z.lor number X32_SYSCALL_BIT.
Proof. unfold is_call. bool_prop. done. Qed.

Lemma both_abis_call number s : bool_decide (sc_number s ∈ both_abis number) = is_call number s.
Proof. apply eq_true_iff_eq. unfold is_call, both_abis, X32_SYSCALL_BIT. rewrite bool_decide_eq_true. bool_prop. set_solver. Qed.

Lemma denied_number s :
  existsb (fun k => is_call k s) always_denied = true <-> sc_number s ∈ mjoin (both_abis <$> always_denied).
Proof.
  rewrite existsb_elem, elem_of_mjoin_fmap. setoid_rewrite <- both_abis_call. setoid_rewrite bool_decide_eq_true. done.
Qed.

(** The chain a call meets in the first program. *)
Definition chain_for (socket socketpair clone : list SeccompRule) (s : Syscall) : option (list SeccompRule) :=
  if is_call SYS_CLONE s then Some clone
  else if existsb (fun k => is_call k s) always_denied then Some []
  else if is_call SYS_SOCKETPAIR s then Some socketpair
  else if is_call SYS_SOCKET s then Some socket
  else None.

Lemma socket_map_lookup socket socketpair clone s :
  socket_rule_map socket socketpair clone !! sc_number s = chain_for socket socketpair clone s.
Proof.
  unfold socket_rule_map, chain_for. rewrite insert_all_lookup, deny_all_lookup, !insert_all_lookup.
  change (IO_URING_SYSCALLS ++ PROCESS_INSPECTION_SYSCALLS ++ NAMESPACE_SYSCALLS) with always_denied.
  rewrite !both_abis_call.
  assert (bool_decide (sc_number s ∈ mjoin (both_abis <$> always_denied)) = existsb (fun k => is_call k s) always_denied) as ->.
  { apply eq_true_iff_eq. by rewrite denied_number, bool_decide_eq_true. }
  rewrite lookup_empty. done.
Qed.

Lemma clone3_map_lookup s : clone3_rule_map !! sc_number s = if is_call SYS_CLONE3 s then Some [] else None.
Proof. unfold clone3_rule_map. rewrite insert_all_lookup, lookup_empty, both_abis_call. done. Qed.

(** * Namespaces *)

Definition NAMESPACE_FLAGS : Z := foldr Z.lor 0 CLONE_NAMESPACE_FLAGS.

Definition clone_rules : list SeccompRule :=
  (fun flag => [mkCondition ARG_CLONE_FLAGS Qword (CmpMaskedEq flag) flag]) <$> CLONE_NAMESPACE_FLAGS.

Lemma land_foldr_lor v flags : Z.land v (foldr Z.lor 0 flags) <> 0 <-> Exists (fun f => Z.land v f <> 0) flags.
Proof.
  induction flags as [|f flags IH]; cbn.
  - rewrite Z.land_0_r, Exists_nil. done.
  - rewrite Exists_cons, <- IH, Z.land_lor_distr_r, Z.lor_eq_0_iff. lia.
Qed.

Lemma land_pow2_nonzero v b : 0 <= b -> Z.land v (2 ^ b) <> 0 <-> Z.land v (2 ^ b) = 2 ^ b.
Proof.
  intros Hb. rewrite land_bit by done. split.
  - intros Hn. destruct (Z.testbit v b) eqn:E; [done|]. exfalso. apply Hn, Z.bits_inj'. intros n Hn'.
    rewrite Z.land_spec, Z.pow2_bits_eqb, Z.bits_0 by done. destruct (Z.eqb_spec b n) as [<-|]; [by rewrite E|apply andb_false_r].
  - intros Ht E. apply (f_equal (fun z => Z.testbit z b)) in E.
    by rewrite Z.land_spec, Z.pow2_bits_true, Ht, Z.bits_0 in E.
Qed.

Lemma namespace_flags_are_bits : Forall (fun f => f = 2 ^ Z.log2 f /\ 0 <= Z.log2 f /\ in_u64 f) CLONE_NAMESPACE_FLAGS.
Proof. repeat constructor; vm_compute; discriminate. Qed.

Lemma clone_rules_match s :
  chain_matches s clone_rules = negb (Z.land (register s 0) NAMESPACE_FLAGS =? 0).
Proof.
  apply eq_true_iff_eq. rewrite negb_true_iff, Z.eqb_neq. unfold NAMESPACE_FLAGS. rewrite land_foldr_lor, Exists_exists.
  unfold chain_matches. rewrite bool_decide_eq_false_2 by done. cbn [orb]. rewrite existsb_elem.
  pose proof namespace_flags_are_bits as Hb. rewrite Forall_forall in Hb. unfold clone_rules. split.
  - intros (r & (f & -> & Hf)%list_elem_of_fmap & Hm). exists f. split; [done|]. cbn in Hm.
    rewrite andb_true_r in Hm. apply Z.eqb_eq in Hm. specialize (Hb f Hf) as (Hp & H0 & _). rewrite Hp.
    apply land_pow2_nonzero; [done|]. by rewrite <- Hp.
  - intros (f & Hf & Hn). exists [mkCondition ARG_CLONE_FLAGS Qword (CmpMaskedEq f) f].
    split; [apply list_elem_of_fmap; eauto|]. cbn. rewrite andb_true_r. apply Z.eqb_eq.
    specialize (Hb f Hf) as (Hp & H0 & _). rewrite Hp in Hn |- *. by apply land_pow2_nonzero.
Qed.

(** * The installed filter *)

Lemma mapM_accepts {E A B} (f : A -> result E B) (g : A -> B) l :
  Forall (fun x => f x = Ok (g x)) l -> mapM f l = Ok (g <$> l).
Proof. induction 1 as [|x l Hx _ IH]; [done|]. cbn. by rewrite Hx, IH. Qed.

(** The filters of the two programs. *)
Definition socket_filter (p : Policy) : SeccompFilter :=
  mkFilter (socket_rule_map (rules_of (deny_clauses p)) (rules_of (deny_clauses (socketpair_shapes p))) clone_rules)
    Allow (Errno DENIAL_ERRNO).

Definition clone3_filter : SeccompFilter := mkFilter clone3_rule_map Allow (Errno CLONE3_ERRNO).

Section Promised.
Context `{SeccompLaws}.

Lemma compile_rules_eq p : policy_ok p -> compile_rules p = Ok (rules_of (deny_clauses p)).
Proof.
  intros Hp. unfold compile_rules. rewrite granted_not_denied by done. cbn [mbind result_bind].
  destruct (deny_clauses p) as [|clauses] eqn:E; [done|]. apply deny_clauses_ok in E as [_ Hok]; [|done].
  cbn [rules_of]. apply mapM_accepts. eapply Forall_impl; [exact Hok|]. intros c [Hne Hc]. unfold compile_clause.
  rewrite (mapM_accepts condition test_condition).
  - cbn [mbind result_bind]. unfold refused. rewrite rule_new_accepts; [done|]. by destruct c.
  - eapply Forall_impl; [exact Hc|]. intros t Ht. unfold condition, refused. by rewrite condition_new_accepts by apply Ht.
Qed.

Lemma clone_rules_eq : clone_namespace_rules = Ok clone_rules.
Proof.
  unfold clone_namespace_rules. apply mapM_accepts. eapply Forall_impl; [exact namespace_flags_are_bits|].
  intros f (_ & _ & Hf). unfold clone_rule, refused. rewrite condition_new_accepts by (split; [by split|exact Hf]).
  cbn [map_err mbind result_bind]. by rewrite rule_new_accepts.
Qed.

Lemma compile_eq h p :
  policy_ok p ->
  compile h p =
  if build_is_x86_64 h then
    first ← refused (assemble (socket_filter p));
    second ← refused (assemble clone3_filter);
    Ok (mkCompiled first second (filtered (f_rules (socket_filter p))))
  else Err UnsupportedArch.
Proof.
  intros Hp. unfold compile, check_build_arch. destruct (build_is_x86_64 h); [|done]. cbn [mbind result_bind].
  rewrite !compile_rules_eq by (try apply socketpair_shapes_ok; done). rewrite clone_rules_eq.
  cbn [mbind result_bind]. unfold refused at 1. rewrite filter_new_accepts by done. cbn [map_err mbind result_bind].
  unfold refused at 2. rewrite filter_new_accepts by done. done.
Qed.

Lemma rules_map_plain p : policy_ok p -> filter_plain (socket_filter p).
Proof.
  intros Hp n rules. unfold socket_filter. cbn [f_rules].
  change n with (sc_number (mkSyscall true n [])). rewrite socket_map_lookup. unfold chain_for. repeat case_match; intros [= <-].
  - repeat constructor; by vm_compute.
  - constructor.
  - by apply rules_plain, socketpair_shapes_ok.
  - by apply rules_plain.
Qed.

Lemma clone3_plain : filter_plain clone3_filter.
Proof.
  intros n rules. cbn [f_rules clone3_filter].
  change n with (sc_number (mkSyscall true n [])). rewrite clone3_map_lookup. case_match; intros [= <-]. constructor.
Qed.

Lemma socket_filter_answer p s :
  policy_ok p -> sc_x86_64 s = true ->
  filter_answer (socket_filter p) s =
  if is_call SYS_CLONE s then
    if Z.land (register s 0) NAMESPACE_FLAGS =? 0 then Allow else Errno DENIAL_ERRNO
  else if existsb (fun k => is_call k s) always_denied then Errno DENIAL_ERRNO
  else if is_call SYS_SOCKETPAIR s then
    if permits_socketpair p (register s 0) (register s 1) (register s 2) then Allow else Errno DENIAL_ERRNO
  else if is_call SYS_SOCKET s then
    if permits p (register s 0) (register s 1) (register s 2) then Allow else Errno DENIAL_ERRNO
  else Allow.
Proof.
  intros Hp Hx. unfold filter_answer. rewrite Hx. cbn [negb socket_filter f_rules f_match f_mismatch].
  rewrite socket_map_lookup. unfold chain_for. destruct (is_call SYS_CLONE s).
  { rewrite clone_rules_match. by destruct (_ =? _). }
  destruct (existsb _ always_denied); [done|].
  assert (Hc : forall q, policy_ok q -> chain_matches s (rules_of (deny_clauses q)) = negb (permits_call q (call_of s))).
  { intros q Hq. rewrite rules_match by done. apply denials_complement; [done|]. apply as_u32_range. }
  destruct (is_call SYS_SOCKETPAIR s); [|destruct (is_call SYS_SOCKET s); [|done]].
  - rewrite Hc by (by apply socketpair_shapes_ok). 
    change (permits_socketpair p _ _ _) with (permits_call (socketpair_shapes p) (call_of s)). by destruct (permits_call _ _).
  - rewrite Hc by done. change (permits p _ _ _) with (permits_call p (call_of s)). by destruct (permits_call _ _).
Qed.

(** The first program leaves [clone3] to the second. *)
Lemma clone3_is_other s :
  is_call SYS_CLONE3 s = true ->
  is_call SYS_CLONE s = false /\ existsb (fun k => is_call k s) always_denied = false /\
  is_call SYS_SOCKETPAIR s = false /\ is_call SYS_SOCKET s = false.
Proof.
  intros [E|E]%is_call_number; unfold is_call; rewrite E; split_and!; by vm_compute.
Qed.

(** C23: What the kernel answers on a thread with the policy installed, for every
    system call: [socket] and [socketpair] succeed exactly for the shapes the
    policy permits, by either ABI's number and whatever the high halves of the
    registers hold; io_uring, process inspection and namespace calls are always
    denied, [clone] exactly when any namespace flag is set, [clone3] answers
    ENOSYS, a task of another architecture is killed, and every other call runs. *)
Theorem installed_filter_exact h p c count thread s :
  built p -> compile h p = Ok c -> apply_compiled c (Ok tt) (Ok tt) [] = (Ok count, thread) ->
  kernel_answer thread s =
  if negb (sc_x86_64 s) then KillProcess
  else if is_call SYS_SOCKET s then
    if permits p (register s 0) (register s 1) (register s 2) then Allow else Errno DENIAL_ERRNO
  else if is_call SYS_SOCKETPAIR s then
    if permits_socketpair p (register s 0) (register s 1) (register s 2) then Allow else Errno DENIAL_ERRNO
  else if existsb (fun k => is_call k s) always_denied then Errno DENIAL_ERRNO
  else if is_call SYS_CLONE s then
    if Z.land (register s 0) NAMESPACE_FLAGS =? 0 then Allow else Errno DENIAL_ERRNO
  else if is_call SYS_CLONE3 s then Errno CLONE3_ERRNO
  else Allow.
Proof.
  intros Hp%built_ok. rewrite compile_eq by done. destruct (build_is_x86_64 h); [|done].
  intros (first & H1 & (second & H2 & [= <-])%bind_Ok)%bind_Ok [= _ <-].
  unfold refused in H1, H2. destruct (assemble (socket_filter p)) as [f1|] eqn:E1; [|done]. injection H1 as ->.
  destruct (assemble clone3_filter) as [f2|] eqn:E2; [|done]. injection H2 as ->.
  rewrite kernel_strictest. cbn [fmap list_fmap program clone3_program app].
  rewrite (assemble_answers _ _ s E1 (rules_map_plain p Hp)), (assemble_answers _ _ s E2 clone3_plain).
  destruct (sc_x86_64 s) eqn:Hx; cbn [negb].
  2: { unfold filter_answer. by rewrite Hx. }
  rewrite socket_filter_answer by done. unfold filter_answer. rewrite Hx. cbn [negb clone3_filter f_rules f_match f_mismatch].
  rewrite clone3_map_lookup. destruct (is_call SYS_CLONE3 s) eqn:E3.
  - apply clone3_is_other in E3 as (-> & -> & -> & ->). done.
  - assert (Hd : (is_call SYS_SOCKET s = true -> is_call SYS_SOCKETPAIR s = false /\
        existsb (fun k => is_call k s) always_denied = false /\ is_call SYS_CLONE s = false) /\
      (is_call SYS_SOCKETPAIR s = true -> existsb (fun k => is_call k s) always_denied = false /\ is_call SYS_CLONE s = false) /\
      (existsb (fun k => is_call k s) always_denied = true -> is_call SYS_CLONE s = false)).
    { split_and!.
      - intros [E|E]%is_call_number; unfold is_call; rewrite E; split_and!; by vm_compute.
      - intros [E|E]%is_call_number; unfold is_call; rewrite E; split_and!; by vm_compute.
      - assert (Hall : Forall (fun k => sc_number s = k \/ sc_number s = Z.lor k X32_SYSCALL_BIT ->
            is_call SYS_CLONE s = false) always_denied)
          by (repeat constructor; intros [E|E]; unfold is_call; rewrite E; by vm_compute).
        rewrite Forall_forall in Hall. intros (k & Hk & Hc)%existsb_elem. by apply (Hall k Hk), is_call_number. }
    destruct Hd as (Hd1 & Hd2 & Hd3).
    destruct (is_call SYS_SOCKET s), (is_call SYS_SOCKETPAIR s), (existsb _ always_denied), (is_call SYS_CLONE s);
      try (specialize (Hd1 eq_refl)); try (specialize (Hd2 eq_refl)); try (specialize (Hd3 eq_refl));
      try (by intuition discriminate); by repeat case_match.
Qed.

(** A policy the builders made compiles, on x86_64, unless the assembler
    refuses one of the two programs: no condition, rule or filter is refused, and
    the compiler's check that it would not deny what it grants never fires. *)
Theorem compile_refusals_exact h p e :
  built p -> compile h p = Err e ->
  (build_is_x86_64 h = false /\ e = UnsupportedArch) \/
  (build_is_x86_64 h = true /\ exists f detail, (f = socket_filter p \/ f = clone3_filter) /\
     assemble f = Err detail /\ e = FilterRefused detail).
Proof.
  intros Hp%built_ok. rewrite compile_eq by done. destruct (build_is_x86_64 h); [|intros [= <-]; by left].
  intros He. right. split; [done|]. unfold refused in He.
  destruct (assemble (socket_filter p)) as [f1|d] eqn:E1; cbn in He; [|injection He as <-; eauto 8].
  destruct (assemble clone3_filter) as [f2|d] eqn:E2; cbn in He; [done|injection He as <-; eauto 8].
Qed.
End Promised.

(** A refused installation of the second program leaves the first in place,
    though the error is documented to mean that nothing is filtered. *)
Lemma apply_refused_may_filter `{Seccomp} c detail thread :
  apply_compiled c (Ok tt) (Err detail) thread = (Err (ApplyRefused detail), thread ++ [program c]).
Proof. done. Qed.

(** * Witnesses

    A crate that accepts everything and a kernel that reads the filters. *)

Definition reading : Seccomp := {|
  Program := SeccompFilter;
  condition_new := Ok;
  rule_new := Ok;
  filter_new := Ok;
  assemble := Ok;
  program_len := fun f => Z.of_nat (size (f_rules f));
  kernel_answer := fun ps s => strictest ((fun f => filter_answer f s) <$> ps)
|}.

Lemma reading_laws : @SeccompLaws reading filter_answer.
Proof. constructor; [done|done|done|intros f p s [= <-]; done|done]. Qed.

Definition demo_policy : Policy := [mkShape Inet Stream [0; 6]; mkShape Inet6 Stream [0; 6]].

Lemma demo_policy_built : built demo_policy.
Proof. eapply built_tcp; [apply built_deny_all|]. by vm_compute. Qed.

Lemma demo_policy_ok : policy_ok demo_policy.
Proof.
  constructor.
  - apply (bool_decide_eq_true_1 _). by vm_compute.
  - repeat constructor; vm_compute; discriminate.
Qed.

Lemma denials_exact_witness : denies (deny_clauses demo_policy) (mkCall 2 0x80801 132) = true.
Proof.
  rewrite (denials_exact demo_policy (mkCall 2 0x80801 132) demo_policy_ok); [by vm_compute| | |];
    split; vm_compute; discriminate.
Defined.

(** A flagged IPv4 stream socket, by the x32 number and with a dirty register. *)
Definition demo_call : Syscall := mkSyscall true (Z.lor 41 0x40000000) [2 + 2 ^ 40; 0x80801; 6; 0; 0; 0].

Definition demo_compiled : @CompiledSocketFilter reading :=
  @mkCompiled reading (socket_filter demo_policy) clone3_filter (filtered (f_rules (socket_filter demo_policy))).

Lemma demo_compiles : @compile reading (mkHost true) demo_policy = Ok demo_compiled.
Proof. by rewrite (@compile_eq reading filter_answer reading_laws (mkHost true) demo_policy demo_policy_ok). Qed.

Lemma installed_filter_exact_witness :
  @kernel_answer reading [socket_filter demo_policy; clone3_filter] demo_call = Allow.
Proof.
  rewrite (@installed_filter_exact reading filter_answer reading_laws (mkHost true) demo_policy demo_compiled
    (@instruction_count reading demo_compiled) [socket_filter demo_policy; clone3_filter] demo_call
    demo_policy_built demo_compiles eq_refl). by vm_compute.
Defined.

Lemma compile_refusals_exact_witness :
  (build_is_x86_64 (mkHost false) = false /\ UnsupportedArch = UnsupportedArch) \/
  (build_is_x86_64 (mkHost false) = true /\ exists f detail,
     (f = socket_filter demo_policy \/ f = clone3_filter) /\
     @assemble reading f = Err detail /\ UnsupportedArch = FilterRefused detail).
Proof.
  apply (@compile_refusals_exact reading filter_answer reading_laws (mkHost false) demo_policy UnsupportedArch
    demo_policy_built). done.
Defined.
