(* ===== verification/AppendTable.v ===== *)
(** Tables nothing is deleted from.

    Some store modules only insert and update.  Their tables hold the rows of a
    list of valid entries whose row ids are their places, so the operations can
    be read on that list: [entry_log] is the invariant, and each lemma says what
    one SQL statement of such a module does to the list. *)

From S2P Require Import Prelude Table.

Section AppendTable.
Context {Row Entry Failure K : Type} `{EqDecision K}.
Context (rowid : Row -> Z) (key : Row -> K).
Context (validate : Row -> result Failure Entry) (row_of : Entry -> Row) (entry_ok : Entry -> Prop).
Implicit Types (e : Entry) (log : list Entry).

Definition entry_id e : Z := rowid (row_of e).
Definition entry_key e : K := key (row_of e).

Record entry_log (bound : Z) log : Prop := mkEntryLog {
  el_valid : Forall entry_ok log;
  el_keys : NoDup (entry_key <$> log);
  el_ids : entry_id <$> log = seqZ 1 (len log);
  el_bound : len log <= bound
}.

Definition rows_of log : list Row := row_of <$> log.

(** [SELECT ... WHERE key = ?1] on the entries. *)
Definition find_entry (k : K) log : option Entry := List.find (fun e => bool_decide (entry_key e = k)) log.

Lemma find_entry_Some k log e : find_entry k log = Some e -> e ∈ log /\ entry_key e = k.
Proof. intros [Hin E]%find_some. apply list_elem_of_In in Hin. by bool_prop. Qed.

Lemma find_entry_None k log : find_entry k log = None <-> k ∉ entry_key <$> log.
Proof.
  unfold find_entry. rewrite find_None_iff, Forall_forall. setoid_rewrite bool_decide_eq_false.
  rewrite list_elem_of_fmap. naive_solver.
Qed.

Lemma find_entry_elem k log e : NoDup (entry_key <$> log) -> find_entry k log = Some e <-> e ∈ log /\ entry_key e = k.
Proof.
  intros Hn. split; [apply find_entry_Some|]. intros [Hin <-].
  induction log as [|x log IH]; [set_solver|]. rewrite fmap_cons in Hn. apply NoDup_cons in Hn as [Hx Hn].
  unfold find_entry in *. cbn. case_bool_decide as E.
  - apply elem_of_cons in Hin as [->|Hin]; [done|]. exfalso. apply Hx. rewrite E. by apply list_elem_of_fmap_2.
  - apply elem_of_cons in Hin as [->|Hin]; [done|]. by apply IH.
Qed.

Lemma entry_key_inj log e e' :
  NoDup (entry_key <$> log) -> e ∈ log -> e' ∈ log -> entry_key e = entry_key e' -> e = e'.
Proof.
  intros Hn He He' E. assert (H1 : find_entry (entry_key e) log = Some e) by (by apply find_entry_elem).
  assert (H2 : find_entry (entry_key e) log = Some e') by (by apply find_entry_elem). congruence.
Qed.

Lemma find_entry_app k log log' :
  find_entry k (log ++ log') = match find_entry k log with Some e => Some e | None => find_entry k log' end.
Proof. induction log as [|x log IH]; [done|]. unfold find_entry in *. cbn. by case_bool_decide. Qed.

(** * Reading *)

Context (Hvalid : forall e, entry_ok e -> validate (row_of e) = Ok e).

Lemma lookup_rows k log : lookup_key key k (rows_of log) = row_of <$> find_entry k log.
Proof.
  unfold lookup_key, find_entry, rows_of. induction log as [|e log IH]; [done|]. cbn. fold (entry_key e).
  case_bool_decide; [done|exact IH].
Qed.

Lemma read_key k log :
  Forall entry_ok log ->
  match lookup_key key k (rows_of log) with
  | None => Ok None
  | Some raw => e ← validate raw; Ok (Some e)
  end = Ok (find_entry k log).
Proof.
  intros Hv. rewrite lookup_rows. destruct (find_entry k log) as [e|] eqn:E; [|done].
  apply find_entry_Some in E as [Hin _]. rewrite Forall_forall in Hv. cbn. by rewrite Hvalid by auto.
Qed.

Lemma filter_rows (p : Row -> bool) log : List.filter p (rows_of log) = rows_of (List.filter (fun e => p (row_of e)) log).
Proof. unfold rows_of. induction log as [|e log IH]; [done|]. cbn. rewrite IH. by case_match. Qed.

Lemma take_rows n log : take n (rows_of log) = rows_of (take n log).
Proof. unfold rows_of. by rewrite fmap_take. Qed.

Lemma validate_rows log : Forall entry_ok log -> mapM validate (rows_of log) = Ok log.
Proof. unfold rows_of. induction 1 as [|e log He _ IH]; [done|]. cbn. rewrite Hvalid by done. cbn. by rewrite IH. Qed.

Lemma Forall_filter_rows (P : Entry -> Prop) (q : Entry -> bool) log : Forall P log -> Forall P (List.filter q log).
Proof. rewrite !Forall_forall. intros Hp e [_ Hin]%elem_of_filter_rows. auto. Qed.

Lemma read_selected (p : Row -> bool) n log :
  Forall entry_ok log ->
  mapM validate (take n (List.filter p (rows_of log))) = Ok (take n (List.filter (fun e => p (row_of e)) log)).
Proof.
  intros. rewrite filter_rows, take_rows. apply validate_rows. by apply Forall_take, Forall_filter_rows.
Qed.

Lemma read_all_selected (p : Row -> bool) log :
  Forall entry_ok log -> mapM validate (List.filter p (rows_of log)) = Ok (List.filter (fun e => p (row_of e)) log).
Proof. intros. rewrite filter_rows. apply validate_rows. by apply Forall_filter_rows. Qed.

(** * Writing *)

Lemma len_rows log : len (rows_of log) = len log.
Proof. unfold rows_of, len. by rewrite length_fmap. Qed.

Lemma id_at log i e : entry_id <$> log = seqZ 1 (len log) -> log !! i = Some e -> entry_id e = Z.of_nat i + 1.
Proof.
  intros Hid He. assert (E : (entry_id <$> log) !! i = Some (entry_id e)) by (by rewrite list_lookup_fmap, He).
  rewrite Hid in E. apply lookup_seqZ in E. lia.
Qed.

Lemma elem_id log e : entry_id <$> log = seqZ 1 (len log) -> e ∈ log -> 1 <= entry_id e <= len log.
Proof.
  intros Hid [i Hi]%list_elem_of_lookup. rewrite (id_at log i e Hid Hi).
  apply lookup_lt_Some in Hi. unfold len. lia.
Qed.

Lemma id_inj log e e' : entry_id <$> log = seqZ 1 (len log) -> e ∈ log -> e' ∈ log -> entry_id e = entry_id e' -> e = e'.
Proof.
  intros Hid [i Hi]%list_elem_of_lookup [j Hj]%list_elem_of_lookup E.
  rewrite (id_at log i e Hid Hi), (id_at log j e' Hid Hj) in E. assert (i = j) as -> by lia. congruence.
Qed.

Lemma highest_row log :
  entry_id <$> log = seqZ 1 (len log) -> default 0 (max_rowid rowid (rows_of log)) = len log.
Proof.
  intros Hid. pose proof (max_rowid_spec rowid (rows_of log)) as H.
  destruct (max_rowid rowid (rows_of log)) as [m|]; cbn [from_option id].
  - destruct H as [(r & (e & -> & He)%list_elem_of_fmap & <-) Hf].
    fold (entry_id e). pose proof (elem_id log e Hid He) as Hr.
    destruct (lookup_lt_is_Some_2 log (length log - 1)) as [x Hx]; [unfold len, entry_id in *; lia|].
    rewrite Forall_forall in Hf. specialize (Hf (row_of x)).
    assert (Hxe : rowid (row_of x) <= entry_id e).
    { apply Hf. unfold rows_of. apply list_elem_of_fmap_2. by eapply list_elem_of_lookup_2. }
    fold (entry_id x) in Hxe. rewrite (id_at log _ x Hid Hx) in Hxe. unfold len, entry_id, id in *. lia.
  - unfold rows_of in H. apply fmap_nil_inv in H. by subst.
Qed.

Lemma next_row `{RandomRowid} log :
  entry_id <$> log = seqZ 1 (len log) -> len log < i64_max -> next_rowid rowid (rows_of log) = Some (len log + 1).
Proof.
  intros Hid Hb. pose proof (highest_row log Hid) as Hh. unfold next_rowid.
  pose proof (max_rowid_spec rowid (rows_of log)) as Hs.
  destruct (max_rowid rowid (rows_of log)) as [m|]; cbn [from_option id] in Hh.
  - subst m. by rewrite (proj2 (Z.ltb_lt _ _)).
  - by rewrite <- Hh.
Qed.

Lemma insert_next log e :
  entry_id <$> log = seqZ 1 (len log) -> entry_id e = len log + 1 ->
  insert_row rowid (row_of e) (rows_of log) = rows_of (log ++ [e]).
Proof.
  intros Hid He. rewrite insert_row_last; [unfold rows_of; by rewrite fmap_app|].
  unfold rows_of. apply Forall_fmap. rewrite Forall_forall. intros x Hx. cbn.
  pose proof (elem_id log x Hid Hx) as Hr. unfold entry_id in *. lia.
Qed.

Lemma entry_log_snoc bound log e :
  entry_log bound log -> entry_ok e -> find_entry (entry_key e) log = None -> entry_id e = len log + 1 ->
  len log < bound -> entry_log bound (log ++ [e]).
Proof.
  intros [Hv Hk Hi Hb] He Hn Hid Hlt. constructor.
  - by apply Forall_app; split; [|repeat constructor].
  - rewrite fmap_app. apply NoDup_app. split_and!; [done| |apply NoDup_singleton].
    intros k Hin ->%list_elem_of_singleton. by apply find_entry_None in Hn.
  - rewrite fmap_app, Hi, len_app. cbn. rewrite Hid. change (len [e]) with 1.
    unfold len. replace (Z.of_nat (length log) + 1) with (Z.of_nat (S (length log))) by lia. rewrite seqZ_S.
    f_equal. cbn. f_equal. lia.
  - rewrite len_app. change (len [e]) with 1. lia.
Qed.

Lemma seqZ_sorted m n : StronglySorted Z.lt (seqZ m (Z.of_nat n)).
Proof.
  revert m. induction n as [|n IH]; intros m; [constructor|].
  rewrite seqZ_cons by lia. replace (Z.pred (Z.of_nat (S n))) with (Z.of_nat n) by lia.
  constructor; [apply IH|]. rewrite Forall_forall. intros x Hx%elem_of_seqZ. lia.
Qed.

Lemma rows_ordered log : entry_id <$> log = seqZ 1 (len log) -> ordered rowid (rows_of log).
Proof.
  intros Hid. unfold ordered, rows_of. rewrite <- list_fmap_compose.
  change (rowid ∘ row_of) with entry_id. rewrite Hid. apply seqZ_sorted.
Qed.

(** An update of the row with one id. *)
Lemma update_one log (f : Row -> Row) (g : Entry -> Entry) (p : Row -> bool) :
  (forall e, e ∈ log -> p (row_of e) = true -> f (row_of e) = row_of (g e)) ->
  update_rows p f (rows_of log) = rows_of ((fun e => if p (row_of e) then g e else e) <$> log).
Proof.
  intros Hf. unfold update_rows, rows_of. rewrite <- !list_fmap_compose. apply list_fmap_ext.
  intros i e He%list_elem_of_lookup_2. cbn. destruct (p (row_of e)) eqn:P; [|done]. by apply Hf.
Qed.

Lemma entry_log_update bound log (g : Entry -> Entry) :
  entry_log bound log -> (forall e, entry_id (g e) = entry_id e) -> (forall e, entry_key (g e) = entry_key e) ->
  (forall e, e ∈ log -> entry_ok (g e)) -> entry_log bound (g <$> log).
Proof.
  intros [Hv Hk Hi Hb] Hid Hkey Hg. constructor.
  - apply Forall_fmap, Forall_forall. intros e He. by apply Hg.
  - rewrite <- list_fmap_compose. erewrite list_fmap_ext; [exact Hk|]. intros i e _. apply Hkey.
  - rewrite <- list_fmap_compose. unfold len. rewrite length_fmap. fold (len log). rewrite <- Hi.
    apply list_fmap_ext. intros i e _. apply Hid.
  - unfold len in *. by rewrite length_fmap.
Qed.

Lemma find_entry_update k log (g : Entry -> Entry) :
  (forall e, entry_key (g e) = entry_key e) -> find_entry k (g <$> log) = g <$> find_entry k log.
Proof.
  intros Hg. unfold find_entry. induction log as [|e log IH]; [done|]. cbn. rewrite Hg. by case_bool_decide.
Qed.
End AppendTable.
