(* ===== verification/RunSubmissions.v ===== *)
(** Durable custody of submitted run specifications:
    [automonique-store/src/run_submissions.rs].

    The table [run_submissions] is the list of its rows (see [Table]); nothing
    updates or deletes a row, so it is read as the list of its entries (see
    [AppendTable]).  [record] is one immediate transaction. *)

From S2P Require Import Prelude Text Table RowMap AppendTable.

Definition RUN_SUBMISSIONS_SCHEMA_VERSION : Z := 1.
Definition MAX_RUN_SUBMISSIONS : Z := 65536.
Definition MAX_IDENTIFIER_BYTES : Z := 256.
Definition MAX_DOCUMENT_BYTES : Z := 64 * 1024.
Definition SPEC_DIGEST_HEX_BYTES : Z := 64.

Inductive RunSubmissionError :=
| InsecurePath (reason : list Z)
| SchemaVersion (found supported : Z)
| InvalidField (field : string)
| Conflict (field : string) (recorded_submission_id : Z) (recorded_spec_digest : list Z)
| LogFull (capacity : Z)
| Corrupt (field : string)
| Io
| Sqlite.

Definition category (e : RunSubmissionError) : string :=
  match e with
  | InsecurePath _ => "insecure_path"
  | SchemaVersion _ _ => "schema_version"
  | InvalidField _ => "invalid_field"
  | Conflict _ _ _ => "conflict"
  | LogFull _ => "log_full"
  | Corrupt _ => "corrupt"
  | Io => "io"
  | Sqlite => "sqlite"
  end.

Inductive RunSubmissionState := Accepted.

Definition state_as_str (s : RunSubmissionState) : string := match s with Accepted => "accepted" end.

Definition state_from_spelling (value : list Z) : option RunSubmissionState :=
  if bool_decide (value = str "accepted") then Some Accepted else None.

Record RunSubmission := mkSubmission {
  sb_idempotency_key : list Z;
  sb_run_id : list Z;
  sb_spec_digest : list Z;
  sb_document : list Z;
  sb_accepted_at_ms : Z
}.

Inductive RunSubmissionDisposition := NewlyAccepted | AlreadyAccepted.

Definition disposition_as_str (d : RunSubmissionDisposition) : string :=
  match d with NewlyAccepted => "accepted" | AlreadyAccepted => "already_accepted" end.

Definition is_replay (d : RunSubmissionDisposition) : bool :=
  match d with AlreadyAccepted => true | NewlyAccepted => false end.

Record RunSubmissionReceipt := mkReceipt { rc_submission_id : Z; rc_disposition : RunSubmissionDisposition }.

Record RunSubmissionEntry := mkEntry {
  en_submission_id : Z;
  en_idempotency_key : list Z;
  en_run_id : list Z;
  en_spec_digest : list Z;
  en_document : list Z;
  en_accepted_at_ms : Z;
  en_state : RunSubmissionState
}.

(** A row as it is stored. *)
Record RawEntry := mkRaw {
  raw_submission_id : Z;
  raw_idempotency_key : list Z;
  raw_run_id : list Z;
  raw_spec_digest : list Z;
  raw_document : list Z;
  raw_accepted_at_ms : Z;
  raw_state : list Z
}.

Abbreviation Submitted A := (result RunSubmissionError A).
Abbreviation Rows := (list RawEntry).

(** * Validation *)

Definition validate_identifier (value : list Z) (field : string) : Submitted unit :=
  if bool_decide (value = []) || (MAX_IDENTIFIER_BYTES <? str_len value) || existsb is_control value
  then Err (InvalidField field) else Ok tt.

Definition lower_hex_byte (b : Z) : bool := is_ascii_digit b || in_range 97 102 b.

Definition validate_digest (value : list Z) : Submitted unit :=
  if negb (str_len value =? SPEC_DIGEST_HEX_BYTES) || negb (forallb lower_hex_byte (utf8 value))
  then Err (InvalidField "spec_digest") else Ok tt.

Definition validate_document (document : list Z) : Submitted unit :=
  if bool_decide (document = []) || (MAX_DOCUMENT_BYTES <? len document)
  then Err (InvalidField "document") else Ok tt.

Definition validate_submission (s : RunSubmission) : Submitted unit :=
  _ ← validate_identifier (sb_idempotency_key s) "idempotency_key";
  _ ← validate_identifier (sb_run_id s) "run_id";
  _ ← validate_digest (sb_spec_digest s);
  _ ← validate_document (sb_document s);
  if sb_accepted_at_ms s <? 0 then Err (InvalidField "accepted_at_ms") else Ok tt.

Definition validated_entry (raw : RawEntry) : Submitted RunSubmissionEntry :=
  if raw_submission_id raw <=? 0 then Err (Corrupt "submission_id")
  else
    _ ← map_err (fun _ => Corrupt "idempotency_key") (validate_identifier (raw_idempotency_key raw) "idempotency_key");
    _ ← map_err (fun _ => Corrupt "run_id") (validate_identifier (raw_run_id raw) "run_id");
    _ ← map_err (fun _ => Corrupt "spec_digest") (validate_digest (raw_spec_digest raw));
    _ ← map_err (fun _ => Corrupt "document") (validate_document (raw_document raw));
    if raw_accepted_at_ms raw <? 0 then Err (Corrupt "accepted_at_ms")
    else
      state ← ok_or (state_from_spelling (raw_state raw)) (Corrupt "state");
      Ok (mkEntry (raw_submission_id raw) (raw_idempotency_key raw) (raw_run_id raw) (raw_spec_digest raw)
            (raw_document raw) (raw_accepted_at_ms raw) state).

(** * Reading *)

Definition read_by_key (idempotency_key : list Z) (t : Rows) : Submitted (option RunSubmissionEntry) :=
  match lookup_key raw_idempotency_key idempotency_key t with
  | None => Ok None
  | Some raw => e ← validated_entry raw; Ok (Some e)
  end.

Definition read_by_run (run_id : list Z) (t : Rows) : Submitted (list RunSubmissionEntry) :=
  mapM validated_entry (List.filter (fun r => bool_decide (raw_run_id r = run_id)) t).

(** The row count fits its types. *)
Definition count_submissions (t : Rows) : Submitted Z := Ok (len t).

Definition submission (idempotency_key : list Z) (t : Rows) : Submitted (option RunSubmissionEntry) :=
  _ ← validate_identifier idempotency_key "idempotency_key"; read_by_key idempotency_key t.

Definition run_submissions (run_id : list Z) (t : Rows) : Submitted (list RunSubmissionEntry) :=
  _ ← validate_identifier run_id "run_id"; read_by_run run_id t.

Definition submission_count (t : Rows) : Submitted Z := count_submissions t.

(** * Recording *)

Definition differing_field (recorded : RunSubmissionEntry) (s : RunSubmission) : option string :=
  if negb (bool_decide (en_run_id recorded = sb_run_id s)) then Some "run_id"%string
  else if negb (bool_decide (en_spec_digest recorded = sb_spec_digest s)) then Some "spec_digest"%string
  else if negb (bool_decide (en_document recorded = sb_document s)) then Some "document"%string
  else None.

Section Writer.
Context `{RandomRowid}.

(** [live] is the row count, which the caller reads first; adding one to it
    cannot overflow. *)
Definition record_row (s : RunSubmission) (capacity live : Z) (t : Rows)
  : Submitted (RunSubmissionReceipt * Rows) :=
  found ← read_by_key (sb_idempotency_key s) t;
  match found with
  | Some recorded =>
      match differing_field recorded s with
      | Some field => Err (Conflict field (en_submission_id recorded) (en_spec_digest recorded))
      | None => Ok (mkReceipt (en_submission_id recorded) AlreadyAccepted, t)
      end
  | None =>
      if capacity <=? live then Err (LogFull capacity)
      else
        submission_id ← ok_or (next_rowid raw_submission_id t) Sqlite;
        Ok (mkReceipt submission_id NewlyAccepted,
            insert_row raw_submission_id
              (mkRaw submission_id (sb_idempotency_key s) (sb_run_id s) (sb_spec_digest s) (sb_document s)
                 (sb_accepted_at_ms s) (str (state_as_str Accepted))) t)
  end.

Definition record_body (capacity : Z) (s : RunSubmission) (t : Rows) : Submitted (RunSubmissionReceipt * Rows) :=
  _ ← validate_submission s;
  live ← count_submissions t;
  record_row s capacity live t.

Definition record (capacity : Z) (s : RunSubmission) (t : Rows) : Submitted RunSubmissionReceipt * Rows :=
  transact (record_body capacity s t) t.
End Writer.

(** * Opening *)

(** The database file: its [user_version], how many objects its schema has and
    the table, if it is there. *)
Record Database := mkDatabase {
  user_version : Z;
  schema_objects : Z;
  submissions_table : option Rows
}.

Definition initialize_or_validate_schema (db : Database) : Submitted Database :=
  if user_version db =? RUN_SUBMISSIONS_SCHEMA_VERSION then Ok db
  else if negb (user_version db =? 0)
  then Err (SchemaVersion (user_version db) RUN_SUBMISSIONS_SCHEMA_VERSION)
  else if negb (schema_objects db =? 0)
  then Err (SchemaVersion 0 RUN_SUBMISSIONS_SCHEMA_VERSION)
  else Ok (mkDatabase RUN_SUBMISSIONS_SCHEMA_VERSION 2 (Some [])).

(** [secured] and [secured_again] are the two checks of the path, [opened] is
    creating the file when it is absent and opening it. *)
Definition open_with_capacity (capacity : Z) (secured secured_again : Submitted unit)
    (opened : Submitted Database) : Submitted (Z * Database) :=
  if (capacity =? 0) || (MAX_RUN_SUBMISSIONS <? capacity) then Err (InvalidField "capacity")
  else
    _ ← secured;
    _ ← secured_again;
    db ← opened;
    db ← initialize_or_validate_schema db;
    Ok (capacity, db).

Definition open (secured secured_again : Submitted unit) (opened : Submitted Database)
  : Submitted (Z * Database) :=
  open_with_capacity MAX_RUN_SUBMISSIONS secured secured_again opened.

(** * The table as a list of entries *)

Definition identifier_ok (value : list Z) : bool :=
  negb (bool_decide (value = [])) && (str_len value <=? MAX_IDENTIFIER_BYTES)
  && negb (existsb is_control value).

Definition digest_ok (value : list Z) : bool :=
  (str_len value =? SPEC_DIGEST_HEX_BYTES) && forallb lower_hex_byte (utf8 value).

Definition document_ok (document : list Z) : bool :=
  negb (bool_decide (document = [])) && (len document <=? MAX_DOCUMENT_BYTES).

Definition row_of (e : RunSubmissionEntry) : RawEntry :=
  mkRaw (en_submission_id e) (en_idempotency_key e) (en_run_id e) (en_spec_digest e) (en_document e)
    (en_accepted_at_ms e) (str (state_as_str (en_state e))).

Record entry_ok (e : RunSubmissionEntry) : Prop := mkEntryOk {
  eo_id : 0 < en_submission_id e;
  eo_key : identifier_ok (en_idempotency_key e) = true;
  eo_run : identifier_ok (en_run_id e) = true;
  eo_digest : digest_ok (en_spec_digest e) = true;
  eo_document : document_ok (en_document e) = true;
  eo_time : 0 <= en_accepted_at_ms e
}.

Abbreviation Custody := (list RunSubmissionEntry).

Definition custody_ok (log : Custody) : Prop :=
  entry_log raw_submission_id raw_idempotency_key row_of entry_ok MAX_RUN_SUBMISSIONS log.

Definition table_of (log : Custody) : Rows := rows_of row_of log.

Definition held (key : list Z) (log : Custody) : option RunSubmissionEntry :=
  find_entry raw_idempotency_key row_of key log.

Definition handle_capacity (capacity : Z) : Prop := 0 < capacity <= MAX_RUN_SUBMISSIONS.

Lemma valid_submission_name value field :
  validate_identifier value field = if identifier_ok value then Ok tt else Err (InvalidField field).
Proof.
  unfold validate_identifier, identifier_ok. rewrite (Z.ltb_antisym (str_len value)).
  by destruct (bool_decide _), (str_len value <=? _), (existsb _ _).
Qed.

Lemma valid_submission_digest value :
  validate_digest value = if digest_ok value then Ok tt else Err (InvalidField "spec_digest").
Proof. unfold validate_digest, digest_ok. by destruct (_ =? _), (forallb _ _). Qed.

Lemma valid_submission_document document :
  validate_document document = if document_ok document then Ok tt else Err (InvalidField "document").
Proof.
  unfold validate_document, document_ok. rewrite (Z.ltb_antisym (len document)).
  by destruct (bool_decide _), (len document <=? _).
Qed.

Lemma validated_submission e : entry_ok e -> validated_entry (row_of e) = Ok e.
Proof.
  intros [Hi Hk Hr Hd Hc Ht]. unfold validated_entry. destruct e as [i k r d c t []]; cbn in *.
  rewrite (proj2 (Z.leb_gt _ _)), !valid_submission_name, valid_submission_digest, valid_submission_document, Hk, Hr, Hd, Hc by done.
  cbn [map_err mbind result_bind]. by rewrite (proj2 (Z.ltb_ge _ _)).
Qed.

Lemma read_key_held log key : custody_ok log -> read_by_key key (table_of log) = Ok (held key log).
Proof. intros H. apply (read_key _ _ _ _ validated_submission). apply H. Qed.

Lemma run_submissions_eq log run_id :
  custody_ok log ->
  run_submissions run_id (table_of log) =
  if identifier_ok run_id then Ok (List.filter (fun e => bool_decide (en_run_id e = run_id)) log)
  else Err (InvalidField "run_id").
Proof.
  intros H. unfold run_submissions. rewrite valid_submission_name. destruct (identifier_ok run_id); [|done].
  cbn [mbind result_bind]. unfold read_by_run, table_of.
  exact (read_all_selected _ _ entry_ok validated_submission (fun r => bool_decide (raw_run_id r = run_id)) log (el_valid _ _ _ _ _ _ H)).
Qed.

(** * The promise of the table, on the list alone *)

Definition accepted (id : Z) (s : RunSubmission) : RunSubmissionEntry :=
  mkEntry id (sb_idempotency_key s) (sb_run_id s) (sb_spec_digest s) (sb_document s) (sb_accepted_at_ms s) Accepted.

Definition spec_record (capacity : Z) (s : RunSubmission) (log : Custody)
  : Submitted RunSubmissionReceipt * Custody :=
  match validate_submission s, held (sb_idempotency_key s) log with
  | Err e, _ => (Err e, log)
  | Ok _, Some e =>
      (match differing_field e s with
       | Some field => Err (Conflict field (en_submission_id e) (en_spec_digest e))
       | None => Ok (mkReceipt (en_submission_id e) AlreadyAccepted)
       end, log)
  | Ok _, None =>
      if capacity <=? len log then (Err (LogFull capacity), log)
      else (Ok (mkReceipt (len log + 1) NewlyAccepted), log ++ [accepted (len log + 1) s])
  end.

Lemma accepted_ok s id : validate_submission s = Ok tt -> 0 < id -> entry_ok (accepted id s).
Proof.
  unfold validate_submission. rewrite !valid_submission_name, valid_submission_digest, valid_submission_document. intros R Hid.
  destruct (identifier_ok (sb_idempotency_key s)) eqn:E1; [|done]. cbn [mbind result_bind] in R.
  destruct (identifier_ok (sb_run_id s)) eqn:E2; [|done]. cbn [mbind result_bind] in R.
  destruct (digest_ok (sb_spec_digest s)) eqn:E3; [|done]. cbn [mbind result_bind] in R.
  destruct (document_ok (sb_document s)) eqn:E4; [|done]. cbn [mbind result_bind] in R.
  destruct (sb_accepted_at_ms s <? 0) eqn:E5; [done|]. bool_prop. by constructor.
Qed.

(** Every valid table, read through a handle of any capacity, does to its
    entries what [spec_record] says, and stays valid. *)
Lemma custody_refines `{RandomRowid} capacity s log answer t' :
  handle_capacity capacity -> custody_ok log -> record capacity s (table_of log) = (answer, t') ->
  exists log', t' = table_of log' /\ spec_record capacity s log = (answer, log') /\ custody_ok log'.
Proof.
  intros Hcap Hok. pose proof Hok as [Hv Hk Hi Hb]. unfold record, record_body, spec_record.
  destruct (validate_submission s) as [[]|] eqn:Ev; cbn [mbind result_bind].
  2: { intros [= <- <-]. by exists log. }
  unfold count_submissions. cbn [mbind result_bind]. unfold record_row. rewrite read_key_held by done.
  cbn [mbind result_bind]. destruct (held (sb_idempotency_key s) log) as [e|] eqn:E.
  { destruct (differing_field e s); intros [= <- <-]; by exists log. }
  unfold table_of. rewrite (len_rows row_of).
  destruct (capacity <=? len log) eqn:Ec; [intros [= <- <-]; by exists log|]. bool_prop.
  unfold handle_capacity, MAX_RUN_SUBMISSIONS in *.
  rewrite (next_row _ _ log Hi) by (widths; lia). cbn [ok_or mbind result_bind transact]. intros [= <- <-].
  exists (log ++ [accepted (len log + 1) s]). split_and!; [|done|].
  - exact (insert_next raw_submission_id row_of log (accepted (len log + 1) s) Hi eq_refl).
  - apply entry_log_snoc; [done| |exact E|done|unfold MAX_RUN_SUBMISSIONS; lia].
    apply accepted_ok; [done|]. pose proof (len_nonneg log). lia.
Qed.

(** What recording never changes: the entries that were there. *)
Lemma spec_record_keeps capacity s log answer log' :
  spec_record capacity s log = (answer, log') -> exists added, log' = log ++ added /\
    (added = [] \/ exists id, answer = Ok (mkReceipt id NewlyAccepted) /\ added = [accepted id s] /\ id = len log + 1).
Proof.
  unfold spec_record. destruct (validate_submission s); [|intros [= <- <-]; exists []; rewrite app_nil_r; eauto].
  destruct (held _ log). { intros [= <- <-]. exists []. rewrite app_nil_r. eauto. }
  case_match; intros [= <- <-]; [exists []; rewrite app_nil_r; eauto|]. eexists. split; [done|]. right. by eexists.
Qed.

(** * A submission is permanent *)

(** A handle of some capacity records a submission. *)
Abbreviation Recording := (Z * RunSubmission)%type.

Fixpoint record_all `{RandomRowid} (calls : list Recording) (t : Rows)
  : list (Submitted RunSubmissionReceipt) * Rows :=
  match calls with
  | [] => ([], t)
  | (capacity, s) :: calls =>
      let '(answer, t) := record capacity s t in
      let '(answers, t) := record_all calls t in
      (answer :: answers, t)
  end.

(** The submissions that were taken into custody, with the ids they got. *)
Fixpoint taken (calls : list Recording) (answers : list (Submitted RunSubmissionReceipt)) : Custody :=
  match calls, answers with
  | (_, s) :: calls, answer :: answers =>
      match answer with
      | Ok receipt =>
          match rc_disposition receipt with
          | NewlyAccepted => [accepted (rc_submission_id receipt) s]
          | AlreadyAccepted => []
          end
      | Err _ => []
      end ++ taken calls answers
  | _, _ => []
  end.

(** What an answer says about the table at the end. *)
Definition answer_holds (s : RunSubmission) (answer : Submitted RunSubmissionReceipt) (t : Rows) : Prop :=
  match answer with
  | Ok receipt => exists e, read_by_key (sb_idempotency_key s) t = Ok (Some e) /\
      en_submission_id e = rc_submission_id receipt /\ en_run_id e = sb_run_id s /\
      en_spec_digest e = sb_spec_digest s /\ en_document e = sb_document s
  | Err (Conflict _ id digest) => exists e, read_by_key (sb_idempotency_key s) t = Ok (Some e) /\
      en_submission_id e = id /\ en_spec_digest e = digest /\
      (en_run_id e, en_spec_digest e, en_document e) <> (sb_run_id s, sb_spec_digest s, sb_document s)
  | Err _ => True
  end.

Lemma same_document e s :
  differing_field e s = None ->
  en_run_id e = sb_run_id s /\ en_spec_digest e = sb_spec_digest s /\ en_document e = sb_document s.
Proof.
  unfold differing_field. do 3 (case_bool_decide; cbn [negb]; [|done]). done.
Qed.

Lemma other_document e s field :
  differing_field e s = Some field ->
  (en_run_id e, en_spec_digest e, en_document e) <> (sb_run_id s, sb_spec_digest s, sb_document s).
Proof.
  unfold differing_field. intros H [= H1 H2 H3]. rewrite H1, H2, H3 in H.
  by rewrite !bool_decide_eq_true_2 in H.
Qed.

Lemma validate_submission_not_conflict s e : validate_submission s = Err e -> exists f, e = InvalidField f.
Proof.
  unfold validate_submission. rewrite !valid_submission_name, valid_submission_digest, valid_submission_document.
  repeat (case_match; cbn [mbind result_bind]; try done; try (intros [= <-]; by eexists)).
Qed.

Lemma held_prefix key log log' e : held key log = Some e -> log `prefix_of` log' -> held key log' = Some e.
Proof. intros He [added ->]. unfold held. rewrite find_entry_app. unfold held in He. by rewrite He. Qed.

Lemma spec_record_answer capacity s log answer log' log'' :
  spec_record capacity s log = (answer, log') -> log' `prefix_of` log'' -> custody_ok log'' ->
  answer_holds s answer (table_of log'').
Proof.
  intros Hs Hp Hok. unfold spec_record in Hs.
  destruct (validate_submission s) as [[]|err] eqn:Ev.
  2: { injection Hs as <- <-. by destruct (validate_submission_not_conflict s err Ev) as [f ->]. }
  destruct (held (sb_idempotency_key s) log) as [e|] eqn:E.
  - destruct (differing_field e s) as [field|] eqn:D; injection Hs as <- <-; exists e; rewrite read_key_held by done;
      rewrite (held_prefix _ _ _ e E Hp).
    + split_and!; [done..|by eapply other_document].
    + apply same_document in D. by cbn.
  - destruct (capacity <=? len log); injection Hs as <- <-; [done|].
    exists (accepted (len log + 1) s). rewrite read_key_held by done.
    rewrite (held_prefix _ (log ++ [accepted (len log + 1) s]) log'' (accepted (len log + 1) s)); [by split_and!| |done].
    unfold held in *. rewrite find_entry_app, E. unfold find_entry. cbn. by rewrite bool_decide_eq_true_2.
Qed.

Lemma spec_record_taken capacity s log answer log' :
  spec_record capacity s log = (answer, log') -> log' = log ++ taken [(capacity, s)] [answer].
Proof.
  unfold spec_record. destruct (validate_submission s); [|intros [= <- <-]; by rewrite app_nil_r].
  destruct (held _ log). { destruct (differing_field _ _); intros [= <- <-]; by rewrite app_nil_r. }
  case_match; intros [= <- <-]; [by rewrite app_nil_r|done].
Qed.

Lemma taken_cons c calls answer answers : taken (c :: calls) (answer :: answers) = taken [c] [answer] ++ taken calls answers.
Proof. destruct c. cbn. by rewrite app_nil_r. Qed.

(** C32: a submission is permanent.  Whatever handles record whatever
    submissions, the table ends as it began with the accepted ones after it, in
    order and under the next ids, each the exact document that was submitted;
    every receipt, first or replayed, still names the entry its key reads back,
    which holds the run, the digest and the bytes it was given for, and every
    conflict one that differs.  So a key stands for one document for ever. *)
Theorem submissions_are_permanent `{RandomRowidLaws} calls log answers t' :
  Forall (fun c : Recording => handle_capacity c.1) calls -> custody_ok log ->
  record_all calls (table_of log) = (answers, t') ->
  t' = table_of (log ++ taken calls answers) /\ custody_ok (log ++ taken calls answers) /\
  Forall2 (fun (c : Recording) answer => answer_holds c.2 answer t') calls answers.
Proof.
  intros Hc. revert log answers t'. induction Hc as [|[capacity s] calls Hcap _ IH]; intros log answers t' Hok; cbn [record_all].
  { intros [= <- <-]. cbn. rewrite app_nil_r. by split_and!. }
  destruct (record capacity s (table_of log)) as [answer t1] eqn:E1. destruct (record_all calls t1) as [rest t2] eqn:E2.
  intros [= <- <-]. destruct (custody_refines capacity s log answer t1 Hcap Hok E1) as (log1 & -> & Hs & Hok1).
  pose proof (spec_record_taken capacity s log answer log1 Hs) as Ht.
  destruct (IH log1 rest t2 Hok1 E2) as (-> & Hok2 & Hf).
  rewrite taken_cons, (app_assoc log), <- Ht. split_and!; [done|done|]. constructor; [|done]. cbn [snd].
  eapply spec_record_answer; [exact Hs| |done]. by exists (taken calls rest).
Qed.

(** * Witness *)

Definition demo_submission (run : string) (byte : Z) : RunSubmission :=
  mkSubmission (str "key-1") (str run) (replicate 64 97) [byte] 7.

Definition demo_entry : RunSubmissionEntry := accepted 1 (demo_submission "run-1" 1).

Lemma demo_custody_ok : custody_ok [demo_entry].
Proof.
  constructor; [|apply NoDup_singleton|done|done]. constructor; [|constructor]. by constructor; vm_compute.
Qed.

(** One key: replayed with the bytes it was accepted with, refused with others. *)
Definition demo_calls : list Recording := [(1, demo_submission "run-1" 1); (1, demo_submission "run-1" 2)].

Lemma submissions_are_permanent_witness :
  exists answers, @record_all no_random_rowid demo_calls (table_of [demo_entry]) = (answers, table_of [demo_entry]) /\
    answers = [Ok (mkReceipt 1 AlreadyAccepted); Err (Conflict "document" 1 (replicate 64 97))] /\
    Forall2 (fun (c : Recording) answer => answer_holds c.2 answer (table_of [demo_entry])) demo_calls answers.
Proof.
  eexists. split; [vm_compute; reflexivity|]. split; [reflexivity|].
  apply (@submissions_are_permanent no_random_rowid no_random_rowid_laws demo_calls [demo_entry] _ (table_of [demo_entry]));
    [repeat constructor; unfold handle_capacity, MAX_RUN_SUBMISSIONS; cbn; lia|exact demo_custody_ok|vm_compute; reflexivity].
Defined.
