(* ===== verification/RunIndex.v ===== *)
(** The durable index of runs: [automonique-store/src/run_index.rs].

    One row per accepted submission, with the last state a writer reported for
    its run.  The table [run_index] is the list of its rows (see [Table]); rows
    are inserted and updated and never deleted, so it is read as the list of its
    records (see [AppendTable]).  Every mutation is one immediate transaction, a
    page is read in one. *)

From S2P Require Import Prelude Text Table RowMap AppendTable.

Definition RUN_INDEX_SCHEMA_VERSION : Z := 1.
Definition MAX_RUN_INDEX_ENTRIES : Z := 65536.
Definition MAX_IDENTIFIER_BYTES : Z := 256.
Definition MAX_INDEX_PAGE : Z := 512.

Inductive RunSpoolState := Ready | Running | Completed | Failed | Cancelled | TimedOut.

#[export] Instance RunSpoolState_eq_dec : EqDecision RunSpoolState.
Proof. solve_decision. Defined.

Definition ALL : list RunSpoolState := [Ready; Running; Completed; Failed; Cancelled; TimedOut].

Definition state_as_str (s : RunSpoolState) : string :=
  match s with
  | Ready => "ready"
  | Running => "running"
  | Completed => "completed"
  | Failed => "failed"
  | Cancelled => "cancelled"
  | TimedOut => "timed_out"
  end.

Definition from_spelling (value : list Z) : option RunSpoolState :=
  List.find (fun s => bool_decide (str (state_as_str s) = value)) ALL.

Definition is_terminal (s : RunSpoolState) : bool :=
  match s with Completed | Failed | Cancelled | TimedOut => true | _ => false end.

Definition may_advance_to (s next : RunSpoolState) : bool :=
  match s with
  | Ready => bool_decide (next = Running)
  | Running => is_terminal next || bool_decide (next = Running)
  | _ => false
  end.

Inductive RunIndexError :=
| InsecurePath (reason : list Z)
| SchemaVersion (found supported : Z)
| InvalidField (field : string)
| AlreadyRegistered (index_id : Z) (run_id : list Z)
| NotFound (entity : string)
| IllegalTransition (from to : RunSpoolState)
| RevisionMismatch (expected durable : Z)
| SequenceRegression (durable supplied : Z)
| CursorOutOfRange (supplied retained_last : Z)
| IndexFull (capacity : Z)
| Corrupt (field : string)
| Io
| Sqlite.

Definition category (e : RunIndexError) : string :=
  match e with
  | InsecurePath _ => "insecure_path"
  | SchemaVersion _ _ => "schema_version"
  | InvalidField _ => "invalid_field"
  | AlreadyRegistered _ _ => "already_registered"
  | NotFound _ => "not_found"
  | IllegalTransition _ _ => "illegal_transition"
  | RevisionMismatch _ _ => "revision_mismatch"
  | SequenceRegression _ _ => "sequence_regression"
  | CursorOutOfRange _ _ => "cursor_out_of_range"
  | IndexFull _ => "index_full"
  | Corrupt _ => "corrupt"
  | Io => "io"
  | Sqlite => "sqlite"
  end.

Record RunIndexEntry := mkEntry { ie_submission_id : Z; ie_run_id : list Z; ie_registered_at_ms : Z }.

Record StateAdvance := mkAdvance {
  sa_submission_id : Z;
  sa_expected_revision : Z;
  sa_new_state : RunSpoolState;
  sa_last_sequence : Z;
  sa_now_ms : Z
}.

Record RunIndexReceipt := mkReceipt {
  rc_index_id : Z;
  rc_submission_id : Z;
  rc_spool_state : RunSpoolState;
  rc_last_sequence : Z;
  rc_revision : Z;
  rc_updated_at_ms : Z
}.

Record RunIndexRecord := mkRecord {
  ir_index_id : Z;
  ir_submission_id : Z;
  ir_run_id : list Z;
  ir_spool_state : RunSpoolState;
  ir_last_sequence : Z;
  ir_updated_at_ms : Z;
  ir_revision : Z
}.

#[export] Instance RunIndexRecord_eq_dec : EqDecision RunIndexRecord.
Proof. solve_decision. Defined.

Record RunIndexPage := mkPage { pg_entries : list RunIndexRecord; pg_next_cursor : option Z }.

Record RetainedIndexRange := mkRange { rr_first : Z; rr_last : Z }.

(** A row as it is stored. *)
Record RawRecord := mkRaw {
  raw_index_id : Z;
  raw_submission_id : Z;
  raw_run_id : list Z;
  raw_spool_state : list Z;
  raw_last_sequence : Z;
  raw_updated_at_ms : Z;
  raw_revision : Z
}.

Abbreviation Indexed A := (result RunIndexError A).
Abbreviation Rows := (list RawRecord).

(** * Validation *)

Definition validate_submission_id (value : Z) : Indexed unit :=
  if value <=? 0 then Err (InvalidField "submission_id") else Ok tt.

Definition validate_identifier (value : list Z) (field : string) : Indexed unit :=
  if bool_decide (value = []) || (MAX_IDENTIFIER_BYTES <? str_len value) || existsb is_control value
  then Err (InvalidField field) else Ok tt.

Definition validate_time (value : Z) (field : string) : Indexed unit :=
  if value <? 0 then Err (InvalidField field) else Ok tt.

Definition corrupt (field : string) : RunIndexError := Corrupt field.

Definition checked_identifier (value : list Z) (field : string) : Indexed (list Z) :=
  _ ← map_err (fun _ => corrupt field) (validate_identifier value field); Ok value.

Definition checked_time (value : Z) (field : string) : Indexed Z :=
  _ ← map_err (fun _ => corrupt field) (validate_time value field); Ok value.

Definition checked_row_id (value : Z) (field : string) : Indexed Z :=
  if value <=? 0 then Err (corrupt field) else Ok value.

Definition to_db_u64 (value : Z) (field : string) : Indexed Z :=
  ok_or (check_i64 value) (InvalidField field).

Definition from_db_u64 (value : Z) (field : string) : Indexed Z :=
  ok_or (check_u64 value) (InvalidField field).

Definition is_ready (s : RunSpoolState) : bool := bool_decide (s = Ready).

Definition validated_record (raw : RawRecord) : Indexed RunIndexRecord :=
  spool_state ← ok_or (from_spelling (raw_spool_state raw)) (Corrupt "spool_state");
  last_sequence ← map_err (fun _ => corrupt "last_sequence") (from_db_u64 (raw_last_sequence raw) "last_sequence");
  if negb (eqb (is_ready spool_state) (last_sequence =? 0)) then Err (corrupt "last_sequence")
  else
    revision ← map_err (fun _ => corrupt "revision") (from_db_u64 (raw_revision raw) "revision");
    if revision =? 0 then Err (corrupt "revision")
    else if is_ready spool_state && negb (revision =? 1) then Err (corrupt "revision")
    else
      index_id ← checked_row_id (raw_index_id raw) "index_id";
      submission_id ← checked_row_id (raw_submission_id raw) "submission_id";
      run_id ← checked_identifier (raw_run_id raw) "run_id";
      updated_at_ms ← checked_time (raw_updated_at_ms raw) "updated_at_ms";
      Ok (mkRecord index_id submission_id run_id spool_state last_sequence updated_at_ms revision).

(** * Reading *)

Definition read_by_submission (submission_id : Z) (t : Rows) : Indexed (option RunIndexRecord) :=
  match lookup_key raw_submission_id submission_id t with
  | None => Ok None
  | Some raw => e ← validated_record raw; Ok (Some e)
  end.

(** The row count fits its types. *)
Definition count_entries (t : Rows) : Indexed Z := Ok (len t).

Definition entry_count (t : Rows) : Indexed Z := count_entries t.

Definition entry (submission_id : Z) (t : Rows) : Indexed (option RunIndexRecord) :=
  _ ← validate_submission_id submission_id; read_by_submission submission_id t.

Definition by_run_id (run_id : list Z) (t : Rows) : Indexed (list RunIndexRecord) :=
  _ ← validate_identifier run_id "run_id";
  mapM validated_record (List.filter (fun r => bool_decide (raw_run_id r = run_id)) t).

Definition retained_range (t : Rows) : Indexed (option RetainedIndexRange) :=
  match min_rowid raw_index_id t, max_rowid raw_index_id t with
  | Some first, Some last =>
      first ← checked_row_id first "index_id";
      last ← checked_row_id last "index_id";
      if last <? first then Err (Corrupt "index_id")
      else
        first ← map_err (fun _ => Corrupt "index_id") (from_db_u64 first "index_id");
        last ← map_err (fun _ => Corrupt "index_id") (from_db_u64 last "index_id");
        Ok (Some (mkRange first last))
  | None, None => Ok None
  | _, _ => Err (Corrupt "index_id")
  end.

(** [spool_state IN (states)]. *)
Definition stored_in (states : list RunSpoolState) (r : RawRecord) : bool :=
  existsb (fun s => bool_decide (raw_spool_state r = str (state_as_str s))) states.

(** [WHERE index_id > ?1], with the filter on states when there is one. *)
Definition selects (after : Z) (states : option (list RunSpoolState)) (r : RawRecord) : bool :=
  (after <? raw_index_id r)
  && match states with
     | None => true
     | Some states => stored_in states r || negb (stored_in ALL r)
     end.

(** [limit] is at most 512 here, so it and [limit + 1] fit an [i64]. *)
Definition read_page (cursor limit : Z) (states : option (list RunSpoolState)) (t : Rows) : Indexed RunIndexPage :=
  if (limit =? 0) || (MAX_INDEX_PAGE <? limit) then Err (InvalidField "limit")
  else
    after ← to_db_u64 cursor "cursor";
    let lookahead := limit + 1 in
    let highest := default 0 (max_rowid raw_index_id t) in
    retained_last ← map_err (fun _ => Corrupt "index_id") (from_db_u64 highest "index_id");
    if retained_last <? cursor then Err (CursorOutOfRange cursor retained_last)
    else
      entries ← mapM validated_record (take (Z.to_nat lookahead) (List.filter (selects after states) t));
      if limit <? len entries then
        let entries := take (Z.to_nat limit) entries in
        e ← ok_or (last entries) (Corrupt "index_id");
        next ← map_err (fun _ => Corrupt "index_id") (from_db_u64 (ir_index_id e) "index_id");
        Ok (mkPage entries (Some next))
      else Ok (mkPage entries None).

Definition page (cursor limit : Z) (t : Rows) : Indexed RunIndexPage := read_page cursor limit None t.

(** [states[..position].contains(state)] for some position. *)
Fixpoint repeats (seen states : list RunSpoolState) : bool :=
  match states with
  | [] => false
  | s :: states => bool_decide (s ∈ seen) || repeats (seen ++ [s]) states
  end.

Definition page_in_states (cursor limit : Z) (states : list RunSpoolState) (t : Rows) : Indexed RunIndexPage :=
  if bool_decide (states = []) then Err (InvalidField "states")
  else if repeats [] states then Err (InvalidField "states")
  else read_page cursor limit (Some states) t.

(** * Writing *)

Section Writer.
Context `{RandomRowid}.

Definition register_body (capacity : Z) (e : RunIndexEntry) (t : Rows) : Indexed (RunIndexReceipt * Rows) :=
  _ ← validate_submission_id (ie_submission_id e);
  _ ← validate_identifier (ie_run_id e) "run_id";
  _ ← validate_time (ie_registered_at_ms e) "registered_at_ms";
  found ← read_by_submission (ie_submission_id e) t;
  match found with
  | Some recorded => Err (AlreadyRegistered (ir_index_id recorded) (ir_run_id recorded))
  | None =>
      live ← count_entries t;
      if capacity <=? live then Err (IndexFull capacity)
      else
        index_id ← ok_or (next_rowid raw_index_id t) Sqlite;
        Ok (mkReceipt index_id (ie_submission_id e) Ready 0 1 (ie_registered_at_ms e),
            insert_row raw_index_id
              (mkRaw index_id (ie_submission_id e) (ie_run_id e) (str (state_as_str Ready)) 0
                 (ie_registered_at_ms e) 1) t)
  end.

Definition register (capacity : Z) (e : RunIndexEntry) (t : Rows) : Indexed RunIndexReceipt * Rows :=
  transact (register_body capacity e t) t.
End Writer.

(** [WHERE index_id = ?1 AND revision = ?2]. *)
Definition fenced (index_id revision : Z) (r : RawRecord) : bool :=
  (raw_index_id r =? index_id) && (raw_revision r =? revision).

Definition moved (state : RunSpoolState) (sequence now_ms revision : Z) (r : RawRecord) : RawRecord :=
  mkRaw (raw_index_id r) (raw_submission_id r) (raw_run_id r) (str (state_as_str state)) sequence now_ms revision.

Definition advance_body (a : StateAdvance) (t : Rows) : Indexed (RunIndexReceipt * Rows) :=
  _ ← validate_submission_id (sa_submission_id a);
  _ ← validate_time (sa_now_ms a) "now_ms";
  if sa_expected_revision a =? 0 then Err (InvalidField "expected_revision")
  else
    next_sequence ← to_db_u64 (sa_last_sequence a) "last_sequence";
    found ← read_by_submission (sa_submission_id a) t;
    record ← ok_or found (NotFound "run index entry");
    if negb (ir_revision record =? sa_expected_revision a)
    then Err (RevisionMismatch (sa_expected_revision a) (ir_revision record))
    else if negb (may_advance_to (ir_spool_state record) (sa_new_state a))
    then Err (IllegalTransition (ir_spool_state record) (sa_new_state a))
    else
      let advanced :=
        if bool_decide (ir_spool_state record = sa_new_state a)
        then ir_last_sequence record <=? sa_last_sequence a
        else ir_last_sequence record <? sa_last_sequence a in
      if negb advanced then Err (SequenceRegression (ir_last_sequence record) (sa_last_sequence a))
      else
        next_revision ← ok_or (check_u64 (ir_revision record + 1)) (InvalidField "revision");
        revision ← to_db_u64 (ir_revision record) "revision";
        db_next_revision ← to_db_u64 next_revision "revision";
        let p := fenced (ir_index_id record) revision in
        if negb (rows_matching p t =? 1) then Err (Corrupt "state_advance")
        else
          Ok (mkReceipt (ir_index_id record) (ir_submission_id record) (sa_new_state a) (sa_last_sequence a)
                next_revision (sa_now_ms a),
              update_rows p (moved (sa_new_state a) next_sequence (sa_now_ms a) db_next_revision) t).

Definition advance_state (a : StateAdvance) (t : Rows) : Indexed RunIndexReceipt * Rows :=
  transact (advance_body a t) t.

(** * Opening *)

(** The database file: its [user_version], how many objects its schema has and
    the table, if it is there. *)
Record Database := mkDatabase {
  user_version : Z;
  schema_objects : Z;
  index_table : option Rows
}.

Definition initialize_or_validate_schema (db : Database) : Indexed Database :=
  if user_version db =? RUN_INDEX_SCHEMA_VERSION then Ok db
  else if negb (user_version db =? 0)
  then Err (SchemaVersion (user_version db) RUN_INDEX_SCHEMA_VERSION)
  else if negb (schema_objects db =? 0)
  then Err (SchemaVersion 0 RUN_INDEX_SCHEMA_VERSION)
  else Ok (mkDatabase RUN_INDEX_SCHEMA_VERSION 3 (Some [])).

(** [secured] and [secured_again] are the two checks of the path, [opened] is
    creating the file when it is absent and opening it. *)
Definition open_with_capacity (capacity : Z) (secured secured_again : Indexed unit)
    (opened : Indexed Database) : Indexed (Z * Database) :=
  if (capacity =? 0) || (MAX_RUN_INDEX_ENTRIES <? capacity) then Err (InvalidField "capacity")
  else
    _ ← secured;
    _ ← secured_again;
    db ← opened;
    db ← initialize_or_validate_schema db;
    Ok (capacity, db).

Definition open (secured secured_again : Indexed unit) (opened : Indexed Database)
  : Indexed (Z * Database) :=
  open_with_capacity MAX_RUN_INDEX_ENTRIES secured secured_again opened.

(** * The table as a list of records *)

Definition identifier_ok (value : list Z) : bool :=
  negb (bool_decide (value = [])) && (str_len value <=? MAX_IDENTIFIER_BYTES)
  && negb (existsb is_control value).

Definition row_of (r : RunIndexRecord) : RawRecord :=
  mkRaw (ir_index_id r) (ir_submission_id r) (ir_run_id r) (str (state_as_str (ir_spool_state r)))
    (ir_last_sequence r) (ir_updated_at_ms r) (ir_revision r).

Record record_ok (r : RunIndexRecord) : Prop := mkRecordOk {
  ro_id : 0 < ir_index_id r;
  ro_submission : 0 < ir_submission_id r;
  ro_run : identifier_ok (ir_run_id r) = true;
  ro_sequence : 0 <= ir_last_sequence r <= i64_max;
  ro_ready : ir_spool_state r = Ready <-> ir_last_sequence r = 0;
  ro_revision : 1 <= ir_revision r <= i64_max;
  ro_fresh : ir_spool_state r = Ready -> ir_revision r = 1;
  ro_time : 0 <= ir_updated_at_ms r
}.

Abbreviation Records := (list RunIndexRecord).

Definition index_ok (log : Records) : Prop :=
  entry_log raw_index_id raw_submission_id row_of record_ok MAX_RUN_INDEX_ENTRIES log.

Definition table_of (log : Records) : Rows := rows_of row_of log.

Definition indexed (submission_id : Z) (log : Records) : option RunIndexRecord :=
  find_entry raw_submission_id row_of submission_id log.

Definition handle_capacity (capacity : Z) : Prop := 0 < capacity <= MAX_RUN_INDEX_ENTRIES.

Lemma valid_index_name value field :
  validate_identifier value field = if identifier_ok value then Ok tt else Err (InvalidField field).
Proof.
  unfold validate_identifier, identifier_ok. rewrite (Z.ltb_antisym (str_len value)).
  by destruct (bool_decide _), (str_len value <=? _), (existsb _ _).
Qed.

Lemma state_spelled s : from_spelling (str (state_as_str s)) = Some s.
Proof. by destruct s. Qed.

Lemma check_u64_small z : 0 <= z <= i64_max -> check_u64 z = Some z.
Proof. intros. apply check_u64_Some. split; [done|]. unfold in_u64. widths. lia. Qed.

Lemma check_i64_small z : 0 <= z <= i64_max -> check_i64 z = Some z.
Proof. intros. apply check_i64_Some. split; [done|]. unfold in_i64. widths. lia. Qed.

Lemma validated_index_row r : record_ok r -> validated_record (row_of r) = Ok r.
Proof.
  intros [Hi Hs Hr Hq Hb Hv Hf Ht]. unfold validated_record, row_of, from_db_u64.
  cbn [raw_spool_state raw_last_sequence raw_revision raw_index_id raw_submission_id raw_run_id raw_updated_at_ms].
  rewrite state_spelled, !check_u64_small by lia. cbn [ok_or map_err mbind result_bind].
  assert (is_ready (ir_spool_state r) = (ir_last_sequence r =? 0)) as ->.
  { unfold is_ready. apply eq_true_iff_eq. by rewrite bool_decide_eq_true, Z.eqb_eq. }
  rewrite eqb_reflx. cbn [negb]. rewrite (proj2 (Z.eqb_neq (ir_revision r) 0)) by lia.
  assert ((ir_last_sequence r =? 0) && negb (ir_revision r =? 1) = false) as ->.
  { destruct (Z.eqb_spec (ir_last_sequence r) 0) as [E|E]; [|done]. by rewrite (Hf (proj2 Hb E)). }
  unfold checked_row_id, checked_identifier, checked_time, validate_time.
  rewrite !(proj2 (Z.leb_gt _ _)), valid_index_name, Hr, (proj2 (Z.ltb_ge _ _)) by done. by destruct r.
Qed.

Lemma read_indexed log id : index_ok log -> read_by_submission id (table_of log) = Ok (indexed id log).
Proof. intros H. apply (read_key _ _ _ _ validated_index_row). apply H. Qed.

Lemma by_run_id_eq log run_id :
  index_ok log ->
  by_run_id run_id (table_of log) =
  if identifier_ok run_id then Ok (List.filter (fun r => bool_decide (ir_run_id r = run_id)) log)
  else Err (InvalidField "run_id").
Proof.
  intros H. unfold by_run_id. rewrite valid_index_name. destruct (identifier_ok run_id); [|done].
  cbn [mbind result_bind]. unfold table_of.
  exact (read_all_selected _ _ record_ok validated_index_row (fun r => bool_decide (raw_run_id r = run_id)) log (el_valid _ _ _ _ _ _ H)).
Qed.

(** * The promise of the table, on the list alone *)

Definition registered (index_id : Z) (e : RunIndexEntry) : RunIndexRecord :=
  mkRecord index_id (ie_submission_id e) (ie_run_id e) Ready 0 (ie_registered_at_ms e) 1.

Definition advanced (a : StateAdvance) (r : RunIndexRecord) : RunIndexRecord :=
  mkRecord (ir_index_id r) (ir_submission_id r) (ir_run_id r) (sa_new_state a) (sa_last_sequence a)
    (sa_now_ms a) (ir_revision r + 1).

Definition receipt_of (r : RunIndexRecord) : RunIndexReceipt :=
  mkReceipt (ir_index_id r) (ir_submission_id r) (ir_spool_state r) (ir_last_sequence r) (ir_revision r)
    (ir_updated_at_ms r).

Definition spec_register (capacity : Z) (e : RunIndexEntry) (log : Records) : Indexed RunIndexReceipt * Records :=
  if ie_submission_id e <=? 0 then (Err (InvalidField "submission_id"), log)
  else if negb (identifier_ok (ie_run_id e)) then (Err (InvalidField "run_id"), log)
  else if ie_registered_at_ms e <? 0 then (Err (InvalidField "registered_at_ms"), log)
  else match indexed (ie_submission_id e) log with
       | Some r => (Err (AlreadyRegistered (ir_index_id r) (ir_run_id r)), log)
       | None =>
           if capacity <=? len log then (Err (IndexFull capacity), log)
           else (Ok (receipt_of (registered (len log + 1) e)), log ++ [registered (len log + 1) e])
       end.

(** Why a report is refused, for the record it is about. *)
Definition refusal (a : StateAdvance) (r : RunIndexRecord) : option RunIndexError :=
  if negb (ir_revision r =? sa_expected_revision a)
  then Some (RevisionMismatch (sa_expected_revision a) (ir_revision r))
  else if negb (may_advance_to (ir_spool_state r) (sa_new_state a))
  then Some (IllegalTransition (ir_spool_state r) (sa_new_state a))
  else if if bool_decide (ir_spool_state r = sa_new_state a) then sa_last_sequence a <? ir_last_sequence r
          else sa_last_sequence a <=? ir_last_sequence r
  then Some (SequenceRegression (ir_last_sequence r) (sa_last_sequence a))
  else if ir_revision r =? i64_max then Some (InvalidField "revision")
  else None.

Definition spec_advance (a : StateAdvance) (log : Records) : Indexed RunIndexReceipt * Records :=
  if sa_submission_id a <=? 0 then (Err (InvalidField "submission_id"), log)
  else if sa_now_ms a <? 0 then (Err (InvalidField "now_ms"), log)
  else if sa_expected_revision a =? 0 then (Err (InvalidField "expected_revision"), log)
  else if negb (in_range i64_min i64_max (sa_last_sequence a)) then (Err (InvalidField "last_sequence"), log)
  else match indexed (sa_submission_id a) log with
       | None => (Err (NotFound "run index entry"), log)
       | Some r =>
           match refusal a r with
           | Some e => (Err e, log)
           | None =>
               (Ok (receipt_of (advanced a r)),
                (fun x => if ir_submission_id x =? sa_submission_id a then advanced a x else x) <$> log)
           end
       end.

Lemma registered_ok e id :
  (ie_submission_id e <=? 0) = false -> identifier_ok (ie_run_id e) = true ->
  (ie_registered_at_ms e <? 0) = false -> 0 < id -> record_ok (registered id e).
Proof. intros. bool_prop. constructor; cbn; try done; widths; lia. Qed.

Lemma register_refines `{RandomRowid} capacity e log answer t' :
  handle_capacity capacity -> index_ok log -> register capacity e (table_of log) = (answer, t') ->
  exists log', t' = table_of log' /\ spec_register capacity e log = (answer, log') /\ index_ok log'.
Proof.
  intros Hcap Hok. pose proof Hok as [Hv Hk Hi Hb]. unfold register, register_body, spec_register.
  unfold validate_submission_id, validate_time.
  destruct (ie_submission_id e <=? 0) eqn:E1; cbn [mbind result_bind]; [intros [= <- <-]; by exists log|].
  rewrite valid_index_name. destruct (identifier_ok (ie_run_id e)) eqn:E2; cbn [mbind result_bind negb];
    [|intros [= <- <-]; by exists log].
  destruct (ie_registered_at_ms e <? 0) eqn:E3; cbn [mbind result_bind]; [intros [= <- <-]; by exists log|].
  rewrite read_indexed by done. cbn [mbind result_bind].
  destruct (indexed (ie_submission_id e) log) as [r|] eqn:E; [intros [= <- <-]; by exists log|].
  unfold count_entries. cbn [mbind result_bind]. unfold table_of. rewrite (len_rows row_of).
  destruct (capacity <=? len log) eqn:Ec; [intros [= <- <-]; by exists log|]. bool_prop.
  unfold handle_capacity, MAX_RUN_INDEX_ENTRIES in *.
  rewrite (next_row _ _ log Hi) by (widths; lia). cbn [ok_or mbind result_bind transact]. intros [= <- <-].
  exists (log ++ [registered (len log + 1) e]). split_and!; [|done|].
  - exact (insert_next raw_index_id row_of log (registered (len log + 1) e) Hi eq_refl).
  - apply entry_log_snoc; [done| |exact E|done|unfold MAX_RUN_INDEX_ENTRIES; lia].
    pose proof (len_nonneg log). apply registered_ok; [mlia|done|mlia|lia].
Qed.

Lemma may_advance_not_ready s s' : may_advance_to s s' = true -> s' <> Ready.
Proof. by destruct s, s'. Qed.

Lemma advanced_ok a r :
  record_ok r -> refusal a r = None -> sa_last_sequence a <= i64_max -> (sa_now_ms a <? 0) = false ->
  record_ok (advanced a r).
Proof.
  intros [Hi Hs Hr Hq Hb Hv Hf Ht] R Hm Hn. unfold refusal in R.
  destruct (ir_revision r =? _); [|done]. cbn [negb] in R.
  destruct (may_advance_to _ _) eqn:Em; [|done]. cbn [negb] in R.
  destruct (if bool_decide _ then _ else _) eqn:Es; [done|]. destruct (ir_revision r =? i64_max) eqn:El; [done|].
  pose proof (may_advance_not_ready _ _ Em) as Hnr.
  assert (0 < sa_last_sequence a).
  { case_bool_decide as E; [|bool_prop; lia]. assert (ir_last_sequence r <> 0); [|bool_prop; lia].
    intros E0. apply Hnr. rewrite <- E. by apply Hb. }
  bool_prop. constructor; cbn; try done; try lia. split; [done|lia].
Qed.

Lemma advance_row a r :
  sa_last_sequence a <= i64_max ->
  moved (sa_new_state a) (sa_last_sequence a) (sa_now_ms a) (ir_revision r + 1) (row_of r) = row_of (advanced a r).
Proof. done. Qed.

(** The record a report is about is the one row of its id, at its revision. *)
Lemma fenced_exact log id r :
  index_ok log -> indexed id log = Some r ->
  rows_matching (fenced (ir_index_id r) (ir_revision r)) (table_of log) = 1 /\
  forall x, x ∈ log -> fenced (ir_index_id r) (ir_revision r) (row_of x) = (ir_submission_id x =? id).
Proof.
  intros [Hv Hk Hi Hb] E. apply find_entry_Some in E as [Hin Hid]. cbn in Hid.
  assert (Hx : forall x, x ∈ log -> fenced (ir_index_id r) (ir_revision r) (row_of x) = (ir_submission_id x =? id)).
  { intros x Hx. unfold fenced. cbn. destruct (Z.eqb_spec (ir_index_id x) (ir_index_id r)) as [E|E].
    - rewrite (id_inj _ _ log x r Hi Hx Hin E), <- Hid, !Z.eqb_refl. done.
    - symmetry. apply Z.eqb_neq. intros E'. apply E.
      enough (x = r) as -> by done. apply (entry_key_inj raw_submission_id row_of log); [done..|]. unfold entry_key. cbn. congruence. }
  split; [|done]. apply (rows_matching_one raw_index_id (table_of log) (row_of r) (fun x => raw_revision x =? ir_revision r)).
  - by apply rows_ordered.
  - by apply list_elem_of_fmap_2.
  - apply Z.eqb_refl.
Qed.

Lemma check_i64_if z : check_i64 z = if in_range i64_min i64_max z then Some z else None.
Proof.
  destruct (in_range i64_min i64_max z) eqn:E.
  - apply check_i64_Some. split; [done|]. unfold in_range in E. bool_prop. unfold in_i64. done.
  - destruct (check_i64 z) as [y|] eqn:Ey; [|done]. apply check_i64_Some in Ey as [-> Hy].
    unfold in_range, in_i64 in *. mlia.
Qed.

Lemma advance_refines a log answer t' :
  index_ok log -> advance_state a (table_of log) = (answer, t') ->
  exists log', t' = table_of log' /\ spec_advance a log = (answer, log') /\ index_ok log'.
Proof.
  intros Hok. pose proof Hok as [Hv Hk Hi Hb]. unfold advance_state, advance_body, spec_advance.
  unfold validate_submission_id, validate_time.
  destruct (sa_submission_id a <=? 0) eqn:E1; cbn [mbind result_bind]; [intros [= <- <-]; by exists log|].
  destruct (sa_now_ms a <? 0) eqn:E2; cbn [mbind result_bind]; [intros [= <- <-]; by exists log|].
  destruct (sa_expected_revision a =? 0) eqn:E3; [intros [= <- <-]; by exists log|].
  unfold to_db_u64. rewrite !check_i64_if.
  destruct (in_range i64_min i64_max (sa_last_sequence a)) eqn:E4; cbn [ok_or mbind result_bind negb];
    [|intros [= <- <-]; by exists log].
  rewrite read_indexed by done. cbn [mbind result_bind].
  destruct (indexed (sa_submission_id a) log) as [r|] eqn:E; cbn [ok_or mbind result_bind];
    [|intros [= <- <-]; by exists log].
  assert (Hr : record_ok r).
  { apply find_entry_Some in E as [Hin _]. rewrite Forall_forall in Hv. by apply Hv. }
  pose proof (ro_revision r Hr) as Hrev. generalize (advanced_ok a r Hr). unfold refusal.
  destruct (ir_revision r =? sa_expected_revision a); cbn [negb]; [|intros _ [= <- <-]; by exists log].
  destruct (may_advance_to _ _); cbn [negb]; [|intros _ [= <- <-]; by exists log].
  assert ((if bool_decide (ir_spool_state r = sa_new_state a) then ir_last_sequence r <=? sa_last_sequence a
           else ir_last_sequence r <? sa_last_sequence a)
          = negb (if bool_decide (ir_spool_state r = sa_new_state a) then sa_last_sequence a <? ir_last_sequence r
           else sa_last_sequence a <=? ir_last_sequence r)) as ->.
  { case_bool_decide; [apply Z.leb_antisym|apply Z.ltb_antisym]. }
  rewrite negb_involutive. destruct (if bool_decide _ then _ else _); [intros _ [= <- <-]; by exists log|].
  rewrite (proj2 (check_u64_Some (ir_revision r + 1) (ir_revision r + 1))) by (unfold in_u64; widths; split; [done|lia]).
  cbn [ok_or mbind result_bind]. rewrite !check_i64_if.
  assert (in_range i64_min i64_max (ir_revision r) = true) as -> by (unfold in_range; widths; mlia).
  cbn [ok_or mbind result_bind].
  assert (in_range i64_min i64_max (ir_revision r + 1) = negb (ir_revision r =? i64_max)) as ->.
  { unfold in_range. apply eq_true_iff_eq. rewrite negb_true_iff. bool_prop. widths. lia. }
  destruct (ir_revision r =? i64_max) eqn:E5; cbn [negb ok_or mbind result_bind]; [intros _ [= <- <-]; by exists log|]. intros Hadv.
  destruct (fenced_exact log (sa_submission_id a) r Hok E) as [-> Hf]. change (negb (1 =? 1)) with false.
  cbn [transact]. intros [= <- <-].
  exists ((fun x => if ir_submission_id x =? sa_submission_id a then advanced a x else x) <$> log).
  apply find_entry_Some in E as [Hin Eid]. unfold entry_key in Eid; cbn in Eid.
  assert (Hone : forall x, x ∈ log -> (ir_submission_id x =? sa_submission_id a) = true -> x = r).
  { intros x Hx E. bool_prop. apply (entry_key_inj raw_submission_id row_of log); [done..|]. unfold entry_key. cbn. congruence. }
  split_and!; [|done|].
  - unfold table_of. rewrite (update_one row_of log _ (advanced a)).
    + f_equal. apply list_fmap_ext. intros i x Hx%list_elem_of_lookup_2. by rewrite Hf.
    + intros x Hx Hp. rewrite Hf in Hp by done. by rewrite (Hone x Hx Hp).
  - apply entry_log_update; [done|intros x; by case_match|intros x; by case_match|].
    intros x Hx. destruct (ir_submission_id x =? sa_submission_id a) eqn:E.
    + rewrite (Hone x Hx E). unfold in_range in E4. apply Hadv; [done|mlia|done].
    + rewrite Forall_forall in Hv. by apply Hv.
Qed.

(** * Rows only move forward *)

Inductive Call :=
| CallRegister (capacity : Z) (e : RunIndexEntry)
| CallAdvance (a : StateAdvance).

Definition run_call `{RandomRowid} (c : Call) (t : Rows) : Indexed RunIndexReceipt * Rows :=
  match c with
  | CallRegister capacity e => register capacity e t
  | CallAdvance a => advance_state a t
  end.

Fixpoint run_calls `{RandomRowid} (calls : list Call) (t : Rows) : list (Indexed RunIndexReceipt) * Rows :=
  match calls with
  | [] => ([], t)
  | c :: calls =>
      let '(answer, t) := run_call c t in
      let '(answers, t) := run_calls calls t in
      (answer :: answers, t)
  end.

(** The revisions of the receipts about one submission, in order. *)
Definition receipts_of (submission_id : Z) (answers : list (Indexed RunIndexReceipt)) : list RunIndexReceipt :=
  omap (fun answer => match answer with
                      | Ok receipt => if rc_submission_id receipt =? submission_id then Some receipt else None
                      | Err _ => None
                      end) answers.

(** What the spool of a run can be in after it was in [s]. *)
Definition reaches (s s' : RunSpoolState) : bool :=
  match s, s' with
  | Ready, _ => true
  | Running, Ready => false
  | Running, _ => true
  | _, _ => bool_decide (s = s')
  end.

(** What a receipt says of the call that got it. *)
Definition answer_fits (c : Call) (answer : Indexed RunIndexReceipt) : Prop :=
  match answer with
  | Err _ => True
  | Ok receipt =>
      match c with
      | CallRegister _ e =>
          receipt = mkReceipt (rc_index_id receipt) (ie_submission_id e) Ready 0 1 (ie_registered_at_ms e)
      | CallAdvance a =>
          receipt = mkReceipt (rc_index_id receipt) (sa_submission_id a) (sa_new_state a) (sa_last_sequence a)
                      (sa_expected_revision a + 1) (sa_now_ms a)
      end
  end.

Definition call_ok (c : Call) : Prop :=
  match c with CallRegister capacity _ => handle_capacity capacity | CallAdvance _ => True end.

Record moved_on (r r' : RunIndexRecord) (receipts : list RunIndexReceipt) : Prop := mkMovedOn {
  mo_index : ir_index_id r' = ir_index_id r;
  mo_submission : ir_submission_id r' = ir_submission_id r;
  mo_run : ir_run_id r' = ir_run_id r;
  mo_sequence : ir_last_sequence r <= ir_last_sequence r';
  mo_state : reaches (ir_spool_state r) (ir_spool_state r') = true;
  mo_revisions : rc_revision <$> receipts = seqZ (ir_revision r + 1) (len receipts);
  mo_last : from_option (fun receipt => receipt = receipt_of r') (r' = r) (last receipts)
}.

Lemma reaches_step s s' s'' : may_advance_to s s' = true -> reaches s' s'' = true -> reaches s s'' = true.
Proof. by destruct s, s', s''. Qed.

Lemma refusal_None a r :
  refusal a r = None -> may_advance_to (ir_spool_state r) (sa_new_state a) = true /\
    ir_revision r = sa_expected_revision a /\ ir_last_sequence r <= sa_last_sequence a.
Proof.
  unfold refusal. destruct (Z.eqb_spec (ir_revision r) (sa_expected_revision a)); [|done]. cbn [negb].
  destruct (may_advance_to _ _); [|done]. cbn [negb]. case_bool_decide; case_match eqn:E; try done; intros _; bool_prop; split_and!; try done; lia.
Qed.

(** One call: every record is as it was, or moved by the receipt it answered. *)
Lemma call_moves `{RandomRowidLaws} c log answer t' :
  call_ok c -> index_ok log -> run_call c (table_of log) = (answer, t') ->
  exists log', t' = table_of log' /\ index_ok log' /\ answer_fits c answer /\
    forall id r, indexed id log = Some r ->
      exists r', indexed id log' = Some r' /\
        (receipts_of id [answer] = [] /\ r' = r \/
         exists a, refusal a r = None /\ r' = advanced a r /\ receipts_of id [answer] = [receipt_of r']).
Proof.
  intros Hc Hok. destruct c as [cap e|a]; cbn [run_call call_ok] in *.
  - intros E. destruct (register_refines cap e log answer t' Hc Hok E) as (log' & -> & Hs & Hok').
    exists log'. split_and!; [done..| |].
    { unfold spec_register in Hs. do 3 (case_match; [injection Hs as <- <-; done|]).
      destruct (indexed (ie_submission_id e) log); [injection Hs as <- <-; done|].
      destruct (cap <=? len log); injection Hs as <- <-; done. }
    intros id r Hr. unfold spec_register in Hs.
    do 3 (case_match; [injection Hs as <- <-; exists r; split; [done|by left]|]).
    destruct (indexed (ie_submission_id e) log) as [r0|] eqn:E0; [injection Hs as <- <-; exists r; split; [done|by left]|].
    destruct (cap <=? len log); [injection Hs as <- <-; exists r; split; [done|by left]|].
    injection Hs as <- <-. exists r. unfold indexed in *. rewrite find_entry_app, Hr. split; [done|]. left. split; [|done].
    unfold receipts_of, receipt_of, registered. cbn [omap list_omap rc_submission_id ir_submission_id].
    destruct (Z.eqb_spec (ie_submission_id e) id) as [E1|]; [|done]. rewrite E1 in E0. congruence.
  - intros E. destruct (advance_refines a log answer t' Hok E) as (log' & -> & Hs & Hok').
    exists log'. split_and!; [done..| |].
    { unfold spec_advance in Hs. do 4 (case_match; [injection Hs as <- <-; done|]).
      destruct (indexed (sa_submission_id a) log) as [r0|] eqn:E0; [|injection Hs as <- <-; done].
      apply find_entry_Some in E0 as [_ Hid]. unfold entry_key in Hid; cbn in Hid.
      destruct (refusal a r0) eqn:R; injection Hs as <- <-; [done|]. apply refusal_None in R as (_ & Hrev & _).
      cbn. unfold receipt_of, advanced. cbn. by rewrite Hid, Hrev. }
    intros id r Hr. unfold spec_advance in Hs.
    do 4 (case_match; [injection Hs as <- <-; exists r; split; [done|by left]|]).
    destruct (indexed (sa_submission_id a) log) as [r0|] eqn:E0; [|injection Hs as <- <-; exists r; split; [done|by left]].
    destruct (refusal a r0) eqn:R; injection Hs as <- <-; [exists r; split; [done|by left]|].
    pose proof (find_entry_Some _ _ _ _ _ E0) as [Hin0 Hid0]. pose proof (find_entry_Some _ _ _ _ _ Hr) as [Hin Hid].
    unfold entry_key in Hid, Hid0; cbn in Hid, Hid0.
    eexists. unfold indexed in *. rewrite (find_entry_update raw_submission_id row_of) by (intros; by case_match).
    rewrite Hr. split; [done|]. destruct (Z.eqb_spec (ir_submission_id r) (sa_submission_id a)) as [E'|E'].
    + right. assert (r0 = r) as -> by congruence. exists a. split_and!; [done..|].
      cbn. by rewrite Hid, Z.eqb_refl.
    + left. split; [|done]. cbn. rewrite Hid0. by rewrite (proj2 (Z.eqb_neq _ _)) by congruence.
Qed.

(** C31: rows only move forward.  Whatever the handles register and report, in
    whatever order, a row keeps its id, submission and run; a report is accepted
    at the revision after the one it expected, and the receipts answered for a row
    carry the revisions that follow its own one by one, so of two reports that
    expect one revision at most one is accepted, and the last receipt is what the
    row holds in the end; its sequence never goes back, its state never either,
    and a terminal row stays as it is. *)
Theorem rows_only_move_forward `{RandomRowidLaws} calls log answers t' :
  Forall call_ok calls -> index_ok log -> run_calls calls (table_of log) = (answers, t') ->
  exists log', t' = table_of log' /\ index_ok log' /\ Forall2 answer_fits calls answers /\
    forall id r, indexed id log = Some r ->
      exists r', indexed id log' = Some r' /\ moved_on r r' (receipts_of id answers) /\
        (is_terminal (ir_spool_state r) = true -> r' = r).
Proof.
  intros Hc. revert log answers t'. induction Hc as [|c calls Hc _ IH]; intros log answers t' Hok; cbn [run_calls].
  { intros [= <- <-]. exists log. split_and!; [done..|]. intros id r Hr. exists r. split_and!; [done| |done].
    constructor; try done. by destruct (ir_spool_state r). }
  destruct (run_call c (table_of log)) as [answer t1] eqn:E1. destruct (run_calls calls t1) as [rest t2] eqn:E2.
  intros [= <- <-]. destruct (call_moves c log answer t1 Hc Hok E1) as (log1 & -> & Hok1 & Hfit & Hm).
  destruct (IH log1 rest t2 Hok1 E2) as (log2 & -> & Hok2 & Hfits & Hm2). exists log2.
  split_and!; [done|done|by constructor|].
  intros id r Hr. destruct (Hm id r Hr) as (r1 & Hr1 & Hcase). destruct (Hm2 id r1 Hr1) as (r2 & Hr2 & Hmo & Hterm).
  exists r2. split; [done|]. change (answer :: rest) with ([answer] ++ rest). unfold receipts_of in *. rewrite omap_app.
  destruct Hcase as [[-> ->]|(a & R & -> & ->)]; [by split|].
  apply refusal_None in R as (Hmay & _ & Hseq). destruct Hmo as [M1 M2 M3 M4 M5 M6 M7]. split.
  - constructor; cbn in *; try done; [lia|by eapply reaches_step| |].
    + rewrite M6. rewrite len_cons, (seqZ_cons (ir_revision r + 1)) by (pose proof (len_nonneg (receipts_of id rest)); unfold receipts_of in *; lia).
      f_equal. f_equal; lia.
    + rewrite last_cons. destruct (last _); [done|]. cbn in *. by rewrite M7.
  - intros Ht. by destruct (ir_spool_state r).
Qed.

(** * Pages *)

Definition in_states (states : option (list RunSpoolState)) (r : RunIndexRecord) : bool :=
  match states with None => true | Some states => bool_decide (ir_spool_state r ∈ states) end.

(** The records a listing has still to show after a cursor. *)
Definition remaining (states : option (list RunSpoolState)) (cursor : Z) (log : Records) : Records :=
  List.filter (fun r => (cursor <? ir_index_id r) && in_states states r) log.

Lemma stored_in_state states r : stored_in states (row_of r) = bool_decide (ir_spool_state r ∈ states).
Proof.
  unfold stored_in. cbn. induction states as [|s states IH]; [done|]. cbn [existsb].
  rewrite IH. apply eq_true_iff_eq. rewrite orb_true_iff, !bool_decide_eq_true, elem_of_cons.
  assert (str (state_as_str (ir_spool_state r)) = str (state_as_str s) <-> ir_spool_state r = s) as ->; [|done].
  split; [|by intros ->]. destruct (ir_spool_state r), s; try done; intros [=].
Qed.

Lemma selects_row cursor states r :
  selects cursor states (row_of r) = (cursor <? ir_index_id r) && in_states states r.
Proof.
  unfold selects. cbn [raw_index_id row_of]. f_equal. destruct states as [states|]; [|done].
  rewrite !stored_in_state. cbn [in_states].
  rewrite (bool_decide_eq_true_2 (ir_spool_state r ∈ ALL)) by (destruct (ir_spool_state r); set_solver).
  apply orb_false_r.
Qed.

Lemma remaining_after states cursor next log :
  cursor <= next ->
  remaining states next log = List.filter (fun r => next <? ir_index_id r) (remaining states cursor log).
Proof.
  intros Hle. unfold remaining. induction log as [|r log IH]; [done|]. cbn. rewrite IH.
  destruct (cursor <? ir_index_id r) eqn:E1, (in_states states r) eqn:E2; cbn; rewrite ?andb_true_r, ?andb_false_r; try done.
  bool_prop. by rewrite (proj2 (Z.ltb_ge _ _)) by lia.
Qed.

(** In a list ordered by id, what is newer than its [n]-th record is what comes
    after it. *)
Lemma newer_than n (l : Records) e :
  ordered ir_index_id l -> last (take n l) = Some e ->
  List.filter (fun r => ir_index_id e <? ir_index_id r) l = drop n l.
Proof.
  unfold ordered. revert n. induction l as [|x l IH]; intros n Hs He; [by rewrite take_nil in He|].
  destruct n as [|n]; [done|]. rewrite fmap_cons in Hs. apply StronglySorted_inv in Hs as [Hs Hx].
  rewrite firstn_cons, last_cons in He. cbn [List.filter skipn].
  assert (Hle : ir_index_id x <= ir_index_id e).
  { destruct (last (take n l)) as [y|] eqn:El; [|injection He as <-; done]. injection He as <-.
    assert (Hy : y ∈ l). { apply last_Some in El as [l' El]. rewrite <- (take_drop n l), El. set_solver. }
    rewrite Forall_forall in Hx. apply Z.lt_le_incl, Hx. by apply list_elem_of_fmap_2. }
  rewrite (proj2 (Z.ltb_ge _ _)) by done.
  destruct (last (take n l)) as [y|] eqn:El; [injection He as <-; by apply IH|]. injection He as <-.
  apply last_None in El. destruct n as [|n]; [|destruct l; [|done]].
  - rewrite drop_0. clear IH El Hle. induction l as [|z l IH]; [done|]. cbn. rewrite fmap_cons in *.
    apply Forall_cons in Hx as [Hz Hx]. apply StronglySorted_inv in Hs as [Hs _].
    rewrite (proj2 (Z.ltb_lt _ _)) by done. f_equal. by apply IH.
  - by rewrite drop_nil.
Qed.

(** A page is exactly what it says.  With a limit in range and a cursor not
    above the newest row, it lists the next rows after the cursor whose state
    passes the filter, oldest first and at most the limit of them; it names a next
    cursor exactly when more are left, and the page asked for with that cursor
    goes on where this one stopped.  A cursor above the newest row is out of
    range. *)
Theorem pages_exact log cursor limit states :
  index_ok log -> 0 < limit <= MAX_INDEX_PAGE -> 0 <= cursor <= i64_max ->
  if len log <? cursor then read_page cursor limit states (table_of log) = Err (CursorOutOfRange cursor (len log))
  else exists p, read_page cursor limit states (table_of log) = Ok p /\
    pg_entries p = take (Z.to_nat limit) (remaining states cursor log) /\
    match pg_next_cursor p with
    | None => len (remaining states cursor log) <= limit
    | Some next => cursor < next <= len log /\
        remaining states cursor log = pg_entries p ++ remaining states next log /\ remaining states next log <> []
    end.
Proof.
  intros Hok Hl Hcur. pose proof Hok as [Hv Hk Hi Hb]. unfold read_page.
  rewrite (proj2 (Z.eqb_neq limit 0)), (proj2 (Z.ltb_ge MAX_INDEX_PAGE limit)) by lia. cbn [orb].
  unfold to_db_u64, from_db_u64. rewrite check_i64_small by done. cbn [ok_or mbind result_bind].
  unfold table_of. rewrite (highest_row raw_index_id row_of log Hi). unfold MAX_RUN_INDEX_ENTRIES in Hb.
  rewrite check_u64_small by (pose proof (len_nonneg log); widths; lia). cbn [ok_or map_err mbind result_bind].
  destruct (len log <? cursor) eqn:Ecur; [done|]. bool_prop.
  rewrite (read_selected validated_record row_of record_ok validated_index_row _ _ log Hv). cbn [mbind result_bind].
  rewrite (filter_ext _ (fun r => (cursor <? ir_index_id r) && in_states states r)) by apply selects_row.
  change (List.filter _ log) with (remaining states cursor log). set (l := remaining states cursor log).
  assert (Hlen : len (take (Z.to_nat (limit + 1)) l) = Z.min (limit + 1) (len l)) by (unfold len; rewrite length_take; lia).
  rewrite Hlen. case_match eqn:E; bool_prop.
  2: { exists (mkPage (take (Z.to_nat (limit + 1)) l) None). split_and!; [done| |cbn; lia]. cbn.
       rewrite !take_ge by (unfold len in *; lia). done. }
  rewrite take_take, Nat.min_l by lia.
  destruct (last (take (Z.to_nat limit) l)) as [e|] eqn:El.
  2: { apply last_None in El. apply (f_equal length) in El. rewrite length_take in El. cbn in El. unfold len in *. lia. }
  assert (Hel : e ∈ l). { apply last_Some in El as [l' El']. rewrite <- (take_drop (Z.to_nat limit) l), El'. set_solver. }
  unfold l, remaining in Hel. apply elem_of_filter_rows in Hel as [Hsel Hin]. bool_prop.
  pose proof (elem_id raw_index_id row_of log e Hi Hin) as He. change (entry_id raw_index_id row_of e) with (ir_index_id e) in He.
  cbn [ok_or mbind result_bind]. rewrite check_u64_small by (widths; lia). cbn [ok_or map_err mbind result_bind].
  eexists. split_and!; [done..|]. cbn [pg_next_cursor pg_entries].
  assert (Hr : remaining states (ir_index_id e) log = drop (Z.to_nat limit) l).
  { rewrite (remaining_after states cursor) by lia. apply newer_than; [|done]. apply filter_ordered.
    pose proof (rows_ordered raw_index_id row_of log Hi) as Ho. unfold ordered, rows_of in *.
    by rewrite <- list_fmap_compose in Ho. }
  rewrite Hr. split_and!; [lia..|by rewrite take_drop|].
  intros E'. apply (f_equal length) in E'. rewrite length_drop in E'. cbn in E'. unfold len in *. lia.
Qed.

(** * Witnesses *)

Definition demo_row : RunIndexRecord := mkRecord 1 7 (str "run-1") Ready 0 5 1.

Lemma demo_index_ok : index_ok [demo_row].
Proof.
  constructor; [|apply NoDup_singleton|done|done]. constructor; [|constructor]. by constructor; vm_compute.
Qed.

(** A run starts, a second writer reports what it read before, the run ends. *)
Definition demo_calls : list Call :=
  [CallAdvance (mkAdvance 7 1 Running 1 10); CallAdvance (mkAdvance 7 1 Failed 2 11);
   CallAdvance (mkAdvance 7 2 Completed 9 12)].

Lemma rows_only_move_forward_witness :
  exists answers t', @run_calls no_random_rowid demo_calls (table_of [demo_row]) = (answers, t') /\
    answers = [Ok (mkReceipt 1 7 Running 1 2 10); Err (RevisionMismatch 1 2); Ok (mkReceipt 1 7 Completed 9 3 12)] /\
    exists log', t' = table_of log' /\ index_ok log' /\ exists r', indexed 7 log' = Some r' /\
      moved_on demo_row r' (receipts_of 7 answers).
Proof.
  eexists _, _. split; [vm_compute; reflexivity|]. split; [reflexivity|].
  destruct (@rows_only_move_forward no_random_rowid no_random_rowid_laws demo_calls [demo_row] _ _
    ltac:(repeat constructor) demo_index_ok ltac:(vm_compute; reflexivity)) as (log' & Ht & Hok & _ & Hr).
  exists log'. split; [exact Ht|]. split; [exact Hok|].
  destruct (Hr 7 demo_row eq_refl) as (r' & E & Hm & _). exists r'. split; [exact E|exact Hm].
Defined.

Definition demo_rows : Records := [demo_row; mkRecord 2 8 (str "run-1") Completed 4 6 3; mkRecord 3 9 (str "run-2") Ready 0 6 1].

Lemma demo_rows_ok : index_ok demo_rows.
Proof.
  constructor; [|by apply (bool_decide_unpack _); vm_compute|done|done].
  repeat (constructor; [by constructor; vm_compute|]). constructor.
Qed.

Lemma pages_exact_witness :
  exists p, read_page 0 1 (Some [Ready]) (table_of demo_rows) = Ok p /\ pg_next_cursor p = Some 1 /\
    remaining (Some [Ready]) 0 demo_rows = pg_entries p ++ remaining (Some [Ready]) 1 demo_rows.
Proof.
  destruct (pages_exact demo_rows 0 1 (Some [Ready]) demo_rows_ok ltac:(vm_compute; split; [reflexivity|discriminate])
    ltac:(vm_compute; split; discriminate)) as (p & Hp & He & Hn).
  exists p. split; [exact Hp|]. assert (Hc : pg_next_cursor p = Some 1).
  { vm_compute in Hp. injection Hp as <-. reflexivity. }
  rewrite Hc in Hn. split; [exact Hc|apply Hn].
Defined.
