(* ===== verification/Progress.v ===== *)
(** Normalized progress frames and the messages of the live stream:
    [automonique-protocol/src/progress_api.rs].

    A frame is the payload of one event of a run's spool (see [Spool]); its kinds
    and rules are those of [Events], its encoding the canonical JSON of [Wire].
    The run identifier, the instant and the text are their bare values: a [RunId]
    is the text [run_id_new] admitted, a [ProgressText] the text
    [progress_text_new] did. *)

From S2P Require Import Prelude Text Codec Wire WireCanonical Values SandboxValues Events.

Definition MAX_TOOL_FIELD_BYTES : Z := 256.
Definition MAX_PROGRESS_TEXT_BYTES : Z := 16 * 1024.
Definition MAX_PROGRESS_CANONICAL_BYTES : Z := 40 * 1024.
Definition SPOOL_PAYLOAD_CEILING_BYTES : Z := 64 * 1024.
Definition TEXT_ENCODED_BYTES : Z := 2 * MAX_PROGRESS_TEXT_BYTES.
Definition RUN_ID_ENCODED_BYTES : Z := 2 * MAX_TOOL_FIELD_BYTES.
Definition FRAME_SCAFFOLD_BYTES : Z := 512.
Definition MAX_PROGRESS_STREAM_CANONICAL_BYTES : Z := MAX_PROGRESS_CANONICAL_BYTES + 256.
Definition STREAM_SCAFFOLD_BYTES : Z := 64.
Definition MAX_SUBSCRIBE_CANONICAL_BYTES : Z := RUN_ID_ENCODED_BYTES + 128.

Inductive ProgressApiError :=
| PCodec (error : CodecError)
| PEvent (error : EventError)
| InvalidBody
| PField (field : string) (error : ValueError)
| CounterOutOfRange (field : string)
| UnwrittenSequence
| TimeBeforeEpoch
| PFrameTooLarge (max_bytes actual_bytes : Z)
| MessageTooLarge (max_bytes actual_bytes : Z).

Definition progress_category (e : ProgressApiError) : string :=
  match e with
  | PCodec error => category error
  | PEvent error => event_category error
  | InvalidBody => "progress_invalid_body"
  | PField _ _ => "progress_invalid_field"
  | CounterOutOfRange _ => "progress_counter_out_of_range"
  | UnwrittenSequence => "progress_unwritten_sequence"
  | TimeBeforeEpoch => "progress_time_before_epoch"
  | PFrameTooLarge _ _ => "progress_frame_too_large"
  | MessageTooLarge _ _ => "progress_message_too_large"
  end.

Abbreviation Progress A := (result ProgressApiError A).

(** The two errors [?] converts. *)
Definition codec {A} (r : result CodecError A) : Progress A := map_err PCodec r.
Definition event {A} (r : result EventError A) : Progress A := map_err PEvent r.

Definition authority_ALL : list Authority := [Authoritative; Synthetic].

#[export] Instance kind_wire : WireEnum EventKind := { enum_field := "kind"; from_wire := kind_from_spelling }.
#[export] Instance step_wire : WireEnum StepStatus := { enum_field := "step"; from_wire := step_from_spelling }.
#[export] Instance retry_wire : WireEnum RetryCategory :=
  { enum_field := "category"; from_wire := retry_from_spelling }.
#[export] Instance authority_wire : WireEnum Authority :=
  { enum_field := "authority"; from_wire := from_spelling authority_ALL authority_str }.

(** * Text *)

Definition run_id_new (value : list Z) : result ValueError (list Z) := opaque_id_new MAX_TOOL_FIELD_BYTES value.

(** A control character other than a newline or a tab. *)
Definition forbidden (c : Z) : bool := is_control c && negb ((c =? 10) || (c =? 9)).

Definition progress_text_new (value : list Z) : result ValueError (list Z) :=
  if bool_decide (value = []) then Err VEmpty
  else if MAX_PROGRESS_TEXT_BYTES <? str_len value then Err (TooLong MAX_PROGRESS_TEXT_BYTES (str_len value))
  else if existsb forbidden value then Err ControlCharacter
  else Ok value.

Fixpoint sanitize (kept value : list Z) : list Z :=
  match value with
  | [] => kept
  | c :: value =>
      if forbidden c then sanitize kept value
      else if MAX_PROGRESS_TEXT_BYTES <? str_len kept + len (encode_char c) then kept
      else sanitize (kept ++ [c]) value
  end.

Definition sanitized (value : list Z) : option (list Z) :=
  ok (progress_text_new (sanitize [] value)).

(** * The body *)

(** [ProgressBodyParts] and [ProgressBody] have the same members. *)
Record ProgressBody := mkBody {
  pb_text : option (list Z);
  pb_step : option StepStatus;
  pb_retry : option RetryContext
}.

Definition body_new (kind : EventKind) (parts : ProgressBody) : result EventError ProgressBody :=
  _ ← admit_member "text" kind (text_rule kind) (is_present (pb_text parts));
  _ ← admit_member "step" kind (step_rule kind) (is_present (pb_step parts));
  _ ← admit_member "retry" kind (retry_rule kind) (is_present (pb_retry parts));
  Ok parts.

Definition body_empty (kind : EventKind) : result EventError ProgressBody := body_new kind (mkBody None None None).

Definition or_null {A} (f : A -> JsonValue) (o : option A) : JsonValue :=
  match o with Some a => f a | None => Null end.

Definition retry_to_json (r : RetryContext) : JsonValue :=
  Object [(str "attempt", Integer (attempt r));
          (str "category", JString (str (retry_str (retry_category r))));
          (str "retry_after_ms",
             or_null (fun delay => Integer (default MAX_RETRY_AFTER_MS (check_i64 delay))) (retry_after_ms r));
          (str "retryable", JBool (retryable r))].

Definition body_to_json (b : ProgressBody) : JsonValue :=
  Object [(str "retry", or_null retry_to_json (pb_retry b));
          (str "step", or_null (fun s => JString (str (step_str s))) (pb_step b));
          (str "text", or_null JString (pb_text b))].

(** * Reading members *)

Definition member (body : JsonValue) (field : string) : Progress (option JsonValue) :=
  match json_get body (str field) with
  | Some Null => Ok None
  | Some value => Ok (Some value)
  | None => Err InvalidBody
  end.

Definition integer (field : string) (value : Z) : Progress JsonValue :=
  v ← ok_or (check_i64 value) (CounterOutOfRange field); Ok (Integer v).

Definition unsigned (body : JsonValue) (field : string) : Progress Z :=
  value ← ok_or (json_get body (str field) ≫= as_integer) InvalidBody;
  ok_or (check_u64 value) InvalidBody.

Definition required_text (body : JsonValue) (field : string) : Progress (list Z) :=
  ok_or (json_get body (str field) ≫= as_str) InvalidBody.

Definition exact_fields (body : JsonValue) (fields : list string) : Progress unit :=
  match body with
  | Object entries =>
      if negb (len entries =? len fields)
         || negb (forallb (fun f => existsb (fun e => bool_decide (fst e = str f)) entries) fields)
      then Err InvalidBody else Ok tt
  | _ => Err InvalidBody
  end.

Definition retry_from_json (value : JsonValue) : Progress RetryContext :=
  _ ← exact_fields value ["attempt"; "category"; "retry_after_ms"; "retryable"]%string;
  attempt ← unsigned value "attempt";
  attempt ← ok_or (check_u32 attempt) (CounterOutOfRange "attempt");
  delay ← member value "retry_after_ms";
  retry_after_ms ←
    match delay with
    | Some (Integer delay) => d ← ok_or (check_u64 delay) InvalidBody; Ok (Some d)
    | Some _ => Err InvalidBody
    | None => Ok None
    end;
  retryable ←
    match json_get value (str "retryable") with
    | Some (JBool retryable) => Ok retryable
    | _ => Err InvalidBody
    end;
  category ← required_text value "category";
  category ← codec (decode_security_enum (T := RetryCategory) category);
  event (retry_context_new category retryable retry_after_ms attempt).

(** The optional members of a body: what each [match] makes of a member. *)
Definition read_text (text : option JsonValue) : Progress (option (list Z)) :=
  match text with
  | Some (JString text) => t ← map_err (PField "text") (progress_text_new text); Ok (Some t)
  | Some _ => Err InvalidBody
  | None => Ok None
  end.

Definition read_step (step : option JsonValue) : Progress (option StepStatus) :=
  match step with
  | Some (JString status) => s ← codec (decode_security_enum (T := StepStatus) status); Ok (Some s)
  | Some _ => Err InvalidBody
  | None => Ok None
  end.

Definition read_retry (retry : option JsonValue) : Progress (option RetryContext) :=
  match retry with
  | Some (Object entries) => r ← retry_from_json (Object entries); Ok (Some r)
  | Some _ => Err InvalidBody
  | None => Ok None
  end.

Definition body_from_json (kind : EventKind) (body : JsonValue) : Progress ProgressBody :=
  _ ← exact_fields body ["retry"; "step"; "text"]%string;
  text ← member body "text";
  text ← read_text text;
  step ← member body "step";
  step ← read_step step;
  retry ← member body "retry";
  retry ← read_retry retry;
  event (body_new kind (mkBody text step retry)).

(** * Frames *)

(** [ProgressFrameParts] and [ProgressFrame] have the same members. *)
Record ProgressFrame := mkFrame {
  pf_run_id : list Z;
  pf_sequence : Z;
  pf_at_ms : EpochMillis;
  pf_authority : Authority;
  pf_kind : EventKind;
  pf_body : ProgressBody
}.

Definition is_authoritative (a : Authority) : bool := match a with Authoritative => true | Synthetic => false end.

Definition frame_new (parts : ProgressFrame) : Progress ProgressFrame :=
  if pf_sequence parts =? 0 then Err UnwrittenSequence
  else if pf_at_ms parts <? 0 then Err TimeBeforeEpoch
  else if is_preview_only (pf_kind parts) && is_authoritative (pf_authority parts)
  then Err (PEvent (PreviewClaimedAuthority (pf_kind parts)))
  else Ok parts.

Definition frame_to_json (f : ProgressFrame) : Progress JsonValue :=
  sequence ← integer "sequence" (pf_sequence f);
  Ok (Object [(str "at_ms", Integer (pf_at_ms f));
              (str "authority", JString (str (authority_str (pf_authority f))));
              (str "body", body_to_json (pf_body f));
              (str "kind", JString (str (kind_str (pf_kind f))));
              (str "run_id", JString (pf_run_id f));
              (str "sequence", sequence)]).

Definition frame_to_canonical_bytes (f : ProgressFrame) : Progress (list Z) :=
  json ← frame_to_json f;
  let encoded := to_canonical_bytes json in
  if MAX_PROGRESS_CANONICAL_BYTES <? len encoded
  then Err (PFrameTooLarge MAX_PROGRESS_CANONICAL_BYTES (len encoded)) else Ok encoded.

Definition frame_from_canonical_bytes (payload : list Z) : Progress ProgressFrame :=
  if MAX_PROGRESS_CANONICAL_BYTES <? len payload
  then Err (PFrameTooLarge MAX_PROGRESS_CANONICAL_BYTES (len payload))
  else
    value ← codec (parse_canonical payload);
    _ ← exact_fields value ["at_ms"; "authority"; "body"; "kind"; "run_id"; "sequence"]%string;
    kind ← required_text value "kind";
    kind ← codec (decode_security_enum (T := EventKind) kind);
    body ← ok_or (json_get value (str "body")) InvalidBody;
    run_id ← required_text value "run_id";
    run_id ← map_err (PField "run_id") (run_id_new run_id);
    sequence ← unsigned value "sequence";
    at_ms ← ok_or (json_get value (str "at_ms") ≫= as_integer) InvalidBody;
    authority ← required_text value "authority";
    authority ← codec (decode_security_enum (T := Authority) authority);
    body ← body_from_json kind body;
    frame_new (mkFrame run_id sequence at_ms authority kind body).

Definition member_rules : list (EventKind * MemberRule * MemberRule * MemberRule) :=
  (fun k => (k, text_rule k, step_rule k, retry_rule k)) <$> kind_ALL.

Definition admit_identifier (value : list Z) : result ValueError unit := bounded_value value MAX_TOOL_FIELD_BYTES.

Definition admit_message_size (actual_bytes max_bytes : Z) : Progress unit :=
  if max_bytes <? actual_bytes then Err (MessageTooLarge max_bytes actual_bytes) else Ok tt.

(** * Subscriptions *)

Record SubscribeRequest := mkSubscribe { sr_run_id : list Z; sr_cursor : Z }.

Definition subscribe_to_canonical_bytes (r : SubscribeRequest) : Progress (list Z) :=
  cursor ← integer "cursor" (sr_cursor r);
  let encoded := to_canonical_bytes (Object [(str "cursor", cursor); (str "run_id", JString (sr_run_id r))]) in
  _ ← admit_message_size (len encoded) MAX_SUBSCRIBE_CANONICAL_BYTES;
  Ok encoded.

Definition subscribe_from_canonical_bytes (payload : list Z) : Progress SubscribeRequest :=
  _ ← admit_message_size (len payload) MAX_SUBSCRIBE_CANONICAL_BYTES;
  value ← codec (parse_canonical payload);
  _ ← exact_fields value ["cursor"; "run_id"]%string;
  run_id ← required_text value "run_id";
  run_id ← map_err (PField "run_id") (run_id_new run_id);
  cursor ← unsigned value "cursor";
  Ok (mkSubscribe run_id cursor).

(** * Stream messages *)

Inductive StreamRefusal := SubscriberLimit | MalformedRequest | FieldInvalid | RefusalInternal.

Definition refusal_ALL : list StreamRefusal := [SubscriberLimit; MalformedRequest; FieldInvalid; RefusalInternal].

Definition refusal_str (r : StreamRefusal) : string :=
  match r with
  | SubscriberLimit => "subscriber_limit"
  | MalformedRequest => "malformed_request"
  | FieldInvalid => "field_invalid"
  | RefusalInternal => "internal"
  end.

Definition refusal_from_spelling : list Z -> option StreamRefusal := from_spelling refusal_ALL refusal_str.

#[export] Instance refusal_wire : WireEnum StreamRefusal :=
  { enum_field := "category"; from_wire := refusal_from_spelling }.

Inductive StreamMessageKind :=
  KGreeting | KLive | KResyncRequired | KFrame | KLagged | KRetired | KRefused.

Definition message_kind_ALL : list StreamMessageKind :=
  [KGreeting; KLive; KResyncRequired; KFrame; KLagged; KRetired; KRefused].

Definition message_kind_str (k : StreamMessageKind) : string :=
  match k with
  | KGreeting => "greeting"
  | KLive => "live"
  | KResyncRequired => "resync_required"
  | KFrame => "frame"
  | KLagged => "lagged"
  | KRetired => "retired"
  | KRefused => "refused"
  end.

Definition message_kind_from_spelling : list Z -> option StreamMessageKind :=
  from_spelling message_kind_ALL message_kind_str.

Definition message_kind_is_terminal (k : StreamMessageKind) : bool :=
  match k with KResyncRequired | KLagged | KRetired | KRefused => true | _ => false end.

#[export] Instance message_kind_wire : WireEnum StreamMessageKind :=
  { enum_field := "kind"; from_wire := message_kind_from_spelling }.

Inductive StreamMessage :=
| Greeting (capability : Z)
| Live (from : Z)
| ResyncRequired (snapshot_from snapshot_to : Z)
| FrameMessage (frame : ProgressFrame)
| Lagged (delivered_through : Z)
| Retired (delivered_through : Z)
| Refused (refusal : StreamRefusal).

Definition message_kind (m : StreamMessage) : StreamMessageKind :=
  match m with
  | Greeting _ => KGreeting
  | Live _ => KLive
  | ResyncRequired _ _ => KResyncRequired
  | FrameMessage _ => KFrame
  | Lagged _ => KLagged
  | Retired _ => KRetired
  | Refused _ => KRefused
  end.

Definition message_is_terminal (m : StreamMessage) : bool := message_kind_is_terminal (message_kind m).

Definition from_subscription (start : SubscriptionStart) : StreamMessage :=
  match start with
  | SubLive from => Live from
  | SubResyncRequired from to => ResyncRequired from to
  end.

Definition message_body_json (m : StreamMessage) : Progress JsonValue :=
  match m with
  | Greeting capability => Ok (Object [(str "capability", Integer capability)])
  | Live from => from ← integer "from" from; Ok (Object [(str "from", from)])
  | ResyncRequired from to =>
      from ← integer "snapshot_from" from;
      to ← integer "snapshot_to" to;
      Ok (Object [(str "snapshot_from", from); (str "snapshot_to", to)])
  | FrameMessage frame => bytes ← frame_to_canonical_bytes frame; codec (parse_canonical bytes)
  | Lagged delivered_through | Retired delivered_through =>
      through ← integer "delivered_through" delivered_through;
      Ok (Object [(str "delivered_through", through)])
  | Refused refusal => Ok (Object [(str "category", JString (str (refusal_str refusal)))])
  end.

Definition message_to_canonical_bytes (m : StreamMessage) : Progress (list Z) :=
  body ← message_body_json m;
  let encoded := to_canonical_bytes (Object [(str "body", body);
                   (str "kind", JString (str (message_kind_str (message_kind m))))]) in
  _ ← admit_message_size (len encoded) MAX_PROGRESS_STREAM_CANONICAL_BYTES;
  Ok encoded.

Definition message_body_from_json (kind : StreamMessageKind) (body : JsonValue) : Progress StreamMessage :=
  match kind with
  | KGreeting =>
      _ ← exact_fields body ["capability"]%string;
      capability ← unsigned body "capability";
      capability ← ok_or (check_u32 capability) (CounterOutOfRange "capability");
      Ok (Greeting capability)
  | KLive =>
      _ ← exact_fields body ["from"]%string;
      from ← unsigned body "from";
      Ok (Live from)
  | KResyncRequired =>
      _ ← exact_fields body ["snapshot_from"; "snapshot_to"]%string;
      from ← unsigned body "snapshot_from";
      to ← unsigned body "snapshot_to";
      if to <? from then Err InvalidBody else Ok (ResyncRequired from to)
  | KFrame => frame ← frame_from_canonical_bytes (to_canonical_bytes body); Ok (FrameMessage frame)
  | KLagged | KRetired =>
      _ ← exact_fields body ["delivered_through"]%string;
      through ← unsigned body "delivered_through";
      Ok (match kind with KLagged => Lagged through | _ => Retired through end)
  | KRefused =>
      _ ← exact_fields body ["category"]%string;
      category ← required_text body "category";
      refusal ← codec (decode_security_enum (T := StreamRefusal) category);
      Ok (Refused refusal)
  end.

Definition message_from_canonical_bytes (payload : list Z) : Progress StreamMessage :=
  _ ← admit_message_size (len payload) MAX_PROGRESS_STREAM_CANONICAL_BYTES;
  value ← codec (parse_canonical payload);
  _ ← exact_fields value ["body"; "kind"]%string;
  kind ← required_text value "kind";
  kind ← codec (decode_security_enum (T := StreamMessageKind) kind);
  body ← ok_or (json_get value (str "body")) InvalidBody;
  message_body_from_json kind body.

(** [saturating_add] of an [u64]. *)
Definition resume_from (delivered_through : Z) (retained : option (Z * Z)) : SubscriptionStart :=
  let wanted := Z.min u64_max (delivered_through + 1) in
  match retained with
  | Some (first, last) => if first <=? wanted then SubLive wanted else SubResyncRequired first last
  | None => if delivered_through =? 0 then SubLive wanted else SubResyncRequired 0 0
  end.

(** * Objects with exact members *)

Lemma scalars_utf8 t : forallb is_scalar t = true -> from_utf8 (utf8 t) = Some t.
Proof. rewrite forallb_forall. intros H. apply utf8_from_utf8, Forall_forall. intros c Hc. by apply H, list_elem_of_In. Qed.

(** Within the limits at depth [d], every object in order. *)
Definition in_form (d : Z) (v : JsonValue) : Prop := limits v d = true /\ keys_in_order v = true.

(** A fixed list of members: in byte order, without repeats. *)
Definition field_list (fields : list string) : bool :=
  sortedb ((fun f => (str f, tt)) <$> fields) && forallb (fun f => text_ok (str f)) fields
  && bool_decide (NoDup (str <$> fields)) && (len fields <=? MAX_JSON_ENTRIES).

Lemma field_list_spec fields :
  field_list fields = true ->
  sortedb ((fun f => (str f, tt)) <$> fields) = true /\ (forall f, f ∈ fields -> text_ok (str f) = true) /\
  NoDup (str <$> fields) /\ len fields <= MAX_JSON_ENTRIES.
Proof.
  unfold field_list. rewrite !andb_true_iff, bool_decide_eq_true, Z.leb_le, forallb_forall.
  intros [[[H1 H2] H3] H4]. split_and!; try done. intros f Hf. by apply H2, list_elem_of_In.
Qed.

Lemma sortedb_keys {A B} (l : list (list Z * A)) (l' : list (list Z * B)) : l.*1 = l'.*1 -> sortedb l = sortedb l'.
Proof.
  revert l'. induction l as [|x l IH]; intros [|x' l'] E; try done. injection E as Ex E. cbn [sortedb].
  rewrite (IH l' E). f_equal. destruct l as [|y l], l' as [|y' l']; try done. injection E as Ey _.
  unfold key_leb. by rewrite Ex, Ey.
Qed.

Lemma sortedb_Sorted {A} (l : list (list Z * A)) :
  sortedb l = true -> Sorted (fun a b => bytes_leb (utf8 a) (utf8 b) = true) l.*1.
Proof.
  induction l as [|x [|y l] IH]; intros Hx; cbn in *; [constructor|by repeat constructor|].
  apply andb_true_iff in Hx as [Hxy Hx]. constructor; [by apply IH|]. by constructor.
Qed.

Lemma text_ok_utf8 t : text_ok t = true -> from_utf8 (utf8 t) = Some t.
Proof. unfold text_ok. intros [H _]%andb_true_iff. by apply scalars_utf8. Qed.

(** An object in form with exactly the members [fields] lists them, in their
    order, and nothing else. *)
Lemma exact_members d v fields :
  in_form d v -> exact_fields v fields = Ok tt -> field_list fields = true ->
  exists values, length values = length fields /\ v = Object (zip (str <$> fields) values) /\
    Forall (in_form (d - 1)) values.
Proof.
  intros [Hl Hk] He (Hs & Hsc & Hn & _)%field_list_spec. destruct v as [| | | | |entries]; try done.
  cbn [limits keys_in_order] in Hl, Hk. rewrite !andb_true_iff, bool_decide_eq_true in Hl. destruct Hl as [[_ Hnk] Hts].
  apply andb_true_iff in Hk as [Hk Hkv]. cbn [exact_fields] in He.
  destruct (Z.eqb_spec (len entries) (len fields)) as [Elen|]; [|done]. cbn [negb orb] in He.
  destruct (forallb _ fields) eqn:Hall; [|done]. clear He. rewrite forallb_forall in Hall, Hts, Hkv.
  assert (Hlen : length entries = length fields) by (unfold len in Elen; lia).
  assert (Hp : str <$> fields ≡ₚ entries.*1).
  { apply submseteq_length_Permutation; [|rewrite !length_fmap; lia].
    apply NoDup_submseteq; [done|]. intros k (f & -> & Hf)%list_elem_of_fmap.
    apply list_elem_of_In, Hall, existsb_exists in Hf as (e & Hin & E). bool_prop. rewrite <- E.
    by apply list_elem_of_fmap_2, list_elem_of_In. }
  set (R := fun a b : list Z => bytes_leb (utf8 a) (utf8 b) = true).
  assert (Htr : Transitive R) by (intros a b c; apply bytes_leb_trans).
  assert (E : entries.*1 = str <$> fields).
  { symmetry. apply (Sorted_unique_strong R); [| |by apply sortedb_Sorted|done].
    - intros a b (f & -> & Hf)%list_elem_of_fmap (e & -> & Hin)%list_elem_of_fmap Hab Hba.
      pose proof (bytes_leb_antisym _ _ Hab Hba) as E. apply list_elem_of_In, Hts, andb_true_iff in Hin as [Ht _].
      apply Hsc, text_ok_utf8 in Hf. apply text_ok_utf8 in Ht. congruence.
    - apply sortedb_Sorted in Hs. by rewrite <- list_fmap_compose in Hs. }
  exists (entries.*2). split_and!; [by rewrite length_fmap|by rewrite <- E, zip_fst_snd|].
  apply Forall_fmap, Forall_forall. intros e He%list_elem_of_In. specialize (Hts e He).
  apply andb_true_iff in Hts as [_ Hts]. split; [done|by apply Hkv].
Qed.

Lemma in_form_object d fields values :
  0 < d -> field_list fields = true -> length values = length fields -> Forall (in_form (d - 1)) values ->
  in_form d (Object (zip (str <$> fields) values)).
Proof.
  intros Hd (Hs & Hsc & Hn & Hb)%field_list_spec Hlen Hv.
  assert (E : (zip (str <$> fields) values).*1 = str <$> fields) by (apply fst_zip; rewrite length_fmap; lia).
  unfold in_form. cbn [limits keys_in_order]. change (map fst (zip (str <$> fields) values)) with ((zip (str <$> fields) values).*1).
  rewrite E, bool_decide_eq_true_2 by done. rewrite (proj2 (Z.ltb_lt 0 d)) by done.
  assert (len (zip (str <$> fields) values) = len fields) as ->.
  { unfold len. rewrite length_zip_with, length_fmap. lia. }
  rewrite (proj2 (Z.leb_le _ _)) by done. cbn [andb].
  rewrite (sortedb_keys _ ((fun f => (str f, tt)) <$> fields)), Hs by (by rewrite E, <- list_fmap_compose). cbn [andb].
  rewrite !forallb_forall. rewrite Forall_forall in Hv.
  assert (Hin : forall e, In e (zip (str <$> fields) values) -> e.1 ∈ str <$> fields /\ e.2 ∈ values).
  { intros [k w] He%list_elem_of_In. split; [by eapply elem_of_zip_l|by eapply elem_of_zip_r]. }
  split; intros e [Hk Hw]%Hin.
  - apply list_elem_of_fmap in Hk as (f & -> & Hf). rewrite Hsc by done. by apply Hv.
  - by apply Hv.
Qed.

(** The members of an object, one by one. *)
Ltac members H :=
  match type of H with
  | exact_fields ?v ?fields = Ok tt =>
      let values := fresh "values" in
      let Hlen := fresh "Hlen" in
      let Hval := fresh "Hval" in
      eapply exact_members in H as (values & Hlen & -> & Hval); [|eassumption|reflexivity];
      repeat (destruct values as [|? values]; try discriminate Hlen); clear Hlen;
      repeat match goal with Hv : Forall _ (_ :: _) |- _ => apply Forall_cons in Hv as [? Hv] end
  end.

Lemma spelled {T} (all : list T) (as_str : T -> string) v t : from_spelling all as_str v = Some t -> v = str (as_str t).
Proof. intros [_ E]%find_some. by bool_prop. Qed.

(** [member], once the member is found. *)
Definition value_member (v : JsonValue) : Progress (option JsonValue) :=
  match v with Null => Ok None | value => Ok (Some value) end.

(** What the constructors admit. *)
Record retry_ok (r : RetryContext) : Prop := mkRetryOk {
  ro_attempt : 0 <= attempt r <= u32_max;
  ro_delay : forall delay, retry_after_ms r = Some delay -> 0 <= delay;
  ro_new : retry_context_new (retry_category r) (retryable r) (retry_after_ms r) (attempt r) = Ok r
}.

Record text_admitted (t : list Z) : Prop := mkTextOk {
  ta_scalars : forallb is_scalar t = true;
  ta_new : progress_text_new t = Ok t
}.

Record body_ok (kind : EventKind) (b : ProgressBody) : Prop := mkBodyOk {
  bo_text : forall t, pb_text b = Some t -> text_admitted t;
  bo_retry : forall r, pb_retry b = Some r -> retry_ok r;
  bo_new : body_new kind b = Ok b
}.

Record frame_ok (f : ProgressFrame) : Prop := mkFrameOk {
  fo_scalars : forallb is_scalar (pf_run_id f) = true;
  fo_run_id : run_id_new (pf_run_id f) = Ok (pf_run_id f);
  fo_sequence : 0 <= pf_sequence f <= u64_max;
  fo_at_ms : i64_min <= pf_at_ms f <= i64_max;
  fo_body : body_ok (pf_kind f) (pf_body f);
  fo_new : frame_new f = Ok f
}.

(** * Retry contexts *)

Lemma check_u32_Some z a : check_u32 z = Some a <-> a = z /\ 0 <= z <= u32_max.
Proof.
  unfold check_u32. destruct ((0 <=? z) && (z <=? u32_max)) eqn:E; bool_prop.
  - split; [intros [= <-]; split; [done|lia]|by intros [-> _]].
  - split; [done|]. lia.
Qed.

Lemma retry_new_same c w delay n r :
  retry_context_new c w delay n = Ok r -> r = mkRetry c w delay n.
Proof. unfold retry_context_new. repeat case_match; congruence. Qed.

Lemma retry_decode v d r :
  in_form d v -> retry_from_json v = Ok r -> retry_ok r /\ v = retry_to_json r.
Proof.
  intros Hf H. unfold retry_from_json in H. apply bind_Ok in H as ([] & He & H). members He.
  clear Hf.
  rename j into va, j0 into vc, j1 into vd, j2 into vr.
  apply bind_Ok in H as (n & Hn & H). unfold unsigned in Hn.
  apply bind_Ok in Hn as (n' & Hn' & Hn). apply ok_or_Ok in Hn', Hn. apply check_u64_Some in Hn as [-> Hn].
  change (as_integer va = Some n') in Hn'. destruct va; try done. injection Hn' as ->.
  apply bind_Ok in H as (n & Hn' & H). apply ok_or_Ok in Hn'.
  apply check_u32_Some in Hn' as [-> Hn32].
  apply bind_Ok in H as (od & Hd & H). change (value_member vd = Ok od) in Hd.
  apply bind_Ok in H as (delay & Hdl & H). apply bind_Ok in H as (w & Hw & H).
  change (match vr with JBool b => Ok b | _ => Err InvalidBody end = @Ok ProgressApiError bool w) in Hw. destruct vr; try done. injection Hw as ->.
  apply bind_Ok in H as (t & Ht & H). apply ok_or_Ok in Ht. change (as_str vc = Some t) in Ht. destruct vc; try done.
  injection Ht as ->. apply bind_Ok in H as (c & Hc & H). unfold codec, decode_security_enum in Hc.
  destruct (from_wire t) as [c'|] eqn:Hc'; [|done]. injection Hc as ->. apply spelled in Hc' as ->.
  unfold event in H. destruct (retry_context_new c w delay n') as [r'|] eqn:Er; [|done]. injection H as ->.
  pose proof (retry_new_same _ _ _ _ _ Er) as ->.
  assert (Hvd : vd = or_null (fun delay => Integer (default MAX_RETRY_AFTER_MS (check_i64 delay))) delay /\
                forall x, delay = Some x -> 0 <= x).
  { destruct vd; cbn in Hd; injection Hd as <-; try done; [by injection Hdl as <-|].
    destruct (check_u64 z) as [x|] eqn:Hx; [|done]. injection Hdl as <-. apply check_u64_Some in Hx as [-> Hx].
    rename select (in_form (d - 1) (Integer z)) into Hlz. destruct Hlz as [Hlz _]. cbn [limits] in Hlz.
    unfold in_u64 in Hx. cbn [or_null]. rewrite (proj2 (check_i64_Some z z)) by (split; [done|]; unfold in_i64; mlia).
    split; [done|]. intros ? [= <-]. lia. }
  destruct Hvd as [-> Hdelay]. split; [by constructor|done].
Qed.

Lemma retry_encode r : retry_ok r -> retry_from_json (retry_to_json r) = Ok r.
Proof.
  intros [Ha Hd Hn]. destruct r as [c w delay n]. cbn [attempt retry_after_ms retry_category retryable] in *.
  unfold retry_from_json. change (exact_fields _ _) with (@Ok ProgressApiError unit tt).
  cbn [mbind result_bind].
  change (unsigned _ "attempt") with (ok_or (E := ProgressApiError) (check_u64 n) InvalidBody).
  rewrite (proj2 (check_u64_Some n n)) by (split; [done|]; unfold in_u64; widths; lia). cbn [ok_or mbind result_bind].
  rewrite (proj2 (check_u32_Some n n)) by (split; [done|lia]). cbn [ok_or mbind result_bind].
  change (json_get _ (str "retryable")) with (Some (JBool w)).
  change (required_text _ "category") with (@Ok ProgressApiError _ (str (retry_str c))).
  change (member _ "retry_after_ms") with
    (value_member (or_null (fun delay => Integer (default MAX_RETRY_AFTER_MS (check_i64 delay))) delay)).
  assert (Hc : codec (decode_security_enum (T := RetryCategory) (str (retry_str c))) = Ok c) by (by destruct c).
  destruct delay as [delay|]; cbn [or_null value_member mbind result_bind].
  - unfold retry_context_new in Hn. destruct (n =? 0) eqn:En; [done|].
    destruct (negb w || (MAX_RETRY_AFTER_MS <? delay)) eqn:Ed; [done|].
    specialize (Hd delay eq_refl). assert (Hm : delay <= 300000).
    { apply orb_false_iff in Ed as [_ Ed]. by apply Z.ltb_ge in Ed. }
    rewrite (proj2 (check_i64_Some delay delay)) by (split; [done|]; unfold in_i64; widths; lia).
    cbn [from_option id]. rewrite (proj2 (check_u64_Some delay delay)) by (split; [done|]; unfold in_u64; widths; lia).
    cbn [ok_or mbind result_bind]. rewrite Hc. cbn [mbind result_bind]. unfold event, retry_context_new. by rewrite En, Ed.
  - rewrite Hc. cbn [mbind result_bind]. unfold event. by rewrite Hn.
Qed.

(** * Bodies *)

Lemma body_new_same kind b b' : body_new kind b = Ok b' -> b' = b.
Proof. unfold body_new. intros H. repeat (apply bind_Ok in H as ([] & _ & H)). congruence. Qed.

Lemma text_new_same t t' : progress_text_new t = Ok t' -> t' = t.
Proof. unfold progress_text_new. repeat case_match; congruence. Qed.

Lemma string_scalars t d : in_form d (JString t) -> forallb is_scalar t = true.
Proof. intros [H _]. cbn [limits] in H. unfold text_ok in H. by apply andb_true_iff in H as [H _]. Qed.

(** One optional member: [null] for nothing, and what [decode] reads. *)
Lemma optional_member {A} (decode : option JsonValue -> Progress (option A)) (f : A -> JsonValue) (P : A -> Prop) v o o' :
  value_member v = Ok o -> decode o = Ok o' -> decode None = Ok None ->
  (forall a, decode (Some v) = Ok a -> exists x, a = Some x /\ v = f x /\ P x) ->
  v = or_null f o' /\ forall x, o' = Some x -> P x.
Proof.
  intros Hv Hd Hn Hs. assert (v = Null \/ v <> Null) as [->|Hne] by (destruct v; auto).
  - injection Hv as <-. rewrite Hn in Hd. by injection Hd as <-.
  - assert (o = Some v) as ->. { destruct v; try done; by injection Hv as <-. }
    apply Hs in Hd as (x & -> & -> & Hx). split; [done|]. by intros ? [= <-].
Qed.

Lemma body_decode kind v d b :
  in_form d v -> body_from_json kind v = Ok b -> body_ok kind b /\ v = body_to_json b.
Proof.
  intros Hf H. unfold body_from_json in H. apply bind_Ok in H as ([] & He & H). members He. clear Hf.
  rename j into vr, j0 into vs, j1 into vt. rename select (in_form _ vr) into Lr. rename select (in_form _ vt) into Lt.
  apply bind_Ok in H as (ot & Ht & H). change (value_member vt = Ok ot) in Ht. apply bind_Ok in H as (text & Hte & H).
  apply (optional_member read_text JString text_admitted vt ot text) in Hte as [-> Ptext]; [|exact Ht|done|].
  2: { intros a Ha. unfold read_text in Ha. destruct vt; try done. apply string_scalars in Lt.
       destruct (progress_text_new t) as [t'|] eqn:Et; [|done]. injection Ha as <-. pose proof (text_new_same _ _ Et) as ->.
       exists t. by split_and!. }
  apply bind_Ok in H as (os & Hs & H). change (value_member vs = Ok os) in Hs. apply bind_Ok in H as (step & Hst & H).
  apply (optional_member read_step (fun s => JString (str (step_str s))) (fun _ => True) vs os step) in Hst as [-> _]; [|exact Hs|done|].
  2: { intros a Ha. unfold read_step in Ha. destruct vs; try done. unfold codec, decode_security_enum in Ha.
       destruct (from_wire t) as [s|] eqn:Es; [|done]. injection Ha as <-. apply spelled in Es as ->. by exists s. }
  apply bind_Ok in H as (orr & Hr & H). change (value_member vr = Ok orr) in Hr. apply bind_Ok in H as (retry & Hre & H).
  apply (optional_member read_retry retry_to_json retry_ok vr orr retry) in Hre as [-> Pretry]; [|exact Hr|done|].
  2: { intros a Ha. unfold read_retry in Ha. destruct vr; try done. apply bind_Ok in Ha as (r & Ha & [= <-]).
       destruct (retry_decode _ _ _ Lr Ha) as [Hok ->]. by exists r. }
  unfold event in H. destruct (body_new kind _) as [b'|] eqn:Eb; [|done]. injection H as ->.
  pose proof (body_new_same _ _ _ Eb) as ->. split; [by constructor|done].
Qed.

Lemma body_encode kind b : body_ok kind b -> body_from_json kind (body_to_json b) = Ok b.
Proof.
  intros [Ht Hr Hn]. destruct b as [text step retry]. cbn [pb_text pb_retry] in *.
  unfold body_from_json. change (exact_fields _ _) with (@Ok ProgressApiError unit tt). cbn [mbind result_bind].
  change (member _ "text") with (value_member (or_null JString text)).
  change (member _ "step") with (value_member (or_null (fun s => JString (str (step_str s))) step)).
  change (member _ "retry") with (value_member (or_null retry_to_json retry)).
  assert (Hte : (o ← value_member (or_null JString text); read_text o) = Ok text).
  { destruct text as [t|]; [|done]. unfold read_text. cbn [or_null value_member mbind result_bind]. by rewrite (ta_new t (Ht t eq_refl)). }
  assert (Hst : (o ← value_member (or_null (fun s => JString (str (step_str s))) step); read_step o) = Ok step) by (by destruct step as [[]|]).
  assert (Hre : (o ← value_member (or_null retry_to_json retry); read_retry o) = Ok retry).
  { destruct retry as [r|]; [|done]. pose proof (retry_encode r (Hr r eq_refl)) as E.
    unfold retry_to_json, read_retry in *. cbn [or_null value_member mbind result_bind]. by rewrite E. }
  apply bind_Ok in Hte as (ot & -> & Hte), Hst as (os & -> & Hst), Hre as (orr & -> & Hre).
  cbn [mbind result_bind]. rewrite Hte. cbn [mbind result_bind]. rewrite Hst. cbn [mbind result_bind]. rewrite Hre.
  cbn [mbind result_bind]. unfold event. by rewrite Hn.
Qed.

(** * Within the limits of the parser *)

Lemma in_form_integer d z : i64_min <= z <= i64_max -> in_form d (Integer z).
Proof. intros [H1 H2]. split; [|done]. cbn [limits]. by rewrite !(proj2 (Z.leb_le _ _)). Qed.

Lemma in_form_text d t : text_admitted t -> in_form d (JString t).
Proof.
  intros [Hs Hn]. split; [|done]. cbn [limits]. unfold text_ok. rewrite Hs. unfold progress_text_new in Hn.
  destruct (bool_decide _); [done|]. destruct (Z.ltb_spec MAX_PROGRESS_TEXT_BYTES (str_len t)); [done|]. cbn [andb].
  apply Z.leb_le. unfold MAX_PROGRESS_TEXT_BYTES, MAX_JSON_STRING_BYTES in *. lia.
Qed.

Lemma in_form_run_id d t : forallb is_scalar t = true -> run_id_new t = Ok t -> in_form d (JString t).
Proof.
  intros Hs Hn. split; [|done]. cbn [limits]. unfold text_ok. rewrite Hs. unfold run_id_new, opaque_id_new in Hn.
  apply bind_Ok in Hn as ([] & Hn & _). apply bounded_value_Ok in Hn as (_ & _ & Hn & _). cbn [andb].
  apply Z.leb_le. unfold MAX_TOOL_FIELD_BYTES, MAX_JSON_STRING_BYTES in *. lia.
Qed.

(** A closed object of these members is in form when its members are. *)
Ltac object_in_form fields :=
  match goal with
  | |- in_form ?d (Object ?entries) =>
      change (Object entries) with (Object (zip (str <$> fields) (entries.*2)));
      apply in_form_object; [first [lia|reflexivity]|reflexivity|reflexivity|];
      cbn [fmap list_fmap snd]; repeat (apply Forall_cons; split); [..|apply Forall_nil; exact I]
  end.

Lemma in_form_retry d r : 0 < d -> retry_ok r -> in_form d (retry_to_json r).
Proof.
  intros Hd [Ha Hdl Hn]. unfold retry_to_json. object_in_form ["attempt"; "category"; "retry_after_ms"; "retryable"]%string.
  - apply in_form_integer. widths. lia.
  - by destruct (retry_category r).
  - destruct (retry_after_ms r) as [delay|]; [|done]. cbn [or_null]. apply in_form_integer.
    destruct (check_i64 delay) as [z|] eqn:E; cbn [from_option id].
    + by apply check_i64_Some in E as [-> E].
    + unfold MAX_RETRY_AFTER_MS. widths. lia.
  - done.
Qed.

Lemma in_form_body d kind b : 1 < d -> body_ok kind b -> in_form d (body_to_json b).
Proof.
  intros Hd [Ht Hr Hn]. unfold body_to_json. object_in_form ["retry"; "step"; "text"]%string.
  - destruct (pb_retry b) as [r|]; [|done]. cbn [or_null]. apply in_form_retry; [lia|]. by apply Hr.
  - by destruct (pb_step b) as [[]|].
  - destruct (pb_text b) as [t|]; [|done]. cbn [or_null]. apply in_form_text. by apply Ht.
Qed.

(** * Frames *)

Definition frame_json (f : ProgressFrame) : JsonValue :=
  Object [(str "at_ms", Integer (pf_at_ms f));
          (str "authority", JString (str (authority_str (pf_authority f))));
          (str "body", body_to_json (pf_body f));
          (str "kind", JString (str (kind_str (pf_kind f))));
          (str "run_id", JString (pf_run_id f));
          (str "sequence", Integer (pf_sequence f))].

Lemma frame_to_json_Ok f v : frame_to_json f = Ok v -> v = frame_json f /\ pf_sequence f <= i64_max.
Proof.
  unfold frame_to_json, integer. destruct (check_i64 (pf_sequence f)) as [s|] eqn:E; [|done].
  apply check_i64_Some in E as [-> E]. intros [= <-]. split; [done|]. unfold in_i64 in E. lia.
Qed.

Lemma frame_to_json_small f : i64_min <= pf_sequence f <= i64_max -> frame_to_json f = Ok (frame_json f).
Proof. intros H. unfold frame_to_json, integer. by rewrite (proj2 (check_i64_Some _ _) (conj eq_refl H)). Qed.

Lemma in_form_frame d f : 2 < d -> frame_ok f -> pf_sequence f <= i64_max -> in_form d (frame_json f).
Proof.
  intros Hd [Hs Hr Hq Hat Hb Hn] Hm. unfold frame_json.
  object_in_form ["at_ms"; "authority"; "body"; "kind"; "run_id"; "sequence"]%string.
  - by apply in_form_integer.
  - by destruct (pf_authority f).
  - eapply in_form_body; [lia|done].
  - by destruct (pf_kind f).
  - by apply in_form_run_id.
  - apply in_form_integer. widths. lia.
Qed.

Lemma parse_in_form v : in_form MAX_NESTING_DEPTH v -> parse_canonical (to_canonical_bytes v) = Ok v.
Proof. intros [Hl Hk]. by apply parse_canonical_complete. Qed.

Lemma parse_Ok payload v : parse_canonical payload = Ok v -> in_form MAX_NESTING_DEPTH v /\ to_canonical_bytes v = payload.
Proof. intros [H E]%parse_canonical_sound. unfold canonical in H. by apply andb_true_iff in H. Qed.

Lemma run_id_new_same t t' : run_id_new t = Ok t' -> t' = t.
Proof. unfold run_id_new, opaque_id_new. intros H. apply bind_Ok in H as (? & _ & H). congruence. Qed.

Lemma frame_new_same f f' : frame_new f = Ok f' -> f' = f.
Proof. unfold frame_new. repeat case_match; congruence. Qed.

Lemma frame_decode v f :
  in_form MAX_NESTING_DEPTH v ->
  len (to_canonical_bytes v) <= MAX_PROGRESS_CANONICAL_BYTES ->
  frame_from_canonical_bytes (to_canonical_bytes v) = Ok f ->
  frame_ok f /\ v = frame_json f /\ pf_sequence f <= i64_max.
Proof.
  intros Hf Hl H. unfold frame_from_canonical_bytes in H. rewrite (proj2 (Z.ltb_ge _ _)), parse_in_form in H by done.
  unfold codec in H. cbn [map_err] in H. apply bind_Ok in H as (v' & [= <-] & H).
  apply bind_Ok in H as ([] & He & H). members He.
  rename j into va, j0 into vu, j1 into vb, j2 into vk, j3 into vr, j4 into vs. clear Hf.
  rename select (in_form _ va) into Fa. rename select (in_form _ vb) into Fb. rename select (in_form _ vr) into Fr.
  rename select (in_form _ vs) into Fs.
  apply bind_Ok in H as (tk & Hk & H). apply ok_or_Ok in Hk. change (as_str vk = Some tk) in Hk. destruct vk; try done.
  injection Hk as ->. apply bind_Ok in H as (kind & Hk & H).
  unfold decode_security_enum in Hk. destruct (from_wire tk) as [k|] eqn:Ek; [|done]. injection Hk as ->. apply spelled in Ek as ->.
  apply bind_Ok in H as (body & Hb & H). apply ok_or_Ok in Hb. change (Some vb = Some body) in Hb. injection Hb as ->.
  apply bind_Ok in H as (tr & Hr & H). apply ok_or_Ok in Hr. change (as_str vr = Some tr) in Hr. destruct vr; try done.
  injection Hr as ->. apply bind_Ok in H as (run & Hr & H).
  destruct (run_id_new tr) as [r|] eqn:Er; [|done]. injection Hr as ->. pose proof (run_id_new_same _ _ Er) as ->.
  apply bind_Ok in H as (sq & Hs & H). unfold unsigned in Hs. apply bind_Ok in Hs as (z & Hz & Hs).
  apply ok_or_Ok in Hz, Hs. change (as_integer vs = Some z) in Hz. destruct vs; try done. injection Hz as ->.
  apply check_u64_Some in Hs as [-> Hs]. apply bind_Ok in H as (at_ms & Ha & H). apply ok_or_Ok in Ha.
  change (as_integer va = Some at_ms) in Ha. destruct va; try done. injection Ha as ->.
  apply bind_Ok in H as (tu & Hu & H). apply ok_or_Ok in Hu. change (as_str vu = Some tu) in Hu. destruct vu; try done.
  injection Hu as ->. apply bind_Ok in H as (auth & Hu & H). unfold decode_security_enum in Hu.
  destruct (from_wire tu) as [u|] eqn:Eu; [|done]. injection Hu as ->. apply spelled in Eu as ->.
  apply bind_Ok in H as (b & Hb & H). destruct (body_decode _ _ _ _ Fb Hb) as [Hbo ->].
  pose proof (frame_new_same _ _ H) as ->. destruct Fa as [Fa _], Fs as [Fs _]. cbn [limits] in Fa, Fs.
  rewrite !andb_true_iff, !Z.leb_le in Fa, Fs. split_and!; [|done|cbn; lia].
  constructor; cbn; try done. by apply string_scalars in Fr.
Qed.

Lemma frame_encode f :
  frame_ok f -> pf_sequence f <= i64_max ->
  len (to_canonical_bytes (frame_json f)) <= MAX_PROGRESS_CANONICAL_BYTES ->
  frame_from_canonical_bytes (to_canonical_bytes (frame_json f)) = Ok f.
Proof.
  intros Hok Hm Hl. unfold frame_from_canonical_bytes. rewrite (proj2 (Z.ltb_ge _ _)) by done.
  rewrite parse_in_form by (apply in_form_frame; [done|done|done]). destruct Hok as [Hs Hr Hq Hat Hb Hn].
  destruct f as [run sequence at_ms auth kind body]. cbn [pf_run_id pf_sequence pf_at_ms pf_authority pf_kind pf_body] in *.
  unfold codec. cbn [map_err mbind result_bind].
  change (exact_fields (frame_json _) _) with (@Ok ProgressApiError unit tt).
  change (required_text _ "kind") with (@Ok ProgressApiError _ (str (kind_str kind))).
  change (required_text _ "run_id") with (@Ok ProgressApiError _ run).
  change (required_text _ "authority") with (@Ok ProgressApiError _ (str (authority_str auth))).
  change (json_get _ (str "body")) with (Some (body_to_json body)).
  change (unsigned _ "sequence") with (ok_or (E := ProgressApiError) (check_u64 sequence) InvalidBody).
  change (json_get _ (str "at_ms")) with (Some (Integer at_ms)).
  cbn [ok_or map_err mbind result_bind].
  assert (decode_security_enum (T := EventKind) (str (kind_str kind)) = Ok kind) as -> by (by destruct kind).
  cbn [map_err mbind result_bind ok_or]. rewrite Hr.
  cbn [map_err mbind result_bind]. rewrite (proj2 (check_u64_Some sequence sequence)) by (split; [done|]; unfold in_u64; widths; lia).
  cbn [ok_or as_integer mbind option_bind result_bind].
  assert (decode_security_enum (T := Authority) (str (authority_str auth)) = Ok auth) as -> by (by destruct auth).
  cbn [map_err mbind result_bind]. rewrite body_encode by done. cbn [mbind result_bind]. exact Hn.
Qed.

(** * The size of a frame *)

Lemma escape_char_length c :
  is_scalar c = true -> forbidden c = false -> len (escape_char c) <= 2 * len (encode_char c).
Proof.
  intros Hs Hf. unfold escape_char.
  destruct (Z.eqb_spec c 34) as [->|]; [done|]. destruct (Z.eqb_spec c 92) as [->|]; [done|].
  destruct (Z.eqb_spec c 8) as [->|]; [done|]. destruct (Z.eqb_spec c 12) as [->|]; [done|].
  destruct (Z.eqb_spec c 10) as [->|]; [done|]. destruct (Z.eqb_spec c 13) as [->|]; [done|].
  destruct (Z.eqb_spec c 9) as [->|]; [done|].
  destruct (Z.ltb_spec c 32); [|pose proof (len_nonneg (encode_char c)); lia].
  exfalso. unfold forbidden, is_control, in_range in Hf. unfold is_scalar in Hs. bool_prop. lia.
Qed.

Lemma written_length t :
  forallb is_scalar t = true -> existsb forbidden t = false -> len (write_canonical_string t) <= 2 * str_len t + 2.
Proof.
  intros Hs Hf. unfold write_canonical_string. rewrite len_cons, len_app. change (len [34]) with 1.
  assert (len (mjoin (escape_char <$> t)) <= 2 * str_len t); [|lia].
  unfold str_len, utf8. induction t as [|c t IH]; [done|]. cbn [forallb existsb] in Hs, Hf.
  apply andb_true_iff in Hs as [Hc Hs]. apply orb_false_iff in Hf as [Hc' Hf].
  rewrite !fmap_cons, !mjoin_cons, !len_app. specialize (IH Hs Hf). pose proof (escape_char_length c Hc Hc'). lia.
Qed.

Lemma text_length t : text_admitted t -> len (write_canonical_string t) <= TEXT_ENCODED_BYTES + 2.
Proof.
  intros [Hs Hn]. unfold progress_text_new in Hn. destruct (bool_decide _); [done|].
  destruct (Z.ltb_spec MAX_PROGRESS_TEXT_BYTES (str_len t)); [done|]. destruct (existsb forbidden t) eqn:Hf; [done|].
  pose proof (written_length t Hs Hf). unfold TEXT_ENCODED_BYTES. lia.
Qed.

Lemma run_id_length t :
  forallb is_scalar t = true -> run_id_new t = Ok t -> len (write_canonical_string t) <= RUN_ID_ENCODED_BYTES + 2.
Proof.
  intros Hs Hn. unfold run_id_new, opaque_id_new in Hn. apply bind_Ok in Hn as ([] & Hn & _).
  apply bounded_value_Ok in Hn as (_ & _ & Hl & Hc). unfold RUN_ID_ENCODED_BYTES.
  assert (existsb forbidden t = false) as Hf.
  { apply not_true_iff_false. intros (c & Hin & E)%existsb_exists. unfold forbidden in E. apply andb_true_iff in E as [E _].
    apply not_true_iff_false in Hc. apply Hc, existsb_exists. eauto. }
  pose proof (written_length t Hs Hf). lia.
Qed.

Lemma integer_length z : i64_min <= z <= i64_max -> len (to_canonical_bytes (Integer z)) <= 21.
Proof.
  intros Hz. cbn [to_canonical_bytes].
  assert (Hn : forall n, in_u64 n -> len (dec n) <= 20).
  { intros n Hn. pose proof (dec_length n Hn) as H. rewrite str_len_ascii in H; [done|].
    eapply (range_ascii 48 57); [lia|lia|]. apply dec_chars. unfold in_u64 in Hn. lia. }
  destruct (Z.ltb_spec z 0).
  - unfold dec. rewrite (proj2 (Z.ltb_lt z 0)) by done. rewrite len_cons.
    specialize (Hn (- z)). unfold dec in Hn. rewrite (proj2 (Z.ltb_ge (- z) 0)) in Hn by lia.
    unfold in_u64 in Hn. widths. lia.
  - etransitivity; [apply Hn|lia]. unfold in_u64. widths. lia.
Qed.

(** What an object takes, member by member. *)
Lemma object_length es :
  sortedb es = true ->
  len (to_canonical_bytes (Object es)) <=
  2 + foldr (fun e n => len (write_canonical_string e.1) + 2 + len (to_canonical_bytes e.2) + n) 0 es.
Proof.
  intros Hs. rewrite write_object by done. rewrite len_cons, len_app. change (len [125]) with 1.
  assert (H : forall es, len (comma_separated (map entry_bytes es)) <=
    foldr (fun e n => len (write_canonical_string e.1) + 2 + len (to_canonical_bytes e.2) + n) 0 es); [|specialize (H es); lia].
  clear. induction es as [|e es IH]; [done|]. cbn [foldr].
  assert (He : len (entry_bytes e) = len (write_canonical_string e.1) + 1 + len (to_canonical_bytes e.2)).
  { unfold entry_bytes. rewrite len_app, len_cons. lia. }
  destruct es as [|e' es].
  - cbn [map comma_separated foldr]. lia.
  - cbn [map] in *. rewrite comma_cons, len_app, len_cons. lia.
Qed.

Lemma optional_length {A} (f : A -> JsonValue) o n :
  4 <= n -> (forall a, o = Some a -> len (to_canonical_bytes (f a)) <= n) -> len (to_canonical_bytes (or_null f o)) <= n.
Proof. intros Hn H. destruct o as [a|]; [by apply H|done]. Qed.

Lemma retry_length r : retry_ok r -> len (to_canonical_bytes (retry_to_json r)) <= 150.
Proof.
  intros [Ha Hd Hn]. unfold retry_to_json. etransitivity; [apply object_length; reflexivity|].
  cbn [foldr fst snd]. change (len (write_canonical_string (str "attempt"))) with 9.
  change (len (write_canonical_string (str "category"))) with 10.
  change (len (write_canonical_string (str "retry_after_ms"))) with 16.
  change (len (write_canonical_string (str "retryable"))) with 11.
  pose proof (integer_length (attempt r) ltac:(widths; lia)).
  assert (len (to_canonical_bytes (JString (str (retry_str (retry_category r))))) <= 20) by (by destruct (retry_category r)).
  assert (len (to_canonical_bytes (JBool (retryable r))) <= 5) by (by destruct (retryable r)).
  assert (len (to_canonical_bytes (or_null (fun delay => Integer (default MAX_RETRY_AFTER_MS (check_i64 delay)))
    (retry_after_ms r))) <= 21); [|lia].
  apply optional_length; [lia|]. intros delay _. apply integer_length.
  destruct (check_i64 delay) as [z|] eqn:E; cbn [from_option id]; [by apply check_i64_Some in E as [-> E]|].
  unfold MAX_RETRY_AFTER_MS. widths. lia.
Qed.

Lemma body_length kind b : body_ok kind b -> len (to_canonical_bytes (body_to_json b)) <= TEXT_ENCODED_BYTES + 200.
Proof.
  intros [Ht Hr Hn]. unfold body_to_json. etransitivity; [apply object_length; reflexivity|].
  cbn [foldr fst snd]. change (len (write_canonical_string (str "retry"))) with 7.
  change (len (write_canonical_string (str "step"))) with 6. change (len (write_canonical_string (str "text"))) with 6.
  assert (len (to_canonical_bytes (or_null retry_to_json (pb_retry b))) <= 150).
  { apply optional_length; [lia|]. intros r E. by apply retry_length, Hr. }
  assert (len (to_canonical_bytes (or_null (fun s => JString (str (step_str s))) (pb_step b))) <= 13).
  { apply optional_length; [lia|]. by intros [] _. }
  assert (len (to_canonical_bytes (or_null JString (pb_text b))) <= TEXT_ENCODED_BYTES + 2); [|lia].
  apply optional_length; [by vm_compute|]. intros t E. by apply text_length, Ht.
Qed.

(** The scaffold the source allows is enough. *)
Lemma frame_length f :
  frame_ok f -> pf_sequence f <= i64_max ->
  len (to_canonical_bytes (frame_json f)) <= TEXT_ENCODED_BYTES + RUN_ID_ENCODED_BYTES + FRAME_SCAFFOLD_BYTES.
Proof.
  intros [Hs Hr Hq Hat Hb Hn] Hm. unfold frame_json. etransitivity; [apply object_length; reflexivity|].
  cbn [foldr fst snd]. change (len (write_canonical_string (str "at_ms"))) with 7.
  change (len (write_canonical_string (str "authority"))) with 11. change (len (write_canonical_string (str "body"))) with 6.
  change (len (write_canonical_string (str "kind"))) with 6. change (len (write_canonical_string (str "run_id"))) with 8.
  change (len (write_canonical_string (str "sequence"))) with 10.
  pose proof (integer_length (pf_at_ms f) Hat). pose proof (integer_length (pf_sequence f) ltac:(widths; lia)).
  assert (len (to_canonical_bytes (JString (str (authority_str (pf_authority f))))) <= 15) by (by destruct (pf_authority f)).
  assert (len (to_canonical_bytes (JString (str (kind_str (pf_kind f))))) <= 30) by (by destruct (pf_kind f)).
  pose proof (body_length _ _ Hb). pose proof (run_id_length _ Hs Hr).
  change (to_canonical_bytes (JString (pf_run_id f))) with (write_canonical_string (pf_run_id f)).
  unfold FRAME_SCAFFOLD_BYTES. lia.
Qed.

Lemma frame_fits f :
  frame_ok f -> pf_sequence f <= i64_max -> len (to_canonical_bytes (frame_json f)) <= MAX_PROGRESS_CANONICAL_BYTES.
Proof.
  intros H Hm. pose proof (frame_length f H Hm). unfold TEXT_ENCODED_BYTES, RUN_ID_ENCODED_BYTES, FRAME_SCAFFOLD_BYTES,
    MAX_PROGRESS_TEXT_BYTES, MAX_TOOL_FIELD_BYTES, MAX_PROGRESS_CANONICAL_BYTES in *. lia.
Qed.

(** C33: a frame decodes to itself and to nothing else.  Every frame the
    constructors admit whose sequence is within the wire's integers encodes,
    whatever its text and its identifier hold, within the frame's ceiling, and
    any larger sequence is refused; a payload decodes to a frame exactly when
    that frame is admitted and encodes to that very payload. *)
Theorem frames_round_trip :
  (forall f, frame_ok f ->
     if pf_sequence f <=? i64_max
     then exists payload, frame_to_canonical_bytes f = Ok payload /\ len payload <= MAX_PROGRESS_CANONICAL_BYTES
     else frame_to_canonical_bytes f = Err (CounterOutOfRange "sequence")) /\
  (forall payload f, frame_from_canonical_bytes payload = Ok f <-> frame_ok f /\ frame_to_canonical_bytes f = Ok payload).
Proof.
  assert (Henc : forall f, frame_ok f -> pf_sequence f <= i64_max ->
    frame_to_canonical_bytes f = Ok (to_canonical_bytes (frame_json f))).
  { intros f Hok Hm. unfold frame_to_canonical_bytes. pose proof (fo_sequence f Hok).
    rewrite frame_to_json_small by (widths; lia). cbn [mbind result_bind].
    by rewrite (proj2 (Z.ltb_ge _ _)) by (by apply frame_fits). }
  split.
  - intros f Hok. destruct (Z.leb_spec (pf_sequence f) i64_max) as [Hm|Hm].
    + exists (to_canonical_bytes (frame_json f)). split; [by apply Henc|by apply frame_fits].
    + unfold frame_to_canonical_bytes, frame_to_json, integer.
      destruct (check_i64 _) as [z|] eqn:E; [|done]. apply check_i64_Some in E as [-> E]. unfold in_i64 in E. lia.
  - intros payload f. split.
    + intros H. assert (Hl : len payload <= MAX_PROGRESS_CANONICAL_BYTES).
      { unfold frame_from_canonical_bytes in H. destruct (Z.ltb_spec MAX_PROGRESS_CANONICAL_BYTES (len payload)); [done|lia]. }
      pose proof H as Hv. unfold frame_from_canonical_bytes in Hv. rewrite (proj2 (Z.ltb_ge _ _)) in Hv by done.
      destruct (parse_canonical payload) as [v|] eqn:Ep; [|done]. clear Hv. apply parse_Ok in Ep as [Hf <-].
      destruct (frame_decode v f Hf Hl H) as (Hok & -> & Hm). split; [done|by apply Henc].
    + intros [Hok E]. assert (Hm : pf_sequence f <= i64_max).
      { unfold frame_to_canonical_bytes in E. apply bind_Ok in E as (v & Ev & _). by apply frame_to_json_Ok in Ev as [_ ?]. }
      rewrite Henc in E by done. injection E as <-. apply frame_encode; [done..|by apply frame_fits].
Qed.

(** * Stream messages *)

Definition message_ok (m : StreamMessage) : Prop :=
  match m with
  | Greeting capability => 0 <= capability <= u32_max
  | Live from => in_u64 from
  | ResyncRequired from to => in_u64 from /\ in_u64 to /\ from <= to
  | FrameMessage f => frame_ok f
  | Lagged through | Retired through => in_u64 through
  | Refused _ => True
  end.

(** The counters are within the wire's integers. *)
Definition counters_fit (m : StreamMessage) : bool :=
  match m with
  | Greeting _ | Refused _ => true
  | Live n | Lagged n | Retired n => n <=? i64_max
  | ResyncRequired from to => (from <=? i64_max) && (to <=? i64_max)
  | FrameMessage f => pf_sequence f <=? i64_max
  end.

Definition message_body (m : StreamMessage) : JsonValue :=
  match m with
  | Greeting capability => Object [(str "capability", Integer capability)]
  | Live from => Object [(str "from", Integer from)]
  | ResyncRequired from to => Object [(str "snapshot_from", Integer from); (str "snapshot_to", Integer to)]
  | FrameMessage f => frame_json f
  | Lagged through | Retired through => Object [(str "delivered_through", Integer through)]
  | Refused refusal => Object [(str "category", JString (str (refusal_str refusal)))]
  end.

Definition message_json (m : StreamMessage) : JsonValue :=
  Object [(str "body", message_body m); (str "kind", JString (str (message_kind_str (message_kind m))))].

Lemma integer_small field n : in_u64 n -> integer field n = if n <=? i64_max then Ok (Integer n) else Err (CounterOutOfRange field).
Proof.
  unfold in_u64, integer. intros Hn. destruct (Z.leb_spec n i64_max).
  - by rewrite (proj2 (check_i64_Some n n)) by (split; [done|]; unfold in_i64; widths; lia).
  - destruct (check_i64 n) as [z|] eqn:E; [|done]. apply check_i64_Some in E as [-> E]. unfold in_i64 in E. lia.
Qed.

Lemma frame_encodes f :
  frame_ok f -> pf_sequence f <= i64_max -> frame_to_canonical_bytes f = Ok (to_canonical_bytes (frame_json f)).
Proof.
  intros Hok Hm. unfold frame_to_canonical_bytes. pose proof (fo_sequence f Hok).
  rewrite frame_to_json_small by (widths; lia). cbn [mbind result_bind].
  by rewrite (proj2 (Z.ltb_ge _ _)) by (by apply frame_fits).
Qed.

Lemma frame_too_late f : i64_max < pf_sequence f -> frame_to_canonical_bytes f = Err (CounterOutOfRange "sequence").
Proof.
  intros Hm. unfold frame_to_canonical_bytes, frame_to_json, integer.
  destruct (check_i64 _) as [z|] eqn:E; [|done]. apply check_i64_Some in E as [-> E]. unfold in_i64 in E. lia.
Qed.

Lemma message_body_Ok m :
  message_ok m ->
  if counters_fit m then message_body_json m = Ok (message_body m)
  else exists field, message_body_json m = Err (CounterOutOfRange field).
Proof.
  destruct m as [c|n|a b|f|n|n|r]; cbn [message_ok counters_fit message_body_json message_body]; intros Hok; try done.
  - rewrite integer_small by done. destruct (n <=? i64_max); [done|by eexists].
  - destruct Hok as (Ha & Hb & _). rewrite !integer_small by done.
    destruct (a <=? i64_max), (b <=? i64_max); cbn; [done|by eexists..].
  - destruct (Z.leb_spec (pf_sequence f) i64_max) as [Hm|Hm].
    + rewrite frame_encodes by done. cbn [mbind result_bind].
      rewrite parse_in_form by (apply in_form_frame; [done|done|done]). done.
    + rewrite frame_too_late by done. by eexists.
  - rewrite integer_small by done. destruct (n <=? i64_max); [done|by eexists].
  - rewrite integer_small by done. destruct (n <=? i64_max); [done|by eexists].
Qed.

Lemma in_form_message m : message_ok m -> counters_fit m = true -> in_form MAX_NESTING_DEPTH (message_json m).
Proof.
  intros Hok Hf. unfold message_json. object_in_form ["body"; "kind"]%string; [|by destruct m].
  destruct m as [c|n|a b|f|n|n|r]; cbn [message_ok counters_fit message_body] in *.
  - object_in_form ["capability"]%string. apply in_form_integer. widths. lia.
  - apply Z.leb_le in Hf. object_in_form ["from"]%string. apply in_form_integer. unfold in_u64 in *. widths. lia.
  - apply andb_true_iff in Hf as [Ha Hb]. apply Z.leb_le in Ha, Hb. destruct Hok as (Ha' & Hb' & _).
    object_in_form ["snapshot_from"; "snapshot_to"]%string; apply in_form_integer; unfold in_u64 in *; widths; lia.
  - apply Z.leb_le in Hf. by apply in_form_frame.
  - apply Z.leb_le in Hf. object_in_form ["delivered_through"]%string. apply in_form_integer. unfold in_u64 in *. widths. lia.
  - apply Z.leb_le in Hf. object_in_form ["delivered_through"]%string. apply in_form_integer. unfold in_u64 in *. widths. lia.
  - object_in_form ["category"]%string. by destruct r.
Qed.

Lemma message_length m :
  message_ok m -> counters_fit m = true ->
  len (to_canonical_bytes (message_json m)) <= MAX_PROGRESS_CANONICAL_BYTES + STREAM_SCAFFOLD_BYTES.
Proof.
  intros Hok Hf. unfold message_json. etransitivity; [apply object_length; reflexivity|]. cbn [foldr fst snd].
  change (len (write_canonical_string (str "body"))) with 6. change (len (write_canonical_string (str "kind"))) with 6.
  assert (len (to_canonical_bytes (JString (str (message_kind_str (message_kind m))))) <= 17) by (by destruct m).
  assert (len (to_canonical_bytes (message_body m)) <= MAX_PROGRESS_CANONICAL_BYTES); [|unfold STREAM_SCAFFOLD_BYTES; lia].
  assert (Hone : forall field n, len (write_canonical_string (str field)) <= 20 -> i64_min <= n <= i64_max ->
    len (to_canonical_bytes (Object [(str field, Integer n)])) <= MAX_PROGRESS_CANONICAL_BYTES).
  { intros field n Hl Hn. etransitivity; [by apply object_length|]. cbn [foldr fst snd].
    pose proof (integer_length n Hn). unfold MAX_PROGRESS_CANONICAL_BYTES. lia. }
  destruct m as [c|n|a b|f|n|n|r]; cbn [message_ok counters_fit message_body] in *; unfold in_u64 in *.
  - apply Hone; [done|]. widths. lia.
  - apply Hone; [done|]. apply Z.leb_le in Hf. widths. lia.
  - apply andb_true_iff in Hf as [Ha Hb]. apply Z.leb_le in Ha, Hb. destruct Hok as (Ha' & Hb' & _).
    etransitivity; [by apply object_length|]. cbn [foldr fst snd].
    pose proof (integer_length a ltac:(widths; lia)). pose proof (integer_length b ltac:(widths; lia)).
    change (len (write_canonical_string (str "snapshot_from"))) with 15.
    change (len (write_canonical_string (str "snapshot_to"))) with 13. unfold MAX_PROGRESS_CANONICAL_BYTES. lia.
  - apply frame_fits; [done|by apply Z.leb_le].
  - apply Hone; [done|]. apply Z.leb_le in Hf. widths. lia.
  - apply Hone; [done|]. apply Z.leb_le in Hf. widths. lia.
  - by destruct r.
Qed.

Lemma message_encodes m :
  message_ok m -> counters_fit m = true ->
  message_to_canonical_bytes m = Ok (to_canonical_bytes (message_json m)) /\
  len (to_canonical_bytes (message_json m)) <= MAX_PROGRESS_STREAM_CANONICAL_BYTES.
Proof.
  intros Hok Hf. pose proof (message_length m Hok Hf) as Hl.
  assert (len (to_canonical_bytes (message_json m)) <= MAX_PROGRESS_STREAM_CANONICAL_BYTES) as Hl'.
  { unfold MAX_PROGRESS_STREAM_CANONICAL_BYTES, STREAM_SCAFFOLD_BYTES in *. lia. }
  split; [|done]. unfold message_to_canonical_bytes. pose proof (message_body_Ok m Hok) as Hb. rewrite Hf in Hb.
  rewrite Hb. cbn [mbind result_bind]. fold (message_json m). unfold admit_message_size.
  by rewrite (proj2 (Z.ltb_ge _ _)).
Qed.

(** A value keeps its form with more room. *)
Lemma limits_mono v : forall d d', d <= d' -> limits v d = true -> limits v d' = true.
Proof.
  induction v as [|b|z|t|l IH|l IH] using json_ind; intros d d' Hd H; try done; cbn [limits] in *;
    rewrite !andb_true_iff in *; rewrite Forall_forall in IH.
  - destruct H as [[H1 H2] H3]. apply Z.ltb_lt in H1. split_and!; [apply Z.ltb_lt; lia|done|].
    rewrite forallb_forall in *. intros w Hw. eapply (IH w); [by apply list_elem_of_In| |by apply H3]. lia.
  - destruct H as [[[H1 H2] H3] H4]. apply Z.ltb_lt in H1. split_and!; [apply Z.ltb_lt; lia|done|done|].
    rewrite forallb_forall in *. intros e He. specialize (H4 e He). apply andb_true_iff in H4 as [Hk Hv].
    rewrite Hk. eapply (IH e); [by apply list_elem_of_In| |done]. lia.
Qed.

Lemma in_form_mono d d' v : d <= d' -> in_form d v -> in_form d' v.
Proof. intros Hd [H1 H2]. split; [by eapply limits_mono|done]. Qed.

(** A member that is a counter. *)
Lemma counter d v n : in_form d v -> (z ← ok_or (as_integer v) InvalidBody; ok_or (check_u64 z) InvalidBody) = Ok n ->
  v = Integer n /\ in_u64 n /\ n <= i64_max.
Proof.
  intros [Hl _] H. destruct v; try done. cbn [as_integer ok_or mbind result_bind] in H.
  apply ok_or_Ok, check_u64_Some in H as [-> H]. split_and!; [done|done|].
  cbn [limits] in Hl. rewrite andb_true_iff, !Z.leb_le in Hl. lia.
Qed.

Lemma one_counter d v field n :
  in_form d v -> exact_fields v [field] = Ok tt -> unsigned v field = Ok n -> field_list [field] = true ->
  v = Object [(str field, Integer n)] /\ in_u64 n /\ n <= i64_max.
Proof.
  intros Hf He Hu Hl. destruct (exact_members _ _ _ Hf He Hl) as (values & Hlen & -> & Hval).
  destruct values as [|w [|]]; try discriminate Hlen. apply Forall_cons in Hval as [Hw _].
  unfold unsigned in Hu. cbn [fmap list_fmap zip zip_with json_get List.find fst] in Hu.
  rewrite bool_decide_eq_true_2 in Hu by done. cbn [fmap option_fmap option_map snd mbind option_bind] in Hu.
  by destruct (counter _ _ _ Hw Hu) as (-> & ? & ?).
Qed.

Lemma message_body_decode kind v m :
  in_form (MAX_NESTING_DEPTH - 1) v -> message_body_from_json kind v = Ok m ->
  message_kind m = kind /\ message_ok m /\ counters_fit m = true /\ v = message_body m.
Proof.
  intros Hf H. destruct kind; cbn [message_body_from_json] in H; try (apply bind_Ok in H as (u & He & H); match type of u with unit => destruct u end).
  - apply bind_Ok in H as (n & Hn & H). destruct (one_counter _ _ _ _ Hf He Hn eq_refl) as (-> & _ & _).
    apply bind_Ok in H as (n' & Hn' & [= <-]). apply ok_or_Ok, check_u32_Some in Hn' as [-> Hn']. done.
  - apply bind_Ok in H as (n & Hn & [= <-]). destruct (one_counter _ _ _ _ Hf He Hn eq_refl) as (-> & ? & ?).
    split_and!; try done. by apply Z.leb_le.
  - members He. rename j into va, j0 into vb. rename select (in_form _ va) into Fa. rename select (in_form _ vb) into Fb.
    apply bind_Ok in H as (a & Ha & H). apply bind_Ok in H as (b & Hb & H).
    destruct (counter _ _ _ Fa Ha) as (-> & ? & ?). destruct (counter _ _ _ Fb Hb) as (-> & ? & ?).
    destruct (Z.ltb_spec b a); [done|]. injection H as <-. split_and!; try done. cbn. by rewrite !(proj2 (Z.leb_le _ _)).
  - apply bind_Ok in H as (f & Hfr & [= <-]).
    assert (Hl : len (to_canonical_bytes v) <= MAX_PROGRESS_CANONICAL_BYTES).
    { unfold frame_from_canonical_bytes in Hfr.
      destruct (Z.ltb_spec MAX_PROGRESS_CANONICAL_BYTES (len (to_canonical_bytes v))); [done|lia]. }
    destruct (frame_decode v f (in_form_mono (MAX_NESTING_DEPTH - 1) MAX_NESTING_DEPTH v ltac:(lia) Hf) Hl Hfr) as (Hok & -> & Hm). split_and!; try done. by apply Z.leb_le.
  - apply bind_Ok in H as (n & Hn & [= <-]). destruct (one_counter _ _ _ _ Hf He Hn eq_refl) as (-> & ? & ?).
    split_and!; try done. by apply Z.leb_le.
  - apply bind_Ok in H as (n & Hn & [= <-]). destruct (one_counter _ _ _ _ Hf He Hn eq_refl) as (-> & ? & ?).
    split_and!; try done. by apply Z.leb_le.
  - members He. apply bind_Ok in H as (t & Ht & H). apply ok_or_Ok in Ht. change (as_str j = Some t) in Ht.
    destruct j; try done. injection Ht as ->. apply bind_Ok in H as (r & Hr & [= <-]).
    unfold codec, decode_security_enum in Hr. destruct (from_wire t) as [r'|] eqn:Er; [|done]. injection Hr as ->.
    by apply spelled in Er as ->.
Qed.

Lemma message_body_encode m :
  message_ok m -> counters_fit m = true -> message_body_from_json (message_kind m) (message_body m) = Ok m.
Proof.
  assert (Hu : forall n, in_u64 n -> (z ← @ok_or ProgressApiError Z (Some n) InvalidBody; ok_or (check_u64 z) InvalidBody) = Ok n).
  { intros n Hn. cbn [ok_or mbind result_bind]. by rewrite (proj2 (check_u64_Some n n)). }
  destruct m as [c|n|a b|f|n|n|r]; cbn [message_ok counters_fit message_kind message_body message_body_from_json];
    intros Hok Hf; try (change (exact_fields _ _) with (@Ok ProgressApiError unit tt); cbn [mbind result_bind]).
  - change (unsigned _ _) with (z ← @ok_or ProgressApiError Z (Some c) InvalidBody; ok_or (check_u64 z) InvalidBody).
    rewrite Hu by (unfold in_u64; widths; lia). cbn [mbind result_bind]. by rewrite (proj2 (check_u32_Some c c)).
  - change (unsigned _ _) with (z ← @ok_or ProgressApiError Z (Some n) InvalidBody; ok_or (check_u64 z) InvalidBody).
    by rewrite Hu.
  - destruct Hok as (Ha & Hb & Hab).
    change (unsigned _ "snapshot_from") with (z ← @ok_or ProgressApiError Z (Some a) InvalidBody; ok_or (check_u64 z) InvalidBody).
    change (unsigned _ "snapshot_to") with (z ← @ok_or ProgressApiError Z (Some b) InvalidBody; ok_or (check_u64 z) InvalidBody).
    rewrite !Hu by done. cbn [mbind result_bind].
    by rewrite (proj2 (Z.ltb_ge _ _)).
  - apply Z.leb_le in Hf. rewrite frame_encode; [done|done|done|by apply frame_fits].
  - change (unsigned _ _) with (z ← @ok_or ProgressApiError Z (Some n) InvalidBody; ok_or (check_u64 z) InvalidBody).
    by rewrite Hu.
  - change (unsigned _ _) with (z ← @ok_or ProgressApiError Z (Some n) InvalidBody; ok_or (check_u64 z) InvalidBody).
    by rewrite Hu.
  - by destruct r.
Qed.

(** A stream message decodes to itself and to nothing else.  Every message
    of a constructible kind whose counters are within the wire's integers encodes
    within the ceiling, the largest frame included, and a larger counter is
    refused; a payload decodes to a message exactly when that message is
    admitted and encodes to that very payload. *)
Theorem messages_round_trip :
  (forall m, message_ok m ->
     if counters_fit m
     then exists payload, message_to_canonical_bytes m = Ok payload /\ len payload <= MAX_PROGRESS_STREAM_CANONICAL_BYTES
     else exists field, message_to_canonical_bytes m = Err (CounterOutOfRange field)) /\
  (forall payload m, message_from_canonical_bytes payload = Ok m <-> message_ok m /\ message_to_canonical_bytes m = Ok payload).
Proof.
  assert (Hbig : forall m, message_ok m -> counters_fit m = false ->
    exists field, message_to_canonical_bytes m = Err (CounterOutOfRange field)).
  { intros m Hok Hf. pose proof (message_body_Ok m Hok) as H. rewrite Hf in H. destruct H as [field H].
    exists field. unfold message_to_canonical_bytes. by rewrite H. }
  split.
  - intros m Hok. destruct (counters_fit m) eqn:Hf; [|by apply Hbig]. eexists. by apply message_encodes.
  - intros payload m. split.
    + intros H. unfold message_from_canonical_bytes in H. apply bind_Ok in H as ([] & _ & H).
      apply bind_Ok in H as (v & Hv & H). destruct (parse_canonical payload) as [v'|] eqn:Ep; [|done]. injection Hv as ->.
      apply parse_Ok in Ep as [Hf <-]. apply bind_Ok in H as ([] & He & H). members He.
      apply bind_Ok in H as (t & Ht & H). apply ok_or_Ok in Ht. change (as_str j0 = Some t) in Ht. destruct j0; try done.
      injection Ht as ->. apply bind_Ok in H as (k & Hk & H). unfold codec, decode_security_enum in Hk.
      destruct (from_wire t) as [k'|] eqn:Ek; [|done]. injection Hk as ->. apply spelled in Ek as ->.
      apply bind_Ok in H as (b & Hb & H). apply ok_or_Ok in Hb. change (Some j = Some b) in Hb. injection Hb as ->.
      rename select (in_form _ b) into Fb.
      destruct (message_body_decode _ _ _ Fb H) as (<- & Hok & Hfit & ->). split; [done|].
      by apply message_encodes.
    + intros [Hok E]. destruct (counters_fit m) eqn:Hfit.
      2: { destruct (Hbig m Hok Hfit) as [field E']. by rewrite E' in E. }
      destruct (message_encodes m Hok Hfit) as [E' Hl].
      assert (payload = to_canonical_bytes (message_json m)) as -> by congruence.
      unfold message_from_canonical_bytes, admit_message_size. rewrite (proj2 (Z.ltb_ge _ _)) by done.
      rewrite parse_in_form by (by apply in_form_message). unfold codec. cbn [map_err mbind result_bind].
      change (exact_fields (message_json m) _) with (@Ok ProgressApiError unit tt).
      change (required_text (message_json m) "kind") with (@Ok ProgressApiError _ (str (message_kind_str (message_kind m)))).
      change (json_get (message_json m) (str "body")) with (Some (message_body m)). cbn [mbind result_bind].
      assert (decode_security_enum (T := StreamMessageKind) (str (message_kind_str (message_kind m))) = Ok (message_kind m)) as ->
        by (by destruct m).
      cbn [map_err mbind result_bind ok_or]. by apply message_body_encode.
Qed.

(** * Subscriptions *)

Record subscribe_ok (r : SubscribeRequest) : Prop := mkSubscribeOk {
  so_scalars : forallb is_scalar (sr_run_id r) = true;
  so_run_id : run_id_new (sr_run_id r) = Ok (sr_run_id r);
  so_cursor : 0 <= sr_cursor r <= i64_max
}.

Definition subscribe_json (r : SubscribeRequest) : JsonValue :=
  Object [(str "cursor", Integer (sr_cursor r)); (str "run_id", JString (sr_run_id r))].

Lemma subscribe_encodes r :
  subscribe_ok r -> subscribe_to_canonical_bytes r = Ok (to_canonical_bytes (subscribe_json r)) /\
    len (to_canonical_bytes (subscribe_json r)) <= MAX_SUBSCRIBE_CANONICAL_BYTES.
Proof.
  intros [Hs Hr Hc]. assert (Hl : len (to_canonical_bytes (subscribe_json r)) <= MAX_SUBSCRIBE_CANONICAL_BYTES).
  { unfold subscribe_json. etransitivity; [apply object_length; reflexivity|]. cbn [foldr fst snd].
    change (len (write_canonical_string (str "cursor"))) with 8. change (len (write_canonical_string (str "run_id"))) with 8.
    pose proof (integer_length (sr_cursor r) ltac:(widths; lia)). pose proof (run_id_length _ Hs Hr).
    change (to_canonical_bytes (JString (sr_run_id r))) with (write_canonical_string (sr_run_id r)).
    unfold MAX_SUBSCRIBE_CANONICAL_BYTES. lia. }
  split; [|done]. unfold subscribe_to_canonical_bytes.
  rewrite integer_small by (unfold in_u64; widths; lia). rewrite (proj2 (Z.leb_le _ _)) by lia.
  cbn [mbind result_bind]. fold (subscribe_json r). unfold admit_message_size. by rewrite (proj2 (Z.ltb_ge _ _)).
Qed.

(** A subscription decodes to itself and to nothing else: every admitted
    request encodes within its ceiling, and a payload decodes to a request
    exactly when that request is admitted and encodes to that very payload. *)
Theorem subscriptions_round_trip payload r :
  subscribe_from_canonical_bytes payload = Ok r <->
  subscribe_ok r /\ subscribe_to_canonical_bytes r = Ok payload.
Proof.
  split.
  - intros H. unfold subscribe_from_canonical_bytes in H. apply bind_Ok in H as ([] & _ & H).
    apply bind_Ok in H as (v & Hv & H). destruct (parse_canonical payload) as [v'|] eqn:Ep; [|done]. injection Hv as ->.
    apply parse_Ok in Ep as [Hf <-]. apply bind_Ok in H as ([] & He & H). members He.
    rename select (in_form _ j) into Fc. rename select (in_form _ j0) into Fr.
    apply bind_Ok in H as (t & Ht & H). apply ok_or_Ok in Ht. change (as_str j0 = Some t) in Ht. destruct j0; try done.
    injection Ht as ->. apply bind_Ok in H as (run & Hr & H).
    destruct (run_id_new t) as [t'|] eqn:Er; [|done]. injection Hr as ->. pose proof (run_id_new_same _ _ Er) as ->.
    apply bind_Ok in H as (n & Hn & [= <-]). destruct (counter _ _ _ Fc Hn) as (-> & Hn' & Hm). unfold in_u64 in Hn'.
    assert (Hok : subscribe_ok (mkSubscribe t n)) by (constructor; [by apply string_scalars in Fr|done|cbn; lia]).
    split; [done|]. by apply subscribe_encodes in Hok as [? _].
  - intros [Hok E]. destruct (subscribe_encodes r Hok) as [E' Hl].
    assert (payload = to_canonical_bytes (subscribe_json r)) as -> by congruence.
    unfold subscribe_from_canonical_bytes, admit_message_size. rewrite (proj2 (Z.ltb_ge _ _)) by done.
    destruct Hok as [Hs Hr Hc]. rewrite parse_in_form.
    2: { unfold subscribe_json. object_in_form ["cursor"; "run_id"]%string; [apply in_form_integer; widths; lia|by apply in_form_run_id]. }
    unfold codec. cbn [map_err mbind result_bind].
    change (exact_fields (subscribe_json r) _) with (@Ok ProgressApiError unit tt).
    change (required_text (subscribe_json r) "run_id") with (@Ok ProgressApiError _ (sr_run_id r)).
    change (unsigned (subscribe_json r) "cursor") with (ok_or (E := ProgressApiError) (check_u64 (sr_cursor r)) InvalidBody).
    cbn [mbind result_bind]. rewrite Hr. cbn [map_err mbind result_bind].
    rewrite (proj2 (check_u64_Some (sr_cursor r) (sr_cursor r))) by (split; [done|]; unfold in_u64; widths; lia).
    by destruct r.
Qed.

(** Resuming agrees with the subscription rule of [Events] one position on,
    and never skips or repeats: a live answer starts right after what was
    delivered, inside what is retained, and a resynchronization names the
    retained window or, when nothing is retained, the pair of zeroes. *)
Theorem resume_is_subscription delivered retained :
  0 <= delivered < u64_max ->
  match retained with
  | Some (first, last) => forall consumer topic,
      resume_from delivered retained = resolve_subscription (mkConsumer consumer topic (delivered + 1)) first last
  | None => resume_from delivered retained = if delivered =? 0 then SubLive 1 else SubResyncRequired 0 0
  end /\
  match from_subscription (resume_from delivered retained) with
  | Live from => from = delivered + 1 /\ (forall first last, retained = Some (first, last) -> first <= from)
  | ResyncRequired from to =>
      match retained with Some window => window = (from, to) /\ delivered + 1 < from | None => (from, to) = (0, 0) end
  | _ => False
  end.
Proof.
  intros Hd. assert (E : Z.min u64_max (delivered + 1) = delivered + 1) by lia. unfold resume_from. rewrite E.
  destruct retained as [[first last]|].
  - unfold resolve_subscription. cbn [cc_position]. rewrite Z.ltb_antisym.
    destruct (Z.leb_spec first (delivered + 1)); cbn [negb from_subscription]; split_and!; try done.
    intros ? ? [= <- <-]. lia.
  - destruct (Z.eqb_spec delivered 0) as [->|]; cbn [from_subscription]; split_and!; done.
Qed.

(** * Sanitized text *)

Lemma sanitize_spec value : forall kept,
  str_len kept <= MAX_PROGRESS_TEXT_BYTES ->
  exists taken, sanitize kept value = kept ++ taken /\
    taken `prefix_of` List.filter (fun c => negb (forbidden c)) value /\
    str_len (kept ++ taken) <= MAX_PROGRESS_TEXT_BYTES /\
    (taken = [] -> List.filter (fun c => negb (forbidden c)) value = [] \/ MAX_PROGRESS_TEXT_BYTES - 4 < str_len kept).
Proof.
  induction value as [|c value IH]; intros kept Hk; cbn [sanitize List.filter].
  { exists []. rewrite app_nil_r. split_and!; [done|done|done|by left]. }
  destruct (forbidden c); cbn [negb]; [by apply IH|].
  assert (Hc : len (encode_char c) <= 4) by (unfold encode_char; repeat case_match; done).
  destruct (Z.ltb_spec MAX_PROGRESS_TEXT_BYTES (str_len kept + len (encode_char c))).
  { exists []. rewrite app_nil_r. split_and!; [done|apply prefix_nil|done|right; lia]. }
  assert (Hk' : str_len (kept ++ [c]) <= MAX_PROGRESS_TEXT_BYTES).
  { rewrite str_len_app. unfold str_len at 2, utf8. cbn. rewrite app_nil_r. done. }
  destruct (IH (kept ++ [c]) Hk') as (taken & -> & Hp & Hl & _). exists (c :: taken).
  rewrite <- (app_assoc kept [c] taken) in *. split_and!; [done|by apply prefix_cons|done|done].
Qed.

(** The producer's reduction of a text is admitted by the strict
    constructor: it keeps a prefix of the characters that may be shown, within
    the byte limit, and answers nothing only when no such character is there. *)
Theorem sanitized_is_admitted value :
  match sanitized value with
  | Some text => progress_text_new text = Ok text /\ text `prefix_of` List.filter (fun c => negb (forbidden c)) value
  | None => List.filter (fun c => negb (forbidden c)) value = []
  end.
Proof.
  destruct (sanitize_spec value [] ltac:(done)) as (taken & E & Hp & Hl & Hn). unfold sanitized. rewrite E. cbn [app] in *.
  assert (Hf : existsb forbidden taken = false).
  { apply not_true_iff_false. intros (c & Hin & Hc)%existsb_exists. destruct Hp as [rest Hp].
    assert (Hin' : In c (List.filter (fun c => negb (forbidden c)) value)) by (rewrite Hp; apply in_or_app; by left).
    apply filter_In in Hin' as [_ Hin']. by rewrite Hc in Hin'. }
  destruct (decide (taken = [])) as [Et|Et].
  - rewrite Et. cbn. destruct (Hn Et) as [|H]; [done|]. by vm_compute in H.
  - assert (progress_text_new taken = Ok taken) as E'.
    { unfold progress_text_new. rewrite bool_decide_eq_false_2, (proj2 (Z.ltb_ge _ _)), Hf by done. done. }
    by rewrite E'.
Qed.

(** * Witness *)

Lemma resume_is_subscription_witness :
  resume_from 7 (Some (3, 9)) = SubLive 8 /\ resume_from 7 (Some (9, 12)) = SubResyncRequired 9 12 /\
  forall consumer topic, resume_from 7 (Some (9, 12)) = resolve_subscription (mkConsumer consumer topic 8) 9 12.
Proof.
  split; [reflexivity|]. split; [reflexivity|].
  apply (resume_is_subscription 7 (Some (9, 12))). vm_compute. split; [discriminate|reflexivity].
Defined.
