(* ===== verification/Backend.v ===== *)
(** One supervised attempt: [automonique-runner/src/backend.rs].

    The attempt's log is the [Spool] it took ownership of; the frames its
    reader maps are appended to it as events whose payload is the canonical
    encoding of [Progress].  What the kernel, the helper, the clock and the disk
    answer is input: each turn of the supervision loop is a [Tick], what tears
    the attempt down a [Teardown], and the [n]-th append of the attempt meets
    [io n].  The reader thread and its queue are the batches that have arrived
    by each turn. *)

From S2P Require Import Prelude Text Codec WireCanonical Values Events Progress Digest Spool.

Definition TERMINAL_COMPLETED : list Z := str "completed".
Definition TERMINAL_FAILED : list Z := str "failed".
Definition TERMINAL_CANCELLED : list Z := str "cancelled".
Definition TERMINAL_TIMED_OUT : list Z := str "timed_out".
Definition STARTED_PAYLOAD_PREFIX : list Z := str "direct-process pid=".
Definition PROGRESS_BATCHES_PER_POLL : nat := 8.
Definition PROGRESS_PREVIEW_RESERVE_BYTES : Z := 16 * 1024.
Definition PROGRESS_TERMINAL_RESERVE_BYTES : Z := 2 * 1024.
Definition PROGRESS_BUDGET_WARNING : list Z := str "progress capture stopped: the run's spool budget is spent".
Definition TEMPORARY_STORAGE_EXCEEDED_WARNING : list Z := str "temporary-storage budget exceeded".
Definition HELPER_REFUSED_EXIT : Z := 121.

(** An exceedance and a reading of the mount are the texts they display. *)
Abbreviation Exceedance := (list Z).
Abbreviation Readback := (list Z).

Record CapturedFrame := mkCaptured {
  cf_authority : Events.Authority;
  cf_kind : Events.EventKind;
  cf_body : ProgressBody
}.

Inductive ExecutionOutcome :=
| OCompleted
| OFailed (exit_code : Z)
| OFailedBySignal (signal : Z)
| OLaunchRefused
| OCancelled
| OTimedOut
| OTemporaryStorageExceeded (exceedance : Exceedance).

Definition terminal_payload (o : ExecutionOutcome) : list Z :=
  match o with
  | OCompleted => TERMINAL_COMPLETED
  | OFailed _ | OFailedBySignal _ | OLaunchRefused | OTemporaryStorageExceeded _ => TERMINAL_FAILED
  | OCancelled => TERMINAL_CANCELLED
  | OTimedOut => TERMINAL_TIMED_OUT
  end.

Definition is_success (o : ExecutionOutcome) : bool := match o with OCompleted => true | _ => false end.

Inductive BackendError :=
| HelperRejected
| SpoolRunIdMismatch
| SpoolNotFresh
| ContainmentFailed
| LaunchFailed
| SpoolFailed (error : SpoolError)
| WaitFailed
| TemporaryStorageFailed
| PidUnrepresentable
| ProgressUnreadable.

(** What [wait] reports of a reaped process: its exit code, or its signal. *)
Record ExitStatus := mkExit { es_code : option Z; es_signal : option Z }.

Definition outcome_from_status (s : ExitStatus) : ExecutionOutcome :=
  match es_code s with
  | Some code =>
      if code =? HELPER_REFUSED_EXIT then OLaunchRefused
      else if code =? 0 then OCompleted
      else OFailed code
  | None => OFailedBySignal (default 0 (es_signal s))
  end.

Definition helper_new (is_absolute : bool) : result BackendError unit :=
  if is_absolute then Ok tt else Err HelperRejected.

(** * The attempt *)

(** [SupervisedRun]: [sv_child] is whether a process was adopted, [sv_queue] holds the batches the reader has sent and the
    supervisor has not taken, [sv_published] what the publisher was given, and
    [sv_appends] counts the appends. *)
Record SupervisedRun := mkRun {
  sv_run_id : list Z;
  sv_spool : Spool;
  sv_child : bool;
  sv_reader : bool;
  sv_queue : list (list CapturedFrame);
  sv_publishing : bool;
  sv_published : list (Z * list Z);
  sv_stopped : bool;
  sv_observed : Z;
  sv_appends : nat
}.

(** [DirectProcessBackend::prepare]. *)
Definition prepare (run_id : list Z) (plan_encodes containment_created : bool) (s : Spool)
  : result BackendError SupervisedRun :=
  if negb (bool_decide (su_run_id (status s) = run_id)) then Err SpoolRunIdMismatch
  else if negb (su_last_sequence (status s) =? 0) || is_terminal s then Err SpoolNotFresh
  else if negb plan_encodes then Err LaunchFailed
  else
    run ← map_err (fun _ => SpoolRunIdMismatch) (run_id_new run_id);
    if negb containment_created then Err ContainmentFailed
    else Ok (mkRun run s false false [] false [] false 0 0).

Definition with_spool (s : Spool) (r : SupervisedRun) : SupervisedRun :=
  mkRun (sv_run_id r) s (sv_child r) (sv_reader r) (sv_queue r) (sv_publishing r) (sv_published r) (sv_stopped r)
    (sv_observed r) (S (sv_appends r)).

Definition observe (sequence : Z) (r : SupervisedRun) : SupervisedRun :=
  mkRun (sv_run_id r) (sv_spool r) (sv_child r) (sv_reader r) (sv_queue r) (sv_publishing r) (sv_published r) (sv_stopped r)
    sequence (sv_appends r).

Definition publish (sequence : Z) (payload : list Z) (r : SupervisedRun) : SupervisedRun :=
  if sv_publishing r
  then mkRun (sv_run_id r) (sv_spool r) (sv_child r) (sv_reader r) (sv_queue r) true (sv_published r ++ [(sequence, payload)])
         (sv_stopped r) (sv_observed r) (sv_appends r)
  else r.

Definition with_queue (queue : list (list CapturedFrame)) (r : SupervisedRun) : SupervisedRun :=
  mkRun (sv_run_id r) (sv_spool r) (sv_child r) (sv_reader r) queue (sv_publishing r) (sv_published r) (sv_stopped r)
    (sv_observed r) (sv_appends r).

Definition adopted (r : SupervisedRun) : SupervisedRun :=
  mkRun (sv_run_id r) (sv_spool r) true (sv_reader r) (sv_queue r) (sv_publishing r) (sv_published r) (sv_stopped r)
    (sv_observed r) (sv_appends r).

Definition stopped (r : SupervisedRun) : SupervisedRun :=
  mkRun (sv_run_id r) (sv_spool r) (sv_child r) (sv_reader r) (sv_queue r) (sv_publishing r) (sv_published r) true
    (sv_observed r) (sv_appends r).

Definition spool_authority (a : Events.Authority) : Spool.Authority :=
  match a with Events.Authoritative => Authoritative | Events.Synthetic => Synthetic end.

(** The body of both warnings: a text, and a retry that is not to be made. *)
Definition warning_body (text : list Z) : option ProgressBody :=
  ok (body_new ProviderWarning
        (mkBody (ok (progress_text_new text)) None (ok (retry_context_new Internal false None 1)))).

Definition budget_warning_body : option ProgressBody := warning_body PROGRESS_BUDGET_WARNING.

Definition temporary_storage_exceeded_frame (exceedance : Exceedance) (readback : result (list Z) Readback)
  : option CapturedFrame :=
  let text := TEMPORARY_STORAGE_EXCEEDED_WARNING ++ str ": " ++ exceedance ++
                match readback with
                | Ok statfs => str "; statfs " ++ statfs
                | Err error => str "; statfs unavailable: " ++ error
                end in
  body ← warning_body text;
  Some (mkCaptured Events.Synthetic ProviderWarning body).

(** What the clock and the disk do at one append: [ai_now] is the clock in
    milliseconds when a frame is stamped, the others the inputs of
    [Spool.append]. *)
Record AppendIo := mkAppendIo {
  ai_now : option Z;
  ai_elapsed : option Z;
  ai_write : WriteOutcome;
  ai_status : StatusOutcome
}.

Section Supervision.
Context `{HashFunction} (io : nat -> AppendIo).

Definition append_event (kind : Spool.EventKind) (authority : Spool.Authority) (payload : list Z) (r : SupervisedRun)
  : result SpoolError Event * SupervisedRun :=
  let i := io (sv_appends r) in
  let '(answer, s) := append kind authority payload (ai_elapsed i) (ai_write i) (ai_status i) (sv_spool r) in
  (answer, with_spool s r).

Definition frame_payload (frame : CapturedFrame) (r : SupervisedRun) : option (list Z) :=
  sequence ← check_u64 (su_last_sequence (status (sv_spool r)) + 1);
  at_ms ← ai_now (io (sv_appends r)) ≫= check_i64;
  ok (f ← frame_new (mkFrame (sv_run_id r) sequence at_ms (cf_authority frame) (cf_kind frame) (cf_body frame));
      frame_to_canonical_bytes f).

(** Whether the frame was appended. *)
Definition append_frame (frame : CapturedFrame) (r : SupervisedRun) : bool * SupervisedRun :=
  match frame_payload frame r with
  | None => (false, r)
  | Some payload =>
      let '(answer, r) := append_event AdapterEvent (spool_authority (cf_authority frame)) payload r in
      match answer with
      | Err _ => (false, r)
      | Ok e => (true, publish (ev_sequence e) payload (observe (ev_sequence e) r))
      end
  end.

Definition stop_progress (r : SupervisedRun) : SupervisedRun :=
  if sv_stopped r then r
  else
    let r := stopped r in
    match budget_warning_body with
    | None => r
    | Some body =>
        if PROGRESS_TERMINAL_RESERVE_BYTES <? remaining_bytes (sv_spool r)
        then snd (append_frame (mkCaptured Events.Synthetic ProviderWarning body) r)
        else r
    end.

Definition is_synthetic (a : Events.Authority) : bool :=
  match a with Events.Synthetic => true | Events.Authoritative => false end.

Fixpoint persist_progress (frames : list CapturedFrame) (r : SupervisedRun) : SupervisedRun :=
  match frames with
  | [] => r
  | frame :: frames =>
      if sv_stopped r then r
      else
        let remaining := remaining_bytes (sv_spool r) in
        if remaining <=? PROGRESS_TERMINAL_RESERVE_BYTES then stop_progress r
        else if is_synthetic (cf_authority frame) && (remaining <=? PROGRESS_PREVIEW_RESERVE_BYTES)
        then stop_progress r
        else
          let '(appended, r) := append_frame frame r in
          if appended then persist_progress frames r else stop_progress r
  end.

Fixpoint poll_batches (budget : nat) (r : SupervisedRun) : SupervisedRun :=
  match budget, sv_queue r with
  | S budget, frames :: queue => poll_batches budget (persist_progress frames (with_queue queue r))
  | _, _ => r
  end.

Definition poll_progress (r : SupervisedRun) : SupervisedRun := poll_batches PROGRESS_BATCHES_PER_POLL r.

(** * Supervision *)

(** What one turn of the loop meets, in the order it asks. *)
Record Tick := mkTick {
  tk_wait : result unit (option ExitStatus);
  tk_arrived : list (list CapturedFrame);
  tk_checkpoint : option bool;
  tk_exceedance : option Exceedance;
  tk_cancelled : bool;
  tk_deadline : bool
}.

(** One turn: what it decides, if it does, and the run after it. *)
Definition turn (t : Tick) (r : SupervisedRun) : option (result BackendError ExecutionOutcome) * SupervisedRun :=
  match tk_wait t with
  | Err _ => (Some (Err WaitFailed), r)
  | Ok exited =>
      let r := poll_progress (with_queue (sv_queue r ++ if sv_reader r then tk_arrived t else []) r) in
      match tk_checkpoint t with
      | Some false => (Some (Err TemporaryStorageFailed), r)
      | _ =>
          match tk_exceedance t with
          | Some exceedance => (Some (Ok (OTemporaryStorageExceeded exceedance)), r)
          | None =>
              match exited with
              | Some status => (Some (Ok (outcome_from_status status)), r)
              | None =>
                  if tk_cancelled t then (Some (Ok OCancelled), r)
                  else if tk_deadline t then (Some (Ok OTimedOut), r)
                  else (None, r)
              end
          end
      end
  end.

(** The loop, for as many turns as are given. *)
Fixpoint supervision_loop (ticks : list Tick) (r : SupervisedRun)
  : option (result BackendError ExecutionOutcome * SupervisedRun) :=
  match ticks with
  | [] => None
  | t :: ticks =>
      match turn t r with
      | (Some decided, r) => Some (decided, r)
      | (None, r) => supervision_loop ticks r
      end
  end.

(** How the launch goes: [la_capture] is the capture, and whether it publishes;
    [la_spawned] the process id, or nothing when the launch was refused. *)
Record Launch := mkLaunch {
  la_cancelled : bool;
  la_spawned : option Z;
  la_capture : option bool;
  la_reader_starts : bool
}.

Definition start_reader (l : Launch) (r : SupervisedRun) : result BackendError SupervisedRun :=
  match la_capture l with
  | None => Ok r
  | Some publishing =>
      if la_reader_starts l
      then Ok (mkRun (sv_run_id r) (sv_spool r) (sv_child r) true (sv_queue r) publishing (sv_published r) (sv_stopped r)
                 (sv_observed r) (sv_appends r))
      else Err ProgressUnreadable
  end.

Definition i32_max : Z := 2147483647.

(** [supervise]: the process id, and an outcome or the supervisor's failure. *)
Definition supervise (l : Launch) (ticks : list Tick) (r : SupervisedRun)
  : option ((option Z * result BackendError ExecutionOutcome) * SupervisedRun) :=
  if la_cancelled l then Some ((None, Ok OCancelled), r)
  else
    match la_spawned l with
    | None => Some ((None, Err LaunchFailed), r)
    | Some pid =>
        let r := adopted r in
        if i32_max <? pid then Some ((None, Err PidUnrepresentable), r)
        else
          match start_reader l r with
          | Err e => Some ((Some pid, Err e), r)
          | Ok r =>
              let '(answer, r) := append_event Started Authoritative (STARTED_PAYLOAD_PREFIX ++ dec pid) r in
              match answer with
              | Err e => Some ((Some pid, Err (SpoolFailed e)), r)
              | Ok e =>
                  '(decided, r) ← supervision_loop ticks (observe (ev_sequence e) r);
                  Some ((Some pid, decided), r)
              end
          end
    end.

(** * The end of an attempt *)

(** What the teardown meets: [td_received] is how many of the waiting batches
    the bounded drain takes; the reconciliation of a separated child carries
    the exceedance and the reading of its final ledger. *)
Record Teardown := mkTeardown {
  td_tree_drained : bool;
  td_arrived : list (list CapturedFrame);
  td_received : nat;
  td_observed_readback : option Readback;
  td_reconciliation : result unit (option (option Exceedance * Readback));
  td_watch : option (result (list Z) Readback);
  td_disposed : bool
}.

Definition drain_progress (t : Teardown) (r : SupervisedRun) : SupervisedRun :=
  if sv_reader r
  then foldl (fun r frames => persist_progress frames r) (with_queue [] r)
         (take (td_received t) (sv_queue r ++ td_arrived t))
  else r.

Definition final_temporary_storage_exceedance (observed : option Exceedance)
    (reconciled : option (option Exceedance * Readback)) : option Exceedance :=
  match observed with Some e => Some e | None => reconciled ≫= fst end.

Definition terminal_payload_after_reconciliation (requested : list Z)
    (reconciliation_failed temporary_storage_exceeded : bool) : list Z :=
  if reconciliation_failed || temporary_storage_exceeded then TERMINAL_FAILED else requested.

Definition append_canonical_terminal (payload : list Z) (r : SupervisedRun) : result SpoolError unit * SupervisedRun :=
  let '(answer, r) := append_event Terminal Authoritative payload r in
  match answer with
  | Ok e => (Ok tt, observe (ev_sequence e) r)
  | Err e => (Err e, r)
  end.

Definition record_temporary_storage_exceedance (exceedance : Exceedance) (final_readback : option Readback)
    (watch : option (result (list Z) Readback)) (r : SupervisedRun) : option Readback * SupervisedRun :=
  match match final_readback with Some readback => Some (Ok readback) | None => watch end with
  | None => (None, r)
  | Some readback =>
      (ok readback,
       match temporary_storage_exceeded_frame exceedance readback with
       | Some frame =>
           if PROGRESS_TERMINAL_RESERVE_BYTES <? remaining_bytes (sv_spool r)
           then snd (append_frame frame r) else r
       | None => r
       end)
  end.

Record FinishedRun := mkFinished {
  fi_status : Status;
  fi_readback : option Readback;
  fi_namespaced : option (option Exceedance * Readback);
  fi_final_exceedance : option Exceedance
}.

Definition is_some {A} (o : option A) : bool := match o with Some _ => true | None => false end.

Definition finish (t : Teardown) (payload : list Z) (exceeded : option Exceedance) (r : SupervisedRun)
  : result BackendError FinishedRun * SupervisedRun :=
  let r := drain_progress t r in
  let observed_readback := if sv_child r then td_observed_readback t else None in
  let reconciliation := if sv_child r then td_reconciliation t else Ok None in
  let reconciled := ok reconciliation ≫= id in
  let final_exceedance := final_temporary_storage_exceedance exceeded reconciled in
  let final_readback := match reconciled with Some (_, statfs) => Some statfs | None => observed_readback end in
  let '(readback, r) :=
    match final_exceedance with
    | Some exceedance => record_temporary_storage_exceedance exceedance final_readback (td_watch t) r
    | None => (None, r)
    end in
  let payload := terminal_payload_after_reconciliation payload (negb (is_ok reconciliation)) (is_some final_exceedance) in
  let '(recorded, r) := append_canonical_terminal payload r in
  (_ ← map_err SpoolFailed recorded;
   _ ← (if td_tree_drained t then Ok tt else Err ContainmentFailed);
   _ ← (if td_disposed t then Ok tt else Err ContainmentFailed);
   namespaced ← map_err (fun _ => WaitFailed) reconciliation;
   Ok (mkFinished (status (sv_spool r)) readback namespaced final_exceedance), r).

(** The backstop of a supervisor that panics. *)
Definition drop_supervised (r : SupervisedRun) : SupervisedRun :=
  if is_terminal (sv_spool r) then r
  else
    let sequence := su_last_sequence (status (sv_spool r)) in
    observe (Z.min u64_max (sequence + 1)) (snd (append_event Terminal Authoritative TERMINAL_FAILED r)).

Record ExecutionReport := mkReport {
  er_outcome : ExecutionOutcome;
  er_supervised_pid : option Z;
  er_status : Status;
  er_readback : option Readback;
  er_namespaced : option (option Exceedance * Readback)
}.

(** [PreparedRun::execute], when the loop ends within the given turns. *)
Definition execute (l : Launch) (ticks : list Tick) (t : Teardown) (r : SupervisedRun)
  : option (result BackendError ExecutionReport * SupervisedRun) :=
  '((pid, decided), r) ← supervise l ticks r;
  let payload := match decided with Ok outcome => terminal_payload outcome | Err _ => TERMINAL_FAILED end in
  let exceeded := match decided with Ok (OTemporaryStorageExceeded e) => Some e | _ => None end in
  let '(finished, r) := finish t payload exceeded r in
  Some
    (match decided with
     | Err failure => Err failure
     | Ok outcome =>
         f ← finished;
         let outcome := match fi_final_exceedance f with Some e => OTemporaryStorageExceeded e | None => outcome end in
         Ok (mkReport outcome pid (fi_status f) (fi_readback f) (fi_namespaced f))
     end, r).
End Supervision.

(** * What an append does to the log *)

Definition log (r : SupervisedRun) : list Event := sp_events (sv_spool r).

(** The events carry the sequences from one on. *)
Definition sequenced (events : list Event) : Prop := ev_sequence <$> events = seqZ 1 (len events).

Lemma sequenced_snoc events e : sequenced events -> ev_sequence e = len events + 1 -> sequenced (events ++ [e]).
Proof.
  unfold sequenced. intros Hs He. rewrite fmap_app, Hs, len_app. change (len [e]) with 1. cbn [fmap list_fmap].
  rewrite He, seqZ_app by (pose proof (len_nonneg events); lia). f_equal. change (seqZ (1 + len events) 1) with [1 + len events].
  f_equal. lia.
Qed.

Lemma sequenced_last events : sequenced events -> last_sequence events = len events.
Proof.
  destruct events as [|e events _] using rev_ind; [done|]. unfold sequenced, last_sequence. intros Hs.
  rewrite last_snoc. rewrite fmap_app, len_app in *. change (len [e]) with 1 in *.
  rewrite seqZ_app in Hs by (pose proof (len_nonneg events); lia). apply (f_equal last) in Hs.
  rewrite !last_app in Hs. change (seqZ (1 + len events) 1) with [1 + len events] in Hs. cbn in Hs. injection Hs as ->. lia.
Qed.

(** The run but for its log. *)
Definition same_run (r r' : SupervisedRun) : Prop :=
  sv_run_id r' = sv_run_id r /\ sv_child r' = sv_child r /\ sv_reader r' = sv_reader r /\
  sp_run_id (sv_spool r') = sp_run_id (sv_spool r).

Section Log.
Context `{HashFunction} (io : nat -> AppendIo).

Lemma append_keeps_run_id kind authority payload elapsed write st s :
  sp_run_id (snd (append kind authority payload elapsed write st s)) = sp_run_id s.
Proof.
  unfold append. destruct (elapsed ≫= check_u64); [|done]. unfold append_at. destruct (sp_terminal s); [done|].
  destruct (_ <? _); [done|]. destruct (check_u64 _); [|done]. cbv zeta. destruct (check_u64 _); [|done].
  destruct (_ <? _); [done|]. destruct write; [|done]. destruct (write_status _ _) as [a s'] eqn:E.
  cbn [snd]. by apply write_status_same in E as [-> _].
Qed.

Lemma append_event_cases kind authority payload r answer r' :
  append_event io kind authority payload r = (answer, r') ->
  same_run r r' /\ sv_queue r' = sv_queue r /\ sv_publishing r' = sv_publishing r /\ sv_published r' = sv_published r /\
  ((exists err, answer = Err err) /\ log r' = log r /\ sp_terminal (sv_spool r') = sp_terminal (sv_spool r) \/
   exists e, ev_kind e = kind /\ ev_payload e = payload /\ ev_sequence e = len (log r) + 1 /\
     log r' = log r ++ [e] /\ sp_terminal (sv_spool r') = bool_decide (kind = Terminal) /\
     sp_terminal (sv_spool r) = false /\ (answer = Ok e \/ answer = Err SpoolIo)).
Proof.
  unfold append_event. destruct (append _ _ _ _ _ _ (sv_spool r)) as [ans s] eqn:E. intros [= <- <-].
  pose proof (append_keeps_run_id kind authority payload (ai_elapsed (io (sv_appends r))) (ai_write (io (sv_appends r)))
    (ai_status (io (sv_appends r))) (sv_spool r)) as Hrun. rewrite E in Hrun. cbn [snd] in Hrun.
  split_and!; try done. clear Hrun.
  unfold log, with_spool. cbn [sv_spool]. unfold append in E. destruct (ai_elapsed _ ≫= check_u64) as [at_millis|].
  2: { injection E as <- <-. left. split_and!; eauto. }
  unfold append_at in E. destruct (sp_terminal (sv_spool r)) eqn:Ht; [injection E as <- <-; left; split_and!; eauto|].
  destruct (MAX_EVENT_PAYLOAD_BYTES <? len payload); [injection E as <- <-; left; split_and!; eauto|].
  destruct (check_u64 (len (sp_events (sv_spool r)) + 1)) as [sequence|] eqn:Es; [|injection E as <- <-; left; split_and!; eauto].
  apply check_u64_Some in Es as [-> _]. cbv zeta in E. destruct (check_u64 (sp_bytes _ + _)) as [bytes|];
    [|injection E as <- <-; left; split_and!; eauto].
  destruct (sp_max_bytes _ <? bytes); [injection E as <- <-; left; split_and!; eauto|].
  destruct (ai_write _) as [|n]; [|injection E as <- <-; left; split_and!; eauto].
  destruct (write_status _ _) as [st s'] eqn:Ew. injection E as <- <-.
  pose proof (write_status_same _ _ _ _ Ew) as (_ & _ & Hev & _ & _ & Hterm). right.
  match type of Ew with write_status _ (mkSpool _ _ (_ ++ [?e]) _ _ _ _) = _ => exists e end.
  rewrite Hev, Hterm. cbn [sp_events sp_terminal]. split_and!; try done.
  unfold write_status in Ew. destruct (ai_status _) as [|renamed]; injection Ew as <- <-; [by left|by right].
Qed.

(** * What streaming adds to the log *)

(** A captured frame as the mappers make them: its body is one its kind admits. *)
Definition captured_ok (frame : CapturedFrame) : Prop := body_ok (cf_kind frame) (cf_body frame).

(** An event that carries a frame of this run, at the position it names. *)
Definition carries_frame (run_id : list Z) (e : Event) : Prop :=
  ev_kind e = AdapterEvent /\
  exists f, frame_from_canonical_bytes (ev_payload e) = Ok f /\ pf_run_id f = run_id /\ pf_sequence f = ev_sequence e.

Record run_ok (r : SupervisedRun) : Prop := mkRunOk {
  rk_scalars : forallb is_scalar (sv_run_id r) = true;
  rk_run_id : run_id_new (sv_run_id r) = Ok (sv_run_id r);
  rk_sequenced : sequenced (log r);
  rk_queue : Forall (Forall captured_ok) (sv_queue r)
}.

(** [r'] is [r] with frames appended; what was published since is in the log. *)
Record streamed (r r' : SupervisedRun) : Prop := mkStreamed {
  sm_run : same_run r r';
  sm_terminal : sp_terminal (sv_spool r') = sp_terminal (sv_spool r);
  sm_ok : run_ok r -> run_ok r';
  sm_log : run_ok r -> exists frames, log r' = log r ++ frames /\ Forall (carries_frame (sv_run_id r)) frames /\
    forall published, published ∈ sv_published r' ->
      published ∈ sv_published r \/ exists e, e ∈ frames /\ published = (ev_sequence e, ev_payload e)
}.

Lemma streamed_same r r' :
  same_run r r' -> log r' = log r -> sp_terminal (sv_spool r') = sp_terminal (sv_spool r) ->
  sv_published r' = sv_published r -> (run_ok r -> Forall (Forall captured_ok) (sv_queue r')) -> streamed r r'.
Proof.
  intros Hs Hl Ht Hp Hq. pose proof Hs as (Hr & _ & _ & _). constructor; [done|done| |].
  - intros Hok. pose proof (Hq Hok). destruct Hok as [H1 H2 H3 H4]. constructor; rewrite ?Hr, ?Hl; done.
  - intros _. exists []. rewrite app_nil_r. split_and!; [done|done|]. rewrite Hp. by left.
Qed.

Lemma streamed_refl r : streamed r r.
Proof. apply streamed_same; try done. apply rk_queue. Qed.

Lemma streamed_trans r r' r'' : streamed r r' -> streamed r' r'' -> streamed r r''.
Proof.
  intros [(R1 & R2 & R3 & R4) T K L] [(R1' & R2' & R3' & R4') T' K' L']. constructor.
  - unfold same_run. split_and!; congruence.
  - congruence.
  - auto.
  - intros Hok. destruct (L Hok) as (fs & E & Hf & Hp), (L' (K Hok)) as (fs' & E' & Hf' & Hp'). exists (fs ++ fs').
    split_and!; [by rewrite E', E, app_assoc|apply Forall_app; split; [done|by rewrite <- R1]|].
    intros x [Hx|(e & He & ->)]%Hp'; [apply Hp in Hx as [Hx|(e & He & ->)]; [by left|]|]; right; exists e; set_solver.
Qed.

Lemma frame_payload_carries frame r payload e :
  run_ok r -> captured_ok frame -> frame_payload io frame r = Some payload ->
  ev_kind e = AdapterEvent -> ev_payload e = payload -> ev_sequence e = len (log r) + 1 ->
  carries_frame (sv_run_id r) e.
Proof.
  intros [Hs Hr Hq _] Hc Hp Hk He Hsq. split; [done|]. unfold frame_payload in Hp.
  apply bind_Some in Hp as (sequence & E1 & Hp). apply check_u64_Some in E1 as [-> E1].
  apply bind_Some in Hp as (at_ms & E2 & Hp). apply bind_Some in E2 as (now & _ & E2). apply check_i64_Some in E2 as [-> E2].
  destruct (frame_new _) as [f|] eqn:Ef; [|done]. cbn [mbind result_bind] in Hp. pose proof (frame_new_same _ _ Ef) as ->.
  destruct (frame_to_canonical_bytes _) as [bytes|] eqn:Eb; [|done]. cbn [ok] in Hp. injection Hp as ->.
  unfold status in *. cbn [su_last_sequence] in *. rewrite sequenced_last in * by done. fold (log r) in *.
  exists (mkFrame (sv_run_id r) (len (log r) + 1) now (cf_authority frame) (cf_kind frame) (cf_body frame)).
  split; [|by cbn]. rewrite He.
  assert (Hok : frame_ok (mkFrame (sv_run_id r) (len (log r) + 1) now (cf_authority frame) (cf_kind frame) (cf_body frame))).
  { by constructor. }
  pose proof Eb as Eb'. unfold frame_to_canonical_bytes in Eb'. apply bind_Ok in Eb' as (v & Ev & _).
  apply frame_to_json_Ok in Ev as [_ Hm]. rewrite frame_encodes in Eb by done.
  match type of Eb with Ok ?b = _ => assert (payload = b) as -> by congruence end.
  by apply frame_encode, frame_fits.
Qed.

Lemma append_frame_streams frame r : captured_ok frame -> streamed r (snd (append_frame io frame r)).
Proof.
  intros Hc. unfold append_frame. destruct (frame_payload io frame r) as [payload|] eqn:Ep; [|apply streamed_refl].
  destruct (append_event io AdapterEvent _ payload r) as [answer r'] eqn:E.
  apply append_event_cases in E as (Hs & Hq & Hpb & Hp & Hcases). pose proof Hs as (Hr & Hch & Hrd & Hsr).
  destruct Hcases as [([err ->] & Hl & Ht)|(e & Hk & He & Hsq & Hl & Ht & Ht0 & Ha)].
  { cbn [snd]. apply streamed_same; try done. intros Hok. rewrite Hq. by apply rk_queue. }
  assert (Ht' : sp_terminal (sv_spool r') = sp_terminal (sv_spool r)) by (by rewrite Ht, Ht0).
  assert (Hok' : run_ok r -> run_ok r').
  { intros [H1 H2 H3 H4]. constructor; rewrite ?Hr, ?Hq, ?Hl; try done. by apply sequenced_snoc. }
  assert (Hlog : run_ok r -> exists frames, log r' = log r ++ frames /\ Forall (carries_frame (sv_run_id r)) frames /\
    frames = [e]).
  { intros Hok. exists [e]. split_and!; [done| |done]. constructor; [|done]. by eapply frame_payload_carries. }
  destruct Ha as [->| ->]; cbn [snd].
  - constructor.
    + unfold publish. by destruct (sv_publishing (observe _ _)).
    + unfold publish. by destruct (sv_publishing (observe _ _)).
    + intros Hok. apply Hok' in Hok. unfold publish. destruct (sv_publishing (observe _ _)); destruct Hok; by constructor.
    + intros Hok. destruct (Hlog Hok) as (frames & E1 & E2 & ->). exists [e]. split_and!; [|done|].
      * unfold publish. by destruct (sv_publishing (observe _ _)).
      * unfold publish. destruct (sv_publishing (observe _ _)); cbn [sv_published observe].
        -- intros x [Hx|Hx]%elem_of_app; [left; by rewrite <- Hp|]. apply list_elem_of_singleton in Hx as ->. right.
           exists e. split; [set_solver|by rewrite He].
        -- rewrite Hp. by left.
  - constructor; [done|done|done|]. intros Hok. destruct (Hlog Hok) as (frames & E1 & E2 & ->). exists [e].
    split_and!; [done|done|]. rewrite Hp. by left.
Qed.

Lemma warning_body_ok text body : forallb is_scalar text = true -> warning_body text = Some body -> body_ok ProviderWarning body.
Proof.
  intros Hs. unfold warning_body. destruct (body_new _ _) as [b|] eqn:E; [|done]. intros [= <-].
  pose proof (body_new_same _ _ _ E) as ->. constructor; [| |done].
  - cbn [pb_text]. intros t Ht. destruct (progress_text_new text) as [t'|] eqn:Et; [|done]. injection Ht as ->.
    pose proof (text_new_same _ _ Et) as ->. done.
  - cbn [pb_retry]. intros r [= <-]. constructor; [cbn; widths; lia|done|done].
Qed.

Lemma stop_progress_streams r : streamed r (stop_progress io r).
Proof.
  unfold stop_progress. destruct (sv_stopped r); [apply streamed_refl|].
  assert (Hs : streamed r (stopped r)) by (by apply streamed_same; [..|exact (rk_queue r)]).
  destruct budget_warning_body as [body|] eqn:Eb; [|done]. case_match; [|done].
  eapply streamed_trans; [exact Hs|]. apply append_frame_streams. unfold captured_ok. cbn.
  eapply warning_body_ok; [|exact Eb]. reflexivity.
Qed.

Lemma persist_progress_streams frames : forall r, Forall captured_ok frames -> streamed r (persist_progress io frames r).
Proof.
  induction frames as [|frame frames IH]; intros r Hf; cbn [persist_progress]; [apply streamed_refl|].
  apply Forall_cons in Hf as [Hc Hf]. destruct (sv_stopped r); [apply streamed_refl|].
  case_match; [apply stop_progress_streams|]. case_match; [apply stop_progress_streams|].
  pose proof (append_frame_streams frame r Hc) as Ha. destruct (append_frame io frame r) as [[] r'].
  - eapply streamed_trans; [exact Ha|by apply IH].
  - eapply streamed_trans; [exact Ha|apply stop_progress_streams].
Qed.
End Log.

(** * Supervision and teardown *)

Definition scalars (t : list Z) : Prop := forallb is_scalar t = true.

(** The inputs as the mappers and the kernel make them: frames whose body their
    kind admits, texts that are texts. *)
Definition tick_ok (t : Tick) : Prop :=
  Forall (Forall captured_ok) (tk_arrived t) /\ forall e, tk_exceedance t = Some e -> scalars e.

Record teardown_ok (t : Teardown) : Prop := mkTeardownOk {
  tdo_arrived : Forall (Forall captured_ok) (td_arrived t);
  tdo_observed : forall readback, td_observed_readback t = Some readback -> scalars readback;
  tdo_reconciled : forall o readback, td_reconciliation t = Ok (Some (o, readback)) ->
    scalars readback /\ forall e, o = Some e -> scalars e;
  tdo_watch : forall w, td_watch t = Some w -> match w with Ok readback => scalars readback | Err error => scalars error end
}.

Section Attempt.
Context `{HashFunction} (io : nat -> AppendIo).

Lemma with_queue_streams queue r : (run_ok r -> Forall (Forall captured_ok) queue) -> streamed r (with_queue queue r).
Proof. intros Hq. by apply streamed_same. Qed.

Lemma poll_streams budget : forall r, run_ok r -> streamed r (poll_batches io budget r).
Proof.
  induction budget as [|budget IH]; intros r Hok; cbn [poll_batches]; [apply streamed_refl|].
  destruct (sv_queue r) as [|frames queue] eqn:Eq; [apply streamed_refl|].
  pose proof (rk_queue r Hok) as Hq. rewrite Eq in Hq. apply Forall_cons in Hq as [Hf Hq].
  assert (H1 : streamed r (persist_progress io frames (with_queue queue r))).
  { apply (streamed_trans _ (with_queue queue r)); [by apply with_queue_streams|by apply persist_progress_streams]. }
  eapply streamed_trans; [exact H1|]. apply IH. by apply (sm_ok _ _ H1).
Qed.

Lemma turn_streams t r : tick_ok t -> run_ok r -> streamed r (snd (turn io t r)).
Proof.
  intros [Ht _] Hok. unfold turn. destruct (tk_wait t) as [exited|]; [|apply streamed_refl].
  set (queue := sv_queue r ++ if sv_reader r then tk_arrived t else []).
  assert (Hq : streamed r (poll_progress io (with_queue queue r))).
  { assert (Hw : streamed r (with_queue queue r)).
    { apply with_queue_streams. intros _. apply Forall_app. split; [by apply rk_queue|]. by destruct (sv_reader r). }
    eapply streamed_trans; [exact Hw|]. apply poll_streams. by apply (sm_ok _ _ Hw). }
  repeat case_match; exact Hq.
Qed.

Lemma loop_streams ticks : forall r decided r',
  Forall tick_ok ticks -> run_ok r -> supervision_loop io ticks r = Some (decided, r') ->
  streamed r r' /\ forall e, decided = Ok (OTemporaryStorageExceeded e) -> scalars e.
Proof.
  induction ticks as [|t ticks IH]; intros r decided r' Ht Hok; cbn [supervision_loop]; [done|].
  apply Forall_cons in Ht as [Ht Hts]. pose proof (turn_streams t r Ht Hok) as Hs.
  destruct (turn io t r) as [[d|] r1] eqn:E; cbn [snd] in Hs.
  - intros [= <- <-]. split; [done|]. intros e ->. unfold turn in E. destruct (tk_wait t); [|done].
    destruct Ht as [_ Hx]. destruct (tk_checkpoint t) as [[]|]; try done;
      (destruct (tk_exceedance t) as [x|]; [injection E as -> _; by apply Hx|]);
      repeat (case_match; try done); unfold outcome_from_status in E; repeat case_match; done.
  - intros Hl. destruct (IH _ _ _ Hts (sm_ok _ _ Hs Hok) Hl) as [H1 H2]. split; [by eapply streamed_trans|done].
Qed.

Lemma drain_streams t r : teardown_ok t -> run_ok r -> streamed r (drain_progress io t r).
Proof.
  intros Ht Hok. unfold drain_progress. destruct (sv_reader r); [|apply streamed_refl].
  eapply streamed_trans; [by apply (with_queue_streams [])|].
  assert (Hb : Forall (Forall captured_ok) (take (td_received t) (sv_queue r ++ td_arrived t))).
  { apply Forall_take, Forall_app. split; [by apply rk_queue|by apply tdo_arrived]. }
  revert Hb. generalize (with_queue [] r) as r0. induction (take _ _) as [|frames batches IH]; intros r0 Hb; cbn [foldl].
  - apply streamed_refl.
  - apply Forall_cons in Hb as [Hf Hb]. eapply streamed_trans; [by apply persist_progress_streams|by apply IH].
Qed.

Lemma exceedance_streams e final watch r :
  scalars e -> (forall readback, final = Some readback -> scalars readback) ->
  (forall w, watch = Some w -> match w with Ok readback => scalars readback | Err error => scalars error end) ->
  streamed r (snd (record_temporary_storage_exceedance io e final watch r)).
Proof.
  intros He Hf Hw. unfold record_temporary_storage_exceedance.
  assert (Hr : forall readback, match final with Some readback => Some (Ok readback) | None => watch end = Some readback ->
    match readback with Ok readback => scalars readback | Err error => scalars error end).
  { intros readback. destruct final as [x|]; [|apply Hw]. intros [= <-]. by apply Hf. }
  destruct (match final with Some _ => _ | None => _ end) as [readback|]; [|apply streamed_refl]. cbn [snd].
  specialize (Hr readback eq_refl). destruct (temporary_storage_exceeded_frame e readback) as [frame|] eqn:Ef; [|apply streamed_refl].
  destruct (PROGRESS_TERMINAL_RESERVE_BYTES <? _); [|apply streamed_refl]. apply append_frame_streams. unfold temporary_storage_exceeded_frame in Ef.
  apply bind_Some in Ef as (body & Eb & [= <-]). unfold captured_ok. cbn. eapply warning_body_ok; [|exact Eb].
  unfold scalars in *. rewrite !forallb_app, He. by destruct readback; rewrite forallb_app, Hr.
Qed.

(** * What the log says of an attempt *)

Definition outcome_state (o : ExecutionOutcome) : RunState :=
  match o with
  | OCompleted => Completed
  | OFailed _ | OFailedBySignal _ | OLaunchRefused | OTemporaryStorageExceeded _ => Failed
  | OCancelled => Cancelled
  | OTimedOut => TimedOut
  end.

Lemma state_of_outcome events e o :
  ev_kind e = Terminal -> ev_payload e = terminal_payload o -> state_from_events (events ++ [e]) = outcome_state o.
Proof. intros Hk Hp. unfold state_from_events. rewrite last_snoc, Hk, Hp. by destruct o. Qed.

(** The log of an attempt: who started, what it showed, how it ended. *)
Record attempt_log (run_id : list Z) (started frames ended : list Event) (r : SupervisedRun) : Prop := mkAttemptLog {
  al_run_id : sp_run_id (sv_spool r) = run_id;
  al_log : log r = started ++ frames ++ ended;
  al_started : started = [] \/ exists e pid, started = [e] /\ ev_kind e = Started /\
    ev_payload e = STARTED_PAYLOAD_PREFIX ++ dec pid;
  al_frames : Forall (carries_frame run_id) frames;
  al_ended : ended = [] \/ exists e o, ended = [e] /\ ev_kind e = Terminal /\ ev_payload e = terminal_payload o;
  al_terminal : sp_terminal (sv_spool r) = negb (bool_decide (ended = []));
  al_sequences : sequenced (log r);
  al_published : forall published, published ∈ sv_published r ->
    exists e, e ∈ frames /\ published = (ev_sequence e, ev_payload e)
}.

(** Before the end: nothing terminal yet. *)
Definition open_log (run_id : list Z) (started frames : list Event) (r : SupervisedRun) : Prop :=
  attempt_log run_id started frames [] r /\ run_ok r /\ sv_run_id r = run_id.

Lemma open_log_streams run_id started frames r r' :
  open_log run_id started frames r -> streamed r r' -> exists frames', open_log run_id started frames' r'.
Proof.
  intros ([Hid Hl Hst Hf He Ht Hs Hp] & Hok & <-) [(Hr & Hc & Hd & Hsr) Hterm Hok' Hlog]. destruct (Hlog Hok) as (more & El & Hm & Hpub).
  exists (frames ++ more). rewrite app_nil_r in Hl. split_and!; [constructor|by apply Hok'|done].
  - congruence.
  - by rewrite El, Hl, app_nil_r, app_assoc.
  - done.
  - apply Forall_app. split; [done|done].
  - done.
  - by rewrite Hterm.
  - apply rk_sequenced. by apply Hok'.
  - intros x [Hx|(e & He' & ->)]%Hpub; [apply Hp in Hx as (e & He' & ->)|]; exists e; set_solver.
Qed.
End Attempt.

Section Report.
Context `{HashFunction} (io : nat -> AppendIo).

(** A run as [prepare] makes it from a fresh log. *)
Definition prepared_run (r : SupervisedRun) : Prop :=
  run_ok r /\ sp_run_id (sv_spool r) = sv_run_id r /\ log r = [] /\ sp_terminal (sv_spool r) = false /\ sv_published r = [] /\
  sv_child r = false /\ sv_reader r = false /\ sv_queue r = [].

Lemma prepared_open r : prepared_run r -> open_log (sv_run_id r) [] [] r.
Proof.
  intros (Hok & Hid & Hl & Ht & Hp & _). split; [|by split]. constructor; try done; [by left|by left|by apply rk_sequenced|].
  rewrite Hp. set_solver.
Qed.

(** What is known once a decision is made. *)
Record decided_as (l : Launch) (run_id : list Z) (started frames : list Event) (pid : option Z)
    (decided : result BackendError ExecutionOutcome) (r : SupervisedRun) : Prop := mkDecided {
  dc_open : open_log run_id started frames r;
  dc_outcome : forall o, decided = Ok o ->
    pid = None /\ o = OCancelled /\ started = [] \/
    exists p e, pid = Some p /\ la_spawned l = Some p /\ started = [e] /\ ev_payload e = STARTED_PAYLOAD_PREFIX ++ dec p;
  dc_exceeded : forall e, decided = Ok (OTemporaryStorageExceeded e) -> scalars e
}.

Lemma supervise_decides l ticks r pid decided r' :
  prepared_run r -> Forall tick_ok ticks -> supervise io l ticks r = Some ((pid, decided), r') ->
  exists started frames, decided_as l (sv_run_id r) started frames pid decided r'.
Proof.
  intros Hprep Hticks. pose proof (prepared_open r Hprep) as Hopen. pose proof Hprep as (Hok & Hid & Hl & Hterm & Hpub & Hch & Hrd & Hq).
  unfold supervise. destruct (la_cancelled l).
  { intros [= <- <- <-]. exists [], []. constructor; [done| |done]. intros o [= <-]. by left. }
  destruct (la_spawned l) as [p|] eqn:Esp; [|intros [= <- <- <-]; exists [], []; by constructor].
  destruct (i32_max <? p); [intros [= <- <- <-]; exists [], []; constructor; [|done|done]|].
  { destruct Hopen as ([H0 H1 H2 H3 H4 H5 H6 H7] & [K1 K2 K3 K4] & _). by split; [constructor|split; [constructor|]]. }
  assert (Hr1 : forall r1, start_reader l (adopted r) = Ok r1 ->
    run_ok r1 /\ sp_run_id (sv_spool r1) = sv_run_id r /\ log r1 = [] /\ sp_terminal (sv_spool r1) = false /\ sv_published r1 = [] /\ sv_run_id r1 = sv_run_id r).
  { intros r1. unfold start_reader. destruct Hok as [K1 K2 K3 K4]. destruct (la_capture l); [destruct (la_reader_starts l); [|done]|];
      intros [= <-]; split_and!; done || by constructor. }
  destruct (start_reader l (adopted r)) as [r1|e] eqn:Esr.
  2: { intros [= <- <- <-]. exists [], []. constructor; [|done|done].
       destruct Hopen as ([H0 H1 H2 H3 H4 H5 H6 H7] & [K1 K2 K3 K4] & _). by split; [constructor|split; [constructor|]]. }
  destruct (Hr1 r1 eq_refl) as (Hok1 & Hid1 & Hl1 & Ht1 & Hp1 & Hrun1). clear Hr1.
  destruct (append_event io Started Authoritative _ r1) as [answer r2] eqn:Ea.
  apply append_event_cases in Ea as ((Hrun & _ & _ & Hsr) & Hqq & _ & Hpp & Hcases).
  assert (Hok2 : forall es, log r2 = es -> sequenced es -> run_ok r2).
  { intros es <- Hes. destruct Hok1 as [K1 K2 K3 K4]. constructor; rewrite ?Hrun, ?Hqq; done. }
  destruct Hcases as [([err ->] & Hl2 & Ht2)|(e & Hk & Hpay & Hsq & Hl2 & Ht2 & _ & Ha)].
  { intros [= <- <- <-]. exists [], []. constructor; [|done|done]. rewrite Hl1 in Hl2. split_and!; [|by eapply Hok2|congruence].
    constructor; rewrite ?Hl2; try done; [congruence|by left|by left|by rewrite Ht2|]. rewrite Hpp, Hp1. set_solver. }
  rewrite Hl1 in Hl2, Hsq. cbn [app] in Hl2.
  assert (Hes : sequenced [e]) by (apply (sequenced_snoc []); done).
  assert (Hopen2 : open_log (sv_run_id r) [e] [] r2).
  { split_and!; [|by eapply Hok2|congruence]. constructor; rewrite ?Hl2; try done; [congruence|by right; exists e, p|by left|].
    rewrite Hpp, Hp1. set_solver. }
  destruct Ha as [->| ->].
  2: { intros [= <- <- <-]. exists [e], []. by constructor. }
  intros Hloop. apply bind_Some in Hloop as ([d r3] & Hloop & [= <- <- <-]).
  destruct Hopen2 as ([H0 H1 H2 H3 H4 H5 H6 H7] & [K1 K2 K3 K4] & Hr2).
  assert (Hopen3 : open_log (sv_run_id r) [e] [] (observe (ev_sequence e) r2)) by (by split; [constructor|split; [constructor|]]).
  destruct (loop_streams io ticks _ _ _ Hticks (proj1 (proj2 Hopen3)) Hloop) as [Hs Hx].
  destruct (open_log_streams _ _ _ _ _ Hopen3 Hs) as [frames Hopen4]. exists [e], frames. constructor; [done| |done].
  intros o _. right. exists p, e. done.
Qed.

(** The end of an attempt, whatever came before. *)
Lemma finish_ends t o exceeded run_id started frames r answer r' :
  teardown_ok t -> (forall e, exceeded = Some e -> scalars e) -> open_log run_id started frames r ->
  finish io t (terminal_payload o) exceeded r = (answer, r') ->
  exists frames' ended, attempt_log run_id started frames' ended r' /\
    forall f, answer = Ok f -> exists e, ended = [e] /\ fi_status f = status (sv_spool r') /\ sv_observed r' = ev_sequence e /\
      ev_payload e = terminal_payload (match fi_final_exceedance f with Some x => OTemporaryStorageExceeded x | None => o end).
Proof.
  intros Ht Hx Hopen. unfold finish. pose proof (drain_streams io t r Ht (proj1 (proj2 Hopen))) as Hd.
  destruct (open_log_streams _ _ _ _ _ Hopen Hd) as [frames1 Hopen1]. set (r1 := drain_progress io t r) in *.
  set (reconciliation := if sv_child r1 then td_reconciliation t else Ok None).
  set (final := final_temporary_storage_exceedance exceeded (ok reconciliation ≫= id)).
  assert (Hrec : forall x y, ok reconciliation ≫= id = Some (x, y) -> scalars y /\ forall e, x = Some e -> scalars e).
  { intros x y. unfold reconciliation. destruct (sv_child r1); [|done].
    destruct (td_reconciliation t) as [[[a b]|]|] eqn:E; cbn; [|done..]. intros [= <- <-]. by apply (tdo_reconciled t Ht). }
  assert (Hfx : forall e, final = Some e -> scalars e).
  { intros e. unfold final, final_temporary_storage_exceedance. destruct exceeded as [e'|]; [intros [= <-]; by apply Hx|].
    destruct (ok reconciliation ≫= id) as [[x y]|]; [|done]. cbn. intros ->. by apply (Hrec (Some e) y). }
  cbv zeta. destruct (match final with Some _ => _ | None => _ end) as [readback r2] eqn:E2.
  assert (Hs2 : streamed r1 r2).
  { destruct final as [e|] eqn:Ef; [|injection E2 as _ <-; apply streamed_refl].
    rewrite <- (f_equal snd E2 : snd _ = r2). apply exceedance_streams; [by apply Hfx| |by apply (tdo_watch t Ht)].
    intros rb. destruct (ok reconciliation ≫= id) as [[x y]|] eqn:Er; [intros [= <-]; by destruct (Hrec x y eq_refl)|].
    destruct (sv_child r1); [|done]. by apply (tdo_observed t Ht). }
  destruct (open_log_streams _ _ _ _ _ Hopen1 Hs2) as [frames2 ([H0 H1 H2 H3 _ H5 H6 H7] & Hok2 & Hr2)].
  unfold append_canonical_terminal. destruct (append_event io Terminal Authoritative _ r2) as [ans r3] eqn:Ea.
  apply append_event_cases in Ea as ((Hrun & _ & _ & Hsr) & _ & _ & Hpp & Hcases). rewrite app_nil_r in H1.
  destruct Hcases as [([err ->] & Hl3 & Ht3)|(e & Hk & Hpay & Hsq & Hl3 & Ht3 & _ & Ha)].
  { intros [= <- <-]. exists frames2, []. split; [|done]. constructor; rewrite ?app_nil_r, ?Hl3, ?Hpp, ?Ht3; done || congruence || by left. }
  assert (Hpay' : exists o', ev_payload e = terminal_payload o' /\
    (is_ok reconciliation = true -> o' = match final with Some x => OTemporaryStorageExceeded x | None => o end)).
  { rewrite Hpay. unfold terminal_payload_after_reconciliation. destruct (is_ok reconciliation); cbn [negb orb].
    - destruct final as [x|]; cbn [is_some]; [by exists (OTemporaryStorageExceeded x)|by exists o].
    - by exists OLaunchRefused. }
  destruct Hpay' as (o' & Hpay' & Ho').
  assert (Hal : attempt_log run_id started frames2 [e] r3).
  { constructor; rewrite ?Hl3, ?Hpp, ?Ht3; try done.
    - congruence.
    - by rewrite H1, app_assoc.
    - right. exists e, o'. done.
    - by apply sequenced_snoc. }
  destruct Ha as [->| ->].
  - intros [= <- <-]. exists frames2, [e]. split; [destruct Hal; by constructor|]. intros f Hf.
    destruct (td_tree_drained t); [|done]. destruct (td_disposed t); [|done]. cbn [mbind result_bind map_err] in Hf.
    destruct reconciliation as [n|]; [|done]. cbn [map_err] in Hf. injection Hf as <-. exists e. cbn. split_and!; try done.
    rewrite Hpay', Ho' by done. done.
  - intros [= <- <-]. exists frames2, [e]. split; [done|]. done.
Qed.
End Report.

Lemma prepare_prepared `{HashFunction} run_id plan_encodes containment s r :
  spool_ok s -> prepare run_id plan_encodes containment s = Ok r -> prepared_run r /\ sv_run_id r = run_id /\ sv_spool r = s.
Proof.
  intros Hs. unfold prepare. case_bool_decide as Er; cbn [negb]; [|done]. cbn in Er.
  destruct ((su_last_sequence (status s) =? 0)) eqn:El; [|done]. destruct (is_terminal s) eqn:Et; [done|]. cbn [negb orb].
  destruct plan_encodes; [|done]. cbn [negb]. destruct (run_id_new run_id) as [run|] eqn:Eid; [|done].
  pose proof (run_id_new_same _ _ Eid) as ->. cbn [map_err mbind result_bind]. destruct containment; [|done]. cbn [negb].
  intros [= <-]. split; [|done]. destruct Hs as [H1 H2 H3 H4 H5 H6]. apply parse_events_sound, chain_sequences in H2.
  assert (Hnil : sp_events s = []).
  { bool_prop. cbn in El. rewrite (sequenced_last (sp_events s) H2) in El. destruct (sp_events s); [done|].
    rewrite len_cons in El. pose proof (len_nonneg l). lia. }
  split_and!; try done. constructor; try done; cbn.
  subst run_id. rewrite forallb_forall. rewrite Forall_forall in H1. intros c Hc. by apply H1, list_elem_of_In.
Qed.

(** What an attempt leaves, from a run that was prepared. *)
Lemma executed_log `{HashFunction} io l ticks t r0 answer r :
  prepared_run r0 -> Forall tick_ok ticks -> teardown_ok t -> execute io l ticks t r0 = Some (answer, r) ->
  exists started frames ended, attempt_log (sv_run_id r0) started frames ended r /\
    forall report, answer = Ok report -> exists e, ended = [e] /\
      ev_payload e = terminal_payload (er_outcome report) /\
      er_status report = mkStatus (sv_run_id r0) (outcome_state (er_outcome report)) (sv_observed r) /\
      sv_observed r = len (log r) /\
      match er_supervised_pid report with
      | Some pid => la_spawned l = Some pid /\ exists s, started = [s] /\ ev_payload s = STARTED_PAYLOAD_PREFIX ++ dec pid
      | None => started = []
      end.
Proof.
  intros Hprep Hticks Ht. unfold execute.
  destruct (supervise io l ticks r0) as [[[pid decided] r1]|] eqn:E; [|done]. cbn [mbind option_bind].
  destruct (supervise_decides io l ticks r0 pid decided r1 Hprep Hticks E) as (started & frames & [Hopen Hout Hex]).
  set (o := match decided with Ok outcome => outcome | Err _ => OLaunchRefused end).
  assert (match decided with Ok outcome => terminal_payload outcome | Err _ => TERMINAL_FAILED end = terminal_payload o) as ->
    by (by destruct decided).
  destruct (finish io t (terminal_payload o) _ r1) as [finished r2] eqn:Ef. intros [= <- <-].
  apply (finish_ends io t o _ (sv_run_id r0) started frames) in Ef as (frames' & ended & Hal & Hf); [|done| |done].
  2: { intros e He. apply Hex. by destruct decided as [[]|]; try done; injection He as ->. }
  exists started, frames', ended. split; [done|]. intros report Hrep. destruct decided as [outcome|]; [|done].
  destruct finished as [f|]; [|done]. cbn [mbind result_bind] in Hrep. injection Hrep as <-. cbn [er_outcome er_status er_supervised_pid].
  destruct (Hf f eq_refl) as (e & -> & Hst & Hobs & Hpay). exists e.
  destruct Hal as [H0 H1 H2 H3 H4 H5 H6 H7]. destruct H4 as [|(e' & o' & [= <-] & Hk & _)]; [done|].
  pose proof (sequenced_last _ H6) as Hlast. unfold last_sequence in Hlast. rewrite H1, app_assoc, last_snoc, <- app_assoc, <- H1 in Hlast.
  split_and!; [done|exact Hpay| |congruence|].
  - rewrite Hst. unfold status. f_equal.
    + done.
    + fold (log r2). rewrite H1, app_assoc. erewrite state_of_outcome; [reflexivity|done|exact Hpay].
    + fold (log r2). rewrite sequenced_last by done. congruence.
  - destruct (Hout outcome eq_refl) as [(-> & _ & ->)|(p & e1 & -> & Hsp1 & -> & He1)]; [done|]. split; [done|]. by exists e1.
Qed.

(** A report of a cancelled attempt comes of a token that was found set. *)
Lemma cancelled_was_asked `{HashFunction} io l ticks t r0 report r :
  execute io l ticks t r0 = Some (Ok report, r) -> er_outcome report = OCancelled ->
  la_cancelled l = true \/ Exists (fun k => tk_cancelled k = true) ticks.
Proof.
  unfold execute. destruct (supervise io l ticks r0) as [[[pid decided] r1]|] eqn:E; [|done]. cbn [mbind option_bind].
  destruct (finish io t _ _ r1) as [finished r2]. destruct decided as [outcome|]; [|done].
  destruct finished as [f|]; [|done]. cbn [mbind result_bind]. intros [= <- <-] Ho. cbn [er_outcome] in Ho.
  destruct (fi_final_exceedance f); [done|]. subst outcome. unfold supervise in E.
  destruct (la_cancelled l); [by left|right]. destruct (la_spawned l) as [p|]; [|done]. destruct (i32_max <? p); [done|].
  destruct (start_reader l (adopted r0)) as [r3|]; [|done]. destruct (append_event io Started Authoritative _ r3) as [[e|] r4]; [|done].
  apply bind_Some in E as ([d r5] & E & [= _ -> _]). clear -E. revert E. generalize (observe (ev_sequence e) r4) as r. clear.
  induction ticks as [|k ticks IH]; intros r; cbn [supervision_loop]; [done|].
  destruct (turn io k r) as [[d|] r1] eqn:Et; [|intros E; right; by eapply IH].
  intros [= -> ->]. left. unfold turn in Et. destruct (tk_wait k) as [exited|]; [|done].
  destruct (tk_checkpoint k) as [[]|]; [|done|]; destruct (tk_exceedance k); try done;
    (destruct exited as [st|]; [unfold outcome_from_status in Et; repeat case_match; done|];
     destruct (tk_cancelled k); [done|]; by destruct (tk_deadline k)).
Qed.

(** C28: a report is what the log says.  However an attempt goes, on any disk,
    clock and schedule, its log ends as the one event that names the process it
    started, if it did, then frames of its own run each stored at the sequence it
    names, then at most one terminal event, and every frame that was published
    is in it.  When the attempt answers a report, the terminal event is there
    with the spelling of the reported outcome, a process was started exactly when
    the report names one, and the log recovers the reported state at the
    sequence that was observed. *)
Theorem reports_match_the_log `{HashFunction} io run_id plan_encodes containment s r0 l ticks t answer r :
  spool_ok s -> prepare run_id plan_encodes containment s = Ok r0 ->
  Forall tick_ok ticks -> teardown_ok t -> execute io l ticks t r0 = Some (answer, r) ->
  exists started frames ended, attempt_log run_id started frames ended r /\
    forall report, answer = Ok report -> exists e, ended = [e] /\
      ev_payload e = terminal_payload (er_outcome report) /\
      er_status report = mkStatus run_id (outcome_state (er_outcome report)) (sv_observed r) /\
      sv_observed r = len (log r) /\
      match er_supervised_pid report with
      | Some pid => la_spawned l = Some pid /\ exists s, started = [s] /\ ev_payload s = STARTED_PAYLOAD_PREFIX ++ dec pid
      | None => started = []
      end.
Proof.
  intros Hs Hp Hticks Ht E. destruct (prepare_prepared _ _ _ _ _ Hs Hp) as (Hprep & <- & _).
  by apply (executed_log io l ticks t).
Qed.

(** * What every step of an attempt keeps *)

(** A property of the log and of the adopted process that appends keep is kept by
    everything that streams. *)
Section Kept.
Context `{HashFunction} (io : nat -> AppendIo) (P : SupervisedRun -> Prop).
Context (P_fields : forall r r', sv_spool r' = sv_spool r -> sv_child r' = sv_child r -> P r -> P r').
Context (P_append : forall kind a payload r, P r -> P (snd (append_event io kind a payload r))).

Lemma append_frame_keeps frame r : P r -> P (snd (append_frame io frame r)).
Proof.
  intros Hr. unfold append_frame. destruct (frame_payload io frame r) as [payload|]; [|done].
  pose proof (P_append AdapterEvent (spool_authority (cf_authority frame)) payload r Hr) as Ha.
  destruct (append_event _ _ _ _ _) as [[e|] r1]; cbn [snd] in *; [|done].
  eapply P_fields; [..|exact Ha]; unfold publish; by destruct (sv_publishing (observe _ _)).
Qed.

Lemma stop_progress_keeps r : P r -> P (stop_progress io r).
Proof.
  intros Hr. unfold stop_progress. destruct (sv_stopped r); [done|]. assert (P (stopped r)) by (by eapply P_fields; [..|exact Hr]).
  destruct budget_warning_body; [|done]. destruct (_ <? _); [by apply append_frame_keeps|done].
Qed.

Lemma persist_progress_keeps frames : forall r, P r -> P (persist_progress io frames r).
Proof.
  induction frames as [|frame frames IH]; intros r Hr; cbn [persist_progress]; [done|].
  destruct (sv_stopped r); [done|]. destruct (_ <=? _); [by apply stop_progress_keeps|].
  destruct (_ && _); [by apply stop_progress_keeps|]. pose proof (append_frame_keeps frame r Hr) as Ha.
  destruct (append_frame io frame r) as [[] r']; [by apply IH|by apply stop_progress_keeps].
Qed.

Lemma with_queue_keeps queue r : P r -> P (with_queue queue r).
Proof. by apply P_fields. Qed.

Lemma poll_keeps budget : forall r, P r -> P (poll_batches io budget r).
Proof.
  induction budget as [|budget IH]; intros r Hr; cbn [poll_batches]; [done|]. destruct (sv_queue r); [done|].
  by apply IH, persist_progress_keeps, with_queue_keeps.
Qed.

Lemma turn_keeps t r : P r -> P (snd (turn io t r)).
Proof.
  intros Hr. unfold turn. destruct (tk_wait t); [|done].
  assert (forall q, P (poll_progress io (with_queue q r))) as Hp by (intros; by apply poll_keeps, with_queue_keeps).
  repeat case_match; cbn [snd]; apply Hp.
Qed.

Lemma loop_keeps ticks : forall r d r', supervision_loop io ticks r = Some (d, r') -> P r -> P r'.
Proof.
  induction ticks as [|t ticks IH]; intros r d r'; cbn [supervision_loop]; [done|]. pose proof (turn_keeps t r) as Ht.
  destruct (turn io t r) as [[e|] r1]; cbn [snd] in Ht; [intros [= <- <-]; done|]. eauto.
Qed.

Lemma drain_keeps t r : P r -> P (drain_progress io t r).
Proof.
  intros Hr. unfold drain_progress. destruct (sv_reader r); [|done]. apply (with_queue_keeps []) in Hr. revert Hr.
  generalize (with_queue [] r). induction (take _ _) as [|frames batches IH]; intros r0 Hr; cbn [foldl]; [done|].
  by apply IH, persist_progress_keeps.
Qed.

Lemma exceedance_keeps e final watch r : P r -> P (snd (record_temporary_storage_exceedance io e final watch r)).
Proof.
  intros Hr. unfold record_temporary_storage_exceedance. destruct (match final with Some _ => _ | None => _ end); [|done].
  cbn [snd]. destruct (temporary_storage_exceeded_frame e r0); [|done]. destruct (_ <? _); [by apply append_frame_keeps|done].
Qed.
End Kept.

(** * Progress decides nothing *)

Definition mute (t : Tick) : Tick :=
  mkTick (tk_wait t) [] (tk_checkpoint t) (tk_exceedance t) (tk_cancelled t) (tk_deadline t).

Definition mute_teardown (t : Teardown) : Teardown :=
  mkTeardown (td_tree_drained t) [] 0 (td_observed_readback t) (td_reconciliation t) (td_watch t) (td_disposed t).

Section Decisions.
Context `{HashFunction} (io : nat -> AppendIo).

(** What one turn decides, whatever has arrived. *)
Definition decision (t : Tick) : option (result BackendError ExecutionOutcome) :=
  match tk_wait t with
  | Err _ => Some (Err WaitFailed)
  | Ok exited =>
      match tk_checkpoint t with
      | Some false => Some (Err TemporaryStorageFailed)
      | _ =>
          match tk_exceedance t with
          | Some exceedance => Some (Ok (OTemporaryStorageExceeded exceedance))
          | None =>
              match exited with
              | Some status => Some (Ok (outcome_from_status status))
              | None =>
                  if tk_cancelled t then Some (Ok OCancelled)
                  else if tk_deadline t then Some (Ok OTimedOut)
                  else None
              end
          end
      end
  end.

Lemma turn_decision t r : fst (turn io t r) = decision t.
Proof. unfold turn, decision. by repeat case_match. Qed.

(** The first decision of the turns. *)
Fixpoint first_decision (ticks : list Tick) : option (result BackendError ExecutionOutcome) :=
  match ticks with
  | [] => None
  | t :: ticks => match decision t with Some decided => Some decided | None => first_decision ticks end
  end.

Lemma loop_decision ticks : forall r, fst <$> supervision_loop io ticks r = first_decision ticks.
Proof.
  induction ticks as [|t ticks IH]; intros r; cbn [supervision_loop first_decision]; [done|].
  pose proof (turn_decision t r) as Ht. destruct (turn io t r) as [[d|] r1]; cbn [fst] in Ht; rewrite <- Ht; [done|apply IH].
Qed.

Lemma first_decision_mute ticks : first_decision (mute <$> ticks) = first_decision ticks.
Proof. induction ticks as [|t ticks IH]; [done|]. cbn. by rewrite IH. Qed.

(** The decision of the whole supervision. *)
Lemma supervise_decision l ticks r :
  fst <$> supervise io l (mute <$> ticks) r = fst <$> supervise io l ticks r.
Proof.
  unfold supervise. destruct (la_cancelled l); [done|]. destruct (la_spawned l) as [pid|]; [|done].
  destruct (i32_max <? pid); [done|]. destruct (start_reader l (adopted r)) as [r1|]; [|done].
  destruct (append_event io Started Authoritative _ r1) as [[e|] r2]; [|done].
  pose proof (loop_decision ticks (observe (ev_sequence e) r2)) as H1.
  pose proof (loop_decision (mute <$> ticks) (observe (ev_sequence e) r2)) as H2. rewrite first_decision_mute, <- H1 in H2.
  destruct (supervision_loop io ticks _) as [[d r3]|], (supervision_loop io (mute <$> ticks) _) as [[d' r3']|];
    cbn in *; congruence.
Qed.

(** No step adopts a process or lets one go. *)
Lemma append_event_child child kind a payload r :
  sv_child r = child -> sv_child (snd (append_event io kind a payload r)) = child.
Proof. intros <-. unfold append_event. by destruct (append _ _ _ _ _ _ _). Qed.

Lemma loop_child ticks r d r' : supervision_loop io ticks r = Some (d, r') -> sv_child r' = sv_child r.
Proof.
  intros Hl. apply (loop_keeps io (fun r' => sv_child r' = sv_child r)) in Hl; [done|congruence|by apply append_event_child|done].
Qed.

Lemma drain_child t r : sv_child (drain_progress io t r) = sv_child r.
Proof. apply (drain_keeps io (fun r' => sv_child r' = sv_child r)); [congruence|by apply append_event_child|done]. Qed.

(** What the teardown answers, once the terminal event is recorded. *)
Lemma finish_answer t payload exceeded r f r' :
  finish io t payload exceeded r = (Ok f, r') ->
  let reconciliation := if sv_child r then td_reconciliation t else Ok None in
  let reconciled := ok reconciliation ≫= id in
  fi_final_exceedance f = final_temporary_storage_exceedance exceeded reconciled /\
  fi_namespaced f = reconciled.
Proof.
  unfold finish. rewrite drain_child. set (reconciliation := if sv_child r then td_reconciliation t else Ok None).
  cbv zeta. destruct (match final_temporary_storage_exceedance _ _ with Some _ => _ | None => _ end) as [rb r2].
  destruct (append_canonical_terminal io _ r2) as [recorded r3]. intros [= E _].
  destruct recorded; [|done]. destruct (td_tree_drained t); [|done]. destruct (td_disposed t); [|done].
  destruct reconciliation as [n|]; [|done]. injection E as <-. done.
Qed.
End Decisions.

Lemma supervise_child `{HashFunction} io l ticks ticks' r x x' :
  supervise io l ticks r = Some x -> supervise io l ticks' r = Some x' -> sv_child x.2 = sv_child x'.2.
Proof.
  unfold supervise. destruct (la_cancelled l); [by intros [= <-] [= <-]|].
  destruct (la_spawned l) as [pid|]; [|by intros [= <-] [= <-]].
  destruct (i32_max <? pid); [by intros [= <-] [= <-]|]. destruct (start_reader l (adopted r)) as [r1|]; [|by intros [= <-] [= <-]].
  destruct (append_event io Started Authoritative _ r1) as [[e|] r2]; [|by intros [= <-] [= <-]].
  intros E1 E2. apply bind_Some in E1 as ([d r3] & E1 & [= <-]), E2 as ([d' r3'] & E2 & [= <-]). cbn.
  apply loop_child in E1, E2. congruence.
Qed.

(** C30: progress decides nothing.  Whatever frames arrive, during supervision
    and after it, the attempt ends at the same turn with the same decision as one
    that streams nothing, and when both answer a report it is the same outcome of
    the same process: streaming costs an attempt no more than its log's room. *)
Theorem progress_decides_nothing `{HashFunction} io l ticks t r :
  fst <$> supervise io l (mute <$> ticks) r = fst <$> supervise io l ticks r /\
  forall report report' r1 r2,
    execute io l ticks t r = Some (Ok report, r1) ->
    execute io l (mute <$> ticks) (mute_teardown t) r = Some (Ok report', r2) ->
    er_outcome report = er_outcome report' /\ er_supervised_pid report = er_supervised_pid report' /\
    er_namespaced report = er_namespaced report'.
Proof.
  pose proof (supervise_decision io l ticks r) as Hd. split; [done|]. intros report report' r1 r2. unfold execute.
  destruct (supervise io l ticks r) as [[[pid d] s1]|] eqn:E1; [|done].
  destruct (supervise io l (mute <$> ticks) r) as [[[pid' d'] s2]|] eqn:E2; [|done]. injection Hd as -> ->.
  pose proof (supervise_child io l _ _ r _ _ E1 E2) as Hc. cbn [snd] in Hc. cbn [mbind option_bind].
  destruct d as [o|]; [|by destruct (finish io t _ _ s1)].
  destruct (finish io t _ _ s1) as [[f|] x1] eqn:F1; [|done]. intros [= <- _].
  destruct (finish io (mute_teardown t) _ _ s2) as [[f'|] x2] eqn:F2; [|done]. intros [= <- _].
  apply finish_answer in F1 as [X1 N1], F2 as [X2 N2]. cbn [td_reconciliation mute_teardown] in *. rewrite Hc in *.
  cbn [er_outcome er_supervised_pid er_namespaced]. split_and!; [|done|congruence].
  by rewrite X1, X2.
Qed.

(** An attempt ends.  As soon as one turn finds the process gone, the token
    set, the deadline passed, the temporary storage exceeded or the supervisor
    unable to go on, the attempt is over: the first such turn decides it, later
    turns change nothing, and whether it is over never depends on what was
    streamed. *)
Theorem attempt_ends `{HashFunction} io l ticks t r :
  Exists (fun k => tk_wait k <> Ok None \/ tk_checkpoint k = Some false \/ is_Some (tk_exceedance k) \/
            tk_cancelled k = true \/ tk_deadline k = true) ticks ->
  exists answer r', execute io l ticks t r = Some (answer, r') /\
    forall later, execute io l (ticks ++ later) t r = Some (answer, r').
Proof.
  intros Hex. assert (Hl : forall r, exists d r', supervision_loop io ticks r = Some (d, r') /\
    forall later, supervision_loop io (ticks ++ later) r = Some (d, r')).
  { induction ticks as [|k ticks IH]; [by apply Exists_nil in Hex|]. intros r0. cbn [supervision_loop app].
    pose proof (turn_decision io k r0) as Hk. destruct (turn io k r0) as [[d|] r1] eqn:E; cbn [fst] in Hk; [by eexists _, _|].
    apply Exists_cons in Hex as [Hex|Hex]; [|by apply IH]. exfalso. unfold decision in Hk.
    destruct (tk_wait k) as [[st|]|]; [|destruct (tk_checkpoint k) as [[]|], (tk_exceedance k), (tk_cancelled k), (tk_deadline k); try done; naive_solver|done].
    by destruct (tk_checkpoint k) as [[]|], (tk_exceedance k). }
  assert (Hs : exists x, supervise io l ticks r = Some x /\ forall later, supervise io l (ticks ++ later) r = Some x).
  { unfold supervise. destruct (la_cancelled l); [by eexists|]. destruct (la_spawned l) as [pid|]; [|by eexists].
    destruct (i32_max <? pid); [by eexists|]. destruct (start_reader l (adopted r)) as [r1|]; [|by eexists].
    destruct (append_event io Started Authoritative _ r1) as [[e|] r2]; [|by eexists].
    destruct (Hl (observe (ev_sequence e) r2)) as (d & r3 & E & Hlater). eexists. split; [by rewrite E|].
    intros later. by rewrite Hlater. }
  destruct Hs as ([[pid d] r1] & E & Hlater). unfold execute. rewrite E. cbn [mbind option_bind].
  destruct (finish io t _ _ r1) as [finished r2] eqn:Ef. eexists _, _. split; [done|]. intros later.
  rewrite Hlater. cbn [mbind option_bind]. by rewrite Ef.
Qed.

(** * Room for the end *)

(** The disk and the clock do what they are asked. *)
Definition disk_ok (io : nat -> AppendIo) : Prop :=
  forall n, ai_write (io n) = Wrote /\ ai_status (io n) = StatusReplaced /\ exists at_millis, ai_elapsed (io n) = Some at_millis /\ in_u64 at_millis.

(** What an open log's sizes keep to. *)
Record sized (s : Spool) : Prop := mkSized {
  sz_events : len (sp_events s) <= sp_bytes s;
  sz_bytes : sp_bytes s <= sp_max_bytes s <= u64_max;
  sz_digest : length (last_digest (sp_events s)) = 32%nat /\ bytes_ok (last_digest (sp_events s));
  sz_run_id : forallb is_scalar (sp_run_id s) = true /\ run_id_new (sp_run_id s) = Ok (sp_run_id s)
}.

Lemma str_len_hex d : bytes_ok d -> str_len (hex d) = 2 * len d.
Proof.
  intros Hd. unfold str_len. rewrite hex_ascii by done. unfold len.
  assert (length (hex d) = (2 * length d)%nat) as -> by apply to_hex_length. lia.
Qed.

(** A line takes at most 1024 bytes and two for every byte of its payload. *)
Lemma line_length e previous :
  forallb is_scalar (ev_run_id e) = true -> run_id_new (ev_run_id e) = Ok (ev_run_id e) ->
  in_u64 (ev_sequence e) -> in_u64 (ev_at_millis e) -> bytes_ok (ev_payload e) ->
  bytes_ok previous -> length previous = 32%nat -> bytes_ok (ev_digest e) -> length (ev_digest e) = 32%nat ->
  len (encode_event e previous) <= 1024 + 2 * len (ev_payload e).
Proof.
  intros Hs Hr Hq Ha Hp Hb Hl Hd Hdl. change (len (encode_event e previous)) with (str_len (line_text e previous ++ [10])).
  unfold line_text. rewrite !str_len_app.
  assert (Hrun : str_len (ev_run_id e) <= 256).
  { unfold run_id_new, opaque_id_new in Hr. apply bind_Ok in Hr as ([] & Hr & _). by apply bounded_value_Ok in Hr as (_ & _ & ? & _). }
  rewrite !str_len_hex by (done || apply utf8_bytes_ok, Forall_forall; rewrite forallb_forall in Hs; intros; apply Hs; by apply list_elem_of_In).
  pose proof (dec_length _ Hq). pose proof (dec_length _ Ha). fold (str_len (ev_run_id e)).
  assert (str_len (kind_as_str (ev_kind e)) <= 16) by (by destruct (ev_kind e)).
  assert (str_len (authority_as_str (ev_authority e)) <= 13) by (by destruct (ev_authority e)).
  assert (len previous = 32) as -> by (unfold len; lia). assert (len (ev_digest e) = 32) as -> by (unfold len; lia).
  repeat match goal with |- context [str_len (quoted ?s)] => let n := eval vm_compute in (str_len (quoted s)) in
    change (str_len (quoted s)) with n end.
  change (str_len [10]) with 1. change (len (utf8 (ev_run_id e))) with (str_len (ev_run_id e)). lia.
Qed.

(** On a good disk an append fits and is made, or does not and changes nothing. *)
Lemma append_at_outcome `{HashFunction} kind a payload at_millis s :
  0 <= sp_bytes s -> sp_max_bytes s <= u64_max -> sp_terminal s = false ->
  append_fits kind a payload at_millis s /\
    (exists e s', append_at kind a payload at_millis Wrote StatusReplaced s = (Ok e, s') /\
       remaining_bytes s' = Z.max 0 (remaining_bytes s - len (appended_bytes kind a payload at_millis s)) /\
       sp_terminal s' = bool_decide (kind = Terminal)) \/
  ~ append_fits kind a payload at_millis s /\ append_at kind a payload at_millis Wrote StatusReplaced s = (Err LimitExceeded, s).
Proof.
  intros Hb Hm Ht. unfold append_fits, append_at. rewrite Ht. pose proof (len_nonneg (sp_events s)).
  destruct (Z.ltb_spec MAX_EVENT_PAYLOAD_BYTES (len payload)); [right; split; [|done]; lia|].
  destruct (check_u64 (len (sp_events s) + 1)) as [sequence|] eqn:Es.
  2: { right. split; [|done]. intros (_ & _ & Hn & _). unfold check_u64 in Es.
       rewrite !(proj2 (Z.leb_le _ _)) in Es by (widths; lia). done. }
  apply check_u64_Some in Es as [-> Hsq]. cbv zeta. fold (appended kind a payload at_millis s).
  change (encode_event _ (last_digest (sp_events s))) with (appended_bytes kind a payload at_millis s).
  pose proof (len_nonneg (appended_bytes kind a payload at_millis s)).
  destruct (check_u64 (sp_bytes s + _)) as [bytes|] eqn:Eb.
  2: { right. split; [|done]. intros (_ & _ & _ & Hn). unfold check_u64 in Eb.
       rewrite !(proj2 (Z.leb_le _ _)) in Eb by lia. done. }
  apply check_u64_Some in Eb as [-> _].
  destruct (Z.ltb_spec (sp_max_bytes s) (sp_bytes s + len (appended_bytes kind a payload at_millis s))); [right; split; [|done]; lia|].
  left. unfold in_u64 in Hsq. split; [split_and!; [done|done|lia|lia]|]. eexists _, _. split; [done|]. split; [|done].
  unfold remaining_bytes. cbn [sp_max_bytes sp_bytes]. lia.
Qed.

Section Room.
Context `{Sha256Laws} (io : nat -> AppendIo) (disk : disk_ok io).

Lemma append_sized kind a payload r answer r' :
  sized (sv_spool r) -> append_event io kind a payload r = (answer, r') -> sized (sv_spool r').
Proof.
  intros [H1 H2 H3 H4] E. unfold append_event in E. destruct (append _ _ _ _ _ _ (sv_spool r)) as [ans s] eqn:Ea.
  injection E as <- <-. cbn [sv_spool with_spool]. unfold append in Ea.
  destruct (ai_elapsed _ ≫= check_u64) as [at_millis|]; [|by injection Ea as <- <-].
  destruct (append_at_cases kind a payload at_millis (ai_write (io (sv_appends r))) (ai_status (io (sv_appends r))) (sv_spool r)
    ltac:(pose proof (len_nonneg (sp_events (sv_spool r))); lia) ltac:(lia)) as [[Hfit Hw]|(err & Hr & _)]; rewrite Ea in *; cbn [fst snd] in *.
  2: { injection Hr as -> ->. done. }
  destruct (ai_write _) as [|n]; [|by injection Hw as -> ->].
  destruct Hw as (st & Hst & _). apply write_status_same in Hst as (E1 & _ & E3 & E4 & E5 & _).
  cbn [sp_run_id sp_events sp_bytes sp_max_bytes] in *. destruct Hfit as (_ & _ & _ & Hsz).
  assert (1 <= len (appended_bytes kind a payload at_millis (sv_spool r))).
  { unfold appended_bytes, encode_event. rewrite utf8_app, len_app. change (len (utf8 [10])) with 1.
    pose proof (len_nonneg (utf8 (line_text (appended kind a payload at_millis (sv_spool r)) (last_digest (sp_events (sv_spool r)))))). lia. }
  constructor; rewrite ?E1, ?E3, ?E4, ?E5; [rewrite len_app; change (len [_]) with 1; lia|lia| |done].
  unfold last_digest. rewrite last_snoc. unfold appended, chained_digest. cbn [ev_digest]. apply sha256_bytes.
Qed.

(** With a kilobyte and the payload's share left, an append is recorded. *)
Lemma append_with_room kind a payload r answer r' :
  sized (sv_spool r) -> sp_terminal (sv_spool r) = false -> bytes_ok payload -> len payload <= MAX_EVENT_PAYLOAD_BYTES ->
  append_event io kind a payload r = (answer, r') ->
  if 1024 + 2 * len payload <=? remaining_bytes (sv_spool r)
  then is_ok answer = true /\ sp_terminal (sv_spool r') = bool_decide (kind = Terminal) /\
    remaining_bytes (sv_spool r) - (1024 + 2 * len payload) <= remaining_bytes (sv_spool r')
  else is_ok answer = true /\ sp_terminal (sv_spool r') = bool_decide (kind = Terminal) \/
    answer = Err LimitExceeded /\ sv_spool r' = sv_spool r.
Proof.
  intros [H1 H2 [H3 H3'] [H4 H4']] Ht Hp Hpl E. unfold append_event in E. destruct (append _ _ _ _ _ _ (sv_spool r)) as [ans s] eqn:Ea.
  injection E as <- <-. cbn [sv_spool with_spool]. unfold append in Ea.
  destruct (disk (sv_appends r)) as (Hw & Hs & at_millis & Hat & Hr). rewrite Hat, Hw, Hs in Ea. cbn [mbind option_bind] in Ea.
  rewrite (proj2 (check_u64_Some at_millis at_millis)) in Ea by done. pose proof (len_nonneg (sp_events (sv_spool r))).
  pose proof (line_length (appended kind a payload at_millis (sv_spool r)) (last_digest (sp_events (sv_spool r)))) as Hll.
  cbn [appended ev_run_id ev_sequence ev_at_millis ev_payload ev_digest] in Hll.
  fold (appended_bytes kind a payload at_millis (sv_spool r)) in Hll.
  assert (Hfits : 1024 + 2 * len payload <= remaining_bytes (sv_spool r) -> append_fits kind a payload at_millis (sv_spool r)).
  { unfold remaining_bytes. intros Hroom. pose proof (len_nonneg payload). split_and!; [done|done|lia|].
    enough (len (appended_bytes kind a payload at_millis (sv_spool r)) <= 1024 + 2 * len payload) by lia.
    apply Hll; try done; [unfold in_u64; lia|apply sha256_bytes..]. }
  destruct (append_at_outcome kind a payload at_millis (sv_spool r) ltac:(lia) ltac:(lia) Ht) as [[Hfit Hw']|[Hfit Hr']]; rewrite Ea in *.
  - destruct Hw' as (e & s' & [= -> ->] & Hrem & Hterm). assert (Hn : len (sp_events (sv_spool r)) + 1 <= u64_max) by apply Hfit.
    case_match; [split_and!; [done|done|]|by left].
    enough (len (appended_bytes kind a payload at_millis (sv_spool r)) <= 1024 + 2 * len payload) by lia.
    apply Hll; try done; [unfold in_u64; lia|apply sha256_bytes..].
  - injection Hr' as -> ->. destruct (Z.leb_spec (1024 + 2 * len payload) (remaining_bytes (sv_spool r))); [by exfalso; auto|by right].
Qed.
End Room.

Lemma prepare_sized `{HashFunction} run_id plan_encodes containment s r :
  spool_ok s -> prepare run_id plan_encodes containment s = Ok r -> sized s.
Proof.
  intros Hs Hp. destruct (prepare_prepared _ _ _ _ _ Hs Hp) as ((Hok & Hid & Hl & _) & Hrun & Hsp).
  unfold log in Hl. rewrite Hsp in *. destruct Hs as [_ _ _ H4 H5 _]. destruct Hok as [K1 K2 _ _]. constructor.
  - rewrite Hl, H4. apply len_nonneg.
  - done.
  - rewrite Hl. split; [done|]. by apply (Forall_replicate (fun b => is_byte b = true) 32 0).
  - by rewrite Hid.
Qed.

(** Whether a frame is appended, the log is no nearer its end. *)
Lemma append_frame_terminal `{HashFunction} io frame r : sp_terminal (sv_spool (snd (append_frame io frame r))) = sp_terminal (sv_spool r).
Proof.
  unfold append_frame. destruct (frame_payload io frame r) as [payload|]; [|done].
  destruct (append_event _ _ _ _ _) as [answer r1] eqn:E. apply append_event_cases in E as (_ & _ & _ & _ & Hcases).
  assert (sp_terminal (sv_spool r1) = sp_terminal (sv_spool r)).
  { destruct Hcases as [(_ & _ & ->)|(e & _ & _ & _ & _ & -> & -> & _)]; done. }
  destruct answer; cbn [snd]; [|done]. unfold publish. by destruct (sv_publishing (observe _ _)).
Qed.

Lemma exceedance_terminal `{HashFunction} io e final watch r :
  sp_terminal (sv_spool (snd (record_temporary_storage_exceedance io e final watch r))) = sp_terminal (sv_spool r).
Proof.
  unfold record_temporary_storage_exceedance. destruct (match final with Some _ => _ | None => _ end); [|done]. cbn [snd].
  destruct (temporary_storage_exceeded_frame e _); [|done]. destruct (_ <? _); [apply append_frame_terminal|done].
Qed.

Section End.
Context `{Sha256Laws} (io : nat -> AppendIo) (disk : disk_ok io).

Lemma append_keeps_sized kind a payload r : sized (sv_spool r) -> sized (sv_spool (snd (append_event io kind a payload r))).
Proof. intros Hs. destruct (append_event io kind a payload r) as [ans r'] eqn:E. by eapply append_sized. Qed.

Lemma sized_fields r r' : sv_spool r' = sv_spool r -> sv_child r' = sv_child r -> sized (sv_spool r) -> sized (sv_spool r').
Proof. by intros ->. Qed.

Lemma supervise_sized l ticks r x : supervise io l ticks r = Some x -> sized (sv_spool r) -> sized (sv_spool x.2).
Proof.
  unfold supervise. intros E Hs. destruct (la_cancelled l); [by injection E as <-|].
  destruct (la_spawned l) as [pid|]; [|by injection E as <-]. destruct (i32_max <? pid); [by injection E as <-|].
  destruct (start_reader l (adopted r)) as [r1|] eqn:Er; [|by injection E as <-].
  assert (Hs1 : sized (sv_spool r1)).
  { unfold start_reader in Er. destruct (la_capture l); [destruct (la_reader_starts l); [|done]|]; by injection Er as <-. }
  pose proof (append_keeps_sized Started Authoritative (STARTED_PAYLOAD_PREFIX ++ dec pid) r1 Hs1) as Hs2.
  destruct (append_event io Started Authoritative _ r1) as [[e|] r2]; [|by injection E as <-].
  apply bind_Some in E as ([d r3] & E & [= <-]). cbn [snd].
  eapply (loop_keeps io (fun r => sized (sv_spool r))); [apply sized_fields|apply append_keeps_sized|exact E|done].
Qed.

Lemma terminal_payload_short o : bytes_ok (terminal_payload o) /\ len (terminal_payload o) <= 9.
Proof. destruct o; (split; [vm_compute; repeat constructor|done]). Qed.

(** The terminal event of a teardown, once everything else is in the log. *)
Lemma finish_records t o exceeded r answer r' :
  teardown_ok t -> (forall e, exceeded = Some e -> scalars e) -> run_ok r -> sized (sv_spool r) ->
  sp_terminal (sv_spool r) = false -> finish io t (terminal_payload o) exceeded r = (answer, r') ->
  sp_terminal (sv_spool r') = true \/
  remaining_bytes (sv_spool r') < PROGRESS_TERMINAL_RESERVE_BYTES /\ is_ok answer = false.
Proof.
  intros Ht Hx Hok Hs Hterm. unfold finish. pose proof (drain_streams io t r Ht Hok) as [(_ & Hch & _) Hdt _ _].
  pose proof (drain_keeps io (fun r => sized (sv_spool r)) sized_fields append_keeps_sized t r Hs) as Hs1.
  set (r1 := drain_progress io t r) in *. rewrite Hterm in Hdt.
  set (reconciliation := if sv_child r1 then td_reconciliation t else Ok None).
  set (final := final_temporary_storage_exceedance exceeded (ok reconciliation ≫= id)).
  cbv zeta. destruct (match final with Some _ => _ | None => _ end) as [readback r2] eqn:E2.
  assert (Hr2 : sized (sv_spool r2) /\ sp_terminal (sv_spool r2) = false).
  { destruct final as [e|]; [|injection E2 as _ <-; done]. rewrite <- (f_equal snd E2 : snd _ = r2).
    split; [by apply (exceedance_keeps io (fun r => sized (sv_spool r)) sized_fields append_keeps_sized)|].
    by rewrite exceedance_terminal. }
  destruct Hr2 as [Hs2 Ht2]. unfold append_canonical_terminal.
  assert (Hpay : exists o', terminal_payload_after_reconciliation (terminal_payload o) (negb (is_ok reconciliation)) (is_some final) = terminal_payload o').
  { unfold terminal_payload_after_reconciliation. destruct (_ || _); [by exists OLaunchRefused|by exists o]. }
  destruct Hpay as [o' ->]. destruct (terminal_payload_short o') as [Hb Hl].
  destruct (append_event io Terminal Authoritative _ r2) as [ans r3] eqn:Ea.
  apply append_with_room in Ea; [|done..|unfold MAX_EVENT_PAYLOAD_BYTES; lia].
  destruct (Z.leb_spec (1024 + 2 * len (terminal_payload o')) (remaining_bytes (sv_spool r2))) as [Hroom|Hroom].
  - destruct Ea as (Ha & Ht3 & _). destruct ans; [|done]. intros [= _ <-]. by left.
  - destruct Ea as [[Ha Ht3]|[-> Hs3]]; [destruct ans; [|done]; intros [= _ <-]; by left|].
    intros [= <- <-]. right. rewrite Hs3. split; [unfold PROGRESS_TERMINAL_RESERVE_BYTES; lia|done].
Qed.
End End.

(** * An attempt that streams nothing *)

Section Silent.
Context `{Sha256Laws} (io : nat -> AppendIo) (disk : disk_ok io).

Lemma loop_silent ticks : forall r d r',
  sv_reader r = false -> sv_queue r = [] -> Forall (fun k => tk_exceedance k = None) ticks ->
  supervision_loop io ticks r = Some (d, r') ->
  sv_reader r' = false /\ sv_queue r' = [] /\ sv_spool r' = sv_spool r /\ forall e, d <> Ok (OTemporaryStorageExceeded e).
Proof.
  induction ticks as [|t ticks IH]; intros r d r' Hr Hq Ht; cbn [supervision_loop]; [done|].
  apply Forall_cons in Ht as [Hx Ht]. unfold turn. destruct (tk_wait t) as [exited|]; [|by intros [= <- <-]].
  rewrite Hr, Hq. cbn [app]. change (poll_progress io (with_queue [] r)) with (with_queue [] r).
  destruct (tk_checkpoint t) as [[]|]; [|by intros [= <- <-]|]; rewrite Hx;
    (destruct exited as [st|]; [intros [= <- <-]; split_and!; try done; intros e; unfold outcome_from_status; by repeat case_match|];
     destruct (tk_cancelled t); [by intros [= <- <-]|]; destruct (tk_deadline t); [by intros [= <- <-]|];
     intros Hl; destruct (IH (with_queue [] r) _ _ Hr eq_refl Ht Hl) as (K1 & K2 & K3 & K4); by rewrite K3).
Qed.

(** Two kilobytes are left for the end of a supervision that streamed nothing. *)
Lemma supervise_silent l ticks r pid d r' :
  prepared_run r -> sized (sv_spool r) -> la_capture l = None -> (forall p, la_spawned l = Some p -> 0 <= p) ->
  Forall (fun k => tk_exceedance k = None) ticks ->
  2 * PROGRESS_TERMINAL_RESERVE_BYTES <= remaining_bytes (sv_spool r) ->
  supervise io l ticks r = Some ((pid, d), r') ->
  sv_reader r' = false /\ PROGRESS_TERMINAL_RESERVE_BYTES <= remaining_bytes (sv_spool r') /\
  sp_terminal (sv_spool r') = false /\ forall e, d <> Ok (OTemporaryStorageExceeded e).
Proof.
  unfold PROGRESS_TERMINAL_RESERVE_BYTES. intros (_ & _ & _ & Hterm & _ & _ & Hrd & Hq) Hs Hcap Hpid Hticks Hroom. unfold supervise.
  destruct (la_cancelled l); [intros [= <- <- <-]; split_and!; [done|lia|done..]|].
  destruct (la_spawned l) as [p|]; [|intros [= <- <- <-]; split_and!; [done|lia|done..]]. specialize (Hpid p eq_refl).
  destruct (Z.ltb_spec i32_max p) as [|Hp]; [intros [= <- <- <-]; split_and!; [done|cbn [sv_spool adopted]; lia|done..]|].
  unfold start_reader. rewrite Hcap. destruct (append_event io Started _ _ _) as [ans r2] eqn:Ea.
  assert (Hlen : bytes_ok (STARTED_PAYLOAD_PREFIX ++ dec p) /\ len (STARTED_PAYLOAD_PREFIX ++ dec p) <= 39).
  { assert (in_u64 p) as Hu by (unfold i32_max in *; widths; lia). pose proof (dec_length p Hu) as Hd. split.
    - apply Forall_app. split; [vm_compute; repeat constructor|]. eapply Forall_impl; [by apply dec_chars|]. cbn. intros c Hc. unfold is_byte. bool_prop. lia.
    - rewrite len_app. change (len STARTED_PAYLOAD_PREFIX) with 19. rewrite str_len_ascii in Hd by (eapply (range_ascii 48 57); [lia|lia|by apply dec_chars]). lia. }
  destruct Hlen as [Hb Hl].
  pose proof (append_event_cases io _ _ _ _ _ _ Ea) as ((_ & _ & Hrd2 & _) & Hq2 & _). cbn [adopted sv_reader sv_queue] in Hrd2, Hq2.
  pose proof (append_with_room io disk Started Authoritative _ (adopted r) ans r2 Hs Hterm Hb ltac:(etrans; [exact Hl|done]) Ea) as Hc.
  cbn [adopted sv_spool] in Hc. rewrite (proj2 (Z.leb_le _ _)) in Hc by lia. destruct Hc as (Ha & Ht2 & Hrem).
  destruct ans as [e|]; [|done]. intros Hloop. apply bind_Some in Hloop as ([d' r3] & Hloop & [= <- <- <-]).
  destruct (loop_silent ticks (observe (ev_sequence e) r2) _ _ ltac:(cbn; congruence) ltac:(cbn; congruence) Hticks Hloop) as (K1 & K2 & K3 & K4).
  rewrite K3. cbn [sv_spool observe]. split_and!; [done|lia|done|done].
Qed.

Lemma finish_silent t payload r answer r' :
  sv_reader r = false -> (forall e readback, td_reconciliation t <> Ok (Some (Some e, readback))) ->
  finish io t payload None r = (answer, r') ->
  exists payload' ans, payload' ∈ [payload; TERMINAL_FAILED] /\ append_canonical_terminal io payload' r = (ans, r').
Proof.
  intros Hr Hx. unfold finish, drain_progress. rewrite Hr. cbv zeta.
  set (reconciliation := if sv_child r then td_reconciliation t else Ok None).
  assert (Hn : final_temporary_storage_exceedance None (ok reconciliation ≫= id) = None).
  { unfold reconciliation. destruct (sv_child r); [|done]. destruct (td_reconciliation t) as [[[[e|] rb]|]|]; try done. by destruct (Hx e rb). }
  rewrite Hn. destruct (append_canonical_terminal io _ r) as [ans r3] eqn:E. intros [= _ <-].
  eexists _, ans. split; [|exact E]. unfold terminal_payload_after_reconciliation. destruct (_ || _); set_solver.
Qed.
End Silent.

(** C29: an attempt that ends is recorded as ended, room allowing.  On a disk and
    a clock that work, every attempt that is over left its terminal event in the
    log, however it went, unless less than the reserve of a terminal line was
    left, in which case it answers an error.  An attempt that streams nothing and
    meets no exceedance always leaves it when its budget held twice the reserve. *)
Theorem an_end_is_recorded `{Sha256Laws} io run_id plan_encodes containment s r0 l ticks t answer r :
  disk_ok io -> spool_ok s -> prepare run_id plan_encodes containment s = Ok r0 ->
  Forall tick_ok ticks -> teardown_ok t -> execute io l ticks t r0 = Some (answer, r) ->
  (sp_terminal (sv_spool r) = true \/
   remaining_bytes (sv_spool r) < PROGRESS_TERMINAL_RESERVE_BYTES /\ is_ok answer = false) /\
  (la_capture l = None -> (forall p, la_spawned l = Some p -> 0 <= p) ->
   Forall (fun k => tk_exceedance k = None) ticks ->
   (forall e readback, td_reconciliation t <> Ok (Some (Some e, readback))) ->
   2 * PROGRESS_TERMINAL_RESERVE_BYTES <= remaining_bytes s -> sp_terminal (sv_spool r) = true).
Proof.
  intros Hdisk Hs Hp Hticks Ht. pose proof (prepare_sized _ _ _ _ _ Hs Hp) as Hsz.
  destruct (prepare_prepared _ _ _ _ _ Hs Hp) as (Hprep & <- & <-). unfold execute.
  destruct (supervise io l ticks r0) as [[[pid decided] r1]|] eqn:E; [|done]. cbn [mbind option_bind].
  pose proof (supervise_sized io _ _ _ _ E Hsz) as Hs1. cbn [snd] in Hs1.
  destruct (supervise_decides io l ticks r0 pid decided r1 Hprep Hticks E) as (started & frames & [Hopen Hout Hex]).
  pose proof Hopen as (Hlog & Hok1 & _). pose proof (al_terminal _ _ _ _ _ Hlog) as Ht1. cbn in Ht1.
  set (o := match decided with Ok outcome => outcome | Err _ => OLaunchRefused end).
  assert (match decided with Ok outcome => terminal_payload outcome | Err _ => TERMINAL_FAILED end = terminal_payload o) as ->
    by (by destruct decided).
  destruct (finish io t (terminal_payload o) _ r1) as [finished r2] eqn:Ef. intros [= <- <-]. split.
  - assert (Hx : forall e, match decided with Ok (OTemporaryStorageExceeded exceedance) => Some exceedance | _ => None end = Some e -> scalars e).
    { intros e He. apply Hex. by destruct decided as [[]|]; try done; injection He as ->. }
    destruct (finish_records io Hdisk t o _ r1 finished r2 Ht Hx Hok1 Hs1 Ht1 Ef) as [Hterm|[Hrem Ha]]; [by left|right]. split; [done|]. destruct finished; [done|]. by destruct decided.
  - intros Hcap Hpid Hx Hrec Hroom.
    destruct (supervise_silent io Hdisk l ticks r0 pid decided r1 Hprep Hsz Hcap Hpid Hx Hroom E) as (Hrd & Hrem & _ & Hno).
    assert (match decided with Ok (OTemporaryStorageExceeded exceedance) => Some exceedance | _ => None end = None) as Hn.
    { destruct decided as [[]|]; try done. by destruct (Hno exceedance). }
    rewrite Hn in Ef. destruct (finish_silent io Hdisk t _ r1 finished r2 Hrd Hrec Ef) as (payload & ans & Hpay & Ea).
    assert (exists o', payload = terminal_payload o') as [o' ->].
    { apply elem_of_cons in Hpay as [->|Hpay]; [by exists o|]. apply list_elem_of_singleton in Hpay as ->. by exists OLaunchRefused. }
    destruct (terminal_payload_short o') as [Hb Hl]. unfold append_canonical_terminal in Ea.
    destruct (append_event io Terminal Authoritative _ r1) as [an r3] eqn:Eb.
    pose proof (append_with_room io Hdisk _ _ _ _ _ _ Hs1 Ht1 Hb ltac:(etrans; [exact Hl|done]) Eb) as Hc.
    unfold PROGRESS_TERMINAL_RESERVE_BYTES in Hrem. rewrite (proj2 (Z.leb_le _ _)) in Hc by lia.
    destruct Hc as (Ha & Ht3 & _). destruct an; [|done]. by injection Ea as _ <-.
Qed.

(** * Concrete attempts *)

Definition good_disk : nat -> AppendIo := fun _ => mkAppendIo (Some 0) (Some 0) Wrote StatusReplaced.

Lemma good_disk_ok : disk_ok good_disk.
Proof. intros n. split_and!; [done|done|]. exists 0. split; [done|widths; lia]. Qed.

(** A log of run [run-1] that may grow to [max_bytes]. *)
Definition demo_attempt_log (max_bytes : Z) : Spool := mkSpool (str "run-1") [] [] 0 max_bytes false None.

Lemma demo_attempt_log_ok max_bytes : in_u64 max_bytes -> @spool_ok toy_hash (demo_attempt_log max_bytes).
Proof.
  intros Hm. constructor; cbn; [|done|by left|done|widths; lia|done].
  apply ascii_scalar. by repeat constructor.
Qed.

(** A warning of [n] characters, sent as [authority]. *)
Definition demo_frame (authority : Events.Authority) (n : nat) : list CapturedFrame :=
  match warning_body (replicate n 97) with
  | Some body => [mkCaptured authority ProviderWarning body]
  | None => []
  end.

Lemma demo_frame_ok authority n : Forall captured_ok (demo_frame authority n).
Proof.
  unfold demo_frame. destruct (warning_body (replicate n 97)) as [body|] eqn:E; [|done]. constructor; [|done].
  unfold captured_ok. cbn. eapply warning_body_ok; [|exact E]. rewrite forallb_forall. intros c Hc.
  apply list_elem_of_In, elem_of_replicate in Hc as [-> _]. done.
Qed.

Definition demo_launch : Launch := mkLaunch false (Some 7) (Some true) true.

(** One turn that finds the process running and one that finds it gone. *)
Definition demo_ticks (n : nat) : list Tick :=
  [mkTick (Ok None) [demo_frame Events.Authoritative n] None None false false;
   mkTick (Ok (Some (mkExit (Some 0) None))) [] None None false false].

Lemma demo_ticks_ok n : Forall tick_ok (demo_ticks n).
Proof.
  constructor; [|constructor; [split; done|done]]. split; [|done]. constructor; [apply demo_frame_ok|done].
Qed.

Definition demo_teardown : Teardown := mkTeardown true [demo_frame Events.Synthetic 5] 1 None (Ok None) None true.

Lemma demo_teardown_ok : teardown_ok demo_teardown.
Proof. constructor; try done. apply Forall_cons. split; [apply demo_frame_ok|done]. Qed.

Definition demo_prepared (max_bytes : Z) : SupervisedRun :=
  mkRun (str "run-1") (demo_attempt_log max_bytes) false false [] false [] false 0 0.

Abbreviation demo_attempt max_bytes n :=
  (@execute toy_hash good_disk demo_launch (demo_ticks n) demo_teardown (demo_prepared max_bytes)).

(** The reserve is tested before a frame is appended, not after: an authoritative
    frame that fits can leave too little for the terminal line, and an attempt
    that ended well then answers an error and leaves a log that says running. *)
Example a_frame_spends_the_reserve :
  match demo_attempt 3300 1000 with
  | Some (answer, r) =>
      answer = Err (SpoolFailed LimitExceeded) /\ sp_terminal (sv_spool r) = false /\
      status (sv_spool r) = mkStatus (str "run-1") Running 2
  | None => False
  end.
Proof. vm_compute. done. Qed.

Lemma reports_match_the_log_witness :
  exists answer r started frames ended, demo_attempt 100000 100 = Some (answer, r) /\ is_ok answer = true /\
    @attempt_log (str "run-1") started frames ended r.
Proof.
  assert (H : exists answer r, demo_attempt 100000 100 = Some (answer, r) /\ is_ok answer = true).
  { eexists _, _. split; [vm_compute; reflexivity|reflexivity]. }
  destruct H as (answer & r & E & Hok).
  destruct (@reports_match_the_log toy_hash good_disk (str "run-1") true true (demo_attempt_log 100000) (demo_prepared 100000)
    demo_launch (demo_ticks 100) demo_teardown answer r (demo_attempt_log_ok 100000 ltac:(widths; lia)) ltac:(by vm_compute)
    (demo_ticks_ok 100) demo_teardown_ok E) as (started & frames & ended & Hlog & _).
  exists answer, r, started, frames, ended. exact (conj E (conj Hok Hlog)).
Defined.

Lemma attempt_ends_witness :
  exists answer r, demo_attempt 100000 100 = Some (answer, r).
Proof.
  destruct (@attempt_ends toy_hash good_disk demo_launch (demo_ticks 100) demo_teardown (demo_prepared 100000)) as (answer & r & E & _).
  { apply Exists_cons_tl, Exists_cons_hd. left. discriminate. }
  exists answer, r. exact E.
Defined.

Lemma an_end_is_recorded_witness :
  exists answer r, demo_attempt 100000 100 = Some (answer, r) /\
    (sp_terminal (sv_spool r) = true \/
     remaining_bytes (sv_spool r) < PROGRESS_TERMINAL_RESERVE_BYTES /\ is_ok answer = false).
Proof.
  assert (H : exists answer r, demo_attempt 100000 100 = Some (answer, r)) by (eexists _, _; vm_compute; reflexivity).
  destruct H as (answer & r & E). exists answer, r. split; [exact E|].
  apply (@an_end_is_recorded toy_hash toy_hash_laws good_disk (str "run-1") true true (demo_attempt_log 100000) (demo_prepared 100000)
    demo_launch (demo_ticks 100) demo_teardown answer r good_disk_ok (demo_attempt_log_ok 100000 ltac:(widths; lia))
    ltac:(by vm_compute) (demo_ticks_ok 100) demo_teardown_ok E).
Defined.
