(* ===== verification/AttemptHost.v ===== *)
(** The daemon's attempt host: [automonique-daemon/src/attempt_host.rs], with the
    one sink its workers register, [TokenCancelSink] of
    [automonique-daemon/src/execute.rs].

    The host is the dispatcher of [CancelDispatch] over the durable custody; the
    tokens a sink sets are part of the world its deliveries change.  The path of
    the ledger and the opening of its file are inputs. *)

From S2P Require Import Prelude Text Table CancelLedger CancelDispatch.

Definition MAX_ATTEMPT_REGISTRATIONS : Z := MAX_REGISTRATIONS.

Inductive AttemptHostError :=
| LedgerUnavailable (category : string)
| InvalidAttemptId
| DuplicateAttempt
| HostUnknownAttempt
| RegistrationLimit
| HostPoisoned.

Definition host_category (e : AttemptHostError) : string :=
  match e with
  | LedgerUnavailable category => category
  | InvalidAttemptId => "attempt_host_invalid_attempt_id"
  | DuplicateAttempt => "attempt_host_duplicate_attempt"
  | HostUnknownAttempt => "attempt_host_unknown_attempt"
  | RegistrationLimit => "attempt_host_registration_limit"
  | HostPoisoned => "attempt_host_poisoned"
  end.

Definition from_dispatch (e : DispatchError) : AttemptHostError :=
  match e with
  | ErrInvalidIdentifier => InvalidAttemptId
  | ErrDuplicateAttempt => DuplicateAttempt
  | ErrUnknownAttempt => HostUnknownAttempt
  | ErrRegistrationLimit => RegistrationLimit
  | ErrPoisoned => HostPoisoned
  end.

Definition ledger_category (e : CancelLedgerError) : string :=
  match e with
  | InsecurePath _ => "attempt_host_ledger_insecure_path"
  | SchemaVersion _ _ => "attempt_host_ledger_schema_version"
  | InvalidField _ => "attempt_host_ledger_invalid_field"
  | Corrupt _ => "attempt_host_ledger_corrupt"
  | Io => "attempt_host_ledger_io"
  | Sqlite => "attempt_host_ledger_sqlite"
  | Conflict _ _ _ | LedgerFull _ | InFlight => "attempt_host_ledger_unavailable"
  end.

(** * The sink of a worker *)

(** [ts_token] is the cancellation token the backend polls, by a number of its own. *)
Record TokenCancelSink := mkTokenSink { ts_attempt_id : list Z; ts_token : nat }.

(** What deliveries change: the custody, and the tokens set, one entry for each
    delivery. *)
Record Hosted := mkHosted { hs_custody : StoreCancelCustody; hs_tokens : list nat }.

Definition token_deliver (sink : TokenCancelSink) (attempt_id _ : list Z) (w : Hosted)
  : option (result CancelSinkError CancelDelivery) * Hosted :=
  if negb (bool_decide (attempt_id = ts_attempt_id sink)) then (Some (Err SinkErrUnavailable), w)
  else (Some (Ok Accepted), mkHosted (hs_custody w) (hs_tokens w ++ [ts_token sink])).

#[export] Instance TokenCancelSink_sink : CancelSink TokenCancelSink Hosted := token_deliver.

Definition in_custody {A} (f : StoreCancelCustody -> A * StoreCancelCustody) (w : Hosted) : A * Hosted :=
  let '(answer, s) := f (hs_custody w) in (answer, mkHosted s (hs_tokens w)).

#[export] Instance Hosted_custody `{RandomRowid} : CancelCustody Hosted := {
  classify := fun claim => in_custody (classify claim);
  custody_record := fun claim => in_custody (custody_record claim);
  custody_abandon := fun claim => in_custody (custody_abandon claim)
}.

(** * The host *)

Record DaemonAttemptHost := mkAttemptHost { ah_dispatcher : DispatchState TokenCancelSink; ah_world : Hosted }.

Definition with_dispatcher (d : DispatchState TokenCancelSink) (h : DaemonAttemptHost) : DaemonAttemptHost :=
  mkAttemptHost d (ah_world h).

(** The rows of the file an opened ledger is on. *)
Definition ledger_rows (db : Database) : Rows :=
  match cancel_requests db with Some (TableV2 rows) => rows | _ => [] end.

Definition host_open (secured secured_again : Ledgered unit) (opened : Ledgered Database) (elapsed : option Z)
  : result AttemptHostError DaemonAttemptHost :=
  '(capacity, db) ← map_err (fun e => LedgerUnavailable (ledger_category e))
                      (CancelLedger.open secured secured_again opened);
  Ok (mkAttemptHost dispatcher_new (mkHosted (custody_new capacity (ledger_rows db) elapsed) [])).

Definition registration_capacity (h : DaemonAttemptHost) : Z := dispatch_capacity (ah_dispatcher h).

Definition host_registration_count (h : DaemonAttemptHost) : result AttemptHostError Z :=
  map_err from_dispatch (registration_count (ah_dispatcher h)).

Definition host_registered_attempts (h : DaemonAttemptHost) : result AttemptHostError (list (list Z)) :=
  map_err from_dispatch (registered_attempts (ah_dispatcher h)).

Definition host_register (attempt_id : list Z) (sink : TokenCancelSink) (h : DaemonAttemptHost)
  : result AttemptHostError RegistrationHandle * DaemonAttemptHost :=
  let '(answer, d) := register attempt_id sink (ah_dispatcher h) in
  (map_err from_dispatch answer, with_dispatcher d h).

(** A registration handle of this host is dropped. *)
Definition host_drop (handle : RegistrationHandle) (h : DaemonAttemptHost) : DaemonAttemptHost :=
  match handle_drop handle (Some (ah_dispatcher h)) with
  | Some d => with_dispatcher d h
  | None => h
  end.

Section Host.
Context `{RandomRowid}.

(** [None]: a sink's panic unwinds through the call. *)
Definition host_cancel (attempt_id request_ref : list Z) (observed_sequence : Z) (h : DaemonAttemptHost)
  : option DispatchOutcome * DaemonAttemptHost :=
  let '(outcome, d, w) := cancel attempt_id request_ref observed_sequence (ah_dispatcher h) (ah_world h) in
  (outcome, mkAttemptHost d w).

Definition set_rows (rows : Rows) (h : DaemonAttemptHost) : DaemonAttemptHost :=
  mkAttemptHost (ah_dispatcher h) (mkHosted (with_rows (hs_custody (ah_world h)) rows) (hs_tokens (ah_world h))).

(** The ledger is opened again: [reopened] is whether that succeeds. *)
Definition prune_terminal_attempt (attempt_id : list Z) (reopened : Ledgered unit) (h : DaemonAttemptHost)
  : result AttemptHostError PruneOutcome * DaemonAttemptHost :=
  match reopened with
  | Err e => (Err (LedgerUnavailable (ledger_category e)), h)
  | Ok _ =>
      let '(answer, rows) := prune (mkRetention i64_max [attempt_id]) (sc_rows (hs_custody (ah_world h))) in
      (map_err (fun e => LedgerUnavailable (ledger_category e)) answer, set_rows rows h)
  end.

Definition dispose (h : DaemonAttemptHost) : result AttemptHostError unit :=
  _ ← host_registration_count h; Ok tt.

(** * What the host does to its registrations *)

Definition registered_at (attempt_id : list Z) (h : DaemonAttemptHost) : option (Registration TokenCancelSink) :=
  registrations (ah_dispatcher h) !! attempt_id.

Definition tokens_set (h : DaemonAttemptHost) : list nat := hs_tokens (ah_world h).

Definition healthy (h : DaemonAttemptHost) : Prop := poisoned (ah_dispatcher h) = false.

(** A cancellation leaves the registrations alone, and sets the token of the sink
    that is registered for the attempt when it answers that it delivered; a token
    is set in no other way.  An unknown attempt is one that is not registered. *)
Lemma host_cancel_exact attempt_id request_ref observed_sequence h answer h' :
  host_cancel attempt_id request_ref observed_sequence h = (answer, h') ->
  ah_dispatcher h' = ah_dispatcher h /\ is_Some answer /\
  (tokens_set h' = tokens_set h /\ answer <> Some OutDelivered /\ (answer = Some UnknownAttempt -> registered_at attempt_id h = None) \/
   exists r, registered_at attempt_id h = Some r /\ ts_attempt_id (reg_sink r) = attempt_id /\
     tokens_set h' = tokens_set h ++ [ts_token (reg_sink r)]).
Proof.
  unfold host_cancel, cancel, dispatch, tokens_set, registered_at.
  destruct (negb _ || negb _); [intros [= <- <-]; by split_and!; [..|left]|].
  destruct (poisoned _); [intros [= <- <-]; by split_and!; [..|left]|].
  destruct (registrations (ah_dispatcher h) !! attempt_id) as [r|]; [|intros [= <- <-]; by split_and!; [..|left]].
  destruct (classify _ (ah_world h)) as [verdict w1] eqn:E1. cbn in E1. unfold in_custody in E1.
  destruct (store_classify _ (hs_custody (ah_world h))) as [v s1]. injection E1 as <- <-.
  assert (Hother : forall o, o <> OutDelivered -> o <> UnknownAttempt ->
    (let '(outcome, d, w) := (Some o, ah_dispatcher h, mkHosted s1 (hs_tokens (ah_world h))) in (outcome, mkAttemptHost d w)) = (answer, h') ->
    ah_dispatcher h' = ah_dispatcher h /\ is_Some answer /\
    (hs_tokens (ah_world h') = hs_tokens (ah_world h) /\ answer <> Some OutDelivered /\ (answer = Some UnknownAttempt -> Some r = None) \/
     exists r0, Some r = Some r0 /\ ts_attempt_id (reg_sink r0) = attempt_id /\
       hs_tokens (ah_world h') = hs_tokens (ah_world h) ++ [ts_token (reg_sink r0)])).
  { intros o Ho Hu [= <- <-]. split_and!; [done|done|]. left. split_and!; [done|congruence|congruence]. }
  destruct v as [[]|failure]; [|by apply Hother..|apply Hother; by destruct failure].
  unfold deliver, TokenCancelSink_sink, token_deliver. case_bool_decide as Ea; cbn [negb].
  - destruct (custody_record _ _) as [a w2] eqn:E2. cbn in E2. unfold in_custody in E2. cbn [hs_custody hs_tokens] in E2.
    destruct (store_record _ s1) as [a' s2]. injection E2 as <- <-. intros [= <- <-]. split_and!; [done|done|]. right.
    exists r. by split_and!.
  - destruct (custody_abandon _ _) as [a w2] eqn:E2. cbn in E2. unfold in_custody in E2. cbn [hs_custody hs_tokens] in E2.
    destruct (store_abandon _ s1) as [a' s2]. injection E2 as <- <-. intros [= <- <-]. split_and!; [done|done|]. left.
    split_and!; [done|..]; by destruct a' as [|[]].
Qed.
End Host.

Lemma host_register_exact attempt_id sink h answer h' :
  healthy h -> host_register attempt_id sink h = (answer, h') ->
  healthy h' /\ tokens_set h' = tokens_set h /\
  match answer with
  | Ok handle =>
      is_identifier attempt_id = true /\ hd_attempt_id handle = attempt_id /\ registered_at attempt_id h = None /\
      registrations (ah_dispatcher h') = <[attempt_id := mkRegistration (hd_epoch handle) sink]> (registrations (ah_dispatcher h))
  | Err _ => h' = h
  end.
Proof.
  unfold healthy, host_register, register, registered_at. intros Hp. rewrite Hp. destruct h as [d w]; cbn [ah_dispatcher] in *.
  destruct (is_identifier attempt_id); [|by intros [= <- <-]]. cbn [negb].
  destruct (registrations d !! attempt_id); [by intros [= <- <-]|].
  destruct (_ <=? _); intros [= <- <-]; [done|]. by split_and!.
Qed.

Lemma host_drop_exact handle h r :
  healthy h -> registered_at (hd_attempt_id handle) h = Some r -> reg_epoch r = hd_epoch handle ->
  healthy (host_drop handle h) /\ ah_world (host_drop handle h) = ah_world h /\
  registrations (ah_dispatcher (host_drop handle h)) = delete (hd_attempt_id handle) (registrations (ah_dispatcher h)).
Proof.
  unfold healthy, registered_at, host_drop, handle_drop, handle_release, release.
  intros Hp Hr He. rewrite Hp, Hr, He, Z.eqb_refl. done.
Qed.

Lemma prune_terminal_exact `{RandomRowid} attempt_id reopened h answer h' :
  prune_terminal_attempt attempt_id reopened h = (answer, h') ->
  ah_dispatcher h' = ah_dispatcher h /\ tokens_set h' = tokens_set h.
Proof. unfold prune_terminal_attempt. destruct reopened; [|by intros [= <- <-]]. destruct (prune _ _). by intros [= <- <-]. Qed.
