(* ===== verification/ExecutionLane.v ===== *)
(** The daemon's execution lane: [automonique-daemon/src/execute.rs], and
    [start_run], [attempt_id_for] and [cancel_run] of
    [automonique-daemon/src/lib.rs].

    The serve thread starts and cancels attempts; each attempt has a worker that
    runs it and reports to the run index.  Everything they share is one [Daemon],
    and every transaction and every critical section is a step of its own, so the
    workers and the serve thread interleave as they do.  What the host answers
    when an attempt is prepared is a [Gates]; what happens while it runs the
    inputs of [Backend.execute].  Attempts of the session mode (JCode), the broker,
    the managed sessions and the structured log are left out, and so is a daemon
    whose attempt host did not open.  No mutex of the lane is ever poisoned: nothing
    panics while it holds one. *)

From S2P Require Import Prelude Text Codec Values Table RowMap AppendTable Digest AuditStore Spool CancelLedger.
From S2P Require Import CancelDispatch AttemptHost Approval ApprovalConfig ApprovalRequests ApprovalLane.
From S2P Require Import RunSubmissions RunIndex Events Progress Backend.

Definition MAX_LIVE_ATTEMPTS : nat := 8.
Definition MAX_RUN_ID_BYTES : Z := 64.

Abbreviation Refusable A := (result ExecuteRefusal A).

Definition is_containment_run_id (run_id : list Z) : bool :=
  negb (bool_decide (run_id = [])) && (str_len run_id <=? MAX_RUN_ID_BYTES)
  && forallb (fun byte => is_ascii_alphanumeric byte || (byte =? 45) || (byte =? 95)) (utf8 run_id).

Definition registration_refusal (e : AttemptHostError) : ExecuteRefusal :=
  match e with
  | DuplicateAttempt => AlreadyExecuting
  | RegistrationLimit => LaneSaturated
  | InvalidAttemptId => AdmissionRefused
  | LedgerUnavailable _ | HostUnknownAttempt | HostPoisoned => ExecutionUnavailable
  end.

(** Of the admission's refusals only one is the host's. *)
Inductive AdmissionRefusal := TemporaryStorageUnenforceable | RefusedOtherwise.

Definition admission_refusal (refusal : AdmissionRefusal) : ExecuteRefusal :=
  match refusal with
  | TemporaryStorageUnenforceable => SandboxUnenforceable
  | RefusedOtherwise => AdmissionRefused
  end.

Definition spool_state (s : RunState) : RunSpoolState :=
  match s with
  | Spool.Ready => Ready
  | Spool.Running => Running
  | Spool.Completed => Completed
  | Spool.Failed => Failed
  | Spool.Cancelled => Cancelled
  | Spool.TimedOut => TimedOut
  end.

(** * The state *)

Record AttemptExecution := mkAttemptExecution { ax_state : RunSpoolState; ax_last_sequence : Z }.

(** Where a worker is: [Attempt::run] up to the end of the attempt, to the drop
    of its registration, to the first and to the second report. *)
Inductive WorkerPhase :=
| Executing (prepared : SupervisedRun)
| Settling (ended : AttemptExecution)
| Unregistered (ended : AttemptExecution)
| Halfway (ended : AttemptExecution) (running : RunIndexReceipt)
| Reported.

Record Worker := mkWorker {
  wk_run_id : list Z;
  wk_attempt_id : list Z;
  wk_submission_id : Z;
  wk_revision : Z;
  wk_registration : RegistrationHandle;
  wk_phase : WorkerPhase
}.

Definition in_phase (phase : WorkerPhase) (w : Worker) : Worker :=
  mkWorker (wk_run_id w) (wk_attempt_id w) (wk_submission_id w) (wk_revision w) (wk_registration w) phase.

(** An attempt that is over: what it answered and the log it left. *)
Record EndedAttempt := mkEnded {
  ea_submission_id : Z;
  ea_run_id : list Z;
  ea_token : nat;
  ea_answer : result BackendError ExecutionReport;
  ea_run : SupervisedRun
}.

(** What the serve thread read before it starts a run: the row, the submission and
    its number. *)
Record Reading := mkReading { rd_record : RunIndexRecord; rd_entry : RunSubmissionEntry; rd_submission_id : Z }.

(** [dn_spools] has the files of each run's spool, as they were last left; a worker's
    number is its token's.  [dn_ended] is not part of the program: it remembers
    what the attempts answered. *)
Record Daemon := mkDaemon {
  dn_submissions : RunSubmissions.Rows;
  dn_index : RunIndex.Rows;
  dn_approvals : ApprovalLane.Lane;
  dn_host : DaemonAttemptHost;
  dn_spools : gmap (list Z) SpoolFiles;
  dn_live : gset (list Z);
  dn_workers : gmap nat Worker;
  dn_next : nat;
  dn_ended : list EndedAttempt;
  dn_reading : option Reading
}.

Definition with_submissions (t : RunSubmissions.Rows) (d : Daemon) : Daemon :=
  mkDaemon t (dn_index d) (dn_approvals d) (dn_host d) (dn_spools d) (dn_live d) (dn_workers d) (dn_next d) (dn_ended d) (dn_reading d).
Definition with_index (t : RunIndex.Rows) (d : Daemon) : Daemon :=
  mkDaemon (dn_submissions d) t (dn_approvals d) (dn_host d) (dn_spools d) (dn_live d) (dn_workers d) (dn_next d) (dn_ended d) (dn_reading d).
Definition with_approvals (l : ApprovalLane.Lane) (d : Daemon) : Daemon :=
  mkDaemon (dn_submissions d) (dn_index d) l (dn_host d) (dn_spools d) (dn_live d) (dn_workers d) (dn_next d) (dn_ended d) (dn_reading d).
Definition with_host (h : DaemonAttemptHost) (d : Daemon) : Daemon :=
  mkDaemon (dn_submissions d) (dn_index d) (dn_approvals d) h (dn_spools d) (dn_live d) (dn_workers d) (dn_next d) (dn_ended d) (dn_reading d).
Definition with_spools (spools : gmap (list Z) SpoolFiles) (d : Daemon) : Daemon :=
  mkDaemon (dn_submissions d) (dn_index d) (dn_approvals d) (dn_host d) spools (dn_live d) (dn_workers d) (dn_next d) (dn_ended d) (dn_reading d).
Definition with_live (live : gset (list Z)) (d : Daemon) : Daemon :=
  mkDaemon (dn_submissions d) (dn_index d) (dn_approvals d) (dn_host d) (dn_spools d) live (dn_workers d) (dn_next d) (dn_ended d) (dn_reading d).
Definition with_workers (workers : gmap nat Worker) (d : Daemon) : Daemon :=
  mkDaemon (dn_submissions d) (dn_index d) (dn_approvals d) (dn_host d) (dn_spools d) (dn_live d) workers (dn_next d) (dn_ended d) (dn_reading d).

Definition with_reading (reading : option Reading) (d : Daemon) : Daemon :=
  mkDaemon (dn_submissions d) (dn_index d) (dn_approvals d) (dn_host d) (dn_spools d) (dn_live d) (dn_workers d) (dn_next d) (dn_ended d)
    reading.

(** * Starting an attempt *)

Definition claim (run_id : list Z) (live : gset (list Z)) : Refusable (gset (list Z)) :=
  if bool_decide (run_id ∈ live) then Err AlreadyExecuting
  else if (MAX_LIVE_ATTEMPTS <=? size live)%nat then Err LaneSaturated
  else Ok ({[run_id]} ∪ live).

Definition release (run_id : list Z) (live : gset (list Z)) : gset (list Z) := live ∖ {[run_id]}.

(** What [Spool::open] meets: it creates no file; the file is there, but cannot be
    validated, locked or read; or it can be used. *)
Inductive SpoolAccess := SpoolUnreachable | SpoolUnusable | SpoolUsable.

(** What the host and the stages that are not modelled answer to one start, in
    the order they are asked. *)
Record Gates := mkGates {
  gt_sandbox_enforceable : bool;
  gt_helper : option bool;
  gt_domain : bool;
  gt_prompt : Refusable unit;
  gt_provider : Refusable unit;
  gt_context : bool;
  gt_admission : result AdmissionRefusal unit;
  gt_broker : Refusable unit;
  gt_directories : bool;
  gt_fuse : bool;
  gt_mountpoint : bool;
  gt_namespaced : bool;
  gt_spool_access : SpoolAccess;
  gt_spool_budget : Z;
  gt_spool_cut : CutOutcome;
  gt_spool_status : StatusOutcome;
  gt_mode : Refusable unit;
  gt_plan_encodes : bool;
  gt_containment : bool;
  gt_thread : bool
}.

Definition granted (b : bool) (refusal : ExecuteRefusal) : Refusable unit := if b then Ok tt else Err refusal.

Section Lane.
Context `{HashFunction, RandomRowid}.

(** The files of a run's spool; [Spool::open] creates what is not there. *)
Definition files_found (run_id : list Z) (d : Daemon) : SpoolFiles :=
  default (mkSpoolFiles [] None) (dn_spools d !! run_id).

(** [Spool::open] on the run's directory. *)
Definition open_spool (g : Gates) (run_id : list Z) (d : Daemon) : result SpoolError Spool * Daemon :=
  match gt_spool_access g with
  | SpoolUnreachable => (Err SpoolIo, d)
  | SpoolUnusable => (Err SpoolIo, with_spools (<[run_id := files_found run_id d]> (dn_spools d)) d)
  | SpoolUsable =>
      let '(opened, files) :=
        open_files run_id (files_found run_id d) (gt_spool_budget g) (gt_spool_cut g) (gt_spool_status g) in
      (opened, with_spools (<[run_id := files]> (dn_spools d)) d)
  end.

(** [prepare_and_spawn] from the registration on. *)
Definition prepare_attempt (g : Gates) (run_id : list Z) (d : Daemon) : Refusable SupervisedRun * Daemon :=
  match
    _ ← granted (gt_fuse g) ContainmentUnavailable;
    _ ← granted (gt_mountpoint g) ExecutionUnavailable;
    granted (gt_namespaced g) AdmissionRefused
  with
  | Err refusal => (Err refusal, d)
  | Ok _ =>
      let '(opened, d) := open_spool g run_id d in
      (spool ← map_err (fun _ => ExecutionUnavailable) opened;
       _ ← gt_mode g;
       prepared ← map_err (fun _ => ContainmentUnavailable) (prepare run_id (gt_plan_encodes g) (gt_containment g) spool);
       _ ← granted (gt_thread g) ExecutionUnavailable;
       Ok prepared, d)
  end.

(** A new token, registered with the sink that sets it. *)
Definition register_attempt (attempt_id : list Z) (d : Daemon) : result AttemptHostError RegistrationHandle * Daemon :=
  let '(registered, host) := host_register attempt_id (mkTokenSink attempt_id (dn_next d)) (dn_host d) in
  (registered,
   mkDaemon (dn_submissions d) (dn_index d) (dn_approvals d) host (dn_spools d) (dn_live d) (dn_workers d) (S (dn_next d))
     (dn_ended d) (dn_reading d)).

Definition prepare_and_spawn (g : Gates) (run_id attempt_id : list Z) (submission_id revision : Z) (d : Daemon)
  : Refusable unit * Daemon :=
  match
    _ ← gt_prompt g;
    _ ← gt_provider g;
    _ ← granted (gt_context g) AdmissionRefused;
    _ ← map_err admission_refusal (gt_admission g);
    _ ← gt_broker g;
    granted (gt_directories g) ExecutionUnavailable
  with
  | Err refusal => (Err refusal, d)
  | Ok _ =>
      let token := dn_next d in
      let '(registered, d) := register_attempt attempt_id d in
      match registered with
      | Err e => (Err (registration_refusal e), d)
      | Ok registration =>
          match prepare_attempt g run_id d with
          | (Err refusal, d) => (Err refusal, with_host (host_drop registration (dn_host d)) d)
          | (Ok prepared, d) =>
              let worker := mkWorker run_id attempt_id submission_id revision registration (Executing prepared) in
              (Ok tt, with_workers (<[token := worker]> (dn_workers d)) d)
          end
      end
  end.

(** [run_spec] is [RunSpec::from_canonical_bytes]: the run and the attempt a document names. *)
Context (run_spec : list Z -> option (list Z * list Z)).

Definition start (g : Gates) (document : list Z) (submission_id revision : Z) (d : Daemon) : Refusable unit * Daemon :=
  match
    _ ← granted (gt_sandbox_enforceable g) SandboxUnenforceable;
    is_absolute ← ok_or (gt_helper g) LaunchHelperUnavailable;
    _ ← map_err (fun _ => LaunchHelperUnavailable) (helper_new is_absolute);
    _ ← granted (gt_domain g) ContainmentUnavailable;
    '(run_id, attempt_id) ← ok_or (run_spec document) ExecutionUnavailable;
    _ ← granted (is_containment_run_id run_id) AdmissionRefused;
    live ← claim run_id (dn_live d);
    Ok (run_id, attempt_id, live)
  with
  | Err refusal => (Err refusal, d)
  | Ok (run_id, attempt_id, live) =>
      let '(started, d) := prepare_and_spawn g run_id attempt_id submission_id revision (with_live live d) in
      match started with
      | Ok _ => (Ok tt, d)
      | Err refusal => (Err refusal, with_live (release run_id (dn_live d)) d)
      end
  end.

(** The newest row of a run and its submission: the walk [start_run] and
    [attempt_id_for] share. *)
Definition newest_row (run_id : list Z) (d : Daemon) : Refusable RunIndexRecord :=
  records ← map_err (fun _ => ExecutionUnavailable) (by_run_id run_id (dn_index d));
  ok_or (last records) UnknownRun.

Definition custodied (record : RunIndexRecord) (d : Daemon) : Refusable RunSubmissionEntry :=
  entries ← map_err (fun _ => ExecutionUnavailable) (run_submissions (ir_run_id record) (dn_submissions d));
  ok_or (List.find (fun e => en_submission_id e =? ir_submission_id record) entries) ExecutionUnavailable.

(** What [start_run] is asked in, but for the run: [ss_source] is whether the
    source generation still hosts an attempt. *)
Record StartSituation := mkSituation {
  ss_degraded : bool;
  ss_paused : bool;
  ss_source : list Z -> Refusable bool;
  ss_standing : Standing;
  ss_observation : Observation;
  ss_now_ms : Z;
  ss_lane : option Gates
}.

(** The reads, up to the source generation's answer. *)
Definition start_read (c : StartSituation) (run_id : list Z) (d : Daemon) : Refusable Reading :=
  _ ← granted (negb (ss_degraded c)) GenerationDegraded;
  _ ← granted (negb (ss_paused c)) IntakePaused;
  record ← newest_row run_id d;
  _ ← granted (bool_decide (ir_spool_state record = Ready) && (ir_last_sequence record =? 0)) RunNotReady;
  entry ← custodied record d;
  submission_id ← ok_or (check_u64 (en_submission_id entry)) ExecutionUnavailable;
  '(_, attempt_id) ← ok_or (run_spec (en_document entry)) ExecutionUnavailable;
  hosted ← ss_source c attempt_id;
  _ ← granted (negb hosted) AlreadyExecuting;
  Ok (mkReading record entry submission_id).

(** The gate and the lane. *)
Definition start_reading (c : StartSituation) (r : Reading) (d : Daemon) : Refusable Z * Daemon :=
  let record := rd_record r in
  let entry := rd_entry r in
  let '(admitted, l) :=
    admit_approval (ss_standing c) (ir_run_id record) (en_spec_digest entry) (ss_observation c) (ss_now_ms c) (dn_approvals d) in
  let d := with_approvals l d in
  match admitted with
  | Err refusal => (Err refusal, d)
  | Ok _ =>
      match ss_lane c with
      | None => (Err ExecutionUnavailable, d)
      | Some g =>
          let '(started, d) := start g (en_document entry) (ir_submission_id record) (ir_revision record) d in
          (_ ← started; Ok (rd_submission_id r), d)
      end
  end.

Definition start_run (c : StartSituation) (run_id : list Z) (d : Daemon) : Refusable Z * Daemon :=
  match start_read c run_id d with
  | Err refusal => (Err refusal, d)
  | Ok reading => start_reading c reading d
  end.

Definition attempt_id_for (run_id : list Z) (d : Daemon) : Refusable (list Z) :=
  record ← newest_row run_id d;
  entry ← custodied record d;
  '(_, attempt_id) ← ok_or (run_spec (en_document entry)) ExecutionUnavailable;
  Ok attempt_id.

(** * Cancelling a run *)

(** What the source generation's route answers to a delivery. *)
Inductive RouteAnswer :=
| RouteOutcome (outcome : DispatchOutcome)
| RouteGone
| HostUnavailable
| RouteIo
| RouteOther.

Definition source_cancel (hosted : Refusable bool) (route : RouteAnswer) : Refusable DispatchOutcome :=
  hosted ← hosted;
  if negb hosted then Err NoLiveAttempt
  else match route with
       | RouteOutcome outcome => Ok outcome
       | RouteGone => Err NoLiveAttempt
       | HostUnavailable => Err ExecutionUnavailable
       | RouteIo => Err SourceRouteUnavailable
       | RouteOther => Err CancelNotDelivered
       end.

Definition cancel_outcome (o : DispatchOutcome) : Refusable CancelRunOutcome :=
  match o with
  | OutDelivered => Ok AuditStore.Delivered
  | OutAlreadyDelivered => Ok AuditStore.AlreadyDelivered
  | OutConflict => Ok AuditStore.CancelConflict
  | UnknownAttempt => Err NoLiveAttempt
  | SinkUnavailable => Err CancelNotDelivered
  | CustodyFull => Err LaneSaturated
  | CustodyUnavailable => Err ExecutionUnavailable
  | OutFieldInvalid => Err AdmissionRefused
  end.

(** The delivery is made first and audited second.  No sink of this host panics,
    so the dispatcher answers. *)
Definition cancel_run (source : list Z -> Refusable bool) (route : RouteAnswer) (run_id request_ref : list Z)
    (observed_sequence now_ms : Z) (d : Daemon) : Refusable CancelRunOutcome * Daemon :=
  match attempt_id_for run_id d with
  | Err refusal => (Err refusal, d)
  | Ok attempt_id =>
      let '(outcome, host) := host_cancel attempt_id request_ref observed_sequence (dn_host d) in
      let d := with_host host d in
      match
        dispatched ← (match outcome with
                      | Some UnknownAttempt => source_cancel (source attempt_id) route
                      | Some outcome => Ok outcome
                      | None => Err ExecutionUnavailable
                      end);
        cancel_outcome dispatched
      with
      | Err refusal => (Err refusal, d)
      | Ok outcome =>
          let l := dn_approvals d in
          (Ok outcome,
           with_approvals (ApprovalLane.mkLane (requests l) (ledger l) (audited l ++ [CCancellation run_id outcome now_ms])) d)
      end
  end.

(** * What a worker does *)

(** [PreparedAttempt::execute], with the sequence [Attempt::run] reports. *)
Definition attempt_execution (answer : result BackendError ExecutionReport) (r : SupervisedRun) : AttemptExecution :=
  match answer with
  | Ok report =>
      let sequence := su_last_sequence (er_status report) in
      mkAttemptExecution (spool_state (su_state (er_status report))) (if sequence =? 0 then sv_observed r else sequence)
  | Err _ => mkAttemptExecution Failed (sv_observed r)
  end.

Definition attempt_over (i : nat) (w : Worker) (answer : result BackendError ExecutionReport) (r : SupervisedRun) (d : Daemon)
  : Daemon :=
  mkDaemon (dn_submissions d) (dn_index d) (dn_approvals d) (dn_host d) (<[wk_run_id w := files_of (sv_spool r)]> (dn_spools d)) (dn_live d)
    (<[i := in_phase (Settling (attempt_execution answer r)) w]> (dn_workers d)) (dn_next d)
    (dn_ended d ++ [mkEnded (wk_submission_id w) (wk_run_id w) i answer r]) (dn_reading d).

Definition to_phase (i : nat) (phase : WorkerPhase) (w : Worker) (d : Daemon) : Daemon :=
  with_workers (<[i := in_phase phase w]> (dn_workers d)) d.

(** [drop(registration)]. *)
Definition unregister (i : nat) (w : Worker) (ended : AttemptExecution) (d : Daemon) : Daemon :=
  to_phase i (Unregistered ended) w (with_host (host_drop (wk_registration w) (dn_host d)) d).

(** The two reports of [advance]: the clock and the opening of the index are [now_ms]. *)
Definition advance_running (w : Worker) (now_ms : Z) (t : RunIndex.Rows) : Indexed RunIndexReceipt * RunIndex.Rows :=
  advance_state (mkAdvance (wk_submission_id w) (wk_revision w) Running 1 now_ms) t.

Definition advance_terminal (w : Worker) (running : RunIndexReceipt) (ended : AttemptExecution) (now_ms : Z) (t : RunIndex.Rows)
  : Indexed RunIndexReceipt * RunIndex.Rows :=
  if negb (RunIndex.is_terminal (ax_state ended)) then (Ok running, t)
  else
    advance_state
      (mkAdvance (wk_submission_id w) (rc_revision running) (ax_state ended)
         (Z.max (ax_last_sequence ended) (Z.min u64_max (rc_last_sequence running + 1))) now_ms) t.

Definition report_running (i : nat) (w : Worker) (ended : AttemptExecution) (now_ms : option Z) (d : Daemon) : Daemon :=
  match now_ms with
  | None => to_phase i Reported w d
  | Some now_ms =>
      let '(answer, t) := advance_running w now_ms (dn_index d) in
      to_phase i (match answer with Ok receipt => Halfway ended receipt | Err _ => Reported end) w (with_index t d)
  end.

Definition report_terminal (i : nat) (w : Worker) (ended : AttemptExecution) (running : RunIndexReceipt) (now_ms : Z) (d : Daemon)
  : Daemon :=
  to_phase i Reported w (with_index (snd (advance_terminal w running ended now_ms (dn_index d))) d).

(** The ledger's rows of the attempt are pruned. *)
Definition forget_attempt (w : Worker) (reopened : Ledgered unit) (d : Daemon) : Daemon :=
  with_host (snd (prune_terminal_attempt (wk_attempt_id w) reopened (dn_host d))) d.

(** The worker's frame is dropped, and with it its claim. *)
Definition finish_worker (i : nat) (w : Worker) (d : Daemon) : Daemon :=
  with_live (release (wk_run_id w) (dn_live d)) (with_workers (delete i (dn_workers d)) d).

(** * The steps of the daemon *)

Definition holds_registration (phase : WorkerPhase) : bool :=
  match phase with Executing _ | Settling _ => true | _ => false end.

(** The serve thread reads before it starts, and workers go on between the two.
    From the gate on a start is one step: what other workers do meanwhile is on
    other runs. *)
Inductive LaneStep : Daemon -> Daemon -> Prop :=
| ls_submit capacity s d :
    RunSubmissions.handle_capacity capacity ->
    LaneStep d (with_submissions (snd (RunSubmissions.record capacity s (dn_submissions d))) d)
| ls_register capacity e d :
    RunIndex.handle_capacity capacity ->
    LaneStep d (with_index (snd (RunIndex.register capacity e (dn_index d))) d)
| ls_approvals l d : LaneStep d (with_approvals l d)
| ls_custody s d : LaneStep d (with_host (mkAttemptHost (ah_dispatcher (dn_host d)) (mkHosted s (tokens_set (dn_host d)))) d)
| ls_read c run_id d : LaneStep d (with_reading (ok (start_read c run_id d)) d)
| ls_start c reading d :
    dn_reading d = Some reading -> (forall g, ss_lane c = Some g -> in_u64 (gt_spool_budget g)) ->
    LaneStep d (with_reading None (snd (start_reading c reading d)))
| ls_cancel source route run_id request_ref observed_sequence now_ms d :
    LaneStep d (snd (cancel_run source route run_id request_ref observed_sequence now_ms d))
| ls_execute i w prepared io l ticks t answer r d :
    dn_workers d !! i = Some w -> wk_phase w = Executing prepared ->
    Forall tick_ok ticks -> teardown_ok t ->
    (la_cancelled l = true \/ Exists (fun k => tk_cancelled k = true) ticks -> i ∈ tokens_set (dn_host d)) ->
    execute io l ticks t prepared = Some (answer, r) ->
    LaneStep d (attempt_over i w answer r d)
| ls_unregister i w ended d :
    dn_workers d !! i = Some w -> wk_phase w = Settling ended ->
    LaneStep d (unregister i w ended d)
| ls_expire i w ended bell now_ms d :
    dn_workers d !! i = Some w -> wk_phase w = Unregistered ended ->
    LaneStep d
      (with_approvals
         (with_requests (ApprovalLane.expire_unanswered_approvals bell (wk_run_id w) now_ms (requests (dn_approvals d)))
           (dn_approvals d)) d)
| ls_running i w ended now_ms d :
    dn_workers d !! i = Some w -> wk_phase w = Unregistered ended ->
    LaneStep d (report_running i w ended now_ms d)
| ls_terminal i w ended running now_ms d :
    dn_workers d !! i = Some w -> wk_phase w = Halfway ended running ->
    LaneStep d (report_terminal i w ended running now_ms d)
| ls_forget i w reopened d :
    dn_workers d !! i = Some w -> wk_phase w = Reported ->
    LaneStep d (forget_attempt w reopened d)
| ls_finish i w d :
    dn_workers d !! i = Some w -> wk_phase w = Reported ->
    LaneStep d (finish_worker i w d).

(** A daemon that just opened: what earlier ones left in the tables, and nobody running. *)
Definition opened (submissions : Custody) (index : Records) (d : Daemon) : Prop :=
  custody_ok submissions /\ dn_submissions d = RunSubmissions.table_of submissions /\
  index_ok index /\ dn_index d = RunIndex.table_of index /\
  dn_live d = ∅ /\ dn_workers d = ∅ /\ dn_ended d = [] /\ dn_reading d = None /\
  healthy (dn_host d) /\ registrations (ah_dispatcher (dn_host d)) = ∅ /\ tokens_set (dn_host d) = [].

Inductive reachable (d0 : Daemon) : Daemon -> Prop :=
| reachable_start : reachable d0 d0
| reachable_step d d' : reachable d0 d -> LaneStep d d' -> reachable d0 d'.
End Lane.

(** * What a report does to the index *)

Lemma advance_effect a log answer t' :
  index_ok log -> advance_state a (RunIndex.table_of log) = (answer, t') ->
  exists log', t' = RunIndex.table_of log' /\ index_ok log' /\
    match answer with
    | Err _ => log' = log
    | Ok receipt => exists r, indexed (sa_submission_id a) log = Some r /\ RunIndex.refusal a r = None /\
        receipt = receipt_of (advanced a r) /\
        forall id, indexed id log' = if id =? sa_submission_id a then Some (advanced a r) else indexed id log
    end.
Proof.
  intros Hok E. destruct (advance_refines a log answer t' Hok E) as (log' & -> & Hs & Hok').
  exists log'. split; [done|]. split; [done|]. unfold spec_advance in Hs.
  do 4 (case_match; [by injection Hs as <- <-|]).
  destruct (indexed (sa_submission_id a) log) as [r|] eqn:Er; [|by injection Hs as <- <-].
  destruct (RunIndex.refusal a r) eqn:R; injection Hs as <- <-; [done|]. exists r. split_and!; [done|done|done|].
  intros id. unfold indexed in *.
  rewrite (find_entry_update raw_submission_id row_of) by (intros; by case_match).
  destruct (find_entry raw_submission_id row_of id log) as [x|] eqn:Ex.
  - cbn. pose proof (find_entry_Some _ _ _ _ _ Ex) as [_ Hx]. unfold entry_key in Hx. cbn in Hx. rewrite Hx.
    destruct (Z.eqb_spec id (sa_submission_id a)) as [->|]; [|done]. rewrite Er in Ex. by injection Ex as ->.
  - cbn. destruct (Z.eqb_spec id (sa_submission_id a)) as [->|]; [congruence|done].
Qed.

Lemma register_effect `{RandomRowid} capacity e log answer t' :
  RunIndex.handle_capacity capacity -> index_ok log -> RunIndex.register capacity e (RunIndex.table_of log) = (answer, t') ->
  exists log', t' = RunIndex.table_of log' /\ index_ok log' /\
    forall id, match indexed id log with
               | Some r => indexed id log' = Some r
               | None => forall r, indexed id log' = Some r -> ir_spool_state r = Ready
               end.
Proof.
  intros Hc Hok E. destruct (register_refines capacity e log answer t' Hc Hok E) as (log' & -> & Hs & Hok').
  exists log'. split; [done|]. split; [done|]. intros id. unfold spec_register in Hs.
  assert (Hsame : log' = log -> match indexed id log with
    | Some r => indexed id log' = Some r | None => forall r, indexed id log' = Some r -> ir_spool_state r = Ready end).
  { intros ->. by destruct (indexed id log). }
  destruct (ie_submission_id e <=? 0); [injection Hs as <- <-; by apply Hsame|].
  destruct (negb (RunIndex.identifier_ok (ie_run_id e))); [injection Hs as <- <-; by apply Hsame|].
  destruct (ie_registered_at_ms e <? 0); [injection Hs as <- <-; by apply Hsame|].
  destruct (indexed (ie_submission_id e) log); [injection Hs as <- <-; by apply Hsame|].
  destruct (capacity <=? len log); injection Hs as <- <-; [by apply Hsame|].
  unfold indexed in *. rewrite find_entry_app. destruct (find_entry _ _ id log) as [x|]; [done|].
  intros r Hr. apply find_entry_Some in Hr as [Hin%list_elem_of_singleton _]. by subst.
Qed.

(** * What holds of every state *)

Section Invariant.
Context `{Sha256Laws, RandomRowidLaws} (run_spec : list Z -> option (list Z * list Z)).

(** The index the daemon found. *)
Context (before : Records).

(** The attempt [i] of a submission is over, with this to report. *)
Definition ended_as (trace : list EndedAttempt) (submission_id : Z) (x : AttemptExecution) : Prop :=
  exists a, a ∈ trace /\ ea_submission_id a = submission_id /\ x = attempt_execution (ea_answer a) (ea_run a).

(** An attempt of a submission ended that is one of [who]. *)
Definition ended_by (trace : list EndedAttempt) (who : nat -> Prop) (submission_id : Z) : Prop :=
  exists a, a ∈ trace /\ ea_submission_id a = submission_id /\ who (ea_token a).

Definition anyone (i : nat) : Prop := True.

(** A submission's row was read ready at [revision]: it is there, and still ready
    unless an attempt of it ended, one of [who]. *)
Definition at_revision (index : Records) (trace : list EndedAttempt) (who : nat -> Prop) (submission_id revision : Z) : Prop :=
  exists row, indexed submission_id index = Some row /\
    (ir_revision row = revision /\ ir_spool_state row = Ready \/
     revision < ir_revision row /\ ended_by trace who submission_id).

(** What the row of the worker [i] is while it is in its phase. *)
Definition phase_ok (index : Records) (trace : list EndedAttempt) (i : nat) (w : Worker) : Prop :=
  let waiting := at_revision index trace (fun j => j < i)%nat (wk_submission_id w) (wk_revision w) in
  match wk_phase w with
  | Executing prepared => waiting /\ prepared_run prepared /\ sv_run_id prepared = wk_run_id w
  | Settling x | Unregistered x => waiting /\ ended_as trace (wk_submission_id w) x
  | Halfway x receipt =>
      (exists row, indexed (wk_submission_id w) index = Some row /\ ir_spool_state row = Running /\
        ir_last_sequence row = 1 /\ receipt = receipt_of row) /\ ended_as trace (wk_submission_id w) x
  | Reported => True
  end.

(** A worker's document is the one in custody under its submission. *)
Definition documented (submissions : Custody) (w : Worker) : Prop :=
  exists e, e ∈ submissions /\ en_submission_id e = wk_submission_id w /\
    run_spec (en_document e) = Some (wk_run_id w, wk_attempt_id w).

(** What the serve thread read is in the tables. *)
Definition read_ok (submissions : Custody) (index : Records) (trace : list EndedAttempt) (r : Reading) : Prop :=
  rd_entry r ∈ submissions /\ en_submission_id (rd_entry r) = ir_submission_id (rd_record r) /\
  at_revision index trace anyone (ir_submission_id (rd_record r)) (ir_revision (rd_record r)).

Definition registration_of (i : nat) (w : Worker) : Registration TokenCancelSink :=
  mkRegistration (hd_epoch (wk_registration w)) (mkTokenSink (wk_attempt_id w) i).

(** A row that says how its run ended was there before, or says it of an attempt that ended so. *)
Definition told (trace : list EndedAttempt) (r : RunIndexRecord) : Prop :=
  RunIndex.is_terminal (ir_spool_state r) = true ->
  r ∈ before \/ exists x, ended_as trace (ir_submission_id r) x /\ ir_spool_state r = ax_state x /\
    ir_last_sequence r = Z.max (ax_last_sequence x) 2.

(** What an attempt that is over left, and that a token was set if it says so. *)
Definition ended_ok (tokens : list nat) (a : EndedAttempt) : Prop :=
  (exists started frames ended, attempt_log (ea_run_id a) started frames ended (ea_run a) /\
    forall report, ea_answer a = Ok report -> exists e, ended = [e] /\
      er_status report = mkStatus (ea_run_id a) (outcome_state (er_outcome report)) (len (log (ea_run a))) /\
      ev_payload e = terminal_payload (er_outcome report)) /\
  (forall report, ea_answer a = Ok report -> er_outcome report = OCancelled -> ea_token a ∈ tokens).

Record lane_ok (d : Daemon) : Prop := mkLaneOk {
  lk_tables : exists submissions index,
    custody_ok submissions /\ dn_submissions d = RunSubmissions.table_of submissions /\
    index_ok index /\ dn_index d = RunIndex.table_of index /\
    (forall i w, dn_workers d !! i = Some w -> documented submissions w /\ phase_ok index (dn_ended d) i w) /\
    (forall id r, indexed id index = Some r -> told (dn_ended d) r) /\
    (forall r, dn_reading d = Some r -> read_ok submissions index (dn_ended d) r);
  lk_healthy : healthy (dn_host d);
  lk_workers : forall i w, dn_workers d !! i = Some w ->
    (i < dn_next d)%nat /\ wk_run_id w ∈ dn_live d /\ hd_attempt_id (wk_registration w) = wk_attempt_id w /\
    (holds_registration (wk_phase w) = true -> registered_at (wk_attempt_id w) (dn_host d) = Some (registration_of i w));
  lk_registered : forall a r, registered_at a (dn_host d) = Some r ->
    exists i w, dn_workers d !! i = Some w /\ wk_attempt_id w = a /\ holds_registration (wk_phase w) = true /\ r = registration_of i w;
  lk_live : forall run, run ∈ dn_live d -> exists i w, dn_workers d !! i = Some w /\ wk_run_id w = run;
  lk_distinct : forall i j v w, dn_workers d !! i = Some v -> dn_workers d !! j = Some w -> wk_run_id v = wk_run_id w -> i = j;
  lk_bounded : (size (dn_live d) <= MAX_LIVE_ATTEMPTS)%nat;
  lk_ended : Forall (ended_ok (tokens_set (dn_host d))) (dn_ended d);
  lk_tokens : Forall (fun a => ea_token a < dn_next d)%nat (dn_ended d)
}.

Lemma opened_ok submissions d : opened submissions before d -> lane_ok d.
Proof.
  intros (K1 & K2 & K3 & K4 & K6 & K7 & K8 & K12 & K9 & K10 & K11). constructor; rewrite ?K6, ?K7, ?K8, ?K12.
  - exists submissions, before. split_and!; [done..| | |done].
    + intros i w. by rewrite lookup_empty.
    + intros id r Hr Ht. left. by apply find_entry_Some in Hr as [Hin _].
  - done.
  - intros i w. by rewrite lookup_empty.
  - intros a r. unfold registered_at. by rewrite K10, lookup_empty.
  - intros run. set_solver.
  - intros i j v w. by rewrite lookup_empty.
  - rewrite size_empty. unfold MAX_LIVE_ATTEMPTS. lia.
  - constructor.
  - constructor.
Qed.

Lemma ended_as_by trace id x : ended_as trace id x -> ended_by trace anyone id.
Proof. intros (a & Ha & E & _). by exists a. Qed.

Lemma ended_as_app trace more id x : ended_as trace id x -> ended_as (trace ++ more) id x.
Proof. intros (a & Ha & E). exists a. split; [set_solver|done]. Qed.

Lemma at_revision_app index trace more who id revision :
  at_revision index trace who id revision -> at_revision index (trace ++ more) who id revision.
Proof.
  intros (row & Hrow & [Hst|[Hlt (a & Ha & Hx)]]); exists row; (split; [done|]); [by left|right]. split; [done|].
  exists a. split; [set_solver|done].
Qed.

(** Who ended is among more of them. *)
Lemma at_revision_weaken index trace (who who' : nat -> Prop) id revision :
  (forall a, a ∈ trace -> who (ea_token a) -> who' (ea_token a)) ->
  at_revision index trace who id revision -> at_revision index trace who' id revision.
Proof.
  intros Hw (row & Hrow & [Hst|[Hlt (a & Ha & Hs & Hx)]]); exists row; (split; [done|]); [by left|right]. split; [done|].
  exists a. split_and!; auto.
Qed.

Lemma phase_ok_app index trace more i w : phase_ok index trace i w -> phase_ok index (trace ++ more) i w.
Proof.
  unfold phase_ok. destruct (wk_phase w); try done; intros [Hw He]; (split; [done || by apply at_revision_app|done || by apply ended_as_app]).
Qed.

Lemma told_app trace more r : told trace r -> told (trace ++ more) r.
Proof. intros Ht0 Ht. destruct (Ht0 Ht) as [|(x & Hx & Hr)]; [by left|]. right. exists x. split; [by apply ended_as_app|done]. Qed.

(** The row a phase speaks of is its submission's alone. *)
Lemma phase_ok_index index index' trace i w :
  (forall r, indexed (wk_submission_id w) index = Some r -> indexed (wk_submission_id w) index' = Some r) ->
  phase_ok index trace i w -> phase_ok index' trace i w.
Proof.
  intros Hi. unfold phase_ok, at_revision. destruct (wk_phase w); naive_solver.
Qed.

(** A row that moves on is not at the revision it was read at. *)
Lemma at_revision_advance a r index index' trace who id revision :
  (forall id, indexed id index' = if id =? sa_submission_id a then Some (advanced a r) else indexed id index) ->
  indexed (sa_submission_id a) index = Some r -> ended_by trace who (sa_submission_id a) ->
  at_revision index trace who id revision -> at_revision index' trace who id revision.
Proof.
  intros Hind Hr Hx (row & Hrow & Hst). unfold at_revision. rewrite Hind. destruct (Z.eqb_spec id (sa_submission_id a)) as [->|]; [|by exists row].
  rewrite Hr in Hrow. injection Hrow as <-. exists (advanced a r). split; [done|]. right. cbn [advanced ir_revision].
  split; [destruct Hst as [[<- _]|[Hlt _]]; lia|done].
Qed.

(** Two workers have two submissions. *)
Lemma submissions_distinct submissions d i j v w :
  custody_ok submissions -> lane_ok d -> documented submissions v -> documented submissions w ->
  dn_workers d !! i = Some v -> dn_workers d !! j = Some w -> wk_submission_id v = wk_submission_id w -> i = j.
Proof.
  intros Hc Hok (e & He & Hid & Hsp) (e' & He' & Hid' & Hsp') Hv Hw E.
  assert (e = e') as <-.
  { apply (id_inj RunSubmissions.raw_submission_id RunSubmissions.row_of submissions); [apply Hc|done|done|].
    unfold entry_id. cbn. congruence. }
  eapply (lk_distinct d Hok); [exact Hv|exact Hw|]. congruence.
Qed.

(** Tokens stay set. *)
Lemma ended_ok_tokens tokens tokens' a : tokens ⊆ tokens' -> ended_ok tokens a -> ended_ok tokens' a.
Proof. intros Hs [K1 K2]. split; [done|]. intros report Hr Ho. apply Hs. by eapply K2. Qed.

(** * Every step keeps it *)

Lemma with_approvals_ok l d : lane_ok d -> lane_ok (with_approvals l d).
Proof. intros []. by constructor. Qed.

Lemma other_host_ok host next spools d :
  lane_ok d -> healthy host -> registrations (ah_dispatcher host) = registrations (ah_dispatcher (dn_host d)) ->
  tokens_set (dn_host d) ⊆ tokens_set host -> (dn_next d <= next)%nat ->
  lane_ok (mkDaemon (dn_submissions d) (dn_index d) (dn_approvals d) host spools (dn_live d) (dn_workers d) next (dn_ended d)
             (dn_reading d)).
Proof.
  intros [T Hh Hw Hr Hl Hd Hb He Htk] Hheal Hreg Htok Hnext. constructor; try done.
  - intros i w Hi. unfold registered_at in *. cbn in *. rewrite Hreg. destruct (Hw i w Hi) as (? & ? & ? & ?). split_and!; [lia|done..].
  - intros a r. unfold registered_at in *. cbn. rewrite Hreg. apply Hr.
  - cbn. eapply Forall_impl; [exact He|]. intros a. by apply ended_ok_tokens.
  - cbn. eapply Forall_impl; [exact Htk|]. intros a. cbn. lia.
Qed.

Lemma submit_ok capacity s d :
  RunSubmissions.handle_capacity capacity -> lane_ok d ->
  lane_ok (with_submissions (snd (RunSubmissions.record capacity s (dn_submissions d))) d).
Proof.
  intros Hc [(subs & index & K1 & K2 & K3 & K4 & K5 & K6 & K7) Hh Hw Hr Hl Hd Hb He Htk].
  destruct (RunSubmissions.record capacity s (dn_submissions d)) as [answer t] eqn:E. rewrite K2 in E.
  destruct (custody_refines capacity s subs answer t Hc K1 E) as (subs' & -> & Hs & Hok).
  destruct (spec_record_keeps _ _ _ _ _ Hs) as (added & -> & _). constructor; try done.
  exists (subs ++ added), index. split_and!; [done..| |done|].
  - intros i w Hi. destruct (K5 i w Hi) as [(e & Hin & Hrest) Hp]. split; [|done]. exists e. split; [set_solver|done].
  - intros r Hr'. destruct (K7 r Hr') as (Hin & Hrest). split; [set_solver|done].
Qed.

Lemma index_register_ok capacity e d :
  RunIndex.handle_capacity capacity -> lane_ok d ->
  lane_ok (with_index (snd (RunIndex.register capacity e (dn_index d))) d).
Proof.
  intros Hc [(subs & index & K1 & K2 & K3 & K4 & K5 & K6 & K7) Hh Hw Hr Hl Hd Hb He Htk].
  destruct (RunIndex.register capacity e (dn_index d)) as [answer t] eqn:E. rewrite K4 in E.
  destruct (register_effect capacity e index answer t Hc K3 E) as (index' & -> & Hok & Hi). constructor; try done.
  exists subs, index'. split_and!; [done..| | |].
  - intros i w Hiw. destruct (K5 i w Hiw) as [Hdoc Hp]. split; [done|]. eapply phase_ok_index; [|exact Hp].
    intros r Hx. specialize (Hi (wk_submission_id w)). by rewrite Hx in Hi.
  - intros id r Hx. specialize (Hi id). destruct (indexed id index) as [r0|] eqn:E0.
    + rewrite Hi in Hx. injection Hx as <-. by eapply K6.
    + intros Ht. by rewrite (Hi r Hx) in Ht.
  - intros r Hr'. destruct (K7 r Hr') as (Hin & Hid & row & Hrow & Hrest). split_and!; [done|done|]. exists row. split; [|done].
    specialize (Hi (ir_submission_id (rd_record r))). by rewrite Hrow in Hi.
Qed.

(** A worker goes to its next phase: it may give up its registration and change
    the row of its own submission. *)
Lemma worker_step_ok d i w phase host t spools more :
  lane_ok d -> dn_workers d !! i = Some w ->
  (holds_registration phase = true -> holds_registration (wk_phase w) = true) ->
  healthy host -> tokens_set host = tokens_set (dn_host d) ->
  registrations (ah_dispatcher host) =
    (if holds_registration (wk_phase w) && negb (holds_registration phase)
     then delete (wk_attempt_id w) (registrations (ah_dispatcher (dn_host d)))
     else registrations (ah_dispatcher (dn_host d))) ->
  (forall index, index_ok index -> dn_index d = RunIndex.table_of index -> phase_ok index (dn_ended d) i w ->
     (forall id r, indexed id index = Some r -> told (dn_ended d) r) ->
     exists index', t = RunIndex.table_of index' /\ index_ok index' /\
       (forall id, id <> wk_submission_id w -> indexed id index' = indexed id index) /\
       (forall revision, at_revision index (dn_ended d ++ more) anyone (wk_submission_id w) revision ->
          at_revision index' (dn_ended d ++ more) anyone (wk_submission_id w) revision) /\
       phase_ok index' (dn_ended d ++ more) i (in_phase phase w) /\
       (forall r, indexed (wk_submission_id w) index' = Some r -> told (dn_ended d ++ more) r)) ->
  Forall (ended_ok (tokens_set (dn_host d))) more -> Forall (fun a => ea_token a = i) more ->
  lane_ok (mkDaemon (dn_submissions d) t (dn_approvals d) host spools (dn_live d) (<[i := in_phase phase w]> (dn_workers d))
             (dn_next d) (dn_ended d ++ more) (dn_reading d)).
Proof.
  intros Hok Hi Hholds Hheal Htok Hreg Hindex Hmore Hmine.
  pose proof Hok as [(subs & index & K1 & K2 & K3 & K4 & K5 & K6 & K7) Hh Hw Hr Hl Hd Hb He Htk].
  destruct (Hindex index K3 K4 (proj2 (K5 i w Hi)) K6) as (index' & -> & Hok' & Hsame & Hrev & Hphase & Htold).
  assert (Hother : forall a, (exists j v, dn_workers d !! j = Some v /\ j <> i /\ wk_attempt_id v = a /\ holds_registration (wk_phase v) = true) ->
    holds_registration (wk_phase w) = true -> a <> wk_attempt_id w).
  { intros a (j & v & Hj & Hne & <- & Hhv) Hhw Ha. destruct (Hw j v Hj) as (_ & _ & _ & R1). destruct (Hw i w Hi) as (_ & _ & _ & R2).
    specialize (R1 Hhv). specialize (R2 Hhw). rewrite Ha, R2 in R1. injection R1 as _ E. congruence. }
  constructor; cbn [dn_submissions dn_index dn_host dn_live dn_workers dn_next dn_ended dn_reading].
  - exists subs, index'. split_and!; [done..| | |].
    + intros j v Hj. apply lookup_insert_Some in Hj as [[<- <-]|[Hne Hj]].
      { split; [|done]. destruct (K5 i w Hi) as [Hdoc _]. exact Hdoc. }
      destruct (K5 j v Hj) as [Hdoc Hp]. split; [done|]. apply phase_ok_app. eapply phase_ok_index; [|exact Hp].
      intros r. rewrite Hsame; [done|]. intros E. apply Hne. symmetry.
      by eapply (submissions_distinct subs d j i v w); [..|exact (proj1 (K5 i w Hi))| | |].
    + intros id r Hr'. destruct (Z.eq_dec id (wk_submission_id w)) as [->|Hne]; [by apply Htold|].
      rewrite Hsame in Hr' by done. apply told_app. by eapply K6.
    + intros r Hr'. destruct (K7 r Hr') as (Hin & Hid & Hat). split_and!; [done|done|].
      apply (at_revision_app _ _ more _) in Hat.
      destruct (Z.eq_dec (ir_submission_id (rd_record r)) (wk_submission_id w)) as [E|Hne]; [rewrite E in *; by apply Hrev|].
      unfold at_revision. by rewrite Hsame.
  - done.
  - intros j v Hj. apply lookup_insert_Some in Hj as [[<- <-]|[Hne Hj]].
    + destruct (Hw i w Hi) as (R1 & R2 & R3 & R4). split_and!; [done..|]. cbn [in_phase wk_phase wk_attempt_id]. intros Hhp.
      unfold registered_at. rewrite Hreg, Hhp, andb_false_r. apply R4. by apply Hholds.
    + destruct (Hw j v Hj) as (R1 & R2 & R3 & R4). split_and!; [done..|]. intros Hhv. specialize (R4 Hhv).
      unfold registered_at in *. rewrite Hreg. destruct (holds_registration (wk_phase w)) eqn:Eh; [|done].
      destruct (holds_registration phase); cbn [negb andb]; [done|]. rewrite lookup_delete_ne; [done|].
      intros E. apply (Hother (wk_attempt_id v)); [by exists j, v|done|done].
  - intros a r Ha. unfold registered_at in Ha. rewrite Hreg in Ha.
    assert (Hold : registered_at a (dn_host d) = Some r /\ (holds_registration (wk_phase w) && negb (holds_registration phase) = true -> a <> wk_attempt_id w)).
    { destruct (holds_registration (wk_phase w) && negb (holds_registration phase)); [|done].
      apply lookup_delete_Some in Ha as [Hne Ha]. by split. }
    destruct Hold as [Hold Hne]. destruct (Hr a r Hold) as (j & v & Hj & Ea & Hhv & ->).
    destruct (Nat.eq_dec j i) as [->|Hji].
    + rewrite Hi in Hj. injection Hj as <-. exists i, (in_phase phase w). rewrite lookup_insert_eq. split_and!; [done|done| |done].
      cbn [in_phase wk_phase]. destruct (holds_registration phase) eqn:Ep; [done|]. rewrite Hhv in Hne. by destruct (Hne eq_refl).
    + exists j, v. rewrite lookup_insert_ne by done. done.
  - intros run Hrun. destruct (Hl run Hrun) as (j & v & Hj & Hv). destruct (Nat.eq_dec j i) as [->|Hji].
    + rewrite Hi in Hj. injection Hj as <-. exists i, (in_phase phase w). by rewrite lookup_insert_eq.
    + exists j, v. by rewrite lookup_insert_ne.
  - assert (Hrun : forall j v, <[i := in_phase phase w]> (dn_workers d) !! j = Some v ->
      exists v0, dn_workers d !! j = Some v0 /\ wk_run_id v0 = wk_run_id v).
    { intros j v Hj. apply lookup_insert_Some in Hj as [[<- <-]|[Hne Hj]]; [by exists w|by exists v]. }
    intros j k v u Hj Hk E. destruct (Hrun j v Hj) as (v0 & Hv0 & E0), (Hrun k u Hk) as (u0 & Hu0 & E1).
    eapply Hd; [exact Hv0|exact Hu0|congruence].
  - done.
  - rewrite Htok. by apply Forall_app.
  - apply Forall_app. split; [done|]. eapply Forall_impl; [exact Hmine|]. cbn. intros a ->. by apply (Hw i w).
Qed.

Lemma running_advance w now_ms row :
  ir_spool_state row = Ready -> ir_revision row = wk_revision w ->
  let a := mkAdvance (wk_submission_id w) (wk_revision w) Running 1 now_ms in
  ir_spool_state (advanced a row) = Running /\ ir_last_sequence (advanced a row) = 1.
Proof. done. Qed.

(** The attempt is over. *)
Lemma attempt_over_ok d i w prepared io l ticks t answer r :
  lane_ok d -> dn_workers d !! i = Some w -> wk_phase w = Executing prepared ->
  Forall tick_ok ticks -> teardown_ok t ->
  (la_cancelled l = true \/ Exists (fun k => tk_cancelled k = true) ticks -> i ∈ tokens_set (dn_host d)) ->
  execute io l ticks t prepared = Some (answer, r) -> lane_ok (attempt_over i w answer r d).
Proof.
  intros Hok Hi Hph Hticks Ht Hasked Hx. unfold attempt_over.
  apply (worker_step_ok d i w (Settling (attempt_execution answer r)) (dn_host d)); try done.
  - by rewrite Hph.
  - apply (lk_healthy d Hok).
  - by rewrite Hph.
  - intros index Hidx Ht' Hp Htold. exists index. split_and!; [done..| |].
    + unfold phase_ok in *. rewrite Hph in Hp. cbn [in_phase wk_phase]. destruct Hp as (Hw & _). split; [by apply at_revision_app|].
      eexists. split; [apply elem_of_app; right; by apply list_elem_of_singleton|done].
    + intros row Hr. apply told_app. by eapply Htold.
  - constructor; [|done]. destruct (lk_tables d Hok) as (subs & index & _ & _ & _ & _ & K & _ & _).
    destruct (K i w Hi) as [_ Hp]. unfold phase_ok in Hp. rewrite Hph in Hp. destruct Hp as (_ & Hprep & Hrun).
    destruct (executed_log io l ticks t prepared answer r Hprep Hticks Ht Hx) as (started & frames & ended & Hlog & Hrep).
    rewrite Hrun in *. split.
    + exists started, frames, ended. split; [done|]. cbn [ea_answer ea_run ea_run_id]. intros report Ha.
      destruct (Hrep report Ha) as (e & He & Hpay & Hst & Hobs & _). exists e. split_and!; [done| |done]. by rewrite Hst, Hobs.
    + cbn [ea_answer ea_token]. intros report -> Hc. apply Hasked. by eapply cancelled_was_asked.
  - by apply Forall_singleton.
Qed.

Lemma unregister_ok d i w ended :
  lane_ok d -> dn_workers d !! i = Some w -> wk_phase w = Settling ended -> lane_ok (unregister i w ended d).
Proof.
  intros Hok Hi Hph. unfold unregister, to_phase, with_workers, with_host. cbn.
  destruct (lk_workers d Hok i w Hi) as (_ & _ & Ha & Hreg). rewrite Hph in Hreg. specialize (Hreg eq_refl).
  rewrite <- (app_nil_r (dn_ended d)). rewrite <- Ha in Hreg.
  destruct (host_drop_exact _ _ _ (lk_healthy d Hok) Hreg eq_refl) as (K1 & K2 & K3).
  apply (worker_step_ok d i w (Unregistered ended)); try done.
  - unfold tokens_set. by rewrite K2.
  - by rewrite Hph, K3, Ha.
  - intros index Hidx Ht' Hp Htold. exists index. rewrite app_nil_r. split_and!; [done..| |].
    + unfold phase_ok in *. rewrite Hph in Hp. done.
    + intros row Hr. by eapply Htold.
Qed.

Lemma report_running_ok d i w ended now_ms :
  lane_ok d -> dn_workers d !! i = Some w -> wk_phase w = Unregistered ended -> lane_ok (report_running i w ended now_ms d).
Proof.
  intros Hok Hi Hph. unfold report_running.
  assert (Hdone : lane_ok (to_phase i Reported w d)).
  { unfold to_phase, with_workers. rewrite <- (app_nil_r (dn_ended d)).
    apply (worker_step_ok d i w Reported (dn_host d)); try done; [apply (lk_healthy d Hok)|by rewrite Hph|].
    intros index Hidx Ht' Hp Htold. exists index. rewrite app_nil_r. split_and!; [done..|]. intros row Hr. by eapply Htold. }
  destruct now_ms as [now_ms|]; [|done]. destruct (advance_running w now_ms (dn_index d)) as [answer t] eqn:E.
  unfold to_phase, with_workers, with_index. cbn. rewrite <- (app_nil_r (dn_ended d)).
  apply (worker_step_ok d i w _ (dn_host d)); try done.
  - by destruct answer.
  - apply (lk_healthy d Hok).
  - rewrite Hph. by destruct answer.
  - intros index Hidx Ht' Hp Htold. unfold advance_running in E. rewrite Ht' in E.
    destruct (advance_effect _ index answer t Hidx E) as (index' & -> & Hok' & Heff). exists index'. rewrite app_nil_r.
    destruct answer as [receipt|e].
    + destruct Heff as (row & Hrow & _ & -> & Hind). 
      assert (Hend : ended_as (dn_ended d) (wk_submission_id w) ended) by (unfold phase_ok in Hp; rewrite Hph in Hp; tauto).
      pose proof (fun id revision => at_revision_advance _ _ _ _ _ anyone id revision Hind Hrow (ended_as_by _ _ _ Hend)) as Hat.
      cbn [sa_submission_id] in *. split_and!; [done|done| | | |].
      * intros id Hne. rewrite Hind. by rewrite (proj2 (Z.eqb_neq _ _)).
      * intros revision. apply Hat.
      * unfold phase_ok in *. rewrite Hph in Hp. cbn [in_phase wk_phase wk_submission_id]. destruct Hp as [_ _]. split; [|done].
        eexists. rewrite Hind, Z.eqb_refl. done.
      * intros r Hr. rewrite Hind, Z.eqb_refl in Hr. injection Hr as <-. by intros Hterm.
    + subst index'. split_and!; [done..|]. intros r Hr. by eapply Htold.
Qed.

Lemma is_terminal_moved s : RunIndex.is_terminal s = true -> s <> Ready /\ s <> Running.
Proof. by destruct s. Qed.

Lemma report_terminal_ok d i w ended running now_ms :
  lane_ok d -> dn_workers d !! i = Some w -> wk_phase w = Halfway ended running -> lane_ok (report_terminal i w ended running now_ms d).
Proof.
  intros Hok Hi Hph. unfold report_terminal, to_phase, with_workers, with_index. cbn.
  rewrite <- (app_nil_r (dn_ended d)). apply (worker_step_ok d i w Reported (dn_host d)); try done.
  - apply (lk_healthy d Hok).
  - by rewrite Hph.
  - intros index Hidx Ht' Hp Htold. rewrite app_nil_r. unfold phase_ok in Hp. rewrite Hph in Hp.
    destruct Hp as [(row & Hrow & Hst & Hseq & ->) (a & Ha & Hsub & ->)].
    unfold advance_terminal. destruct (RunIndex.is_terminal _) eqn:Et; cbn [negb].
    2: { exists index. split_and!; [done..|]. intros r Hr. by eapply Htold. }
    destruct (advance_state _ (dn_index d)) as [answer t] eqn:E. rewrite Ht' in E.
    destruct (advance_effect _ index answer t Hidx E) as (index' & -> & Hok' & Heff). exists index'.
    destruct answer as [receipt|e].
    + destruct Heff as (row' & Hrow' & _ & _ & Hind). 
      pose proof (fun id revision => at_revision_advance _ _ _ _ (dn_ended d) anyone id revision Hind Hrow'
        (ex_intro _ a (conj Ha (conj Hsub I)))) as Hat.
      cbn [sa_submission_id] in *. split_and!; [done|done| | |done|].
      * intros id Hne. rewrite Hind. by rewrite (proj2 (Z.eqb_neq _ _)).
      * intros revision. apply Hat.
      * intros r Hr. rewrite Hind, Z.eqb_refl in Hr. injection Hr as <-. intros _. right.
        apply find_entry_Some in Hrow' as [_ Hid]. unfold entry_key in Hid. cbn in Hid.
        exists (attempt_execution (ea_answer a) (ea_run a)). split_and!; [|done|].
        -- exists a. cbn. split_and!; [done|congruence|done].
        -- cbn. rewrite Hseq. done.
    + subst index'. split_and!; [done..|]. intros r Hr. by eapply Htold.
Qed.

Lemma forget_ok d w reopened : lane_ok d -> lane_ok (forget_attempt w reopened d).
Proof.
  intros Hok. unfold forget_attempt. destruct (prune_terminal_attempt _ _ _) as [answer host] eqn:E. cbn [snd].
  apply prune_terminal_exact in E as [E1 E2]. apply (other_host_ok host (dn_next d) (dn_spools d) d); [done| |by rewrite E1|by rewrite E2|done].
  unfold healthy. rewrite E1. apply (lk_healthy d Hok).
Qed.

Lemma finish_ok d i w : lane_ok d -> dn_workers d !! i = Some w -> wk_phase w = Reported -> lane_ok (finish_worker i w d).
Proof.
  intros [(subs & index & K1 & K2 & K3 & K4 & K5 & K6 & K7) Hh Hw Hr Hl Hd Hb He Htk] Hi Hph. unfold finish_worker. constructor; cbn; try done.
  - exists subs, index. split_and!; [done..| |done|done]. intros j v [_ Hj]%lookup_delete_Some. by apply (K5 j).
  - intros j v [Hne Hj]%lookup_delete_Some. destruct (Hw j v Hj) as (R1 & R2 & R3 & R4). split_and!; [done| |done|done].
    unfold release. apply elem_of_difference. split; [done|]. intros E%elem_of_singleton. apply Hne. by apply (Hd i j w v).
  - intros a r Ha. destruct (Hr a r Ha) as (j & v & Hj & Ea & Hhv & ->). exists j, v. split_and!; [|done..].
    rewrite lookup_delete_ne; [done|]. intros ->. rewrite Hi in Hj. injection Hj as <-. by rewrite Hph in Hhv.
  - unfold release. intros run [Hrun Hne]%elem_of_difference. destruct (Hl run Hrun) as (j & v & Hj & Hv). exists j, v. split; [|done].
    rewrite lookup_delete_ne; [done|]. intros ->. rewrite Hi in Hj. injection Hj as <-. apply Hne, elem_of_singleton. congruence.
  - intros j k v u [_ Hj]%lookup_delete_Some [_ Hk]%lookup_delete_Some. by apply (Hd j k v u).
  - etrans; [|exact Hb]. apply subseteq_size. unfold release. set_solver.
Qed.

Lemma cancel_ok source route run_id request_ref observed_sequence now_ms d :
  lane_ok d -> lane_ok (snd (cancel_run run_spec source route run_id request_ref observed_sequence now_ms d)).
Proof.
  intros Hok. unfold cancel_run. destruct (attempt_id_for run_spec run_id d) as [attempt_id|]; [|done].
  destruct (host_cancel attempt_id request_ref observed_sequence (dn_host d)) as [outcome host] eqn:E.
  apply host_cancel_exact in E as (E1 & _ & Htok).
  assert (Hhost : lane_ok (with_host host d)).
  { apply (other_host_ok host (dn_next d) (dn_spools d) d); [done| |by rewrite E1| |done].
    - unfold healthy. rewrite E1. apply (lk_healthy d Hok).
    - destruct Htok as [[-> _]|(r & _ & _ & ->)]; set_solver. }
  destruct (dispatched ← _; cancel_outcome dispatched); cbn [snd]; [by apply with_approvals_ok|done].
Qed.

(** * Starting *)

Lemma newest_row_found index run_id d record :
  index_ok index -> dn_index d = RunIndex.table_of index -> newest_row run_id d = Ok record ->
  indexed (ir_submission_id record) index = Some record /\ ir_run_id record = run_id.
Proof.
  intros Hok Ht. unfold newest_row. rewrite Ht, by_run_id_eq by done. destruct (RunIndex.identifier_ok run_id); [|done].
  cbn [map_err mbind result_bind]. destruct (last _) as [x|] eqn:E; [|done]. intros [= ->].
  apply last_Some_elem_of, elem_of_filter_rows in E as [Hrun Hin]. bool_prop. split; [|done].
  apply find_entry_elem; [apply Hok|done].
Qed.

Lemma custodied_found submissions record d entry :
  custody_ok submissions -> dn_submissions d = RunSubmissions.table_of submissions -> custodied record d = Ok entry ->
  entry ∈ submissions /\ en_submission_id entry = ir_submission_id record.
Proof.
  intros Hok Ht. unfold custodied. rewrite Ht, run_submissions_eq by done. destruct (RunSubmissions.identifier_ok _); [|done].
  cbn [map_err mbind result_bind]. destruct (List.find _ _) as [x|] eqn:E; [|done]. intros [= ->].
  apply find_some in E as [Hin Hid]. apply list_elem_of_In, elem_of_filter_rows in Hin as [_ Hin]. by bool_prop.
Qed.

(** What passes for a directory's name is ASCII. *)
Lemma containment_scalars run_id : is_containment_run_id run_id = true -> Forall (fun c => is_scalar c = true) run_id.
Proof.
  unfold is_containment_run_id. intros [[_ _]%andb_true_iff Hf]%andb_true_iff.
  assert (Hsmall : forall b, is_ascii_alphanumeric b || (b =? 45) || (b =? 95) = true -> 0 <= b < 128).
  { intros b. unfold is_ascii_alphanumeric, is_ascii_digit, is_ascii_lowercase, is_ascii_uppercase, in_range.
    rewrite !orb_true_iff, !andb_true_iff, !Z.leb_le, !Z.eqb_eq. lia. }
  rewrite (class_bytes (fun b => is_ascii_alphanumeric b || (b =? 45) || (b =? 95)) run_id) in Hf;
    [|intros b Hb; by apply Hsmall|exact Hf].
  apply ascii_scalar. apply Forall_forallb in Hf. eapply Forall_impl; [exact Hf|]. intros b Hb%Hsmall. unfold in_range.
  bool_prop. lia.
Qed.

(** What opening a run's spool does to the spools. *)
Definition spool_opened (run_id : list Z) (spools spools' : gmap (list Z) SpoolFiles) : Prop :=
  exists files, spools' = <[run_id := files]> spools /\
    opened_from run_id (default (mkSpoolFiles [] None) (spools !! run_id)) files.

Lemma open_spool_exact g run_id d opened d' :
  open_spool g run_id d = (opened, d') ->
  exists spools, d' = with_spools spools d /\ (spools = dn_spools d \/ spool_opened run_id (dn_spools d) spools) /\
    forall s, opened = Ok s -> spool_opened run_id (dn_spools d) spools /\ spools !! run_id = Some (files_of s) /\
      (Forall (fun c => is_scalar c = true) run_id -> in_u64 (gt_spool_budget g) -> spool_ok s).
Proof.
  unfold open_spool. destruct (gt_spool_access g).
  - intros [= <- <-]. exists (dn_spools d). split_and!; [by destruct d|by left|done].
  - intros [= <- <-]. eexists. split; [done|]. split; [|done]. right. eexists. split; [done|].
    split; by left.
  - destruct (open_files _ _ _ _ _) as [answer files] eqn:E. intros [= <- <-]. eexists. split; [done|].
    destruct (open_files_exact _ _ _ _ _ _ _ E) as [Hfrom Hfiles].
    assert (Ho : spool_opened run_id (dn_spools d) (<[run_id := files]> (dn_spools d))) by (by eexists).
    split; [by right|]. intros s ->. split; [done|]. rewrite lookup_insert_eq, (Hfiles s eq_refl). split; [done|].
    intros Hr [_ Hb]. destruct (open_files_Ok run_id (files_found run_id d) (gt_spool_budget g) (gt_spool_cut g)
      (gt_spool_status g) s) as [_ Hs]; [by rewrite E|]. by apply open_Ok in Hs as [Hs _].
Qed.

Lemma prepare_spool run_id plan_encodes containment s r :
  prepare run_id plan_encodes containment s = Ok r -> sv_spool r = s.
Proof.
  unfold prepare. do 3 (case_match; [done|]). destruct (run_id_new run_id); [|done]. cbn.
  case_match; [done|]. by intros [= <-].
Qed.

Lemma prepare_attempt_exact g run_id d answer d' :
  prepare_attempt g run_id d = (answer, d') ->
  exists spools, d' = with_spools spools d /\ (spools = dn_spools d \/ spool_opened run_id (dn_spools d) spools) /\
    forall prepared, answer = Ok prepared ->
      spool_opened run_id (dn_spools d) spools /\ spools !! run_id = Some (files_of (sv_spool prepared)) /\
      (is_containment_run_id run_id = true -> in_u64 (gt_spool_budget g) ->
       prepared_run prepared /\ sv_run_id prepared = run_id).
Proof.
  unfold prepare_attempt. destruct (_ ← granted (gt_fuse g) _; _).
  2: { intros [= <- <-]. exists (dn_spools d). split_and!; [by destruct d|by left|done]. }
  destruct (open_spool g run_id d) as [opened d1] eqn:Eo.
  destruct (open_spool_exact _ _ _ _ _ Eo) as (spools & -> & Hs & Hok). intros [= Ha <-].
  exists spools. split_and!; [done|done|]. intros prepared ->.
  apply bind_Ok in Ha as (s & Hopen & Hp). apply bind_Ok in Hp as (? & _ & Hp). apply bind_Ok in Hp as (r & Hr & Hp).
  apply bind_Ok in Hp as (? & _ & [= <-]). destruct opened as [s'|]; [|done]. injection Hopen as ->.
  destruct (prepare run_id _ _ s) as [r'|] eqn:Ep; [|done]. injection Hr as ->.
  destruct (Hok s eq_refl) as (Hopened & Hfiles & Hspool). rewrite (prepare_spool _ _ _ _ _ Ep). split_and!; [done..|].
  intros Hrun Hb. specialize (Hspool (containment_scalars _ Hrun) Hb).
  destruct (prepare_prepared _ _ _ _ _ Hspool Ep) as (Hprep & Hid & _). done.
Qed.

Lemma claimed_released run live : run ∉ live -> release run ({[run]} ∪ live) = live.
Proof. unfold release. intros. set_solver. Qed.

Lemma claim_Ok run live live' :
  claim run live = Ok live' -> (run ∉ live) /\ live' = ({[run]} ∪ live) /\ (size live < MAX_LIVE_ATTEMPTS)%nat.
Proof.
  unfold claim. case_bool_decide as E; [done|]. destruct (Nat.leb_spec MAX_LIVE_ATTEMPTS (size live)); [done|]. by intros [= <-].
Qed.

(** A start is refused and leaves the registrations, the claims and the workers, or
    adds one worker; it opens no spool but its run's. *)
Lemma start_exact g document submission_id revision d answer d' :
  healthy (dn_host d) -> start run_spec g document submission_id revision d = (answer, d') ->
  exists host next spools, healthy host /\ tokens_set host = tokens_set (dn_host d) /\ (dn_next d <= next)%nat /\
    match answer with
    | Err _ =>
        registrations (ah_dispatcher host) = registrations (ah_dispatcher (dn_host d)) /\
        (spools = dn_spools d \/
         exists run attempt, run_spec document = Some (run, attempt) /\ spool_opened run (dn_spools d) spools) /\
        d' = mkDaemon (dn_submissions d) (dn_index d) (dn_approvals d) host spools (dn_live d) (dn_workers d) next (dn_ended d)
               (dn_reading d)
    | Ok _ =>
        exists run attempt registration prepared,
          run_spec document = Some (run, attempt) /\ (run ∉ dn_live d) /\ (size (dn_live d) < MAX_LIVE_ATTEMPTS)%nat /\
          registered_at attempt (dn_host d) = None /\ hd_attempt_id registration = attempt /\ next = S (dn_next d) /\
          registrations (ah_dispatcher host) =
            <[attempt := mkRegistration (hd_epoch registration) (mkTokenSink attempt (dn_next d))]> (registrations (ah_dispatcher (dn_host d))) /\
          spool_opened run (dn_spools d) spools /\ spools !! run = Some (files_of (sv_spool prepared)) /\
          (in_u64 (gt_spool_budget g) -> prepared_run prepared /\ sv_run_id prepared = run) /\
          d' = mkDaemon (dn_submissions d) (dn_index d) (dn_approvals d) host spools ({[run]} ∪ dn_live d)
                 (<[dn_next d := mkWorker run attempt submission_id revision registration (Executing prepared)]> (dn_workers d)) next (dn_ended d)
                 (dn_reading d)
    end.
Proof.
  intros Hh. unfold start. destruct (_ ← granted _ _; _) as [[[run_id attempt_id] live]|refusal] eqn:E.
  2: { intros [= <- <-]. exists (dn_host d), (dn_next d), (dn_spools d). split_and!; [done|done|done|done|by left|by destruct d]. }
  apply bind_Ok in E as (? & _ & E). apply bind_Ok in E as (? & _ & E). apply bind_Ok in E as (? & _ & E).
  apply bind_Ok in E as (? & _ & E). apply bind_Ok in E as ([run attempt] & Hspec & E).
  apply bind_Ok in E as (? & Hname & E). apply bind_Ok in E as (live' & Hclaim & [= <- <- <-]).
  apply ok_or_Ok in Hspec. unfold granted in Hname. destruct (is_containment_run_id run) eqn:Hrun; [|done].
  apply claim_Ok in Hclaim as (Hnew & -> & Hsize). clear Hname.
  unfold prepare_and_spawn. destruct (_ ← gt_prompt g; _).
  2: { intros [= <- <-]. exists (dn_host d), (dn_next d), (dn_spools d). cbn. rewrite claimed_released by done.
       split_and!; [done..|by left|done]. }
  unfold register_attempt. cbn [with_live dn_host dn_next dn_submissions dn_index dn_approvals dn_spools dn_live dn_workers dn_ended].
  destruct (host_register attempt (mkTokenSink attempt (dn_next d)) (dn_host d)) as [registered host] eqn:Er.
  destruct (host_register_exact _ _ _ _ _ Hh Er) as (Hheal & Htok & Hreg).
  destruct registered as [registration|e].
  2: { subst host. intros [= <- <-]. exists (dn_host d), (S (dn_next d)), (dn_spools d). cbn. rewrite claimed_released by done.
       split_and!; [done|done|apply Nat.le_succ_diag_r|done|by left|done]. }
  destruct Hreg as (_ & Hat & Hfree & Hins).
  destruct (prepare_attempt g run _) as [answer' d1] eqn:Ep.
  destruct (prepare_attempt_exact _ _ _ _ _ Ep) as (spools & -> & Hspools & Hprep). clear Ep.
  cbn [dn_spools] in Hspools, Hprep. destruct answer' as [prepared|refusal]; intros [= <- <-].
  - destruct (Hprep prepared eq_refl) as (Hopened & Hfiles & Hready).
    exists host, (S (dn_next d)), spools. split_and!; [done|done|apply Nat.le_succ_diag_r|].
    exists run, attempt, registration, prepared. split_and!; try done. by apply Hready.
  - assert (Hreg : registered_at (hd_attempt_id registration) host = Some (mkRegistration (hd_epoch registration) (mkTokenSink attempt (dn_next d)))).
    { unfold registered_at. by rewrite Hins, Hat, lookup_insert_eq. }
    destruct (host_drop_exact registration host _ Hheal Hreg eq_refl) as (K1 & K2 & K3).
    exists (host_drop registration host), (S (dn_next d)), spools. split_and!; [done| |apply Nat.le_succ_diag_r| | |].
    + unfold tokens_set in *. by rewrite K2.
    + rewrite K3, Hins, Hat. by apply delete_insert_id.
    + destruct Hspools as [->|Hs]; [by left|right; by exists run, attempt].
    + cbn -[host_drop]. by rewrite claimed_released.
Qed.

Lemma start_ok g d reading :
  in_u64 (gt_spool_budget g) -> lane_ok d -> dn_reading d = Some reading ->
  lane_ok (snd (start run_spec g (en_document (rd_entry reading)) (ir_submission_id (rd_record reading)) (ir_revision (rd_record reading)) d)).
Proof.
  intros Hbudget Hok Hreading.
  destruct (start run_spec g _ _ _ d) as [answer d'] eqn:E.
  destruct (start_exact _ _ _ _ _ _ _ (lk_healthy d Hok) E) as (host & next & spools & Hheal & Htok & Hnext & Hcase). cbn [snd]. clear E.
  destruct answer as [[]|refusal]; [|destruct Hcase as (Hreg & _ & ->); apply other_host_ok; try done; by rewrite Htok].
  destruct Hcase as (run & attempt & registration & prepared & Hspec & Hnew & Hsize & Hfree & Hat & -> & Hins & _ & _ & Hprep & ->).
  destruct (Hprep Hbudget) as [Hprepared Hrunid].
  pose proof Hok as [(submissions & index & Hsubs & Hsubst & Hidx & Hidxt & Hworkers & Htold & Hread) Hh Hw Hr Hl Hd Hb He Htk].
  destruct (Hread reading Hreading) as (Hentry & Hid & Hat').
  assert (Hnone : dn_workers d !! dn_next d = None).
  { destruct (dn_workers d !! dn_next d) as [w|] eqn:E; [|done]. destruct (Hw _ _ E) as [? _]. lia. }
  assert (Hnorun : forall i v, dn_workers d !! i = Some v -> wk_run_id v <> run).
  { intros i v Hi E. apply Hnew. rewrite <- E. by apply (Hw i v). }
  constructor; cbn.
  - exists submissions, index. split_and!; [done..| |done|done].
    intros i v Hi. apply lookup_insert_Some in Hi as [[<- <-]|[Hne Hi]]; [|by apply (Hworkers i)].
    split; [by exists (rd_entry reading)|]. split_and!; [|by apply Hprepared|done].
    eapply at_revision_weaken; [|exact Hat']. intros a Ha _. rewrite Forall_forall in Htk. by apply Htk.
  - done.
  - intros i v Hi. apply lookup_insert_Some in Hi as [[<- <-]|[Hne Hi]]; cbn.
    + split_and!; [lia|set_solver|done|]. intros _. unfold registered_at. by rewrite Hins, lookup_insert_eq.
    + destruct (Hw i v Hi) as (R1 & R2 & R3 & R4). split_and!; [lia|set_solver|done|]. intros Hhv. specialize (R4 Hhv).
      unfold registered_at in *. rewrite Hins, lookup_insert_ne; [done|]. congruence.
  - intros b r. unfold registered_at. rewrite Hins. intros [[<- <-]|[Hne Ha]]%lookup_insert_Some.
    + eexists (dn_next d), _. rewrite lookup_insert_eq. by split_and!.
    + destruct (Hr b r Ha) as (i & v & Hi & Hrest). exists i, v. split; [|done].
      rewrite lookup_insert_ne; [done|]. congruence.
  - intros run' [->%elem_of_singleton|Hrun']%elem_of_union.
    + eexists (dn_next d), _. by rewrite lookup_insert_eq.
    + destruct (Hl run' Hrun') as (i & v & Hi & Hv). exists i, v. split; [|done]. rewrite lookup_insert_ne; [done|]. congruence.
  - intros i j v w Hi Hj E. apply lookup_insert_Some in Hi as [[<- <-]|[Hni Hi]], Hj as [[<- <-]|[Hnj Hj]]; [done|..].
    + by destruct (Hnorun j w Hj).
    + by destruct (Hnorun i v Hi).
    + by apply (Hd i j v w).
  - rewrite size_union by set_solver. rewrite size_singleton. lia.
  - by rewrite Htok.
  - eapply Forall_impl; [exact Htk|]. cbn. lia.
Qed.

Lemma with_reading_ok reading d :
  lane_ok d -> (forall r submissions index, reading = Some r -> custody_ok submissions ->
    dn_submissions d = RunSubmissions.table_of submissions -> index_ok index -> dn_index d = RunIndex.table_of index ->
    read_ok submissions index (dn_ended d) r) ->
  lane_ok (with_reading reading d).
Proof.
  intros [(subs & index & K1 & K2 & K3 & K4 & K5 & K6 & K7) Hh Hw Hr Hl Hd Hb He Htk] Hread. constructor; try done.
  exists subs, index. split_and!; [done..|]. cbn. intros r E. by apply (Hread r).
Qed.

(** What a reading is, when it is made. *)
Lemma start_read_found c run_id d reading submissions index :
  custody_ok submissions -> dn_submissions d = RunSubmissions.table_of submissions ->
  index_ok index -> dn_index d = RunIndex.table_of index -> start_read run_spec c run_id d = Ok reading ->
  newest_row run_id d = Ok (rd_record reading) /\ ir_spool_state (rd_record reading) = Ready /\
  rd_submission_id reading = ir_submission_id (rd_record reading) /\ read_ok submissions index (dn_ended d) reading.
Proof.
  intros K1 K2 K3 K4 E. unfold start_read in E.
  apply bind_Ok in E as (? & _ & E). apply bind_Ok in E as (? & _ & E). apply bind_Ok in E as (record & Hrec & E).
  apply bind_Ok in E as (? & Hready & E). apply bind_Ok in E as (entry & Hent & E). apply bind_Ok in E as (sid & Hsid & E).
  apply bind_Ok in E as ([] & _ & E). apply bind_Ok in E as (? & _ & E). apply bind_Ok in E as (? & _ & [= <-]).
  cbn [rd_record rd_entry rd_submission_id].
  destruct (newest_row_found index run_id d record K3 K4 Hrec) as [Hrow _].
  destruct (custodied_found submissions record d entry K1 K2 Hent) as [Hin Hid].
  apply ok_or_Ok, check_u64_Some in Hsid as [-> _].
  unfold granted in Hready. destruct (bool_decide _ && _) eqn:Er; [|done]. apply andb_true_iff in Er as [Er _].
  apply bool_decide_eq_true in Er. split_and!; [done..|]. split_and!; [done..|]. exists record. split; [done|]. by left.
Qed.

Lemma start_read_custody c run_id d reading :
  start_read run_spec c run_id d = Ok reading ->
  custodied (rd_record reading) d = Ok (rd_entry reading) /\ en_submission_id (rd_entry reading) = rd_submission_id reading.
Proof.
  intros E. unfold start_read in E.
  apply bind_Ok in E as (? & _ & E). apply bind_Ok in E as (? & _ & E). apply bind_Ok in E as (record & Hrec & E).
  apply bind_Ok in E as (? & _ & E). apply bind_Ok in E as (entry & Hent & E). apply bind_Ok in E as (sid & Hsid & E).
  apply bind_Ok in E as ([] & _ & E). apply bind_Ok in E as (? & _ & E). apply bind_Ok in E as (? & _ & [= <-]).
  by apply ok_or_Ok, check_u64_Some in Hsid as [-> _].
Qed.

Lemma start_read_ok c run_id d : lane_ok d -> lane_ok (with_reading (ok (start_read run_spec c run_id d)) d).
Proof.
  intros Hok. apply with_reading_ok; [done|]. intros r subs index Hr K1 K2 K3 K4.
  destruct (start_read run_spec c run_id d) as [reading|] eqn:E; [|done]. injection Hr as <-.
  by apply (start_read_found c run_id d reading subs index K1 K2 K3 K4 E).
Qed.

Lemma start_reading_ok c reading d :
  dn_reading d = Some reading -> (forall g, ss_lane c = Some g -> in_u64 (gt_spool_budget g)) -> lane_ok d ->
  lane_ok (with_reading None (snd (start_reading run_spec c reading d))).
Proof.
  intros Hreading Hbudget Hok. apply with_reading_ok; [|done]. unfold start_reading.
  destruct (admit_approval _ _ _ _ _ _) as [admitted lane]. destruct admitted; [|by apply with_approvals_ok].
  destruct (ss_lane c) as [g|] eqn:Eg; [|by apply with_approvals_ok].
  pose proof (start_ok g (with_approvals lane d) reading (Hbudget g eq_refl) (with_approvals_ok lane d Hok) Hreading) as Hstart.
  by destruct (start run_spec g _ _ _ (with_approvals lane d)) as [started d'].
Qed.

Lemma step_ok d d' : LaneStep run_spec d d' -> lane_ok d -> lane_ok d'.
Proof.
  intros Hs Hok. destruct Hs.
  - by apply submit_ok.
  - by apply index_register_ok.
  - by apply with_approvals_ok.
  - apply (other_host_ok _ (dn_next d) (dn_spools d) d); try done. apply (lk_healthy d Hok).
  - by apply start_read_ok.
  - by apply start_reading_ok.
  - by apply cancel_ok.
  - by eapply attempt_over_ok.
  - by apply unregister_ok.
  - by apply with_approvals_ok.
  - by apply report_running_ok.
  - by apply report_terminal_ok.
  - by apply forget_ok.
  - by apply finish_ok.
Qed.

Lemma reachable_ok submissions d0 d :
  opened submissions before d0 -> reachable run_spec d0 d -> lane_ok d.
Proof. intros Ho Hr. induction Hr; [by eapply opened_ok|by eapply step_ok]. Qed.

(** While a worker holds its registration, its row waits for its first report,
    unless an attempt before it reported. *)
Lemma waiting_row d i w :
  lane_ok d -> dn_workers d !! i = Some w -> holds_registration (wk_phase w) = true ->
  exists row, read_by_submission (wk_submission_id w) (dn_index d) = Ok (Some row) /\
    (ir_revision row = wk_revision w /\ ir_spool_state row = Ready /\ ir_last_sequence row = 0 \/
     wk_revision w < ir_revision row /\
     exists a, a ∈ dn_ended d /\ ea_submission_id a = wk_submission_id w /\ (ea_token a < i)%nat).
Proof.
  intros Hok Hi Hhw. destruct (lk_tables d Hok) as (subs & idx & _ & _ & K3 & K4 & K5 & _).
  destruct (K5 i w Hi) as [_ Hp].
  assert (Hat : at_revision idx (dn_ended d) (fun j => j < i)%nat (wk_submission_id w) (wk_revision w)).
  { unfold phase_ok in Hp. destruct (wk_phase w); try done; by destruct Hp. }
  destruct Hat as (row & Hrow & Hst). exists row. rewrite K4, read_indexed, Hrow by done. split; [done|].
  destruct Hst as [[Hrev Hst]|[Hlt Hended]]; [left|by right].
  split_and!; [done|done|]. apply find_entry_Some in Hrow as [Hrow _]. pose proof (el_valid _ _ _ _ _ _ K3) as Hv.
  rewrite Forall_forall in Hv. by apply (ro_ready row (Hv row Hrow)).
Qed.

(** C24: who runs, and what can still be cancelled.  In every state a daemon
    reaches, whatever its serve thread and its workers did in whatever order, at
    most eight runs are live and each has exactly one worker; a worker runs the
    document that custody holds for its submission; an attempt is registered for
    cancellation exactly while a worker of it has not given its registration up,
    with a sink that sets that worker's own token; and while it is registered, the
    row of its submission still says ready, at the revision the worker will report
    against, unless an attempt of that submission ended that was registered before
    this worker's. *)
Theorem live_attempts_are_registered submissions d0 d :
  opened submissions before d0 -> reachable run_spec d0 d ->
  (size (dn_live d) <= 8)%nat /\
  (forall run, run ∈ dn_live d <-> exists i w, dn_workers d !! i = Some w /\ wk_run_id w = run) /\
  (forall i j v w, dn_workers d !! i = Some v -> dn_workers d !! j = Some w -> wk_run_id v = wk_run_id w -> i = j) /\
  (forall a r, registered_at a (dn_host d) = Some r <->
     exists i w, dn_workers d !! i = Some w /\ wk_attempt_id w = a /\ holds_registration (wk_phase w) = true /\
       r = mkRegistration (hd_epoch (wk_registration w)) (mkTokenSink a i)) /\
  (forall i w, dn_workers d !! i = Some w ->
     (exists e, In (RunSubmissions.row_of e) (dn_submissions d) /\ en_submission_id e = wk_submission_id w /\
        run_spec (en_document e) = Some (wk_run_id w, wk_attempt_id w)) /\
     (holds_registration (wk_phase w) = true ->
      exists row, read_by_submission (wk_submission_id w) (dn_index d) = Ok (Some row) /\
        (ir_revision row = wk_revision w /\ ir_spool_state row = Ready /\ ir_last_sequence row = 0 \/
         wk_revision w < ir_revision row /\
         exists a, a ∈ dn_ended d /\ ea_submission_id a = wk_submission_id w /\ (ea_token a < i)%nat))).
Proof.
  intros Ho Hreach. pose proof (reachable_ok _ _ _ Ho Hreach) as Hok.
  pose proof Hok as [(subs & idx & K1 & K2 & K3 & K4 & K5 & K6 & K7) Hh Hw Hr Hl Hd Hb He Htk]. split_and!.
  - exact Hb.
  - intros run. split; [apply Hl|]. intros (i & w & Hi & <-). by apply (Hw i w).
  - exact Hd.
  - intros b r. split.
    + intros Ha. destruct (Hr b r Ha) as (i & w & Hi & <- & Hhw & ->). by exists i, w.
    + intros (i & w & Hi & <- & Hhw & ->). destruct (Hw i w Hi) as (_ & _ & _ & R). by apply R.
  - intros i w Hi. destruct (K5 i w Hi) as [(e & Hin & Hid & Hsp) Hp]. split.
    + exists e. rewrite K2. split_and!; [|done|done]. apply list_elem_of_In. unfold RunSubmissions.table_of, rows_of. by apply list_elem_of_fmap_2.
    + intros Hhw. by apply (waiting_row d i w).
Qed.

(** C25: a row tells how its run ended.  In every state a daemon reaches, a row
    that says a run ended said so when the daemon opened, or was written for an
    attempt that ended: its log is a
    start, frames of that run and at most one terminal event; when the attempt
    answered a report the row has the reported state and the sequence of the
    terminal event, which spells that outcome, and a run said to be cancelled had
    its own token set; when the supervisor failed the row says failed, and nothing
    else does.  The sequence is never below two, whatever the log reached. *)
Theorem rows_tell_what_ended submissions d0 d id row :
  opened submissions before d0 -> reachable run_spec d0 d ->
  read_by_submission id (dn_index d) = Ok (Some row) -> RunIndex.is_terminal (ir_spool_state row) = true ->
  read_by_submission id (dn_index d0) = Ok (Some row) \/
  exists a, a ∈ dn_ended d /\ ea_submission_id a = id /\
    exists started frames ended, attempt_log (ea_run_id a) started frames ended (ea_run a) /\
    match ea_answer a with
    | Ok report =>
        ir_spool_state row = spool_state (outcome_state (er_outcome report)) /\
        ir_last_sequence row = Z.max (len (log (ea_run a))) 2 /\
        (exists e, ended = [e] /\ ev_payload e = terminal_payload (er_outcome report)) /\
        (ir_spool_state row = Cancelled -> ea_token a ∈ tokens_set (dn_host d))
    | Err _ => ir_spool_state row = Failed /\ ir_last_sequence row = Z.max (sv_observed (ea_run a)) 2
    end.
Proof.
  intros Ho Hreach Hrow Hterm. pose proof (reachable_ok _ _ _ Ho Hreach) as [(subs & idx & K1 & K2 & K3 & K4 & K5 & K6 & K7) Hh Hw Hr Hl Hd Hb He Htk].
  rewrite K4, read_indexed in Hrow by done. injection Hrow as Hrow.
  destruct (K6 id row Hrow Hterm) as [Hold|(x & (a & Ha & Hsub & ->) & Hst & Hseq)].
  { left. destruct Ho as (_ & _ & I1 & -> & _). rewrite read_indexed by done. do 2 f_equal. apply find_entry_Some in Hrow as [_ <-].
    apply find_entry_elem; [apply I1|done]. }
  right.
  apply find_entry_Some in Hrow as [_ Hid]. unfold entry_key in Hid. cbn in Hid.
  exists a. split_and!; [done|congruence|]. rewrite Forall_forall in He. destruct (He a Ha) as [(started & frames & ended & Hlog & Hrep) Htok].
  exists started, frames, ended. split; [done|]. destruct (ea_answer a) as [report|e] eqn:Ea; [|by cbn in *].
  destruct (Hrep report eq_refl) as (e & Hend & Hstat & Hpay). cbn [attempt_execution ax_state ax_last_sequence] in Hst, Hseq.
  rewrite Hstat in Hst, Hseq. cbn [su_state su_last_sequence] in Hst, Hseq. split_and!; [done| |by exists e|].
  - rewrite Hseq. destruct (Z.eqb_spec (len (log (ea_run a))) 0) as [E|E]; [|done]. exfalso.
    pose proof (al_log _ _ _ _ _ Hlog) as Hl0. rewrite Hl0, Hend, !len_app in E.
    pose proof (len_nonneg started). pose proof (len_nonneg frames). change (len [e]) with 1 in E. lia.
  - intros Hc. apply (Htok report eq_refl). rewrite Hst in Hc. by destruct (er_outcome report).
Qed.

(** What the gate is asked about a run: its newest row, and the submission in
    custody under it. *)
Definition asked_of (c : StartSituation) (run_id : list Z) (d : Daemon) (record : RunIndexRecord) (entry : RunSubmissionEntry)
  : Refusable unit * ApprovalLane.Lane :=
  admit_approval (ss_standing c) run_id (en_spec_digest entry) (ss_observation c) (ss_now_ms c) (dn_approvals d).

(** C26: a refused start leaves nothing.  Whatever refuses it, before the claim
    or after the registration, the tables, the live runs, the workers, the
    registrations and the tokens that are set are as they were; of the spools
    only that of the run the submission's document names may have been opened,
    which cuts a torn last line off and writes the status of its events, and
    loses none; and of the approvals only the gate may have written, what it
    writes when it is asked about this very submission.  An accepted one starts
    exactly one worker, of the newest row of the run, which was ready, and of
    the document that custody holds under it, on the spool just opened, under a
    claim nobody had; and the gate let the digest of that submission pass, which
    left the approvals as they were. *)
Theorem start_is_all_or_nothing submissions d0 d c run_id answer d' :
  opened submissions before d0 -> reachable run_spec d0 d -> start_run run_spec c run_id d = (answer, d') ->
  dn_submissions d' = dn_submissions d /\ dn_index d' = dn_index d /\
  tokens_set (dn_host d') = tokens_set (dn_host d) /\
  match answer with
  | Err _ =>
      dn_live d' = dn_live d /\ dn_workers d' = dn_workers d /\
      registrations (ah_dispatcher (dn_host d')) = registrations (ah_dispatcher (dn_host d)) /\
      (dn_approvals d' = dn_approvals d /\ dn_spools d' = dn_spools d \/
       exists record entry, newest_row run_id d = Ok record /\ custodied record d = Ok entry /\
         dn_approvals d' = snd (asked_of c run_id d record entry) /\
         (dn_spools d' = dn_spools d \/
          fst (asked_of c run_id d record entry) = Ok tt /\
          exists run attempt, run_spec (en_document entry) = Some (run, attempt) /\
            spool_opened run (dn_spools d) (dn_spools d')))
  | Ok submission_id =>
      exists record entry w prepared, newest_row run_id d = Ok record /\ ir_spool_state record = Ready /\
        custodied record d = Ok entry /\ ir_submission_id record = submission_id /\ en_submission_id entry = submission_id /\
        asked_of c run_id d record entry = (Ok tt, dn_approvals d) /\ dn_approvals d' = dn_approvals d /\
        run_spec (en_document entry) = Some (wk_run_id w, wk_attempt_id w) /\
        wk_submission_id w = submission_id /\ wk_revision w = ir_revision record /\
        (wk_run_id w ∉ dn_live d) /\ dn_live d' = ({[wk_run_id w]} ∪ dn_live d) /\
        registered_at (wk_attempt_id w) (dn_host d) = None /\
        dn_workers d' = <[dn_next d := w]> (dn_workers d) /\
        wk_phase w = Executing prepared /\ spool_opened (wk_run_id w) (dn_spools d) (dn_spools d') /\
        dn_spools d' !! wk_run_id w = Some (files_of (sv_spool prepared))
  end.
Proof.
  intros Ho Hreach. pose proof (reachable_ok _ _ _ Ho Hreach) as Hok. unfold start_run.
  destruct (start_read run_spec c run_id d) as [reading|refusal] eqn:E; [|by intros [= <- <-]; split_and!; [..|left]].
  destruct (lk_tables d Hok) as (subs & idx & K1 & K2 & K3 & K4 & _).
  destruct (start_read_found c run_id d reading subs idx K1 K2 K3 K4 E) as (Hrec & Hready & Hsid & _).
  destruct (start_read_custody _ _ _ _ E) as [Hcust Hid]. destruct (newest_row_found idx run_id d _ K3 K4 Hrec) as [_ Hrun].
  unfold start_reading. destruct (admit_approval _ _ _ _ _ _) as [admitted lane] eqn:Eadm. rewrite Hrun in Eadm.
  assert (Hasked : asked_of c run_id d (rd_record reading) (rd_entry reading) = (admitted, lane)) by exact Eadm.
  destruct admitted as [[]|refusal].
  2: { intros [= <- <-]. split_and!; [done..|]. right. exists (rd_record reading), (rd_entry reading).
       rewrite Hasked. split_and!; [done..|by left]. }
  pose proof (proj1 (admit_Ok _ _ _ _ _ _ _ Eadm)) as ->.
  assert (Hsame : with_approvals (dn_approvals d) d = d) by (by destruct d). rewrite Hsame.
  destruct (ss_lane c) as [g|]; [|by intros [= <- <-]; split_and!; [..|left]].
  destruct (start run_spec g _ _ _ d) as [started d1] eqn:Es. intros [= <- <-].
  destruct (start_exact _ _ _ _ _ _ _ (lk_healthy d Hok) Es) as (host & next & spools & Hheal & Htok & Hnext & Hcase).
  destruct started as [[]|refusal].
  - destruct Hcase as (run & attempt & registration & prepared & Hspec & Hnew & Hsize & Hfree & Hat & -> & Hins & Hopened
      & Hfiles & Hprep & ->).
    do 3 (split; [done|]). exists (rd_record reading), (rd_entry reading).
    exists (mkWorker run attempt (ir_submission_id (rd_record reading)) (ir_revision (rd_record reading)) registration (Executing prepared)).
    exists prepared. rewrite Hasked. by split_and!.
  - destruct Hcase as (Hreg & Hspools & ->). cbn [dn_submissions dn_index dn_host dn_live dn_workers dn_approvals dn_spools mbind result_bind].
    split_and!; [done..|]. right. exists (rd_record reading), (rd_entry reading). rewrite Hasked. split_and!; [done..|].
    destruct Hspools as [->|Hs]; [by left|right]. by split.
Qed.

(** C27: a cancellation reaches only who can still be stopped.  Whatever run it
    is asked for, a delivery sets at most one token: that of the worker whose
    registration holds the attempt the run's newest document names, while that
    worker has not given it up.  An answer that it was delivered comes of that, or of
    the route to the source generation, which is asked only about an attempt that is
    not registered here.  Nothing else is touched but the ledger and the audit
    record. *)
Theorem cancellation_reaches_a_live_attempt submissions d0 d source route run_id request_ref observed_sequence now_ms answer d' :
  opened submissions before d0 -> reachable run_spec d0 d ->
  cancel_run run_spec source route run_id request_ref observed_sequence now_ms d = (answer, d') ->
  (dn_submissions d', dn_index d', dn_spools d', dn_live d', dn_workers d', dn_next d') =
    (dn_submissions d, dn_index d, dn_spools d, dn_live d, dn_workers d, dn_next d) /\
  ah_dispatcher (dn_host d') = ah_dispatcher (dn_host d) /\
  (tokens_set (dn_host d') = tokens_set (dn_host d) /\
     (answer = Ok AuditStore.Delivered -> exists attempt_id, attempt_id_for run_spec run_id d = Ok attempt_id /\
        registered_at attempt_id (dn_host d) = None /\ source attempt_id = Ok true /\ route = RouteOutcome OutDelivered) \/
   exists i w, tokens_set (dn_host d') = tokens_set (dn_host d) ++ [i] /\ dn_workers d !! i = Some w /\
     attempt_id_for run_spec run_id d = Ok (wk_attempt_id w) /\ holds_registration (wk_phase w) = true).
Proof.
  intros Ho Hreach. pose proof (reachable_ok _ _ _ Ho Hreach) as Hok. unfold cancel_run.
  destruct (attempt_id_for run_spec run_id d) as [attempt_id|refusal] eqn:E; [|intros [= <- <-]; by split_and!; [..|left]].
  destruct (host_cancel attempt_id request_ref observed_sequence (dn_host d)) as [outcome host] eqn:Eh.
  destruct (host_cancel_exact _ _ _ _ _ _ Eh) as (Hdisp & [o ->] & Hcase).
  set (audited := match _ with Err refusal => _ | Ok outcome => _ end). intros Ea.
  assert (Hd : exists l, d' = with_approvals l (with_host host d)).
  { subst audited. destruct (_ ← _; _); injection Ea as _ <-; eexists; [done|]. by destruct d. }
  destruct Hd as [l ->]. split; [done|]. split; [done|]. destruct Hcase as [(Htok & Hno & Hunknown)|(r & Hr & Hat & Htok)].
  - left. split; [done|]. intros ->. exists attempt_id. split; [done|]. subst audited. destruct o; try done.
    rewrite Hunknown by done. unfold source_cancel in Ea. destruct (source attempt_id) as [[]|]; try done.
    by destruct route as [[]| | | |].
  - right. destruct (lk_registered d Hok attempt_id r Hr) as (i & w & Hi & Ha & Hholds & ->).
    exists i, w. split_and!; try done. by rewrite Ha.
Qed.
End Invariant.

(** * Witnesses *)

(** A decoder of two documents that name one attempt. *)
Definition demo_run_spec (document : list Z) : option (list Z * list Z) :=
  if bool_decide (document = [1]) then Some (str "run-1", str "attempt-1")
  else if bool_decide (document = [2]) then Some (str "run-2", str "attempt-1")
  else None.

Definition demo_row (state : RunSpoolState) : RunIndexRecord :=
  RunIndex.mkRecord 1 1 (str "run-1") state (if bool_decide (state = Ready) then 0 else 4) 5
    (if bool_decide (state = Ready) then 1 else 3).

Definition demo_daemon (submissions : Custody) (index : Records) : Daemon :=
  mkDaemon (RunSubmissions.table_of submissions) (RunIndex.table_of index) (ApprovalLane.mkLane (mkStore [] []) [] [])
    (mkAttemptHost dispatcher_new (mkHosted (custody_new 8 [] (Some 0)) [])) ∅ ∅ ∅ 0 [] None.

Definition demo_opened : Daemon := demo_daemon [RunSubmissions.demo_entry] [demo_row Ready].

Lemma demo_opened_ok : opened [RunSubmissions.demo_entry] [demo_row Ready] demo_opened.
Proof.
  split_and!; [exact RunSubmissions.demo_custody_ok|done| |done..].
  constructor; [|apply NoDup_singleton|done|done]. constructor; [|constructor]. by constructor; vm_compute.
Qed.

Definition demo_gates : Gates :=
  mkGates true (Some true) true (Ok tt) (Ok tt) true (Ok tt) (Ok tt) true true true true SpoolUsable 100000 CutDone StatusReplaced
    (Ok tt) true true true.

Definition demo_situation : StartSituation :=
  mkSituation false false (fun _ => Ok false)
    (ApprovalLane.mkStanding Approval.Allowed true false false DEFAULT_LIFETIME demo_handle)
    (ApprovalLane.mkObservation true None None []) 6 (Some demo_gates).

(** What the first worker does next. *)
Definition demo_next (io : nat -> AppendIo) (l : Launch) (d : Daemon) : Daemon :=
  match dn_workers d !! 0%nat with
  | None => d
  | Some w =>
      match wk_phase w with
      | Executing prepared =>
          match @execute toy_hash io l (demo_ticks 100) demo_teardown prepared with
          | Some (answer, r) => attempt_over 0 w answer r d
          | None => d
          end
      | Settling ended => unregister 0 w ended d
      | Unregistered ended => report_running 0 w ended (Some 11) d
      | Halfway ended running => report_terminal 0 w ended running 12 d
      | Reported => finish_worker 0 w d
      end
  end.

Lemma demo_next_reached io l d0 d :
  la_cancelled l = false -> @reachable toy_hash no_random_rowid demo_run_spec d0 d ->
  @reachable toy_hash no_random_rowid demo_run_spec d0 (demo_next io l d).
Proof.
  intros Hl0 Hr. unfold demo_next. destruct (dn_workers d !! 0%nat) as [w|] eqn:Ew; [|done].
  destruct (wk_phase w) eqn:Ep; [destruct (execute _ _ _ _ _) as [[answer r]|] eqn:Ex; [|done]|..];
    (eapply reachable_step; [exact Hr|]).
  - eapply ls_execute; [exact Ew|exact Ep|apply demo_ticks_ok|exact demo_teardown_ok| |exact Ex].
    intros [Hl|Ht]; [congruence|]. unfold demo_ticks in Ht. by rewrite !Exists_cons, Exists_nil in Ht; destruct Ht as [|[|]].
  - by apply ls_unregister.
  - by apply ls_running.
  - by apply ls_terminal.
  - by apply ls_finish.
Qed.

Abbreviation demo_start run d := (@start_run toy_hash no_random_rowid demo_run_spec demo_situation (str run) d).

(** The two steps of a start of [run-1]. *)
Definition demo_read (d : Daemon) : Daemon :=
  with_reading (ok (start_read demo_run_spec demo_situation (str "run-1") d)) d.

Definition demo_go (d : Daemon) : Daemon :=
  match dn_reading d with
  | Some reading => with_reading None (snd (@start_reading toy_hash no_random_rowid demo_run_spec demo_situation reading d))
  | None => d
  end.

Definition demo_started : Daemon := demo_go (demo_read demo_opened).

Lemma demo_start_reached d0 d :
  @reachable toy_hash no_random_rowid demo_run_spec d0 d ->
  @reachable toy_hash no_random_rowid demo_run_spec d0 (demo_read d) /\
  @reachable toy_hash no_random_rowid demo_run_spec d0 (demo_go d).
Proof.
  intros Hr. split; [eapply reachable_step; [exact Hr|apply ls_read]|]. unfold demo_go.
  destruct (dn_reading d) as [reading|] eqn:E; [|done]. eapply reachable_step; [exact Hr|].
  apply ls_start; [done|]. intros g [= <-]. vm_compute. by split.
Qed.

Lemma demo_started_reached : @reachable toy_hash no_random_rowid demo_run_spec demo_opened demo_started.
Proof. apply demo_start_reached, demo_start_reached, reachable_start. Qed.

Definition demo_reported : Daemon := Nat.iter 4 (demo_next good_disk demo_launch) demo_started.

Lemma demo_reported_reached : @reachable toy_hash no_random_rowid demo_run_spec demo_opened demo_reported.
Proof. do 4 (apply demo_next_reached; [done|]). exact demo_started_reached. Qed.

Lemma live_attempts_are_registered_witness :
  exists r row, registered_at (str "attempt-1") (dn_host demo_started) = Some r /\
    read_by_submission 1 (dn_index demo_started) = Ok (Some row) /\
    (ir_revision row = 1 /\ ir_spool_state row = Ready /\ ir_last_sequence row = 0 \/
     1 < ir_revision row /\ exists a, a ∈ dn_ended demo_started /\ ea_submission_id a = 1 /\ (ea_token a < 0)%nat).
Proof.
  destruct (@live_attempts_are_registered toy_hash toy_hash_laws no_random_rowid no_random_rowid_laws demo_run_spec
    [demo_row Ready] [RunSubmissions.demo_entry] demo_opened demo_started demo_opened_ok demo_started_reached)
    as (_ & _ & _ & _ & Hw).
  assert (Hi : exists w, dn_workers demo_started !! 0%nat = Some w /\ wk_submission_id w = 1 /\ wk_revision w = 1 /\
    holds_registration (wk_phase w) = true).
  { eexists. split; [vm_compute; reflexivity|]. split_and!; reflexivity. }
  destruct Hi as (w & Hi & Hid & Hrev & Hh). destruct (Hw 0%nat w Hi) as [_ Hrow]. destruct (Hrow Hh) as (row & Hr & Hst).
  rewrite Hid in Hr, Hst. rewrite Hrev in Hst. eexists _, row. split; [vm_compute; reflexivity|]. exact (conj Hr Hst).
Defined.

Lemma rows_tell_what_ended_witness :
  exists row a report, read_by_submission 1 (dn_index demo_reported) = Ok (Some row) /\ ir_spool_state row = Completed /\
    a ∈ dn_ended demo_reported /\ ea_answer a = Ok report /\ spool_state (outcome_state (er_outcome report)) = Completed.
Proof.
  assert (Hrow : exists row, read_by_submission 1 (dn_index demo_reported) = Ok (Some row) /\ ir_spool_state row = Completed)
    by (eexists; split; [vm_compute; reflexivity|reflexivity]).
  destruct Hrow as (row & Hrow & Hst).
  destruct (@rows_tell_what_ended toy_hash toy_hash_laws no_random_rowid no_random_rowid_laws demo_run_spec
    [demo_row Ready] [RunSubmissions.demo_entry] demo_opened demo_reported 1 row demo_opened_ok demo_reported_reached Hrow)
    as [Hold|(a & Ha & _ & started & frames & ended & _ & Hx)].
  - by rewrite Hst.
  - exfalso. assert (Ho : read_by_submission 1 (dn_index demo_opened) = Ok (Some (demo_row Ready))) by (vm_compute; reflexivity).
    rewrite Ho in Hold. injection Hold as <-. discriminate Hst.
  - destruct (ea_answer a) as [report|e] eqn:Ea; [|destruct Hx as [Hx _]; congruence].
    destruct Hx as [Hx _]. exists row, a, report. rewrite Hst in Hx. split_and!; [exact Hrow|exact Hst|exact Ha|exact Ea|by symmetry].
Defined.

Lemma start_is_all_or_nothing_witness :
  exists w, dn_workers (snd (demo_start "run-1" demo_opened)) = <[0%nat := w]> (dn_workers demo_opened) /\ wk_submission_id w = 1 /\
    fst (demo_start "run-1" demo_started) = Err AlreadyExecuting /\
    dn_workers (snd (demo_start "run-1" demo_started)) = dn_workers demo_started.
Proof.
  assert (H1 : fst (demo_start "run-1" demo_opened) = Ok 1) by (vm_compute; reflexivity).
  assert (H2 : fst (demo_start "run-1" demo_started) = Err AlreadyExecuting) by (vm_compute; reflexivity).
  destruct (demo_start "run-1" demo_opened) as [first d1] eqn:E1, (demo_start "run-1" demo_started) as [second d2] eqn:E2.
  cbn [fst snd] in *. subst first second.
  destruct (@start_is_all_or_nothing toy_hash toy_hash_laws no_random_rowid no_random_rowid_laws demo_run_spec
    [demo_row Ready] [RunSubmissions.demo_entry] demo_opened demo_opened demo_situation (str "run-1") (Ok 1) d1
    demo_opened_ok (reachable_start _ _) E1)
    as (_ & _ & _ & record & entry & w & prepared & _ & _ & _ & _ & _ & _ & _ & _ & Hid & _ & _ & _ & _ & Hw & _).
  destruct (@start_is_all_or_nothing toy_hash toy_hash_laws no_random_rowid no_random_rowid_laws demo_run_spec
    [demo_row Ready] [RunSubmissions.demo_entry] demo_opened demo_started demo_situation (str "run-1") (Err AlreadyExecuting) d2
    demo_opened_ok demo_started_reached E2) as (_ & _ & _ & _ & Hsame & _).
  exists w. split_and!; [exact Hw|exact Hid|reflexivity|exact Hsame].
Defined.

(** The operator's cancellation of a run. *)
Abbreviation demo_cancel run d :=
  (@cancel_run no_random_rowid demo_run_spec (fun _ => Ok false) RouteGone (str run) (str "cancel-1") 0 7 d).

Lemma cancellation_reaches_a_live_attempt_witness :
  fst (demo_cancel "run-1" demo_started) = Ok AuditStore.Delivered /\
  exists i w, tokens_set (dn_host (snd (demo_cancel "run-1" demo_started))) = tokens_set (dn_host demo_started) ++ [i] /\
    dn_workers demo_started !! i = Some w.
Proof.
  assert (H1 : fst (demo_cancel "run-1" demo_started) = Ok AuditStore.Delivered) by (vm_compute; reflexivity).
  destruct (demo_cancel "run-1" demo_started) as [answer d] eqn:E. cbn [fst snd] in *. split; [exact H1|].
  destruct (@cancellation_reaches_a_live_attempt toy_hash toy_hash_laws no_random_rowid no_random_rowid_laws demo_run_spec
    [demo_row Ready] [RunSubmissions.demo_entry] demo_opened demo_started (fun _ => Ok false) RouteGone (str "run-1") (str "cancel-1") 0 7
    answer d demo_opened_ok demo_started_reached E) as (_ & _ & [[_ Hd]|(i & w & Ht & Hi & _)]).
  - destruct (Hd H1) as (? & _ & _ & Hs & _). discriminate Hs.
  - exists i, w. exact (conj Ht Hi).
Defined.

(** Nothing keeps two runs from naming one attempt: a cancellation of the run that
    is over stops the other, and the audit names the first. *)
Definition demo_submissions : Custody :=
  [RunSubmissions.demo_entry;
   RunSubmissions.accepted 2 (RunSubmissions.mkSubmission (str "key-2") (str "run-2") (replicate 64 98) [2] 8)].

Definition demo_index : Records := [demo_row Completed; RunIndex.mkRecord 2 2 (str "run-2") Ready 0 9 1].

Definition demo_shared : Daemon := demo_daemon demo_submissions demo_index.

Lemma demo_shared_ok : opened demo_submissions demo_index demo_shared.
Proof.
  split_and!; [|done| |done..]; (constructor; [| |done|by vm_compute]).
  1,3: constructor; [|constructor; [|constructor]]; by constructor; vm_compute.
  all: by apply (bool_decide_unpack _); vm_compute.
Qed.

Example a_cancellation_reaches_another_run :
  let '(answer, d) := demo_cancel "run-1" (snd (demo_start "run-2" demo_shared)) in
  answer = Ok AuditStore.Delivered /\ (wk_run_id <$> dn_workers d !! 0%nat) = Some (str "run-2") /\
  tokens_set (dn_host d) = [0%nat] /\ ApprovalLane.audited (dn_approvals d) = [CCancellation (str "run-1") AuditStore.Delivered 7].
Proof. vm_compute. by split_and!. Qed.

(** The run is read as ready while its first worker runs; that worker, whose process
    did not start and whose log took nothing, reports and is gone; and the run is
    started again, although its row says that it failed. *)
Definition demo_raced : Daemon :=
  demo_go (Nat.iter 5 (demo_next (fun _ => mkAppendIo None None Wrote StatusReplaced) (mkLaunch false None (Some true) true))
    (demo_read demo_started)).

Example a_run_starts_over_its_report :
  @reachable toy_hash no_random_rowid demo_run_spec demo_opened demo_raced /\
  (ir_spool_state <$> ok (read_by_submission 1 (dn_index demo_raced)) ≫= id) = Some Failed /\
  (wk_run_id <$> dn_workers demo_raced !! 1%nat) = Some (str "run-1") /\
  is_Some (registered_at (str "attempt-1") (dn_host demo_raced)).
Proof.
  split; [|by vm_compute; eauto]. apply demo_start_reached. do 5 (apply demo_next_reached; [done|]).
  apply demo_start_reached. exact demo_started_reached.
Qed.
